(* ===== verification/_CoqProject ===== *)
-Q . S2P
Prelude.v
Output.v
Numbers.v
Options.v
Quoting.v
Alias.v
Character.v
Quote.v
State.v
StateCopy.v
StateTheorems.v
Arithmetic.v
ArithmeticTheorems.v
ArithmeticDenotation.v
Expansion.v
Pathname.v
Fields.v
FieldSplitting.v
Descriptors.v
Redirect.v
RedirectTheorems.v
Input.v
InputTheorems.v
Invocation.v
InvocationTheorems.v
Signals.v
Traps.v
TrapsTheorems.v
Builtin.v
BuiltinTheorems.v
Jobs.v
JobsTheorems.v
Process.v
Lexer.v
LexerLook.v
LexerTree.v
LexerSafety.v
LexerTurns.v
LexerTotal.v
LexerCalls.v
LexerReplay.v
LexerTheorems.v
Values.v
ValueLogic.v
ValueStructure.v
ValueSafety.v
ValuesTheorems.v
LexerKinds.v
Ast.v
AstTheorems.v
Parser.v
Grammar.v
ParserLexer.v
ParserLogic.v
ParserSafety.v
GrammarLook.v
GrammarTree.v
GrammarLists.v
ParserFuel.v
ParserTheorems.v
Prepare.v
PrepareTheorems.v
Plan.v
PlanTheorems.v
Execution.v
ExecutionTheorems.v
Utility.v
UtilityTheorems.v
Directory.v
Execute.v
ExecuteLogic.v
ExecuteSteady.v
ExecuteTheorems.v
