(* ===== verification/Prelude.v ===== *)
(** * A verification development for cshell

    cshell is a POSIX shell in C.  This library translates its components into
    Rocq functions and proves what makes each of them correct.  File names of
    the program are relative to src/ of the repository.

    ** How the program is put together

    [main.c] parses its command line ([invocation.c]), opens a source of
    commands ([input.c]) and asks the parser ([parser.c], over the tokens of
    [lexer.c] and the nodes of [ast.c]) for one complete command after another.
    The executor ([execute.c]) turns a tree into a plan and walks the plan.  For
    each command it prepares words, assignments and redirections
    ([prepare.c]): words are expanded by [expand.c], which evaluates
    [$((...))] with [arithmetic.c] and calls the executor back for command
    substitutions; [fields.c] splits fields and [pathname.c] makes path names.
    It applies redirections ([redirect.c]), starts processes, keeps them in the
    job table ([jobs.c]) and runs trap actions ([traps.c]).  The state of the
    shell ([state.c]: variables, parameters, functions, options, the command
    hash) is shared by all of them; [alias.c] keeps the aliases; [builtin.c]
    and [utility.c] are the commands that change the state for the user.

    ** Files of the library

    - [Prelude]: bytes and C strings, machine integers, the host process
      [proc] (oracles for allocations, writes, stdio calls and cancellation;
      what was printed; reference counts), the monad [M] over it, and the
      predicate [post] with its rules, which the proofs about [M] use.
    - [Output] (include/cshell/output.h, input.h): [csh_write_bytes], positions
      and error records.  [Numbers]: decimal printing and [strtol].
      [Options] (options.h): the option inventory.  [Quoting]: a reader of
      shell quoting, the reference against which listings are proved.
    - [Alias] (alias.c): the sorted table and the alias and unalias builtins.
    - [Character] (character.c) and [Quote] (quote.c): character lengths over
      the locale of the host, and the decoder of [$'...'].
    - [State] (state.c), with [StateCopy] and [StateTheorems]: a record
      [csh_state] with one function per operation of the C module; clones,
      checkpoints, saved variables, the environment, the locale.
    - [Arithmetic] (arithmetic.c), with [ArithmeticTheorems] and
      [ArithmeticDenotation]: tokens, the precedence-climbing evaluator, the
      probes; total correctness against a denotational semantics of trees.
    - [Expansion] (expand.h), [Pathname] (pathname.c), [Fields] (fields.c),
      [FieldSplitting]: the monad [X] of operations that can be interrupted,
      path name generation over an abstract file system, field splitting
      against the rule that POSIX states over tokens.
    - [Descriptors]: the descriptor table of the process with interruptible
      calls, the monad [K].  [Redirect] (redirect.c), [RedirectTheorems]:
      saving, applying and restoring redirections.  [Input] (input.c),
      [InputTheorems]: lines from strings and descriptors.  [Invocation]
      (invocation.c), [InvocationTheorems]: the command line.
    - [Signals]: dispositions, delivery, the flags that handlers set and signal
      names ([jobs.c], [traps.c]).  [Traps] (traps.c), [TrapsTheorems]: the
      trap table and builtin.
    - [Builtin] (builtin.c), [BuiltinTheorems]: set, shift, unset, export,
      readonly, the dispatch, and the path resolution of cd.
    - [Jobs] (jobs.c), [JobsTheorems]: the job table over a host of child
      processes, queued statuses and arriving signals, the monad [J], whose
      [None] is a call that blocks for ever.
    - [Lexer] (lexer.c): the incremental tokenizer over a tape that a chain of
      lexers shares, the monad [L], whose [Fault] is an access outside of a
      buffer or a missing context.  [LexerLook]: the cached lookahead against a
      fresh scan.  [LexerTree]: the fragment tree of a word and the effect of
      the primitive operations on it.  [LexerSafety]: arithmetic probes and
      recovery.  [LexerTurns], [LexerTotal]: every turn of the main loop ends
      or makes progress.  [LexerCalls], [LexerReplay], [LexerTheorems]: the
      calls of lexer.h, reading a suspended word again, sessions of all calls
      that change a lexer, and what they promise.  [LexerKinds]: what a call
      leaves of the lexers behind the one it works on.
    - [Ast] (ast.c, ast.h), [AstTheorems]: nodes, words and redirections, their
      growing vectors, constructors and mutators.
    - [Parser], [Grammar] (parser.c): the recursive descent, the monad [P] over
      a chain of parse frames, one for each lexer of the tape.  [ParserLexer]:
      the contracts of the lexer that the parser relies on.  [ParserLogic]: the
      trees of the grammar ([parsed]), good parsers and the rules of [safe].
      [ParserSafety], [GrammarLook], [GrammarTree], [GrammarLists]: one lemma
      for every function, from failures to lists.  [ParserFuel],
      [ParserTheorems]: fuel, and the calls of parser.h.
    - [Values] (expand.c): tildes, parameters, arithmetic and substitutions in a
      word, the monad [V] over the state, whose [VFault] is a read outside of
      the spelling or a vector.  [ValueLogic]: the rules of the logic and the
      lengths of character loops.  [ValueStructure]: the check of the structure
      of a word.  [ValueSafety], [ValuesTheorems]: one lemma for every
      function, and csh_expand_word.
    - [Process]: what surrounds a process, for computations that leave it.
      [Prepare] (prepare.c), [PrepareTheorems]: words, assignments and
      redirections of a command, the monad [W]; the executor is the class
      [Executor] with the contract [executor_sound], which [ExecuteTheorems]
      shows of the executor of the shell.
    - [Plan] (execute.c), [PlanTheorems]: the walk over a tree that makes a plan.
    - [Execution] (execute.c), [ExecutionTheorems]: a shell process [shell], the
      class [System] of what the system answers, the monad [E], whose outcomes
      are a value, the end of the process, its replacement by a program, a call
      that blocks for ever and the end of the fuel; launches, assignments,
      resolved commands, pipes, traces, lookups.
    - [Utility] (utility.c), [UtilityTheorems]: read, getopts, umask, times,
      ulimit.  [Directory] (builtin.c): cd, pwd and the dispatch of builtins.
    - [Execute] (execute.c): the functions that call each other, from
      substitutions, traps, functions and handlers to jobs, pipelines and
      compound commands; a [level] is one turn of their recursion.
      [ExecuteLogic]: the surroundings of a computation and the rules of
      [gives_back].  [ExecuteSteady]: one lemma for every function.
      [ExecuteTheorems]: what the executor gives back, what a substitution
      delivers, and the expansion of words with the executor behind it.

    A C structure is a [Record] with the names of its fields, an enumeration an
    [Inductive] with the names of its constants, and a C function the
    [Definition] or [Fixpoint] of the same name; a loop of a C function is a
    [Fixpoint] next to it.  A pointer that walks a string is the rest of the
    string.  Mutation is passing the record on.  What the C library or the
    system decides (locale, collation, pattern matching, file system, results
    of calls) is a class or a field of the host, with the documented behaviour
    that a theorem needs as a class of laws or a named hypothesis.

    ** What the theorems show

    - Refinement of a reference: arithmetic against the denotation of trees,
      field splitting against the POSIX rule, the cached lookahead against a
      fresh scan, the alias table and the descriptor snapshots against finite maps, [normalize] against a stack of
      names.
    - Round trips: checkpoints, saved variables, parameter frames, the
      environment, redirections, signal dispositions; what alias, trap -p and
      set +o print reads back; quoting decodes back; a printed command line parses back.
    - Invariants and safety: read-only variables, well-formed states and tables
      through all operations, errors that leave the state as it was, buffers
      that are never overrun, quoted text that is never split nor matched; in a
      session with the lexer every call returns, errors are kept, and the
      fragments of every token are properly nested; a parser that calls lead to
      never crashes, gives trees of the grammar, and repeats its errors.
    - Bounds and termination: overflow of every arithmetic operator, evaluation
      of every text, the moment at which a wait for a job ends and its status.
    - The executor: plans mirror trees; assignments before a command are
      atomic and are undone; the search for a program and its status; what runs
      gives back the depth of loops, the context, the scopes, the sources and
      the marks; a substitution delivers what its child wrote, and words are
      expanded safely and completely or not at all with it; a pipeline has one
      status with and without job control; masks, options and fields that
      utilities print and read again.
    - Three defects are theorems: [redirect_relocation_clobbers] (a relocated
      backup is overwritten), [wait_hangup_window] (a hang-up between the test
      and [sigsuspend] does not end a wait) and [parameter_split_divergence]
      (the tokens of an input depend on where a feed ends).

    ** Fuel

    A loop that is not structural takes fuel, and a theorem of the component
    shows that the amount its caller gives is enough: 2n+2 for an arithmetic
    text of length n; one more than the text for scans; one more than the
    descriptor limit for private descriptors; the bytes left and the answers to
    come for reading a line; the results still queued for interrupted calls;
    the statuses queued for a poll; the arrivals for a wait; one more than the
    length for path resolution; four turns of the lexer for every unread byte,
    one for every open context, and two more; 64 doublings for a vector.  The
    fuel of the parser is an argument: [parser_fuel_irrelevant] shows that it
    does not change an answer, and the examples of [ParserTheorems] run.  The
    executor recurses over [level_at n]: a level calls the one below, loops of
    the program make at most n turns, and a run that needs more is [ESpent];
    scripts need not end, so no level is enough for all of them.  A plan is
    made within one turn per node, which [plan_prepare_planned] shows.

    ** Not modelled

    - [main.c]: the start of the C library, prompts, and the loop that hands
      commands to the executor; each call that it makes is in its component.
    - The reference counts and the destruction of trees in [ast.c]: a tree is
      a value here.  Function objects have their counts.
    - The acquisition of the terminal at the start and the readiness loop of
      input in [jobs.c], which wait for a terminal; signal masks around forks.
    - [stack.c] and the startup locale object of [character.c], which only ask
      the C library; where the program consults them the answer is an oracle.
    - The files under tests/, tools/ and vendor directories. *)

From stdpp Require Import base list gmap strings sorting.
From Stdlib Require Import ZArith Lia Ascii.

Declare Scope cshell_scope.
Delimit Scope cshell_scope with csh.
Open Scope Z_scope.
Open Scope cshell_scope.

(** ** Bytes and C strings

    A byte is its unsigned value, a C string the list of the bytes before its
    terminating NUL.  A [char *] that walks a string is the list of the bytes
    that are still to be read, so [*p] is [peek p] and [++p] is [tail p]. *)

Abbreviation byte := Z.
Abbreviation str := (list Z).

(** Character and string literals, elaborated to the numerals themselves. *)
Definition of_string (s : string) : str :=
  List.map (fun a => Z.of_N (N_of_ascii a)) (String.list_ascii_of_string s).

Notation "'ch' x" :=
  (ltac:(let v := eval vm_compute in (hd 0 (of_string x)) in exact v))
  (at level 9, x at level 0, only parsing) : cshell_scope.
Notation "'bs' x" :=
  (ltac:(let v := eval vm_compute in (of_string x) in exact v))
  (at level 9, x at level 0, only parsing) : cshell_scope.

(** [*p]; the terminating NUL is read at the end of the string. *)
Definition peek (s : str) : byte := hd 0 s.

Definition is_byte (b : byte) : Prop := 0 <= b < 256.

(** What a C string holds: bytes, none of them NUL. *)
Definition cstring (s : str) : Prop := Forall (fun b => 0 < b < 256) s.

Definition between (lo b hi : Z) : bool := (lo <=? b) && (b <=? hi).

Definition str_eqb (a b : str) : bool := bool_decide (a = b).

(** The order of [strcmp]: bytes compared as [unsigned char], NUL first. *)
Fixpoint strcmp (a b : str) : comparison :=
  match a, b with
  | [], [] => Eq
  | [], _ :: _ => Lt
  | _ :: _, [] => Gt
  | x :: a', y :: b' =>
      match x ?= y with
      | Eq => strcmp a' b'
      | c => c
      end
  end.

Definition strcmp_lt (a b : str) : Prop := strcmp a b = Lt.

(** [strchr(s, c)] for a byte other than NUL: the suffix that starts with it. *)
Fixpoint strchr (s : str) (c : byte) : option str :=
  match s with
  | [] => None
  | x :: s' => if x =? c then Some s else strchr s' c
  end.

Definition in_set (c : byte) (set : str) : bool := existsb (Z.eqb c) set.

(** [strncmp(s, p, strlen(p)) == 0] *)
Fixpoint starts_with (p s : str) : bool :=
  match p, s with
  | [], _ => true
  | x :: p', y :: s' => (x =? y) && starts_with p' s'
  | _ :: _, [] => false
  end.

(** The split of a string at its first [c]: the bytes before it and, when there
    is one, the bytes after it. *)
Fixpoint cut_at (s : str) (c : byte) : str * option str :=
  match s with
  | [] => ([], None)
  | x :: s' => if x =? c then ([], Some s') else
      let '(a, r) := cut_at s' c in (x :: a, r)
  end.

(** ** Machine integers

    The supported hosts are LP64: [long] and [size_t] have 64 bits, [int] has 32. *)

Definition LONG_MAX : Z := 2 ^ 63 - 1.
Definition LONG_MIN : Z := - 2 ^ 63.
Definition LONG_BIT : Z := 64.
Definition SIZE_MAX : Z := 2 ^ 64 - 1.
Definition INT_MAX : Z := 2 ^ 31 - 1.

Definition is_long (z : Z) : Prop := LONG_MIN <= z <= LONG_MAX.
Definition is_size (z : Z) : Prop := 0 <= z <= SIZE_MAX.

#[export] Instance is_long_dec z : Decision (is_long z).
Proof. unfold is_long. apply _. Defined.

#[export] Instance is_size_dec z : Decision (is_size z).
Proof. unfold is_size. apply _. Defined.

(** The complement of a 32-bit [unsigned]. *)
Definition unot (z : Z) : Z := Z.lxor z (2 ^ 32 - 1).

Definition slen (s : str) : Z := Z.of_nat (length s).

(** ** The host process

    What the modelled code reads or changes outside its own data.  The host
    decides whether an allocation succeeds and what a [write] does, so both are
    oracles: the results of the calls still to come, after which every call
    succeeds in full. *)

Inductive write_result : Type :=
  | WWrote (n : nat)     (* a partial or complete write of [n] bytes *)
  | WInterrupted         (* -1 with EINTR *)
  | WFailed.             (* -1 with another errno *)

Inductive locale_category : Type :=
  | LC_CTYPE | LC_COLLATE | LC_MESSAGES | LC_MONETARY | LC_NUMERIC | LC_TIME.

#[export] Instance locale_category_eq_dec : EqDecision locale_category.
Proof. solve_decision. Defined.

Record proc : Type := mk_proc {
  p_alloc : list bool;             (* results of the next allocations *)
  p_writes : list write_result;    (* results of the next write calls *)
  p_stdio : list bool;             (* results of the next stdio calls *)
  p_stdout : str;                  (* bytes that reached descriptor 1 *)
  p_stderr : str;                  (* bytes that reached descriptor 2 *)
  p_locale : locale_category -> str;
  p_functions : gmap Z Z;          (* function payload -> reference count *)
  p_interrupts : list bool         (* results of the next cancellation checks *)
}.

(** ** The state monad of the host process *)

Definition M (A : Type) : Type := proc -> A * proc.

Definition ret {A} (a : A) : M A := fun w => (a, w).
Definition bind {A B} (m : M A) (f : A -> M B) : M B :=
  fun w => let '(a, w') := m w in f a w'.

Notation "'let*' x ':=' m 'in' k" := (bind m (fun x => k))
  (at level 10, x strict pattern, m at level 200, k at level 200,
   format "'let*'  x  ':='  m  'in' '//' k") : cshell_scope.
Notation "m ;;; k" := (bind m (fun _ => k))
  (at level 100, right associativity) : cshell_scope.

(** One call of [malloc], [calloc], [realloc] or [strdup]. *)
Definition malloc : M bool := fun w =>
  match p_alloc w with
  | [] => (true, w)
  | b :: rest => (b, mk_proc rest (p_writes w) (p_stdio w) (p_stdout w) (p_stderr w)
                       (p_locale w) (p_functions w) (p_interrupts w))
  end.

Definition set_locale (f : locale_category -> str) : M unit := fun w =>
  (tt, mk_proc (p_alloc w) (p_writes w) (p_stdio w) (p_stdout w) (p_stderr w)
         f (p_functions w) (p_interrupts w)).

Definition set_functions (f : gmap Z Z) : M unit := fun w =>
  (tt, mk_proc (p_alloc w) (p_writes w) (p_stdio w) (p_stdout w) (p_stderr w)
         (p_locale w) f (p_interrupts w)).

Definition put_stdout (s : str) : M unit := fun w =>
  (tt, mk_proc (p_alloc w) (p_writes w) (p_stdio w) (p_stdout w ++ s) (p_stderr w)
         (p_locale w) (p_functions w) (p_interrupts w)).

Definition put_stderr (s : str) : M unit := fun w =>
  (tt, mk_proc (p_alloc w) (p_writes w) (p_stdio w) (p_stdout w) (p_stderr w ++ s)
         (p_locale w) (p_functions w) (p_interrupts w)).

(** A stdio output call on the stream of descriptor 1: it takes all of [s] or
    fails with EOF and takes nothing. *)
Definition stdio_put (s : str) : M bool := fun w =>
  let '(ok, rest) := match p_stdio w with [] => (true, []) | b :: l => (b, l) end in
  (ok, mk_proc (p_alloc w) (p_writes w) rest
         (if ok then p_stdout w ++ s else p_stdout w)
         (p_stderr w) (p_locale w) (p_functions w) (p_interrupts w)).

(** A cooperative cancellation callback: true asks to stop. *)
Definition interrupted : M bool := fun w =>
  match p_interrupts w with
  | [] => (false, w)
  | b :: rest => (b, mk_proc (p_alloc w) (p_writes w) (p_stdio w) (p_stdout w) (p_stderr w)
                       (p_locale w) (p_functions w) rest)
  end.

(** The host grants every allocation from here on. *)
Definition calm (w : proc) : Prop := p_alloc w = [].

(** No cancellation is requested from here on. *)
Definition undisturbed (w : proc) : Prop := p_interrupts w = [].

(** ** Reasoning about [M]

    [post m w Q]: running [m] in [w] gives a result and a process that satisfy
    [Q].  Every computation of [M] returns, so this is total correctness. *)

Definition post {A} (m : M A) (w : proc) (Q : A -> proc -> Prop) : Prop :=
  let '(a, w') := m w in Q a w'.

Lemma post_ret {A} (a : A) w (Q : A -> proc -> Prop) : Q a w -> post (ret a) w Q.
Proof. auto. Qed.

Lemma post_bind {A B} (m : M A) (f : A -> M B) w (Q : B -> proc -> Prop) :
  post m w (fun a w' => post (f a) w' Q) -> post (bind m f) w Q.
Proof. unfold post, bind. by destruct (m w). Qed.

Lemma post_mono {A} (m : M A) w (P Q : A -> proc -> Prop) :
  post m w P -> (forall a w', P a w' -> Q a w') -> post m w Q.
Proof. unfold post. destruct (m w). auto. Qed.

Lemma post_eq {A} (m : M A) w a w' (Q : A -> proc -> Prop) :
  m w = (a, w') -> post m w Q -> Q a w'.
Proof. unfold post. by intros ->. Qed.

Lemma post_run {A} (m : M A) w (Q : A -> proc -> Prop) :
  post m w Q -> Q (fst (m w)) (snd (m w)).
Proof. unfold post. by destruct (m w). Qed.

Lemma bind_run {A B} (m : M A) (f : A -> M B) w a w' :
  m w = (a, w') -> bind m f w = f a w'.
Proof. unfold bind. by intros ->. Qed.

Lemma malloc_calm w : calm w -> malloc w = (true, w).
Proof. unfold calm, malloc. by intros ->. Qed.

Lemma interrupted_run w : undisturbed w -> interrupted w = (false, w).
Proof. unfold undisturbed, interrupted. by intros ->. Qed.

(** An allocation changes nothing but the oracle. *)
Definition same_host (w w' : proc) : Prop :=
  p_stdout w' = p_stdout w /\ p_stderr w' = p_stderr w /\
  p_locale w' = p_locale w /\ p_functions w' = p_functions w.

#[export] Instance same_host_preorder : PreOrder same_host.
Proof. split; [by repeat split | intros w1 w2 w3 (?&?&?&?) (?&?&?&?); repeat split; congruence]. Qed.

Lemma post_malloc w (Q : bool -> proc -> Prop) :
  (forall b w', same_host w w' -> (calm w -> w' = w /\ b = true) -> Q b w') ->
  post malloc w Q.
Proof.
  intros H. unfold post, malloc. destruct (p_alloc w) eqn:E.
  - apply H; [reflexivity | auto].
  - apply H; [by repeat split | unfold calm; congruence].
Qed.

(** ** Automation *)

Create HintDb cshell.
Create Rewrite HintDb cshell.

#[export] Hint Resolve same_host_preorder : cshell.
#[export] Hint Rewrite @bool_decide_eq_true @bool_decide_eq_false @Z.eqb_eq @Z.eqb_neq
  @andb_true_iff @orb_true_iff @negb_true_iff @negb_false_iff @andb_false_iff @orb_false_iff
  @Z.leb_le @Z.leb_gt @Z.ltb_lt @Z.ltb_ge : cshell.

(** Turn boolean tests of the code into propositions. *)
Ltac bsimp :=
  repeat match goal with H : @eq bool _ _ |- _ => progress autorewrite with cshell in H end;
  autorewrite with cshell.

(** Step through a computation of [M]. *)
Ltac mstep :=
  match goal with
  | |- post (bind _ _) _ _ => apply post_bind
  | |- post (ret _) _ _ => apply post_ret
  | |- post malloc _ _ => apply post_malloc; intros
  | |- post (match ?x with _ => _ end) _ _ => let E := fresh "E" in destruct x eqn:E
  end.

Ltac msteps := repeat (mstep; simpl).

(** ** Shared lemmas *)

Lemma strcmp_refl a : strcmp a a = Eq.
Proof. induction a; simpl; [done | by rewrite Z.compare_refl]. Qed.

Lemma strcmp_eq a b : strcmp a b = Eq <-> a = b.
Proof.
  split; [|intros ->; apply strcmp_refl].
  revert b. induction a as [|x a IH]; intros [|y b]; simpl; try done.
  destruct (x ?= y) eqn:E; try done. apply Z.compare_eq in E as ->.
  intros H. f_equal. auto.
Qed.

Lemma strcmp_antisym a b : strcmp b a = CompOpp (strcmp a b).
Proof.
  revert b. induction a as [|x a IH]; intros [|y b]; simpl; try done.
  rewrite (Z.compare_antisym x y). destruct (x ?= y); simpl; auto.
Qed.

#[export] Instance strcmp_lt_trans : Transitive strcmp_lt.
Proof.
  intros a. unfold strcmp_lt. induction a as [|x a IH]; intros [|y b] [|z c]; simpl; try done.
  destruct (x ?= y) eqn:E1; destruct (y ?= z) eqn:E2; try done;
    rewrite ?Z.compare_eq_iff, ?Z.compare_lt_iff in *; subst.
  - rewrite Z.compare_refl. eauto.
  - apply Z.compare_lt_iff in E2. by rewrite E2.
  - apply Z.compare_lt_iff in E1. by rewrite E1.
  - intros _ _. destruct (Z.compare_lt_iff x z) as [_ H]. rewrite H; [done | lia].
Qed.

Lemma strcmp_lt_irrefl a : ~ strcmp_lt a a.
Proof. unfold strcmp_lt. by rewrite strcmp_refl. Qed.

Lemma starts_with_app p s : starts_with p s = true <-> exists r, s = p ++ r.
Proof.
  revert s. induction p as [|x p IH]; intros s; simpl.
  - split; [by exists s | done].
  - destruct s as [|y s].
    + split; [done | by intros [r ?]].
    + rewrite andb_true_iff, Z.eqb_eq, IH. split.
      * intros [-> [r ->]]. by exists r.
      * intros [r [= -> ->]]. eauto.
Qed.

Lemma cut_at_spec s c a r : cut_at s c = (a, r) ->
  s = a ++ match r with Some t => c :: t | None => [] end /\ c ∉ a.
Proof.
  revert a r. induction s as [|x s IH]; intros a r; simpl.
  - intros [= <- <-]. split; [done | set_solver].
  - destruct (x =? c) eqn:E; bsimp; subst.
    + intros [= <- <-]. split; [done | set_solver].
    + destruct (cut_at s c) as [a' r'] eqn:E'. intros [= <- <-].
      destruct (IH _ _ eq_refl) as [-> ?]. split; [done | set_solver].
Qed.

Lemma cut_at_app a c t : c ∉ a -> cut_at (a ++ c :: t) c = (a, Some t).
Proof.
  induction a as [|x a IH]; simpl; intros H.
  - by rewrite Z.eqb_refl.
  - destruct (x =? c) eqn:E; bsimp; [set_solver|]. rewrite IH; [done | set_solver].
Qed.

Lemma in_set_elem c set : in_set c set = true <-> c ∈ set.
Proof.
  unfold in_set. rewrite existsb_exists. split.
  - intros (x & Hx & E). bsimp. subst. by apply list_elem_of_In.
  - intros H. exists c. rewrite Z.eqb_refl. split; [by apply list_elem_of_In | done].
Qed.

Lemma str_eqb_spec a b : str_eqb a b = true <-> a = b.
Proof. apply bool_decide_eq_true. Qed.

Lemma str_eqb_false a b : str_eqb a b = false <-> a <> b.
Proof. apply bool_decide_eq_false. Qed.

#[export] Hint Rewrite str_eqb_spec str_eqb_false : cshell.

Lemma stdio_put_post s w (Q : bool -> proc -> Prop) :
  (forall ok w', Q ok w') -> post (stdio_put s) w Q.
Proof. intros H. unfold post, stdio_put. destruct (p_stdio w); apply H. Qed.

(** A process in which every call succeeds. *)
Definition quiet_proc : proc := mk_proc [] [] [] [] [] (fun _ => bs "C") ∅ [].

Lemma sublist_Forall_1 {A} (P : A -> Prop) (l k : list A) :
  l `sublist_of` k -> Forall P k -> Forall P l.
Proof. induction 1; intros Hk; [done|..]; apply Forall_cons in Hk as [? ?]; auto. Qed.

Lemma sublist_sorted {A} (R : relation A) (l k : list A) :
  l `sublist_of` k -> StronglySorted R k -> StronglySorted R l.
Proof.
  induction 1 as [|x l k Hsub IH|x l k Hsub IH]; intros Hs; [done|..];
    apply StronglySorted_inv in Hs as [Hs Hall].
  - constructor; [by apply IH|]. by eapply sublist_Forall_1.
  - by apply IH.
Qed.

(** [a & (1 << k)] tests bit [k]. *)
Lemma land_bit_zero a k : 0 <= k -> (Z.land a (Z.shiftl 1 k) =? 0) = negb (Z.testbit a k).
Proof.
  intros Hk. rewrite Z.shiftl_1_l. destruct (Z.testbit a k) eqn:E; simpl.
  - apply Z.eqb_neq. intros H0. assert (Z.testbit (Z.land a (2 ^ k)) k = true) as Ht.
    { by rewrite Z.land_spec, E, Z.pow2_bits_true. }
    by rewrite H0, Z.bits_0 in Ht.
  - apply Z.eqb_eq. apply Z.bits_inj'. intros i Hi. rewrite Z.land_spec, Z.bits_0.
    destruct (Z.eq_dec i k) as [->|Hne]; [by rewrite E|].
    by rewrite Z.pow2_bits_false, andb_false_r by lia.
Qed.

Lemma unot_testbit a k : 0 <= k < 32 -> Z.testbit (unot a) k = negb (Z.testbit a k).
Proof.
  intros Hk. unfold unot. change (2 ^ 32 - 1) with (Z.ones 32).
  by rewrite Z.lxor_spec, Z.ones_spec_low, xorb_true_r.
Qed.
