(* ===== verification/Output.v ===== *)
(** * Error records and descriptor output

    [csh_position] and [csh_error] of include/cshell/input.h, the errno values
    the models name, [csh_write_bytes] and [csh_write_text] of
    include/cshell/output.h.  The loop of [csh_write_bytes] is proved to retry
    interrupted and partial writes without losing or repeating a byte. *)

From stdpp Require Import base list gmap strings.
From S2P Require Import Prelude.

(** ** Positions and errors (include/cshell/input.h) *)

Record csh_position : Type := mk_position { offset : Z; line : Z; column : Z }.

Inductive errno : Type :=
  | ENONE | EINVAL | ENOMEM | EINTR | EIO | EBADF | EMFILE | EEXIST | EISDIR
  | ENOENT | ENOTDIR | ECHILD | EACCES | ENAMETOOLONG | ELOOP | EOVERFLOW | ERANGE | EBUSY
  | EOTHER (n : Z).

#[export] Instance errno_eq_dec : EqDecision errno.
Proof. solve_decision. Defined.

(** [message] is [None] in the cleared record; [detail] and [reported] are set
    by the executor only. *)
Record csh_error : Type := mk_error {
  message : option str;
  detail : str;
  reported : bool;
  system_errno : errno;
  status : Z;
  argument_index : Z;
  position : csh_position
}.

Definition no_position : csh_position := mk_position 0 0 0.
Definition no_error : csh_error := mk_error None [] false ENONE 0 0 no_position.

Definition csh_error_message (e : csh_error) : option str :=
  if bool_decide (detail e = []) then message e else Some (detail e).

(** ** Descriptor output (include/cshell/output.h) *)

Inductive out_fd : Type := STDOUT | STDERR.

Definition fd_put (fd : out_fd) (s : str) : M unit :=
  match fd with STDOUT => put_stdout s | STDERR => put_stderr s end.

(** The loop of [csh_write_bytes] over the results of the coming [write] calls:
    whether it succeeded, the bytes that were sent and the results left over.
    [write] never reports more than it was given. *)
Fixpoint write_loop (io : list write_result) (bytes : str) : bool * str * list write_result :=
  match bytes with
  | [] => (true, [], io)
  | _ =>
      match io with
      | [] => (true, bytes, [])
      | WInterrupted :: io' => write_loop io' bytes
      | WFailed :: io' => (false, [], io')
      | WWrote n :: io' =>
          let count := Nat.min n (length bytes) in
          if (count =? 0)%nat then (false, [], io')
          else
            let '(ok, sent, rest) := write_loop io' (drop count bytes) in
            (ok, take count bytes ++ sent, rest)
      end
  end.

Definition set_writes (io : list write_result) : M unit := fun w =>
  (tt, mk_proc (p_alloc w) io (p_stdio w) (p_stdout w) (p_stderr w)
         (p_locale w) (p_functions w) (p_interrupts w)).

(** Returns 0 or -1. *)
Definition csh_write_bytes (fd : out_fd) (data : str) : M Z := fun w =>
  let '(ok, sent, rest) := write_loop (p_writes w) data in
  (set_writes rest;;; fd_put fd sent;;; ret (if ok then 0 else -1)) w.

Definition csh_write_text (fd : out_fd) (text : str) : M Z := csh_write_bytes fd text.

(** A sequence of texts written one after the other, stopping at the first
    failure, as [a < 0 || b < 0 || ...] does. *)
Fixpoint write_texts (fd : out_fd) (texts : list str) : M Z :=
  match texts with
  | [] => ret 0
  | t :: rest => let* r := csh_write_text fd t in
      if r <? 0 then ret (-1) else write_texts fd rest
  end.

(** ** Properties *)

Lemma write_loop_prefix io bytes ok sent rest :
  write_loop io bytes = (ok, sent, rest) ->
  exists unsent, bytes = sent ++ unsent /\ (ok = true <-> unsent = []).
Proof.
  revert bytes ok sent rest. induction io as [|r io IH]; intros bytes ok sent rest H;
    destruct bytes as [|b bytes]; simpl in H.
  - simplify_eq. by exists [].
  - simplify_eq. exists []. by rewrite app_nil_r.
  - simplify_eq. by exists [].
  - destruct r as [n| |].
    + destruct (Nat.min n (S (length bytes))) as [|c] eqn:Ec; simpl in H.
      * simplify_eq. by exists (b :: bytes).
      * destruct (write_loop io (drop c bytes)) as [[ok' sent'] rest'] eqn:E.
        simplify_eq. destruct (IH _ _ _ _ E) as (u & Hu & Hok).
        exists u. split; [|done]. simpl. rewrite <- app_assoc, <- Hu. by rewrite take_drop.
    + eauto.
    + simplify_eq. by exists (b :: bytes).
Qed.

(** A host that neither fails a write nor writes nothing. *)
Definition write_progresses (r : write_result) : Prop :=
  match r with WWrote n => (0 < n)%nat | WInterrupted => True | WFailed => False end.

Lemma write_loop_complete io bytes :
  Forall write_progresses io -> exists rest, write_loop io bytes = (true, bytes, rest).
Proof.
  intros H. revert bytes. induction H as [|r io Hr Hio IH]; intros [|b bytes]; simpl; eauto.
  destruct r as [n| |]; simpl in Hr; [|eauto|done].
  destruct (Nat.min n (S (length bytes))) as [|c] eqn:Ec; [lia|]. simpl.
  destruct (IH (drop c bytes)) as [rest ->]. eexists. by rewrite take_drop.
Qed.

Lemma csh_write_bytes_quiet fd data w :
  p_writes w = [] -> csh_write_bytes fd data w = (0, snd (fd_put fd data w)).
Proof.
  intros E. unfold csh_write_bytes. rewrite E.
  replace (write_loop [] data) with (true, data, @nil write_result) by (by destruct data).
  unfold bind, ret, set_writes. destruct w, fd; simpl in *; subst; done.
Qed.

(** A host that grants every allocation and takes every write in full. *)
Definition silent (w : proc) : Prop := calm w /\ p_writes w = [].

Definition printed (s : str) (w : proc) : proc := snd (put_stdout s w).

Lemma printed_silent s w : silent w -> silent (printed s w).
Proof. done. Qed.

Lemma printed_app a b w : printed b (printed a w) = printed (a ++ b) w.
Proof. unfold printed, put_stdout. simpl. by rewrite <- app_assoc. Qed.

Lemma write_silent data w : silent w -> csh_write_bytes STDOUT data w = (0, printed data w).
Proof. intros [_ Hw]. by rewrite csh_write_bytes_quiet. Qed.

(** [csh_write_bytes] appends a prefix of its data to the descriptor and
    returns 0 exactly when that prefix is all of it, whatever the host answers
    to the single [write] calls: interrupted and partial writes neither lose,
    reorder nor repeat a byte, and no other descriptor is touched. *)
Theorem csh_write_bytes_correct (data : str) (w : proc) :
  exists sent unsent,
    data = sent ++ unsent /\
    p_stdout (snd (csh_write_bytes STDOUT data w)) = p_stdout w ++ sent /\
    p_stderr (snd (csh_write_bytes STDOUT data w)) = p_stderr w /\
    (fst (csh_write_bytes STDOUT data w) = 0 <-> unsent = []).
Proof.
  unfold csh_write_bytes. destruct (write_loop (p_writes w) data) as [[ok sent] rest] eqn:E.
  destruct (write_loop_prefix _ _ _ _ _ E) as (unsent & -> & Hok).
  exists sent, unsent. split_and!; [done..|]. destruct ok; simpl; [tauto|].
  split; [lia | intros H; by apply Hok in H].
Qed.
