(* ===== verification/Numbers.v ===== *)
(** * Decimal numbers and formatted output of the C library

    [snprintf] with %ld, [strtol] in base ten and [dprintf] as the sources use
    them.  Printing a [long] and reading it back is the identity. *)

From stdpp Require Import base list gmap strings.
From S2P Require Import Prelude Output.

(** ** Printing *)

(** [snprintf(buffer, size, "%ld", number)]: 20 digits are enough for a [long]. *)
Fixpoint digits (fuel : nat) (n : Z) (acc : str) : str :=
  match fuel with
  | O => acc
  | S f => let acc := (ch "0" + n mod 10) :: acc in
      if n / 10 =? 0 then acc else digits f (n / 10) acc
  end.

Definition print_long (n : Z) : str :=
  if n <? 0 then ch "-" :: digits 20 (- n) [] else digits 20 n [].

(** ** Reading *)

Definition isdigit (c : byte) : bool := between (ch "0") c (ch "9").

(** [isspace] of a single byte in the supported locales. *)
Definition isspace (c : byte) : bool := (c =? 32) || between 9 c 13.

Fixpoint skip_while (p : byte -> bool) (s : str) : str :=
  match s with
  | c :: rest => if p c then skip_while p rest else s
  | [] => []
  end.

(** [strspn(s, set)] for the set of the bytes that satisfy [p]. *)
Fixpoint span (p : byte -> bool) (s : str) : str * str :=
  match s with
  | c :: rest => if p c then let '(a, b) := span p rest in (c :: a, b) else ([], s)
  | [] => ([], [])
  end.

Definition digits_number (ds : str) : Z := foldl (fun a c => a * 10 + (c - ch "0")) 0 ds.

(** A sign, when there is one, and what follows it. *)
Definition take_sign (s : str) : bool * str :=
  match s with
  | c :: rest => if c =? ch "-" then (true, rest) else if c =? ch "+" then (false, rest) else (false, s)
  | [] => (false, [])
  end.

(** [strtol(s, &end, 10)]: the value, the text at [end] and whether [errno] is
    ERANGE.  Without a digit nothing is consumed. *)
Definition strtol (s : str) : Z * str * bool :=
  let '(negative, body) := take_sign (skip_while isspace s) in
  let '(ds, rest) := span isdigit body in
  if bool_decide (ds = []) then (0, s, false) else
  let v := if negative then - digits_number ds else digits_number ds in
  if v <? LONG_MIN then (LONG_MIN, rest, true)
  else if LONG_MAX <? v then (LONG_MAX, rest, true)
  else (v, rest, false).

(** ** Formatted descriptor output

    [dprintf] writes its text with as many calls as it takes; unlike
    [csh_write_bytes] it gives up at an interrupted call. *)

Fixpoint dprintf_loop (io : list write_result) (bytes : str) : bool * str * list write_result :=
  match bytes with
  | [] => (true, [], io)
  | _ =>
      match io with
      | [] => (true, bytes, [])
      | WInterrupted :: io' | WFailed :: io' => (false, [], io')
      | WWrote n :: io' =>
          let count := Nat.min n (length bytes) in
          if (count =? 0)%nat then (false, [], io')
          else
            let '(ok, sent, rest) := dprintf_loop io' (drop count bytes) in
            (ok, take count bytes ++ sent, rest)
      end
  end.

(** The number of bytes, or -1. *)
Definition dprintf (fd : out_fd) (text : str) : M Z := fun w =>
  let '(ok, sent, rest) := dprintf_loop (p_writes w) text in
  (set_writes rest;;; fd_put fd sent;;; ret (if ok then slen text else -1)) w.

Lemma dprintf_quiet fd text w :
  p_writes w = [] -> dprintf fd text w = (slen text, snd (fd_put fd text w)).
Proof.
  intros E. unfold dprintf. rewrite E.
  replace (dprintf_loop [] text) with (true, text, @nil write_result) by (by destruct text).
  unfold bind, ret, set_writes. destruct w, fd; simpl in *; subst; done.
Qed.

(** ** Reading what was printed *)

Lemma span_all p s rest : Forall (fun c => p c = true) s ->
  match rest with [] => True | c :: _ => p c = false end -> span p (s ++ rest) = (s, rest).
Proof.
  intros Hs Hr. induction Hs as [|c s Hc Hs IH]; simpl.
  - destruct rest as [|c r]; [done|]. simpl. by rewrite Hr.
  - by rewrite Hc, IH.
Qed.

Lemma digits_number_app a b : digits_number (a ++ b) =
  digits_number a * 10 ^ Z.of_nat (length b) + digits_number b.
Proof.
  unfold digits_number. rewrite foldl_app. generalize (foldl (fun a c => a * 10 + (c - 48)) 0 a).
  induction b as [|c b IH] using rev_ind; intros z; [simpl; lia|].
  rewrite !foldl_app, length_app, Nat2Z.inj_add, Z.pow_add_r by lia. simpl. rewrite IH. simpl. lia.
Qed.

Lemma digits_spec fuel n acc : 0 <= n < 10 ^ Z.of_nat fuel ->
  exists ds, digits fuel n acc = ds ++ acc /\ digits_number ds = n /\
    Forall (fun c => isdigit c = true) ds /\ (fuel <> O -> ds <> []).
Proof.
  revert n acc. induction fuel as [|f IH]; intros n acc Hn.
  { exists []. simpl in *. split_and!; [done|unfold digits_number; simpl; lia|constructor|done]. }
  cbn [digits]. rewrite Nat2Z.inj_succ, Z.pow_succ_r in Hn by lia.
  pose proof (Z.div_mod n 10 ltac:(lia)). pose proof (Z.mod_pos_bound n 10 ltac:(lia)).
  assert (isdigit (48 + n mod 10) = true) as Hd by (unfold isdigit, between; bsimp; lia).
  destruct (n / 10 =? 0) eqn:E; bsimp.
  - exists [48 + n mod 10]. split_and!; [done|unfold digits_number; simpl; lia|by repeat constructor|done].
  - destruct (IH (n / 10) ((48 + n mod 10) :: acc)) as (ds & Hds & Hv & Hall & _).
    { split; [apply Z.div_pos; lia|]. apply Z.div_lt_upper_bound; lia. }
    exists (ds ++ [48 + n mod 10]). rewrite Hds, <- app_assoc. split_and!.
    + done.
    + rewrite digits_number_app, Hv. unfold digits_number. cbn [length foldl]. change (Z.of_nat 1) with 1. lia.
    + apply Forall_app. by repeat constructor.
    + intros _. by destruct ds.
Qed.

Lemma skip_while_stop p s : match s with [] => True | c :: _ => p c = false end -> skip_while p s = s.
Proof. destruct s; simpl; [done|]. by intros ->. Qed.

Lemma isdigit_not_space c : isdigit c = true -> isspace c = false /\ c <> ch "-" /\ c <> ch "+".
Proof. unfold isdigit, isspace, between. intros. bsimp. lia. Qed.

Lemma take_sign_digit c s : isdigit c = true -> take_sign (c :: s) = (false, c :: s).
Proof.
  intros Hc. apply isdigit_not_space in Hc as (_ & H1 & H2). unfold take_sign.
  by rewrite (proj2 (Z.eqb_neq _ _) H1), (proj2 (Z.eqb_neq _ _) H2).
Qed.

Lemma strtol_digits s : s <> [] -> Forall (fun c => isdigit c = true) s -> digits_number s <= LONG_MAX ->
  0 <= digits_number s -> strtol s = (digits_number s, [], false).
Proof.
  intros Hne Hall Hmax Hmin. unfold strtol. destruct s as [|c s]; [done|].
  inversion Hall as [|?? Hc Hs]; subst. rewrite skip_while_stop by (by apply isdigit_not_space).
  rewrite take_sign_digit by done. rewrite <- (app_nil_r (c :: s)) at 1. rewrite span_all by done.
  rewrite bool_decide_false by done.
  replace (_ <? LONG_MIN) with false by (symmetry; unfold LONG_MIN; bsimp; lia).
  by replace (LONG_MAX <? _) with false by (symmetry; bsimp; lia).
Qed.

Lemma print_long_digits n : 0 <= n <= LONG_MAX ->
  print_long n <> [] /\ Forall (fun c => isdigit c = true) (print_long n) /\ digits_number (print_long n) = n.
Proof.
  unfold LONG_MAX. intros Hn. unfold print_long. replace (n <? 0) with false by (symmetry; bsimp; lia).
  destruct (digits_spec 20 n []) as (ds & -> & Hv & Hall & Hne); [simpl; lia|].
  rewrite app_nil_r. auto.
Qed.

Lemma strtol_print_long n : 0 <= n <= LONG_MAX -> strtol (print_long n) = (n, [], false).
Proof.
  intros Hn. destruct (print_long_digits n Hn) as (Hne & Hall & Hv).
  rewrite strtol_digits by (rewrite ?Hv; (done || lia)). by rewrite Hv.
Qed.
