(* ===== verification/Options.v ===== *)
(** * Shell options (include/cshell/options.h)

    The option bits, the one inventory [CSH_OPTION_LIST] that parsing, reports
    and [$-] share, and the two lookups that read it. *)

From stdpp Require Import base list gmap strings.
From S2P Require Import Prelude.

Definition CSH_OPT_INTERACTIVE : Z := Z.shiftl 1 0.
Definition CSH_OPT_ALLEXPORT : Z := Z.shiftl 1 1.
Definition CSH_OPT_ERREXIT : Z := Z.shiftl 1 2.
Definition CSH_OPT_NOGLOB : Z := Z.shiftl 1 3.
Definition CSH_OPT_NOEXEC : Z := Z.shiftl 1 4.
Definition CSH_OPT_NOUNSET : Z := Z.shiftl 1 5.
Definition CSH_OPT_VERBOSE : Z := Z.shiftl 1 6.
Definition CSH_OPT_XTRACE : Z := Z.shiftl 1 7.
Definition CSH_OPT_NOCLOBBER : Z := Z.shiftl 1 8.
Definition CSH_OPT_PIPEFAIL : Z := Z.shiftl 1 9.
Definition CSH_OPT_MONITOR : Z := Z.shiftl 1 10.
Definition CSH_OPT_NOTIFY : Z := Z.shiftl 1 11.
Definition CSH_OPT_HASHALL : Z := Z.shiftl 1 12.
Definition CSH_OPT_IGNOREEOF : Z := Z.shiftl 1 13.
Definition CSH_OPT_NOLOG : Z := Z.shiftl 1 14.

Record option_entry : Type := mk_option { opt_bit : Z; opt_name : str; opt_letter : Z }.

(** The letter 0 denotes a named-only option. *)
Definition CSH_OPTION_LIST : list option_entry := [
  mk_option CSH_OPT_ALLEXPORT (bs "allexport") (ch "a");
  mk_option CSH_OPT_NOTIFY (bs "notify") (ch "b");
  mk_option CSH_OPT_NOCLOBBER (bs "noclobber") (ch "C");
  mk_option CSH_OPT_ERREXIT (bs "errexit") (ch "e");
  mk_option CSH_OPT_NOGLOB (bs "noglob") (ch "f");
  mk_option CSH_OPT_HASHALL (bs "hashall") (ch "h");
  mk_option CSH_OPT_MONITOR (bs "monitor") (ch "m");
  mk_option CSH_OPT_NOEXEC (bs "noexec") (ch "n");
  mk_option CSH_OPT_NOUNSET (bs "nounset") (ch "u");
  mk_option CSH_OPT_VERBOSE (bs "verbose") (ch "v");
  mk_option CSH_OPT_XTRACE (bs "xtrace") (ch "x");
  mk_option CSH_OPT_PIPEFAIL (bs "pipefail") 0;
  mk_option CSH_OPT_IGNOREEOF (bs "ignoreeof") 0;
  mk_option CSH_OPT_NOLOG (bs "nolog") 0 ].

Definition first_bit (p : option_entry -> bool) : Z :=
  match List.find p CSH_OPTION_LIST with Some e => opt_bit e | None => 0 end.

Definition csh_option_letter (letter : byte) : Z :=
  first_bit (fun e => negb (opt_letter e =? 0) && (letter =? opt_letter e)).

Definition csh_option_name (value : str) : Z :=
  first_bit (fun e => str_eqb value (opt_name e)).

Definition CSH_SETTABLE_OPTIONS : Z :=
  foldl (fun m e => Z.lor m (opt_bit e)) 0 CSH_OPTION_LIST.

(** [options & bit] as a condition. *)
Definition opt_on (options bit : Z) : bool := negb (Z.land options bit =? 0).

Lemma first_bit_settable p :
  Z.land (first_bit p) (Z.lnot CSH_SETTABLE_OPTIONS) = 0.
Proof.
  unfold first_bit. destruct (List.find p CSH_OPTION_LIST) as [e|] eqn:E; [|done].
  apply find_some in E as [H _]. revert H. vm_compute.
  intros H. repeat destruct H as [<-|H]; done.
Qed.

Lemma csh_option_letter_nul : csh_option_letter 0 = 0.
Proof. reflexivity. Qed.
