(* ===== verification/Quoting.v ===== *)
(** * Shell quoting of printed values

    [alias], [trap], [set] and [export -p] print values inside single quotes,
    with each single quote of the value written as the four bytes [quote_mark].
    This file holds that text and a reader for it: the quote removal the shell
    language gives to a word made of single-quoted regions and backslash
    escapes.  Reading a printed value back gives the value. *)

From stdpp Require Import base list gmap strings.
From S2P Require Import Prelude.

Definition quote_mark : str := bs "'\''".

Definition quote_byte (c : byte) : str := if c =? ch "'" then quote_mark else [c].

Definition quote_body (value : str) : str := value ≫= quote_byte.

Definition quote_single (value : str) : str := bs "'" ++ quote_body value ++ bs "'".

(** Quote removal: [None] for an unterminated region, a trailing backslash or
    an unquoted byte that could end the word or start an expansion. *)
Definition plain_byte (c : byte) : bool :=
  between (ch "a") c (ch "z") || between (ch "A") c (ch "Z") || between (ch "0") c (ch "9") ||
  in_set c (bs "_,.-+%@/:").

Fixpoint unquote (in_single : bool) (s : str) : option str :=
  match s with
  | [] => if in_single then None else Some []
  | c :: rest =>
      if in_single then
        if c =? ch "'" then unquote false rest else cons c <$> unquote true rest
      else if c =? ch "'" then unquote true rest
      else if c =? ch "\" then
        match rest with
        | [] => None
        | d :: rest' => cons d <$> unquote false rest'
        end
      else if plain_byte c then cons c <$> unquote false rest
      else None
  end.

Lemma unquote_body value rest :
  unquote true (quote_body value ++ rest) = app value <$> unquote true rest.
Proof.
  induction value as [|c value IH]; simpl.
  - by destruct (unquote true rest).
  - unfold quote_body in *. simpl. unfold quote_byte at 1.
    destruct (c =? ch "'") eqn:E; simpl.
    + apply Z.eqb_eq in E as ->. simpl. rewrite IH.
      by destruct (unquote true rest).
    + rewrite E, IH. by destruct (unquote true rest).
Qed.

Lemma unquote_quote_single value : unquote false (quote_single value) = Some value.
Proof.
  unfold quote_single. simpl. rewrite unquote_body. simpl. by rewrite app_nil_r.
Qed.
