(* ===== verification/Alias.v ===== *)
(** * Aliases (src/alias.c)

    The alias table is a singly linked list kept in [strcmp] order; the model is
    the list of its entries.  Copies are values here, so a mutation that borrows
    strings of the table itself needs no separate case.  [NULL] strings are
    [None]; the table and the error record are never [NULL]. *)

From stdpp Require Import base list gmap strings sorting.
From S2P Require Import Prelude Output Quoting.

Record alias : Type := mk_alias { a_name : str; a_value : str }.

Abbreviation csh_aliases := (list alias).

(** ** Operations *)

Definition fail (message : str) (number : errno) (status : Z) : Z * csh_error :=
  (-1, mk_error (Some message) [] false number status 0 no_position).

Definition name_byte (b : byte) : bool :=
  between (ch "a") b (ch "z") || between (ch "A") b (ch "Z") || between (ch "0") b (ch "9") ||
  in_set b (bs "!%,-@_").

Definition valid_name (name : str) : bool :=
  negb (slen name =? 0) && forallb name_byte name.

Definition csh_alias_name_valid (name : option str) : bool :=
  match name with Some n => valid_name n | None => false end.

Definition csh_aliases_create : M (option csh_aliases * csh_error) :=
  let* ok := malloc in
  if ok then ret (Some [], no_error)
  else ret (None, snd (fail (bs "cannot allocate alias table") ENOMEM 1)).

Definition csh_aliases_clear (aliases : csh_aliases) : csh_aliases := [].

Fixpoint find_alias (aliases : csh_aliases) (name : str) : option alias :=
  match aliases with
  | [] => None
  | e :: rest => if str_eqb (a_name e) name then Some e else find_alias rest name
  end.

Definition csh_aliases_get (aliases : csh_aliases) (name : option str) : option str :=
  match name with
  | Some n => if valid_name n then a_value <$> find_alias aliases n else None
  | None => None
  end.

(** [entry->value = copy] for the entry that [find_alias] returns. *)
Fixpoint replace_value (aliases : csh_aliases) (name copy : str) : csh_aliases :=
  match aliases with
  | [] => []
  | e :: rest => if str_eqb (a_name e) name then mk_alias (a_name e) copy :: rest
                 else e :: replace_value rest name copy
  end.

(** The insertion before the first entry whose name does not compare less. *)
Fixpoint link_alias (aliases : csh_aliases) (entry : alias) : csh_aliases :=
  match aliases with
  | [] => [entry]
  | e :: rest => match strcmp (a_name e) (a_name entry) with
                 | Lt => e :: link_alias rest entry
                 | _ => entry :: aliases
                 end
  end.

Definition set_alias (aliases : csh_aliases) (name value : option str)
    : M (Z * csh_error * csh_aliases) :=
  match name, value with
  | Some n, Some v =>
      if negb (valid_name n) then ret (fail (bs "invalid alias definition") EINVAL 2, aliases) else
      let entry := find_alias aliases n in
      let* copied := malloc in
      if negb copied then ret (fail (bs "cannot allocate alias value") ENOMEM 1, aliases) else
      match entry with
      | Some _ => ret (0, no_error, replace_value aliases n v)
      | None =>
          let* node := malloc in
          if negb node then ret (fail (bs "cannot allocate alias definition") ENOMEM 1, aliases) else
          let* named := malloc in
          if negb named then ret (fail (bs "cannot allocate alias name") ENOMEM 1, aliases) else
          ret (0, no_error, link_alias aliases (mk_alias n v))
      end
  | _, _ => ret (fail (bs "invalid alias definition") EINVAL 2, aliases)
  end.

Definition csh_aliases_set (aliases : csh_aliases) (name value : option str)
    : M (Z * csh_error * csh_aliases) := set_alias aliases name value.

Fixpoint unlink_alias (aliases : csh_aliases) (name : str) : csh_aliases :=
  match aliases with
  | [] => []
  | e :: rest => if str_eqb (a_name e) name then rest else e :: unlink_alias rest name
  end.

Definition csh_aliases_unset (aliases : csh_aliases) (name : option str)
    : Z * csh_error * csh_aliases :=
  match name with
  | Some n => if valid_name n then (0, no_error, unlink_alias aliases n)
              else (fail (bs "invalid alias name") EINVAL 2, aliases)
  | None => (fail (bs "invalid alias name") EINVAL 2, aliases)
  end.

Fixpoint clone_entries (out source : csh_aliases) : M (Z * csh_error * option csh_aliases) :=
  match source with
  | [] => ret (0, no_error, Some out)
  | e :: rest =>
      let* (rc, error, out') := csh_aliases_set out (Some (a_name e)) (Some (a_value e)) in
      if rc =? -1 then ret (-1, error, None) else clone_entries out' rest
  end.

Definition csh_aliases_clone (source : option csh_aliases)
    : M (Z * csh_error * option csh_aliases) :=
  match source with
  | None => ret (0, no_error, None)
  | Some entries =>
      let* (table, error) := csh_aliases_create in
      match table with
      | None => ret (-1, error, None)
      | Some out => clone_entries out entries
      end
  end.

(** ** The alias and unalias handlers *)

(** [argv] as strings when every argument is present and there is at least one. *)
Definition valid_arguments (argv : list (option str)) : option (list str) :=
  match argv with [] => None | _ => mapM id argv end.

Definition diagnostic (utility : str) (operand : option str) (message : str) (status : Z) : M Z :=
  match operand with
  | None => put_stderr (utility ++ bs ": " ++ message ++ [10])
  | Some o => put_stderr (utility ++ bs ": " ++ o ++ bs ": " ++ message ++ [10])
  end;;; ret status.

Fixpoint print_value (cursor : str) : M Z :=
  match cursor with
  | [] => let* ok := stdio_put (bs "'" ++ [10]) in ret (if ok then 0 else -1)
  | c :: rest =>
      let* ok := stdio_put (if c =? ch "'" then bs "'\''" else [c]) in
      if ok then print_value rest else ret (-1)
  end.

Definition print_alias (name value : str) : M Z :=
  let* ok := stdio_put (name ++ bs "='") in
  if ok then print_value value else ret (-1).

Definition cannot_write (utility : str) : M Z :=
  diagnostic utility None (bs "cannot write output") 1.

(** The listing loop: [None] when every entry was printed, the return value of
    the handler when a write failed. *)
Fixpoint list_aliases (aliases : csh_aliases) : M (option Z) :=
  match aliases with
  | [] => ret None
  | e :: rest =>
      let* r := print_alias (a_name e) (a_value e) in
      if r <? 0 then let* rc := cannot_write (bs "alias") in ret (Some rc)
      else list_aliases rest
  end.

Definition alias_finish (aliases : csh_aliases) (status : Z) (printed : bool)
    : M (Z * csh_aliases) :=
  if printed then
    let* ok := stdio_put [] in
    if ok then ret (status, aliases)
    else let* rc := cannot_write (bs "alias") in ret (rc, aliases)
  else ret (status, aliases).

Fixpoint alias_operands (aliases : csh_aliases) (args : list str) (status : Z) (printed : bool)
    : M (Z * csh_aliases) :=
  match args with
  | [] => alias_finish aliases status printed
  | arg :: rest =>
      match cut_at arg (ch "=") with
      | (name, Some value) =>
          let* (rc, error, aliases') := set_alias aliases (Some name) (Some value) in
          if rc <? 0 then
            let* st := diagnostic (bs "alias") (Some arg) (default [] (Output.message error)) 1 in
            alias_operands aliases' rest st printed
          else alias_operands aliases' rest status printed
      | (_, None) =>
          if negb (csh_alias_name_valid (Some arg)) then
            let* st := diagnostic (bs "alias") (Some arg) (bs "invalid alias name") 1 in
            alias_operands aliases rest st printed
          else match csh_aliases_get aliases (Some arg) with
          | None =>
              let* st := diagnostic (bs "alias") (Some arg) (bs "not found") 1 in
              alias_operands aliases rest st printed
          | Some value =>
              let* r := print_alias arg value in
              if r <? 0 then let* rc := cannot_write (bs "alias") in ret (rc, aliases)
              else alias_operands aliases rest status true
          end
      end
  end.

(** An argument [-x...] other than the lone [-]. *)
Definition option_like (arg : str) : bool :=
  (peek arg =? ch "-") && negb (peek (tail arg) =? 0).

Definition csh_builtin_alias (aliases : csh_aliases) (argv : list (option str))
    : M (Z * csh_aliases) :=
  match valid_arguments argv with
  | None =>
      let* rc := diagnostic (bs "alias") None (bs "invalid handler arguments") 2 in
      ret (rc, aliases)
  | Some args =>
      let run operands :=
        match operands with
        | [] =>
            let* failed := list_aliases aliases in
            match failed with
            | Some rc => ret (rc, aliases)
            | None => alias_finish aliases 0 (negb (bool_decide (aliases = [])))
            end
        | _ => alias_operands aliases operands 0 false
        end in
      match tail args with
      | arg :: rest =>
          if str_eqb arg (bs "--") then run rest
          else if option_like arg then
            let* rc := diagnostic (bs "alias") (Some arg) (bs "invalid option") 2 in
            ret (rc, aliases)
          else run (arg :: rest)
      | [] => run []
      end
  end.

(** The option loop of [unalias]: [inl] an error return, [inr] whether [-a] was
    given and the operands. *)
Fixpoint unalias_options (args : list str) (all : bool) : (str + (bool * list str)) :=
  match args with
  | [] => inr (all, [])
  | arg :: rest =>
      if option_like arg then
        if str_eqb arg (bs "--") then inr (all, rest)
        else if forallb (fun c => c =? ch "a") (tail arg) then unalias_options rest true
        else inl arg
      else inr (all, args)
  end.

Fixpoint unalias_operands (aliases : csh_aliases) (args : list str) (status : Z)
    : M (Z * csh_aliases) :=
  match args with
  | [] => ret (status, aliases)
  | arg :: rest =>
      if negb (csh_alias_name_valid (Some arg)) then
        let* st := diagnostic (bs "unalias") (Some arg) (bs "invalid alias name") 1 in
        unalias_operands aliases rest st
      else match csh_aliases_get aliases (Some arg) with
      | None =>
          let* st := diagnostic (bs "unalias") (Some arg) (bs "not found") 1 in
          unalias_operands aliases rest st
      | Some _ =>
          let '(_, _, aliases') := csh_aliases_unset aliases (Some arg) in
          unalias_operands aliases' rest status
      end
  end.

Definition csh_builtin_unalias (aliases : csh_aliases) (argv : list (option str))
    : M (Z * csh_aliases) :=
  match valid_arguments argv with
  | None =>
      let* rc := diagnostic (bs "unalias") None (bs "invalid handler arguments") 2 in
      ret (rc, aliases)
  | Some args =>
      match unalias_options (tail args) false with
      | inl arg =>
          let* rc := diagnostic (bs "unalias") (Some arg) (bs "invalid option") 2 in
          ret (rc, aliases)
      | inr (true, operands) =>
          match operands with
          | [] => ret (0, csh_aliases_clear aliases)
          | _ =>
              let* rc := diagnostic (bs "unalias") None (bs "-a does not accept operands") 2 in
              ret (rc, aliases)
          end
      | inr (false, []) =>
          let* rc := diagnostic (bs "unalias") None (bs "expected an alias name") 2 in
          ret (rc, aliases)
      | inr (false, operands) => unalias_operands aliases operands 0
      end
  end.

(** ** The table as a finite map

    The abstract specification: a table is the map from alias names to values. *)

Definition alias_map (aliases : csh_aliases) : gmap str str :=
  list_to_map ((fun e => (a_name e, a_value e)) <$> aliases).

(** The representation invariant: names strictly increasing in [strcmp] order
    and valid. *)
Definition aliases_wf (aliases : csh_aliases) : Prop :=
  StronglySorted strcmp_lt (a_name <$> aliases) /\
  Forall (fun e => valid_name (a_name e) = true) aliases.

Lemma alias_map_cons e t : alias_map (e :: t) = <[a_name e:=a_value e]> (alias_map t).
Proof. done. Qed.

Lemma find_alias_map t n : a_value <$> find_alias t n = alias_map t !! n.
Proof.
  induction t as [|e t IH]; simpl; [done|]. rewrite alias_map_cons.
  destruct (str_eqb (a_name e) n) eqn:E; bsimp.
  - subst. by rewrite lookup_insert_eq.
  - by rewrite lookup_insert_ne.
Qed.

Lemma find_alias_None t n : find_alias t n = None <-> alias_map t !! n = None.
Proof. rewrite <- find_alias_map. by destruct (find_alias t n). Qed.

Lemma find_alias_name t n e : find_alias t n = Some e -> a_name e = n /\ e ∈ t.
Proof.
  induction t as [|e' t IH]; simpl; [done|].
  destruct (str_eqb (a_name e') n) eqn:E; bsimp.
  - intros [= <-]. set_solver.
  - intros [? ?]%IH. set_solver.
Qed.

Lemma replace_value_map t n v :
  is_Some (alias_map t !! n) -> alias_map (replace_value t n v) = <[n:=v]> (alias_map t).
Proof.
  induction t as [|e t IH]; intros [x Hx]; [done|].
  rewrite alias_map_cons in *. simpl.
  destruct (str_eqb (a_name e) n) eqn:E; bsimp; rewrite alias_map_cons; simpl.
  - subst. by rewrite insert_insert_eq.
  - rewrite lookup_insert_ne in Hx by done. rewrite IH by eauto.
    by rewrite insert_insert_ne.
Qed.

Lemma replace_value_names t n v : a_name <$> replace_value t n v = a_name <$> t.
Proof. induction t as [|e t IH]; simpl; [done|]. case_match; csimpl; by rewrite ?IH. Qed.

Lemma link_alias_map t e :
  alias_map t !! a_name e = None -> alias_map (link_alias t e) = <[a_name e:=a_value e]> (alias_map t).
Proof.
  induction t as [|e' t IH]; simpl; [done|]. rewrite alias_map_cons.
  destruct (decide (a_name e' = a_name e)) as [->|Hne]; [by rewrite lookup_insert_eq|].
  rewrite lookup_insert_ne by done. intros H.
  destruct (strcmp (a_name e') (a_name e)); try done.
  rewrite alias_map_cons, IH by done. by rewrite insert_insert_ne.
Qed.

Lemma link_alias_perm t e : link_alias t e ≡ₚ e :: t.
Proof.
  induction t as [|e' t IH]; simpl; [done|]. case_match; try done.
  rewrite IH. constructor.
Qed.

Lemma link_alias_sorted t e :
  StronglySorted strcmp_lt (a_name <$> t) -> alias_map t !! a_name e = None ->
  StronglySorted strcmp_lt (a_name <$> link_alias t e).
Proof.
  induction t as [|e' t IH]; simpl; intros Hs Hn; [by repeat constructor|].
  apply StronglySorted_inv in Hs as [Hs Hall].
  rewrite alias_map_cons in Hn.
  destruct (decide (a_name e' = a_name e)) as [Heq|Hne];
    [by rewrite Heq, lookup_insert_eq in Hn|].
  rewrite lookup_insert_ne in Hn by done.
  destruct (strcmp (a_name e') (a_name e)) eqn:E.
  - by apply strcmp_eq in E.
  - simpl. constructor; [by apply IH|]. rewrite link_alias_perm. by constructor.
  - simpl. assert (strcmp_lt (a_name e) (a_name e')) as Hlt.
    { unfold strcmp_lt. by rewrite strcmp_antisym, E. }
    constructor; [by constructor|]. constructor; [done|].
    eapply Forall_impl; [exact Hall|]. intros x Hx. by etrans.
Qed.

Lemma sorted_not_in t e :
  StronglySorted strcmp_lt (a_name <$> (e :: t)) -> alias_map t !! a_name e = None.
Proof.
  simpl. intros [_ Hall]%StronglySorted_inv. apply find_alias_None.
  destruct (find_alias t (a_name e)) as [x|] eqn:E; [|done].
  apply find_alias_name in E as [Hn Hin].
  rewrite Forall_forall in Hall. destruct (strcmp_lt_irrefl (a_name e)).
  rewrite <- Hn at 2. apply Hall. by apply list_elem_of_fmap_2.
Qed.

Lemma unlink_alias_map t n :
  StronglySorted strcmp_lt (a_name <$> t) -> alias_map (unlink_alias t n) = delete n (alias_map t).
Proof.
  induction t as [|e t IH]; intros Hs; [unfold alias_map; simpl; by rewrite delete_empty|].
  pose proof (sorted_not_in _ _ Hs) as Hn. simpl in Hs. apply StronglySorted_inv in Hs as [Hs _].
  simpl. destruct (str_eqb (a_name e) n) eqn:E; bsimp; rewrite ?alias_map_cons.
  - subst. rewrite delete_insert_eq. by rewrite delete_id.
  - rewrite IH by done. by rewrite delete_insert_ne.
Qed.

Lemma unlink_alias_sublist t n : unlink_alias t n `sublist_of` t.
Proof. induction t; simpl; [constructor|]. case_match; by repeat constructor. Qed.

(** ** Correctness of the operations *)

Lemma aliases_wf_nil : aliases_wf [].
Proof. split; constructor. Qed.

Lemma replace_value_wf t n v : aliases_wf t -> aliases_wf (replace_value t n v).
Proof.
  intros [Hs Hv]. split; [by rewrite replace_value_names|].
  clear Hs. induction Hv as [|e t He Ht IH]; simpl; [constructor|].
  case_match; by constructor.
Qed.

Lemma link_alias_wf t e :
  aliases_wf t -> valid_name (a_name e) = true -> alias_map t !! a_name e = None ->
  aliases_wf (link_alias t e).
Proof.
  intros [Hs Hv] He Hn. split; [by apply link_alias_sorted|].
  rewrite link_alias_perm. by constructor.
Qed.

Lemma unlink_alias_wf t n : aliases_wf t -> aliases_wf (unlink_alias t n).
Proof.
  intros [Hs Hv]. pose proof (unlink_alias_sublist t n) as Hsub. split.
  - eapply sublist_sorted; [|exact Hs]. by apply fmap_sublist.
  - by eapply sublist_Forall_1.
Qed.

#[export] Hint Resolve aliases_wf_nil replace_value_wf link_alias_wf unlink_alias_wf : cshell.

(** [set_alias] on a well-formed table, whatever the allocator does: success
    inserts into the map, failure leaves the very same table, and with memory
    it fails only for an invalid name. *)
Lemma set_alias_post t n v w :
  aliases_wf t ->
  post (set_alias t (Some n) (Some v)) w (fun '(rc, error, t') w' =>
    same_host w w' /\ aliases_wf t' /\ (calm w -> w' = w) /\
    ((rc = 0 /\ error = no_error /\ valid_name n = true /\
      alias_map t' = <[n:=v]> (alias_map t)) \/
     (rc = -1 /\ t' = t /\ status error <> 0 /\ (calm w -> valid_name n = false)))).
Proof.
  intros Hwf. unfold set_alias.
  destruct (valid_name n) eqn:Hn; simpl.
  2:{ apply post_ret. split_and!; [done..|]. right. by split_and!. }
  apply post_bind, post_malloc. intros b w1 Hw1 Hc1. destruct b; simpl.
  2:{ apply post_ret. split_and!; [done..| |]. { by intros []%Hc1. }
      right. split_and!; [done..|]. by intros []%Hc1. }
  destruct (find_alias t n) as [e|] eqn:Ef.
  - apply post_ret. split_and!; [done|by apply replace_value_wf|by intros []%Hc1|].
    left. split_and!; try done. apply replace_value_map.
    rewrite <- find_alias_map, Ef. by eexists.
  - apply find_alias_None in Ef.
    apply post_bind, post_malloc. intros b w2 Hw2 Hc2. destruct b; simpl.
    2:{ apply post_ret. split_and!; [by etrans|done| |].
        - intros Hc. destruct (Hc1 Hc) as [-> _]. by destruct (Hc2 Hc).
        - right. split_and!; [done..|]. intros Hc. destruct (Hc1 Hc) as [-> _]. by destruct (Hc2 Hc). }
    apply post_bind, post_malloc. intros b w3 Hw3 Hc3.
    assert (same_host w w3) by (by do 2 etrans).
    assert (calm w -> w3 = w /\ b = true) as Hc.
    { intros Hc. destruct (Hc1 Hc) as [-> _], (Hc2 Hc) as [-> _]. auto. }
    destruct b; simpl; apply post_ret.
    + split_and!; [done|by apply link_alias_wf|by intros []%Hc|].
      left. split_and!; try done. by rewrite link_alias_map.
    + split_and!; [done|done|by intros []%Hc|]. right. split_and!; [done..|]. by intros []%Hc.
Qed.

(** Two well-formed tables that hold the same map are the same list. *)
Lemma sorted_names t :
  StronglySorted strcmp_lt (a_name <$> t) ->
  StronglySorted (fun x y => strcmp_lt (a_name x) (a_name y)) t.
Proof.
  induction t as [|e t IH]; csimpl; [constructor|].
  intros [Hs Hall]%StronglySorted_inv. constructor; [by apply IH|].
  exact (proj1 (Forall_fmap _ _ _) Hall).
Qed.

Lemma sorted_names_NoDup t : StronglySorted strcmp_lt (a_name <$> t) -> NoDup (a_name <$> t).
Proof.
  intros Hs. induction Hs as [|n l Hs IH Hall]; constructor; [|done].
  intros Hin. rewrite Forall_forall in Hall. by eapply strcmp_lt_irrefl, Hall.
Qed.

Lemma alias_map_inj t1 t2 :
  aliases_wf t1 -> aliases_wf t2 -> alias_map t1 = alias_map t2 -> t1 = t2.
Proof.
  intros [H1 _] [H2 _] Heq.
  apply (StronglySorted_unique_strong (fun x y => strcmp_lt (a_name x) (a_name y)));
    [|by apply sorted_names..|].
  - intros x y _ _ Hx Hy. exfalso. eapply strcmp_lt_irrefl. by etrans.
  - assert (((fun e => (a_name e, a_value e)) <$> t1) ≡ₚ ((fun e => (a_name e, a_value e)) <$> t2)) as Hp.
    { apply (list_to_map_inj (M:=gmap str)); [..|done];
        rewrite <- list_fmap_compose; by apply sorted_names_NoDup. }
    apply (fmap_Permutation (fun p => mk_alias p.1 p.2)) in Hp.
    rewrite <- !list_fmap_compose in Hp. unfold compose in Hp. simpl in Hp.
    rewrite (list_fmap_ext _ id t1), (list_fmap_ext _ id t2), !list_fmap_id in Hp; [done|by intros ? []..].
Qed.

Lemma aliases_wf_prefix t r : aliases_wf (t ++ r) -> aliases_wf t.
Proof.
  intros [Hs Hv]. split.
  - eapply sublist_sorted; [|exact Hs]. apply fmap_sublist. by apply sublist_inserts_r.
  - by apply Forall_app in Hv as [? _].
Qed.

Lemma alias_map_snoc t e :
  alias_map t !! a_name e = None -> alias_map (t ++ [e]) = <[a_name e:=a_value e]> (alias_map t).
Proof.
  induction t as [|x t IH]; csimpl; [done|]. rewrite !alias_map_cons. intros H.
  destruct (decide (a_name x = a_name e)) as [Hx|Hx]; [by rewrite Hx, lookup_insert_eq in H|].
  rewrite lookup_insert_ne in H by done. rewrite IH by done. by rewrite insert_insert_ne.
Qed.

Lemma sorted_snoc_fresh t e : aliases_wf (t ++ [e]) -> alias_map t !! a_name e = None.
Proof.
  intros [Hs _]. apply find_alias_None. destruct (find_alias t (a_name e)) as [x|] eqn:E; [|done].
  apply find_alias_name in E as [Hn Hin]. apply sorted_names_NoDup in Hs.
  rewrite fmap_app in Hs. apply NoDup_app in Hs as (_ & Hd & _).
  destruct (Hd (a_name e)); [|set_solver]. rewrite <- Hn. by apply list_elem_of_fmap_2.
Qed.

Lemma clone_entries_post out rest w :
  aliases_wf (out ++ rest) ->
  post (clone_entries out rest) w (fun '(rc, error, copy) w' =>
    same_host w w' /\ (calm w -> rc = 0 /\ w' = w) /\
    (rc = 0 /\ error = no_error /\ copy = Some (out ++ rest) \/ rc = -1 /\ copy = None)).
Proof.
  revert out w. induction rest as [|e rest IH]; intros out w Hwf; simpl.
  { apply post_ret. rewrite app_nil_r. split_and!; auto. done. }
  rewrite cons_middle, app_assoc in Hwf |- *.
  pose proof (aliases_wf_prefix _ _ Hwf) as Hsnoc. pose proof (aliases_wf_prefix _ _ Hsnoc) as Hout.
  apply post_bind. eapply post_mono; [by apply set_alias_post|].
  intros [[rc error] out'] w1 (Hw1 & Hwf1 & Hcalm & [(-> & -> & _ & Hmap)|(-> & -> & _ & Hbad)]); simpl.
  - assert (out' = out ++ [e]) as ->.
    { apply alias_map_inj; [done..|]. by rewrite alias_map_snoc by (by apply sorted_snoc_fresh). }
    eapply post_mono; [by apply IH|]. intros [[rc error] copy] w2 (Hw2 & Hc2 & Hres).
    split_and!; [by etrans| |done]. intros Hc. rewrite (Hcalm Hc) in Hc2. auto.
  - apply post_ret. split_and!; [done| |by right]. intros Hc. exfalso. apply Hbad in Hc.
    destruct Hsnoc as [_ Hv]. apply Forall_app in Hv as [_ Hv]. apply Forall_cons in Hv as [Hv _]. congruence.
Qed.

(** ** The handlers *)

Lemma diagnostic_post u o m s w (Q : Z -> proc -> Prop) :
  (forall w', Q s w') -> post (diagnostic u o m s) w Q.
Proof. intros H. unfold diagnostic. destruct o; apply H. Qed.

Lemma print_value_post v w (Q : Z -> proc -> Prop) :
  (forall r w', Q r w') -> post (print_value v) w Q.
Proof.
  intros H. revert w. induction v as [|c v IH]; intros w; simpl;
    apply post_bind, stdio_put_post; intros ok w'; [apply H|].
  destruct ok; [apply IH|apply H].
Qed.

Lemma print_alias_post n v w (Q : Z -> proc -> Prop) :
  (forall r w', Q r w') -> post (print_alias n v) w Q.
Proof.
  intros H. unfold print_alias. apply post_bind, stdio_put_post. intros ok w'.
  destruct ok; [by apply print_value_post|apply H].
Qed.

#[local] Arguments csh_aliases_get : simpl never.
#[local] Arguments csh_alias_name_valid : simpl never.
#[local] Arguments csh_aliases_unset : simpl never.

Definition handler_status (rc : Z) : Prop := rc = 0 \/ rc = 1 \/ rc = 2.

Definition handler_ok (r : Z * csh_aliases) (_ : proc) : Prop :=
  handler_status r.1 /\ aliases_wf r.2.

Lemma alias_finish_post t st pr w :
  aliases_wf t -> handler_status st -> post (alias_finish t st pr) w handler_ok.
Proof.
  intros Ht Hst. unfold alias_finish. destruct pr; [|by apply post_ret].
  apply post_bind, stdio_put_post. intros ok w'. destruct ok; [by apply post_ret|].
  apply post_bind, diagnostic_post. intros. by apply post_ret; split; [right; left|].
Qed.

Lemma alias_operands_post args t st pr w :
  aliases_wf t -> handler_status st -> post (alias_operands t args st pr) w handler_ok.
Proof.
  revert t st pr w. induction args as [|arg args IH]; intros t st pr w Ht Hst; simpl.
  { by apply alias_finish_post. }
  assert (handler_status 1) as H1 by (right; by left).
  destruct (cut_at arg 61) as [name [value|]].
  - apply post_bind. eapply post_mono; [by apply set_alias_post|].
    intros [[rc error] t'] w' (_ & Ht' & _). case_match; [|by apply IH].
    apply post_bind, diagnostic_post. intros. by apply IH.
  - destruct (negb (csh_alias_name_valid (Some arg)));
      [apply post_bind, diagnostic_post; intros; by apply IH|].
    destruct (csh_aliases_get t (Some arg));
      [|apply post_bind, diagnostic_post; intros; by apply IH].
    apply post_bind, print_alias_post. intros r w'. case_match; [|by apply IH].
    apply post_bind, diagnostic_post. intros. by apply post_ret.
Qed.

Lemma list_aliases_post t w (Q : option Z -> proc -> Prop) :
  (forall r w', r = None \/ r = Some 1 -> Q r w') -> post (list_aliases t) w Q.
Proof.
  intros H. revert w. induction t as [|e t IH]; intros w; simpl; [apply H; by left|].
  apply post_bind, print_alias_post. intros r w'. case_match; [|apply IH].
  apply post_bind, diagnostic_post. intros. apply H. by right.
Qed.

Lemma csh_builtin_alias_post t argv w :
  aliases_wf t -> post (csh_builtin_alias t argv) w handler_ok.
Proof.
  intros Ht. assert (handler_status 0) as H0 by (by left).
  assert (handler_status 1) as H1 by (right; by left).
  assert (handler_status 2) as H2 by (right; by right).
  unfold csh_builtin_alias.
  destruct (valid_arguments argv) as [args|];
    [|apply post_bind, diagnostic_post; intros; by apply post_ret].
  assert (forall operands, post (match operands with
      | [] => let* failed := list_aliases t in
          match failed with Some rc => ret (rc, t) | None =>
            alias_finish t 0 (negb (bool_decide (t = []))) end
      | _ => alias_operands t operands 0 false end) w handler_ok) as Hrun.
  { intros [|o ops]; [|by apply alias_operands_post].
    apply post_bind, list_aliases_post. intros r w' [-> | ->].
    - by apply alias_finish_post.
    - by apply post_ret. }
  destruct (tail args) as [|arg rest]; [apply (Hrun [])|].
  case_match; [apply Hrun|]. case_match; [|apply (Hrun (arg :: rest))].
  apply post_bind, diagnostic_post. intros. by apply post_ret.
Qed.

Lemma unalias_operands_post args t st w :
  aliases_wf t -> handler_status st -> post (unalias_operands t args st) w handler_ok.
Proof.
  revert t st w. induction args as [|arg args IH]; intros t st w Ht Hst; simpl.
  { by apply post_ret. }
  assert (handler_status 1) as H1 by (right; by left).
  destruct (negb (csh_alias_name_valid (Some arg)));
    [apply post_bind, diagnostic_post; intros; by apply IH|].
  destruct (csh_aliases_get t (Some arg)); [|apply post_bind, diagnostic_post; intros; by apply IH].
  unfold csh_aliases_unset. destruct (valid_name arg); simpl; apply IH; auto.
  by apply unlink_alias_wf.
Qed.

Lemma csh_builtin_unalias_post t argv w :
  aliases_wf t -> post (csh_builtin_unalias t argv) w handler_ok.
Proof.
  intros Ht. assert (handler_status 0) as H0 by (by left).
  assert (handler_status 2) as H2 by (right; by right).
  unfold csh_builtin_unalias.
  repeat case_match; try (apply post_bind, diagnostic_post; intros; by apply post_ret).
  - apply post_ret. split; [done|apply aliases_wf_nil].
  - by apply unalias_operands_post.
Qed.

(** One line of the listing. *)
Definition alias_line (e : alias) : str :=
  a_name e ++ bs "=" ++ quote_single (a_value e) ++ [10].

Lemma print_value_quiet v w :
  p_stdio w = [] -> print_value v w = (0, snd (put_stdout (quote_body v ++ bs "'" ++ [10]) w)).
Proof.
  revert w. induction v as [|c v IH]; intros w E.
  - simpl. unfold bind, stdio_put. rewrite E. by destruct w; simpl in *; subst.
  - simpl. unfold bind, stdio_put. rewrite E. simpl. rewrite IH by done. simpl.
    unfold put_stdout. simpl. by rewrite ?E, <- ?app_assoc.
Qed.

Lemma print_alias_quiet e w :
  p_stdio w = [] ->
  print_alias (a_name e) (a_value e) w = (0, snd (put_stdout (alias_line e) w)).
Proof.
  intros E. unfold print_alias, bind, stdio_put. rewrite E. simpl.
  rewrite print_value_quiet by done. unfold alias_line, quote_single, put_stdout. simpl.
  by rewrite ?E, <- ?app_assoc.
Qed.

Lemma list_aliases_quiet t w :
  p_stdio w = [] ->
  list_aliases t w = (None, snd (put_stdout (t ≫= alias_line) w)).
Proof.
  revert w. induction t as [|e t IH]; intros w E; simpl.
  - destruct w. unfold put_stdout, ret. simpl. by rewrite app_nil_r.
  - unfold bind at 1. rewrite print_alias_quiet by done. simpl.
    rewrite IH by done. unfold put_stdout. simpl. by rewrite <- app_assoc.
Qed.

(** ** Main theorems *)

(** C7: the alias table implements a finite map and every mutation is atomic.
    On a table in [strcmp] order with valid names, a lookup is the lookup of
    the map for a valid name and finds nothing for any other or without a name;
    a set with any allocator behaviour either inserts into the map and clears
    the error, or returns -1 with an error, the table unchanged and, when memory
    is available, only for an invalid name; a set without a name or a value, and
    an unset without a valid name, return -1 with EINVAL and change nothing;
    an unset deletes, and says so whether the name was there or not; a clear
    leaves the empty map; order and validity are preserved by all of them. *)
Theorem alias_table_refinement (t : csh_aliases) (n v : str) (w : proc) (Hwf : aliases_wf t) :
  (valid_name n = true -> csh_aliases_get t (Some n) = alias_map t !! n) /\
  (valid_name n = false -> csh_aliases_get t (Some n) = None) /\
  csh_aliases_get t None = None /\
  post (csh_aliases_set t (Some n) (Some v)) w (fun '(rc, error, t') w' =>
    aliases_wf t' /\
    ((rc = 0 /\ error = no_error /\ valid_name n = true /\
      alias_map t' = <[n:=v]> (alias_map t)) \/
     (rc = -1 /\ error <> no_error /\ t' = t /\ (calm w -> valid_name n = false)))) /\
  (forall name value, name = None \/ value = None ->
    csh_aliases_set t name value w = ((fail (bs "invalid alias definition") EINVAL 2, t), w)) /\
  (let '(rc, error, t') := csh_aliases_unset t (Some n) in
    aliases_wf t' /\
    (valid_name n = true -> rc = 0 /\ error = no_error /\ alias_map t' = delete n (alias_map t)) /\
    (valid_name n = false -> (rc, error) = fail (bs "invalid alias name") EINVAL 2 /\ t' = t)) /\
  csh_aliases_unset t None = (fail (bs "invalid alias name") EINVAL 2, t) /\
  aliases_wf (csh_aliases_clear t) /\ alias_map (csh_aliases_clear t) = ∅.
Proof.
  split_and!.
  - intros Hn. unfold csh_aliases_get. rewrite Hn. apply find_alias_map.
  - intros Hn. unfold csh_aliases_get. by rewrite Hn.
  - done.
  - eapply post_mono; [by apply set_alias_post|].
    intros [[rc error] t'] w' (_ & ? & _ & [(?&?&?&?)|(?&?&He&?)]); split; auto.
    right. split_and!; auto. by intros ->.
  - intros [n'|] [v'|] [?|?]; done.
  - unfold csh_aliases_unset. destruct (valid_name n); simpl; split_and!; try done.
    + by apply unlink_alias_wf.
    + intros _. split_and!; [done|done|]. apply unlink_alias_map, Hwf.
  - done.
  - apply aliases_wf_nil.
  - done.
Qed.

Definition sample_aliases : csh_aliases :=
  [mk_alias (bs "ll") (bs "ls -l"); mk_alias (bs "q") (bs "it's")].

Lemma sample_aliases_wf : aliases_wf sample_aliases.
Proof. split; repeat constructor. Qed.

Lemma alias_table_refinement_witness :
  csh_aliases_get sample_aliases (Some (bs "q")) = Some (bs "it's").
Proof.
  destruct (alias_table_refinement sample_aliases (bs "q") (bs "x") quiet_proc sample_aliases_wf)
    as [H _].
  rewrite H; vm_compute; reflexivity.
Defined.

(** A copy of the table made by [csh_aliases_clone] is the same list of
    definitions in the same order, or no table at all: a clone that runs out of
    memory part-way publishes nothing, and with memory it never fails. *)
Theorem alias_clone_exact (t : csh_aliases) (w : proc) (Hwf : aliases_wf t) :
  post (csh_aliases_clone (Some t)) w (fun '(rc, error, copy) w' =>
    ((rc = 0 /\ error = no_error /\ copy = Some t) \/ (rc = -1 /\ copy = None)) /\
    (calm w -> rc = 0)).
Proof.
  unfold csh_aliases_clone, csh_aliases_create. do 2 apply post_bind. apply post_malloc.
  intros b w1 Hw1 Hc1. destruct b; apply post_ret;
    [|apply post_ret; split; [by right|by intros []%Hc1]].
  eapply post_mono; [by apply (clone_entries_post [])|].
  intros [[rc error] copy] w2 (_ & Hc2 & Hres). split; [done|].
  intros Hc. destruct (Hc1 Hc) as [-> _]. by apply Hc2.
Qed.

Lemma alias_clone_exact_witness :
  fst (csh_aliases_clone (Some sample_aliases) quiet_proc) = (0, no_error, Some sample_aliases).
Proof.
  pose proof (alias_clone_exact sample_aliases quiet_proc sample_aliases_wf) as H.
  apply post_run in H. destruct (csh_aliases_clone _ _) as [[[rc error] copy] w'].
  destruct H as [[(-> & -> & ->)|[Hrc _]] Hok]; [reflexivity|].
  rewrite Hok in Hrc by reflexivity. discriminate Hrc.
Defined.

(** [alias] without operands prints every definition once, in [strcmp]
    order of the names, as the name, [=] and the quoted value, and reading a
    printed value back by the shell's quote removal gives the stored value. *)
Theorem alias_listing_reusable (t : csh_aliases) (w : proc) (Hwf : aliases_wf t)
    (Hio : p_stdio w = []) :
  let '(rc, t', w') := csh_builtin_alias t [Some (bs "alias")] w in
  rc = 0 /\ t' = t /\
  p_stdout w' = p_stdout w ++ (t ≫= fun e => a_name e ++ bs "=" ++ quote_single (a_value e) ++ [10]) /\
  StronglySorted strcmp_lt (a_name <$> t) /\
  Forall (fun e => unquote false (quote_single (a_value e)) = Some (a_value e)) t.
Proof.
  unfold csh_builtin_alias. simpl. unfold bind at 1. rewrite list_aliases_quiet by done.
  unfold alias_finish.
  assert (Forall (fun e => unquote false (quote_single (a_value e)) = Some (a_value e)) t).
  { apply Forall_forall. intros. apply unquote_quote_single. }
  destruct Hwf as [Hs _]. destruct (bool_decide (t = [])); simpl.
  - by split_and!.
  - unfold bind, stdio_put. simpl. rewrite Hio. simpl. rewrite app_nil_r. by split_and!.
Qed.

Lemma alias_listing_reusable_witness :
  p_stdout (snd (csh_builtin_alias sample_aliases [Some (bs "alias")] quiet_proc)) =
  bs "ll='ls -l'" ++ [10] ++ bs "q='it'\''s'" ++ [10].
Proof.
  pose proof (alias_listing_reusable sample_aliases quiet_proc sample_aliases_wf eq_refl) as H.
  destruct (csh_builtin_alias _ _ _) as [[rc t'] w']. destruct H as (_ & _ & Ho & _).
  cbn [snd]. rewrite Ho. vm_compute. reflexivity.
Defined.

(** The [alias] and [unalias] handlers keep the table ordered and valid
    for every argument vector and every allocation or output failure, and
    return one of the statuses 0, 1 and 2. *)
Theorem alias_handlers_safe (t : csh_aliases) (argv : list (option str)) (w : proc)
    (Hwf : aliases_wf t) :
  post (csh_builtin_alias t argv) w (fun '(rc, t') _ => rc ∈ [0; 1; 2] /\ aliases_wf t') /\
  post (csh_builtin_unalias t argv) w (fun '(rc, t') _ => rc ∈ [0; 1; 2] /\ aliases_wf t').
Proof.
  assert (forall r w', handler_ok r w' -> let '(rc, t') := r in rc ∈ [0; 1; 2] /\ aliases_wf t').
  { intros [rc t'] w' [[?|[?|?]] ?]; simpl in *; set_solver. }
  split; (eapply post_mono; [|intros r w' Hr; specialize (H r w' Hr); by destruct r]);
    [by apply csh_builtin_alias_post | by apply csh_builtin_unalias_post].
Qed.

Lemma alias_handlers_safe_witness :
  aliases_wf (snd (fst (csh_builtin_unalias sample_aliases [Some (bs "unalias"); Some (bs "q")] quiet_proc))).
Proof.
  destruct (alias_handlers_safe sample_aliases [Some (bs "unalias"); Some (bs "q")] quiet_proc
    sample_aliases_wf) as [_ H].
  apply post_run in H. destruct (csh_builtin_unalias _ _ _) as [[rc t'] w']. apply H.
Defined.
