(* ===== verification/Character.v ===== *)
(** * Character decoding (src/character.c)

    [csh_character_length] asks the C library's [mbrlen] for the length of a
    character, in the startup locale for lexical questions and in the current
    one otherwise.  [mbrlen] and [btowc] depend on the locale definitions of the
    host: they are the fields of the class [Locale], and [LocaleLaws] states the
    documented bound of [mbrlen].  The C and the UTF-8 encodings are instances. *)

From stdpp Require Import base list gmap strings.
From S2P Require Import Prelude.

(** What [mbrlen] returns on a fresh [mbstate_t]: [(size_t)-1], [(size_t)-2],
    0 for the NUL character, or the bytes of a complete character. *)
Inductive mbr_result : Type := MbInvalid | MbIncomplete | MbNul | MbLength (n : nat).

Class Locale : Type := {
  loc_startup : bool;                             (* the startup context exists *)
  loc_mbrlen : bool -> str -> mbr_result;         (* true: in the startup context *)
  loc_btowc : byte -> bool;                       (* [btowc(b) != WEOF] *)
  loc_max : nat                                   (* [MB_CUR_MAX] *)
}.

Class LocaleLaws (L : Locale) : Prop := {
  mbrlen_bound : forall ctx s n, loc_mbrlen ctx s = MbLength n -> (1 <= n <= length s)%nat;
  mb_max_positive : (1 <= loc_max)%nat
}.

(** [text] holds exactly the [length] bytes that may be read. *)
Definition csh_character_length `{Locale} (text : str) (lexical final : bool) : nat :=
  match text with
  | [] => 0%nat
  | b :: _ =>
      if b <? 128 then 1%nat
      else
        let count := loc_mbrlen (lexical && loc_startup) text in
        match count with
        | MbIncomplete => if final then 1%nat else 0%nat
        | MbInvalid | MbNul => 1%nat
        | MbLength n => n
        end
  end.

(** [character_bytes] of src/expand.c and src/utility.c: the current locale,
    every byte, one byte for what is not a character. *)
Definition character_bytes `{Locale} (text : str) : nat :=
  match loc_mbrlen false text with MbLength n => n | _ => 1%nat end.

Section Bounds.
Context `{LL : LocaleLaws}.

Lemma csh_character_length_bound text lexical :
  text <> [] ->
  (1 <= csh_character_length text lexical true <= length text)%nat.
Proof.
  intros Ht. unfold csh_character_length. destruct text as [|b text]; [done|].
  destruct (b <? 128); [simpl; lia|].
  destruct (loc_mbrlen _ _) as [| | |n] eqn:E; simpl; try lia.
  by apply mbrlen_bound in E.
Qed.

Lemma character_bytes_bound text :
  text <> [] -> (1 <= character_bytes text <= length text)%nat.
Proof.
  intros Ht. unfold character_bytes. destruct (loc_mbrlen false text) as [| | |n] eqn:E;
    try (destruct text; simpl; [done|lia]). by apply mbrlen_bound in E.
Qed.
End Bounds.

Lemma csh_character_length_ascii `{Locale} b text lexical final :
  b < 128 -> csh_character_length (b :: text) lexical final = 1%nat.
Proof. intros Hb. unfold csh_character_length. by rewrite (proj2 (Z.ltb_lt b 128) Hb). Qed.

(** ** Concrete encodings *)

Definition c_locale : Locale :=
  {| loc_startup := true; loc_mbrlen := fun _ s =>
       match s with [] => MbIncomplete | b :: _ => if b =? 0 then MbNul else MbLength 1 end;
     loc_btowc := fun b => b <? 128; loc_max := 1%nat |}.

#[export] Instance c_locale_laws : LocaleLaws c_locale.
Proof.
  split; [|simpl; lia]. intros ctx [|b s] n; simpl; [done|]. destruct (b =? 0); [done|].
  intros [= <-]. simpl. lia.
Qed.

Definition continuation_byte (b : byte) : bool := between 128 b 191.

(** [mbrlen] of UTF-8: [n] continuation bytes after a lead byte.  The narrower
    ranges of some second bytes are not checked. *)
Fixpoint utf8_tail (n : nat) (s : str) (len : nat) : mbr_result :=
  match n with
  | O => MbLength len
  | S n' => match s with
            | [] => MbIncomplete
            | b :: s' => if continuation_byte b then utf8_tail n' s' (S len) else MbInvalid
            end
  end.

Definition utf8_mbrlen (s : str) : mbr_result :=
  match s with
  | [] => MbIncomplete
  | b :: s' =>
      if b =? 0 then MbNul
      else if b <? 128 then MbLength 1
      else if between 194 b 223 then utf8_tail 1 s' 1
      else if between 224 b 239 then utf8_tail 2 s' 1
      else if between 240 b 244 then utf8_tail 3 s' 1
      else MbInvalid
  end.

Definition utf8_locale : Locale :=
  {| loc_startup := true; loc_mbrlen := fun _ s => utf8_mbrlen s; loc_btowc := fun b => b <? 128;
     loc_max := 4%nat |}.

Lemma utf8_tail_bound n s len m :
  utf8_tail n s len = MbLength m -> (len <= m <= len + length s)%nat.
Proof.
  revert s len. induction n as [|n IH]; intros s len; simpl; [intros [= <-]; lia|].
  destruct s as [|b s]; [done|]. destruct (continuation_byte b); [|done].
  intros H%IH. simpl. lia.
Qed.

#[export] Instance utf8_locale_laws : LocaleLaws utf8_locale.
Proof.
  split; [|simpl; lia]. intros ctx [|b s] n; simpl; [done|].
  repeat (case_match; [try done|]); try done; try (intros [= <-]; simpl; lia);
    intros H%utf8_tail_bound; simpl; lia.
Qed.

(** What follows a complete character does not matter. *)
Lemma utf8_tail_extend n c s len m : utf8_tail n c len = MbLength m -> utf8_tail n (c ++ s) len = MbLength m.
Proof.
  revert c len. induction n as [|n IH]; intros c len; [done|]. destruct c as [|b c]; [done|]. cbn [utf8_tail app].
  destruct (continuation_byte b); [apply IH|done].
Qed.

Lemma utf8_tail_limit n c len m : utf8_tail n c len = MbLength m -> m = (len + n)%nat.
Proof.
  revert c len. induction n as [|n IH]; intros c len; cbn [utf8_tail]; [intros [= ->]; lia|].
  destruct c as [|b c]; [done|]. destruct (continuation_byte b); [|done]. intros E%IH. lia.
Qed.

(** The UTF-8 text of an e with an acute accent and of the euro sign. *)
Definition accent : str := [195; 169].
Definition euro : str := [226; 130; 172].
