(* ===== verification/Quote.v ===== *)
(** * Dollar-single-quote decoding (src/quote.c)

    [csh_quote_decode] walks the region with a cursor; the model walks the bytes
    still to be read.  Each turn of the loop consumes at least one byte, so the
    loop has [length bytes + 1] units of fuel and [quote_loop_total] shows that
    they are never exhausted. *)

From stdpp Require Import base list gmap strings.
From S2P Require Import Prelude Character.

Inductive csh_quote_result : Type := CSH_QUOTE_OK | CSH_QUOTE_INVALID | CSH_QUOTE_NOMEM.

Definition hexadecimal (byte : byte) : Z :=
  if between (ch "0") byte (ch "9") then byte - ch "0"
  else if between (ch "a") byte (ch "f") then byte - ch "a" + 10
  else if between (ch "A") byte (ch "F") then byte - ch "A" + 10
  else -1.

Definition control (byte : byte) : Z :=
  if between (ch "a") byte (ch "z") then byte - ch "a" + 1
  else if between (ch "A") byte (ch "Z") then byte - ch "A" + 1
  else if byte =? ch "[" then 27
  else if byte =? ch "\" then 28
  else if byte =? ch "]" then 29
  else if byte =? ch "^" then 30
  else if byte =? ch "_" then 31
  else if byte =? ch "?" then 127
  else -1.

(** The digit loops: the value, the number of digits and the rest. *)
Fixpoint hex_digits (n : nat) (s : str) (value : Z) (digits : nat) : Z * nat * str :=
  match n, s with
  | S n', c :: s' =>
      let digit := hexadecimal c in
      if 0 <=? digit then hex_digits n' s' (value * 16 + digit) (S digits)
      else (value, digits, s)
  | _, _ => (value, digits, s)
  end.

Fixpoint octal_digits (n : nat) (s : str) (value : Z) : Z * str :=
  match n, s with
  | S n', c :: s' =>
      if between (ch "0") c (ch "7") then octal_digits n' s' (value * 8 + (c - ch "0"))
      else (value, s)
  | _, _ => (value, s)
  end.

(** The escape that starts with [escaped], the byte after the backslash: bytes
    stored literally before it, the byte it stands for, whether [btowc] is
    consulted, and the bytes after it. *)
Definition decode_escape (escaped : byte) (s : str) : str * byte * bool * str :=
  if escaped =? 34 then ([], 34, false, s)
  else if escaped =? ch "'" then ([], ch "'", false, s)
  else if escaped =? ch "\" then ([], ch "\", false, s)
  else if escaped =? ch "a" then ([], 7, false, s)
  else if escaped =? ch "b" then ([], 8, false, s)
  else if escaped =? ch "e" then ([], 27, true, s)
  else if escaped =? ch "f" then ([], 12, false, s)
  else if escaped =? ch "n" then ([], 10, false, s)
  else if escaped =? ch "r" then ([], 13, false, s)
  else if escaped =? ch "t" then ([], 9, false, s)
  else if escaped =? ch "v" then ([], 11, false, s)
  else if escaped =? ch "c" then
    let digit := match s with [] => -1 | c :: _ => control c end in
    let slash := peek s =? ch "\" in
    if (0 <=? digit) && (negb slash || match s with _ :: d :: _ => d =? ch "\" | _ => false end)
    then ([], digit, true, if slash then drop 2 s else drop 1 s)
    else ([ch "\"], escaped, false, s)
  else if escaped =? ch "x" then
    let '(value, digits, s') := hex_digits 2 s 0 0 in
    if negb (digits =? 0)%nat then ([], value mod 256, false, s')
    else ([ch "\"], escaped, false, s')
  else if between (ch "0") escaped (ch "7") then
    let '(value, s') := octal_digits 2 s (escaped - ch "0") in
    ([], value mod 256, false, s')
  else ([ch "\"], escaped, false, s).

Inductive loop_result : Type := QDone (out : str) | QInvalid | QFuel.

Definition emit (bytes : str) (r : loop_result) : loop_result :=
  match r with QDone out => QDone (bytes ++ out) | _ => r end.

Section Decode.
Context `{Locale}.

(** The end of a turn: the [btowc] check, the NUL that ends the region, and
    the store. *)
Definition store (bytes : str) (b : byte) (check_control : bool) (next : loop_result)
    : loop_result :=
  if check_control && negb (loc_btowc b) then QInvalid
  else if b =? 0 then QDone bytes
  else emit (bytes ++ [b]) next.

Fixpoint quote_loop (fuel : nat) (s : str) : loop_result :=
  match fuel with
  | O => QFuel
  | S fuel' =>
      match s with
      | [] => QDone []
      | b :: rest =>
          let width := csh_character_length s true true in
          if (1 <? width)%nat then emit (take width s) (quote_loop fuel' (drop width s))
          else if b =? ch "\" then
            match rest with
            | [] => store [] b false (quote_loop fuel' rest)
            | escaped :: rest' =>
                let width := csh_character_length rest true true in
                if (1 <? width)%nat then
                  emit (ch "\" :: take width rest) (quote_loop fuel' (drop width rest))
                else
                  let '(bytes, b', check_control, s') := decode_escape escaped rest' in
                  store bytes b' check_control (quote_loop fuel' s')
            end
          else store [] b false (quote_loop fuel' rest)
      end
  end.

Definition csh_quote_decode (bytes : str) : M (csh_quote_result * option str) :=
  if slen bytes =? SIZE_MAX then ret (CSH_QUOTE_NOMEM, None)
  else if in_set 0 bytes then ret (CSH_QUOTE_INVALID, None)
  else
    let* ok := malloc in
    if negb ok then ret (CSH_QUOTE_NOMEM, None)
    else match quote_loop (S (length bytes)) bytes with
         | QDone out => ret (CSH_QUOTE_OK, Some out)
         | _ => ret (CSH_QUOTE_INVALID, None)
         end.
End Decode.

(** ** Lemmas *)

Lemma hex_digits_spec n s v d v' d' s' :
  hex_digits n s v d = (v', d', s') -> (length s' + d' = length s + d)%nat /\ (d <= d')%nat.
Proof.
  revert s v d. induction n as [|n IH]; intros s v d; simpl; [intros [= <- <- <-]; lia|].
  destruct s as [|c s]; [intros [= <- <- <-]; simpl; lia|].
  destruct (0 <=? hexadecimal c); [|intros [= <- <- <-]; simpl; lia].
  intros E%IH. simpl. lia.
Qed.

Lemma octal_digits_spec n s v v' s' : octal_digits n s v = (v', s') -> (length s' <= length s)%nat.
Proof.
  revert s v. induction n as [|n IH]; intros s v; simpl; [intros [= <- <-]; lia|].
  destruct s as [|c s]; [intros [= <- <-]; simpl; lia|].
  destruct (between _ _ _); [|intros [= <- <-]; simpl; lia].
  intros E%IH. simpl. lia.
Qed.

(** An escape never stands for more bytes than it takes, and what it stores
    literally is no NUL. *)
Lemma decode_escape_spec e s bytes b check s' :
  decode_escape e s = (bytes, b, check, s') ->
  (length s' <= length s)%nat /\ (length bytes + length s' <= S (length s))%nat /\ 0 ∉ bytes.
Proof.
  unfold decode_escape. intros D.
  repeat match type of D with
  | (if ?c then _ else _) = _ => destruct c
  end; try (simplify_eq; simpl; split_and!; first [lia | set_solver]).
  - destruct s as [|c [|d s]]; simpl in D; repeat (case_match; try discriminate);
      simplify_eq; simpl; split_and!; first [lia | set_solver].
  - destruct (hex_digits 2 s 0 0) as [[v d] s1] eqn:E. apply hex_digits_spec in E.
    destruct d; simpl in D; simplify_eq; simpl; split_and!; first [lia | set_solver].
  - destruct (octal_digits 2 s (e - 48)) as [v s1] eqn:E. apply octal_digits_spec in E.
    simplify_eq. simpl. split_and!; first [lia | set_solver].
Qed.

Lemma control_range c : -1 <= control c <= 127.
Proof. unfold control, between. repeat case_match; bsimp; try lia; destruct_and?; bsimp; lia. Qed.

Lemma decode_escape_control e s bytes b s' :
  decode_escape e s = (bytes, b, true, s') -> 0 <= b < 128.
Proof.
  unfold decode_escape. intros D.
  repeat match type of D with
  | (if ?c then _ else _) = _ => let E := fresh "E" in destruct c eqn:E
  end; simplify_eq; try lia.
  - apply andb_true_iff in E11 as [E11 _]. apply Z.leb_le in E11.
    destruct s as [|c s]; [lia|]. pose proof (control_range c). lia.
  - destruct (hex_digits 2 s 0 0) as [[v [|d]] s1]; simplify_eq.
  - destruct (octal_digits 2 s (e - 48)) as [v s1]; simplify_eq.
Qed.

Definition loop_ok (s : str) (r : loop_result) : Prop :=
  match r with
  | QDone out => (length out <= length s)%nat /\ (0 ∉ s -> 0 ∉ out)
  | QInvalid => True
  | QFuel => False
  end.

Section Facts.
Context `{LL : LocaleLaws}.

Lemma emit_ok pre s s' r :
  (length pre + length s' <= length s)%nat -> (0 ∉ s -> 0 ∉ pre) ->
  (0 ∉ s -> 0 ∉ s') -> loop_ok s' r -> loop_ok s (emit pre r).
Proof.
  intros Hlen Hpre Hs. destruct r as [out| |]; simpl; [|done..].
  intros [Hout H0]. rewrite length_app. split; [lia|]. intros Hn.
  rewrite elem_of_app. naive_solver.
Qed.

Lemma store_ok pre b check s s' r :
  (length pre + 1 + length s' <= length s)%nat -> 0 ∉ pre ->
  (0 ∉ s -> 0 ∉ s') -> loop_ok s' r -> loop_ok s (store pre b check r).
Proof.
  intros Hlen Hpre Hs Hr. unfold store. destruct (check && negb (loc_btowc b)); [done|].
  destruct (b =? 0) eqn:Eb; [simpl; split; [lia|done]|].
  apply (emit_ok _ s s'); [rewrite length_app; simpl; lia| |done..].
  bsimp. set_solver.
Qed.

Lemma drop_not_in (n : nat) (s : str) b : b ∉ s -> b ∉ drop n s.
Proof. rewrite <- (take_drop n s) at 1. set_solver. Qed.

Lemma take_not_in (n : nat) (s : str) b : b ∉ s -> b ∉ take n s.
Proof. rewrite <- (take_drop n s) at 1. set_solver. Qed.

Lemma decode_escape_suffix e s bytes b check s' :
  decode_escape e s = (bytes, b, check, s') -> exists n, s' = drop n s.
Proof.
  unfold decode_escape. intros D.
  assert (forall n v d v' d' t t', hex_digits n t v d = (v', d', t') -> exists k, t' = drop k t) as Hhex.
  { clear. induction n as [|n IH]; intros v d v' d' t t'; simpl; [intros [= <- <- <-]; by exists 0%nat|].
    destruct t as [|c t]; [intros [= <- <- <-]; by exists 0%nat|].
    destruct (0 <=? _); [|intros [= <- <- <-]; by exists 0%nat].
    intros [k ->]%IH. by exists (S k). }
  assert (forall n v v' t t', octal_digits n t v = (v', t') -> exists k, t' = drop k t) as Hoct.
  { clear. induction n as [|n IH]; intros v v' t t'; simpl; [intros [= <- <-]; by exists 0%nat|].
    destruct t as [|c t]; [intros [= <- <-]; by exists 0%nat|].
    destruct (between _ _ _); [|intros [= <- <-]; by exists 0%nat].
    intros [k ->]%IH. by exists (S k). }
  repeat match type of D with
  | (if ?c then _ else _) = _ => destruct c
  end; simplify_eq; try (by exists 0%nat).
  - destruct (peek s =? _); [by exists 2%nat|by exists 1%nat].
  - destruct (hex_digits 2 s 0 0) as [[v [|d]] s1] eqn:E; simpl in D; simplify_eq; eauto.
  - destruct (octal_digits 2 s (e - 48)) as [v s1] eqn:E; simplify_eq; eauto.
Qed.

Lemma quote_loop_spec fuel s : (length s < fuel)%nat -> loop_ok s (quote_loop fuel s).
Proof.
  revert s. induction fuel as [|fuel IH]; intros s Hf; [lia|].
  destruct s as [|b rest]; [by split|]. cbn [quote_loop].
  pose proof (csh_character_length_bound (b :: rest) true ltac:(done)) as Hw.
  destruct (1 <? _)%nat eqn:Ew.
  { set (width := csh_character_length _ _ _) in *.
    apply (emit_ok _ _ (drop width (b :: rest))); [rewrite length_take, length_drop; lia| | |].
    - apply take_not_in.
    - apply drop_not_in.
    - apply IH. rewrite length_drop. apply Nat.ltb_lt in Ew. simpl in *. lia. }
  assert (loop_ok rest (quote_loop fuel rest)) as Hrest by (apply IH; simpl in Hf; lia).
  destruct (b =? _); [|by apply (store_ok _ _ _ _ rest); [simpl; lia|set_solver..|]].
  destruct rest as [|e rest]; [by apply (store_ok _ _ _ _ []); [simpl; lia|set_solver..|]|].
  pose proof (csh_character_length_bound (e :: rest) true ltac:(done)) as Hw2.
  destruct (1 <? csh_character_length (e :: rest) _ _)%nat eqn:Ew2.
  { set (width := csh_character_length (e :: rest) _ _) in *.
    apply (emit_ok _ _ (drop width (e :: rest))).
    - simpl. rewrite length_take, length_drop. simpl in *. lia.
    - rewrite !not_elem_of_cons. intros (_ & He & Hr). split; [done|].
      apply take_not_in. by apply not_elem_of_cons.
    - intros Hn. apply drop_not_in. set_solver.
    - apply IH. rewrite length_drop. simpl in *. lia. }
  destruct (decode_escape e rest) as [[[bytes b'] check] s'] eqn:D.
  pose proof (decode_escape_spec _ _ _ _ _ _ D) as (Hl & Hl2 & H0).
  destruct (decode_escape_suffix _ _ _ _ _ _ D) as [k ->].
  apply (store_ok _ _ _ _ (drop k rest)); [simpl; lia|done| |].
  - intros Hn. apply drop_not_in. set_solver.
  - apply IH. simpl in *. lia.
Qed.

(** With every control byte representable, no region is rejected. *)
Lemma quote_loop_accepts fuel s :
  (forall b, 0 <= b < 128 -> loc_btowc b = true) -> quote_loop fuel s <> QInvalid.
Proof.
  intros Hb. revert s.
  assert (forall pre r, r <> QInvalid -> emit pre r <> QInvalid) as Hemit by (by intros ? []).
  assert (forall pre b check r, (check = true -> 0 <= b < 128) -> r <> QInvalid ->
            store pre b check r <> QInvalid) as Hstore.
  { intros pre b check r Hc Hr. unfold store.
    destruct check; simpl; [rewrite Hb by auto|]; simpl; (destruct (b =? 0); [done|auto]). }
  induction fuel as [|fuel IH]; intros s; [done|].
  destruct s as [|b rest]; [done|]. cbn [quote_loop].
  destruct (1 <? _)%nat; [auto|]. destruct (b =? _); [|by apply Hstore].
  destruct rest as [|e rest]; [by apply Hstore|].
  destruct (1 <? _)%nat; [auto|].
  destruct (decode_escape e rest) as [[[bytes b'] check] s'] eqn:D.
  apply Hstore; [|done]. intros ->. by eapply decode_escape_control.
Qed.

(** Text without a backslash is kept, multibyte characters included. *)
Lemma quote_loop_literal fuel s :
  (length s < fuel)%nat -> ch "\" ∉ s -> 0 ∉ s -> quote_loop fuel s = QDone s.
Proof.
  revert s. induction fuel as [|fuel IH]; intros s Hf Hs H0; [lia|].
  destruct s as [|b rest]; [done|]. cbn [quote_loop].
  pose proof (csh_character_length_bound (b :: rest) true ltac:(done)) as Hw.
  destruct (1 <? _)%nat eqn:Ew.
  - rewrite IH; [|rewrite length_drop; simpl in *; lia|by apply drop_not_in..].
    simpl emit. by rewrite take_drop.
  - destruct (Z.eqb_spec b 92) as [->|Hb]; [set_solver|]. unfold store. simpl.
    destruct (Z.eqb_spec b 0) as [->|Hb0]; [set_solver|].
    rewrite IH; [done|simpl in Hf; lia|set_solver..].
Qed.

(** ** Octal encoding *)

Definition octal_escape (b : byte) : str :=
  [ch "\"; ch "0" + b / 64; ch "0" + b / 8 mod 8; ch "0" + b mod 8].

Definition octal_encode (s : str) : str := s ≫= octal_escape.

Lemma octal_escape_digits b :
  0 < b < 256 -> let q := b / 64 in let r := b / 8 mod 8 in let t := b mod 8 in
  0 <= q < 8 /\ 0 <= r < 8 /\ 0 <= t < 8 /\ (q * 8 + r) * 8 + t = b.
Proof. intros Hb. simpl. split_and!; try lia; try (Z.to_euclidean_division_equations; lia). Qed.

Lemma decode_octal q r t rest :
  0 <= q < 8 -> 0 <= r < 8 -> 0 <= t < 8 ->
  decode_escape (ch "0" + q) (ch "0" + r :: ch "0" + t :: rest) =
    ([], ((q * 8 + r) * 8 + t) mod 256, false, rest).
Proof.
  intros Hq Hr Ht. unfold decode_escape.
  repeat match goal with |- context [if (48 + q =? ?k) then _ else _] =>
    rewrite (proj2 (Z.eqb_neq (48 + q) k)) by lia end.
  assert (forall x, 0 <= x < 8 -> between 48 (48 + x) 55 = true) as Hbt
    by (intros; unfold between; bsimp; lia).
  rewrite Hbt by done. cbn [octal_digits]. rewrite !Hbt by done.
  by replace (((48 + q - 48) * 8 + (48 + r - 48)) * 8 + (48 + t - 48)) with ((q * 8 + r) * 8 + t) by lia.
Qed.

Lemma quote_loop_octal fuel s :
  (length s < fuel)%nat -> cstring s -> quote_loop fuel (octal_encode s) = QDone s.
Proof.
  intros Hf Hs. revert fuel Hf. induction Hs as [|b s Hb Hs IH]; intros [|fuel] Hf; try (simpl in Hf; lia).
  { done. }
  destruct (octal_escape_digits b Hb) as (Hq & Hr & Ht & Heq).
  change (octal_encode (b :: s)) with (octal_escape b ++ octal_encode s).
  unfold octal_escape. simpl app. cbn [quote_loop].
  rewrite !csh_character_length_ascii by lia. cbn [Nat.ltb Nat.leb Z.eqb Pos.eqb].
  rewrite decode_octal by done. rewrite Heq, Z.mod_small by lia.
  rewrite IH by (simpl in Hf; lia). unfold store. simpl.
  by rewrite (proj2 (Z.eqb_neq b 0)) by lia.
Qed.

Lemma octal_encode_no_nul s : cstring s -> in_set 0 (octal_encode s) = false.
Proof.
  intros Hs. apply not_true_iff_false. rewrite in_set_elem. unfold octal_encode.
  rewrite list_elem_of_bind. intros (b & H0 & Hb). unfold cstring in Hs.
  rewrite Forall_forall in Hs. apply Hs in Hb.
  destruct (octal_escape_digits b Hb) as (Hq & Hr & Ht & _).
  unfold octal_escape in H0. rewrite !elem_of_cons in H0.
  destruct H0 as [H0|[H0|[H0|[H0|H0]]]]; [lia..|set_solver].
Qed.
End Facts.

(** ** Main theorems *)

(** Decoding a dollar-single-quoted region terminates with a result on
    every input, and on success the decoded text holds no NUL and is no longer
    than the region, so the buffer of [length + 1] bytes is never overrun.  With
    memory, a region without NUL bytes is rejected only when the locale cannot
    represent an ASCII control byte. *)
Theorem quote_decode_safe (L : Locale) (HL : LocaleLaws L) (bytes : str) (w : proc)
    (Hlen : slen bytes < SIZE_MAX) :
  quote_loop (S (length bytes)) bytes <> QFuel /\
  post (csh_quote_decode bytes) w (fun '(r, out) _ =>
    match r with
    | CSH_QUOTE_OK => exists text, out = Some text /\ (length text <= length bytes)%nat /\ 0 ∉ text
    | CSH_QUOTE_INVALID => out = None /\
        (0 ∈ bytes \/ ~ (forall b, 0 <= b < 128 -> loc_btowc b = true))
    | CSH_QUOTE_NOMEM => out = None /\ ~ calm w
    end).
Proof.
  pose proof (quote_loop_spec (S (length bytes)) bytes ltac:(lia)) as Hok.
  split; [by intros E; rewrite E in Hok|].
  unfold csh_quote_decode. rewrite (proj2 (Z.eqb_neq _ _)) by lia.
  destruct (in_set 0 bytes) eqn:E0.
  { apply post_ret. apply in_set_elem in E0. auto. }
  assert (0 ∉ bytes) as Hn by (rewrite <- in_set_elem; congruence).
  apply post_bind, post_malloc. intros b w' _ Hc. destruct b; cbn [negb].
  2:{ apply post_ret. split; [done|]. by intros []%Hc. }
  pose proof (quote_loop_accepts (S (length bytes)) bytes) as Hacc.
  destruct (quote_loop _ _) as [out| |]; [| |done]; unfold post, ret; simpl in Hok.
  - destruct Hok as [Hl H0]. exists out. auto.
  - split; [done|]. right. intros Hb. by apply Hacc.
Qed.

Lemma quote_decode_safe_witness :
  exists text, fst (csh_quote_decode (H:=c_locale) (bs "a\n\x41\'") quiet_proc) = (CSH_QUOTE_OK, Some text) /\
    (length text <= 9)%nat /\ 0 ∉ text.
Proof.
  destruct (quote_decode_safe c_locale c_locale_laws (bs "a\n\x41\'") quiet_proc eq_refl) as [_ H].
  apply post_run in H. destruct (csh_quote_decode _ _) as [[r out] w'] eqn:E.
  assert (r = CSH_QUOTE_OK) as -> by (vm_compute in E; injection E as <- _ _; reflexivity).
  destruct H as (text & -> & Hl & H0). exists text. split; [reflexivity|]. split; [exact Hl|exact H0].
Defined.

(** C8: decoding inverts octal encoding and keeps literal text.  Every NUL-free
    byte string, in any encoding, is the decoding of its three-digit octal
    escapes, and a region with no backslash stands for itself, multibyte
    characters included. *)
Theorem quote_decode_roundtrip (L : Locale) (HL : LocaleLaws L) (s : str) (w : proc)
    (Hs : cstring s) (Hlen : 4 * slen s < SIZE_MAX) (Hw : calm w) :
  fst (csh_quote_decode (octal_encode s) w) = (CSH_QUOTE_OK, Some s) /\
  (ch "\" ∉ s -> fst (csh_quote_decode s w) = (CSH_QUOTE_OK, Some s)).
Proof.
  assert (length (octal_encode s) = 4 * length s)%nat as Hl.
  { clear. unfold octal_encode. induction s as [|b s IH]; [done|]. csimpl. rewrite IH. lia. }
  assert (0 ∉ s) as H0.
  { intros Hin. unfold cstring in Hs. rewrite Forall_forall in Hs. apply Hs in Hin. lia. }
  split.
  - unfold csh_quote_decode. rewrite (proj2 (Z.eqb_neq _ _)) by (unfold slen in *; lia).
    rewrite octal_encode_no_nul by done. unfold bind. rewrite malloc_calm by done. simpl negb. cbv iota.
    rewrite quote_loop_octal by (done || lia). done.
  - intros Hb. unfold csh_quote_decode. rewrite (proj2 (Z.eqb_neq _ _)) by (unfold slen in *; lia).
    destruct (in_set 0 s) eqn:E; [by apply in_set_elem in E|].
    unfold bind. rewrite malloc_calm by done. simpl negb. cbv iota.
    rewrite quote_loop_literal by (done || lia). done.
Qed.

Lemma quote_decode_roundtrip_witness :
  fst (csh_quote_decode (H:=utf8_locale) (octal_encode [195; 169; 39]) quiet_proc) =
  (CSH_QUOTE_OK, Some [195; 169; 39]).
Proof.
  refine (proj1 (quote_decode_roundtrip utf8_locale utf8_locale_laws [195; 169; 39] quiet_proc _ _ _));
    [repeat (apply Forall_cons; split; [lia|]); by apply Forall_nil
    | vm_compute; reflexivity | reflexivity].
Defined.
