(* ===== verification/State.v ===== *)
(** * Shell state (src/state.c)

    Variables, positional parameters, functions, the command hash, aliases and
    the scalar information of a shell.  Linked lists are the lists of their
    nodes in link order; a mutator takes the state and returns it changed.  The
    state pointer and the out pointers are never [NULL] here; strings that may
    be [NULL] are options.  Functions are the numbers of their payloads, whose
    reference counts are in the process, since states share them.
    [setlocale] accepts the names the host knows: the class [LocaleDb]. *)

From stdpp Require Import base list gmap strings.
From S2P Require Import Prelude Output Options Alias.

Definition CSH_VAR_EXPORT : Z := Z.shiftl 1 0.
Definition CSH_VAR_READONLY : Z := Z.shiftl 1 1.
Definition VARIABLE_ATTRIBUTES : Z := Z.lor CSH_VAR_EXPORT CSH_VAR_READONLY.
Definition SHELL_OPTIONS : Z := Z.lor CSH_OPT_INTERACTIVE CSH_SETTABLE_OPTIONS.

Inductive csh_state_result : Type :=
  | CSH_STATE_OK | CSH_STATE_INVALID | CSH_STATE_NOMEM | CSH_STATE_READONLY.

#[export] Instance csh_state_result_eq_dec : EqDecision csh_state_result.
Proof. solve_decision. Defined.

Inductive csh_input_mode : Type := CSH_MODE_STDIN | CSH_MODE_STRING | CSH_MODE_FILE.

Record variable : Type := mk_variable {
  v_name : str; v_value : option str; v_attributes : Z }.

Record function_entry : Type := mk_function { f_name : str; f_value : Z }.

Record csh_state_info : Type := mk_info {
  source_depth : Z; function_depth : Z; argument_count : Z; last_status : Z;
  shell_pid : Z; background_pid : Z; mode : csh_input_mode; options : Z;
  errexit_ignored : Z }.

Record csh_state : Type := mk_state {
  manages_locale : bool;
  aliases : option csh_aliases;
  hashes : list variable;
  getopts_offset : Z;
  functions : list function_entry;
  variables : list variable;
  arg0 : str;
  arguments : list str;
  info : csh_state_info }.

Record csh_variable_view : Type := mk_view { view_value : option str; view_attributes : Z }.

Definition zero_info : csh_state_info := mk_info 0 0 0 0 0 0 CSH_MODE_STDIN 0 0.

(** ** Field assignments *)

Definition with_variables (s : csh_state) v := mk_state (manages_locale s) (aliases s) (hashes s)
  (getopts_offset s) (functions s) v (arg0 s) (arguments s) (info s).
Definition with_hashes (s : csh_state) h := mk_state (manages_locale s) (aliases s) h
  (getopts_offset s) (functions s) (variables s) (arg0 s) (arguments s) (info s).
Definition with_functions (s : csh_state) f := mk_state (manages_locale s) (aliases s) (hashes s)
  (getopts_offset s) f (variables s) (arg0 s) (arguments s) (info s).
Definition with_aliases (s : csh_state) a := mk_state (manages_locale s) a (hashes s)
  (getopts_offset s) (functions s) (variables s) (arg0 s) (arguments s) (info s).
Definition with_offset (s : csh_state) o := mk_state (manages_locale s) (aliases s) (hashes s)
  o (functions s) (variables s) (arg0 s) (arguments s) (info s).
Definition with_manages (s : csh_state) b := mk_state b (aliases s) (hashes s)
  (getopts_offset s) (functions s) (variables s) (arg0 s) (arguments s) (info s).
Definition with_info (s : csh_state) i := mk_state (manages_locale s) (aliases s) (hashes s)
  (getopts_offset s) (functions s) (variables s) (arg0 s) (arguments s) i.
Definition with_arg0 (s : csh_state) a := mk_state (manages_locale s) (aliases s) (hashes s)
  (getopts_offset s) (functions s) (variables s) a (arguments s) (info s).

Definition info_count (i : csh_state_info) n := mk_info (source_depth i) (function_depth i) n
  (last_status i) (shell_pid i) (background_pid i) (mode i) (options i) (errexit_ignored i).
Definition info_status (i : csh_state_info) n := mk_info (source_depth i) (function_depth i)
  (argument_count i) n (shell_pid i) (background_pid i) (mode i) (options i) (errexit_ignored i).
Definition info_background (i : csh_state_info) n := mk_info (source_depth i) (function_depth i)
  (argument_count i) (last_status i) (shell_pid i) n (mode i) (options i) (errexit_ignored i).
Definition info_options (i : csh_state_info) n := mk_info (source_depth i) (function_depth i)
  (argument_count i) (last_status i) (shell_pid i) (background_pid i) (mode i) n (errexit_ignored i).
Definition info_errexit (i : csh_state_info) n := mk_info (source_depth i) (function_depth i)
  (argument_count i) (last_status i) (shell_pid i) (background_pid i) (mode i) (options i) n.
Definition info_source (i : csh_state_info) n := mk_info n (function_depth i)
  (argument_count i) (last_status i) (shell_pid i) (background_pid i) (mode i) (options i)
  (errexit_ignored i).
Definition info_function (i : csh_state_info) n := mk_info (source_depth i) n
  (argument_count i) (last_status i) (shell_pid i) (background_pid i) (mode i) (options i)
  (errexit_ignored i).
Definition info_start (i : csh_state_info) pid m o := mk_info (source_depth i) (function_depth i)
  (argument_count i) (last_status i) pid (background_pid i) m o (errexit_ignored i).

(** [state->arguments = args; state->info.argument_count = count] *)
Definition with_arguments (s : csh_state) (args : list str) (count : Z) :=
  mk_state (manages_locale s) (aliases s) (hashes s) (getopts_offset s) (functions s)
    (variables s) (arg0 s) args (info_count (info s) count).

Definition zero_state : csh_state := mk_state false None [] 0 [] [] [] [] zero_info.

(** ** Names and lookups *)

Definition name_start (byte : byte) : bool :=
  between (ch "a") byte (ch "z") || between (ch "A") byte (ch "Z") || (byte =? ch "_").

Definition valid_name (name : str) : bool :=
  match name with
  | [] => false
  | b :: rest => name_start b && forallb (fun c => name_start c || between (ch "0") c (ch "9")) rest
  end.

Definition copy_bytes (text : str) : M (option str) :=
  if slen text =? SIZE_MAX then ret None
  else let* ok := malloc in ret (if ok then Some text else None).

Fixpoint find_entry (l : list variable) (name : str) : option variable :=
  match l with
  | [] => None
  | v :: rest => if str_eqb (v_name v) name then Some v else find_entry rest name
  end.

Definition find_variable (s : csh_state) (name : str) : option variable :=
  find_entry (variables s) name.

(** Apply [f] to the node that [find_variable] returns. *)
Fixpoint alter_entry (f : variable -> variable) (l : list variable) (name : str) : list variable :=
  match l with
  | [] => []
  | v :: rest => if str_eqb (v_name v) name then f v :: rest
                 else v :: alter_entry f rest name
  end.

Fixpoint remove_entry (l : list variable) (name : str) : list variable :=
  match l with
  | [] => []
  | v :: rest => if str_eqb (v_name v) name then rest else v :: remove_entry rest name
  end.

(** ** The process locale *)

Class LocaleDb : Type := locale_known : locale_category -> str -> bool.

Definition locale_categories : list (str * locale_category) := [
  (bs "LC_CTYPE", LC_CTYPE); (bs "LC_COLLATE", LC_COLLATE);
  (bs "LC_MESSAGES", LC_MESSAGES); (bs "LC_MONETARY", LC_MONETARY);
  (bs "LC_NUMERIC", LC_NUMERIC); (bs "LC_TIME", LC_TIME) ].

Definition locale_variable (name : str) : bool :=
  if str_eqb name (bs "LANG") || str_eqb name (bs "LC_ALL") then true
  else existsb (fun c => str_eqb name c.1) locale_categories.

Definition locale_value (s : csh_state) (name : str) : option str :=
  match find_variable s name with
  | Some v => match v_value v with Some (c :: x) => Some (c :: x) | _ => None end
  | None => None
  end.

(** [setlocale(category, name)] and [setlocale(LC_ALL, "C")]. *)
Definition setlocale `{LocaleDb} (category : locale_category) (name : str) : M bool := fun w =>
  if locale_known category name then
    (true, snd (set_locale (fun c => if decide (c = category) then name else p_locale w c) w))
  else (false, w).

Definition setlocale_all_C : M unit := set_locale (fun _ => bs "C").

Fixpoint refresh_categories `{LocaleDb} (s : csh_state) (all lang : option str)
    (categories : list (str * locale_category)) : M unit :=
  match categories with
  | [] => ret tt
  | (variable, category) :: rest =>
      let name := match all with Some a => Some a | None => locale_value s variable end in
      let name := match name with Some n => n | None => default (bs "C") lang end in
      let* ok := setlocale category name in
      if ok then refresh_categories s all lang rest else setlocale_all_C
  end.

Definition csh_state_refresh_locale `{LocaleDb} (s : csh_state) : M unit :=
  if negb (manages_locale s) then ret tt
  else refresh_categories s (locale_value s (bs "LC_ALL")) (locale_value s (bs "LANG"))
         locale_categories.

Definition csh_state_manage_locale `{LocaleDb} (s : csh_state) : M csh_state :=
  csh_state_refresh_locale (with_manages s true);;; ret (with_manages s true).

(** ** Functions *)

Definition csh_function_retain (function : option Z) : M unit := fun w =>
  match function with
  | None => ret tt w
  | Some f => set_functions (alter (fun n => n + 1) f (p_functions w)) w
  end.

(** The finalizer runs, and the payload is gone, when the count reaches 0. *)
Definition csh_function_release (function : option Z) : M unit := fun w =>
  match function with
  | None => ret tt w
  | Some f =>
      set_functions (partial_alter (fun n => match n with
        | Some n => if n - 1 =? 0 then None else Some (n - 1)
        | None => None end) f (p_functions w)) w
  end.

Fixpoint find_function (l : list function_entry) (name : str) : option function_entry :=
  match l with
  | [] => None
  | e :: rest => if str_eqb (f_name e) name then Some e else find_function rest name
  end.

Fixpoint remove_function (l : list function_entry) (name : str) : list function_entry :=
  match l with
  | [] => []
  | e :: rest => if str_eqb (f_name e) name then rest else e :: remove_function rest name
  end.

Fixpoint replace_function (l : list function_entry) (name : str) (f : Z) : list function_entry :=
  match l with
  | [] => []
  | e :: rest => if str_eqb (f_name e) name then mk_function (f_name e) f :: rest
                 else e :: replace_function rest name f
  end.

Definition csh_state_function (s : csh_state) (name : option str) : option Z :=
  match name with Some n => f_value <$> find_function (functions s) n | None => None end.

Definition csh_state_set_function (s : csh_state) (name : option str) (function : option Z)
    : M (csh_state_result * csh_state) :=
  match name with
  | None => ret (CSH_STATE_INVALID, s)
  | Some n =>
      if negb (valid_name n) then ret (CSH_STATE_INVALID, s) else
      let entry := find_function (functions s) n in
      match function with
      | None =>
          match entry with
          | Some e =>
              csh_function_release (Some (f_value e));;;
              ret (CSH_STATE_OK, with_functions s (remove_function (functions s) n))
          | None => ret (CSH_STATE_OK, s)
          end
      | Some f =>
          match entry with
          | None =>
              let* node := malloc in
              if negb node then ret (CSH_STATE_NOMEM, s) else
              let* copied := copy_bytes n in
              match copied with
              | None => ret (CSH_STATE_NOMEM, s)
              | Some n' =>
                  csh_function_retain (Some f);;; csh_function_release None;;;
                  ret (CSH_STATE_OK, with_functions s (functions s ++ [mk_function n' f]))
              end
          | Some e =>
              csh_function_retain (Some f);;; csh_function_release (Some (f_value e));;;
              ret (CSH_STATE_OK, with_functions s (replace_function (functions s) n f))
          end
      end
  end.

(** ** Variables *)

(** The node is complete before it is linked; [None] when memory ran out. *)
Definition new_variable (name : str) (value : option str) (attributes : Z) : M (option variable) :=
  let* node := malloc in
  if negb node then ret None else
  let* copied := copy_bytes name in
  match copied with
  | None => ret None
  | Some n =>
      match value with
      | None => ret (Some (mk_variable n None attributes))
      | Some v =>
          let* vcopy := copy_bytes v in
          match vcopy with
          | None => ret None
          | Some v' => ret (Some (mk_variable n (Some v') attributes))
          end
      end
  end.

Definition csh_state_hash_clear (s : csh_state) : csh_state := with_hashes s [].

Definition csh_state_get_variable (s : csh_state) (name : option str)
    : csh_state_result * csh_variable_view :=
  match name with
  | Some n =>
      if valid_name n then
        match find_variable s n with
        | Some v => (CSH_STATE_OK, mk_view (v_value v) (v_attributes v))
        | None => (CSH_STATE_OK, mk_view None 0)
        end
      else (CSH_STATE_INVALID, mk_view None 0)
  | None => (CSH_STATE_INVALID, mk_view None 0)
  end.

Definition has_attribute (attributes mask : Z) : bool := negb (Z.land attributes mask =? 0).

Definition add_export (v : variable) : variable :=
  mk_variable (v_name v) (v_value v) (Z.lor (v_attributes v) CSH_VAR_EXPORT).

(** The effects of an assignment to a special variable, after the store. *)
Definition after_assignment `{LocaleDb} (s : csh_state) (name : str) : M (csh_state_result * csh_state) :=
  let s := if opt_on (options (info s)) CSH_OPT_ALLEXPORT
           then with_variables s (alter_entry add_export (variables s) name) else s in
  let s := if str_eqb name (bs "PATH") then csh_state_hash_clear s else s in
  let s := if str_eqb name (bs "OPTIND") then with_offset s 0 else s in
  (if locale_variable name then csh_state_refresh_locale s else ret tt);;;
  ret (CSH_STATE_OK, s).

Definition csh_state_set_variable `{LocaleDb} (s : csh_state) (name value : option str)
    : M (csh_state_result * csh_state) :=
  match name, value with
  | Some n, Some v =>
      if negb (valid_name n) then ret (CSH_STATE_INVALID, s) else
      match find_variable s n with
      | Some variable =>
          if has_attribute (v_attributes variable) CSH_VAR_READONLY
          then ret (CSH_STATE_READONLY, s) else
          let* copy := copy_bytes v in
          match copy with
          | None => ret (CSH_STATE_NOMEM, s)
          | Some c =>
              after_assignment (with_variables s (alter_entry
                (fun x => mk_variable (v_name x) (Some c) (v_attributes x)) (variables s) n)) n
          end
      | None =>
          let* node := new_variable n (Some v) 0 in
          match node with
          | None => ret (CSH_STATE_NOMEM, s)
          | Some x => after_assignment (with_variables s (x :: variables s)) n
          end
      end
  | _, _ => ret (CSH_STATE_INVALID, s)
  end.

Definition csh_state_update_attributes (s : csh_state) (name : option str) (set clear : Z)
    : M (csh_state_result * csh_state) :=
  match name with
  | None => ret (CSH_STATE_INVALID, s)
  | Some n =>
      if negb (valid_name n) ||
         negb (Z.land (Z.lor set clear) (unot VARIABLE_ATTRIBUTES) =? 0) ||
         negb (Z.land set clear =? 0)
      then ret (CSH_STATE_INVALID, s) else
      match find_variable s n with
      | Some variable =>
          if has_attribute (v_attributes variable) CSH_VAR_READONLY &&
             has_attribute clear CSH_VAR_READONLY
          then ret (CSH_STATE_READONLY, s)
          else ret (CSH_STATE_OK, with_variables s (alter_entry
                 (fun x => mk_variable (v_name x) (v_value x)
                   (Z.land (Z.lor (v_attributes x) set) (unot clear))) (variables s) n))
      | None =>
          let attributes := Z.land set (unot clear) in
          if attributes =? 0 then ret (CSH_STATE_OK, s) else
          let* node := new_variable n None attributes in
          match node with
          | None => ret (CSH_STATE_NOMEM, s)
          | Some x => ret (CSH_STATE_OK, with_variables s (x :: variables s))
          end
      end
  end.

Definition csh_state_unset_variable `{LocaleDb} (s : csh_state) (name : option str)
    : M (csh_state_result * csh_state) :=
  match name with
  | None => ret (CSH_STATE_INVALID, s)
  | Some n =>
      if negb (valid_name n) then ret (CSH_STATE_INVALID, s) else
      match find_variable s n with
      | None => ret (CSH_STATE_OK, s)
      | Some variable =>
          if has_attribute (v_attributes variable) CSH_VAR_READONLY
          then ret (CSH_STATE_READONLY, s) else
          let s := with_variables s (remove_entry (variables s) n) in
          let s := if str_eqb n (bs "PATH") then csh_state_hash_clear s else s in
          (if locale_variable n then csh_state_refresh_locale s else ret tt);;;
          ret (CSH_STATE_OK, s)
      end
  end.

(** ** Selective save and restore *)

Record variable_save : Type := mk_save { s_variable : variable; s_present : bool }.

Definition saved (saves : list variable_save) (name : str) : bool :=
  existsb (fun e => str_eqb (v_name (s_variable e)) name) saves.

Fixpoint save_loop (s : csh_state) (names : list str) (out : list variable_save)
    : M (csh_state_result * list variable_save) :=
  match names with
  | [] => ret (CSH_STATE_OK, out)
  | n :: rest =>
      if saved out n then save_loop s rest out else
      let original := find_variable s n in
      let* node := malloc in
      if negb node then ret (CSH_STATE_NOMEM, []) else
      let* copy := new_variable n (original ≫= v_value)
                     (default 0 (v_attributes <$> original)) in
      match copy with
      | None => ret (CSH_STATE_NOMEM, [])
      | Some x => save_loop s rest (mk_save x (bool_decide (is_Some original)) :: out)
      end
  end.

Definition csh_state_save_variables (s : csh_state) (names : list (option str))
    : M (csh_state_result * list variable_save) :=
  match mapM id names with
  | None => ret (CSH_STATE_INVALID, [])
  | Some ns => if forallb valid_name ns then save_loop s ns [] else ret (CSH_STATE_INVALID, [])
  end.

Fixpoint restore_loop (s : csh_state) (save : list variable_save) (changed_locale : bool)
    : csh_state * bool :=
  match save with
  | [] => (s, changed_locale)
  | entry :: rest =>
      let name := v_name (s_variable entry) in
      let s := if str_eqb name (bs "PATH") then csh_state_hash_clear s else s in
      let remaining := remove_entry (variables s) name in
      let s := with_variables s (if s_present entry then s_variable entry :: remaining else remaining) in
      restore_loop s rest (changed_locale || locale_variable name)
  end.

Definition csh_state_restore_variables `{LocaleDb} (s : csh_state) (save : list variable_save)
    : M (csh_state_result * csh_state) :=
  let '(s', changed_locale) := restore_loop s save false in
  (if changed_locale then csh_state_refresh_locale s' else ret tt);;;
  ret (CSH_STATE_OK, s').

(** ** Positional parameters *)

(** Copies of the strings; [None] when memory ran out. *)
Fixpoint copy_strings (l : list str) : M (option (list str)) :=
  match l with
  | [] => ret (Some [])
  | x :: rest =>
      let* copy := copy_bytes x in
      match copy with
      | None => ret None
      | Some c => let* copies := copy_strings rest in ret (cons c <$> copies)
      end
  end.

Definition csh_state_set_parameters (s : csh_state) (args : list (option str))
    : M (csh_state_result * csh_state) :=
  let count := Z.of_nat (length args) in
  if count >? SIZE_MAX / 8 - 1 then ret (CSH_STATE_NOMEM, s) else
  match mapM id args with
  | None => ret (CSH_STATE_INVALID, s)
  | Some strings =>
      let* vector := malloc in
      if negb vector then ret (CSH_STATE_NOMEM, s) else
      let* copies := copy_strings strings in
      match copies with
      | None => ret (CSH_STATE_NOMEM, s)
      | Some copy => ret (CSH_STATE_OK, with_arguments s copy count)
      end
  end.

Definition csh_state_parameter (s : csh_state) (index : Z) : option str :=
  if index >? argument_count (info s) then None
  else if index =? 0 then Some (arg0 s)
  else arguments s !! Z.to_nat (index - 1).

Record csh_parameter_save : Type := mk_parameter_save { ps_arguments : list str; ps_count : Z }.

Definition csh_state_push_parameters (s : csh_state) (args : list (option str))
    : M (csh_state_result * csh_state * csh_parameter_save) :=
  let* (rc, temporary) := csh_state_set_parameters zero_state args in
  if bool_decide (rc = CSH_STATE_OK) then
    ret (CSH_STATE_OK,
         with_arguments s (arguments temporary) (Z.of_nat (length args)),
         mk_parameter_save (arguments s) (argument_count (info s)))
  else ret (rc, s, mk_parameter_save [] 0).

Definition csh_state_pop_parameters (s : csh_state) (save : csh_parameter_save) : csh_state :=
  with_arguments s (ps_arguments save) (ps_count save).

(** ** The command hash *)

Definition csh_state_hash_get (s : csh_state) (name : str) : option str :=
  find_entry (hashes s) name ≫= v_value.

(** The entry takes the place of one with its name, or the end of the list. *)
Fixpoint put_hash (l : list variable) (entry : variable) : list variable :=
  match l with
  | [] => [entry]
  | v :: rest => if str_eqb (v_name v) (v_name entry) then entry :: rest else v :: put_hash rest entry
  end.

Definition csh_state_hash_set (s : csh_state) (name : str) (path : option str)
    : M (csh_state_result * csh_state) :=
  let* entry := new_variable name path 0 in
  match entry with
  | None => ret (CSH_STATE_NOMEM, s)
  | Some e => ret (CSH_STATE_OK, with_hashes s (put_hash (hashes s) e))
  end.

Definition csh_state_hash_names (s : csh_state) : M (csh_state_result * option (list str)) :=
  let* vector := malloc in
  if negb vector then ret (CSH_STATE_NOMEM, None) else
  let* names := copy_strings (v_name <$> hashes s) in
  match names with
  | None => ret (CSH_STATE_NOMEM, None)
  | Some l => ret (CSH_STATE_OK, Some l)
  end.

Definition csh_state_names (s : csh_state) : M (csh_state_result * option (list str)) :=
  if Z.of_nat (length (variables s)) >=? SIZE_MAX / 8 then ret (CSH_STATE_NOMEM, None) else
  let* vector := malloc in
  if negb vector then ret (CSH_STATE_NOMEM, None) else
  let* names := copy_strings (v_name <$> variables s) in
  match names with
  | None => ret (CSH_STATE_NOMEM, None)
  | Some l => ret (CSH_STATE_OK, Some l)
  end.

(** ** The environment *)

Fixpoint environment_entries (l : list variable) : M (option (list str)) :=
  match l with
  | [] => ret (Some [])
  | v :: rest =>
      match v_value v with
      | Some value =>
          if has_attribute (v_attributes v) CSH_VAR_EXPORT then
            if (slen (v_name v) >? SIZE_MAX - 2) || (slen value >? SIZE_MAX - slen (v_name v) - 2)
            then ret None else
            let* ok := malloc in
            if negb ok then ret None else
            let* entries := environment_entries rest in
            ret (cons (v_name v ++ ch "=" :: value) <$> entries)
          else environment_entries rest
      | None => environment_entries rest
      end
  end.

(** The first loop of [csh_state_environment]: [None] when the vector would be
    larger than the address space. *)
Fixpoint environment_count (l : list variable) (count : Z) : option Z :=
  match l with
  | [] => Some count
  | v :: rest =>
      if bool_decide (is_Some (v_value v)) && has_attribute (v_attributes v) CSH_VAR_EXPORT then
        if count =? SIZE_MAX / 8 - 1 then None else environment_count rest (count + 1)
      else environment_count rest count
  end.

Definition csh_state_environment (s : csh_state) : M (csh_state_result * option (list str)) :=
  match environment_count (variables s) 0 with
  | None => ret (CSH_STATE_NOMEM, None)
  | Some _ =>
      let* vector := malloc in
      if negb vector then ret (CSH_STATE_NOMEM, None) else
      let* entries := environment_entries (variables s) in
      match entries with
      | None => ret (CSH_STATE_NOMEM, None)
      | Some l => ret (CSH_STATE_OK, Some l)
      end
  end.

Fixpoint import_environment `{LocaleDb} (s : csh_state) (envp : list str)
    : M (csh_state_result * csh_state) :=
  match envp with
  | [] => ret (CSH_STATE_OK, s)
  | entry :: rest =>
      match cut_at entry (ch "=") with
      | (n, Some value) =>
          if negb (valid_name n) then import_environment s rest else
          let* copy := copy_bytes n in
          match copy with
          | None => ret (CSH_STATE_NOMEM, s)
          | Some name =>
              let* (r, s1) := csh_state_set_variable s (Some name) (Some value) in
              let* (r, s2) := (if bool_decide (r = CSH_STATE_OK)
                then csh_state_update_attributes s1 (Some name) CSH_VAR_EXPORT 0
                else ret (r, s1)) in
              if bool_decide (r = CSH_STATE_OK) then import_environment s2 rest else ret (r, s2)
          end
      | (_, None) => import_environment s rest
      end
  end.

(** The fields of [struct csh_invocation] that the state copies. *)
Record csh_invocation_view : Type := mk_invocation_view {
  inv_mode : csh_input_mode; inv_interactive : bool; inv_options : Z;
  inv_arg0 : option str; inv_arguments : list str }.

Definition release_functions (l : list function_entry) : M unit :=
  foldr (fun e k => csh_function_release (Some (f_value e));;; k) (ret tt) l.

(** Memory is returned; the function payloads lose this state's references. *)
Definition csh_state_destroy (s : csh_state) : M unit := release_functions (functions s).

(** [pid] is the result of [getpid]; a [NULL] environment is empty. *)
Definition csh_state_create `{LocaleDb} (invocation : csh_invocation_view) (envp : list str) (pid : Z)
    : M (csh_state_result * option csh_state) :=
  match inv_arg0 invocation with
  | None => ret (CSH_STATE_INVALID, None)
  | Some a0 =>
      let* node := malloc in
      if negb node then ret (CSH_STATE_NOMEM, None) else
      let* copy := copy_bytes a0 in
      match copy with
      | None => csh_state_destroy zero_state;;; ret (CSH_STATE_NOMEM, None)
      | Some a =>
          let* (r, s) := csh_state_set_parameters (with_arg0 zero_state a)
                           (Some <$> inv_arguments invocation) in
          let* (r, s) := (if bool_decide (r = CSH_STATE_OK) then import_environment s envp
                          else ret (r, s)) in
          if bool_decide (r = CSH_STATE_OK) then
            ret (CSH_STATE_OK, Some (with_info s (info_start (info s) pid (inv_mode invocation)
              (Z.lor (inv_options invocation)
                 (if inv_interactive invocation then CSH_OPT_INTERACTIVE else 0)))))
          else csh_state_destroy s;;; ret (r, None)
      end
  end.

(** ** Scalar information *)

Definition csh_state_get_info (s : csh_state) : csh_state_info := info s.

Definition csh_state_set_status (s : csh_state) (status : Z) : csh_state_result * csh_state :=
  if status <? 0 then (CSH_STATE_INVALID, s)
  else (CSH_STATE_OK, with_info s (info_status (info s) status)).

Definition csh_state_set_background (s : csh_state) (pid : Z) : csh_state_result * csh_state :=
  if pid <? 0 then (CSH_STATE_INVALID, s)
  else (CSH_STATE_OK, with_info s (info_background (info s) pid)).

Definition csh_state_set_errexit_ignored (s : csh_state) (depth : Z) : csh_state :=
  with_info s (info_errexit (info s) depth).

Definition csh_state_set_source_depth (s : csh_state) (depth : Z) : csh_state :=
  with_info s (info_source (info s) depth).

Definition csh_state_set_function_depth (s : csh_state) (depth : Z) : csh_state :=
  with_info s (info_function (info s) depth).

Definition csh_state_set_getopts_offset (s : csh_state) (offset : Z) : csh_state :=
  with_offset s offset.

Definition csh_state_update_options (s : csh_state) (set clear : Z) : csh_state_result * csh_state :=
  if negb (Z.land (Z.lor set clear) (unot SHELL_OPTIONS) =? 0) || negb (Z.land set clear =? 0)
  then (CSH_STATE_INVALID, s)
  else (CSH_STATE_OK, with_info s (info_options (info s)
          (Z.land (Z.lor (options (info s)) set) (unot clear)))).

(** The table is created at the first use; [None] when that fails. *)
Definition csh_state_aliases (s : csh_state) : M (option csh_aliases * csh_state) :=
  match aliases s with
  | Some t => ret (Some t, s)
  | None => let* (table, _) := csh_aliases_create in ret (table, with_aliases s table)
  end.

(** ** Copies and checkpoints *)

Fixpoint clone_variables (l : list variable) : M (option (list variable)) :=
  match l with
  | [] => ret (Some [])
  | v :: rest =>
      let* node := new_variable (v_name v) (v_value v) (v_attributes v) in
      match node with
      | None => ret None
      | Some x => let* copies := clone_variables rest in ret (cons x <$> copies)
      end
  end.

Fixpoint clone_functions (copy : csh_state) (l : list function_entry) : M (bool * csh_state) :=
  match l with
  | [] => ret (true, copy)
  | e :: rest =>
      let* (r, copy') := csh_state_set_function copy (Some (f_name e)) (Some (f_value e)) in
      if bool_decide (r = CSH_STATE_OK) then clone_functions copy' rest else ret (false, copy')
  end.

Fixpoint clone_hashes (copy : csh_state) (l : list variable) : M (bool * csh_state) :=
  match l with
  | [] => ret (true, copy)
  | v :: rest =>
      let* (r, copy') := csh_state_hash_set copy (v_name v) (v_value v) in
      if bool_decide (r = CSH_STATE_OK) then clone_hashes copy' rest else ret (false, copy')
  end.

(** The [failure] label: whatever the copy holds is destroyed. *)
Definition clone_failure (copy : csh_state) : M (csh_state_result * option csh_state) :=
  csh_state_destroy copy;;; ret (CSH_STATE_NOMEM, None).

Definition csh_state_clone (s : csh_state) : M (csh_state_result * option csh_state) :=
  let* node := malloc in
  if negb node then ret (CSH_STATE_NOMEM, None) else
  let* a0 := copy_bytes (arg0 s) in
  match a0 with
  | None => clone_failure zero_state
  | Some a =>
      let* (r, copy) := csh_state_set_parameters (with_arg0 zero_state a) (Some <$> arguments s) in
      if negb (bool_decide (r = CSH_STATE_OK)) then clone_failure copy else
      let* vars := clone_variables (variables s) in
      match vars with
      | None => clone_failure copy
      | Some vs =>
          let* (ok, copy) := clone_functions (with_variables copy vs) (functions s) in
          if negb ok then clone_failure copy else
          let* (rc, _, table) := csh_aliases_clone (aliases s) in
          if rc =? -1 then clone_failure copy else
          let* (ok, copy) := clone_hashes (with_aliases copy table) (hashes s) in
          if negb ok then clone_failure copy else
          ret (CSH_STATE_OK,
            Some (with_info (with_offset (with_manages copy (manages_locale s)) (getopts_offset s))
                    (info s)))
      end
  end.

Definition csh_state_save (s : csh_state) : M (csh_state_result * option csh_state) :=
  let* node := malloc in
  if negb node then ret (CSH_STATE_NOMEM, None) else csh_state_clone s.

(** The state takes the saved contents; its own go with the checkpoint, which
    is destroyed. *)
Definition csh_state_restore `{LocaleDb} (s : csh_state) (checkpoint : option csh_state)
    : M (csh_state_result * csh_state) :=
  match checkpoint with
  | None => ret (CSH_STATE_INVALID, s)
  | Some saved_state =>
      csh_state_destroy s;;; csh_state_refresh_locale saved_state;;;
      ret (CSH_STATE_OK, saved_state)
  end.

Definition csh_state_checkpoint_destroy (checkpoint : option csh_state) : M unit :=
  match checkpoint with None => ret tt | Some s => csh_state_destroy s end.

(** ** Variables as a finite map

    The abstract view of the variable list: a name is bound to its value, if it
    is set, and its attributes. *)

Definition contents (v : variable) : option str * Z := (v_value v, v_attributes v).

Definition var_map (l : list variable) : gmap str (option str * Z) :=
  list_to_map ((fun v => (v_name v, contents v)) <$> l).

Definition names_unique (l : list variable) : Prop := NoDup (v_name <$> l).

Record state_wf (s : csh_state) : Prop := {
  wf_unique : names_unique (variables s);
  wf_valid : Forall (fun v => valid_name (v_name v) = true) (variables s);
  wf_functions : NoDup (f_name <$> functions s);
  wf_function_names : Forall (fun e => valid_name (f_name e) = true) (functions s);
  wf_hashes : names_unique (hashes s);
  wf_hash_attributes : Forall (fun v => v_attributes v = 0) (hashes s);
  wf_count : argument_count (info s) = Z.of_nat (length (arguments s));
  wf_aliases : from_option aliases_wf True (aliases s)
}.

Lemma var_map_cons v l : var_map (v :: l) = <[v_name v:=contents v]> (var_map l).
Proof. done. Qed.

Lemma find_entry_map l n : contents <$> find_entry l n = var_map l !! n.
Proof.
  induction l as [|v l IH]; simpl; [done|]. rewrite var_map_cons.
  destruct (str_eqb (v_name v) n) eqn:E; bsimp.
  - subst. by rewrite lookup_insert_eq.
  - by rewrite lookup_insert_ne.
Qed.

Lemma find_entry_name l n v : find_entry l n = Some v -> v_name v = n /\ v ∈ l.
Proof.
  induction l as [|x l IH]; simpl; [done|]. destruct (str_eqb (v_name x) n) eqn:E; bsimp.
  - intros [= <-]. set_solver.
  - intros []%IH. set_solver.
Qed.

Lemma find_entry_None l n : find_entry l n = None <-> n ∉ v_name <$> l.
Proof.
  induction l as [|x l IH]; simpl; [set_solver|]. destruct (str_eqb (v_name x) n) eqn:E; bsimp.
  - set_solver.
  - rewrite IH. set_solver.
Qed.

Lemma var_map_None l n : n ∉ v_name <$> l -> var_map l !! n = None.
Proof. intros H%find_entry_None. by rewrite <- find_entry_map, H. Qed.

Section Alter.
Variable f : variable -> variable.
Hypothesis f_name_eq : forall v, v_name (f v) = v_name v.

Lemma alter_entry_names l n : v_name <$> alter_entry f l n = v_name <$> l.
Proof. induction l as [|v l IH]; simpl; [done|]. case_match; csimpl; by rewrite ?f_name_eq, ?IH. Qed.

Lemma alter_entry_map (g : option str * Z -> option str * Z) l n :
  (forall v, contents (f v) = g (contents v)) ->
  var_map (alter_entry f l n) = alter g n (var_map l).
Proof.
  intros Hg. induction l as [|v l IH]; simpl; [done|]. rewrite var_map_cons.
  destruct (str_eqb (v_name v) n) eqn:E; bsimp; rewrite ?var_map_cons.
  - subst. by rewrite f_name_eq, alter_insert_eq, Hg.
  - by rewrite alter_insert_ne, IH.
Qed.

Lemma alter_entry_valid l n :
  Forall (fun v => valid_name (v_name v) = true) l ->
  Forall (fun v => valid_name (v_name v) = true) (alter_entry f l n).
Proof.
  induction 1 as [|v l Hv Hl IH]; simpl; [constructor|].
  case_match; constructor; try done. by rewrite f_name_eq.
Qed.
End Alter.

Lemma remove_entry_map l n :
  names_unique l -> var_map (remove_entry l n) = delete n (var_map l).
Proof.
  induction l as [|v l IH]; unfold names_unique; csimpl; intros Hu; [symmetry; apply delete_empty|].
  apply NoDup_cons in Hu as [Hv Hu]. rewrite var_map_cons.
  destruct (str_eqb (v_name v) n) eqn:E; bsimp; rewrite ?var_map_cons.
  - subst. by rewrite delete_insert_eq, delete_id by (by apply var_map_None).
  - by rewrite delete_insert_ne, IH.
Qed.

Lemma remove_entry_sublist l n : remove_entry l n `sublist_of` l.
Proof. induction l; simpl; [constructor|]. case_match; by repeat constructor. Qed.

Lemma remove_entry_unique l n : names_unique l -> names_unique (remove_entry l n).
Proof.
  unfold names_unique. intros H. eapply sublist_NoDup; [exact H|].
  apply fmap_sublist, remove_entry_sublist.
Qed.

Lemma remove_entry_not_in l n : names_unique l -> n ∉ v_name <$> remove_entry l n.
Proof.
  unfold names_unique. induction l as [|v l IH]; csimpl; intros Hu; [set_solver|].
  apply NoDup_cons in Hu as [Hv Hu].
  destruct (str_eqb (v_name v) n) eqn:E; bsimp; [by subst|]. csimpl. set_solver.
Qed.

(** ** Allocation and locale lemmas *)

(** What a state operation leaves alone in the process: everything but the
    allocation oracle and the locale. *)
Definition same_data (w w' : proc) : Prop :=
  p_stdout w' = p_stdout w /\ p_stderr w' = p_stderr w /\ p_functions w' = p_functions w.

#[export] Instance same_data_preorder : PreOrder same_data.
Proof. split; [by repeat split | intros w1 w2 w3 (?&?&?) (?&?&?); repeat split; congruence]. Qed.

Lemma same_host_data w w' : same_host w w' -> same_data w w'.
Proof. intros (?&?&?&?). by repeat split. Qed.

#[export] Hint Resolve same_host_data : cshell.

(** A string that fits in memory next to its terminator. *)
Definition fits (s : str) : Prop := slen s < SIZE_MAX.

Lemma copy_bytes_post text w (Q : option str -> proc -> Prop) :
  (forall r w', same_host w w' -> (calm w -> w' = w) -> (r = Some text \/ r = None) ->
     (calm w -> fits text -> r = Some text) -> Q r w') ->
  post (copy_bytes text) w Q.
Proof.
  intros H. unfold copy_bytes. destruct (Z.eqb_spec (slen text) SIZE_MAX) as [E|E].
  - apply post_ret, H; [done..|by right|]. unfold fits. lia.
  - apply post_bind, post_malloc. intros b w' Hw Hc. apply post_ret, H; [done| |destruct b; auto|].
    + by intros []%Hc.
    + intros Hcalm _. by destruct (Hc Hcalm) as [_ ->].
Qed.

Definition opt_fits (o : option str) : Prop := from_option fits True o.

Lemma new_variable_post n v a w (Q : option variable -> proc -> Prop) :
  (forall r w', same_host w w' -> (calm w -> w' = w) ->
     (r = Some (mk_variable n v a) \/ r = None) ->
     (calm w -> fits n -> opt_fits v -> r = Some (mk_variable n v a)) -> Q r w') ->
  post (new_variable n v a) w Q.
Proof.
  intros H. unfold new_variable. apply post_bind, post_malloc. intros b w1 Hw1 Hc1.
  destruct b; simpl; [|apply post_ret, H; [done|by intros []%Hc1|by right|by intros []%Hc1]].
  apply post_bind, copy_bytes_post. intros r w2 Hw2 Hc2 Hr Hf2.
  assert (same_host w w2) by (by etrans).
  assert (calm w -> w2 = w /\ w1 = w) as Hc.
  { intros Hc. destruct (Hc1 Hc) as [-> _]. by rewrite Hc2. }
  destruct Hr as [-> | ->]; [|apply post_ret, H; [done|by intros []%Hc|by right|]].
  2:{ intros Hcalm Hn. destruct (Hc Hcalm) as [-> ->]. by specialize (Hf2 Hcalm Hn). }
  destruct v as [v|]; [|apply post_ret, H; [done|by intros []%Hc|by left|done]].
  apply post_bind, copy_bytes_post. intros r w3 Hw3 Hc3 Hr Hf3.
  assert (same_host w w3) by (by etrans).
  assert (calm w -> w3 = w) by (intros Hcalm; destruct (Hc Hcalm) as [-> ->]; auto).
  destruct Hr as [-> | ->]; apply post_ret, H; auto.
  intros Hcalm Hn Hv. destruct (Hc Hcalm) as [-> ->]. by specialize (Hf3 Hcalm Hv).
Qed.

Section Locale.
Context `{LocaleDb}.

Lemma refresh_categories_data s all lang cs w :
  post (refresh_categories s all lang cs) w (fun _ w' => same_data w w' /\ p_alloc w' = p_alloc w).
Proof.
  revert w. induction cs as [|[variable category] cs IH]; intros w; simpl; [by apply post_ret|].
  apply post_bind. unfold setlocale, post at 1.
  destruct (locale_known _ _); [|by repeat split].
  eapply post_mono; [apply IH|]. intros [] w' [Hd Ha]. by split.
Qed.

Lemma refresh_locale_data s w :
  post (csh_state_refresh_locale s) w (fun _ w' => same_data w w' /\ p_alloc w' = p_alloc w).
Proof.
  unfold csh_state_refresh_locale. destruct (manages_locale s); cbn [negb]; [|by apply post_ret].
  apply refresh_categories_data.
Qed.
End Locale.

(** ** Assignments *)

(** Everything an assignment to [name] keeps: all but the variables, the locale
    and what depends on PATH and OPTIND. *)
Definition kept (name : str) (s s' : csh_state) : Prop :=
  functions s' = functions s /\ aliases s' = aliases s /\ arg0 s' = arg0 s /\
  arguments s' = arguments s /\ info s' = info s /\ manages_locale s' = manages_locale s /\
  hashes s' = (if str_eqb name (bs "PATH") then [] else hashes s) /\
  getopts_offset s' = (if str_eqb name (bs "OPTIND") then 0 else getopts_offset s).

Lemma kept_wf name s s' :
  kept name s s' -> names_unique (variables s') ->
  Forall (fun v => valid_name (v_name v) = true) (variables s') -> state_wf s -> state_wf s'.
Proof.
  intros (Hf & Ha & _ & Hargs & Hi & _ & Hh & _) Hu Hv [].
  split; rewrite ?Hf, ?Ha, ?Hi, ?Hargs; try done; rewrite Hh; case_match; try done; constructor.
Qed.

(** The attributes that an assignment leaves on a variable. *)
Definition assigned_attributes (s : csh_state) (old : Z) : Z :=
  if opt_on (options (info s)) CSH_OPT_ALLEXPORT then Z.lor old CSH_VAR_EXPORT else old.

Definition attributes_of (m : gmap str (option str * Z)) (n : str) : Z :=
  default 0 (snd <$> m !! n).

Section Assignments.
Context `{LocaleDb}.

Lemma after_assignment_post s n value old w :
  var_map (variables s) !! n = Some (value, old) -> names_unique (variables s) ->
  Forall (fun v => valid_name (v_name v) = true) (variables s) ->
  post (after_assignment s n) w (fun '(r, s') w' =>
    r = CSH_STATE_OK /\ same_data w w' /\ kept n s s' /\ p_alloc w' = p_alloc w /\
    names_unique (variables s') /\
    Forall (fun v => valid_name (v_name v) = true) (variables s') /\
    var_map (variables s') = <[n:=(value, assigned_attributes s old)]> (var_map (variables s))).
Proof.
  intros Hn Hu Hv. unfold after_assignment.
  set (s1 := if opt_on _ _ then _ else s).
  set (s2 := if str_eqb n (bs "PATH") then csh_state_hash_clear s1 else s1).
  set (s3 := if str_eqb n (bs "OPTIND") then with_offset s2 0 else s2).
  assert (kept n s s3) as Hk.
  { unfold kept, s3, s2, s1. by repeat case_match. }
  assert (variables s3 = variables s1) as H31 by (unfold s3, s2; by repeat case_match).
  assert (names_unique (variables s3) /\
    Forall (fun v => valid_name (v_name v) = true) (variables s3) /\
    var_map (variables s3) = <[n:=(value, assigned_attributes s old)]> (var_map (variables s)))
    as (Hu3 & Hv3 & Hm3).
  { rewrite H31. unfold s1, assigned_attributes. case_match; simpl; split_and!; try done.
    - unfold names_unique. by rewrite alter_entry_names.
    - by apply alter_entry_valid.
    - rewrite (alter_entry_map add_export (fun _ => eq_refl)
        (fun c => (c.1, Z.lor c.2 CSH_VAR_EXPORT))) by done.
      apply map_eq. intros i. rewrite lookup_alter, lookup_insert.
      case_decide; [|done]. subst. by rewrite Hn.
    - by rewrite insert_id. }
  apply post_bind. destruct (locale_variable n); [|apply post_ret, post_ret; by split_and!].
  eapply post_mono; [apply refresh_locale_data|]. intros [] w' [Hd Ha]. apply post_ret. by split_and!.
Qed.

(** [csh_state_set_variable] on every branch. *)
Lemma set_variable_post s n v w :
  state_wf s ->
  post (csh_state_set_variable s (Some n) (Some v)) w (fun '(r, s') w' =>
    same_data w w' /\ state_wf s' /\ (calm w -> calm w') /\
    match r with
    | CSH_STATE_OK =>
        valid_name n = true /\
        has_attribute (attributes_of (var_map (variables s)) n) CSH_VAR_READONLY = false /\
        kept n s s' /\
        var_map (variables s') = <[n:=(Some v, assigned_attributes s
          (attributes_of (var_map (variables s)) n))]> (var_map (variables s))
    | CSH_STATE_INVALID => s' = s /\ valid_name n = false
    | CSH_STATE_READONLY => s' = s /\
        has_attribute (attributes_of (var_map (variables s)) n) CSH_VAR_READONLY = true
    | CSH_STATE_NOMEM => s' = s /\ (calm w -> fits n -> ~ fits v)
    end).
Proof.
  intros Hwf. unfold csh_state_set_variable. destruct (valid_name n) eqn:Hn; simpl;
    [|by apply post_ret].
  unfold find_variable, attributes_of. rewrite <- find_entry_map.
  destruct (find_entry (variables s) n) as [x|] eqn:Ef; simpl.
  - destruct (has_attribute (v_attributes x) CSH_VAR_READONLY) eqn:Er; [by apply post_ret|].
    apply post_bind, copy_bytes_post. intros r w1 Hw1 Hc1 [-> | ->] Hf1.
    2:{ apply post_ret. split_and!; auto with cshell; [by intros Hc; rewrite Hc1|].
        intros Hc _ Hv. by specialize (Hf1 Hc Hv). }
    set (f := fun x => mk_variable (v_name x) (Some v) (v_attributes x)).
    assert (var_map (alter_entry f (variables s) n) =
              <[n:=(Some v, v_attributes x)]> (var_map (variables s))) as Hm.
    { rewrite (alter_entry_map f (fun _ => eq_refl) (fun c => (Some v, c.2))) by done.
      apply map_eq. intros i. rewrite lookup_alter, lookup_insert.
      case_decide; [|done]. subst i. by rewrite <- find_entry_map, Ef. }
    eapply post_mono; [apply (after_assignment_post _ n (Some v) (v_attributes x))|]; simpl.
    + by rewrite Hm, lookup_insert_eq.
    + unfold names_unique. rewrite alter_entry_names by done. apply Hwf.
    + apply alter_entry_valid; [done|apply Hwf].
    + intros [r s'] w' (-> & Hd & Hk & Ha & Hu & Hv & Hm').
      rewrite Hm, insert_insert_eq in Hm'.
      split_and!; auto; [etrans; eauto with cshell| |].
      * eapply kept_wf; [|done..]. exact Hk.
      * intros Hc. unfold calm. by rewrite Ha, Hc1.
  - apply post_bind, new_variable_post. intros r w1 Hw1 Hc1 [-> | ->] Hf1.
    2:{ apply post_ret. split_and!; auto with cshell; [by intros Hc; rewrite Hc1|].
        intros Hc Hfn Hfv. by specialize (Hf1 Hc Hfn Hfv). }
    apply find_entry_None in Ef.
    eapply post_mono; [apply (after_assignment_post _ n (Some v) 0)|]; simpl.
    + by rewrite var_map_cons, lookup_insert_eq.
    + unfold names_unique. csimpl. apply NoDup_cons. split; [done|apply Hwf].
    + constructor; [done|apply Hwf].
    + intros [r s'] w' (-> & Hd & Hk & Ha & Hu & Hv & Hm').
      rewrite var_map_cons, insert_insert_eq in Hm'.
      split_and!; auto; [etrans; eauto with cshell| |].
      * eapply kept_wf; [|done..]. exact Hk.
      * intros Hc. unfold calm. by rewrite Ha, Hc1.
Qed.
End Assignments.

(** ** Attributes and unset *)

(** The attribute word after [(attributes | set) & ~clear]. *)
Definition changed_attributes (old set clear : Z) : Z := Z.land (Z.lor old set) (unot clear).

Lemma with_variables_wf s l :
  state_wf s -> names_unique l -> Forall (fun v => valid_name (v_name v) = true) l ->
  state_wf (with_variables s l).
Proof. by intros [] ??; split. Qed.

Lemma update_attributes_post s n set clear w :
  state_wf s ->
  post (csh_state_update_attributes s (Some n) set clear) w (fun '(r, s') w' =>
    same_host w w' /\ state_wf s' /\ (calm w -> w' = w) /\
    match r with
    | CSH_STATE_OK =>
        valid_name n = true /\ s' = with_variables s (variables s') /\
        (has_attribute (attributes_of (var_map (variables s)) n) CSH_VAR_READONLY = true ->
         has_attribute clear CSH_VAR_READONLY = false) /\
        var_map (variables s') = partial_alter (fun o =>
          match o with
          | Some (v, a) => Some (v, changed_attributes a set clear)
          | None => if Z.land set (unot clear) =? 0 then None else Some (None, Z.land set (unot clear))
          end) n (var_map (variables s))
    | CSH_STATE_READONLY => s' = s /\
        has_attribute (attributes_of (var_map (variables s)) n) CSH_VAR_READONLY = true
    | CSH_STATE_INVALID => s' = s
    | CSH_STATE_NOMEM => s' = s /\ (calm w -> ~ fits n)
    end).
Proof.
  intros Hwf. unfold csh_state_update_attributes.
  destruct (_ || _) eqn:Eg; [by apply post_ret|].
  assert (valid_name n = true) as Hn.
  { rewrite !orb_false_iff in Eg. destruct Eg as [[Hn _] _]. by apply negb_false_iff in Hn. }
  unfold find_variable, attributes_of. rewrite <- find_entry_map.
  destruct (find_entry (variables s) n) as [x|] eqn:Ef; simpl.
  - set (f := fun x => mk_variable (v_name x) (v_value x)
                (Z.land (Z.lor (v_attributes x) set) (unot clear))).
    assert (state_wf (with_variables s (alter_entry f (variables s) n))) as Hwf'.
    { apply with_variables_wf; [done| |].
      - unfold names_unique. rewrite alter_entry_names by done. apply Hwf.
      - apply alter_entry_valid; [done|apply Hwf]. }
    assert (var_map (alter_entry f (variables s) n) = partial_alter (fun o =>
          match o with
          | Some (v, a) => Some (v, changed_attributes a set clear)
          | None => if Z.land set (unot clear) =? 0 then None else Some (None, Z.land set (unot clear))
          end) n (var_map (variables s))) as Hm.
    { rewrite (alter_entry_map f (fun _ => eq_refl)
        (fun c => (c.1, changed_attributes c.2 set clear))) by done.
      apply map_eq. intros i. rewrite lookup_alter, lookup_partial_alter. case_decide; [|done].
      subst i. by rewrite <- find_entry_map, Ef. }
    destruct (has_attribute (v_attributes x) CSH_VAR_READONLY) eqn:Er;
      destruct (has_attribute clear CSH_VAR_READONLY) eqn:Ec; simpl; by apply post_ret.
  - destruct (Z.land set (unot clear) =? 0) eqn:E0.
    { apply post_ret. split_and!; try done; [by destruct s|].
      apply map_eq. intros i. rewrite lookup_partial_alter. case_decide; [|done].
      subst i. by rewrite <- find_entry_map, Ef. }
    apply post_bind, new_variable_post. intros r w1 Hw1 Hc1 [-> | ->] Hf1; apply post_ret.
    2:{ split_and!; auto. intros Hc Hfn. by specialize (Hf1 Hc Hfn I). }
    pose proof Ef as Ei%find_entry_None. split_and!; auto.
    + apply with_variables_wf; [done| |constructor; [done|apply Hwf]].
      unfold names_unique. csimpl. apply NoDup_cons. split; [done|apply Hwf].
    + intros. done.
    + simpl. rewrite var_map_cons. simpl. apply map_eq. intros i.
      rewrite lookup_insert, lookup_partial_alter. case_decide; [|done].
      subst i. by rewrite <- find_entry_map, Ef.
Qed.

Lemma hash_clear_wf s : state_wf s -> state_wf (csh_state_hash_clear s).
Proof. intros []. split; try done; constructor. Qed.

Lemma unset_variable_post `{LocaleDb} s n w :
  state_wf s ->
  post (csh_state_unset_variable s (Some n)) w (fun '(r, s') w' =>
    same_data w w' /\ state_wf s' /\ p_alloc w' = p_alloc w /\
    match r with
    | CSH_STATE_OK =>
        valid_name n = true /\
        has_attribute (attributes_of (var_map (variables s)) n) CSH_VAR_READONLY = false /\
        var_map (variables s') = delete n (var_map (variables s)) /\
        functions s' = functions s /\ info s' = info s /\ arguments s' = arguments s /\
        getopts_offset s' = getopts_offset s
    | CSH_STATE_READONLY => s' = s /\
        has_attribute (attributes_of (var_map (variables s)) n) CSH_VAR_READONLY = true
    | CSH_STATE_INVALID => s' = s /\ valid_name n = false
    | CSH_STATE_NOMEM => False
    end).
Proof.
  intros Hwf. unfold csh_state_unset_variable. destruct (valid_name n) eqn:Hn; simpl;
    [|by apply post_ret].
  unfold find_variable, attributes_of. rewrite <- find_entry_map.
  destruct (find_entry (variables s) n) as [x|] eqn:Ef; simpl.
  - destruct (has_attribute (v_attributes x) CSH_VAR_READONLY) eqn:Er; [by apply post_ret|].
    cbv zeta. set (s1 := with_variables s (remove_entry (variables s) n)).
    set (s2 := if str_eqb n (bs "PATH") then csh_state_hash_clear s1 else s1).
    assert (state_wf s1) as Hwf1.
    { apply with_variables_wf; [done|apply remove_entry_unique, Hwf|].
      eapply sublist_Forall_1; [apply remove_entry_sublist|apply Hwf]. }
    assert (state_wf s2 /\ variables s2 = variables s1 /\ functions s2 = functions s /\
            info s2 = info s /\ arguments s2 = arguments s /\ getopts_offset s2 = getopts_offset s)
      as (Hwf2 & Hv2 & Hf2 & Hi2 & Ha2 & Hg2).
    { unfold s2. case_match; [|done]. split; [|done]. by apply hash_clear_wf. }
    assert (var_map (variables s2) = delete n (var_map (variables s))) as Hm.
    { rewrite Hv2. simpl. apply remove_entry_map, Hwf. }
    apply post_bind. destruct (locale_variable n); [|apply post_ret, post_ret; by split_and!].
    eapply post_mono; [apply refresh_locale_data|]. intros [] w' [Hd Ha]. apply post_ret. by split_and!.
  - apply post_ret. split_and!; try done. by rewrite delete_id by (by rewrite <- find_entry_map, Ef).
Qed.

(** ** Readonly variables *)

Definition readonly_bound (s : csh_state) (n : str) (v : option str) : Prop :=
  exists a, var_map (variables s) !! n = Some (v, a) /\ has_attribute a CSH_VAR_READONLY = true.

Lemma has_readonly a : has_attribute a CSH_VAR_READONLY = Z.testbit a 1.
Proof. unfold has_attribute, CSH_VAR_READONLY. rewrite land_bit_zero by lia. apply negb_involutive. Qed.

Lemma changed_readonly a set clear :
  has_attribute a CSH_VAR_READONLY = true -> has_attribute clear CSH_VAR_READONLY = false ->
  has_attribute (changed_attributes a set clear) CSH_VAR_READONLY = true.
Proof.
  rewrite !has_readonly. unfold changed_attributes. rewrite Z.land_spec, Z.lor_spec, unot_testbit by lia.
  by intros -> ->.
Qed.

Lemma readonly_attributes s n v :
  readonly_bound s n v ->
  has_attribute (attributes_of (var_map (variables s)) n) CSH_VAR_READONLY = true.
Proof. intros (a & Hl & Ha). unfold attributes_of. by rewrite Hl. Qed.
