(* ===== verification/StateCopy.v ===== *)
(** * Copies of the shell state

    Facts about [csh_state_clone], [csh_state_save] and [csh_state_restore] of
    src/state.c: a copy is equal to its source, and function payloads, which
    copies share, gain one reference per entry on success and none on failure. *)

From stdpp Require Import base list gmap strings.
From S2P Require Import Prelude Output Options Alias State.

(** ** Reference counts *)

Definition retain (f : Z) (m : gmap Z Z) : gmap Z Z := alter (fun n => n + 1) f m.

Definition release (f : Z) (m : gmap Z Z) : gmap Z Z :=
  partial_alter (fun n => match n with
    | Some n => if n - 1 =? 0 then None else Some (n - 1)
    | None => None end) f m.

(** The counts after one more reference for each entry of a function table. *)
Definition retain_all (l : list function_entry) (m : gmap Z Z) : gmap Z Z :=
  foldl (fun m e => retain (f_value e) m) m l.

Definition release_all (l : list function_entry) (m : gmap Z Z) : gmap Z Z :=
  foldl (fun m e => release (f_value e) m) m l.

(** Live payloads have a positive count. *)
Definition counts_positive (m : gmap Z Z) : Prop := map_Forall (fun _ n => 0 < n) m.

Lemma retain_positive f m : counts_positive m -> counts_positive (retain f m).
Proof.
  intros H i n. unfold retain. rewrite lookup_alter. case_decide as Hd; [subst i|apply H].
  destruct (m !! f) eqn:E; simpl; [|done]. intros [= <-]. apply H in E. simpl in E. lia.
Qed.

Lemma retain_all_positive l m : counts_positive m -> counts_positive (retain_all l m).
Proof. revert m. induction l as [|e l IH]; intros m Hm; [done|]. by apply IH, retain_positive. Qed.

Lemma release_retain f m : counts_positive m -> release f (retain f m) = m.
Proof.
  intros H. apply map_eq. intros i. unfold release, retain.
  rewrite lookup_partial_alter, !lookup_alter. repeat case_decide; subst; try done.
  destruct (m !! i) as [n|] eqn:E; simpl; [|done]. apply H in E. simpl in E.
  rewrite (proj2 (Z.eqb_neq _ _)) by lia. f_equal. lia.
Qed.

Lemma retain_comm f g m : retain f (retain g m) = retain g (retain f m).
Proof.
  unfold retain. destruct (decide (f = g)) as [->|Hne]; [done|]. by apply alter_alter_ne.
Qed.

Lemma retain_all_retain l f m : retain_all l (retain f m) = retain f (retain_all l m).
Proof.
  revert m. induction l as [|e l IH]; intros m; [done|].
  simpl. by rewrite retain_comm, IH.
Qed.

(** Releasing the entries of a table undoes retaining them. *)
Lemma release_retain_all l m : counts_positive m -> release_all l (retain_all l m) = m.
Proof.
  revert m. induction l as [|e l IH]; intros m Hm; [done|].
  simpl. rewrite retain_all_retain, release_retain by (by apply retain_all_positive). auto.
Qed.

Definition with_counts (w : proc) (m : gmap Z Z) : proc := snd (set_functions m w).

Lemma csh_function_retain_run f w :
  csh_function_retain (Some f) w = (tt, with_counts w (retain f (p_functions w))).
Proof. done. Qed.

Lemma release_functions_run l w :
  release_functions l w = (tt, with_counts w (release_all l (p_functions w))).
Proof.
  revert w. induction l as [|e l IH]; intros w; [by destruct w|].
  change (release_functions (e :: l) w)
    with (release_functions l (with_counts w (release (f_value e) (p_functions w)))).
  by rewrite IH.
Qed.

(** A process that differs in the allocation oracle only, with the given counts. *)
Definition host_counts (w : proc) (m : gmap Z Z) (w' : proc) : Prop :=
  p_stdout w' = p_stdout w /\ p_stderr w' = p_stderr w /\ p_locale w' = p_locale w /\
  p_functions w' = m.

Lemma same_host_counts w m w1 w2 : host_counts w m w1 -> same_host w1 w2 -> host_counts w m w2.
Proof. intros (?&?&?&?) (?&?&?&?). repeat split; congruence. Qed.

Lemma same_host_counts_refl w w' : same_host w w' -> host_counts w (p_functions w) w'.
Proof. intros (?&?&?&?). by repeat split. Qed.

(** ** The loops of the copy *)

Lemma find_function_None l n : n ∉ f_name <$> l -> find_function l n = None.
Proof.
  induction l as [|e l IH]; csimpl; [done|]. intros H.
  destruct (str_eqb (f_name e) n) eqn:E; bsimp; [set_solver|]. apply IH. set_solver.
Qed.

Definition functions_fit (l : list function_entry) : Prop := Forall (fun e => fits (f_name e)) l.

Lemma clone_functions_post copy l w :
  NoDup (f_name <$> (functions copy ++ l)) ->
  Forall (fun e => valid_name (f_name e) = true) l ->
  post (clone_functions copy l) w (fun '(ok, copy') w' =>
    exists dn rest, l = dn ++ rest /\ copy' = with_functions copy (functions copy ++ dn) /\
      (ok = true -> rest = []) /\ host_counts w (retain_all dn (p_functions w)) w' /\
      (calm w -> calm w' /\ (functions_fit l -> ok = true))).
Proof.
  revert copy w. induction l as [|e l IH]; intros copy w Hd Hv; simpl.
  { apply post_ret. exists [], []. rewrite (app_nil_r (functions copy)). split_and!; try done. by destruct copy. }
  apply Forall_cons in Hv as [He Hv]. unfold csh_state_set_function.
  rewrite He. cbn [negb].
  rewrite find_function_None.
  2:{ rewrite fmap_app in Hd. apply NoDup_app in Hd as (_ & Hd & _). intros Hin.
      apply (Hd _ Hin). csimpl. set_solver. }
  do 2 apply post_bind. apply post_malloc. intros b w1 Hw1 Hc1. destruct b; cbn [negb].
  2:{ apply post_ret, post_ret. exists [], (e :: l). rewrite (app_nil_r (functions copy)). destruct copy.
      split_and!; try done; by intros []%Hc1. }
  apply post_bind, copy_bytes_post. intros r w2 Hw2 Hc2 [-> | ->] Hf2.
  2:{ apply post_ret, post_ret. exists [], (e :: l). rewrite (app_nil_r (functions copy)). destruct copy.
      assert (host_counts w (p_functions w) w2) by (apply same_host_counts_refl; by etrans).
      split_and!; try done.
      intros Hc. destruct (Hc1 Hc) as [-> _]. rewrite Hc2 by done. split; [done|].
      intros Hfit. apply Forall_cons in Hfit as [Hfit _]. by specialize (Hf2 Hc Hfit). }
  apply post_bind. unfold post at 1. rewrite csh_function_retain_run.
  apply post_bind, post_ret, post_ret. cbn [bool_decide]. rewrite bool_decide_true by done.
  eapply post_mono; [apply IH|].
  - destruct e. simpl. by rewrite <- app_assoc.
  - done.
  - intros [ok copy'] w' (dn & rest & -> & -> & Hok & Hh & Hcalm).
    exists (mk_function (f_name e) (f_value e) :: dn), rest. destruct e as [n f]. simpl in *.
    split_and!; try done.
    + by rewrite <- app_assoc.
    + destruct Hw1 as (?&?&?&E1), Hw2 as (?&?&?&E2), Hh as (?&?&?&E3). simpl in *.
      repeat split; congruence.
    + intros Hc. destruct (Hc1 Hc) as [-> _]. rewrite (Hc2 Hc) in Hcalm.
      destruct (Hcalm Hc) as [? Hok']. split; [done|].
      intros Hfit. apply Forall_cons in Hfit as [_ ?]. auto.
Qed.

Lemma copy_strings_post l w (Q : option (list str) -> proc -> Prop) :
  (forall r w', same_host w w' -> (calm w -> w' = w) -> (r = Some l \/ r = None) ->
     (calm w -> Forall fits l -> r = Some l) -> Q r w') ->
  post (copy_strings l) w Q.
Proof.
  revert w Q. induction l as [|x l IH]; intros w Q H; simpl.
  { apply post_ret, H; auto. done. }
  apply post_bind, copy_bytes_post. intros r w1 Hw1 Hc1 [-> | ->] Hf1.
  2:{ apply post_ret, H; auto. intros Hc [Hx _]%Forall_cons. by specialize (Hf1 Hc Hx). }
  apply post_bind, IH. intros r w2 Hw2 Hc2 Hr Hf2. apply post_ret, H.
  - by etrans.
  - intros Hc. rewrite (Hc1 Hc) in Hc2. auto.
  - destruct Hr as [-> | ->]; auto.
  - intros Hc [_ Hl]%Forall_cons. rewrite (Hc1 Hc) in Hf2. by rewrite Hf2.
Qed.

Lemma set_parameters_post s args w (Q : csh_state_result * csh_state -> proc -> Prop) :
  (forall r w', same_host w w' -> (calm w -> w' = w) ->
     (r = (CSH_STATE_OK, with_arguments s args (Z.of_nat (length args))) \/
      r = (CSH_STATE_NOMEM, s)) ->
     (calm w -> Forall fits args -> Z.of_nat (length args) < SIZE_MAX / 8 ->
      r = (CSH_STATE_OK, with_arguments s args (Z.of_nat (length args)))) -> Q r w') ->
  post (csh_state_set_parameters s (Some <$> args)) w Q.
Proof.
  intros H. unfold csh_state_set_parameters. rewrite length_fmap.
  destruct (_ >? _) eqn:E; [apply post_ret, H; auto; [done|intros; lia]|].
  assert (mapM id (Some <$> args) = Some args) as ->.
  { clear. apply mapM_Some. by induction args; constructor. }
  apply post_bind, post_malloc. intros b w1 Hw1 Hc1. destruct b; cbn [negb].
  2:{ apply post_ret, H; auto; by intros []%Hc1. }
  apply post_bind, copy_strings_post. intros r w2 Hw2 Hc2 Hr Hf2.
  assert (calm w -> w2 = w) by (intros Hc; destruct (Hc1 Hc) as [-> _]; auto).
  destruct Hr as [-> | ->]; apply post_ret, H; auto; try (by etrans).
  intros Hc Hfit _. destruct (Hc1 Hc) as [-> _]. by specialize (Hf2 Hc Hfit).
Qed.

Definition variable_fits (v : variable) : Prop := fits (v_name v) /\ opt_fits (v_value v).

Lemma clone_variables_post l w (Q : option (list variable) -> proc -> Prop) :
  (forall r w', same_host w w' -> (calm w -> w' = w) -> (r = Some l \/ r = None) ->
     (calm w -> Forall variable_fits l -> r = Some l) -> Q r w') ->
  post (clone_variables l) w Q.
Proof.
  revert w Q. induction l as [|v l IH]; intros w Q H; simpl.
  { apply post_ret, H; auto. done. }
  apply post_bind, new_variable_post. intros r w1 Hw1 Hc1 Hr Hf1.
  destruct v as [n x a]. simpl in *. destruct Hr as [-> | ->].
  2:{ apply post_ret, H; auto. intros Hc [[Hn Hx] _]%Forall_cons. by specialize (Hf1 Hc Hn Hx). }
  apply post_bind, IH. intros r w2 Hw2 Hc2 Hr Hf2. apply post_ret, H.
  - by etrans.
  - intros Hc. rewrite (Hc1 Hc) in Hc2. auto.
  - destruct Hr as [-> | ->]; auto.
  - intros Hc [_ Hl]%Forall_cons. rewrite (Hc1 Hc) in Hf2. by rewrite Hf2.
Qed.

Lemma put_hash_fresh l e : v_name e ∉ v_name <$> l -> put_hash l e = l ++ [e].
Proof.
  induction l as [|v l IH]; csimpl; [done|]. intros H.
  destruct (str_eqb (v_name v) (v_name e)) eqn:E; bsimp; [set_solver|]. rewrite IH; set_solver.
Qed.

Lemma clone_hashes_post copy l w (Q : bool * csh_state -> proc -> Prop) :
  names_unique (hashes copy ++ l) -> Forall (fun v => v_attributes v = 0) l ->
  (forall r w', same_host w w' -> (calm w -> w' = w) ->
     (r = (true, with_hashes copy (hashes copy ++ l)) \/
      r.1 = false /\ functions r.2 = functions copy) ->
     (calm w -> Forall variable_fits l -> r.1 = true) -> Q r w') ->
  post (clone_hashes copy l) w Q.
Proof.
  revert copy w Q. induction l as [|v l IH]; intros copy w Q Hu Ha H; simpl.
  { apply post_ret, H; auto; [done|]. rewrite app_nil_r. left. by destruct copy. }
  apply Forall_cons in Ha as [Hv Ha]. unfold csh_state_hash_set.
  do 2 apply post_bind. apply new_variable_post. intros r w1 Hw1 Hc1 Hr Hf1.
  destruct v as [n x a]. simpl in *. subst a. destruct Hr as [-> | ->]; apply post_ret.
  2:{ apply post_ret, H; auto. intros Hc [[Hn Hx] _]%Forall_cons. by specialize (Hf1 Hc Hn Hx). }
  rewrite bool_decide_true by done. rewrite put_hash_fresh.
  2:{ unfold names_unique in Hu. rewrite fmap_app in Hu. apply NoDup_app in Hu as (_ & Hu & _).
      intros Hin. apply (Hu _ Hin). csimpl. set_solver. }
  apply IH; [simpl; by rewrite <- app_assoc|done|]. intros r w2 Hw2 Hc2 Hr Hf2. apply H.
  - by etrans.
  - intros Hc. rewrite (Hc1 Hc) in Hc2. auto.
  - simpl in Hr. by rewrite <- app_assoc in Hr.
  - intros Hc [_ Hl]%Forall_cons. rewrite (Hc1 Hc) in Hf2. auto.
Qed.

(** ** The copy *)

(** Every string and vector of the state fits in memory. *)
Record state_fits (s : csh_state) : Prop := {
  fit_arg0 : fits (arg0 s);
  fit_arguments : Forall fits (arguments s);
  fit_count : Z.of_nat (length (arguments s)) < SIZE_MAX / 8;
  fit_variables : Forall variable_fits (variables s);
  fit_functions : functions_fit (functions s);
  fit_hashes : Forall variable_fits (hashes s)
}.

(** Success: an equal state, one more reference per function entry.  Failure:
    no state, the reference counts as before. *)
Definition clone_result (s : csh_state) (w : proc) (r : csh_state_result * option csh_state)
    (w' : proc) : Prop :=
  (r = (CSH_STATE_OK, Some s) /\ host_counts w (retain_all (functions s) (p_functions w)) w') \/
  (r = (CSH_STATE_NOMEM, None) /\ host_counts w (p_functions w) w').

Lemma clone_failure_result s copy w w1 :
  counts_positive (p_functions w) ->
  host_counts w (retain_all (functions copy) (p_functions w)) w1 ->
  post (clone_failure copy) w1 (clone_result s w).
Proof.
  intros Hm (?&?&?&Hf). unfold clone_failure, csh_state_destroy, post, bind.
  rewrite release_functions_run, Hf, release_retain_all by done. right. by repeat split.
Qed.

Lemma clone_failure_post s copy w w1 (P : Prop) :
  counts_positive (p_functions w) ->
  host_counts w (retain_all (functions copy) (p_functions w)) w1 -> ~ P ->
  post (clone_failure copy) w1 (fun r w' => clone_result s w r w' /\ (P -> r.1 = CSH_STATE_OK /\ calm w')).
Proof.
  intros Hm Hc HP. eapply post_mono; [by apply clone_failure_result|]. intros r w' Hr.
  split; [done|]. tauto.
Qed.

Lemma clone_aliases_post t w (Q : Z * csh_error * option csh_aliases -> proc -> Prop) :
  from_option aliases_wf True t ->
  (forall r w', same_host w w' -> (calm w -> r.1.1 = 0 /\ w' = w) ->
     (r.1.1 = 0 /\ r.2 = t \/ r.1.1 = -1) -> Q r w') ->
  post (csh_aliases_clone t) w Q.
Proof.
  intros Ht H. unfold csh_aliases_clone. destruct t as [t|]; [|apply post_ret, H; auto; done].
  unfold csh_aliases_create. do 2 apply post_bind. apply post_malloc. intros b w1 Hw1 Hc1.
  destruct b; apply post_ret; [|apply post_ret, H; auto; by intros []%Hc1].
  eapply post_mono; [by apply (clone_entries_post [])|].
  intros [[rc error] copy] w2 (Hw2 & Hc2 & Hres). apply H; simpl.
  - by etrans.
  - intros Hc. destruct (Hc1 Hc) as [-> _]. auto.
  - destruct Hres as [(-> & _ & ->)|[-> _]]; auto.
Qed.

Lemma clone_post s w :
  state_wf s -> counts_positive (p_functions w) ->
  post (csh_state_clone s) w (fun r w' => clone_result s w r w' /\
    (calm w /\ state_fits s -> r.1 = CSH_STATE_OK /\ calm w')).
Proof.
  intros Hwf Hpos. unfold csh_state_clone.
  apply post_bind, post_malloc. intros b w1 Hw1 Hc1. destruct b; cbn [negb].
  2:{ apply post_ret. split; [right; split; [done|by apply same_host_counts_refl]|].
      intros [Hc _]. by destruct (Hc1 Hc). }
  apply same_host_counts_refl in Hw1.
  assert (calm w -> calm w1) as HC1 by (by intros Hc; destruct (Hc1 Hc) as [-> _]). clear Hc1.
  apply post_bind, copy_bytes_post. intros r w2 Hw2 Hc2 Hr Hf2.
  pose proof (same_host_counts _ _ _ _ Hw1 Hw2) as HW2.
  assert (calm w -> calm w2) as HC2 by (intros Hc; rewrite Hc2; auto).
  destruct Hr as [-> | ->].
  2:{ apply clone_failure_post; [done..|].
      intros [Hcalm []]. by specialize (Hf2 (HC1 Hcalm) fit_arg1). }
  apply post_bind, set_parameters_post. intros r w3 Hw3 Hc3 Hr Hf3.
  pose proof (same_host_counts _ _ _ _ HW2 Hw3) as HW3.
  assert (calm w -> calm w3) as HC3 by (intros Hc; rewrite Hc3; auto).
  destruct Hr as [-> | ->]; [rewrite bool_decide_true by done|rewrite bool_decide_false by done];
    cbn [negb].
  2:{ apply clone_failure_post; [done..|].
      intros [Hcalm []]. by specialize (Hf3 (HC2 Hcalm) fit_arguments0 fit_count0). }
  apply post_bind, clone_variables_post. intros r w4 Hw4 Hc4 Hr Hf4.
  pose proof (same_host_counts _ _ _ _ HW3 Hw4) as HW4.
  assert (calm w -> calm w4) as HC4 by (intros Hc; rewrite Hc4; auto).
  destruct Hr as [-> | ->].
  2:{ apply clone_failure_post; [done..|].
      intros [Hcalm []]. by specialize (Hf4 (HC3 Hcalm) fit_variables0). }
  apply post_bind. eapply post_mono; [apply clone_functions_post; apply Hwf|].
  intros [ok copy] w5 (dn & rest & Hl & -> & Hok & HW5 & Hc5).
  assert (host_counts w (retain_all dn (p_functions w)) w5) as HW5'.
  { destruct HW4 as (?&?&?&<-), HW5 as (?&?&?&?). repeat split; congruence. }
  destruct ok; cbn [negb].
  2:{ apply clone_failure_post; [done..|].
      intros [Hcalm []]. destruct (Hc5 (HC4 Hcalm)) as [_ Hx]. by specialize (Hx fit_functions0). }
  rewrite (Hok eq_refl), app_nil_r in Hl. subst dn. clear Hok HW5.
  assert (calm w -> calm w5) as HC5 by (intros Hc; by destruct (Hc5 (HC4 Hc))).
  apply post_bind, clone_aliases_post; [apply Hwf|]. intros [[rc error] table] w6 Hw6 Hc6 Hr.
  pose proof (same_host_counts _ _ _ _ HW5' Hw6) as HW6. simpl in Hr.
  assert (calm w -> calm w6) as HC6 by (intros Hc; destruct (Hc6 (HC5 Hc)) as [_ ->]; auto).
  destruct Hr as [[-> ->]| ->]; cbn [Z.eqb].
  2:{ apply clone_failure_post; [done..|]. intros [Hcalm _]. by destruct (Hc6 (HC5 Hcalm)). }
  apply post_bind, clone_hashes_post; [apply Hwf..|]. intros [ok copy] w7 Hw7 Hc7 Hr Hf7.
  pose proof (same_host_counts _ _ _ _ HW6 Hw7) as HW7. simpl in Hr.
  destruct ok; cbn [negb].
  2:{ destruct Hr as [?|[_ Hr]]; [done|]. apply clone_failure_post; [done|by rewrite Hr|].
      intros [Hcalm []]. by specialize (Hf7 (HC6 Hcalm) fit_hashes0). }
  destruct Hr as [[= ->]|[? _]]; [|done]. apply post_ret. split; [|].
  2:{ intros [Hc _]. split; [done|]. rewrite Hc7; auto. }
  left. split; [|done].
  destruct s; simpl. unfold with_info, with_offset, with_manages, with_hashes, with_aliases. simpl.
  done.
Qed.

Lemma save_post s w :
  state_wf s -> counts_positive (p_functions w) ->
  post (csh_state_save s) w (fun r w' => clone_result s w r w' /\
    (calm w /\ state_fits s -> r.1 = CSH_STATE_OK /\ calm w')).
Proof.
  intros Hwf Hpos. unfold csh_state_save. apply post_bind, post_malloc.
  intros b w1 Hw1 Hc1. destruct b; cbn [negb].
  2:{ apply post_ret. split; [right; split; [done|by apply same_host_counts_refl]|].
      intros [Hc _]. by destruct (Hc1 Hc). }
  pose proof Hw1 as (E1 & E2 & E3 & E4).
  eapply post_mono; [apply clone_post; [done|by rewrite E4]|].
  intros r w2 [Hr Hok]. split.
  - destruct Hr as [[-> (?&?&?&?)]|[-> (?&?&?&?)]]; [left|right]; repeat split; congruence.
  - intros [Hc Hfit]. destruct (Hc1 Hc) as [-> _]. auto.
Qed.

(** ** Main theorems *)

Definition sample_state : csh_state :=
  mk_state false (Some [mk_alias (bs "ll") (bs "ls -l")])
    [mk_variable (bs "ls") (Some (bs "/bin/ls")) 0] 0
    [mk_function (bs "greet") 7]
    [mk_variable (bs "HOME") (Some (bs "/root")) 1; mk_variable (bs "ro") (Some (bs "x")) 2]
    (bs "cshell") [bs "one"; bs "two"] (mk_info 0 0 2 0 100 0 CSH_MODE_STDIN 0 0).

Definition sample_proc : proc := mk_proc [] [] [] [] [] (fun _ => bs "C") {[7 := 1]} [].

Lemma sample_state_wf : state_wf sample_state.
Proof.
  split; try (vm_compute; reflexivity); simpl; repeat constructor; simpl; set_solver.
Qed.

Lemma sample_proc_counts : counts_positive (p_functions sample_proc).
Proof. intros i x. simpl. rewrite lookup_singleton_Some. by intros [_ <-]. Qed.

(** A clone of the shell state is equal to its source in every field and
    takes one reference for each function definition it shares, or, when memory
    runs out at any point, there is no clone and every reference taken on the
    way has been given back.  With memory, the clone succeeds. *)
Theorem state_clone_exact (s : csh_state) (w : proc) (Hwf : state_wf s)
    (Hpos : counts_positive (p_functions w)) :
  post (csh_state_clone s) w (fun r w' =>
    ((r = (CSH_STATE_OK, Some s) /\ p_functions w' = retain_all (functions s) (p_functions w)) \/
     (r = (CSH_STATE_NOMEM, None) /\ p_functions w' = p_functions w)) /\
    (calm w -> state_fits s -> r.1 = CSH_STATE_OK)).
Proof.
  eapply post_mono; [by apply clone_post|]. intros r w' [Hr Hok]. split; [|tauto].
  destruct Hr as [[-> (_&_&_&->)]|[-> (_&_&_&->)]]; auto.
Qed.

Lemma state_clone_exact_witness :
  fst (csh_state_clone sample_state sample_proc) = (CSH_STATE_OK, Some sample_state) /\
  p_functions (snd (csh_state_clone sample_state sample_proc)) !! 7 = Some 2.
Proof.
  pose proof (state_clone_exact sample_state sample_proc sample_state_wf sample_proc_counts) as H.
  apply post_run in H. destruct H as [[[Hr Hf]|[Hr _]] Hok].
  - split; [exact Hr|]. rewrite Hf. vm_compute. reflexivity.
  - vm_compute in Hr. discriminate Hr.
Defined.

(** C5: a checkpoint undoes everything.  A successful [csh_state_save] holds
    the state as it was; restoring it, whatever the state and the process have
    become since, succeeds and gives exactly the saved state, the abandoned
    state's function references being released; when nothing happened in
    between, the reference counts are the original ones. *)
Theorem state_rollback `{LocaleDb} (s : csh_state) (w : proc) (Hwf : state_wf s)
    (Hpos : counts_positive (p_functions w)) (Hcalm : calm w) (Hfit : state_fits s) :
  exists w1, csh_state_save s w = (CSH_STATE_OK, Some s, w1) /\
    forall s2 w2, exists w3,
      csh_state_restore s2 (Some s) w2 = (CSH_STATE_OK, s, w3) /\
      p_functions w3 = release_all (functions s2) (p_functions w2) /\
      (s2 = s -> p_functions w2 = p_functions w1 -> p_functions w3 = p_functions w).
Proof.
  pose proof (save_post s w Hwf Hpos) as Hs. unfold post in Hs.
  destruct (csh_state_save s w) as [r w1]. destruct Hs as [Hr Hok].
  destruct (Hok (conj Hcalm Hfit)) as [Hr1 _]. clear Hok.
  destruct Hr as [[-> (_&_&_&Hf)]|[-> _]]; [|done]. exists w1. split; [done|].
  intros s2 w2. unfold csh_state_restore, csh_state_destroy, bind, ret.
  rewrite release_functions_run.
  pose proof (refresh_locale_data s (with_counts w2 (release_all (functions s2) (p_functions w2))))
    as Hl. unfold post in Hl. destruct (csh_state_refresh_locale s _) as [[] w3].
  destruct Hl as [(_ & _ & Hl) _]. exists w3. split_and!; [done|done|].
  intros -> E. rewrite Hl, E, Hf. by apply release_retain_all.
Qed.

Definition every_locale : LocaleDb := fun _ _ => true.

Lemma state_rollback_witness :
  exists w1, csh_state_save sample_state sample_proc = (CSH_STATE_OK, Some sample_state, w1).
Proof.
  destruct (state_rollback (H:=every_locale) sample_state sample_proc sample_state_wf
    sample_proc_counts eq_refl) as (w1 & E & _); [|exists w1; exact E].
  split; repeat constructor; vm_compute; try reflexivity.
Defined.
