(* ===== verification/StateTheorems.v ===== *)
(** * Properties of the shell state

    The contracts of src/state.c that its clients rely on: assignment on every
    branch, permanence of readonly variables, selective save and restore of
    variables, positional parameter frames, the environment, and the choice of
    the locale. *)

From stdpp Require Import base list gmap strings relations.
From S2P Require Import Prelude Output Options Alias State StateCopy.

(** Assignment on every branch.  A successful [csh_state_set_variable]
    binds the name to the value, keeps its attributes and adds export under
    allexport; it changes no other variable and nothing else but the command
    hash when the name is PATH and the getopts position when it is OPTIND.  A
    readonly variable, an invalid name and a failed allocation are reported as
    such, and the state is then unchanged. *)
Theorem set_variable_correct `{LocaleDb} (s : csh_state) (n v : str) (w : proc) (Hwf : state_wf s) :
  post (csh_state_set_variable s (Some n) (Some v)) w (fun '(r, s') w' =>
    state_wf s' /\
    match r with
    | CSH_STATE_OK =>
        valid_name n = true /\
        has_attribute (attributes_of (var_map (variables s)) n) CSH_VAR_READONLY = false /\
        kept n s s' /\
        var_map (variables s') =
          <[n:=(Some v, assigned_attributes s (attributes_of (var_map (variables s)) n))]>
            (var_map (variables s))
    | CSH_STATE_INVALID => s' = s /\ valid_name n = false
    | CSH_STATE_READONLY => s' = s /\
        has_attribute (attributes_of (var_map (variables s)) n) CSH_VAR_READONLY = true
    | CSH_STATE_NOMEM => s' = s /\ (calm w -> fits n -> ~ fits v)
    end).
Proof.
  eapply post_mono; [by apply set_variable_post|]. intros [r s'] w' (_ & ? & _ & ?). by split.
Qed.

Lemma set_variable_correct_witness :
  let '(r, s', _) := csh_state_set_variable (H:=every_locale) sample_state (Some (bs "HOME"))
                       (Some (bs "/tmp")) quiet_proc in
  r = CSH_STATE_OK /\ var_map (variables s') !! (bs "HOME") = Some (Some (bs "/tmp"), 1).
Proof.
  pose proof (set_variable_correct (H:=every_locale) sample_state (bs "HOME") (bs "/tmp")
    quiet_proc sample_state_wf) as H.
  unfold post in H. destruct (csh_state_set_variable _ _ _ _) as [[r s'] w'] eqn:E.
  assert (r = CSH_STATE_OK) as -> by (vm_compute in E; injection E as <- _ _; reflexivity).
  split; [reflexivity|]. destruct H as (_ & _ & _ & _ & Hm). rewrite Hm. vm_compute. reflexivity.
Defined.

(** ** Readonly variables *)

(** One operation on the variables of a state, with the process it ran in. *)
Inductive variable_step `{LocaleDb} : csh_state * proc -> csh_state * proc -> Prop :=
  | step_set s w n v r s' w' :
      csh_state_set_variable s n v w = (r, s', w') -> variable_step (s, w) (s', w')
  | step_attributes s w n set clear r s' w' :
      csh_state_update_attributes s n set clear w = (r, s', w') -> variable_step (s, w) (s', w')
  | step_unset s w n r s' w' :
      csh_state_unset_variable s n w = (r, s', w') -> variable_step (s, w) (s', w').

Section Readonly.
Context `{LocaleDb}.

Lemma set_variable_readonly s n v m x w :
  state_wf s -> readonly_bound s m x ->
  post (csh_state_set_variable s n v) w (fun '(_, s') _ => state_wf s' /\ readonly_bound s' m x).
Proof.
  intros Hwf Hro. destruct n as [n|]; [|by apply post_ret]. destruct v as [v|]; [|by apply post_ret].
  eapply post_mono; [by apply set_variable_post|]. intros [r s'] w' (_ & Hwf' & _ & Hr).
  split; [done|]. destruct r; try (destruct Hr as [-> _]; done).
  destruct Hr as (_ & Hnro & _ & Hm). destruct Hro as (a & Hl & Ha). exists a. split; [|done].
  rewrite Hm. destruct (decide (n = m)) as [->|Hne]; [|by rewrite lookup_insert_ne].
  unfold attributes_of in Hnro. rewrite Hl in Hnro. simpl in Hnro. congruence.
Qed.

Lemma update_attributes_readonly s n set clear m x w :
  state_wf s -> readonly_bound s m x ->
  post (csh_state_update_attributes s n set clear) w
    (fun '(_, s') _ => state_wf s' /\ readonly_bound s' m x).
Proof.
  intros Hwf Hro. destruct n as [n|]; [|by apply post_ret].
  eapply post_mono; [by apply update_attributes_post|]. intros [r s'] w' (_ & Hwf' & _ & Hr).
  split; [done|]. destruct r; [|by subst|by destruct Hr as [-> _]..].
  destruct Hr as (_ & _ & Hclear & Hm). destruct Hro as (a & Hl & Ha).
  unfold readonly_bound. rewrite Hm, lookup_partial_alter.
  case_decide as Hd; [|by exists a]. subst n. rewrite Hl. eexists. split; [done|].
  apply changed_readonly; [done|]. apply Hclear. unfold attributes_of. by rewrite Hl.
Qed.

Lemma unset_variable_readonly s n m x w :
  state_wf s -> readonly_bound s m x ->
  post (csh_state_unset_variable s n) w (fun '(_, s') _ => state_wf s' /\ readonly_bound s' m x).
Proof.
  intros Hwf Hro. destruct n as [n|]; [|by apply post_ret].
  eapply post_mono; [by apply unset_variable_post|]. intros [r s'] w' (_ & Hwf' & _ & Hr).
  split; [done|]. destruct r; [|by destruct Hr as [-> _]|done|by destruct Hr as [-> _]].
  destruct Hr as (_ & Hnro & Hm & _). destruct Hro as (a & Hl & Ha). exists a. split; [|done].
  rewrite Hm. destruct (decide (n = m)) as [->|Hne]; [|by rewrite lookup_delete_ne].
  unfold attributes_of in Hnro. rewrite Hl in Hnro. simpl in Hnro. congruence.
Qed.

(** C6: readonly is permanent.  Through any sequence of assignments,
    attribute changes and unsets, with any allocation failures, a readonly
    variable stays bound to its value and stays readonly, and the state stays
    well formed. *)
Theorem readonly_permanent (s s' : csh_state) (w w' : proc) (m : str) (x : option str)
    (Hsteps : rtc variable_step (s, w) (s', w')) (Hwf : state_wf s) (Hro : readonly_bound s m x) :
  state_wf s' /\ readonly_bound s' m x.
Proof.
  remember (s, w) as c eqn:Ec. remember (s', w') as c' eqn:Ec'. revert s w s' w' Ec Ec' Hwf Hro.
  induction Hsteps as [c|c1 c2 c3 Hstep Hsteps IH]; intros s w s' w' -> Ec' Hwf Hro.
  { by simplify_eq. }
  assert (state_wf c2.1 /\ readonly_bound c2.1 m x) as [Hwf2 Hro2].
  { inversion Hstep as [? ? n v r s2 w2 E|? ? n st cl r s2 w2 E|? ? n r s2 w2 E]; subst; simpl;
      [pose proof (set_variable_readonly s n v m x w Hwf Hro) as Hp
      |pose proof (update_attributes_readonly s n st cl m x w Hwf Hro) as Hp
      |pose proof (unset_variable_readonly s n m x w Hwf Hro) as Hp];
      unfold post in Hp; rewrite E in Hp; exact Hp. }
  destruct c2 as [s2 w2]. by eapply IH.
Qed.
End Readonly.

Lemma readonly_permanent_witness :
  readonly_bound (snd (fst (csh_state_unset_variable (H:=every_locale) sample_state
    (Some (bs "ro")) quiet_proc))) (bs "ro") (Some (bs "x")).
Proof.
  refine (proj2 (readonly_permanent (H:=every_locale) sample_state _ quiet_proc
    (snd (csh_state_unset_variable (H:=every_locale) sample_state (Some (bs "ro")) quiet_proc))
    (bs "ro") (Some (bs "x")) _ sample_state_wf _)).
  - apply rtc_once. apply (step_unset sample_state quiet_proc (Some (bs "ro")) CSH_STATE_READONLY). vm_compute. reflexivity.
  - exists 2. split; vm_compute; reflexivity.
Defined.

(** ** Selective save and restore *)

(** What a saved entry holds of the state it was saved from. *)
Definition save_of (s : csh_state) (e : variable_save) : Prop :=
  valid_name (v_name (s_variable e)) = true /\
  (if s_present e
   then var_map (variables s) !! v_name (s_variable e) = Some (contents (s_variable e))
   else var_map (variables s) !! v_name (s_variable e) = None).

Definition saved_names (l : list variable_save) : list str := (fun e => v_name (s_variable e)) <$> l.

Lemma saved_elem l n : saved l n = true <-> n ∈ saved_names l.
Proof.
  unfold saved, saved_names. rewrite existsb_exists, list_elem_of_fmap. split.
  - intros (e & He & E). bsimp. exists e. split; [done|]. by apply list_elem_of_In.
  - intros (e & -> & He). exists e. split; [by apply list_elem_of_In|]. by apply str_eqb_spec.
Qed.

Lemma save_entry s n : valid_name n = true ->
  save_of s (mk_save (mk_variable n (find_variable s n ≫= v_value)
      (default 0 (v_attributes <$> find_variable s n))) (bool_decide (is_Some (find_variable s n)))).
Proof.
  intros Hv. split; [done|]. unfold find_variable. simpl. rewrite <- find_entry_map.
  by destruct (find_entry (variables s) n) as [x|].
Qed.

Lemma save_loop_post s names out w :
  Forall (fun n => valid_name n = true) names -> Forall (save_of s) out -> NoDup (saved_names out) ->
  post (save_loop s names out) w (fun '(r, saves) w' => same_host w w' /\
    match r with
    | CSH_STATE_OK => Forall (save_of s) saves /\ NoDup (saved_names saves) /\
        (forall n, n ∈ saved_names saves <-> n ∈ saved_names out \/ n ∈ names)
    | _ => saves = []
    end).
Proof.
  intros Hn. revert out w. induction Hn as [|n names Hv Hn IH]; intros out w Ho Hd; cbn [save_loop].
  { apply post_ret. split_and!; [done..|]. set_solver. }
  destruct (saved out n) eqn:Es.
  { apply saved_elem in Es. eapply post_mono; [by apply IH|]. intros [r saves] w' [Hw Hr].
    split; [done|]. destruct r; try done. destruct Hr as (? & ? & Hi). split_and!; try done. set_solver. }
  apply post_bind, post_malloc. intros b w1 Hw1 _. destruct b; cbn [negb]; [|by apply post_ret].
  apply post_bind, new_variable_post. intros r w2 Hw2 _ Hr _.
  assert (same_host w w2) as Hw by (by etrans). destruct Hr as [-> | ->]; [|by apply post_ret].
  eapply post_mono.
  - apply IH; [constructor; [by apply save_entry|done]|]. simpl. constructor; [|done].
    intros Hin. apply saved_elem in Hin. congruence.
  - intros [r saves] w' [Hw' Hr]. split; [by etrans|]. destruct r; try done.
    destruct Hr as (? & ? & Hi). split_and!; [done..|]. intros m. rewrite Hi. simpl. set_solver.
Qed.

Lemma restore_entry s e : state_wf s -> valid_name (v_name (s_variable e)) = true ->
  let name := v_name (s_variable e) in
  let s1 := if str_eqb name (bs "PATH") then csh_state_hash_clear s else s in
  let remaining := remove_entry (variables s1) name in
  let s2 := with_variables s1 (if s_present e then s_variable e :: remaining else remaining) in
  state_wf s2 /\ var_map (variables s2) =
    (if s_present e then <[name:=contents (s_variable e)]> (delete name (var_map (variables s)))
     else delete name (var_map (variables s))).
Proof.
  intros Hwf Hv name s1 remaining s2.
  assert (state_wf s1 /\ variables s1 = variables s) as [Hwf1 Hvs].
  { unfold s1. destruct (str_eqb _ _); [by split; [apply hash_clear_wf|]|done]. }
  assert (names_unique remaining) as Hu by (apply remove_entry_unique, Hwf1).
  assert (name ∉ v_name <$> remaining) as Hni by (apply remove_entry_not_in, Hwf1).
  assert (Forall (fun v => valid_name (v_name v) = true) remaining) as Hval.
  { eapply sublist_Forall_1; [apply remove_entry_sublist|apply Hwf1]. }
  assert (var_map remaining = delete name (var_map (variables s))) as Hm.
  { unfold remaining. rewrite remove_entry_map by apply Hwf1. by rewrite Hvs. }
  unfold s2. destruct (s_present e).
  - split; [|cbn [variables with_variables]; by rewrite var_map_cons, Hm].
    apply with_variables_wf; [done| |by constructor]. unfold names_unique. csimpl. by constructor.
  - split; [by apply with_variables_wf|done].
Qed.

Lemma restore_loop_map s save b :
  state_wf s -> Forall (fun e => valid_name (v_name (s_variable e)) = true) save -> NoDup (saved_names save) ->
  state_wf (restore_loop s save b).1 /\
  forall n, var_map (variables (restore_loop s save b).1) !! n =
    match List.find (fun e => str_eqb (v_name (s_variable e)) n) save with
    | Some e => if s_present e then Some (contents (s_variable e)) else None
    | None => var_map (variables s) !! n
    end.
Proof.
  intros Hwf Hv Hd. revert s b Hwf. induction save as [|e save IH]; intros s b Hwf; [done|].
  apply Forall_cons in Hv as [Hve Hv]. apply NoDup_cons in Hd as [Hni Hd].
  cbn [restore_loop]. destruct (restore_entry s e Hwf Hve) as [Hwf2 Hm2].
  set (s2 := with_variables _ _) in *.
  destruct (IH Hv Hd s2 (b || locale_variable (v_name (s_variable e))) Hwf2) as [Hwf3 Hm3].
  split; [done|]. intros n. rewrite Hm3. cbn [List.find].
  destruct (str_eqb (v_name (s_variable e)) n) eqn:E; bsimp.
  - subst n. destruct (List.find _ save) as [e'|] eqn:Ef.
    { apply List.find_some in Ef as [Hin E']. bsimp. exfalso. apply Hni. rewrite <- E'.
      apply (list_elem_of_fmap_2 (fun e => v_name (s_variable e))). by apply list_elem_of_In. }
    rewrite Hm2. destruct (s_present e); [by rewrite lookup_insert_eq|by rewrite lookup_delete_eq].
  - destruct (List.find _ save); [done|]. rewrite Hm2.
    destruct (s_present e); rewrite ?lookup_insert_ne, lookup_delete_ne by done; done.
Qed.

(** The binding that restoring a save gives to [n]. *)
Lemma find_saved s saves n m :
  Forall (save_of s) saves ->
  match List.find (fun e => str_eqb (v_name (s_variable e)) n) saves with
  | Some e => if s_present e then Some (contents (s_variable e)) else None
  | None => m
  end = if decide (n ∈ saved_names saves) then var_map (variables s) !! n else m.
Proof.
  intros Hall. destruct (List.find _ saves) as [e|] eqn:Ef.
  - apply List.find_some in Ef as [Hin E]. bsimp. subst n. apply list_elem_of_In in Hin.
    rewrite decide_True by (by apply (list_elem_of_fmap_2 (fun e => v_name (s_variable e)))).
    rewrite Forall_forall in Hall. destruct (Hall e Hin) as [_ He]. by destruct (s_present e).
  - rewrite decide_False; [done|]. intros Hin. apply saved_elem in Hin. unfold saved in Hin.
    apply existsb_exists in Hin as (e & Hin & E). by rewrite (List.find_none _ _ Ef e Hin) in E.
Qed.

(** Restoring a save gives its names their saved bindings. *)
Lemma restore_saved `{LocaleDb} (s s2 : csh_state) (names : list str) (w w2 : proc)
    (saves : list variable_save) (w1 : proc) (Hwf2 : state_wf s2)
    (Hsave : csh_state_save_variables s (Some <$> names) w = (CSH_STATE_OK, saves, w1)) :
  post (csh_state_restore_variables s2 saves) w2 (fun '(r, s3) _ =>
    r = CSH_STATE_OK /\ state_wf s3 /\
    forall n, var_map (variables s3) !! n =
      if decide (n ∈ names) then var_map (variables s) !! n else var_map (variables s2) !! n).
Proof.
  unfold csh_state_save_variables in Hsave.
  assert (mapM id (Some <$> names) = Some names) as Hid.
  { apply mapM_Some. clear. by induction names; constructor. }
  rewrite Hid in Hsave. destruct (forallb valid_name names) eqn:Hv; [|done].
  assert (Forall (fun n => valid_name n = true) names) as Hval.
  { apply Forall_forall. intros n Hn. rewrite forallb_forall in Hv. apply Hv. by apply list_elem_of_In. }
  pose proof (save_loop_post s names [] w Hval (Forall_nil_2 _) NoDup_nil_2) as Hp.
  unfold post in Hp. rewrite Hsave in Hp. destruct Hp as (_ & Hall & Hd & Hin).
  assert (Forall (fun e => valid_name (v_name (s_variable e)) = true) saves) as Hvs
    by (eapply Forall_impl; [exact Hall|]; by intros e [? _]).
  destruct (restore_loop_map s2 saves false Hwf2 Hvs Hd) as [Hwf3 Hm3].
  assert (forall n (a b : option (option str * Z)), (if decide (n ∈ saved_names saves) then a else b) =
    if decide (n ∈ names) then a else b) as Hdec.
  { intros n a b. specialize (Hin n). simpl in Hin. repeat case_decide; try done; set_solver. }
  unfold csh_state_restore_variables. destruct (restore_loop s2 saves false) as [s3 changed]. simpl in *.
  apply post_bind. destruct changed; [eapply post_mono; [apply refresh_locale_data|]; intros [] w3 _|];
    apply post_ret; try apply post_ret; (split_and!; [done..|]); intros n;
    rewrite Hm3, (find_saved s) by done; apply Hdec.
Qed.

(** Selective save and restore.  When saving a list of names succeeds,
    restoring the save into any later state gives each of those names exactly
    the binding it had when it was saved (value, attributes, or none at all),
    even over a readonly variable, and leaves every other variable of the later
    state as it is; repeated names are saved once. *)
Theorem save_restore_variables `{LocaleDb} (s s2 : csh_state) (names : list str) (w w2 : proc)
    (saves : list variable_save) (w1 : proc) (Hwf2 : state_wf s2)
    (Hsave : csh_state_save_variables s (Some <$> names) w = (CSH_STATE_OK, saves, w1)) :
  post (csh_state_restore_variables s2 saves) w2 (fun '(r, s3) _ =>
    r = CSH_STATE_OK /\ state_wf s3 /\
    forall n, var_map (variables s3) !! n =
      if decide (n ∈ names) then var_map (variables s) !! n else var_map (variables s2) !! n).
Proof. by eapply restore_saved. Qed.

Lemma save_restore_variables_witness :
  exists saves w1,
    csh_state_save_variables sample_state (Some <$> [bs "ro"; bs "new"]) quiet_proc =
      (CSH_STATE_OK, saves, w1) /\
    post (csh_state_restore_variables (H:=every_locale) (with_variables sample_state []) saves) quiet_proc
      (fun '(_, s3) _ => var_map (variables s3) !! (bs "ro") = Some (Some (bs "x"), 2)).
Proof.
  eexists _, _. split; [vm_compute; reflexivity|].
  eapply post_mono; [eapply (save_restore_variables (H:=every_locale) sample_state
    (with_variables sample_state []) [bs "ro"; bs "new"] quiet_proc quiet_proc)|].
  - apply with_variables_wf; [exact sample_state_wf|apply NoDup_nil_2|constructor].
  - vm_compute. reflexivity.
  - intros [r s3] w3 (_ & _ & Hn). rewrite Hn. vm_compute. reflexivity.
Defined.

(** ** The environment *)

Definition env_entry (v : variable) : option str :=
  match v_value v with
  | Some value => if has_attribute (v_attributes v) CSH_VAR_EXPORT
                  then Some (v_name v ++ ch "=" :: value) else None
  | None => None
  end.

Lemma environment_entries_post l w :
  post (environment_entries l) w (fun r _ => r = Some (omap env_entry l) \/ r = None).
Proof.
  revert w. induction l as [|v l IH]; intros w; cbn [environment_entries]; [by apply post_ret; left|].
  cbn [omap list_omap]. unfold env_entry at 1. destruct (v_value v) as [value|]; [|apply IH].
  destruct (has_attribute _ _); [|apply IH].
  destruct (_ || _); [by apply post_ret; right|]. apply post_bind, post_malloc. intros b w1 _ _.
  destruct b; cbn [negb]; [|by apply post_ret; right].
  apply post_bind. eapply post_mono; [apply IH|]. intros r w2 [-> | ->]; apply post_ret; auto.
Qed.

Lemma environment_entries_of s w env w1 :
  csh_state_environment s w = (CSH_STATE_OK, Some env, w1) -> env = omap env_entry (variables s).
Proof.
  intros E. cut (post (csh_state_environment s) w (fun (r : csh_state_result * option (list str)) _ =>
    forall e, r.2 = Some e -> e = omap env_entry (variables s))).
  { intros Hp. eapply post_eq in Hp; [|exact E]. by apply Hp. }
  unfold csh_state_environment. destruct (environment_count _ _); [|by apply post_ret].
  apply post_bind, post_malloc. intros b w2 _ _. destruct b; cbn [negb]; [|by apply post_ret].
  apply post_bind. eapply post_mono; [apply environment_entries_post|].
  intros r w3 [-> | ->]; apply post_ret; simpl; congruence.
Qed.

Lemma valid_name_no_equals n : valid_name n = true -> ch "=" ∉ n.
Proof.
  destruct n as [|c r]; [done|]. simpl. rewrite andb_true_iff, forallb_forall. intros [Hc Hr] Hin.
  apply elem_of_cons in Hin as [<-|Hin]; [done|]. apply list_elem_of_In in Hin. by apply Hr in Hin.
Qed.

Definition exported (o : option (option str * Z)) : option (option str * Z) :=
  match o with
  | Some (Some v, a) => if has_attribute a CSH_VAR_EXPORT then Some (Some v, CSH_VAR_EXPORT) else None
  | _ => None
  end.

Section Importing.
Context `{LocaleDb}.

(** One imported variable that the state does not have yet. *)
Lemma import_one s n v w :
  state_wf s -> opt_on (options (info s)) CSH_OPT_ALLEXPORT = false -> var_map (variables s) !! n = None ->
  post (let* (r, s1) := csh_state_set_variable s (Some n) (Some v) in
        if bool_decide (r = CSH_STATE_OK)
        then csh_state_update_attributes s1 (Some n) CSH_VAR_EXPORT 0
        else ret (r, s1)) w (fun '(r, s') _ => r = CSH_STATE_OK ->
    state_wf s' /\ info s' = info s /\
    var_map (variables s') = <[n:=(Some v, CSH_VAR_EXPORT)]> (var_map (variables s))).
Proof.
  intros Hwf Ha Hn. apply post_bind. eapply post_mono; [by apply set_variable_post|].
  intros [r s1] w1 (_ & Hwf1 & _ & Hr). case_bool_decide as Er; [|by apply post_ret]. subst r.
  destruct Hr as (_ & _ & (_ & _ & _ & _ & Hi & _) & Hm).
  eapply post_mono; [by apply update_attributes_post|].
  intros [r s2] w2 (_ & Hwf2 & _ & Hr2) ->. destruct Hr2 as (_ & Es2 & _ & Hm2).
  split_and!; [done|by rewrite Es2|]. rewrite Hm2. apply map_eq. intros i.
  rewrite lookup_partial_alter, Hm, !lookup_insert. repeat case_decide; try done.
  unfold attributes_of, assigned_attributes. rewrite Hn, Ha. done.
Qed.

Lemma import_entries l s w :
  state_wf s -> opt_on (options (info s)) CSH_OPT_ALLEXPORT = false -> names_unique l ->
  Forall (fun v => valid_name (v_name v) = true) l ->
  (forall v, v ∈ l -> var_map (variables s) !! v_name v = None) ->
  post (import_environment s (omap env_entry l)) w (fun '(r, s') _ => r = CSH_STATE_OK ->
    state_wf s' /\
    forall n, var_map (variables s') !! n =
      match exported (var_map l !! n) with Some b => Some b | None => var_map (variables s) !! n end).
Proof.
  revert s w. induction l as [|v l IH]; intros s w Hwf Ha Hu Hv Hfresh.
  { apply post_ret. intros _. split; [done|]. intros n. unfold var_map. simpl. by rewrite lookup_empty. }
  apply Forall_cons in Hv as [Hvn Hv]. apply NoDup_cons in Hu as [Hni Hu].
  assert (var_map l !! v_name v = None) as Hl by (by apply var_map_None).
  assert (var_map (variables s) !! v_name v = None) as Hs by (apply Hfresh; left).
  cbn [omap list_omap]. destruct (env_entry v) as [entry|] eqn:Ee; unfold env_entry in Ee.
  - destruct (v_value v) as [value|] eqn:Ev; [|done]. destruct (has_attribute _ _) eqn:Eh; [|done].
    simplify_eq. cbn [import_environment]. rewrite cut_at_app by (by apply valid_name_no_equals).
    rewrite Hvn. cbn [negb]. apply post_bind, copy_bytes_post. intros r w1 _ _ [-> | ->] _; [|by apply post_ret].
    pose proof (import_one s (v_name v) value w1 Hwf Ha Hs) as H1. unfold post, bind in H1 |- *.
    destruct (csh_state_set_variable s (Some (v_name v)) (Some value) w1) as [[r1 s1] w2].
    destruct (if bool_decide (r1 = CSH_STATE_OK) then _ else _) as [[r2 s2] w3].
    case_bool_decide as E2; [|done]. destruct (H1 E2) as (Hwf2 & Hi2 & Hm2).
    pose proof (IH s2 w3 Hwf2) as IH2. rewrite Hi2 in IH2. specialize (IH2 Ha Hu Hv).
    unfold post in IH2. destruct (import_environment s2 _ w3) as [[r3 s3] w4]. intros E3.
    destruct IH2 as [Hwf3 Hm3]; [|done|].
    { intros x Hx. rewrite Hm2, lookup_insert_ne; [apply Hfresh; by right|].
      intros E. apply Hni. rewrite E. by apply list_elem_of_fmap_2. }
    split; [done|]. intros n. rewrite Hm3, Hm2, var_map_cons, !lookup_insert.
    unfold contents. rewrite Ev. case_decide; [|done]. subst n. rewrite Hl. simpl. by rewrite Eh.
  - eapply post_mono; [apply IH; try done; intros x Hx; apply Hfresh; by right|].
    intros [r s'] w' Hp E. destruct (Hp E) as [Hwf' Hm]. split; [done|]. intros n.
    rewrite Hm, var_map_cons, lookup_insert. case_decide; [|done]. subst n. rewrite Hl, Hs. simpl.
    unfold contents, exported. destruct (v_value v); [|done]. by destruct (has_attribute _ _).
Qed.
End Importing.

Lemma fresh_wf a args : state_wf (with_arguments (with_arg0 zero_state a) args (Z.of_nat (length args))).
Proof. split; simpl; try done; constructor. Qed.

Lemma create_post `{LocaleDb} inv (l : list variable) pid w :
  names_unique l -> Forall (fun v => valid_name (v_name v) = true) l ->
  post (csh_state_create inv (omap env_entry l) pid) w
    (fun (r : csh_state_result * option csh_state) _ => forall c, r.2 = Some c ->
       state_wf c /\
       forall n, var_map (variables c) !! n = exported (var_map l !! n)).
Proof.
  intros Hu Hv. unfold csh_state_create. destruct (inv_arg0 inv) as [a0|]; [|by apply post_ret].
  apply post_bind, post_malloc. intros b w1 _ _. destruct b; cbn [negb]; [|by apply post_ret].
  apply post_bind, copy_bytes_post. intros r w2 _ _ [-> | ->] _.
  2:{ apply post_bind. unfold csh_state_destroy. simpl. by apply post_ret, post_ret. }
  apply post_bind, set_parameters_post. intros r w3 _ _ [-> | ->] _.
  2:{ apply post_bind, post_ret. cbn [bool_decide]. apply post_bind. by apply post_ret, post_ret. }
  rewrite bool_decide_eq_true_2 by done. set (s0 := with_arguments _ _ _).
  apply post_bind. eapply post_mono; [apply (import_entries l s0 w3); try done; apply fresh_wf|].
  intros [r s'] w4 Hp. case_bool_decide as Er.
  - destruct (Hp Er) as [Hwf Hm]. apply post_ret. intros c [= <-]. split.
    + by destruct Hwf; split.
    + intros n. cbn [variables with_info]. rewrite Hm. unfold var_map at 2. simpl.
      rewrite lookup_empty. by destruct (exported _).
  - apply post_bind. unfold csh_state_destroy, post. rewrite release_functions_run. by intros c.
Qed.

(** The environment round trip.  A shell created from the environment of
    another one has exactly the variables that were set and exported there,
    with their values (which may hold any bytes, [=] included), all of them
    exported and none readonly. *)
Theorem environment_roundtrip `{LocaleDb} (s c : csh_state) (env : list str) (inv : csh_invocation_view)
    (pid : Z) (w w1 w2 w3 : proc) (Hwf : state_wf s)
    (Henv : csh_state_environment s w = (CSH_STATE_OK, Some env, w1))
    (Hcreate : csh_state_create inv env pid w2 = (CSH_STATE_OK, Some c, w3)) :
  state_wf c /\ forall n, var_map (variables c) !! n = exported (var_map (variables s) !! n).
Proof.
  apply environment_entries_of in Henv as ->.
  pose proof (create_post inv (variables s) pid w2 (wf_unique _ Hwf) (wf_valid _ Hwf)) as Hp.
  eapply post_eq in Hp; [|exact Hcreate]. by apply Hp.
Qed.

Definition sample_invocation : csh_invocation_view :=
  mk_invocation_view CSH_MODE_STRING false 0 (Some (bs "sh")) [bs "a"].

Definition sample_env : list str := default [] (csh_state_environment sample_state quiet_proc).1.2.

Lemma environment_roundtrip_witness :
  exists w1 c w3,
    csh_state_environment sample_state quiet_proc = (CSH_STATE_OK, Some sample_env, w1) /\
    csh_state_create (H:=every_locale) sample_invocation sample_env 7 quiet_proc = (CSH_STATE_OK, Some c, w3) /\
    var_map (variables c) !! (bs "HOME") = Some (Some (bs "/root"), 1) /\
    var_map (variables c) !! (bs "ro") = None.
Proof.
  assert (csh_state_environment sample_state quiet_proc = (CSH_STATE_OK, Some sample_env,
    snd (csh_state_environment sample_state quiet_proc))) as E1 by (vm_compute; reflexivity).
  set (r := csh_state_create (H:=every_locale) sample_invocation sample_env 7 quiet_proc).
  assert (r = (CSH_STATE_OK, Some (default zero_state r.1.2), r.2)) as E2 by (vm_compute; reflexivity).
  destruct (environment_roundtrip (H:=every_locale) sample_state _ sample_env sample_invocation 7
    quiet_proc _ quiet_proc _ sample_state_wf E1 E2) as [_ Hn].
  eexists _, _, _. split_and!; [exact E1|exact E2|rewrite Hn; vm_compute; reflexivity..].
Defined.

(** ** The locale *)

(** The locale name that the variables choose for a category. *)
Definition chosen_locale (s : csh_state) (variable : str) : str :=
  match locale_value s (bs "LC_ALL"), locale_value s variable, locale_value s (bs "LANG") with
  | Some n, _, _ => n
  | None, Some n, _ => n
  | None, None, Some n => n
  | None, None, None => bs "C"
  end.

Definition category_variable (c : locale_category) : str :=
  match c with
  | LC_CTYPE => bs "LC_CTYPE" | LC_COLLATE => bs "LC_COLLATE" | LC_MESSAGES => bs "LC_MESSAGES"
  | LC_MONETARY => bs "LC_MONETARY" | LC_NUMERIC => bs "LC_NUMERIC" | LC_TIME => bs "LC_TIME"
  end.

Definition all_categories : list locale_category :=
  [LC_CTYPE; LC_COLLATE; LC_MESSAGES; LC_MONETARY; LC_NUMERIC; LC_TIME].

Section LocaleChoice.
Context `{LocaleDb}.

Lemma refresh_categories_run s cs w :
  refresh_categories s (locale_value s (bs "LC_ALL")) (locale_value s (bs "LANG")) cs w =
  if forallb (fun c => locale_known c.2 (chosen_locale s c.1)) cs
  then (tt, snd (set_locale (foldl (fun f c => fun k => if decide (k = c.2) then chosen_locale s c.1 else f k)
              (p_locale w) cs) w))
  else (tt, snd (set_locale (fun _ => bs "C") w)).
Proof.
  revert w. induction cs as [|[v c] cs IH]; intros w; cbn [refresh_categories forallb foldl].
  { by destruct w. }
  replace (match _ with Some n => n | None => default (bs "C") _ end) with (chosen_locale s v)
    by (unfold chosen_locale; by repeat case_match).
  unfold bind at 1. unfold setlocale. cbn [fst snd]. destruct (locale_known c (chosen_locale s v)); [|done].
  rewrite IH. cbn [andb]. by destruct (forallb _ cs).
Qed.

(** The locale follows the variables.  After a refresh by a state that
    manages the locale, every category has the locale that LC_ALL, else its
    own variable, else LANG names (unset and empty values do not count), or
    [C]; when the host does not know one of these names, every category is
    [C]. *)
Theorem locale_precedence (s : csh_state) (w : proc) (Hm : manages_locale s = true) :
  forall c, p_locale (snd (csh_state_refresh_locale s w)) c =
    if forallb (fun c => locale_known c (chosen_locale s (category_variable c))) all_categories
    then chosen_locale s (category_variable c) else bs "C".
Proof.
  intros c. unfold csh_state_refresh_locale. rewrite Hm. cbn [negb]. rewrite refresh_categories_run.
  change (forallb (fun c => locale_known c.2 (chosen_locale s c.1)) locale_categories)
    with (forallb (fun c => locale_known c (chosen_locale s (category_variable c))) all_categories).
  destruct (forallb _ all_categories); [|done]. by destruct c.
Qed.
End LocaleChoice.

Lemma locale_precedence_witness :
  p_locale (snd (csh_state_refresh_locale (H:=every_locale)
    (with_manages (with_variables sample_state [mk_variable (bs "LANG") (Some (bs "fr")) 0;
       mk_variable (bs "LC_TIME") (Some (bs "de")) 0]) true) quiet_proc)) LC_TIME = bs "de".
Proof. rewrite (locale_precedence (H:=every_locale)); vm_compute; reflexivity. Defined.

(** ** Positional parameters *)

(** Parameter frames nest.  Pushing a frame makes exactly the given
    strings the positional parameters ($1 to $n, and nothing beyond n); popping
    it, whatever happened to the frame in between, gives back the old
    parameters; when memory runs out nothing is pushed. *)
Theorem parameter_frames (s : csh_state) (args : list str) (w : proc) (Hwf : state_wf s) :
  post (csh_state_push_parameters s (Some <$> args)) w (fun '(r, s1, save) _ =>
    match r with
    | CSH_STATE_OK =>
        (forall i, (1 <= i)%nat -> csh_state_parameter s1 (Z.of_nat i) = args !! (i - 1)%nat) /\
        csh_state_parameter s1 0 = Some (arg0 s) /\
        csh_state_pop_parameters s1 save = s /\
        forall s2 i, (1 <= i)%nat ->
          csh_state_parameter (csh_state_pop_parameters s2 save) (Z.of_nat i) =
          csh_state_parameter s (Z.of_nat i)
    | _ => s1 = s
    end).
Proof.
  unfold csh_state_push_parameters. apply post_bind, set_parameters_post.
  intros r w1 _ _ [-> | ->] _; [|by apply post_ret]. rewrite bool_decide_eq_true_2 by done.
  apply post_ret. rewrite length_fmap. cbn [arguments with_arguments].
  assert (forall s' l n i, n = Z.of_nat (length l) -> (1 <= i)%nat ->
    csh_state_parameter (with_arguments s' l n) (Z.of_nat i) = l !! (i - 1)%nat) as Hp.
  { intros s' l n i -> Hi. unfold csh_state_parameter, with_arguments. simpl. rewrite Z.gtb_ltb.
    destruct (Z.of_nat (length l) <? Z.of_nat i) eqn:E; bsimp.
    - symmetry. apply lookup_ge_None. lia.
    - replace (Z.of_nat i =? 0) with false by (symmetry; bsimp; lia). f_equal. lia. }
  split_and!.
  - intros i Hi. by apply Hp.
  - unfold csh_state_parameter. simpl. rewrite Z.gtb_ltb.
    by replace (Z.of_nat (length args) <? 0) with false by (symmetry; bsimp; lia).
  - unfold csh_state_pop_parameters, with_arguments. simpl. destruct s as [? ? ? ? ? ? ? ? []]. done.
  - intros s2 i Hi. unfold csh_state_pop_parameters. cbn [ps_arguments ps_count].
    rewrite Hp by (first [apply Hwf|done]).
    replace s with (with_arguments s (arguments s) (argument_count (info s))) at 2
      by (destruct s as [? ? ? ? ? ? ? ? []]; done).
    symmetry. apply Hp; [apply Hwf|done].
Qed.

Lemma parameter_frames_witness :
  post (csh_state_push_parameters sample_state (Some <$> [bs "p"])) quiet_proc (fun '(r, s1, save) _ =>
    r = CSH_STATE_OK /\ csh_state_pop_parameters s1 save = sample_state).
Proof.
  pose proof (parameter_frames sample_state [bs "p"] quiet_proc sample_state_wf) as H.
  unfold post in *. destruct (csh_state_push_parameters _ _ _) as [[[r s1] save] w'] eqn:E.
  assert (r = CSH_STATE_OK) as -> by (vm_compute in E; congruence).
  split; [reflexivity|]. apply H.
Defined.
