(* ===== verification/Arithmetic.v ===== *)
(** * Arithmetic expansion (src/arithmetic.c)

    The tokenizer, the constants, the checked operations and the
    precedence-climbing evaluator of [$((...))].  The code parses and evaluates
    in one pass: with [execute] false it only parses.

    [struct parser] is the record [parser]; the functions that take it are
    computations of the monad [AM], which threads the parser and the host
    process.  Signed arithmetic that C leaves undefined, and a recursion that
    runs out of fuel, have no result ([None]); Arithmetic's theorems show that
    neither happens.  [csh_stack_check] answers from the list [a_stack], whose
    end stands for sufficient stack from there on. *)

From stdpp Require Import base list gmap strings.
From S2P Require Import Prelude Output Numbers Options State.

Inductive token : Type :=
  | TOK_END | TOK_BAD | TOK_NUMBER | TOK_NAME | TOK_LPAREN | TOK_RPAREN
  | TOK_COMMA | TOK_ASSIGN | TOK_MUL_ASSIGN | TOK_DIV_ASSIGN | TOK_MOD_ASSIGN
  | TOK_ADD_ASSIGN | TOK_SUB_ASSIGN | TOK_SHL_ASSIGN | TOK_SHR_ASSIGN
  | TOK_AND_ASSIGN | TOK_XOR_ASSIGN | TOK_OR_ASSIGN | TOK_QUESTION | TOK_COLON
  | TOK_OR | TOK_AND | TOK_BIT_OR | TOK_BIT_XOR | TOK_BIT_AND | TOK_EQ | TOK_NE
  | TOK_LT | TOK_LE | TOK_GT | TOK_GE | TOK_SHL | TOK_SHR | TOK_ADD | TOK_SUB
  | TOK_MUL | TOK_DIV | TOK_MOD | TOK_NOT | TOK_INV.

#[export] Instance token_eq_dec : EqDecision token.
Proof. solve_decision. Defined.

Inductive csh_arith_result : Type :=
  | CSH_ARITH_OK | CSH_ARITH_SYNTAX | CSH_ARITH_RANGE | CSH_ARITH_NOMEM
  | CSH_ARITH_READONLY | CSH_ARITH_RESOURCE.

#[export] Instance csh_arith_result_eq_dec : EqDecision csh_arith_result.
Proof. solve_decision. Defined.

Record parser : Type := mk_parser {
  a_next : str;                      (* the text after the current token *)
  a_start : str;                     (* the text from the current token on *)
  a_length : nat;
  a_token : token;
  a_error : csh_arith_result;
  a_state : csh_state;
  a_options : Z;
  a_incomplete : bool;
  a_stack : list bool                (* results of the coming stack checks *)
}.

(** [vname] is the [length] bytes at [name]. *)
Record value : Type := mk_value { number : Z; vname : option str; high : Z }.

Definition zero_value : value := mk_value 0 None 0.
Definition of_number (n : Z) : value := mk_value n None 0.

Definition token_eqb (a b : token) : bool := bool_decide (a = b).
Definition is_ok (e : csh_arith_result) : bool := bool_decide (e = CSH_ARITH_OK).

(** ** The monad of the evaluator *)

Definition AM (A : Type) : Type := parser -> proc -> option (A * parser * proc).

Definition aret {A} (a : A) : AM A := fun p w => Some (a, p, w).
Definition abind {A B} (m : AM A) (f : A -> AM B) : AM B := fun p w =>
  match m p w with Some (a, p', w') => f a p' w' | None => None end.
Definition astuck {A} : AM A := fun _ _ => None.
Definition alift {A} (m : M A) : AM A := fun p w => let '(a, w') := m w in Some (a, p, w').
Definition aget : AM parser := fun p w => Some (p, p, w).
Definition amodify (f : parser -> parser) : AM unit := fun p w => Some (tt, f p, w).
(** A checked C operation: no result where C defines none. *)
Definition adefined {A} (o : option A) : AM A :=
  match o with Some a => aret a | None => astuck end.

Notation "'let!' x ':=' m 'in' k" := (abind m (fun x => k))
  (at level 10, x strict pattern, m at level 200, k at level 200,
   format "'let!'  x  ':='  m  'in' '//' k") : cshell_scope.
Notation "m >>> k" := (abind m (fun _ => k))
  (at level 100, right associativity) : cshell_scope.

Definition put_error (e : csh_arith_result) (p : parser) : parser :=
  mk_parser (a_next p) (a_start p) (a_length p) (a_token p) e (a_state p) (a_options p)
    (a_incomplete p) (a_stack p).
Definition put_incomplete (b : bool) (p : parser) : parser :=
  mk_parser (a_next p) (a_start p) (a_length p) (a_token p) (a_error p) (a_state p) (a_options p)
    b (a_stack p).
Definition put_state (s : csh_state) (p : parser) : parser :=
  mk_parser (a_next p) (a_start p) (a_length p) (a_token p) (a_error p) s (a_options p)
    (a_incomplete p) (a_stack p).
Definition put_stack (l : list bool) (p : parser) : parser :=
  mk_parser (a_next p) (a_start p) (a_length p) (a_token p) (a_error p) (a_state p) (a_options p)
    (a_incomplete p) l.
Definition put_token (t : token) (start : str) (length : nat) (next : str) (p : parser) : parser :=
  mk_parser next start length t (a_error p) (a_state p) (a_options p) (a_incomplete p) (a_stack p).

Definition set_error (e : csh_arith_result) : AM unit := amodify (put_error e).

(** ** Characters and constants *)

Definition digit (byte : byte) : bool := between (ch "0") byte (ch "9").

Definition space (byte : byte) : bool :=
  (byte =? ch " ") || (byte =? 9) || (byte =? 10) || (byte =? 13) || (byte =? 11) || (byte =? 12).

Definition digit_value (byte : byte) : Z :=
  if digit byte then byte - ch "0"
  else if between (ch "a") byte (ch "f") then byte - ch "a" + 10
  else if between (ch "A") byte (ch "F") then byte - ch "A" + 10
  else -1.

(** Arithmetic of [unsigned long]. *)
Definition ulong (z : Z) : Z := z mod 2 ^ 64.

Definition limit : Z := ulong (LONG_MAX + 1).

Fixpoint literal_loop (text : str) (base magnitude : Z) (too_large : bool) : option (Z * bool) :=
  match text with
  | [] => Some (magnitude, too_large)
  | c :: rest =>
      let number := digit_value c in
      if (number <? 0) || (number >=? base) then None else
      if negb too_large then
        if magnitude >? ulong (limit - number) / base
        then literal_loop rest base magnitude true
        else literal_loop rest base (ulong (ulong (magnitude * base) + number)) too_large
      else literal_loop rest base magnitude too_large
  end.

(** The value of a constant; [None] when the text is none. *)
Definition literal (text : str) : option value :=
  match text with
  | [] => None
  | c0 :: _ =>
      let hex := (c0 =? ch "0") && (2 <=? slen text) &&
        ((peek (drop 1 text) =? ch "x") || (peek (drop 1 text) =? ch "X")) in
      let base := if hex then 16 else if c0 =? ch "0" then 8 else 10 in
      let digits := if hex then drop 2 text else text in
      if hex && bool_decide (digits = []) then None else
      match literal_loop digits base 0 false with
      | None => None
      | Some (magnitude, too_large) =>
          let high := if too_large then 2 else if magnitude >? LONG_MAX then 1 else 0 in
          Some (mk_value (if high =? 0 then magnitude else 0) None high)
      end
  end.

(** ** Tokens *)

Definition operators : list (str * token) := [
  (bs "<<=", TOK_SHL_ASSIGN); (bs ">>=", TOK_SHR_ASSIGN);
  (bs "*=", TOK_MUL_ASSIGN); (bs "/=", TOK_DIV_ASSIGN);
  (bs "%=", TOK_MOD_ASSIGN); (bs "+=", TOK_ADD_ASSIGN);
  (bs "-=", TOK_SUB_ASSIGN); (bs "&=", TOK_AND_ASSIGN);
  (bs "^=", TOK_XOR_ASSIGN); (bs "|=", TOK_OR_ASSIGN);
  (bs "||", TOK_OR); (bs "&&", TOK_AND); (bs "==", TOK_EQ);
  (bs "!=", TOK_NE); (bs "<=", TOK_LE); (bs ">=", TOK_GE);
  (bs "<<", TOK_SHL); (bs ">>", TOK_SHR); (bs "++", TOK_BAD); (bs "--", TOK_BAD);
  (bs "(", TOK_LPAREN); (bs ")", TOK_RPAREN); (bs ",", TOK_COMMA);
  (bs "=", TOK_ASSIGN); (bs "?", TOK_QUESTION); (bs ":", TOK_COLON);
  (bs "|", TOK_BIT_OR); (bs "^", TOK_BIT_XOR); (bs "&", TOK_BIT_AND);
  (bs "<", TOK_LT); (bs ">", TOK_GT); (bs "+", TOK_ADD); (bs "-", TOK_SUB);
  (bs "*", TOK_MUL); (bs "/", TOK_DIV); (bs "%", TOK_MOD);
  (bs "!", TOK_NOT); (bs "~", TOK_INV) ].

Fixpoint skip_space (text : str) : str :=
  match text with
  | c :: rest => if space c then skip_space rest else text
  | [] => []
  end.

Definition name_byte (c : byte) : bool := name_start c || digit c.

(** The length of the longest prefix of name bytes. *)
Fixpoint name_span (text : str) : nat :=
  match text with
  | c :: rest => if name_byte c then S (name_span rest) else O
  | [] => O
  end.

(** The token, its length and the text after it, for text that starts with no
    blank. *)
Definition scan (text : str) : token * nat * str :=
  match text with
  | [] => (TOK_END, O, [])
  | c :: _ =>
      if name_byte c then
        (if digit c then TOK_NUMBER else TOK_NAME, name_span text, drop (name_span text) text)
      else
        match List.find (fun o => starts_with o.1 text) operators with
        | Some (o, t) => (t, length o, drop (length o) text)
        | None => (TOK_BAD, 1%nat, drop 1 text)
        end
  end.

Definition next_token : AM unit := amodify (fun p =>
  let text := skip_space (a_next p) in
  let '(t, n, rest) := scan text in put_token t text n rest p).

(** ** Checked C operations on [long]

    The result, or [None] where the C operation is undefined. *)

Definition c_long (z : Z) : option Z := if decide (is_long z) then Some z else None.
Definition c_add (a b : Z) := c_long (a + b).
Definition c_sub (a b : Z) := c_long (a - b).
Definition c_mul (a b : Z) := c_long (a * b).
Definition c_neg (a : Z) := c_long (- a).
Definition c_div (a b : Z) := if b =? 0 then None else c_long (Z.quot a b).
Definition c_mod (a b : Z) :=
  if b =? 0 then None else if decide (is_long (Z.quot a b)) then Some (Z.rem a b) else None.
Definition c_shl (a b : Z) :=
  if (a <? 0) || (b <? 0) || (b >=? LONG_BIT) then None else c_long (Z.shiftl a b).
(** The right shift of a negative value is implementation-defined: no result. *)
Definition c_shr (a b : Z) :=
  if (a <? 0) || (b <? 0) || (b >=? LONG_BIT) then None else Some (Z.shiftr a b).

Definition of_bool (b : bool) : Z := if b then 1 else 0.

(** ** Reading and assigning variables *)

Definition copy_name (name : str) : AM (option str) :=
  let! ok := alift malloc in
  if ok then aret (Some name) else set_error CSH_ARITH_NOMEM >>> aret None.

(** The second half of [read_value]: an operand that is no variable. *)
Definition read_number (v : value) : AM Z :=
  if negb (high v =? 0) then set_error CSH_ARITH_RANGE >>> aret 0 else aret (number v).

Definition read_value (v : value) (execute : bool) : AM Z :=
  let! p := aget in
  if negb execute || negb (is_ok (a_error p)) then aret 0 else
  match vname v with
  | None => read_number v
  | Some n =>
      let! name := copy_name n in
      match name with
      | None => aret 0
      | Some name =>
          let '(_, view) := csh_state_get_variable (a_state p) (Some name) in
          match view_value view with
          | None =>
              if opt_on (a_options p) CSH_OPT_NOUNSET
              then set_error CSH_ARITH_SYNTAX >>> aret 0 else aret 0
          | Some [] => aret 0
          | Some text =>
              let signed := (peek text =? ch "-") || (peek text =? ch "+") in
              let negative := peek text =? ch "-" in
              match literal (if signed then tail text else text) with
              | None => set_error CSH_ARITH_SYNTAX >>> aret 0
              | Some v =>
                  if negative && (high v =? 1) then aret LONG_MIN
                  else if negative then
                    let! minus := adefined (c_neg (number v)) in
                    read_number (mk_value minus (vname v) (high v))
                  else read_number v
              end
          end
      end
  end.

Definition assign `{LocaleDb} (target : str) (n : Z) : AM unit :=
  let! name := copy_name target in
  match name with
  | None => aret tt
  | Some name =>
      let! p := aget in
      let! (result, s) := alift (csh_state_set_variable (a_state p) (Some name) (Some (print_long n))) in
      let! (result, s) :=
        (if bool_decide (result = CSH_STATE_OK) && opt_on (a_options p) CSH_OPT_ALLEXPORT
         then alift (csh_state_update_attributes s (Some name) CSH_VAR_EXPORT 0)
         else aret (result, s)) in
      amodify (put_state s) >>>
      match result with
      | CSH_STATE_OK => aret tt
      | CSH_STATE_NOMEM => set_error CSH_ARITH_NOMEM
      | CSH_STATE_READONLY => set_error CSH_ARITH_READONLY
      | CSH_STATE_INVALID => set_error CSH_ARITH_SYNTAX
      end
  end.

(** ** Operations *)

(** A guarded operation: [break] when the guard holds. *)
Definition unless (guard : option bool) (result : option Z) : option (csh_arith_result + Z) :=
  match guard with
  | None => None
  | Some true => Some (inl CSH_ARITH_RANGE)
  | Some false => inr <$> result
  end.

(** C's [a && b] with an operand that may be undefined. *)
Definition c_and (a : bool) (b : option bool) : option bool := if a then b else Some false.
Definition c_or (a b : option bool) : option bool :=
  match a with None => None | Some true => Some true | Some false => b end.
Definition c_lt (a : Z) (b : option Z) : option bool := (fun b => a <? b) <$> b.
Definition c_gt (a : Z) (b : option Z) : option bool := (fun b => a >? b) <$> b.

(** The outer [None]: C defines no result; [inl]: the error the code sets. *)
Definition operate (t : token) (left right : Z) : option (csh_arith_result + Z) :=
  match t with
  | TOK_ADD =>
      unless (c_or (c_and (right >? 0) (c_gt left (c_sub LONG_MAX right)))
                   (c_and (right <? 0) (c_lt left (c_sub LONG_MIN right))))
        (c_add left right)
  | TOK_SUB =>
      unless (c_or (c_and (right <? 0) (c_gt left (c_add LONG_MAX right)))
                   (c_and (right >? 0) (c_lt left (c_add LONG_MIN right))))
        (c_sub left right)
  | TOK_MUL =>
      unless (if left >? 0 then
                (if right >? 0 then c_gt left (c_div LONG_MAX right)
                 else c_lt right (c_div LONG_MIN left))
              else c_and (left <? 0)
                (if right >? 0 then c_lt left (c_div LONG_MIN right)
                 else c_and (right <? 0) (c_lt left (c_div LONG_MAX right))))
        (c_mul left right)
  | TOK_DIV | TOK_MOD =>
      unless (Some ((right =? 0) || ((left =? LONG_MIN) && (right =? -1))))
        (if token_eqb t TOK_DIV then c_div left right else c_mod left right)
  | TOK_SHL | TOK_SHR =>
      if (right <? 0) || (ulong right >=? LONG_BIT) then Some (inl CSH_ARITH_RANGE) else
      if token_eqb t TOK_SHL then
        unless (c_or (Some (left <? 0)) (c_gt left (c_shr LONG_MAX right))) (c_shl left right)
      else if left >=? 0 then inr <$> c_shr left right
      else inr <$> (c_sub (-1) left ≫= fun x => c_shr x right ≫= c_sub (-1))
  | TOK_LT => Some (inr (of_bool (left <? right)))
  | TOK_LE => Some (inr (of_bool (left <=? right)))
  | TOK_GT => Some (inr (of_bool (left >? right)))
  | TOK_GE => Some (inr (of_bool (left >=? right)))
  | TOK_EQ => Some (inr (of_bool (left =? right)))
  | TOK_NE => Some (inr (of_bool (negb (left =? right))))
  | TOK_BIT_AND => Some (inr (Z.land left right))
  | TOK_BIT_XOR => Some (inr (Z.lxor left right))
  | TOK_BIT_OR => Some (inr (Z.lor left right))
  | TOK_AND => Some (inr (of_bool (negb (left =? 0) && negb (right =? 0))))
  | TOK_OR => Some (inr (of_bool (negb (left =? 0) || negb (right =? 0))))
  | TOK_COMMA => Some (inr right)
  | _ => Some (inl CSH_ARITH_SYNTAX)
  end.

Definition operation (t : token) (left right : Z) : AM Z :=
  let! r := adefined (operate t left right) in
  match r with
  | inl e => set_error e >>> aret 0
  | inr z => aret z
  end.

Definition precedence (t : token) : Z :=
  match t with
  | TOK_COMMA => 1
  | TOK_ASSIGN | TOK_MUL_ASSIGN | TOK_DIV_ASSIGN | TOK_MOD_ASSIGN | TOK_ADD_ASSIGN
  | TOK_SUB_ASSIGN | TOK_SHL_ASSIGN | TOK_SHR_ASSIGN | TOK_AND_ASSIGN
  | TOK_XOR_ASSIGN | TOK_OR_ASSIGN => 2
  | TOK_QUESTION => 3
  | TOK_OR => 4
  | TOK_AND => 5
  | TOK_BIT_OR => 6
  | TOK_BIT_XOR => 7
  | TOK_BIT_AND => 8
  | TOK_EQ | TOK_NE => 9
  | TOK_LT | TOK_LE | TOK_GT | TOK_GE => 10
  | TOK_SHL | TOK_SHR => 11
  | TOK_ADD | TOK_SUB => 12
  | TOK_MUL | TOK_DIV | TOK_MOD => 13
  | _ => 0
  end.

Definition assignment_operation (t : token) : token :=
  match t with
  | TOK_MUL_ASSIGN => TOK_MUL
  | TOK_DIV_ASSIGN => TOK_DIV
  | TOK_MOD_ASSIGN => TOK_MOD
  | TOK_ADD_ASSIGN => TOK_ADD
  | TOK_SUB_ASSIGN => TOK_SUB
  | TOK_SHL_ASSIGN => TOK_SHL
  | TOK_SHR_ASSIGN => TOK_SHR
  | TOK_AND_ASSIGN => TOK_BIT_AND
  | TOK_XOR_ASSIGN => TOK_BIT_XOR
  | TOK_OR_ASSIGN => TOK_BIT_OR
  | _ => TOK_BAD
  end.

(** ** The evaluator *)

(** [parser->error = SYNTAX; parser->incomplete = parser->token == TOK_END] *)
Definition syntax_here : AM unit :=
  let! p := aget in
  set_error CSH_ARITH_SYNTAX >>> amodify (put_incomplete (token_eqb (a_token p) TOK_END)).

(** Zero when there is stack left. *)
Definition csh_stack_check : AM bool := fun p w =>
  match a_stack p with
  | [] => Some (true, p, w)
  | b :: l => Some (b, put_stack l p, w)
  end.

Definition with_number (v : value) (n : Z) : value := mk_value n (vname v) (high v).

(** The sign of a unary operator applied to the operand [v]. *)
Definition unary (t : token) (v : value) (execute : bool) : AM value :=
  let! p := aget in
  let! v :=
    (if execute && is_ok (a_error p) then
       if token_eqb t TOK_SUB && bool_decide (vname v = None) && (high v =? 1)
       then aret (with_number v LONG_MIN)
       else
         let! n := read_value v execute in
         if token_eqb t TOK_SUB && (n =? LONG_MIN) then set_error CSH_ARITH_RANGE >>> aret v
         else if token_eqb t TOK_SUB then
           let! m := adefined (c_neg n) in aret (with_number v m)
         else if token_eqb t TOK_NOT then aret (with_number v (of_bool (n =? 0)))
         else if token_eqb t TOK_INV then aret (with_number v (Z.lnot n))
         else aret (with_number v n)
     else aret v) in
  aret (of_number (number v)).

(** [primary], given the recursive call [expression]. *)
Definition primary (expression : Z -> bool -> AM value) (execute : bool) : AM value :=
  let! p := aget in
  match a_token p with
  | TOK_NUMBER =>
      let! v :=
        match literal (take (a_length p) (a_start p)) with
        | Some v => aret v
        | None => set_error CSH_ARITH_SYNTAX >>> aret zero_value
        end in
      next_token >>> aret v
  | TOK_NAME =>
      next_token >>> aret (mk_value 0 (Some (take (a_length p) (a_start p))) 0)
  | TOK_LPAREN =>
      next_token >>>
      let! v := expression 1 execute in
      let! q := aget in
      (if is_ok (a_error q) then
         if token_eqb (a_token q) TOK_RPAREN then next_token else syntax_here
       else aret tt) >>>
      aret v
  | TOK_ADD | TOK_SUB | TOK_NOT | TOK_INV =>
      next_token >>>
      let! v := expression 14 execute in
      unary (a_token p) v execute
  | _ => syntax_here >>> aret zero_value
  end.

(** The branch of the loop for [?:]; [None] where the code breaks out of the loop. *)
Definition conditional (expression : Z -> bool -> AM value) (execute : bool) (lhs : Z)
    : AM (option value) :=
  let yes_execute := execute && negb (lhs =? 0) in
  let no_execute := execute && (lhs =? 0) in
  let! selected := expression 1 yes_execute in
  let! yes := read_value selected yes_execute in
  let! p := aget in
  if negb (is_ok (a_error p)) then aret None else
  if negb (token_eqb (a_token p) TOK_COLON) then syntax_here >>> aret None else
  next_token >>>
  let! selected := expression (precedence TOK_QUESTION) no_execute in
  let! rhs := read_value selected no_execute in
  aret (Some (of_number (if negb (lhs =? 0) then yes else rhs))).

(** The branch of the loop for the other operators. *)
Definition binary `{LocaleDb} (expression : Z -> bool -> AM value) (t : token) (left : value)
    (lhs : Z) (execute : bool) : AM value :=
  let is_assignment := precedence t =? 2 in
  let right_execute := execute && negb (token_eqb t TOK_AND && (lhs =? 0))
                               && negb (token_eqb t TOK_OR && negb (lhs =? 0)) in
  let! operand := expression (precedence t + (if is_assignment then 0 else 1)) right_execute in
  let! rhs := read_value operand right_execute in
  let! p := aget in
  if execute && is_ok (a_error p) then
    if is_assignment then
      let! n := (if token_eqb t TOK_ASSIGN then aret rhs
                 else operation (assignment_operation t) lhs rhs) in
      let! q := aget in
      (if is_ok (a_error q)
       then match vname left with Some name => assign name n | None => astuck end
       else aret tt) >>>
      aret (of_number n)
    else
      let! n := operation t lhs rhs in aret (of_number n)
  else aret zero_value.

Fixpoint expression `{LocaleDb} (fuel : nat) (minimum : Z) (execute : bool) : AM value :=
  match fuel with
  | O => astuck
  | S f =>
      let! p := aget in
      if negb (is_ok (a_error p)) then aret zero_value else
      let! room := csh_stack_check in
      if negb room then set_error CSH_ARITH_RESOURCE >>> aret zero_value else
      let! first := primary (expression f) execute in
      expression_loop f minimum execute first
  end
with expression_loop {db : LocaleDb} (fuel : nat) (minimum : Z) (execute : bool) (left : value) : AM value :=
  match fuel with
  | O => astuck
  | S f =>
      let! p := aget in
      if negb (is_ok (a_error p) && (precedence (a_token p) >=? minimum)) then aret left else
      let t := a_token p in
      next_token >>>
      if (precedence t =? 2) && bool_decide (vname left = None) then
        set_error CSH_ARITH_SYNTAX >>> aret left else
      let! lhs := (if negb (token_eqb t TOK_ASSIGN) then read_value left execute else aret 0) in
      if token_eqb t TOK_QUESTION then
        let! selected := conditional (expression f) execute lhs in
        match selected with
        | None => aret left
        | Some v => expression_loop f minimum execute v
        end
      else
        let! v := binary (expression f) t left lhs execute in
        expression_loop f minimum execute v
  end.

(** Every token takes at most one call of each kind. *)
Definition enough_fuel (text : str) : nat := (2 * length text + 2)%nat.

(** The number stored through [out], when one is. *)
Definition run `{LocaleDb} (execute : bool) : AM (option Z) :=
  let! p0 := aget in
  next_token >>>
  let! p := aget in
  let! result := (if negb (token_eqb (a_token p) TOK_END)
                  then expression (enough_fuel (a_next p0)) 1 execute
                  else aret zero_value) in
  let! p := aget in
  (if is_ok (a_error p) && negb (token_eqb (a_token p) TOK_END)
   then set_error CSH_ARITH_SYNTAX else aret tt) >>>
  let! p := aget in
  if is_ok (a_error p) then
    let! n := read_value result execute in
    let! p := aget in
    aret (if is_ok (a_error p) then Some n else None)
  else aret None.

Definition start_parser (text : str) (s : csh_state) (opts : Z) (stack : list bool) : parser :=
  mk_parser text [] 0 TOK_END CSH_ARITH_OK s opts false stack.

Definition csh_arith_probe `{LocaleDb} (text : option str) (stack : list bool)
    : proc -> option (csh_arith_result * proc) := fun w =>
  match text with
  | None => Some (CSH_ARITH_SYNTAX, w)
  | Some t =>
      match run false (start_parser t zero_state 0 stack) w with
      | Some (_, p, w') => Some (a_error p, w')
      | None => None
      end
  end.

Definition csh_arith_probe_prefix `{LocaleDb} (text : option str) (stack : list bool)
    : proc -> option (Z * proc) := fun w =>
  match text with
  | None => Some (0, w)
  | Some t =>
      match run false (start_parser t zero_state 0 stack) w with
      | Some (_, p, w') =>
          Some (if bool_decide (a_error p = CSH_ARITH_RESOURCE) then -1
                else of_bool (is_ok (a_error p) || a_incomplete p), w')
      | None => None
      end
  end.

(** The result, the number stored through [out] if one is, and the state. *)
Definition csh_arith_eval `{LocaleDb} (s : csh_state) (text : option str) (stack : list bool)
    : proc -> option (csh_arith_result * option Z * csh_state * proc) := fun w =>
  match text with
  | None => Some (CSH_ARITH_SYNTAX, None, s, w)
  | Some t =>
      if slen t =? SIZE_MAX then Some (CSH_ARITH_NOMEM, None, s, w) else
      let '(copied, w) := malloc w in
      if negb copied then Some (CSH_ARITH_NOMEM, None, s, w) else
      let '(saved, checkpoint, w) := csh_state_save s w in
      if negb (bool_decide (saved = CSH_STATE_OK)) then Some (CSH_ARITH_NOMEM, None, s, w) else
      match run true (start_parser t s (options (csh_state_get_info s)) stack) w with
      | None => None
      | Some (out, p, w) =>
          if is_ok (a_error p) then
            let '(_, w) := csh_state_checkpoint_destroy checkpoint w in
            Some (CSH_ARITH_OK, out, a_state p, w)
          else
            let '(_, s', w) := csh_state_restore (a_state p) checkpoint w in
            Some (a_error p, out, s', w)
      end
  end.
