(* ===== verification/ArithmeticTheorems.v ===== *)
(** * Arithmetic: constants, operations, termination and rollback

    Theorems about Arithmetic.v: the value of a constant, the exact result of
    every operation without undefined behaviour, that evaluation returns for
    every text, and that an error leaves the state as it was. *)

From stdpp Require Import base list gmap strings.
From S2P Require Import Prelude Output Numbers Options State StateCopy Arithmetic.

(** ** The operations against exact integer arithmetic *)

(** The mathematical result of an operation on integers, where it has one.  The
    remainder goes with a quotient that is a [long]; shifts have an amount
    below the width, and only non-negative values are shifted left. *)
Definition exact (t : token) (l r : Z) : option Z :=
  match t with
  | TOK_ADD => Some (l + r)
  | TOK_SUB => Some (l - r)
  | TOK_MUL => Some (l * r)
  | TOK_DIV => if decide (r = 0) then None else Some (Z.quot l r)
  | TOK_MOD => if decide (r <> 0 /\ is_long (Z.quot l r)) then Some (Z.rem l r) else None
  | TOK_SHL => if decide (0 <= r < 64 /\ 0 <= l) then Some (l * 2 ^ r) else None
  | TOK_SHR => if decide (0 <= r < 64) then Some (l / 2 ^ r) else None
  | TOK_LT => Some (of_bool (l <? r))
  | TOK_LE => Some (of_bool (l <=? r))
  | TOK_GT => Some (of_bool (r <? l))
  | TOK_GE => Some (of_bool (r <=? l))
  | TOK_EQ => Some (of_bool (l =? r))
  | TOK_NE => Some (of_bool (negb (l =? r)))
  | TOK_BIT_AND => Some (Z.land l r)
  | TOK_BIT_XOR => Some (Z.lxor l r)
  | TOK_BIT_OR => Some (Z.lor l r)
  | TOK_AND => Some (of_bool (negb (l =? 0) && negb (r =? 0)))
  | TOK_OR => Some (of_bool (negb (l =? 0) || negb (r =? 0)))
  | TOK_COMMA => Some r
  | _ => None
  end.

(** A result is a [long], or the operation is out of range. *)
Definition in_range (o : option Z) : csh_arith_result + Z :=
  match o with
  | Some z => if decide (is_long z) then inr z else inl CSH_ARITH_RANGE
  | None => inl CSH_ARITH_RANGE
  end.

Definition is_operator (t : token) : bool :=
  (precedence t >=? 4) || token_eqb t TOK_COMMA.

Lemma c_long_in z : is_long z -> c_long z = Some z.
Proof. intros H. unfold c_long. by rewrite decide_True. Qed.

Lemma in_range_in z : is_long z -> in_range (Some z) = inr z.
Proof. intros H. simpl. by rewrite decide_True. Qed.

Lemma in_range_out z : ~ is_long z -> in_range (Some z) = inl CSH_ARITH_RANGE.
Proof. intros H. simpl. by rewrite decide_False. Qed.

(** A guard that decides exactly whether the result is out of range. *)
Lemma unless_exact guard z :
  (guard = true <-> ~ is_long z) -> unless (Some guard) (c_long z) = Some (in_range (Some z)).
Proof.
  intros H. destruct guard; simpl.
  - f_equal. symmetry. apply in_range_out, H. done.
  - destruct (decide (is_long z)) as [Hz|Hz]; [by rewrite c_long_in|].
    by apply H in Hz.
Qed.

Lemma long_bounds : LONG_MIN = -9223372036854775808 /\ LONG_MAX = 9223372036854775807.
Proof. by split. Qed.

Ltac long := intros; unfold is_long in *; pose proof long_bounds; lia.

(** Evaluate the sign tests of a guard for a known sign. *)
Ltac known_signs :=
  repeat match goal with
  | |- context [?a >? ?b] => rewrite (Z.gtb_ltb a b)
  | |- context [?a <? ?b] =>
      first [ replace (a <? b) with true by (symmetry; apply Z.ltb_lt; lia)
            | replace (a <? b) with false by (symmetry; apply Z.ltb_ge; lia) ]
  end; cbn [c_and c_or].

Lemma add_exact l r : is_long l -> is_long r ->
  operate TOK_ADD l r = Some (in_range (Some (l + r))).
Proof.
  intros Hl Hr. unfold operate, c_add, c_sub.
  destruct (Z.lt_trichotomy r 0) as [H|[->|H]]; known_signs.
  - rewrite (c_long_in (LONG_MIN - r)) by long. simpl c_lt.
    apply unless_exact. bsimp. long.
  - apply unless_exact. long.
  - rewrite (c_long_in (LONG_MAX - r)) by long. simpl c_gt. rewrite Z.gtb_ltb.
    destruct (LONG_MAX - r <? l) eqn:E; apply unless_exact; bsimp; long.
Qed.

Lemma sub_exact l r : is_long l -> is_long r ->
  operate TOK_SUB l r = Some (in_range (Some (l - r))).
Proof.
  intros Hl Hr. unfold operate, c_add, c_sub.
  destruct (Z.lt_trichotomy r 0) as [H|[->|H]]; known_signs.
  - rewrite (c_long_in (LONG_MAX + r)) by long. simpl c_gt. rewrite Z.gtb_ltb.
    destruct (LONG_MAX + r <? l) eqn:E; apply unless_exact; bsimp; long.
  - apply unless_exact. long.
  - rewrite (c_long_in (LONG_MIN + r)) by long. simpl c_lt.
    apply unless_exact. bsimp. long.
Qed.

(** Quotients of the extreme values by a non-zero [long] are [long]s, but for
    [LONG_MIN / -1]. *)
Lemma quot_long a b : is_long a -> b <> 0 -> ~ (a = LONG_MIN /\ b = -1) -> is_long (Z.quot a b).
Proof.
  intros Ha Hb Hn. destruct (Z.eq_dec b (-1)) as [->|H1].
  - change (-1) with (- (1)). rewrite Z.quot_opp_r, Z.quot_1_r by lia. long.
  - assert (Z.abs (Z.quot a b) <= Z.abs a) as Hle.
    { rewrite <- Z.quot_abs by lia. apply Z.quot_le_upper_bound; nia. }
    destruct (Z.eq_dec (Z.abs b) 1) as [H2|H2].
    + assert (b = 1) as -> by lia. by rewrite Z.quot_1_r.
    + assert (Z.abs (Z.quot a b) * 2 <= Z.abs a) as Hle2.
      { rewrite <- Z.quot_abs by lia.
        pose proof (Z.mul_quot_le (Z.abs a) (Z.abs b) ltac:(lia) ltac:(lia)).
        pose proof (Z.quot_pos (Z.abs a) (Z.abs b) ltac:(lia) ltac:(lia)). nia. }
      long.
Qed.

Lemma c_div_in a b : is_long a -> b <> 0 -> ~ (a = LONG_MIN /\ b = -1) ->
  c_div a b = Some (Z.quot a b).
Proof.
  intros Ha Hb Hn. unfold c_div. apply Z.eqb_neq in Hb as Hb'. rewrite Hb'.
  by apply c_long_in, quot_long.
Qed.

(** [x <= m / y] without the quotient, for the signs of the code's cases. *)
Lemma mul_above l r : 0 < r -> (Z.quot LONG_MAX r < l <-> LONG_MAX < l * r).
Proof.
  intros Hr. rewrite Z.quot_div_nonneg by long.
  pose proof (Z.div_mod LONG_MAX r ltac:(lia)). pose proof (Z.mod_pos_bound LONG_MAX r Hr).
  split; intros; nia.
Qed.

Lemma mul_below l r : 0 < r -> (l < Z.quot LONG_MIN r <-> l * r < LONG_MIN).
Proof.
  intros Hr. assert (LONG_MIN = - (2 ^ 63)) as -> by done. rewrite Z.quot_opp_l, Z.quot_div_nonneg by lia.
  pose proof (Z.div_mod (2 ^ 63) r ltac:(lia)). pose proof (Z.mod_pos_bound (2 ^ 63) r Hr).
  split; intros; nia.
Qed.

Lemma mul_above_neg l r : r < 0 -> (l < Z.quot LONG_MAX r <-> LONG_MAX < l * r).
Proof.
  intros Hr. pose proof (mul_above (- l) (- r) ltac:(lia)) as H.
  rewrite Z.quot_opp_r, Z.mul_opp_opp in H by lia. lia.
Qed.

Lemma is_long_not z : ~ is_long z <-> z < LONG_MIN \/ LONG_MAX < z.
Proof. unfold is_long. lia. Qed.

Lemma mul_exact l r : is_long l -> is_long r ->
  operate TOK_MUL l r = Some (in_range (Some (l * r))).
Proof.
  intros Hl Hr. unfold operate, c_mul.
  assert (is_long LONG_MIN /\ is_long LONG_MAX) as [HM HX] by long.
  assert (LONG_MIN < 0 < LONG_MAX) as Hs by long.
  destruct (Z.lt_trichotomy l 0) as [H|[->|H]]; destruct (Z.lt_trichotomy r 0) as [H'|[->|H']];
    known_signs; rewrite ?c_div_in by (first [done | lia]); simpl c_gt; simpl c_lt;
    try (apply unless_exact; rewrite is_long_not; split; [done|nia]).
  - apply unless_exact. rewrite is_long_not, Z.ltb_lt, mul_above_neg by lia. nia.
  - apply unless_exact. rewrite is_long_not, Z.ltb_lt, mul_below by lia. nia.
  - apply unless_exact. rewrite is_long_not, Z.ltb_lt, mul_below by lia. nia.
  - apply unless_exact. rewrite is_long_not, Z.ltb_lt, mul_below by lia. nia.
  - apply unless_exact. rewrite is_long_not, Z.gtb_ltb, Z.ltb_lt, mul_above by lia. nia.
Qed.

Lemma div_exact l r : is_long l -> is_long r ->
  operate TOK_DIV l r = Some (in_range (exact TOK_DIV l r)).
Proof.
  intros Hl Hr. unfold operate, exact. cbn [unless].
  destruct (r =? 0) eqn:E0; bsimp; [by rewrite decide_True|]. rewrite (decide_False (P:=r = 0)) by done.
  destruct ((l =? LONG_MIN) && (r =? -1)) eqn:E; bsimp; cbn [orb].
  - destruct E as [-> ->]. by rewrite in_range_out by (by vm_compute; intros [? ?]).
  - change (token_eqb TOK_DIV TOK_DIV) with true. cbn iota.
    assert (is_long (Z.quot l r)) by (apply quot_long; [done..|lia]).
    rewrite c_div_in by (first [done | lia]). by rewrite in_range_in.
Qed.

Lemma rem_long a b : is_long a -> b <> 0 -> is_long (Z.rem a b).
Proof.
  intros Ha Hb. pose proof (Z.quot_rem' a b). pose proof (Z.rem_sign_mul a b Hb).
  assert (Z.abs (Z.rem a b) <= Z.abs a).
  { rewrite <- Z.rem_abs by lia. apply Z.rem_le; lia. }
  assert (a < 0 -> Z.rem a b <= 0) by (intros; apply Z.rem_nonpos; lia).
  assert (0 <= a -> 0 <= Z.rem a b) by (intros; apply Z.rem_nonneg; lia).
  long.
Qed.

Lemma mod_exact l r : is_long l -> is_long r ->
  operate TOK_MOD l r = Some (in_range (exact TOK_MOD l r)).
Proof.
  intros Hl Hr. unfold operate, exact, c_mod. change (token_eqb TOK_MOD TOK_DIV) with false.
  destruct (r =? 0) eqn:E0; bsimp; [rewrite decide_False by tauto; done|].
  destruct ((l =? LONG_MIN) && (r =? -1)) eqn:E; bsimp; cbn [orb unless].
  - destruct E as [-> ->]. rewrite decide_False; [done|]. by vm_compute; intros [_ [? ?]].
  - assert (is_long (Z.quot l r)) by (apply quot_long; [done..|lia]).
    rewrite !decide_True by done. rewrite in_range_in by (by apply rem_long). done.
Qed.

Lemma shl_exact l r : is_long l -> is_long r ->
  operate TOK_SHL l r = Some (in_range (exact TOK_SHL l r)).
Proof.
  intros Hl Hr. unfold operate, exact. change (token_eqb TOK_SHL TOK_SHL) with true. cbn iota.
  destruct ((r <? 0) || (ulong r >=? LONG_BIT)) eqn:E.
  { rewrite decide_False; [done|]. intros [H1 _]. unfold ulong in E. rewrite Z.mod_small in E by lia.
    unfold LONG_BIT in E. rewrite Z.geb_leb in E. bsimp. lia. }
  rewrite Z.geb_leb in E. bsimp. destruct E as [E1 E2].
  unfold ulong, LONG_BIT in E2. rewrite Z.mod_small in E2 by long.
  unfold c_shr, c_shl, LONG_BIT. rewrite !Z.geb_leb. known_signs.
  replace (64 <=? r) with false by (symmetry; apply Z.leb_gt; lia). cbn [orb].
  replace (LONG_MAX <? 0) with false by done. cbn [orb c_gt fmap option_fmap option_map c_or].
  destruct (l <? 0) eqn:El; bsimp; cbn [orb unless].
  { rewrite decide_False by lia. done. }
  rewrite decide_True by lia. rewrite Z.shiftl_mul_pow2 by lia. apply unless_exact.
  rewrite Z.gtb_ltb, Z.ltb_lt, Z.shiftr_div_pow2, is_long_not by lia.
  rewrite <- Z.quot_div_nonneg by long. rewrite mul_above by lia.
  pose proof (Z.pow_pos_nonneg 2 r). pose proof long_bounds. nia.
Qed.

(** The code's right shift of a negative value rounds towards minus infinity. *)
Lemma shr_negative l r : 0 <= r -> -1 - Z.shiftr (-1 - l) r = l / 2 ^ r.
Proof.
  intros Hr. replace (-1 - l) with (Z.lnot l) by (unfold Z.lnot; lia).
  rewrite <- Z.shiftr_div_pow2 by done.
  replace (-1 - Z.shiftr (Z.lnot l) r) with (Z.lnot (Z.shiftr (Z.lnot l) r)) by (unfold Z.lnot; lia).
  apply Z.bits_inj'. intros i Hi.
  by rewrite Z.lnot_spec, !Z.shiftr_spec, Z.lnot_spec, negb_involutive by lia.
Qed.

Lemma div_pow_long l r : is_long l -> 0 <= r -> is_long (l / 2 ^ r).
Proof.
  intros Hl Hr. pose proof (Z.pow_pos_nonneg 2 r ltac:(lia) Hr).
  pose proof (Z.div_mod l (2 ^ r) ltac:(lia)). pose proof (Z.mod_pos_bound l (2 ^ r) ltac:(lia)).
  unfold is_long in *. pose proof long_bounds. nia.
Qed.

Lemma shr_exact l r : is_long l -> is_long r ->
  operate TOK_SHR l r = Some (in_range (exact TOK_SHR l r)).
Proof.
  intros Hl Hr. unfold operate, exact. change (token_eqb TOK_SHR TOK_SHL) with false. cbn iota.
  destruct ((r <? 0) || (ulong r >=? LONG_BIT)) eqn:E.
  { rewrite decide_False; [done|]. intros H1. unfold ulong in E. rewrite Z.mod_small in E by lia.
    unfold LONG_BIT in E. rewrite Z.geb_leb in E. bsimp. lia. }
  rewrite Z.geb_leb in E. bsimp. destruct E as [E1 E2].
  unfold ulong, LONG_BIT in E2. rewrite Z.mod_small in E2 by long.
  rewrite decide_True by lia. rewrite in_range_in by (apply div_pow_long; [done|lia]).
  unfold c_shr, LONG_BIT. rewrite !Z.geb_leb.
  replace (64 <=? r) with false by (symmetry; apply Z.leb_gt; lia).
  replace (r <? 0) with false by (symmetry; apply Z.ltb_ge; lia).
  destruct (0 <=? l) eqn:El; bsimp; cbn [orb].
  - replace (l <? 0) with false by (symmetry; apply Z.ltb_ge; lia). cbn [orb].
    by rewrite Z.shiftr_div_pow2 by lia.
  - unfold c_sub. rewrite (c_long_in (-1 - l)) by long. simpl.
    replace (-1 - l <? 0) with false by (symmetry; apply Z.ltb_ge; lia). cbn [orb].
    simpl. rewrite shr_negative by lia. by rewrite c_long_in by (apply div_pow_long; [done|lia]).
Qed.

Lemma of_bool_long b : is_long (of_bool b).
Proof. by destruct b. Qed.

(** A [long] is the integer whose bits from 63 on are all its sign. *)
Lemma is_long_bits z : is_long z <-> forall i, 63 <= i -> Z.testbit z i = Z.testbit z 63.
Proof.
  split.
  - intros Hz i Hi. destruct (Z.ltb_spec z 0).
    + assert (forall j, 63 <= j -> Z.testbit z j = true) as Hj; [|by rewrite !Hj by lia].
      intros j Hj.
      rewrite <- (negb_involutive (Z.testbit z j)), <- Z.lnot_spec by lia.
      rewrite Z.bits_above_log2; [done|unfold Z.lnot; long|].
      destruct (Z.eq_dec (Z.lnot z) 0) as [->|]; [simpl; lia|].
      apply Z.log2_lt_pow2; [unfold Z.lnot in *; long|].
      apply Z.lt_le_trans with (2 ^ 63); [unfold Z.lnot; long|]. by apply Z.pow_le_mono_r.
    + assert (forall j, 63 <= j -> Z.testbit z j = false) as Hj; [|by rewrite !Hj by lia].
      intros j Hj. rewrite Z.bits_above_log2; [done|long|].
      destruct (Z.eq_dec z 0) as [->|]; [simpl; lia|]. apply Z.log2_lt_pow2; [long|].
      apply Z.lt_le_trans with (2 ^ 63); [long|]. by apply Z.pow_le_mono_r.
  - intros H. assert (Z.shiftr z 63 = if Z.testbit z 63 then -1 else 0) as E.
    { apply Z.bits_inj'. intros i Hi. rewrite Z.shiftr_spec, H by lia.
      destruct (Z.testbit z 63); [by rewrite Z.bits_m1|by rewrite Z.bits_0]. }
    rewrite Z.shiftr_div_pow2 in E by lia.
    pose proof (Z.div_mod z (2 ^ 63) ltac:(lia)). pose proof (Z.mod_pos_bound z (2 ^ 63) ltac:(lia)).
    destruct (Z.testbit z 63); long.
Qed.

Lemma bitwise_long f (z : Z) (l r : Z) : is_long l -> is_long r ->
  (forall i, 0 <= i -> Z.testbit z i = f (Z.testbit l i) (Z.testbit r i)) -> is_long z.
Proof.
  rewrite !is_long_bits. intros Hl Hr Hf i Hi. rewrite !Hf by lia. by rewrite Hl, Hr.
Qed.

Lemma operate_exact t l r : is_long l -> is_long r -> is_operator t = true ->
  operate t l r = Some (in_range (exact t l r)).
Proof.
  intros Hl Hr Ht. destruct t; try done;
    try (by rewrite ?add_exact, ?sub_exact, ?mul_exact, ?div_exact, ?mod_exact, ?shl_exact, ?shr_exact);
    unfold operate, exact; rewrite ?Z.gtb_ltb, ?Z.geb_leb; rewrite in_range_in; try done;
    try apply of_bool_long.
  - apply (bitwise_long orb _ l r Hl Hr). intros i _. apply Z.lor_spec.
  - apply (bitwise_long xorb _ l r Hl Hr). intros i _. apply Z.lxor_spec.
  - apply (bitwise_long andb _ l r Hl Hr). intros i _. apply Z.land_spec.
Qed.

(** C3: every binary operator computes its mathematical result exactly when
    that is a [long], and reports a range error otherwise; on [long] operands
    no step of the guards or of the operation is undefined in C: no signed
    overflow, no division by zero, no bad shift. *)
Theorem operation_exact (t : token) (l r : Z) (p : parser) (w : proc)
    (Hl : is_long l) (Hr : is_long r) (Ht : is_operator t = true) :
  operation t l r p w = match in_range (exact t l r) with
    | inr z => Some (z, p, w)
    | inl e => Some (0, put_error e p, w)
    end.
Proof.
  unfold operation, abind. rewrite operate_exact by done. cbn [adefined aret].
  by destruct (in_range _).
Qed.

Lemma operation_exact_witness :
  operate TOK_MUL LONG_MIN (-1) = Some (inl CSH_ARITH_RANGE) /\
  operation TOK_SHR (-7) 1 (start_parser [] zero_state 0 []) quiet_proc =
    Some (-4, start_parser [] zero_state 0 [], quiet_proc).
Proof.
  split; [by vm_compute|].
  apply (operation_exact TOK_SHR (-7) 1); first [by vm_compute; split | by vm_compute].
Defined.

(** ** Constants *)

Fixpoint base_value (base : Z) (text : str) (acc : Z) : option Z :=
  match text with
  | [] => Some acc
  | c :: rest =>
      let d := digit_value c in
      if (0 <=? d) && (d <? base) then base_value base rest (acc * base + d) else None
  end.

(** The number a constant denotes: C's rules for decimal, octal and hexadecimal. *)
Definition constant (text : str) : option Z :=
  match text with
  | [] => None
  | c :: rest =>
      if c =? ch "0" then
        match rest with
        | x :: hex =>
            if (x =? ch "x") || (x =? ch "X") then
              match hex with [] => None | _ => base_value 16 hex 0 end
            else base_value 8 text 0
        | [] => base_value 8 text 0
        end
      else base_value 10 text 0
  end.

(** The value record of the number [n] of a constant. *)
Definition constant_value (n : Z) : value :=
  if n <=? LONG_MAX then mk_value n None 0
  else mk_value 0 None (if n =? LONG_MAX + 1 then 1 else 2).

Lemma base_value_ge base text acc n : 1 <= base -> 0 <= acc ->
  base_value base text acc = Some n -> acc <= n.
Proof.
  intros Hb. revert acc. induction text as [|c text IH]; intros acc Ha; simpl.
  - intros [= ->]. lia.
  - destruct ((0 <=? digit_value c) && _) eqn:E; [|done]. bsimp. intros H.
    apply IH in H; nia.
Qed.

Lemma literal_loop_large text base m acc :
  literal_loop text base m true = (fun _ => (m, true)) <$> base_value base text acc.
Proof.
  revert acc. induction text as [|c text IH]; intros acc; simpl; [done|].
  rewrite Z.geb_leb. destruct (digit_value c <? 0) eqn:E1; bsimp.
  - replace (0 <=? digit_value c) with false by (symmetry; bsimp; lia). done.
  - replace (0 <=? digit_value c) with true by (symmetry; bsimp; lia). cbn [orb andb].
    destruct (base <=? digit_value c) eqn:E2; bsimp.
    + replace (digit_value c <? base) with false by (symmetry; bsimp; lia). done.
    + replace (digit_value c <? base) with true by (symmetry; bsimp; lia). apply IH.
Qed.

Lemma limit_value : limit = 2 ^ 63.
Proof. done. Qed.

Definition loop_result (o : option Z) (r : option (Z * bool)) : Prop :=
  match o, r with
  | None, None => True
  | Some n, Some (m, large) => if n <=? limit then m = n /\ large = false else large = true
  | _, _ => False
  end.

Lemma literal_loop_value text base acc : 2 <= base <= 16 -> 0 <= acc <= limit ->
  loop_result (base_value base text acc) (literal_loop text base acc false).
Proof.
  intros Hb. revert acc. induction text as [|c text IH]; intros acc Ha; simpl.
  - by replace (acc <=? limit) with true by (symmetry; bsimp; lia).
  - rewrite Z.geb_leb, Z.gtb_ltb. set (d := digit_value c).
    destruct ((0 <=? d) && (d <? base)) eqn:Ed; bsimp.
    2:{ replace ((d <? 0) || (base <=? d)) with true; [done|].
        symmetry. bsimp. destruct Ed; [left|right]; bsimp; lia. }
    replace ((d <? 0) || (base <=? d)) with false by (symmetry; bsimp; lia).
    pose proof limit_value as HL. unfold ulong at 1. rewrite (Z.mod_small (limit - d)) by lia.
    assert (limit - d = base * ((limit - d) / base) + (limit - d) mod base) by (apply Z.div_mod; lia).
    pose proof (Z.mod_pos_bound (limit - d) base ltac:(lia)).
    destruct ((limit - d) / base <? acc) eqn:E; bsimp.
    + rewrite (literal_loop_large _ _ _ (acc * base + d)).
      destruct (base_value base text (acc * base + d)) as [n|] eqn:En; simpl; [|done].
      apply base_value_ge in En; [|nia..].
      by replace (n <=? limit) with false by (symmetry; bsimp; nia).
    + unfold ulong. rewrite (Z.mod_small (acc * base)) by nia. rewrite Z.mod_small by nia.
      apply IH. nia.
Qed.

Lemma literal_base base text :
  2 <= base <= 16 ->
  match literal_loop text base 0 false with
  | None => None
  | Some (magnitude, too_large) =>
      let high := if too_large then 2 else if magnitude >? LONG_MAX then 1 else 0 in
      Some (mk_value (if high =? 0 then magnitude else 0) None high)
  end = constant_value <$> base_value base text 0.
Proof.
  intros Hb. pose proof (literal_loop_value text base 0 Hb) as H. rewrite limit_value in *.
  specialize (H ltac:(lia)). unfold loop_result in H.
  destruct (base_value base text 0) as [n|], (literal_loop text base 0 false) as [[m large]|];
    try done. simpl. unfold constant_value. f_equal. rewrite limit_value in H. pose proof long_bounds as [_ HX].
  destruct (n <=? 2 ^ 63) eqn:E; bsimp.
  - destruct H as [-> ->]. cbv zeta. rewrite Z.gtb_ltb.
    destruct (n <=? LONG_MAX) eqn:E'; bsimp.
    + by replace (LONG_MAX <? n) with false by (symmetry; bsimp; lia).
    + replace (LONG_MAX <? n) with true by (symmetry; bsimp; lia).
      by replace (n =? LONG_MAX + 1) with true by (symmetry; bsimp; lia).
  - subst. cbv zeta. cbn. replace (n <=? LONG_MAX) with false by (symmetry; bsimp; lia).
    by replace (n =? LONG_MAX + 1) with false by (symmetry; bsimp; lia).
Qed.

Lemma literal_constant text : literal text = constant_value <$> constant text.
Proof.
  unfold literal, constant. destruct text as [|c rest]; [done|].
  destruct (c =? 48) eqn:E0; cbn [andb].
  2:{ by apply literal_base. }
  destruct rest as [|x hex].
  { cbn [length slen]. apply literal_base. lia. }
  replace (2 <=? slen (c :: x :: hex)) with true by (symmetry; bsimp; unfold slen; simpl; lia).
  cbn [andb drop peek hd].
  destruct ((x =? 120) || (x =? 88)) eqn:Ex; cbn [andb].
  - destruct hex as [|h hex]; [done|]. rewrite bool_decide_eq_false_2 by done. by apply literal_base.
  - by apply literal_base.
Qed.

(** A constant has the value C gives it: [literal] accepts exactly the
    decimal, octal and hexadecimal constants; one up to [LONG_MAX] gives its
    number, [LONG_MAX + 1] is marked as the operand of a unary minus, and
    anything larger, of any length, is marked as too large: the unsigned
    accumulator never wraps around. *)
Theorem literal_correct (text : str) :
  match constant text with
  | None => literal text = None
  | Some n => exists v, literal text = Some v /\ vname v = None /\
      (n <= LONG_MAX -> number v = n /\ high v = 0) /\
      (n = LONG_MAX + 1 -> high v = 1) /\
      (LONG_MAX + 1 < n -> high v = 2)
  end.
Proof.
  rewrite literal_constant. destruct (constant text) as [n|]; [|done]. exists (constant_value n).
  unfold constant_value. cbn [fmap option_fmap option_map]. destruct (n <=? LONG_MAX) eqn:E; bsimp; simpl.
  { split_and!; intros; first [done | lia]. }
  destruct (n =? LONG_MAX + 1) eqn:E'; bsimp; split_and!; intros; first [done | lia].
Qed.

(** ** Total correctness of [AM]

    [apost m p w Q]: the computation has a result, and it satisfies [Q]. *)

Definition apost {A} (m : AM A) (p : parser) (w : proc) (Q : A -> parser -> proc -> Prop) : Prop :=
  match m p w with Some (a, p', w') => Q a p' w' | None => False end.

Section Apost.
Context {A B : Type}.

Lemma apost_bind (m : AM A) (f : A -> AM B) p w Q :
  apost m p w (fun a p' w' => apost (f a) p' w' Q) -> apost (abind m f) p w Q.
Proof. unfold apost, abind. by destruct (m p w) as [[[a p'] w']|]. Qed.

Lemma apost_mono (m : AM A) p w (P Q : A -> parser -> proc -> Prop) :
  apost m p w P -> (forall a p' w', P a p' w' -> Q a p' w') -> apost m p w Q.
Proof. unfold apost. destruct (m p w) as [[[a p'] w']|]; auto. Qed.

Lemma apost_ret (a : A) p w (Q : A -> parser -> proc -> Prop) : Q a p w -> apost (aret a) p w Q.
Proof. done. Qed.

Lemma apost_lift (m : M A) p w (Q : A -> parser -> proc -> Prop) :
  (forall a w', Q a p w') -> apost (alift m) p w Q.
Proof. intros H. unfold apost, alift. destruct (m w). apply H. Qed.

Lemma apost_get (f : parser -> AM B) p w Q : apost (f p) p w Q -> apost (abind aget f) p w Q.
Proof. done. Qed.

Lemma apost_modify g p w (Q : unit -> parser -> proc -> Prop) :
  Q tt (g p) w -> apost (amodify g) p w Q.
Proof. done. Qed.
End Apost.

(** Step through a computation of [AM]. *)
Ltac astep :=
  match goal with
  | |- apost (abind aget _) _ _ _ => apply apost_get
  | |- apost (abind _ _) _ _ _ => apply apost_bind
  | |- apost (aret _) _ _ _ => apply apost_ret
  | |- apost (adefined (Some _)) _ _ _ => apply apost_ret
  | |- apost (alift _) _ _ _ => apply apost_lift; intros
  | |- apost (set_error _) _ _ _ => apply apost_modify
  | |- apost (amodify _) _ _ _ => apply apost_modify
  end.

(** ** Termination

    The text that is still to be read shrinks with every token but the end. *)

Definition synced (p : parser) : Prop :=
  (a_token p, a_length p, a_next p) = scan (a_start p).

Definition remaining (p : parser) : nat := length (a_start p).

(** Numbers are [long]s throughout. *)
Definition value_ok (v : value) : Prop := is_long (number v).

(** What an operation that reads no token leaves as it was. *)
Definition same_text (p p' : parser) : Prop :=
  a_next p' = a_next p /\ a_start p' = a_start p /\ a_length p' = a_length p /\ a_token p' = a_token p.

#[export] Instance same_text_preorder : PreOrder same_text.
Proof. split; [by repeat split | intros p1 p2 p3 (?&?&?&?) (?&?&?&?); repeat split; congruence]. Qed.

Definition advanced (p p' : parser) : Prop := synced p' /\ (remaining p' <= remaining p)%nat.

Lemma same_text_synced p p' : same_text p p' -> synced p -> synced p'.
Proof. intros (E1 & E2 & E3 & E4). unfold synced. congruence. Qed.

Lemma same_text_advanced p p' : synced p -> same_text p p' -> advanced p p'.
Proof.
  intros Hs Ht. split; [by eapply same_text_synced|]. destruct Ht as (_ & E & _). unfold remaining. by rewrite E.
Qed.

Lemma advanced_refl p : synced p -> advanced p p.
Proof. by split. Qed.

Lemma advanced_trans p1 p2 p3 : advanced p1 p2 -> advanced p2 p3 -> advanced p1 p3.
Proof. intros [? ?] [? ?]. split; [done|lia]. Qed.

Lemma skip_space_length t : (length (skip_space t) <= length t)%nat.
Proof. induction t as [|c t IH]; simpl; [done|]. destruct (space c); simpl; lia. Qed.

Lemma find_operator_nonempty t o tok :
  List.find (fun o => starts_with o.1 t) operators = Some (o, tok) -> (0 < length o)%nat.
Proof.
  intros H. apply List.find_some in H as [H _].
  assert (forallb (fun o => (0 <? length o.1)%nat) operators = true) as Hall by done.
  rewrite forallb_forall in Hall. apply Hall in H. apply Nat.ltb_lt in H. done.
Qed.

Lemma scan_shrinks t tok n rest : scan t = (tok, n, rest) ->
  (tok = TOK_END /\ rest = []) \/ (length rest < length t)%nat.
Proof.
  destruct t as [|c t]; [by intros [= <- <- <-]; left|]. unfold scan. intros H. right.
  destruct (name_byte c) eqn:Ec.
  - simplify_eq. cbn [name_span]. rewrite Ec. simpl. rewrite length_drop. lia.
  - destruct (List.find _ operators) as [[o tk]|] eqn:E; simplify_eq.
    + apply find_operator_nonempty in E. rewrite length_drop. simpl. lia.
    + simpl. rewrite length_drop. lia.
Qed.

Lemma next_token_apost p w (Q : unit -> parser -> proc -> Prop) :
  (forall p', synced p' -> (remaining p' <= length (a_next p))%nat ->
     a_error p' = a_error p -> a_state p' = a_state p -> Q tt p' w) ->
  apost next_token p w Q.
Proof.
  intros H. unfold next_token. apply apost_modify.
  destruct (scan (skip_space (a_next p))) as [[t n] rest] eqn:E.
  apply H; [by unfold synced; simpl; rewrite E|apply skip_space_length|done..].
Qed.

(** After a token that is not the end, less text remains. *)
Lemma token_consumes p : synced p -> a_token p <> TOK_END -> (length (a_next p) < remaining p)%nat.
Proof.
  intros Hs Ht. unfold synced in Hs. symmetry in Hs. apply scan_shrinks in Hs as [[? _]|?]; done.
Qed.

Lemma token_next_le p : synced p -> (length (a_next p) <= remaining p)%nat.
Proof.
  intros Hs. unfold synced in Hs. symmetry in Hs.
  apply scan_shrinks in Hs as [[_ ->]|?]; simpl; unfold remaining; lia.
Qed.

Lemma literal_ok t v : literal t = Some v -> 0 <= number v <= LONG_MAX /\ vname v = None.
Proof.
  rewrite literal_constant. destruct (constant t) as [n|] eqn:En; [|done]. intros [= <-].
  assert (0 <= n).
  { unfold constant in En.
    assert (forall b x, 1 <= b -> base_value b x 0 = Some n -> 0 <= n) as Hb
      by (intros b x ? ?; eapply base_value_ge; eauto; lia).
    repeat case_match; try done;
      match goal with H : base_value ?b ?x 0 = Some _ |- _ => by apply (Hb b x) end. }
  unfold constant_value. destruct (n <=? LONG_MAX) eqn:E; bsimp; simpl; by repeat split.
Qed.

Lemma read_number_apost v p w :
  value_ok v -> apost (read_number v) p w (fun n p' _ => is_long n /\ same_text p p' /\ a_state p' = a_state p).
Proof.
  intros Hv. unfold read_number. destruct (negb (high v =? 0)).
  - repeat astep. split_and!; [done|by repeat split|done].
  - astep. split_and!; [done|by repeat split|done].
Qed.

Lemma copy_name_apost n p w (Q : option str -> parser -> proc -> Prop) :
  (forall w', Q (Some n) p w') -> (forall w', Q None (put_error CSH_ARITH_NOMEM p) w') ->
  apost (copy_name n) p w Q.
Proof.
  intros H1 H2. unfold copy_name. astep. astep. destruct a; [by astep|]. astep. astep. by astep.
Qed.

Lemma read_value_apost v ex p w :
  value_ok v -> apost (read_value v ex) p w (fun n p' _ => is_long n /\ same_text p p' /\ a_state p' = a_state p).
Proof.
  intros Hv. unfold read_value. astep.
  destruct (negb ex || _); [astep; by repeat split|].
  destruct (vname v) as [n|]; [|by apply read_number_apost].
  astep. apply copy_name_apost; [|by intros w'; astep]. intros w'.
  destruct (csh_state_get_variable (a_state p) (Some n)) as [_ view].
  destruct (view_value view) as [[|c text]|].
  - astep. by repeat split.
  - set (t := if _ : bool then _ else _). destruct (literal t) as [u|] eqn:El.
    2:{ repeat astep. by repeat split. }
    apply literal_ok in El as [Hu _].
    destruct (_ && (high u =? 1)); [astep; by repeat split|].
    destruct (peek _ =? 45); [|by apply read_number_apost; unfold value_ok; long].
    unfold c_neg. rewrite c_long_in by long. do 2 astep. apply read_number_apost. unfold value_ok; simpl; long.
  - destruct (opt_on _ _); repeat astep; by repeat split.
Qed.

Lemma assign_apost `{LocaleDb} n x p w :
  apost (assign n x) p w (fun _ p' _ => same_text p p').
Proof.
  unfold assign. astep. apply copy_name_apost; intros w'; [|by astep].
  do 3 astep. destruct a as [r s]. astep.
  assert (forall m : M (csh_state_result * csh_state), apost (alift m) p w'0
    (fun a p' w0 => p' = p)) as Hm by (intros m; by astep).
  apply apost_mono with (P := fun a p' _ => p' = p).
  - destruct (_ && _); [apply Hm|by astep].
  - intros [r' s'] p' w2 ->. do 2 astep. destruct r'; by repeat astep.
Qed.

Lemma operation_apost t l r p w :
  is_long l -> is_long r ->
  apost (operation t l r) p w (fun n p' _ => is_long n /\ same_text p p' /\ a_state p' = a_state p).
Proof.
  intros Hl Hr. unfold operation. astep.
  assert (exists x, operate t l r = Some x /\ from_option is_long True (match x with inr z => Some z | _ => None end))
    as (x & -> & Hx).
  { destruct (is_operator t) eqn:Ht.
    - rewrite operate_exact by done. eexists. split; [done|].
      unfold in_range. destruct (exact t l r); [|done]. by destruct (decide _).
    - exists (inl CSH_ARITH_SYNTAX). destruct t; done. }
  astep. destruct x as [e|z]; repeat astep; [by repeat split|].
  split_and!; [exact Hx|by repeat split|done].
Qed.

Lemma syntax_here_apost p w (Q : unit -> parser -> proc -> Prop) :
  (forall p', same_text p p' -> Q tt p' w) -> apost syntax_here p w Q.
Proof. intros H. unfold syntax_here. repeat astep. apply H. by repeat split. Qed.

Lemma unary_apost t v ex p w :
  value_ok v -> apost (unary t v ex) p w (fun v' p' _ => value_ok v' /\ same_text p p').
Proof.
  intros Hv. unfold unary. astep. astep.
  apply apost_mono with (P := fun v' p' _ => value_ok v' /\ same_text p p');
    [|intros v' p' w' [? ?]; by astep].
  destruct (ex && _); [|by astep].
  destruct (_ && (high v =? 1)); [by astep|].
  astep. eapply apost_mono; [by apply read_value_apost|]. intros n p' w' (Hn & Ht & _).
  destruct (token_eqb t TOK_SUB); cbn [andb].
  - destruct (n =? LONG_MIN) eqn:E; bsimp; [repeat astep; split; [done|by transitivity p']|].
    unfold c_neg. rewrite c_long_in by long. repeat astep. split; [unfold value_ok; simpl; long|done].
  - destruct (token_eqb t TOK_NOT); [astep; split; [apply of_bool_long|done]|].
    destruct (token_eqb t TOK_INV); astep; split; try done.
    unfold value_ok; simpl. unfold Z.lnot. long.
Qed.

(** [e] returns on a synchronized parser with less than [k] bytes left. *)
Definition returns_below (e : Z -> bool -> AM value) (k : nat) : Prop :=
  forall min ex p w, 1 <= min -> synced p -> (remaining p < k)%nat ->
    apost (e min ex) p w (fun v p' _ => value_ok v /\ advanced p p').

Definition returns (m : AM value) (p : parser) (w : proc) : Prop :=
  apost m p w (fun v p' _ => value_ok v /\ advanced p p').

Lemma next_token_advances p w (Q : unit -> parser -> proc -> Prop) :
  synced p ->
  (forall p', advanced p p' -> (a_token p <> TOK_END -> (remaining p' < remaining p)%nat) -> Q tt p' w) ->
  apost next_token p w Q.
Proof.
  intros Hs H. apply next_token_apost. intros p' Hs' Hr _ _.
  pose proof (token_next_le p Hs). apply H; [split; [done|lia]|].
  intros Ht. pose proof (token_consumes p Hs Ht). lia.
Qed.

Lemma primary_returns e ex p w :
  synced p -> returns_below e (remaining p) -> returns (primary e ex) p w.
Proof.
  intros Hs He. unfold returns, primary. astep.
  assert (apost (syntax_here >>> aret zero_value) p w
    (fun v p' _ => value_ok v /\ advanced p p')) as Hbad.
  { astep. apply syntax_here_apost. intros p' Ht. astep. split; [done|]. by apply same_text_advanced. }
  assert (a_token p <> TOK_END -> apost (next_token >>> (let! v := e 14 ex in unary (a_token p) v ex)) p w
    (fun v p' _ => value_ok v /\ advanced p p')) as Hun.
  { intros Hne. astep. apply next_token_advances; [done|]. intros p1 H1 Hlt.
    astep. eapply apost_mono; [apply He; [lia|apply H1|by apply Hlt]|]. intros v p2 w2 [Hv H2].
    eapply apost_mono; [by apply unary_apost|]. intros v' p3 w3 [Hv' H3]. split; [done|].
    eapply advanced_trans; [exact H1|]. eapply advanced_trans; [exact H2|].
    apply same_text_advanced; [apply H2|done]. }
  destruct (a_token p) eqn:Et; try exact Hbad; try (by apply Hun).
  - astep. apply apost_mono with (P := fun v p' _ => value_ok v /\ same_text p p').
    { destruct (literal _) as [v|] eqn:El.
      - astep. apply literal_ok in El as [Hv _]. split; [unfold value_ok; long|done].
      - repeat astep. by repeat split. }
    intros v p1 w1 [Hv Ht]. astep. apply next_token_advances; [by eapply same_text_synced|].
    intros p2 H2 _. astep. split; [done|]. eapply advanced_trans; [|exact H2].
    by apply same_text_advanced.
  - astep. apply next_token_advances; [done|]. intros p1 H1 _. astep. by split.
  - astep. apply next_token_advances; [done|]. rewrite Et. intros p1 H1 Hlt.
    astep. eapply apost_mono; [apply He; [lia|apply H1|by apply Hlt]|]. intros v p2 w2 [Hv H2].
    astep. astep. apply apost_mono with (P := fun _ p' _ => advanced p2 p').
    + destruct (is_ok _); [|astep; split; [apply H2|done]].
      destruct (token_eqb _ _).
      * apply next_token_advances; [apply H2|]. by intros p3 H3 _.
      * apply syntax_here_apost. intros p3 H3. by apply same_text_advanced; [apply H2|].
    + intros [] p3 w3 H3. astep. split; [done|].
      eapply advanced_trans; [exact H1|]. by eapply advanced_trans.
Qed.

(** The evaluator [e] followed by [read_value], as the loop uses it. *)
Lemma operand_returns e min ex p w k (Q : Z -> parser -> proc -> Prop) :
  returns_below e k -> 1 <= min -> synced p -> (remaining p < k)%nat ->
  (forall n p' w', is_long n -> advanced p p' -> Q n p' w') ->
  apost (let! v := e min ex in read_value v ex) p w Q.
Proof.
  intros He Hm Hs Hr HQ. astep. eapply apost_mono; [by apply He|]. intros v p1 w1 [Hv H1].
  eapply apost_mono; [by apply read_value_apost|]. intros n p2 w2 (Hn & Ht & _). apply HQ; [done|].
  eapply advanced_trans; [exact H1|]. apply same_text_advanced; [apply H1|done].
Qed.

Lemma abind_assoc {A B C} (m : AM A) (f : A -> AM B) (g : B -> AM C) p w :
  abind (abind m f) g p w = abind m (fun a => abind (f a) g) p w.
Proof. unfold abind. by destruct (m p w) as [[[a p'] w']|]. Qed.

Lemma operand_then e min ex p w k {B} (g : Z -> AM B) (Q : B -> parser -> proc -> Prop) :
  returns_below e k -> 1 <= min -> synced p -> (remaining p < k)%nat ->
  (forall n p' w', is_long n -> advanced p p' -> apost (g n) p' w' Q) ->
  apost (let! v := e min ex in let! n := read_value v ex in g n) p w Q.
Proof.
  intros He Hm Hs Hr HQ. unfold apost. rewrite <- abind_assoc.
  apply (apost_bind (let! v := e min ex in read_value v ex) g). by eapply operand_returns.
Qed.

Lemma conditional_returns e ex lhs p w k :
  returns_below e k -> synced p -> (remaining p < k)%nat ->
  apost (conditional e ex lhs) p w (fun o p' _ => from_option value_ok True o /\ advanced p p').
Proof.
  intros He Hs Hr. unfold conditional. eapply operand_then; [done|lia|done..|].
  intros yes p1 w1 Hy H1. astep. destruct (negb _); [by astep|].
  destruct (negb _).
  { astep. apply syntax_here_apost. intros p2 H2. astep. split; [done|].
    eapply advanced_trans; [exact H1|]. by apply same_text_advanced; [apply H1|]. }
  astep. apply next_token_advances; [apply H1|]. intros p2 H2 _. destruct H1, H2.
  eapply operand_then; [done|simpl; lia|done|lia|]. intros rhs p3 w3 Hrhs [? ?]. astep.
  split; [simpl; unfold value_ok; simpl; by destruct (negb _)|]. split; [done|lia].
Qed.

Lemma binary_returns `{LocaleDb} e t v lhs ex p w k :
  returns_below e k -> synced p -> (remaining p < k)%nat -> is_long lhs -> 1 <= precedence t ->
  (precedence t = 2 -> is_Some (vname v)) ->
  apost (binary e t v lhs ex) p w (fun v' p' _ => value_ok v' /\ advanced p p').
Proof.
  intros He Hs Hr Hl Hpt Hname. unfold binary.
  eapply operand_then; [done|destruct (precedence t =? 2); lia|done..|].
  intros rhs p1 w1 Hrhs H1. astep. destruct (ex && _); [|by astep].
  assert (forall t, apost (operation t lhs rhs) p1 w1 (fun n p' _ => is_long n /\ advanced p p')) as Hop.
  { intros t'. eapply apost_mono; [by apply operation_apost|]. intros n p2 w2 (Hn & Ht & _).
    split; [done|]. eapply advanced_trans; [exact H1|]. by apply same_text_advanced; [apply H1|]. }
  destruct (precedence t =? 2) eqn:E2; bsimp.
  - destruct (Hname E2) as [name ->]. astep. eapply apost_mono with (P := fun n p' _ => is_long n /\ advanced p p').
    { destruct (token_eqb t TOK_ASSIGN); [by astep|apply Hop]. }
    intros n p2 w2 [Hn H2]. astep. astep. apply apost_mono with (P := fun _ p' _ => same_text p2 p').
    { destruct (is_ok _); [apply assign_apost|by astep]. }
    intros [] p3 w3 Ht. astep. split; [done|]. eapply advanced_trans; [exact H2|].
    by apply same_text_advanced; [apply H2|].
  - astep. eapply apost_mono; [apply Hop|]. intros n p2 w2 [Hn H2]. by astep.
Qed.

Lemma precedence_positive t : 1 <= precedence t -> t <> TOK_END.
Proof. by intros H ->. Qed.

Lemma evaluator_returns `{LocaleDb} f :
  (forall k, (2 * k <= f)%nat -> returns_below (expression f) k) /\
  (forall min ex v p w, 1 <= min -> synced p -> value_ok v -> (2 * remaining p + 1 <= f)%nat ->
     returns (expression_loop f min ex v) p w).
Proof.
  induction f as [|f [IHe IHl]].
  { split; [intros k Hk min ex p w _ _ Hr; lia | intros min ex v p w _ _ _ Hf; lia]. }
  split.
  - intros k Hk min ex p w Hm Hs Hr. cbn [expression]. astep.
    destruct (negb _); [astep; split; [done|by apply advanced_refl]|].
    astep. apply apost_mono with (P := fun _ p' _ => same_text p p').
    { unfold csh_stack_check, apost. by destruct (a_stack p); repeat split. }
    intros room p1 w1 Ht. assert (advanced p p1) as H1 by (by apply same_text_advanced).
    destruct (negb room); [repeat astep; split; [done|by split; apply H1]|].
    astep. eapply apost_mono; [apply (primary_returns (expression f) ex); [apply H1|apply IHe; destruct H1; lia]|].
    intros v p2 w2 [Hv H2]. destruct H1, H2.
    eapply apost_mono; [apply IHl; [done..|lia]|]. intros v' p3 w3 [Hv' [? ?]].
    split; [done|split; [done|lia]].
  - intros min ex v p w Hm Hs Hv Hf. unfold returns. cbn [expression_loop]. astep.
    destruct (negb _) eqn:Ec; [astep; split; [done|by apply advanced_refl]|]. rewrite Z.geb_leb in Ec. bsimp. destruct Ec as [_ Ec].
    assert (a_token p <> TOK_END) as Hne by (apply precedence_positive; lia).
    astep. apply next_token_advances; [done|]. intros p1 H1 Hlt. specialize (Hlt Hne).
    destruct ((precedence (a_token p) =? 2) && _) eqn:Ea; [repeat astep; split; [done|by split; apply H1]|].
    astep. apply apost_mono with (P := fun n p' _ => is_long n /\ advanced p p' /\ (remaining p' < remaining p)%nat).
    { destruct (negb _); [|by astep]. eapply apost_mono; [by apply read_value_apost|].
      intros n p2 w2 (Hn & Ht & _). apply same_text_advanced in Ht; [|apply H1].
      split_and!; [done|by eapply advanced_trans|]. destruct Ht. lia. }
    intros lhs p2 w2 (Hl & H2 & Hlt2).
    assert (returns_below (expression f) (remaining p)) as He by (apply IHe; lia).
    assert (forall v' p3 w3, value_ok v' -> advanced p2 p3 ->
      apost (expression_loop f min ex v') p3 w3 (fun v p' _ => value_ok v /\ advanced p p')) as Hgo.
    { intros v' p3 w3 Hv' [? ?]. eapply apost_mono; [apply IHl; [done..|lia]|].
      intros v'' p4 w4 [? [? ?]]. split; [done|split; [done|lia]]. }
    destruct (token_eqb _ TOK_QUESTION).
    + astep. eapply apost_mono; [eapply conditional_returns; [exact He|apply H2|done]|].
      intros o p3 w3 [Ho H3]. destruct o as [v'|]; [by apply Hgo|]. astep. split; [done|].
      by eapply advanced_trans.
    + astep. eapply apost_mono; [eapply binary_returns; [exact He|apply H2|done|done|lia|]|].
      * intros E2. destruct (vname v); [done|]. rewrite E2 in Ea. done.
      * intros v' p3 w3 [Hv' H3]. by apply Hgo.
Qed.

Lemma run_returns `{LocaleDb} ex p w : apost (run ex) p w (fun _ _ _ => True).
Proof.
  unfold run. astep. astep. apply next_token_apost. intros p1 Hs Hr _ _. astep. astep.
  apply apost_mono with (P := fun v p' _ => value_ok v).
  { destruct (negb _); [|by astep]. eapply apost_mono.
    - apply (proj1 (evaluator_returns (enough_fuel (a_next p))) (S (remaining p1))); [|lia|done|lia].
      unfold enough_fuel. lia.
    - by intros v p2 w2 [Hv _]. }
  intros v p2 w2 Hv. astep. astep. apply apost_mono with (P := fun _ _ _ => True).
  { destruct (_ && _); by astep. }
  intros [] p3 w3 _. astep. destruct (is_ok _); [|by astep].
  astep. eapply apost_mono; [by apply read_value_apost|]. intros n p4 w4 _. by astep; astep.
Qed.

Lemma eval_returns `{LocaleDb} s text stack w : is_Some (csh_arith_eval s text stack w).
Proof.
  unfold csh_arith_eval. destruct text as [t|]; [|by eexists].
  destruct (slen t =? SIZE_MAX); [by eexists|]. destruct (malloc w) as [b w1].
  destruct (negb b); [by eexists|]. destruct (csh_state_save s w1) as [[r c] w2].
  destruct (negb _); [by eexists|].
  pose proof (run_returns true (start_parser t s (options (csh_state_get_info s)) stack) w2) as Hr.
  unfold apost in Hr. destruct (run true _ w2) as [[[out p] w3]|]; [|done].
  destruct (is_ok _).
  - destruct (csh_state_checkpoint_destroy c w3). by eexists.
  - destruct (csh_state_restore (a_state p) c w3) as [[? ?] ?]. by eexists.
Qed.

Lemma probes_return `{LocaleDb} (text : option str) (stack : list bool) (w : proc) :
  is_Some (csh_arith_probe text stack w) /\ is_Some (csh_arith_probe_prefix text stack w).
Proof.
  unfold csh_arith_probe, csh_arith_probe_prefix. destruct text as [t|]; [|by split; eexists].
  pose proof (run_returns false (start_parser t zero_state 0 stack) w) as Hr.
  unfold apost in Hr. destruct (run false _ w) as [[[out p] w3]|]; [by split; eexists|done].
Qed.

(** C4: arithmetic returns.  For every text, every state, every sequence of
    allocation failures and of stack checks, evaluation and the two grammar
    probes give a result: the recursion ends and no step is undefined in C. *)
Theorem arith_total `{LocaleDb} (s : csh_state) (text : option str) (stack : list bool) (w : proc) :
  is_Some (csh_arith_eval s text stack w) /\
  is_Some (csh_arith_probe text stack w) /\
  is_Some (csh_arith_probe_prefix text stack w).
Proof.
  split; [apply eval_returns|apply probes_return].
Qed.

(** ** What evaluation changes

    Only the variables of the state, and what depends on them, change. *)

(** Everything of a state but its variables and what depends on them. *)
Definition same_frame (s s' : csh_state) : Prop :=
  functions s' = functions s /\ aliases s' = aliases s /\ arguments s' = arguments s /\ info s' = info s.

#[export] Instance same_frame_preorder : PreOrder same_frame.
Proof. split; [by repeat split | intros s1 s2 s3 (?&?&?&?) (?&?&?&?); repeat split; congruence]. Qed.

Definition state_step (s : csh_state) (w : proc) (s' : csh_state) (w' : proc) : Prop :=
  state_wf s -> state_wf s' /\ same_frame s s' /\ same_data w w'.

Definition keeps (p : parser) (w : proc) (p' : parser) (w' : proc) : Prop :=
  state_step (a_state p) w (a_state p') w'.

Lemma state_step_refl s w : state_step s w s w.
Proof. by intros Hwf. Qed.

Lemma state_step_trans s w s1 w1 s2 w2 :
  state_step s w s1 w1 -> state_step s1 w1 s2 w2 -> state_step s w s2 w2.
Proof.
  intros H1 H2 Hwf. destruct (H1 Hwf) as (Hwf1 & Hf1 & Hd1). destruct (H2 Hwf1) as (? & ? & ?).
  split_and!; [done|by etrans..].
Qed.

Lemma set_variable_step `{LocaleDb} s n v w r s' w' :
  csh_state_set_variable s (Some n) (Some v) w = (r, s', w') -> state_step s w s' w'.
Proof.
  intros E Hwf. pose proof (set_variable_post s n v w Hwf) as Hp. unfold post in Hp. rewrite E in Hp.
  destruct Hp as (Hd & Hwf' & _ & Hr). split_and!; [done| |done].
  destruct r; [|by destruct Hr as [-> _]..].
  destruct Hr as (_ & _ & (? & ? & _ & ? & ? & _) & _). by repeat split.
Qed.

Lemma update_attributes_step s n set clear w r s' w' :
  csh_state_update_attributes s (Some n) set clear w = (r, s', w') -> state_step s w s' w'.
Proof.
  intros E Hwf. pose proof (update_attributes_post s n set clear w Hwf) as Hp. unfold post in Hp.
  rewrite E in Hp. destruct Hp as (Hd & Hwf' & _ & Hr). split_and!; [done| |by apply same_host_data].
  destruct r; [|by rewrite Hr|by destruct Hr as [-> _]..].
  destruct Hr as (_ & -> & _). by repeat split.
Qed.

Lemma keeps_refl p p' w : a_state p' = a_state p -> keeps p w p' w.
Proof. intros E. unfold keeps. rewrite E. apply state_step_refl. Qed.

Lemma keeps_trans p w p1 w1 p2 w2 : keeps p w p1 w1 -> keeps p1 w1 p2 w2 -> keeps p w p2 w2.
Proof. apply state_step_trans. Qed.

Definition preserves {A} (m : AM A) : Prop := forall p w,
  match m p w with Some (_, p', w') => keeps p w p' w' | None => True end.

Section Preserves.
Context {A B : Type}.

Lemma preserves_bind (m : AM A) (f : A -> AM B) :
  preserves m -> (forall a, preserves (f a)) -> preserves (abind m f).
Proof.
  intros Hm Hf p w. unfold abind. specialize (Hm p w). destruct (m p w) as [[[a p1] w1]|]; [|done].
  specialize (Hf a p1 w1). destruct (f a p1 w1) as [[[b p2] w2]|]; [|done]. by eapply keeps_trans.
Qed.

Lemma preserves_ret (a : A) : preserves (aret a).
Proof. intros p w. by apply keeps_refl. Qed.

Lemma preserves_stuck : preserves (@astuck A).
Proof. by intros p w. Qed.

Lemma preserves_defined (o : option A) : preserves (adefined o).
Proof. destruct o; [apply preserves_ret|apply preserves_stuck]. Qed.

Lemma preserves_modify g : (forall p, a_state (g p) = a_state p) -> preserves (amodify g).
Proof. intros Hg p w. by apply keeps_refl. Qed.
End Preserves.

Lemma preserves_get : preserves aget.
Proof. intros p w. by apply keeps_refl. Qed.

Lemma preserves_error e : preserves (set_error e).
Proof. by apply preserves_modify. Qed.

Lemma preserves_next_token : preserves next_token.
Proof. apply preserves_modify. intros p. cbn beta zeta. by destruct (scan (skip_space (a_next p))) as [[??]?]. Qed.

Lemma preserves_malloc : preserves (alift malloc).
Proof.
  intros p w. unfold alift. pose proof (post_malloc w (fun _ w' => same_host w w')) as H.
  unfold post in H. destruct (malloc w) as [b w']. intros Hwf. split_and!; [done..|].
  apply same_host_data, H. by intros.
Qed.

Lemma preserves_stack : preserves csh_stack_check.
Proof. intros p w. unfold csh_stack_check. destruct (a_stack p); by apply keeps_refl. Qed.

#[export] Hint Resolve preserves_ret preserves_stuck preserves_defined preserves_get preserves_error
  preserves_next_token preserves_malloc preserves_stack : cshell.

(** Follow the structure of a computation. *)
Ltac preserve :=
  repeat first
    [ solve [auto with cshell]
    | apply preserves_modify; done
    | apply preserves_bind; [|intros ?]
    | match goal with |- preserves (match ?x with _ => _ end) => destruct x end ].

Lemma preserves_syntax : preserves syntax_here.
Proof. unfold syntax_here. preserve. Qed.

Lemma preserves_copy_name n : preserves (copy_name n).
Proof. unfold copy_name. preserve. Qed.

Lemma preserves_read_number v : preserves (read_number v).
Proof. unfold read_number. preserve. Qed.

#[export] Hint Resolve preserves_syntax preserves_copy_name preserves_read_number : cshell.

Lemma preserves_read_value v ex : preserves (read_value v ex).
Proof. unfold read_value. preserve. Qed.

Lemma preserves_operation t l r : preserves (operation t l r).
Proof. unfold operation. preserve. Qed.

#[export] Hint Resolve preserves_read_value preserves_operation : cshell.

Lemma preserves_unary t v ex : preserves (unary t v ex).
Proof. unfold unary. preserve. Qed.

#[export] Hint Resolve preserves_unary : cshell.

Section Evaluation.
Context `{LocaleDb}.

Lemma preserves_assign n x : preserves (assign n x).
Proof.
  unfold assign. apply preserves_bind; [auto with cshell|]. intros [name|]; [|auto with cshell].
  intros p w. unfold abind, aget, alift, aret.
  destruct (csh_state_set_variable (a_state p) (Some name) _ w) as [[r s1] w1] eqn:E1.
  apply set_variable_step in E1. destruct (_ && _).
  - destruct (csh_state_update_attributes s1 (Some name) _ _ w1) as [[r' s2] w2] eqn:E2.
    apply update_attributes_step in E2. destruct r'; by eapply state_step_trans.
  - by destruct r.
Qed.

Section Recursive.
Context (e : Z -> bool -> AM value) (He : forall min ex, preserves (e min ex)).

#[local] Hint Resolve He preserves_assign : cshell.

Lemma preserves_primary ex : preserves (primary e ex).
Proof. unfold primary. preserve. Qed.

Lemma preserves_conditional ex lhs : preserves (conditional e ex lhs).
Proof. unfold conditional. preserve. Qed.

Lemma preserves_binary t v lhs ex : preserves (binary e t v lhs ex).
Proof. unfold binary. preserve. Qed.
End Recursive.

Lemma preserves_evaluator f :
  (forall min ex, preserves (expression f min ex)) /\
  (forall min ex v, preserves (expression_loop f min ex v)).
Proof.
  induction f as [|f [IHe IHl]]; [split; intros; apply preserves_stuck|].
  pose proof (preserves_primary _ IHe). pose proof (preserves_conditional _ IHe).
  pose proof (preserves_binary _ IHe).
  split; intros; cbn [expression expression_loop]; preserve.
Qed.

Lemma preserves_run ex : preserves (run ex).
Proof.
  unfold run. pose proof (fun f => proj1 (preserves_evaluator f)). preserve.
Qed.

(** No number is stored through [out] when there is an error. *)
Lemma run_out ex p w out p' w' :
  run ex p w = Some (out, p', w') -> a_error p' <> CSH_ARITH_OK -> out = None.
Proof.
  unfold run. intros E Herr.
  repeat match type of E with
  | abind _ _ _ _ = _ => unfold abind at 1 in E
  | context [match ?m with Some _ => _ | None => None end] =>
      let E' := fresh "E'" in destruct m as [[[? ?] ?]|] eqn:E'; [|done]
  | (if is_ok ?e then _ else _) _ _ = _ => destruct (is_ok e) eqn:?
  end.
  - unfold aget in *. simplify_eq. unfold aret in E. simplify_eq.
    unfold is_ok. by rewrite bool_decide_eq_false_2.
  - unfold aret in E. by simplify_eq.
Qed.
End Evaluation.

(** ** Rollback *)

Lemma restore_undoes `{LocaleDb} s s2 w w2 :
  counts_positive (p_functions w) -> functions s2 = functions s ->
  p_functions w2 = retain_all (functions s) (p_functions w) ->
  post (csh_state_restore s2 (Some s)) w2 (fun r w' => r.2 = s /\
    p_functions w' = p_functions w /\ p_stdout w' = p_stdout w2 /\ p_stderr w' = p_stderr w2).
Proof.
  intros Hpos Hf Hw2. unfold csh_state_restore, csh_state_destroy. apply post_bind.
  unfold post at 1. rewrite release_functions_run, Hf, Hw2, release_retain_all by done.
  apply post_bind. eapply post_mono; [apply refresh_locale_data|].
  intros [] w3 [(Ho & He & Hfn) _]. apply post_ret. by split_and!.
Qed.

Lemma destroy_undoes s w w2 :
  counts_positive (p_functions w) -> p_functions w2 = retain_all (functions s) (p_functions w) ->
  post (csh_state_checkpoint_destroy (Some s)) w2 (fun _ w' =>
    p_functions w' = p_functions w /\ p_stdout w' = p_stdout w2 /\ p_stderr w' = p_stderr w2).
Proof.
  intros Hpos Hw2. simpl. unfold csh_state_destroy, post. rewrite release_functions_run, Hw2.
  by rewrite release_retain_all.
Qed.

(** C2: an arithmetic error undoes everything.  Whatever fails, at whatever
    point (syntax, range, a readonly target after earlier assignments, memory,
    stack), nothing is stored through [out] and the complete shell state is the
    one before; a success changes nothing of the state but its variables and
    what depends on them.  In both cases nothing is printed and every function
    reference taken for the checkpoint is given back. *)
Theorem arith_error_rollback `{LocaleDb} (s : csh_state) (text : option str) (stack : list bool)
    (w : proc) (Hwf : state_wf s) (Hpos : counts_positive (p_functions w)) :
  match csh_arith_eval s text stack w with
  | Some (r, out, s', w') =>
      (r <> CSH_ARITH_OK -> out = None /\ s' = s) /\
      (r = CSH_ARITH_OK -> state_wf s' /\ same_frame s s') /\
      p_functions w' = p_functions w /\ p_stdout w' = p_stdout w /\ p_stderr w' = p_stderr w
  | None => False
  end.
Proof.
  destruct (eval_returns s text stack w) as [x Htot]. rewrite Htot. revert Htot.
  unfold csh_arith_eval. destruct text as [t|]; [|intros [= <-]; by split_and!].
  destruct (slen t =? SIZE_MAX); [intros [= <-]; by split_and!|].
  pose proof (post_malloc w (fun _ w' => same_host w w') ltac:(by intros)) as Hm. unfold post in Hm.
  destruct (malloc w) as [b w1]. destruct Hm as (Ho1 & He1 & _ & Hf1).
  destruct (negb b); [intros [= <-]; by split_and!|].
  pose proof (save_post s w1 Hwf) as Hs. rewrite Hf1 in Hs. specialize (Hs Hpos). unfold post in Hs.
  destruct (csh_state_save s w1) as [[r c] w2]. destruct Hs as [[[[= -> ->] Hc]|[[= -> ->] Hc]] _];
    destruct Hc as (Ho2 & He2 & _ & Hf2); rewrite ?Hf1 in Hf2; cbn [negb bool_decide].
  2:{ intros [= <-]. split_and!; try done; congruence. }
  pose proof (preserves_run true (start_parser t s (options (csh_state_get_info s)) stack) w2) as Hr.
  destruct (run true _ w2) as [[[out p] w3]|] eqn:Er; [|done].
  destruct (Hr Hwf) as (Hwf3 & Hframe & (Ho3 & He3 & Hf3)). rewrite Hf2 in Hf3.
  change (negb (bool_decide (CSH_STATE_OK = CSH_STATE_OK))) with false. cbn iota.
  destruct (is_ok (a_error p)) eqn:Eok; unfold is_ok in Eok; bsimp.
  - pose proof (destroy_undoes s w w3 Hpos Hf3) as Hd. unfold post in Hd.
    destruct (csh_state_checkpoint_destroy (Some s) w3) as [[] w4]. destruct Hd as (? & ? & ?).
    intros [= <-]. split_and!; try done; congruence.
  - pose proof (restore_undoes s (a_state p) w w3 Hpos (proj1 Hframe) Hf3) as Hd. unfold post in Hd.
    destruct (csh_state_restore (a_state p) (Some s) w3) as [[r s'] w4].
    destruct Hd as (Hs' & ? & ? & ?). simpl in Hs'. subst s'. intros [= <-].
    split_and!; try done; try congruence. intros _. split; [|done]. by eapply run_out.
Qed.

Lemma arith_error_rollback_witness :
  match csh_arith_eval (H:=every_locale) sample_state (Some (bs "x = 5, ro = 1")) [] sample_proc with
  | Some (r, out, s', _) => r = CSH_ARITH_READONLY /\ out = None /\ s' = sample_state
  | None => False
  end.
Proof.
  pose proof (arith_error_rollback (H:=every_locale) sample_state (Some (bs "x = 5, ro = 1")) []
    sample_proc sample_state_wf sample_proc_counts) as H.
  destruct (csh_arith_eval _ _ _ _) as [[[[r out] s'] w']|] eqn:E; [|destruct H].
  assert (r = CSH_ARITH_READONLY) as -> by (vm_compute in E; injection E as <- _ _ _; reflexivity).
  split; [reflexivity|]. apply H. discriminate.
Defined.
