(* ===== verification/ArithmeticDenotation.v ===== *)
(** * Arithmetic: the evaluator against a denotational semantics

    Expressions as trees, their meaning by recursion on the tree, and a printer
    that parenthesizes by precedence.  The one-pass evaluator of
    src/arithmetic.c, run on the printed text, computes the meaning of the
    tree: the precedence climbing, the associativity of every operator, the
    short circuits, the order of the reads and assignments and the delayed
    constant [-9223372036854775808] are those of the semantics. *)

From stdpp Require Import base list gmap strings.
From S2P Require Import Prelude Output Numbers Options State StateCopy Arithmetic ArithmeticTheorems.

(** ** Expressions *)

Inductive expr : Type :=
  | ENum (text : str)
  | EVar (name : str)
  | EUnary (t : token) (e : expr)
  | EBin (t : token) (a b : expr)
  | ECond (c a b : expr)
  | EAssign (t : token) (name : str) (e : expr).

Definition is_unary (t : token) : bool :=
  match t with TOK_ADD | TOK_SUB | TOK_NOT | TOK_INV => true | _ => false end.

Definition is_assignment (t : token) : bool :=
  match t with
  | TOK_ASSIGN | TOK_MUL_ASSIGN | TOK_DIV_ASSIGN | TOK_MOD_ASSIGN | TOK_ADD_ASSIGN
  | TOK_SUB_ASSIGN | TOK_SHL_ASSIGN | TOK_SHR_ASSIGN | TOK_AND_ASSIGN
  | TOK_XOR_ASSIGN | TOK_OR_ASSIGN => true
  | _ => false
  end.

Fixpoint wf_expr (e : expr) : Prop :=
  match e with
  | ENum t => is_Some (constant t)
  | EVar n => valid_name n = true
  | EUnary t e => is_unary t = true /\ wf_expr e
  | EBin t a b => is_operator t = true /\ wf_expr a /\ wf_expr b
  | ECond c a b => wf_expr c /\ wf_expr a /\ wf_expr b
  | EAssign t n e => is_assignment t = true /\ valid_name n = true /\ wf_expr e
  end.

(** ** Meaning

    A computation reads and changes the shell state, allocates, and gives an
    error or a result. *)

Definition D (A : Type) : Type :=
  csh_state -> proc -> (csh_arith_result + A) * csh_state * proc.

Definition dret {A} (a : A) : D A := fun s w => (inr a, s, w).
Definition dfail {A} (e : csh_arith_result) : D A := fun s w => (inl e, s, w).
Definition dbind {A B} (m : D A) (f : A -> D B) : D B := fun s w =>
  match m s w with
  | (inr a, s', w') => f a s' w'
  | (inl e, s', w') => (inl e, s', w')
  end.
Definition dresult (r : csh_arith_result + Z) : D Z :=
  match r with inr z => dret z | inl e => dfail e end.

Notation "'let?' x ':=' m 'in' k" := (dbind m (fun x => k))
  (at level 10, x strict pattern, m at level 200, k at level 200,
   format "'let?'  x  ':='  m  'in' '//' k") : cshell_scope.

(** The number a variable's value stands for. *)
Definition signed_constant (text : str) : option Z :=
  match text with
  | [] => Some 0
  | c :: rest =>
      if c =? ch "-" then Z.opp <$> constant rest
      else if c =? ch "+" then constant rest else constant text
  end.

Definition unary_exact (t : token) (x : Z) : option Z :=
  match t with
  | TOK_ADD => Some x
  | TOK_SUB => Some (- x)
  | TOK_NOT => Some (of_bool (x =? 0))
  | TOK_INV => Some (Z.lnot x)
  | _ => None
  end.

Section Meaning.
Context `{LocaleDb} (opts : Z).

Definition d_read (n : str) : D Z := fun s w =>
  let '(ok, w) := malloc w in
  if negb ok then dfail CSH_ARITH_NOMEM s w else
  match view_value (csh_state_get_variable s (Some n)).2 with
  | None => if opt_on opts CSH_OPT_NOUNSET then dfail CSH_ARITH_SYNTAX s w else dret 0 s w
  | Some text =>
      match signed_constant text with
      | None => dfail CSH_ARITH_SYNTAX s w
      | Some z => dresult (in_range (Some z)) s w
      end
  end.

Definition d_assign (n : str) (z : Z) : D unit := fun s w =>
  let '(ok, w) := malloc w in
  if negb ok then dfail CSH_ARITH_NOMEM s w else
  let '(r, s, w) := csh_state_set_variable s (Some n) (Some (print_long z)) w in
  let '(r, s, w) :=
    if bool_decide (r = CSH_STATE_OK) && opt_on opts CSH_OPT_ALLEXPORT
    then csh_state_update_attributes s (Some n) CSH_VAR_EXPORT 0 w else (r, s, w) in
  match r with
  | CSH_STATE_OK => dret tt s w
  | CSH_STATE_NOMEM => dfail CSH_ARITH_NOMEM s w
  | CSH_STATE_READONLY => dfail CSH_ARITH_READONLY s w
  | CSH_STATE_INVALID => dfail CSH_ARITH_SYNTAX s w
  end.

(** Is this the constant one above [LONG_MAX]? *)
Definition is_min_literal (e : expr) : bool :=
  match e with ENum t => bool_decide (constant t = Some (LONG_MAX + 1)) | _ => false end.

Fixpoint denote (e : expr) : D Z :=
  match e with
  | ENum t => dresult (in_range (constant t))
  | EVar n => d_read n
  | EUnary t e =>
      if token_eqb t TOK_SUB && is_min_literal e then dret LONG_MIN else
      let? x := denote e in dresult (in_range (unary_exact t x))
  | EBin t a b =>
      let? x := denote a in
      if token_eqb t TOK_AND && (x =? 0) then dret 0
      else if token_eqb t TOK_OR && negb (x =? 0) then dret 1
      else let? y := denote b in dresult (in_range (exact t x y))
  | ECond c a b =>
      let? x := denote c in
      if negb (x =? 0) then denote a else denote b
  | EAssign t n e =>
      let? x := (if token_eqb t TOK_ASSIGN then dret 0 else d_read n) in
      let? y := denote e in
      let? z := (if token_eqb t TOK_ASSIGN then dret y
                 else dresult (in_range (exact (assignment_operation t) x y))) in
      let? _ := d_assign n z in
      dret z
  end.
End Meaning.

(** ** Printing *)

Definition op_text (t : token) : str :=
  match List.find (fun o => token_eqb o.2 t) operators with Some (o, _) => o | None => [] end.

(** The binary operators of ISO C from the loosest to the tightest, one line
    per level of its grammar; the conditional and the assignments are the
    levels 3 and 2. *)
Definition c_operators : list (list str) :=
  [ [bs ","]; []; []; [bs "||"]; [bs "&&"]; [bs "|"]; [bs "^"]; [bs "&"];
    [bs "=="; bs "!="]; [bs "<"; bs "<="; bs ">"; bs ">="]; [bs "<<"; bs ">>"];
    [bs "+"; bs "-"]; [bs "*"; bs "/"; bs "%"] ].

Definition c_rank (t : token) : Z :=
  match list_find (fun row => op_text t ∈ row) c_operators with
  | Some (i, _) => Z.of_nat i + 1
  | None => 0
  end.

(** A token, set apart by a blank. *)
Definition tok (text : str) : str := ch " " :: text.

(** The printer, over the rank that the operators have. *)
Section Printer.
Context (rank : token -> Z).

Definition level_by (e : expr) : Z :=
  match e with
  | ENum _ | EVar _ | EUnary _ _ => 14
  | EBin t _ _ => rank t
  | ECond _ _ _ => 3
  | EAssign _ _ _ => 2
  end.

Fixpoint print_by (m : Z) (e : expr) : str :=
  let body :=
    match e with
    | ENum t => tok t
    | EVar n => tok n
    | EUnary t e => tok (op_text t) ++ print_by 14 e
    | EBin t a b => print_by (rank t) a ++ tok (op_text t) ++ print_by (rank t + 1) b
    | ECond c a b => print_by 4 c ++ tok (op_text TOK_QUESTION) ++ print_by 1 a ++
        tok (op_text TOK_COLON) ++ print_by 3 b
    | EAssign t n e => tok n ++ tok (op_text t) ++ print_by 2 e
    end in
  if level_by e <? m then tok (op_text TOK_LPAREN) ++ body ++ tok (op_text TOK_RPAREN) else body.
End Printer.

(** The text of an expression by the grammar of C. *)
Definition c_print : expr -> str := print_by c_rank 1.

#[local] Abbreviation level := (level_by precedence).
#[local] Abbreviation print := (print_by precedence).

Lemma c_rank_precedence t : is_operator t = true -> c_rank t = precedence t.
Proof. by destruct t. Qed.

Lemma is_assignment_precedence t : is_assignment t = true -> precedence t = 2.
Proof. by destruct t. Qed.

(** The table of the code is the grammar of C. *)
Lemma c_print_precedence e m : wf_expr e -> print_by c_rank m e = print m e.
Proof.
  revert m. induction e; intros m; simpl; [done|done| | | |].
  - intros [_ He]. by rewrite IHe.
  - intros (Ht & H1 & H2). by rewrite c_rank_precedence, IHe1, IHe2.
  - intros (H1 & H2 & H3). by rewrite IHe1, IHe2, IHe3.
  - intros (_ & _ & He). by rewrite IHe.
Qed.

(** ** Fuel

    More fuel does not change a result. *)

Definition mle {A} (m m' : AM A) : Prop := forall p w r, m p w = Some r -> m' p w = Some r.

Lemma mle_refl {A} (m : AM A) : mle m m.
Proof. by intros p w r. Qed.

Lemma mle_bind {A B} (m m' : AM A) (f f' : A -> AM B) :
  mle m m' -> (forall a, mle (f a) (f' a)) -> mle (abind m f) (abind m' f').
Proof.
  intros Hm Hf p w r. unfold abind. destruct (m p w) as [[[a p1] w1]|] eqn:E; [|done].
  apply Hm in E as ->. apply Hf.
Qed.

Lemma mle_stuck {A} (m : AM A) : mle astuck m.
Proof. by intros p w r. Qed.

#[export] Hint Resolve mle_refl mle_stuck : cshell.

Ltac mono :=
  repeat first
    [ solve [auto with cshell]
    | apply mle_bind; [|intros ?]
    | match goal with |- mle (match ?x with _ => _ end) (match ?x with _ => _ end) => destruct x end ].

Section Fuel.
Context `{LocaleDb} (e e' : Z -> bool -> AM value) (He : forall min ex, mle (e min ex) (e' min ex)).

#[local] Hint Resolve He : cshell.

Lemma primary_mono ex : mle (primary e ex) (primary e' ex).
Proof. unfold primary. mono. Qed.

Lemma conditional_mono ex lhs : mle (conditional e ex lhs) (conditional e' ex lhs).
Proof. unfold conditional. mono. Qed.

Lemma binary_mono t v lhs ex : mle (binary e t v lhs ex) (binary e' t v lhs ex).
Proof. unfold binary. mono. Qed.
End Fuel.

Definition fuel_le `{LocaleDb} (f f' : nat) : Prop :=
  (forall min ex, mle (expression f min ex) (expression f' min ex)) /\
  (forall min ex v, mle (expression_loop f min ex v) (expression_loop f' min ex v)).

Lemma fuel_le_S `{LocaleDb} f f' : fuel_le f f' -> fuel_le (S f) (S f').
Proof.
  intros [He Hl]. pose proof (primary_mono _ _ He). pose proof (conditional_mono _ _ He).
  pose proof (binary_mono _ _ He).
  split; intros; cbn [expression expression_loop]; mono.
Qed.

Lemma fuel_step `{LocaleDb} f : fuel_le f (S f).
Proof. induction f; [split; intros; apply mle_stuck|by apply fuel_le_S]. Qed.

Lemma expression_mono `{LocaleDb} f f' min ex : (f <= f')%nat -> mle (expression f min ex) (expression f' min ex).
Proof.
  induction 1 as [|f' _ IH]; [apply mle_refl|]. intros p w r Hr.
  by apply (proj1 (fuel_step f')), IH.
Qed.

Lemma loop_mono `{LocaleDb} f f' min ex v :
  (f <= f')%nat -> mle (expression_loop f min ex v) (expression_loop f' min ex v).
Proof.
  induction 1 as [|f' _ IH]; [apply mle_refl|]. intros p w r Hr.
  by apply (proj2 (fuel_step f')), IH.
Qed.

(** ** Parsers on printed text *)

Section Simulation.
Context `{LocaleDb} (opts : Z).

(** The parser whose current token is the first of [text]. *)
Definition at_text (text : str) (s : csh_state) : parser :=
  let '(t, n, rest) := scan (skip_space text) in
  mk_parser rest (skip_space text) n t CSH_ARITH_OK s opts false [].

(** [text] starts with the token [t], spelled [o], before [rest]. *)
Definition token_at (text : str) (t : token) (o rest : str) : Prop :=
  skip_space text = o ++ rest /\ scan (o ++ rest) = (t, length o, rest).

Lemma at_text_token text s t o rest : token_at text t o rest ->
  at_text text s = mk_parser rest (o ++ rest) (length o) t CSH_ARITH_OK s opts false [].
Proof. intros [H1 H2]. unfold at_text. by rewrite H1, H2. Qed.

Lemma token_of text t o rest s : token_at text t o rest -> a_token (at_text text s) = t.
Proof. intros Ht. by rewrite (at_text_token _ _ _ _ _ Ht). Qed.

Lemma spelling_of text t o rest s : token_at text t o rest ->
  take (a_length (at_text text s)) (a_start (at_text text s)) = o.
Proof. intros Ht. rewrite (at_text_token _ _ _ _ _ Ht). apply take_app_length. Qed.

Lemma next_token_at text s t o rest w : token_at text t o rest ->
  next_token (at_text text s) w = Some (tt, at_text rest s, w).
Proof.
  intros Ht. rewrite (at_text_token _ _ _ _ _ Ht). unfold next_token, amodify, at_text. simpl.
  by destruct (scan (skip_space rest)) as [[??]?].
Qed.

(** What follows a printed token: nothing, or a blank. *)
Definition sep (rest : str) : Prop := rest = [] \/ exists r, rest = ch " " :: r.

Lemma sep_not_name rest : sep rest -> name_span rest = O.
Proof. by intros [->|[r ->]]. Qed.

Lemma name_span_app n rest : Forall (fun c => name_byte c = true) n -> sep rest ->
  name_span (n ++ rest) = length n.
Proof.
  intros Hn Hs. induction Hn as [|c n Hc Hn IH]; simpl; [by apply sep_not_name|].
  by rewrite Hc, IH.
Qed.

Lemma name_byte_not_space c : name_byte c = true -> space c = false.
Proof.
  unfold name_byte, name_start, digit, space, between. intros Hc. bsimp.
  destruct Hc as [[[?|?]|?]|?]; bsimp; lia.
Qed.

Lemma word_at c n rest : name_byte c = true -> Forall (fun c => name_byte c = true) n -> sep rest ->
  token_at (tok (c :: n) ++ rest) (if digit c then TOK_NUMBER else TOK_NAME) (c :: n) rest.
Proof.
  intros Hc Hn Hs. split.
  - simpl. by rewrite (name_byte_not_space c).
  - cbn [app scan]. rewrite Hc. change (c :: n ++ rest) with ((c :: n) ++ rest).
    rewrite name_span_app by (try done; by constructor). by rewrite drop_app_length.
Qed.

Definition printed_ops : list token := [
  TOK_LPAREN; TOK_RPAREN; TOK_COMMA; TOK_ASSIGN; TOK_MUL_ASSIGN; TOK_DIV_ASSIGN; TOK_MOD_ASSIGN;
  TOK_ADD_ASSIGN; TOK_SUB_ASSIGN; TOK_SHL_ASSIGN; TOK_SHR_ASSIGN; TOK_AND_ASSIGN; TOK_XOR_ASSIGN;
  TOK_OR_ASSIGN; TOK_QUESTION; TOK_COLON; TOK_OR; TOK_AND; TOK_BIT_OR; TOK_BIT_XOR; TOK_BIT_AND;
  TOK_EQ; TOK_NE; TOK_LT; TOK_LE; TOK_GT; TOK_GE; TOK_SHL; TOK_SHR; TOK_ADD; TOK_SUB; TOK_MUL;
  TOK_DIV; TOK_MOD; TOK_NOT; TOK_INV ].

Lemma op_at t rest : t ∈ printed_ops -> sep rest ->
  token_at (tok (op_text t) ++ rest) t (op_text t) rest.
Proof.
  intros Ht Hs. destruct Hs as [->|[r ->]];
    repeat (apply elem_of_cons in Ht as [->|Ht]; [by split|]); by apply not_elem_of_nil in Ht.
Qed.

(** The precedence of the first token of [text]. *)
Definition head_prec (text : str) : Z := precedence (scan (skip_space text)).1.1.

Lemma head_prec_at text s : precedence (a_token (at_text text s)) = head_prec text.
Proof. unfold at_text, head_prec. by destruct (scan (skip_space text)) as [[??]?]. Qed.

Lemma head_prec_token text t o rest : token_at text t o rest -> head_prec text = precedence t.
Proof. intros [H1 H2]. unfold head_prec. by rewrite H1, H2. Qed.

(** *** Results

    The evaluator lands on the meaning [d]: it gives the same result, or the
    same error, with the same state and process; without an error it stands
    before [rest]. *)

Definition lands {A} (o : option (A * parser * proc)) (d : (csh_arith_result + A) * csh_state * proc)
    (rest : str) : Prop :=
  match d with
  | (inr a, s', w') => o = Some (a, at_text rest s', w')
  | (inl e, s', w') => e <> CSH_ARITH_OK /\
      exists a p', o = Some (a, p', w') /\ a_error p' = e /\ a_state p' = s'
  end.

(** A continuation that hands on an error that is already set. *)
Definition passes {A B} (f : A -> AM B) : Prop :=
  forall a p w, a_error p <> CSH_ARITH_OK -> exists b, f a p w = Some (b, p, w).

Lemma lands_bind {A B} (m : AM A) (f : A -> AM B) (d : D A) (g : A -> D B) p s w rest rest' :
  lands (m p w) (d s w) rest -> passes f ->
  (forall a s' w', d s w = (inr a, s', w') -> lands (f a (at_text rest s') w') (g a s' w') rest') ->
  lands (abind m f p w) (dbind d g s w) rest'.
Proof.
  intros Hm Hf Hg. unfold abind, dbind. destruct (d s w) as [[[e|a] s1] w1]; simpl in Hm.
  - destruct Hm as (He & a & p1 & -> & Hp & Hs). destruct (Hf a p1 w1) as [b ->]; [congruence|].
    split; [done|]. by exists b, p1.
  - rewrite Hm. by apply Hg.
Qed.

Lemma lands_mono {A} (m m' : AM A) p w d rest : mle m m' -> lands (m p w) d rest -> lands (m' p w) d rest.
Proof.
  intros Hm. destruct d as [[[e|a] s1] w1]; simpl; [|apply Hm].
  intros (He & a & p1 & E & Hp). split; [done|]. exists a, p1. by apply Hm in E.
Qed.

Lemma lands_eq {A} (o : option (A * parser * proc)) d d' rest : d = d' -> lands o d rest -> lands o d' rest.
Proof. by intros ->. Qed.

(** *** Reading and assigning *)

Definition rdv (v : value) : D Z :=
  match vname v with
  | Some n => d_read opts n
  | None => if high v =? 0 then dret (number v) else dfail CSH_ARITH_RANGE
  end.

Definition rdx (ex : bool) (v : value) : D Z := if ex then rdv v else dret 0.

Lemma at_text_fields text s : a_error (at_text text s) = CSH_ARITH_OK /\
  a_state (at_text text s) = s /\ a_options (at_text text s) = opts.
Proof. unfold at_text. by destruct (scan (skip_space text)) as [[??]?]. Qed.

Lemma lands_error {A} (a : A) e text s w rest :
  e <> CSH_ARITH_OK -> lands (Some (a, put_error e (at_text text s), w)) (inl e, s, w) rest.
Proof. intros He. split; [done|]. eexists _, _. split_and!; [done|done|]. apply at_text_fields. Qed.

Lemma constant_nonneg t n : constant t = Some n -> 0 <= n.
Proof.
  intros En. unfold constant in En.
  assert (forall b x, 1 <= b -> base_value b x 0 = Some n -> 0 <= n) as Hb
    by (intros b x ? ?; eapply base_value_ge; eauto; lia).
  repeat case_match; try done;
    match goal with H : base_value ?b ?x 0 = Some _ |- _ => by apply (Hb b x) end.
Qed.

Lemma read_number_lands n text s w : 0 <= n ->
  lands (read_number (constant_value n) (at_text text s) w) (dresult (in_range (Some n)) s w) text.
Proof.
  intros Hn. unfold constant_value, read_number. destruct (n <=? LONG_MAX) eqn:E; bsimp; simpl.
  - by rewrite decide_True by long.
  - rewrite decide_False by (unfold is_long; lia).
    replace (negb _) with true by (by destruct (n =? LONG_MAX + 1)). by apply lands_error.
Qed.

(** The value [text] of a variable, negated after a minus sign. *)
Lemma read_negative_lands n text s w : 0 <= n ->
  lands ((if high (constant_value n) =? 1 then aret LONG_MIN else
          let! minus := adefined (c_neg (number (constant_value n))) in
          read_number (mk_value minus None (high (constant_value n)))) (at_text text s) w)
    (dresult (in_range (Some (- n))) s w) text.
Proof.
  intros Hn. unfold constant_value, c_neg. pose proof long_bounds as [HM HX].
  destruct (n <=? LONG_MAX) eqn:E; bsimp; simpl.
  - rewrite c_long_in, decide_True by long. done.
  - destruct (n =? LONG_MAX + 1) eqn:E'; bsimp; simpl.
    + rewrite decide_True by long. by subst n.
    + rewrite decide_False by long. by apply lands_error.
Qed.

Lemma read_lands v text s w :
  lands (read_value v true (at_text text s) w) (rdv v s w) text.
Proof.
  unfold read_value, abind, aget. destruct (at_text_fields text s) as (Ee & Es & Eo).
  unfold is_ok. rewrite Ee, Es, Eo, bool_decide_eq_true_2 by done. cbn [negb orb]. unfold rdv.
  destruct (vname v) as [n|] eqn:En.
  2:{ unfold read_number. destruct (high v =? 0); simpl; [done|by apply lands_error]. }
  unfold d_read, copy_name, abind, alift. destruct (malloc w) as [[] w1]; cbn [negb].
  2:{ by apply lands_error. }
  unfold aret at 1. destruct (csh_state_get_variable s (Some n)) as [r view]. simpl snd.
  destruct (view_value view) as [[|c t]|].
  - simpl. done.
  - cbn [peek hd tail]. unfold signed_constant. rewrite !literal_constant.
    destruct (c =? 45) eqn:E1; cbn [orb andb].
    + destruct (constant t) as [k|] eqn:Ek; cbn [fmap option_fmap option_map].
      * apply read_negative_lands. by eapply constant_nonneg.
      * by apply lands_error.
    + destruct (c =? 43).
      * destruct (constant t) as [k|] eqn:Ek; cbn [fmap option_fmap option_map];
          [apply read_number_lands; by eapply constant_nonneg|by apply lands_error].
      * destruct (constant (c :: t)) as [k|] eqn:Ek; cbn [fmap option_fmap option_map];
          [apply read_number_lands; by eapply constant_nonneg|by apply lands_error].
  - destruct (opt_on _ _); simpl; [by apply lands_error|done].
Qed.

Lemma read_lands_x ex v text s w : lands (read_value v ex (at_text text s) w) (rdx ex v s w) text.
Proof. destruct ex; [apply read_lands|done]. Qed.

Lemma put_state_at text s s' : put_state s' (at_text text s) = at_text text s'.
Proof. unfold at_text. by destruct (scan (skip_space text)) as [[??]?]. Qed.

Lemma assign_lands n z text s w :
  lands (assign n z (at_text text s) w) (d_assign opts n z s w) text.
Proof.
  unfold assign, d_assign, copy_name, abind, alift, aget.
  destruct (at_text_fields text s) as (Ee & Es & Eo).
  destruct (malloc w) as [[] w1]; cbn [negb]; [|by apply lands_error]. unfold aret at 1.
  rewrite Es, Eo. destruct (csh_state_set_variable s (Some n) _ w1) as [[r s1] w2].
  unfold amodify, set_error. destruct (_ && _).
  - destruct (csh_state_update_attributes s1 (Some n) _ _ w2) as [[r' s2] w3]. rewrite put_state_at.
    destruct r'; try (by apply lands_error). done.
  - unfold aret at 1. rewrite put_state_at. destruct r; try (by apply lands_error). done.
Qed.

(** *** Facts about the meaning *)

Definition d_ok (d : (csh_arith_result + Z) * csh_state * proc) : Prop :=
  match d.1.1 with inl e => e <> CSH_ARITH_OK | inr z => is_long z end.

Lemma dresult_ok o s w : d_ok (dresult (in_range o) s w).
Proof. destruct o as [z|]; simpl; [|done]. by destruct (decide (is_long z)). Qed.

Lemma dbind_ok {A} (m : D A) (f : A -> D Z) s w :
  (forall e s' w', m s w = (inl e, s', w') -> e <> CSH_ARITH_OK) ->
  (forall a s' w', m s w = (inr a, s', w') -> d_ok (f a s' w')) -> d_ok (dbind m f s w).
Proof. intros He Hf. unfold dbind. destruct (m s w) as [[[e|a] s1] w1]; [by eapply He|by apply Hf]. Qed.

Lemma d_ok_error (m : D Z) s w e s' w' : d_ok (m s w) -> m s w = (inl e, s', w') -> e <> CSH_ARITH_OK.
Proof. unfold d_ok. by intros H1 E; rewrite E in H1. Qed.

Lemma dbind_ok_Z (m : D Z) (f : Z -> D Z) s w :
  d_ok (m s w) -> (forall a s' w', is_long a -> d_ok (f a s' w')) -> d_ok (dbind m f s w).
Proof.
  intros Hm Hf. apply dbind_ok; [by intros *; apply d_ok_error|]. intros a s' w' E. apply Hf.
  unfold d_ok in Hm. by rewrite E in Hm.
Qed.

Lemma d_read_ok n s w : d_ok (d_read opts n s w).
Proof.
  unfold d_read. destruct (malloc w) as [[] w1]; [|done]. cbn [negb].
  destruct (view_value _) as [t|]; [|by destruct (opt_on _ _)].
  destruct (signed_constant t); [apply dresult_ok|done].
Qed.

Lemma d_assign_error n z s w e s' w' : d_assign opts n z s w = (inl e, s', w') -> e <> CSH_ARITH_OK.
Proof.
  unfold d_assign. destruct (malloc w) as [[] w1]; [|by intros [= <- _ _]]. cbn [negb].
  destruct (csh_state_set_variable s (Some n) _ w1) as [[r s1] w2].
  destruct (_ && _); [destruct (csh_state_update_attributes s1 (Some n) _ _ w2) as [[r' s2] w3]|];
    repeat case_match; by intros [= <- _ _].
Qed.

Lemma denote_ok e s w : d_ok (denote opts e s w).
Proof.
  revert s w. induction e; intros s w; cbn [denote].
  - apply dresult_ok.
  - apply d_read_ok.
  - destruct (_ && _); [done|]. apply dbind_ok_Z; [done|]. intros. apply dresult_ok.
  - apply dbind_ok_Z; [done|]. intros x s1 w1 _. destruct (_ && _); [done|].
    destruct (_ && _); [done|]. apply dbind_ok_Z; [done|]. intros. apply dresult_ok.
  - apply dbind_ok_Z; [done|]. intros x s1 w1 _. by destruct (negb _).
  - apply dbind_ok_Z; [destruct (token_eqb _ _); [done|apply d_read_ok]|]. intros x s1 w1 _.
    apply dbind_ok_Z; [done|]. intros y s2 w2 Hy.
    apply dbind_ok_Z; [destruct (token_eqb _ _); [done|apply dresult_ok]|]. intros z s3 w3 Hz.
    apply dbind_ok; [apply d_assign_error|]. done.
Qed.

(** What the evaluator holds of an expression whose value was not needed. *)
Fixpoint skipped (e : expr) : value :=
  match e with
  | ENum t => constant_value (default 0 (constant t))
  | EVar n => mk_value 0 (Some n) 0
  | EUnary _ e => of_number (number (skipped e))
  | _ => zero_value
  end.

Definition delayed (e : expr) : bool :=
  match e with ENum _ | EVar _ => true | _ => false end.

(** The value record and the number of an expression. *)
Definition dval (ex : bool) (e : expr) : D value :=
  if negb ex || delayed e then dret (skipped e)
  else let? z := denote opts e in dret (of_number z).

Definition dnum (ex : bool) (e : expr) : D Z := if ex then denote opts e else dret 0.

Lemma dnum_ok ex e s w : d_ok (dnum ex e s w).
Proof. destruct ex; [apply denote_ok|done]. Qed.

Lemma dbind_assoc {A B C} (m : D A) (f : A -> D B) (g : B -> D C) s w :
  dbind (dbind m f) g s w = dbind m (fun a => dbind (f a) g) s w.
Proof. unfold dbind. by destruct (m s w) as [[[e|a] s1] w1]. Qed.

Lemma dbind_ext {A B} (m m' : D A) (f f' : A -> D B) s w :
  m s w = m' s w -> (forall a s' w', f a s' w' = f' a s' w') -> dbind m f s w = dbind m' f' s w.
Proof. intros Hm Hf. unfold dbind. rewrite Hm. by destruct (m' s w) as [[[e|a] s1] w1]. Qed.

Lemma dbind_ret {A} (m : D A) s w : dbind m dret s w = m s w.
Proof. unfold dbind. by destruct (m s w) as [[[e|a] s1] w1]. Qed.

Lemma dval_rdx ex e s w : wf_expr e -> (let? v := dval ex e in rdx ex v) s w = dnum ex e s w.
Proof.
  intros Hwf. unfold dval, dnum, rdx. destruct ex; [|done]. destruct e as [t|n|? ?|? ? ?|? ? ?|? ? ?];
    cbn [negb orb delayed]; try (rewrite dbind_assoc; apply dbind_ret).
  - cbn [skipped denote]. destruct Hwf as [k Hk]. simpl in Hk. rewrite Hk. simpl.
    unfold rdv, constant_value. apply constant_nonneg in Hk.
    destruct (k <=? LONG_MAX) eqn:E; bsimp; simpl.
    + by rewrite decide_True by long.
    + rewrite decide_False by (unfold is_long; lia). by destruct (k =? LONG_MAX + 1).
  - done.
Qed.

(** *** Errors pass through *)

Lemma not_ok e : e <> CSH_ARITH_OK -> is_ok e = false.
Proof. apply bool_decide_eq_false_2. Qed.

Lemma read_passes v ex p w : a_error p <> CSH_ARITH_OK -> read_value v ex p w = Some (0, p, w).
Proof. intros Hp. unfold read_value, abind, aget. by rewrite not_ok, orb_true_r. Qed.

Lemma expression_passes f min ex p w :
  a_error p <> CSH_ARITH_OK -> expression (S f) min ex p w = Some (zero_value, p, w).
Proof. intros Hp. cbn [expression]. unfold abind, aget. by rewrite not_ok. Qed.

Lemma loop_passes f min ex v p w :
  a_error p <> CSH_ARITH_OK -> expression_loop (S f) min ex v p w = Some (v, p, w).
Proof. intros Hp. cbn [expression_loop]. unfold abind, aget. by rewrite not_ok. Qed.

Lemma binary_passes f t v lhs ex p w :
  a_error p <> CSH_ARITH_OK -> binary (expression (S f)) t v lhs ex p w = Some (zero_value, p, w).
Proof.
  intros Hp. unfold binary, abind, aget. rewrite expression_passes, read_passes by done.
  by rewrite not_ok, andb_false_r.
Qed.

Lemma conditional_passes f ex lhs p w :
  a_error p <> CSH_ARITH_OK -> conditional (expression (S f)) ex lhs p w = Some (None, p, w).
Proof.
  intros Hp. unfold conditional, abind, aget. rewrite expression_passes, read_passes by done.
  by rewrite not_ok.
Qed.

(** *** One step of the evaluator on printed text *)

Lemma expression_at f min ex text s w :
  expression (S f) min ex (at_text text s) w =
  (let! v := primary (expression f) ex in expression_loop f min ex v) (at_text text s) w.
Proof.
  cbn [expression]. unfold abind at 1 2, aget.
  destruct (at_text_fields text s) as (-> & _). cbn [is_ok negb].
  unfold csh_stack_check, at_text. by destruct (scan (skip_space text)) as [[??]?].
Qed.

Lemma loop_stops f min ex v text s w : head_prec text < min ->
  expression_loop (S f) min ex v (at_text text s) w = Some (v, at_text text s, w).
Proof.
  intros Hlt. cbn [expression_loop]. unfold abind, aget. rewrite head_prec_at, Z.geb_leb.
  replace (min <=? head_prec text) with false by (symmetry; bsimp; lia). by rewrite andb_false_r.
Qed.

Lemma loop_steps f min ex v text t o rest s w :
  token_at text t o rest -> min <= precedence t ->
  (precedence t = 2 -> is_Some (vname v)) ->
  expression_loop (S f) min ex v (at_text text s) w =
  (let! lhs := (if negb (token_eqb t TOK_ASSIGN) then read_value v ex else aret 0) in
   if token_eqb t TOK_QUESTION then
     let! selected := conditional (expression f) ex lhs in
     match selected with None => aret v | Some v => expression_loop f min ex v end
   else
     let! v := binary (expression f) t v lhs ex in expression_loop f min ex v)
    (at_text rest s) w.
Proof.
  intros Ht Hmin Hname. cbn [expression_loop]. unfold abind at 1 2, aget.
  rewrite head_prec_at, (head_prec_token _ _ _ _ Ht), Z.geb_leb.
  replace (min <=? precedence t) with true by (symmetry; bsimp; lia).
  destruct (at_text_fields text s) as (-> & _). 
  change (is_ok CSH_ARITH_OK) with true. cbn [negb andb].
  cbn beta. rewrite (next_token_at _ _ _ _ _ _ Ht).
  rewrite (token_of _ _ _ _ s Ht).
  replace ((precedence t =? 2) && bool_decide (vname v = None)) with false; [done|].
  symmetry. destruct (precedence t =? 2) eqn:E; [|done]. apply Z.eqb_eq in E. destruct (Hname E) as [n ->]. done.
Qed.

(** *** Primaries *)

Lemma constant_bytes t n : constant t = Some n ->
  exists c r, t = c :: r /\ digit c = true /\ Forall (fun c => name_byte c = true) t.
Proof.
  assert (forall b x acc k, base_value b x acc = Some k -> Forall (fun c => name_byte c = true) x) as Hb.
  { intros b x. induction x as [|c x IH]; intros acc k Hk; [constructor|]. simpl in Hk.
    destruct (_ && _) eqn:E; [|done]. bsimp. constructor; [|by eapply IH].
    destruct E as [E _]. unfold digit_value in E. unfold name_byte, name_start, digit, between in *.
    repeat case_match; try lia; bsimp; destruct_and?; bsimp; rewrite ?orb_true_iff, ?andb_true_iff; bsimp; lia. }
  intros H0. destruct t as [|c r]; [done|]. exists c, r. split; [done|]. unfold constant in H0.
  destruct (c =? 48) eqn:E0; bsimp.
  - subst c. split; [done|]. destruct r as [|x hex]; [by repeat constructor|].
    destruct ((x =? 120) || (x =? 88)) eqn:Ex; bsimp; [|by eapply Hb].
    destruct hex as [|h hex]; [done|]. apply Hb in H0. constructor; [done|].
    constructor; [|done]. by destruct Ex as [-> | ->].
  - split; [|by eapply Hb]. simpl in H0. destruct (_ && _) eqn:E; [|done].
    unfold digit_value in E. destruct (digit c) eqn:Ed; [done|]. exfalso. bsimp.
    unfold between in *. repeat case_match; bsimp; lia.
Qed.

Lemma valid_name_bytes n : valid_name n = true ->
  exists c r, n = c :: r /\ digit c = false /\ name_byte c = true /\ Forall (fun c => name_byte c = true) r.
Proof.
  destruct n as [|c r]; [done|]. simpl. rewrite andb_true_iff. intros [Hc Hr]. exists c, r.
  split_and!; [done| |by unfold name_byte; rewrite Hc|].
  - unfold name_start, digit, between in *. apply not_true_is_false. intros Hd. bsimp.
    lia.
  - rewrite forallb_forall in Hr. apply Forall_forall. intros x Hx. apply list_elem_of_In in Hx.
    apply Hr in Hx. done.
Qed.

Lemma primary_number e ex text o rest k s w : token_at text TOK_NUMBER o rest -> constant o = Some k ->
  primary e ex (at_text text s) w = Some (constant_value k, at_text rest s, w).
Proof.
  intros Ht Hk. unfold primary. unfold abind at 1, aget.
  rewrite (token_of _ _ _ _ s Ht), (spelling_of _ _ _ _ s Ht), literal_constant, Hk.
  cbn [fmap option_fmap option_map aret]. unfold abind, aret. by rewrite (next_token_at _ _ _ _ _ _ Ht).
Qed.

Lemma primary_name e ex text o rest s w : token_at text TOK_NAME o rest ->
  primary e ex (at_text text s) w = Some (mk_value 0 (Some o) 0, at_text rest s, w).
Proof.
  intros Ht. unfold primary. unfold abind at 1, aget.
  rewrite (token_of _ _ _ _ s Ht), (spelling_of _ _ _ _ s Ht).
  unfold abind. by rewrite (next_token_at _ _ _ _ _ _ Ht).
Qed.

Lemma primary_unary e ex text t o rest s w : token_at text t o rest -> is_unary t = true ->
  primary e ex (at_text text s) w = (let! v := e 14 ex in unary t v ex) (at_text rest s) w.
Proof.
  intros Ht Hu. unfold primary. unfold abind at 1, aget.
  rewrite (token_of _ _ _ _ s Ht). destruct t; try done; unfold abind at 1; by rewrite (next_token_at _ _ _ _ _ _ Ht).
Qed.

(** The rest of [primary] behind a parenthesized expression. *)
Definition close_paren (v : value) : AM value :=
  let! q := aget in
  (if is_ok (a_error q) then
     if token_eqb (a_token q) TOK_RPAREN then next_token else syntax_here
   else aret tt) >>> aret v.

Lemma primary_paren e ex text o rest s w : token_at text TOK_LPAREN o rest ->
  primary e ex (at_text text s) w = (let! v := e 1 ex in close_paren v) (at_text rest s) w.
Proof.
  intros Ht. unfold primary. unfold abind at 1, aget.
  rewrite (token_of _ _ _ _ s Ht).
  unfold abind at 1. by rewrite (next_token_at _ _ _ _ _ _ Ht).
Qed.

Lemma close_paren_at v text o rest s w : token_at text TOK_RPAREN o rest ->
  close_paren v (at_text text s) w = Some (v, at_text rest s, w).
Proof.
  intros Ht. unfold close_paren, abind, aget. destruct (at_text_fields text s) as (-> & _).
  rewrite (token_of _ _ _ _ s Ht).
  change (is_ok CSH_ARITH_OK) with true. change (token_eqb TOK_RPAREN TOK_RPAREN) with true. cbn iota.
  by rewrite (next_token_at _ _ _ _ _ _ Ht).
Qed.

Lemma close_paren_passes : passes close_paren.
Proof. intros v p w Hp. exists v. unfold close_paren, abind, aget. by rewrite not_ok. Qed.

Definition dunary (t : token) (ex : bool) (v : value) : D value :=
  if ex then
    if token_eqb t TOK_SUB && bool_decide (vname v = None) && (high v =? 1)
    then dret (of_number LONG_MIN)
    else let? x := rdv v in
         let? z := dresult (in_range (unary_exact t x)) in dret (of_number z)
  else dret (of_number (number v)).

Lemma lnot_long x : is_long x -> is_long (Z.lnot x).
Proof. unfold Z.lnot. long. Qed.

Lemma rdv_long v s w x s' w' : value_ok v -> rdv v s w = (inr x, s', w') -> is_long x.
Proof.
  intros Hv. unfold rdv. destruct (vname v) as [n|].
  - intros E. pose proof (d_read_ok n s w) as Hr. unfold d_ok in Hr. by rewrite E in Hr.
  - destruct (high v =? 0); [by intros [= <- _ _]|done].
Qed.

Lemma unary_passes t ex : passes (fun v => unary t v ex).
Proof.
  intros v p w Hp. eexists. unfold unary, abind, aget. by rewrite not_ok, andb_false_r.
Qed.

(** The code of [unary] behind the read of its operand. *)
Definition apply_unary (t : token) (v : value) (n : Z) : AM value :=
  if token_eqb t TOK_SUB && (n =? LONG_MIN) then set_error CSH_ARITH_RANGE >>> aret v
  else if token_eqb t TOK_SUB then
    let! m := adefined (c_neg n) in aret (with_number v m)
  else if token_eqb t TOK_NOT then aret (with_number v (of_bool (n =? 0)))
  else if token_eqb t TOK_INV then aret (with_number v (Z.lnot n))
  else aret (with_number v n).

Lemma apply_unary_lands t v n text s w : is_unary t = true -> is_long n ->
  lands ((let! v := apply_unary t v n in aret (of_number (number v))) (at_text text s) w)
    ((let? z := dresult (in_range (unary_exact t n)) in dret (of_number z)) s w) text.
Proof.
  intros Ht Hn. unfold apply_unary, abind. destruct t; try done; cbn [unary_exact].
  - by rewrite in_range_in by done.
  - change (token_eqb TOK_SUB TOK_SUB) with true. cbn [andb].
    destruct (n =? LONG_MIN) eqn:E; bsimp.
    + subst n. by apply lands_error.
    + unfold c_neg. by rewrite c_long_in, in_range_in by long.
  - by rewrite in_range_in by apply of_bool_long.
  - by rewrite in_range_in by (by apply lnot_long).
Qed.

(** A failed read gives 0. *)
Lemma read_error_zero v ex p w n p' w' :
  read_value v ex p w = Some (n, p', w') -> a_error p' <> CSH_ARITH_OK ->
  a_error p = CSH_ARITH_OK -> n = 0.
Proof.
  assert (forall (u : value) q w1, read_number u q w1 = Some (n, p', w') ->
    a_error p' <> CSH_ARITH_OK -> a_error q = CSH_ARITH_OK -> n = 0) as Hnum.
  { intros u q w1. unfold read_number, abind, set_error, amodify, aret.
    destruct (negb _); intros; by simplify_eq. }
  unfold read_value, abind, aget. intros E Hp' Hp. rewrite Hp in E.
  destruct (negb ex || _); [unfold aret in E; by simplify_eq|].
  destruct (vname v) as [name|]; [|by eapply Hnum].
  unfold copy_name, abind, alift, set_error, amodify, aret, adefined in E.
  destruct (malloc w) as [[] w1]; [|by simplify_eq].
  destruct (csh_state_get_variable (a_state p) (Some name)) as [r view].
  destruct (view_value view) as [[|c t]|]; [by simplify_eq| |destruct (opt_on _ _); by simplify_eq].
  cbv zeta in E. destruct (literal _) as [u|]; [|by simplify_eq].
  destruct (peek (c :: t) =? 45); [|by eapply Hnum; [exact E|..]].
  destruct (high u =? 1); cbn [andb] in E; [by simplify_eq|].
  destruct (c_neg (number u)) ; [|done].
  by eapply Hnum; [exact E|..].
Qed.

Lemma unary_lands t ex v text s w : is_unary t = true -> value_ok v ->
  lands (unary t v ex (at_text text s) w) (dunary t ex v s w) text.
Proof.
  intros Ht Hv. unfold unary. unfold abind at 1, aget. destruct (at_text_fields text s) as (Ee & _).
  rewrite Ee. change (is_ok CSH_ARITH_OK) with true. rewrite andb_true_r. unfold dunary.
  destruct ex; [|done]. destruct (_ && (high v =? 1)); [done|].
  fold (apply_unary t v). rewrite abind_assoc. pose proof (read_lands v text s w) as Hr.
  unfold abind at 1, dbind at 1. destruct (rdv v s w) as [[[e|x] s1] w1] eqn:Ex; simpl in Hr.
  - destruct Hr as (He & a & p' & E & Hp & Hs). rewrite E.
    assert (a = 0) as -> by (by eapply read_error_zero; [exact E|congruence|done]).
    split; [done|]. unfold apply_unary, abind. destruct t; try done; eexists _, p'; split_and!; done.
  - rewrite Hr. apply apply_unary_lands; [done|]. by eapply rdv_long.
Qed.

(** *** Computations with enough fuel *)

Definition grows {A} (m : nat -> AM A) : Prop := forall f f', (f <= f')%nat -> mle (m f) (m f').

Definition ev {A} (m : nat -> AM A) (p : parser) (w : proc)
    (d : (csh_arith_result + A) * csh_state * proc) (rest : str) : Prop :=
  exists f, lands (m f p w) d rest.

Lemma ev_bind {A B} (m : nat -> AM A) (k : nat -> A -> AM B) (d : D A) (g : A -> D B) p s w rest rest' :
  grows m -> (forall a, grows (fun f => k f a)) -> (forall f, passes (k (S f))) ->
  ev m p w (d s w) rest ->
  (forall a s' w', d s w = (inr a, s', w') -> ev (fun f => k f a) (at_text rest s') w' (g a s' w') rest') ->
  ev (fun f => abind (m f) (k f)) p w (dbind d g s w) rest'.
Proof.
  intros Hm Hk Hp [f1 H1] Hg. destruct (d s w) as [[[e|a] s1] w1] eqn:Ed.
  - exists (S f1). eapply lands_bind; [|apply Hp|by intros; congruence].
    rewrite Ed. eapply lands_mono; [apply (Hm f1); lia|exact H1].
  - destruct (Hg a s1 w1 eq_refl) as [f2 H2]. exists (S (Nat.max f1 f2)).
    eapply lands_bind; [|apply Hp|].
    + rewrite Ed. eapply lands_mono; [apply (Hm f1); lia|exact H1].
    + rewrite Ed. intros a' s' w' [= <- <- <-]. eapply (lands_mono (k f2 a)); [apply Hk; lia|exact H2].
Qed.

Lemma ev_const {A} (m : AM A) p w d rest : lands (m p w) d rest -> ev (fun _ => m) p w d rest.
Proof. intros Hm. by exists O. Qed.

Lemma grows_const {A} (m : AM A) : grows (fun _ => m).
Proof. intros f f' _. apply mle_refl. Qed.

Lemma grows_bind {A B} (m : nat -> AM A) (k : nat -> A -> AM B) :
  grows m -> (forall a, grows (fun f => k f a)) -> grows (fun f => abind (m f) (k f)).
Proof. intros Hm Hk f f' Hf. apply mle_bind; [by apply Hm|]. intros a. by apply Hk. Qed.

Lemma grows_expression min ex : grows (fun f => expression f min ex).
Proof. intros f f' Hf. by apply expression_mono. Qed.

Lemma grows_loop min ex v : grows (fun f => expression_loop f min ex v).
Proof. intros f f' Hf. by apply loop_mono. Qed.

Lemma grows_binary t v lhs ex : grows (fun f => binary (expression f) t v lhs ex).
Proof. intros f f' Hf. apply binary_mono. intros. by apply expression_mono. Qed.

Lemma grows_conditional ex lhs : grows (fun f => conditional (expression f) ex lhs).
Proof. intros f f' Hf. apply conditional_mono. intros. by apply expression_mono. Qed.

(** One more call level around a computation. *)
Lemma ev_step {A} (m m' : nat -> AM A) p p' w w' d rest :
  (forall f, m (S f) p w = m' f p' w') -> ev m' p' w' d rest -> ev m p w d rest.
Proof. intros E [f Hf]. exists (S f). by rewrite E. Qed.

(** *** The simulation *)

Definition follow (lev : Z) (rest : str) : Prop :=
  head_prec rest < lev \/ (head_prec rest = lev /\ lev <> 2 /\ lev <> 3).

(** The evaluator, started on a text of [e] that binds at level [lev], arrives
    in its loop with the value of [e], before the rest of the text. *)
Definition sim (e : expr) (text : str) (lev : Z) : Prop :=
  forall min ex rest s w (K : value -> D value) rest',
    1 <= min <= lev -> sep rest -> follow lev rest ->
    (forall v s' w', dval ex e s w = (inr v, s', w') ->
       ev (fun f => expression_loop f min ex v) (at_text rest s') w' (K v s' w') rest') ->
    ev (fun f => expression f min ex) (at_text (text ++ rest) s) w
      (dbind (dval ex e) K s w) rest'.

Lemma sim_weaken e text lev m : m <= lev -> sim e text lev -> sim e text m.
Proof.
  intros Hm Hs min ex rest s w K rest' Hmin Hsep Hf HK. apply Hs; try done; [lia|].
  unfold follow in *. lia.
Qed.

(** With no operator behind it, the expression is all that is evaluated. *)
Lemma sim_value e text lev min ex rest s w :
  sim e text lev -> 1 <= min <= lev -> sep rest -> head_prec rest < min ->
  ev (fun f => expression f min ex) (at_text (text ++ rest) s) w (dval ex e s w) rest.
Proof.
  intros Hs Hmin Hsep Hp. rewrite <- (dbind_ret (dval ex e)). apply Hs; try done.
  - left. lia.
  - intros v s' w' _. exists 1%nat. by rewrite loop_stops.
Qed.

Lemma sim_operand e text lev min ex rest s w :
  sim e text lev -> wf_expr e -> 1 <= min <= lev -> sep rest -> head_prec rest < min ->
  ev (fun f => let! v := expression f min ex in read_value v ex) (at_text (text ++ rest) s) w
    (dnum ex e s w) rest.
Proof.
  intros Hs Hwf Hmin Hsep Hp. rewrite <- dval_rdx by done. eapply ev_bind.
  - apply grows_expression.
  - intros a. apply grows_const.
  - intros f v p w' Hw. exists 0. by apply read_passes.
  - by apply (sim_value e text lev).
  - intros v s' w' _. apply ev_const, read_lands_x.
Qed.

Lemma sim_of_primary e text lev :
  (forall ex rest s w, sep rest ->
     ev (fun f => primary (expression f) ex) (at_text (text ++ rest) s) w (dval ex e s w) rest) ->
  sim e text lev.
Proof.
  intros Hpr min ex rest s w K rest' Hmin Hsep _ HK.
  eapply (ev_step _ (fun f => let! v := primary (expression f) ex in expression_loop f min ex v)).
  { intros f. apply expression_at. }
  eapply ev_bind.
  - intros f f' Hf. apply primary_mono. intros. by apply expression_mono.
  - intros v. apply grows_loop.
  - intros f v p w' Hp. exists v. by apply loop_passes.
  - by apply Hpr.
  - exact HK.
Qed.

Lemma printed_op t : t ∈ printed_ops <-> existsb (token_eqb t) printed_ops = true.
Proof.
  rewrite existsb_exists. split.
  - intros Ht. exists t. split; [by apply list_elem_of_In|]. by apply bool_decide_eq_true_2.
  - intros (x & Hx & E). unfold token_eqb in E. bsimp. subst. by apply list_elem_of_In.
Qed.

Lemma op_at' t rest : existsb (token_eqb t) printed_ops = true -> sep rest ->
  token_at (tok (op_text t) ++ rest) t (op_text t) rest.
Proof. intros Ht. apply op_at. by apply printed_op. Qed.

Lemma sep_tok o rest : sep (tok o ++ rest).
Proof. right. by eexists. Qed.

Lemma sim_paren e text lev : sim e text lev -> 1 <= lev -> (exists r, text = ch " " :: r) ->
  sim e (tok (op_text TOK_LPAREN) ++ text ++ tok (op_text TOK_RPAREN)) 14.
Proof.
  intros Hs Hlev [r Hr]. apply sim_of_primary. intros ex rest s w Hsep. rewrite <- !app_assoc.
  pose proof (op_at' TOK_RPAREN rest eq_refl Hsep) as Hclose.
  assert (sep (text ++ tok (op_text TOK_RPAREN) ++ rest)) as Hsep' by (subst; right; by eexists).
  pose proof (op_at' TOK_LPAREN _ eq_refl Hsep') as Hopen.
  assert (ev (fun f => let! v := expression f 1 ex in close_paren v)
    (at_text (text ++ tok (op_text TOK_RPAREN) ++ rest) s) w ((let? v := dval ex e in dret v) s w) rest) as Hev.
  { eapply ev_bind.
    - apply grows_expression.
    - intros v. apply grows_const.
    - intros f. apply close_paren_passes.
    - apply (sim_value e text lev); [done|lia|apply sep_tok|].
      by rewrite (head_prec_token _ _ _ _ Hclose).
    - intros v s' w' _. apply ev_const. by rewrite (close_paren_at _ _ _ _ _ _ Hclose). }
  rewrite dbind_ret in Hev. destruct Hev as [f Hf]. exists f.
  by rewrite (primary_paren _ _ _ _ _ _ _ Hopen).
Qed.

Lemma sim_num t : is_Some (constant t) -> sim (ENum t) (tok t) 14.
Proof.
  intros [k Hk]. apply sim_of_primary. intros ex rest s w Hsep. exists O.
  destruct (constant_bytes t k Hk) as (c & r & -> & Hd & Hall). apply Forall_cons in Hall as [Hc Hr].
  pose proof (word_at c r rest Hc Hr Hsep) as Ht. rewrite Hd in Ht.
  rewrite (primary_number _ _ _ _ _ k s w Ht Hk). unfold dval. cbn [delayed skipped]. rewrite orb_true_r, Hk.
  done.
Qed.

Lemma sim_var n : valid_name n = true -> sim (EVar n) (tok n) 14.
Proof.
  intros Hn. apply sim_of_primary. intros ex rest s w Hsep. exists O.
  destruct (valid_name_bytes n Hn) as (c & r & -> & Hd & Hc & Hr).
  pose proof (word_at c r rest Hc Hr Hsep) as Ht. rewrite Hd in Ht.
  rewrite (primary_name _ _ _ _ _ s w Ht). unfold dval. cbn [delayed]. by rewrite orb_true_r.
Qed.

Lemma skipped_ok e : wf_expr e -> value_ok (skipped e).
Proof.
  induction e; simpl; intros Hwf; try done.
  - destruct Hwf as [k Hk]. rewrite Hk. apply constant_nonneg in Hk. simpl.
    unfold value_ok, constant_value. destruct (k <=? LONG_MAX) eqn:E; bsimp; simpl; [long|done].
  - apply IHe, Hwf.
Qed.

Lemma dval_ok ex e s w v s' w' : wf_expr e -> dval ex e s w = (inr v, s', w') -> value_ok v.
Proof.
  intros Hwf. unfold dval. destruct (negb ex || _).
  - intros [= <- _ _]. by apply skipped_ok.
  - pose proof (denote_ok e s w) as Hd. unfold d_ok, dbind in *.
    destruct (denote opts e s w) as [[[er|z] s1] w1]; intros [= <- _ _]. done.
Qed.

Lemma dval_computed e s w v s' w' : delayed e = false ->
  dval true e s w = (inr v, s', w') -> exists z, v = of_number z.
Proof.
  intros Hd. unfold dval. rewrite Hd. cbn [negb orb]. unfold dbind, dret.
  destruct (denote opts e s w) as [[[er|z] s1] w1]; intros [= <- _ _]. by exists z.
Qed.

(** Only the constant one above [LONG_MAX] has its mark. *)
Lemma min_literal_value e s w v s' w' : wf_expr e -> dval true e s w = (inr v, s', w') ->
  bool_decide (vname v = None) && (high v =? 1) = is_min_literal e.
Proof.
  intros Hwf Ev. destruct (delayed e) eqn:Hd.
  - unfold dval in Ev. rewrite Hd in Ev. unfold dret in Ev. cbn [negb orb] in Ev. simplify_eq.
    destruct e as [t|n|? ?|? ? ?|? ? ?|? ? ?]; try done. destruct Hwf as [k Hk]. simpl in Hk.
    cbn [skipped is_min_literal]. rewrite Hk. cbn [default from_option]. unfold constant_value, id.
    pose proof long_bounds. destruct (k <=? LONG_MAX) eqn:E; bsimp; cbn [vname high].
    + rewrite andb_false_r, bool_decide_eq_false_2; [done|]. intros [= ?]. lia.
    + destruct (k =? LONG_MAX + 1) eqn:E'; bsimp.
      * by rewrite E', !bool_decide_eq_true_2.
      * rewrite andb_false_r, bool_decide_eq_false_2; [done|]. by intros [= ?].
  - destruct (dval_computed e s w v s' w' Hd Ev) as [z ->]. transitivity false; [by apply andb_false_intro2|by destruct e].
Qed.

Lemma dval_unary ex t e s w : wf_expr e ->
  (let? v := dval ex e in dunary t ex v) s w = dval ex (EUnary t e) s w.
Proof.
  intros Hwf. unfold dval at 2. cbn [delayed]. rewrite orb_false_r. destruct ex; [|done].
  cbn [negb denote]. pose proof (dval_rdx true e s w Hwf) as Hr. unfold dnum, rdx in Hr.
  unfold dbind at 1. unfold dbind in Hr. destruct (dval true e s w) as [[[er|v] s1] w1] eqn:Ev.
  - destruct (_ && is_min_literal e) eqn:Em.
    + bsimp. destruct Em as [_ Em]. by destruct e.
    + rewrite dbind_assoc. unfold dbind. by rewrite <- Hr.
  - unfold dunary. rewrite <- andb_assoc, (min_literal_value e s w v s1 w1 Hwf Ev).
    destruct (_ && is_min_literal e) eqn:Em.
    + bsimp. destruct Em as [_ Em]. destruct e; try done. unfold dval, dret in Ev.
      cbn [negb orb delayed] in Ev. by simplify_eq.
    + rewrite dbind_assoc. unfold dbind at 1 3. by rewrite <- Hr.
Qed.

Lemma print_blank m e : exists r, print m e = ch " " :: r.
Proof.
  revert m. induction e; intros m; cbn [print]; destruct (_ <? m); try (by eexists);
    match goal with IH : forall m, exists r, print m ?a = _ |- context [print ?k ?a ++ _] =>
      destruct (IH k) as [r ->]; by eexists end.
Qed.

Lemma sep_print m e rest : sep (print m e ++ rest).
Proof. destruct (print_blank m e) as [r ->]. right. by eexists. Qed.

Lemma prec_max t : precedence t <= 13.
Proof. by destruct t. Qed.

Lemma head_prec_max text : head_prec text < 14.
Proof. unfold head_prec. pose proof (prec_max (scan (skip_space text)).1.1). lia. Qed.

Lemma sim_unary t e : is_unary t = true -> wf_expr e -> sim e (print 14 e) 14 ->
  sim (EUnary t e) (tok (op_text t) ++ print 14 e) 14.
Proof.
  intros Ht Hwf Hs. apply sim_of_primary. intros ex rest s w Hsep. rewrite <- app_assoc.
  assert (token_at (tok (op_text t) ++ print 14 e ++ rest) t (op_text t) (print 14 e ++ rest)) as Hop.
  { apply op_at'; [by destruct t|apply sep_print]. }
  assert (ev (fun f => let! v := expression f 14 ex in unary t v ex)
    (at_text (print 14 e ++ rest) s) w (dval ex (EUnary t e) s w) rest) as [f Hf].
  { rewrite <- dval_unary by done. eapply ev_bind.
    - apply grows_expression.
    - intros v. apply grows_const.
    - intros f. apply unary_passes.
    - apply (sim_value e (print 14 e) 14); [done|lia|done|apply head_prec_max].
    - intros v s' w' Hv. apply ev_const, unary_lands; [done|]. by eapply dval_ok. }
  exists f. by rewrite (primary_unary _ _ _ _ _ _ _ _ Hop).
Qed.

(** *** Binary operators and assignments *)

Definition dbinary (ex : bool) (t : token) (lhs : Z) (b : expr) : D value :=
  let rex := ex && negb (token_eqb t TOK_AND && (lhs =? 0))
                && negb (token_eqb t TOK_OR && negb (lhs =? 0)) in
  let? rhs := dnum rex b in
  if ex then let? z := dresult (in_range (exact t lhs rhs)) in dret (of_number z)
  else dret zero_value.

Lemma operation_lands t l r text s w : is_long l -> is_long r -> is_operator t = true ->
  lands (operation t l r (at_text text s) w) (dresult (in_range (exact t l r)) s w) text.
Proof.
  intros Hl Hr Ht. unfold operation, abind. rewrite operate_exact by done. cbn [adefined aret].
  assert (forall e, in_range (exact t l r) = inl e -> e <> CSH_ARITH_OK) as He.
  { unfold in_range. intros e. destruct (exact t l r); [destruct (decide _)|]; by intros [= <-]. }
  destruct (in_range _) as [e|z]; [|done]. apply lands_error, He. done.
Qed.

Lemma operator_level t : is_operator t = true -> precedence t <> 2 /\ precedence t <> 3 /\
  1 <= precedence t /\ t <> TOK_QUESTION /\ t <> TOK_ASSIGN /\
  existsb (token_eqb t) printed_ops = true.
Proof. by destruct t. Qed.

Lemma ev_assoc {A B C} (m : nat -> AM A) (f : nat -> A -> AM B) (g : nat -> B -> AM C) p w d rest :
  ev (fun n => abind (abind (m n) (f n)) (g n)) p w d rest ->
  ev (fun n => abind (m n) (fun a => abind (f n a) (g n))) p w d rest.
Proof. intros [n Hn]. exists n. by rewrite <- abind_assoc. Qed.

Lemma binary_lands t v lhs ex b rest s w :
  is_operator t = true -> is_long lhs -> wf_expr b ->
  sim b (print (precedence t + 1) b) (precedence t + 1) -> sep rest -> head_prec rest <= precedence t ->
  ev (fun f => binary (expression f) t v lhs ex) (at_text (print (precedence t + 1) b ++ rest) s) w
    (dbinary ex t lhs b s w) rest.
Proof.
  intros Ht Hl Hwf Hs Hsep Hp. destruct (operator_level t Ht) as (Hn2 & _ & H1 & _).
  unfold binary. replace (precedence t =? 2) with false by (symmetry; bsimp; lia). cbn iota.
  apply ev_assoc. unfold dbinary. set (rex := ex && _ && _). eapply ev_bind.
  - apply grows_bind; [apply grows_expression|intros a; apply grows_const].
  - intros a. apply grows_const.
  - intros f a p w' Hw. eexists. unfold abind, aget. by rewrite not_ok, andb_false_r.
  - apply (sim_operand b _ (precedence t + 1)); [done..|lia|done|lia].
  - intros rhs s' w' Hr. apply ev_const. unfold abind at 1, aget.
    destruct (at_text_fields rest s') as (-> & _). change (is_ok CSH_ARITH_OK) with true.
    rewrite andb_true_r. destruct ex; [|done].
    assert (is_long rhs).
    { pose proof (dnum_ok rex b s w) as Hd. unfold d_ok in Hd. by rewrite Hr in Hd. }
    eapply lands_bind; [by apply operation_lands| |by intros; done].
    intros n p w1 _. by eexists.
Qed.

Lemma dnum_bind {B} ex e (K : Z -> D B) s w : wf_expr e ->
  (let? v := dval ex e in let? x := rdx ex v in K x) s w = (let? x := dnum ex e in K x) s w.
Proof.
  intros Hwf. rewrite <- dbind_assoc. apply dbind_ext; [by apply dval_rdx|done].
Qed.

Lemma dval_bin ex t a b s w : is_operator t = true ->
  (let? lhs := dnum ex a in dbinary ex t lhs b) s w = dval ex (EBin t a b) s w.
Proof.
  intros Ht. unfold dval, dbinary. cbn [delayed]. rewrite orb_false_r. destruct ex; [|done].
  cbn [negb denote andb dnum]. rewrite dbind_assoc. apply dbind_ext; [done|]. intros x s1 w1.
  destruct (token_eqb t TOK_AND) eqn:Ea; [destruct (x =? 0) eqn:Ex|]; cbn [andb negb].
  - unfold token_eqb in Ea. bsimp. by subst.
  - unfold token_eqb in Ea. bsimp. subst t. change (token_eqb TOK_AND TOK_OR) with false. cbn [andb negb]. by rewrite dbind_assoc.
  - destruct (token_eqb t TOK_OR) eqn:Eo; [destruct (x =? 0) eqn:Ex|]; cbn [andb negb].
    + by rewrite dbind_assoc.
    + unfold token_eqb in Eo. bsimp. subst. simpl exact. unfold dnum, dbind, dret.
      replace (x =? 0) with false by (symmetry; bsimp; done). done.
    + by rewrite dbind_assoc.
Qed.

(** The two continuations of the loop pass errors on. *)
Lemma loop_cont_passes f min ex : passes (expression_loop (S f) min ex).
Proof. intros v p w Hp. exists v. by apply loop_passes. Qed.

Lemma ev_loop_steps min ex v text t o rest s w d rest' :
  token_at text t o rest -> min <= precedence t -> (precedence t = 2 -> is_Some (vname v)) ->
  ev (fun f =>
    let! lhs := (if negb (token_eqb t TOK_ASSIGN) then read_value v ex else aret 0) in
    if token_eqb t TOK_QUESTION then
      let! selected := conditional (expression f) ex lhs in
      match selected with None => aret v | Some v => expression_loop f min ex v end
    else
      let! v := binary (expression f) t v lhs ex in expression_loop f min ex v)
    (at_text rest s) w d rest' ->
  ev (fun f => expression_loop f min ex v) (at_text text s) w d rest'.
Proof. intros Ht Hm Hn [f Hf]. exists (S f). by rewrite (loop_steps _ _ _ _ _ _ _ _ _ _ Ht). Qed.

Lemma sim_bin t a b : is_operator t = true -> wf_expr a -> wf_expr b ->
  sim a (print (precedence t) a) (precedence t) ->
  sim b (print (precedence t + 1) b) (precedence t + 1) ->
  sim (EBin t a b) (print (precedence t) a ++ tok (op_text t) ++ print (precedence t + 1) b) (precedence t).
Proof.
  intros Ht Ha Hb Sa Sb min ex rest s w K rest' Hmin Hsep Hf HK. rewrite <- !app_assoc.
  destruct (operator_level t Ht) as (Hn2 & Hn3 & H1 & Hq & Has & Hpr).
  assert (token_at (tok (op_text t) ++ print (precedence t + 1) b ++ rest) t (op_text t)
    (print (precedence t + 1) b ++ rest)) as Hop by (apply op_at'; [done|apply sep_print]).
  rewrite <- (dbind_ext _ _ K K s w (dval_bin ex t a b s w Ht) (fun _ _ _ => eq_refl)).
  rewrite dbind_assoc, <- dnum_bind by done.
  apply Sa; [done|apply sep_tok|right; by rewrite (head_prec_token _ _ _ _ Hop)|].
  intros v s1 w1 Hv. eapply ev_loop_steps; [exact Hop|lia|done|].
  replace (negb (token_eqb t TOK_ASSIGN)) with true by (by destruct t).
  replace (token_eqb t TOK_QUESTION) with false by (by destruct t).
  eapply ev_bind; [apply grows_const| | |apply ev_const, read_lands_x|].
  - intros lhs. apply grows_bind; [apply grows_binary|intros v'; apply grows_loop].
  - intros f lhs p w' Hp. exists zero_value. unfold abind. rewrite binary_passes by done.
    by apply loop_passes.
  - intros lhs s2 w2 Hl. eapply ev_bind; [apply grows_binary|intros v'; apply grows_loop| | |].
    + intros f. apply loop_cont_passes.
    + apply binary_lands; try done; [|unfold follow in Hf; lia].
      destruct ex; [|by injection Hl as <- _ _]. eapply rdv_long; [|exact Hl]. eapply dval_ok; [exact Ha|exact Hv].
    + intros v' s3 w3 Hv'. apply HK. rewrite <- dval_bin, <- dnum_bind by done.
      unfold dbind at 1. rewrite Hv. unfold dbind. by rewrite Hl.
Qed.

(** *** Conditionals *)

Definition dcond (ex : bool) (lhs : Z) (a b : expr) : D (option value) :=
  let? yes := dnum (ex && negb (lhs =? 0)) a in
  let? rhs := dnum (ex && (lhs =? 0)) b in
  dret (Some (of_number (if negb (lhs =? 0) then yes else rhs))).

Lemma ev_same {A} (m m' : nat -> AM A) p p' w w' d rest :
  (forall f, m f p w = m' f p' w') -> ev m' p' w' d rest -> ev m p w d rest.
Proof. intros E [f Hf]. exists f. by rewrite E. Qed.

Lemma conditional_lands ex lhs a b rest s w :
  wf_expr a -> wf_expr b -> sim a (print 1 a) 1 -> sim b (print 3 b) 3 ->
  sep rest -> head_prec rest < 3 ->
  ev (fun f => conditional (expression f) ex lhs)
    (at_text (print 1 a ++ tok (op_text TOK_COLON) ++ print 3 b ++ rest) s) w
    (dcond ex lhs a b s w) rest.
Proof.
  intros Ha Hb Sa Sb Hsep Hp. unfold conditional, dcond. cbv zeta. apply ev_assoc.
  set (text := tok (op_text TOK_COLON) ++ print 3 b ++ rest).
  assert (token_at text TOK_COLON (op_text TOK_COLON) (print 3 b ++ rest)) as Hcolon
    by (apply op_at'; [done|apply sep_print]).
  assert (forall yes, grows (fun f => let! v := expression f 3 (ex && (lhs =? 0)) in
    let! rhs := read_value v (ex && (lhs =? 0)) in
    aret (Some (of_number (if negb (lhs =? 0) then yes else rhs))))) as Hg.
  { intros yes. apply grows_bind; [apply grows_expression|intros v; apply grows_const]. }
  eapply ev_bind with (rest := text).
  - apply grows_bind; [apply grows_expression|intros v; apply grows_const].
  - intros yes f f' Hf. apply mle_bind; [apply mle_refl|]. intros p.
    destruct (negb (is_ok _)); [apply mle_refl|]. destruct (negb (token_eqb _ _)); [apply mle_refl|].
    apply mle_bind; [apply mle_refl|]. intros _. by apply Hg.
  - intros f yes p w' Hw. exists None. unfold abind, aget. by rewrite not_ok.
  - apply (sim_operand a _ 1); [done..|lia|apply sep_tok|by rewrite (head_prec_token _ _ _ _ Hcolon)].
  - intros yes s1 w1 _.
    apply (ev_same _ (fun f => let! v := expression f 3 (ex && (lhs =? 0)) in
      let! rhs := read_value v (ex && (lhs =? 0)) in
      aret (Some (of_number (if negb (lhs =? 0) then yes else rhs))))
      _ (at_text (print 3 b ++ rest) s1) _ w1).
    { intros f. unfold abind at 1, aget. destruct (at_text_fields text s1) as (-> & _).
      rewrite (token_of _ _ _ _ s1 Hcolon). change (negb (is_ok CSH_ARITH_OK)) with false.
      change (negb (token_eqb TOK_COLON TOK_COLON)) with false. cbn iota.
      unfold abind at 1. by rewrite (next_token_at _ _ _ _ _ _ Hcolon). }
    apply ev_assoc. eapply ev_bind.
    + apply grows_bind; [apply grows_expression|intros v; apply grows_const].
    + intros rhs. apply grows_const.
    + intros f rhs p w' Hw. by eexists.
    + apply (sim_operand b _ 3); [done..|lia|done|lia].
    + intros rhs s2 w2 _. by apply ev_const.
Qed.

Lemma dval_cond ex c a b s w :
  (let? lhs := dnum ex c in let? o := dcond ex lhs a b in dret (default zero_value o)) s w =
  dval ex (ECond c a b) s w.
Proof.
  unfold dval, dcond. cbn [delayed]. rewrite orb_false_r. destruct ex; [|done].
  cbn [negb denote andb]. unfold dnum at 1. rewrite dbind_assoc. apply dbind_ext; [done|].
  intros x s1 w1. rewrite dbind_assoc. destruct (x =? 0); cbn [negb]; unfold dnum.
  - unfold dbind at 1. unfold dret at 1. rewrite dbind_assoc. done.
  - apply dbind_ext; [done|]. done.
Qed.

Lemma dcond_some ex lhs a b s w o s' w' :
  dcond ex lhs a b s w = (inr o, s', w') -> exists k, o = Some k.
Proof.
  unfold dcond, dbind, dret. destruct (dnum (ex && negb _) a s w) as [[[?|?] s1] w1]; [done|].
  destruct (dnum (ex && _) b s1 w1) as [[[?|?] ?] ?]; [done|]. intros [= <- _ _]. by eexists.
Qed.

Lemma sim_cond c a b : wf_expr c -> wf_expr a -> wf_expr b ->
  sim c (print 4 c) 4 -> sim a (print 1 a) 1 -> sim b (print 3 b) 3 ->
  sim (ECond c a b) (print 4 c ++ tok (op_text TOK_QUESTION) ++ print 1 a ++
    tok (op_text TOK_COLON) ++ print 3 b) 3.
Proof.
  intros Hc Ha Hb Sc Sa Sb min ex rest s w K rest' Hmin Hsep Hf HK. rewrite <- !app_assoc.
  set (text := print 1 a ++ tok (op_text TOK_COLON) ++ print 3 b ++ rest).
  assert (token_at (tok (op_text TOK_QUESTION) ++ text) TOK_QUESTION (op_text TOK_QUESTION) text) as Hop
    by (apply op_at'; [done|apply sep_print]).
  assert (forall v lhs, grows (fun f => let! selected := conditional (expression f) ex lhs in
    match selected with None => aret v | Some v => expression_loop f min ex v end)) as Hg.
  { intros v lhs. apply grows_bind; [apply grows_conditional|].
    intros [v'|]; [apply grows_loop|apply grows_const]. }
  rewrite <- (dbind_ext _ _ K K s w (dval_cond ex c a b s w) (fun _ _ _ => eq_refl)).
  rewrite dbind_assoc, <- dnum_bind by done.
  apply Sc; [lia|apply sep_tok|left; by rewrite (head_prec_token _ _ _ _ Hop)|].
  intros v s1 w1 Hv. eapply ev_loop_steps; [exact Hop|simpl; lia|done|].
  change (negb (token_eqb TOK_QUESTION TOK_ASSIGN)) with true.
  change (token_eqb TOK_QUESTION TOK_QUESTION) with true. cbn iota.
  eapply ev_bind; [apply grows_const|intros lhs; apply Hg| |apply ev_const, read_lands_x|].
  { intros f lhs p w' Hp. exists v. unfold abind. by rewrite conditional_passes. }
  intros lhs s2 w2 Hl.
  assert (forall k s3 w3, dcond ex lhs a b s2 w2 = (inr (Some k), s3, w3) ->
    dval ex (ECond c a b) s w = (inr k, s3, w3)) as Hdv.
  { intros k s3 w3 Hk. rewrite <- dval_cond, <- dnum_bind by done.
    unfold dbind at 1. rewrite Hv. unfold dbind at 1. rewrite Hl. unfold dbind. by rewrite Hk. }
  rewrite dbind_assoc. eapply ev_bind; [apply grows_conditional| | | |].
  - intros [v'|]; [apply grows_loop|apply grows_const].
  - intros f [v'|] p w' Hp; [by apply loop_cont_passes|]. by exists v.
  - apply conditional_lands; try done. unfold follow in Hf. lia.
  - intros o s3 w3 Ho. destruct (dcond_some _ _ _ _ _ _ _ _ _ Ho) as [k ->]. by apply HK, Hdv.
Qed.

(** *** Assignments *)

Definition dassign (ex : bool) (t : token) (n : str) (lhs : Z) (e : expr) : D value :=
  let? rhs := dnum ex e in
  if ex then
    let? z := (if token_eqb t TOK_ASSIGN then dret rhs
               else dresult (in_range (exact (assignment_operation t) lhs rhs))) in
    let? _ := d_assign opts n z in dret (of_number z)
  else dret zero_value.

Lemma assignment_token t : precedence t = 2 ->
  token_eqb t TOK_AND = false /\ token_eqb t TOK_OR = false /\ token_eqb t TOK_QUESTION = false /\
  existsb (token_eqb t) printed_ops = true /\
  (token_eqb t TOK_ASSIGN = false -> is_operator (assignment_operation t) = true).
Proof. by destruct t. Qed.

(** The part of [binary] behind the operand of an assignment. *)
Lemma assigned_lands t n lhs rhs text s w : precedence t = 2 -> is_long lhs -> is_long rhs ->
  lands ((let! n' := (if token_eqb t TOK_ASSIGN then aret rhs
                      else operation (assignment_operation t) lhs rhs) in
          let! q := aget in
          (if is_ok (a_error q) then assign n n' else aret tt) >>> aret (of_number n'))
           (at_text text s) w)
    ((let? z := (if token_eqb t TOK_ASSIGN then dret rhs
                 else dresult (in_range (exact (assignment_operation t) lhs rhs))) in
      let? _ := d_assign opts n z in dret (of_number z)) s w) text.
Proof.
  intros Ht Hl Hr. destruct (assignment_token t Ht) as (_ & _ & _ & _ & Hop).
  eapply lands_bind with (rest := text).
  - destruct (token_eqb t TOK_ASSIGN); [done|]. by apply operation_lands; [..|apply Hop].
  - intros n' p w' Hp. eexists. unfold abind, aget. by rewrite not_ok.
  - intros z s' w' _. unfold abind at 1, aget. destruct (at_text_fields text s') as (-> & _).
    change (is_ok CSH_ARITH_OK) with true. cbn iota.
    eapply lands_bind; [apply assign_lands| |by intros; done]. intros [] p w1 _. by eexists.
Qed.

Lemma assignment_lands t n v lhs ex e rest s w :
  precedence t = 2 -> is_long lhs -> wf_expr e -> vname v = Some n ->
  sim e (print 2 e) 2 -> sep rest -> head_prec rest < 2 ->
  ev (fun f => binary (expression f) t v lhs ex) (at_text (print 2 e ++ rest) s) w
    (dassign ex t n lhs e s w) rest.
Proof.
  intros Ht Hl Hwf Hn Hs Hsep Hp. destruct (assignment_token t Ht) as (Ha & Ho & _).
  unfold binary. rewrite Ht, Ha, Ho. cbn [andb negb Z.eqb Pos.eqb Z.add]. rewrite !andb_true_r.
  apply ev_assoc. unfold dassign. eapply ev_bind.
  - apply grows_bind; [apply grows_expression|intros a; apply grows_const].
  - intros a. apply grows_const.
  - intros f a p w' Hw. eexists. unfold abind, aget. by rewrite not_ok, andb_false_r.
  - by apply (sim_operand e _ 2).
  - intros rhs s' w' Hr. apply ev_const. unfold abind at 1, aget.
    destruct (at_text_fields rest s') as (-> & _). change (is_ok CSH_ARITH_OK) with true.
    rewrite andb_true_r. destruct ex; [|done]. rewrite Hn.
    assert (is_long rhs).
    { pose proof (dnum_ok true e s w) as Hd. unfold d_ok in Hd. by rewrite Hr in Hd. }
    by apply assigned_lands.
Qed.

Definition dlhs (ex : bool) (t : token) (n : str) : D Z :=
  if token_eqb t TOK_ASSIGN then dret 0 else rdx ex (mk_value 0 (Some n) 0).

Lemma dval_assign ex t n e s w : 
  (let? lhs := dlhs ex t n in dassign ex t n lhs e) s w = dval ex (EAssign t n e) s w.
Proof.
  unfold dval, dassign, dlhs. cbn [delayed]. rewrite orb_false_r. destruct ex.
  - cbn [negb denote dnum rdx]. rewrite dbind_assoc. apply dbind_ext; [by destruct (token_eqb _ _)|].
    intros x s1 w1. rewrite dbind_assoc. apply dbind_ext; [done|]. intros y s2 w2.
    rewrite dbind_assoc. apply dbind_ext; [done|]. intros z s3 w3. by rewrite dbind_assoc.
  - by destruct (token_eqb _ _).
Qed.

Lemma sim_assign t n e : precedence t = 2 -> valid_name n = true -> wf_expr e -> sim e (print 2 e) 2 ->
  sim (EAssign t n e) (tok n ++ tok (op_text t) ++ print 2 e) 2.
Proof.
  intros Ht Hn Hwf Se min ex rest s w K rest' Hmin Hsep Hf HK. rewrite <- !app_assoc.
  destruct (assignment_token t Ht) as (_ & _ & Hq & Hpr & _).
  assert (token_at (tok (op_text t) ++ print 2 e ++ rest) t (op_text t) (print 2 e ++ rest)) as Hop
    by (apply op_at'; [done|apply sep_print]).
  set (v := mk_value 0 (Some n) 0).
  assert ((let? u := dval ex (EVar n) in let? lhs := dlhs ex t n in let? u := dassign ex t n lhs e in K u) s w
    = dbind (dval ex (EAssign t n e)) K s w) as <-.
  { rewrite <- (dbind_ext _ _ K K s w (dval_assign ex t n e s w) (fun _ _ _ => eq_refl)).
    rewrite dbind_assoc. unfold dval. cbn [delayed]. by rewrite orb_true_r. }
  apply (sim_var n Hn); [lia|apply sep_tok|left; rewrite (head_prec_token _ _ _ _ Hop); lia|].
  intros u s1 w1 Hu. unfold dval, dret in Hu. cbn [delayed] in Hu. rewrite orb_true_r in Hu.
  injection Hu as <- <- <-. fold v.
  eapply ev_loop_steps; [exact Hop|lia|by eexists|]. rewrite Hq.
  eapply ev_bind; [apply grows_const| | | |].
  - intros lhs. apply grows_bind; [apply grows_binary|intros v'; apply grows_loop].
  - intros f lhs p w' Hp. exists zero_value. unfold abind. rewrite binary_passes by done.
    by apply loop_passes.
  - apply ev_const. unfold dlhs. destruct (token_eqb t TOK_ASSIGN); [done|apply read_lands_x].
  - intros lhs s2 w2 Hl. eapply ev_bind; [apply grows_binary|intros v'; apply grows_loop| | |].
    + intros f. apply loop_cont_passes.
    + apply assignment_lands; try done; [|unfold follow in Hf; lia].
      unfold dlhs in Hl. destruct (token_eqb t TOK_ASSIGN); [by injection Hl as <- _ _|].
      destruct ex; [|by injection Hl as <- _ _]. by eapply (rdv_long v).
    + intros v' s3 w3 Hv'. apply HK. rewrite <- dval_assign. unfold dbind. by rewrite Hl.
Qed.

(** *** Every expression *)

Lemma level_range e : wf_expr e -> 1 <= level e <= 14.
Proof.
  destruct e; simpl; try lia. intros (Ht & _). apply operator_level in Ht. pose proof (prec_max t). lia.
Qed.

Lemma print_parens m e : print m e =
  if level e <? m then tok (op_text TOK_LPAREN) ++ print 0 e ++ tok (op_text TOK_RPAREN) else print 0 e.
Proof.
  assert (0 <= level e) as Hl by (destruct e; simpl; try lia; destruct t; done).
  destruct e; cbn [print]; cbn [level] in *; destruct (_ <? m); try done;
    match goal with |- context [?a <? 0] => replace (a <? 0) with false by (symmetry; bsimp; lia) end; done.
Qed.

Lemma sim_at m e : wf_expr e -> m <= 14 -> sim e (print 0 e) (level e) -> sim e (print m e) m.
Proof.
  intros Hwf Hm Hs. rewrite print_parens. pose proof (level_range e Hwf).
  destruct (level e <? m) eqn:E; bsimp.
  - apply (sim_weaken _ _ 14); [done|]. eapply sim_paren; [exact Hs|lia|apply print_blank].
  - by apply (sim_weaken _ _ (level e)).
Qed.

Lemma sim_expr e : wf_expr e -> sim e (print 0 e) (level e).
Proof.
  induction e as [t|n|t e IH|t a IHa b IHb|c IHc a IHa b IHb|t n e IH]; intros Hwf; simpl in Hwf.
  - by apply sim_num.
  - by apply sim_var.
  - destruct Hwf as [Ht He]. apply sim_unary; [done..|]. by apply sim_at; auto.
  - destruct Hwf as (Ht & Ha & Hb). pose proof (prec_max t). pose proof (operator_level t Ht) as (_ & _ & ? & _).
    cbn [print level]. replace (precedence t <? 0) with false by (symmetry; bsimp; lia).
    apply sim_bin; try done; apply sim_at; auto; lia.
  - destruct Hwf as (Hc & Ha & Hb). apply sim_cond; try done; apply sim_at; auto; lia.
  - destruct Hwf as (Ht%is_assignment_precedence & Hn & He). apply sim_assign; try done. apply sim_at; auto; lia.
Qed.
End Simulation.

(** ** The theorems *)

Lemma print_first m e : wf_expr e -> exists c r, print m e = ch " " :: c :: r /\ space c = false.
Proof.
  revert m. induction e; intros m Hwf; rewrite print_parens; destruct (_ <? m);
    try (by eexists _, _); cbn [print level].
  - destruct Hwf as [k Hk]. destruct (constant_bytes _ _ Hk) as (c & r & -> & _ & Hall).
    apply Forall_cons in Hall as [Hc _]. exists c, r. split; [done|]. by apply name_byte_not_space.
  - destruct (valid_name_bytes _ Hwf) as (c & r & -> & _ & Hc & _). exists c, r. split; [done|].
    by apply name_byte_not_space.
  - destruct Hwf as [Ht _]. destruct t; try done; by eexists _, _.
  - destruct Hwf as (_ & Ha & _). destruct (IHe1 (precedence t) Ha) as (c & r & -> & Hc).
    destruct (_ <? 0); [by eexists _, _|]. by exists c, (r ++ tok (op_text t) ++ print (precedence t + 1) e2).
  - destruct Hwf as (Ha & _). destruct (IHe1 4 Ha) as (c & r & -> & Hc). cbn [Z.ltb]. by eexists c, _.
  - destruct Hwf as (_ & Hn & _). destruct (valid_name_bytes _ Hn) as (c & r & -> & _ & Hc & _).
    eexists c, _. split; [done|]. by apply name_byte_not_space.
Qed.

Lemma scan_not_end c r : (scan (c :: r)).1.1 <> TOK_END.
Proof.
  unfold scan. destruct (name_byte c); [by destruct (digit c)|].
  destruct (List.find _ operators) as [[o t]|] eqn:E; [|done].
  apply List.find_some in E as [E _].
  assert (forallb (fun o => negb (token_eqb o.2 TOK_END)) operators = true) as Hall by done.
  rewrite forallb_forall in Hall. apply Hall in E. simpl in *. intros ->. done.
Qed.

Section Run.
Context `{LocaleDb} (opts : Z).

(** The evaluator with the fuel that [run] gives it. *)
Lemma expression_lands ex e s w : wf_expr e ->
  lands opts (expression (enough_fuel (print 1 e)) 1 ex (at_text opts (print 1 e) s) w)
    (dval opts ex e s w) [].
Proof.
  intros Hwf. pose proof (sim_at opts 1 e Hwf ltac:(lia) (sim_expr opts e Hwf)) as Hs.
  destruct (sim_value opts e (print 1 e) 1 1 ex [] s w Hs) as [f Hf]; [lia|by left|done|].
  rewrite app_nil_r in Hf. set (n := enough_fuel (print 1 e)).
  assert (exists r, expression n 1 ex (at_text opts (print 1 e) s) w = Some r) as [r Hr].
  { set (p := at_text opts (print 1 e) s).
    assert (synced p /\ (remaining p <= length (print 1 e))%nat) as [Hsy Hrem].
    { unfold p, at_text. destruct (scan _) as [[t k] rest] eqn:E. split; [done|]. apply skip_space_length. }
    pose proof (proj1 (evaluator_returns n) (S (remaining p))) as Hret.
    specialize (Hret ltac:(unfold n, enough_fuel; lia) 1 ex p w ltac:(lia) Hsy ltac:(lia)).
    unfold apost in Hret. destruct (expression n 1 ex p w) as [r|]; [by exists r|done]. }
  pose proof (lands_mono opts _ _ _ _ _ _ (expression_mono f (Nat.max f n) 1 ex ltac:(lia)) Hf) as Hf'.
  rewrite (expression_mono n (Nat.max f n) 1 ex ltac:(lia) _ _ _ Hr) in Hf'. by rewrite Hr.
Qed.

Lemma start_at text s w : next_token (start_parser text s opts []) w = Some (tt, at_text opts text s, w).
Proof. unfold next_token, amodify, at_text. simpl. by destruct (scan (skip_space text)) as [[??]?]. Qed.

Lemma run_lands ex e s w : wf_expr e ->
  lands opts (run ex (start_parser (print 1 e) s opts []) w)
    ((let? z := dnum opts ex e in dret (Some z)) s w) [] /\
  (forall out p w', run ex (start_parser (print 1 e) s opts []) w = Some (out, p, w') ->
     a_error p <> CSH_ARITH_OK -> out = None).
Proof.
  intros Hwf. split; [|intros out p w'; apply run_out]. unfold run.
  unfold abind at 1, aget at 1. unfold abind at 1. rewrite start_at.
  unfold abind at 1, aget at 1.
  assert (token_eqb (a_token (at_text opts (print 1 e) s)) TOK_END = false) as ->.
  { apply bool_decide_eq_false_2. destruct (print_first 1 e Hwf) as (c & r & -> & Hc).
    unfold at_text. simpl. rewrite Hc. pose proof (scan_not_end c r) as Hn.
    by destruct (scan (c :: r)) as [[??]?]. }
  cbn [negb a_next start_parser]. rewrite <- (dbind_ext _ _ _ _ s w (dval_rdx opts ex e s w Hwf) (fun _ _ _ => eq_refl)).
  rewrite dbind_assoc. eapply lands_bind; [by apply expression_lands| |].
  { intros v p w' Hp. exists None. unfold abind, aget. rewrite not_ok by done. cbn [andb].
    unfold aret. by rewrite not_ok. }
  intros v s' w' _. unfold abind at 1 2 3, aget.
  destruct (at_text_fields opts [] s') as (Ee & _). rewrite Ee.
  change (is_ok CSH_ARITH_OK) with true. change (token_eqb (a_token (at_text opts [] s')) TOK_END) with true.
  cbn [andb negb]. unfold aret at 1. rewrite Ee. change (is_ok CSH_ARITH_OK) with true. cbn iota.
  pose proof (read_lands_x opts ex v [] s' w') as Hr. unfold abind, dbind.
  destruct (rdx opts ex v s' w') as [[[er|z] s1] w1]; simpl in Hr.
  - destruct Hr as (Her & a & p' & -> & Hp & Hs). split; [done|]. rewrite not_ok by congruence.
    by eexists _, _.
  - rewrite Hr. destruct (at_text_fields opts [] s1) as (-> & _). done.
Qed.
End Run.

(** C1: the evaluator computes the meaning of expressions.  For every
    expression tree, [csh_arith_eval] on its printed text, parenthesized only
    where the grammar of C needs it, stores the number the semantics gives and
    leaves the state the semantics leaves; when the semantics has an error,
    that error is returned, nothing is stored and the state is unchanged. *)
Theorem arith_eval_denotes `{LocaleDb} (s : csh_state) (e : expr) (w : proc)
    (He : wf_expr e) (Hwf : state_wf s) (Hpos : counts_positive (p_functions w))
    (Hcalm : calm w) (Hfit : state_fits s) (Hlen : fits (c_print e)) :
  match denote (options (info s)) e s (snd (csh_state_save s w)) with
  | (inr z, s', _) => exists w', csh_arith_eval s (Some (c_print e)) [] w = Some (CSH_ARITH_OK, Some z, s', w')
  | (inl er, _, _) => er <> CSH_ARITH_OK /\
      exists w', csh_arith_eval s (Some (c_print e)) [] w = Some (er, None, s, w')
  end.
Proof.
  unfold c_print in *. rewrite c_print_precedence in * by done.
  unfold csh_arith_eval. rewrite malloc_calm by done. cbn [negb].
  replace (slen (print 1 e) =? SIZE_MAX) with false by (unfold fits in Hlen; symmetry; bsimp; lia).
  pose proof (save_post s w Hwf Hpos) as Hs. unfold post in Hs.
  destruct (csh_state_save s w) as [r w1]. destruct Hs as [Hr Hok]. destruct (Hok (conj Hcalm Hfit)) as [Hr1 _]. clear Hok. rename Hr1 into Hok.
  destruct Hr as [[-> _]|[-> _]]; [|done]. cbn [snd].
  change (negb (bool_decide (CSH_STATE_OK = CSH_STATE_OK))) with false. cbn iota.
  unfold csh_state_get_info. destruct (run_lands (options (info s)) true e s w1 He) as [Hl Hout].
  unfold dnum, dbind in Hl. destruct (denote _ e s w1) as [[[er|z] s'] w2]; simpl in Hl.
  - destruct Hl as (Her & out & p & Hrun & Hp & _). split; [done|]. rewrite Hrun.
    rewrite not_ok by congruence. assert (out = None) as -> by (eapply Hout; [exact Hrun|congruence]).
    unfold csh_state_restore, bind, ret. destruct (csh_state_destroy (a_state p) w2) as [[] w3].
    destruct (csh_state_refresh_locale s w3) as [[] w4]. rewrite Hp. by eexists.
  - rewrite Hl. destruct (at_text_fields (options (info s)) [] s') as (-> & -> & _).
    change (is_ok CSH_ARITH_OK) with true. cbn iota.
    destruct (csh_state_checkpoint_destroy (Some s) w2) as [[] w3]. by eexists.
Qed.

(** [x = (2 + 0x3) * - unset, x || 1 ? 5 << 1 : 1 / 0] *)
Definition sample_expr : expr :=
  EBin TOK_COMMA
    (EAssign TOK_ASSIGN (bs "x")
       (EBin TOK_MUL (EBin TOK_ADD (ENum (bs "2")) (ENum (bs "0x3")))
          (EUnary TOK_SUB (EVar (bs "unset")))))
    (ECond (EBin TOK_OR (EVar (bs "x")) (ENum (bs "1"))) (EBin TOK_SHL (ENum (bs "5")) (ENum (bs "1")))
       (EBin TOK_DIV (ENum (bs "1")) (ENum (bs "0")))).

Lemma sample_expr_wf : wf_expr sample_expr.
Proof. vm_compute. split_and!; eauto. Qed.

Lemma sample_state_fits : state_fits sample_state.
Proof. split; repeat constructor; by vm_compute. Qed.

Lemma arith_eval_denotes_witness :
  exists s' w', csh_arith_eval (H:=every_locale) sample_state (Some (c_print sample_expr)) [] sample_proc =
    Some (CSH_ARITH_OK, Some 10, s', w').
Proof.
  pose proof (arith_eval_denotes (H:=every_locale) sample_state sample_expr sample_proc sample_expr_wf
    sample_state_wf sample_proc_counts eq_refl sample_state_fits eq_refl) as H.
  assert (exists s' w1, denote (H:=every_locale) 0 sample_expr sample_state
    (snd (csh_state_save sample_state sample_proc)) = (inr 10, s', w1)) as (s' & w1 & E)
    by (eexists _, _; vm_compute; reflexivity).
  change (options (info sample_state)) with 0 in H. rewrite E in H. destruct H as [w' H].
  exists s', w'. exact H.
Defined.

(** The grammar probe accepts every expression: on the printed text of any
    expression tree it reports success, whatever its value would be, and the
    prefix probe agrees; neither touches the process. *)
Theorem arith_probe_accepts `{LocaleDb} (e : expr) (w : proc) (He : wf_expr e) :
  csh_arith_probe (Some (c_print e)) [] w = Some (CSH_ARITH_OK, w) /\
  csh_arith_probe_prefix (Some (c_print e)) [] w = Some (1, w).
Proof.
  unfold c_print. rewrite c_print_precedence by done.
  destruct (run_lands 0 false e zero_state w He) as [Hl _]. simpl in Hl.
  unfold csh_arith_probe, csh_arith_probe_prefix. rewrite Hl.
  by destruct (at_text_fields 0 [] zero_state) as (-> & _).
Qed.

Lemma arith_probe_accepts_witness :
  csh_arith_probe (H:=every_locale) (Some (c_print sample_expr)) [] quiet_proc = Some (CSH_ARITH_OK, quiet_proc).
Proof.
  exact (proj1 (arith_probe_accepts (H:=every_locale) sample_expr quiet_proc sample_expr_wf)).
Defined.

(** ** Numbers as variable values *)

Lemma digit_byte d : 0 <= d < 10 -> digit_value (48 + d) = d.
Proof.
  intros Hd. unfold digit_value, digit, between.
  replace ((48 <=? 48 + d) && (48 + d <=? 57)) with true; [lia|]. symmetry. bsimp. lia.
Qed.

Lemma base_value_app base x y acc : base_value base (x ++ y) acc = base_value base x acc ≫= base_value base y.
Proof. revert acc. induction x as [|c x IH]; intros acc; simpl; [done|]. destruct (_ && _); [apply IH|done]. Qed.

(** [digits] puts the decimal digits of [n] before [acc]. *)
Lemma digits_value fuel n acc : 0 <= n < 10 ^ Z.of_nat fuel ->
  exists ds, digits fuel n acc = ds ++ acc /\
    (forall k, base_value 10 ds k = Some (k * 10 ^ Z.of_nat (length ds) + n)) /\
    (n = 0 -> ds = [48] \/ fuel = O) /\ (n <> 0 -> hd 48 ds <> 48).
Proof.
  revert n acc. induction fuel as [|f IH]; intros n acc Hn.
  { exists []. split_and!; [done| |auto|simpl in *; lia]. intros k. simpl in *. f_equal. lia. }
  cbn [digits]. rewrite Nat2Z.inj_succ, Z.pow_succ_r in Hn by lia.
  pose proof (Z.div_mod n 10 ltac:(lia)). pose proof (Z.mod_pos_bound n 10 ltac:(lia)).
  assert (forall k, base_value 10 [48 + n mod 10] k = Some (k * 10 + n mod 10)) as H1.
  { intros k. cbn [base_value]. rewrite digit_byte by lia.
    replace ((0 <=? n mod 10) && (n mod 10 <? 10)) with true; [done|]. symmetry. bsimp. lia. }
  destruct (n / 10 =? 0) eqn:E; bsimp.
  - exists [48 + n mod 10]. split_and!; [done| | |].
    + intros k. rewrite H1. f_equal. simpl. lia.
    + intros ->. by left.
    + intros Hn0. simpl. lia.
  - destruct (IH (n / 10) ((48 + n mod 10) :: acc)) as (ds & Hds & Hv & _ & Hh).
    { split; [apply Z.div_pos; lia|]. apply Z.div_lt_upper_bound; lia. }
    exists (ds ++ [48 + n mod 10]). split_and!.
    + by rewrite Hds, <- app_assoc.
    + intros k. rewrite base_value_app, Hv. cbn [mbind option_bind]. rewrite H1. f_equal.
      rewrite length_app, Nat2Z.inj_add, Z.pow_add_r by lia. simpl length. lia.
    + intros ->. done.
    + intros _. specialize (Hh E). destruct ds; [done|]. done.
Qed.

Lemma constant_digits ds n : base_value 10 ds 0 = Some n -> ds <> [] -> (ds = [48] \/ hd 48 ds <> 48) ->
  constant ds = Some n.
Proof.
  intros Hv Hne Hh. destruct ds as [|c r]; [done|]. unfold constant. destruct (c =? 48) eqn:E; [|done].
  bsimp. subst c. destruct Hh as [[= ->]|Hh]; [done|by simpl in Hh].
Qed.

Lemma print_digits n : 0 <= n < 10 ^ 20 ->
  constant (digits 20 n []) = Some n /\ exists c r, digits 20 n [] = c :: r /\ c <> 45 /\ c <> 43.
Proof.
  intros Hn. destruct (digits_value 20 n [] Hn) as (ds & -> & Hv & H0 & Hh). rewrite app_nil_r.
  assert (ds = [48] \/ hd 48 ds <> 48) as Hor.
  { destruct (decide (n = 0)) as [->|Hne]; [|right; by apply Hh]. left. by destruct H0. }
  assert (ds <> []) as Hne by (destruct Hor as [->|Hx]; [done|by intros ->]).
  assert (constant ds = Some n) as Hc by (apply constant_digits; [by rewrite Hv|done..]).
  split; [done|]. destruct (constant_bytes _ _ Hc) as (c & r & -> & Hd & _). exists c, r.
  split; [done|]. unfold digit, between in Hd. bsimp. lia.
Qed.

Lemma signed_constant_print n : is_long n -> signed_constant (print_long n) = Some n.
Proof.
  intros Hn. pose proof long_bounds. unfold print_long. destruct (n <? 0) eqn:E; bsimp.
  - cbn [signed_constant]. rewrite Z.eqb_refl. destruct (print_digits (- n)) as [-> _]; [long|].
    simpl. f_equal. lia.
  - destruct (print_digits n) as [Hc (c & r & Hds & H1 & H2)]; [long|]. rewrite Hds in *. unfold signed_constant.
    replace (c =? 45) with false by (symmetry; bsimp; done).
    by replace (c =? 43) with false by (symmetry; bsimp; done).
Qed.

Lemma d_assign_value `{LocaleDb} opts n z s w s' w' :
  state_wf s -> calm w -> d_assign opts n z s w = (inr tt, s', w') ->
  calm w' /\ valid_name n = true /\ exists a, var_map (variables s') !! n = Some (Some (print_long z), a).
Proof.
  intros Hwf Hc. unfold d_assign. rewrite malloc_calm by done. cbn [negb].
  pose proof (set_variable_post s n (print_long z) w Hwf) as Hset. unfold post in Hset.
  destruct (csh_state_set_variable s (Some n) _ w) as [[r s1] w1].
  destruct Hset as (_ & Hwf1 & Hc1 & Hr1). specialize (Hc1 Hc).
  destruct (bool_decide (r = CSH_STATE_OK) && opt_on opts CSH_OPT_ALLEXPORT) eqn:Eb; bsimp.
  - destruct Eb as [-> _]. destruct Hr1 as (Hv & _ & _ & Hm).
    pose proof (update_attributes_post s1 n CSH_VAR_EXPORT 0 w1 Hwf1) as Hup. unfold post in Hup.
    destruct (csh_state_update_attributes s1 (Some n) _ _ w1) as [[r2 s2] w2].
    destruct Hup as (_ & _ & Hc2 & Hr2). destruct r2; intros E; try done.
    injection E as <- <-. destruct Hr2 as (_ & _ & _ & Hm2). split_and!; [by rewrite Hc2|done|].
    rewrite Hm2, lookup_partial_alter, decide_True by done. rewrite Hm, lookup_insert_eq. by eexists.
  - destruct r; intros E; try done. injection E as <- <-. destruct Hr1 as (Hv & _ & _ & Hm).
    split_and!; [done..|]. rewrite Hm, lookup_insert_eq. by eexists.
Qed.

(** Numbers survive the detour through shell variables: a [long] that
    arithmetic assigns to a variable, stored as decimal text, is read back as
    the same number by the next operand that names the variable. *)
Theorem arith_assign_read `{LocaleDb} (opts : Z) (text : str) (s : csh_state) (n : str) (z : Z)
    (w : proc) (p : parser) (w' : proc)
    (Hwf : state_wf s) (Hz : is_long z) (Hcalm : calm w)
    (Hassign : assign n z (at_text opts text s) w = Some (tt, p, w'))
    (Hok : a_error p = CSH_ARITH_OK) :
  read_value (mk_value 0 (Some n) 0) true p w' = Some (z, p, w').
Proof.
  pose proof (assign_lands opts n z text s w) as Hl. rewrite Hassign in Hl.
  destruct (d_assign opts n z s w) as [[[e|[]] s1] w1] eqn:Ed; simpl in Hl.
  { destruct Hl as (He & a & p' & [= <- <- <-] & Hp & _). congruence. }
  injection Hl as -> ->. destruct (d_assign_value _ _ _ _ _ _ _ Hwf Hcalm Ed) as (Hc & Hv & a & Hm).
  pose proof (read_lands opts (mk_value 0 (Some n) 0) text s1 w1) as Hr.
  unfold rdv, d_read in Hr. cbn [vname] in Hr. rewrite malloc_calm in Hr by done. cbn [negb] in Hr.
  unfold csh_state_get_variable, find_variable in Hr. rewrite Hv in Hr.
  rewrite <- find_entry_map in Hm. destruct (find_entry (variables s1) n) as [x|]; [|done].
  simpl in Hm. injection Hm as Hx _. cbn [snd view_value] in Hr. rewrite Hx in Hr.
  rewrite signed_constant_print, in_range_in in Hr by done. exact Hr.
Qed.

Lemma arith_assign_read_witness :
  exists p w', assign (H:=every_locale) (bs "x") (-42) (at_text 0 [] sample_state) quiet_proc = Some (tt, p, w') /\
    read_value (mk_value 0 (Some (bs "x")) 0) true p w' = Some (-42, p, w').
Proof.
  eexists _, _. split; [vm_compute; reflexivity|].
  refine (arith_assign_read (H:=every_locale) 0 [] sample_state (bs "x") (-42) quiet_proc _ _
    sample_state_wf _ eq_refl _ _); vm_compute; first [reflexivity | split; intros E; discriminate E].
Defined.
