(* ===== verification/Expansion.v ===== *)
(** * Expansion results (include/cshell/expand.h, src/field_internal.h)

    The data that value expansion hands to field splitting and pathname
    expansion, and the error monad of the functions that return
    [enum csh_expand_result]: a failing result stops the computation.  The
    output vector [struct csh_fields] is the list of its strings; every caller
    destroys it after a failure, so a failure carries no vector. *)

From stdpp Require Import base list gmap strings.
From S2P Require Import Prelude Output.

Inductive csh_expand_context : Type :=
  | CSH_EXPAND_ARGUMENT | CSH_EXPAND_ASSIGNMENT | CSH_EXPAND_PATTERN
  | CSH_EXPAND_REDIRECTION | CSH_EXPAND_HEREDOC.

Inductive csh_expand_origin : Type :=
  | CSH_EXPAND_LITERAL | CSH_EXPAND_TILDE | CSH_EXPAND_PARAMETER
  | CSH_EXPAND_ARITHMETIC | CSH_EXPAND_SUBSTITUTION.

Inductive csh_quote : Type :=
  | CSH_QUOTE_NONE | CSH_QUOTE_SINGLE | CSH_QUOTE_DOUBLE
  | CSH_QUOTE_DOLLAR_SINGLE.

(** Everything of the enumeration but [CSH_EXPAND_OK], which is success. *)
Inductive csh_expand_result : Type :=
  | CSH_EXPAND_INVALID | CSH_EXPAND_NOMEM | CSH_EXPAND_UNSET | CSH_EXPAND_READONLY
  | CSH_EXPAND_ARITHMETIC_ERROR | CSH_EXPAND_DEFERRED | CSH_EXPAND_LIMIT | CSH_EXPAND_IO
  | CSH_EXPAND_INTERRUPTED | CSH_EXPAND_RESOURCE.

#[export] Instance csh_expand_context_eq_dec : EqDecision csh_expand_context.
Proof. solve_decision. Defined.
#[export] Instance csh_expand_origin_eq_dec : EqDecision csh_expand_origin.
Proof. solve_decision. Defined.
#[export] Instance csh_quote_eq_dec : EqDecision csh_quote.
Proof. solve_decision. Defined.
#[export] Instance csh_expand_result_eq_dec : EqDecision csh_expand_result.
Proof. solve_decision. Defined.

(** [text] is the [length] bytes of the span. *)
Record csh_expand_span : Type := mk_span {
  sp_text : str; sp_quote : csh_quote; sp_origin : csh_expand_origin;
  sp_split : bool; sp_keep_empty : bool }.

Abbreviation csh_expand_field := (list csh_expand_span).

Record csh_expansion : Type := mk_expansion {
  ex_fields : list csh_expand_field; ex_context : csh_expand_context }.

Abbreviation csh_fields := (list str).

(** ** The error monad *)

Definition X (A : Type) : Type := M (csh_expand_result + A).

Definition xret {A} (a : A) : X A := ret (inr a).
Definition xfail {A} (e : csh_expand_result) : X A := ret (inl e).
Definition xbind {A B} (m : X A) (f : A -> X B) : X B :=
  let* r := m in match r with inr a => f a | inl e => xfail e end.
Definition xlift {A} (m : M A) : X A := let* a := m in xret a.

Notation "'let^' x ':=' m 'in' k" := (xbind m (fun x => k))
  (at level 10, x strict pattern, m at level 200, k at level 200,
   format "'let^'  x  ':='  m  'in' '//' k") : cshell_scope.

(** [if (interrupted(options)) return CSH_EXPAND_INTERRUPTED;] *)
Definition check_interrupt : X unit :=
  let* stop := interrupted in if stop then xfail CSH_EXPAND_INTERRUPTED else xret tt.

(** One allocation that fails with [CSH_EXPAND_NOMEM]. *)
Definition xmalloc : X unit :=
  let* ok := malloc in if ok then xret tt else xfail CSH_EXPAND_NOMEM.

Definition csh_fields_append (out : csh_fields) (text : str) : X csh_fields :=
  if (slen text =? SIZE_MAX) || (Z.of_nat (length out) >? SIZE_MAX / 8 - 2)
  then xfail CSH_EXPAND_NOMEM else
  let^ _ := xmalloc in
  let^ _ := xmalloc in
  xret (out ++ [text]).

(** ** Reasoning

    [xpost m w Q]: the computation returns, and a success satisfies [Q]. *)

Definition xpost {A} (m : X A) (w : proc) (Q : A -> proc -> Prop) : Prop :=
  post m w (fun r w' => match r with inr a => Q a w' | inl _ => True end).

Section Xpost.
Context {A B : Type}.

Lemma xpost_ret (a : A) w (Q : A -> proc -> Prop) : Q a w -> xpost (xret a) w Q.
Proof. done. Qed.

Lemma xpost_fail e w (Q : A -> proc -> Prop) : xpost (xfail e) w Q.
Proof. done. Qed.

Lemma xpost_bind (m : X A) (f : A -> X B) w (Q : B -> proc -> Prop) :
  xpost m w (fun a w' => xpost (f a) w' Q) -> xpost (xbind m f) w Q.
Proof. intros H. apply post_bind. eapply post_mono; [exact H|]. by intros [e|a] w'. Qed.

Lemma xpost_mono (m : X A) w (P Q : A -> proc -> Prop) :
  xpost m w P -> (forall a w', P a w' -> Q a w') -> xpost m w Q.
Proof. intros H HQ. eapply post_mono; [exact H|]. intros [e|a] w'; auto. Qed.
End Xpost.

Lemma xpost_any {A} (m : X A) w : xpost m w (fun _ _ => True).
Proof. unfold xpost, post. destruct (m w) as [[e|a] w']; done. Qed.

Lemma xpost_check w (Q : unit -> proc -> Prop) : (forall w', Q tt w') -> xpost check_interrupt w Q.
Proof.
  intros H. unfold check_interrupt, xpost, post, bind. destruct (interrupted w) as [[] w']; [done|apply H].
Qed.

Lemma xpost_malloc w (Q : unit -> proc -> Prop) : (forall w', Q tt w') -> xpost xmalloc w Q.
Proof. intros H. unfold xmalloc, xpost, post, bind. destruct (malloc w) as [[] w']; [apply H|done]. Qed.

Lemma fields_append_xpost out text w (Q : csh_fields -> proc -> Prop) :
  (forall w', Q (out ++ [text]) w') -> xpost (csh_fields_append out text) w Q.
Proof.
  intros H. unfold csh_fields_append. destruct (_ || _); [done|].
  apply xpost_bind, xpost_malloc. intros w1. apply xpost_bind, xpost_malloc. intros w2. by apply xpost_ret.
Qed.

(** Calls that neither fail nor change a process that grants everything. *)
Definition willing (w : proc) : Prop := calm w /\ undisturbed w.

Lemma xbind_run {A B} (m : X A) (f : A -> X B) w a w' : m w = (inr a, w') -> xbind m f w = f a w'.
Proof. unfold xbind. intros E. by rewrite (bind_run _ _ _ _ _ E). Qed.

Lemma check_run w : willing w -> check_interrupt w = (inr tt, w).
Proof. intros [_ H]. unfold check_interrupt. by rewrite (bind_run _ _ _ _ _ (interrupted_run w H)). Qed.

Lemma xmalloc_run w : willing w -> xmalloc w = (inr tt, w).
Proof. intros [H _]. unfold xmalloc. by rewrite (bind_run _ _ _ _ _ (malloc_calm w H)). Qed.

(** The vector and the text fit in memory. *)
Definition append_fits (out : csh_fields) (text : str) : Prop :=
  slen text < SIZE_MAX /\ Z.of_nat (length out) <= SIZE_MAX / 8 - 2.

Lemma fields_append_run out text w : willing w -> append_fits out text ->
  csh_fields_append out text w = (inr (out ++ [text]), w).
Proof.
  intros Hw [H1 H2]. unfold csh_fields_append. rewrite Z.gtb_ltb.
  replace (slen text =? SIZE_MAX) with false by (symmetry; bsimp; lia).
  replace (SIZE_MAX / 8 - 2 <? Z.of_nat (length out)) with false by (symmetry; bsimp; lia).
  cbn [orb]. by rewrite !(xbind_run _ _ _ _ _ (xmalloc_run w Hw)).
Qed.
