(* ===== verification/Pathname.v ===== *)
(** * Pathname expansion (src/pathname.c)

    Component-wise filename generation.  The file system, [fnmatch] and
    [strcoll] belong to the host: the class [Files] holds what the code asks of
    them, and [FilesLaws] that collation is a total preorder.  A pattern pointer
    is the rest of the pattern; multibyte characters are skipped with
    [pattern_width].  [struct csh_fields] used as a path list is the list. *)

From stdpp Require Import base list gmap strings sorting.
From S2P Require Import Prelude Output Character Expansion.

Definition PATHNAME_COMPONENT_LIMIT : Z := 4096.

(** What [readdir] yields until it returns [NULL], the errno it leaves then, if
    any, and the errno of a failing [closedir]. *)
Record dir_stream : Type := mk_dir {
  d_entries : list str; d_read_error : option errno; d_close_error : option errno }.

Class Files : Type := {
  fs_lstat : str -> option errno;              (* [None]: the path exists *)
  fs_stat : str -> errno + bool;               (* [inr true]: a directory *)
  fs_opendir : str -> errno + dir_stream;
  fn_match : str -> str -> bool;               (* [fnmatch(p, s, FNM_PERIOD) == 0] *)
  str_coll : str -> str -> comparison          (* the sign of [strcoll] *)
}.

Class FilesLaws (F : Files) : Prop := {
  coll_antisym : forall a b, str_coll b a = CompOpp (str_coll a b);
  coll_trans : forall a b c, str_coll a b <> Gt -> str_coll b c <> Gt -> str_coll a c <> Gt
}.

(** [None] is [CSH_EXPAND_OK]: an ordinary non-match. *)
Definition filesystem_error (e : errno) : option csh_expand_result :=
  match e with
  | ENOENT | ENOTDIR | EACCES | ENAMETOOLONG | ELOOP => None
  | ENOMEM => Some CSH_EXPAND_NOMEM
  | EINTR => Some CSH_EXPAND_INTERRUPTED
  | _ => Some CSH_EXPAND_IO
  end.

Section Pathname.
Context `{Locale} `{Files}.

Definition pattern_width (text : str) : nat :=
  csh_character_length (take loc_max text) false true.

(** The end of a bracket subexpression opened with [kind]: the text from its
    closing pair on, or [None] at the end of the component. *)
Fixpoint subexpression_end (fuel : nat) (text : str) (kind : byte) : option str :=
  match fuel with
  | O => None
  | S f =>
      if (peek text =? 0) || (peek text =? ch "/") then None
      else if (peek text =? kind) && (peek (tail text) =? ch "]") then Some text
      else subexpression_end f (drop (pattern_width text) text) kind
  end.

Fixpoint bracket_loop (fuel : nat) (text : str) : bool :=
  match fuel with
  | O => false
  | S f =>
      if (peek text =? 0) || (peek text =? ch "/") then false
      else if (peek text =? ch "\") && negb (peek (tail text) =? 0) && negb (peek (tail text) =? ch "/") then
        bracket_loop f (drop (pattern_width (tail text)) (tail text))
      else if peek text =? ch "]" then true
      else if (peek text =? ch "[") && negb (peek (tail text) =? 0) && in_set (peek (tail text)) (bs ":.=") then
        match subexpression_end (length text) (drop 2 text) (peek (tail text)) with
        | None => false
        | Some last => bracket_loop f (drop 2 last)
        end
      else bracket_loop f (drop (pattern_width text) text)
  end.

(** [pattern] starts with ['[']. *)
Definition has_bracket (pattern : str) : bool :=
  let position := tail pattern in
  let position := if peek position =? ch "!" then tail position else position in
  let position := if peek position =? ch "]" then tail position else position in
  bracket_loop (S (length position)) position.

Fixpoint pattern_loop (fuel : nat) (pattern : str) : bool :=
  match fuel with
  | O => false
  | S f =>
      if peek pattern =? 0 then false
      else if (peek pattern =? ch "\") && negb (peek (tail pattern) =? 0) then
        pattern_loop f (drop (pattern_width (tail pattern)) (tail pattern))
      else if (peek pattern =? ch "*") || (peek pattern =? ch "?") ||
              ((peek pattern =? ch "[") && has_bracket pattern) then true
      else pattern_loop f (drop (pattern_width pattern) pattern)
  end.

Definition has_pattern (pattern : str) : bool := pattern_loop (S (length pattern)) pattern.

(** The bytes that the copy loop of [pathname_pattern] writes. *)
Fixpoint unescape_slashes (fuel : nat) (pattern : str) : str :=
  match fuel with
  | O => []
  | S f =>
      if peek pattern =? 0 then []
      else
        let escaped := (peek pattern =? ch "\") && negb (peek (tail pattern) =? 0) in
        let kept := if escaped && negb (peek (tail pattern) =? ch "/") then [ch "\"] else [] in
        let rest := if escaped then tail pattern else pattern in
        kept ++ take (pattern_width rest) rest ++ unescape_slashes f (drop (pattern_width rest) rest)
  end.

Definition pathname_pattern (pattern : str) : X str :=
  let^ _ := xmalloc in xret (unescape_slashes (S (length pattern)) pattern).

Fixpoint unescape_loop (fuel : nat) (text : str) : str :=
  match fuel with
  | O => []
  | S f =>
      if peek text =? 0 then []
      else
        let rest := if (peek text =? ch "\") && negb (peek (tail text) =? 0) then tail text else text in
        take (pattern_width rest) rest ++ unescape_loop f (drop (pattern_width rest) rest)
  end.

Definition unescape (text : str) : str := unescape_loop (S (length text)) text.

Definition join (prefix separators component : str) : X str :=
  if (slen prefix >? SIZE_MAX - slen separators) ||
     (slen prefix + slen separators >? SIZE_MAX - slen component - 1)
  then xfail CSH_EXPAND_NOMEM
  else let^ _ := xmalloc in xret (prefix ++ separators ++ component).

Definition append_path (paths : csh_fields) (path : str) : X csh_fields :=
  if Z.of_nat (length paths) >? SIZE_MAX / 8 - 2 then xfail CSH_EXPAND_NOMEM
  else let^ _ := xmalloc in xret (paths ++ [path]).

(** A file system error: a failure, or a non-match that keeps [next]. *)
Definition fs_result (e : errno) (next : csh_fields) : X csh_fields :=
  match filesystem_error e with Some r => xfail r | None => xret next end.

Definition literal_path (prefix separators component : str) (final directory : bool)
    (next : csh_fields) : X csh_fields :=
  let^ path := join prefix separators component in
  if final then
    if directory then
      match fs_stat path with
      | inl e => fs_result e next
      | inr is_dir => if negb is_dir then xret next else append_path next path
      end
    else
      match fs_lstat path with
      | Some e => fs_result e next
      | None => append_path next path
      end
  else append_path next path.

Fixpoint read_entries (entries : list str) (prefix separators component : str)
    (next : csh_fields) : X csh_fields :=
  let^ _ := check_interrupt in
  match entries with
  | [] => xret next
  | name :: rest =>
      if str_eqb name (bs ".") || str_eqb name (bs "..") || negb (fn_match component name)
      then read_entries rest prefix separators component next
      else
        let^ path := join prefix separators name in
        let^ next := append_path next path in
        read_entries rest prefix separators component next
  end.

Definition pattern_paths (prefix separators component : str) (next : csh_fields) : X csh_fields :=
  let^ directory := join prefix separators [] in
  match fs_opendir (if bool_decide (directory = []) then bs "." else directory) with
  | inl e => fs_result e next
  | inr stream =>
      let^ found := read_entries (d_entries stream) prefix separators component next in
      match from_option filesystem_error None (d_read_error stream) with
      | Some r => xfail r
      | None =>
          match from_option filesystem_error None (d_close_error stream) with
          | Some r => xfail r
          | None =>
              (* an error that is a non-match discards what was found here *)
              if bool_decide (d_read_error stream = None) && bool_decide (d_close_error stream = None)
              then xret found else xret next
          end
      end
  end.

Definition compare_paths (a b : str) : comparison :=
  match str_coll a b with Eq => strcmp a b | o => o end.

Definition path_le (a b : str) : Prop := compare_paths a b <> Gt.

#[export] Instance path_le_dec a b : Decision (path_le a b).
Proof. unfold path_le. apply _. Defined.

(** [qsort] with [compare_paths]. *)
Definition sort_paths (paths : list str) : list str := merge_sort path_le paths.

(** The components of a path in order: each with the slashes before it. *)
Fixpoint components (text separators component : str) (in_name : bool) : list (str * str) :=
  match text with
  | [] => match separators, component with [], [] => [] | _, _ => [(separators, component)] end
  | c :: rest =>
      if c =? ch "/" then
        if in_name then (separators, component) :: components rest [c] [] false
        else components rest (separators ++ [c]) [] false
      else components rest separators (component ++ [c]) true
  end.

(** The paths of one level from each of the paths of the level before. *)
Fixpoint extend (paths : list str) (separators component : str) (pattern final directory : bool)
    (next : csh_fields) : X csh_fields :=
  match paths with
  | [] => xret next
  | prefix :: rest =>
      let^ _ := check_interrupt in
      let^ next :=
        (if pattern then pattern_paths prefix separators component next
         else literal_path prefix separators component final directory next) in
      extend rest separators component pattern final directory next
  end.

Fixpoint traverse (comps : list (str * str)) (count : Z) (paths : csh_fields) : X csh_fields :=
  match comps with
  | [] => xret paths
  | (separators, component) :: rest =>
      if bool_decide (paths = []) then xret paths else
      if count + 1 >? PATHNAME_COMPONENT_LIMIT then xfail CSH_EXPAND_LIMIT else
      let^ _ := xmalloc in
      let pattern_component := has_pattern component in
      let final := bool_decide (rest = []) in
      let directory := bool_decide (component = []) && negb (bool_decide (separators = [])) in
      let component := if pattern_component then component else unescape component in
      let^ next := extend paths separators component pattern_component final directory [] in
      traverse rest (count + 1) next
  end.

Fixpoint append_all (paths : list str) (out : csh_fields) : X csh_fields :=
  match paths with
  | [] => xret out
  | p :: rest =>
      let^ _ := check_interrupt in
      let^ out := csh_fields_append out p in
      append_all rest out
  end.

Definition csh_pathname_expand (raw pattern : str) (out : csh_fields) : X csh_fields :=
  let^ _ := check_interrupt in
  if negb (has_pattern pattern) then csh_fields_append out raw else
  let^ normalized := pathname_pattern pattern in
  let^ root := join [] [] [] in
  let^ paths := append_path [] root in
  let^ paths := traverse (components normalized [] [] false) 0 paths in
  let^ _ := check_interrupt in
  if bool_decide (paths = []) then csh_fields_append out raw
  else append_all (sort_paths paths) out.

(** ** Reference semantics

    The paths that a component adds to a prefix, and the paths of a whole
    pattern, as plain list functions. *)

Definition literal_step (prefix separators component : str) (final directory : bool) : list str :=
  let path := prefix ++ separators ++ component in
  if final then
    if directory then match fs_stat path with inr true => [path] | _ => [] end
    else match fs_lstat path with None => [path] | Some _ => [] end
  else [path].

(** A directory that cannot be opened, read to its end and closed has no matches. *)
Definition readable (stream : dir_stream) : bool :=
  bool_decide (d_read_error stream = None) && bool_decide (d_close_error stream = None).

Definition visible (component name : str) : bool :=
  negb (str_eqb name (bs ".")) && negb (str_eqb name (bs "..")) && fn_match component name.

Definition pattern_step (prefix separators component : str) : list str :=
  let directory := prefix ++ separators in
  match fs_opendir (if bool_decide (directory = []) then bs "." else directory) with
  | inl _ => []
  | inr stream =>
      if readable stream
      then (fun name => prefix ++ separators ++ name) <$> List.filter (visible component) (d_entries stream)
      else []
  end.

Definition step (separators component : str) (final : bool) (prefix : str) : list str :=
  if has_pattern component then pattern_step prefix separators component
  else literal_step prefix separators (unescape component) final
         (bool_decide (component = []) && negb (bool_decide (separators = []))).

Fixpoint glob (comps : list (str * str)) (paths : list str) : list str :=
  match comps with
  | [] => paths
  | (separators, component) :: rest =>
      glob rest (paths ≫= step separators component (bool_decide (rest = [])))
  end.

(** ** The code computes it *)

Lemma join_xpost prefix separators component w (Q : str -> proc -> Prop) :
  (forall w', Q (prefix ++ separators ++ component) w') -> xpost (join prefix separators component) w Q.
Proof.
  intros HQ. unfold join. destruct (_ || _); [done|]. apply xpost_bind, xpost_malloc.
  intros w1. by apply xpost_ret.
Qed.

Lemma append_path_xpost paths path w (Q : csh_fields -> proc -> Prop) :
  (forall w', Q (paths ++ [path]) w') -> xpost (append_path paths path) w Q.
Proof.
  intros HQ. unfold append_path. destruct (_ >? _); [done|]. apply xpost_bind, xpost_malloc.
  intros w1. by apply xpost_ret.
Qed.

Lemma fs_result_xpost e next w (Q : csh_fields -> proc -> Prop) :
  Q next w -> xpost (fs_result e next) w Q.
Proof. intros HQ. unfold fs_result. by destruct (filesystem_error e). Qed.

Lemma literal_path_xpost prefix separators component final directory next w :
  xpost (literal_path prefix separators component final directory next) w
    (fun r _ => r = next ++ literal_step prefix separators component final directory).
Proof.
  unfold literal_path, literal_step. apply xpost_bind, join_xpost. intros w1.
  destruct final; [|by apply append_path_xpost]. destruct directory.
  - destruct (fs_stat _) as [e|[]]; [apply fs_result_xpost; by rewrite app_nil_r|by apply append_path_xpost|].
    apply xpost_ret. by rewrite app_nil_r.
  - destruct (fs_lstat _) as [e|]; [apply fs_result_xpost; by rewrite app_nil_r|by apply append_path_xpost].
Qed.

Lemma read_entries_xpost entries prefix separators component next w :
  xpost (read_entries entries prefix separators component next) w (fun r _ =>
    r = next ++ ((fun name => prefix ++ separators ++ name) <$> List.filter (visible component) entries)).
Proof.
  revert next w. induction entries as [|name entries IH]; intros next w; cbn [read_entries List.filter];
    apply xpost_bind, xpost_check; intros w1; [apply xpost_ret; by rewrite app_nil_r|].
  replace (_ || negb (fn_match component name)) with (negb (visible component name))
    by (unfold visible; by rewrite !negb_andb, !negb_involutive).
  destruct (visible component name); cbn [negb]; [|apply IH].
  apply xpost_bind, join_xpost. intros w2. apply xpost_bind, append_path_xpost. intros w3.
  eapply xpost_mono; [apply IH|]. intros r w4 ->. by rewrite <- app_assoc.
Qed.

Lemma pattern_paths_xpost prefix separators component next w :
  xpost (pattern_paths prefix separators component next) w
    (fun r _ => r = next ++ pattern_step prefix separators component).
Proof.
  unfold pattern_paths, pattern_step. apply xpost_bind, join_xpost. intros w1. rewrite app_nil_r.
  destruct (fs_opendir _) as [e|stream]; [apply fs_result_xpost; by rewrite app_nil_r|].
  apply xpost_bind. eapply xpost_mono; [apply read_entries_xpost|]. intros r w2 ->. unfold readable.
  destruct (d_read_error stream) as [e1|]; simpl.
  - destruct (filesystem_error e1); [done|].
    destruct (d_close_error stream) as [e2|]; simpl; [destruct (filesystem_error e2)|]; try done;
      apply xpost_ret; by rewrite app_nil_r.
  - destruct (d_close_error stream) as [e2|]; simpl; [destruct (filesystem_error e2); [done|]|];
      apply xpost_ret; by rewrite ?app_nil_r.
Qed.

Lemma extend_xpost paths separators component final next w :
  xpost (extend paths separators (if has_pattern component then component else unescape component)
           (has_pattern component) final
           (bool_decide (component = []) && negb (bool_decide (separators = []))) next) w
    (fun r _ => r = next ++ (paths ≫= step separators component final)).
Proof.
  revert next w. induction paths as [|prefix paths IH]; intros next w; cbn [extend].
  { apply xpost_ret. by rewrite app_nil_r. }
  apply xpost_bind, xpost_check. intros w1. apply xpost_bind.
  apply xpost_mono with (P := fun r _ => r = next ++ step separators component final prefix).
  - unfold step. destruct (has_pattern component); [apply pattern_paths_xpost|apply literal_path_xpost].
  - intros r w2 ->. eapply xpost_mono; [apply IH|]. intros r w3 ->. cbn. by rewrite <- app_assoc.
Qed.

Lemma glob_nil comps : glob comps [] = [].
Proof. by induction comps as [|[sep comp] comps IH]. Qed.

Lemma traverse_xpost comps count paths w :
  xpost (traverse comps count paths) w (fun r _ => r = glob comps paths).
Proof.
  revert count paths w. induction comps as [|[sep comp] comps IH]; intros count paths w; cbn [traverse glob].
  { by apply xpost_ret. }
  case_bool_decide as E; [subst; apply xpost_ret; symmetry; apply glob_nil|].
  destruct (_ >? _); [done|]. apply xpost_bind, xpost_malloc. intros w1. apply xpost_bind.
  eapply xpost_mono; [apply extend_xpost|]. intros r w2 ->. apply IH.
Qed.

Lemma append_all_xpost paths out w : xpost (append_all paths out) w (fun r _ => r = out ++ paths).
Proof.
  revert out w. induction paths as [|p paths IH]; intros out w; cbn [append_all].
  { apply xpost_ret. by rewrite app_nil_r. }
  apply xpost_bind, xpost_check. intros w1. apply xpost_bind, fields_append_xpost. intros w2.
  eapply xpost_mono; [apply IH|]. intros r w3 ->. by rewrite <- app_assoc.
Qed.

(** What the code adds to the output: the sorted matches, or the literal word. *)
Definition expanded (raw pattern : str) : list str :=
  if has_pattern pattern then
    match glob (components (unescape_slashes (S (length pattern)) pattern) [] [] false) [[]] with
    | [] => [raw]
    | found => sort_paths found
    end
  else [raw].

Lemma pathname_expand_xpost raw pattern out w :
  xpost (csh_pathname_expand raw pattern out) w (fun r _ => r = out ++ expanded raw pattern).
Proof.
  unfold csh_pathname_expand, expanded. apply xpost_bind, xpost_check. intros w1.
  destruct (has_pattern pattern); cbn [negb]; [|by apply fields_append_xpost].
  unfold pathname_pattern. apply xpost_bind, xpost_bind, xpost_malloc. intros w2. apply xpost_ret.
  apply xpost_bind, join_xpost. intros w3. apply xpost_bind, append_path_xpost. intros w4.
  apply xpost_bind. eapply xpost_mono; [apply traverse_xpost|]. intros paths w5 ->.
  apply xpost_bind, xpost_check. intros w6. cbn [app].
  destruct (glob _ _) as [|p found]; [by apply fields_append_xpost|]. apply append_all_xpost.
Qed.

(** ** Which paths a pattern names *)

Definition step_names (separators component : str) (final : bool) (prefix path : str) : Prop :=
  if has_pattern component then
    exists stream name,
      fs_opendir (if bool_decide (prefix ++ separators = []) then bs "." else prefix ++ separators) = inr stream /\
      d_read_error stream = None /\ d_close_error stream = None /\
      name ∈ d_entries stream /\ name <> bs "." /\ name <> bs ".." /\ fn_match component name = true /\
      path = prefix ++ separators ++ name
  else
    path = prefix ++ separators ++ unescape component /\
    (final = true ->
       if decide (component = [] /\ separators <> []) then fs_stat path = inr true else fs_lstat path = None).

(** A path is named component by component: a pattern component by an entry of
    the directory reached so far, a literal one by itself; the last component
    must exist, as a directory after a trailing slash. *)
Inductive names : list (str * str) -> str -> str -> Prop :=
  | names_done prefix : names [] prefix prefix
  | names_step separators component rest prefix middle path :
      step_names separators component (bool_decide (rest = [])) prefix middle ->
      names rest middle path -> names ((separators, component) :: rest) prefix path.

Lemma step_spec separators component final prefix path :
  path ∈ step separators component final prefix <-> step_names separators component final prefix path.
Proof.
  unfold step, step_names. destruct (has_pattern component).
  - unfold pattern_step, readable. destruct (fs_opendir _) as [e|stream].
    { split; [set_solver|]. by intros (? & ? & ? & _). }
    split.
    + destruct (bool_decide (d_read_error stream = None)) eqn:E1; [|set_solver].
      destruct (bool_decide (d_close_error stream = None)) eqn:E2; [|set_solver]. bsimp. cbn [andb].
      rewrite list_elem_of_fmap. intros (name & -> & Hn). apply list_elem_of_In, List.filter_In in Hn as [Hin Hv].
      unfold visible in Hv. bsimp. exists stream, name. split_and!; try tauto. by apply list_elem_of_In.
    + intros (stream' & name & [= <-] & E1 & E2 & Hin & H1 & H2 & Hm & ->). rewrite E1, E2. simpl.
      apply (list_elem_of_fmap_2 (fun name => prefix ++ separators ++ name)).
      apply list_elem_of_In, List.filter_In. split; [by apply list_elem_of_In|].
      unfold visible. apply str_eqb_false in H1, H2. by rewrite H1, H2, Hm.
  - unfold literal_step. destruct final; [|rewrite list_elem_of_singleton; naive_solver].
    destruct (decide (component = [] /\ separators <> [])) as [[-> Hs]|Hn].
    + rewrite bool_decide_eq_true_2, bool_decide_eq_false_2 by done. cbn [andb negb].
      destruct (fs_stat _) as [e|[]] eqn:E; rewrite ?list_elem_of_singleton; split; try set_solver;
        try (by intros ->); intros [-> Hx]; specialize (Hx eq_refl); congruence.
    + replace (bool_decide (component = []) && _) with false.
      2:{ symmetry. apply andb_false_iff. rewrite negb_false_iff, bool_decide_eq_false, bool_decide_eq_true.
          destruct (decide (component = [])), (decide (separators = [])); tauto. }
      destruct (fs_lstat _) as [e|] eqn:E; rewrite ?list_elem_of_singleton; split; try set_solver;
        try (by intros ->); intros [-> Hx]; specialize (Hx eq_refl); congruence.
Qed.

Lemma glob_spec comps paths path :
  path ∈ glob comps paths <-> exists prefix, prefix ∈ paths /\ names comps prefix path.
Proof.
  revert paths. induction comps as [|[sep comp] comps IH]; intros paths; cbn [glob].
  - split; [intros Hp; exists path; split; [done|constructor]|].
    intros (prefix & Hp & Hn). by inversion Hn; subst.
  - rewrite IH. split.
    + intros (middle & Hm & Hn). apply list_elem_of_bind in Hm as (prefix & Hm & Hp).
      exists prefix. split; [done|]. econstructor; [by apply step_spec|done].
    + intros (prefix & Hp & Hn). inversion Hn as [|? ? ? ? middle ? Hs Hr]; subst. exists middle.
      split; [|done]. apply list_elem_of_bind. exists prefix. split; [|done]. by apply step_spec.
Qed.
End Pathname.

(** ** Sorting *)

Section Sorting.
Context `{FL : FilesLaws}.

Lemma coll_between a b c : str_coll a b <> Gt -> str_coll b c <> Gt -> str_coll a c = Eq ->
  str_coll a b = Eq /\ str_coll b c = Eq.
Proof.
  intros Hab Hbc Hac.
  assert (str_coll c a <> Gt) as Hca by (rewrite coll_antisym, Hac; done).
  assert (str_coll b a <> Gt) as Hba by (eapply coll_trans; eauto).
  assert (str_coll c b <> Gt) as Hcb by (eapply coll_trans; eauto).
  rewrite coll_antisym in Hba, Hcb. by destruct (str_coll a b), (str_coll b c).
Qed.

#[export] Instance path_le_total : Total path_le.
Proof.
  intros a b. unfold path_le, compare_paths. rewrite (coll_antisym a b).
  destruct (str_coll a b) eqn:E; simpl; try (by left); try (by right).
  rewrite (strcmp_antisym a b). by destruct (strcmp a b); simpl; [left|left|right].
Qed.

#[export] Instance path_le_trans : Transitive path_le.
Proof.
  intros a b c Hab Hbc. unfold path_le, compare_paths in *.
  assert (str_coll a b <> Gt) as H1 by (by destruct (str_coll a b)).
  assert (str_coll b c <> Gt) as H2 by (by destruct (str_coll b c)).
  pose proof (coll_trans a b c H1 H2) as H3. destruct (str_coll a c) eqn:Eac; try done.
  destruct (coll_between a b c H1 H2 Eac) as [Eab Ebc]. rewrite Eab in Hab. rewrite Ebc in Hbc.
  intros Hgt. destruct (strcmp a b) eqn:E1; try done; destruct (strcmp b c) eqn:E2; try done.
  - apply strcmp_eq in E1 as ->. congruence.
  - apply strcmp_eq in E1 as ->. congruence.
  - apply strcmp_eq in E2 as ->. congruence.
  - assert (strcmp_lt a c) as Hlt by (by transitivity b). unfold strcmp_lt in Hlt. congruence.
Qed.

Lemma sort_paths_sorted paths : StronglySorted path_le (sort_paths paths).
Proof. apply StronglySorted_merge_sort; apply _. Qed.

Lemma sort_paths_perm paths : sort_paths paths ≡ₚ paths.
Proof. apply merge_sort_Permutation. Qed.
End Sorting.

(** ** Success on a willing host *)

Section Success.
Context `{Locale} `{Files}.

Definition path_fits (path : str) : Prop := slen path < SIZE_MAX.

Definition MAX_PATHS : Z := SIZE_MAX / 8 - 2.

(** The host answers for one component: errors are ordinary non-matches and the
    paths fit in memory. *)
Definition answers (separators component : str) (final : bool) (prefix : str) : Prop :=
  if has_pattern component then
    path_fits (prefix ++ separators) /\
    match fs_opendir (if bool_decide (prefix ++ separators = []) then bs "." else prefix ++ separators) with
    | inl e => filesystem_error e = None
    | inr stream => d_read_error stream = None /\ d_close_error stream = None /\
        Forall (fun name => path_fits (prefix ++ separators ++ name)) (d_entries stream)
    end
  else
    let path := prefix ++ separators ++ unescape component in
    path_fits path /\
    from_option (fun e => filesystem_error e = None) True (fs_lstat path) /\
    match fs_stat path with inl e => filesystem_error e = None | inr _ => True end.

Fixpoint answers_all (comps : list (str * str)) (paths : list str) : Prop :=
  match comps with
  | [] => True
  | (separators, component) :: rest =>
      let level := paths ≫= step separators component (bool_decide (rest = [])) in
      Forall (answers separators component (bool_decide (rest = []))) paths /\
      Z.of_nat (length level) <= MAX_PATHS /\ answers_all rest level
  end.

Lemma slen_app a b : slen (a ++ b) = slen a + slen b.
Proof. unfold slen. rewrite length_app. lia. Qed.

Lemma slen_nonneg a : 0 <= slen a.
Proof. unfold slen. lia. Qed.

Lemma join_run prefix separators component w : willing w -> path_fits (prefix ++ separators ++ component) ->
  join prefix separators component w = (inr (prefix ++ separators ++ component), w).
Proof.
  intros Hw Hf. unfold path_fits in Hf. rewrite !slen_app in Hf. unfold join. rewrite !Z.gtb_ltb.
  pose proof (slen_nonneg prefix). pose proof (slen_nonneg separators). pose proof (slen_nonneg component).
  replace (SIZE_MAX - slen separators <? slen prefix) with false by (symmetry; bsimp; lia).
  replace (SIZE_MAX - slen component - 1 <? slen prefix + slen separators) with false by (symmetry; bsimp; lia).
  cbn [orb]. by rewrite (xbind_run _ _ _ _ _ (xmalloc_run w Hw)).
Qed.

Lemma append_path_run paths path w : willing w -> Z.of_nat (length paths) <= MAX_PATHS ->
  append_path paths path w = (inr (paths ++ [path]), w).
Proof.
  intros Hw Hl. unfold append_path. rewrite Z.gtb_ltb.
  replace (SIZE_MAX / 8 - 2 <? _) with false by (symmetry; bsimp; unfold MAX_PATHS in Hl; lia).
  by rewrite (xbind_run _ _ _ _ _ (xmalloc_run w Hw)).
Qed.

Lemma fs_result_run e next w : filesystem_error e = None -> fs_result e next w = (inr next, w).
Proof. intros E. unfold fs_result. by rewrite E. Qed.

Lemma literal_path_run prefix separators component final directory next w :
  willing w -> Z.of_nat (length next) <= MAX_PATHS ->
  (let path := prefix ++ separators ++ component in
   path_fits path /\
   from_option (fun e => filesystem_error e = None) True (fs_lstat path) /\
   match fs_stat path with inl e => filesystem_error e = None | inr _ => True end) ->
  literal_path prefix separators component final directory next w =
    (inr (next ++ literal_step prefix separators component final directory), w).
Proof.
  intros Hw Hn (Hf & Hl & Hs). unfold literal_path, literal_step.
  rewrite (xbind_run _ _ _ _ _ (join_run _ _ _ w Hw Hf)). destruct final; [|by apply append_path_run].
  destruct directory.
  - destruct (fs_stat _) as [e|[]]; [|by apply append_path_run|by rewrite app_nil_r].
    rewrite fs_result_run by done. by rewrite app_nil_r.
  - destruct (fs_lstat _) as [e|]; [|by apply append_path_run].
    rewrite fs_result_run by done. by rewrite app_nil_r.
Qed.

Lemma read_entries_run entries prefix separators component next w :
  willing w -> Forall (fun name => path_fits (prefix ++ separators ++ name)) entries ->
  let found := (fun name => prefix ++ separators ++ name) <$> List.filter (visible component) entries in
  Z.of_nat (length next + length found) <= MAX_PATHS ->
  read_entries entries prefix separators component next w = (inr (next ++ found), w).
Proof.
  intros Hw Hf. revert next. induction Hf as [|name entries Hn Hf IH]; intros next found Hl; unfold found in *;
    cbn [read_entries List.filter] in *; rewrite (xbind_run _ _ _ _ _ (check_run w Hw)).
  { simpl. by rewrite app_nil_r. }
  replace (_ || negb (fn_match component name)) with (negb (visible component name))
    by (unfold visible; by rewrite !negb_andb, !negb_involutive).
  revert Hl. destruct (visible component name); cbn [negb]; [|by apply IH]. intros Hl.
  rewrite fmap_cons in *. cbn [length] in Hl.
  rewrite (xbind_run _ _ _ _ _ (join_run _ _ _ w Hw Hn)).
  rewrite (xbind_run _ _ _ _ _ (append_path_run next _ w Hw ltac:(lia))).
  rewrite IH by (rewrite length_app; cbn [length]; lia). by rewrite <- app_assoc.
Qed.

Lemma step_run separators component final prefix next w :
  willing w -> answers separators component final prefix ->
  Z.of_nat (length next + length (step separators component final prefix)) <= MAX_PATHS ->
  (if has_pattern component
   then pattern_paths prefix separators (if has_pattern component then component else unescape component) next
   else literal_path prefix separators (if has_pattern component then component else unescape component) final
          (bool_decide (component = []) && negb (bool_decide (separators = []))) next) w =
  (inr (next ++ step separators component final prefix), w).
Proof.
  intros Hw Ha Hl. unfold answers, step in *. destruct (has_pattern component).
  2:{ apply literal_path_run; [done|lia|done]. }
  destruct Ha as [Hf Ha]. unfold pattern_paths, pattern_step, readable in *.
  rewrite (xbind_run _ _ _ _ _ (join_run _ _ [] w Hw ltac:(by rewrite app_nil_r))). rewrite app_nil_r.
  destruct (fs_opendir _) as [e|stream]; [rewrite fs_result_run by done; by rewrite app_nil_r|].
  destruct Ha as (E1 & E2 & Hall). rewrite E1, E2 in *. simpl in Hl.
  rewrite (xbind_run _ _ _ _ _ (read_entries_run _ _ _ _ _ w Hw Hall Hl)). done.
Qed.

Lemma extend_run paths separators component final next w :
  willing w -> Forall (answers separators component final) paths ->
  Z.of_nat (length next + length (paths ≫= step separators component final)) <= MAX_PATHS ->
  extend paths separators (if has_pattern component then component else unescape component)
    (has_pattern component) final
    (bool_decide (component = []) && negb (bool_decide (separators = []))) next w =
  (inr (next ++ (paths ≫= step separators component final)), w).
Proof.
  intros Hw Ha. revert next. induction Ha as [|prefix paths Hp Ha IH]; intros next Hl; cbn [extend].
  { simpl. by rewrite app_nil_r. }
  set (f := step separators component final) in *.
  change ((prefix :: paths) ≫= f) with (f prefix ++ (paths ≫= f)) in *. rewrite length_app in Hl.
  rewrite (xbind_run _ _ _ _ _ (check_run w Hw)).
  rewrite (xbind_run _ _ _ _ _ (step_run separators component final prefix next w Hw Hp ltac:(unfold f in Hl; lia))).
  fold f. rewrite IH by (rewrite length_app; lia). by rewrite <- app_assoc.
Qed.

Lemma traverse_run comps count paths w :
  willing w -> answers_all comps paths -> count + Z.of_nat (length comps) <= PATHNAME_COMPONENT_LIMIT ->
  traverse comps count paths w = (inr (glob comps paths), w).
Proof.
  intros Hw. revert count paths. induction comps as [|[sep comp] comps IH]; intros count paths Ha Hc;
    cbn [traverse glob answers_all length] in *; [done|].
  destruct (decide (paths = [])) as [->|E].
  { rewrite (bool_decide_eq_true_2 ([] = [])) by done. unfold xret, ret. do 2 f_equal. symmetry. apply glob_nil. }
  rewrite (bool_decide_eq_false_2 (paths = [])) by done. destruct Ha as (Hall & Hl & Ha).
  rewrite Z.gtb_ltb. replace (PATHNAME_COMPONENT_LIMIT <? count + 1) with false by (symmetry; bsimp; lia).
  rewrite (xbind_run _ _ _ _ _ (xmalloc_run w Hw)).
  rewrite (xbind_run _ _ _ _ _ (extend_run paths sep comp _ [] w Hw Hall ltac:(simpl; lia))).
  apply IH; [done|lia].
Qed.
End Success.

(** ** The scans end *)

Section Scans.
Context `{LL : LocaleLaws}.

Lemma pattern_width_pos text : peek text <> 0 -> (1 <= pattern_width text)%nat.
Proof.
  intros Hp. unfold pattern_width. destruct text as [|c text]; [done|].
  pose proof mb_max_positive as Hm. destruct loc_max as [|m]; [lia|]. cbn [take].
  apply csh_character_length_bound. done.
Qed.

Lemma drop_width_shorter text : peek text <> 0 ->
  (length (drop (pattern_width text) text) < length text)%nat.
Proof.
  intros Hp. pose proof (pattern_width_pos text Hp). rewrite length_drop.
  destruct text; simpl in *; [done|lia].
Qed.

Lemma tail_shorter (text : str) : peek text <> 0 -> (length (tail text) < length text)%nat.
Proof. destruct text; simpl; [done|lia]. Qed.

Definition fuel_free {A} (loop : nat -> str -> A) : Prop := forall f1 f2 text,
  (length text < f1)%nat -> (length text < f2)%nat -> loop f1 text = loop f2 text.

Lemma subexpression_end_fuel kind : fuel_free (fun f text => subexpression_end f text kind).
Proof.
  intros f1. induction f1 as [|f1 IH]; intros f2 text H1 H2; [lia|]. destruct f2 as [|f2]; [lia|].
  cbn [subexpression_end]. destruct (peek text =? 0) eqn:E; cbn [orb]; [done|]. bsimp.
  destruct (peek text =? 47); [done|]. destruct (_ && _); [done|].
  pose proof (drop_width_shorter text E). apply IH; lia.
Qed.

Lemma subexpression_end_suffix f text kind last :
  subexpression_end f text kind = Some last -> (length last <= length text)%nat.
Proof.
  revert text. induction f as [|f IH]; intros text; [done|]. cbn [subexpression_end].
  destruct (_ || _); [done|]. destruct (_ && _); [by intros [= <-]|].
  intros E. apply IH in E. rewrite length_drop in E. lia.
Qed.

Lemma bracket_loop_fuel : fuel_free bracket_loop.
Proof.
  intros f1. induction f1 as [|f1 IH]; intros f2 text H1 H2; [lia|]. destruct f2 as [|f2]; [lia|].
  cbn [bracket_loop]. destruct (peek text =? 0) eqn:E; cbn [orb]; [done|]. bsimp.
  destruct (peek text =? 47); [done|].
  pose proof (tail_shorter text E). pose proof (drop_width_shorter text E).
  destruct (_ && negb (peek (tail text) =? 0) && negb _) eqn:Eb; bsimp.
  { pose proof (drop_width_shorter (tail text) ltac:(tauto)). apply IH; lia. }
  destruct (peek text =? 93); [done|]. destruct (_ && _); [|apply IH; lia].
  destruct (subexpression_end _ _ _) as [last|] eqn:Es; [|done].
  apply subexpression_end_suffix in Es. rewrite length_drop in Es. apply IH; rewrite length_drop; lia.
Qed.

Lemma pattern_loop_fuel : fuel_free pattern_loop.
Proof.
  intros f1. induction f1 as [|f1 IH]; intros f2 text H1 H2; [lia|]. destruct f2 as [|f2]; [lia|].
  cbn [pattern_loop]. destruct (peek text =? 0) eqn:E; [done|]. bsimp.
  pose proof (tail_shorter text E). pose proof (drop_width_shorter text E).
  destruct (_ && negb (peek (tail text) =? 0)) eqn:Eb; bsimp.
  { pose proof (drop_width_shorter (tail text) ltac:(tauto)). apply IH; lia. }
  destruct (_ || _); [done|]. apply IH; lia.
Qed.

Lemma unescape_slashes_fuel : fuel_free unescape_slashes.
Proof.
  intros f1. induction f1 as [|f1 IH]; intros f2 text H1 H2; [lia|]. destruct f2 as [|f2]; [lia|].
  cbn [unescape_slashes]. destruct (peek text =? 0) eqn:E; [done|]. bsimp. cbv zeta. do 2 f_equal.
  pose proof (tail_shorter text E). pose proof (drop_width_shorter text E).
  destruct (_ && negb (peek (tail text) =? 0)) eqn:Eb; bsimp; [|apply IH; lia].
  pose proof (drop_width_shorter (tail text) ltac:(tauto)). apply IH; lia.
Qed.

Lemma unescape_loop_fuel : fuel_free unescape_loop.
Proof.
  intros f1. induction f1 as [|f1 IH]; intros f2 text H1 H2; [lia|]. destruct f2 as [|f2]; [lia|].
  cbn [unescape_loop]. destruct (peek text =? 0) eqn:E; [done|]. bsimp. cbv zeta. f_equal.
  pose proof (tail_shorter text E). pose proof (drop_width_shorter text E).
  destruct (_ && negb (peek (tail text) =? 0)) eqn:Eb; bsimp; [|apply IH; lia].
  pose proof (drop_width_shorter (tail text) ltac:(tauto)). apply IH; lia.
Qed.
End Scans.

(** ** Main theorems *)

(** The components of the pattern that the code walks. *)
Definition pattern_components `{Locale} (pattern : str) : list (str * str) :=
  components (unescape_slashes (S (length pattern)) pattern) [] [] false.

(** C33: pathname expansion adds exactly the paths that the pattern names.  A
    successful expansion appends either the literal word, when the pattern has
    no active character or names no path, or all the paths that it names, by
    [names], and nothing else, in the order of the collation with ties broken
    by bytes. *)
Theorem pathname_expand_correct (L : Locale) (F : Files) (HF : FilesLaws F)
    (raw pattern : str) (out : csh_fields) (w : proc) :
  xpost (csh_pathname_expand raw pattern out) w (fun r _ => exists added, r = out ++ added /\
    ((added = [raw] /\
      (has_pattern pattern = false \/ forall path, ~ names (pattern_components pattern) [] path)) \/
     (has_pattern pattern = true /\ StronglySorted path_le added /\
      forall path, path ∈ added <-> names (pattern_components pattern) [] path))).
Proof.
  eapply xpost_mono; [apply pathname_expand_xpost|]. intros r w' ->. eexists. split; [done|].
  unfold expanded. destruct (has_pattern pattern); [|by left; auto].
  fold (pattern_components pattern).
  assert (forall path, path ∈ glob (pattern_components pattern) [[]] <-> names (pattern_components pattern) [] path) as Hg.
  { intros path. rewrite glob_spec. setoid_rewrite list_elem_of_singleton. naive_solver. }
  destruct (glob (pattern_components pattern) [[]]) as [|p found].
  - left. split; [done|]. right. intros path Hn. apply Hg in Hn. set_solver.
  - right. split_and!; [done|apply sort_paths_sorted|]. intros path. rewrite <- Hg. by rewrite sort_paths_perm.
Qed.

(** Pathname expansion succeeds.  With memory and no cancellation, and as
    long as the host's errors are the ordinary ones (a missing, inaccessible or
    unresolvable component), expansion does not fail, for patterns of up to
    4096 components; the result is the literal word or the sorted matches. *)
Theorem pathname_expand_succeeds (L : Locale) (F : Files) (raw pattern : str) (out : csh_fields) (w : proc)
    (Hw : willing w) (Hraw : path_fits raw)
    (Hcount : Z.of_nat (length (pattern_components pattern)) <= PATHNAME_COMPONENT_LIMIT)
    (Hhost : answers_all (pattern_components pattern) [[]])
    (Hfit : Forall path_fits (glob (pattern_components pattern) [[]]))
    (Hout : Z.of_nat (length out + length (expanded raw pattern)) <= MAX_PATHS) :
  csh_pathname_expand raw pattern out w = (inr (out ++ expanded raw pattern), w).
Proof.
  unfold csh_pathname_expand. rewrite (xbind_run _ _ _ _ _ (check_run w Hw)).
  unfold expanded in *. destruct (has_pattern pattern); cbn [negb].
  2:{ apply fields_append_run; [done|split; [done|]]. simpl in Hout. unfold MAX_PATHS in Hout. lia. }
  unfold pathname_pattern. erewrite xbind_run; [|by rewrite (xbind_run _ _ _ _ _ (xmalloc_run w Hw))].
  rewrite (xbind_run _ _ _ _ _ (join_run [] [] [] w Hw ltac:(by vm_compute))).
  rewrite (xbind_run _ _ _ _ _ (append_path_run [] _ w Hw ltac:(by vm_compute))).
  fold (pattern_components pattern) in *. cbn [app].
  rewrite (xbind_run _ _ _ _ _ (traverse_run _ 0 [[]] w Hw Hhost ltac:(lia))).
  rewrite (xbind_run _ _ _ _ _ (check_run w Hw)).
  destruct (glob (pattern_components pattern) [[]]) as [|p found] eqn:Eg.
  { rewrite bool_decide_eq_true_2 by done. apply fields_append_run; [done|split; [done|]].
    simpl in Hout. unfold MAX_PATHS in Hout. lia. }
  rewrite bool_decide_eq_false_2 by done.
  assert (Forall path_fits (sort_paths (p :: found))) as Hs by (by rewrite sort_paths_perm).
  revert Hs Hout. generalize (sort_paths (p :: found)) as l. clear -Hw.
  intros l. revert out. induction l as [|q l IH]; intros out Hs Hout; cbn [append_all].
  { by rewrite app_nil_r. }
  apply Forall_cons in Hs as [Hq Hs]. rewrite (xbind_run _ _ _ _ _ (check_run w Hw)).
  cbn [length] in Hout. unfold MAX_PATHS in *.
  rewrite (xbind_run _ _ _ _ _ (fields_append_run out q w Hw ltac:(split; [done|lia]))).
  rewrite IH; [by rewrite <- app_assoc|done|]. rewrite length_app. simpl. lia.
Qed.

(** The pattern scans end.  In every encoding, however its characters are
    cut by the lookahead, each scan over a pattern advances, so the bound of one
    step per byte never cuts one short: every larger bound gives the same
    answer. *)
Theorem pathname_scans_end (L : Locale) (HL : LocaleLaws L) (text : str) (f : nat)
    (Hf : (length text < f)%nat) :
  bracket_loop f text = bracket_loop (S (length text)) text /\
  pattern_loop f text = has_pattern text /\
  unescape_slashes f text = unescape_slashes (S (length text)) text /\
  unescape_loop f text = unescape text.
Proof.
  split_and!; [apply bracket_loop_fuel|apply pattern_loop_fuel|apply unescape_slashes_fuel
    |apply unescape_loop_fuel]; lia.
Qed.

Lemma pathname_scans_end_witness :
  pattern_loop (H:=utf8_locale) 100 (bs "a[!]x]") = has_pattern (H:=utf8_locale) (bs "a[!]x]").
Proof. refine (proj1 (proj2 (pathname_scans_end utf8_locale utf8_locale_laws (bs "a[!]x]") 100 _))). vm_compute. lia. Defined.

(** ** A concrete host *)

(** Matching of ['*'], ['?'] and literal bytes. *)
Fixpoint star_match (fuel : nat) (pattern text : str) : bool :=
  match fuel with
  | O => false
  | S f =>
      match pattern, text with
      | [], [] => true
      | [], _ :: _ => false
      | p :: pattern', _ =>
          if p =? ch "*" then
            star_match f pattern' text || match text with [] => false | _ :: text' => star_match f pattern text' end
          else match text with
               | [] => false
               | c :: text' => ((p =? ch "?") || (p =? c)) && star_match f pattern' text'
               end
      end
  end.

(** One directory with a few files, bytes as the collation. *)
Definition tiny_files : Files := {|
  fs_lstat := fun path => if in_set 47 path then Some ENOENT else None;
  fs_stat := fun path => inl ENOENT;
  fs_opendir := fun path => if str_eqb path (bs ".")
    then inr (mk_dir [bs "."; bs "b.c"; bs ".."; bs ".hidden.c"; bs "x.h"; bs "a.c"] None None)
    else inl ENOENT;
  fn_match := fun pattern name =>
    negb ((peek name =? ch ".") && negb (peek pattern =? ch ".")) &&
    star_match (S (length pattern + length name)) pattern name;
  str_coll := strcmp |}.

#[export] Instance tiny_files_laws : FilesLaws tiny_files.
Proof.
  split; [apply strcmp_antisym|]. simpl. intros a b c Hab Hbc Hac.
  destruct (strcmp a b) eqn:E1; try done; destruct (strcmp b c) eqn:E2; try done.
  - apply strcmp_eq in E1 as ->. congruence.
  - apply strcmp_eq in E1 as ->. congruence.
  - apply strcmp_eq in E2 as ->. congruence.
  - assert (strcmp_lt a c) as Hlt by (by transitivity b). unfold strcmp_lt in Hlt. congruence.
Qed.

Lemma pathname_expand_correct_witness :
  names (H:=c_locale) (H0:=tiny_files) (pattern_components (H:=c_locale) (bs "*.c")) [] (bs "a.c") /\
  ~ names (H:=c_locale) (H0:=tiny_files) (pattern_components (H:=c_locale) (bs "*.c")) [] (bs ".hidden.c").
Proof.
  pose proof (pathname_expand_correct c_locale tiny_files tiny_files_laws (bs "*.c") (bs "*.c") [] quiet_proc) as H.
  unfold xpost in H. apply post_run in H.
  replace (fst (csh_pathname_expand (bs "*.c") (bs "*.c") [] quiet_proc))
    with (inr [bs "a.c"; bs "b.c"] : csh_expand_result + csh_fields) in H by (vm_compute; reflexivity).
  destruct H as (added & E & [[Ha _]|(_ & _ & Hn)]); cbn [app] in E; [rewrite Ha in E; discriminate E|].
  rewrite <- E in Hn.
  split; [apply Hn; set_solver|]. intros Hx. apply Hn in Hx. set_solver.
Defined.

Lemma pathname_expand_succeeds_witness :
  csh_pathname_expand (H:=c_locale) (H0:=tiny_files) (bs "*.c") (bs "*.c") [] quiet_proc =
  (inr [bs "a.c"; bs "b.c"], quiet_proc).
Proof.
  rewrite (pathname_expand_succeeds c_locale tiny_files); [vm_compute; reflexivity|..].
  - split; reflexivity.
  - vm_compute. reflexivity.
  - vm_compute. discriminate.
  - replace (pattern_components (bs "*.c")) with [([] : str, bs "*.c")] by (vm_compute; reflexivity).
    cbn [answers_all]. split; [apply Forall_singleton|split; [vm_compute; discriminate|exact I]].
    unfold answers. replace (has_pattern (bs "*.c")) with true by (vm_compute; reflexivity).
    split; [vm_compute; reflexivity|]. cbn [app fs_opendir tiny_files].
    change (str_eqb _ _) with true. split_and!; [reflexivity|reflexivity|].
    repeat (apply Forall_cons; split; [vm_compute; reflexivity|]). apply Forall_nil_2.
  - replace (glob _ _) with [bs "b.c"; bs "a.c"] by (vm_compute; reflexivity).
    repeat (apply Forall_cons; split; [vm_compute; reflexivity|]). apply Forall_nil_2.
  - vm_compute. discriminate.
Defined.
