(* ===== verification/Fields.v ===== *)
(** * Field splitting and pattern construction (src/fields.c)

    The final stage of word expansion.  A field is a list of spans; the cursor
    of the code is the list of the spans not yet left and an offset into the
    first of them.  The parallel buffers [raw] and [protection] are one list of
    cells.  The C library enters through [Locale] (character lengths) and
    [Files] (pathname expansion). *)

From stdpp Require Import base list gmap strings.
From S2P Require Import Prelude Output Options Character State Expansion Pathname.

(** [FIELD_QUOTED] and [FIELD_LITERAL] of one byte of [protection]. *)
Record field_protection : Type := mk_protection { FIELD_QUOTED : bool; FIELD_LITERAL : bool }.

(** One position of [raw] and [protection]. *)
Abbreviation cell := (byte * field_protection)%type.

Definition bytes_of (cells : list cell) : str := fst <$> cells.

Record field_cursor : Type := mk_cursor { cu_spans : list csh_expand_span; cu_offset : nat }.

Definition sp_length (span : csh_expand_span) : nat := length (sp_text span).

(** Only implicit empty expansion results are skipped. *)
Fixpoint current_loop (spans : list csh_expand_span) (offset : nat)
    : option csh_expand_span * field_cursor :=
  match spans with
  | [] => (None, mk_cursor [] offset)
  | span :: rest =>
      if (offset <? sp_length span)%nat || ((sp_length span =? 0)%nat && sp_keep_empty span)
      then (Some span, mk_cursor spans offset)
      else current_loop rest 0
  end.

Definition current (cursor : field_cursor) : option csh_expand_span * field_cursor :=
  current_loop (cu_spans cursor) (cu_offset cursor).

Section Fields.
Context `{Locale} `{Files}.

(** The scan of [ifs] for a character whose bytes [text] starts with. *)
Fixpoint delimiter_loop (fuel : nat) (text ifs : str) : nat * bool :=
  match fuel with
  | O => (0%nat, false)
  | S f =>
      match ifs with
      | [] => (0%nat, false)
      | c :: _ =>
          let length := match loc_mbrlen false ifs with MbLength n => n | _ => 1%nat end in
          if starts_with (take length ifs) text
          then (length, (length =? 1)%nat && in_set c [ch " "; 9; 10])
          else delimiter_loop f text (drop length ifs)
      end
  end.

(** The length of the delimiter at [offset], 0 for none, and [*white]. *)
Definition delimiter (span : option csh_expand_span) (offset : nat) (ifs : str) : nat * bool :=
  match span with
  | None => (0%nat, false)
  | Some span =>
      if negb (sp_split span) || negb (bool_decide (sp_quote span = CSH_QUOTE_NONE)) ||
         (offset =? sp_length span)%nat then (0%nat, false)
      else delimiter_loop (S (length ifs)) (drop offset (sp_text span)) ifs
  end.

(** The loop over [raw] from [i = begin + distance] on. *)
Fixpoint subexpression_loop (fuel : nat) (cells : list cell) (kind : byte) (distance : nat)
    (context : csh_expand_context) (quoted : bool) : X (nat * bool) :=
  match fuel with
  | O => xret (0%nat, quoted)
  | S f =>
      match cells with
      | [] => xret (0%nat, quoted)
      | (b, p) :: rest =>
          let^ _ := check_interrupt in
          if bool_decide (context = CSH_EXPAND_ARGUMENT) && (b =? ch "/") then xret (0%nat, quoted) else
          let quoted := FIELD_QUOTED p || quoted in
          match rest with
          | (b', p') :: _ =>
              if (1 <? distance)%nat && (b =? kind) && (b' =? ch "]")
              then xret (S distance, FIELD_QUOTED p' || quoted)
              else let width := csh_character_length (bytes_of cells) false true in
                   subexpression_loop f (drop width cells) kind (distance + width) context quoted
          | [] => let width := csh_character_length (bytes_of cells) false true in
                  subexpression_loop f (drop width cells) kind (distance + width) context quoted
          end
      end
  end.

(** [cells] is [raw] from [begin] on; the result is [*end - begin] and [*quoted]. *)
Definition bracket_subexpression (cells : list cell) (context : csh_expand_context) : X (nat * bool) :=
  match cells with
  | _ :: (((kind, _) :: _) as rest) =>
      if in_set kind (bs ":.=") then subexpression_loop (length cells) rest kind 1 context false
      else xret (0%nat, false)
  | _ => xret (0%nat, false)
  end.

(** [bracket] is zero outside a list, one before its first member, two after an
    initial ['!'] and three once [']'] can close it. *)
Fixpoint make_pattern_loop (fuel : nat) (cells : list cell) (context : csh_expand_context)
    (pending_escape : bool) (bracket : Z) (pattern : str) : X str :=
  match fuel with
  | O => xret pattern
  | S f =>
      match cells with
      | [] => xret pattern
      | (byte, p) :: rest =>
          let width := csh_character_length (bytes_of cells) false true in
          let quoted := FIELD_QUOTED p in
          let^ _ := check_interrupt in
          if (1 <? width)%nat then
            make_pattern_loop f (drop width cells) context false
              (if bracket =? 0 then 0 else 3) (pattern ++ take width (bytes_of cells))
          else
          let bracket := if bool_decide (context = CSH_EXPAND_ARGUMENT) && (byte =? ch "/") then 0 else bracket in
          if pending_escape then
            make_pattern_loop f rest context false (if bracket =? 0 then 0 else 3) (pattern ++ [byte])
          else
          let^ (distance, force_literal) :=
            (if negb (bracket =? 0) && (byte =? ch "[") && negb quoted
             then bracket_subexpression cells context else xret (0%nat, false)) in
          if negb (distance =? 0)%nat && negb force_literal then
            make_pattern_loop f (drop (S distance) cells) context false 3
              (pattern ++ take (S distance) (bytes_of cells))
          else
          let force_literal := negb (distance =? 0)%nat && force_literal in
          let protect := force_literal || ((byte =? ch "\") && (quoted || FIELD_LITERAL p)) ||
                         (quoted && in_set byte (bs "*?[]-!^")) in
          let pending := negb protect && (byte =? ch "\") in
          let pattern := pattern ++ (if protect then [ch "\"; byte] else [byte]) in
          if pending then make_pattern_loop f rest context true bracket pattern else
          let bracket :=
            if bracket =? 0 then if (byte =? ch "[") && negb quoted && negb force_literal then 1 else 0
            else if (bracket =? 1) && (byte =? ch "!") && negb quoted then 2
            else if (bracket =? 3) && (byte =? ch "]") && negb quoted then 0
            else 3 in
          make_pattern_loop f rest context false bracket pattern
      end
  end.

Definition make_pattern (cells : list cell) (context : csh_expand_context) : X str :=
  make_pattern_loop (S (length cells)) cells context false 0 [].

Definition emit (cells : list cell) (context : csh_expand_context) (shell_options : Z)
    (out : csh_fields) : X csh_fields :=
  let raw := bytes_of cells in
  match context with
  | CSH_EXPAND_ASSIGNMENT | CSH_EXPAND_REDIRECTION | CSH_EXPAND_HEREDOC => csh_fields_append out raw
  | CSH_EXPAND_ARGUMENT =>
      if opt_on shell_options CSH_OPT_NOGLOB then csh_fields_append out raw else
      let^ pattern := make_pattern cells context in csh_pathname_expand raw pattern out
  | CSH_EXPAND_PATTERN =>
      let^ pattern := make_pattern cells context in csh_fields_append out pattern
  end.

(** The validation loop: the total length of the spans. *)
Fixpoint span_total (spans : list csh_expand_span) (total : Z) : X Z :=
  match spans with
  | [] => xret total
  | span :: rest =>
      let^ _ := check_interrupt in
      if Z.of_nat (sp_length span) >? (SIZE_MAX - 1) / 2 - total then xfail CSH_EXPAND_NOMEM else
      if (sp_split span && negb (bool_decide (sp_quote span = CSH_QUOTE_NONE))) ||
         (sp_keep_empty span && bool_decide (sp_quote span = CSH_QUOTE_NONE)) ||
         in_set 0 (sp_text span) then xfail CSH_EXPAND_INVALID
      else span_total rest (total + Z.of_nat (sp_length span))
  end.

Definition span_flags (span : csh_expand_span) : field_protection :=
  mk_protection (negb (bool_decide (sp_quote span = CSH_QUOTE_NONE)))
    (bool_decide (sp_origin span = CSH_EXPAND_LITERAL)).

(** [while (n != 0 && white)]: the cursor and the delimiter it stops at. *)
Fixpoint skip_white (fuel : nat) (cursor : field_cursor) (n : nat) (white : bool) (ifs : str)
    : X (field_cursor * nat) :=
  match fuel with
  | O => xret (cursor, 0%nat)
  | S f =>
      if negb (n =? 0)%nat && white then
        let^ _ := check_interrupt in
        let '(span, cursor) := current (mk_cursor (cu_spans cursor) (cu_offset cursor + n)) in
        let '(n, white) := delimiter span (cu_offset cursor) ifs in
        skip_white f cursor n white ifs
      else xret (cursor, n)
  end.

(** A bound on the positions that are left. *)
Definition remaining (spans : list csh_expand_span) : nat :=
  sum_list_with (fun span => S (sp_length span)) spans.

Fixpoint split_loop (fuel : nat) (cursor : field_cursor) (context : csh_expand_context) (ifs : str)
    (shell_options : Z) (raw : list cell) (keep : bool) (out : csh_fields) : X csh_fields :=
  match fuel with
  | O => xret out
  | S f =>
      let '(span, cursor) := current cursor in
      match span with
      | None =>
          if negb (bool_decide (raw = [])) || keep then emit raw context shell_options out else xret out
      | Some span =>
          let^ _ := check_interrupt in
          if (sp_length span =? 0)%nat then
            split_loop f (mk_cursor (tail (cu_spans cursor)) (cu_offset cursor)) context ifs shell_options raw true out
          else
          let '(n, white) :=
            if bool_decide (context = CSH_EXPAND_ARGUMENT)
            then delimiter (Some span) (cu_offset cursor) ifs else (0%nat, false) in
          if (n =? 0)%nat then
            let text := drop (cu_offset cursor) (sp_text span) in
            let width := csh_character_length text false true in
            split_loop f (mk_cursor (cu_spans cursor) (cu_offset cursor + width)) context ifs shell_options
              (raw ++ ((fun b => (b, span_flags span)) <$> take width text)) keep out
          else
          let^ (cursor, n) := skip_white (S (remaining (cu_spans cursor))) cursor n white ifs in
          let cursor := mk_cursor (cu_spans cursor) (cu_offset cursor + n) in
          let^ out :=
            (if negb (bool_decide (raw = [])) || keep || negb (n =? 0)%nat
             then emit raw context shell_options out else xret out) in
          split_loop f cursor context ifs shell_options [] false out
      end
  end.

Definition finish_field (field : csh_expand_field) (context : csh_expand_context) (ifs : str)
    (shell_options : Z) (out : csh_fields) : X csh_fields :=
  let keep := negb (bool_decide (context = CSH_EXPAND_ARGUMENT)) in
  let^ _ := span_total field 0 in
  let^ raw := xlift malloc in
  let^ pattern := xlift malloc in
  let^ protection := xlift malloc in
  if negb raw || negb pattern || negb protection then xfail CSH_EXPAND_NOMEM else
  split_loop (S (remaining field)) (mk_cursor field 0) context ifs shell_options [] keep out.

Fixpoint finish_fields (fields : list csh_expand_field) (context : csh_expand_context) (ifs : str)
    (shell_options : Z) (out : csh_fields) : X csh_fields :=
  match fields with
  | [] => xret out
  | field :: rest =>
      let^ _ := check_interrupt in
      let^ out := finish_field field context ifs shell_options out in
      finish_fields rest context ifs shell_options out
  end.

(** [code] is [None] for [CSH_EXPAND_OK], [fragment] [None] for
    [CSH_FRAGMENT_ROOT]. *)
Record csh_expand_error : Type := mk_expand_error {
  ee_code : option csh_expand_result; ee_fragment : option nat;
  ee_position : csh_position; ee_message : str }.

Definition fields_message (result : csh_expand_result) : str :=
  match result with
  | CSH_EXPAND_NOMEM => bs "field expansion allocation failed"
  | CSH_EXPAND_IO => bs "pathname expansion I/O failed"
  | CSH_EXPAND_INTERRUPTED => bs "field expansion interrupted"
  | CSH_EXPAND_LIMIT => bs "pathname expansion limit exceeded"
  | _ => bs "invalid intermediate expansion"
  end.

Definition csh_expand_fields (state : csh_state) (expansion : csh_expansion)
    : M ((csh_expand_result + csh_fields) * csh_expand_error) :=
  let '(found, view) := csh_state_get_variable state (Some (bs "IFS")) in
  let* result :=
    (if negb (bool_decide (found = CSH_STATE_OK)) then xfail CSH_EXPAND_INVALID else
     let ifs := default [ch " "; 9; 10] (view_value view) in
     let^ out := finish_fields (ex_fields expansion) (ex_context expansion) ifs
                   (options (csh_state_get_info state)) [] in
     let^ _ := check_interrupt in
     xret out) in
  ret (result, match result with
               | inr _ => mk_expand_error None None no_position []
               | inl e => mk_expand_error (Some e) None no_position (fields_message e)
               end).
End Fields.
