(* ===== verification/FieldSplitting.v ===== *)
(** * Field splitting is correct

    A field is read as a sequence of tokens: text, explicit empty positions and
    IFS delimiters.  [fields_of] states the rule of the POSIX shell over tokens,
    without a scan or a buffer, and the loops of src/fields.c are proved to
    produce exactly its fields.  The quoting lemmas of [make_pattern] follow. *)

From stdpp Require Import base list gmap strings.
From S2P Require Import Prelude Output Options Character State Expansion Pathname Fields.

(** ** Computations that leave a willing process as it is *)

Definition steady {A} (m : X A) : Prop := forall w, willing w -> snd (m w) = w.

Section Steady.
Context {A B : Type}.

Lemma steady_ret (a : A) : steady (xret a).
Proof. done. Qed.

Lemma steady_fail e : steady (xfail e : X A).
Proof. done. Qed.

Lemma steady_bind (m : X A) (f : A -> X B) : steady m -> (forall a, steady (f a)) -> steady (xbind m f).
Proof.
  intros Hm Hf w Hw. unfold xbind, bind. specialize (Hm w Hw). destruct (m w) as [[e|a] w'];
    simpl in *; subst; [done|by apply Hf].
Qed.
End Steady.

Lemma steady_check : steady check_interrupt.
Proof. intros w Hw. by rewrite check_run. Qed.

Lemma steady_malloc : steady xmalloc.
Proof. intros w Hw. by rewrite xmalloc_run. Qed.

#[export] Hint Resolve steady_ret steady_fail steady_bind steady_check steady_malloc : cshell.

Ltac steadily := repeat first
  [ apply steady_ret | apply steady_fail | apply steady_check | apply steady_malloc
  | apply steady_bind; [|intros ?] | progress intros | assumption
  | match goal with |- steady (match ?x with _ => _ end) => destruct x end
  | progress auto with cshell ].

Section SteadyPaths.
Context `{Locale} `{Files}.

Lemma steady_append out text : steady (csh_fields_append out text).
Proof. unfold csh_fields_append. steadily. Qed.

Lemma steady_join a b c : steady (join a b c).
Proof. unfold join. steadily. Qed.

Lemma steady_append_path a b : steady (append_path a b).
Proof. unfold append_path. steadily. Qed.

Lemma steady_fs_result e next : steady (fs_result e next).
Proof. unfold fs_result. steadily. Qed.
#[local] Hint Resolve steady_append steady_join steady_append_path steady_fs_result : cshell.

Lemma steady_entries entries a b c next : steady (read_entries entries a b c next).
Proof. revert next. induction entries; simpl; steadily. Qed.
#[local] Hint Resolve steady_entries : cshell.

Lemma steady_extend paths a b pattern final directory next :
  steady (extend paths a b pattern final directory next).
Proof.
  revert next. induction paths as [|p paths IH]; simpl; unfold pattern_paths, literal_path; steadily.
Qed.
#[local] Hint Resolve steady_extend : cshell.

Lemma steady_traverse comps count paths : steady (traverse comps count paths).
Proof.
  revert count paths. induction comps as [|[a b] comps IH]; simpl; steadily.
Qed.
#[local] Hint Resolve steady_traverse : cshell.

Lemma steady_append_all paths out : steady (append_all paths out).
Proof. revert out. induction paths; simpl; steadily. Qed.
#[local] Hint Resolve steady_append_all : cshell.

Lemma steady_pathname raw pattern out : steady (csh_pathname_expand raw pattern out).
Proof. unfold csh_pathname_expand, pathname_pattern. steadily. Qed.

Lemma steady_subexpression f cells kind d ctx q : steady (subexpression_loop f cells kind d ctx q).
Proof.
  revert cells d q. induction f as [|f IH]; simpl; [steadily|]. intros [|[b p] [|[b' p'] rest]] d q; steadily.
Qed.
#[local] Hint Resolve steady_pathname steady_subexpression : cshell.

Lemma steady_bracket cells ctx : steady (bracket_subexpression cells ctx).
Proof.
  destruct cells as [|c [|[k p] rest]]; cbn [bracket_subexpression]; [steadily..|].
  destruct (in_set k _); [apply steady_subexpression|steadily].
Qed.
#[local] Hint Resolve steady_bracket : cshell.

Lemma steady_pattern f cells ctx e b pattern : steady (make_pattern_loop f cells ctx e b pattern).
Proof.
  revert cells e b pattern. induction f as [|f IH]; cbn [make_pattern_loop]; [steadily|].
  intros [|[x p] rest] e b pattern; [steadily|].
  cbv zeta. steadily.
Qed.
#[local] Hint Resolve steady_pattern : cshell.

Lemma steady_emit cells ctx opts out : steady (emit cells ctx opts out).
Proof. unfold emit, make_pattern. steadily. Qed.
End SteadyPaths.

(** ** Tokens *)

Inductive token : Type := TEmpty | TText (text : list cell) | TDelim (white : bool).

Section Tokens.
Context `{LL : LocaleLaws}.
Variable context : csh_expand_context.
Variable ifs : str.

(** The delimiter test of the main loop. *)
Definition separator (span : csh_expand_span) (offset : nat) : nat * bool :=
  if bool_decide (context = CSH_EXPAND_ARGUMENT) then delimiter (Some span) offset ifs else (0%nat, false).

Definition text_width (span : csh_expand_span) (offset : nat) : nat :=
  csh_character_length (drop offset (sp_text span)) false true.

Definition text_cells (span : csh_expand_span) (offset : nat) : list cell :=
  (fun b => (b, span_flags span)) <$> take (text_width span offset) (drop offset (sp_text span)).

(** The tokens of a span from an offset on. *)
Fixpoint scan (fuel : nat) (span : csh_expand_span) (offset : nat) : list token :=
  match fuel with
  | O => []
  | S f =>
      if (sp_length span <=? offset)%nat then []
      else if (fst (separator span offset) =? 0)%nat
      then TText (text_cells span offset) :: scan f span (offset + text_width span offset)
      else TDelim (snd (separator span offset)) :: scan f span (offset + fst (separator span offset))
  end.

Definition span_tokens (span : csh_expand_span) (offset : nat) : list token :=
  if (sp_length span =? 0)%nat then if sp_keep_empty span then [TEmpty] else []
  else scan (sp_length span - offset) span offset.

Definition field_tokens (field : csh_expand_field) : list token := flat_map (fun s => span_tokens s 0) field.

Definition cursor_tokens (c : field_cursor) : list token :=
  match cu_spans c with
  | [] => []
  | s :: rest => span_tokens s (cu_offset c) ++ field_tokens rest
  end.

Lemma delimiter_loop_bound f text i n white :
  delimiter_loop f text i = (n, white) -> (n <= length text)%nat.
Proof.
  revert i. induction f as [|f IH]; intros i; simpl; [intros [= <- _]; lia|].
  destruct i as [|c i]; [intros [= <- _]; lia|].
  destruct (starts_with _ text) eqn:E; [|apply IH].
  intros [= <- _]. apply starts_with_app in E as [r ->]. rewrite length_app, length_take.
  destruct (loc_mbrlen false (c :: i)) as [| | |m] eqn:Em; simpl; try lia.
  apply mbrlen_bound in Em. simpl in Em. lia.
Qed.

Lemma separator_bound span offset : (offset < sp_length span)%nat ->
  (offset + fst (separator span offset) <= sp_length span)%nat.
Proof.
  intros Ho. unfold separator, delimiter. destruct (bool_decide _); [|simpl; lia].
  destruct (_ || _); [simpl; lia|].
  destruct (delimiter_loop _ _ ifs) as [n white] eqn:E. apply delimiter_loop_bound in E.
  rewrite length_drop in E. unfold sp_length in *. simpl. lia.
Qed.

Lemma text_width_bound span offset : (offset < sp_length span)%nat ->
  (1 <= text_width span offset)%nat /\ (offset + text_width span offset <= sp_length span)%nat.
Proof.
  intros Ho. unfold text_width, sp_length in *.
  pose proof (csh_character_length_bound (drop offset (sp_text span)) false) as Hb.
  rewrite length_drop in Hb. assert (drop offset (sp_text span) <> []) as Hd.
  { intros E. apply (f_equal length) in E. rewrite length_drop in E. simpl in E. lia. }
  specialize (Hb Hd). lia.
Qed.

Lemma scan_fuel f1 f2 span offset :
  (sp_length span - offset <= f1)%nat -> (sp_length span - offset <= f2)%nat ->
  scan f1 span offset = scan f2 span offset.
Proof.
  revert f2 offset. induction f1 as [|f1 IH]; intros [|f2] offset H1 H2; simpl; [done| | |].
  - by rewrite (proj2 (Nat.leb_le (sp_length span) offset) ltac:(lia)).
  - by rewrite (proj2 (Nat.leb_le (sp_length span) offset) ltac:(lia)).
  - destruct (Nat.leb_spec (sp_length span) offset) as [|Hlt]; [done|].
    pose proof (text_width_bound span offset Hlt).
    destruct (Nat.eqb_spec (fst (separator span offset)) 0); f_equal; apply IH; lia.
Qed.

(** ** The cursor walks the tokens *)

Definition cursor_wf (c : field_cursor) : Prop :=
  match cu_spans c with [] => True | s :: _ => (cu_offset c <= sp_length s)%nat end.

Definition cursor_left (c : field_cursor) : nat := remaining (cu_spans c) - cu_offset c.

Lemma span_tokens_end span : span_tokens span (sp_length span) = if (sp_length span =? 0)%nat && sp_keep_empty span then [TEmpty] else [].
Proof.
  unfold span_tokens. destruct (sp_length span =? 0)%nat; [done|]. by rewrite Nat.sub_diag.
Qed.

Lemma remaining_cons s rest : remaining (s :: rest) = (S (sp_length s) + remaining rest)%nat.
Proof. done. Qed.

(** What [current] stops at. *)
Definition at_position (span : csh_expand_span) (c : field_cursor) : Prop :=
  exists rest, cu_spans c = span :: rest /\
    ((cu_offset c < sp_length span)%nat \/ (sp_length span = 0%nat /\ sp_keep_empty span = true /\ cu_offset c = 0%nat)).

Lemma current_spec c found c' : cursor_wf c -> current c = (found, c') ->
  cursor_tokens c' = cursor_tokens c /\ (cursor_left c' <= cursor_left c)%nat /\
  match found with None => cursor_tokens c = [] | Some span => at_position span c' end.
Proof.
  destruct c as [spans offset]. unfold current. simpl. revert offset.
  induction spans as [|s spans IH]; intros offset Hw; simpl; [by intros [= <- <-]|].
  unfold cursor_wf in Hw. simpl in Hw.
  destruct (Nat.ltb_spec offset (sp_length s)) as [Hlt|Hge]; simpl.
  { intros [= <- <-]. split_and!; [done|lia|]. eexists. simpl. eauto. }
  destruct ((sp_length s =? 0)%nat && sp_keep_empty s) eqn:E; simpl.
  { intros [= <- <-]. bsimp. destruct E as [E1 E2]. apply Nat.eqb_eq in E1.
    split_and!; [done|lia|]. eexists. simpl. split; [done|]. right. split_and!; auto. lia. }
  assert (offset = sp_length s) as -> by lia.
  assert (cursor_tokens (mk_cursor (s :: spans) (sp_length s)) = cursor_tokens (mk_cursor spans 0)) as Et.
  { unfold cursor_tokens at 1. cbn [cu_spans cu_offset]. rewrite span_tokens_end, E. cbn [app]. by destruct spans. }
  intros Hc. rewrite Et. apply IH in Hc; [|unfold cursor_wf; simpl; destruct spans; [done|lia]].
  destruct Hc as (H1 & H2 & H3). split_and!; [done| |done].
  unfold cursor_left in *. cbn [cu_spans cu_offset] in *. rewrite remaining_cons. lia.
Qed.

Lemma at_position_wf span c : at_position span c -> cursor_wf c.
Proof. intros (rest & E & Hp). unfold cursor_wf. rewrite E. lia. Qed.

Lemma advance_tokens span c : at_position span c ->
  let '(n, white) := separator span (cu_offset c) in
  let width := text_width span (cu_offset c) in
  if (sp_length span =? 0)%nat then
    let c' := mk_cursor (tail (cu_spans c)) (cu_offset c) in
    cursor_tokens c = TEmpty :: cursor_tokens c' /\ cursor_wf c' /\ (cursor_left c' < cursor_left c)%nat
  else if (n =? 0)%nat then
    let c' := mk_cursor (cu_spans c) (cu_offset c + width) in
    cursor_tokens c = TText (text_cells span (cu_offset c)) :: cursor_tokens c' /\
    cursor_wf c' /\ (cursor_left c' < cursor_left c)%nat
  else
    let c' := mk_cursor (cu_spans c) (cu_offset c + n) in
    cursor_tokens c = TDelim white :: cursor_tokens c' /\ cursor_wf c' /\ (cursor_left c' < cursor_left c)%nat.
Proof.
  intros (rest & E & Hp). destruct c as [spans offset]. cbn [cu_spans cu_offset] in *. subst spans.
  destruct (separator span offset) as [n white] eqn:Es. cbv zeta. cbn [tail].
  unfold cursor_tokens, cursor_wf, cursor_left. cbn [cu_spans cu_offset]. rewrite !remaining_cons.
  destruct (Nat.eqb_spec (sp_length span) 0) as [E0|E0].
  { destruct Hp as [|(_ & Hk & ->)]; [lia|]. unfold span_tokens at 1. rewrite (proj2 (Nat.eqb_eq _ _) E0), Hk.
    split_and!; [by destruct rest|destruct rest; [done|lia]|lia]. }
  assert (offset < sp_length span)%nat as Hlt by lia.
  pose proof (text_width_bound span offset Hlt) as Ht. pose proof (separator_bound span offset Hlt) as Hn.
  rewrite Es in Hn. simpl in Hn. unfold span_tokens. rewrite (proj2 (Nat.eqb_neq _ _) E0).
  destruct (sp_length span - offset)%nat as [|f] eqn:Ef; [lia|]. cbn [scan].
  rewrite (proj2 (Nat.leb_gt _ _) Hlt), Es. cbn [fst snd].
  destruct (Nat.eqb_spec n 0); cbn [app]; (split_and!; [|lia|lia]); do 2 f_equal; apply scan_fuel; lia.
Qed.
End Tokens.

(** ** The rule of field splitting *)

Definition content (t : token) : bool := match t with TDelim _ => false | _ => true end.
Definition cells_of (ts : list token) : list cell :=
  flat_map (fun t => match t with TText c => c | _ => [] end) ts.
Definition retained (t : token) : bool := match t with TEmpty => true | _ => false end.

(** A candidate that survives on its own: some text, or an explicit empty. *)
Definition solid (ts : list token) : Prop := cells_of ts <> [] \/ existsb retained ts = true.

Definition is_delim (ts : list token) : Prop := match ts with TDelim _ :: _ => True | _ => False end.

(** IFS white space at the start is ignored; IFS white space with at most one
    other delimiter ends a candidate; a candidate ended by such a delimiter is a
    field even when it is empty, one ended by white space or by the end of the
    input only when it is solid. *)
Inductive fields_of : list token -> list (list cell) -> Prop :=
  | fields_end : fields_of [] []
  | fields_leading ts fs : fields_of ts fs -> fields_of (TDelim true :: ts) fs
  | fields_last c : forallb content c = true -> solid c -> fields_of c [cells_of c]
  | fields_delimited c k ts fs : forallb content c = true -> fields_of ts fs ->
      fields_of (c ++ replicate k (TDelim true) ++ TDelim false :: ts) (cells_of c :: fs)
  | fields_blank c k ts fs : forallb content c = true -> solid c -> ~ is_delim ts -> fields_of ts fs ->
      fields_of (c ++ replicate (S k) (TDelim true) ++ ts) (cells_of c :: fs).

(** The same rule as one pass with the candidate so far; [blank] after IFS
    white space. *)
Definition flush (raw : list cell) (keep : bool) : list (list cell) :=
  if negb (bool_decide (raw = [])) || keep then [raw] else [].

Fixpoint split (ts : list token) (raw : list cell) (keep blank : bool) : list (list cell) :=
  match ts with
  | [] => flush raw keep
  | TDelim true :: ts => split ts raw keep true
  | TDelim false :: ts => raw :: split ts [] false false
  | TText c :: ts => if blank then flush raw keep ++ split ts c false false else split ts (raw ++ c) keep false
  | TEmpty :: ts => if blank then flush raw keep ++ split ts [] true false else split ts raw true false
  end.

Lemma split_whites k ts raw keep blank :
  split (replicate k (TDelim true) ++ ts) raw keep blank =
  split ts raw keep (match k with O => blank | S _ => true end).
Proof. revert blank. induction k as [|k IH]; intros blank; simpl; [done|]. rewrite IH. by destruct k. Qed.

Lemma split_blank ts raw keep : ~ is_delim ts -> split ts raw keep true = flush raw keep ++ split ts [] false false.
Proof. destruct ts as [|[| |w] ts]; simpl; [by rewrite app_nil_r|done..|tauto]. Qed.

Lemma split_content c ts raw keep : forallb content c = true ->
  split (c ++ ts) raw keep false = split ts (raw ++ cells_of c) (keep || existsb retained c) false.
Proof.
  revert raw keep. induction c as [|t c IH]; intros raw keep Hc; simpl.
  { by rewrite app_nil_r, orb_false_r. }
  simpl in Hc. apply andb_true_iff in Hc as [Ht Hc].
  destruct t; simpl in *; [| |done]; rewrite IH by done.
  - by rewrite orb_true_r.
  - by rewrite <- app_assoc.
Qed.

Lemma flush_solid c : solid c -> flush (cells_of c) (existsb retained c) = [cells_of c].
Proof.
  unfold solid, flush. intros [H|H]; [by rewrite (bool_decide_eq_false_2 (cells_of c = [])) by done|].
  by rewrite H, orb_true_r.
Qed.

(** The rule determines the fields. *)
Lemma fields_of_split ts fs : fields_of ts fs -> split ts [] false false = fs.
Proof.
  induction 1 as [|ts fs Hf IH|c Hc Hs|c k ts fs Hc Hf IH|c k ts fs Hc Hs Hn Hf IH].
  - done.
  - simpl. rewrite <- IH. destruct ts as [|[| |[]] ts]; done.
  - pose proof (split_content c [] [] false Hc) as E. rewrite app_nil_r in E. rewrite E. simpl. by apply flush_solid.
  - rewrite split_content by done. rewrite split_whites. simpl. by rewrite IH.
  - rewrite split_content by done. rewrite split_whites, split_blank, IH by done. simpl.
    by rewrite flush_solid.
Qed.

(** The longest prefix without delimiters. *)
Lemma content_prefix ts : exists c rest, ts = c ++ rest /\ forallb content c = true /\
  (rest = [] \/ exists w r, rest = TDelim w :: r).
Proof.
  induction ts as [|t ts (c & rest & -> & Hc & Hr)]; [exists [], []; auto|].
  destruct t as [|x|w].
  - exists (TEmpty :: c), rest. auto.
  - exists (TText x :: c), rest. auto.
  - exists [], (TDelim w :: c ++ rest). split_and!; [done|done|]. right. eauto.
Qed.

Lemma white_prefix ts : exists k rest, ts = replicate k (TDelim true) ++ rest /\
  (~ is_delim rest \/ exists r, rest = TDelim false :: r).
Proof.
  induction ts as [|t ts (k & rest & -> & Hr)]; [by exists 0%nat, []; auto|].
  destruct t as [|x|[]].
  - exists 0%nat, (TEmpty :: replicate k (TDelim true) ++ rest). split; [done|]. left. auto.
  - exists 0%nat, (TText x :: replicate k (TDelim true) ++ rest). split; [done|]. left. auto.
  - exists (S k), rest. auto.
  - exists 0%nat, (TDelim false :: replicate k (TDelim true) ++ rest). split; [done|]. right. eauto.
Qed.

Lemma solid_or_empty c : solid c \/ (cells_of c = [] /\ existsb retained c = false).
Proof.
  unfold solid. destruct (decide (cells_of c = [])); [|auto]. destruct (existsb retained c); auto.
Qed.

(** A text token is never empty. *)
Definition token_wf (t : token) : Prop := match t with TText [] => False | _ => True end.

Lemma hollow_nil c : forallb content c = true -> Forall token_wf c -> cells_of c = [] ->
  existsb retained c = false -> c = [].
Proof.
  intros Hc Hw. destruct c as [|t c]; [done|]. apply Forall_cons in Hw as [Ht _].
  destruct t as [|[|x y]|w]; done.
Qed.

Lemma fields_leading_whites k ts fs : fields_of ts fs -> fields_of (replicate k (TDelim true) ++ ts) fs.
Proof. induction k; simpl; [done|]. intros Hf. apply fields_leading. auto. Qed.

(** Every sequence of tokens has fields. *)
Lemma fields_of_total ts : Forall token_wf ts -> exists fs, fields_of ts fs.
Proof.
  remember (length ts) as n eqn:En. revert ts En.
  induction (lt_wf n) as [n _ IH]. intros ts -> Hw.
  destruct (content_prefix ts) as (c & rest & -> & Hc & Hr).
  apply Forall_app in Hw as [Hwc Hwr].
  destruct (solid_or_empty c) as [Hs|[H1 H2]]; [|apply hollow_nil in H2; [subst c|done..]].
  - destruct Hr as [->|(w & r & ->)]; [rewrite app_nil_r; eauto using fields_of|].
    destruct (white_prefix (TDelim w :: r)) as (k & rest & E & Hr). rewrite E in *.
    apply Forall_app in Hwr as [_ Hwr]. destruct Hr as [Hn|(r' & ->)].
    + destruct k as [|k]; [simpl in E; by rewrite <- E in Hn; destruct Hn|].
      destruct (IH (length rest)) with (ts := rest) as [fs Hf]; [rewrite !length_app; simpl; lia|done|done|].
      eauto using fields_of.
    + apply Forall_cons in Hwr as [_ Hwr].
      destruct (IH (length r')) with (ts := r') as [fs Hf]; [rewrite !length_app; simpl; lia|done|done|].
      eauto using fields_of.
  - cbn [app] in *. destruct (white_prefix rest) as (k & rest' & -> & Hr').
    apply Forall_app in Hwr as [_ Hwr]. destruct Hr' as [Hn|(r' & ->)].
    + destruct k as [|k]; [cbn [replicate app] in *; destruct Hr as [->|(w & r & ->)]; [eauto using fields_of|by destruct Hn]|].
      destruct (IH (length rest')) with (ts := rest') as [fs Hf]; [rewrite !length_app; simpl; lia|done|done|].
      exists fs. by apply fields_leading_whites.
    + apply Forall_cons in Hwr as [_ Hwr].
      destruct (IH (length r')) with (ts := r') as [fs Hf]; [rewrite !length_app; simpl; lia|done|done|].
      eexists. by apply (fields_delimited [] k).
Qed.

(** ** The loops follow the rule *)

Section Refinement.
Context `{LL : LocaleLaws} `{Files}.
Variable opts : Z.

Fixpoint emit_all (context : csh_expand_context) (fs : list (list cell)) (out : csh_fields) : X csh_fields :=
  match fs with
  | [] => xret out
  | f :: fs => let^ out := emit f context opts out in emit_all context fs out
  end.

Lemma steady_run {A} (m : X A) w : steady m -> willing w -> exists r, m w = (r, w).
Proof. intros Hm Hw. specialize (Hm w Hw). destruct (m w) as [r w']. simpl in Hm. subst. eauto. Qed.

Lemma xbind_steady {A B} (m : X A) (f g : A -> X B) w : steady m -> willing w ->
  (forall a, f a w = g a w) -> xbind m f w = xbind m g w.
Proof.
  intros Hm Hw Hfg. destruct (steady_run m w Hm Hw) as [[e|a] E]; unfold xbind, bind; rewrite E; [done|apply Hfg].
Qed.

Definition advance (c : field_cursor) (n : nat) : field_cursor := mk_cursor (cu_spans c) (cu_offset c + n).

Lemma separator_empty context ifs span : sp_length span = 0%nat -> fst (separator context ifs span 0) = 0%nat.
Proof.
  intros E. unfold separator, delimiter. rewrite E. destruct (bool_decide _); [|done].
  destruct (negb _ || negb _); done.
Qed.

Lemma advance_zero c : advance c 0 = c.
Proof. destruct c. unfold advance. simpl. by rewrite Nat.add_0_r. Qed.

Lemma skip_white_done f c ifs white w : skip_white (S f) c 0 white ifs w = (inr (c, 0%nat), w).
Proof. done. Qed.

Lemma skip_white_run ifs w : willing w -> forall fuel c span n white,
  at_position span c -> separator CSH_EXPAND_ARGUMENT ifs span (cu_offset c) = (n, white) -> n <> 0%nat ->
  (cursor_left c < fuel)%nat ->
  exists c' n' k, skip_white fuel c n white ifs w = (inr (c', n'), w) /\
    let c'' := advance c' n' in
    cursor_tokens CSH_EXPAND_ARGUMENT ifs c =
      replicate k (TDelim true) ++ (if (n' =? 0)%nat then [] else [TDelim false]) ++ cursor_tokens CSH_EXPAND_ARGUMENT ifs c'' /\
    cursor_wf c'' /\ (cursor_left c'' < cursor_left c)%nat /\
    (n' = 0%nat -> (0 < k)%nat /\ ~ is_delim (cursor_tokens CSH_EXPAND_ARGUMENT ifs c'')).
Proof.
  intros Hw. induction fuel as [|f IH]; intros c span n white Hp Es Hn Hf; [lia|].
  pose proof (advance_tokens CSH_EXPAND_ARGUMENT ifs span c Hp) as Ha. rewrite Es in Ha.
  assert (sp_length span <> 0%nat) as Hl.
  { intros El. destruct Hp as (rest & _ & [Hlt|(_ & _ & E0)]); [lia|].
    pose proof (separator_empty CSH_EXPAND_ARGUMENT ifs span El) as Hz. rewrite E0 in Es. rewrite Es in Hz. done. }
  rewrite (proj2 (Nat.eqb_neq _ _) Hl), (proj2 (Nat.eqb_neq _ _) Hn) in Ha. cbv zeta in Ha.
  fold (advance c n) in Ha. destruct Ha as (Ht & Hwf & Hleft).
  cbn [skip_white]. rewrite (proj2 (Nat.eqb_neq _ _) Hn). destruct white; cbn [negb andb].
  2:{ exists c, n, 0%nat. rewrite (proj2 (Nat.eqb_neq _ _) Hn). split_and!; done. }
  rewrite (xbind_run _ _ _ _ _ (check_run w Hw)). fold (advance c n).
  destruct (current (advance c n)) as [found c1] eqn:Ec.
  destruct (current_spec CSH_EXPAND_ARGUMENT ifs _ _ _ Hwf Ec) as (Et1 & Hl1 & Hfound).
  destruct f as [|f]; [lia|]. destruct found as [span1|].
  2:{ cbn [delimiter]. rewrite skip_white_done. exists c1, 0%nat, 1%nat. cbv zeta. rewrite advance_zero.
      split_and!; [done|by rewrite Ht, Et1| |lia|].
      - clear -Ec Hwf Hfound Hl1 Et1. revert Ec. unfold current. generalize (cu_offset (advance c n)).
        induction (cu_spans (advance c n)) as [|s l IHl]; intros o; simpl; [by intros [= <-]|].
        destruct (_ || _); [done|]. apply IHl.
      - intros _. split; [lia|]. rewrite Et1, Hfound. auto. }
  pose proof (at_position_wf _ _ Hfound) as Hwf1.
  destruct (delimiter (Some span1) (cu_offset c1) ifs) as [n1 w1] eqn:Ed.
  assert (separator CSH_EXPAND_ARGUMENT ifs span1 (cu_offset c1) = (n1, w1)) as Es1 by exact Ed.
  destruct (decide (n1 = 0%nat)) as [->|Hn1].
  { rewrite skip_white_done. exists c1, 0%nat, 1%nat. cbv zeta. rewrite advance_zero.
    split_and!; [done|by rewrite Ht, Et1|done|lia|]. intros _. split; [lia|].
    pose proof (advance_tokens CSH_EXPAND_ARGUMENT ifs span1 c1 Hfound) as Ha1. rewrite Es1 in Ha1. cbv zeta in Ha1.
    destruct (sp_length span1 =? 0)%nat; destruct Ha1 as (-> & _); auto. }
  destruct (IH c1 span1 n1 w1 Hfound Es1 Hn1 ltac:(lia)) as (c' & n' & k & E & Htok & Hwf' & Hlt' & Hend).
  exists c', n', (S k). split_and!; [exact E| |done|lia|].
  - rewrite Ht, <- Et1, Htok. done.
  - intros E0. destruct (Hend E0). split; [lia|done].
Qed.

Lemma emit_all_flush context raw keep fs out : forall w, willing w ->
  emit_all context (flush raw keep ++ fs) out w =
  xbind (if negb (bool_decide (raw = [])) || keep then emit raw context opts out else xret out)
    (emit_all context fs) w.
Proof. intros w Hw. unfold flush. destruct (_ || keep); done. Qed.

Lemma split_loop_run context ifs w : willing w -> forall fuel c raw keep out,
  cursor_wf c -> (cursor_left c < fuel)%nat ->
  split_loop fuel c context ifs opts raw keep out w =
  emit_all context (split (cursor_tokens context ifs c) raw keep false) out w.
Proof.
  intros Hw. induction fuel as [|f IH]; intros c raw keep out Hwf Hf; [lia|]. cbn [split_loop].
  destruct (current c) as [found c1] eqn:Ec.
  destruct (current_spec context ifs _ _ _ Hwf Ec) as (Et & Hl & Hfound). rewrite <- Et. destruct found as [span|].
  2:{ rewrite Et, Hfound. cbn [split]. rewrite <- (app_nil_r (flush raw keep)), emit_all_flush by done.
      destruct (_ || keep); [|done]. cbn [emit_all].
      destruct (steady_run (emit raw context opts out) w (steady_emit _ _ _ _) Hw) as [[e|a] E];
        unfold xbind, bind; by rewrite E. }
  rewrite (xbind_run _ _ _ _ _ (check_run w Hw)).
  pose proof (advance_tokens context ifs span c1 Hfound) as Ha.
  destruct (separator context ifs span (cu_offset c1)) as [n white] eqn:Es. cbv zeta in Ha.
  pose proof Es as Es'. unfold separator in Es'. rewrite Es'. clear Es'.
  destruct (sp_length span =? 0)%nat eqn:E0.
  { destruct Ha as (-> & Hwf' & Hlt). rewrite IH by (done || lia). done. }
  destruct (n =? 0)%nat eqn:En.
  { destruct Ha as (-> & Hwf' & Hlt). unfold text_width in *. rewrite IH by (done || lia). done. }
  apply Nat.eqb_neq in En. clear Ha.
  destruct (decide (context = CSH_EXPAND_ARGUMENT)) as [->|Hctx].
  2:{ unfold separator in Es. rewrite bool_decide_eq_false_2 in Es by done. simplify_eq. }
  destruct (skip_white_run ifs w Hw (S (remaining (cu_spans c1))) c1 span n white Hfound Es En)
    as (c' & n' & k & Er & Htok & Hwf' & Hlt' & Hend); [unfold cursor_left; lia|].
  rewrite (xbind_run _ _ _ _ _ Er). fold (advance c' n'). rewrite Htok, split_whites.
  destruct (Nat.eqb_spec n' 0) as [Ez|Ez]; cbn [app negb].
  - destruct (Hend Ez) as [Hk Hd]. destruct k as [|k]; [lia|].
    rewrite split_blank by done. rewrite emit_all_flush by done. rewrite orb_false_r.
    apply xbind_steady; [destruct (_ || keep); [apply steady_emit|apply steady_ret]|done|].
    intros out'. apply IH; [done|lia].
  - rewrite orb_true_r. cbn [split emit_all]. apply xbind_steady; [apply steady_emit|done|].
    intros out'. apply IH; [done|lia].
Qed.

(** A field that passes the validation of [finish_field]. *)
Definition span_ok (span : csh_expand_span) : Prop :=
  (sp_split span = true -> sp_quote span = CSH_QUOTE_NONE) /\
  (sp_keep_empty span = true -> sp_quote span <> CSH_QUOTE_NONE) /\ in_set 0 (sp_text span) = false.

Definition field_length (field : csh_expand_field) : Z :=
  Z.of_nat (sum_list_with sp_length field).

Definition field_ok (field : csh_expand_field) : Prop :=
  Forall span_ok field /\ field_length field <= (SIZE_MAX - 1) / 2.

Lemma span_total_run field total w : willing w -> Forall span_ok field ->
  total + field_length field <= (SIZE_MAX - 1) / 2 ->
  span_total field total w = (inr (total + field_length field), w).
Proof.
  intros Hw Hok. revert total. induction Hok as [|s field (H1 & H2 & H3) Hok IH]; intros total Hl; cbn [span_total].
  { unfold field_length. simpl. by rewrite Z.add_0_r. }
  rewrite (xbind_run _ _ _ _ _ (check_run w Hw)). unfold field_length in *. cbn [sum_list_with] in *.
  rewrite Z.gtb_ltb. replace (_ <? Z.of_nat (sp_length s)) with false by (symmetry; bsimp; lia).
  rewrite H3. replace (_ || _ || false) with false.
  - rewrite IH by lia. do 2 f_equal. lia.
  - symmetry. rewrite !orb_false_iff, !andb_false_iff, negb_false_iff, bool_decide_eq_true, bool_decide_eq_false.
    destruct (sp_split s), (sp_keep_empty s); naive_solver.
Qed.

Lemma xlift_malloc_run w : willing w -> xlift malloc w = (inr true, w).
Proof. intros [Hc _]. unfold xlift. by rewrite (bind_run _ _ _ _ _ (malloc_calm w Hc)). Qed.

Lemma cursor_start_tokens context ifs field :
  cursor_tokens context ifs (mk_cursor field 0) = field_tokens context ifs field.
Proof. by destruct field. Qed.

Lemma finish_field_run context ifs field out w : willing w -> field_ok field ->
  finish_field field context ifs opts out w =
  emit_all context (split (field_tokens context ifs field) []
    (negb (bool_decide (context = CSH_EXPAND_ARGUMENT))) false) out w.
Proof.
  intros Hw [Hok Hl]. unfold finish_field. cbv zeta.
  rewrite (xbind_run _ _ _ _ _ (span_total_run field 0 w Hw Hok ltac:(lia))).
  rewrite !(xbind_run _ _ _ _ _ (xlift_malloc_run w Hw)). cbn [negb orb].
  rewrite split_loop_run, cursor_start_tokens; [done|done|by destruct field; [|unfold cursor_wf; simpl; lia]|].
  unfold cursor_left. simpl. lia.
Qed.
End Refinement.

(** ** Fields without delimiters *)

Definition span_cells (span : csh_expand_span) : list cell := (fun b => (b, span_flags span)) <$> sp_text span.
Definition field_cells (field : csh_expand_field) : list cell := flat_map span_cells field.
Definition field_text (field : csh_expand_field) : str := flat_map sp_text field.

Lemma bytes_of_field field : bytes_of (field_cells field) = field_text field.
Proof.
  induction field as [|s field IH]; [done|]. unfold bytes_of, field_cells, field_text in *. simpl.
  rewrite fmap_app, IH. f_equal. unfold span_cells. rewrite <- list_fmap_compose. apply list_fmap_id.
Qed.

Section Unsplit.
Context `{LL : LocaleLaws}.
Variable context : csh_expand_context.
Variable ifs : str.

Definition unsplit (span : csh_expand_span) : Prop := forall offset, fst (separator context ifs span offset) = 0%nat.

Lemma scan_wf f span offset : Forall token_wf (scan context ifs f span offset).
Proof.
  revert offset. induction f as [|f IH]; intros offset; simpl; [constructor|].
  destruct (Nat.leb_spec (sp_length span) offset) as [|Hlt]; [constructor|].
  destruct (_ =? 0)%nat; (constructor; [|apply IH]); [|done]. unfold token_wf, text_cells.
  pose proof (text_width_bound span offset Hlt) as [Ht _].
  destruct (drop offset (sp_text span)) as [|b l] eqn:E.
  { apply (f_equal length) in E. rewrite length_drop in E. unfold sp_length in *. simpl in E. lia. }
  destruct (text_width span offset); [lia|]. done.
Qed.

Lemma field_tokens_wf field : Forall token_wf (field_tokens context ifs field).
Proof.
  induction field as [|s field IH]; simpl; [constructor|]. apply Forall_app. split; [|done].
  unfold span_tokens. destruct (_ =? 0)%nat; [|apply scan_wf].
  destruct (sp_keep_empty s); repeat constructor.
Qed.

Lemma scan_unsplit f span offset : unsplit span -> (sp_length span - offset <= f)%nat ->
  forallb content (scan context ifs f span offset) = true /\
  existsb retained (scan context ifs f span offset) = false /\
  cells_of (scan context ifs f span offset) = (fun b => (b, span_flags span)) <$> drop offset (sp_text span).
Proof.
  intros Hu. revert offset. induction f as [|f IH]; intros offset Hf; simpl.
  { rewrite drop_ge by (unfold sp_length in Hf; lia). done. }
  destruct (Nat.leb_spec (sp_length span) offset) as [Hge|Hlt].
  { rewrite drop_ge by (unfold sp_length in Hge; lia). done. }
  rewrite (Hu offset). cbn [Nat.eqb forallb existsb content retained cells_of flat_map orb andb].
  pose proof (text_width_bound span offset Hlt) as [Ht Hb].
  destruct (IH (offset + text_width span offset)%nat ltac:(lia)) as (H1 & H2 & H3).
  split_and!; [done..|]. fold (cells_of (scan context ifs f span (offset + text_width span offset))).
  rewrite H3. unfold text_cells. rewrite <- fmap_app. f_equal.
  by rewrite <- drop_drop, take_drop.
Qed.

Definition keeps (span : csh_expand_span) : bool := (sp_length span =? 0)%nat && sp_keep_empty span.

Lemma field_unsplit field : Forall unsplit field ->
  forallb content (field_tokens context ifs field) = true /\
  existsb retained (field_tokens context ifs field) = existsb keeps field /\
  cells_of (field_tokens context ifs field) = field_cells field.
Proof.
  induction 1 as [|s field Hs Hf (H1 & H2 & H3)]; simpl; [done|].
  unfold cells_of in *. rewrite forallb_app, existsb_app, flat_map_app, H1, H2, H3.
  unfold span_tokens, keeps, field_cells, span_cells.
  destruct (Nat.eqb_spec (sp_length s) 0) as [E|E].
  { unfold sp_length in E. apply nil_length_inv in E. rewrite E. destruct (sp_keep_empty s); done. }
  destruct (scan_unsplit (sp_length s - 0) s 0 Hs ltac:(lia)) as (C1 & C2 & C3).
  unfold cells_of in C3. rewrite C1, C2, C3. done.
Qed.

Lemma split_unsplit field keep : Forall unsplit field ->
  split (field_tokens context ifs field) [] keep false = flush (field_cells field) (keep || existsb keeps field).
Proof.
  intros Hu. destruct (field_unsplit field Hu) as (H1 & H2 & H3).
  pose proof (split_content _ [] [] keep H1) as E. rewrite app_nil_r in E. rewrite E, H2, H3. done.
Qed.

Lemma quoted_unsplit span : sp_quote span <> CSH_QUOTE_NONE -> unsplit span.
Proof.
  intros Hq offset. unfold separator, delimiter. destruct (bool_decide _); [|done].
  rewrite (bool_decide_eq_false_2 (sp_quote span = CSH_QUOTE_NONE)) by done. cbn [negb].
  by rewrite orb_true_r.
Qed.

Lemma scalar_unsplit span : context <> CSH_EXPAND_ARGUMENT -> unsplit span.
Proof. intros Hc offset. unfold separator. by rewrite bool_decide_eq_false_2. Qed.
End Unsplit.

(** ** Patterns of quoted text *)

Section QuotedPattern.
Context `{Locale}.

(** The bytes that [make_pattern] protects when they are quoted. *)
Definition special (b : byte) : bool := in_set b (bs "*?[]-!^\").
Definition protect_byte (b : byte) : str := if special b then [ch "\"; b] else [b].

Definition ascii (b : byte) : Prop := 0 < b < 128.

(** A string that the encoding takes as one unit whatever follows it: a
    character of any number of bytes, or a byte that begins no character. *)
Definition character (c : str) : Prop :=
  peek c <> 0 /\ (length c <= loc_max)%nat /\
  forall s, csh_character_length (c ++ s) false true = length c.

(** Cells of quoted text that consists of the given characters. *)
Definition quoted_text (chars : list str) (cells : list cell) : Prop :=
  Forall character chars /\ bytes_of cells = concat chars /\
  Forall (fun c => FIELD_QUOTED (snd c) = true) cells.

Definition protect_char (c : str) : str := match c with [b] => protect_byte b | _ => c end.
Definition protected (chars : list str) : str := concat (protect_char <$> chars).

(** A character is one byte, or begins with a byte that is not ASCII. *)
Lemma character_cases c : character c ->
  (exists b, c = [b] /\ b <> 0) \/ (exists b d more, c = b :: d :: more /\ 128 <= b).
Proof.
  intros (Hp & _ & Hc). destruct c as [|b [|d more]]; [done|left; by exists b|right].
  exists b, d, more. split; [done|]. specialize (Hc []). destruct (decide (b < 128)) as [Hb|]; [|lia].
  cbn [app] in Hc. by rewrite csh_character_length_ascii in Hc.
Qed.

Lemma special_ascii b : 128 <= b -> special b = false.
Proof. intros Hb. unfold special, in_set. simpl. rewrite !orb_false_iff, !Z.eqb_neq. lia. Qed.

Lemma special_split b : special b = (b =? 92) || in_set b (bs "*?[]-!^").
Proof.
  unfold special, in_set. simpl.
  destruct (b =? 92), (b =? 42), (b =? 63), (b =? 91), (b =? 93), (b =? 45), (b =? 33), (b =? 94); done.
Qed.

Lemma quoted_pattern_run chars cells context pattern w f : willing w -> quoted_text chars cells ->
  (length cells < f)%nat ->
  make_pattern_loop f cells context false 0 pattern w = (inr (pattern ++ protected chars), w).
Proof.
  intros Hw (Hc & Hb & Hq). revert cells Hb Hq pattern f.
  induction Hc as [|c chars Hc Hcs IH]; intros cells Hb Hq pattern f Hf.
  { destruct cells; [|done]. destruct f; unfold protected; simpl; by rewrite app_nil_r. }
  cbn [concat] in Hb. pose proof (proj2 (proj2 Hc) (concat chars)) as Hl.
  assert (bytes_of (drop (length c) cells) = concat chars) as Hd.
  { unfold bytes_of in *. by rewrite fmap_drop, Hb, drop_app_length. }
  pose proof (IH _ Hd ltac:(by apply Forall_drop)) as IHd. clear IH.
  destruct cells as [|[b p] cells]; [destruct Hc as (? & _); by destruct c|].
  destruct f as [|f]; [simpl in Hf; lia|]. cbn [make_pattern_loop]. cbv zeta. rewrite Hb, Hl.
  rewrite (xbind_run _ _ _ _ _ (check_run w Hw)). apply Forall_cons in Hq as [Hp Hq]. cbn [snd] in Hp. rewrite Hp.
  unfold protected in *. cbn [fmap list_fmap concat]. destruct (character_cases c Hc) as [(b' & -> & Hb')|(b' & d & more & -> & Hb')].
  - cbn [length Nat.ltb Nat.leb protect_char] in *. injection Hb as -> Hb. change (drop 1 (_ :: cells)) with cells in IHd.
    replace (if bool_decide (context = CSH_EXPAND_ARGUMENT) && (b' =? 47) then 0 else 0) with 0 by (by destruct (_ && _)).
    cbn [Z.eqb negb andb]. cbv zeta.
    rewrite (xbind_run _ _ w (0%nat, false) w) by done. cbn [Nat.eqb negb andb orb].
    rewrite !andb_true_r, !andb_false_r. cbn [andb]. unfold protect_byte. rewrite special_split.
    destruct ((b' =? 92) || in_set b' (bs "*?[]-!^")) eqn:E; cbn [negb andb].
    + rewrite IHd by lia. by rewrite <- app_assoc.
    + apply orb_false_iff in E as [E1 E2]. rewrite E1. rewrite IHd by lia. by rewrite <- app_assoc.
  - rewrite (proj2 (Nat.ltb_lt 1 (length (b' :: d :: more)))) by (simpl; lia).
    rewrite take_app_length. change (0 =? 0) with true. cbn [protect_char].
    rewrite IHd by (rewrite length_drop; simpl in *; lia). by rewrite <- app_assoc.
Qed.

Context {HL : LocaleLaws _}.

Lemma pattern_width_character c text : character c -> pattern_width (c ++ text) = length c.
Proof.
  intros (_ & Hm & Hc). unfold pattern_width. rewrite take_app_ge by done. apply Hc.
Qed.

Lemma special_values b : special b = false ->
  b <> ch "\" /\ b <> ch "*" /\ b <> ch "?" /\ b <> ch "[".
Proof.
  unfold special, in_set. cbn [existsb]. rewrite !orb_false_iff, !Z.eqb_neq. naive_solver.
Qed.

(** What the pattern of a character begins with: a backslash and the character,
    or the character, which then is none that a pattern gives a meaning. *)
Lemma protect_char_cases c : character c ->
  (exists b, c = [b] /\ b <> 0 /\ protect_char c = ch "\" :: c) \/
  (protect_char c = c /\ exists b more, c = b :: more /\ b <> 0 /\ special b = false).
Proof.
  intros Hc. destruct (character_cases c Hc) as [(b & -> & Hb)|(b & d & more & -> & Hb)].
  - unfold protect_char, protect_byte. destruct (special b) eqn:E; [left|right]; naive_solver.
  - right. split; [done|]. exists b, (d :: more). split_and!; [done|lia|by apply special_ascii].
Qed.

Lemma quoted_inactive chars f : Forall character chars -> pattern_loop f (protected chars) = false.
Proof.
  intros Hr. revert f. unfold protected. induction Hr as [|c chars Hc Hr IH]; intros f; (destruct f as [|f]; [done|]); [done|].
  cbn [fmap list_fmap concat]. destruct (protect_char_cases c Hc) as [(b & -> & Hb & ->)|(-> & b & more & E & Hb & Es)].
  - cbn [pattern_loop app peek hd tail]. replace (b =? 0) with false by (symmetry; by bsimp). cbn [negb andb Z.eqb Pos.eqb].
    pose proof (pattern_width_character [b] (concat (protect_char <$> chars)) Hc) as Hwd. cbn [app length] in Hwd. rewrite Hwd. apply IH.
  - pose proof (pattern_width_character c (concat (protect_char <$> chars)) Hc) as Hwd. cbn [pattern_loop].
    replace (peek (c ++ concat (protect_char <$> chars))) with b by (by subst c).
    apply special_values in Es as (E1 & E2 & E3 & E4).
    rewrite (proj2 (Z.eqb_neq _ _) E1), (proj2 (Z.eqb_neq _ _) E2), (proj2 (Z.eqb_neq _ _) E3), (proj2 (Z.eqb_neq _ _) E4).
    replace (b =? 0) with false by (symmetry; by bsimp). cbn [andb orb].
    rewrite Hwd, drop_app_length. apply IH.
Qed.

Lemma quoted_unescape chars f : Forall character chars -> (length chars < f)%nat ->
  unescape_loop f (protected chars) = concat chars.
Proof.
  intros Hr. revert f. unfold protected. induction Hr as [|c chars Hc Hr IH]; intros f Hf; (destruct f as [|f]; [simpl in Hf; lia|]); [done|].
  cbn [length] in Hf. cbn [fmap list_fmap concat]. destruct (protect_char_cases c Hc) as [(b & -> & Hb & ->)|(-> & b & more & E & Hb & Es)].
  - cbn [unescape_loop app peek hd tail]. cbv zeta. replace (b =? 0) with false by (symmetry; by bsimp).
    cbn [negb andb Z.eqb Pos.eqb tail].
    pose proof (pattern_width_character [b] (concat (protect_char <$> chars)) Hc) as Hwd. cbn [app length] in Hwd. rewrite Hwd. cbn [length take drop app]. f_equal. apply IH. lia.
  - pose proof (pattern_width_character c (concat (protect_char <$> chars)) Hc) as Hwd. cbn [unescape_loop]. cbv zeta.
    replace (peek (c ++ concat (protect_char <$> chars))) with b by (by subst c).
    apply special_values in Es as (E1 & _). rewrite (proj2 (Z.eqb_neq _ _) E1). cbn [andb].
    replace (b =? 0) with false by (symmetry; by bsimp).
    rewrite Hwd, drop_app_length, take_app_length. f_equal. apply IH. lia.
Qed.

Lemma protected_length chars : Forall character chars -> (length chars <= length (protected chars))%nat.
Proof.
  unfold protected. induction 1 as [|c chars Hc Hr IH]; [done|]. cbn [fmap list_fmap concat]. rewrite length_app.
  destruct (protect_char_cases c Hc) as [(b & -> & Hb & ->)|(-> & b & more & -> & _)]; cbn [length] in *; lia.
Qed.

Lemma ascii_character b : ascii b -> character [b].
Proof.
  intros [Hb1 Hb2]. split; [cbn; lia|]. split; [apply mb_max_positive|]. intros s. by apply csh_character_length_ascii.
Qed.
End QuotedPattern.

(** In UTF-8 every byte string that [mbrlen] takes for one character is one. *)
Lemma utf8_character c : 0 < peek c -> utf8_mbrlen c = MbLength (length c) -> character (H:=utf8_locale) c.
Proof.
  intros Hp Hl. assert (length c <= 4)%nat as Hm.
  { destruct c as [|b c]; [done|]. cbn [utf8_mbrlen peek hd] in *. 
    repeat case_match; try done; try (injection Hl as Hl; simpl in *; lia); apply utf8_tail_limit in Hl; simpl in *; lia. }
  split; [lia|]. split; [exact Hm|]. intros s. destruct c as [|b c]; [done|]. cbn [peek hd] in Hp. cbn [app csh_character_length].
  destruct (b <? 128) eqn:E; cbn [loc_mbrlen utf8_locale utf8_mbrlen] in *; rewrite E in *; rewrite (proj2 (Z.eqb_neq b 0)) in * by lia; [congruence|].
  destruct (between 194 b 223), (between 224 b 239), (between 240 b 244); try done;
    by rewrite (utf8_tail_extend _ _ _ _ _ Hl).
Qed.

(** ** The pattern buffer *)

Lemma make_pattern_loop_bound `{Locale} f cells context e b pattern w :
  xpost (make_pattern_loop f cells context e b pattern) w
    (fun r _ => (length r <= length pattern + 2 * length cells)%nat).
Proof.
  revert cells e b pattern w. induction f as [|f IH]; intros cells e b pattern w; cbn [make_pattern_loop].
  { apply xpost_ret. lia. }
  destruct cells as [|[byte p] rest]; [apply xpost_ret; lia|]. cbv zeta.
  assert (forall n, length (take n (bytes_of ((byte, p) :: rest))) = Nat.min n (S (length rest))) as Ht.
  { intros n. rewrite length_take. unfold bytes_of. by rewrite length_fmap. }
  apply xpost_bind, xpost_check. intros w1.
  destruct (1 <? _)%nat; [eapply xpost_mono; [apply IH|]; intros r w' Hr|].
  { rewrite length_app, Ht, length_drop in Hr. simpl in Hr |- *. lia. }
  destruct e; [eapply xpost_mono; [apply IH|]; intros r w' Hr|].
  { rewrite length_app in Hr. simpl in Hr |- *. lia. }
  apply xpost_bind. eapply xpost_mono; [apply xpost_any|]. intros [d q] w2 _.
  destruct (_ && negb q); [eapply xpost_mono; [apply IH|]; intros r w' Hr|].
  { rewrite length_app, Ht, length_drop in Hr. simpl in Hr |- *. lia. }
  match goal with |- context [if ?p then [92; byte] else [byte]] => set (protect := p) end.
  assert (forall r : str, (length r <= length (pattern ++ (if protect then [92; byte] else [byte])%Z) + 2 * length rest)%nat ->
    (length r <= length pattern + 2 * length ((byte, p) :: rest))%nat) as Hlen.
  { intros r Hr. rewrite length_app in Hr. destruct protect; simpl in *; lia. }
  destruct (negb protect && (byte =? 92)); (eapply xpost_mono; [apply IH|]; intros r w' Hr; by apply Hlen).
Qed.

(** ** Main theorems *)

(** C9: field splitting follows the POSIX rule.  For every field that passes
    the validation, every IFS and every encoding, the rule [fields_of] has
    exactly one result on the tokens of the field, and the loops of the code
    deliver those candidates, in that order and no others, to [emit]. *)
Theorem field_split_correct (L : Locale) (HL : LocaleLaws L) (F : Files) (field : csh_expand_field)
    (ifs : str) (opts : Z) (out : csh_fields) (w : proc) (Hw : willing w) (Hok : field_ok field) :
  exists fs, fields_of (field_tokens CSH_EXPAND_ARGUMENT ifs field) fs /\
    (forall fs', fields_of (field_tokens CSH_EXPAND_ARGUMENT ifs field) fs' -> fs' = fs) /\
    finish_field field CSH_EXPAND_ARGUMENT ifs opts out w = emit_all opts CSH_EXPAND_ARGUMENT fs out w.
Proof.
  destruct (fields_of_total _ (field_tokens_wf CSH_EXPAND_ARGUMENT ifs field)) as [fs Hf].
  exists fs. split_and!; [done| |].
  - intros fs' Hf'. apply fields_of_split in Hf, Hf'. congruence.
  - rewrite finish_field_run by done. rewrite bool_decide_eq_true_2 by done. cbn [negb].
    by rewrite (fields_of_split _ _ Hf).
Qed.

(** Quoted text stays one field.  A field of quoted spans, whatever its
    characters, the IFS, the shell options and the file system are, becomes the one
    field that is its text, when it has text or an explicit empty quote, and no
    field at all otherwise: it is neither split nor matched against names. *)
Theorem quoted_field_literal (L : Locale) (HL : LocaleLaws L) (F : Files) (field : csh_expand_field)
    (ifs : str) (opts : Z) (out : csh_fields) (w : proc) (Hw : willing w) (Hok : field_ok field)
    (Hq : Forall (fun s => sp_quote s <> CSH_QUOTE_NONE) field)
    (chars : list str) (Hc : Forall character chars) (Ha : field_text field = concat chars)
    (Hfit : append_fits out (field_text field)) :
  finish_field field CSH_EXPAND_ARGUMENT ifs opts out w =
  (inr (out ++ if bool_decide (field_text field = []) && negb (existsb keeps field)
               then [] else [field_text field]), w).
Proof.
  rewrite finish_field_run by done. rewrite bool_decide_eq_true_2 by done. cbn [negb].
  rewrite split_unsplit by (eapply Forall_impl; [exact Hq|]; intros s; apply quoted_unsplit).
  assert (emit (field_cells field) CSH_EXPAND_ARGUMENT opts out w = (inr (out ++ [field_text field]), w)) as He.
  { unfold emit. rewrite bytes_of_field. destruct (opt_on _ _); [by apply fields_append_run|].
    assert (quoted_text chars (field_cells field)) as Hqt.
    { split_and!; [done|by rewrite bytes_of_field|]. clear -Hq. unfold field_cells.
      induction Hq as [|s field Hs Hq IH]; simpl; [constructor|]. apply Forall_app. split; [|done]. unfold span_cells.
      apply Forall_fmap, Forall_true. intros b. simpl. by rewrite bool_decide_eq_false_2. }
    unfold make_pattern.
    rewrite (xbind_run _ _ _ _ _ (quoted_pattern_run _ _ _ [] w (S (length (field_cells field))) Hw Hqt ltac:(lia))).
    unfold csh_pathname_expand. rewrite (xbind_run _ _ _ _ _ (check_run w Hw)).
    unfold has_pattern. cbn [app]. rewrite quoted_inactive by done. cbn [negb]. by apply fields_append_run. }
  assert ((field_cells field = []) <-> (field_text field = [])) as Hnil.
  { rewrite <- bytes_of_field. unfold bytes_of. split; [by intros ->|]. apply fmap_nil_inv. }
  rewrite <- (bool_decide_ext _ _ Hnil). cbn [orb]. unfold flush.
  destruct (bool_decide (field_cells field = [])), (existsb keeps field); cbn [negb orb andb emit_all];
    rewrite ?(xbind_run _ _ _ _ _ He); by rewrite ?app_nil_r.
Qed.

(** Scalar contexts do not split.  In an assignment, a redirection or a
    here-document the result is one string, the bytes of all spans in order,
    even when it is empty and whatever IFS and the file system hold. *)
Theorem scalar_field_exact (L : Locale) (HL : LocaleLaws L) (F : Files) (field : csh_expand_field)
    (context : csh_expand_context) (ifs : str) (opts : Z) (out : csh_fields) (w : proc)
    (Hc : context <> CSH_EXPAND_ARGUMENT) (Hp : context <> CSH_EXPAND_PATTERN)
    (Hw : willing w) (Hok : field_ok field) (Hfit : append_fits out (field_text field)) :
  finish_field field context ifs opts out w = (inr (out ++ [field_text field]), w).
Proof.
  rewrite finish_field_run by done. rewrite bool_decide_eq_false_2 by done. cbn [negb].
  rewrite split_unsplit by (apply Forall_true; intros s; by apply scalar_unsplit).
  unfold flush. rewrite orb_true_l, orb_true_r. cbn [emit_all].
  rewrite (xbind_run _ _ w (out ++ [field_text field]) w); [done|].
  unfold emit. rewrite bytes_of_field. destruct context; try done; by apply fields_append_run.
Qed.

(** C10: the pattern buffer is large enough, and quoting survives in it.  For
    every text, protection and context a pattern that [make_pattern] completes
    has at most twice as many bytes as the text, the size that is allocated.
    For quoted text made of characters of the encoding, of any number of bytes
    each, and of bytes that begin no character, the pattern has no active
    character and unescapes to the text. *)
Theorem make_pattern_safe (L : Locale) (HL : LocaleLaws L) (cells : list cell)
    (context : csh_expand_context) (w : proc) :
  xpost (make_pattern cells context) w (fun r _ => (length r <= 2 * length cells)%nat) /\
  (willing w -> forall chars, quoted_text chars cells ->
   exists pattern, make_pattern cells context w = (inr pattern, w) /\
     has_pattern pattern = false /\ unescape pattern = bytes_of cells).
Proof.
  split; [apply (make_pattern_loop_bound _ cells context false 0 [])|]. intros Hw chars Hq.
  eexists. split; [apply (quoted_pattern_run chars cells context [] w _ Hw Hq); lia|]. cbn [app].
  destruct Hq as (Hc & Hb & _). split; [by apply quoted_inactive|]. rewrite Hb. apply quoted_unescape; [done|].
  pose proof (protected_length chars Hc). lia.
Qed.

(** ** Joining and splitting *)

Fixpoint join_with (d : byte) (values : list str) : str :=
  match values with
  | [] => []
  | [v] => v
  | v :: rest => v ++ d :: join_with d rest
  end.

Section JoinSplit.
Context `{LL : LocaleLaws}.
Variable d : byte.
Hypothesis Hd : ascii d.
Hypothesis Hwhite : in_set d [ch " "; 9; 10] = false.

(** An unquoted parameter value. *)
Definition value_span (text : str) : csh_expand_span :=
  mk_span text CSH_QUOTE_NONE CSH_EXPAND_PARAMETER true false.

Definition value_cell (b : byte) : cell := (b, mk_protection false false).
Definition byte_token (b : byte) : token := if b =? d then TDelim false else TText [value_cell b].

Lemma separator_value text offset b rest : drop offset text = b :: rest ->
  separator CSH_EXPAND_ARGUMENT [d] (value_span text) offset = if b =? d then (1%nat, false) else (0%nat, false).
Proof.
  intros E. assert (offset < length text)%nat as Hlt.
  { apply (f_equal length) in E. rewrite length_drop in E. simpl in E. lia. }
  unfold separator, delimiter. rewrite bool_decide_eq_true_2 by done.
  unfold sp_length. cbn [value_span sp_split sp_quote sp_text negb orb].
  rewrite bool_decide_eq_true_2 by done. cbn [negb orb].
  rewrite (proj2 (Nat.eqb_neq offset (length text)) ltac:(lia)), E. cbn [length].
  assert (match loc_mbrlen false [d] with MbLength n => n | _ => 1%nat end = 1%nat) as Hl.
  { destruct (loc_mbrlen false [d]) as [| | |m] eqn:Em; try done. apply mbrlen_bound in Em. simpl in Em. lia. }
  cbn [delimiter_loop]. cbv zeta. rewrite Hl. cbn [take starts_with Nat.eqb]. rewrite Hwhite, andb_true_r.
  rewrite (Z.eqb_sym d b). by destruct (b =? d).
Qed.

Lemma scan_value text f offset : Forall ascii text -> (length text - offset <= f)%nat ->
  scan CSH_EXPAND_ARGUMENT [d] f (value_span text) offset = byte_token <$> drop offset text.
Proof.
  intros Ha. revert offset. induction f as [|f IH]; intros offset Hf; cbn [scan].
  { by rewrite drop_ge by lia. }
  change (sp_length (value_span text)) with (length text).
  destruct (Nat.leb_spec (length text) offset) as [Hge|Hlt]; [by rewrite drop_ge by lia|].
  destruct (drop offset text) as [|b rest] eqn:E.
  { apply (f_equal length) in E. rewrite length_drop in E. simpl in E. lia. }
  assert (drop (offset + 1) text = rest) as Er by (rewrite <- drop_drop, E; done).
  assert (ascii b) as [_ Hb].
  { rewrite <- (take_drop offset text), E in Ha. apply Forall_app in Ha as [_ Ha]. by apply Forall_cons in Ha as [Hb _]. }
  rewrite (separator_value _ _ _ _ E). cbn [fmap list_fmap]. unfold byte_token at 1.
  assert (text_width (value_span text) offset = 1%nat) as Hwd.
  { unfold text_width. cbn [value_span sp_text]. rewrite E. by apply csh_character_length_ascii. }
  destruct (b =? d); cbn [fst snd Nat.eqb].
  - rewrite IH by lia. by rewrite Er.
  - rewrite Hwd, IH by lia. rewrite Er. f_equal. f_equal. unfold text_cells. rewrite Hwd.
    cbn [value_span sp_text]. rewrite E. done.
Qed.

Lemma field_tokens_value text : Forall ascii text ->
  field_tokens CSH_EXPAND_ARGUMENT [d] [value_span text] = byte_token <$> text.
Proof.
  intros Ha. unfold field_tokens, span_tokens. cbn [flat_map]. rewrite app_nil_r.
  change (sp_length (value_span text)) with (length text). destruct text as [|b text]; [done|].
  cbn [length Nat.eqb]. rewrite scan_value by (done || simpl; lia). done.
Qed.

(** A value that does not hold the delimiter. *)
Definition clean (v : str) : Prop := Forall ascii v /\ d ∉ v.

Lemma byte_tokens_clean v : clean v ->
  forallb content (byte_token <$> v) = true /\ cells_of (byte_token <$> v) = value_cell <$> v.
Proof.
  intros [_ Hv]. induction v as [|b v IH]; [done|]. apply not_elem_of_cons in Hv as [Hb Hv].
  destruct (IH Hv) as [H1 H2]. cbn [fmap list_fmap]. unfold byte_token at 1 3.
  rewrite (proj2 (Z.eqb_neq b d)) by done. cbn [forallb content andb]. split; [done|].
  unfold cells_of in *. cbn [flat_map app]. by rewrite H2.
Qed.

Lemma fields_of_join values : Forall clean values -> last values <> Some [] ->
  fields_of (fmap (M:=list) byte_token (join_with d values)) (fmap (M:=list) (fmap (M:=list) value_cell) values).
Proof.
  induction 1 as [|v values Hv Hvs IH]; intros Hl; [constructor|].
  destruct (byte_tokens_clean v Hv) as [H1 H2]. destruct values as [|v' values].
  - cbn [join_with fmap list_fmap]. rewrite <- H2. apply fields_last; [done|].
    left. rewrite H2. intros E. apply fmap_nil_inv in E. subst v. by apply Hl.
  - change (join_with d (v :: v' :: values)) with (v ++ d :: join_with d (v' :: values)).
    rewrite fmap_app, !fmap_cons. rewrite <- H2. unfold byte_token at 2. rewrite Z.eqb_refl.
    apply (fields_delimited _ 0); [done|]. apply IH. done.
Qed.

Lemma join_ascii values : Forall clean values -> Forall ascii (join_with d values).
Proof.
  induction 1 as [|v values [Hv _] Hvs IH]; [constructor|]. destruct values as [|v' values]; [done|].
  change (join_with d (v :: v' :: values)) with (v ++ d :: join_with d (v' :: values)).
  apply Forall_app. split; [done|]. by constructor.
Qed.
End JoinSplit.

Section Noglob.
Context `{Locale} `{Files}.

Lemma emit_all_noglob opts fs out w : willing w -> opt_on opts CSH_OPT_NOGLOB = true ->
  Forall (fun f => slen (bytes_of f) < SIZE_MAX) fs ->
  Z.of_nat (length out + length fs) <= SIZE_MAX / 8 - 2 ->
  emit_all opts CSH_EXPAND_ARGUMENT fs out w = (inr (out ++ (bytes_of <$> fs)), w).
Proof.
  intros Hw Ho Hf. revert out. induction Hf as [|f fs H1 Hf IH]; intros out Hl; cbn [emit_all fmap list_fmap].
  { by rewrite app_nil_r. }
  cbn [length] in Hl. unfold emit at 1. rewrite Ho.
  rewrite (xbind_run _ _ _ _ _ (fields_append_run out (bytes_of f) w Hw ltac:(split; [done|lia]))).
  rewrite IH by (rewrite length_app; simpl; lia). by rewrite <- app_assoc.
Qed.
End Noglob.

Lemma join_length d values : (forall v, v ∈ values -> (length v <= length (join_with d values))%nat) /\
  (length values <= S (length (join_with d values)))%nat.
Proof.
  induction values as [|v values [IH1 IH2]]; [split; [set_solver|simpl; lia]|].
  destruct values as [|v' values].
  { simpl. split; [|lia]. intros x Hx%list_elem_of_singleton. by subst. }
  change (join_with d (v :: v' :: values)) with (v ++ d :: join_with d (v' :: values)). rewrite length_app.
  cbn [length] in *. split; [|lia]. intros x [->|Hx]%elem_of_cons; [lia|]. specialize (IH1 x Hx). lia.
Qed.

(** A list joined with a delimiter splits back into itself.  When IFS is
    one ASCII byte other than white space, the unquoted expansion of values
    joined with that byte gives the values again, the empty ones in between
    included, as long as the last one is not empty. *)
Theorem field_join_roundtrip (L : Locale) (HL : LocaleLaws L) (F : Files) (s : csh_state) (d : byte)
    (values : list str) (w : proc) (Hw : willing w)
    (Hd : ascii d) (Hwhite : in_set d [ch " "; 9; 10] = false)
    (Hifs : view_value (csh_state_get_variable s (Some (bs "IFS"))).2 = Some [d])
    (Hglob : opt_on (options (info s)) CSH_OPT_NOGLOB = true)
    (Hvalues : Forall (clean d) values) (Hlast : last values <> Some [])
    (Hfit : slen (join_with d values) < SIZE_MAX / 8 - 8) :
  csh_expand_fields s (mk_expansion [[value_span (join_with d values)]] CSH_EXPAND_ARGUMENT) w =
  ((inr values, mk_expand_error None None no_position []), w).
Proof.
  unfold csh_expand_fields.
  assert (fst (csh_state_get_variable s (Some (bs "IFS"))) = CSH_STATE_OK) as Hok.
  { unfold csh_state_get_variable. change (valid_name (bs "IFS")) with true. cbv iota. by destruct (find_variable _ _). }
  destruct (csh_state_get_variable s (Some (bs "IFS"))) as [found view]. cbn [fst snd] in *. subst found. rewrite Hifs.
  rewrite bool_decide_eq_true_2 by done. cbn [negb from_option default finish_fields ex_fields ex_context].
  pose proof (join_ascii d Hd values Hvalues) as Ha. destruct (join_length d values) as [Hj1 Hj2]. unfold slen in Hfit.
  assert (field_ok [value_span (join_with d values)]) as Hfok.
  { split; [|unfold field_length, sp_length; cbn [sum_list_with value_span sp_text];
      assert (SIZE_MAX / 8 <= (SIZE_MAX - 1) / 2) by (by vm_compute); lia].
    constructor; [|constructor]. split_and!; [done|done|]. cbn [value_span sp_text]. apply not_true_iff_false.
    unfold in_set. rewrite existsb_exists. intros (x & Hx & E). apply Z.eqb_eq in E as <-.
    apply list_elem_of_In in Hx. rewrite Forall_forall in Ha. apply Ha in Hx. unfold ascii in Hx. lia. }
  assert (finish_field [value_span (join_with d values)] CSH_EXPAND_ARGUMENT [d] (options (csh_state_get_info s)) [] w
    = (inr values, w)) as Hf.
  { rewrite finish_field_run by done. rewrite bool_decide_eq_true_2 by done. cbn [negb].
    rewrite field_tokens_value by done.
    rewrite (fields_of_split _ _ (fields_of_join d values Hvalues Hlast)).
    assert (forall v : str, bytes_of (value_cell <$> v) = v) as Hb.
    { intros v. unfold bytes_of. rewrite <- list_fmap_compose. apply list_fmap_id. }
    rewrite emit_all_noglob; [|done|done| |rewrite length_fmap; simpl; lia].
    - cbn [app]. rewrite <- list_fmap_compose. do 2 f_equal. rewrite (list_fmap_ext _ id values) by (intros; apply Hb). apply list_fmap_id.
    - apply Forall_fmap, Forall_forall. intros v Hv. cbn. rewrite Hb. apply Hj1 in Hv. unfold slen.
      assert (SIZE_MAX / 8 < SIZE_MAX) by (by vm_compute). lia. }
  rewrite (bind_run _ _ w (inr values) w); [reflexivity|]. rewrite (xbind_run _ _ w values w); [|].
  - by rewrite (xbind_run _ _ _ _ _ (check_run w Hw)).
  - rewrite (xbind_run _ _ _ _ _ (check_run w Hw)). by rewrite (xbind_run _ _ _ _ _ Hf).
Qed.

(** ** Concrete runs *)

(** Characters of two and three bytes, a space and an asterisk in double
    quotes, and an empty quote. *)
Definition sample_field : csh_expand_field :=
  [ mk_span (accent ++ bs " *" ++ euro) CSH_QUOTE_DOUBLE CSH_EXPAND_LITERAL false true;
    mk_span [] CSH_QUOTE_SINGLE CSH_EXPAND_LITERAL false true ].

(** An unquoted value with white space and colons. *)
Definition sample_value : csh_expand_field := [value_span (bs " a : :b c")].

Lemma sample_ok : field_ok sample_field /\ field_ok sample_value.
Proof. repeat split; try (vm_compute; discriminate); repeat constructor; intros; discriminate. Qed.

Definition sample_characters : list str := [accent; bs " "; bs "*"; euro].

Lemma sample_characters_ok : Forall (character (H:=utf8_locale)) sample_characters.
Proof. repeat constructor; apply utf8_character; reflexivity. Qed.

Lemma field_split_correct_witness :
  fields_of (field_tokens (L:=c_locale) CSH_EXPAND_ARGUMENT (bs " :") sample_value)
    (fmap (M:=list) (fmap (M:=list) value_cell) [bs "a"; []; bs "b"; bs "c"]).
Proof.
  destruct (field_split_correct c_locale c_locale_laws tiny_files sample_value (bs " :") CSH_OPT_NOGLOB []
    quiet_proc (conj eq_refl eq_refl) (proj2 sample_ok)) as (fs & Hf & _ & _).
  replace (fmap (M:=list) (fmap (M:=list) value_cell) [bs "a"; []; bs "b"; bs "c"]) with fs; [exact Hf|].
  rewrite <- (fields_of_split _ _ Hf). vm_compute. reflexivity.
Defined.

Lemma quoted_field_literal_witness :
  finish_field (H:=utf8_locale) (H0:=tiny_files) sample_field CSH_EXPAND_ARGUMENT (bs " ") 0 [] quiet_proc =
  (inr [accent ++ bs " *" ++ euro], quiet_proc).
Proof.
  rewrite (quoted_field_literal utf8_locale utf8_locale_laws tiny_files) with (chars := sample_characters).
  - vm_compute. reflexivity.
  - split; reflexivity.
  - apply sample_ok.
  - repeat constructor; discriminate.
  - exact sample_characters_ok.
  - reflexivity.
  - split; vm_compute; [reflexivity|discriminate].
Defined.

Lemma scalar_field_exact_witness :
  finish_field (H:=utf8_locale) (H0:=tiny_files) sample_value CSH_EXPAND_ASSIGNMENT (bs " :") 0 [] quiet_proc =
  (inr [bs " a : :b c"], quiet_proc).
Proof.
  rewrite (scalar_field_exact utf8_locale utf8_locale_laws tiny_files).
  - vm_compute. reflexivity.
  - discriminate.
  - discriminate.
  - split; reflexivity.
  - apply sample_ok.
  - split; vm_compute; [reflexivity|discriminate].
Defined.

Lemma make_pattern_safe_witness :
  exists pattern, make_pattern (H:=utf8_locale) (field_cells sample_field) CSH_EXPAND_PATTERN quiet_proc = (inr pattern, quiet_proc) /\
    has_pattern (H:=utf8_locale) pattern = false /\ unescape (H:=utf8_locale) pattern = accent ++ bs " *" ++ euro.
Proof.
  apply (make_pattern_safe utf8_locale utf8_locale_laws (field_cells sample_field) CSH_EXPAND_PATTERN quiet_proc) with (chars := sample_characters).
  - split; reflexivity.
  - split; [exact sample_characters_ok|]. split; [reflexivity|]. repeat constructor.
Defined.

(** A state with one variable and the [noglob] option. *)
Definition colon_state : csh_state :=
  with_info (with_variables zero_state [mk_variable (bs "IFS") (Some (bs ":")) 0]) (info_options zero_info CSH_OPT_NOGLOB).

Lemma field_join_roundtrip_witness :
  csh_expand_fields (H:=utf8_locale) (H0:=tiny_files) colon_state
    (mk_expansion [[value_span (bs "/bin::/usr/bin")]] CSH_EXPAND_ARGUMENT) quiet_proc =
  ((inr [bs "/bin"; []; bs "/usr/bin"], mk_expand_error None None no_position []), quiet_proc).
Proof.
  apply (field_join_roundtrip utf8_locale utf8_locale_laws tiny_files colon_state (ch ":")
    [bs "/bin"; []; bs "/usr/bin"] quiet_proc).
  - split; reflexivity.
  - split; reflexivity.
  - reflexivity.
  - vm_compute. reflexivity.
  - vm_compute. reflexivity.
  - repeat constructor; set_solver.
  - discriminate.
  - vm_compute. reflexivity.
Defined.
