(* ===== verification/Descriptors.v ===== *)
(** * Descriptors of the host kernel

    The POSIX calls that src/redirect.c, src/input.c and src/invocation.c make
    on file descriptors.  A descriptor refers to an open file description, which
    carries the access mode, the offset and the status flags; duplicates share
    it.  The host may fail any call: [k_faults] holds the outcomes of the coming
    calls, after which every call does what POSIX says.  What [open] and [stat]
    find is the class [Disk], indexed by time, so that the file system may
    change at any moment. *)

From stdpp Require Import base list gmap strings.
From S2P Require Import Prelude Output.

Inductive access : Type := O_RDONLY | O_WRONLY | O_RDWR.
Inductive file_kind : Type := S_IFREG | S_IFDIR | S_IFIFO | S_IFTTY | S_IFOTHER.

#[export] Instance access_eq_dec : EqDecision access.
Proof. solve_decision. Defined.
#[export] Instance file_kind_eq_dec : EqDecision file_kind.
Proof. solve_decision. Defined.

(** An open file description. *)
Record description : Type := mk_description {
  ds_access : access; ds_kind : file_kind; ds_nonblock : bool;
  ds_content : str; ds_offset : nat }.

Record descriptor : Type := mk_descriptor { d_file : Z; d_cloexec : bool }.

#[export] Instance descriptor_eq_dec : EqDecision descriptor.
Proof. solve_decision. Defined.

(** The flags of [open] that the code combines. *)
Record open_flags : Type := mk_open {
  o_access : access; o_creat : bool; o_excl : bool; o_trunc : bool; o_append : bool }.

(** A call that fails; [f_done] is for [close]: the descriptor is released
    although the call reports an error. *)
Record fault : Type := mk_fault { f_errno : errno; f_done : bool }.

Record kernel : Type := mk_kernel {
  k_fds : gmap Z descriptor;
  k_files : gmap Z description;
  k_next : Z;                       (* the next description *)
  k_limit : Z;                      (* OPEN_MAX *)
  k_faults : list (option fault);
  k_counts : list nat;              (* bytes that the next writes take *)
  k_alloc : list bool;              (* results of the next allocations *)
  k_time : nat }.

Class Disk : Type := {
  disk_open : nat -> str -> open_flags -> errno + description;
  disk_stat : nat -> str -> errno + file_kind;
  disk_tty : Z -> bool              (* [isatty] of a description *)
}.

(** Interruptions are outcomes of [k_faults]. *)
Class DiskLaws (D : Disk) : Prop := {
  disk_open_uninterrupted : forall t p f, disk_open t p f <> inl EINTR
}.

Definition with_fds (k : kernel) (fds : gmap Z descriptor) : kernel :=
  mk_kernel fds (k_files k) (k_next k) (k_limit k) (k_faults k) (k_counts k) (k_alloc k) (k_time k).
Definition with_files (k : kernel) (files : gmap Z description) : kernel :=
  mk_kernel (k_fds k) files (k_next k) (k_limit k) (k_faults k) (k_counts k) (k_alloc k) (k_time k).
Definition with_faults (k : kernel) (faults : list (option fault)) : kernel :=
  mk_kernel (k_fds k) (k_files k) (k_next k) (k_limit k) faults (k_counts k) (k_alloc k) (k_time k).
Definition with_counts (k : kernel) (counts : list nat) : kernel :=
  mk_kernel (k_fds k) (k_files k) (k_next k) (k_limit k) (k_faults k) counts (k_alloc k) (k_time k).
Definition with_alloc (k : kernel) (alloc : list bool) : kernel :=
  mk_kernel (k_fds k) (k_files k) (k_next k) (k_limit k) (k_faults k) (k_counts k) alloc (k_time k).

(** A new description, referred to by [fd]. *)
Definition add_file (k : kernel) (fd : Z) (cloexec : bool) (d : description) : kernel :=
  mk_kernel (<[fd := mk_descriptor (k_next k) cloexec]> (k_fds k)) (<[k_next k := d]> (k_files k))
    (k_next k + 1) (k_limit k) (k_faults k) (k_counts k) (k_alloc k) (k_time k).

Definition tick (k : kernel) : kernel :=
  mk_kernel (k_fds k) (k_files k) (k_next k) (k_limit k) (k_faults k) (k_counts k) (k_alloc k) (S (k_time k)).

(** ** System calls

    A call returns a value or an errno. *)

Definition K (A : Type) : Type := kernel -> (errno + A) * kernel.

Definition kret {A} (a : A) : K A := fun k => (inr a, k).
Definition kfail {A} (e : errno) : K A := fun k => (inl e, k).
Definition kbind {A B} (m : K A) (f : A -> K B) : K B := fun k =>
  match m k with (inr a, k') => f a k' | (inl e, k') => (inl e, k') end.
(** The value is the outcome itself: [if (call == -1) ...] continues. *)
Definition kcatch {A} (m : K A) : K (errno + A) := fun k => let '(r, k') := m k in (inr r, k').

Notation "'let?' x ':=' m 'in' k" := (kbind m (fun x => k))
  (at level 10, x strict pattern, m at level 200, k at level 200,
   format "'let?'  x  ':='  m  'in' '//' k") : cshell_scope.

Definition pop_fault (k : kernel) : option fault * kernel :=
  match k_faults k with
  | [] => (None, k)
  | f :: rest => (f, with_faults k rest)
  end.

(** A call with the semantics [f] when the host does not fail it. *)
Definition sys {A} (f : kernel -> errno + (A * kernel)) : K A := fun k =>
  match pop_fault k with
  | (Some e, k') => (inl (f_errno e), k')
  | (None, k') => match f k' with inl e => (inl e, k') | inr (a, k'') => (inr a, k'') end
  end.

Fixpoint retry_loop {A} (fuel : nat) (m : K A) (k : kernel) : (errno + A) * kernel :=
  match fuel with
  | O => m k
  | S f => match m k with (inl EINTR, k') => retry_loop f m k' | r => r end
  end.

(** [do { result = m; } while (result == -1 && errno == EINTR);] *)
Definition retry {A} (m : K A) : K A := fun k => retry_loop (length (k_faults k)) m k.

(** The lowest descriptor from [minimum] on that is not in use. *)
Definition lowest_free (k : kernel) (minimum : Z) : option Z :=
  List.find (fun fd => bool_decide (k_fds k !! fd = None)) (seqZ minimum (k_limit k - minimum)).

(** [fcntl(fd, F_DUPFD_CLOEXEC, minimum)] *)
Definition sys_dupfd (fd minimum : Z) : K Z := sys (fun k =>
  match k_fds k !! fd with
  | None => inl EBADF
  | Some d =>
      if (minimum <? 0) || (k_limit k <=? minimum) then inl EINVAL else
      match lowest_free k minimum with
      | None => inl EMFILE
      | Some new => inr (new, with_fds k (<[new := mk_descriptor (d_file d) true]> (k_fds k)))
      end
  end).

Definition sys_dup2 (source target : Z) : K unit := sys (fun k =>
  match k_fds k !! source with
  | None => inl EBADF
  | Some d =>
      if (target <? 0) || (k_limit k <=? target) then inl EBADF
      else if source =? target then inr (tt, k)
      else inr (tt, with_fds k (<[target := mk_descriptor (d_file d) false]> (k_fds k)))
  end).

Definition sys_close (fd : Z) : K unit := fun k =>
  match pop_fault k with
  | (Some e, k') => (inl (f_errno e), if f_done e then with_fds k' (delete fd (k_fds k')) else k')
  | (None, k') =>
      match k_fds k' !! fd with
      | None => (inl EBADF, k')
      | Some _ => (inr tt, with_fds k' (delete fd (k_fds k')))
      end
  end.

(** [F_GETFD] and [F_SETFD]: the close-on-exec flag. *)
Definition sys_getfd (fd : Z) : K bool := sys (fun k =>
  match k_fds k !! fd with None => inl EBADF | Some d => inr (d_cloexec d, k) end).

Definition sys_setfd (fd : Z) (cloexec : bool) : K unit := sys (fun k =>
  match k_fds k !! fd with
  | None => inl EBADF
  | Some d => inr (tt, with_fds k (<[fd := mk_descriptor (d_file d) cloexec]> (k_fds k)))
  end).

(** The description of a descriptor. *)
Definition file_of (k : kernel) (fd : Z) : option (Z * description) :=
  d ← k_fds k !! fd; f ← k_files k !! d_file d; Some (d_file d, f).

(** [F_GETFL] *)
Definition sys_getfl (fd : Z) : K (access * bool) := sys (fun k =>
  match file_of k fd with
  | None => inl EBADF
  | Some (_, f) => inr ((ds_access f, ds_nonblock f), k)
  end).

(** [F_SETFL] with [O_NONBLOCK] cleared. *)
Definition sys_setblock (fd : Z) : K unit := sys (fun k =>
  match file_of k fd with
  | None => inl EBADF
  | Some (i, f) => inr (tt, with_files k (<[i := mk_description (ds_access f) (ds_kind f) false
                                              (ds_content f) (ds_offset f)]> (k_files k)))
  end).

Definition sys_fstat (fd : Z) : K file_kind := sys (fun k =>
  match file_of k fd with None => inl EBADF | Some (_, f) => inr (ds_kind f, k) end).

Definition sys_lseek_start (fd : Z) : K unit := sys (fun k =>
  match file_of k fd with
  | None => inl EBADF
  | Some (i, f) => inr (tt, with_files k (<[i := mk_description (ds_access f) (ds_kind f) (ds_nonblock f)
                                              (ds_content f) 0]> (k_files k)))
  end).

(** [write]: the host takes some of the bytes, all of them when [k_counts] is
    used up, and puts them at the offset. *)
Definition sys_write (fd : Z) (bytes : str) : K nat := sys (fun k =>
  match file_of k fd with
  | None => inl EBADF
  | Some (i, f) =>
      let '(n, rest) := match k_counts k with [] => (length bytes, []) | c :: l => (Nat.min c (length bytes), l) end in
      let at_offset := take (ds_offset f) (ds_content f) ++ take n bytes ++ drop (ds_offset f + n) (ds_content f) in
      inr (n, with_counts (with_files k (<[i := mk_description (ds_access f) (ds_kind f) (ds_nonblock f)
                                               at_offset (ds_offset f + n)]> (k_files k))) rest)
  end).

(** [read] of one byte, [None] at the end of the file. *)
Definition sys_read_byte (fd : Z) : K (option byte) := sys (fun k =>
  match file_of k fd with
  | None => inl EBADF
  | Some (i, f) =>
      match ds_content f !! ds_offset f with
      | None => inr (None, k)
      | Some b => inr (Some b, with_files k (<[i := mk_description (ds_access f) (ds_kind f) (ds_nonblock f)
                                                   (ds_content f) (S (ds_offset f))]> (k_files k)))
      end
  end).

(** [open(path, flags | O_CLOEXEC)] *)
Definition sys_open `{Disk} (path : str) (flags : open_flags) : K Z := sys (fun k =>
  match disk_open (k_time k) path flags with
  | inl e => inl e
  | inr d =>
      match lowest_free k 0 with
      | None => inl EMFILE
      | Some fd => inr (fd, add_file (tick k) fd true d)
      end
  end).

Definition sys_stat `{Disk} (path : str) : K file_kind := sys (fun k =>
  match disk_stat (k_time k) path with inl e => inl e | inr kind => inr (kind, tick k) end).

(** [mkstemp]: a new empty file. *)
Definition sys_mkstemp : K Z := sys (fun k =>
  match lowest_free k 0 with
  | None => inl EMFILE
  | Some fd => inr (fd, add_file k fd false (mk_description O_RDWR S_IFREG false [] 0))
  end).

(** [pipe]: what goes through it is not part of the model. *)
Definition sys_pipe : K (Z * Z) := sys (fun k =>
  match lowest_free k 0 with
  | None => inl EMFILE
  | Some input =>
      let k := add_file k input false (mk_description O_RDONLY S_IFIFO false [] 0) in
      match lowest_free k 0 with
      | None => inl EMFILE
      | Some output => inr ((input, output), add_file k output false (mk_description O_WRONLY S_IFIFO false [] 0))
      end
  end).

(** [unlink] of a temporary file leaves the description in use. *)
Definition sys_unlink : K unit := sys (fun k => inr (tt, k)).

Definition sys_malloc : kernel -> bool * kernel := fun k =>
  match k_alloc k with [] => (true, k) | b :: rest => (b, with_alloc k rest) end.

(** ** Interruptions

    A kernel whose only faults are interruptions: what the retry loops are
    written for. *)

Definition mere_interrupt (f : option fault) : Prop :=
  match f with None => True | Some e => f_errno e = EINTR end.

Definition interruptible (k : kernel) : Prop := Forall mere_interrupt (k_faults k).

(** Two kernels that differ in the outcomes still to come only. *)
Definition used (k k' : kernel) : Prop :=
  exists n, k' = with_faults k (drop n (k_faults k)).

Lemma used_refl k : used k k.
Proof. exists 0%nat. by destruct k. Qed.

Lemma used_trans k1 k2 k3 : used k1 k2 -> used k2 k3 -> used k1 k3.
Proof. intros [n ->] [m ->]. exists (n + m)%nat. simpl. by rewrite drop_drop. Qed.

(** An uninterrupted call, on a kernel without faults. *)
Lemma retry_sys {A} (f : kernel -> errno + (A * kernel)) k :
  interruptible k -> (forall k', f k' <> inl EINTR) ->
  exists k1, used k k1 /\ interruptible k1 /\
    retry (sys f) k = match f k1 with inl e => (inl e, k1) | inr (a, k2) => (inr a, k2) end.
Proof.
  intros Hk Hf. unfold retry. remember (k_faults k) as l eqn:El. revert k El Hk.
  induction l as [|o l IH]; intros k El Hk; unfold interruptible in Hk; rewrite <- El in Hk.
  - exists k. split; [apply used_refl|]. split; [unfold interruptible; by rewrite <- El|].
    cbn [length retry_loop]. unfold sys, pop_fault. by rewrite <- El.
  - apply Forall_cons in Hk as [Ho Hl].
    assert (used k (with_faults k l)) as Hu by (exists 1%nat; rewrite <- El; by destruct k).
    assert (interruptible (with_faults k l)) as Hi by done.
    cbn [length retry_loop]. unfold sys at 1, pop_fault. rewrite <- El. destruct o as [e|].
    + cbn in Ho. rewrite Ho. destruct (IH (with_faults k l) eq_refl Hi) as (k1 & H1 & H2 & H3).
      exists k1. split; [by eapply used_trans|done].
    + exists (with_faults k l). split_and!; [done|done|].
      specialize (Hf (with_faults k l)). destruct (f (with_faults k l)) as [e|[a k2]]; [|done].
      by destruct e.
Qed.

(** ** Kernel steps that change the descriptor table only *)

Definition becomes (k : kernel) (fds : gmap Z descriptor) (k' : kernel) : Prop :=
  k_fds k' = fds /\ k_files k' = k_files k /\ k_next k' = k_next k /\ k_limit k' = k_limit k /\ interruptible k'.

(** Open descriptors are within the limit of the process. *)
Definition bounded (fds : gmap Z descriptor) (limit : Z) : Prop := forall fd d, fds !! fd = Some d -> 0 <= fd < limit.

Lemma used_becomes k k1 : used k k1 -> interruptible k1 -> becomes k (k_fds k) k1.
Proof. intros [n ->] Hi. repeat split; done. Qed.

Lemma becomes_trans k f1 k1 f2 k2 : becomes k f1 k1 -> becomes k1 f2 k2 -> becomes k f2 k2.
Proof. intros (?&?&?&?&?) (?&?&?&?&?). repeat split; congruence || done. Qed.

Lemma becomes_with k k1 fds : becomes k (k_fds k) k1 -> becomes k fds (with_fds k1 fds).
Proof. intros (?&?&?&?&?). repeat split; done. Qed.

Lemma becomes_refl k : interruptible k -> becomes k (k_fds k) k.
Proof. repeat split; done. Qed.

Section Retried.
Variable k : kernel.
Hypothesis Hk : interruptible k.

(** The outcome of a retried call whose semantics reads the table only. *)
Lemma retry_cases {A} (f : kernel -> errno + (A * kernel)) : (forall k', f k' <> inl EINTR) ->
  exists k1, becomes k (k_fds k) k1 /\
    retry (sys f) k = match f k1 with inl e => (inl e, k1) | inr (a, k2) => (inr a, k2) end.
Proof. intros Hf. destruct (retry_sys f k Hk Hf) as (k1 & Hu & Hi & E). eauto using used_becomes. Qed.

Lemma dupfd_cases fd minimum d : k_fds k !! fd = Some d ->
  exists r k', retry (sys_dupfd fd minimum) k = (r, k') /\
  match r with
  | inl e => becomes k (k_fds k) k'
  | inr new => k_fds k !! new = None /\ minimum <= new < k_limit k /\ 0 <= new /\
      becomes k (<[new := mk_descriptor (d_file d) true]> (k_fds k)) k'
  end.
Proof.
  intros Hd. unfold sys_dupfd. edestruct (retry_cases (A:=Z)) as (k1 & Hb & ->).
  { intros k'. cbv beta. destruct (k_fds k' !! fd); [|done]. destruct (_ || _); [done|]. by destruct (lowest_free k' minimum). }
  cbv beta. pose proof Hb as (Ef & _ & _ & El & _). rewrite Ef, Hd.
  destruct (_ || _) eqn:E; bsimp; [do 2 eexists; split; [reflexivity|]; done|].
  unfold lowest_free. rewrite Ef, El.
  destruct (List.find _ _) as [new|] eqn:Eg; (do 2 eexists; split; [reflexivity|]); [|done].
  apply find_some in Eg as [Hin Hn]. apply list_elem_of_In, elem_of_seqZ in Hin. apply bool_decide_eq_true in Hn.
  split_and!; [done|lia|lia|lia|by apply becomes_with].
Qed.
End Retried.
