(* ===== verification/Redirect.v ===== *)
(** * Redirections (src/redirect.c)

    Saving, applying and restoring descriptors.  The list [active_saves] is part
    of the state; a save is identified by a number in place of its address, and
    [struct saved_descriptor]'s [backup] of -1 is [None].  Functions that return
    0 or -1 with an error record return [csh_error + A]. *)

From stdpp Require Import base list gmap strings.
From S2P Require Import Prelude Output Descriptors.

Inductive csh_redirect_kind : Type :=
  | CSH_REDIRECT_READ | CSH_REDIRECT_WRITE | CSH_REDIRECT_APPEND | CSH_REDIRECT_READ_WRITE
  | CSH_REDIRECT_CLOBBER | CSH_REDIRECT_DUP_READ | CSH_REDIRECT_DUP_WRITE | CSH_REDIRECT_CLOSE
  | CSH_REDIRECT_NOCLOBBER | CSH_REDIRECT_HEREDOC.

#[export] Instance csh_redirect_kind_eq_dec : EqDecision csh_redirect_kind.
Proof. solve_decision. Defined.

(** [rd_path] and [rd_data] are [None] for a null pointer; [length] is the
    length of the data. *)
Record csh_redirect : Type := mk_redirect {
  rd_kind : csh_redirect_kind; rd_fd : Z; rd_source_fd : Z;
  rd_path : option str; rd_data : str }.

Record saved_descriptor : Type := mk_saved {
  sd_target : Z; sd_backup : option Z; sd_flags : bool; sd_argument_index : Z }.

Record redirect_state : Type := mk_rstate {
  rs_kernel : kernel;
  active_saves : list (nat * list saved_descriptor);
  rs_next : nat }.

Definition redirect_fail (message : str) (number : errno) (index : Z) : csh_error :=
  mk_error (Some message) [] false number 1 index no_position.

(** ** Descriptor helpers *)

Definition set_descriptor_flags (fd : Z) (cloexec : bool) : K unit := retry (sys_setfd fd cloexec).
Definition duplicate_to (source target : Z) : K unit := retry (sys_dup2 source target).
(** [descriptor_flags(fd, F_GETFD)] and [descriptor_flags(fd, F_GETFL)] *)
Definition descriptor_flags (fd : Z) : K bool := retry (sys_getfd fd).
Definition descriptor_mode (fd : Z) : K (access * bool) := retry (sys_getfl fd).

(** A descriptor that is not open counts as closed. *)
Definition close_descriptor (fd : Z) : K unit := fun k =>
  match retry (sys_close fd) k with
  | (inl EBADF, k') => (inr tt, k')
  | r => r
  end.

(** ** Validation *)

(** The checks of one operand; its message and errno when it is refused. *)
Definition validate_item (item : csh_redirect) : option (str * errno) :=
  if rd_fd item <? 0 then Some (bs "invalid redirection descriptor", EBADF) else
  match rd_kind item with
  | CSH_REDIRECT_READ | CSH_REDIRECT_WRITE | CSH_REDIRECT_APPEND | CSH_REDIRECT_READ_WRITE
  | CSH_REDIRECT_CLOBBER | CSH_REDIRECT_NOCLOBBER =>
      match rd_path item with None => Some (bs "missing redirection path", EINVAL) | Some _ => None end
  | CSH_REDIRECT_DUP_READ | CSH_REDIRECT_DUP_WRITE =>
      if rd_source_fd item <? 0 then Some (bs "invalid source descriptor", EBADF) else None
  | CSH_REDIRECT_CLOSE | CSH_REDIRECT_HEREDOC => None
  end.

Fixpoint validate_loop (items : list csh_redirect) (index : Z) : option csh_error :=
  match items with
  | [] => None
  | item :: rest =>
      match validate_item item with
      | Some (message, number) => Some (redirect_fail message number (index + 1))
      | None => validate_loop rest (index + 1)
      end
  end.

(** The sizes of the two structures are 16 and 24 bytes. *)
Definition csh_redirect_validate (items : list csh_redirect) : option csh_error :=
  if Z.of_nat (length items) >? (SIZE_MAX - 16) / 24
  then Some (redirect_fail (bs "too many redirections") EOVERFLOW 0)
  else validate_loop items 0.

Definition is_dup (kind : csh_redirect_kind) : bool :=
  match kind with CSH_REDIRECT_DUP_READ | CSH_REDIRECT_DUP_WRITE => true | _ => false end.

Definition is_operand (fd : Z) (items : list csh_redirect) : bool :=
  existsb (fun item => (fd =? rd_fd item) || (is_dup (rd_kind item) && (fd =? rd_source_fd item))) items.

(** ** Saving *)

Fixpoint save_loop (fuel : nat) (fd minimum : Z) (items : list csh_redirect) (reserved : list Z) : K Z :=
  match fuel with
  | O => kfail EMFILE
  | S f =>
      let? result := retry (sys_dupfd fd minimum) in
      if negb (in_set result reserved) && negb (is_operand result items) then kret result else
      let? _ := close_descriptor result in
      if result =? INT_MAX then kfail EMFILE else save_loop f fd (result + 1) items reserved
  end.

(** Each round starts above the descriptor it refused, below the limit. *)
Definition save_descriptor (fd : Z) (items : list csh_redirect) (reserved : list Z) : K Z := fun k =>
  save_loop (S (Z.to_nat (k_limit k))) fd 3 items reserved k.

(** The backups are closed, whatever [close] reports. *)
Fixpoint discard_save (entries : list saved_descriptor) (k : kernel) : kernel :=
  match entries with
  | [] => k
  | e :: rest =>
      discard_save rest (match sd_backup e with Some b => snd (close_descriptor b k) | None => k end)
  end.

(** ** Restoring *)

(** One target: the errno of a failure, if any. *)
Definition restore_target (e : saved_descriptor) : K unit :=
  match sd_backup e with
  | None => close_descriptor (sd_target e)
  | Some b => let? _ := duplicate_to b (sd_target e) in set_descriptor_flags (sd_target e) (sd_flags e)
  end.

Definition first_error (error : option csh_error) (r : errno + unit) (message : str) (index : Z)
    : option csh_error :=
  match r, error with
  | inl number, None => Some (redirect_fail message number index)
  | _, _ => error
  end.

(** Every target is attempted; the first failure is reported. *)
Fixpoint restore_loop (entries : list saved_descriptor) (error : option csh_error) (k : kernel)
    : option csh_error * kernel :=
  match entries with
  | [] => (error, k)
  | e :: rest =>
      let '(restored, k) := restore_target e k in
      let error := first_error error restored (bs "cannot restore redirection descriptor") (sd_argument_index e) in
      let '(closed, k) := match sd_backup e with Some b => close_descriptor b k | None => (inr tt, k) end in
      let error := first_error error closed (bs "cannot close saved descriptor") (sd_argument_index e) in
      restore_loop rest error k
  end.

Definition find_save (saves : list (nat * list saved_descriptor)) (id : nat) : option (list saved_descriptor) :=
  snd <$> List.find (fun s => (fst s =? id)%nat) saves.

Definition unlink_save (saves : list (nat * list saved_descriptor)) (id : nat) :=
  List.filter (fun s => negb (fst s =? id)%nat) saves.

(** [save] is [*save]; [None] is a null token. *)
Definition csh_redirect_restore (save : option nat) (st : redirect_state) : option csh_error * redirect_state :=
  match save with
  | None => (None, st)
  | Some id =>
      match find_save (active_saves st) id with
      | None => (None, st)
      | Some entries =>
          let '(error, k) := restore_loop entries None (rs_kernel st) in
          (error, mk_rstate k (unlink_save (active_saves st) id) (rs_next st))
      end
  end.

(** ** Applying *)

Section Apply.
Context `{Disk}.

(** The writes of a here-document, at most 16384 bytes each. *)
Fixpoint document_loop (fuel : nat) (fd : Z) (data : str) : K unit :=
  match data with
  | [] => kret tt
  | _ =>
      match fuel with
      | O => kfail EIO
      | S f =>
          let amount := Nat.min (length data) (Z.to_nat 16384) in
          let? written := retry (sys_write fd (take amount data)) in
          if (written =? 0)%nat then kfail EIO else document_loop f fd (drop written data)
      end
  end.

(** Close [fd] and report the earlier [number]. *)
Definition abandon {A} (fd : Z) (number : errno) : K A := fun k => (inl number, snd (close_descriptor fd k)).

Definition here_document (item : csh_redirect) : K Z :=
  let? fd := retry sys_mkstemp in
  let? unlinked := kcatch (retry sys_unlink) in
  match unlinked with
  | inl number => fun k => (inl number, snd (kcatch sys_unlink (snd (close_descriptor fd k))))
  | inr _ =>
      let? filled := kcatch (
        let? _ := set_descriptor_flags fd true in
        let? _ := document_loop (S (length (rd_data item))) fd (rd_data item) in
        retry (sys_lseek_start fd)) in
      match filled with inl number => abandon fd number | inr _ => kret fd end
  end.

Definition open_noclobber (path : str) : K Z :=
  let? created := kcatch (retry (sys_open path (mk_open O_WRONLY true true false false))) in
  match created with
  | inr fd => kret fd
  | inl EEXIST =>
      let? st := sys_stat path in
      if bool_decide (st = S_IFREG) then kfail EEXIST else
      let? fd := retry (sys_open path (mk_open O_WRONLY false false false false)) in
      let? st := kcatch (sys_fstat fd) in
      match st with
      | inr S_IFREG => abandon fd EEXIST
      | inr _ => kret fd
      | inl number => abandon fd number
      end
  | inl number => kfail number
  end.

Definition file_flags (kind : csh_redirect_kind) : open_flags :=
  match kind with
  | CSH_REDIRECT_READ => mk_open O_RDONLY false false false false
  | CSH_REDIRECT_APPEND => mk_open O_WRONLY true false false true
  | CSH_REDIRECT_READ_WRITE => mk_open O_RDWR true false false false
  | _ => mk_open O_WRONLY true false true false
  end.

Definition path_of (item : csh_redirect) : str := default [] (rd_path item).

(** The descriptor moves to its place and loses close-on-exec. *)
Definition install (fd target : Z) : K unit :=
  if fd =? target then set_descriptor_flags fd false else
  let? result := kcatch (duplicate_to fd target) in
  let? closed := kcatch (close_descriptor fd) in
  match result, closed with
  | inl number, _ => kfail number
  | inr _, inl number => kfail number
  | inr _, inr _ => kret tt
  end.

Definition apply_one (item : csh_redirect) : K unit :=
  match rd_kind item with
  | CSH_REDIRECT_CLOSE => close_descriptor (rd_fd item)
  | CSH_REDIRECT_DUP_READ =>
      let? (mode, _) := descriptor_mode (rd_source_fd item) in
      if bool_decide (mode = O_WRONLY) then kfail EBADF else
      let? _ := duplicate_to (rd_source_fd item) (rd_fd item) in
      set_descriptor_flags (rd_fd item) false
  | CSH_REDIRECT_DUP_WRITE =>
      let? (mode, _) := descriptor_mode (rd_source_fd item) in
      if bool_decide (mode = O_RDONLY) then kfail EBADF else
      let? _ := duplicate_to (rd_source_fd item) (rd_fd item) in
      set_descriptor_flags (rd_fd item) false
  | CSH_REDIRECT_NOCLOBBER => let? fd := open_noclobber (path_of item) in install fd (rd_fd item)
  | CSH_REDIRECT_HEREDOC => let? fd := here_document item in install fd (rd_fd item)
  | kind =>
      let? fd := retry (sys_open (path_of item) (file_flags kind)) in install fd (rd_fd item)
  end.

(** Move the backups of one save out of the way of the operands. *)
Fixpoint relocate_entries (items : list csh_redirect) (reserved : list Z) (entries : list saved_descriptor)
    (k : kernel) : option errno * list saved_descriptor * kernel :=
  match entries with
  | [] => (None, [], k)
  | e :: rest =>
      let keep k := let '(failed, rest, k) := relocate_entries items reserved rest k in (failed, e :: rest, k) in
      match sd_backup e with
      | None => keep k
      | Some old =>
          if negb (is_operand old items) then keep k else
          match save_descriptor old items reserved k with
          | (inl number, k) => (Some number, entries, k)
          | (inr moved, k) =>
              let k := snd (close_descriptor old k) in
              let e := mk_saved (sd_target e) (Some moved) (sd_flags e) (sd_argument_index e) in
              let '(failed, rest, k) := relocate_entries items reserved rest k in (failed, e :: rest, k)
          end
      end
  end.

Fixpoint relocate (items : list csh_redirect) (reserved : list Z) (saves : list (nat * list saved_descriptor))
    (k : kernel) : option errno * list (nat * list saved_descriptor) * kernel :=
  match saves with
  | [] => (None, [], k)
  | (id, entries) :: rest =>
      match relocate_entries items reserved entries k with
      | (Some number, entries, k) => (Some number, (id, entries) :: rest, k)
      | (None, entries, k) =>
          let '(failed, rest, k) := relocate items reserved rest k in (failed, (id, entries) :: rest, k)
      end
  end.

(** The original of one target. *)
Definition snapshot_entry (item : csh_redirect) (index : Z) (items : list csh_redirect) (reserved : list Z)
    : K saved_descriptor :=
  let? flags := kcatch (descriptor_flags (rd_fd item)) in
  match flags with
  | inl EBADF => kret (mk_saved (rd_fd item) None true (index + 1))
  | inl number => kfail number
  | inr cloexec =>
      let? backup := save_descriptor (rd_fd item) items reserved in
      kret (mk_saved (rd_fd item) (Some backup) cloexec (index + 1))
  end.

(** [todo] are the items from [index] on. *)
Fixpoint snapshot_loop (todo : list csh_redirect) (index : Z) (items : list csh_redirect) (reserved : list Z)
    (saved : list saved_descriptor) (k : kernel) : (csh_error + list saved_descriptor) * kernel :=
  match todo with
  | [] => (inr saved, k)
  | item :: rest =>
      if existsb (fun e => sd_target e =? rd_fd item) saved
      then snapshot_loop rest (index + 1) items reserved saved k
      else
        match snapshot_entry item index items reserved k with
        | (inl number, k) =>
            (inl (redirect_fail (bs "cannot save redirection descriptor") number (index + 1)), discard_save saved k)
        | (inr entry, k) => snapshot_loop rest (index + 1) items reserved (saved ++ [entry]) k
        end
  end.

(** The operations in order; the first failure and its place. *)
Fixpoint apply_loop (items : list csh_redirect) (index : Z) (k : kernel) : option (errno * Z) * kernel :=
  match items with
  | [] => (None, k)
  | item :: rest =>
      match apply_one item k with
      | (inl number, k) => (Some (number, index + 1), k)
      | (inr _, k) => apply_loop rest (index + 1) k
      end
  end.

(** The result is [*save]. *)
Definition csh_redirect_apply_reserved (items : list csh_redirect) (reserved : list Z) (st : redirect_state)
    : (csh_error + option nat) * redirect_state :=
  match csh_redirect_validate items with
  | Some error => (inl error, st)
  | None =>
      if bool_decide (items = []) then (inr None, st) else
      let '(ok, k) := sys_malloc (rs_kernel st) in
      if negb ok
      then (inl (redirect_fail (bs "cannot allocate redirection save") ENOMEM 0), mk_rstate k (active_saves st) (rs_next st))
      else
      let '(failed, saves, k) := relocate items reserved (active_saves st) k in
      match failed with
      | Some number => (inl (redirect_fail (bs "cannot relocate private descriptor") number 0), mk_rstate k saves (rs_next st))
      | None =>
          match snapshot_loop items 0 items reserved [] k with
          | (inl error, k) => (inl error, mk_rstate k saves (rs_next st))
          | (inr saved, k) =>
              let id := rs_next st in
              let '(failed, k) := apply_loop items 0 k in
              let st := mk_rstate k ((id, saved) :: saves) (S id) in
              match failed with
              | None => (inr (Some id), st)
              | Some (number, index) =>
                  match csh_redirect_restore (Some id) st with
                  | (Some restore_error, st) => (inl restore_error, st)
                  | (None, st) => (inl (redirect_fail (bs "cannot apply redirection") number index), st)
                  end
              end
          end
      end
  end.

Definition csh_redirect_apply (items : list csh_redirect) (st : redirect_state) :=
  csh_redirect_apply_reserved items [] st.
End Apply.

(** In a child after [fork]: every backup is closed. *)
Definition csh_redirect_child (st : redirect_state) : redirect_state :=
  mk_rstate (foldl (fun k s => discard_save (snd s) k) (rs_kernel st) (active_saves st)) [] (rs_next st).

Definition csh_redirect_commit (save : option nat) (st : redirect_state) : redirect_state :=
  match save with
  | None => st
  | Some id =>
      match find_save (active_saves st) id with
      | None => st
      | Some entries => mk_rstate (discard_save entries (rs_kernel st)) (unlink_save (active_saves st) id) (rs_next st)
      end
  end.
