(* ===== verification/RedirectTheorems.v ===== *)
(** * Redirections are transactions

    The abstract state of src/redirect.c is the table of the descriptors that
    programs may see, without the private backups, and a stack of snapshots.
    Applying pushes a snapshot of the targets and failing to apply changes
    nothing; restoring pops a snapshot and puts it back.  Interruptions may
    happen at every call. *)

From stdpp Require Import base list gmap strings.
From S2P Require Import Prelude Output Descriptors Redirect.

(** ** Kernel steps *)

Section Calls.
Variable k : kernel.
Hypothesis Hk : interruptible k.

Lemma dup2_cases source target :
  exists r k', duplicate_to source target k = (r, k') /\
  match r with
  | inl e => becomes k (k_fds k) k' /\
      (k_fds k !! source = None \/ ~ (0 <= target < k_limit k))
  | inr _ => exists d, k_fds k !! source = Some d /\ 0 <= target < k_limit k /\
      becomes k (if source =? target then k_fds k else <[target := mk_descriptor (d_file d) false]> (k_fds k)) k'
  end.
Proof.
  unfold duplicate_to, sys_dup2. edestruct (retry_cases k Hk (A:=unit)) as (k1 & Hb & ->).
  { intros k'. cbv beta. destruct (k_fds k' !! source); [|done]. destruct (_ || _); [done|]. by destruct (source =? target). }
  cbv beta. pose proof Hb as (-> & _ & _ & -> & _).
  destruct (k_fds k !! source) as [d|]; [|do 2 eexists; split; [reflexivity|]; simpl; auto].
  destruct (_ || _) eqn:E; bsimp; [do 2 eexists; split; [reflexivity|]; split; [done|]; right; lia|].
  destruct (source =? target) eqn:Es; (do 2 eexists; split; [reflexivity|]); exists d;
    (split_and!; [done|lia|lia|]); [done|by apply becomes_with].
Qed.

Lemma setfd_cases fd cloexec :
  exists r k', set_descriptor_flags fd cloexec k = (r, k') /\
  match r with
  | inl e => becomes k (k_fds k) k' /\ k_fds k !! fd = None
  | inr _ => exists d, k_fds k !! fd = Some d /\ becomes k (<[fd := mk_descriptor (d_file d) cloexec]> (k_fds k)) k'
  end.
Proof.
  unfold set_descriptor_flags, sys_setfd. edestruct (retry_cases k Hk (A:=unit)) as (k1 & Hb & ->).
  { intros k'. cbv beta. by destruct (k_fds k' !! fd). }
  cbv beta. pose proof Hb as (-> & _).
  destruct (k_fds k !! fd) as [d|]; (do 2 eexists; split; [reflexivity|]); [|done].
  exists d. split; [done|by apply becomes_with].
Qed.

Lemma getfd_cases fd :
  exists k', becomes k (k_fds k) k' /\
    descriptor_flags fd k = (match k_fds k !! fd with None => inl EBADF | Some d => inr (d_cloexec d) end, k').
Proof.
  unfold descriptor_flags, sys_getfd. edestruct (retry_cases k Hk (A:=bool)) as (k1 & Hb & ->).
  { intros k'. cbv beta. by destruct (k_fds k' !! fd). }
  exists k1. split; [done|]. cbv beta. pose proof Hb as (-> & _). by destruct (k_fds k !! fd).
Qed.

Lemma getfl_cases fd :
  exists r k', becomes k (k_fds k) k' /\ descriptor_mode fd k = (r, k').
Proof.
  unfold descriptor_mode, sys_getfl. edestruct (retry_cases k Hk (A:=access * bool)) as (k1 & Hb & ->).
  { intros k'. cbv beta. by destruct (file_of k' fd) as [[? ?]|]. }
  destruct (file_of k1 fd) as [[i f]|]; eauto.
Qed.

End Calls.

Lemma close_run fd k : interruptible k ->
  exists k', close_descriptor fd k = (inr tt, k') /\ becomes k (delete fd (k_fds k)) k'.
Proof.
  intros Hk. unfold close_descriptor.
  assert (exists r k', retry (sys_close fd) k = (r, k') /\ (r = inr tt \/ r = inl EBADF) /\
    becomes k (delete fd (k_fds k)) k') as (r & k' & -> & Hr & Hb).
  2:{ exists k'. by destruct Hr as [->| ->]. }
  unfold retry. remember (k_faults k) as l eqn:El. revert k El Hk.
  induction l as [|o l IH]; intros k El Hk.
  - cbn [length retry_loop]. unfold sys_close, pop_fault. rewrite <- El.
    destruct (k_fds k !! fd) as [d|] eqn:E; (do 2 eexists; split; [reflexivity|]; split; [auto|]).
    + by apply becomes_with, becomes_refl.
    + rewrite delete_id by done. by apply becomes_refl.
  - pose proof Hk as Hk'. unfold interruptible in Hk'. rewrite <- El in Hk'. apply Forall_cons in Hk' as [Ho Hl].
    cbn [length retry_loop]. unfold sys_close at 1, pop_fault. rewrite <- El. destruct o as [e|].
    + cbn in Ho. rewrite Ho.
      destruct (IH (if f_done e then with_fds (with_faults k l) (delete fd (k_fds (with_faults k l))) else with_faults k l))
        as (r & k' & E & Hr & Hb); [by destruct (f_done e)|by destruct (f_done e)|].
      exists r, k'. split_and!; [done|done|]. destruct Hb as (B1&B2&B3&B4&B5).
      destruct (f_done e); cbn in *; repeat split; try done; rewrite B1; try done. by rewrite delete_delete_eq.
    + cbn. destruct (k_fds k !! fd) as [d|] eqn:E; (do 2 eexists; split; [reflexivity|]; split; [auto|]).
      * repeat split; done.
      * rewrite delete_id by done. repeat split; done.
Qed.

(** ** The abstract state *)

Definition hide (private : list Z) (fds : gmap Z descriptor) : gmap Z descriptor :=
  filter (fun p => p.1 ∉ private) fds.

Lemma lookup_hide private fds fd : hide private fds !! fd = if decide (fd ∈ private) then None else fds !! fd.
Proof.
  unfold hide. destruct (decide (fd ∈ private)) as [Hin|Hout].
  - apply map_lookup_filter_None_2. right. intros x _. by intros Hn.
  - destruct (fds !! fd) as [d|] eqn:E.
    + by apply map_lookup_filter_Some_2.
    + apply map_lookup_filter_None_2. by left.
Qed.

Definition backups (entries : list saved_descriptor) : list Z := omap sd_backup entries.
Definition targets (entries : list saved_descriptor) : list Z := sd_target <$> entries.
Definition privates (saves : list (nat * list saved_descriptor)) : list Z := saves ≫= (fun s => backups (snd s)).

(** What restoring an entry puts at its target. *)
Definition entry_value (fds : gmap Z descriptor) (e : saved_descriptor) : option descriptor :=
  match sd_backup e with
  | None => None
  | Some b => (fun d => mk_descriptor (d_file d) (sd_flags e)) <$> fds !! b
  end.

Definition snapshot : Type := list (Z * option descriptor).
Definition denote (fds : gmap Z descriptor) (entries : list saved_descriptor) : snapshot :=
  (fun e => (sd_target e, entry_value fds e)) <$> entries.

(** The descriptors that programs see, and the snapshots, newest first. *)
Definition visible (st : redirect_state) : gmap Z descriptor :=
  hide (privates (active_saves st)) (k_fds (rs_kernel st)).
Definition stack (st : redirect_state) : list snapshot :=
  (fun s => denote (k_fds (rs_kernel st)) (snd s)) <$> active_saves st.

Definition put_back (fds : gmap Z descriptor) (s : snapshot) : gmap Z descriptor :=
  foldl (fun m '(t, o) => partial_alter (fun _ => o) t m) fds s.

(** ** Saving a descriptor *)

Lemma save_loop_cases fuel fd items reserved d k : forall minimum, interruptible k -> k_fds k !! fd = Some d ->
  exists r k', save_loop fuel fd minimum items reserved k = (r, k') /\
  match r with
  | inl e => becomes k (k_fds k) k'
  | inr new => k_fds k !! new = None /\ minimum <= new < k_limit k /\ 0 <= new /\
      in_set new reserved = false /\ is_operand new items = false /\
      becomes k (<[new := mk_descriptor (d_file d) true]> (k_fds k)) k'
  end.
Proof.
  revert k. induction fuel as [|f IH]; intros k minimum Hk Hd; cbn [save_loop].
  { do 2 eexists. split; [reflexivity|]. by apply becomes_refl. }
  unfold kbind at 1. destruct (dupfd_cases k Hk fd minimum d Hd) as (r & k1 & -> & Hr).
  destruct r as [e|new]; [by do 2 eexists|]. destruct Hr as (Hn & Hrange & Hpos & Hb).
  destruct (negb (in_set new reserved) && negb (is_operand new items)) eqn:E; bsimp.
  { do 2 eexists. split; [reflexivity|]. tauto. }
  destruct (close_run new k1) as (k2 & Ec & Hb2); [apply Hb|]. unfold kbind. rewrite Ec.
  assert (becomes k (k_fds k) k2) as Hb3.
  { pose proof Hb as (Ef & _). rewrite Ef, delete_insert_id in Hb2 by done. by eapply becomes_trans. }
  destruct (new =? INT_MAX); [by do 2 eexists|].
  pose proof Hb3 as (Ef & _ & _ & El & Hi).
  destruct (IH k2 (new + 1) Hi ltac:(by rewrite Ef)) as (r & k' & Er & Hr).
  exists r, k'. split; [done|]. destruct r as [e|new']; rewrite ?Ef, ?El in Hr.
  - by eapply becomes_trans.
  - destruct Hr as (H1 & H2 & H3 & H4 & H5 & H6). split_and!; [done|lia|lia|done..|].
    by eapply becomes_trans.
Qed.

Lemma save_cases fd items reserved d k : interruptible k -> k_fds k !! fd = Some d ->
  exists r k', save_descriptor fd items reserved k = (r, k') /\
  match r with
  | inl e => becomes k (k_fds k) k'
  | inr new => k_fds k !! new = None /\ 3 <= new < k_limit k /\ 0 <= new /\
      in_set new reserved = false /\ is_operand new items = false /\
      becomes k (<[new := mk_descriptor (d_file d) true]> (k_fds k)) k'
  end.
Proof. intros Hk Hd. by apply save_loop_cases. Qed.

Lemma discard_run entries k : interruptible k ->
  becomes k (hide (backups entries) (k_fds k)) (discard_save entries k).
Proof.
  revert k. induction entries as [|e rest IH]; intros k Hk; cbn [discard_save].
  { replace (hide _ _) with (k_fds k); [by apply becomes_refl|]. apply map_eq. intros fd. rewrite lookup_hide.
    by rewrite decide_False by set_solver. }
  unfold backups. cbn [omap list_omap]. fold (backups rest). destruct (sd_backup e) as [b|]; [|by apply IH].
  destruct (close_run b k Hk) as (k' & -> & Hb). cbn [snd]. pose proof Hb as (Ef & _ & _ & _ & Hi).
  eapply becomes_trans; [exact Hb|]. replace (hide (b :: backups rest) (k_fds k)) with (hide (backups rest) (k_fds k')); [by apply IH|].
  apply map_eq. intros fd. rewrite !lookup_hide, Ef. destruct (decide (fd = b)) as [->|Hne].
  - rewrite lookup_delete_eq. rewrite (decide_True (P:=b ∈ b :: backups rest)) by set_solver. by destruct (decide _).
  - rewrite lookup_delete_ne by done. destruct (decide (fd ∈ backups rest)); [rewrite decide_True by set_solver|rewrite decide_False by set_solver]; done.
Qed.

(** ** Restoring *)

Definition entry_fits (limit : Z) (e : saved_descriptor) : Prop :=
  sd_backup e <> None -> 0 <= sd_target e < limit.

(** The entries of a save in a table: their backups are open and distinct, their
    targets distinct and apart from the backups. *)
Definition entries_ok (fds : gmap Z descriptor) (limit : Z) (entries : list saved_descriptor) : Prop :=
  NoDup (targets entries) /\ NoDup (backups entries) /\
  (forall t, t ∈ targets entries -> t ∉ backups entries) /\
  (forall b, b ∈ backups entries -> is_Some (fds !! b)) /\ Forall (entry_fits limit) entries.

Lemma backups_cons e rest : backups (e :: rest) = match sd_backup e with Some b => b :: backups rest | None => backups rest end.
Proof. unfold backups. cbn [omap list_omap]. by destruct (sd_backup e). Qed.

Lemma targets_cons e rest : targets (e :: rest) = sd_target e :: targets rest.
Proof. done. Qed.

Lemma denote_ext fds fds' entries : (forall b, b ∈ backups entries -> fds' !! b = fds !! b) ->
  denote fds' entries = denote fds entries.
Proof.
  induction entries as [|e rest IH]; intros Hb; [done|]. unfold denote in *. cbn [fmap list_fmap].
  rewrite backups_cons in Hb. f_equal.
  - f_equal. unfold entry_value. destruct (sd_backup e) as [b|]; [|done]. rewrite Hb by set_solver. done.
  - apply IH. intros b Hin. apply Hb. destruct (sd_backup e); set_solver.
Qed.

Lemma lookup_put_back s fds fd : NoDup s.*1 ->
  put_back fds s !! fd = match list_to_map (M:=gmap Z _) s !! fd with Some o => o | None => fds !! fd end.
Proof.
  revert fds. induction s as [|[t o] s IH]; intros fds Hn; [done|]. cbn [fmap list_fmap fst] in Hn.
  apply NoDup_cons in Hn as [Ht Hn]. unfold put_back in *. cbn [foldl list_to_map foldr]. rewrite IH by done.
  cbn [uncurry]. destruct (decide (fd = t)) as [->|Hne].
  - rewrite lookup_insert_eq. rewrite not_elem_of_list_to_map_1 by done. by rewrite lookup_partial_alter_eq.
  - rewrite lookup_insert_ne by done. by rewrite lookup_partial_alter_ne.
Qed.

Lemma denote_targets fds entries : (denote fds entries).*1 = targets entries.
Proof. unfold denote, targets. rewrite <- list_fmap_compose. done. Qed.

Lemma hide_put_back_delete b rest m s : NoDup s.*1 -> b ∉ s.*1 ->
  hide rest (put_back (delete b m) s) = hide (b :: rest) (put_back m s).
Proof.
  intros Hn Hb. apply map_eq. intros fd. rewrite !lookup_hide, !lookup_put_back by done.
  destruct (decide (fd = b)) as [->|Hne].
  - rewrite (decide_True (P:=b ∈ b :: rest)) by set_solver. destruct (decide _); [done|].
    rewrite not_elem_of_list_to_map_1 by done. apply lookup_delete_eq.
  - rewrite lookup_delete_ne by done.
    destruct (decide (fd ∈ rest)); [rewrite decide_True by set_solver|rewrite decide_False by set_solver]; done.
Qed.

Lemma restore_target_run e rest k : interruptible k -> entries_ok (k_fds k) (k_limit k) (e :: rest) ->
  exists k', restore_target e k = (inr tt, k') /\
    becomes k (partial_alter (fun _ => entry_value (k_fds k) e) (sd_target e) (k_fds k)) k'.
Proof.
  intros Hk (Ht & Hb & Hd & Ho & Hf). unfold restore_target, entry_value.
  rewrite targets_cons, backups_cons in *. destruct (sd_backup e) as [b|] eqn:Eb; [|by apply close_run].
  destruct (Ho b) as [d Ed]; [set_solver|]. rewrite Ed. cbn [fmap option_fmap option_map].
  assert (0 <= sd_target e < k_limit k) as Hrange.
  { apply Forall_cons in Hf as [Hf _]. apply Hf. by rewrite Eb. }
  assert (b <> sd_target e) as Hne by (intros E; apply (Hd (sd_target e)); set_solver).
  unfold kbind. destruct (dup2_cases k Hk b (sd_target e)) as (r & k1 & -> & Hr).
  destruct r as [er|[]]; [destruct Hr as [_ [Hr|Hr]]; [congruence|lia]|].
  destruct Hr as (d' & Ed' & _ & Hb1). rewrite Ed in Ed'. injection Ed' as <-.
  rewrite (proj2 (Z.eqb_neq _ _) Hne) in Hb1. pose proof Hb1 as (Ef & _ & _ & _ & Hi).
  destruct (setfd_cases k1 Hi (sd_target e) (sd_flags e)) as (r & k2 & -> & Hr).
  rewrite Ef, lookup_insert_eq in Hr. destruct r as [er|[]]; [by destruct Hr|].
  destruct Hr as (d' & [= <-] & Hb2). exists k2. split; [done|].
  rewrite insert_insert_eq in Hb2. by eapply becomes_trans.
Qed.

Lemma entries_ok_rest e rest fds fds' limit : entries_ok fds limit (e :: rest) ->
  (forall b, b ∈ backups rest -> fds' !! b = fds !! b) -> entries_ok fds' limit rest.
Proof.
  intros (Ht & Hb & Hd & Ho & Hf) Heq. rewrite targets_cons, backups_cons in *.
  apply NoDup_cons in Ht as [_ Ht]. apply Forall_cons in Hf as [_ Hf]. split_and!; [done| | | |done].
  - destruct (sd_backup e); [by apply NoDup_cons in Hb as [_ Hb]|done].
  - intros t Hin Hin'. apply (Hd t); [set_solver|]. destruct (sd_backup e); set_solver.
  - intros b Hin. rewrite Heq by done. apply Ho. destruct (sd_backup e); set_solver.
Qed.

Lemma restore_loop_run entries k : interruptible k -> entries_ok (k_fds k) (k_limit k) entries ->
  exists k', restore_loop entries None k = (None, k') /\
    becomes k (hide (backups entries) (put_back (k_fds k) (denote (k_fds k) entries))) k'.
Proof.
  revert k. induction entries as [|e rest IH]; intros k Hk Hok; cbn [restore_loop].
  { exists k. split; [done|]. replace (hide _ _) with (k_fds k); [by apply becomes_refl|].
    apply map_eq. intros fd. rewrite lookup_hide. by rewrite decide_False by set_solver. }
  destruct (restore_target_run e rest k Hk Hok) as (k1 & -> & Hb1). cbn [first_error].
  pose proof Hok as (Ht & Hb & Hd & Ho & _). rewrite targets_cons, backups_cons in *.
  apply NoDup_cons in Ht as [Hte Htr].
  set (m := partial_alter (fun _ => entry_value (k_fds k) e) (sd_target e) (k_fds k)) in *.
  assert (forall b, b ∈ backups rest -> m !! b = k_fds k !! b) as Hm.
  { intros b Hin. apply lookup_partial_alter_ne. intros <-. apply (Hd (sd_target e)); [set_solver|].
    destruct (sd_backup e); set_solver. }
  unfold denote at 1. cbn [fmap list_fmap put_back foldl]. fold (denote (k_fds k) rest). fold m.
  fold (put_back m (denote (k_fds k) rest)).
  pose proof Hb1 as (Ef1 & _ & _ & El1 & Hi1). destruct (sd_backup e) as [b|] eqn:Eb.
  - destruct (close_run b k1 Hi1) as (k2 & -> & Hb2). cbn [first_error]. rewrite Ef1 in Hb2.
    pose proof Hb2 as (Ef2 & _ & _ & El2 & Hi2). apply NoDup_cons in Hb as [Hbn Hbr].
    assert (forall b', b' ∈ backups rest -> k_fds k2 !! b' = k_fds k !! b') as Hk2.
    { intros b' Hin. rewrite Ef2. rewrite lookup_delete_ne by (intros ->; done). by apply Hm. }
    destruct (IH k2 Hi2) as (k' & -> & Hb').
    { rewrite El2, El1. by eapply entries_ok_rest. }
    exists k'. split; [done|]. eapply becomes_trans; [exact Hb1|]. eapply becomes_trans; [exact Hb2|].
    rewrite (denote_ext (k_fds k)) in Hb' by done. rewrite Ef2, hide_put_back_delete in Hb'; [done|..]; rewrite denote_targets; [done|].
    intros Hin. apply (Hd b); set_solver.
  - cbv iota zeta. cbn [first_error]. destruct (IH k1 Hi1) as (k' & -> & Hb').
    { rewrite El1. eapply entries_ok_rest; [exact Hok|]. intros b' Hin. rewrite Ef1. by apply Hm. }
    exists k'. split; [done|]. eapply becomes_trans; [exact Hb1|]. rewrite Ef1 in Hb'.
    by rewrite (denote_ext (k_fds k)) in Hb' by (intros; by apply Hm).
Qed.

(** ** Well-formed states *)

(** Newest first: no target of a save is a backup of it or of an older one. *)
Fixpoint layered (saves : list (nat * list saved_descriptor)) : Prop :=
  match saves with
  | [] => True
  | (id, entries) :: rest =>
      NoDup (targets entries) /\
      (forall t, t ∈ targets entries -> t ∉ backups entries ++ privates rest) /\ layered rest
  end.

Record saves_ok (fds : gmap Z descriptor) (limit : Z) (saves : list (nat * list saved_descriptor)) : Prop := {
  so_distinct : NoDup (privates saves);
  so_open : forall b, b ∈ privates saves -> is_Some (fds !! b);
  so_fits : Forall (fun s => Forall (entry_fits limit) (snd s)) saves;
  so_layered : layered saves }.

Record state_ok (st : redirect_state) : Prop := {
  ok_calls : interruptible (rs_kernel st);
  ok_bounded : bounded (k_fds (rs_kernel st)) (k_limit (rs_kernel st));
  ok_saves : saves_ok (k_fds (rs_kernel st)) (k_limit (rs_kernel st)) (active_saves st);
  ok_ids : NoDup (active_saves st).*1 /\ Forall (fun s => (s.1 < rs_next st)%nat) (active_saves st) }.

Lemma privates_cons id entries rest : privates ((id, entries) :: rest) = backups entries ++ privates rest.
Proof. done. Qed.

Lemma saves_ok_top fds limit id entries rest : saves_ok fds limit ((id, entries) :: rest) ->
  entries_ok fds limit entries /\ (forall t, t ∈ targets entries -> t ∉ privates rest) /\
  (forall b, b ∈ privates rest -> b ∉ backups entries) /\ saves_ok fds limit rest.
Proof.
  intros [Hn Ho Hf (Ht & Hd & Hl)]. rewrite privates_cons in *. apply NoDup_app in Hn as (Hn1 & Hn2 & Hn3).
  apply Forall_cons in Hf as [Hf1 Hf2]. split_and!.
  - split_and!; [done|done| | |done]; intros t Hin; [apply Hd in Hin; set_solver|apply Ho; set_solver].
  - intros t Hin. apply Hd in Hin. set_solver.
  - intros b Hin Hin'. by apply (Hn2 b).
  - split; [done| |done|done]. intros b Hin. apply Ho. set_solver.
Qed.

Lemma bounded_put_back fds limit entries : bounded fds limit -> Forall (entry_fits limit) entries ->
  bounded (put_back fds (denote fds entries)) limit.
Proof.
  intros Hb Hf. assert (forall (es : list saved_descriptor) m, bounded m limit -> Forall (entry_fits limit) es ->
    bounded (put_back m (denote fds es)) limit) as Hgen; [|by apply Hgen].
  clear Hb Hf entries. induction es as [|e es IH]; intros m Hm Hf; [done|].
  apply Forall_cons in Hf as [He Hf]. unfold denote, put_back. cbn [fmap list_fmap foldl]. apply IH; [|done].
  intros fd d. destruct (decide (fd = sd_target e)) as [->|Hne].
  - rewrite lookup_partial_alter_eq. intros E. apply He. unfold entry_value in E. by destruct (sd_backup e).
  - rewrite lookup_partial_alter_ne by done. apply Hm.
Qed.

Lemma bounded_hide private fds limit : bounded fds limit -> bounded (hide private fds) limit.
Proof. intros Hb fd d. rewrite lookup_hide. destruct (decide _); [done|]. apply Hb. Qed.

Lemma saves_ok_ext fds fds' limit saves : saves_ok fds limit saves ->
  (forall b, b ∈ privates saves -> fds' !! b = fds !! b) -> saves_ok fds' limit saves.
Proof. intros [Hn Ho Hf Hl] Heq. split; [done| |done|done]. intros b Hin. rewrite Heq by done. by apply Ho. Qed.

Lemma elem_of_privates b s saves : s ∈ saves -> b ∈ backups (snd s) -> b ∈ privates saves.
Proof. intros Hs Hb. unfold privates. apply list_elem_of_bind. eauto. Qed.

Lemma stack_ext fds fds' (saves : list (nat * list saved_descriptor)) :
  (forall b, b ∈ privates saves -> fds' !! b = fds !! b) ->
  (fun s => denote fds' (snd s)) <$> saves = (fun s => denote fds (snd s)) <$> saves.
Proof.
  intros Heq. apply list_fmap_ext. intros i s Hs. apply denote_ext. intros b Hb. apply Heq.
  eapply elem_of_privates; [|done]. by eapply list_elem_of_lookup_2.
Qed.

Lemma find_save_top id entries rest : find_save ((id, entries) :: rest) id = Some entries.
Proof. unfold find_save. cbn [List.find fst]. by rewrite Nat.eqb_refl. Qed.

Lemma unlink_save_top id entries (rest : list (nat * list saved_descriptor)) :
  NoDup ((id, entries) :: rest).*1 -> unlink_save ((id, entries) :: rest) id = rest.
Proof.
  cbn [fmap list_fmap fst]. intros [Hid _]%NoDup_cons. unfold unlink_save. cbn [List.filter fst].
  rewrite Nat.eqb_refl. cbn [negb]. induction rest as [|[id' es] rest IH]; [done|].
  cbn [fmap list_fmap fst] in Hid. apply not_elem_of_cons in Hid as [Hne Hid]. cbn [List.filter fst].
  rewrite (proj2 (Nat.eqb_neq id' id)) by done. cbn [negb]. by rewrite IH.
Qed.

Lemma put_back_frame fds fds' s fd : NoDup s.*1 -> fds' !! fd = fds !! fd ->
  put_back fds' s !! fd = put_back fds s !! fd.
Proof. intros Hn E. rewrite !lookup_put_back by done. by rewrite E. Qed.

Lemma restore_top st id entries rest : state_ok st -> active_saves st = (id, entries) :: rest ->
  exists k', csh_redirect_restore (Some id) st = (None, mk_rstate k' rest (rs_next st)) /\
    let st' := mk_rstate k' rest (rs_next st) in
    state_ok st' /\ visible st' = put_back (visible st) (denote (k_fds (rs_kernel st)) entries) /\
    stack st' = tail (stack st).
Proof.
  intros [Hc Hb Hs [Hid Hlt]] Ea. unfold csh_redirect_restore. rewrite Ea in *. rewrite find_save_top.
  destruct (saves_ok_top _ _ _ _ _ Hs) as (Hent & Htp & Hbp & Hrest).
  destruct (restore_loop_run entries (rs_kernel st) Hc Hent) as (k' & -> & Hk).
  exists k'. rewrite (unlink_save_top id entries rest Hid). split; [done|]. cbv zeta.
  destruct Hk as (Ef & _ & _ & El & Hi). set (fds := k_fds (rs_kernel st)) in *.
  pose proof Hent as (Hnt & _ & Htb & _ & Hfits).
  assert (NoDup (denote fds entries).*1) as Hnd by (by rewrite denote_targets).
  assert (forall b, b ∈ privates rest -> k_fds k' !! b = fds !! b) as Hframe.
  { intros b Hin. rewrite Ef, lookup_hide. rewrite decide_False by (by apply Hbp).
    rewrite lookup_put_back by done. rewrite not_elem_of_list_to_map_1; [done|]. rewrite denote_targets.
    intros Ht. by apply (Htp b). }
  split_and!.
  - split; cbn [rs_kernel active_saves rs_next].
    + done.
    + rewrite Ef, El. apply bounded_hide. by apply bounded_put_back.
    + rewrite El. by eapply saves_ok_ext.
    + cbn [fmap list_fmap] in Hid. apply NoDup_cons in Hid as [_ Hid]. apply Forall_cons in Hlt as [_ Hlt]. done.
  - unfold visible. cbn [rs_kernel active_saves]. rewrite Ef, Ea, privates_cons. fold fds.
    apply map_eq. intros fd. rewrite !lookup_hide, !lookup_put_back by done. rewrite lookup_hide.
    destruct (decide (fd ∈ privates rest)) as [Hp|Hp].
    { rewrite (decide_True (P := fd ∈ backups entries ++ privates rest)) by set_solver.
      rewrite not_elem_of_list_to_map_1; [done|]. rewrite denote_targets. intros Ht. by apply (Htp fd). }
    destruct (decide (fd ∈ backups entries)) as [Hbk|Hbk].
    { rewrite (decide_True (P := fd ∈ backups entries ++ privates rest)) by set_solver.
      rewrite not_elem_of_list_to_map_1; [done|]. rewrite denote_targets. intros Ht. by apply (Htb fd). }
    rewrite decide_False by set_solver. done.
  - unfold stack. cbn [rs_kernel active_saves]. rewrite Ea. cbn [fmap list_fmap tail]. by apply stack_ext.
Qed.

(** ** Relocating backups *)

Section Relocate.
Variable items : list csh_redirect.
Variable reserved : list Z.

(** A descriptor that a backup may move to. *)
Definition eligible (fds : gmap Z descriptor) (b : Z) : Prop :=
  fds !! b = None /\ in_set b reserved = false /\ is_operand b items = false /\ 3 <= b.

(** What happens to one entry. *)
Definition shifted (fds : gmap Z descriptor) (e e' : saved_descriptor) : Prop :=
  sd_target e' = sd_target e /\ sd_flags e' = sd_flags e /\
  (sd_backup e' = sd_backup e \/ exists b, sd_backup e' = Some b /\ eligible fds b).

Record moved (fds fds' : gmap Z descriptor) (entries entries' : list saved_descriptor) : Prop := {
  mv_denote : denote fds' entries' = denote fds entries;
  mv_distinct : NoDup (backups entries');
  mv_open : forall b, b ∈ backups entries' -> is_Some (fds' !! b);
  mv_frame : forall fd, fd ∉ backups entries -> fd ∉ backups entries' -> fds' !! fd = fds !! fd;
  mv_new : forall b, b ∈ backups entries' -> b ∈ backups entries \/ eligible fds b;
  mv_old : forall b, b ∈ backups entries -> b ∉ backups entries' -> fds' !! b = None;
  mv_fits : forall limit, Forall (entry_fits limit) entries -> Forall (entry_fits limit) entries';
  mv_shift : Forall2 (shifted fds) entries entries' }.

Lemma moved_refl fds entries : NoDup (backups entries) -> (forall b, b ∈ backups entries -> is_Some (fds !! b)) ->
  moved fds fds entries entries.
Proof.
  intros Hn Ho. split; auto; [intros b H1 H2; done|].
  apply Forall_Forall2_diag, Forall_true. intros e. split_and!; auto.
Qed.

(** The first entry stays. *)
Lemma moved_keep fds fds' e rest rest' : NoDup (backups (e :: rest)) ->
  (forall b, b ∈ backups (e :: rest) -> is_Some (fds !! b)) ->
  moved fds fds' rest rest' -> moved fds fds' (e :: rest) (e :: rest').
Proof.
  intros Hn Ho [M1 M2 M3 M4 M5 M6 M7 M8]. rewrite backups_cons in *.
  assert (forall b, sd_backup e = Some b -> (b ∉ backups rest') /\ fds' !! b = fds !! b) as He.
  { intros b Eb. rewrite Eb in *. apply NoDup_cons in Hn as [Hb Hn].
    assert (b ∉ backups rest') as Hb'.
    { intros Hin. destruct (M5 b Hin) as [?|[En _]]; [done|]. destruct (Ho b); [set_solver|congruence]. }
    split; [done|]. by apply M4. }
  split; rewrite ?backups_cons.
  - unfold denote in *. cbn [fmap list_fmap]. f_equal; [|done]. f_equal. unfold entry_value.
    destruct (sd_backup e) as [b|]; [|done]. destruct (He b eq_refl) as [_ ->]. done.
  - destruct (sd_backup e) as [b|]; [|done]. apply NoDup_cons. destruct (He b eq_refl). done.
  - intros b. destruct (sd_backup e) as [b'|]; [|apply M3]. intros [->|Hin]%elem_of_cons; [|by apply M3].
    destruct (He b' eq_refl) as [_ ->]. apply Ho. set_solver.
  - intros fd H1 H2. apply M4; destruct (sd_backup e); set_solver.
  - intros b. destruct (sd_backup e) as [b'|]; [|apply M5]. intros [->|Hin]%elem_of_cons; [set_solver|].
    destruct (M5 b Hin); [set_solver|auto].
  - intros b. destruct (sd_backup e) as [b'|]; [|apply M6]. rewrite elem_of_cons, not_elem_of_cons. intros [->|H1] [H2 H3]; [done|by apply M6].
  - intros limit [H1 H2]%Forall_cons. apply Forall_cons. auto.
  - constructor; [|done]. split_and!; auto.
Qed.

(** The first entry moves from [old] to [new], then the others are moved. *)
Lemma moved_step fds fds' e rest rest' old new d : NoDup (old :: backups rest) -> sd_backup e = Some old ->
  (forall b, b ∈ (old :: backups rest) -> is_Some (fds !! b)) -> fds !! old = Some d -> is_operand old items = true -> eligible fds new ->
  moved (delete old (<[new := mk_descriptor (d_file d) true]> fds)) fds' rest rest' ->
  moved fds fds' (e :: rest) (mk_saved (sd_target e) (Some new) (sd_flags e) (sd_argument_index e) :: rest').
Proof.
  intros Hn Eb Ho Ed Hpo Hel [M1 M2 M3 M4 M5 M6 M7 M8]. apply NoDup_cons in Hn as [Hold Hn].
  pose proof Hel as (Enew & Hres & Hop & _).
  assert (new <> old) as Hne by congruence.
  set (m := delete old (<[new := mk_descriptor (d_file d) true]> fds)) in *.
  assert (m !! new = Some (mk_descriptor (d_file d) true)) as Hmn.
  { unfold m. rewrite lookup_delete_ne by done. by rewrite lookup_insert_eq. }
  assert (forall b, b ∈ backups rest -> m !! b = fds !! b) as Hmr.
  { intros b Hin. unfold m. rewrite lookup_delete_ne by (intros ->; done). rewrite lookup_insert_ne; [done|].
    intros <-. destruct (Ho new); [set_solver|congruence]. }
  assert (forall b, m !! b = None -> b = old \/ fds !! b = None) as Hmnone.
  { intros b Hb. destruct (decide (b = old)) as [->|Hbo]; [auto|]. right. unfold m in Hb.
    rewrite lookup_delete_ne in Hb by done. destruct (decide (b = new)) as [->|Hbn]; [done|].
    by rewrite lookup_insert_ne in Hb. }
  assert (forall b, eligible m b -> eligible fds b) as Hmel.
  { intros b (E1 & E2 & E3 & E4). destruct (Hmnone b E1) as [->|E]; [congruence|]. by split_and!. }
  assert (new ∉ backups rest) as Hnr by (intros Hin; destruct (Ho new); [set_solver|congruence]).
  assert (new ∉ backups rest') as Hnr'.
  { intros Hin. destruct (M5 new Hin) as [?|[E _]]; [done|congruence]. }
  assert (fds' !! new = Some (mk_descriptor (d_file d) true)) as Hfn by (rewrite M4; done).
  split; rewrite ?backups_cons; cbn [sd_backup]; rewrite ?Eb.
  - unfold denote. cbn [fmap list_fmap]. f_equal.
    + cbn [sd_target]. f_equal. unfold entry_value. cbn [sd_backup sd_flags]. by rewrite Eb, Ed, Hfn.
    + fold (denote fds' rest'). rewrite M1. by apply denote_ext.
  - by apply NoDup_cons.
  - intros b [->|Hin]%elem_of_cons; [by eexists|by apply M3].
  - intros fd [H1 H2]%not_elem_of_cons [H3 H4]%not_elem_of_cons. rewrite M4 by done. unfold m.
    by rewrite lookup_delete_ne, lookup_insert_ne by done.
  - intros b [->|Hin]%elem_of_cons; [by right|]. destruct (M5 b Hin) as [?|He]; [set_solver|]. right. by apply Hmel.
  - intros b [->|Hin]%elem_of_cons [H3 H4]%not_elem_of_cons; [|by apply M6].
    rewrite M4 by done. unfold m. apply lookup_delete_eq.
  - intros limit [H1 H2]%Forall_cons. apply Forall_cons. split; [|auto].
    intros _. cbn [sd_target]. apply H1. by rewrite Eb.
  - constructor; [split_and!; [done|done|]; right; eauto|]. eapply Forall2_impl; [exact M8|].
    intros x x' (S1 & S2 & S3). split_and!; [done|done|]. destruct S3 as [S3|(b & S3 & S4)]; [by left|]. right. eauto.
Qed.

Lemma relocate_entries_run entries : forall k, interruptible k -> bounded (k_fds k) (k_limit k) ->
  NoDup (backups entries) -> (forall b, b ∈ backups entries -> is_Some (k_fds k !! b)) ->
  exists failed entries' k', relocate_entries items reserved entries k = (failed, entries', k') /\
    becomes k (k_fds k') k' /\ bounded (k_fds k') (k_limit k') /\ moved (k_fds k) (k_fds k') entries entries' /\
    (failed = None -> forall b, b ∈ backups entries' -> is_operand b items = false).
Proof.
  induction entries as [|e rest IH]; intros k Hk Hbd Hn Ho; cbn [relocate_entries].
  { do 3 eexists. split_and!; [reflexivity|by apply becomes_refl|done|by apply moved_refl|]. intros _ b. set_solver. }
  pose proof (moved_keep (k_fds k)) as Hkeep. rewrite backups_cons in Hn, Ho.
  destruct (sd_backup e) as [old|] eqn:Eb.
  2:{ destruct (IH k Hk Hbd Hn Ho) as (failed & rest' & k' & -> & Hb & Hbd' & Hm & Hop).
      do 3 eexists. split_and!; [reflexivity|done|done|..].
      - apply Hkeep; [by rewrite backups_cons, Eb|rewrite backups_cons, Eb; done|done].
      - intros Hf b. rewrite backups_cons, Eb. by apply Hop. }
  pose proof Hn as Hn0. apply NoDup_cons in Hn0 as [Hold Hnr].
  destruct (is_operand old items) eqn:Eop; cbn [negb].
  2:{ destruct (IH k Hk Hbd Hnr) as (failed & rest' & k' & -> & Hb & Hbd' & Hm & Hop); [intros b Hin; apply Ho; set_solver|].
      do 3 eexists. split_and!; [reflexivity|done|done|..].
      - apply Hkeep; [by rewrite backups_cons, Eb|rewrite backups_cons, Eb; done|done].
      - intros Hf b. rewrite backups_cons, Eb. intros [->|Hin]%elem_of_cons; [done|by apply Hop]. }
  destruct (Ho old) as [d Ed]; [set_solver|].
  destruct (save_cases old items reserved d k Hk Ed) as (r & k1 & -> & Hr). destruct r as [e1|new].
  { pose proof Hr as (Ef & _ & _ & El & _). do 3 eexists. split_and!; [reflexivity| | | |done].
    - by rewrite Ef.
    - by rewrite Ef, El.
    - rewrite Ef. apply moved_refl; rewrite backups_cons, Eb; done. }
  destruct Hr as (H1 & H2 & H3 & H4 & H5 & Hb1). pose proof Hb1 as (Ef1 & _ & _ & El1 & Hi1).
  destruct (close_run old k1 Hi1) as (k2 & -> & Hb2). cbn [snd]. rewrite Ef1 in Hb2.
  pose proof Hb2 as (Ef2 & _ & _ & El2 & Hi2).
  destruct (IH k2 Hi2) as (failed & rest' & k' & -> & Hb & Hbd' & Hm & Hop).
  - rewrite Ef2, El2, El1. intros fd x. destruct (decide (fd = old)) as [->|Hfo]; [by rewrite lookup_delete_eq|].
    rewrite lookup_delete_ne by done. destruct (decide (fd = new)) as [->|Hfn]; [intros; lia|].
    rewrite lookup_insert_ne by done. apply Hbd.
  - done.
  - intros b Hin. rewrite Ef2, lookup_delete_ne by (intros ->; done).
    destruct (decide (b = new)) as [->|Hfn]; [rewrite lookup_insert_eq; by eexists|].
    rewrite lookup_insert_ne by done. apply Ho. set_solver.
  - do 3 eexists. split_and!; [reflexivity| |done|..].
    + eapply becomes_trans; [exact Hb1|]. by eapply becomes_trans.
    + eapply moved_step; [exact Hn|done|exact Ho|exact Ed|done|by split_and!; [..|lia]|]. by rewrite Ef2 in Hm.
    + intros Hf b. rewrite backups_cons. cbn [sd_backup]. intros [->|Hin]%elem_of_cons; [done|by apply Hop].
Qed.

(** The saves as one list of entries. *)
Definition flat (saves : list (nat * list saved_descriptor)) : list saved_descriptor := saves ≫= snd.

Lemma backups_app a b : backups (a ++ b) = backups a ++ backups b.
Proof.
  induction a as [|e a IH]; [done|]. cbn [app]. rewrite !backups_cons, IH. by destruct (sd_backup e).
Qed.

Lemma privates_flat saves : privates saves = backups (flat saves).
Proof.
  induction saves as [|[id es] saves IH]; [done|]. rewrite privates_cons, IH. symmetry. apply backups_app.
Qed.

Lemma relocate_entries_app a b k :
  relocate_entries items reserved (a ++ b) k =
  match relocate_entries items reserved a k with
  | (Some n, a', k') => (Some n, a' ++ b, k')
  | (None, a', k') => let '(failed, b', k'') := relocate_entries items reserved b k' in (failed, a' ++ b', k'')
  end.
Proof.
  revert k. induction a as [|e a IH]; intros k; cbn [app relocate_entries].
  { by destruct (relocate_entries items reserved b k) as [[??]?]. }
  assert (forall k1 (e1 : saved_descriptor),
    (let '(failed, rest, k') := relocate_entries items reserved (a ++ b) k1 in (failed, e1 :: rest, k')) =
    match (let '(failed, rest, k') := relocate_entries items reserved a k1 in (failed, e1 :: rest, k')) with
    | (Some n, a', k') => (Some n, a' ++ b, k')
    | (None, a', k') => let '(failed, b', k'') := relocate_entries items reserved b k' in (failed, a' ++ b', k'')
    end) as Hc.
  { intros k1 e1. rewrite IH. destruct (relocate_entries items reserved a k1) as [[[n|] a'] k']; [done|].
    by destruct (relocate_entries items reserved b k') as [[??]?]. }
  destruct (sd_backup e) as [old|]; [|apply Hc]. destruct (negb _); [apply Hc|].
  destruct (save_descriptor old items reserved k) as [[n|new] k1]; [done|]. apply Hc.
Qed.

(** The same saves with entries of the same number. *)
Definition same_shape (saves saves' : list (nat * list saved_descriptor)) : Prop :=
  Forall2 (fun s s' => s.1 = s'.1 /\ length s.2 = length s'.2) saves saves'.

Lemma relocate_entries_length entries k failed entries' k' :
  relocate_entries items reserved entries k = (failed, entries', k') -> length entries' = length entries.
Proof.
  revert k failed entries' k'. induction entries as [|e rest IH]; intros k failed entries' k'; cbn [relocate_entries].
  { by intros [= <- <- <-]. }
  assert (forall k1 (e1 : saved_descriptor),
    (let '(failed, rest, k) := relocate_entries items reserved rest k1 in (failed, e1 :: rest, k)) = (failed, entries', k') ->
    length entries' = length (e :: rest)) as Hc.
  { intros k1 e1. destruct (relocate_entries items reserved rest k1) as [[f r] k2] eqn:E.
    intros [= <- <- <-]. simpl. f_equal. by eapply IH. }
  destruct (sd_backup e) as [old|]; [|apply Hc]. destruct (negb _); [apply Hc|].
  destruct (save_descriptor old items reserved k) as [[n|new] k1]; [by intros [= <- <- <-]|]. apply Hc.
Qed.

Lemma relocate_flat saves k failed saves' k' : relocate items reserved saves k = (failed, saves', k') ->
  same_shape saves saves' /\ relocate_entries items reserved (flat saves) k = (failed, flat saves', k').
Proof.
  revert k failed saves' k'. induction saves as [|[id es] saves IH]; intros k failed saves' k'; cbn [relocate].
  { intros [= <- <- <-]. split; [constructor|done]. }
  change (flat ((id, es) :: saves)) with (es ++ flat saves). rewrite relocate_entries_app.
  destruct (relocate_entries items reserved es k) as [[[n|] es'] k1] eqn:E;
    apply relocate_entries_length in E.
  - intros [= <- <- <-]. split; [|done]. constructor; [done|]. apply Forall_Forall2_diag, Forall_true. done.
  - destruct (relocate items reserved saves k1) as [[f ss] k2] eqn:E2. intros [= <- <- <-].
    destruct (IH _ _ _ _ E2) as [H1 ->]. split; [|done]. by constructor.
Qed.

Lemma Forall2_nested (R : saved_descriptor -> saved_descriptor -> Prop) saves saves' :
  same_shape saves saves' -> Forall2 R (flat saves) (flat saves') ->
  Forall2 (fun s s' => s.1 = s'.1 /\ Forall2 R s.2 s'.2) saves saves'.
Proof.
  induction 1 as [|[id es] [id' es'] saves saves' [H1 H2] Hs IH]; [constructor|]. cbn [fst snd] in *.
  change (flat ((id, es) :: saves)) with (es ++ flat saves).
  change (flat ((id', es') :: saves')) with (es' ++ flat saves').
  intros HF. apply Forall2_app_inv in HF as [HF1 HF2]; [|done]. constructor; auto.
Qed.
End Relocate.

(** No private backup has to move, or it cannot move onto a target of a save:
    each is a standard descriptor, reserved, an operand itself, or open. *)
Definition targets_kept (items : list csh_redirect) (reserved : list Z) (fds : gmap Z descriptor)
    (saves : list (nat * list saved_descriptor)) : Prop :=
  (forall b, b ∈ privates saves -> is_operand b items = false) \/
  (forall t, t ∈ targets (flat saves) ->
    t < 3 \/ in_set t reserved = true \/ is_operand t items = true \/ is_Some (fds !! t)).

Lemma relocate_none items reserved saves k : (forall b, b ∈ privates saves -> is_operand b items = false) ->
  relocate items reserved saves k = (None, saves, k).
Proof.
  assert (forall es, (forall b, b ∈ backups es -> is_operand b items = false) -> relocate_entries items reserved es k = (None, es, k)) as He.
  { induction es as [|e es IH]; intros Hb; [done|]. cbn [relocate_entries]. rewrite backups_cons in Hb.
    destruct (sd_backup e) as [b|]; [rewrite Hb by by left|]; cbn [negb]; rewrite IH; try done. intros b' Hin. apply Hb. by right. }
  induction saves as [|[id es] saves IH]; intros Hb; [done|]. cbn [relocate]. rewrite privates_cons in Hb.
  rewrite He by (intros b Hin; apply Hb; set_solver). rewrite IH; [done|]. intros b Hin. apply Hb. set_solver.
Qed.

Lemma targets_app a b : targets (a ++ b) = targets a ++ targets b.
Proof. apply fmap_app. Qed.

Lemma shifted_targets items reserved fds es es' : Forall2 (shifted items reserved fds) es es' -> targets es' = targets es.
Proof. induction 1 as [|e e' es es' (H1 & _) HF IH]; [done|]. rewrite !targets_cons. congruence. Qed.

Lemma shifted_backups items reserved fds es es' b : Forall2 (shifted items reserved fds) es es' -> b ∈ backups es' ->
  b ∈ backups es \/ eligible items reserved fds b.
Proof.
  induction 1 as [|e e' es es' (_ & _ & Hs) HF IH]; [set_solver|]. rewrite !backups_cons.
  destruct Hs as [->|(b' & -> & Hr)].
  - destruct (sd_backup e) as [x|]; [|done]. intros [->|Hin]%elem_of_cons; [set_solver|]. destruct (IH Hin); set_solver.
  - intros [->|Hin]%elem_of_cons; [by right|]. destruct (IH Hin); [|by right]. left. destruct (sd_backup e); set_solver.
Qed.

Lemma shifted_privates items reserved fds saves saves' b :
  Forall2 (fun s s' => s.1 = s'.1 /\ Forall2 (shifted items reserved fds) s.2 s'.2) saves saves' ->
  b ∈ privates saves' -> b ∈ privates saves \/ eligible items reserved fds b.
Proof.
  induction 1 as [|[id es] [id' es'] saves saves' [_ Hs] HF IH]; [set_solver|]. rewrite !privates_cons.
  cbn [snd] in Hs. intros [Hin|Hin]%elem_of_app.
  - destruct (shifted_backups _ _ _ _ _ _ Hs Hin); set_solver.
  - destruct (IH Hin); set_solver.
Qed.

Lemma layered_shifted items reserved fds saves saves' :
  Forall2 (fun s s' => s.1 = s'.1 /\ Forall2 (shifted items reserved fds) s.2 s'.2) saves saves' ->
  (forall t, t ∈ targets (flat saves) -> ~ eligible items reserved fds t) -> layered saves -> layered saves'.
Proof.
  induction 1 as [|[id es] [id' es'] saves saves' [_ Hs] HF IH]; [done|]. cbn [snd] in Hs. intros Hr (H1 & H2 & H3).
  change (flat ((id, es) :: saves)) with (es ++ flat saves) in Hr.
  rewrite targets_app in Hr. cbn [layered]. rewrite (shifted_targets _ _ _ _ _ Hs). split_and!; [done| |].
  - intros t Ht Hin. assert (~ eligible items reserved fds t) as Hrt by (apply Hr; set_solver). apply (H2 t Ht).
    apply elem_of_app in Hin as [Hin|Hin].
    + destruct (shifted_backups _ _ _ _ _ _ Hs Hin); [set_solver|done].
    + destruct (shifted_privates _ _ _ _ _ _ HF Hin); [set_solver|done].
  - apply IH; [|done]. intros t Ht. apply Hr. set_solver.
Qed.

(** The part of the state that relocation, saving and applying keep. *)
Lemma stack_flat (fds fds' : gmap Z descriptor) saves saves' : same_shape saves saves' ->
  denote fds' (flat saves') = denote fds (flat saves) ->
  (fun s => denote fds' (snd s)) <$> saves' = (fun s => denote fds (snd s)) <$> saves.
Proof.
  induction 1 as [|[id es] [id' es'] saves saves' [_ H2] Hs IH]; [done|]. cbn [snd] in *.
  change (flat ((id, es) :: saves)) with (es ++ flat saves).
  change (flat ((id', es') :: saves')) with (es' ++ flat saves'). unfold denote in *. rewrite !fmap_app.
  intros E. apply app_inj_1 in E as [E1 E2]; [|by rewrite !length_fmap]. cbn [fmap list_fmap snd].
  f_equal; [done|]. by apply IH.
Qed.

Lemma Forall_flat (P : saved_descriptor -> Prop) saves :
  Forall (fun s => Forall P (snd s)) saves <-> Forall P (flat saves).
Proof.
  induction saves as [|[id es] saves IH]; [split; constructor|].
  change (flat ((id, es) :: saves)) with (es ++ flat saves). rewrite Forall_cons, Forall_app, IH. done.
Qed.

Lemma relocate_run items reserved saves k : interruptible k -> bounded (k_fds k) (k_limit k) ->
  saves_ok (k_fds k) (k_limit k) saves -> targets_kept items reserved (k_fds k) saves ->
  exists failed saves' k', relocate items reserved saves k = (failed, saves', k') /\
    becomes k (k_fds k') k' /\ bounded (k_fds k') (k_limit k') /\ saves_ok (k_fds k') (k_limit k') saves' /\
    saves'.*1 = saves.*1 /\
    hide (privates saves') (k_fds k') = hide (privates saves) (k_fds k) /\
    (fun s => denote (k_fds k') (snd s)) <$> saves' = (fun s => denote (k_fds k) (snd s)) <$> saves /\
    (failed = None -> forall b, b ∈ privates saves' -> is_operand b items = false).
Proof.
  intros Hk Hbd Hs Hr. destruct Hr as [Hr|Hr].
  { exists None, saves, k. rewrite relocate_none by done. by split_and!. }
  assert (forall t, t ∈ targets (flat saves) -> ~ eligible items reserved (k_fds k) t) as Hel.
  { intros t Ht (E1 & E2 & E3 & E4). destruct (Hr t Ht) as [H|[H|[H|[d H]]]]; [lia|congruence..]. }
  clear Hr. destruct Hs as [Hn Ho Hf Hl]. destruct (relocate items reserved saves k) as [[failed saves'] k'] eqn:E.
  exists failed, saves', k'. split; [done|].
  destruct (relocate_flat _ _ _ _ _ _ _ E) as [Hshape Ee].
  rewrite privates_flat in Hn, Ho.
  destruct (relocate_entries_run items reserved (flat saves) k Hk Hbd Hn Ho)
    as (failed' & es' & k'' & Ee' & Hb & Hbd' & Hm & Hop).
  rewrite Ee in Ee'. injection Ee' as <- <- <-. rewrite !privates_flat.
  destruct Hm as [M1 M2 M3 M4 M5 M6 M7 M8].
  pose proof (Forall2_nested _ _ _ Hshape M8) as Hnest.
  split_and!; [done|done| | | | |done].
  - split; rewrite ?privates_flat; [done|done| |by eapply layered_shifted].
    apply Forall_flat. pose proof Hb as (_ & _ & _ & -> & _). apply M7. by apply Forall_flat.
  - clear -Hshape. induction Hshape as [|s s' l l' [H1 _] HF IH]; [done|]. cbn [fmap list_fmap]. congruence.
  - apply map_eq. intros fd. rewrite !lookup_hide.
    destruct (decide (fd ∈ backups (flat saves'))) as [Hin|Hout].
    + destruct (decide (fd ∈ backups (flat saves))) as [|Hout']; [done|].
      destruct (M5 fd Hin) as [?|[-> _]]; done.
    + destruct (decide (fd ∈ backups (flat saves))) as [Hin'|Hout']; [by apply M6|by apply M4].
  - by apply stack_flat.
Qed.

(** ** Taking the snapshot *)

Section Snapshot.
Variable items : list csh_redirect.
Variable reserved : list Z.
Variable base : gmap Z descriptor.
Variable limit : Z.

(** The entries so far hold the originals of [base] in private backups. *)
Record holds (fds : gmap Z descriptor) (saved : list saved_descriptor) : Prop := {
  ho_base : hide (backups saved) fds = base;
  ho_open : forall b, b ∈ backups saved -> is_Some (fds !! b);
  ho_private : forall b, b ∈ backups saved -> base !! b = None /\ is_operand b items = false /\ in_set b reserved = false;
  ho_distinct : NoDup (backups saved) /\ NoDup (targets saved);
  ho_targets : forall t, t ∈ targets saved -> is_operand t items = true;
  ho_denote : denote fds saved = (fun t => (t, base !! t)) <$> targets saved;
  ho_fits : Forall (entry_fits limit) saved }.

Lemma holds_nil : holds base [].
Proof.
  split.
  - apply map_eq. intros fd. rewrite lookup_hide. by rewrite decide_False by set_solver.
  - set_solver.
  - set_solver.
  - split; constructor.
  - set_solver.
  - done.
  - constructor.
Qed.

Lemma holds_lookup fds saved t : holds fds saved -> is_operand t items = true -> base !! t = fds !! t.
Proof.
  intros Hh Hop. rewrite <- (ho_base _ _ Hh), lookup_hide. rewrite decide_False; [done|].
  intros Hin. apply (ho_private _ _ Hh) in Hin as (_ & E & _). congruence.
Qed.

Lemma backups_one e : backups [e] = match sd_backup e with Some b => [b] | None => [] end.
Proof. rewrite backups_cons. by destruct (sd_backup e). Qed.

Lemma denote_app fds a b : denote fds (a ++ b) = denote fds a ++ denote fds b.
Proof. apply fmap_app. Qed.

Lemma holds_closed fds saved item index : holds fds saved -> is_operand (rd_fd item) items = true ->
  rd_fd item ∉ targets saved -> fds !! rd_fd item = None ->
  holds fds (saved ++ [mk_saved (rd_fd item) None true index]).
Proof.
  intros Hh Hop Hnew E. pose proof Hh as [H1 H2 H3 [H4 H5] H6 H7 H8].
  assert (backups (saved ++ [mk_saved (rd_fd item) None true index]) = backups saved) as Eb
    by (rewrite backups_app, backups_one; apply app_nil_r).
  split; rewrite ?Eb, ?targets_app; try done.
  - split; [done|]. apply NoDup_app. split_and!; [done|set_solver|apply NoDup_singleton].
  - intros t [Hin|Hin]%elem_of_app; [by apply H6|]. cbn in Hin. apply list_elem_of_singleton in Hin as ->. done.
  - rewrite denote_app, H7, fmap_app. f_equal. cbn. by rewrite (holds_lookup _ _ _ Hh Hop), E.
  - apply Forall_app. split; [done|]. apply Forall_singleton. intros Hc. by destruct Hc.
Qed.

Lemma holds_open fds saved item index d new : holds fds saved -> is_operand (rd_fd item) items = true ->
  rd_fd item ∉ targets saved -> fds !! rd_fd item = Some d -> 0 <= rd_fd item < limit ->
  eligible items reserved fds new ->
  holds (<[new := mk_descriptor (d_file d) true]> fds)
    (saved ++ [mk_saved (rd_fd item) (Some new) (d_cloexec d) index]).
Proof.
  intros Hh Hop Hnew E Hr (En & Hres & Hno & _). pose proof Hh as [H1 H2 H3 [H4 H5] H6 H7 H8].
  assert (new ∉ backups saved) as Hnb by (intros Hin; destruct (H2 new Hin); congruence).
  assert (base !! new = None) as Hbn by (rewrite <- H1, lookup_hide; by destruct (decide _)).
  assert (backups (saved ++ [mk_saved (rd_fd item) (Some new) (d_cloexec d) index]) = backups saved ++ [new]) as Eb
    by (by rewrite backups_app, backups_one).
  split; rewrite ?Eb, ?targets_app.
  - apply map_eq. intros fd. rewrite <- H1, !lookup_hide. destruct (decide (fd = new)) as [->|Hne].
    + rewrite decide_True by set_solver. by destruct (decide _).
    + rewrite lookup_insert_ne by done.
      destruct (decide (fd ∈ backups saved)); [rewrite decide_True by set_solver|rewrite decide_False by set_solver]; done.
  - intros b [Hin|Hin]%elem_of_app.
    + rewrite lookup_insert_ne by (intros ->; done). by apply H2.
    + apply list_elem_of_singleton in Hin as ->. rewrite lookup_insert_eq. by eexists.
  - intros b [Hin|Hin]%elem_of_app; [by apply H3|]. by apply list_elem_of_singleton in Hin as ->.
  - split; (apply NoDup_app; split_and!; [done| |apply NoDup_singleton]); [set_solver|].
    intros t Hin Hin'. cbn in Hin'. apply list_elem_of_singleton in Hin' as ->. done.
  - intros t [Hin|Hin]%elem_of_app; [by apply H6|]. cbn in Hin. apply list_elem_of_singleton in Hin as ->. done.
  - rewrite denote_app, (denote_ext fds), H7, fmap_app.
    2:{ intros b Hin. apply lookup_insert_ne. intros ->. done. }
    f_equal. cbn. unfold entry_value. cbn [sd_backup sd_flags]. rewrite lookup_insert_eq. cbn.
    rewrite (holds_lookup _ _ _ Hh Hop), E. by destruct d.
  - apply Forall_app. split; [done|]. apply Forall_singleton. by intros _.
Qed.

Lemma snapshot_loop_run todo : forall index saved k, interruptible k -> k_limit k = limit -> bounded (k_fds k) limit ->
  (forall i, i ∈ todo -> is_operand (rd_fd i) items = true) -> holds (k_fds k) saved ->
  exists r k', snapshot_loop todo index items reserved saved k = (r, k') /\
    becomes k (k_fds k') k' /\ bounded (k_fds k') limit /\
    match r with
    | inl _ => k_fds k' = base
    | inr saved' => holds (k_fds k') saved' /\ (forall t, t ∈ targets saved -> t ∈ targets saved') /\
        (forall i, i ∈ todo -> rd_fd i ∈ targets saved') /\
        (forall t, t ∈ targets saved' -> t ∈ targets saved \/ t ∈ (rd_fd <$> todo))
    end.
Proof.
  induction todo as [|item todo IH]; intros index saved k Hk Hlim Hbd Hops Hh; cbn [snapshot_loop].
  { do 2 eexists. split_and!; [reflexivity|by apply becomes_refl|done|]. split_and!; auto; set_solver. }
  assert (is_operand (rd_fd item) items = true) as Hop by (apply Hops; set_solver).
  assert (forall i, i ∈ todo -> is_operand (rd_fd i) items = true) as Hops' by (intros i Hi; apply Hops; set_solver).
  destruct (existsb _ saved) eqn:Ex.
  { destruct (IH (index + 1) saved k Hk Hlim Hbd Hops' Hh) as (r & k' & -> & Hb & Hbd' & Hr).
    do 2 eexists. split_and!; [reflexivity|done|done|]. destruct r as [e|saved']; [done|].
    destruct Hr as (R1 & R2 & R3 & R4). split_and!; [done|done| |].
    - intros i [->|Hi]%elem_of_cons; [|by apply R3]. apply R2. apply existsb_exists in Ex as (e & Hin & He).
      apply Z.eqb_eq in He as <-. apply list_elem_of_fmap. exists e. split; [done|]. by apply list_elem_of_In.
    - intros t Ht. destruct (R4 t Ht); [auto|]. right. set_solver. }
  assert (rd_fd item ∉ targets saved) as Hnew.
  { intros Hin. apply list_elem_of_fmap in Hin as (e & Ee & Hin). apply not_true_iff_false in Ex. apply Ex.
    apply existsb_exists. exists e. split; [by apply list_elem_of_In|]. by apply Z.eqb_eq. }
  assert (forall saved' k1, becomes k (k_fds k1) k1 -> bounded (k_fds k1) limit -> holds (k_fds k1) saved' ->
    targets saved' = targets saved ++ [rd_fd item] ->
    exists r k', snapshot_loop todo (index + 1) items reserved saved' k1 = (r, k') /\
      becomes k (k_fds k') k' /\ bounded (k_fds k') limit /\
      match r with
      | inl _ => k_fds k' = base
      | inr saved'' => holds (k_fds k') saved'' /\ (forall t, t ∈ targets saved -> t ∈ targets saved'') /\
          (forall i, i ∈ item :: todo -> rd_fd i ∈ targets saved'') /\
          (forall t, t ∈ targets saved'' -> t ∈ targets saved \/ t ∈ (rd_fd <$> item :: todo))
      end) as Hnext.
  { intros saved' k1 Hb1 Hbd1 Hh1 Et. pose proof Hb1 as (_ & _ & _ & El & Hi).
    destruct (IH (index + 1) saved' k1 Hi ltac:(congruence) Hbd1 Hops' Hh1) as (r & k' & -> & Hb & Hbd' & Hr).
    do 2 eexists. split_and!; [reflexivity|by eapply becomes_trans|done|]. destruct r as [e|saved'']; [done|].
    destruct Hr as (R1 & R2 & R3 & R4). rewrite Et in *. split_and!; [done|set_solver| |].
    - intros i [->|Hi']%elem_of_cons; [apply R2; set_solver|by apply R3].
    - intros t Ht. apply R4 in Ht. rewrite fmap_cons. set_solver. }
  unfold snapshot_entry, kbind, kcatch. destruct (getfd_cases k Hk (rd_fd item)) as (k1 & Hb1 & ->).
  pose proof Hb1 as (Ef1 & _ & _ & El1 & Hi1). destruct (k_fds k !! rd_fd item) as [d|] eqn:Ed.
  2:{ cbv beta iota. apply Hnext; [by rewrite Ef1|by rewrite Ef1| |by rewrite targets_app].
      rewrite Ef1. by apply holds_closed. }
  destruct (save_cases (rd_fd item) items reserved d k1 Hi1 ltac:(by rewrite Ef1)) as (r & k2 & -> & Hr).
  rewrite Ef1, El1 in Hr. destruct r as [e|new].
  - pose proof (becomes_trans _ _ _ _ _ Hb1 Hr) as Hb2. pose proof Hb2 as (Ef2 & _ & _ & _ & Hi2).
    pose proof (discard_run saved k2 Hi2) as Hd. rewrite Ef2, (ho_base _ _ Hh) in Hd.
    pose proof Hd as (Ed' & _). do 2 eexists. split_and!; [reflexivity| | |done].
    + rewrite Ed'. by eapply becomes_trans.
    + rewrite Ed', <- (ho_base _ _ Hh). by apply bounded_hide.
  - destruct Hr as (R1 & R2 & R3 & R4 & R5 & Hb2). pose proof Hb2 as (Ef2 & _ & _ & _ & Hi2). unfold kret.
    apply Hnext; [rewrite Ef2; by eapply becomes_trans| | |by rewrite targets_app].
    + rewrite Ef2. intros fd x. destruct (decide (fd = new)) as [->|Hne]; [intros; lia|].
      rewrite lookup_insert_ne by done. apply Hbd.
    + rewrite Ef2. eapply holds_open; [done..|by eapply Hbd|]. split_and!; (done || lia).
Qed.
End Snapshot.

(** ** Applying one redirection *)

Section One.
Context `{DL : DiskLaws}.

(** Nothing but descriptions and the outcomes to come. *)
Definition touches (k k' : kernel) : Prop :=
  k_fds k' = k_fds k /\ k_next k' = k_next k /\ k_limit k' = k_limit k /\ interruptible k'.

Lemma becomes_touches k k' : becomes k (k_fds k) k' -> touches k k'.
Proof. intros (?&?&?&?&?). repeat split; done. Qed.

Lemma touches_trans k k1 k2 : touches k k1 -> touches k1 k2 -> touches k k2.
Proof. intros (?&?&?&?) (?&?&?&?). repeat split; congruence || done. Qed.

(** A call that is not retried. *)
Lemma sys_cases {A} (f : kernel -> errno + (A * kernel)) k : interruptible k ->
  exists k1, becomes k (k_fds k) k1 /\
    (sys f k = (inl EINTR, k1) \/
     sys f k = match f k1 with inl e => (inl e, k1) | inr (a, k2) => (inr a, k2) end).
Proof.
  intros Hk. unfold sys, pop_fault. destruct (k_faults k) as [|o l] eqn:E.
  { exists k. split; [by apply becomes_refl|]. by right. }
  unfold interruptible in Hk. rewrite E in Hk. apply Forall_cons in Hk as [Ho Hl].
  exists (with_faults k l). split; [repeat split; done|]. destruct o as [e|]; [|by right].
  left. cbn in Ho. by rewrite Ho.
Qed.

(** A new description at a free descriptor. *)
Definition opens (k k' : kernel) (fd : Z) (cloexec : bool) (ds : description) : Prop :=
  k_fds k !! fd = None /\ 0 <= fd < k_limit k /\
  k_fds k' = <[fd := mk_descriptor (k_next k) cloexec]> (k_fds k) /\
  k_files k' !! k_next k = Some ds /\ k_limit k' = k_limit k /\ interruptible k'.

Lemma lowest_free_spec k minimum fd : lowest_free k minimum = Some fd ->
  k_fds k !! fd = None /\ minimum <= fd < k_limit k.
Proof.
  unfold lowest_free. intros [Hin Hn]%find_some. apply list_elem_of_In, elem_of_seqZ in Hin.
  apply bool_decide_eq_true in Hn. split; [done|lia].
Qed.

Lemma open_cases path flags k : interruptible k ->
  exists r k', retry (sys_open path flags) k = (r, k') /\
  match r with
  | inl e => becomes k (k_fds k) k'
  | inr fd => exists t ds, disk_open t path flags = inr ds /\ opens k k' fd true ds
  end.
Proof.
  intros Hk. unfold sys_open. edestruct (retry_cases k Hk (A:=Z)) as (k1 & Hb & ->).
  { intros k'. cbv beta. destruct (disk_open (k_time k') path flags) as [e|ds] eqn:E.
    - intros [= ->]. by apply disk_open_uninterrupted in E.
    - by destruct (lowest_free k' 0). }
  cbv beta. destruct (disk_open (k_time k1) path flags) as [e|ds] eqn:E;
    [do 2 eexists; split; [reflexivity|]; done|].
  destruct (lowest_free k1 0) as [fd|] eqn:El; [|do 2 eexists; split; [reflexivity|]; done].
  apply lowest_free_spec in El as [E1 E2]. destruct Hb as (B1 & B2 & B3 & B4 & B5). rewrite B1, B4 in *.
  do 2 eexists. split; [reflexivity|]. exists (k_time k1), ds. split; [done|].
  unfold opens, add_file, tick. cbn. rewrite B1, B2, B3, lookup_insert_eq. repeat split; done || lia.
Qed.

Lemma mkstemp_cases k : interruptible k ->
  exists r k', retry sys_mkstemp k = (r, k') /\
  match r with
  | inl e => becomes k (k_fds k) k'
  | inr fd => opens k k' fd false (mk_description O_RDWR S_IFREG false [] 0)
  end.
Proof.
  intros Hk. unfold sys_mkstemp. edestruct (retry_cases k Hk (A:=Z)) as (k1 & Hb & ->).
  { intros k'. cbv beta. by destruct (lowest_free k' 0). }
  cbv beta. destruct (lowest_free k1 0) as [fd|] eqn:El; [|do 2 eexists; split; [reflexivity|]; done].
  apply lowest_free_spec in El as [E1 E2]. destruct Hb as (B1 & B2 & B3 & B4 & B5). rewrite B1, B4 in *.
  do 2 eexists. split; [reflexivity|]. unfold opens, add_file. cbn. rewrite B1, B2, B3, lookup_insert_eq. repeat split; done || lia.
Qed.

(** The table after [install], when [fd] is new to the table [fds]. *)
Lemma install_cases fds id c fd target k : interruptible k -> fds !! fd = None -> 0 <= fd < k_limit k ->
  k_fds k = <[fd := mk_descriptor id c]> fds ->
  exists r k', install fd target k = (r, k') /\
  match r with
  | inl e => becomes k fds k'
  | inr _ => becomes k (<[target := mk_descriptor id false]> fds) k' /\ 0 <= target < k_limit k
  end.
Proof.
  intros Hk Hfree Hrange Ef. unfold install. destruct (Z.eqb_spec fd target) as [->|Hne].
  { destruct (setfd_cases k Hk target false) as (r & k' & -> & Hr). rewrite Ef, lookup_insert_eq in Hr.
    destruct r as [e|[]]; [by destruct Hr|]. destruct Hr as (d & [= <-] & Hb). rewrite insert_insert_eq in Hb.
    do 2 eexists. split; [reflexivity|]. split; [done|lia]. }
  unfold kbind, kcatch. destruct (dup2_cases k Hk fd target) as (r & k1 & -> & Hr). rewrite Ef, lookup_insert_eq in Hr.
  assert (interruptible k1) as Hi1 by (destruct r as [e|[]]; [apply Hr|destruct Hr as (? & _ & _ & Hb); apply Hb]).
  destruct (close_run fd k1 Hi1) as (k2 & -> & Hb2). destruct r as [e|[]].
  - destruct Hr as [Hb _]. do 2 eexists. split; [reflexivity|]. pose proof Hb as (E1 & _). rewrite E1 in Hb2.
    rewrite delete_insert_id in Hb2 by done. by eapply becomes_trans.
  - destruct Hr as (d & [= <-] & Ht & Hb). rewrite (proj2 (Z.eqb_neq _ _) Hne) in Hb. cbn [d_file] in Hb.
    do 2 eexists. split; [reflexivity|]. split; [|done]. pose proof Hb as (E1 & _). rewrite E1 in Hb2.
    rewrite insert_insert_ne, delete_insert_id in Hb2; [|by rewrite lookup_insert_ne|done]. by eapply becomes_trans.
Qed.

(** ** Here-documents *)

Lemma write_cases fd bytes k d acc kind nb content : interruptible k ->
  k_fds k !! fd = Some d -> k_files k !! d_file d = Some (mk_description acc kind nb content (length content)) ->
  exists n k', retry (sys_write fd bytes) k = (inr n, k') /\ (n <= length bytes)%nat /\ touches k k' /\
    k_files k' = <[d_file d := mk_description acc kind nb (content ++ take n bytes) (length content + n)]> (k_files k).
Proof.
  intros Hk Ed Ef. unfold sys_write. edestruct (retry_cases k Hk (A:=nat)) as (k1 & Hb & ->).
  { intros k'. cbv beta. destruct (file_of k' fd) as [[i f]|]; [|done]. by destruct (k_counts k'). }
  cbv beta. destruct Hb as (B1 & B2 & B3 & B4 & B5).
  assert (file_of k1 fd = Some (d_file d, mk_description acc kind nb content (length content))) as ->.
  { unfold file_of. rewrite B1, Ed. cbn. rewrite B2, Ef. done. }
  cbn [ds_offset ds_content ds_access ds_kind ds_nonblock].
  destruct (k_counts k1) as [|c l]; (do 2 eexists; split; [reflexivity|]; split; [lia|]);
    (split; [repeat split; done|]); cbn [with_counts with_files k_files];
    rewrite B2, (take_ge content), (drop_ge content), app_nil_r by lia; done.
Qed.

Lemma document_run fuel fd data d acc kind nb : forall content k, interruptible k -> k_fds k !! fd = Some d ->
  k_files k !! d_file d = Some (mk_description acc kind nb content (length content)) -> (length data < fuel)%nat ->
  exists r k', document_loop fuel fd data k = (r, k') /\ touches k k' /\
    (r = inr tt -> exists n, k_files k' !! d_file d = Some (mk_description acc kind nb (content ++ data) n)).
Proof.
  revert data. induction fuel as [|f IH]; intros data content k Hk Ed Ef Hl; [lia|].
  destruct data as [|b data]; cbn [document_loop].
  { do 2 eexists. split_and!; [reflexivity|repeat split; done|]. intros _. rewrite app_nil_r. eauto. }
  cbv zeta. set (amount := Nat.min _ _). unfold kbind.
  destruct (write_cases fd (take amount (b :: data)) k d acc kind nb content Hk Ed Ef) as (n & k1 & -> & Hn & Ht & Ef1).
  destruct (Nat.eqb_spec n 0) as [->|Hn0].
  { do 2 eexists. split_and!; [reflexivity|done|done]. }
  rewrite length_take in Hn. rewrite take_take, Nat.min_l in Ef1 by lia.
  pose proof Ht as (T1 & T2 & T3 & T4).
  destruct (IH (drop n (b :: data)) (content ++ take n (b :: data)) k1 T4) as (r & k' & -> & Ht' & Hr).
  - by rewrite T1.
  - rewrite Ef1, lookup_insert_eq. do 2 f_equal. rewrite length_app, length_take. lia.
  - rewrite length_drop. lia.
  - do 2 eexists. split_and!; [reflexivity|by eapply touches_trans|]. intros E.
    destruct (Hr E) as [m Em]. exists m. rewrite Em. by rewrite <- app_assoc, take_drop.
Qed.

Lemma lseek_cases fd k d f : interruptible k -> k_fds k !! fd = Some d -> k_files k !! d_file d = Some f ->
  exists k', retry (sys_lseek_start fd) k = (inr tt, k') /\ touches k k' /\
    k_files k' !! d_file d = Some (mk_description (ds_access f) (ds_kind f) (ds_nonblock f) (ds_content f) 0).
Proof.
  intros Hk Ed Ef. unfold sys_lseek_start. edestruct (retry_cases k Hk (A:=unit)) as (k1 & Hb & ->).
  { intros k'. cbv beta. by destruct (file_of k' fd) as [[i g]|]. }
  cbv beta. destruct Hb as (B1 & B2 & B3 & B4 & B5).
  assert (file_of k1 fd = Some (d_file d, f)) as -> by (unfold file_of; rewrite B1, Ed; cbn; rewrite B2, Ef; done).
  eexists. split_and!; [reflexivity|repeat split; done|]. cbn. by rewrite lookup_insert_eq.
Qed.

(** The table is [fds] in the end, whatever happened to descriptions. *)
Definition settles (k : kernel) (fds : gmap Z descriptor) (k' : kernel) : Prop :=
  k_fds k' = fds /\ k_limit k' = k_limit k /\ interruptible k'.

Lemma becomes_settles k fds k' : becomes k fds k' -> settles k fds k'.
Proof. intros (?&?&?&?&?). repeat split; done. Qed.

Lemma settles_trans k f1 k1 f2 k2 : settles k f1 k1 -> settles k1 f2 k2 -> settles k f2 k2.
Proof. intros (?&?&?) (?&?&?). repeat split; congruence || done. Qed.

Lemma abandon_run {A} fd number k fds c id : interruptible k -> fds !! fd = None ->
  k_fds k = <[fd := mk_descriptor id c]> fds ->
  exists k', abandon (A:=A) fd number k = (inl number, k') /\ settles k fds k'.
Proof.
  intros Hk Hfree Ef. unfold abandon. destruct (close_run fd k Hk) as (k' & -> & Hb). exists k'. split; [done|].
  rewrite Ef, delete_insert_id in Hb by done. by apply becomes_settles.
Qed.

Lemma unlink_cases k : interruptible k -> exists k', retry sys_unlink k = (inr tt, k') /\ becomes k (k_fds k) k'.
Proof.
  intros Hk. unfold sys_unlink. edestruct (retry_cases k Hk (A:=unit)) as (k1 & Hb & ->); [done|]. eauto.
Qed.

Lemma here_document_cases item k : interruptible k ->
  exists r k', here_document item k = (r, k') /\
  match r with
  | inl e => settles k (k_fds k) k'
  | inr fd => opens k k' fd true (mk_description O_RDWR S_IFREG false (rd_data item) 0)
  end.
Proof.
  intros Hk. unfold here_document. unfold kbind at 1. destruct (mkstemp_cases k Hk) as (r & k1 & -> & Hr).
  destruct r as [e|fd]; [do 2 eexists; split; [reflexivity|]; by apply becomes_settles|].
  destruct Hr as (Hfree & Hrange & Ef1 & Ed1 & El1 & Hi1).
  unfold kbind at 1, kcatch at 1. destruct (unlink_cases k1 Hi1) as (k2 & -> & Hb2).
  pose proof Hb2 as (Ef2 & Ed2 & _ & El2 & Hi2). unfold kbind at 1, kcatch at 1. unfold kbind at 1.
  destruct (setfd_cases k2 Hi2 fd true) as (r & k3 & -> & Hr). rewrite Ef2, Ef1, lookup_insert_eq in Hr.
  destruct r as [e|[]]; [by destruct Hr|]. destruct Hr as (d & [= <-] & Hb3). cbn [d_file] in Hb3.
  rewrite insert_insert_eq in Hb3. pose proof Hb3 as (Ef3 & Ed3 & _ & El3 & Hi3).
  assert (k_fds k3 !! fd = Some (mk_descriptor (k_next k) true)) as Ek3 by (by rewrite Ef3, lookup_insert_eq).
  unfold kbind at 1.
  destruct (document_run (S (length (rd_data item))) fd (rd_data item) _ O_RDWR S_IFREG false [] k3 Hi3 Ek3)
    as (r & k4 & -> & (T1 & T2 & T3 & T4) & Hdoc); [cbn; congruence|lia|]. destruct r as [e|[]].
  { destruct (abandon_run (A:=Z) fd e k4 (k_fds k) true (k_next k) T4 Hfree) as (k5 & -> & Hs); [congruence|].
    do 2 eexists. split; [reflexivity|]. destruct Hs as (S1 & S2 & S3). repeat split; congruence || done. }
  destruct (Hdoc eq_refl) as [n Hn]. cbn [d_file app] in Hn.
  destruct (lseek_cases fd k4 (mk_descriptor (k_next k) true) _ T4 ltac:(by rewrite T1) Hn)
    as (k5 & -> & (U1 & U2 & U3 & U4) & Hc). cbn [d_file] in Hc.
  do 2 eexists. split; [reflexivity|]. unfold opens. rewrite U1, T1, Ef3. split_and!; try done; try lia; congruence.
Qed.

Lemma noclobber_cases path k : interruptible k ->
  exists r k', open_noclobber path k = (r, k') /\
  match r with
  | inl e => settles k (k_fds k) k'
  | inr fd => exists t ds, opens k k' fd true ds /\
      (disk_open t path (mk_open O_WRONLY true true false false) = inr ds \/
       disk_open t path (mk_open O_WRONLY false false false false) = inr ds /\ ds_kind ds <> S_IFREG)
  end.
Proof.
  intros Hk. unfold open_noclobber. unfold kbind at 1, kcatch at 1.
  destruct (open_cases path (mk_open O_WRONLY true true false false) k Hk) as (r & k1 & -> & Hr).
  destruct r as [e|fd].
  2:{ destruct Hr as (t & ds & Ho & Hop). do 2 eexists. split; [reflexivity|]. exists t, ds. auto. }
  pose proof Hr as (Ef1 & _ & En1 & El1 & Hi1).
  destruct (decide (e = EEXIST)) as [->|Hne].
  2:{ assert (forall m : K Z, match e with EEXIST => m | _ => kfail e end = kfail e) as Em by (by destruct e).
      do 2 eexists. split; [by rewrite Em|]. by apply becomes_settles. }
  unfold kbind at 1, sys_stat.
  edestruct (sys_cases (A:=file_kind)) as (k2 & Hb2 & Hs2); [exact Hi1|].
  destruct Hs2 as [->| ->].
  { do 2 eexists. split; [reflexivity|]. pose proof Hb2 as (E1 & _ & _ & E2 & E3). repeat split; congruence || done. }
  pose proof Hb2 as (Ef2 & _ & En2 & El2 & Hi2). destruct (disk_stat (k_time k2) path) as [e|kind].
  { do 2 eexists. split; [reflexivity|]. repeat split; congruence || done. }
  destruct (bool_decide (kind = S_IFREG)).
  { do 2 eexists. split; [reflexivity|]. repeat split; cbn; congruence || done. }
  unfold kbind at 1.
  destruct (open_cases path (mk_open O_WRONLY false false false false) (tick k2) Hi2) as (r & k3 & -> & Hr3).
  destruct r as [e|fd].
  { do 2 eexists. split; [reflexivity|]. destruct Hr3 as (E1 & _ & _ & E2 & E3). cbn in *. repeat split; congruence || done. }
  destruct Hr3 as (t & ds & Hopen & (Hfree & Hrange & Ef3 & Ed3 & El3 & Hi3)). cbn in Hfree, Hrange, Ef3, Ed3, El3.
  unfold kbind at 1, kcatch at 1, sys_fstat.
  edestruct (sys_cases (A:=file_kind)) as (k4 & Hb4 & Hs4); [exact Hi3|]. pose proof Hb4 as (Ef4 & Ed4 & _ & El4 & Hi4).
  assert (forall e, exists r k', abandon (A:=Z) fd e k4 = (inl r, k') /\ settles k (k_fds k) k') as Hab.
  { intros e. destruct (abandon_run (A:=Z) fd e k4 (k_fds k) true (k_next k) Hi4) as (k5 & -> & (S1 & S2 & S3)).
    - congruence.
    - rewrite Ef4, Ef3, En2, En1. congruence.
    - do 2 eexists. split; [reflexivity|]. repeat split; congruence || done. }
  assert (file_of k4 fd = Some (k_next k2, ds)) as Hfile.
  { unfold file_of. rewrite Ef4, Ef3, lookup_insert_eq. cbn. rewrite Ed4, Ed3. done. }
  destruct Hs4 as [->| ->].
  { destruct (Hab EINTR) as (r & k' & -> & Hs). by do 2 eexists. }
  rewrite Hfile. cbv beta iota. destruct (ds_kind ds) eqn:Ek.
  { destruct (Hab EEXIST) as (r & k' & -> & Hs). by do 2 eexists. }
  all: do 2 eexists; split; [reflexivity|]; exists t, ds; split; [|right; split; congruence];
    unfold opens; rewrite Ef4, Ed4, Ef3; split_and!; try done; try lia; congruence.
Qed.
End One.

(** ** What a redirection does *)

Section Performed.
Context `{DL : DiskLaws}.

(** A new description [ds] is at the target, inherited across exec. *)
Definition placed (item : csh_redirect) (k k' : kernel) (ds : description) : Prop :=
  k_fds k' = <[rd_fd item := mk_descriptor (k_next k) false]> (k_fds k) /\ k_files k' !! k_next k = Some ds.

Definition performed (item : csh_redirect) (k k' : kernel) : Prop :=
  match rd_kind item with
  | CSH_REDIRECT_CLOSE => k_fds k' = delete (rd_fd item) (k_fds k)
  | CSH_REDIRECT_DUP_READ | CSH_REDIRECT_DUP_WRITE =>
      exists d, k_fds k !! rd_source_fd item = Some d /\
        k_fds k' = <[rd_fd item := mk_descriptor (d_file d) false]> (k_fds k)
  | CSH_REDIRECT_HEREDOC => placed item k k' (mk_description O_RDWR S_IFREG false (rd_data item) 0)
  | CSH_REDIRECT_NOCLOBBER =>
      exists t ds, placed item k k' ds /\
        (disk_open t (path_of item) (mk_open O_WRONLY true true false false) = inr ds \/
         disk_open t (path_of item) (mk_open O_WRONLY false false false false) = inr ds /\ ds_kind ds <> S_IFREG)
  | kind => exists t ds, placed item k k' ds /\ disk_open t (path_of item) (file_flags kind) = inr ds
  end.

Fixpoint performs (items : list csh_redirect) (k k' : kernel) : Prop :=
  match items with
  | [] => k' = k
  | item :: rest => exists k1, performed item k k1 /\ performs rest k1 k'
  end.

Lemma install_placed item k k1 fd ds : opens k k1 fd true ds ->
  exists r k', install fd (rd_fd item) k1 = (r, k') /\ k_limit k' = k_limit k /\ interruptible k' /\
  match r with
  | inl e => k_fds k' = k_fds k
  | inr _ => placed item k k' ds /\ 0 <= rd_fd item < k_limit k
  end.
Proof.
  intros (Hfree & Hrange & Ef & Ed & El & Hi).
  destruct (install_cases (k_fds k) (k_next k) true fd (rd_fd item) k1 Hi Hfree ltac:(lia) Ef) as (r & k' & -> & Hr).
  exists r, k'. split; [done|]. destruct r as [e|[]].
  - destruct Hr as (E1 & _ & _ & E2 & E3). split_and!; congruence || done.
  - destruct Hr as [(E1 & E2 & _ & E3 & E4) Ht]. split_and!; try congruence; try done; try lia.
    split; congruence.
Qed.

(** A failing redirection leaves the table; a successful one is performed. *)
Lemma apply_one_cases item k : interruptible k ->
  exists r k', apply_one item k = (r, k') /\ k_limit k' = k_limit k /\ interruptible k' /\
  match r with
  | inl e => k_fds k' = k_fds k
  | inr _ => performed item k k' /\ (k_fds k' !! rd_fd item <> None -> 0 <= rd_fd item < k_limit k)
  end.
Proof.
  intros Hk.
  assert (forall r0 k1, settles k (k_fds k) k1 -> exists (r : errno + unit) k', (inl r0, k1) = (r, k') /\ k_limit k' = k_limit k /\ interruptible k' /\
    match r with inl e => k_fds k' = k_fds k | inr _ => performed item k k' /\ (k_fds k' !! rd_fd item <> None -> 0 <= rd_fd item < k_limit k) end) as Hfail.
  { intros r0 k1 (S1 & S2 & S3). do 2 eexists. split; [reflexivity|]. done. }
  assert (forall bad, exists r k', (let? (mode, _) := descriptor_mode (rd_source_fd item) in
      if bool_decide (mode = bad) then kfail EBADF else
      let? _ := duplicate_to (rd_source_fd item) (rd_fd item) in
      set_descriptor_flags (rd_fd item) false) k = (r, k') /\ k_limit k' = k_limit k /\ interruptible k' /\
    match r with
    | inl e => k_fds k' = k_fds k
    | inr _ => (exists d, k_fds k !! rd_source_fd item = Some d /\
        k_fds k' = <[rd_fd item := mk_descriptor (d_file d) false]> (k_fds k)) /\
        (k_fds k' !! rd_fd item <> None -> 0 <= rd_fd item < k_limit k)
    end) as Hdup.
  { intros bad. unfold kbind at 1. destruct (getfl_cases k Hk (rd_source_fd item)) as (r & k1 & Hb1 & ->).
    pose proof Hb1 as (Ef1 & _ & _ & El1 & Hi1).
    destruct r as [e|[mode nb]]; [do 2 eexists; split_and!; [reflexivity|done..]|].
    destruct (bool_decide (mode = bad)); [do 2 eexists; split_and!; [reflexivity|done..]|].
    unfold kbind. destruct (dup2_cases k1 Hi1 (rd_source_fd item) (rd_fd item)) as (r & k2 & -> & Hr).
    rewrite Ef1, El1 in Hr. destruct r as [e|[]].
    { destruct Hr as [(E1 & _ & _ & E2 & E3) _]. do 2 eexists. split_and!; [reflexivity|congruence|done|congruence]. }
    destruct Hr as (d & Ed & Ht & (E1 & _ & _ & E2 & E3)).
    destruct (setfd_cases k2 E3 (rd_fd item) false) as (r & k3 & -> & Hr). rewrite E1 in Hr.
    assert ((if rd_source_fd item =? rd_fd item then k_fds k
      else <[rd_fd item:={| d_file := d_file d; d_cloexec := false |}]> (k_fds k)) !! rd_fd item =
      Some (if rd_source_fd item =? rd_fd item then d else mk_descriptor (d_file d) false)) as Hl.
    { destruct (Z.eqb_spec (rd_source_fd item) (rd_fd item)) as [<-|]; [done|]. apply lookup_insert_eq. }
    rewrite Hl in Hr. destruct r as [e|[]]; [by destruct Hr|].
    destruct Hr as (d' & [= <-] & (F1 & _ & _ & F2 & F3)). do 2 eexists.
    split_and!; [reflexivity|congruence|done|]. split; [|done]. exists d. split; [done|]. rewrite F1.
    destruct (rd_source_fd item =? rd_fd item); [done|]. apply insert_insert_eq. }
  assert (forall m : K Z, (exists r k1, m k = (r, k1) /\ match r with inl e => settles k (k_fds k) k1
      | inr fd => exists ds, opens k k1 fd true ds /\ forall k', placed item k k' ds -> performed item k k' end) ->
    exists r k', (let? fd := m in install fd (rd_fd item)) k = (r, k') /\ k_limit k' = k_limit k /\ interruptible k' /\
    match r with
    | inl e => k_fds k' = k_fds k
    | inr _ => performed item k k' /\ (k_fds k' !! rd_fd item <> None -> 0 <= rd_fd item < k_limit k)
    end) as Hplace.
  { intros m (r & k1 & Em & Hr). unfold kbind. rewrite Em. destruct r as [e|fd]; [by apply Hfail|].
    destruct Hr as (ds & Hop & Hperf). destruct (install_placed item k k1 fd ds Hop) as (r & k' & -> & E1 & E2 & Hr).
    do 2 eexists. split_and!; [reflexivity|done|done|]. destruct r as [e|[]]; [done|]. destruct Hr as [Hp Ht]. auto. }
  unfold apply_one, performed in *. destruct (rd_kind item) eqn:Ekind.
  all: try (apply Hdup).
  all: try (apply Hplace;
    match goal with |- context [sys_open ?p ?f] => destruct (open_cases p f k Hk) as (r & k1 & E & Hr) end;
    exists r, k1; (split; [exact E|]); destruct r as [e|fd]; [by apply becomes_settles|];
    destruct Hr as (t & ds & Hd & Ho); exists ds; (split; [done|]); intros k' Hp; by exists t, ds).
  - destruct (close_run (rd_fd item) k Hk) as (k' & -> & (E1 & _ & _ & E2 & E3)).
    do 2 eexists. split_and!; [reflexivity|done|done|]. split; [done|]. rewrite E1. intros Hx. by rewrite lookup_delete_eq in Hx.
  - apply Hplace. destruct (noclobber_cases (path_of item) k Hk) as (r & k1 & E & Hr). exists r, k1.
    split; [done|]. destruct r as [e|fd]; [done|]. destruct Hr as (t & ds & Ho & Hd). exists ds. split; [done|].
    intros k' Hp. exists t, ds. auto.
  - apply Hplace. destruct (here_document_cases item k Hk) as (r & k1 & E & Hr). exists r, k1.
    split; [done|]. destruct r as [e|fd]; [done|]. eexists. split; [exact Hr|]. auto.
Qed.

Lemma performed_frame item k k' fd : performed item k k' -> fd <> rd_fd item -> k_fds k' !! fd = k_fds k !! fd.
Proof.
  unfold performed, placed. intros Hp Hne.
  assert (forall d, k_fds k' = <[rd_fd item := d]> (k_fds k) -> k_fds k' !! fd = k_fds k !! fd) as Hi
    by (intros d ->; by apply lookup_insert_ne).
  destruct (rd_kind item);
    lazymatch type of Hp with
    | _ = delete _ _ => rewrite Hp; by apply lookup_delete_ne
    | _ /\ _ => destruct Hp as [Hp _]; eauto
    | exists _ _, _ => destruct Hp as (? & ? & [Hp _] & _); eauto
    | exists _, _ => destruct Hp as (? & _ & Hp); eauto
    end.
Qed.

Lemma apply_loop_run items : forall index k, interruptible k -> bounded (k_fds k) (k_limit k) ->
  exists r k', apply_loop items index k = (r, k') /\ k_limit k' = k_limit k /\ interruptible k' /\
    bounded (k_fds k') (k_limit k') /\
    (forall fd, fd ∉ (rd_fd <$> items) -> k_fds k' !! fd = k_fds k !! fd) /\ (r = None -> performs items k k').
Proof.
  induction items as [|item items IH]; intros index k Hk Hbd; cbn [apply_loop].
  { do 2 eexists. split_and!; [reflexivity|done..]. }
  destruct (apply_one_cases item k Hk) as (r & k1 & -> & El & Hi & Hr). destruct r as [e|[]].
  { do 2 eexists. split_and!; [reflexivity|done|done|by rewrite Hr, El| |done]. intros fd _. by rewrite Hr. }
  destruct Hr as [Hp Ht].
  assert (bounded (k_fds k1) (k_limit k1)) as Hbd1.
  { intros fd d E. rewrite El. destruct (decide (fd = rd_fd item)) as [->|Hne]; [apply Ht; by rewrite E|].
    rewrite (performed_frame _ _ _ _ Hp Hne) in E. by eapply Hbd. }
  destruct (IH (index + 1) k1 Hi Hbd1) as (r & k' & -> & El' & Hi' & Hbd' & Hf & Hperf).
  do 2 eexists. split_and!; [reflexivity|congruence|done|done| |].
  - intros fd Hfd. rewrite fmap_cons in Hfd. apply not_elem_of_cons in Hfd as [Hne Hfd].
    rewrite Hf by done. by eapply performed_frame.
  - intros Hr. exists k1. auto.
Qed.
End Performed.

(** ** Applying a list of redirections *)

Section ApplyAll.
Context `{DL : DiskLaws}.
Variable items : list csh_redirect.
Variable reserved : list Z.

Lemma item_operand i : i ∈ items -> is_operand (rd_fd i) items = true.
Proof.
  intros Hi. unfold is_operand. apply existsb_exists. exists i. split; [by apply list_elem_of_In|].
  by rewrite Z.eqb_refl.
Qed.

(** The state once the snapshot is taken and [k'] has replaced the kernel,
    with a table that differs at operands only. *)
Lemma pushed_ok st saves saved k1 k2 k' :
  state_ok (mk_rstate k1 saves (rs_next st)) ->
  (forall b, b ∈ privates saves -> is_operand b items = false) ->
  holds items reserved (k_fds k1) (k_limit k1) (k_fds k2) saved ->
  interruptible k' -> k_limit k' = k_limit k1 -> bounded (k_fds k') (k_limit k') ->
  (forall fd, is_operand fd items = false -> k_fds k' !! fd = k_fds k2 !! fd) ->
  let st' := mk_rstate k' ((rs_next st, saved) :: saves) (S (rs_next st)) in
  state_ok st' /\
  stack st' = ((fun t => (t, k_fds k1 !! t)) <$> targets saved) :: stack (mk_rstate k1 saves (rs_next st)) /\
  (forall fd, is_operand fd items = false ->
     visible st' !! fd = visible (mk_rstate k1 saves (rs_next st)) !! fd) /\
  (forall b, b ∈ privates (active_saves st') -> is_operand b items = false).
Proof.
  intros [Hc Hbd Hs [Hid Hlt]] Hpriv [H1 H2 H3 [H4 H5] H6 H7 H8] Hi El Hbd' Hframe. cbn [rs_kernel active_saves rs_next] in *.
  destruct Hs as [S1 S2 S3 S4]. cbv zeta.
  assert (forall b, b ∈ privates saves -> k_fds k2 !! b = k_fds k1 !! b) as Hold.
  { intros b Hin. rewrite <- H1, lookup_hide. rewrite decide_False; [done|]. intros Hb.
    apply H3 in Hb as (E & _). destruct (S2 b Hin). congruence. }
  assert (forall b, b ∈ backups saved ++ privates saves -> is_operand b items = false) as Hall.
  { intros b [Hin|Hin]%elem_of_app; [|by apply Hpriv]. by destruct (H3 b Hin) as (_ & ? & _). }
  assert (forall b, b ∈ backups saved ++ privates saves -> k_fds k' !! b = k_fds k2 !! b) as Hkeep.
  { intros b Hin. apply Hframe. by apply Hall. }
  split_and!.
  - split; cbn [rs_kernel active_saves rs_next]; [done|done| |].
    + split; rewrite ?privates_cons.
      * apply NoDup_app. split_and!; [done| |done]. intros b Hb Hin. apply H3 in Hb as (E & _).
        destruct (S2 b Hin). congruence.
      * intros b Hin. rewrite Hkeep by done. apply elem_of_app in Hin as [Hin|Hin]; [by apply H2|].
        rewrite Hold by done. by apply S2.
      * rewrite El. by constructor.
      * cbn [layered]. split_and!; [done| |done]. intros t Ht Hin. apply H6 in Ht. apply Hall in Hin. congruence.
    + cbn [fmap list_fmap fst]. split.
      * apply NoDup_cons. split; [|done]. intros Hin. apply list_elem_of_fmap in Hin as (s & Es & Hin).
        rewrite Forall_forall in Hlt. apply Hlt in Hin. lia.
      * constructor; [cbn; lia|]. eapply Forall_impl; [exact Hlt|]. intros s Hs. cbn in *. lia.
  - unfold stack. cbn [rs_kernel active_saves fmap list_fmap snd]. f_equal.
    + rewrite (denote_ext (k_fds k2)); [done|]. intros b Hin. apply Hkeep. set_solver.
    + apply stack_ext. intros b Hin. rewrite Hkeep by set_solver. by apply Hold.
  - intros fd Hop. unfold visible. cbn [rs_kernel active_saves]. rewrite !lookup_hide, privates_cons.
    destruct (decide (fd ∈ privates saves)); [by rewrite decide_True by set_solver|].
    rewrite Hframe, <- H1, lookup_hide by done.
    destruct (decide (fd ∈ backups saved)); [by rewrite decide_True by set_solver|by rewrite decide_False by set_solver].
  - cbn [active_saves]. rewrite privates_cons. done.
Qed.

(** The originals of the targets, each once. *)
Definition originals (s : snapshot) (fds : gmap Z descriptor) : Prop :=
  NoDup s.*1 /\ forall t o, (t, o) ∈ s <-> t ∈ (rd_fd <$> items) /\ o = fds !! t.

Lemma put_back_originals s fds fds' : originals s fds ->
  (forall fd, fd ∉ (rd_fd <$> items) -> fds' !! fd = fds !! fd) -> put_back fds' s = fds.
Proof.
  intros [Hn Hs] Hf. apply map_eq. intros fd. rewrite lookup_put_back by done.
  destruct (list_to_map (M:=gmap Z (option descriptor)) s !! fd) as [o|] eqn:E.
  - apply elem_of_list_to_map in E; [|done]. apply Hs in E as [_ ->]. done.
  - apply not_elem_of_list_to_map_2 in E. apply Hf. intros Hin. apply E.
    apply list_elem_of_fmap. exists (fd, fds !! fd). split; [done|]. by apply Hs.
Qed.

(** What a call of [csh_redirect_apply_reserved] may do. *)
Definition applied (st : redirect_state) (r : csh_error + option nat) (st' : redirect_state) : Prop :=
  match r with
  | inl _ => state_ok st' /\ visible st' = visible st /\ stack st' = stack st
  | inr None => items = [] /\ st' = st
  | inr (Some id) => state_ok st' /\
      (exists entries rest, active_saves st' = (id, entries) :: rest) /\
      (exists s, stack st' = s :: stack st /\ originals s (visible st)) /\
      (forall fd, is_operand fd items = false -> visible st' !! fd = visible st !! fd) /\
      (forall fd, fd ∉ (rd_fd <$> items) -> visible st' !! fd = visible st !! fd) /\
      (forall b, b ∈ privates (active_saves st') -> is_operand b items = false) /\
      (exists k1, hide (privates (active_saves st')) (k_fds k1) = visible st /\ performs items k1 (rs_kernel st'))
  end.

Lemma malloc_kernel k ok k' : sys_malloc k = (ok, k') -> interruptible k ->
  k_fds k' = k_fds k /\ k_limit k' = k_limit k /\ interruptible k'.
Proof. unfold sys_malloc. destruct (k_alloc k); intros [= <- <-]; done. Qed.

Lemma state_ok_kernel st k saves : state_ok st -> k_fds k = k_fds (rs_kernel st) -> k_limit k = k_limit (rs_kernel st) ->
  interruptible k -> saves = active_saves st -> state_ok (mk_rstate k saves (rs_next st)) /\
  visible (mk_rstate k saves (rs_next st)) = visible st /\ stack (mk_rstate k saves (rs_next st)) = stack st.
Proof.
  intros [H1 H2 H3 H4] Ef El Hi ->. unfold visible, stack. cbn. rewrite Ef.
  split_and!; [|done|done]. split; cbn; rewrite ?Ef, ?El; done.
Qed.

Lemma apply_run st : state_ok st -> targets_kept items reserved (k_fds (rs_kernel st)) (active_saves st) ->
  let '(r, st') := csh_redirect_apply_reserved items reserved st in applied st r st'.
Proof.
  intros Hok Hres. unfold csh_redirect_apply_reserved. destruct (csh_redirect_validate items); [done|].
  destruct (bool_decide (items = [])) eqn:Ei; [apply bool_decide_eq_true in Ei; done|].
  destruct (sys_malloc (rs_kernel st)) as [ok k0] eqn:Em.
  destruct (malloc_kernel _ _ _ Em (ok_calls _ Hok)) as (Ef0 & El0 & Hi0).
  destruct (state_ok_kernel st k0 (active_saves st) Hok Ef0 El0 Hi0 eq_refl) as (Hok0 & Ev0 & Es0).
  destruct ok; cbn [negb]; [|done].
  destruct (relocate_run items reserved (active_saves st) k0 Hi0 (ok_bounded _ Hok0) (ok_saves _ Hok0) ltac:(by rewrite Ef0))
    as (failed & saves & k1 & -> & Hb1 & Hbd1 & Hs1 & Eid & Ehide & Estack & Hno).
  pose proof Hb1 as (_ & _ & _ & El1 & Hi1).
  set (st1 := mk_rstate k1 saves (rs_next st)).
  assert (state_ok st1 /\ visible st1 = visible st /\ stack st1 = stack st) as (Hok1 & Ev1 & Es1).
  { split_and!; [|by rewrite <- Ev0|by rewrite <- Es0].
    split; cbn; [done|done|done|]. destruct (ok_ids _ Hok) as [Hid Hlt]. split; [by rewrite Eid|].
    rewrite <- (Forall_fmap fst (fun n => (n < rs_next st)%nat)), Eid. by rewrite Forall_fmap. }
  destruct failed as [number|]; [done|]. specialize (Hno eq_refl).
  destruct (snapshot_loop_run items reserved (k_fds k1) (k_limit k1) items 0 [] k1 Hi1 eq_refl Hbd1
    item_operand (holds_nil items reserved (k_fds k1) (k_limit k1))) as (r & k2 & -> & Hb2 & Hbd2 & Hr).
  pose proof Hb2 as (_ & _ & _ & El2 & Hi2). destruct r as [e|saved].
  { destruct (state_ok_kernel st1 k2 saves Hok1 Hr El2 Hi2 eq_refl) as (H1 & H2 & H3). split_and!; [done|by etransitivity; [exact H2|]|by etransitivity; [exact H3|]]. }
  destruct Hr as (Hh & _ & Hcover & Honly).
  rewrite <- El2 in Hbd2. destruct (apply_loop_run items 0 k2 Hi2 Hbd2) as (r & k3 & -> & El3 & Hi3 & Hbd3 & Hframe & Hperf).
  assert (forall fd, is_operand fd items = false -> k_fds k3 !! fd = k_fds k2 !! fd) as Hop.
  { intros fd Hfd. apply Hframe. intros Hin. apply list_elem_of_fmap in Hin as (i & -> & Hin).
    rewrite item_operand in Hfd by done. done. }
  destruct (pushed_ok st saves saved k1 k2 k3 Hok1 Hno Hh Hi3 (eq_trans El3 El2) Hbd3 Hop)
    as (Hok3 & Es3 & Hv3 & Hp3).
  set (st3 := mk_rstate k3 ((rs_next st, saved) :: saves) (S (rs_next st))) in *.
  fold st1 in Es3, Hv3. rewrite Ev1 in Hv3. rewrite Es1 in Es3.
  assert (forall t, t ∈ (rd_fd <$> items) -> k_fds k1 !! t = visible st !! t) as Horig.
  { intros t Hin. rewrite <- Ev1. unfold visible. cbn. rewrite lookup_hide, decide_False; [done|].
    intros Hpr. apply Hno in Hpr. apply list_elem_of_fmap in Hin as (i & -> & Hin).
    rewrite item_operand in Hpr by done. done. }
  assert (originals ((fun t => (t, k_fds k1 !! t)) <$> targets saved) (visible st)) as Hsnap.
  { split.
    - rewrite <- list_fmap_compose. unfold compose. cbn. rewrite list_fmap_id. apply (ho_distinct _ _ _ _ _ _ Hh).
    - intros t o. split.
      + intros Hto. apply list_elem_of_fmap in Hto as (t' & E & Hin). injection E as -> ->. assert (t' ∈ (rd_fd <$> items)) as Ht by (apply Honly in Hin; set_solver).
        split; [done|]. by apply Horig.
      + intros [Hin ->]. apply list_elem_of_fmap. exists t. rewrite Horig by done. split; [done|].
        apply list_elem_of_fmap in Hin as (i & -> & Hin). by apply Hcover. }
  assert (forall fd, fd ∉ (rd_fd <$> items) -> visible st3 !! fd = visible st !! fd) as Hv3'.
  { intros fd Hfd. rewrite <- Ev1. unfold visible, st3, st1. cbn [rs_kernel active_saves]. rewrite !lookup_hide, privates_cons.
    rewrite Hframe by done. rewrite <- (ho_base _ _ _ _ _ _ Hh), lookup_hide.
    destruct (decide (fd ∈ privates saves)); [by rewrite decide_True by set_solver|].
    destruct (decide (fd ∈ backups saved)); [by rewrite decide_True by set_solver|by rewrite decide_False by set_solver]. }
  destruct r as [[number index]|].
  - destruct (restore_top st3 (rs_next st) saved saves Hok3 eq_refl) as (k4 & -> & Hok4 & Ev4 & Es4).
    split_and!; [done| |by rewrite Es4, Es3]. rewrite Ev4.
    assert (denote (k_fds (rs_kernel st3)) saved = (fun t => (t, k_fds k1 !! t)) <$> targets saved) as ->.
    { unfold stack in Es3. by injection Es3. }
    by apply put_back_originals.
  - split_and!; [done|by eauto|by eauto|done|done|done|]. exists k2. split; [|by apply Hperf].
    rewrite <- Ev1. unfold visible, st1, st3. cbn [rs_kernel active_saves]. rewrite <- (ho_base _ _ _ _ _ _ Hh).
    apply map_eq. intros fd. rewrite !lookup_hide, privates_cons.
    destruct (decide (fd ∈ privates saves)); [by rewrite decide_True by set_solver|].
    destruct (decide (fd ∈ backups saved)); [by rewrite decide_True by set_solver|by rewrite decide_False by set_solver].
Qed.
End ApplyAll.

(** ** Backups that are not restored *)

Lemma hide_hide a b fds : hide b (hide a fds) = hide (a ++ b) fds.
Proof.
  apply map_eq. intros fd. rewrite !lookup_hide.
  destruct (decide (fd ∈ b)); [by rewrite decide_True by set_solver|].
  destruct (decide (fd ∈ a)); [by rewrite decide_True by set_solver|by rewrite decide_False by set_solver].
Qed.

Lemma child_run saves : forall k, interruptible k ->
  becomes k (hide (privates saves) (k_fds k)) (foldl (fun k s => discard_save (snd s) k) k saves).
Proof.
  induction saves as [|[id es] saves IH]; intros k Hk; cbn [foldl snd].
  { replace (hide _ _) with (k_fds k); [by apply becomes_refl|]. apply map_eq. intros fd. rewrite lookup_hide.
    by rewrite decide_False by set_solver. }
  pose proof (discard_run es k Hk) as Hd. pose proof Hd as (Ef & _ & _ & _ & Hi).
  eapply becomes_trans; [exact Hd|]. rewrite privates_cons, <- hide_hide, <- Ef. by apply IH.
Qed.

(** ** Main theorems *)

(** C27: applying redirections is a transaction.  A failing call, whatever
    failed, leaves the descriptors that programs see and every outstanding
    snapshot as they were; a successful one performs the redirections in order,
    pushes a snapshot of the originals of exactly the targets, changes no other
    descriptor and keeps every private backup apart from the operands.  This
    holds with any outstanding saves when none of their backups has to give way,
    or when it cannot go to a descriptor that a save closed: each of their
    targets is a standard descriptor, reserved, an operand, or open. *)
Theorem redirect_apply_correct (D : Disk) (HD : DiskLaws D) (items : list csh_redirect) (reserved : list Z)
    (st : redirect_state) (Hok : state_ok st)
    (Hkept : targets_kept items reserved (k_fds (rs_kernel st)) (active_saves st)) :
  let '(r, st') := csh_redirect_apply_reserved items reserved st in applied items st r st'.
Proof. by apply apply_run. Qed.

(** C28: a redirection is undone exactly.  After a successful apply, restore
    succeeds and gives back the visible descriptor table, close-on-exec flags
    included, and the outstanding snapshots, with no descriptor left over,
    however often the calls are interrupted.  Of the outstanding saves it is
    asked that no backup has to give way, or that each of their targets is a
    standard descriptor, reserved, an operand, or open. *)
Theorem redirect_roundtrip (D : Disk) (HD : DiskLaws D) (items : list csh_redirect) (reserved : list Z)
    (st st1 : redirect_state) (id : nat) (Hok : state_ok st)
    (Hkept : targets_kept items reserved (k_fds (rs_kernel st)) (active_saves st))
    (Happly : csh_redirect_apply_reserved items reserved st = (inr (Some id), st1)) :
  exists st2, csh_redirect_restore (Some id) st1 = (None, st2) /\ state_ok st2 /\
    visible st2 = visible st /\ stack st2 = stack st.
Proof.
  pose proof (apply_run items reserved st Hok Hkept) as Ha. rewrite Happly in Ha.
  destruct Ha as (Hok1 & (entries & rest & Ea) & (s & Es & Ho) & _ & Hv & _ & _).
  destruct (restore_top st1 id entries rest Hok1 Ea) as (k' & E & Hok2 & Hv2 & Hs2).
  eexists. split_and!; [exact E|done| |by rewrite Hs2, Es].
  rewrite Hv2. unfold stack in Es. rewrite Ea in Es. cbn [fmap list_fmap snd] in Es. injection Es as -> _.
  by eapply put_back_originals.
Qed.

(** Within one plan the question does not arise: every number that a redirection
    of the plan names is reserved, and the other targets are standard
    descriptors.  Saves that are taken under such a list keep it so. *)
Definition planned (reserved : list Z) (l : list Z) : Prop := forall t, t ∈ l -> t < 3 \/ in_set t reserved = true.

Lemma planned_kept items reserved st : planned reserved (targets (flat (active_saves st))) ->
  targets_kept items reserved (k_fds (rs_kernel st)) (active_saves st).
Proof. intros H. right. intros t Ht. destruct (H t Ht); auto. Qed.

(** The targets are those of the snapshots. *)
Lemma stack_targets st : targets (flat (active_saves st)) = stack st ≫= fmap fst.
Proof.
  unfold stack. induction (active_saves st) as [|[id es] saves IH]; [done|].
  change (flat ((id, es) :: saves)) with (es ++ flat saves). rewrite targets_app, IH. cbn [fmap list_fmap mbind list_bind snd].
  by rewrite denote_targets.
Qed.

Theorem plan_redirections_kept (D : Disk) (HD : DiskLaws D) (items : list csh_redirect) (reserved : list Z)
    (st : redirect_state) (Hok : state_ok st) (Hold : planned reserved (targets (flat (active_saves st))))
    (Hnew : planned reserved (rd_fd <$> items)) :
  let st' := snd (csh_redirect_apply_reserved items reserved st) in
  state_ok st' /\ planned reserved (targets (flat (active_saves st'))).
Proof.
  pose proof (apply_run items reserved st Hok (planned_kept items reserved st Hold)) as Ha.
  destruct (csh_redirect_apply_reserved items reserved st) as [r st']. cbn [snd]. unfold planned in *.
  rewrite stack_targets in *. destruct r as [e|[id|]].
  - destruct Ha as (H1 & _ & H2). split; [done|]. by rewrite H2.
  - destruct Ha as (H1 & _ & (s & H2 & H3) & _). split; [done|]. rewrite H2. cbn [mbind list_bind]. intros t [Ht|Ht]%elem_of_app; [|by apply Hold].
    apply Hnew. destruct H3 as [_ H3]. apply list_elem_of_fmap in Ht as ([t' o] & -> & Ht). by apply H3 in Ht as [? _].
  - by destruct Ha as [_ ->].
Qed.

(** Restoring the newest save puts its snapshot back.  In every
    well-formed state, and so also after a body that redirected, closed or
    opened descriptors of its own, restore reports success, each target gets
    the descriptor of the snapshot or is closed, no other visible descriptor
    changes, and the older snapshots stay. *)
Theorem redirect_restore_correct (st : redirect_state) (id : nat) (entries : list saved_descriptor)
    (rest : list (nat * list saved_descriptor)) (Hok : state_ok st) (Htop : active_saves st = (id, entries) :: rest) :
  exists s older st', stack st = s :: older /\ csh_redirect_restore (Some id) st = (None, st') /\ state_ok st' /\
    visible st' = put_back (visible st) s /\ stack st' = older.
Proof.
  destruct (restore_top st id entries rest Hok Htop) as (k' & E & Hok' & Hv & Hs).
  do 3 eexists. split_and!; [unfold stack; by rewrite Htop|exact E|done|done|].
  rewrite Hs. unfold stack. by rewrite Htop.
Qed.

(** No private descriptor leaks.  The child side of a fork holds exactly
    the visible descriptors, and committing the newest save closes its backups
    without touching a visible descriptor or an older snapshot. *)
Theorem redirect_backups_closed (st : redirect_state) (Hok : state_ok st) :
  k_fds (rs_kernel (csh_redirect_child st)) = visible st /\ active_saves (csh_redirect_child st) = [] /\
  forall id entries rest, active_saves st = (id, entries) :: rest ->
    visible (csh_redirect_commit (Some id) st) = visible st /\
    stack (csh_redirect_commit (Some id) st) = tail (stack st).
Proof.
  split_and!; [apply child_run, Hok|done|]. intros id entries rest Ea. unfold csh_redirect_commit.
  destruct Hok as [Hc _ Hs [Hid _]]. rewrite Ea in *. rewrite find_save_top, (unlink_save_top id entries rest Hid).
  destruct (saves_ok_top _ _ _ _ _ Hs) as (_ & _ & Hbp & _).
  destruct (discard_run entries (rs_kernel st) Hc) as (Ef & _).
  unfold visible, stack. cbn [rs_kernel active_saves]. rewrite Ef, Ea, privates_cons. split; [apply hide_hide|].
  cbn [fmap list_fmap tail]. apply stack_ext. intros b Hin. rewrite lookup_hide. by rewrite decide_False by (by apply Hbp).
Qed.

(** ** A concrete host *)

(** Every open creates a regular file. *)
Definition sample_disk : Disk := {|
  disk_open := fun _ _ flags => inr (mk_description (o_access flags) S_IFREG false [] 0);
  disk_stat := fun _ _ => inl ENOENT; disk_tty := fun _ => false |}.

#[export] Instance sample_disk_laws : DiskLaws sample_disk.
Proof. split. done. Qed.

(** The standard descriptors and 5, 6 and 7; interruptions are on their way. *)
Definition sample_kernel : kernel :=
  mk_kernel (list_to_map ((fun fd => (fd, mk_descriptor (100 + fd) false)) <$> [0; 1; 2; 5; 6; 7]))
    (list_to_map ((fun fd => (100 + fd, mk_description O_RDWR S_IFREG false [] 0)) <$> [0; 1; 2; 5; 6; 7]))
    200 32 [Some (mk_fault EINTR false); None; Some (mk_fault EINTR true)] [] [] 0.

Definition sample_redirects : redirect_state := mk_rstate sample_kernel [] 0.

Definition to_file (fd : Z) : csh_redirect := mk_redirect CSH_REDIRECT_WRITE fd 0 (Some (bs "out")) [].
Definition closing (fd : Z) : csh_redirect := mk_redirect CSH_REDIRECT_CLOSE fd 0 None [].

Lemma sample_redirects_ok : state_ok sample_redirects.
Proof.
  split; cbn [rs_kernel active_saves sample_redirects].
  - repeat constructor.
  - intros fd d Hfd. apply elem_of_list_to_map in Hfd; [|by vm_compute; repeat constructor; set_solver].
    apply list_elem_of_fmap in Hfd as (x & [= -> _] & Hin). simpl. set_unfold. lia.
  - split; [constructor|set_solver|constructor|done].
  - split; constructor.
Qed.

Lemma no_targets reserved : planned reserved (targets (flat (active_saves sample_redirects))).
Proof. intros t Hin. cbn in Hin. set_solver. Qed.

(** The state after [>out]. *)
Definition redirected : (csh_error + option nat) * redirect_state :=
  csh_redirect_apply_reserved (H:=sample_disk) [to_file 1] [7] sample_redirects.

Lemma redirected_ok : state_ok redirected.2.
Proof.
  pose proof (apply_run (D:=sample_disk) [to_file 1] [7] sample_redirects sample_redirects_ok (planned_kept _ _ sample_redirects (no_targets [7]))) as H.
  change (csh_redirect_apply_reserved [to_file 1] [7] sample_redirects) with redirected in H.
  replace redirected with (inr (Some 0%nat) : csh_error + option nat, redirected.2) in H by (vm_compute; reflexivity).
  apply H.
Qed.

(** Below it [7>&-], in one plan. *)
Definition shut : (csh_error + option nat) * redirect_state :=
  csh_redirect_apply_reserved (H:=sample_disk) [closing 7] [3; 7] redirected.2.

Lemma shut_planned : state_ok shut.2 /\ planned [3; 7] (targets (flat (active_saves shut.2))).
Proof.
  assert (forall l, planned [3; 7] l <-> Forall (fun t => t < 3 \/ in_set t [3; 7] = true) l) as E by (intros l; symmetry; apply Forall_forall).
  apply (plan_redirections_kept sample_disk sample_disk_laws [closing 7] [3; 7] redirected.2 redirected_ok); apply E.
  - vm_compute. repeat constructor.
  - constructor; [right; reflexivity|constructor].
Qed.

(** The private copy of standard output is at 3, which the innermost command
    redirects, and the reserved 7 is closed: the copy goes elsewhere. *)
Definition inner : (csh_error + option nat) * redirect_state :=
  csh_redirect_apply_reserved (H:=sample_disk) [to_file 3] [3; 7] shut.2.

Lemma inner_run : inner = (inr (Some 2%nat), inner.2) /\ privates (active_saves shut.2) = [4; 3] /\
  privates (active_saves inner.2) = [4; 8].
Proof. vm_compute. repeat split. Qed.

Lemma redirect_apply_correct_witness : applied (D:=sample_disk) [to_file 3] shut.2 (inr (Some 2%nat)) inner.2.
Proof.
  pose proof (redirect_apply_correct sample_disk sample_disk_laws [to_file 3] [3; 7] shut.2
    (proj1 shut_planned) (planned_kept _ _ shut.2 (proj2 shut_planned))) as H.
  change (csh_redirect_apply_reserved [to_file 3] [3; 7] shut.2) with inner in H.
  rewrite (proj1 inner_run) in H. exact H.
Defined.

Lemma redirect_roundtrip_witness :
  exists st2, csh_redirect_restore (Some 2%nat) inner.2 = (None, st2) /\ state_ok st2 /\
    visible st2 = visible shut.2 /\ stack st2 = stack shut.2.
Proof.
  apply (redirect_roundtrip sample_disk sample_disk_laws [to_file 3] [3; 7] shut.2 inner.2 2).
  - apply shut_planned.
  - apply planned_kept, shut_planned.
  - exact (proj1 inner_run).
Defined.

Lemma redirected_saves : active_saves redirected.2 = [(0%nat, [mk_saved 1 (Some 3) false 1])].
Proof. vm_compute. reflexivity. Qed.

Lemma redirect_restore_correct_witness :
  exists s older st', stack redirected.2 = s :: older /\ csh_redirect_restore (Some 0%nat) redirected.2 = (None, st') /\
    state_ok st' /\ visible st' = put_back (visible redirected.2) s /\ stack st' = older.
Proof. exact (redirect_restore_correct redirected.2 0 _ _ redirected_ok redirected_saves). Defined.

Lemma redirect_backups_closed_witness : k_fds (rs_kernel (csh_redirect_child redirected.2)) = visible redirected.2.
Proof. exact (proj1 (redirect_backups_closed redirected.2 redirected_ok)). Defined.

(** ** Relocation and closed targets

    Nested redirections [{ { f; } 7>&-; } >out] where [f] redirects descriptor
    3, applied innermost last and restored in the opposite order. *)

Section Clobber.
#[local] Existing Instance sample_disk.

Definition nested_outer := csh_redirect_apply_reserved [to_file 1] [7] sample_redirects.
Definition nested_middle := csh_redirect_apply_reserved [closing 7] [7] nested_outer.2.
Definition nested_inner := csh_redirect_apply_reserved [to_file 3] [3] nested_middle.2.
Definition undone_inner := csh_redirect_restore (Some 2%nat) nested_inner.2.
Definition undone_middle := csh_redirect_restore (Some 1%nat) undone_inner.2.
Definition undone_outer := csh_redirect_restore (Some 0%nat) undone_middle.2.

(** Reserving the targets of the outstanding saves is necessary.  Without
    it a backup that has to give way can be moved onto a descriptor that an
    outstanding save closed; restoring that save overwrites the backup.  Here
    every apply and every restore reports success in the right order, and yet
    standard output ends up as the file of descriptor 7 and 7 is closed. *)
Theorem redirect_relocation_clobbers :
  nested_outer.1 = inr (Some 0%nat) /\ nested_middle.1 = inr (Some 1%nat) /\ nested_inner.1 = inr (Some 2%nat) /\
  undone_inner.1 = None /\ undone_middle.1 = None /\ undone_outer.1 = None /\ active_saves undone_outer.2 = [] /\
  visible sample_redirects !! 1 = Some (mk_descriptor 101 false) /\
  visible undone_outer.2 !! 1 = Some (mk_descriptor 107 false) /\
  visible sample_redirects !! 7 = Some (mk_descriptor 107 false) /\ visible undone_outer.2 !! 7 = None.
Proof. vm_compute. repeat split. Qed.
End Clobber.
