(* ===== verification/Input.v ===== *)
(** * Command input (src/input.c)

    Sources that are read one physical line at a time: a string, a script or a
    descriptor.  [active_inputs] and [reservations] are the static lists of the
    file; an input is identified by a number in place of its address.  The
    optional hooks belong to the caller: the results of the wait and the
    end-of-file hook are lists of the answers to come, the line hook is the list
    of the lines it was given. *)

From stdpp Require Import base list gmap strings.
From S2P Require Import Prelude Output Descriptors.

(** [text] is [Some] for a string source, with the bytes not yet read; [fd] is
    [None] for -1; [capacity] stands for the buffer. *)
Record csh_input : Type := mk_input {
  in_name : str;
  in_text : option str;
  in_fd : option Z;
  in_capacity : Z;
  in_position : csh_position;
  in_ended : bool;
  in_failure : csh_error;
  in_wait : option (list (option errno));
  in_eof : option (list bool);
  in_lines : option (list str) }.

Record input_state : Type := mk_istate {
  is_kernel : kernel;
  active_inputs : list (nat * csh_input);
  is_next : nat;
  reservations : list (list Z) }.

Definition start_position : csh_position := mk_position 0 1 1.

Definition input_fail (message : str) (number : errno) (status : Z) : csh_error :=
  mk_error (Some message) [] false number status 0 (mk_position 0 1 1).

Definition in_with_kernel (s : input_state) (k : kernel) : input_state :=
  mk_istate k (active_inputs s) (is_next s) (reservations s).

(** ** Constructors *)

(** [malloc] of the structure and of the name; the input is linked. *)
Definition allocate_input (name : str) (s : input_state) : (csh_error + nat) * input_state :=
  let '(ok, k) := sys_malloc (is_kernel s) in
  if negb ok then (inl (input_fail (bs "cannot allocate input source") ENOMEM 1), in_with_kernel s k) else
  let '(ok, k) := sys_malloc k in
  if negb ok then (inl (input_fail (bs "cannot allocate source name") ENOMEM 1), in_with_kernel s k) else
  let input := mk_input name None None 0 start_position false no_error None None None in
  (inr (is_next s), mk_istate k ((is_next s, input) :: active_inputs s) (S (is_next s)) (reservations s)).

Definition find_input (s : input_state) (id : nat) : option csh_input :=
  snd <$> List.find (fun p => (fst p =? id)%nat) (active_inputs s).

Definition update_input (s : input_state) (id : nat) (input : csh_input) : input_state :=
  mk_istate (is_kernel s)
    ((fun p => if (fst p =? id)%nat then (id, input) else p) <$> active_inputs s) (is_next s) (reservations s).

Definition csh_input_destroy (id : nat) (s : input_state) : input_state :=
  match find_input s id with
  | None => s
  | Some input =>
      let k := match in_fd input with Some fd => snd (sys_close fd (is_kernel s)) | None => is_kernel s end in
      mk_istate k (List.filter (fun p => negb (fst p =? id)%nat) (active_inputs s)) (is_next s) (reservations s)
  end.

Definition in_set_text (i : csh_input) (text : option str) : csh_input :=
  mk_input (in_name i) text (in_fd i) (in_capacity i) (in_position i) (in_ended i) (in_failure i) (in_wait i) (in_eof i) (in_lines i).
Definition in_set_fd (i : csh_input) (fd : option Z) : csh_input :=
  mk_input (in_name i) (in_text i) fd (in_capacity i) (in_position i) (in_ended i) (in_failure i) (in_wait i) (in_eof i) (in_lines i).
Definition in_set_capacity (i : csh_input) (c : Z) : csh_input :=
  mk_input (in_name i) (in_text i) (in_fd i) c (in_position i) (in_ended i) (in_failure i) (in_wait i) (in_eof i) (in_lines i).
Definition in_set_position (i : csh_input) (p : csh_position) : csh_input :=
  mk_input (in_name i) (in_text i) (in_fd i) (in_capacity i) p (in_ended i) (in_failure i) (in_wait i) (in_eof i) (in_lines i).
Definition in_set_ended (i : csh_input) : csh_input :=
  mk_input (in_name i) (in_text i) (in_fd i) (in_capacity i) (in_position i) true (in_failure i) (in_wait i) (in_eof i) (in_lines i).
Definition in_set_failure (i : csh_input) (e : csh_error) : csh_input :=
  mk_input (in_name i) (in_text i) (in_fd i) 0 (in_position i) (in_ended i) e (in_wait i) (in_eof i) (in_lines i).

(** The hooks: the caller decides what they answer. *)
Definition csh_input_set_wait_hook (i : csh_input) (hook : option (list (option errno))) : csh_input :=
  mk_input (in_name i) (in_text i) (in_fd i) (in_capacity i) (in_position i) (in_ended i) (in_failure i) hook (in_eof i) (in_lines i).
Definition csh_input_set_eof_hook (i : csh_input) (hook : option (list bool)) : csh_input :=
  mk_input (in_name i) (in_text i) (in_fd i) (in_capacity i) (in_position i) (in_ended i) (in_failure i) (in_wait i) hook (in_lines i).
Definition csh_input_set_line_hook (i : csh_input) (hook : option (list str)) : csh_input :=
  mk_input (in_name i) (in_text i) (in_fd i) (in_capacity i) (in_position i) (in_ended i) (in_failure i) (in_wait i) (in_eof i) hook.

Definition csh_input_from_string (text name : option str) (s : input_state) : (csh_error + nat) * input_state :=
  match text, name with
  | Some text, Some name =>
      match allocate_input name s with
      | (inl error, s) => (inl error, s)
      | (inr id, s) =>
          let '(ok, k) := sys_malloc (is_kernel s) in
          let s := in_with_kernel s k in
          if negb ok then (inl (input_fail (bs "cannot allocate command string") ENOMEM 1), csh_input_destroy id s) else
          match find_input s id with
          | None => (inr id, s)
          | Some input => (inr id, update_input s id (in_set_text input (Some text)))
          end
      end
  | _, _ => (inl (input_fail (bs "invalid string input") EINVAL 2), s)
  end.

(** [fcntl(fd, F_DUPFD_CLOEXEC, 10)], retried. *)
Definition duplicate_fd (fd : Z) : K Z := retry (sys_dupfd fd 10).

(** Give the input [id] the descriptor [fd]. *)
Definition attach_fd (id : nat) (fd : Z) (s : input_state) : input_state :=
  match find_input s id with
  | None => s
  | Some input => update_input s id (in_set_fd input (Some fd))
  end.

Definition csh_input_from_file `{Disk} (path : option str) (s : input_state) : (csh_error + nat) * input_state :=
  match path with
  | None => (inl (input_fail (bs "invalid script path") EINVAL 2), s)
  | Some path =>
      match allocate_input path s with
      | (inl error, s) => (inl error, s)
      | (inr id, s) =>
          match retry (sys_open path (mk_open O_RDONLY false false false false)) (is_kernel s) with
          | (inl number, k) =>
              let status := match number with ENOENT | ENOTDIR => 127 | _ => 1 end in
              (inl (input_fail (bs "cannot open script") number status), csh_input_destroy id (in_with_kernel s k))
          | (inr fd, k) =>
              match sys_fstat fd k with
              | (inl number, k) =>
                  (inl (input_fail (bs "cannot inspect script") number 1),
                   csh_input_destroy id (in_with_kernel s (snd (sys_close fd k))))
              | (inr S_IFDIR, k) =>
                  (inl (input_fail (bs "script is a directory") EISDIR 1),
                   csh_input_destroy id (in_with_kernel s (snd (sys_close fd k))))
              | (inr _, k) =>
                  match duplicate_fd fd k with
                  | (inl number, k) =>
                      (inl (input_fail (bs "cannot retain script descriptor") number 1),
                       csh_input_destroy id (in_with_kernel s (snd (sys_close fd k))))
                  | (inr new, k) => (inr id, attach_fd id new (in_with_kernel s (snd (sys_close fd k))))
                  end
              end
          end
      end
  end.

(** [O_NONBLOCK] is cleared on a FIFO or a terminal; a closed descriptor is fine. *)
Definition csh_input_prepare_stdin `{Disk} (fd : Z) (k : kernel) : option csh_error * kernel :=
  match sys_fstat fd k with
  | (inl EBADF, k) => (None, k)
  | (inl number, k) => (Some (input_fail (bs "cannot inspect input descriptor") number 1), k)
  | (inr kind, k) =>
      match sys_getfl fd k with
      | (inl number, k) => (Some (input_fail (bs "cannot inspect input descriptor") number 1), k)
      | (inr (_, nonblock), k) =>
          let tty := match k_fds k !! fd with Some d => disk_tty (d_file d) | None => false end in
          if nonblock && (bool_decide (kind = S_IFIFO) || tty) then
            match sys_setblock fd k with
            | (inl number, k) => (Some (input_fail (bs "cannot enable blocking input") number 1), k)
            | (inr _, k) => (None, k)
            end
          else (None, k)
      end
  end.

Definition csh_input_from_fd `{Disk} (fd : Z) (name : option str) (s : input_state) : (csh_error + nat) * input_state :=
  match name with
  | None => (inl (input_fail (bs "invalid input name") EINVAL 2), s)
  | Some name =>
      match allocate_input name s with
      | (inl error, s) => (inl error, s)
      | (inr id, s) =>
          match duplicate_fd fd (is_kernel s) with
          | (inl number, k) =>
              (inl (input_fail (bs "cannot duplicate input descriptor") number 1), csh_input_destroy id (in_with_kernel s k))
          | (inr new, k) =>
              let s := attach_fd id new (in_with_kernel s k) in
              match csh_input_prepare_stdin new (is_kernel s) with
              | (Some error, k) => (inl error, csh_input_destroy id (in_with_kernel s k))
              | (None, k) => (inr id, in_with_kernel s k)
              end
          end
      end
  end.

(** ** Reading a line *)

(** Doubling from [capacity] until [needed] fits. *)
Fixpoint grow (fuel : nat) (capacity needed : Z) : Z :=
  match fuel with
  | O => capacity
  | S f =>
      if needed <=? capacity then capacity
      else if capacity >? SIZE_MAX / 2 then needed
      else grow f (capacity * 2) needed
  end.

Definition reserve (input : csh_input) (needed : Z) (k : kernel) : bool * csh_input * kernel :=
  if needed <=? in_capacity input then (true, input, k) else
  let capacity := grow 64 (if in_capacity input =? 0 then 128 else in_capacity input) needed in
  let '(ok, k) := sys_malloc k in
  if ok then (true, in_set_capacity input capacity, k) else (false, input, k).

(** One call of the wait hook: the answer and the answers left. *)
Definition call_wait (input : csh_input) : option errno * csh_input :=
  match in_wait input with
  | None | Some [] => (None, input)
  | Some (a :: rest) => (a, csh_input_set_wait_hook input (Some rest))
  end.

(** A byte, [None] at the end, or an errno. *)
Definition next_byte (input : csh_input) (k : kernel) : (errno + option byte) * csh_input * kernel :=
  match in_text input with
  | Some [] => (inr None, input, k)
  | Some (b :: rest) => (inr (Some b), in_set_text input (Some rest), k)
  | None =>
      let fd := default (-1) (in_fd input) in
      match in_wait input with
      | None => let '(r, k) := retry (sys_read_byte fd) k in (r, input, k)
      | Some _ =>
          match call_wait input with
          | (Some number, input) => (inl number, input, k)
          | (None, input) => let '(r, k) := sys_read_byte fd k in (r, input, k)
          end
      end
  end.

Record csh_input_line : Type := mk_line { ln_data : str; ln_start : csh_position; ln_end : csh_position }.

Inductive csh_input_result : Type :=
  | CSH_INPUT_ERROR (error : csh_error)
  | CSH_INPUT_EOF
  | CSH_INPUT_LINE (line : csh_input_line)
  | CSH_INPUT_INTERRUPTED (error : csh_error).

Definition at_position (e : csh_error) (p : csh_position) : csh_error :=
  mk_error (message e) (detail e) (reported e) (system_errno e) (status e) (argument_index e) p.

(** The failure is kept: later calls return it again. *)
Definition read_failure (input : csh_input) (text : str) (number : errno) (code : Z) : csh_input_result * csh_input :=
  let error := at_position (input_fail text number code) (in_position input) in
  (CSH_INPUT_ERROR error, in_set_failure input error).

Definition advance (p : csh_position) (b : byte) : csh_position :=
  if b =? 10 then mk_position (offset p + 1) (line p + 1) 1
  else mk_position (offset p + 1) (line p) (column p + 1).

(** The answer of the end-of-file hook: true retries. *)
Definition call_eof (input : csh_input) : bool * csh_input :=
  match in_eof input with
  | None | Some [] => (false, input)
  | Some (a :: rest) => (a, csh_input_set_eof_hook input (Some rest))
  end.

Definition publish (input : csh_input) (data : str) (start : csh_position) : csh_input_result * csh_input :=
  (CSH_INPUT_LINE (mk_line data start (in_position input)),
   match in_lines input with
   | None => input
   | Some seen => csh_input_set_line_hook input (Some (seen ++ [data]))
   end).

Fixpoint read_loop (fuel : nat) (input : csh_input) (buffer : str) (start : csh_position) (k : kernel)
    : option (csh_input_result * csh_input * kernel) :=
  match fuel with
  | O => None
  | S f =>
      let '(ok, input, k) :=
        if slen buffer >? SIZE_MAX - 2 then (false, input, k) else reserve input (slen buffer + 2) k in
      if negb ok then Some (read_failure input (bs "cannot grow input line") ENOMEM 1, k) else
      if (offset (in_position input) =? SIZE_MAX) || (line (in_position input) =? SIZE_MAX) ||
         (column (in_position input) =? SIZE_MAX)
      then Some (read_failure input (bs "input position overflow") EOVERFLOW 1, k) else
      match next_byte input k with
      | (inl EINTR, input, k) =>
          let error := at_position (input_fail (bs "input interrupted") EINTR 128) (in_position input) in
          let p := in_position input in
          Some (CSH_INPUT_INTERRUPTED error,
                if bool_decide (buffer = []) then input
                else in_set_position input (mk_position (offset p) (line p + 1) 1), k)
      | (inl number, input, k) => Some (read_failure input (bs "cannot read input") number 128, k)
      | (inr None, input, k) =>
          let '(again, input) := if bool_decide (buffer = []) then call_eof input else (false, input) in
          if again then read_loop f input buffer start k else
          let input := in_set_ended input in
          Some (if bool_decide (buffer = []) then (CSH_INPUT_EOF, input) else publish input buffer start, k)
      | (inr (Some b), input, k) =>
          let input := in_set_position input (advance (in_position input) b) in
          let buffer := buffer ++ [b] in
          if b =? 10 then Some (publish input buffer start, k) else read_loop f input buffer start k
      end
  end.

(** The bytes that a source can still deliver. *)
Definition unread (input : csh_input) (k : kernel) : str :=
  match in_text input with
  | Some text => text
  | None =>
      match in_fd input with
      | None => []
      | Some fd => match file_of k fd with Some (_, f) => drop (ds_offset f) (ds_content f) | None => [] end
      end
  end.

(** Every round reads a byte or uses an answer of the end-of-file hook. *)
Definition read_fuel (input : csh_input) (k : kernel) : nat :=
  S (length (unread input k) + length (default [] (in_eof input))).

Definition csh_input_read_line (input : csh_input) (k : kernel) : option (csh_input_result * csh_input * kernel) :=
  if negb (status (in_failure input) =? 0) then Some (CSH_INPUT_ERROR (in_failure input), input, k) else
  if in_ended input then Some (CSH_INPUT_EOF, input, k) else
  read_loop (read_fuel input k) input [] (in_position input) k.

(** ** Descriptors of operands *)

Definition csh_input_descriptor_reserved (scopes : list (list Z)) (fd : Z) : bool :=
  existsb (fun fds => existsb (Z.eqb fd) fds) scopes.

(** A duplicate of [old] that no scope reserves. *)
Fixpoint relocate_loop (fuel : nat) (old minimum : Z) (scopes : list (list Z)) : K Z :=
  match fuel with
  | O => kfail EMFILE
  | S f =>
      let? fd := retry (sys_dupfd old minimum) in
      if negb (csh_input_descriptor_reserved scopes fd) then kret fd else
      let? _ := kcatch (sys_close fd) in
      if fd =? INT_MAX then kfail EMFILE else relocate_loop f old (fd + 1) scopes
  end.

Fixpoint relocate_inputs (inputs : list (nat * csh_input)) (scopes : list (list Z)) (k : kernel)
    : option csh_error * list (nat * csh_input) * kernel :=
  match inputs with
  | [] => (None, [], k)
  | (id, input) :: rest =>
      match in_fd input with
      | Some old =>
          if csh_input_descriptor_reserved scopes old then
            match relocate_loop (S (Z.to_nat (k_limit k))) old 10 scopes k with
            | (inl number, k) => (Some (input_fail (bs "cannot reserve input descriptor") number 1), inputs, k)
            | (inr fd, k) =>
                let k := snd (sys_close old k) in
                let '(error, rest, k) := relocate_inputs rest scopes k in
                (error, (id, in_set_fd input (Some fd)) :: rest, k)
            end
          else let '(error, rest, k) := relocate_inputs rest scopes k in (error, (id, input) :: rest, k)
      | None => let '(error, rest, k) := relocate_inputs rest scopes k in (error, (id, input) :: rest, k)
      end
  end.

Definition csh_input_reserve_begin (fds : list Z) (s : input_state) : option csh_error * input_state :=
  let scopes := fds :: reservations s in
  let '(error, inputs, k) := relocate_inputs (active_inputs s) scopes (is_kernel s) in
  (error, mk_istate k inputs (is_next s) scopes).

(** An active scope is the innermost one. *)
Definition csh_input_reserve_end (s : input_state) : input_state :=
  mk_istate (is_kernel s) (active_inputs s) (is_next s) (tail (reservations s)).

Definition csh_input_failed (input : csh_input) : bool := negb (status (in_failure input) =? 0).
