(* ===== verification/InputTheorems.v ===== *)
(** * Command input is read exactly

    One call of [csh_input_read_line] takes one physical line from a source and
    nothing after it, with exact positions; reading to the end gives the lines
    of the text.  Reserving operands moves the descriptors of inputs out of the
    way without changing what they read. *)

From stdpp Require Import base list gmap strings.
From S2P Require Import Prelude Output Descriptors Input.

(** ** Lines *)

(** The first line with its newline, and the rest. *)
Fixpoint take_line (text : str) : str * str :=
  match text with
  | [] => ([], [])
  | b :: rest => if b =? 10 then ([b], rest) else let '(l, r) := take_line rest in (b :: l, r)
  end.

Lemma take_line_app text : (take_line text).1 ++ (take_line text).2 = text.
Proof.
  induction text as [|b text IH]; [done|]. cbn [take_line]. destruct (b =? 10); [done|].
  destruct (take_line text) as [l r]. cbn in *. by rewrite IH.
Qed.

Definition terminated (l : str) : bool := bool_decide (last l = Some 10).

(** ** Sources *)

(** A source that can be read: a string, or an open descriptor, with any hooks. *)
Definition attached (input : csh_input) (k : kernel) : Prop :=
  interruptible k /\ k_alloc k = [] /\
  match in_text input with
  | Some _ => True
  | None => exists fd i f, in_fd input = Some fd /\ file_of k fd = Some (i, f)
  end.

(** Nothing can end a read early: there is no wait hook, or it answers that the
    descriptor is ready every time and no call is interrupted. *)
Definition undisturbed (input : csh_input) (k : kernel) : Prop :=
  in_wait input = None \/ (Forall (fun a => a = None) (default [] (in_wait input)) /\ k_faults k = []).

Definition pending (input : csh_input) : Prop := status (in_failure input) = 0 /\ in_ended input = false.

(** No counter reaches the end of its range within [n] bytes. *)
Definition room (p : csh_position) (n : nat) : Prop :=
  offset p + Z.of_nat n < SIZE_MAX /\ line p + Z.of_nat n < SIZE_MAX /\
  column p + Z.of_nat n < SIZE_MAX /\ 1 <= column p.

Lemma room_advance p b n : room p (S n) -> room (advance p b) n.
Proof. unfold room, advance. intros (H1 & H2 & H3 & H4). destruct (b =? 10); cbn; lia. Qed.

Lemma reserve_run input needed k : k_alloc k = [] -> exists capacity,
  reserve input needed k = (true, in_set_capacity input capacity, k).
Proof.
  intros Ha. unfold reserve. destruct (needed <=? in_capacity input).
  - exists (in_capacity input). by destruct input.
  - unfold sys_malloc. rewrite Ha. eauto.
Qed.

(** The same input apart from its buffer, its text, its position and the answers
    of the wait hook that are used up. *)
Definition same_source (input input' : csh_input) : Prop :=
  in_name input' = in_name input /\ in_fd input' = in_fd input /\
  in_eof input' = in_eof input /\ in_lines input' = in_lines input /\ in_failure input' = in_failure input /\
  in_ended input' = in_ended input /\
  (in_wait input' = in_wait input \/ exists l n, in_wait input = Some l /\ in_wait input' = Some (drop n l)).

Lemma file_of_insert k fd i f f' : file_of k fd = Some (i, f) ->
  file_of (with_files k (<[i := f']> (k_files k))) fd = Some (i, f').
Proof.
  unfold file_of. cbn. destruct (k_fds k !! fd) as [d|]; [|done]. cbn.
  destruct (k_files k !! d_file d); [|done]. intros [= <- <-]. by rewrite lookup_insert_eq.
Qed.

Lemma read_byte_run fd k i f : interruptible k -> file_of k fd = Some (i, f) ->
  exists r k', sys_read_byte fd k = (r, k') /\ interruptible k' /\ k_alloc k' = k_alloc k /\ (k_faults k = [] -> k_faults k' = []) /\
    (exists f', file_of k' fd = Some (i, f') /\
      match r with
      | inr b => drop (ds_offset f') (ds_content f') = tail (drop (ds_offset f) (ds_content f)) /\ b = head (drop (ds_offset f) (ds_content f))
      | inl e => f' = f /\ e = EINTR /\ k_faults k <> []
      end).
Proof.
  intros Hi Hf. unfold sys_read_byte, sys.
  assert (exists o k1, pop_fault k = (o, k1) /\ interruptible k1 /\ k_alloc k1 = k_alloc k /\ file_of k1 fd = Some (i, f) /\
    match o with Some e => f_errno e = EINTR /\ k_faults k <> [] | None => True end /\ (k_faults k = [] -> k_faults k1 = [] /\ o = None)) as
    (o & k1 & -> & Hi1 & Ha1 & Hf1 & Ho & Hq).
  { unfold pop_fault. unfold interruptible in Hi. destruct (k_faults k) as [|o l] eqn:El; [|apply Forall_cons in Hi as [Ho Hl]].
    - exists None, k. split_and!; try done. unfold interruptible. by rewrite El.
    - exists o, (with_faults k l). split_and!; try done. by destruct o. }
  destruct o as [e|].
  { do 2 eexists. split; [reflexivity|]. destruct Ho as [Ho Hn]. split_and!; [done|done|by intros ?%Hn|]. by exists f. }
  rewrite Hf1. destruct (ds_content f !! ds_offset f) as [b|] eqn:Eb.
  - pose proof (file_of_insert _ _ _ _ (mk_description (ds_access f) (ds_kind f) (ds_nonblock f) (ds_content f) (S (ds_offset f))) Hf1) as Hf2.
    do 2 eexists. split; [reflexivity|]. split_and!; [done|done|by intros [? _]%Hq|]. eexists. split; [exact Hf2|].
    rewrite (drop_S _ _ _ Eb). done.
  - apply lookup_ge_None in Eb. do 2 eexists. split; [reflexivity|]. split_and!; [done|done|by intros [? _]%Hq|]. exists f. split; [done|].
    by rewrite drop_ge by lia.
Qed.

(** The next byte, or nothing is read: the wait was interrupted or refused. *)
Lemma next_byte_run input k : attached input k ->
  exists r input' k', next_byte input k = (r, input', k') /\
    attached input' k' /\ same_source input input' /\ in_position input' = in_position input /\
    (undisturbed input k -> undisturbed input' k') /\
    match r with
    | inr b => b = head (unread input k) /\ unread input' k' = tail (unread input k)
    | inl number => unread input' k' = unread input k /\ ~ undisturbed input k /\
        (number <> EINTR -> Some number ∈ default [] (in_wait input))
    end.
Proof.
  intros (Hi & Ha & Hs). unfold next_byte, unread, attached. destruct (in_text input) as [[|b text]|] eqn:Et.
  - eexists _, input, k. split; [reflexivity|]. rewrite Et. unfold same_source. by split_and!; auto.
  - eexists _, (in_set_text input (Some text)), k. split; [reflexivity|]. unfold same_source. by split_and!; auto.
  - destruct Hs as (fd & i & f & Ef & Hf). rewrite Ef, Hf. change (default (-1) (Some fd)) with fd.
    destruct (in_wait input) as [answers|] eqn:Ew.
    2: { unfold sys_read_byte. edestruct (retry_sys (A:=option byte)) as (k1 & Hu & Hi1 & ->); [exact Hi| |].
      { intros k'. cbv beta. destruct (file_of k' fd) as [[i' f']|]; [|done]. by destruct (ds_content f' !! ds_offset f'). }
      destruct Hu as [n ->]. assert (file_of (with_faults k (drop n (k_faults k))) fd = Some (i, f)) as Hf1 by exact Hf.
      cbv beta. rewrite Hf1. destruct (ds_content f !! ds_offset f) as [b|] eqn:Eb.
      + pose proof (file_of_insert _ _ _ _ (mk_description (ds_access f) (ds_kind f) (ds_nonblock f) (ds_content f)
          (S (ds_offset f))) Hf1) as Hf2.
        do 3 eexists. split; [reflexivity|]. unfold same_source. rewrite Et, Ef, Hf2, (drop_S _ _ _ Eb).
        split_and!; try done; [eauto 10|by left|]. intros _. by left.
      + apply lookup_ge_None in Eb. do 3 eexists. split; [reflexivity|]. unfold same_source. rewrite Et, Ef, Hf1, (drop_ge (ds_content f)) by lia.
        split_and!; try done; [eauto 10|by left|]. intros _. by left. }
    assert (exists rest, call_wait input = (default None (head answers), csh_input_set_wait_hook input (Some rest)) /\
      exists n, rest = drop n answers) as (rest & Ecall & n & Er).
    { unfold call_wait. rewrite Ew. destruct answers as [|a rest]; [exists []|exists rest].
      - split; [destruct input; cbn in *; by subst|by exists 0%nat].
      - split; [done|by exists 1%nat]. }
    rewrite Ecall. set (input1 := csh_input_set_wait_hook input (Some rest)).
    assert (same_source input input1) as Hsame by (unfold same_source; split_and!; try done; right; exists answers, n; split; [done|by subst rest]).
    assert (undisturbed input k <-> Forall (fun a => a = None) answers /\ k_faults k = []) as Hund.
    { unfold undisturbed. rewrite Ew. split; [intros [?|?]; done|auto]. }
    assert (Forall (fun a : option errno => a = None) answers -> Forall (fun a => a = None) rest) as Hrest by (subst rest; apply Forall_drop).
    destruct (default None (head answers)) as [number|] eqn:Eh.
    + do 3 eexists. split; [reflexivity|]. cbn [input1 csh_input_set_wait_hook in_text in_fd in_position]. rewrite Et, Ef, Hf.
      destruct answers as [|a l]; cbn in Eh; [done|]. subst a.
      split_and!; try done; [eauto 10| | |].
      * rewrite Hund. by intros [[? _]%Forall_cons _].
      * rewrite Hund. by intros [[? _]%Forall_cons _].
      * intros _. cbn. by left.
    + destruct (read_byte_run fd k i f Hi Hf) as (r & k' & -> & Hi' & Ha' & Hq & f' & Hf' & Hr).
      do 3 eexists. split; [reflexivity|]. cbn [input1 csh_input_set_wait_hook in_text in_fd in_position]. rewrite Et, Ef, Hf'.
      split_and!; try done; [congruence|eauto 10| |].
      * intros [H1 H2]%Hund. right. cbn. auto.
      * destruct r as [e|b]; [|by destruct Hr as [-> ->]]. destruct Hr as (-> & -> & Hn). split_and!; [done| |done].
        intros [_ H2]%Hund. by apply Hn.
Qed.

(** ** One line *)

(** The answers of the end-of-file hook that are left at the end of the input. *)
Fixpoint after_end (answers : list bool) : list bool :=
  match answers with
  | [] => []
  | again :: rest => if again then after_end rest else rest
  end.

(** A part of the line that was read before the read ended early. *)
Definition cut_short (input : csh_input) (text l : str) (input' : csh_input) (k' : kernel) : Prop :=
  (l `prefix_of` text) /\ (10 ∉ l) /\ unread input' k' = drop (length l) text /\ in_lines input' = in_lines input /\ in_ended input' = false.

(** What one read of [text] from [input] has to return and leave, [buffer] being
    the part of the line that was read before. *)
Definition line_read (input : csh_input) (buffer : str) (start : csh_position) (text : str)
    (r : csh_input_result) (input' : csh_input) (k' : kernel) : Prop :=
  attached input' k' /\ in_name input' = in_name input /\ in_fd input' = in_fd input /\
  match r with
  | CSH_INPUT_LINE ln =>
      let '(l, rest) := take_line text in
      ln = mk_line (buffer ++ l) start (foldl advance (in_position input) l) /\ buffer ++ l <> [] /\
      unread input' k' = rest /\ in_position input' = ln_end ln /\ in_ended input' = negb (terminated l) /\
      in_lines input' = (fun seen => seen ++ [ln_data ln]) <$> in_lines input /\
      status (in_failure input') = 0 /\ in_eof input' = in_eof input
  | CSH_INPUT_EOF =>
      buffer = [] /\ text = [] /\ unread input' k' = [] /\ in_position input' = in_position input /\ in_ended input' = true /\
      in_lines input' = in_lines input /\ status (in_failure input') = 0 /\ in_eof input' = after_end <$> in_eof input
  | CSH_INPUT_INTERRUPTED e => exists l,
      cut_short input text l input' k' /\
      let p := foldl advance (in_position input) l in
      e = at_position (input_fail (bs "input interrupted") EINTR 128) p /\
      in_position input' = (if bool_decide (buffer ++ l = []) then p else mk_position (offset p) (line p + 1) 1) /\
      status (in_failure input') = 0
  | CSH_INPUT_ERROR e => exists l number,
      cut_short input text l input' k' /\ Some number ∈ default [] (in_wait input) /\ number <> EINTR /\
      e = at_position (input_fail (bs "cannot read input") number 128) (foldl advance (in_position input) l) /\ in_failure input' = e
  end.

Definition completed (r : csh_input_result) : Prop :=
  match r with CSH_INPUT_LINE _ | CSH_INPUT_EOF => True | _ => False end.

Lemma take_line_nil text : take_line text = ([], []) -> text = [].
Proof. intros E. pose proof (take_line_app text) as H. rewrite E in H. by rewrite <- H. Qed.

Lemma terminated_cons b l : b <> 10 -> terminated (b :: l) = terminated l.
Proof. intros Hb. unfold terminated. destruct l; [|done]. cbn. by rewrite !bool_decide_eq_false_2 by congruence. Qed.

(** One byte more of the line. *)
Lemma line_read_step input input2 b buffer start text r input' k' : b <> 10 -> same_source input input2 ->
  in_position input2 = advance (in_position input) b ->
  line_read input2 (buffer ++ [b]) start text r input' k' -> line_read input buffer start (b :: text) r input' k'.
Proof.
  intros Hb (N1 & N2 & N3 & N4 & N5 & N6 & N7) Hp (H1 & H2 & H3 & H). unfold line_read. split_and!; [done|congruence|congruence|].
  assert (forall l, cut_short input2 text l input' k' -> cut_short input (b :: text) (b :: l) input' k') as Hcut.
  { intros l (C1 & C2 & C3 & C4 & C5). split_and!; [by apply prefix_cons| |done|congruence|done]. by rewrite not_elem_of_cons. }
  destruct r as [e| |ln|e].
  - destruct H as (l & number & Hl & Hin & He & -> & Hf). exists (b :: l), number. split_and!; [by apply Hcut| |done| |done].
    + destruct N7 as [N7|(a & n & E1 & E2)]; [by rewrite <- N7|]. rewrite E1. rewrite E2 in Hin. cbn in *.
      rewrite <- (take_drop n a). apply elem_of_app. by right.
    + cbn [foldl]. by rewrite Hp.
  - destruct H as (H & _). by destruct buffer.
  - cbn [take_line]. rewrite (proj2 (Z.eqb_neq b 10)) by done. destruct (take_line text) as [l rest]. cbn [foldl]. rewrite <- app_assoc in H.
    rewrite Hp in H. cbn [app] in H. rewrite N4, N3 in H. rewrite terminated_cons by done. exact H.
  - destruct H as (l & Hl & -> & Hpos & Hst). exists (b :: l). split_and!; [by apply Hcut| | |done]; cbn [foldl]; rewrite <- Hp; [done|].
    rewrite <- app_assoc in Hpos. exact Hpos.
Qed.

Lemma read_loop_run fuel : forall input buffer start k text,
  attached input k -> pending input -> unread input k = text -> room (in_position input) (length text) ->
  slen buffer + Z.of_nat (length text) < SIZE_MAX - 2 -> (length text + length (default [] (in_eof input)) < fuel)%nat ->
  exists r input' k', read_loop fuel input buffer start k = Some (r, input', k') /\
    line_read input buffer start text r input' k' /\ (undisturbed input k -> completed r).
Proof.
  induction fuel as [|fuel IH]; intros input buffer start k text Hr (Hp1 & Hp2) Hu Hroom Hlen Hf; [lia|]. cbn [read_loop].
  rewrite Z.gtb_ltb, (proj2 (Z.ltb_ge (SIZE_MAX - 2) (slen buffer))) by lia.
  pose proof Hr as (_ & Ha & _). destruct (reserve_run input (slen buffer + 2) k Ha) as [capacity ->]. cbn [negb].
  change (in_position (in_set_capacity input capacity)) with (in_position input). pose proof Hroom as (R1 & R2 & R3 & R4).
  rewrite (proj2 (Z.eqb_neq (offset (in_position input)) SIZE_MAX)) by lia.
  rewrite (proj2 (Z.eqb_neq (line (in_position input)) SIZE_MAX)) by lia.
  rewrite (proj2 (Z.eqb_neq (column (in_position input)) SIZE_MAX)) by lia. cbn [orb].
  destruct (next_byte_run (in_set_capacity input capacity) k Hr) as (nb & input1 & k1 & -> & Hr1 & Hsame & Hpos & Hund & Hnb).
  change (unread (in_set_capacity input capacity) k) with (unread input k) in *. rewrite Hu in *.
  change (undisturbed (in_set_capacity input capacity) k) with (undisturbed input k) in *.
  pose proof Hsame as (N1 & N2 & N3 & N4 & N5 & N6 & N7). cbn [in_set_capacity in_name in_fd in_position in_eof in_lines in_failure in_ended in_wait] in *.
  assert (forall input2, in_lines input2 = in_lines input1 -> in_ended input2 = in_ended input1 -> unread input2 k1 = text -> cut_short input text [] input2 k1) as Hcut.
  { intros input2 E1 E2 E3. split_and!; [apply prefix_nil|apply not_elem_of_nil|done|congruence|congruence]. }
  destruct nb as [number|[b|]].
  - destruct Hnb as (Hu1 & Hdist & Hnum). destruct (decide (number = EINTR)) as [->|Hne].
    + do 3 eexists. split; [reflexivity|]. split; [|done]. unfold line_read.
      split_and!; try (destruct (bool_decide (buffer = [])); done). exists []. rewrite app_nil_r. cbn [foldl].
      split_and!; [apply Hcut; destruct (bool_decide (buffer = [])); done|by rewrite Hpos| |]; destruct (bool_decide (buffer = [])); cbn; congruence.
    + assert (forall A (x y : A), match number with EINTR => x | _ => y end = y) as -> by (by destruct number).
      do 3 eexists. split; [reflexivity|]. split; [|done]. unfold line_read. split_and!; try done. exists [], number. cbn [foldl].
      split_and!; [by apply Hcut|by apply Hnum|done|by rewrite Hpos|done].
  - destruct Hnb as [Eh Hu1]. destruct text as [|b' text]; [done|]. injection Eh as ->. cbn [tail] in Hu1.
    set (input2 := in_set_position input1 (advance (in_position input1) b')).
    assert (in_position input2 = advance (in_position input) b') as Hpos2 by (cbn; by rewrite Hpos).
    destruct (b' =? 10) eqn:Eb.
    + do 3 eexists. split; [reflexivity|]. split; [|done]. unfold line_read. cbn [take_line]. rewrite Eb. unfold publish. rewrite Hpos2.
      cbn [foldl]. change (in_lines input2) with (in_lines input1). apply Z.eqb_eq in Eb as ->. rewrite N4.
      destruct (in_lines input) as [seen|]; cbn; split_and!; try done; try congruence; try (by destruct buffer); by rewrite N6, Hp2.
    + destruct (IH input2 (buffer ++ [b']) start k1 text) as (r & input' & k' & E & Hl & Hc).
      * done.
      * split; cbn; congruence.
      * done.
      * rewrite Hpos2. by apply room_advance.
      * unfold slen in *. rewrite length_app. simpl in *. lia.
      * cbn in *. rewrite N3. lia.
      * exists r, input', k'. split; [exact E|]. split; [|by intros H; apply Hc, Hund].
        apply (line_read_step input input2 b'); [by apply Z.eqb_neq in Eb|by unfold same_source; split_and!|exact Hpos2|exact Hl].
  - destruct Hnb as [Eh Hu1]. destruct text as [|b' text]; [|done]. cbn [tail] in Hu1.
    destruct (bool_decide (buffer = [])) eqn:Ebuf.
    2: { do 3 eexists. split; [reflexivity|]. split; [|done]. unfold line_read, publish. cbn [take_line foldl]. rewrite app_nil_r.
      apply bool_decide_eq_false_1 in Ebuf. change (in_position (in_set_ended input1)) with (in_position input1).
      change (in_lines (in_set_ended input1)) with (in_lines input1). rewrite N4, Hpos.
      destruct (in_lines input) as [seen|]; cbn; split_and!; try done; congruence. }
    apply bool_decide_eq_true_1 in Ebuf as ->.
    assert (exists again input2, call_eof input1 = (again, input2) /\ same_source (csh_input_set_eof_hook input (in_eof input2)) input2 /\
      in_position input2 = in_position input1 /\ in_wait input2 = in_wait input1 /\ unread input2 k1 = [] /\ attached input2 k1 /\
      (if again then after_end <$> in_eof input2 = after_end <$> in_eof input /\
         (length (default [] (in_eof input2)) < length (default [] (in_eof input)))%nat
       else in_eof input2 = after_end <$> in_eof input)) as (again & input2 & -> & Hs2 & Hpos2 & Hw2 & Hu2 & Hr2 & Hag).
    { unfold call_eof. rewrite N3. destruct (in_eof input) as [[|a rest]|] eqn:Eo; (do 2 eexists; split; [reflexivity|]); unfold same_source; cbn;
        split_and!; try done; try congruence. destruct a; cbn; [split; [done|lia]|done]. }
    destruct again.
    + destruct Hag as [Hag1 Hag2]. pose proof Hs2 as (M1 & M2 & M3 & M4 & M5 & M6 & M7). cbn in M1, M2, M3, M4, M5, M6, M7.
      destruct (IH input2 [] start k1 []) as (r & input' & k' & E & (L1 & L2 & L3 & Hl) & Hc).
      * done.
      * split; congruence.
      * done.
      * by rewrite Hpos2, Hpos.
      * done.
      * cbn in *. lia.
      * exists r, input', k'. split; [exact E|]. split.
        2: { intros H. apply Hc. apply Hund in H. unfold undisturbed in *. by rewrite Hw2. }
        unfold line_read. split_and!; [done|congruence|congruence|]. rewrite Hpos2, Hpos in Hl. rewrite M4 in Hl.
        assert (forall l, cut_short input2 [] l input' k' -> cut_short input [] l input' k') as Hcut2.
        { intros l (C1 & C2 & C3 & C4 & C5). split_and!; [done|done|done|congruence|done]. }
        destruct r as [e| |ln|e].
        -- destruct Hl as (l & number & Hl & Hin & H). exists l, number. split_and!; [by apply Hcut2| |apply H..].
           rewrite Hw2 in Hin. destruct N7 as [N7|(a & n & E1 & E2)]; [by rewrite <- N7|]. rewrite E1. rewrite E2 in Hin. cbn in *.
           rewrite <- (take_drop n a). apply elem_of_app. by right.
        -- rewrite Hag1 in Hl. exact Hl.
        -- cbn [take_line] in Hl. destruct Hl as (_ & H & _). done.
        -- destruct Hl as (l & Hl & H). exists l. split; [by apply Hcut2|exact H].
    + do 3 eexists. split; [reflexivity|]. split; [|done]. pose proof Hs2 as (M1 & M2 & M3 & M4 & M5 & M6 & M7). cbn in M1, M2, M3, M4, M5, M6, M7.
      unfold line_read. cbn. split_and!; try done; congruence.
Qed.

(** ** All lines *)

(** Read until the end; [None] after a failure. *)
Fixpoint read_all (fuel : nat) (input : csh_input) (k : kernel) : option (list str) :=
  match fuel with
  | O => None
  | S f =>
      match csh_input_read_line input k with
      | Some (CSH_INPUT_LINE l, input, k) => cons (ln_data l) <$> read_all f input k
      | Some (CSH_INPUT_EOF, _, _) => Some []
      | _ => None
      end
  end.

(** One physical line: its only newline, if any, is at its end. *)
Definition one_line (l : str) : Prop := l <> [] /\ take_line l = (l, []).

Lemma take_line_idem text : take_line (take_line text).1 = ((take_line text).1, []).
Proof.
  induction text as [|b text IH]; [done|]. cbn [take_line]. destruct (b =? 10) eqn:E.
  - cbn [fst take_line]. by rewrite E.
  - destruct (take_line text) as [l r]. cbn [fst] in *. cbn [take_line]. rewrite E, IH. done.
Qed.

Lemma unterminated_last text l rest : take_line text = (l, rest) -> terminated l = false -> rest = [].
Proof.
  revert l. induction text as [|b text IH]; intros l; cbn [take_line]; [by intros [= <- <-]|].
  destruct (b =? 10) eqn:E.
  - intros [= <- <-]. unfold terminated. cbn. apply Z.eqb_eq in E as ->. by rewrite bool_decide_eq_true_2.
  - destruct (take_line text) as [l' r']. intros [= <- <-] Ht. apply (IH l'); [done|].
    unfold terminated in *. destruct l' as [|c l']; [by rewrite bool_decide_eq_false_2|]. done.
Qed.

Lemma read_line_run input k text : attached input k -> pending input -> unread input k = text ->
  room (in_position input) (length text) -> Z.of_nat (length text) < SIZE_MAX - 2 ->
  exists r input' k', csh_input_read_line input k = Some (r, input', k') /\
    line_read input [] (in_position input) text r input' k' /\ (undisturbed input k -> completed r).
Proof.
  intros Hr Hp Hu Hroom Hlen. unfold csh_input_read_line. pose proof Hp as (H1 & H2).
  rewrite H1, H2. cbn [negb Z.eqb]. apply read_loop_run; try done. unfold read_fuel. rewrite Hu. lia.
Qed.

Lemma room_foldl l p n : room p (length l + n) -> room (foldl advance p l) n.
Proof.
  revert p. induction l as [|b l IH]; intros p; [done|]. cbn [foldl length plus]. intros Hr.
  by apply IH, room_advance.
Qed.

Lemma reserve_wait input needed k b input' k' : reserve input needed k = (b, input', k') -> in_wait input' = in_wait input.
Proof.
  unfold reserve. destruct (needed <=? _); [by intros [= <- <- <-]|].
  generalize (grow 64 (if in_capacity input =? 0 then 128 else in_capacity input) needed). intros c. cbv zeta. unfold sys_malloc.
  destruct (k_alloc k) as [|a rest]; [|destruct a]; by intros [= <- <- <-].
Qed.

Lemma line_read_wait fuel input buffer start k r input' k' : in_wait input = None ->
  read_loop fuel input buffer start k = Some (r, input', k') -> in_wait input' = None.
Proof.
  revert input buffer k. induction fuel as [|fuel IH]; intros input buffer k Hw; cbn [read_loop]; [done|].
  destruct (if slen buffer >? SIZE_MAX - 2 then _ else _) as [[ok i1] k1] eqn:E1.
  assert (in_wait i1 = None) as H1.
  { revert E1. destruct (slen buffer >? _); [by intros [= <- <- <-]|]. by intros ->%reserve_wait. }
  destruct (negb ok); [by intros [= <- <- <-]|]. destruct (_ || _); [by intros [= <- <- <-]|].
  destruct (next_byte i1 k1) as [[nb i2] k2] eqn:E2. assert (in_wait i2 = None) as H2.
  { revert E2. unfold next_byte. destruct (in_text i1) as [[|b t]|]; [by intros [= <- <- <-]..|]. rewrite H1. cbn.
    destruct (retry _ _) as [r0 k0]. by intros [= <- <- <-]. }
  destruct nb as [number|[b|]].
  - destruct number; intros [= <- <- <-]; try done. by destruct (bool_decide _).
  - destruct (b =? 10); [|by apply IH]. unfold publish. intros [= <- <- <-]. by destruct (in_lines _).
  - destruct (if bool_decide (buffer = []) then _ else _) as [again i3] eqn:E3. assert (in_wait i3 = None) as H3.
    { revert E3. destruct (bool_decide _); [|by intros [= <- <-]]. unfold call_eof.
      by destruct (in_eof i2) as [[|a l]|]; intros [= <- <-]. }
    destruct again; [by apply IH|]. unfold publish. destruct (bool_decide (buffer = [])); intros [= <- <- <-]; [done|]. by destruct (in_lines _).
Qed.

Lemma wait_kept input k r input' k' : csh_input_read_line input k = Some (r, input', k') -> in_wait input = None -> in_wait input' = None.
Proof.
  unfold csh_input_read_line. destruct (negb _); [by intros [= <- <- <-]|]. destruct (in_ended input); [by intros [= <- <- <-]|].
  intros E Hw. by eapply line_read_wait.
Qed.

Lemma read_all_run n : forall text fuel input k, (length text <= n)%nat -> attached input k -> pending input -> in_wait input = None ->
  unread input k = text -> room (in_position input) (length text) -> Z.of_nat (length text) < SIZE_MAX - 2 ->
  (length text < fuel)%nat ->
  exists ls, read_all fuel input k = Some ls /\ concat ls = text /\ Forall one_line ls /\
    Forall (fun l => terminated l = true) (removelast ls).
Proof.
  induction n as [|n IH]; intros text fuel input k Hn Hr Hp Hw Hu Hroom Hlen Hf;
    (destruct fuel as [|fuel]; [lia|]); cbn [read_all];
    destruct (read_line_run input k text Hr Hp Hu Hroom Hlen) as (r & input' & k' & E & (Hr' & _ & _ & Hl) & Hc);
    specialize (Hc (or_introl Hw)); pose proof (wait_kept _ _ _ _ _ E Hw) as Hw'; rewrite E;
    destruct r as [e| |ln|e]; try done.
  - destruct Hl as (_ & -> & _). exists []. repeat split; constructor.
  - pose proof (take_line_app text) as Ht. destruct text; [|simpl in Hn; lia]. cbn [take_line app] in Hl. by destruct Hl as (_ & H & _).
  - destruct Hl as (_ & -> & _). exists []. repeat split; constructor.
  - pose proof (take_line_app text) as Ht. pose proof (take_line_idem text) as Hi.
    destruct (take_line text) as [l rest] eqn:El. cbn [fst snd app] in *.
    destruct Hl as (-> & Hne & Hu' & Hpos & He & _ & Hs & _). cbn [ln_data ln_end] in *.
    assert (length text = length l + length rest)%nat as Hsum by (rewrite <- Ht; apply length_app).
    assert (length l <> 0)%nat as Hl0 by (destruct l; done).
    destruct (terminated l) eqn:Et.
    + destruct (IH rest fuel input' k' ltac:(lia) Hr') as (ls & -> & Hc' & Hone & Hterm); try done; try lia.
      { rewrite Hpos. apply room_foldl. by rewrite <- Hsum. }
      exists (l :: ls). cbn. split_and!; [done|by rewrite Hc'|by constructor|].
      destruct ls; [constructor|]. by constructor.
    + assert (rest = []) as -> by (by eapply unterminated_last). cbn [length] in Hsum.
      destruct fuel as [|fuel]; [lia|]. cbn [read_all]. unfold csh_input_read_line. rewrite Hs, He. cbn.
      exists [l]. cbn. rewrite app_nil_r in *. split_and!; [done|done|by repeat constructor|constructor].
Qed.

(** ** Any source *)

(** Whatever the hooks answer and the system refuses, a call returns, and the
    bytes come from those that were unread. *)
Section Returns.
Context (good : byte -> Prop).

Definition sourced (input : csh_input) (k : kernel) : Prop :=
  Forall good (unread input k) /\ (in_text input = None -> is_Some (in_fd input)) /\
  (status (in_failure input) <> 0 -> is_Some (message (in_failure input))).

Definition delivered (r : errno + option byte) (text rest : str) : Prop :=
  match r with inr (Some b) => text = b :: rest | _ => rest = text end.

Definition rest_of (k : kernel) (fd : Z) : str :=
  match file_of k fd with Some (_, f) => drop (ds_offset f) (ds_content f) | None => [] end.

Lemma read_byte_delivers fd k r k' : sys_read_byte fd k = (r, k') -> delivered r (rest_of k fd) (rest_of k' fd).
Proof.
  unfold sys_read_byte, sys. destruct (pop_fault k) as [o k1] eqn:Ep.
  assert (forall fd, file_of k1 fd = file_of k fd) as Ek.
  { intros fd'. unfold pop_fault in Ep. by destruct (k_faults k); injection Ep as _ <-. }
  destruct o as [e|]; [intros [= <- <-]; cbn; unfold rest_of; by rewrite Ek|].
  destruct (file_of k1 fd) as [[i f]|] eqn:Ef; [|intros [= <- <-]; cbn; unfold rest_of; by rewrite Ek].
  destruct (ds_content f !! ds_offset f) as [b|] eqn:Eb; intros [= <- <-]; cbn; unfold rest_of.
  - pose proof (file_of_insert _ _ _ _ (mk_description (ds_access f) (ds_kind f) (ds_nonblock f) (ds_content f)
      (S (ds_offset f))) Ef) as Hf. rewrite <- Ek, Ef. rewrite Hf. by apply drop_S.
  - by rewrite Ek.
Qed.

Lemma retry_delivers fuel fd k r k' : retry_loop fuel (sys_read_byte fd) k = (r, k') -> delivered r (rest_of k fd) (rest_of k' fd).
Proof.
  revert k. induction fuel as [|n IH]; intros k; cbn [retry_loop]; [apply read_byte_delivers|].
  destruct (sys_read_byte fd k) as [[e|b] k1] eqn:E; pose proof (read_byte_delivers _ _ _ _ E) as Hd.
  - cbn in Hd. destruct e; try (intros [= <- <-]; exact Hd). rewrite <- Hd. apply IH.
  - by intros [= <- <-].
Qed.

Lemma next_byte_delivers input k r input' k' : next_byte input k = (r, input', k') -> (in_text input = None -> is_Some (in_fd input)) ->
  delivered r (unread input k) (unread input' k') /\ in_eof input' = in_eof input /\ in_failure input' = in_failure input /\ (in_text input' = None -> is_Some (in_fd input')).
Proof.
  unfold next_byte. destruct (in_text input) as [[|b text]|] eqn:Et; [intros [= <- <- <-] _..|intros E Hfd].
  1, 2: unfold unread; rewrite ?Et; by split_and!.
  destruct (Hfd eq_refl) as [fd Ef]. rewrite Ef in E. change (default (-1) (Some fd)) with fd in E.
  assert (forall i, in_text i = None -> in_fd i = Some fd -> forall k, unread i k = rest_of k fd) as Hun.
  { intros i E1 E2 k0. unfold unread. by rewrite E1, E2. }
  rewrite (Hun _ Et Ef). destruct (in_wait input) as [[|a rest]|] eqn:Ew.
  - unfold call_wait in E. rewrite Ew in E. destruct (sys_read_byte fd k) as [r1 k1] eqn:E1. rewrite ?E1 in E. injection E as <- <- <-.
    rewrite (Hun _ Et Ef). split_and!; [by eapply read_byte_delivers|done|done|by rewrite Ef].
  - unfold call_wait in E. rewrite Ew in E. set (i2 := csh_input_set_wait_hook input (Some rest)) in E. destruct a as [number|].
    + injection E as <- <- <-. rewrite (Hun i2 Et Ef). split_and!; [done|done|done|by cbn; rewrite Ef].
    + destruct (sys_read_byte fd k) as [r1 k1] eqn:E1. rewrite ?E1 in E. injection E as <- <- <-.
      rewrite (Hun i2 Et Ef). split_and!; [by eapply read_byte_delivers|done|done|by cbn; rewrite Ef].
  - unfold retry in E. destruct (retry_loop _ (sys_read_byte fd) k) as [r1 k1] eqn:E1. rewrite ?E1 in E. injection E as <- <- <-.
    rewrite (Hun _ Et Ef). split_and!; [by eapply retry_delivers|done|done|by rewrite Ef].
Qed.

Lemma reserve_sourced input needed k b input' k' : reserve input needed k = (b, input', k') ->
  unread input' k' = unread input k /\ in_eof input' = in_eof input /\ in_text input' = in_text input /\ in_fd input' = in_fd input /\
  in_failure input' = in_failure input.
Proof.
  unfold reserve. destruct (needed <=? _); [by intros [= <- <- <-]|].
  generalize (grow 64 (if in_capacity input =? 0 then 128 else in_capacity input) needed). intros c. cbv zeta. unfold sys_malloc.
  destruct (k_alloc k) as [|a rest]; [|destruct a]; by intros [= <- <- <-].
Qed.

Definition line_good (r : csh_input_result) : Prop :=
  match r with
  | CSH_INPUT_LINE l => Forall good (ln_data l)
  | CSH_INPUT_EOF => True
  | CSH_INPUT_ERROR e | CSH_INPUT_INTERRUPTED e => is_Some (message e)
  end.

Lemma read_loop_returns fuel input buffer start k : sourced input k -> Forall good buffer ->
  (length (unread input k) + length (default [] (in_eof input)) < fuel)%nat ->
  exists r input' k', read_loop fuel input buffer start k = Some (r, input', k') /\ line_good r /\ sourced input' k'.
Proof.
  revert input buffer k. induction fuel as [|f IH]; intros input buffer k (Hg & Hfd & Hst) Hb Hf; [lia|]. cbn [read_loop].
  destruct (if slen buffer >? SIZE_MAX - 2 then (false, input, k) else reserve input (slen buffer + 2) k) as [[ok i1] k1] eqn:E1.
  assert (unread i1 k1 = unread input k /\ in_eof i1 = in_eof input /\ (in_text i1 = None -> is_Some (in_fd i1)) /\ in_failure i1 = in_failure input) as (U1 & O1 & F1 & S1).
  { revert E1. destruct (slen buffer >? _); intros E1; [by injection E1 as <- <- <-|]. destruct (reserve_sourced _ _ _ _ _ _ E1) as (? & ? & -> & -> & ?). done. }
  clear E1. assert (sourced i1 k1) as Hs1 by (split; [by rewrite U1|split; [done|by rewrite S1]]).
  assert (forall i k text number code, sourced i k -> line_good (read_failure i text number code).1 /\
    sourced (read_failure i text number code).2 k) as Hfail.
  { intros i k0 text number code (G1 & G2 & G3). split; [by eexists|]. split; [done|]. split; [done|]. by eexists. }
  destruct (negb ok); [do 3 eexists; split; [done|]; by apply Hfail|].
  destruct (_ || _); [do 3 eexists; split; [done|]; by apply Hfail|].
  destruct (next_byte i1 k1) as [[r i2] k2] eqn:E2. destruct (next_byte_delivers _ _ _ _ _ E2 F1) as (U2 & O2 & S2 & F2).
  rewrite U1 in U2. rewrite O1 in O2. destruct r as [e|[b|]]; cbn in U2.
  - assert (sourced i2 k2) as Hs2 by (split; [by rewrite U2|split; [done|by rewrite S2, S1]]).
    destruct e; do 3 eexists; (split; [done|]); try (by apply Hfail). split; [by eexists|]. by destruct (bool_decide _).
  - rewrite U2 in Hg, Hf. apply Forall_cons in Hg as [Hg1 Hg2]. assert (Forall good (buffer ++ [b])) as Hb' by (apply Forall_app; by split; [|constructor]).
    destruct (b =? 10).
    + do 3 eexists. split; [done|]. split; [done|]. cbn. destruct (in_lines i2) eqn:El; (split; [done|split; [done|]]); cbn; by rewrite S2, S1.
    + apply IH; [by split; [|split; [|cbn; rewrite S2, S1]]|done|]. cbn. rewrite O2. simpl in Hf. unfold unread in *. cbn in *. lia.
  - assert (sourced i2 k2) as Hs2 by (split; [by rewrite U2|split; [done|by rewrite S2, S1]]).
    destruct (if bool_decide (buffer = []) then call_eof i2 else (false, i2)) as [again i3] eqn:E3.
    assert (unread i3 k2 = unread i2 k2 /\ sourced i3 k2 /\ (again = true -> (length (default [] (in_eof i3)) < length (default [] (in_eof i2)))%nat)) as (U3 & S3 & O3).
    { revert E3. destruct (bool_decide _); intros E3; [|by injection E3 as <- <-]. unfold call_eof in E3.
      destruct (in_eof i2) as [[|a rest]|] eqn:Eo; injection E3 as <- <-; try done. split; [done|]. split; [done|]. cbn. intros. lia. }
    destruct again.
    + apply IH; [done|done|]. rewrite U3, U2. rewrite O2 in O3. specialize (O3 eq_refl). lia.
    + destruct (bool_decide (buffer = [])); (do 3 eexists; split; [done|]); (split; [done|]); [done|].
      cbn. by destruct (in_lines i3).
Qed.

Lemma read_line_returns input k : sourced input k ->
  exists r input' k', csh_input_read_line input k = Some (r, input', k') /\ line_good r /\ sourced input' k'.
Proof.
  intros Hs. unfold csh_input_read_line. destruct (negb _) eqn:Est.
  { do 3 eexists. split; [done|]. split; [|done]. apply Hs. by apply negb_true_iff, Z.eqb_neq in Est. }
  destruct (in_ended input); [by do 3 eexists|].
  apply read_loop_returns; [done|done|]. unfold read_fuel. lia.
Qed.
End Returns.

(** ** Reserved descriptors *)

Section Reserve.
Variable scopes : list (list Z).

Definition steady_kernel (k : kernel) : Prop := k_faults k = [].

Lemma steady_interruptible k : steady_kernel k -> interruptible k.
Proof. unfold steady_kernel, interruptible. intros ->. constructor. Qed.

Lemma close_steady k fd d : steady_kernel k -> k_fds k !! fd = Some d ->
  sys_close fd k = (inr tt, with_fds k (delete fd (k_fds k))).
Proof. intros Hk E. unfold sys_close, pop_fault. by rewrite Hk, E. Qed.

Lemma dupfd_steady k fd minimum d : steady_kernel k -> k_fds k !! fd = Some d ->
  (exists e, retry (sys_dupfd fd minimum) k = (inl e, k)) \/
  exists new, retry (sys_dupfd fd minimum) k = (inr new, with_fds k (<[new := mk_descriptor (d_file d) true]> (k_fds k))) /\
    k_fds k !! new = None.
Proof.
  intros Hk E. unfold retry. rewrite Hk. cbn [length retry_loop]. unfold sys_dupfd, sys, pop_fault. rewrite Hk, E.
  destruct (_ || _); [by left; eexists|]. unfold lowest_free.
  destruct (List.find _ _) as [new|] eqn:Ef; [|by left; eexists]. right. exists new. split; [done|].
  apply find_some in Ef as [_ Ef]. by apply bool_decide_eq_true in Ef.
Qed.

Lemma relocate_loop_run fuel old d : forall minimum k, steady_kernel k -> k_fds k !! old = Some d ->
  (exists e, relocate_loop fuel old minimum scopes k = (inl e, k)) \/
  exists new, relocate_loop fuel old minimum scopes k =
      (inr new, with_fds k (<[new := mk_descriptor (d_file d) true]> (k_fds k))) /\
    k_fds k !! new = None /\ csh_input_descriptor_reserved scopes new = false.
Proof.
  induction fuel as [|f IH]; intros minimum k Hk E; cbn [relocate_loop]; [by left; eexists|].
  unfold kbind, kcatch. destruct (dupfd_steady k old minimum d Hk E) as [[e ->]|(new & -> & En)]; [by left; eexists|].
  destruct (csh_input_descriptor_reserved scopes new) eqn:Er; cbn [negb].
  2:{ right. by exists new. }
  rewrite (close_steady _ new (mk_descriptor (d_file d) true)); [|done|by cbn; rewrite lookup_insert_eq].
  replace (with_fds _ (delete new _)) with k.
  - destruct (new =? INT_MAX); [by left; eexists|]. by apply IH.
  - destruct k. unfold with_fds. cbn. by rewrite delete_insert_id.
Qed.

Definition descriptors (inputs : list (nat * csh_input)) : list Z := omap (fun p => in_fd (snd p)) inputs.

Lemma descriptors_cons p inputs : descriptors (p :: inputs) =
  match in_fd (snd p) with Some fd => fd :: descriptors inputs | None => descriptors inputs end.
Proof. unfold descriptors. cbn [omap list_omap]. by destruct (in_fd (snd p)). Qed.

(** The description behind an input. *)
Definition file_behind (k : kernel) (input : csh_input) : option Z :=
  fd ← in_fd input; d_file <$> k_fds k !! fd.

(** An input after relocation: the same input on the same description. *)
Definition relocated (k k' : kernel) (p p' : nat * csh_input) : Prop :=
  fst p' = fst p /\ snd p' = in_set_fd (snd p) (in_fd (snd p')) /\
  file_behind k' (snd p') = file_behind k (snd p).

Lemma relocated_base k1 k1' k k' inputs inputs' : Forall2 (relocated k1 k1') inputs inputs' ->
  k_fds k1' = k_fds k' -> (forall fd, fd ∈ descriptors inputs -> k_fds k1 !! fd = k_fds k !! fd) ->
  Forall2 (relocated k k') inputs inputs'.
Proof.
  intros HF E'. induction HF as [|p p' inputs inputs' (H1 & H2 & H3) HF IH]; intros E; [constructor|].
  rewrite descriptors_cons in E. constructor.
  - split_and!; [done|done|]. unfold file_behind in *. rewrite <- E'. rewrite H3.
    destruct (in_fd (snd p)) as [fd|]; [|done]. cbn. by rewrite E by set_solver.
  - apply IH. intros fd Hin. apply E. destruct (in_fd (snd p)); set_solver.
Qed.

Lemma relocate_inputs_run inputs : forall k, steady_kernel k -> NoDup (descriptors inputs) ->
  (forall fd, fd ∈ descriptors inputs -> is_Some (k_fds k !! fd)) ->
  exists error inputs' fds', relocate_inputs inputs scopes k = (error, inputs', with_fds k fds') /\
    Forall2 (relocated k (with_fds k fds')) inputs inputs' /\
    (forall fd, fd ∉ descriptors inputs -> fd ∉ descriptors inputs' -> fds' !! fd = k_fds k !! fd) /\
    (forall fd, fd ∈ descriptors inputs' -> fd ∈ descriptors inputs \/
       k_fds k !! fd = None /\ csh_input_descriptor_reserved scopes fd = false) /\
    (error = None -> forall fd, fd ∈ descriptors inputs' -> csh_input_descriptor_reserved scopes fd = false).
Proof.
  induction inputs as [|[id input] rest IH]; intros k Hk Hn Ho; cbn [relocate_inputs].
  { exists None, [], (k_fds k). split_and!; [by destruct k|constructor|done|set_solver|set_solver]. }
  rewrite descriptors_cons in Hn, Ho. cbn [snd] in *.
  assert (forall k1, steady_kernel k1 -> NoDup (descriptors rest) ->
    (forall fd, fd ∈ descriptors rest -> is_Some (k_fds k1 !! fd)) ->
    forall input1 (Hfresh : forall fd, in_fd input1 = Some fd -> (fd ∉ descriptors rest) /\ is_Some (k_fds k1 !! fd)),
    exists error rest' fds', (let '(error, r, k') := relocate_inputs rest scopes k1 in (error, (id, input1) :: r, k')) =
        (error, (id, input1) :: rest', with_fds k1 fds') /\
      Forall2 (relocated k1 (with_fds k1 fds')) rest rest' /\
      file_behind (with_fds k1 fds') input1 = file_behind k1 input1 /\
      (forall fd, fd ∉ descriptors rest -> fd ∉ descriptors rest' -> fds' !! fd = k_fds k1 !! fd) /\
      (forall fd, fd ∈ descriptors rest' -> fd ∈ descriptors rest \/
         k_fds k1 !! fd = None /\ csh_input_descriptor_reserved scopes fd = false) /\
      (error = None -> forall fd, fd ∈ descriptors rest' -> csh_input_descriptor_reserved scopes fd = false)) as Hrest.
  { intros k1 Hk1 Hn1 Ho1 input1 Hfresh. destruct (IH k1 Hk1 Hn1 Ho1) as (error & rest' & fds' & -> & R1 & R2 & R3 & R4).
    exists error, rest', fds'. split_and!; try done. unfold file_behind. destruct (in_fd input1) as [fd|]; [|done].
    cbn. destruct (Hfresh fd eq_refl) as [Hf [d Hd]]. rewrite R2; [done|done|].
    intros Hin. destruct (R3 fd Hin) as [?|[E _]]; [done|congruence]. }
  destruct (in_fd input) as [old|] eqn:Ein.
  2:{ destruct (Hrest k Hk Hn Ho input) as (error & rest' & fds' & -> & R1 & R2 & R3 & R4 & R5); [by rewrite Ein|].
      exists error, ((id, input) :: rest'), fds'. rewrite !descriptors_cons. cbn [snd]. rewrite Ein.
      split_and!; try done. constructor; [|done]. split_and!; [done|by destruct input|done]. }
  apply NoDup_cons in Hn as [Hold Hn].
  assert (forall fd, fd ∈ descriptors rest -> is_Some (k_fds k !! fd)) as Ho' by (intros fd Hin; apply Ho; set_solver).
  destruct (Ho old) as [d Ed]; [set_solver|].
  destruct (csh_input_descriptor_reserved scopes old) eqn:Eres.
  2:{ destruct (Hrest k Hk Hn Ho' input) as (error & rest' & fds' & -> & R1 & R2 & R3 & R4 & R5).
      { intros fd E. rewrite Ein in E. injection E as <-. eauto. }
      exists error, ((id, input) :: rest'), fds'. rewrite !descriptors_cons. cbn [snd]. rewrite Ein. split_and!.
      - done.
      - constructor; [|done]. split_and!; [done|by destruct input|done].
      - intros fd [H1 H2]%not_elem_of_cons [H3 H4]%not_elem_of_cons. by apply R3.
      - intros fd [->|Hin]%elem_of_cons; [set_solver|]. destruct (R4 fd Hin); [set_solver|auto].
      - intros He fd [->|Hin]%elem_of_cons; [done|by apply R5]. }
  destruct (relocate_loop_run (S (Z.to_nat (k_limit k))) old d 10 k Hk Ed) as [[e ->]|(new & -> & En & Hnr)].
  { exists (Some (input_fail (bs "cannot reserve input descriptor") e 1)), ((id, input) :: rest), (k_fds k).
    replace (with_fds k (k_fds k)) with k by (by destruct k). rewrite !descriptors_cons. cbn [snd]. rewrite Ein. split_and!; try done.
    - apply Forall_Forall2_diag, Forall_true. intros p. split_and!; [done|by destruct p as [? []]|done].
    - auto. }
  set (k1 := with_fds k (<[new := mk_descriptor (d_file d) true]> (k_fds k))).
  assert (new <> old) as Hne by congruence.
  rewrite (close_steady k1 old d Hk) by (cbn; by rewrite lookup_insert_ne). cbn [snd].
  set (k2 := with_fds k1 (delete old (k_fds k1))).
  assert (forall fd, fd <> old -> fd <> new -> k_fds k2 !! fd = k_fds k !! fd) as Hk2.
  { intros fd H1 H2. cbn. by rewrite lookup_delete_ne, lookup_insert_ne by done. }
  assert (k_fds k2 !! new = Some (mk_descriptor (d_file d) true)) as Hk2n by (cbn; by rewrite lookup_delete_ne, lookup_insert_eq).
  assert (forall fd, fd ∈ descriptors rest -> fd <> old /\ fd <> new) as Hdiff.
  { intros fd Hin. split; intros ->; [done|]. destruct (Ho' new Hin). congruence. }
  destruct (Hrest k2 Hk Hn) with (input1 := in_set_fd input (Some new))
    as (error & rest' & fds' & -> & R1 & R2 & R3 & R4 & R5).
  { intros fd Hin. destruct (Hdiff fd Hin). rewrite Hk2 by done. by apply Ho'. }
  { intros fd E. injection E as <-. rewrite Hk2n. split; [|by eexists]. intros Hin. by destruct (Hdiff new Hin). }
  exists error, ((id, in_set_fd input (Some new)) :: rest'), fds'. rewrite !descriptors_cons. cbn [snd in_set_fd in_fd].
  rewrite Ein. split_and!.
  - done.
  - constructor.
    + split_and!; [done|done|]. cbn [snd]. etransitivity; [exact R2|]. unfold file_behind. cbn [in_set_fd in_fd].
      rewrite Ein. cbn. rewrite lookup_delete_ne, lookup_insert_eq, Ed by done. done.
    + eapply relocated_base; [exact R1|done|]. intros fd Hin. destruct (Hdiff fd Hin). by apply Hk2.
  - intros fd [H1 H2]%not_elem_of_cons [H3 H4]%not_elem_of_cons. rewrite R3 by done. by apply Hk2.
  - intros fd [->|Hin]%elem_of_cons; [auto|]. destruct (R4 fd Hin) as [?|[E1 E2]]; [set_solver|].
    destruct (decide (fd = old)) as [->|Hfo]; [set_solver|]. right. split; [|done].
    rewrite <- Hk2; [done|done|]. intros ->. congruence.
  - intros He fd [->|Hin]%elem_of_cons; [done|by apply R5].
Qed.
End Reserve.

(** ** Main theorems *)

(** C29: one read takes one physical line and nothing after it, with any hooks.
    From a string or a descriptor, whatever the wait hook answers, the end-of-file
    hook asks for and calls are interrupted, the call returns the next line with
    its newline, or the unterminated rest, or the end when nothing is left; the
    bytes after the newline are unread, start and end positions are exact, and
    the line hook sees the line once.  A read that the wait hook or a signal ends
    early gives up the bytes of the line that it has read, no newline among them,
    reports the position behind them and goes on at the next line, or keeps the
    error of the hook; without a wait hook, or while it finds the descriptor ready
    and no call is interrupted, every read is completed. *)
Theorem input_line_exact (input : csh_input) (k : kernel) (text : str)
    (Hr : attached input k) (Hp : pending input) (Hu : unread input k = text)
    (Hroom : room (in_position input) (length text)) (Hlen : Z.of_nat (length text) < SIZE_MAX - 2) :
  exists r input' k', csh_input_read_line input k = Some (r, input', k') /\
    line_read input [] (in_position input) text r input' k' /\ (undisturbed input k -> completed r).
Proof. by apply read_line_run. Qed.

(** Reading to the end loses nothing.  The lines that repeated calls
    return, put together again, are the bytes of the source; each is one
    physical line and all but the last end with a newline. *)
Theorem input_lines_roundtrip (input : csh_input) (k : kernel) (text : str)
    (Hr : attached input k) (Hp : pending input) (Hw : in_wait input = None) (Hu : unread input k = text)
    (Hroom : room (in_position input) (length text)) (Hlen : Z.of_nat (length text) < SIZE_MAX - 2) :
  exists ls, read_all (S (length text)) input k = Some ls /\ concat ls = text /\ Forall one_line ls /\
    Forall (fun l => terminated l = true) (removelast ls).
Proof. eapply read_all_run; try done; lia. Qed.

(** Reserving operands hides no input and changes none.  When
    [csh_input_reserve_begin] succeeds, no source is on a descriptor that a
    scope, the new one or an enclosing one, reserves; every source still reads
    the same open file, at the same place; and no descriptor of anything else
    is opened, closed or replaced. *)
Theorem input_reserve_correct (fds : list Z) (s s' : input_state) (Hk : k_faults (is_kernel s) = [])
    (Hn : NoDup (descriptors (active_inputs s)))
    (Ho : forall fd, fd ∈ descriptors (active_inputs s) -> is_Some (k_fds (is_kernel s) !! fd))
    (Hb : csh_input_reserve_begin fds s = (None, s')) :
  reservations s' = fds :: reservations s /\
  (forall fd, fd ∈ descriptors (active_inputs s') -> csh_input_descriptor_reserved (fds :: reservations s) fd = false) /\
  Forall2 (relocated (is_kernel s) (is_kernel s')) (active_inputs s) (active_inputs s') /\
  k_files (is_kernel s') = k_files (is_kernel s) /\
  (forall fd, fd ∉ descriptors (active_inputs s) -> fd ∉ descriptors (active_inputs s') ->
     k_fds (is_kernel s') !! fd = k_fds (is_kernel s) !! fd).
Proof.
  unfold csh_input_reserve_begin in Hb.
  destruct (relocate_inputs_run (fds :: reservations s) (active_inputs s) (is_kernel s) Hk Hn Ho)
    as (error & inputs' & fds' & E & R1 & R2 & R3 & R4).
  rewrite E in Hb. injection Hb as -> <-. cbn. split_and!; [done|by apply R4|done|done|done].
Qed.

(** ** Concrete sources *)

Definition text_input (text : str) : csh_input :=
  mk_input (bs "-c") (Some text) None 0 start_position false no_error None None (Some []).

(** A descriptor on a file of two lines, with an interruption to come. *)
Definition file_kernel (faults : list (option fault)) : kernel :=
  mk_kernel {[ 10 := mk_descriptor 5 true ]}
    {[ 5 := mk_description O_RDONLY S_IFREG false (bs "ab" ++ [10] ++ bs "cd") 0 ]} 6 32 faults [] [] 0.

Definition file_input : csh_input :=
  mk_input (bs "script") None (Some 10) 0 start_position false no_error None None None.

(** The input of an interactive shell: a wait hook that finds the descriptor
    ready, an end-of-file hook and a line hook; the third read is interrupted. *)
Definition hooked_input : csh_input :=
  mk_input (bs "stdin") None (Some 10) 0 start_position false no_error (Some [None; None; None; Some EINTR]) (Some [true]) (Some []).
Definition hooked_kernel : kernel := file_kernel [None; None; Some (mk_fault EINTR false)].

Lemma hooked_attached : attached hooked_input hooked_kernel.
Proof.
  split; [by repeat constructor|]. split; [done|]. exists 10, 5. eexists. split; [done|]. vm_compute. reflexivity.
Qed.

(** Two bytes are read, then the line is given up. *)
Lemma input_line_exact_witness :
  exists e input' k', csh_input_read_line hooked_input hooked_kernel = Some (CSH_INPUT_INTERRUPTED e, input', k') /\
    line_read hooked_input [] start_position (bs "ab" ++ [10] ++ bs "cd") (CSH_INPUT_INTERRUPTED e) input' k' /\
    in_position input' = mk_position 2 2 1.
Proof.
  destruct (input_line_exact hooked_input hooked_kernel (bs "ab" ++ [10] ++ bs "cd") hooked_attached) as (r & input' & k' & E & H & _).
  - repeat split.
  - vm_compute. reflexivity.
  - repeat split; vm_compute; (reflexivity || discriminate).
  - vm_compute. reflexivity.
  - assert (exists e, r = CSH_INPUT_INTERRUPTED e /\ in_position input' = mk_position 2 2 1) as (e & -> & Hpos).
    { vm_compute in E. injection E as <- <- _. by eexists. }
    exists e, input', k'. split; [exact E|]. by split.
Defined.

Lemma input_lines_roundtrip_witness :
  exists ls, read_all 6 (text_input (bs "ab" ++ [10] ++ bs "cd")) (file_kernel []) = Some ls /\
    concat ls = bs "ab" ++ [10] ++ bs "cd" /\ Forall one_line ls /\
    Forall (fun l => terminated l = true) (removelast ls).
Proof.
  apply (input_lines_roundtrip (text_input (bs "ab" ++ [10] ++ bs "cd")) (file_kernel []) (bs "ab" ++ [10] ++ bs "cd")).
  - split; [apply Forall_nil_2|]. split; [reflexivity|exact I].
  - repeat split.
  - reflexivity.
  - reflexivity.
  - repeat split; vm_compute; (reflexivity || discriminate).
  - vm_compute. reflexivity.
Defined.

(** Descriptor 10 becomes an operand. *)
Definition one_source : input_state := mk_istate (file_kernel []) [(0%nat, file_input)] 1 [].

Lemma input_reserve_correct_witness :
  csh_input_descriptor_reserved [[10; 11]] 12 = false /\
  descriptors (active_inputs (csh_input_reserve_begin [10; 11] one_source).2) = [12].
Proof.
  destruct (input_reserve_correct [10; 11] one_source (csh_input_reserve_begin [10; 11] one_source).2) as (_ & H & _).
  - reflexivity.
  - apply NoDup_singleton.
  - intros fd Hin. apply list_elem_of_singleton in Hin as ->. eexists. reflexivity.
  - vm_compute. reflexivity.
  - assert (descriptors (active_inputs (csh_input_reserve_begin [10; 11] one_source).2) = [12]) as E by (vm_compute; reflexivity).
    rewrite E in *. split; [|reflexivity]. apply H. apply list_elem_of_singleton. reflexivity.
Defined.
