(* ===== verification/Invocation.v ===== *)
(** * Invocation (src/invocation.c)

    The command line of the shell: options, the source of commands, the
    positional parameters.  [argv] is the list of its strings, [None] for a null
    pointer; an argument index is a position in it. *)

From stdpp Require Import base list gmap strings.
From S2P Require Import Prelude Output Options State Descriptors Input.

#[export] Instance csh_input_mode_eq_dec : EqDecision csh_input_mode.
Proof. solve_decision. Defined.

(** [input] is the identity of the input that is owned. *)
Record csh_invocation : Type := mk_invocation {
  iv_input : nat; iv_mode : csh_input_mode; iv_interactive : bool;
  iv_options : Z; iv_option_mask : Z; iv_arg0 : str; iv_arguments : list str }.

Definition invocation_error (text : str) (number : errno) (code : Z) (index : nat) : csh_error :=
  mk_error (Some text) [] false number code (Z.of_nat index) no_position.

(** The flags that the option loop sets. *)
Record parsed : Type := mk_parsed {
  pa_options : Z; pa_option_mask : Z; pa_command_string : bool; pa_standard_input : bool; pa_force_interactive : bool }.

Definition set_bit (p : parsed) (bit : Z) (enable : bool) : parsed :=
  mk_parsed (if enable then Z.lor (pa_options p) bit else Z.land (pa_options p) (unot bit))
    (Z.lor (pa_option_mask p) bit) (pa_command_string p) (pa_standard_input p) (pa_force_interactive p).

Definition unsupported (operand : nat) : csh_error :=
  invocation_error (bs "unsupported shell option") ENONE 2 operand.

(** The letters of one option argument from [letters] on; the flags and the
    operand reached, which moves when ["-o"] takes the next argument. *)
Fixpoint letter_loop (letters : str) (enable : bool) (argv : list str) (operand : nat) (p : parsed)
    : csh_error + parsed * nat :=
  match letters with
  | [] => inr (p, operand)
  | c :: rest =>
      if c =? ch "o" then
        if bool_decide (rest = []) then
          match argv !! S operand with
          | None => inl (invocation_error (bs "-o requires an option name") ENONE 2 operand)
          | Some name =>
              let bit := csh_option_name name in
              if bit =? 0 then inl (unsupported (S operand)) else inr (set_bit p bit enable, S operand)
          end
        else
          let bit := csh_option_name rest in
          if bit =? 0 then inl (unsupported operand) else inr (set_bit p bit enable, operand)
      else
      let bit := csh_option_letter c in
      if negb (bit =? 0) then letter_loop rest enable argv operand (set_bit p bit enable)
      else if negb enable then inl (unsupported operand)
      else if c =? ch "c" then
        letter_loop rest enable argv operand
          (mk_parsed (pa_options p) (pa_option_mask p) true (pa_standard_input p) (pa_force_interactive p))
      else if c =? ch "s" then
        letter_loop rest enable argv operand
          (mk_parsed (pa_options p) (pa_option_mask p) (pa_command_string p) true (pa_force_interactive p))
      else if c =? ch "i" then
        letter_loop rest enable argv operand
          (mk_parsed (pa_options p) (pa_option_mask p) (pa_command_string p) (pa_standard_input p) true)
      else inl (unsupported operand)
  end.

(** [while (operand < argc)]: the flags and the first operand. *)
Fixpoint option_loop (fuel : nat) (argv : list str) (operand : nat) (p : parsed) : csh_error + parsed * nat :=
  match fuel with
  | O => inr (p, operand)
  | S f =>
      match argv !! operand with
      | None => inr (p, operand)
      | Some option =>
          if str_eqb option (bs "--") || str_eqb option (bs "-") then inr (p, S operand) else
          match option with
          | sign :: ((_ :: _) as letters) =>
              if negb (sign =? ch "-") && negb (sign =? ch "+") then inr (p, operand) else
              match letter_loop letters (sign =? ch "-") argv operand p with
              | inl error => inl error
              | inr (p, operand) =>
                  if pa_command_string p && pa_standard_input p
                  then inl (invocation_error (bs "-c and -s cannot be combined") ENONE 2 operand)
                  else option_loop f argv (S operand) p
              end
          | _ => inr (p, operand)
          end
      end
  end.

(** The source and the parameters that the operands select. *)
Record selection : Type := mk_selection {
  sl_mode : csh_input_mode; sl_source : nat; sl_arg0 : str; sl_operand : nat }.

Definition select_source (argv : list str) (arg0 : str) (p : parsed) (operand : nat) : csh_error + selection :=
  if pa_command_string p then
    if (operand =? length argv)%nat then inl (invocation_error (bs "-c requires a command string") ENONE 2 0) else
    match argv !! S operand with
    | Some name => inr (mk_selection CSH_MODE_STRING operand name (S (S operand)))
    | None => inr (mk_selection CSH_MODE_STRING operand arg0 (S operand))
    end
  else if pa_standard_input p || (operand =? length argv)%nat then
    inr (mk_selection CSH_MODE_STDIN 0 arg0 operand)
  else inr (mk_selection CSH_MODE_FILE operand (default [] (argv !! operand)) (S operand)).

(** [copy_string]: the length is below [SIZE_MAX] and the allocation succeeds. *)
Definition copy_string (text : str) (k : kernel) : bool * kernel :=
  if slen text =? SIZE_MAX then (false, k) else sys_malloc k.

Fixpoint copy_strings (texts : list str) (k : kernel) : bool * kernel :=
  match texts with
  | [] => (true, k)
  | t :: rest => let '(ok, k) := copy_string t k in if ok then copy_strings rest k else (false, k)
  end.

Definition isatty `{Disk} (k : kernel) (fd : Z) : bool :=
  match k_fds k !! fd with Some d => disk_tty (d_file d) | None => false end.

(** The position of the first null pointer. *)
Fixpoint first_null (argv : list (option str)) (index : nat) : option nat :=
  match argv with
  | [] => None
  | None :: _ => Some index
  | Some _ :: rest => first_null rest (S index)
  end.

Definition strings_of (argv : list (option str)) : list str := default [] <$> argv.

Definition csh_invocation_destroy (input : option nat) (s : input_state) : input_state :=
  match input with Some id => csh_input_destroy id s | None => s end.

Definition csh_invocation_parse `{Disk} (args : list (option str)) (stdin_fd stderr_fd : Z) (s : input_state)
    : (csh_error + csh_invocation) * input_state :=
  if (length args <? 1)%nat then (inl (invocation_error (bs "invalid invocation arguments") EINVAL 2 0), s) else
  match first_null args 0 with
  | Some index => (inl (invocation_error (bs "missing invocation argument") EINVAL 2 index), s)
  | None =>
      let argv := strings_of args in
      match option_loop (length argv) argv 1 (mk_parsed 0 0 false false false) with
      | inl error => (inl error, s)
      | inr (p, operand) =>
          match select_source argv (default [] (head argv)) p operand with
          | inl error => (inl error, s)
          | inr sel =>
              let nomem k := (inl (invocation_error (bs "cannot allocate invocation") ENOMEM 1 0), in_with_kernel s k) in
              let '(ok, k) := copy_string (sl_arg0 sel) (is_kernel s) in
              if negb ok then nomem k else
              let arguments := drop (sl_operand sel) argv in
              if Z.of_nat (length arguments) >? SIZE_MAX / 8 - 1 then nomem k else
              let '(ok, k) := sys_malloc k in
              if negb ok then nomem k else
              let '(ok, k) := copy_strings arguments k in
              if negb ok then nomem k else
              let s := in_with_kernel s k in
              let source := default [] (argv !! sl_source sel) in
              let '(result, s) :=
                match sl_mode sel with
                | CSH_MODE_STRING => csh_input_from_string (Some source) (Some (bs "-c")) s
                | CSH_MODE_FILE => csh_input_from_file (Some source) s
                | CSH_MODE_STDIN => csh_input_from_fd stdin_fd (Some (bs "stdin")) s
                end in
              match result with
              | inl e => (inl (mk_error (message e) (detail e) (reported e) (system_errno e) (status e)
                                 (Z.of_nat (sl_source sel)) (position e)), s)
              | inr id =>
                  let '(failed, k) :=
                    match sl_mode sel with
                    | CSH_MODE_STDIN => (None, is_kernel s)
                    | _ => csh_input_prepare_stdin stdin_fd (is_kernel s)
                    end in
                  let s := in_with_kernel s k in
                  match failed with
                  | Some e => (inl e, csh_invocation_destroy (Some id) s)
                  | None =>
                      let interactive := pa_force_interactive p ||
                        (bool_decide (sl_mode sel = CSH_MODE_STDIN) && isatty k stdin_fd && isatty k stderr_fd) in
                      (inr (mk_invocation id (sl_mode sel) interactive (pa_options p) (pa_option_mask p)
                              (sl_arg0 sel) arguments), s)
                  end
              end
          end
      end
  end.

(** [None] when no prompt is due. *)
Definition csh_invocation_prompt (invocation : option csh_invocation) (continuation : bool) (ps1 ps2 : str) : option str :=
  match invocation with
  | Some iv => if negb (iv_interactive iv) || negb (bool_decide (iv_mode iv = CSH_MODE_STDIN)) then None
               else Some (if continuation then ps2 else ps1)
  | None => None
  end.

(** ** Options on the command line *)

(** An option and whether it is turned on. *)
Abbreviation setting := (bool * option_entry)%type.

Definition print_setting (x : setting) : list str :=
  [if fst x then bs "-o" else bs "+o"; opt_name (snd x)].
Definition print_settings (l : list setting) : list str := flat_map print_setting l.

Definition listed (x : setting) : Prop := snd x ∈ CSH_OPTION_LIST.

(** The last word on an option. *)
Definition chosen (l : list setting) (e : option_entry) : option bool :=
  foldl (fun acc x => if opt_bit (snd x) =? opt_bit e then Some (fst x) else acc) None l.

Definition apply_settings (p : parsed) (l : list setting) : parsed :=
  foldl (fun p x => set_bit p (opt_bit (snd x)) (fst x)) p l.

(** Every option has one bit and is found by its name. *)
Lemma option_list_bits : Forall (fun e => csh_option_name (opt_name e) = opt_bit e /\
  exists i, 0 <= i < 32 /\ opt_bit e = 2 ^ i) CSH_OPTION_LIST.
Proof.
  repeat (apply Forall_cons; split; [split; [vm_compute; reflexivity|]|]); try apply Forall_nil_2.
  all: match goal with |- exists i, _ /\ opt_bit (mk_option ?b _ _) = _ => exists (Z.log2 b) end; vm_compute; auto.
  all: repeat split; try discriminate; reflexivity.
Qed.

Lemma listed_bits x : listed x -> csh_option_name (opt_name (snd x)) = opt_bit (snd x) /\
  exists i, 0 <= i < 32 /\ opt_bit (snd x) = 2 ^ i.
Proof. intros Hx. pose proof option_list_bits as H. rewrite Forall_forall in H. by apply H. Qed.

Lemma opt_on_testbit o i : 0 <= i -> opt_on o (2 ^ i) = Z.testbit o i.
Proof.
  intros Hi. unfold opt_on.
  assert (Z.land o (2 ^ i) = if Z.testbit o i then 2 ^ i else 0) as ->.
  { apply Z.bits_inj'. intros n Hn. rewrite Z.land_spec, Z.pow2_bits_eqb by done.
    destruct (Z.eqb_spec i n) as [->|Hne].
    - destruct (Z.testbit o n) eqn:E; [by rewrite Z.pow2_bits_true|by rewrite Z.bits_0].
    - rewrite andb_false_r. destruct (Z.testbit o i); [by rewrite Z.pow2_bits_false by lia|by rewrite Z.bits_0]. }
  destruct (Z.testbit o i); [|done]. apply negb_true_iff, Z.eqb_neq. apply Z.pow_nonzero; lia.
Qed.

Lemma set_bit_options p i j enable : 0 <= i < 32 -> 0 <= j < 32 ->
  opt_on (pa_options (set_bit p (2 ^ j) enable)) (2 ^ i) = if j =? i then enable else opt_on (pa_options p) (2 ^ i).
Proof.
  intros Hi Hj. rewrite !opt_on_testbit by lia. unfold set_bit. cbn [pa_options]. destruct enable.
  - rewrite Z.lor_spec, Z.pow2_bits_eqb by lia. destruct (j =? i); [apply orb_true_r|apply orb_false_r].
  - rewrite Z.land_spec. unfold unot. rewrite Z.lxor_spec, Z.pow2_bits_eqb by lia.
    change (2 ^ 32 - 1) with (Z.ones 32). rewrite Z.ones_spec_low by lia.
    destruct (j =? i); [apply andb_false_r|apply andb_true_r].
Qed.

Lemma set_bit_mask p i j enable : 0 <= i < 32 -> 0 <= j < 32 ->
  opt_on (pa_option_mask (set_bit p (2 ^ j) enable)) (2 ^ i) = (j =? i) || opt_on (pa_option_mask p) (2 ^ i).
Proof.
  intros Hi Hj. rewrite !opt_on_testbit by lia. unfold set_bit. cbn [pa_option_mask].
  rewrite Z.lor_spec, Z.pow2_bits_eqb by lia. apply orb_comm.
Qed.

Lemma pow2_eqb i j : 0 <= i -> 0 <= j -> (2 ^ j =? 2 ^ i) = (j =? i).
Proof.
  intros Hi Hj. destruct (Z.eqb_spec j i) as [->|Hne]; [apply Z.eqb_refl|]. apply Z.eqb_neq.
  intros E. apply Hne. apply (f_equal Z.log2) in E. by rewrite !Z.log2_pow2 in E.
Qed.

(** The bits after the settings are the last words on the options. *)
Lemma apply_settings_spec l e : Forall listed l -> e ∈ CSH_OPTION_LIST -> forall p acc,
  (forall b, acc = Some b -> opt_on (pa_options p) (opt_bit e) = b) ->
  (acc = None -> opt_on (pa_options p) (opt_bit e) = false) ->
  opt_on (pa_option_mask p) (opt_bit e) = bool_decide (acc <> None) ->
  let last := foldl (fun acc x => if opt_bit (snd x) =? opt_bit e then Some (fst x) else acc) acc l in
  opt_on (pa_options (apply_settings p l)) (opt_bit e) = default false last /\
  opt_on (pa_option_mask (apply_settings p l)) (opt_bit e) = bool_decide (last <> None).
Proof.
  intros Hl He. destruct (listed_bits (true, e) He) as (_ & i & Hi & Ei). cbn [snd] in Ei.
  induction Hl as [|x l Hx Hl IH]; intros p acc H1 H2 H3; cbn [foldl apply_settings].
  { split; [|done]. destruct acc as [b|]; cbn; auto. }
  destruct (listed_bits x Hx) as (_ & j & Hj & Ej). apply IH.
  - intros b E. rewrite Ei, Ej in *. rewrite set_bit_options by done. rewrite pow2_eqb in E by lia.
    destruct (j =? i); [congruence|]. by apply H1.
  - intros E. rewrite Ei, Ej in *. rewrite set_bit_options by done. rewrite pow2_eqb in E by lia.
    destruct (j =? i); [done|]. by apply H2.
  - rewrite Ei, Ej in *. rewrite set_bit_mask by done. rewrite pow2_eqb by lia. destruct (j =? i); [|done].
    by rewrite bool_decide_eq_true_2.
Qed.

(** The settings are read one after the other. *)
Lemma option_loop_settings l : forall argv pre rest p f, Forall listed l ->
  argv = pre ++ print_settings l ++ rest -> pa_command_string p && pa_standard_input p = false ->
  option_loop (length l + f) argv (length pre) p =
  option_loop f argv (length pre + 2 * length l) (apply_settings p l).
Proof.
  induction l as [|x l IH]; intros argv pre rest p f Hl Ea Hp.
  { cbn. by rewrite Nat.add_0_r. }
  apply Forall_cons in Hl as [Hx Hl]. destruct (listed_bits x Hx) as (Hname & i & Hi & Ei).
  cbn [length plus option_loop]. cbn [print_settings flat_map print_setting app] in Ea.
  assert (argv !! length pre = Some (if fst x then bs "-o" else bs "+o")) as ->.
  { subst argv. rewrite list_lookup_middle; done. }
  assert (argv !! S (length pre) = Some (opt_name (snd x))) as Hnext.
  { subst argv. rewrite lookup_app_r by lia. by replace (S (length pre) - length pre)%nat with 1%nat by lia. }
  assert (letter_loop (bs "o") (fst x) argv (length pre) p = inr (set_bit p (opt_bit (snd x)) (fst x), S (length pre))) as Hloop.
  { cbn [letter_loop]. rewrite bool_decide_eq_true_2 by done. rewrite Hnext, Hname, Ei.
    replace (2 ^ i =? 0) with false by (symmetry; apply Z.eqb_neq, Z.pow_nonzero; lia). done. }
  assert ((pre ++ [if fst x then bs "-o" else bs "+o"; opt_name (snd x)]) ++ print_settings l ++ rest = argv) as Ea'.
  { subst argv. rewrite <- app_assoc. done. }
  pose proof (IH argv _ rest (set_bit p (opt_bit (snd x)) (fst x)) f Hl (eq_sym Ea') Hp) as IH'.
  rewrite length_app in IH'. cbn [length] in IH'.
  cbn [apply_settings foldl]. fold (apply_settings (set_bit p (opt_bit (snd x)) (fst x)) l).
  replace (length pre + 2 * S (length l))%nat with (length pre + 2 + 2 * length l)%nat by lia.
  rewrite <- IH'. replace (length pre + 2)%nat with (S (S (length pre))) by lia.
  destruct (fst x) eqn:Efst; (replace (str_eqb _ _ || str_eqb _ _) with false by (vm_compute; reflexivity));
    cbn [Z.eqb Pos.eqb negb andb]; rewrite Hloop; cbn [set_bit pa_command_string pa_standard_input]; by rewrite Hp.
Qed.
