(* ===== verification/InvocationTheorems.v ===== *)
(** * The command line is parsed exactly

    Printing options, a command string, a name and arguments and parsing the
    result gives them back, with the last word on every option; a failing parse
    leaves no input and no descriptor behind. *)

From stdpp Require Import base list gmap strings.
From S2P Require Import Prelude Output Options State Descriptors Input InputTheorems Invocation.

(** ** Allocation *)

Lemma malloc_calm_kernel k : k_alloc k = [] -> sys_malloc k = (true, k).
Proof. unfold sys_malloc. by intros ->. Qed.

Lemma copy_strings_run texts k : k_alloc k = [] -> Forall (fun t => slen t < SIZE_MAX) texts ->
  copy_strings texts k = (true, k).
Proof.
  intros Ha. induction 1 as [|t texts Ht Hts IH]; [done|]. cbn [copy_strings]. unfold copy_string.
  rewrite (proj2 (Z.eqb_neq _ _)) by lia. by rewrite malloc_calm_kernel.
Qed.

Lemma malloc_steady k ok k' : sys_malloc k = (ok, k') -> steady_kernel k ->
  steady_kernel k' /\ k_fds k' = k_fds k /\ k_files k' = k_files k /\ k_limit k' = k_limit k.
Proof. unfold sys_malloc. destruct (k_alloc k); intros [= <- <-]; done. Qed.

Lemma copy_string_steady t k ok k' : copy_string t k = (ok, k') -> steady_kernel k ->
  steady_kernel k' /\ k_fds k' = k_fds k.
Proof.
  unfold copy_string. destruct (_ =? _); [by intros [= <- <-]|]. intros E Hk.
  destruct (malloc_steady _ _ _ E Hk) as (? & ? & _). done.
Qed.

Lemma copy_strings_steady texts : forall k ok k', copy_strings texts k = (ok, k') -> steady_kernel k ->
  steady_kernel k' /\ k_fds k' = k_fds k.
Proof.
  induction texts as [|t texts IH]; intros k ok k'; cbn [copy_strings]; [by intros [= <- <-]|].
  destruct (copy_string t k) as [ok1 k1] eqn:E. intros E2 Hk. destruct (copy_string_steady _ _ _ _ E Hk) as [H1 H2].
  destruct ok1; [|by injection E2 as <- <-]. destruct (IH _ _ _ E2 H1). split; [done|congruence].
Qed.

(** ** Standard input *)

Lemma sys_steady {A} (f : kernel -> errno + (A * kernel)) k : steady_kernel k ->
  sys f k = match f k with inl e => (inl e, k) | inr (a, k2) => (inr a, k2) end.
Proof. intros Hk. unfold sys, pop_fault. by rewrite Hk. Qed.

Lemma retry_steady {A} (m : K A) k : steady_kernel k -> retry m k = m k.
Proof. intros Hk. unfold retry. by rewrite Hk. Qed.

Section Standard.
Context `{Disk}.

Lemma prepare_steady fd k : steady_kernel k -> exists k',
  csh_input_prepare_stdin fd k = (None, k') /\ steady_kernel k' /\ k_fds k' = k_fds k /\ k_alloc k' = k_alloc k.
Proof.
  intros Hk. unfold csh_input_prepare_stdin, sys_fstat, sys_getfl, sys_setblock. rewrite sys_steady by done.
  destruct (file_of k fd) as [[i f]|] eqn:E; [|eauto]. rewrite sys_steady by done. rewrite E.
  destruct (ds_nonblock f && _); [|eauto]. rewrite sys_steady by done. rewrite E. eauto.
Qed.

(** ** Inputs that are made and given up *)

(** No identity at or above the next one is in use. *)
Definition fresh_ids (s : input_state) : Prop := Forall (fun p => (fst p < is_next s)%nat) (active_inputs s).

(** Nothing is left of a failing call. *)
Definition clean (s s' : input_state) : Prop :=
  active_inputs s' = active_inputs s /\ k_fds (is_kernel s') = k_fds (is_kernel s).

Lemma find_fresh s input k r : find_input (mk_istate k ((is_next s, input) :: active_inputs s) (S (is_next s)) r) (is_next s) = Some input.
Proof. unfold find_input. cbn. by rewrite Nat.eqb_refl. Qed.

Lemma filter_fresh s : fresh_ids s ->
  List.filter (fun p : nat * csh_input => negb (fst p =? is_next s)%nat) (active_inputs s) = active_inputs s.
Proof.
  unfold fresh_ids. generalize (is_next s) as n. induction (active_inputs s) as [|[id i] l IH]; intros n Hf; [done|].
  apply Forall_cons in Hf as [H1 H2]. cbn [List.filter fst] in *. rewrite (proj2 (Nat.eqb_neq id n)) by lia.
  cbn [negb]. by rewrite IH.
Qed.

Lemma update_fresh s input input' : fresh_ids s -> forall k r,
  update_input (mk_istate k ((is_next s, input) :: active_inputs s) (S (is_next s)) r) (is_next s) input' =
  mk_istate k ((is_next s, input') :: active_inputs s) (S (is_next s)) r.
Proof.
  intros Hf k r. unfold update_input. cbn. rewrite Nat.eqb_refl. f_equal. f_equal.
  unfold fresh_ids in Hf. revert Hf. generalize (is_next s) as n. clear k r.
  induction (active_inputs s) as [|[id i] l IH]; intros n Hf; [done|]. apply Forall_cons in Hf as [H1 H2]. cbn in *.
  rewrite (proj2 (Nat.eqb_neq id n)) by lia. by rewrite IH.
Qed.

(** Giving up an input that holds no descriptor. *)
Lemma destroy_fresh s input k r : fresh_ids s -> in_fd input = None ->
  csh_input_destroy (is_next s) (mk_istate k ((is_next s, input) :: active_inputs s) (S (is_next s)) r) =
  mk_istate k (active_inputs s) (S (is_next s)) r.
Proof.
  intros Hf Hfd. unfold csh_input_destroy. rewrite find_fresh, Hfd. cbn. rewrite Nat.eqb_refl. cbn [negb].
  by rewrite filter_fresh.
Qed.

Lemma attach_kernel id fd s : is_kernel (attach_fd id fd s) = is_kernel s.
Proof. unfold attach_fd. by destruct (find_input s id). Qed.

Lemma allocate_cases name s : steady_kernel (is_kernel s) ->
  exists k, steady_kernel k /\ k_fds k = k_fds (is_kernel s) /\
  ((exists e, allocate_input name s = (inl e, in_with_kernel s k)) \/
   allocate_input name s = (inr (is_next s), mk_istate k
     ((is_next s, mk_input name None None 0 start_position false no_error None None None) :: active_inputs s)
     (S (is_next s)) (reservations s))).
Proof.
  intros Hk. unfold allocate_input. destruct (sys_malloc (is_kernel s)) as [ok k1] eqn:E1.
  destruct (malloc_steady _ _ _ E1 Hk) as (S1 & F1 & _). destruct ok; cbn [negb]; [|exists k1; eauto].
  destruct (sys_malloc k1) as [ok k2] eqn:E2. destruct (malloc_steady _ _ _ E2 S1) as (S2 & F2 & _).
  exists k2. split; [done|]. split; [congruence|]. destruct ok; cbn [negb]; eauto.
Qed.

Lemma string_clean text name s e s' : steady_kernel (is_kernel s) -> fresh_ids s ->
  csh_input_from_string text name s = (inl e, s') -> clean s s'.
Proof.
  intros Hk Hf. unfold csh_input_from_string. destruct text as [text|]; [|by intros [= _ <-]].
  destruct name as [name|]; [|by intros [= _ <-]].
  destruct (allocate_cases name s Hk) as (k & Hk1 & E1 & [[e1 ->]| ->]); [by intros [= _ <-]|].
  cbn [is_kernel]. destruct (sys_malloc k) as [ok k2] eqn:E2. destruct (malloc_steady _ _ _ E2 Hk1) as (S2 & F2 & _).
  unfold in_with_kernel. cbn [active_inputs is_next reservations]. destruct ok; cbn [negb].
  - by rewrite find_fresh.
  - rewrite destroy_fresh by done. intros [= _ <-]. split; [done|]. cbn. congruence.
Qed.

Lemma fd_clean fd name s e s' : steady_kernel (is_kernel s) -> fresh_ids s ->
  csh_input_from_fd fd name s = (inl e, s') -> clean s s'.
Proof.
  intros Hk Hf. unfold csh_input_from_fd. destruct name as [name|]; [|by intros [= _ <-]].
  destruct (allocate_cases name s Hk) as (k & Hk1 & E1 & [[e1 ->]| ->]); [by intros [= _ <-]|].
  cbn [is_kernel]. unfold duplicate_fd. destruct (k_fds k !! fd) as [d|] eqn:Ed.
  - destruct (dupfd_steady k fd 10 d Hk1 Ed) as [[e1 ->]|(new & -> & En)].
    + unfold in_with_kernel. cbn [active_inputs is_next reservations]. rewrite destroy_fresh by done.
      intros [= _ <-]. split; [done|]. cbn. congruence.
    + match goal with |- context [csh_input_prepare_stdin new ?k0] => destruct (prepare_steady new k0) as (k' & E & _) end.
      { by rewrite attach_kernel. }
      by rewrite E.
  - rewrite retry_steady by done. unfold sys_dupfd. rewrite sys_steady by done. rewrite Ed.
    unfold in_with_kernel. cbn [active_inputs is_next reservations]. rewrite destroy_fresh by done.
    intros [= _ <-]. split; [done|]. cbn. congruence.
Qed.

Lemma file_clean path s e s' : steady_kernel (is_kernel s) -> fresh_ids s ->
  csh_input_from_file path s = (inl e, s') -> clean s s'.
Proof.
  intros Hk Hf. unfold csh_input_from_file. destruct path as [path|]; [|by intros [= _ <-]].
  destruct (allocate_cases path s Hk) as (k & Hk1 & E1 & [[e1 ->]| ->]); [by intros [= _ <-]|].
  cbn [is_kernel]. rewrite retry_steady by done. unfold sys_open. rewrite sys_steady by done.
  unfold in_with_kernel. cbn [active_inputs is_next reservations].
  destruct (disk_open (k_time k) path _) as [e1|ds].
  { rewrite destroy_fresh by done. intros [= _ <-]. split; [done|]. cbn. congruence. }
  destruct (lowest_free k 0) as [fd|] eqn:El.
  2:{ rewrite destroy_fresh by done. intros [= _ <-]. split; [done|]. cbn. congruence. }
  assert (k_fds k !! fd = None) as Hfree.
  { unfold lowest_free in El. apply find_some in El as [_ El]. by apply bool_decide_eq_true in El. }
  set (k2 := add_file (tick k) fd true ds).
  assert (steady_kernel k2) as Hk2 by exact Hk1.
  assert (k_fds k2 !! fd = Some (mk_descriptor (k_next k) true)) as Hfd by (cbn; by rewrite lookup_insert_eq).
  assert (forall k3, steady_kernel k3 -> k_fds k3 = k_fds k2 ->
    k_fds (sys_close fd k3).2 = k_fds (is_kernel s)) as Hclose.
  { intros k3 S3 E3. rewrite (close_steady k3 fd (mk_descriptor (k_next k) true)); [|done|by rewrite E3].
    cbn. rewrite E3. cbn. rewrite delete_insert_id by done. done. }
  assert (file_of k2 fd = Some (k_next k, ds)) as Hfile.
  { unfold file_of. rewrite Hfd. cbn. by rewrite lookup_insert_eq. }
  unfold sys_fstat. rewrite sys_steady by done. rewrite Hfile.
  assert (forall m : csh_error, (inl m : csh_error + nat,
      csh_input_destroy (is_next s) (mk_istate (sys_close fd k2).2
        ((is_next s, mk_input path None None 0 start_position false no_error None None None) :: active_inputs s)
        (S (is_next s)) (reservations s))) = (inl e, s') -> clean s s') as Hdone.
  { intros m. rewrite destroy_fresh by done. intros [= _ <-]. split; [done|]. cbn [is_kernel]. by apply Hclose. }
  unfold duplicate_fd.
  destruct (ds_kind ds); try (apply Hdone);
    destruct (dupfd_steady k2 fd 10 _ Hk2 Hfd) as [[e1 ->]|(new & -> & En)]; try (apply Hdone); done.
Qed.
End Standard.

Section Made.
Context `{Disk}.

Lemma update_kernel s id input : is_kernel (update_input s id input) = is_kernel s.
Proof. done. Qed.

Lemma string_steady text name s id s' : steady_kernel (is_kernel s) ->
  csh_input_from_string text name s = (inr id, s') -> steady_kernel (is_kernel s').
Proof.
  intros Hk. unfold csh_input_from_string. destruct text as [text|]; [|done]. destruct name as [name|]; [|done].
  destruct (allocate_cases name s Hk) as (k & Hk1 & _ & [[e1 ->]| ->]); [done|].
  cbn [is_kernel]. destruct (sys_malloc k) as [ok k2] eqn:E2. destruct (malloc_steady _ _ _ E2 Hk1) as (S2 & _).
  destruct ok; cbn [negb]; [|done]. destruct (find_input _ _); intros [= <- <-]; done.
Qed.

Lemma close_keeps k fd : steady_kernel k -> steady_kernel (sys_close fd k).2.
Proof. intros Hk. unfold sys_close, pop_fault. rewrite Hk. by destruct (k_fds k !! fd). Qed.

Lemma file_steady path s id s' : steady_kernel (is_kernel s) ->
  csh_input_from_file path s = (inr id, s') -> steady_kernel (is_kernel s').
Proof.
  intros Hk. unfold csh_input_from_file. destruct path as [path|]; [|done].
  destruct (allocate_cases path s Hk) as (k & Hk1 & _ & [[e1 ->]| ->]); [done|].
  cbn [is_kernel]. rewrite retry_steady by done. unfold sys_open. rewrite sys_steady by done.
  destruct (disk_open (k_time k) path _) as [e1|ds]; [done|]. destruct (lowest_free k 0) as [fd|]; [|done].
  set (k2 := add_file (tick k) fd true ds). assert (steady_kernel k2) as Hk2 by exact Hk1.
  assert (k_fds k2 !! fd = Some (mk_descriptor (k_next k) true)) as Hfd by (cbn; by rewrite lookup_insert_eq).
  unfold sys_fstat. rewrite sys_steady by done. destruct (file_of k2 fd) as [[i f]|]; [|done]. unfold duplicate_fd.
  destruct (dupfd_steady k2 fd 10 _ Hk2 Hfd) as [[e1 E]|(new & E & En)]; rewrite E;
    (destruct (ds_kind f); [|done| | |]); try done;
    intros [= <- <-]; rewrite attach_kernel; cbn [in_with_kernel is_kernel]; by apply close_keeps.
Qed.
End Made.

(** ** A printed command line *)

(** Options, [-c] or [-ic], and the operands after ["--"]. *)
Definition print_command (shell : str) (l : list setting) (force : bool) (command name : str) (args : list str) : list str :=
  shell :: print_settings l ++ (if force then bs "-ic" else bs "-c") :: bs "--" :: command :: name :: args.

Lemma first_null_strings (l : list str) n : first_null (Some <$> l) n = None.
Proof. revert n. induction l as [|x l IH]; intros n; [done|]. cbn. apply IH. Qed.

Lemma strings_of_some (l : list str) : strings_of (Some <$> l) = l.
Proof. unfold strings_of. rewrite <- list_fmap_compose. induction l as [|x l IH]; [done|]. cbn in *. by rewrite IH. Qed.

Lemma print_settings_length l : length (print_settings l) = (2 * length l)%nat.
Proof.
  induction l as [|x l IH]; [done|].
  change (print_settings (x :: l)) with (print_setting x ++ print_settings l). rewrite length_app, IH. cbn. lia.
Qed.

Lemma print_command_at shell l force command name args i :
  print_command shell l force command name args !! (1 + 2 * length l + i)%nat =
  ((if force then bs "-ic" else bs "-c") :: bs "--" :: command :: name :: args) !! i.
Proof.
  change (print_command shell l force command name args) with
    ([shell] ++ print_settings l ++ (if force then bs "-ic" else bs "-c") :: bs "--" :: command :: name :: args).
  rewrite lookup_app_r by (cbn; lia). cbn [length].
  rewrite lookup_app_r by (rewrite print_settings_length; lia). rewrite print_settings_length. f_equal. lia.
Qed.

Lemma print_command_options shell l force command name args : Forall listed l ->
  let argv := print_command shell l force command name args in
  let p := apply_settings (mk_parsed 0 0 false false false) l in
  option_loop (length argv) argv 1 (mk_parsed 0 0 false false false) =
  inr (mk_parsed (pa_options p) (pa_option_mask p) true false force, (3 + 2 * length l)%nat).
Proof.
  intros Hl. cbv zeta. set (argv := print_command shell l force command name args).
  assert (argv = [shell] ++ print_settings l ++ (if force then bs "-ic" else bs "-c") :: bs "--" :: command :: name :: args) as Ea by done.
  assert (exists f, length argv = length l + S (S f))%nat as [f ->].
  { rewrite Ea, !length_app, print_settings_length. cbn [length]. exists (length l + 3 + length args)%nat. lia. }
  pose proof (option_loop_settings l argv [shell] _ (mk_parsed 0 0 false false false) (S (S f)) Hl Ea eq_refl) as E.
  cbn [length] in E. rewrite E. clear E.
  set (p := apply_settings _ l).
  assert (pa_command_string p = false /\ pa_standard_input p = false /\ pa_force_interactive p = false) as (P1 & P2 & P3).
  { unfold p. clear. assert (forall q, pa_command_string q = false /\ pa_standard_input q = false /\ pa_force_interactive q = false ->
      pa_command_string (apply_settings q l) = false /\ pa_standard_input (apply_settings q l) = false /\
      pa_force_interactive (apply_settings q l) = false) as H; [|by apply H].
    induction l as [|x l IH]; intros q Hq; [done|]. cbn [apply_settings foldl]. by apply IH. }
  pose proof (print_command_at shell l force command name args) as Hat. fold argv in Hat.
  pose proof (Hat 0%nat) as H0. pose proof (Hat 1%nat) as H1. cbn [lookup list_lookup] in H0, H1.
  rewrite Nat.add_0_r in H0. replace (1 + 2 * length l + 1)%nat with (S (1 + 2 * length l)) in H1 by lia.
  cbn [option_loop]. rewrite H0. destruct force.
  - change (str_eqb (bs "-ic") (bs "--") || str_eqb (bs "-ic") (bs "-")) with false. cbv iota.
    cbn [letter_loop Z.eqb Pos.eqb negb andb]. change (csh_option_letter 105) with 0. change (csh_option_letter 99) with 0.
    cbn [Z.eqb negb]. cbn [pa_command_string pa_standard_input]. rewrite P2. cbn [andb]. rewrite H1.
    change (str_eqb (bs "--") (bs "--") || str_eqb (bs "--") (bs "-")) with true. cbv iota. done.
  - change (str_eqb (bs "-c") (bs "--") || str_eqb (bs "-c") (bs "-")) with false. cbv iota.
    cbn [letter_loop Z.eqb Pos.eqb negb andb]. change (csh_option_letter 99) with 0.
    cbn [Z.eqb negb]. cbn [pa_command_string pa_standard_input]. rewrite P2. cbn [andb]. rewrite H1.
    change (str_eqb (bs "--") (bs "--") || str_eqb (bs "--") (bs "-")) with true. cbv iota. by rewrite P3.
Qed.

(** A command line is read back.  The arguments printed for any list of
    named options, turned on or off in any order, a command string, a name and
    parameters parse to exactly these: each option has the value it was given
    last and is marked as selected when it was given at all, the source is the
    command string, and the parameters are in order. *)
Theorem invocation_roundtrip (D : Disk) (shell : str) (l : list setting) (force : bool) (command name : str)
    (args : list str) (fd1 fd2 : Z) (s : input_state)
    (Hl : Forall listed l) (Hk : k_faults (is_kernel s) = []) (Ha : k_alloc (is_kernel s) = []) (Hf : fresh_ids s)
    (Hname : slen name < SIZE_MAX) (Hargs : Forall (fun t => slen t < SIZE_MAX) args)
    (Hcount : Z.of_nat (length args) <= SIZE_MAX / 8 - 1) :
  exists iv s', csh_invocation_parse (Some <$> print_command shell l force command name args) fd1 fd2 s = (inr iv, s') /\
    iv_mode iv = CSH_MODE_STRING /\ iv_interactive iv = force /\ iv_arg0 iv = name /\ iv_arguments iv = args /\
    (forall e, e ∈ CSH_OPTION_LIST ->
       opt_on (iv_options iv) (opt_bit e) = default false (chosen l e) /\
       opt_on (iv_option_mask iv) (opt_bit e) = bool_decide (chosen l e <> None)) /\
    (in_text <$> find_input s' (iv_input iv)) = Some (Some command) /\
    k_fds (is_kernel s') = k_fds (is_kernel s).
Proof.
  unfold csh_invocation_parse. rewrite length_fmap, first_null_strings, strings_of_some.
  change (length (print_command shell l force command name args) <? 1)%nat with false. cbv iota zeta.
  rewrite print_command_options by done. set (p := apply_settings _ l). set (argv := print_command shell l force command name args).
  pose proof (print_command_at shell l force command name args) as Hat. fold argv in Hat.
  assert (length argv = 5 + 2 * length l + length args)%nat as Hlen.
  { unfold argv, print_command. cbn [length]. rewrite length_app, print_settings_length. cbn [length]. lia. }
  unfold select_source. cbn [pa_command_string]. rewrite (proj2 (Nat.eqb_neq _ _)) by (rewrite Hlen; lia).
  pose proof (Hat 3%nat) as H3. replace (1 + 2 * length l + 3)%nat with (S (3 + 2 * length l)) in H3 by lia.
  cbn [lookup list_lookup] in H3. rewrite H3. cbn [sl_mode sl_source sl_arg0 sl_operand].
  pose proof (Hat 2%nat) as H2. replace (1 + 2 * length l + 2)%nat with (3 + 2 * length l)%nat in H2 by lia.
  cbn [lookup list_lookup] in H2. rewrite H2.
  assert (drop (S (S (3 + 2 * length l))) argv = args) as ->.
  { unfold argv, print_command. change (S (S (3 + 2 * length l))) with (5 + 2 * length l)%nat.
    replace (5 + 2 * length l)%nat with (S (length (print_settings l) + 4)) by (rewrite print_settings_length; lia).
    cbn [drop]. rewrite <- drop_drop, drop_app_length. by destruct force. }
  unfold copy_string. rewrite (proj2 (Z.eqb_neq (slen name) SIZE_MAX)) by lia.
  rewrite malloc_calm_kernel by done. cbn [negb]. rewrite Z.gtb_ltb, (proj2 (Z.ltb_ge _ _)) by lia.
  rewrite malloc_calm_kernel by done. cbn [negb]. rewrite copy_strings_run by done. cbn [negb default from_option].
  unfold csh_input_from_string, allocate_input. cbn [is_kernel in_with_kernel]. rewrite !malloc_calm_kernel by done. cbn [negb].
  cbn [is_kernel active_inputs is_next reservations in_with_kernel]. rewrite malloc_calm_kernel by done. cbn [negb].
  unfold in_with_kernel. cbn [is_kernel active_inputs is_next reservations]. rewrite find_fresh, update_fresh by done.
  cbn [is_kernel active_inputs is_next reservations].
  destruct (prepare_steady fd1 (is_kernel s) Hk) as (k' & -> & Hk' & Hfds & _).
  do 2 eexists. split; [reflexivity|]. cbn [iv_mode iv_interactive iv_arg0 iv_arguments iv_options iv_option_mask iv_input pa_force_interactive].
  split_and!; [done|by destruct force|done|done| |by rewrite find_fresh|done].
  intros e He. unfold chosen. apply (apply_settings_spec l e Hl He (mk_parsed 0 0 false false false) None); done.
Qed.

(** A failing parse leaves nothing behind.  Whatever is wrong, with the
    arguments, the memory, the script or standard input, no input stays
    registered and no descriptor stays open. *)
Theorem invocation_failure_clean (D : Disk) (args : list (option str)) (fd1 fd2 : Z) (s s' : input_state) (e : csh_error)
    (Hk : k_faults (is_kernel s) = []) (Hf : fresh_ids s)
    (Hparse : csh_invocation_parse args fd1 fd2 s = (inl e, s')) :
  active_inputs s' = active_inputs s /\ k_fds (is_kernel s') = k_fds (is_kernel s).
Proof.
  change (clean s s'). revert Hparse. unfold csh_invocation_parse.
  assert (forall x, (inl x : csh_error + csh_invocation, s) = (inl e, s') -> clean s s') as Hsame by (by intros x [= _ <-]).
  destruct (_ <? 1)%nat; [apply Hsame|]. destruct (first_null args 0); [apply Hsame|]. cbv zeta.
  destruct (option_loop _ _ _ _) as [?|[p operand]]; [apply Hsame|].
  destruct (select_source _ _ _ _) as [?|sel]; [apply Hsame|].
  assert (forall k x, k_fds k = k_fds (is_kernel s) ->
    (inl x : csh_error + csh_invocation, in_with_kernel s k) = (inl e, s') -> clean s s') as Hmem.
  { intros k x E [= _ <-]. by split. }
  destruct (copy_string _ _) as [ok1 k1] eqn:E1. destruct (copy_string_steady _ _ _ _ E1 Hk) as [S1 F1].
  destruct ok1; cbn [negb]; [|by apply Hmem]. destruct (_ >? _); [by apply Hmem|].
  destruct (sys_malloc k1) as [ok2 k2] eqn:E2. destruct (malloc_steady _ _ _ E2 S1) as (S2 & F2 & _).
  destruct ok2; cbn [negb]; [|apply Hmem; congruence].
  destruct (copy_strings _ k2) as [ok3 k3] eqn:E3. destruct (copy_strings_steady _ _ _ _ E3 S2) as [S3 F3].
  destruct ok3; cbn [negb]; [|apply Hmem; congruence].
  set (s1 := in_with_kernel s k3).
  assert (forall r, clean s1 r -> clean s r) as Hs1.
  { intros r [C1 C2]. split; [done|]. rewrite C2. cbn. congruence. }
  destruct (sl_mode sel) eqn:Em.
  - destruct (csh_input_from_fd fd1 (Some (bs "stdin")) s1) as [[x|id] s2] eqn:Ei; [|done].
    intros [= _ <-]. apply Hs1. by eapply fd_clean.
  - destruct (csh_input_from_string _ _ s1) as [[x|id] s2] eqn:Ei.
    + intros [= _ <-]. apply Hs1. by eapply string_clean.
    + destruct (prepare_steady fd1 (is_kernel s2)) as (k' & -> & _); [|done].
      eapply string_steady; [|exact Ei]. exact S3.
  - destruct (csh_input_from_file _ s1) as [[x|id] s2] eqn:Ei.
    + intros [= _ <-]. apply Hs1. by eapply file_clean.
    + destruct (prepare_steady fd1 (is_kernel s2)) as (k' & -> & _); [|done].
      eapply file_steady; [|exact Ei]. exact S3.
Qed.

(** ** Concrete command lines *)

Definition no_disk : Disk := {|
  disk_open := fun _ _ _ => inl ENOENT; disk_stat := fun _ _ => inl ENOENT; disk_tty := fun _ => false |}.

Definition bare_state : input_state := mk_istate (file_kernel []) [] 0 [].

Lemma invocation_roundtrip_witness :
  exists iv s', csh_invocation_parse (H:=no_disk)
      (Some <$> print_command (bs "sh") [(true, mk_option CSH_OPT_ERREXIT (bs "errexit") (ch "e"))] false
         (bs "echo $1") (bs "name") [bs "x"; bs "-y"]) 0 2 bare_state = (inr iv, s') /\
    iv_arguments iv = [bs "x"; bs "-y"] /\ opt_on (iv_options iv) CSH_OPT_ERREXIT = true.
Proof.
  destruct (invocation_roundtrip no_disk (bs "sh") [(true, mk_option CSH_OPT_ERREXIT (bs "errexit") (ch "e"))] false
    (bs "echo $1") (bs "name") [bs "x"; bs "-y"] 0 2 bare_state) as (iv & s' & E & _ & _ & _ & Ha & Ho & _).
  - apply Forall_singleton. unfold listed. cbn [snd]. unfold CSH_OPTION_LIST. set_solver.
  - reflexivity.
  - reflexivity.
  - apply Forall_nil_2.
  - vm_compute. reflexivity.
  - repeat (apply Forall_cons; split; [vm_compute; reflexivity|]). apply Forall_nil_2.
  - vm_compute. discriminate.
  - exists iv, s'. split; [exact E|]. split; [exact Ha|].
    destruct (Ho (mk_option CSH_OPT_ERREXIT (bs "errexit") (ch "e"))) as [H _]; [unfold CSH_OPTION_LIST; set_solver|].
    cbn [opt_bit] in H. rewrite H. reflexivity.
Defined.

Lemma invocation_failure_clean_witness :
  active_inputs (csh_invocation_parse (H:=no_disk) [Some (bs "sh"); Some (bs "missing")] 0 2 bare_state).2 = [].
Proof.
  refine (proj1 (invocation_failure_clean no_disk [Some (bs "sh"); Some (bs "missing")] 0 2 bare_state _
    (mk_error (Some (bs "cannot open script")) [] false ENOENT 127 1 (mk_position 0 1 1)) _ _ _)).
  - reflexivity.
  - apply Forall_nil_2.
  - vm_compute. reflexivity.
Defined.
