(* ===== verification/Signals.v ===== *)
(** * Signals: the disposition table, the flags of the handlers, the names

    What src/traps.c and src/jobs.c share.  [signals] is the part of the process
    that signal calls and handlers touch: the disposition of every signal, the
    [pending] flags of traps.c, the [interrupted] and [hung_up] flags of jobs.c,
    and the pointer to the active trap table (set or not).

    Signal numbers and the signals that [sigaddset] and [sigaction] accept are
    those of Linux: 1 to 64 without the two that the C library keeps. *)

From stdpp Require Import base list gmap strings.
From S2P Require Import Prelude Output Numbers.

(** ** The host's signals *)

Definition SIGHUP : Z := 1.
Definition SIGINT : Z := 2.
Definition SIGQUIT : Z := 3.
Definition SIGKILL : Z := 9.
Definition SIGTERM : Z := 15.
Definition SIGCHLD : Z := 17.
Definition SIGCONT : Z := 18.
Definition SIGSTOP : Z := 19.
Definition SIGTSTP : Z := 20.
Definition SIGTTIN : Z := 21.
Definition SIGTTOU : Z := 22.

(** [sigaddset] succeeds; [sigaction] can read the disposition. *)
Definition valid_signal (n : Z) : bool := between 1 n 64 && negb (n =? 32) && negb (n =? 33).

(** [sigaction] can change the disposition. *)
Definition settable (n : Z) : bool := valid_signal n && negb (n =? SIGKILL) && negb (n =? SIGSTOP).

(** The dispositions the shell installs or inherits; the functions are the
    handlers of traps.c and jobs.c. *)
Inductive handler : Type :=
  | SIG_DFL | SIG_IGN | record_signal | ignore_child | pending_signal.

#[export] Instance handler_eq_dec : EqDecision handler.
Proof. solve_decision. Defined.

Record sigact : Type := mk_sigact { sa_handler : handler; sa_mask : Z; sa_flags : Z }.

#[export] Instance sigact_eq_dec : EqDecision sigact.
Proof. solve_decision. Defined.

Definition SA_NOCLDWAIT : Z := 2.

(** [memset], [sigemptyset] and a handler. *)
Definition plain_action (h : handler) : sigact := mk_sigact h 0 0.

(** ** The state *)

Definition TRAP_LIMIT : nat := 128.

Record signals : Type := mk_signals {
  sg_actions : gmap Z sigact;     (* SIG_DFL where absent *)
  sg_pending : list bool;         (* pending[TRAP_LIMIT] *)
  sg_active : bool;               (* active != NULL *)
  sg_interrupted : Z;
  sg_hung_up : Z
}.

Definition action_of (g : signals) (n : Z) : sigact := default (plain_action SIG_DFL) (sg_actions g !! n).

Definition handler_of (g : signals) (n : Z) : handler := sa_handler (action_of g n).

Definition with_actions (g : signals) (a : gmap Z sigact) : signals :=
  mk_signals a (sg_pending g) (sg_active g) (sg_interrupted g) (sg_hung_up g).
Definition with_pending (g : signals) (p : list bool) : signals :=
  mk_signals (sg_actions g) p (sg_active g) (sg_interrupted g) (sg_hung_up g).
Definition with_active (g : signals) (b : bool) : signals :=
  mk_signals (sg_actions g) (sg_pending g) b (sg_interrupted g) (sg_hung_up g).

Definition is_pending (g : signals) (n : Z) : bool := nth (Z.to_nat n) (sg_pending g) false.

Definition set_pending (g : signals) (n : Z) (b : bool) : signals :=
  with_pending g (<[Z.to_nat n := b]> (sg_pending g)).

(** [sigaction(n, NULL, &old)]; [None] is -1. *)
Definition get_action (g : signals) (n : Z) : option sigact :=
  if valid_signal n then Some (action_of g n) else None.

(** [sigaction(n, &act, old)]: the old disposition and the new table. *)
Definition set_action (g : signals) (n : Z) (act : sigact) : option (sigact * signals) :=
  if settable n then Some (action_of g n, with_actions g (<[n := act]> (sg_actions g))) else None.

(** A call whose result is not looked at. *)
Definition put_action (g : signals) (n : Z) (act : sigact) : signals :=
  match set_action g n act with Some (_, g') => g' | None => g end.

(** ** The handlers *)

Definition csh_jobs_note_signal (g : signals) (n : Z) : signals :=
  let g := if n =? SIGINT
    then mk_signals (sg_actions g) (sg_pending g) (sg_active g) n (sg_hung_up g) else g in
  if n =? SIGHUP
  then mk_signals (sg_actions g) (sg_pending g) (sg_active g) (sg_interrupted g) n else g.

Definition csh_jobs_take_interrupt (g : signals) : Z * signals :=
  (sg_interrupted g, mk_signals (sg_actions g) (sg_pending g) (sg_active g) 0 (sg_hung_up g)).

Definition csh_jobs_interrupt_pending (g : signals) : bool := negb (sg_interrupted g =? 0).

Definition csh_jobs_hangup_pending (g : signals) : bool := negb (sg_hung_up g =? 0).

Definition csh_jobs_clear_hangup (g : signals) : signals :=
  mk_signals (sg_actions g) (sg_pending g) (sg_active g) (sg_interrupted g) 0.

(** The body of [record_signal]. *)
Definition run_record_signal (g : signals) (n : Z) : signals :=
  let g := if (0 <? n) && (n <? Z.of_nat TRAP_LIMIT) then set_pending g n true else g in
  if negb (n =? SIGHUP) then csh_jobs_note_signal g n else g.

(** The delivery of signal [n] to the shell: the installed function runs.  The
    default action is the host's and is not a step of the shell: [None]. *)
Definition deliver (g : signals) (n : Z) : option signals :=
  match handler_of g n with
  | SIG_DFL => None
  | SIG_IGN | ignore_child => Some g
  | record_signal => Some (run_record_signal g n)
  | pending_signal => Some (csh_jobs_note_signal g n)
  end.

(** ** Names (src/jobs.c) *)

Definition signal_names : list (str * Z) := [
  (bs "HUP", 1); (bs "INT", 2); (bs "QUIT", 3); (bs "ILL", 4); (bs "ABRT", 6); (bs "FPE", 8);
  (bs "KILL", 9); (bs "SEGV", 11); (bs "SYS", 31); (bs "PIPE", 13); (bs "ALRM", 14);
  (bs "TERM", 15); (bs "USR1", 10); (bs "USR2", 12); (bs "CHLD", 17); (bs "CONT", 18);
  (bs "STOP", 19); (bs "TSTP", 20); (bs "TTIN", 21); (bs "TTOU", 22); (bs "BUS", 7);
  (bs "TRAP", 5); (bs "URG", 23); (bs "XCPU", 24); (bs "XFSZ", 25); (bs "VTALRM", 26);
  (bs "PROF", 27); (bs "WINCH", 28); (bs "POLL", 29) ].

(** [number(text, &value)]: [None] is -1. *)
Definition number (text : str) : option Z :=
  let body := match text with
    | c :: rest => if (c =? ch "+") || (c =? ch "-") then rest else text
    | [] => []
    end in
  if bool_decide (body = []) then None
  else if negb (forallb isdigit body) then None
  else
    let '(value, rest, range) := strtol text in
    if range || negb (bool_decide (rest = [])) then None else Some value.

Definition lower (c : byte) : byte := if between (ch "A") c (ch "Z") then c + 32 else c.

(** [strcasecmp(a, b) == 0] *)
Definition same_name (a b : str) : bool := str_eqb (map lower a) (map lower b).

Definition csh_jobs_signal_number (text : str) : Z :=
  match number text with
  | Some value =>
      if value =? 0 then 0
      else if (0 <? value) && (value <=? INT_MAX) && valid_signal value then value else -1
  | None =>
      match List.find (fun e => same_name text e.1) signal_names with
      | Some e => e.2
      | None => -1
      end
  end.

Definition csh_jobs_signal_name (n : Z) : option str :=
  fst <$> List.find (fun e => e.2 =? n) signal_names.

(** ** Lemmas *)

Lemma settable_valid n : settable n = true -> valid_signal n = true.
Proof. unfold settable. intros H. bsimp. tauto. Qed.

Lemma valid_signal_range n : valid_signal n = true -> 1 <= n <= 64.
Proof. unfold valid_signal, between. intros H. bsimp. lia. Qed.

Lemma action_of_put g n m a :
  action_of (put_action g n a) m = if settable n && (m =? n) then a else action_of g m.
Proof.
  unfold put_action, set_action. destruct (settable n); simpl; [|done].
  unfold action_of. simpl. destruct (m =? n) eqn:E; bsimp.
  - subst. by rewrite lookup_insert_eq.
  - by rewrite lookup_insert_ne.
Qed.

Lemma put_action_flags g n a :
  sg_pending (put_action g n a) = sg_pending g /\ sg_active (put_action g n a) = sg_active g /\
  sg_interrupted (put_action g n a) = sg_interrupted g /\ sg_hung_up (put_action g n a) = sg_hung_up g.
Proof. unfold put_action, set_action. by destruct (settable n). Qed.

Lemma action_of_pending g p n : action_of (with_pending g p) n = action_of g n.
Proof. done. Qed.

(** The names of the table are read back as the numbers they name. *)
Lemma signal_name_number n name : csh_jobs_signal_name n = Some name -> csh_jobs_signal_number name = n.
Proof.
  unfold csh_jobs_signal_name. intros H. apply fmap_Some in H as ([s m] & Hf & ->).
  apply find_some in Hf as [Hin Hm]. apply Z.eqb_eq in Hm as <-.
  assert (forallb (fun e => csh_jobs_signal_number e.1 =? e.2) signal_names = true) as Hall
    by (vm_compute; reflexivity).
  rewrite forallb_forall in Hall. by apply Z.eqb_eq, Hall.
Qed.

Lemma number_print n : 0 <= n <= LONG_MAX -> number (print_long n) = Some n.
Proof.
  intros Hn. destruct (print_long_digits n Hn) as (Hne & Hall & _). unfold number.
  assert ((match print_long n with
    | [] => []
    | c :: rest => if (c =? ch "+") || (c =? ch "-") then rest else print_long n
    end) = print_long n) as ->.
  { destruct (print_long n) as [|c r]; [done|]. inversion Hall as [|?? Hc ?]; subst.
    apply isdigit_not_space in Hc as (_ & H1 & H2).
    by rewrite (proj2 (Z.eqb_neq _ _) H1), (proj2 (Z.eqb_neq _ _) H2). }
  rewrite bool_decide_false by done.
  replace (forallb isdigit (print_long n)) with true.
  - by rewrite strtol_print_long.
  - symmetry. apply forallb_forall. intros x Hx. rewrite Forall_forall in Hall.
    by apply Hall, list_elem_of_In.
Qed.
