(* ===== verification/Traps.v ===== *)
(** * Traps (src/traps.c)

    The trap table of a shell process and the [trap] builtin.  A [csh_traps] is
    the structure of that name; the dispositions and the [pending] flags are in
    the [signals] state that every operation takes and gives back.  A [free] has
    no counterpart; [strdup] and [calloc] are [malloc] of the host. *)

From stdpp Require Import base list gmap strings.
From S2P Require Import Prelude Output Numbers Signals.

(** ** The table *)

Record trap_entry : Type := mk_entry {
  te_action : option str;
  te_previous : sigact;
  te_installed : bool;
  te_ignored : bool
}.

Record csh_traps : Type := mk_traps {
  entries : list trap_entry;
  exit_action : option str;
  exit_inherited : bool;
  child_ignored : bool;
  entry_ignored : list bool;
  original_ignored : list bool
}.

(** The zeros of [calloc]. *)
Definition zero_entry : trap_entry := mk_entry None (plain_action SIG_DFL) false false.

Definition entry_of (t : csh_traps) (n : Z) : trap_entry := nth (Z.to_nat n) (entries t) zero_entry.
Definition entry_ignore (t : csh_traps) (n : Z) : bool := nth (Z.to_nat n) (entry_ignored t) false.
Definition original_ignore (t : csh_traps) (n : Z) : bool := nth (Z.to_nat n) (original_ignored t) false.

Definition with_entry (t : csh_traps) (n : Z) (e : trap_entry) : csh_traps :=
  mk_traps (<[Z.to_nat n := e]> (entries t)) (exit_action t) (exit_inherited t) (child_ignored t)
    (entry_ignored t) (original_ignored t).

Definition with_exit (t : csh_traps) (action : option str) (inherited : bool) : csh_traps :=
  mk_traps (entries t) action inherited (child_ignored t) (entry_ignored t) (original_ignored t).

Definition with_child (t : csh_traps) (b : bool) : csh_traps :=
  mk_traps (entries t) (exit_action t) (exit_inherited t) b (entry_ignored t) (original_ignored t).

(** The indices of the loops: 0 and the signals 1 to [TRAP_LIMIT - 1]. *)
Definition trap_numbers : list Z := seqZ 1 (Z.of_nat TRAP_LIMIT - 1).
Definition all_numbers : list Z := seqZ 0 (Z.of_nat TRAP_LIMIT).

Definition is_ignored (a : sigact) : bool := bool_decide (sa_handler a = SIG_IGN).

(** ** Creation and destruction *)

Definition preserve_child_ignore (t : csh_traps) (g : signals) : csh_traps * signals :=
  match get_action g SIGCHLD with
  | Some a =>
      if is_ignored a then
        (with_child t true,
         put_action g SIGCHLD (mk_sigact ignore_child (sa_mask a) (Z.land (sa_flags a) (Z.lnot SA_NOCLDWAIT))))
      else (t, g)
  | None => (t, g)
  end.

(** [i > 0 && sigaction(i, NULL, &disposition) == 0 && ... == SIG_IGN] *)
Definition ignored_now (g : signals) (i : Z) : bool :=
  (0 <? i) && match get_action g i with Some a => is_ignored a | None => false end.

Definition csh_traps_create (interactive : bool) (g : signals)
    : M (Z * errno * option csh_traps * signals) :=
  if sg_active g then ret (-1, EBUSY, None, g) else
  let* ok := malloc in
  if negb ok then ret (-1, ENOMEM, None, g) else
  let original := map (ignored_now g) all_numbers in
  let t := mk_traps (replicate TRAP_LIMIT zero_entry) None false false
             (if interactive then replicate TRAP_LIMIT false else original) original in
  ret (0, ENONE, Some t, with_active (with_pending g (replicate TRAP_LIMIT false)) true).

Definition destroy_entry (t : csh_traps) (g : signals) (i : Z) : signals :=
  let e := entry_of t i in
  let g := if te_installed e then put_action g i (te_previous e) else g in
  set_pending g i false.

(** The table is the active one of its process. *)
Definition csh_traps_destroy (traps : option csh_traps) (g : signals) : signals :=
  match traps with
  | None => g
  | Some t => with_active (foldl (destroy_entry t) g trap_numbers) false
  end.

(** ** Pending signals *)

Definition csh_traps_first_pending (g : signals) : Z :=
  if negb (sg_active g) then 0 else default 0 (List.find (is_pending g) trap_numbers).

Definition csh_traps_pending (g : signals) : bool := negb (csh_traps_first_pending g =? 0).

(** The set as the list of the signals that were added to it. *)
Definition csh_traps_add_caught (traps : option csh_traps) (set : list Z) : list Z :=
  match traps with
  | None => set
  | Some t => set ++ filter (fun i => valid_signal i = true /\
      te_installed (entry_of t i) = true /\ te_ignored (entry_of t i) = false) trap_numbers
  end.

Fixpoint take_loop (t : csh_traps) (numbers : list Z) (g : signals) : M (Z * option str * signals) :=
  match numbers with
  | [] => ret (0, None, g)
  | i :: rest =>
      if negb (is_pending g i) then take_loop t rest g else
      match te_action (entry_of t i) with
      | None => take_loop t rest (set_pending g i false)
      | Some action =>
          let* ok := malloc in
          if ok then ret (i, Some action, set_pending g i false) else ret (-1, None, g)
      end
  end.

(** The number, the action and the flags left. *)
Definition csh_traps_take (traps : option csh_traps) (g : signals) : M (Z * option str * signals) :=
  match traps with
  | None => ret (0, None, g)
  | Some t => take_loop t trap_numbers g
  end.

(** The action and the errno that tells "none" from "out of memory". *)
Definition csh_traps_exit_action (traps : option csh_traps) : M (option str * errno) :=
  match traps with
  | Some t =>
      match exit_action t with
      | Some action =>
          if exit_inherited t then ret (None, ENONE) else
          let* ok := malloc in
          ret (if ok then (Some action, ENONE) else (None, ENOMEM))
      | None => ret (None, ENONE)
      end
  | None => ret (None, ENONE)
  end.

(** ** The builtin *)

Definition diagnostic (message : str) (operand : option str) : M Z :=
  let* _ := dprintf STDERR (bs "cshell: trap: " ++ message ++
    match operand with Some o => bs ": " ++ o | None => [] end ++ [10]) in
  ret 1.

Definition condition (text : str) : Z :=
  if str_eqb text (bs "EXIT") || str_eqb text (bs "0") then 0 else
  let text := if starts_with (bs "SIG") text then drop 3 text else text in
  let '(value, rest, range) := strtol text in
  if negb (bool_decide (text = [])) && bool_decide (rest = []) && negb range then
    if (value <=? 0) || (Z.of_nat TRAP_LIMIT <=? value) then -1
    else if valid_signal value then value else -1
  else
    let n := csh_jobs_signal_number text in
    if (0 <? n) && (n <? Z.of_nat TRAP_LIMIT) then n else -1.

Fixpoint quote_loop (p : str) : M Z :=
  match p with
  | [] => csh_write_bytes STDOUT (bs "'")
  | c :: rest =>
      let* r := csh_write_bytes STDOUT (if c =? ch "'" then bs "'\''" else [c]) in
      if r =? -1 then ret (-1) else quote_loop rest
  end.

Definition quote_action (action : str) : M Z :=
  let* r := csh_write_bytes STDOUT (bs "'") in
  if r =? -1 then ret (-1) else quote_loop action.

(** The action to print, when there is one. *)
Definition listed_action (t : csh_traps) (n : Z) (defaults : bool) : option str :=
  let action := if n =? 0 then exit_action t else te_action (entry_of t n) in
  let action := match action with
    | None => if (0 <? n) && entry_ignore t n then Some [] else None
    | Some a => Some a
    end in
  match action with
  | None => if defaults then Some (bs "-") else None
  | Some a => Some a
  end.

Definition condition_name (n : Z) : str :=
  if n =? 0 then bs "EXIT"
  else match csh_jobs_signal_name n with Some name => name | None => print_long n end.

Definition list_one (t : csh_traps) (n : Z) (defaults : bool) : M Z :=
  match listed_action t n defaults with
  | None => ret 0
  | Some action =>
      let* r := csh_write_bytes STDOUT (bs "trap -- ") in
      if r =? -1 then diagnostic (bs "cannot write output") None else
      let* r := quote_action action in
      if r =? -1 then diagnostic (bs "cannot write output") None else
      let* r := dprintf STDOUT (bs " " ++ condition_name n ++ [10]) in
      if r <? 0 then diagnostic (bs "cannot write output") None else ret 0
  end.

Definition install (t : csh_traps) (g : signals) (n : Z) (action : option str)
    : M (Z * csh_traps * signals) :=
  let* ok := (match action with Some _ => malloc | None => ret true end) in
  if negb ok then
    let* rc := diagnostic (bs "cannot allocate action") None in ret (rc, t, g)
  else if n =? 0 then ret (0, with_exit t action false, g)
  else if entry_ignore t n then ret (0, t, g)
  else
    let e := entry_of t n in
    match action with
    | None =>
        let reset := if te_installed e then snd <$> set_action g n (te_previous e) else Some g in
        match reset with
        | None => let* rc := diagnostic (bs "cannot reset signal") None in ret (rc, t, g)
        | Some g =>
            let t := with_entry t n (mk_entry (te_action e) (te_previous e) false false) in
            let '(t, g) := if n =? SIGCHLD then preserve_child_ignore t g else (t, g) in
            ret (0, with_entry t n (mk_entry None (te_previous e) false false), set_pending g n false)
        end
    | Some a =>
        let h := if negb (bool_decide (a = [])) then record_signal
                 else if n =? SIGCHLD then ignore_child else SIG_IGN in
        match set_action g n (plain_action h) with
        | None => let* rc := diagnostic (bs "cannot install signal") None in ret (rc, t, g)
        | Some (old, g) =>
            ret (0, with_entry t n (mk_entry (Some a) (if te_installed e then te_previous e else old)
                                      true (bool_decide (a = []))), set_pending g n false)
        end
    end.

(** The whole listing, over the conditions still to visit. *)
Fixpoint list_all (t : csh_traps) (g : signals) (listing : bool) (numbers : list Z) (rc : Z) : M Z :=
  match numbers with
  | [] => ret rc
  | i :: rest =>
      if (i =? SIGKILL) || (i =? SIGSTOP) ||
         ((0 <? i) && negb (valid_signal i)) then list_all t g listing rest rc else
      let* r := list_one t i listing in
      list_all t g listing rest (if r =? 0 then rc else 1)
  end.

Fixpoint list_operands (t : csh_traps) (args : list str) (rc : Z) : M Z :=
  match args with
  | [] => ret rc
  | a :: rest =>
      let n := condition a in
      if n <? 0 then
        let* _ := diagnostic (bs "invalid condition") (Some a) in list_operands t rest 1
      else
        let* r := list_one t n true in
        list_operands t rest (if r =? 0 then rc else 1)
  end.

Fixpoint install_operands (t : csh_traps) (g : signals) (action : option str) (args : list str) (rc : Z)
    : M (Z * csh_traps * signals) :=
  match args with
  | [] => ret (rc, t, g)
  | a :: rest =>
      let n := condition a in
      if n <? 0 then
        let* _ := diagnostic (bs "invalid condition") (Some a) in install_operands t g action rest 1
      else
        let* (r, t, g) := install t g n action in
        install_operands t g action rest (if r =? 0 then rc else 1)
  end.

(** [*action && strspn(action, "0123456789") == strlen(action)] *)
Definition unsigned_decimal (s : str) : bool := negb (bool_decide (s = [])) && forallb isdigit s.

(** The action and condition operands. *)
Definition set_traps (t : csh_traps) (g : signals) (args : list str) : M (Z * csh_traps * signals) :=
  match args with
  | [] => ret (0, t, g)
  | first :: rest =>
      let '(action, conditions) :=
        if unsigned_decimal first then (bs "-", args) else (first, rest) in
      if bool_decide (conditions = []) then
        let* rc := diagnostic (bs "missing condition") None in ret (rc, t, g)
      else install_operands t g (if str_eqb action (bs "-") then None else Some action) conditions 0
  end.

(** The option: the listing flag and the operands, or the invalid one. *)
Definition trap_option (args : list str) : str + bool * list str :=
  match args with
  | a :: rest =>
      if str_eqb a (bs "-p") then
        inr (true, match rest with
                   | b :: rest' => if str_eqb b (bs "--") then rest' else rest
                   | [] => []
                   end)
      else if str_eqb a (bs "--") then inr (false, rest)
      else if (peek a =? ch "-") && negb (str_eqb a (bs "-")) then inl a
      else inr (false, args)
  | [] => inr (false, [])
  end.

(** [argv] is the name and the operands. *)
Definition csh_traps_builtin (traps : option csh_traps) (g : signals) (argv : list str)
    : M (Z * option csh_traps * signals) :=
  match traps with
  | None => let* rc := diagnostic (bs "trap table unavailable") None in ret (rc, traps, g)
  | Some t =>
      match trap_option (tail argv) with
      | inl a => let* rc := diagnostic (bs "invalid option") (Some a) in ret (rc, traps, g)
      | inr (listing, operands) =>
          if listing || bool_decide (operands = []) then
            let* rc := (if bool_decide (operands = []) then list_all t g listing all_numbers 0
                        else list_operands t operands 0) in
            ret (rc, traps, g)
          else
            let* (rc, t, g) := set_traps t g operands in ret (rc, Some t, g)
      end
  end.

(** ** Child processes *)

Definition background_ignore (asynchronous : bool) (n : Z) : bool :=
  asynchronous && ((n =? SIGINT) || (n =? SIGQUIT)).

Definition fork_entry (asynchronous preserve_listing : bool) (tg : csh_traps * signals) (i : Z)
    : csh_traps * signals :=
  let '(t, g) := tg in
  let g := set_pending g i false in
  let e := entry_of t i in
  if negb (te_installed e) then (t, g) else
  let previous :=
    if te_ignored e then
      let ignored := original_ignore t i || background_ignore asynchronous i in
      if ignored || negb (i =? SIGCHLD) then plain_action (if ignored then SIG_IGN else SIG_DFL)
      else te_previous e
    else te_previous e in
  let h := if te_ignored e then (if i =? SIGCHLD then ignore_child else SIG_IGN) else SIG_DFL in
  let h := if background_ignore asynchronous i then SIG_IGN else h in
  let g := put_action g i (plain_action h) in
  let action := if negb preserve_listing && negb (te_ignored e) then None else te_action e in
  let t := with_entry t i (mk_entry action previous (te_ignored e) (te_ignored e)) in
  (if negb (te_ignored e) && (i =? SIGCHLD) then with_child t false else t, g).

Definition csh_traps_after_fork (traps : option csh_traps) (asynchronous preserve_listing : bool)
    (g : signals) : option csh_traps * signals :=
  match traps with
  | None => (None, g)
  | Some t =>
      let g := with_active g true in
      let t := if preserve_listing then with_exit t (exit_action t) true
               else with_exit t None (exit_inherited t) in
      let '(t, g) := foldl (fork_entry asynchronous preserve_listing) (t, g) trap_numbers in
      let '(t, g) := preserve_child_ignore t g in
      (Some t, g)
  end.

Definition exec_entry (recover : bool) (t : csh_traps) (g : signals) (i : Z) : signals :=
  let e := entry_of t i in
  if negb (te_installed e) then
    if (i =? SIGCHLD) && child_ignored t
    then put_action g i (plain_action (if recover then ignore_child else SIG_IGN)) else g
  else if negb recover && ((i =? SIGINT) || (i =? SIGQUIT)) &&
          match get_action g i with Some a => is_ignored a | None => false end then g
  else
    put_action g i (plain_action
      (if te_ignored e then (if recover && (i =? SIGCHLD) then ignore_child else SIG_IGN)
       else if recover then record_signal else SIG_DFL)).

Definition csh_traps_exec_signals (traps : option csh_traps) (recover : bool) (g : signals) : signals :=
  match traps with
  | None => g
  | Some t => foldl (exec_entry recover t) g trap_numbers
  end.
