(* ===== verification/TrapsTheorems.v ===== *)
(** * Traps: dispositions, delivery, listing, children

    The effect of one [install] as a relation on the table and the dispositions,
    the runs of the builtin as sequences of it, and the invariant of a trap
    table between its creation and its end.  From these: destroying the table
    gives back the dispositions of the start, the dispositions an executed
    program inherits, the order in which pending actions are taken, the
    re-inputtable listing and the state of a forked child. *)

From stdpp Require Import base list gmap strings sorting.
From S2P Require Import Prelude Output Numbers Quoting Signals Traps.

(** ** Tables and flags by index *)

Definition is_trap (n : Z) : Prop := 0 <= n < 128.

Lemma limit : Z.of_nat TRAP_LIMIT = 128.
Proof. reflexivity. Qed.

#[local] Opaque TRAP_LIMIT.

Definition sized (t : csh_traps) (g : signals) : Prop :=
  length (entries t) = TRAP_LIMIT /\ length (sg_pending g) = TRAP_LIMIT.

Lemma nth_insert {A} (d x : A) (l : list A) (n m : Z) :
  0 <= n < Z.of_nat (length l) -> 0 <= m ->
  nth (Z.to_nat m) (<[Z.to_nat n := x]> l) d = if m =? n then x else nth (Z.to_nat m) l d.
Proof.
  intros Hn Hm. rewrite !nth_lookup. destruct (m =? n) eqn:E; bsimp.
  - subst. rewrite list_lookup_insert_eq; [done|lia].
  - rewrite list_lookup_insert_ne; [done|lia].
Qed.

Lemma entry_of_with t g n m e : sized t g -> is_trap n -> 0 <= m ->
  entry_of (with_entry t n e) m = if m =? n then e else entry_of t m.
Proof. intros [Hl _] [??] ?. unfold entry_of. simpl. apply nth_insert; [rewrite Hl, limit; lia|done]. Qed.

Lemma is_pending_set t g n m b : sized t g -> is_trap n -> 0 <= m ->
  is_pending (set_pending g n b) m = if m =? n then b else is_pending g m.
Proof. intros [_ Hl] [??] ?. unfold is_pending. simpl. apply nth_insert; [rewrite Hl, limit; lia|done]. Qed.

Lemma trap_numbers_elem n : n ∈ trap_numbers <-> 1 <= n < 128.
Proof. unfold trap_numbers. rewrite elem_of_seqZ, limit. lia. Qed.

Lemma nth_map_numbers (f : Z -> bool) n : is_trap n -> nth (Z.to_nat n) (map f all_numbers) false = f n.
Proof.
  intros [??]. unfold all_numbers. rewrite nth_lookup. rewrite list_lookup_fmap.
  rewrite lookup_seqZ_lt by (rewrite limit; lia). simpl. f_equal. lia.
Qed.

Lemma nth_replicate {A} (d : A) k n : nth n (replicate k d) d = d.
Proof. rewrite nth_lookup. destruct (replicate k d !! n) eqn:E; [|done]. by apply lookup_replicate in E as [-> _]. Qed.

(** ** One installation *)

Definition storable (a : str) : Prop := a <> bs "-" /\ unsigned_decimal a = false.

(** The function a trap with action [a] installs. *)
Definition trap_handler (n : Z) (a : str) : handler :=
  if bool_decide (a = []) then (if n =? SIGCHLD then ignore_child else SIG_IGN) else record_signal.

(** What a reset of signal [n] goes back to. *)
Definition baseline (t : csh_traps) (g : signals) (n : Z) : sigact :=
  if te_installed (entry_of t n) then te_previous (entry_of t n) else action_of g n.

Definition same_policy (t t' : csh_traps) : Prop :=
  entry_ignored t' = entry_ignored t /\ original_ignored t' = original_ignored t.

(** The table, flags and dispositions change at [n] only. *)
Definition only_at (n : Z) (t t' : csh_traps) (g g' : signals) : Prop :=
  sized t' g' /\ same_policy t t' /\ exit_action t' = exit_action t /\
  exit_inherited t' = exit_inherited t /\ sg_active g' = sg_active g /\ is_pending g' n = false /\
  forall m, 0 <= m -> m <> n ->
    entry_of t' m = entry_of t m /\ action_of g' m = action_of g m /\ is_pending g' m = is_pending g m.

Inductive installs (t : csh_traps) (g : signals) : Z -> option str -> csh_traps -> signals -> Prop :=
  | installs_exit a : installs t g 0 a (with_exit t a false) g
  | installs_kept n a : 0 < n -> entry_ignore t n = true -> installs t g n a t g
  | installs_default n t' g' :
      0 < n -> entry_ignore t n = false -> only_at n t t' g g' ->
      entry_of t' n = mk_entry None (te_previous (entry_of t n)) false false ->
      (if (n =? SIGCHLD) && is_ignored (baseline t g n)
       then handler_of g' n = ignore_child /\ child_ignored t' = true
       else action_of g' n = baseline t g n /\ child_ignored t' = child_ignored t) ->
      installs t g n None t' g'
  | installs_action n a t' g' :
      0 < n -> entry_ignore t n = false -> settable n = true -> only_at n t t' g g' ->
      child_ignored t' = child_ignored t ->
      entry_of t' n = mk_entry (Some a) (baseline t g n) true (bool_decide (a = [])) ->
      action_of g' n = plain_action (trap_handler n a) ->
      installs t g n (Some a) t' g'.

Lemma trap_diagnostic_post m o w (Q : Z -> proc -> Prop) :
  (forall w', Q 1 w') -> post (diagnostic m o) w Q.
Proof.
  intros H. unfold diagnostic, post, bind, ret.
  destruct (dprintf STDERR _ w) as [r w']. apply H.
Qed.

Lemma put_action_settable g n a : settable n = true ->
  set_action g n a = Some (action_of g n, put_action g n a).
Proof. intros H. unfold put_action, set_action. by rewrite H. Qed.

Lemma put_action_at g n a : settable n = true -> action_of (put_action g n a) n = a.
Proof. intros H. by rewrite action_of_put, H, Z.eqb_refl. Qed.

Lemma put_action_ne g n a m : m <> n -> action_of (put_action g n a) m = action_of g m.
Proof. intros H. rewrite action_of_put. by rewrite (proj2 (Z.eqb_neq m n) H), andb_false_r. Qed.

Lemma put_action_pending g n a m : is_pending (put_action g n a) m = is_pending g m.
Proof. unfold is_pending. by destruct (put_action_flags g n a) as (-> & _). Qed.

Lemma action_of_flag g n b m : action_of (set_pending g n b) m = action_of g m.
Proof. done. Qed.

Lemma sized_put t g n a : sized t g -> sized t (put_action g n a).
Proof. unfold sized. by destruct (put_action_flags g n a) as (-> & _). Qed.

Lemma sized_step t g n e b : sized t g -> sized (with_entry t n e) (set_pending g n b).
Proof. intros [??]. split; simpl; by rewrite length_insert. Qed.

(** An update of the entry, the disposition and the flag of [n]. *)
Lemma only_at_update t g n e a c : sized t g -> is_trap n ->
  only_at n t (with_entry (with_child t c) n e) g (set_pending (put_action g n a) n false).
Proof.
  intros Hs Hn. pose proof (sized_put _ _ n a Hs) as Hs'.
  split_and!; [by apply (sized_step _ _ _ _ _ Hs')|done..| | |].
  - simpl. by destruct (put_action_flags g n a) as (_ & -> & _).
  - rewrite (is_pending_set t) by (done || unfold is_trap in *; lia). by rewrite Z.eqb_refl.
  - intros m Hm Hne. apply Z.eqb_neq in Hne as E. split_and!.
    + change (entry_of (with_entry t n e) m = entry_of t m).
      rewrite (entry_of_with _ _ _ _ _ Hs) by done. by rewrite E.
    + change (action_of (put_action g n a) m = action_of g m). by apply put_action_ne.
    + rewrite (is_pending_set t) by done. by rewrite E, put_action_pending.
Qed.

(** The same without a change of the disposition. *)
Lemma only_at_flag t g n e : sized t g -> is_trap n ->
  only_at n t (with_entry t n e) g (set_pending g n false).
Proof.
  intros Hs Hn. split_and!; [by apply sized_step|done..| |].
  - rewrite (is_pending_set t) by (done || unfold is_trap in *; lia). by rewrite Z.eqb_refl.
  - intros m Hm Hne. apply Z.eqb_neq in Hne as E.
    rewrite (entry_of_with _ _ _ _ _ Hs), (is_pending_set t) by done. by rewrite E.
Qed.

(** The outcomes of [install]: an error that changes nothing, without memory or
    for a signal the host does not let go of, or the installation. *)
Definition install_outcome (t : csh_traps) (g : signals) (n : Z) (a : option str) (w : proc)
    (r : Z * csh_traps * signals) (w' : proc) : Prop :=
  let '(rc, t', g') := r in
  rc = 1 /\ t' = t /\ g' = g /\ (calm w -> n <> 0 /\ settable n = false) \/
  rc = 0 /\ installs t g n a t' g' /\ (calm w -> w' = w).

Lemma reset_installs t g n g1 : sized t g -> 0 < n < 128 -> entry_ignore t n = false ->
  (if te_installed (entry_of t n) then snd <$> set_action g n (te_previous (entry_of t n)) else Some g) = Some g1 ->
  let t1 := with_entry t n (mk_entry (te_action (entry_of t n)) (te_previous (entry_of t n)) false false) in
  let '(t2, g2) := if n =? SIGCHLD then preserve_child_ignore t1 g1 else (t1, g1) in
  installs t g n None (with_entry t2 n (mk_entry None (te_previous (entry_of t n)) false false))
    (set_pending g2 n false).
Proof.
  intros Hs Hn Hi Hg. assert (is_trap n) as Ht by (unfold is_trap; lia).
  assert (action_of g1 n = baseline t g n /\
    (g1 = g \/ settable n = true /\ g1 = put_action g n (te_previous (entry_of t n)))) as [Hb Hg1].
  { unfold baseline, set_action in *. destruct (te_installed _).
    - destruct (settable n) eqn:E; [|done]. simpl in Hg. injection Hg as <-.
      assert (with_actions g (<[n:=te_previous (entry_of t n)]> (sg_actions g)) =
        put_action g n (te_previous (entry_of t n))) as -> by (unfold put_action, set_action; by rewrite E).
      split; [by apply put_action_at|auto].
    - injection Hg as <-. auto. }
  simpl. set (e0 := mk_entry (te_action _) _ _ _). set (e1 := mk_entry None _ _ _).
  assert (forall c, with_entry (with_child (with_entry t n e0) c) n e1 = with_entry (with_child t c) n e1) as Hw.
  { intros c. unfold with_entry, with_child. simpl. by rewrite list_insert_insert_eq. }
  assert (with_entry (with_entry t n e0) n e1 = with_entry t n e1) as Hw'.
  { unfold with_entry. simpl. by rewrite list_insert_insert_eq. }
  assert (only_at n t (with_entry t n e1) g (set_pending g1 n false)) as Hplain.
  { destruct Hg1 as [->|[_ ->]]; [by apply only_at_flag|].
    replace t with (with_child t (child_ignored t)) at 2 by (by destruct t). by apply only_at_update. }
  destruct (n =? SIGCHLD) eqn:En; cycle 1.
  { rewrite Hw'. apply installs_default; [lia|done|done| |].
    - rewrite (entry_of_with _ _ _ _ _ Hs) by (done || lia). by rewrite Z.eqb_refl.
    - rewrite En. simpl. by rewrite action_of_flag. }
  apply Z.eqb_eq in En as ->. unfold preserve_child_ignore, get_action. simpl. rewrite Hb.
  destruct (is_ignored (baseline t g SIGCHLD)) eqn:Ei.
  - rewrite Hw. apply installs_default; [done|done| | |].
    + destruct Hg1 as [->|[_ ->]]; [by apply only_at_update|].
      destruct (only_at_update t g SIGCHLD e1 (mk_sigact ignore_child (sa_mask (baseline t g SIGCHLD))
        (Z.land (sa_flags (baseline t g SIGCHLD)) (Z.lnot SA_NOCLDWAIT))) true Hs Ht)
        as (H1 & H2 & H3 & H4 & H5 & H6 & H7).
      split_and!; [by destruct H1 as [??]; split|done..|].
      intros m Hm Hne. destruct (H7 m Hm Hne) as (H8 & _ & H9). split_and!; [done| |done].
      change (action_of (put_action (put_action g SIGCHLD (te_previous (entry_of t SIGCHLD))) SIGCHLD
        (mk_sigact ignore_child (sa_mask (baseline t g SIGCHLD))
        (Z.land (sa_flags (baseline t g SIGCHLD)) (Z.lnot SA_NOCLDWAIT)))) m = action_of g m).
      by rewrite !put_action_ne.
    + change (entry_of (with_entry t SIGCHLD e1) SIGCHLD = e1).
      rewrite (entry_of_with _ _ _ _ _ Hs) by (done || unfold SIGCHLD; lia). done.
    + rewrite Z.eqb_refl. cbn [andb]. rewrite Ei. split; [|done]. unfold handler_of.
      rewrite action_of_flag. by rewrite put_action_at.
  - rewrite Hw'. apply installs_default; [done|done|done| |].
    + rewrite (entry_of_with _ _ _ _ _ Hs) by (done || unfold SIGCHLD; lia). done.
    + rewrite Z.eqb_refl, Ei. cbn [andb]. by rewrite action_of_flag.
Qed.

Lemma action_installs t g n a : sized t g -> 0 < n < 128 -> entry_ignore t n = false -> settable n = true ->
  installs t g n (Some a)
    (with_entry t n (mk_entry (Some a) (baseline t g n) true (bool_decide (a = []))))
    (set_pending (put_action g n (plain_action (trap_handler n a))) n false).
Proof.
  intros Hs Hn Hi Hset. assert (is_trap n) as Ht by (unfold is_trap; lia).
  apply installs_action; [lia|done|done| |done| |].
  - replace t with (with_child t (child_ignored t)) at 2 by (by destruct t). by apply only_at_update.
  - rewrite (entry_of_with _ _ _ _ _ Hs) by (done || lia). by rewrite Z.eqb_refl.
  - rewrite action_of_flag. by apply put_action_at.
Qed.

Lemma install_post t g n a w : sized t g -> is_trap n ->
  post (install t g n a) w (install_outcome t g n a w).
Proof.
  intros Hs [Hn1 Hn2]. unfold install. apply post_bind.
  assert (post (match a with Some _ => malloc | None => ret true end) w
    (fun ok w' => (calm w -> w' = w /\ ok = true))) as Hm.
  { destruct a; [apply post_malloc; auto|apply post_ret; auto]. }
  eapply post_mono; [exact Hm|]. intros ok w' Hok. destruct ok; cbn [negb].
  2: { apply post_bind, trap_diagnostic_post. intros w2. apply post_ret. left. split_and!; [done..|].
       intros Hc. by destruct (Hok Hc). }
  assert (forall t' g', installs t g n a t' g' -> install_outcome t g n a w (0, t', g') w') as Hdone.
  { intros t' g' Hi. right. split_and!; [done|done|]. intros Hc. by apply Hok. }
  destruct (n =? 0) eqn:E0.
  { apply Z.eqb_eq in E0 as ->. apply post_ret, Hdone. constructor. }
  apply Z.eqb_neq in E0. destruct (entry_ignore t n) eqn:Ei.
  { apply post_ret, Hdone. constructor; [lia|done]. }
  assert (forall w2, settable n = false -> install_outcome t g n a w (1, t, g) w2) as Hfail by (left; auto).
  destruct a as [a|].
  - change (if negb (bool_decide (a = [])) then record_signal
            else if n =? SIGCHLD then ignore_child else SIG_IGN) with
      (if negb (bool_decide (a = [])) then record_signal else if n =? SIGCHLD then ignore_child else SIG_IGN).
    replace (if negb (bool_decide (a = [])) then record_signal
             else if n =? SIGCHLD then ignore_child else SIG_IGN) with (trap_handler n a)
      by (unfold trap_handler; by destruct (bool_decide (a = []))).
    destruct (settable n) eqn:Hset.
    + rewrite put_action_settable by done. apply post_ret, Hdone.
      apply action_installs; [done|lia|done|done].
    + unfold set_action. rewrite Hset. apply post_bind, trap_diagnostic_post. intros w2. apply post_ret. by apply Hfail.
  - destruct (if te_installed (entry_of t n) then snd <$> set_action g n (te_previous (entry_of t n)) else Some g)
      as [g1|] eqn:Er.
    + pose proof (reset_installs t g n g1 Hs ltac:(lia) Ei Er) as Hr. cbv zeta in Hr.
      destruct (if n =? SIGCHLD then _ else _) as [t2 g2]. by apply post_ret, Hdone.
    + apply post_bind, trap_diagnostic_post. intros w2. apply post_ret. apply Hfail.
      destruct (te_installed (entry_of t n)); [|done]. unfold set_action in Er. by destruct (settable n).
Qed.

(** ** The builtin as a sequence of installations *)

Lemma signal_number_valid s : 0 < csh_jobs_signal_number s -> valid_signal (csh_jobs_signal_number s) = true.
Proof.
  unfold csh_jobs_signal_number. destruct (number s) as [v|].
  - destruct (v =? 0); [done|]. destruct (_ && valid_signal v) eqn:E; [|done]. bsimp. tauto.
  - destruct (List.find _ signal_names) as [e|] eqn:E; [|done]. intros _. apply find_some in E as [Hin _].
    assert (forallb (fun e => valid_signal e.2) signal_names = true) as Hall by (vm_compute; reflexivity).
    rewrite forallb_forall in Hall. by apply Hall.
Qed.

(** A condition is invalid, EXIT or a signal of the host. *)
Lemma condition_cases s : condition s = -1 \/ condition s = 0 \/ valid_signal (condition s) = true.
Proof.
  unfold condition. destruct (_ || _); [auto|].
  set (text := if starts_with _ s then _ else s). destruct (strtol text) as [[v rest] range].
  destruct (_ && negb range).
  - destruct ((v <=? 0) || _); [auto|]. destruct (valid_signal v) eqn:E; auto.
  - destruct ((0 <? _) && _) eqn:E; [|auto]. bsimp. right; right. apply signal_number_valid. lia.
Qed.

Lemma condition_trap s : 0 <= condition s -> is_trap (condition s).
Proof.
  intros H. destruct (condition_cases s) as [E|[E|E]]; [lia|unfold is_trap; lia|].
  apply valid_signal_range in E. unfold is_trap. lia.
Qed.

Definition storable_option (a : option str) : Prop := match a with Some a => storable a | None => True end.

(** One condition operand of the builtin. *)
Definition trap_change (s s' : csh_traps * signals) : Prop :=
  exists n a, is_trap n /\ storable_option a /\ installs s.1 s.2 n a s'.1 s'.2.

Lemma installs_sized t g n a t' g' : installs t g n a t' g' -> sized t g -> sized t' g'.
Proof. destruct 1 as [| |? ? ? _ _ Ho _ _|? ? ? ? _ _ _ Ho _ _ _]; [done..|by intros; apply Ho|by intros; apply Ho]. Qed.

Lemma trap_changes_sized s s' : rtc trap_change s s' -> sized s.1 s.2 -> sized s'.1 s'.2.
Proof.
  induction 1 as [|s1 s2 s3 (n & a & _ & _ & Hi) _ IH]; [done|]. intros Hs. apply IH.
  by eapply installs_sized.
Qed.

Lemma install_operands_post a args t g rc w : sized t g -> storable_option a ->
  post (install_operands t g a args rc) w (fun '(_, t', g') _ => rtc trap_change (t, g) (t', g')).
Proof.
  intros Hs Ha. revert t g rc w Hs. induction args as [|x args IH]; intros t g rc w Hs; simpl.
  { by apply post_ret. }
  destruct (condition x <? 0) eqn:E; bsimp.
  { apply post_bind, trap_diagnostic_post. intros w'. by apply IH. }
  apply post_bind. eapply post_mono; [by apply install_post, condition_trap|].
  intros [[r t1] g1] w1 Ho.
  assert (rtc trap_change (t, g) (t1, g1)) as Hr.
  { destruct Ho as [(_ & -> & -> & _)|(_ & Hi & _)]; [done|]. apply rtc_once. exists (condition x), a.
    split_and!; [by apply condition_trap|done|done]. }
  eapply post_mono; [apply IH; by eapply (trap_changes_sized _ _ Hr)|]. intros [[r2 t2] g2] w2 H2.
  by etrans.
Qed.

Lemma set_traps_post t g args w : sized t g ->
  post (set_traps t g args) w (fun '(_, t', g') _ => rtc trap_change (t, g) (t', g')).
Proof.
  intros Hs. destruct args as [|first rest]; simpl; [by apply post_ret|].
  destruct (unsigned_decimal first) eqn:Eu; (destruct (bool_decide _);
    [apply post_bind, trap_diagnostic_post; intros w'; by apply post_ret|]);
    apply install_operands_post; try done.
  destruct (str_eqb first (bs "-")) eqn:E; bsimp; simpl; [done|by split].
Qed.

Lemma csh_traps_builtin_post t g argv w : sized t g ->
  post (csh_traps_builtin (Some t) g argv) w (fun '(_, ot, g') _ =>
    exists t', ot = Some t' /\ rtc trap_change (t, g) (t', g')).
Proof.
  intros Hs. unfold csh_traps_builtin. destruct (trap_option (tail argv)) as [x|[listing ops]].
  { apply post_bind, trap_diagnostic_post. intros w'. apply post_ret. by exists t. }
  destruct (listing || _).
  - apply post_bind. unfold post at 1. destruct (_ w) as [rc w']. apply post_ret. by exists t.
  - apply post_bind. eapply post_mono; [by apply set_traps_post|]. intros [[rc t'] g'] w' H.
    apply post_ret. by exists t'.
Qed.

(** ** The life of a trap table

    From its creation the shell runs the builtin, receives signals and takes
    pending actions, in any order. *)

Inductive trap_step : csh_traps * signals -> csh_traps * signals -> Prop :=
  | step_builtin t g argv w rc t' g' w' :
      csh_traps_builtin (Some t) g argv w = ((rc, Some t', g'), w') -> trap_step (t, g) (t', g')
  | step_deliver t g n g' : valid_signal n = true -> deliver g n = Some g' -> trap_step (t, g) (t, g')
  | step_take t g w r a g' w' :
      csh_traps_take (Some t) g w = ((r, a, g'), w') -> trap_step (t, g) (t, g').

(** [s] is the state after the creation from the dispositions [g0]. *)
Definition created (interactive : bool) (g0 : signals) (s : csh_traps * signals) : Prop :=
  exists w w', csh_traps_create interactive g0 w = ((0, ENONE, Some s.1, s.2), w').

(** Ignoring SIGCHLD is kept as a function that does nothing. *)
Definition child_kept (t : csh_traps) (g0 : signals) (n : Z) (a : sigact) : Prop :=
  n = SIGCHLD /\ handler_of g0 SIGCHLD = SIG_IGN /\ sa_handler a = ignore_child /\ child_ignored t = true.

(** What signal [n] was when the shell started, up to [child_kept]. *)
Definition original (t : csh_traps) (g0 : signals) (n : Z) (a : sigact) : Prop :=
  a = action_of g0 n \/ child_kept t g0 n a.

Record traps_inv (interactive : bool) (g0 : signals) (t : csh_traps) (g : signals) : Prop := {
  inv_sized : sized t g;
  inv_active : sg_active g = true;
  inv_entry : forall n, is_trap n -> entry_ignore t n = negb interactive && ignored_now g0 n;
  inv_original : forall n, is_trap n -> original_ignore t n = ignored_now g0 n;
  inv_exit : storable_option (exit_action t) /\ exit_inherited t = false;
  inv_installed : forall n, 0 < n < 128 -> te_installed (entry_of t n) = true ->
    settable n = true /\ entry_ignore t n = false /\
    exists a, te_action (entry_of t n) = Some a /\ storable a /\
      te_ignored (entry_of t n) = bool_decide (a = []) /\
      action_of g n = plain_action (trap_handler n a) /\ original t g0 n (te_previous (entry_of t n));
  inv_free : forall n, 0 < n < 128 -> te_installed (entry_of t n) = false ->
    te_action (entry_of t n) = None /\ te_ignored (entry_of t n) = false /\ original t g0 n (action_of g n);
  inv_pending : forall n, 0 < n < 128 -> is_pending g n = true ->
    te_installed (entry_of t n) = true /\ te_ignored (entry_of t n) = false;
  inv_child : child_ignored t = true ->
    handler_of g0 SIGCHLD = SIG_IGN /\ sa_handler (baseline t g SIGCHLD) = ignore_child
}.

Lemma created_inv interactive g0 t g : created interactive g0 (t, g) -> traps_inv interactive g0 t g.
Proof.
  intros (w & w' & H). simpl in H. unfold csh_traps_create in H. destruct (sg_active g0); [done|].
  unfold bind, ret in H. destruct (malloc w) as [ok w1]. destruct ok; [|done]. cbn [negb] in H.
  injection H as <- <- _. split.
  - split; apply length_replicate.
  - done.
  - intros n Hn. unfold entry_ignore. simpl. destruct interactive; [apply nth_replicate|by apply nth_map_numbers].
  - intros n Hn. by apply nth_map_numbers.
  - done.
  - intros n Hn. unfold entry_of. simpl. by rewrite nth_replicate.
  - intros n Hn _. unfold entry_of. simpl. rewrite nth_replicate. split_and!; [done..|]. by left.
  - intros n Hn. unfold is_pending. simpl. by rewrite nth_replicate.
  - done.
Qed.

Lemma original_mono t t' g0 n a : (child_ignored t = true -> child_ignored t' = true) ->
  original t g0 n a -> original t' g0 n a.
Proof. intros Hc [?|(?&?&?&?)]; [by left|right; by repeat split; auto]. Qed.

Lemma baseline_original i g0 t g n : traps_inv i g0 t g -> 0 < n < 128 -> original t g0 n (baseline t g n).
Proof.
  intros Hi Hn. unfold baseline. destruct (te_installed (entry_of t n)) eqn:E.
  - destruct (inv_installed _ _ _ _ Hi n Hn E) as (_ & _ & a & _ & _ & _ & _ & H). done.
  - by destruct (inv_free _ _ _ _ Hi n Hn E) as (_ & _ & H).
Qed.

(** An operation at [n] keeps the invariant when the facts about [n] hold. *)
Lemma only_at_inv i g0 t g n t' g' : traps_inv i g0 t g -> 0 < n < 128 -> only_at n t t' g g' ->
  (child_ignored t = true -> child_ignored t' = true) ->
  (if te_installed (entry_of t' n) then
     settable n = true /\ entry_ignore t n = false /\
     exists a, te_action (entry_of t' n) = Some a /\ storable a /\
       te_ignored (entry_of t' n) = bool_decide (a = []) /\
       action_of g' n = plain_action (trap_handler n a) /\ original t' g0 n (te_previous (entry_of t' n))
   else te_action (entry_of t' n) = None /\ te_ignored (entry_of t' n) = false /\
     original t' g0 n (action_of g' n)) ->
  (n = SIGCHLD -> child_ignored t' = true ->
    handler_of g0 SIGCHLD = SIG_IGN /\ sa_handler (baseline t' g' SIGCHLD) = ignore_child) ->
  (n <> SIGCHLD -> child_ignored t' = child_ignored t) ->
  traps_inv i g0 t' g'.
Proof.
  intros Hi Hn (Hs & [He Ho] & Hx & Hy & Ha & Hp & Hm) Hc Hat Hch1 Hch2.
  assert (forall m, entry_ignore t' m = entry_ignore t m) as He' by (intros; unfold entry_ignore; by rewrite He).
  split.
  - done.
  - rewrite Ha. apply Hi.
  - intros m Hm'. rewrite He'. by apply Hi.
  - intros m Hm'. unfold original_ignore. rewrite Ho. by apply Hi.
  - rewrite Hx, Hy. apply Hi.
  - intros m Hm' E. rewrite He'. destruct (decide (m = n)) as [->|Hne]; [by rewrite E in Hat|].
    destruct (Hm m ltac:(lia) Hne) as (H1 & H2 & _). rewrite H1, H2 in *.
    destruct (inv_installed _ _ _ _ Hi m Hm' E) as (? & ? & a & ? & ? & ? & ? & ?).
    split_and!; [done..|]. exists a. split_and!; [done..|by eapply original_mono].
  - intros m Hm' E. destruct (decide (m = n)) as [->|Hne]; [by rewrite E in Hat|].
    destruct (Hm m ltac:(lia) Hne) as (H1 & H2 & _). rewrite H1, H2 in *.
    destruct (inv_free _ _ _ _ Hi m Hm' E) as (? & ? & ?). split_and!; [done..|by eapply original_mono].
  - intros m Hm' E. destruct (decide (m = n)) as [->|Hne]; [by rewrite Hp in E|].
    destruct (Hm m ltac:(lia) Hne) as (H1 & _ & H3). rewrite H1, H3 in *. by apply Hi.
  - destruct (decide (n = SIGCHLD)) as [->|Hne]; [by apply Hch1|]. rewrite Hch2 by done. intros Hct.
    destruct (inv_child _ _ _ _ Hi Hct) as [H1 H2]. split; [done|]. unfold baseline in *.
    destruct (Hm SIGCHLD ltac:(done) ltac:(done)) as (-> & -> & _). done.
Qed.

Lemma installs_inv i g0 t g n a t' g' : traps_inv i g0 t g -> is_trap n -> storable_option a ->
  installs t g n a t' g' -> traps_inv i g0 t' g'.
Proof.
  intros Hi Hn Hst H. pose proof (baseline_original i g0 t g n Hi) as Hb. unfold is_trap in Hn.
  destruct H as [a|n a Hn0 He|n t' g' Hn0 He Ho Hent Hact|n a t' g' Hn0 He Hset Ho Hch Hent Hact].
  - destruct Hi. split; try done.
  - done.
  - assert (child_ignored t = true -> child_ignored t' = true) as Hc
      by (intros Hc; destruct (_ && _); destruct Hact as [? ->]; done).
    specialize (Hb ltac:(lia)).
    apply (only_at_inv i g0 t g n t' g' Hi); [lia|done|done| | |].
    2: { intros -> Hct. unfold baseline at 1. rewrite Hent. simpl. rewrite Z.eqb_refl in Hact. cbn [andb] in Hact.
      destruct (is_ignored (baseline t g SIGCHLD)) eqn:E.
      - apply bool_decide_eq_true in E. split; [|apply Hact].
        destruct Hb as [Hb|(_ & ? & _)]; [|done]. unfold handler_of. by rewrite <- Hb.
      - destruct Hact as [Hact Hc']. rewrite Hc' in Hct. rewrite Hact. by apply (inv_child _ _ _ _ Hi). }
    2: { intros Hne. apply Z.eqb_neq in Hne. rewrite Hne in Hact. apply Hact. }
    rewrite Hent. simpl. split_and!; [done..|].
    destruct ((n =? SIGCHLD) && is_ignored (baseline t g n)) eqn:E; cycle 1.
    { destruct Hact as [-> Hc']. eapply original_mono; [|exact Hb]. by rewrite Hc'. }
    apply andb_true_iff in E as [E1 E2]. apply Z.eqb_eq in E1 as ->. apply bool_decide_eq_true in E2.
    destruct Hact as [Hh Hct]. right. destruct Hb as [Hb|(_ & _ & Hb & _)]; [|congruence].
    split_and!; [done| |done|done]. unfold handler_of. by rewrite <- Hb.
  - apply (only_at_inv i g0 t g n t' g' Hi); [lia|done|by rewrite Hch| | |done].
    2: { intros -> Hct. rewrite Hch in Hct. destruct (inv_child _ _ _ _ Hi Hct) as [H1 H2]. split; [done|].
      unfold baseline at 1. rewrite Hent. done. }
    rewrite Hent. simpl.
    split_and!; [done..|]. exists a. split_and!; [done..|]. eapply original_mono; [|apply Hb; lia]. by rewrite Hch.
Qed.

Lemma trap_changes_inv i g0 s s' : rtc trap_change s s' -> traps_inv i g0 s.1 s.2 -> traps_inv i g0 s'.1 s'.2.
Proof.
  induction 1 as [|s1 s2 s3 (n & a & Hn & Ha & Hi) _ IH]; [done|]. intros H. apply IH. by eapply installs_inv.
Qed.

(** Clearing or keeping flags, with the rest of the signal state unchanged. *)
Definition fewer_pending (g g' : signals) : Prop :=
  sg_actions g' = sg_actions g /\ sg_active g' = sg_active g /\
  length (sg_pending g') = length (sg_pending g) /\
  forall n, 0 < n < 128 -> is_pending g' n = true -> is_pending g n = true.

Lemma fewer_pending_inv i g0 t g g' : traps_inv i g0 t g -> fewer_pending g g' -> traps_inv i g0 t g'.
Proof.
  intros Hi (Ha & Hb & Hl & Hp). destruct Hi as [[Hs1 Hs2] ?????? Hq Hch].
  assert (forall n, action_of g' n = action_of g n) as Hact by (intros n; unfold action_of; by rewrite Ha).
  split; try done.
  - split; [done|]. by rewrite Hl.
  - by rewrite Hb.
  - intros n Hn E. rewrite Hact. auto.
  - intros n Hn E. rewrite Hact. auto.
  - intros n Hn E. auto.
  - intros E. unfold baseline in *. rewrite Hact. auto.
Qed.

Lemma take_loop_post t numbers g w : length (sg_pending g) = TRAP_LIMIT ->
  Forall (fun n => 0 < n < 128) numbers ->
  post (take_loop t numbers g) w (fun '(_, _, g') _ => fewer_pending g g').
Proof.
  intros Hl Hall. revert g w Hl. induction Hall as [|n numbers Hn _ IH]; intros g w Hl; simpl.
  { by apply post_ret. }
  assert (fewer_pending g (set_pending g n false)) as Hclear.
  { split_and!; [done|done|simpl; by rewrite length_insert|]. intros m Hm. unfold is_pending. simpl.
    rewrite nth_insert by (rewrite ?Hl, ?limit; lia). by destruct (m =? n). }
  destruct (negb (is_pending g n)); [by apply IH|]. destruct (te_action _).
  - apply post_bind, post_malloc. intros ok w' _ _. destruct ok; by apply post_ret.
  - eapply post_mono; [apply IH; simpl; by rewrite length_insert|]. intros [[r a] g'] w' (H1 & H2 & H3 & H4).
    destruct Hclear as (H5 & H6 & H7 & H8). split_and!; [congruence..|]. auto.
Qed.

Lemma trap_numbers_range : Forall (fun n => 0 < n < 128) trap_numbers.
Proof. apply Forall_forall. intros n Hn%trap_numbers_elem. lia. Qed.

(** The dispositions at the start have none of the handler of the table. *)
Definition fresh (g0 : signals) : Prop := forall n, handler_of g0 n <> record_signal.

Lemma deliver_inv i g0 t g n g' : fresh g0 -> traps_inv i g0 t g -> valid_signal n = true ->
  deliver g n = Some g' -> traps_inv i g0 t g'.
Proof.
  intros Hf Hi Hv Hd. apply valid_signal_range in Hv. unfold deliver in Hd.
  assert (forall h, traps_inv i g0 t h -> traps_inv i g0 t (csh_jobs_note_signal h n)) as Hnote.
  { intros h Hh. unfold csh_jobs_note_signal.
    eapply fewer_pending_inv; [exact Hh|]. by destruct (n =? SIGINT), (n =? SIGHUP). }
  destruct (handler_of g n) eqn:Eh; simplify_eq; try done; [|by apply Hnote].
  unfold run_record_signal. rewrite limit. replace ((0 <? n) && (n <? 128)) with true by (symmetry; bsimp; lia).
  enough (traps_inv i g0 t (set_pending g n true)) by (destruct (negb (n =? SIGHUP)); auto).
  destruct (inv_sized _ _ _ _ Hi) as [Hs1 Hs2].
  assert (te_installed (entry_of t n) = true /\ te_ignored (entry_of t n) = false) as Hn.
  { destruct (te_installed (entry_of t n)) eqn:E.
    - destruct (inv_installed _ _ _ _ Hi n ltac:(lia) E) as (_ & _ & a & _ & _ & Hig & Hact & _).
      split; [done|]. rewrite Hig. unfold handler_of in Eh. rewrite Hact in Eh. simpl in Eh.
      unfold trap_handler in Eh. destruct (bool_decide (a = [])); [by destruct (n =? SIGCHLD)|done].
    - destruct (inv_free _ _ _ _ Hi n ltac:(lia) E) as (_ & _ & [Ho|(_ & _ & Ho & _)]).
      + unfold handler_of in Eh. rewrite Ho in Eh. by destruct (Hf n).
      + unfold handler_of in Eh. congruence. }
  destruct Hi as [Hs ?????? Hp ?]. split; try done.
  - split; [done|]. simpl. by rewrite length_insert.
  - intros m Hm. rewrite (is_pending_set t) by (done || unfold is_trap; lia).
    destruct (m =? n) eqn:E; [|auto]. apply Z.eqb_eq in E as ->. done.
Qed.

Lemma trap_step_inv i g0 s s' : fresh g0 -> traps_inv i g0 s.1 s.2 -> trap_step s s' -> traps_inv i g0 s'.1 s'.2.
Proof.
  intros Hf Hi H. destruct H as [t g argv w rc t' g' w' Hb|t g n g' Hv Hd|t g w r a g' w' Ht]; cbn [fst snd] in *.
  - pose proof (csh_traps_builtin_post t g argv w (inv_sized _ _ _ _ Hi)) as Hp. unfold post in Hp.
    rewrite Hb in Hp. destruct Hp as (t1 & [= <-] & Hr). by apply (trap_changes_inv i g0 _ _ Hr).
  - by eapply deliver_inv.
  - unfold csh_traps_take in Ht.
    pose proof (take_loop_post t trap_numbers g w (proj2 (inv_sized _ _ _ _ Hi)) trap_numbers_range) as Hp.
    unfold post in Hp. rewrite Ht in Hp. by eapply fewer_pending_inv.
Qed.

Lemma reachable_inv i g0 s s' : fresh g0 -> created i g0 s -> rtc trap_step s s' -> traps_inv i g0 s'.1 s'.2.
Proof.
  intros Hf Hc Hr. assert (traps_inv i g0 s.1 s.2) as Hi by (apply created_inv; by destruct s).
  clear Hc. induction Hr as [|s1 s2 s3 H _ IH]; [done|]. apply IH. by eapply trap_step_inv.
Qed.

(** ** Loops over the signals

    A loop whose step at [i] changes the view of [i] only. *)

Section Pointwise.
Context {S A : Type} (f : S -> Z -> S) (ok : S -> Prop) (view : S -> Z -> A) (upd : A -> Z -> A).
Context (f_ok : forall s i, ok s -> 0 < i < 128 -> ok (f s i)).
Context (f_ne : forall s i m, ok s -> 0 < i < 128 -> 0 < m < 128 -> m <> i -> view (f s i) m = view s m).
Context (f_eq : forall s i, ok s -> 0 < i < 128 -> view (f s i) i = upd (view s i) i).

Lemma foldl_ok l s : Forall (fun n => 0 < n < 128) l -> ok s -> ok (foldl f s l).
Proof. intros Hl. revert s. induction Hl; simpl; auto. Qed.

Lemma foldl_skip l s m : Forall (fun n => 0 < n < 128) l -> ok s -> 0 < m < 128 -> m ∉ l ->
  view (foldl f s l) m = view s m.
Proof.
  intros Hl. revert s. induction Hl as [|i l Hi Hl IH]; intros s Hs Hm Hin; simpl; [done|].
  apply not_elem_of_cons in Hin as [Hne Hin]. rewrite IH by auto. by apply f_ne.
Qed.

Lemma foldl_at s m : ok s -> 0 < m < 128 -> view (foldl f s trap_numbers) m = upd (view s m) m.
Proof.
  assert (forall l s, NoDup l -> Forall (fun n => 0 < n < 128) l -> ok s -> 0 < m < 128 -> m ∈ l ->
    view (foldl f s l) m = upd (view s m) m) as H.
  { intros l. induction l as [|i l IH]; intros s1 Hnd Hl Hs Hm Hin; [by apply not_elem_of_nil in Hin|].
    apply NoDup_cons in Hnd as [Hni Hnd]. apply Forall_cons in Hl as [Hi Hl]. simpl.
    apply elem_of_cons in Hin as [->|Hin].
    - rewrite foldl_skip by auto. by apply f_eq.
    - rewrite IH by auto. rewrite f_ne; [done..|]. by intros ->. }
  intros Hs Hm. apply H; [apply NoDup_seqZ|apply trap_numbers_range|done|done|].
  apply trap_numbers_elem. lia.
Qed.
End Pointwise.

(** ** Destruction *)

Lemma destroy_entry_at t g m : sized t g -> 0 < m < 128 ->
  action_of (foldl (destroy_entry t) g trap_numbers) m =
    (if te_installed (entry_of t m) && settable m then te_previous (entry_of t m) else action_of g m) /\
  is_pending (foldl (destroy_entry t) g trap_numbers) m = false.
Proof.
  intros Hs Hm.
  pose proof (foldl_at (destroy_entry t) (sized t) (fun g m => (action_of g m, is_pending g m))
    (fun ap i => (if te_installed (entry_of t i) && settable i then te_previous (entry_of t i) else ap.1, false)))
    as H.
  assert (forall s i, sized t s -> sized t (if te_installed (entry_of t i)
    then put_action s i (te_previous (entry_of t i)) else s)) as Hput.
  { intros s i Hs'. destruct (te_installed _); [by apply sized_put|done]. }
  specialize (H ltac:(intros s i Hs' Hi; split; [apply Hs'|]; unfold destroy_entry; simpl;
    rewrite length_insert; by apply Hput)).
  specialize (H ltac:(intros s i n Hs' Hi Hn Hne; unfold destroy_entry; rewrite action_of_flag,
    (is_pending_set t) by (auto || unfold is_trap; lia); rewrite (proj2 (Z.eqb_neq n i) Hne);
    destruct (te_installed _); [by rewrite put_action_ne, put_action_pending|done])).
  specialize (H ltac:(intros s i Hs' Hi; unfold destroy_entry; rewrite action_of_flag,
    (is_pending_set t) by (auto || unfold is_trap; lia); rewrite Z.eqb_refl; f_equal; simpl;
    destruct (te_installed _); [rewrite action_of_put, Z.eqb_refl, andb_true_r|]; done) g m Hs Hm).
  simpl in H. by injection H.
Qed.

(** C34: a trap table gives the signals back.  Whatever traps were set, reset,
    delivered and taken since it was created, destroying it leaves every signal
    with the disposition it had then, no flag pending and no table active.
    Only an ignored SIGCHLD may stay as a handler that does nothing, which is
    recorded in [child_ignored]. *)
Theorem traps_destroy_restores (interactive : bool) (g0 : signals) (s : csh_traps * signals)
    (t : csh_traps) (g : signals) (n : Z)
    (Hfresh : fresh g0) (Hcreated : created interactive g0 s) (Hrun : rtc trap_step s (t, g))
    (Hn : 0 < n < 128) :
  let g' := csh_traps_destroy (Some t) g in
  (action_of g' n = action_of g0 n \/ child_kept t g0 n (action_of g' n)) /\
  is_pending g' n = false /\ sg_active g' = false.
Proof.
  pose proof (reachable_inv _ _ _ _ Hfresh Hcreated Hrun) as Hi. cbn [fst snd] in Hi. cbv zeta.
  destruct (destroy_entry_at t g n (inv_sized _ _ _ _ Hi) Hn) as [Ha Hp].
  unfold csh_traps_destroy. revert Ha Hp. generalize (foldl (destroy_entry t) g trap_numbers). intros g1 Ha Hp.
  split_and!; [|exact Hp|reflexivity].
  change (action_of (with_active g1 false) n) with (action_of g1 n). rewrite Ha.
  pose proof (baseline_original _ _ _ _ n Hi Hn) as Hb. unfold baseline in Hb.
  destruct (te_installed (entry_of t n)) eqn:E; [|exact Hb].
  destruct (inv_installed _ _ _ _ Hi n Hn E) as (-> & _). exact Hb.
Qed.

(** ** Program execution *)

Definition exec_action (recover : bool) (t : csh_traps) (i : Z) (a : sigact) : sigact :=
  let e := entry_of t i in
  if negb (te_installed e) then
    if (i =? SIGCHLD) && child_ignored t
    then plain_action (if recover then ignore_child else SIG_IGN) else a
  else if negb recover && ((i =? SIGINT) || (i =? SIGQUIT)) && is_ignored a then a
  else plain_action
      (if te_ignored e then (if recover && (i =? SIGCHLD) then ignore_child else SIG_IGN)
       else if recover then record_signal else SIG_DFL).

Lemma exec_entry_put recover t g i : valid_signal i = true \/ te_installed (entry_of t i) = false ->
  (te_installed (entry_of t i) = true -> settable i = true) ->
  action_of (exec_entry recover t g i) i = exec_action recover t i (action_of g i).
Proof.
  intros Hv Hset. unfold exec_entry, exec_action, get_action. destruct (te_installed (entry_of t i)); simpl.
  - destruct Hv as [->|?]; [|done]. destruct (_ && is_ignored _); [done|]. rewrite put_action_at by auto. done.
  - destruct ((i =? SIGCHLD) && _) eqn:E; [|done]. apply andb_true_iff in E as [->%Z.eqb_eq _].
    by rewrite put_action_at.
Qed.

Lemma exec_entry_ne recover t g i m : m <> i -> action_of (exec_entry recover t g i) m = action_of g m.
Proof.
  intros Hne. unfold exec_entry. destruct (negb (te_installed _)).
  - destruct (_ && _); [by apply put_action_ne|done].
  - destruct (_ && _ && _); [done|by apply put_action_ne].
Qed.

Lemma exec_signals_at recover t g m : 0 < m < 128 ->
  (forall n, 0 < n < 128 -> te_installed (entry_of t n) = true -> settable n = true) ->
  action_of (csh_traps_exec_signals (Some t) recover g) m = exec_action recover t m (action_of g m).
Proof.
  intros Hm Hset. simpl.
  apply (foldl_at (exec_entry recover t) (fun _ => True) action_of (fun a i => exec_action recover t i a));
    [done| |..|done|done].
  - intros. by apply exec_entry_ne.
  - intros g1 i _ Hi. apply exec_entry_put; [|auto]. destruct (te_installed (entry_of t i)) eqn:E; [|auto].
    left. by apply settable_valid, Hset.
Qed.

(** The signals of an executed program.  At any point of the life of a trap
    table, preparing for exec makes caught signals default, keeps trapped-ignored
    signals ignored and leaves every other signal, an ignored SIGCHLD included,
    as it was when the shell started; when exec fails, recovering gives every
    signal the handler it had before. *)
Theorem traps_exec_dispositions (interactive : bool) (g0 : signals) (s : csh_traps * signals)
    (t : csh_traps) (g : signals) (n : Z)
    (Hfresh : fresh g0) (Hcreated : created interactive g0 s) (Hrun : rtc trap_step s (t, g))
    (Hn : 0 < n < 128) :
  let g1 := csh_traps_exec_signals (Some t) false g in
  handler_of g1 n =
    match te_action (entry_of t n) with
    | Some a => if bool_decide (a = []) then SIG_IGN else SIG_DFL
    | None => handler_of g0 n
    end /\
  handler_of (csh_traps_exec_signals (Some t) true g1) n = handler_of g n.
Proof.
  pose proof (reachable_inv _ _ _ _ Hfresh Hcreated Hrun) as Hi. cbn [fst snd] in Hi. cbv zeta.
  assert (forall m, 0 < m < 128 -> te_installed (entry_of t m) = true -> settable m = true) as Hset.
  { intros m Hm E. by destruct (inv_installed _ _ _ _ Hi m Hm E). }
  unfold handler_of. rewrite !exec_signals_at by done. unfold exec_action.
  destruct (te_installed (entry_of t n)) eqn:E; cbn [negb andb].
  - destruct (inv_installed _ _ _ _ Hi n Hn E) as (_ & _ & a & Ha & _ & -> & Hact & _).
    rewrite Ha, Hact. unfold trap_handler, is_ignored. simpl.
    destruct (bool_decide (a = [])), (n =? SIGCHLD) eqn:Ec, ((n =? SIGINT) || (n =? SIGQUIT)); done.
  - destruct (inv_free _ _ _ _ Hi n Hn E) as (-> & _ & Ho).
    destruct ((n =? SIGCHLD) && child_ignored t) eqn:Ec.
    + apply andb_true_iff in Ec as [->%Z.eqb_eq Hc]. destruct (inv_child _ _ _ _ Hi Hc) as [H1 H2].
      unfold baseline in H2. rewrite E in H2. simpl. by rewrite <- H1, H2.
    + split; [|done]. destruct Ho as [->|(-> & _ & _ & Hc)]; [done|]. by rewrite Hc in Ec.
Qed.

(** ** Taking pending actions *)

Lemma take_loop_calm t g w numbers : calm w ->
  (forall n, n ∈ numbers -> is_pending g n = true -> is_Some (te_action (entry_of t n))) ->
  take_loop t numbers g w =
    (match List.find (is_pending g) numbers with
     | Some n => (n, te_action (entry_of t n), set_pending g n false)
     | None => (0, None, g)
     end, w).
Proof.
  intros Hc. induction numbers as [|n numbers IH]; intros Hs; simpl; [done|].
  destruct (is_pending g n) eqn:E; simpl.
  - destruct (Hs n ltac:(left) E) as [a Ha]. rewrite Ha. unfold bind. by rewrite malloc_calm.
  - apply IH. intros m Hm. apply Hs. by right.
Qed.

(** Taking until nothing is pending, as the dispatcher of the shell does. *)
Fixpoint take_all (fuel : nat) (t : csh_traps) (g : signals) (w : proc)
    : option (list (Z * option str) * signals) :=
  match fuel with
  | O => None
  | S f =>
      let '((r, a, g'), w') := csh_traps_take (Some t) g w in
      if r =? 0 then Some ([], g') else
      match take_all f t g' w' with
      | Some (taken, g'') => Some ((r, a) :: taken, g'')
      | None => None
      end
  end.

Definition pending_list (g : signals) : list Z := filter (fun n => is_pending g n = true) trap_numbers.

Lemma filter_find {A} (p : A -> bool) l :
  match List.find p l with
  | Some x => exists r, filter (fun y => p y = true) l = x :: r
  | None => filter (fun y => p y = true) l = []
  end.
Proof.
  induction l as [|x l IH]; simpl; [done|]. rewrite filter_cons. destruct (p x) eqn:E.
  - rewrite decide_True by done. by eexists.
  - rewrite decide_False by congruence. done.
Qed.

Lemma filter_ext_in {A} (P Q : A -> Prop) `{!forall x, Decision (P x), !forall x, Decision (Q x)} (l : list A) :
  (forall x, x ∈ l -> P x <-> Q x) -> filter P l = filter Q l.
Proof.
  induction l as [|x l IH]; intros Hl; [done|]. rewrite !filter_cons, IH by (intros y Hy; apply Hl; by right).
  pose proof (Hl x ltac:(left)). destruct (decide (P x)), (decide (Q x)); tauto.
Qed.

Lemma filter_all {A} (P : A -> Prop) `{!forall x, Decision (P x)} (l : list A) :
  (forall x, x ∈ l -> P x) -> filter P l = l.
Proof.
  induction l as [|x l IH]; intros Hl; [done|]. rewrite filter_cons, decide_True by (apply Hl; left).
  f_equal. apply IH. intros y Hy. apply Hl. by right.
Qed.

Lemma filter_clear g t n r l : sized t g -> Forall (fun n => 0 < n < 128) l -> NoDup l ->
  filter (fun n => is_pending g n = true) l = n :: r ->
  filter (fun m => is_pending (set_pending g n false) m = true) l = r.
Proof.
  intros Hs Hl Hnd Hf.
  assert (n ∈ filter (fun n => is_pending g n = true) l) as Hn by (rewrite Hf; left).
  apply list_elem_of_filter in Hn as [_ Hn].
  assert (0 < n < 128) as Hr by (rewrite Forall_forall in Hl; by apply Hl).
  assert (filter (fun m => is_pending (set_pending g n false) m = true) l =
    filter (fun m => m <> n) (filter (fun n => is_pending g n = true) l)) as ->.
  { rewrite list_filter_filter. apply filter_ext_in. intros m Hm.
    rewrite Forall_forall in Hl. specialize (Hl m Hm).
    rewrite (is_pending_set t) by (done || unfold is_trap; lia).
    destruct (m =? n) eqn:E; bsimp; [subst|]; intuition congruence. }
  assert (NoDup (n :: r)) as Hnd' by (rewrite <- Hf; by apply NoDup_filter).
  apply NoDup_cons in Hnd' as [Hnr _]. rewrite Hf, filter_cons, decide_False by auto.
  apply filter_all. by intros x Hx ->.
Qed.

Lemma take_all_pending i g0 t f g w : calm w -> traps_inv i g0 t g ->
  (length (pending_list g) < f)%nat ->
  exists g', take_all f t g w = Some (map (fun n => (n, te_action (entry_of t n))) (pending_list g), g') /\
    pending_list g' = [] /\ sg_actions g' = sg_actions g.
Proof.
  intros Hc. revert g. induction f as [|f IH]; intros g Hi Hf; [lia|]. cbn [take_all csh_traps_take].
  assert (forall n, n ∈ trap_numbers -> is_pending g n = true -> is_Some (te_action (entry_of t n))) as Hs.
  { intros n Hn%trap_numbers_elem Hp. destruct (inv_pending _ _ _ _ Hi n ltac:(lia) Hp) as [H1 H2].
    destruct (inv_installed _ _ _ _ Hi n ltac:(lia) H1) as (_ & _ & a & -> & _). by eexists. }
  rewrite take_loop_calm by done. pose proof (filter_find (is_pending g) trap_numbers) as Hff.
  destruct (List.find (is_pending g) trap_numbers) as [n|] eqn:Efind.
  - destruct Hff as [r Hr]. pose proof (filter_clear g t n r trap_numbers (inv_sized _ _ _ _ Hi)
      trap_numbers_range (NoDup_seqZ _ _) Hr) as Hcl.
    apply find_some in Efind as [Hin _]. apply list_elem_of_In, trap_numbers_elem in Hin.
    replace (n =? 0) with false by (symmetry; bsimp; lia).
    assert (traps_inv i g0 t (set_pending g n false)) as Hi'.
    { eapply fewer_pending_inv; [exact Hi|]. destruct (inv_sized _ _ _ _ Hi) as [Hs1 Hs2].
      split_and!; [done|done|simpl; by rewrite length_insert|].
      intros m Hm. rewrite (is_pending_set t) by (done || unfold is_trap; lia). by destruct (m =? n). }
    destruct (IH _ Hi') as (g' & -> & Hp & Ha).
    { unfold pending_list in *. rewrite Hcl. rewrite Hr in Hf. simpl in Hf. lia. }
    exists g'. unfold pending_list in *. rewrite Hcl, Hr. done.
  - exists g. unfold pending_list. by rewrite Hff.
Qed.

Lemma seqZ_sorted m k : StronglySorted Z.lt (seqZ m (Z.of_nat k)).
Proof.
  revert m. induction k as [|k IH]; intros m; [constructor|].
  rewrite seqZ_cons by lia. constructor.
  - replace (Z.pred (Z.of_nat (S k))) with (Z.of_nat k) by lia. apply IH.
  - apply Forall_forall. intros x Hx%elem_of_seqZ. lia.
Qed.

(** No pending trap is lost or run twice.  At any point of the life of a
    table, taking until nothing is pending returns every pending signal once, in
    ascending order, each with the action it has; it ends with no flag set and
    no disposition changed.  A take that runs out of memory clears no flag. *)
Theorem traps_take_in_order (interactive : bool) (g0 : signals) (s : csh_traps * signals)
    (t : csh_traps) (g : signals) (w : proc)
    (Hfresh : fresh g0) (Hcreated : created interactive g0 s) (Hrun : rtc trap_step s (t, g)) :
  (calm w -> exists taken g', take_all TRAP_LIMIT t g w = Some (taken, g') /\
    taken = map (fun n => (n, te_action (entry_of t n))) (pending_list g) /\
    Forall (fun '(_, a) => is_Some a) taken /\ StronglySorted Z.lt (map fst taken) /\
    pending_list g' = [] /\ sg_actions g' = sg_actions g) /\
  post (csh_traps_take (Some t) g) w (fun '(r, a, g') _ => r = -1 -> a = None /\ pending_list g' = pending_list g).
Proof.
  pose proof (reachable_inv _ _ _ _ Hfresh Hcreated Hrun) as Hi. cbn [fst snd] in Hi. split.
  - intros Hc. destruct (take_all_pending _ _ t TRAP_LIMIT g w Hc Hi) as (g' & Hr & Hp & Ha).
    { assert (length (pending_list g) <= length trap_numbers)%nat as Hl by apply length_filter.
      assert (length trap_numbers = 127%nat) as Hlen by (unfold trap_numbers; by rewrite length_seqZ, limit).
      pose proof limit. lia. }
    eexists _, g'. split_and!; [exact Hr|done| | |done|done].
    + apply Forall_map, Forall_forall. intros n [Hn Hin%trap_numbers_elem]%list_elem_of_filter.
      destruct (inv_pending _ _ _ _ Hi n ltac:(lia) Hn) as [H1 H2].
      destruct (inv_installed _ _ _ _ Hi n ltac:(lia) H1) as (_ & _ & a & -> & _). by eexists.
    + rewrite map_map. simpl. rewrite map_id. eapply sublist_sorted; [apply sublist_filter|].
      unfold trap_numbers. rewrite limit. apply (seqZ_sorted 1 127).
  - cbn [csh_traps_take]. pose proof trap_numbers_range as Hall. 
    assert (forall n, n ∈ trap_numbers -> is_pending g n = true -> is_Some (te_action (entry_of t n))) as Hs.
    { intros n Hn%trap_numbers_elem Hp. destruct (inv_pending _ _ _ _ Hi n ltac:(lia) Hp) as [H1 H2].
      destruct (inv_installed _ _ _ _ Hi n ltac:(lia) H1) as (_ & _ & a & -> & _). by eexists. }
    clear Hrun. induction trap_numbers as [|n l IH]; simpl; [by apply post_ret|].
    apply Forall_cons in Hall as [Hn Hall]. destruct (is_pending g n) eqn:E; simpl.
    + destruct (Hs n ltac:(left) E) as [a ->]. apply post_bind, post_malloc.
      intros ok w' _ _. destruct ok; apply post_ret; [lia|done].
    + apply IH; [done|]. intros m Hm. apply Hs. by right.
Qed.

(** ** Forked children *)

Definition fork_view (s : csh_traps * signals) (n : Z) : trap_entry * sigact * bool :=
  (entry_of s.1 n, action_of s.2 n, is_pending s.2 n).

Definition fork_update (asynchronous preserve : bool) (t : csh_traps) (v : trap_entry * sigact * bool) (i : Z)
    : trap_entry * sigact * bool :=
  let '(e, a, _) := v in
  if negb (te_installed e) then (e, a, false) else
  let ignored := original_ignore t i || background_ignore asynchronous i in
  let previous := if te_ignored e && (ignored || negb (i =? SIGCHLD))
                  then plain_action (if ignored then SIG_IGN else SIG_DFL) else te_previous e in
  let h := if background_ignore asynchronous i then SIG_IGN
           else if te_ignored e then (if i =? SIGCHLD then ignore_child else SIG_IGN) else SIG_DFL in
  let action := if negb preserve && negb (te_ignored e) then None else te_action e in
  (mk_entry action previous (te_ignored e) (te_ignored e), plain_action h, false).

Definition settable_traps (s : csh_traps * signals) : Prop :=
  forall n, 0 < n < 128 -> te_installed (entry_of s.1 n) = true -> settable n = true.

Definition fork_ok (t : csh_traps) (s : csh_traps * signals) : Prop :=
  sized s.1 s.2 /\ settable_traps s /\ original_ignored s.1 = original_ignored t /\
  exit_action s.1 = exit_action t /\ exit_inherited s.1 = exit_inherited t /\ sg_active s.2 = true.

Lemma fork_entry_cases asynchronous preserve t g i :
  let e := entry_of t i in
  let g1 := set_pending g i false in
  let '(e', a, _) := fork_update asynchronous preserve t (e, action_of g i, false) i in
  te_installed e = false /\ fork_entry asynchronous preserve (t, g) i = (t, g1) \/
  te_installed e = true /\ exists c,
    fork_entry asynchronous preserve (t, g) i = (with_entry (with_child t c) i e', put_action g1 i a).
Proof.
  cbv zeta. unfold fork_update, fork_entry.
  destruct (te_installed (entry_of t i)) eqn:E; cbn [negb]; [right|left; done]. split; [done|].
  assert ((if te_ignored (entry_of t i) then
      if original_ignore t i || background_ignore asynchronous i || negb (i =? SIGCHLD)
      then plain_action (if original_ignore t i || background_ignore asynchronous i then SIG_IGN else SIG_DFL)
      else te_previous (entry_of t i) else te_previous (entry_of t i)) =
    (if te_ignored (entry_of t i) && (original_ignore t i || background_ignore asynchronous i || negb (i =? SIGCHLD))
     then plain_action (if original_ignore t i || background_ignore asynchronous i then SIG_IGN else SIG_DFL)
     else te_previous (entry_of t i))) as -> by by destruct (te_ignored (entry_of t i)).
  destruct (negb (te_ignored (entry_of t i)) && (i =? SIGCHLD)).
  - exists false. f_equal.
  - exists (child_ignored t). by destruct t.
Qed.

Lemma fork_update_any asynchronous preserve t e a b i :
  fork_update asynchronous preserve t (e, a, b) i = fork_update asynchronous preserve t (e, a, false) i.
Proof. done. Qed.

Lemma fork_entry_view asynchronous preserve t s i m : fork_ok t s -> 0 < i < 128 -> 0 < m < 128 ->
  fork_view (fork_entry asynchronous preserve s i) m =
    if m =? i then fork_update asynchronous preserve t (fork_view s i) i else fork_view s m.
Proof.
  intros (Hs & Hset & Ho & _) Hi Hm. destruct s as [t1 g]. cbn [fst snd] in *.
  assert (forall v, fork_update asynchronous preserve t v i = fork_update asynchronous preserve t1 v i) as Hup.
  { intros [[e a] b]. unfold fork_update, original_ignore. by rewrite Ho. }
  rewrite Hup. unfold fork_view at 2. cbn [fst snd]. rewrite fork_update_any.
  pose proof (fork_entry_cases asynchronous preserve t1 g i) as Hc. cbv zeta in Hc.
  destruct (fork_update asynchronous preserve t1 (entry_of t1 i, action_of g i, false) i) as [[e' a] b] eqn:Ef.
  assert (b = false) as -> by (unfold fork_update in Ef; destruct (negb _); by simplify_eq).
  destruct Hc as [[E Hf]|[E [c Hf]]]; rewrite Hf; unfold fork_view; cbn [fst snd].
  - unfold fork_update in Ef. rewrite E in Ef. simpl in Ef. simplify_eq.
    rewrite action_of_flag, (is_pending_set t1) by (done || unfold is_trap; lia).
    destruct (m =? i) eqn:Em; bsimp; by subst.
  - change (entry_of (with_entry (with_child t1 c) i e') m) with (entry_of (with_entry t1 i e') m).
    rewrite (entry_of_with _ _ _ _ _ Hs) by (unfold is_trap; lia).
    rewrite action_of_put, put_action_pending, action_of_flag, (is_pending_set t1) by (done || unfold is_trap; lia).
    rewrite (Hset i Hi E). simpl. by destruct (m =? i).
Qed.

Lemma fork_entry_ok asynchronous preserve t s i : fork_ok t s -> 0 < i < 128 ->
  fork_ok t (fork_entry asynchronous preserve s i).
Proof.
  intros Hok Hi. pose proof (fork_entry_view asynchronous preserve t s i) as Hv. specialize (Hv).
  assert (settable_traps (fork_entry asynchronous preserve s i)) as Hset.
  { intros m Hm E. specialize (Hv m Hok Hi Hm). destruct Hok as (_ & Hset & _).
    unfold fork_view in Hv. destruct (m =? i) eqn:Em; cycle 1.
    { injection Hv as Hv _ _. rewrite Hv in E. by apply Hset. }
    apply Z.eqb_eq in Em as ->. apply Hset; [done|]. unfold fork_update in Hv.
    destruct (te_installed (entry_of s.1 i)) eqn:E2; [done|]. simpl in Hv. injection Hv as Hv _ _. congruence. }
  clear Hv. destruct s as [t1 g], Hok as (Hs & _ & H1 & H2 & H3 & H4). cbn [fst snd] in *.
  pose proof (fork_entry_cases asynchronous preserve t1 g i) as Hc. cbv zeta in Hc.
  destruct (fork_update asynchronous preserve t1 (entry_of t1 i, action_of g i, false) i) as [[e' a] b].
  destruct Hc as [[_ Hf]|[_ [c Hf]]]; rewrite Hf in *.
  - split_and!; try done. split; [apply Hs|]. simpl. rewrite length_insert. apply Hs.
  - split_and!; try done; cbn [fst snd].
    + apply sized_put. by apply (sized_step _ _ _ _ _ Hs).
    + by destruct (put_action_flags (set_pending g i false) i a) as (_ & -> & _).
Qed.

Lemma fork_loop_at asynchronous preserve t g n : fork_ok t (t, g) -> 0 < n < 128 ->
  fork_view (foldl (fork_entry asynchronous preserve) (t, g) trap_numbers) n =
    fork_update asynchronous preserve t (fork_view (t, g) n) n /\
  fork_ok t (foldl (fork_entry asynchronous preserve) (t, g) trap_numbers).
Proof.
  intros Hok Hn. split.
  - apply (foldl_at (fork_entry asynchronous preserve) (fork_ok t) fork_view (fork_update asynchronous preserve t));
      [by intros; apply fork_entry_ok| | |done|done].
    + intros s i m Hs Hi Hm Hne. rewrite (fork_entry_view _ _ t) by done. by rewrite (proj2 (Z.eqb_neq m i) Hne).
    + intros s i Hs Hi. rewrite (fork_entry_view _ _ t) by done. by rewrite Z.eqb_refl.
  - apply (foldl_ok (fork_entry asynchronous preserve) (fork_ok t)); [|apply trap_numbers_range|done].
    intros. by apply fork_entry_ok.
Qed.

(** What a child has for signal [n], which had the action [a] and the handler
    [h] in its parent. *)
Definition child_handler (asynchronous : bool) (n : Z) (a : option str) (h : handler) : handler :=
  match a with
  | Some a =>
      if background_ignore asynchronous n then SIG_IGN
      else if bool_decide (a = []) then trap_handler n a else SIG_DFL
  | None => if (n =? SIGCHLD) && bool_decide (h = SIG_IGN) then ignore_child else h
  end.

(** C36: the traps of a forked child.  Caught signals become default, or ignored
    for INT and QUIT of a background list; trapped-ignored signals stay ignored;
    untrapped ones keep their handler, except that an ignored SIGCHLD is kept
    without letting the host reap children.  Nothing is pending, the EXIT action
    never runs, and the listing is kept only when asked for.  Resetting an
    ignored signal in the child never reinstates a handler of the parent. *)
Theorem traps_after_fork_correct (interactive asynchronous preserve : bool) (g0 : signals)
    (s : csh_traps * signals) (t : csh_traps) (g : signals) (n : Z) (w : proc)
    (Hfresh : fresh g0) (Hcreated : created interactive g0 s) (Hrun : rtc trap_step s (t, g))
    (Hn : 0 < n < 128) :
  exists t' g', csh_traps_after_fork (Some t) asynchronous preserve g = (Some t', g') /\
    is_pending g' n = false /\
    handler_of g' n = child_handler asynchronous n (te_action (entry_of t n)) (handler_of g n) /\
    te_action (entry_of t' n) =
      match te_action (entry_of t n) with
      | Some a => if preserve || bool_decide (a = []) then Some a else None
      | None => None
      end /\
    csh_traps_exit_action (Some t') w = ((None, ENONE), w) /\
    exit_action t' = (if preserve then exit_action t else None) /\
    (te_action (entry_of t n) = Some [] -> n <> SIGCHLD ->
      te_previous (entry_of t' n) = plain_action
        (if ignored_now g0 n || background_ignore asynchronous n then SIG_IGN else SIG_DFL)).
Proof.
  pose proof (reachable_inv _ _ _ _ Hfresh Hcreated Hrun) as Hi. cbn [fst snd] in Hi.
  unfold csh_traps_after_fork.
  set (t0 := if preserve then _ else _). set (g1 := with_active g true).
  assert (fork_ok t0 (t0, g1)) as Hok.
  { assert (entries t0 = entries t) as He by (unfold t0; by destruct preserve).
    split_and!; try done.
    - destruct (inv_sized _ _ _ _ Hi) as [H1 H2]. split; cbn [fst snd]; [by rewrite He|done].
    - intros m Hm. cbn [fst]. unfold entry_of. rewrite He. intros E.
      by destruct (inv_installed _ _ _ _ Hi m Hm E). }
  destruct (fork_loop_at asynchronous preserve t0 g1 n Hok Hn) as [Hv Hok'].
  destruct (fork_loop_at asynchronous preserve t0 g1 SIGCHLD Hok ltac:(done)) as [Hvc _].
  destruct (foldl (fork_entry asynchronous preserve) (t0, g1) trap_numbers) as [t2 g2].
  destruct Hok' as (_ & _ & _ & Hx1 & Hx2 & _). cbn [fst snd] in *.
  assert (exists c a, preserve_child_ignore t2 g2 = (with_child t2 c, if is_ignored (action_of g2 SIGCHLD)
    then put_action g2 SIGCHLD (mk_sigact ignore_child (sa_mask a) (sa_flags a)) else g2)) as (c & a & ->).
  { unfold preserve_child_ignore, get_action. change (valid_signal SIGCHLD) with true. cbn iota.
    destruct (is_ignored (action_of g2 SIGCHLD)); [by eexists _, (mk_sigact ignore_child _ _)|].
    exists (child_ignored t2), (plain_action SIG_DFL). by destruct t2. }
  eexists _, _. split; [reflexivity|].
  assert (forall m, entry_of t0 m = entry_of t m) as He by (intros; unfold t0; by destruct preserve).
  assert (forall m, action_of g1 m = action_of g m) as Hga by done.
  assert (original_ignore t0 n = ignored_now g0 n) as Horig.
  { transitivity (original_ignore t n); [unfold t0; by destruct preserve|]. apply Hi. unfold is_trap. lia. }
  unfold fork_view in Hv. cbn [fst snd] in Hv. rewrite He, Hga in Hv.
  set (g3 := if is_ignored _ then _ else g2).
  assert (is_pending g3 n = false) as Hp.
  { transitivity (is_pending g2 n); [unfold g3; destruct (is_ignored _); [by rewrite put_action_pending|done]|].
    unfold fork_update in Hv. destruct (negb _); congruence. }
  assert (handler_of g3 n = if (n =? SIGCHLD) && bool_decide (handler_of g2 n = SIG_IGN)
    then ignore_child else handler_of g2 n) as Hh.
  { unfold g3, is_ignored, handler_of. destruct (n =? SIGCHLD) eqn:En; cbn [andb].
    - apply Z.eqb_eq in En as ->. destruct (bool_decide (sa_handler (action_of g2 SIGCHLD) = SIG_IGN));
        [by rewrite put_action_at|done].
    - apply Z.eqb_neq in En. destruct (bool_decide _); [by rewrite put_action_ne|done]. }
  assert (csh_traps_exit_action (Some (with_child t2 c)) w = ((None, ENONE), w)) as Hexit.
  { simpl. rewrite Hx1, Hx2. unfold t0. destruct preserve; simpl; [by destruct (exit_action t)|done]. }
  assert (exit_action (with_child t2 c) = if preserve then exit_action t else None) as Hexit2.
  { simpl. rewrite Hx1. unfold t0. by destruct preserve. }
  change (entry_of (with_child t2 c) n) with (entry_of t2 n). rewrite Hh.
  unfold fork_update in Hv. rewrite Horig in Hv. destruct (te_installed (entry_of t n)) eqn:E; cbn [negb] in Hv.
  - destruct (inv_installed _ _ _ _ Hi n Hn E) as (_ & _ & b & Hb & _ & Hig & Hact & _).
    rewrite Hig, Hb in Hv. injection Hv as He2 Ha2 _. rewrite Hb, He2. cbn [te_action te_previous].
    split_and!; [exact Hp| | |exact Hexit|exact Hexit2|].
    + unfold handler_of. rewrite Ha2. cbn [sa_handler plain_action child_handler]. unfold background_ignore, trap_handler.
      destruct (n =? SIGCHLD) eqn:En; [apply Z.eqb_eq in En as ->; simpl; rewrite andb_false_r;
        by destruct (bool_decide (b = []))|].
      by destruct (bool_decide (b = [])), (asynchronous && ((n =? SIGINT) || (n =? SIGQUIT))).
    + by destruct preserve, (bool_decide (b = [])).
    + intros [= ->] Hne. apply Z.eqb_neq in Hne. rewrite Hne.
      change (bool_decide ([] = [])) with true. cbn [andb negb]. by rewrite orb_true_r.
  - destruct (inv_free _ _ _ _ Hi n Hn E) as (Hnone & _ & _).
    injection Hv as He2 Ha2 _. rewrite He2, Hnone. split_and!; [exact Hp| |done|exact Hexit|exact Hexit2|done].
    unfold handler_of. by rewrite Ha2.
Qed.

(** ** The listing *)

(** The conditions that [trap -p] lists: EXIT and every signal of the host that
    can be trapped. *)
Definition list_numbers : list Z :=
  filter (fun i => (i =? SIGKILL) || (i =? SIGSTOP) || ((0 <? i) && negb (valid_signal i)) = false) all_numbers.

Definition line_action (t : csh_traps) (n : Z) : str := default (bs "-") (listed_action t n true).

Definition trap_line (n : Z) (a : str) : str :=
  bs "trap -- " ++ quote_single a ++ bs " " ++ condition_name n ++ [10].

Lemma list_numbers_cases n : n ∈ list_numbers -> n = 0 \/ settable n = true.
Proof.
  unfold list_numbers. intros [Hc Hin]%list_elem_of_filter. apply elem_of_seqZ in Hin.
  apply orb_false_iff in Hc as [Hk Hv]. unfold settable.
  destruct (decide (n = 0)) as [->|Hne]; [auto|]. right.
  replace (0 <? n) with true in Hv by (symmetry; bsimp; lia).
  apply orb_false_iff in Hk as [-> ->]. simpl in Hv. by apply negb_false_iff in Hv as ->.
Qed.

Lemma settable_listed n : settable n = true -> n ∈ list_numbers.
Proof.
  intros H. pose proof (valid_signal_range _ (settable_valid _ H)). apply list_elem_of_filter. split.
  - unfold settable in H. apply andb_true_iff in H as [[-> ->%negb_true_iff]%andb_true_iff ->%negb_true_iff].
    by rewrite andb_false_r.
  - apply elem_of_seqZ. rewrite limit. lia.
Qed.

(** The name that is printed for a condition is read back as the condition. *)
Lemma condition_name_read n : n ∈ list_numbers -> condition (condition_name n) = n.
Proof.
  intros Hn. assert (0 <= n < 65) as Hr.
  { destruct (list_numbers_cases n Hn) as [->|H]; [lia|].
    pose proof (valid_signal_range _ (settable_valid _ H)). lia. }
  assert (forallb (fun n => negb ((n =? 0) || settable n) || (condition (condition_name n) =? n)) (seqZ 0 65) = true)
    as Hall by (vm_compute; reflexivity).
  rewrite forallb_forall in Hall. specialize (Hall n). rewrite <- list_elem_of_In, elem_of_seqZ in Hall.
  specialize (Hall ltac:(lia)). apply orb_true_iff in Hall as [Hall|Hall]; [|by apply Z.eqb_eq].
  destruct (list_numbers_cases n Hn) as [->|H]; [done|]. by rewrite H, orb_true_r in Hall.
Qed.

Lemma quote_loop_silent p w : silent w -> quote_loop p w = (0, printed (quote_body p ++ bs "'") w).
Proof.
  revert w. induction p as [|c p IH]; intros w Hw; cbn [quote_loop]; [by rewrite write_silent|].
  unfold bind. rewrite write_silent by done. change (0 =? -1) with false. cbn iota.
  rewrite IH by done. rewrite printed_app. unfold quote_body. simpl. by rewrite <- app_assoc.
Qed.

Lemma list_one_silent t n w : silent w ->
  list_one t n true w = (0, printed (trap_line n (line_action t n)) w).
Proof.
  intros Hw. unfold list_one, line_action.
  destruct (listed_action t n true) as [a|] eqn:E; cycle 1.
  { exfalso. unfold listed_action in E. destruct (if n =? 0 then _ else _); [done|]. by destruct (_ && _). }
  rewrite (bind_run _ _ _ _ _ (write_silent _ _ Hw)). change (0 =? -1) with false. cbn iota.
  assert (forall w1, silent w1 -> quote_action a w1 = (0, printed (quote_single a) w1)) as Hq.
  { intros w1 Hw1. unfold quote_action. rewrite (bind_run _ _ _ _ _ (write_silent _ _ Hw1)).
    change (0 =? -1) with false. cbn iota. rewrite quote_loop_silent by done. by rewrite printed_app. }
  rewrite (bind_run _ _ _ _ _ (Hq _ (printed_silent _ _ Hw))). change (0 =? -1) with false. cbn iota.
  rewrite (bind_run _ _ _ _ _ (dprintf_quiet STDOUT _ _ (proj2 (printed_silent _ _ (printed_silent _ _ Hw))))).
  replace (slen (bs " " ++ condition_name n ++ [10]) <? 0) with false by (symmetry; unfold slen; bsimp; lia).
  unfold ret. change (snd (fd_put STDOUT ?s ?v)) with (printed s v). rewrite !printed_app.
  unfold trap_line. cbn [default]. done.
Qed.

Lemma list_all_silent t g l w : silent w ->
  list_all t g true l 0 w =
    (0, printed (filter (fun i => (i =? SIGKILL) || (i =? SIGSTOP) || ((0 <? i) && negb (valid_signal i)) = false) l
      ≫= fun n => trap_line n (line_action t n)) w).
Proof.
  revert w. induction l as [|i l IH]; intros w Hw; cbn [list_all].
  { destruct w. unfold printed, put_stdout, ret. simpl. by rewrite app_nil_r. }
  rewrite filter_cons. destruct ((i =? SIGKILL) || _ || _); [rewrite decide_False by done; by apply IH|].
  rewrite decide_True by done. unfold bind. rewrite list_one_silent by done.
  change (0 =? 0) with true. cbn iota. rewrite IH by done. by rewrite printed_app.
Qed.

(** Running the lines of a listing as commands. *)
Fixpoint run_lines (t : csh_traps) (g : signals) (lines : list (Z * str)) : M (Z * option csh_traps * signals) :=
  match lines with
  | [] => ret (0, Some t, g)
  | (n, a) :: rest =>
      let* (rc, ot, g) := csh_traps_builtin (Some t) g [bs "trap"; bs "--"; a; condition_name n] in
      match ot with
      | Some t => if rc =? 0 then run_lines t g rest else ret (rc, Some t, g)
      | None => ret (rc, None, g)
      end
  end.

Lemma line_storable i g0 t g n : traps_inv i g0 t g -> n ∈ list_numbers ->
  line_action t n = bs "-" \/ storable (line_action t n).
Proof.
  intros Hi Hn. unfold line_action, listed_action. destruct (list_numbers_cases n Hn) as [->|Hset].
  - simpl. destruct (inv_exit _ _ _ _ Hi) as [He _]. destruct (exit_action t) as [a|]; simpl; [by right|by left].
  - pose proof (valid_signal_range _ (settable_valid _ Hset)) as Hr.
    replace (n =? 0) with false by (symmetry; bsimp; lia).
    destruct (te_action (entry_of t n)) as [a|] eqn:Ea.
    + right. simpl. destruct (te_installed (entry_of t n)) eqn:E.
      * destruct (inv_installed _ _ _ _ Hi n ltac:(lia) E) as (_ & _ & b & Hb & Hs & _). congruence.
      * destruct (inv_free _ _ _ _ Hi n ltac:(lia) E) as [H _]. congruence.
    + destruct ((0 <? n) && entry_ignore t n); simpl; [right; by split|by left].
Qed.

Definition line_option (a : str) : option str := if str_eqb a (bs "-") then None else Some a.

Lemma line_command t g n a w : sized t g -> silent w -> n ∈ list_numbers -> a = bs "-" \/ storable a ->
  exists t' g', csh_traps_builtin (Some t) g [bs "trap"; bs "--"; a; condition_name n] w = ((0, Some t', g'), w) /\
    installs t g n (line_option a) t' g'.
Proof.
  intros Hs [Hc Hw] Hn Ha. unfold csh_traps_builtin.
  change (trap_option (tail [bs "trap"; bs "--"; a; condition_name n]))
    with (@inr str _ (false, [a; condition_name n])).
  cbv iota. change (bool_decide ([a; condition_name n] = [])) with false. cbn [orb set_traps].
  assert (unsigned_decimal a = false) as -> by (destruct Ha as [->|[_ Ha]]; done).
  change (bool_decide ([condition_name n] = [])) with false. cbn iota. fold (line_option a). cbn [install_operands].
  rewrite condition_name_read by done. pose proof (list_numbers_cases n Hn) as Hcase.
  assert (is_trap n) as Ht.
  { destruct Hcase as [->|H]; [done|]. pose proof (valid_signal_range _ (settable_valid _ H)). unfold is_trap. lia. }
  replace (n <? 0) with false by (symmetry; unfold is_trap in Ht; bsimp; lia).
  pose proof (install_post t g n (line_option a) w Hs Ht) as Hp. unfold post in Hp. unfold bind at 1 2.
  destruct (install t g n (line_option a) w) as [[[rc t'] g'] w'].
  destruct Hp as [(_ & _ & _ & Hp)|(-> & Hp & Hw')].
  - destruct (Hp Hc) as [H1 H2]. destruct Hcase; congruence.
  - rewrite (Hw' Hc). exists t', g'. done.
Qed.

Lemma line_effect i g0 t g i2 g02 t2 g2 n t' g' : traps_inv i g0 t g -> traps_inv i2 g02 t2 g2 ->
  (forall m, is_trap m -> entry_ignore t2 m = entry_ignore t m) -> n ∈ list_numbers ->
  installs t2 g2 n (line_option (line_action t n)) t' g' ->
  exit_action t' = (if n =? 0 then exit_action t else exit_action t2) /\
  forall m, 0 < m < 128 ->
    te_action (entry_of t' m) = if m =? n then te_action (entry_of t n) else te_action (entry_of t2 m).
Proof.
  intros Hi Hi2 Hsame Hn Hins. destruct (list_numbers_cases n Hn) as [->|Hset].
  { assert (line_option (line_action t 0) = exit_action t) as Hl.
    { unfold line_action, listed_action, line_option. simpl. destruct (inv_exit _ _ _ _ Hi) as [He _].
      destruct (exit_action t) as [a|]; simpl; [|done]. destruct He as [He _]. by rewrite (proj2 (str_eqb_false _ _) He). }
    inversion Hins; subst; try lia. split; [by rewrite Hl|]. intros m Hm.
    by replace (m =? 0) with false by (symmetry; bsimp; lia). }
  pose proof (valid_signal_range _ (settable_valid _ Hset)) as Hr.
  replace (n =? 0) with false by (symmetry; bsimp; lia).
  assert (forall i g0 t g, traps_inv i g0 t g -> entry_ignore t n = true -> te_action (entry_of t n) = None) as Hnone.
  { intros j h0 u h Hj Hig. destruct (te_installed (entry_of u n)) eqn:E.
    - destruct (inv_installed _ _ _ _ Hj n ltac:(lia) E) as (_ & ? & _). congruence.
    - by destruct (inv_free _ _ _ _ Hj n ltac:(lia) E). }
  assert (entry_ignore t2 n = false -> line_option (line_action t n) = te_action (entry_of t n)) as Hl.
  { intros Hig. rewrite Hsame in Hig by (unfold is_trap; lia). unfold line_action, listed_action, line_option.
    replace (n =? 0) with false by (symmetry; bsimp; lia). rewrite Hig, andb_false_r.
    destruct (te_action (entry_of t n)) as [a|] eqn:Ea; [|done]. simpl.
    destruct (te_installed (entry_of t n)) eqn:E.
    - destruct (inv_installed _ _ _ _ Hi n ltac:(lia) E) as (_ & _ & b & Hb & [Hs _] & _).
      assert (a = b) as -> by congruence. by rewrite (proj2 (str_eqb_false _ _) Hs).
    - destruct (inv_free _ _ _ _ Hi n ltac:(lia) E) as [H _]. congruence. }
  inversion Hins as [|? ? ? Hig|? ? ? ? Hig Ho Hent|? ? ? ? ? Hig _ Ho _ Hent]; subst; try lia.
  - split; [done|]. intros m Hm. destruct (m =? n) eqn:E; [|done]. apply Z.eqb_eq in E as ->.
    rewrite (Hnone _ _ _ _ Hi2 Hig). rewrite Hsame in Hig by (unfold is_trap; lia). by rewrite (Hnone _ _ _ _ Hi Hig).
  - destruct Ho as (_ & _ & Hx & _ & _ & _ & Hm). split; [done|]. intros m Hm'.
    destruct (m =? n) eqn:E; bsimp; [subst|by destruct (Hm m ltac:(lia) E) as (-> & _)].
    rewrite <- Hl by done. rewrite Hent. simpl. done.
  - destruct Ho as (_ & _ & Hx & _ & _ & _ & Hm). split; [done|]. intros m Hm'.
    destruct (m =? n) eqn:E; bsimp; [subst|by destruct (Hm m ltac:(lia) E) as (-> & _)].
    rewrite <- Hl by done. rewrite Hent. simpl. done.
Qed.

Lemma installs_policy t g n a t' g' : installs t g n a t' g' -> entry_ignored t' = entry_ignored t.
Proof. destruct 1 as [| |? ? ? _ _ Ho _ _|? ? ? ? _ _ _ Ho _ _ _]; [done..|apply Ho|apply Ho]. Qed.

Lemma run_lines_effect i g0 t g i2 g02 l t2 g2 w :
  traps_inv i g0 t g -> traps_inv i2 g02 t2 g2 ->
  (forall m, is_trap m -> entry_ignore t2 m = entry_ignore t m) -> silent w ->
  NoDup l -> (forall n, n ∈ l -> n ∈ list_numbers) ->
  exists t' g', run_lines t2 g2 (map (fun n => (n, line_action t n)) l) w = ((0, Some t', g'), w) /\
    exit_action t' = (if decide (0 ∈ l) then exit_action t else exit_action t2) /\
    forall m, 0 < m < 128 ->
      te_action (entry_of t' m) = if decide (m ∈ l) then te_action (entry_of t m) else te_action (entry_of t2 m).
Proof.
  intros Hi Hi2 Hsame Hw Hnd. revert t2 g2 Hi2 Hsame. induction l as [|n l IH]; intros t2 g2 Hi2 Hsame Hl.
  { exists t2, g2. split_and!; [done|by rewrite decide_False by apply not_elem_of_nil|].
    intros m _. by rewrite decide_False by apply not_elem_of_nil. }
  apply NoDup_cons in Hnd as [Hnl Hnd]. assert (n ∈ list_numbers) as Hn by (apply Hl; left).
  destruct (line_command t2 g2 n (line_action t n) w (inv_sized _ _ _ _ Hi2) Hw Hn) as (t1 & g1 & Hrun & Hins).
  { by eapply line_storable. }
  assert (is_trap n) as Ht.
  { destruct (list_numbers_cases n Hn) as [->|H]; [done|].
    pose proof (valid_signal_range _ (settable_valid _ H)). unfold is_trap. lia. }
  assert (storable_option (line_option (line_action t n))) as Hst.
  { destruct (line_storable _ _ _ _ n Hi Hn) as [E|E]; [by rewrite E|].
    unfold line_option. destruct E as [E1 E2]. by rewrite (proj2 (str_eqb_false _ _) E1). }
  pose proof (installs_inv _ _ _ _ _ _ _ _ Hi2 Ht Hst Hins) as Hi1.
  destruct (line_effect _ _ _ _ _ _ _ _ _ _ _ Hi Hi2 Hsame Hn Hins) as [Hx Hm].
  destruct (IH Hnd t1 g1 Hi1) as (t' & g' & Hr & Hx' & Hm').
  { intros m Hm1. rewrite <- Hsame by done. unfold entry_ignore. by rewrite (installs_policy _ _ _ _ _ _ Hins). }
  { intros m Hm1. apply Hl. by right. }
  exists t', g'. cbn [map run_lines]. rewrite (bind_run _ _ _ _ _ Hrun). change (0 =? 0) with true. cbn iota.
  split_and!; [exact Hr| |].
  - rewrite Hx', Hx. destruct (n =? 0) eqn:E; bsimp.
    + subst. rewrite (decide_True (P:=0 ∈ 0 :: l)) by left. by destruct (decide _).
    + destruct (decide (0 ∈ l)); [rewrite decide_True by (by right); done|rewrite decide_False by (rewrite elem_of_cons; intros [?|?]; [congruence|done]); done].
  - intros m Hm1. rewrite Hm', Hm by done. destruct (m =? n) eqn:E; bsimp.
    + subst. rewrite (decide_True (P:=n ∈ n :: l)) by left. by destruct (decide (n ∈ l)).
    + destruct (decide (m ∈ l)); [rewrite decide_True by (by right); done|rewrite decide_False by (rewrite elem_of_cons; intros [?|?]; [congruence|done]); done].
Qed.

(** The lines of [trap -p]. *)
Definition listing (t : csh_traps) : list (Z * str) := map (fun n => (n, line_action t n)) list_numbers.

(** C35: [trap -p] saves the traps.  It prints one line for EXIT and one for
    each signal that can be trapped, whose word reads back by the shell's quote
    removal as the action or [-]; running the lines as commands, in the same
    shell at any other point or in one that ignores the same signals at entry,
    succeeds and gives every condition the action it had. *)
Theorem trap_listing_roundtrip (interactive interactive2 : bool) (g0 g02 : signals)
    (s s2 : csh_traps * signals) (t t2 : csh_traps) (g g2 : signals) (w : proc)
    (Hfresh : fresh g0) (Hcreated : created interactive g0 s) (Hrun : rtc trap_step s (t, g))
    (Hfresh2 : fresh g02) (Hcreated2 : created interactive2 g02 s2) (Hrun2 : rtc trap_step s2 (t2, g2))
    (Hsame : forall m, is_trap m -> entry_ignore t2 m = entry_ignore t m) (Hw : silent w) :
  csh_traps_builtin (Some t) g [bs "trap"; bs "-p"] w =
    ((0, Some t, g), printed (listing t ≫= fun '(n, a) => trap_line n a) w) /\
  Forall (fun '(n, a) => unquote false (quote_single a) = Some a) (listing t) /\
  exists t' g', run_lines t2 g2 (listing t) w = ((0, Some t', g'), w) /\
    exit_action t' = exit_action t /\
    forall n, 0 < n < 128 -> te_action (entry_of t' n) = te_action (entry_of t n).
Proof.
  pose proof (reachable_inv _ _ _ _ Hfresh Hcreated Hrun) as Hi. cbn [fst snd] in Hi.
  pose proof (reachable_inv _ _ _ _ Hfresh2 Hcreated2 Hrun2) as Hi2. cbn [fst snd] in Hi2. split_and!.
  - assert (csh_traps_builtin (Some t) g [bs "trap"; bs "-p"] =
      bind (list_all t g true all_numbers 0) (fun rc => ret (rc, Some t, g))) as -> by reflexivity.
    rewrite (bind_run _ _ _ _ _ (list_all_silent t g all_numbers w Hw)). unfold ret. do 2 f_equal.
  - apply Forall_forall. intros [n a] _. apply unquote_quote_single.
  - destruct (run_lines_effect _ _ _ _ _ _ list_numbers _ _ w Hi Hi2 Hsame Hw) as (t' & g' & Hr & Hx & Hm).
    { apply NoDup_filter, NoDup_seqZ. }
    { done. }
    exists t', g'. split_and!; [exact Hr| |].
    + rewrite Hx. by rewrite decide_True by (apply list_elem_of_filter; split; [done|apply elem_of_seqZ; rewrite limit; lia]).
    + intros n Hn. rewrite Hm by done. destruct (decide (n ∈ list_numbers)) as [Hin|Hout]; [done|].
      assert (forall j h0 u h, traps_inv j h0 u h -> te_action (entry_of u n) = None) as Hnone.
      { intros j h0 u h Hj. destruct (te_installed (entry_of u n)) eqn:E.
        - destruct (inv_installed _ _ _ _ Hj n Hn E) as (Hset & _). by apply settable_listed in Hset.
        - by destruct (inv_free _ _ _ _ Hj n Hn E). }
      by rewrite (Hnone _ _ _ _ Hi), (Hnone _ _ _ _ Hi2).
Qed.

(** ** A shell started with SIGINT ignored *)

Definition sample_signals : signals :=
  mk_signals (<[SIGINT := plain_action SIG_IGN]> ∅) (replicate 128 false) false 0 0.

Lemma sample_fresh : fresh sample_signals.
Proof.
  intros n. unfold handler_of, action_of. simpl. destruct (decide (n = SIGINT)) as [->|Hne].
  - by rewrite lookup_insert_eq.
  - by rewrite lookup_insert_ne, lookup_empty.
Qed.

Definition run_builtin (s : csh_traps * signals) (argv : list str) : csh_traps * signals :=
  let '(_, ot, g) := fst (csh_traps_builtin (Some s.1) s.2 argv quiet_proc) in (default s.1 ot, g).

Definition run_deliver (s : csh_traps * signals) (n : Z) : csh_traps * signals :=
  (s.1, default s.2 (deliver s.2 n)).

Definition sample_start (interactive : bool) : csh_traps * signals :=
  let '(_, _, ot, g) := fst (csh_traps_create interactive sample_signals quiet_proc) in
  (default (mk_traps [] None false false [] []) ot, g).

(** [trap 'echo it'\''s' USR1 INT EXIT; trap '' QUIT], then USR1 and INT arrive. *)
Definition sample_traps (interactive : bool) : csh_traps * signals :=
  run_deliver (run_builtin (run_builtin (sample_start interactive)
    [bs "trap"; bs "--"; bs "echo it's"; bs "USR1"; bs "INT"; bs "EXIT"])
    [bs "trap"; []; bs "SIGQUIT"]) 10.

Lemma sample_created interactive : created interactive sample_signals (sample_start interactive).
Proof. exists quiet_proc, quiet_proc. destruct interactive; vm_compute; reflexivity. Qed.

Lemma run_builtin_step s argv : sized s.1 s.2 -> trap_step s (run_builtin s argv).
Proof.
  destruct s as [t g]. cbn [fst snd]. intros Hs. unfold run_builtin. cbn [fst snd].
  pose proof (csh_traps_builtin_post t g argv quiet_proc Hs) as Hp. unfold post in Hp.
  destruct (csh_traps_builtin (Some t) g argv quiet_proc) as [[[rc ot] g'] w'] eqn:E.
  destruct Hp as (t' & -> & _). cbn [fst default]. by eapply step_builtin.
Qed.

Lemma run_deliver_step s n : valid_signal n = true -> is_Some (deliver s.2 n) -> trap_step s (run_deliver s n).
Proof.
  destruct s as [t g]. cbn [snd]. intros Hv [g' Hg]. unfold run_deliver. cbn [fst snd]. rewrite Hg.
  by apply (step_deliver t g n g').
Qed.

Lemma sample_run interactive : rtc trap_step (sample_start interactive) (sample_traps interactive).
Proof.
  assert (sized (sample_start interactive).1 (sample_start interactive).2) as H0
    by (destruct interactive; split; vm_compute; reflexivity).
  set (s1 := run_builtin (sample_start interactive)
    [bs "trap"; bs "--"; bs "echo it's"; bs "USR1"; bs "INT"; bs "EXIT"]).
  assert (sized s1.1 s1.2) as H1 by (unfold s1; destruct interactive; split; vm_compute; reflexivity).
  eapply rtc_l; [by apply run_builtin_step|]. fold s1.
  eapply rtc_l; [by apply (run_builtin_step s1 [bs "trap"; []; bs "SIGQUIT"])|].
  apply rtc_once. apply run_deliver_step; [done|]. unfold s1.
  destruct interactive; vm_compute; by eexists.
Qed.

#[local] Opaque sample_traps sample_start.

Lemma sample_run' interactive :
  rtc trap_step (sample_start interactive) ((sample_traps interactive).1, (sample_traps interactive).2).
Proof. rewrite <- surjective_pairing. apply sample_run. Qed.

Lemma traps_destroy_restores_witness :
  let g := csh_traps_destroy (Some (sample_traps true).1) (sample_traps true).2 in
  te_installed (entry_of (sample_traps true).1 10) = true /\ is_pending (sample_traps true).2 10 = true /\
  action_of g 10 = plain_action SIG_DFL /\ action_of g SIGINT = plain_action SIG_IGN.
Proof.
  cbv zeta. split; [vm_compute; reflexivity|]. split; [vm_compute; reflexivity|].
  pose proof (sample_run' true) as Hrun.
  assert (forall n, 0 < n < 128 -> n <> SIGCHLD ->
    action_of (csh_traps_destroy (Some (sample_traps true).1) (sample_traps true).2) n = action_of sample_signals n)
    as H.
  { intros n Hn Hne. pose proof (traps_destroy_restores true sample_signals (sample_start true)
      (sample_traps true).1 (sample_traps true).2 n sample_fresh (sample_created true) Hrun Hn) as Hp.
    destruct Hp as [[Hp|[Hp _]] _]; [exact Hp|contradiction]. }
  rewrite (H 10), (H SIGINT) by done. split; reflexivity.
Defined.

Lemma traps_exec_dispositions_witness :
  let g := csh_traps_exec_signals (Some (sample_traps false).1) false (sample_traps false).2 in
  handler_of g 10 = SIG_DFL /\ handler_of g SIGQUIT = SIG_IGN /\ handler_of g SIGINT = SIG_IGN.
Proof.
  cbv zeta. pose proof (fun n Hn => proj1 (traps_exec_dispositions false sample_signals (sample_start false)
    (sample_traps false).1 (sample_traps false).2 n sample_fresh (sample_created false) (sample_run' false) Hn)) as H.
  rewrite (H 10), (H SIGQUIT), (H SIGINT) by done. vm_compute. split_and!; reflexivity.
Defined.

Lemma traps_take_in_order_witness :
  exists g', take_all TRAP_LIMIT (sample_traps true).1 (sample_traps true).2 quiet_proc =
    Some ([(10, Some (bs "echo it's"))], g').
Proof.
  destruct (proj1 (traps_take_in_order true sample_signals (sample_start true) (sample_traps true).1
    (sample_traps true).2 quiet_proc sample_fresh (sample_created true) (sample_run' true)) eq_refl)
    as (taken & g' & Hr & Ht & _).
  exists g'. rewrite Hr, Ht. f_equal. 
Defined.

Lemma traps_after_fork_correct_witness :
  exists t' g', csh_traps_after_fork (Some (sample_traps true).1) false true (sample_traps true).2 = (Some t', g') /\
    handler_of g' 10 = SIG_DFL /\ te_action (entry_of t' 10) = Some (bs "echo it's").
Proof.
  destruct (traps_after_fork_correct true false true sample_signals (sample_start true) (sample_traps true).1
    (sample_traps true).2 10 quiet_proc sample_fresh (sample_created true) (sample_run' true) ltac:(done))
    as (t' & g' & Hr & _ & Hh & Ha & _).
  exists t', g'. rewrite Hh, Ha. split_and!; [exact Hr|vm_compute; reflexivity|vm_compute; reflexivity].
Defined.

Lemma trap_listing_roundtrip_witness :
  exists t' g', run_lines (sample_start true).1 (sample_start true).2 (listing (sample_traps true).1) quiet_proc =
      ((0, Some t', g'), quiet_proc) /\
    exit_action t' = Some (bs "echo it's") /\ te_action (entry_of t' SIGINT) = Some (bs "echo it's").
Proof.
  assert (rtc trap_step (sample_start true) ((sample_start true).1, (sample_start true).2)) as Hstart
    by (rewrite <- surjective_pairing; apply rtc_refl).
  destruct (trap_listing_roundtrip true true sample_signals sample_signals (sample_start true) (sample_start true)
    (sample_traps true).1 (sample_start true).1 (sample_traps true).2 (sample_start true).2 quiet_proc
    sample_fresh (sample_created true) (sample_run' true) sample_fresh (sample_created true) Hstart)
    as (_ & _ & t' & g' & Hr & Hx & Ha).
  - intros m _. vm_compute. reflexivity.
  - split; reflexivity.
  - exists t', g'. rewrite Hx, (Ha SIGINT (conj eq_refl eq_refl)). split_and!; [exact Hr|vm_compute; reflexivity|vm_compute; reflexivity].
Defined.
