(* ===== verification/Builtin.v ===== *)
(** * State builtins (src/builtin.c)

    [set], [shift], [unset], [export], [readonly] and [:] over the shell state,
    their listings, and the resolution of dot components that [cd] does on
    logical paths.  [strcoll] and the file system that [cd] asks are parameters. *)

From stdpp Require Import base list gmap strings sorting.
From S2P Require Import Prelude Output Options Quoting State.

(** [strcoll]; NUL-terminated strings of the current locale. *)
Class Collation : Type := strcoll : str -> str -> comparison.

(** ** Diagnostics *)

Fixpoint write_all (fd : out_fd) (texts : list str) : M unit :=
  match texts with
  | [] => ret tt
  | t :: rest => csh_write_text fd t;;; write_all fd rest
  end.

Definition problem (name message : str) : M Z :=
  write_all STDERR [bs "cshell: "; name; bs ": "; message; [10]];;; ret 1.

Definition state_result (name : str) (result : csh_state_result) : M Z :=
  match result with
  | CSH_STATE_OK => ret 0
  | CSH_STATE_READONLY => problem name (bs "readonly variable")
  | CSH_STATE_NOMEM => problem name (bs "out of memory")
  | _ => problem name (bs "invalid operand")
  end.

Inductive csh_execution_category : Type :=
  | CSH_EXEC_EMPTY | CSH_EXEC_EXTERNAL | CSH_EXEC_REGULAR_BUILTIN
  | CSH_EXEC_SPECIAL_BUILTIN | CSH_EXEC_FUNCTION | CSH_EXEC_PIPELINE | CSH_EXEC_UNRESOLVED.

#[export] Instance csh_execution_category_eq_dec : EqDecision csh_execution_category.
Proof. solve_decision. Defined.

Definition one_of (name : str) (l : list str) : bool := existsb (str_eqb name) l.

Definition csh_state_builtin_category (name : str) : csh_execution_category :=
  if one_of name [bs ":"; bs "export"; bs "readonly"; bs "unset"; bs "shift"; bs "set"; bs "."; bs "eval";
                  bs "exec"; bs "times"] then CSH_EXEC_SPECIAL_BUILTIN
  else if one_of name [bs "cd"; bs "pwd"; bs "command"; bs "type"; bs "hash"; bs "alias"; bs "unalias"; bs "read";
                       bs "getopts"; bs "umask"; bs "ulimit"] then CSH_EXEC_REGULAR_BUILTIN
  else CSH_EXEC_EXTERNAL.

(** ** Listings *)

(** The loop of [quoted]: the text up to the next quote in one call. *)
Fixpoint quoted_loop (fuel : nat) (s : str) : M Z :=
  match fuel with
  | O => ret (-1)
  | S f =>
      match s with
      | [] => csh_write_text STDOUT (bs "'")
      | _ =>
          let '(part, rest) := cut_at s (ch "'") in
          let* r := csh_write_bytes STDOUT part in
          if r <? 0 then ret (-1) else
          match rest with
          | Some rest =>
              let* r := csh_write_text STDOUT (bs "'\''") in
              if r <? 0 then ret (-1) else quoted_loop f rest
          | None => csh_write_text STDOUT (bs "'")
          end
      end
  end.

Definition quoted (value : str) : M Z :=
  let* r := csh_write_text STDOUT (bs "'") in
  if r <? 0 then ret (-1) else quoted_loop (S (length value)) value.

(** The texts of one line, written until a call fails: true is success. *)
Definition list_line (name : str) (mask : Z) (variable : str) (value : option str) : M bool :=
  let* r := (if mask =? 0 then ret 0 else write_texts STDOUT [name; bs " "]) in
  if r <? 0 then ret false else
  let* r := csh_write_text STDOUT variable in
  if r <? 0 then ret false else
  let* r := (match value with
    | Some v => let* r := csh_write_text STDOUT (bs "=") in if r <? 0 then ret r else quoted v
    | None => ret 0
    end) in
  if r <? 0 then ret false else
  let* r := csh_write_text STDOUT [10] in ret (negb (r <? 0)).

Fixpoint list_names (s : csh_state) (name : str) (mask : Z) (names : list str) : M Z :=
  match names with
  | [] => ret 0
  | n :: rest =>
      let v := snd (csh_state_get_variable s (Some n)) in
      let skipped := if mask =? 0 then bool_decide (view_value v = None)
                     else negb (has_attribute (view_attributes v) mask) in
      if skipped then list_names s name mask rest else
      let* ok := list_line name mask n (view_value v) in
      if ok then list_names s name mask rest else problem name (bs "cannot write output")
  end.

Definition name_le `{Collation} (a b : str) : Prop := strcoll a b <> Gt.

#[export] Instance name_le_dec `{Collation} : RelDecision name_le.
Proof. intros a b. unfold name_le. apply _. Defined.

Definition listing `{Collation} (s : csh_state) (name : str) (mask : Z) : M Z :=
  let* (rc, names) := csh_state_names s in
  match rc, names with
  | CSH_STATE_OK, Some l => list_names s name mask (merge_sort name_le l)
  | _, _ => problem name (bs "out of memory")
  end.

(** ** [set] *)

Definition report_option (name : str) (enabled reusable : bool) : M Z :=
  let line := if reusable
    then bs "set " ++ [if enabled then ch "-" else ch "+"] ++ bs "o " ++ name ++ [10]
    else name ++ bs " " ++ (if enabled then bs "on" else bs "off") ++ [10] in
  if 64 <=? slen line then ret (-1) else csh_write_bytes STDOUT line.

(** The option list with the report asked for: 0 none, 1 readable, 2 reusable. *)
Record set_request : Type := mk_request {
  rq_options : Z; rq_report : Z; rq_replace : bool; rq_rest : list str }.

Definition apply_bit (options bit : Z) (enable : bool) : Z :=
  if enable then Z.lor options bit else Z.land options (unot bit).

(** The letters of one argument, with the arguments behind it; [None] is an
    invalid option.  [o] takes the rest of the argument or the next argument as
    a name, or asks for a report. *)
Fixpoint set_letters (letters : str) (enable : bool) (rest : list str) (options report : Z)
    : option (Z * Z * list str) :=
  match letters with
  | [] => Some (options, report, rest)
  | c :: letters' =>
      if c =? ch "o" then
        match letters' with
        | [] =>
            match rest with
            | [] => Some (options, if enable then 1 else 2, rest)
            | a :: rest' =>
                if (peek a =? ch "-") || (peek a =? ch "+") then Some (options, if enable then 1 else 2, rest)
                else
                  let bit := csh_option_name a in
                  if bit =? 0 then None else Some (apply_bit options bit enable, report, rest')
            end
        | name =>
            let bit := csh_option_name name in
            if bit =? 0 then None else Some (apply_bit options bit enable, report, rest)
        end
      else
        let bit := csh_option_letter c in
        if bit =? 0 then None else set_letters letters' enable rest (apply_bit options bit enable) report
  end.

Fixpoint set_arguments (fuel : nat) (args : list str) (options report : Z) : option set_request :=
  match fuel with
  | O => None
  | S f =>
      match args with
      | [] => Some (mk_request options report false [])
      | a :: rest =>
          if str_eqb a (bs "--") then Some (mk_request options report true rest)
          else if str_eqb a (bs "-")
          then Some (mk_request (Z.land options (unot (Z.lor CSH_OPT_VERBOSE CSH_OPT_XTRACE))) report false rest)
          else
            match a with
            | c :: _ :: _ =>
                if (c =? ch "-") || (c =? ch "+") then
                  match set_letters (tail a) (c =? ch "-") rest options report with
                  | Some (options, report, rest) => set_arguments f rest options report
                  | None => None
                  end
                else Some (mk_request options report false args)
            | _ => Some (mk_request options report false args)
            end
      end
  end.

Fixpoint report_options (l : list option_entry) (options : Z) (reusable : bool) : M bool :=
  match l with
  | [] => ret true
  | e :: rest =>
      let* r := report_option (opt_name e) (opt_on options (opt_bit e)) reusable in
      if r <? 0 then ret false else report_options rest options reusable
  end.

(** [args] are the arguments behind the name. *)
Definition csh_builtin_set `{Collation} (s : csh_state) (args : list str) (monitor_available : bool)
    : M (Z * csh_state) :=
  match args with
  | [] => let* rc := listing s (bs "set") 0 in ret (rc, s)
  | _ =>
      match set_arguments (S (length args)) args (Z.land (options (info s)) CSH_SETTABLE_OPTIONS) 0 with
      | None => let* rc := problem (bs "set") (bs "invalid option") in ret (rc, s)
      | Some q =>
          if opt_on (rq_options q) CSH_OPT_MONITOR && negb monitor_available
          then let* rc := problem (bs "set") (bs "job control unavailable") in ret (rc, s) else
          let* (rc, s) := (if rq_replace q || negb (bool_decide (rq_rest q = [])) then
              let* (r, s) := csh_state_set_parameters s (map Some (rq_rest q)) in
              let* rc := state_result (bs "set") r in ret (rc, s)
            else ret (0, s)) in
          if negb (rc =? 0) then ret (rc, s) else
          let s := snd (csh_state_update_options s (rq_options q)
                     (Z.land CSH_SETTABLE_OPTIONS (unot (rq_options q)))) in
          if rq_report q =? 0 then ret (0, s) else
          let* ok := report_options CSH_OPTION_LIST (rq_options q) (rq_report q =? 2) in
          if ok then ret (0, s)
          else let* rc := problem (bs "set") (bs "cannot write output") in ret (rc, s)
      end
  end.

(** ** The other state builtins *)

(** The count of [shift]: decimal digits whose value is a [size_t]. *)
Fixpoint shift_count (s : str) (n : Z) : option Z :=
  match s with
  | [] => Some n
  | c :: rest =>
      let d := c - ch "0" in
      if (c <? ch "0") || (ch "9" <? c) || ((SIZE_MAX - d) / 10 <? n) then None
      else shift_count rest (n * 10 + d)
  end.

Definition shift_builtin (s : csh_state) (args : list str) : M (Z * csh_state) :=
  let fail message := let* rc := problem (bs "shift") message in ret (rc, s) in
  let count := match args with
    | [] => Some 1
    | a :: _ => if bool_decide (a = []) then None else shift_count a 0
    end in
  match args with
  | _ :: _ :: _ => fail (bs "too many operands")
  | _ =>
      match count with
      | None => fail (bs "invalid count")
      | Some n =>
          if argument_count (info s) <? n then fail (bs "count exceeds positional parameters") else
          let left := argument_count (info s) - n in
          let* ok := (if left =? 0 then ret true else malloc) in
          if negb ok then fail (bs "out of memory") else
          let args := map (fun j => csh_state_parameter s (n + j + 1)) (seqZ 0 left) in
          let* (r, s) := csh_state_set_parameters s args in
          let* rc := state_result (bs "shift") r in ret (rc, s)
      end
  end.

Fixpoint unset_operands `{LocaleDb} (s : csh_state) (functions : bool) (args : list str) (status : Z)
    : M (Z * csh_state) :=
  match args with
  | [] => ret (status, s)
  | a :: rest =>
      let* (r, s) := (if functions then csh_state_set_function s (Some a) None
                      else csh_state_unset_variable s (Some a)) in
      let* rc := state_result (bs "unset") r in
      unset_operands s functions rest (Z.lor status rc)
  end.

Definition unset_builtin `{LocaleDb} (s : csh_state) (args : list str) : M (Z * csh_state) :=
  let '(functions, args) := match args with
    | a :: rest => if str_eqb a (bs "-f") then (true, rest)
                   else if str_eqb a (bs "-v") then (false, rest) else (false, args)
    | [] => (false, [])
    end in
  match args with
  | a :: rest =>
      if str_eqb a (bs "--") then unset_operands s functions rest 0
      else if peek a =? ch "-" then let* rc := problem (bs "unset") (bs "invalid option") in ret (rc, s)
      else unset_operands s functions args 0
  | [] => ret (0, s)
  end.

(** The assignment, when there is a value, and the attribute. *)
Definition mark_steps `{LocaleDb} (s : csh_state) (mask : Z) (name : str) (value : option str)
    : M (csh_state_result * csh_state) :=
  let* (r, s) := (match value with
    | Some v => csh_state_set_variable s (Some name) (Some v)
    | None => ret (CSH_STATE_OK, s)
    end) in
  match r with
  | CSH_STATE_OK => csh_state_update_attributes s (Some name) mask 0
  | _ => ret (r, s)
  end.

(** The end of an operand: a failure goes back to the checkpoint, if there is
    one; a checkpoint that was not used up is destroyed. *)
Definition mark_finish `{LocaleDb} (r : csh_state_result) (s : csh_state) (save : option csh_state)
    : M (csh_state_result * csh_state) :=
  if negb (bool_decide (r = CSH_STATE_OK)) && bool_decide (is_Some save) then
    let* (_, s) := csh_state_restore s save in ret (r, s)
  else csh_state_checkpoint_destroy save;;; ret (r, s).

(** One operand of [export] or [readonly]: value and attribute together or not
    at all. *)
Definition mark_operand `{LocaleDb} (s : csh_state) (mask : Z) (name : str) (value : option str)
    : M (csh_state_result * csh_state) :=
  let* (r, save) := csh_state_save s in
  let* (r, s) := (match r with CSH_STATE_OK => mark_steps s mask name value | _ => ret (r, s) end) in
  mark_finish r s save.

Fixpoint mark_operands `{LocaleDb} (s : csh_state) (builtin : str) (mask : Z) (args : list str) (status : Z)
    : M (Z * csh_state) :=
  match args with
  | [] => ret (status, s)
  | a :: rest =>
      let* ok := malloc in
      if negb ok then let* rc := problem builtin (bs "out of memory") in ret (rc, s) else
      let '(name, value) := cut_at a (ch "=") in
      let* (r, s) := mark_operand s mask name value in
      let* rc := state_result builtin r in
      mark_operands s builtin mask rest (Z.lor status rc)
  end.

Definition mark_builtin `{LocaleDb} `{Collation} (s : csh_state) (builtin : str) (mask : Z) (args : list str)
    : M (Z * csh_state) :=
  match args with
  | [] => let* rc := listing s builtin mask in ret (rc, s)
  | a :: rest =>
      if str_eqb a (bs "-p") && bool_decide (rest = [])
      then let* rc := listing s builtin mask in ret (rc, s)
      else if str_eqb a (bs "--") then mark_operands s builtin mask rest 0
      else if peek a =? ch "-" then let* rc := problem builtin (bs "invalid option") in ret (rc, s)
      else mark_operands s builtin mask args 0
  end.

(** ** Logical paths

    [normalize] works in place: [out] is the text up to [used], [rest] the text
    from [read] on.  [is_directory] is [directory_stat] with [S_ISDIR]. *)

Section Normalize.
Context (is_directory : str -> bool).

Fixpoint skip_slashes (s : str) : str :=
  match s with c :: r => if c =? ch "/" then skip_slashes r else s | [] => [] end.

Definition split_component (s : str) : str * str :=
  let '(a, r) := cut_at s (ch "/") in (a, match r with Some r => ch "/" :: r | None => [] end).

Definition drop_last (s : str) : str := take (length s - 1) s.

(** [while (used > 1 && s[used-1] != '/') --used;] *)
Fixpoint back_to_slash (fuel : nat) (out : str) : str :=
  match fuel with
  | O => out
  | S f => if (1 <? length out)%nat && negb (List.last out 0 =? ch "/") then back_to_slash f (drop_last out) else out
  end.

Definition parent (out : str) : str :=
  if (1 <? length out)%nat then
    let out := back_to_slash (length out) out in
    if (1 <? length out)%nat then drop_last out else out
  else out.

Fixpoint normalize_loop (fuel : nat) (out rest : str) : option str :=
  match fuel with
  | O => None
  | S f =>
      match rest with
      | [] => Some out
      | _ =>
          let '(name, after) := split_component rest in
          let next := skip_slashes after in
          if str_eqb name (bs ".") then normalize_loop f out next
          else if str_eqb name (bs "..") then
            if is_directory out then normalize_loop f (parent out) next else None
          else
            let out := if negb (List.last out 0 =? ch "/") then out ++ bs "/" else out in
            normalize_loop f (out ++ name) next
      end
  end.

Definition root_length (s : str) : nat :=
  match s with
  | a :: b :: r => if (a =? ch "/") && (b =? ch "/") && negb (peek r =? ch "/") then 2 else 1
  | _ => 1
  end.

(** [None] is -1. *)
Definition normalize (s : str) : option str :=
  normalize_loop (S (length s)) (take (root_length s) s) (skip_slashes s).
End Normalize.

(** ** Dispatch

    [directory] stands for the builtins of the working directory. *)

Section Dispatch.
Context `{LocaleDb} `{Collation}.
Context (directory : csh_state -> list str -> M (Z * csh_state)).

Definition csh_state_builtin_run (s : csh_state) (argv : list str) : M (Z * csh_state) :=
  match argv with
  | [] => ret (0, s)
  | name :: args =>
      let s := if str_eqb name (bs "cd") then csh_state_hash_clear s else s in
      if str_eqb name (bs ":") then ret (0, s)
      else if bool_decide (csh_state_builtin_category name = CSH_EXEC_REGULAR_BUILTIN) then directory s argv
      else if str_eqb name (bs "set") then csh_builtin_set s args true
      else if str_eqb name (bs "shift") then shift_builtin s args
      else if str_eqb name (bs "unset") then unset_builtin s args
      else if str_eqb name (bs "export") then mark_builtin s name CSH_VAR_EXPORT args
      else if str_eqb name (bs "readonly") then mark_builtin s name CSH_VAR_READONLY args
      else let* rc := problem name (bs "unknown state builtin") in ret (rc, s)
  end.
End Dispatch.
