(* ===== verification/BuiltinTheorems.v ===== *)
(** * State builtins: reports that read back, atomic marking, logical paths *)

From stdpp Require Import base list gmap strings sorting.
From S2P Require Import Prelude Output Options Quoting State StateCopy Builtin.

(** ** [export] and [readonly] *)

(** What the host keeps through one operand: output and reference counts. *)
Definition quiet_change (w w' : proc) : Prop :=
  p_stdout w' = p_stdout w /\ p_stderr w' = p_stderr w /\ p_functions w' = p_functions w.

(** What a successful operand leaves.  The variable has the value given, or keeps
    its own, and every attribute it had, the new ones and, with a value under
    [set -a], export; no other variable changes.  A value changes besides what
    depends on it, the hash table for PATH and the offset of getopts for OPTIND;
    without one nothing else in the state changes. *)
Definition marked (s : csh_state) (mask : Z) (name : str) (value : option str) (s' : csh_state) : Prop :=
  let m := var_map (variables s) in
  let old := attributes_of m name in
  valid_name name = true /\
  match value with
  | Some v =>
      has_attribute old CSH_VAR_READONLY = false /\ kept name s s' /\
      var_map (variables s') = <[name := (Some v, Z.lor (assigned_attributes s old) mask mod 2 ^ 32)]> m
  | None =>
      s' = with_variables s (variables s') /\
      var_map (variables s') = <[name := ((m !! name) ≫= fst, Z.lor old mask mod 2 ^ 32)]> m
  end.

(** Why an operand is refused. *)
Definition refused (s : csh_state) (mask : Z) (name : str) (value : option str) (r : csh_state_result) : Prop :=
  match r with
  | CSH_STATE_OK => False
  | CSH_STATE_INVALID => valid_name name = false \/ Z.land mask (unot VARIABLE_ATTRIBUTES) <> 0
  | CSH_STATE_READONLY => value <> None /\ has_attribute (attributes_of (var_map (variables s)) name) CSH_VAR_READONLY = true
  | CSH_STATE_NOMEM => True
  end.

Lemma unot_zero_land a : Z.land a (unot 0) = a mod 2 ^ 32.
Proof. change (unot 0) with (Z.ones 32). by rewrite Z.land_ones by lia. Qed.

Lemma land_lor_same a b : Z.land (Z.lor a b) b = b.
Proof. apply Z.bits_inj'. intros i Hi. rewrite Z.land_spec, Z.lor_spec. by destruct (Z.testbit a i), (Z.testbit b i). Qed.

Lemma changed_has old mask : 0 <= mask < 2 ^ 32 -> Z.land (changed_attributes old mask 0) mask = mask.
Proof.
  intros Hm. unfold changed_attributes. rewrite <- Z.land_assoc, (Z.land_comm (unot 0)), unot_zero_land, Z.mod_small by lia.
  apply land_lor_same.
Qed.

Lemma destroy_run s w : csh_state_destroy s w = (tt, with_counts w (release_all (functions s) (p_functions w))).
Proof. apply release_functions_run. Qed.

(** Adding attributes, none being cleared. *)
Lemma add_attributes_post s mask n w : state_wf s -> 0 < mask < 2 ^ 32 ->
  post (csh_state_update_attributes s (Some n) mask 0) w (fun '(r, s') w' =>
    same_host w w' /\ (calm w -> fits n -> r <> CSH_STATE_NOMEM) /\
    if bool_decide (r = CSH_STATE_OK) then
      state_wf s' /\ valid_name n = true /\ s' = with_variables s (variables s') /\
      var_map (variables s') = <[n := ((var_map (variables s) !! n) ≫= fst, Z.lor (attributes_of (var_map (variables s)) n) mask mod 2 ^ 32)]>
        (var_map (variables s))
    else s' = s /\ match r with
      | CSH_STATE_INVALID => valid_name n = false \/ Z.land mask (unot VARIABLE_ATTRIBUTES) <> 0
      | CSH_STATE_READONLY => False
      | _ => True
      end).
Proof.
  intros Hwf Hm. pose proof (update_attributes_post s n mask 0 w Hwf) as Hp. unfold post in *.
  destruct (csh_state_update_attributes s (Some n) mask 0 w) as [[r s'] w'] eqn:E.
  destruct Hp as (Hh & Hwf' & _ & Hr). destruct r; cbn [bool_decide decide_rel decide].
  - rewrite bool_decide_true by done. destruct Hr as (Hn & Hs & _ & Hmap). split_and!; try done.
    rewrite Hmap. apply map_eq. intros i. rewrite lookup_partial_alter, lookup_insert. case_decide; [|done]. subst i.
    unfold attributes_of, changed_attributes. rewrite unot_zero_land.
    destruct (var_map (variables s) !! n) as [[v a]|]; cbn [fmap option_fmap option_map snd fst default mbind option_bind].
    + by rewrite unot_zero_land.
    + rewrite Z.mod_small by lia. rewrite (proj2 (Z.eqb_neq mask 0)) by lia. by rewrite Z.lor_0_l, Z.mod_small by lia.
  - rewrite bool_decide_false by done. split_and!; try done. unfold csh_state_update_attributes in E.
    destruct (valid_name n); [right|by left]. rewrite Z.lor_0_r in E. intros H0. rewrite H0, Z.land_0_r in E. cbn in E.
    destruct (find_variable s n) as [x|]; [rewrite andb_false_r in E; unfold ret in E; congruence|].
    destruct (_ =? 0); [unfold ret in E; congruence|]. unfold bind in E. destruct (new_variable _ _ _ w) as [[x|] w2]; cbn in E; unfold ret in E; congruence.
  - rewrite bool_decide_false by done. destruct Hr as [-> Hf]. split_and!; try done. intros Hc Hn. by destruct (Hf Hc).
  - rewrite bool_decide_false by done. split_and!; [done|done|apply Hr|]. unfold csh_state_update_attributes in E.
    destruct (_ || _); [unfold ret in E; congruence|].
    destruct (find_variable s n) as [x|]; [change (has_attribute 0 CSH_VAR_READONLY) with false in E; rewrite andb_false_r in E; unfold ret in E; congruence|].
    destruct (_ =? 0); [unfold ret in E; congruence|]. unfold bind in E. destruct (new_variable _ _ _ w) as [[x|] w2]; cbn in E; unfold ret in E; congruence.
Qed.

Section Marking.
Context `{LocaleDb}.

Lemma mark_steps_post s mask name value w : state_wf s -> 0 < mask < 2 ^ 32 ->
  post (mark_steps s mask name value) w (fun '(r, s') w' =>
    quiet_change w w' /\ functions s' = functions s /\
    (calm w -> fits name -> opt_fits value -> r <> CSH_STATE_NOMEM) /\
    if bool_decide (r = CSH_STATE_OK) then state_wf s' /\ marked s mask name value s' else refused s mask name value r).
Proof.
  intros Hwf Hm. unfold mark_steps. apply post_bind. destruct value as [v|].
  - eapply post_mono; [by apply set_variable_post|]. intros [r s1] w1 (Hd & Hwf1 & Hcalm & Hr).
    destruct r; [destruct Hr as (Hn & Hro & Hk & Hv)|..].
    + eapply post_mono; [by apply add_attributes_post|]. intros [r s2] w2 (Hd2 & Hmem & Hr2).
      assert (quiet_change w w2) as Hq by (destruct Hd as (?&?&?), Hd2 as (?&?&?&?); split_and!; congruence).
      destruct (bool_decide (r = CSH_STATE_OK)) eqn:Er.
      * destruct Hr2 as (Hwf2 & _ & Hs2 & Hm2). pose proof Hk as (K1 & K2 & K3 & K4 & K5 & K6 & K7 & K8).
        split_and!; [done|by rewrite Hs2|intros; by apply bool_decide_eq_true in Er as ->|done|].
        split; [done|]. split; [done|]. split; [unfold kept; rewrite Hs2; by split_and!|].
        rewrite Hm2, Hv, lookup_insert_eq, insert_insert_eq. unfold attributes_of. by rewrite lookup_insert_eq.
      * destruct Hr2 as [-> Hr2]. split_and!; [done|apply Hk|intros Hc Hn' _; by apply Hmem; auto|].
        by destruct r.
    + destruct Hr as [-> Hn]. apply post_ret. split_and!; try done. by left.
    + destruct Hr as [-> Hn]. apply post_ret. split_and!; try done. intros Hc Hn' Hv. by destruct (Hn Hc Hn').
    + destruct Hr as [-> Hn]. apply post_ret. split_and!; try done.
  - apply post_ret. eapply post_mono; [by apply add_attributes_post|]. intros [r s2] w2 (Hd2 & Hmem & Hr2).
    assert (quiet_change w w2) as Hq by (destruct Hd2 as (?&?&?&?); split_and!; congruence).
    destruct (bool_decide (r = CSH_STATE_OK)) eqn:Er.
    + destruct Hr2 as (Hwf2 & ? & Hs2 & Hm2).
      split_and!; [done|by rewrite Hs2|intros; by apply bool_decide_eq_true in Er as ->|done|].
      split; [done|]. by split.
    + destruct Hr2 as [-> Hr2]. split_and!; [done|done|auto|]. by destruct r.
Qed.

(** C37: [export] and [readonly] treat an operand as a whole.  On success the
    name has the value given, or keeps its own, and exactly the attributes it had
    with the new one (and export for a value under [set -a]); no other variable
    and nothing else changes, but the hash table for a value of PATH and the
    offset of [getopts] for one of OPTIND.  On every error, which has its cause
    in the name, the attribute or a readonly variable or is a lack of memory, the
    state is exactly as it was: a value never stays behind without its attribute.
    Either way the checkpoint is gone and every function has the references it
    had; with memory for the copies, memory is not the error. *)
Theorem mark_operand_atomic (s : csh_state) (mask : Z) (name : str) (value : option str) (w : proc)
    (Hwf : state_wf s) (Hpos : counts_positive (p_functions w)) (Hmask : 0 < mask < 2 ^ 32) :
  post (mark_operand s mask name value) w (fun '(r, s') w' =>
    quiet_change w w' /\
    (calm w -> state_fits s -> fits name -> opt_fits value -> r <> CSH_STATE_NOMEM) /\
    if bool_decide (r = CSH_STATE_OK) then state_wf s' /\ marked s mask name value s'
    else s' = s /\ refused s mask name value r).
Proof.
  unfold mark_operand. apply post_bind. eapply post_mono; [by apply save_post|].
  intros [r save] w1 [Hsave Hmem]. destruct Hsave as [[[= -> ->] Hh]|[[= -> ->] Hh]].
  - assert (forall w2, quiet_change w1 w2 ->
      quiet_change w (with_counts w2 (release_all (functions s) (p_functions w2)))) as Hback.
    { intros w2 (E1 & E2 & E3). destruct Hh as (F1 & F2 & _ & F4). split_and!; simpl; [congruence..|].
      rewrite E3, F4. by apply release_retain_all. }
    apply post_bind. eapply post_mono; [by apply mark_steps_post|]. intros [r2 s2] w3 (Hq & Hf & Hm2 & Hok).
    assert (calm w -> state_fits s -> fits name -> opt_fits value -> r2 <> CSH_STATE_NOMEM) as Hmem2.
    { intros Hc Hfit. destruct (Hmem (conj Hc Hfit)) as [_ Hc1]. by apply Hm2. }
    unfold mark_finish, post, bind. destruct (bool_decide (r2 = CSH_STATE_OK)) eqn:Er.
    + apply bool_decide_eq_true in Er as ->. cbn [negb andb csh_state_checkpoint_destroy]. rewrite destroy_run. unfold ret. cbv beta iota.
      rewrite bool_decide_true by done. split; [by apply Hback|]. by split.
    + cbn [negb andb csh_state_restore]. rewrite bool_decide_true by (by eexists).
      unfold bind. rewrite destroy_run.
      pose proof (refresh_locale_data s (with_counts w3 (release_all (functions s2) (p_functions w3)))) as Hl.
      unfold post in Hl. destruct (csh_state_refresh_locale s _) as [[] w4]. unfold ret. cbv beta iota. rewrite Er.
      split; [|by split]. destruct Hl as [(L1 & L2 & L3) _].
      rewrite Hf in L3. destruct (Hback w3 Hq) as (B1 & B2 & B3). simpl in *. split_and!; congruence.
  - unfold mark_finish, post, bind, ret. cbn. split; [by destruct Hh as (?&?&_&?); split_and!|].
    split; [|done]. intros Hc Hfit. by destruct (Hmem (conj Hc Hfit)).
Qed.
End Marking.

(** ** The report of the options *)

Definition option_line (options : Z) (e : option_entry) : str :=
  bs "set " ++ [if opt_on options (opt_bit e) then ch "-" else ch "+"] ++ bs "o " ++ opt_name e ++ [10].

Lemma report_options_silent l options w : silent w ->
  Forall (fun e => slen (opt_name e) < 50) l ->
  report_options l options true w = (true, printed (l ≫= option_line options) w).
Proof.
  intros Hw Hl. revert w Hw. induction Hl as [|e l He Hl IH]; intros w Hw; cbn [report_options].
  { unfold printed, put_stdout, ret. simpl. rewrite app_nil_r. by destruct w. }
  assert (report_option (opt_name e) (opt_on options (opt_bit e)) true w = (0, printed (option_line options e) w)) as Hr.
  { unfold report_option. fold (option_line options e).
    replace (64 <=? slen (option_line options e)) with false; [by apply write_silent|].
    symmetry. unfold option_line, slen in *. rewrite !length_app. simpl length. bsimp. lia. }
  rewrite (bind_run _ _ _ _ _ Hr). cbn [Z.ltb Z.compare]. rewrite IH by done. by rewrite printed_app.
Qed.

(** The effect of [set -o name] or [set +o name]. *)
Definition option_state (s : csh_state) (e : option_entry) (enable : bool) : csh_state :=
  let new := apply_bit (Z.land (options (info s)) CSH_SETTABLE_OPTIONS) (opt_bit e) enable in
  snd (csh_state_update_options s new (Z.land CSH_SETTABLE_OPTIONS (unot new))).

Definition option_letter (enable : bool) : str := if enable then bs "-o" else bs "+o".

Lemma listed_options e : e ∈ CSH_OPTION_LIST ->
  csh_option_name (opt_name e) = opt_bit e /\ (opt_bit e =? 0) = false /\
  (peek (opt_name e) =? ch "-") || (peek (opt_name e) =? ch "+") = false /\ slen (opt_name e) < 50 /\
  exists k, 0 <= k < 32 /\ opt_bit e = 2 ^ k /\ Z.testbit CSH_SETTABLE_OPTIONS k = true.
Proof.
  intros He. assert (forallb (fun e => (csh_option_name (opt_name e) =? opt_bit e) && negb (opt_bit e =? 0) &&
    negb ((peek (opt_name e) =? ch "-") || (peek (opt_name e) =? ch "+")) && (slen (opt_name e) <? 50) &&
    existsb (fun k => (opt_bit e =? 2 ^ k) && Z.testbit CSH_SETTABLE_OPTIONS k) (seqZ 0 32)) CSH_OPTION_LIST = true)
    as Hall by (vm_compute; reflexivity).
  rewrite forallb_forall in Hall. apply list_elem_of_In in He. specialize (Hall e He).
  apply andb_true_iff in Hall as [[[[H1 H2]%andb_true_iff H3]%andb_true_iff H4]%andb_true_iff H5].
  apply existsb_exists in H5 as (k & Hk & [H5 H6]%andb_true_iff). apply list_elem_of_In, elem_of_seqZ in Hk.
  apply negb_true_iff in H2, H3. apply Z.eqb_eq in H1, H5. apply Z.ltb_lt in H4.
  split_and!; try done. exists k. split_and!; [lia..|done|done].
Qed.

Lemma set_one_option `{Collation} s e enable w : e ∈ CSH_OPTION_LIST ->
  csh_builtin_set s [option_letter enable; opt_name e] true w = ((0, option_state s e enable), w).
Proof.
  intros He. destruct (listed_options e He) as (Hn & Hb & Hp & _ & _).
  assert (set_arguments 3 [option_letter enable; opt_name e] (Z.land (options (info s)) CSH_SETTABLE_OPTIONS) 0 =
    Some (mk_request (apply_bit (Z.land (options (info s)) CSH_SETTABLE_OPTIONS) (opt_bit e) enable) 0 false [])) as Ha.
  { cbn [set_arguments].
    replace (str_eqb (option_letter enable) (bs "--")) with false by by destruct enable.
    replace (str_eqb (option_letter enable) (bs "-")) with false by by destruct enable.
    destruct enable; cbn -[csh_option_name Z.eqb]; cbn [Z.eqb Pos.eqb orb]; rewrite Hp, Hn, Hb; reflexivity. }
  unfold csh_builtin_set. cbn [length]. rewrite Ha. cbn [rq_options rq_replace rq_rest rq_report].
  rewrite andb_false_r. cbn [negb orb]. rewrite bool_decide_true by done. reflexivity.
Qed.

Lemma opt_on_bit o k : 0 <= k -> opt_on o (2 ^ k) = Z.testbit o k.
Proof.
  intros Hk. unfold opt_on. destruct (Z.testbit o k) eqn:E.
  - apply negb_true_iff, Z.eqb_neq. intros H. apply (f_equal (fun z => Z.testbit z k)) in H.
    rewrite Z.land_spec, E, Z.pow2_bits_true, Z.bits_0 in H by done. done.
  - apply negb_false_iff, Z.eqb_eq, Z.bits_inj'. intros i Hi. rewrite Z.land_spec, Z.bits_0.
    destruct (decide (i = k)) as [->|Hne]; [by rewrite E|]. rewrite Z.pow2_bits_false by done. apply andb_false_r.
Qed.

Lemma settable_bound : 0 <= CSH_SETTABLE_OPTIONS < 2 ^ 32 /\ Z.land CSH_SETTABLE_OPTIONS (unot SHELL_OPTIONS) = 0.
Proof. split; [split; vm_compute; congruence|vm_compute; reflexivity]. Qed.

Lemma same_options s : with_info s (info_options (info s) (options (info s))) = s.
Proof. by destruct s as [? ? ? ? ? ? ? ? []]. Qed.

(** An update to settable bits sets exactly those. *)
Lemma set_options_bits s new : 0 <= new -> Z.land new (Z.lnot CSH_SETTABLE_OPTIONS) = 0 ->
  let s' := snd (csh_state_update_options s new (Z.land CSH_SETTABLE_OPTIONS (unot new))) in
  s' = with_info s (info_options (info s) (options (info s'))) /\
  (forall j, 0 <= j < 32 -> Z.testbit (options (info s')) j =
    if Z.testbit CSH_SETTABLE_OPTIONS j then Z.testbit new j else Z.testbit (options (info s)) j) /\
  (forall j, 32 <= j -> Z.testbit (options (info s)) j = false -> Z.testbit (options (info s')) j = false).
Proof.
  intros Hn Hset. destruct settable_bound as [Hb Hshell].
  assert (forall j, 0 <= j -> Z.testbit new j = true -> Z.testbit CSH_SETTABLE_OPTIONS j = true) as Hsub.
  { intros j Hj E. apply (f_equal (fun z => Z.testbit z j)) in Hset.
    rewrite Z.land_spec, Z.lnot_spec, E, Z.bits_0 in Hset by done. by destruct (Z.testbit _ j). }
  assert (forall j, 32 <= j -> Z.testbit CSH_SETTABLE_OPTIONS j = false) as Hhigh.
  { intros j Hj. apply Z.bits_above_log2; [lia|]. apply (Z.lt_le_trans _ 32); [|done]. apply Z.log2_lt_pow2; [reflexivity|]. lia. }
  set (mask := CSH_SETTABLE_OPTIONS) in *. clearbody mask.
  assert (forall j, 0 <= j -> Z.testbit (Z.lor new (Z.land mask (unot new))) j = true -> Z.testbit mask j = true) as Hall.
  { intros j Hj. rewrite Z.lor_spec, Z.land_spec. destruct (Z.testbit new j) eqn:E; [by intros _; apply Hsub|].
    simpl. by destruct (Z.testbit mask j). }
  unfold csh_state_update_options.
  replace (Z.land (Z.lor new (Z.land mask (unot new))) (unot SHELL_OPTIONS) =? 0) with true; cycle 1.
  { symmetry. apply Z.eqb_eq, Z.bits_inj'. intros j Hj. rewrite Z.land_spec, Z.bits_0.
    apply (f_equal (fun z => Z.testbit z j)) in Hshell. rewrite Z.land_spec, Z.bits_0 in Hshell.
    specialize (Hall j Hj). destruct (Z.testbit (Z.lor _ _) j); [|done]. by rewrite (Hall eq_refl) in Hshell. }
  assert (forall j, 0 <= j < 32 -> Z.testbit (Z.land mask (unot new)) j = Z.testbit mask j && negb (Z.testbit new j)) as Hclear.
  { intros j Hj. by rewrite Z.land_spec, unot_testbit. }
  replace (Z.land new (Z.land mask (unot new)) =? 0) with true; cycle 1.
  { symmetry. apply Z.eqb_eq, Z.bits_inj'. intros j Hj. rewrite Z.land_spec, Z.bits_0.
    destruct (Z.lt_ge_cases j 32); [rewrite Hclear by lia; destruct (Z.testbit new j), (Z.testbit mask j); done|].
    rewrite Z.land_spec, Hhigh by done. by rewrite andb_false_r. }
  cbn [negb orb snd]. split; [done|]. split.
  2: { intros j Hj Ho. cbn. rewrite Z.land_spec, Z.lor_spec, Ho. specialize (Hsub j ltac:(lia)).
    destruct (Z.testbit new j); [|done]. specialize (Hsub eq_refl). by rewrite Hhigh in Hsub. }
  intros j Hj. cbn. rewrite Z.land_spec, Z.lor_spec, unot_testbit, Hclear by done.
  specialize (Hsub j ltac:(lia)).
  destruct (Z.testbit mask j), (Z.testbit new j); simpl; rewrite ?orb_true_r, ?orb_false_r, ?andb_true_r, ?andb_false_r; auto.
  by specialize (Hsub eq_refl).
Qed.

Lemma option_state_bits s e b k : e ∈ CSH_OPTION_LIST -> opt_bit e = 2 ^ k -> 0 <= k < 32 ->
  option_state s e b = with_info s (info_options (info s) (options (info (option_state s e b)))) /\
  forall j, 0 <= j < 32 ->
    Z.testbit (options (info (option_state s e b))) j = if j =? k then b else Z.testbit (options (info s)) j.
Proof.
  intros He Hk Hk32. destruct (listed_options e He) as (_ & _ & _ & _ & k' & Hk' & Ek' & Hs).
  assert (k' = k) as -> by (apply (Z.pow_inj_r 2); lia). unfold option_state.
  set (new := apply_bit _ _ _).
  assert (0 <= new) as Hn.
  { subst new. unfold apply_bit. assert (0 <= Z.land (options (info s)) CSH_SETTABLE_OPTIONS)
      by (apply Z.land_nonneg; right; vm_compute; congruence).
    destruct b; [apply Z.lor_nonneg; split; [done|]; rewrite Hk; apply Z.pow_nonneg; lia|apply Z.land_nonneg; by left]. }
  assert (forall j, 0 <= j < 32 -> Z.testbit new j =
    if j =? k then b else Z.testbit (options (info s)) j && Z.testbit CSH_SETTABLE_OPTIONS j) as Hbits.
  { intros j Hj. subst new. unfold apply_bit. rewrite Hk. destruct b.
    - rewrite Z.lor_spec, Z.land_spec. destruct (j =? k) eqn:E.
      + apply Z.eqb_eq in E as ->. rewrite Z.pow2_bits_true by lia. apply orb_true_r.
      + apply Z.eqb_neq in E. rewrite Z.pow2_bits_false by done. apply orb_false_r.
    - rewrite Z.land_spec, Z.land_spec, unot_testbit by done. destruct (j =? k) eqn:E.
      + apply Z.eqb_eq in E as ->. rewrite Z.pow2_bits_true by lia. apply andb_false_r.
      + apply Z.eqb_neq in E. rewrite Z.pow2_bits_false by done. apply andb_true_r. }
  destruct (set_options_bits s new Hn) as (Hw & Hb & _).
  { subst new. apply Z.bits_inj'. intros j Hj. rewrite Z.land_spec, Z.lnot_spec, Z.bits_0 by done.
    unfold apply_bit. rewrite Hk. destruct b.
    - rewrite Z.lor_spec, Z.land_spec. destruct (Z.eq_dec j k) as [->|Hne].
      + rewrite Hs. apply andb_false_r.
      + rewrite Z.pow2_bits_false by done. by destruct (Z.testbit (options _) j), (Z.testbit CSH_SETTABLE_OPTIONS j).
    - rewrite Z.land_spec, Z.land_spec.
      destruct (Z.testbit (options _) j), (Z.testbit CSH_SETTABLE_OPTIONS j); simpl; rewrite ?andb_false_r; done. }
  split; [exact Hw|]. intros j Hj. rewrite Hb, Hbits by done. destruct (j =? k) eqn:E.
  - apply Z.eqb_eq in E as ->. by rewrite Hs.
  - destruct (Z.testbit CSH_SETTABLE_OPTIONS j); [apply andb_true_r|done].
Qed.

(** The commands of a report, each line split at its blanks and run. *)
Fixpoint replay `{Collation} (fuel : nat) (s : csh_state) (text : str) : M (Z * csh_state) :=
  match fuel, text with
  | O, _ => ret (-1, s)
  | _, [] => ret (0, s)
  | S f, _ =>
      let '(line, rest) := cut_at text 10 in
      match cut_at line (ch " ") with
      | (name, Some operands) =>
          let '(flag, operand) := cut_at operands (ch " ") in
          if negb (str_eqb name (bs "set")) then ret (-1, s) else
          let* (rc, s) := csh_builtin_set s (flag :: option_list operand) true in
          if negb (rc =? 0) then ret (rc, s) else replay f s (default [] rest)
      | _ => ret (-1, s)
      end
  end.

Section Replay.
Context `{Collation}.
Context (o : Z).

Definition replayed (s : csh_state) (e : option_entry) : csh_state := option_state s e (opt_on o (opt_bit e)).

Lemma replay_line f s e text w : e ∈ CSH_OPTION_LIST ->
  replay (S f) s (option_line o e ++ text) w = replay f (replayed s e) text w.
Proof.
  intros He.
  assert (cut_at (option_line o e ++ text) 10 =
    (bs "set " ++ option_letter (opt_on o (opt_bit e)) ++ bs " " ++ opt_name e, Some text)) as E1.
  { replace (option_line o e ++ text) with
      ((bs "set " ++ option_letter (opt_on o (opt_bit e)) ++ bs " " ++ opt_name e) ++ 10 :: text)
      by (unfold option_line; destruct (opt_on o (opt_bit e)); by rewrite <- !app_assoc).
    apply cut_at_app.
    assert (Forall (fun e => forall b, 10 ∉ bs "set " ++ option_letter b ++ bs " " ++ opt_name e) CSH_OPTION_LIST) as Hall.
    { repeat constructor; intros []; apply (bool_decide_unpack _); reflexivity. }
    rewrite Forall_forall in Hall. by apply Hall. }
  assert (exists c t, option_line o e ++ text = c :: t) as (c & t & Et) by by eexists _, _.
  rewrite Et in *. cbn [replay]. rewrite E1.
  change (bs "set " ++ option_letter (opt_on o (opt_bit e)) ++ bs " " ++ opt_name e)
    with (bs "set" ++ ch " " :: option_letter (opt_on o (opt_bit e)) ++ ch " " :: opt_name e).
  rewrite cut_at_app by (apply (bool_decide_unpack _); reflexivity).
  rewrite cut_at_app by (destruct (opt_on o (opt_bit e)); apply (bool_decide_unpack _); reflexivity).
  change (negb (str_eqb (bs "set") (bs "set"))) with false. cbn [option_list].
  erewrite bind_run; [|by apply set_one_option]. reflexivity.
Qed.

Lemma replay_lines l s w : Forall (fun e => e ∈ CSH_OPTION_LIST) l -> forall f, (length l < f)%nat ->
  replay f s (l ≫= option_line o) w = ((0, foldl replayed s l), w).
Proof.
  intros Hl. revert s. induction Hl as [|e l He Hl IH]; intros s f Hf; destruct f as [|f]; simpl in Hf; [lia..| |lia|].
  - reflexivity.
  - cbn [mbind list_bind foldl]. rewrite replay_line by done. apply IH. lia.
Qed.

Lemma replayed_bits (l : list option_entry) (s : csh_state) : Forall (fun e => e ∈ CSH_OPTION_LIST) l ->
  (foldl replayed s l : csh_state) = with_info s (info_options (info s) (options (info (foldl replayed s l)))) /\
  forall j, 0 <= j < 32 -> Z.testbit (options (info (foldl replayed s l))) j =
    if existsb (fun e => opt_bit e =? 2 ^ j) l then Z.testbit o j else Z.testbit (options (info s)) j.
Proof.
  intros Hl. revert s. induction Hl as [|e l He Hl IH]; intros s; cbn [foldl existsb].
  { by rewrite same_options. }
  destruct (listed_options e He) as (_ & _ & _ & _ & k & Hk & Ek & _).
  destruct (option_state_bits s e (opt_on o (opt_bit e)) k He Ek Hk) as [H1 H2].
  destruct (IH (replayed s e)) as [H3 H4]. split.
  - rewrite H3 at 1. unfold replayed at 1 2. rewrite H1. reflexivity.
  - intros j Hj. rewrite H4 by done. destruct (existsb _ l); [by rewrite orb_true_r|]. rewrite orb_false_r.
    unfold replayed. rewrite H2 by done. rewrite Ek, opt_on_bit by lia.
    destruct (j =? k) eqn:E.
    + apply Z.eqb_eq in E as ->. by rewrite Z.eqb_refl.
    + replace (2 ^ k =? 2 ^ j) with false; [done|]. symmetry. apply Z.eqb_neq. intros E2.
      apply Z.eqb_neq in E. apply E. symmetry. apply (Z.pow_inj_r 2); lia.
Qed.
End Replay.

Lemma settable_bit_listed j : 0 <= j ->
  Z.testbit CSH_SETTABLE_OPTIONS j = (j <? 32) && existsb (fun e => opt_bit e =? 2 ^ j) CSH_OPTION_LIST.
Proof.
  intros Hj. destruct (Z.ltb_spec j 32).
  - assert (forallb (fun j => eqb (Z.testbit CSH_SETTABLE_OPTIONS j)
      (existsb (fun e => opt_bit e =? 2 ^ j) CSH_OPTION_LIST)) (seqZ 0 32) = true) as Hall by (vm_compute; reflexivity).
    rewrite forallb_forall in Hall. apply eqb_prop, Hall, list_elem_of_In, elem_of_seqZ. lia.
  - apply Z.bits_above_log2; [vm_compute; congruence|]. apply (Z.lt_le_trans _ 32); [|done]. by vm_compute.
Qed.

(** The report of [set +o] restores the options.  With an output that
    takes everything it prints one command for every option of the inventory
    and changes nothing; and those commands, run from any other state of the
    shell, give exactly the settable options of the first one and change
    nothing else. *)
Theorem option_report_roundtrip `{Collation} (s : csh_state) (w : proc)
    (Hw : silent w) (Hopt : 0 <= options (info s) < 2 ^ 32) :
  exists text, csh_builtin_set s [bs "+o"] true w = ((0, s), printed text w) /\
    forall s2 w2, exists s3, replay (S (length text)) s2 text w2 = ((0, s3), w2) /\
    s3 = with_info s2 (info_options (info s2) (options (info s3))) /\
    Z.land (options (info s3)) CSH_SETTABLE_OPTIONS = Z.land (options (info s)) CSH_SETTABLE_OPTIONS.
Proof.
  set (o := Z.land (options (info s)) CSH_SETTABLE_OPTIONS).
  exists (CSH_OPTION_LIST ≫= option_line o).
  assert (Forall (fun e => e ∈ CSH_OPTION_LIST) CSH_OPTION_LIST) as Hall by by apply Forall_forall.
  assert (0 <= o) as Ho by (apply Z.land_nonneg; left; lia). split.
  - unfold csh_builtin_set. fold o.
    change (set_arguments (S (length [bs "+o"])) [bs "+o"] o 0) with (Some (mk_request o 2 false [])).
    cbn [rq_options rq_replace rq_rest rq_report]. rewrite andb_false_r. cbn [negb orb].
    rewrite bool_decide_true by done. cbn [negb]. unfold bind at 1, ret at 1. cbn beta iota.
    change (negb (0 =? 0)) with false. change (2 =? 0) with false. change (2 =? 2) with true. cbv beta iota.
    erewrite bind_run by (apply report_options_silent; [done|repeat constructor; by vm_compute]).
    unfold ret. cbn beta iota. f_equal. f_equal.
    destruct (set_options_bits s o Ho) as (Hs & Hb & Hh).
    { apply Z.bits_inj'. intros j Hj. unfold o. rewrite !Z.land_spec, Z.lnot_spec, Z.bits_0 by lia.
      destruct (Z.testbit (options _) j), (Z.testbit CSH_SETTABLE_OPTIONS j); done. }
    rewrite Hs. transitivity (with_info s (info_options (info s) (options (info s)))); [|apply same_options].
    do 2 f_equal.
    apply Z.bits_inj'. intros j Hj. destruct (Z.lt_ge_cases j 32).
    + rewrite Hb by lia. unfold o. rewrite Z.land_spec.
      destruct (Z.testbit CSH_SETTABLE_OPTIONS j); [apply andb_true_r|done].
    + assert (Z.testbit (options (info s)) j = false) as Hz.
      { destruct (Z.eq_dec (options (info s)) 0) as [->|Hne]; [apply Z.bits_0|].
        apply Z.bits_above_log2; [lia|]. apply (Z.lt_le_trans _ 32); [apply Z.log2_lt_pow2; lia|lia]. }
      rewrite Hz. by apply Hh.
  - intros s2 w2. destruct (replayed_bits o CSH_OPTION_LIST s2 Hall) as [Hs3 Hb3].
    eexists. split; [apply replay_lines; [done|]|split; [exact Hs3|]].
    + assert (forall l, (length l <= length (l ≫= option_line o))%nat) as Hlen.
      { induction l as [|e l IH]; [done|]. cbn [mbind list_bind length]. rewrite length_app.
        assert (1 <= length (option_line o e))%nat by (unfold option_line; rewrite length_app; simpl; lia). lia. }
      specialize (Hlen CSH_OPTION_LIST). lia.
    + unfold o at 2. apply Z.bits_inj'. intros j Hj. rewrite !Z.land_spec, (settable_bit_listed j Hj).
      destruct (Z.ltb_spec j 32); [|by rewrite !andb_false_r]. rewrite Hb3 by lia. cbn [andb].
      destruct (existsb _ CSH_OPTION_LIST) eqn:E; [|by rewrite !andb_false_r].
      unfold o. rewrite Z.land_spec, (settable_bit_listed j Hj), E.
      replace (j <? 32) with true by (symmetry; bsimp; lia). by rewrite !andb_true_r.
Qed.

Definition sample_output : proc := mk_proc [] [] [] [] [] (fun _ => bs "C") ∅ [].

Lemma sample_output_silent : silent sample_output.
Proof. done. Qed.

Lemma sample_options_bound : 0 <= options (info sample_state) < 2 ^ 32.
Proof. split; vm_compute; congruence. Qed.

(** The collation of the C locale. *)
Definition byte_collation : Collation := strcmp.

Lemma option_report_roundtrip_witness :
  silent sample_output /\ 0 <= options (info sample_state) < 2 ^ 32 /\
  exists text, csh_builtin_set (H := byte_collation) sample_state [bs "+o"] true sample_output = ((0, sample_state), printed text sample_output) /\
    exists s3, fst (replay (H := byte_collation) (S (length text)) sample_state text sample_proc) = (0, s3).
Proof.
  split; [exact sample_output_silent|]. split; [exact sample_options_bound|].
  destruct (option_report_roundtrip (H := byte_collation) sample_state sample_output sample_output_silent sample_options_bound)
    as (text & E & Hr).
  exists text. split; [exact E|]. destruct (Hr sample_state sample_proc) as (s3 & E3 & _).
  exists s3. by rewrite E3.
Defined.

(** ** Witness of the atomic operands *)

Lemma mark_operand_atomic_witness :
  let r := mark_operand (H := every_locale) sample_state CSH_VAR_EXPORT (bs "fresh") (Some (bs "value")) sample_proc in
  let refusal := mark_operand (H := every_locale) sample_state CSH_VAR_EXPORT (bs "ro") (Some (bs "value")) sample_proc in
  fst (fst r) = CSH_STATE_OK /\ marked sample_state CSH_VAR_EXPORT (bs "fresh") (Some (bs "value")) (snd (fst r)) /\
  var_map (variables (snd (fst r))) !! bs "fresh" = Some (Some (bs "value"), CSH_VAR_EXPORT) /\
  fst refusal = (CSH_STATE_READONLY, sample_state).
Proof.
  pose proof (mark_operand_atomic (H := every_locale) sample_state CSH_VAR_EXPORT (bs "fresh") (Some (bs "value"))
    sample_proc sample_state_wf sample_proc_counts ltac:(split; reflexivity)) as Hp.
  pose proof (mark_operand_atomic (H := every_locale) sample_state CSH_VAR_EXPORT (bs "ro") (Some (bs "value"))
    sample_proc sample_state_wf sample_proc_counts ltac:(split; reflexivity)) as Hq.
  intros r refusal. unfold post in Hp, Hq. fold r in Hp. fold refusal in Hq.
  assert (fst (fst r) = CSH_STATE_OK) as E by (vm_compute; reflexivity).
  assert (fst (fst refusal) = CSH_STATE_READONLY) as E2 by (vm_compute; reflexivity).
  destruct r as [[rc s] w], refusal as [[rc2 s2] w2]. cbn [fst snd] in *. subst rc rc2. cbn in Hq. destruct Hq as (_ & _ & -> & _).
  rewrite bool_decide_true in Hp by done. destruct Hp as (_ & _ & _ & Hm). split; [done|]. split; [exact Hm|]. split; [|done].
  destruct Hm as (_ & _ & _ & ->). rewrite lookup_insert_eq. vm_compute. reflexivity.
Defined.

(** ** Logical paths: the loop of [normalize] against a stack of components *)

Fixpoint pieces (s : str) : list str :=
  match s with
  | [] => [[]]
  | c :: r =>
      if c =? ch "/" then [] :: pieces r
      else match pieces r with p :: ps => (c :: p) :: ps | [] => [[c]] end
  end.

Definition path_components (s : str) : list str := filter (fun c => c <> []) (pieces s).

(** A name of a directory entry: not empty, no slash. *)
Definition entry_name (c : str) : Prop := c <> [] /\ ch "/" ∉ c.

Fixpoint join_slash (l : list str) : str :=
  match l with [] => [] | [c] => c | c :: rest => join_slash rest ++ bs "/" ++ c end.

(** The path of a stack, whose last component comes first. *)
Definition render (root : str) (stack : list str) : str := root ++ join_slash stack.

Lemma pieces_nonempty s : pieces s <> [].
Proof. induction s as [|c s IH]; [done|]. simpl. destruct (c =? _); [done|]. by destruct (pieces s). Qed.

Lemma skip_slashes_length s : (length (skip_slashes s) <= length s)%nat.
Proof. induction s as [|c s IH]; [done|]. cbn [skip_slashes]. destruct (c =? _); simpl; lia. Qed.

Lemma skip_slashes_peek s : peek (skip_slashes s) <> ch "/".
Proof. induction s as [|c s IH]; [done|]. cbn [skip_slashes]. destruct (c =? ch "/") eqn:E; [done|]. by apply Z.eqb_neq. Qed.

Lemma components_skip s : path_components (skip_slashes s) = path_components s.
Proof.
  induction s as [|c s IH]; [done|]. cbn [skip_slashes]. destruct (c =? ch "/") eqn:E; [|done].
  rewrite IH. unfold path_components. cbn [pieces]. by rewrite E.
Qed.

Lemma pieces_app a s : ch "/" ∉ a -> pieces (a ++ ch "/" :: s) = a :: pieces s.
Proof.
  induction a as [|c a IH]; intros Ha; [done|]. apply not_elem_of_cons in Ha as [Hc Ha].
  cbn [app pieces]. rewrite IH by done. by replace (c =? ch "/") with false by (symmetry; bsimp; congruence).
Qed.

Lemma pieces_one a : ch "/" ∉ a -> pieces a = [a].
Proof.
  induction a as [|c a IH]; intros Ha; [done|]. apply not_elem_of_cons in Ha as [Hc Ha].
  cbn [pieces]. rewrite IH by done. by replace (c =? ch "/") with false by (symmetry; bsimp; congruence).
Qed.

Lemma split_component_spec s name after : split_component s = (name, after) -> s <> [] -> peek s <> ch "/" ->
  entry_name name /\ path_components s = name :: path_components after /\ (length s = length name + length after)%nat /\
  (length (skip_slashes after) <= length after - 1)%nat.
Proof.
  unfold split_component. destruct (cut_at s (ch "/")) as [a r] eqn:E. intros [= <- <-] Hs Hp.
  apply cut_at_spec in E as [E Ha].
  assert (a <> []) as Hne by (intros ->; destruct r as [r|]; subst s; simpl in *; congruence).
  split; [done|]. unfold path_components. destruct r as [r|]; subst s.
  - rewrite pieces_app by done. cbn [pieces]. rewrite Z.eqb_refl. rewrite !filter_cons, (decide_True (P := a <> [])) by done.
    rewrite (decide_False (P := [] <> [])) by tauto. split_and!; [done|by rewrite length_app|].
    cbn [skip_slashes]. rewrite Z.eqb_refl. pose proof (skip_slashes_length r). simpl. lia.
  - rewrite app_nil_r, pieces_one by done. cbn [pieces]. rewrite !filter_cons, !filter_nil, (decide_True (P := a <> [])) by done.
    rewrite (decide_False (P := [] <> [])) by tauto. split_and!; [done|simpl; lia|simpl; lia].
Qed.

(** The last byte of a rendered stack is a slash exactly at the root. *)
Definition rooted (root : str) : Prop := root = bs "/" \/ root = bs "//".

Lemma render_last root stack : rooted root -> Forall entry_name stack ->
  (List.last (render root stack) 0 =? ch "/") = bool_decide (stack = []).
Proof.
  intros Hr Hs. unfold render. destruct stack as [|c stack].
  - simpl. rewrite app_nil_r. by destruct Hr as [-> | ->].
  - apply Forall_cons in Hs as [[Hne Hc] _]. rewrite bool_decide_false by done. apply Z.eqb_neq.
    destruct (exists_last Hne) as (c' & x & ->). intros Hx. apply Hc. apply elem_of_app. right.
    apply list_elem_of_singleton. rewrite <- Hx. destruct stack as [|d stack]; cbn [join_slash].
    + by rewrite app_assoc, List.last_last.
    + by rewrite !app_assoc, List.last_last.
Qed.

Lemma render_push root stack c : rooted root -> Forall entry_name stack ->
  (if negb (List.last (render root stack) 0 =? ch "/") then render root stack ++ bs "/" else render root stack) ++ c =
  render root (c :: stack).
Proof.
  intros Hr Hs. rewrite (render_last root stack Hr Hs). destruct stack as [|d stack].
  - rewrite bool_decide_true by done. cbn [negb]. unfold render. simpl. by rewrite app_nil_r.
  - rewrite bool_decide_false by done. cbn [negb]. unfold render. by rewrite <- !app_assoc.
Qed.

Lemma drop_last_app p c : drop_last (p ++ [c]) = p.
Proof. unfold drop_last. rewrite length_app. simpl. rewrite Nat.add_sub. apply take_app_length. Qed.

Lemma back_to_slash_app p c f : ch "/" ∉ c -> (length c <= f)%nat -> (1 <= length p)%nat ->
  (length p = 1%nat \/ List.last p 0 = ch "/") -> back_to_slash f (p ++ c) = p.
Proof.
  intros Hc. revert f. induction c as [|x c IH] using rev_ind; intros f Hf Hp Hl.
  - rewrite app_nil_r. destruct f as [|f]; [done|]. cbn [back_to_slash].
    replace ((1 <? length p)%nat && negb (List.last p 0 =? ch "/")) with false; [done|].
    destruct Hl as [-> | ->]; [done|]. by rewrite Z.eqb_refl, andb_false_r.
  - rewrite length_app in Hf. simpl in Hf. destruct f as [|f]; [lia|]. cbn [back_to_slash].
    rewrite app_assoc, List.last_last, drop_last_app, !length_app. simpl.
    apply not_elem_of_app in Hc as [Hc Hx]. rewrite IH; [|done|lia|done|done].
    replace (_ && _) with true; [done|]. symmetry. apply andb_true_iff. split; [apply Nat.ltb_lt; lia|].
    apply negb_true_iff, Z.eqb_neq. intros ->. apply Hx. by apply list_elem_of_singleton.
Qed.

Lemma parent_render root stack : rooted root -> Forall entry_name stack ->
  parent (render root stack) =
    match stack with _ :: _ :: _ => render root (tail stack) | _ => bs "/" end.
Proof.
  intros Hr Hs. destruct stack as [|c [|d stack]].
  - destruct Hr as [-> | ->]; reflexivity.
  - apply Forall_cons in Hs as [[Hne Hc] _]. unfold render, parent. cbn [join_slash].
    assert (1 < length (root ++ c))%nat as Hl.
    { rewrite length_app. destruct c; [done|]. destruct Hr as [-> | ->]; simpl; lia. }
    apply Nat.ltb_lt in Hl as ->. rewrite back_to_slash_app; [by destruct Hr as [-> | ->]|done|..].
    + rewrite length_app. lia.
    + destruct Hr as [-> | ->]; simpl; lia.
    + right. by destruct Hr as [-> | ->].
  - apply Forall_cons in Hs as [[Hne Hc] Hs]. unfold parent.
    assert (render root (c :: d :: stack) = (render root (d :: stack) ++ [ch "/"]) ++ c) as E.
    { unfold render. cbn [join_slash]. by rewrite <- !app_assoc. }
    rewrite E. assert (1 <= length (render root (d :: stack)))%nat as Hl
      by (unfold render; rewrite length_app; destruct Hr as [-> | ->]; simpl; lia).
    assert (1 < length ((render root (d :: stack) ++ [ch "/"]) ++ c))%nat as H1 by (rewrite !length_app; simpl; lia).
    apply Nat.ltb_lt in H1 as ->. rewrite back_to_slash_app; [|done|rewrite !length_app; lia|rewrite !length_app; simpl; lia|].
    + rewrite length_app. replace (1 <? length (render root (d :: stack)) + length [ch "/"])%nat with true.
      * apply drop_last_app.
      * symmetry. apply Nat.ltb_lt. simpl. lia.
    + right. apply List.last_last.
Qed.

Section Resolution.
Context (is_directory : str -> bool).

(** POSIX cd, step 8, over components.  Leaving the first component, or the
    root itself, ends at the single slash. *)
Fixpoint resolve (root : str) (stack comps : list str) : option str :=
  match comps with
  | [] => Some (render root stack)
  | c :: rest =>
      if str_eqb c (bs ".") then resolve root stack rest
      else if str_eqb c (bs "..") then
        if is_directory (render root stack) then
          match stack with
          | _ :: _ :: _ => resolve root (tail stack) rest
          | _ => resolve (bs "/") [] rest
          end
        else None
      else resolve root (c :: stack) rest
  end.

Lemma normalize_loop_resolve f root stack rest : rooted root -> Forall entry_name stack ->
  peek rest <> ch "/" -> (length rest < f)%nat ->
  normalize_loop is_directory f (render root stack) rest = resolve root stack (path_components rest).
Proof.
  revert root stack rest. induction f as [|f IH]; intros root stack rest Hr Hs Hp Hf; [lia|].
  cbn [normalize_loop]. destruct (decide (rest = [])) as [->|Hne]; [done|].
  destruct (split_component rest) as [name after] eqn:E.
  destruct (split_component_spec _ _ _ E Hne Hp) as (Hname & Hc & Hlen & Hskip).
  replace (match rest with [] => _ | _ => _ end) with
    (let next := skip_slashes after in
     if str_eqb name (bs ".") then normalize_loop is_directory f (render root stack) next
     else if str_eqb name (bs "..") then
       if is_directory (render root stack) then normalize_loop is_directory f (parent (render root stack)) next else None
     else normalize_loop is_directory f
       ((if negb (List.last (render root stack) 0 =? ch "/") then render root stack ++ bs "/" else render root stack) ++ name) next)
    by by destruct rest.
  pose proof skip_slashes_peek as Hskipped.
  assert (0 < length name)%nat as Hn by (destruct Hname as [Hn _]; destruct name; [done|simpl; lia]).
  assert (length (skip_slashes after) < f)%nat as Hf' by lia.
  assert (path_components (skip_slashes after) = path_components after) as Hnext by apply components_skip.
  cbv zeta. rewrite Hc. cbn [resolve]. destruct (str_eqb name (bs ".")).
  { rewrite IH by auto. by rewrite Hnext. }
  destruct (str_eqb name (bs "..")).
  - destruct (is_directory _); [|done]. rewrite parent_render by done.
    assert (bs "/" = render (bs "/") []) as Eroot by reflexivity.
    destruct stack as [|c [|d stack]].
    1-2: rewrite Eroot, IH, Hnext; [done|by left|constructor|auto|auto].
    rewrite IH, Hnext; [done..| | |]; auto. by apply Forall_cons in Hs as [_ Hs].
  - rewrite (render_push root stack name Hr Hs), IH, Hnext; auto.
Qed.
End Resolution.

(** The text before [used] and the text from [read] on share the buffer: the
    first never grows into the second. *)
Definition fits (n : nat) (out rest : str) : Prop :=
  (1 <= length out)%nat /\
  (length out + length rest + (if bool_decide (rest = []) || (List.last out 0 =? ch "/")%Z then 0 else 1) <= n)%nat.

Lemma back_to_slash_length f out : (length (back_to_slash f out) <= length out)%nat.
Proof.
  revert out. induction f as [|f IH]; intros out; [done|]. cbn [back_to_slash]. destruct (_ && _); [|done].
  etrans; [apply IH|]. unfold drop_last. rewrite length_take. lia.
Qed.

Lemma back_to_slash_keeps f out : (1 <= length out)%nat -> (1 <= length (back_to_slash f out))%nat.
Proof.
  revert out. induction f as [|f IH]; intros out Hout; [done|]. cbn [back_to_slash].
  destruct (1 <? length out)%nat eqn:E; [|done]. destruct (negb _); [|done]. apply Nat.ltb_lt in E.
  apply IH. unfold drop_last. rewrite length_take. lia.
Qed.

Lemma parent_length out : (1 <= length out)%nat ->
  (1 <= length (parent out))%nat /\ (parent out = out \/ length (parent out) < length out)%nat.
Proof.
  intros Hout. unfold parent. destruct (1 <? length out)%nat eqn:E; [|by split; [|left]].
  apply Nat.ltb_lt in E. pose proof (back_to_slash_length (length out) out).
  pose proof (back_to_slash_keeps (length out) out Hout).
  destruct (1 <? length (back_to_slash _ _))%nat eqn:E2; [apply Nat.ltb_lt in E2|apply Nat.ltb_ge in E2].
  - unfold drop_last. rewrite length_take. split; [lia|right; lia].
  - split; [lia|right; lia].
Qed.

Lemma normalize_loop_length is_directory f n out rest r : peek rest <> ch "/" -> fits n out rest ->
  normalize_loop is_directory f out rest = Some r -> (length r <= n)%nat.
Proof.
  revert out rest. induction f as [|f IH]; intros out rest Hp [Hout Hfit]; [done|]. cbn [normalize_loop].
  destruct rest as [|x rest]; [intros [= <-]; lia|].
  destruct (split_component (x :: rest)) as [name after] eqn:E.
  destruct (split_component_spec _ _ _ E ltac:(done) Hp) as ([Hname Hslash] & _ & Hlen & Hskip).
  pose proof skip_slashes_peek as Hskipped.
  assert (1 <= length name)%nat as Hn by (destruct name; [done|simpl; lia]).
  rewrite bool_decide_false in Hfit by done. cbn [orb] in Hfit.
  destruct (str_eqb name (bs ".")); [|destruct (str_eqb name (bs ".."))].
  - apply IH; [done|]. split; [done|]. destruct (bool_decide _), (List.last out 0 =? ch "/"); simpl; lia.
  - destruct (is_directory out); [|done]. destruct (parent_length out Hout) as [Hp1 Hp2].
    apply IH; [done|]. split; [done|]. destruct Hp2 as [-> | Hp2].
    + destruct (bool_decide _), (List.last out 0 =? ch "/"); simpl; lia.
    + destruct (bool_decide _), (List.last (parent out) 0 =? ch "/"); simpl; lia.
  - apply IH; [done|]. destruct (List.last out 0 =? ch "/"); cbn [negb]; (split; [rewrite !length_app; lia|]);
      rewrite !length_app; (destruct (skip_slashes after) eqn:Es;
      [rewrite bool_decide_true by done|match goal with |- context [if ?b then _ else _] => destruct b end]); simpl in *; lia.
Qed.

(** [normalize], which works in place, resolves dot components as POSIX
    states it over the components of the path: for every absolute path and
    every file system its result is that of a stack of names, which asks of
    each directory that [..] leaves whether it exists, and it never outgrows
    the buffer it rewrites.  An initial double slash is kept until the root is
    left. *)
Theorem normalize_correct (is_directory : str -> bool) (s : str) (Habs : peek s = ch "/") :
  normalize is_directory s =
    resolve is_directory (take (root_length s) s) [] (path_components s) /\
  (forall r, normalize is_directory s = Some r -> (length r <= length s)%nat).
Proof.
  destruct s as [|a s]; [done|]. simpl in Habs. subst a.
  pose proof skip_slashes_peek as Hskipped.
  assert (rooted (take (root_length (ch "/" :: s)) (ch "/" :: s))) as Hroot.
  { unfold root_length. destruct s as [|b s]; [by left|]. rewrite Z.eqb_refl. destruct (b =? ch "/") eqn:Eb; [|by left].
    apply Z.eqb_eq in Eb as ->. simpl. destruct (negb _); [by right|by left]. }
  unfold normalize. split.
  - rewrite <- components_skip, <- normalize_loop_resolve with (f := S (length (ch "/" :: s)));
      [|done|constructor|done|].
    + unfold render. cbn [join_slash]. by rewrite app_nil_r.
    + pose proof (skip_slashes_length (ch "/" :: s)). lia.
  - intros r. apply normalize_loop_length; [done|].
    assert (skip_slashes (ch "/" :: s) = skip_slashes (drop (root_length (ch "/" :: s)) (ch "/" :: s))) as E.
    { unfold root_length. destruct s as [|b s]; [done|]. rewrite Z.eqb_refl. destruct (b =? ch "/") eqn:Eb; [|done].
      simpl. destruct (negb _); simpl; rewrite ?Eb; done. }
    rewrite E. pose proof (skip_slashes_length (drop (root_length (ch "/" :: s)) (ch "/" :: s))) as Hl.
    assert (length (ch "/" :: s) = length (take (root_length (ch "/" :: s)) (ch "/" :: s)) +
      length (drop (root_length (ch "/" :: s)) (ch "/" :: s)))%nat as Hsum by by rewrite <- length_app, take_drop.
    assert (1 <= length (take (root_length (ch "/" :: s)) (ch "/" :: s)))%nat as H1
      by (destruct Hroot as [-> | ->]; simpl; lia).
    split; [exact H1|].
    assert ((List.last (take (root_length (ch "/" :: s)) (ch "/" :: s)) 0 =? ch "/") = true) as ->
      by (destruct Hroot as [-> | ->]; reflexivity).
    rewrite orb_true_r. lia.
Qed.

Lemma normalize_correct_witness :
  peek (bs "//a/./b//../../c/") = ch "/" /\
  normalize (fun _ => true) (bs "//a/./b//../../c/") = Some (bs "/c") /\
  (length (bs "/c") <= length (bs "//a/./b//../../c/"))%nat.
Proof.
  destruct (normalize_correct (fun _ => true) (bs "//a/./b//../../c/") eq_refl) as [E H].
  split; [done|]. assert (normalize (fun _ => true) (bs "//a/./b//../../c/") = Some (bs "/c")) as E2 by (rewrite E; reflexivity).
  split; [exact E2|]. by apply H.
Defined.
