(* ===== verification/Jobs.v ===== *)
(** * Jobs (src/jobs.c)

    The job table of a shell process: collection of child statuses, the wait
    loop, foreground and background transitions, selection and display of jobs,
    the builtins [jobs], [fg], [bg], [wait] and [kill], and the signal
    dispositions around fork and exec.

    The host ([host]) holds what the code reads and changes outside its table:
    the signal state of Signals.v, the children with the status changes that
    [waitpid] has not reported yet, the terminal, and oracles for the calls that
    may fail.  A job is named by its identifier where the code holds a pointer.
    A computation that would block for ever has no result. *)

From stdpp Require Import base list gmap strings.
From S2P Require Import Prelude Output Numbers Options State Signals Traps Builtin.

(** ** Wait statuses, encoded as the host does *)

Definition WTERMSIG (s : Z) : Z := Z.land s 127.
Definition WIFEXITED (s : Z) : bool := WTERMSIG s =? 0.
Definition WEXITSTATUS (s : Z) : Z := Z.land (Z.shiftr s 8) 255.
Definition WIFSIGNALED (s : Z) : bool := negb (WTERMSIG s =? 0) && negb (WTERMSIG s =? 127).
Definition WIFSTOPPED (s : Z) : bool := Z.land s 255 =? 127.
Definition WSTOPSIG (s : Z) : Z := WEXITSTATUS s.
Definition WIFCONTINUED (s : Z) : bool := s =? 65535.

Definition terminated (s : Z) : bool := WIFEXITED s || WIFSIGNALED s.

(** ** The table *)

Record csh_job_process : Type := mk_process { pid : Z; pstatus : Z; done : bool; pstopped : bool }.

(** Terminal modes are opaque to the shell. *)
Abbreviation termios := Z (only parsing).

Record csh_job : Type := mk_job {
  id : Z;
  pgid : Z;
  processes : list csh_job_process;
  text : str;
  grouped : bool;
  background : bool;
  changed : bool;
  reported : bool;
  negated : bool;
  pipefail : bool;
  job_modes_valid : bool;
  job_modes : termios
}.

Record csh_jobs : Type := mk_jobs {
  jstate : csh_state;
  head : list csh_job;
  next_id : Z;
  retained : Z;
  retention_limit : Z;
  tty : Z;
  shell_group : Z;
  interactive : bool;
  installed : nat;
  saved : list sigact;
  exec_saved : list sigact;
  fork_saved : list sigact;
  fork_prepared : nat;
  shell_modes : termios;
  modes_valid : bool
}.

Definition zero_process : csh_job_process := mk_process 0 0 false false.

Definition with_processes (j : csh_job) (ps : list csh_job_process) : csh_job :=
  mk_job (id j) (pgid j) ps (text j) (grouped j) (background j) (changed j) (reported j) (negated j)
    (pipefail j) (job_modes_valid j) (job_modes j).
Definition with_background (j : csh_job) (b : bool) : csh_job :=
  mk_job (id j) (pgid j) (processes j) (text j) (grouped j) b (changed j) (reported j) (negated j)
    (pipefail j) (job_modes_valid j) (job_modes j).
Definition with_changed (j : csh_job) (b : bool) : csh_job :=
  mk_job (id j) (pgid j) (processes j) (text j) (grouped j) (background j) b (reported j) (negated j)
    (pipefail j) (job_modes_valid j) (job_modes j).
Definition with_reported (j : csh_job) (b : bool) : csh_job :=
  mk_job (id j) (pgid j) (processes j) (text j) (grouped j) (background j) (changed j) b (negated j)
    (pipefail j) (job_modes_valid j) (job_modes j).
Definition with_job_modes (j : csh_job) (valid : bool) (m : termios) : csh_job :=
  mk_job (id j) (pgid j) (processes j) (text j) (grouped j) (background j) (changed j) (reported j) (negated j)
    (pipefail j) valid m.

Definition with_head (js : csh_jobs) (l : list csh_job) : csh_jobs :=
  mk_jobs (jstate js) l (next_id js) (retained js) (retention_limit js) (tty js) (shell_group js)
    (interactive js) (installed js) (saved js) (exec_saved js) (fork_saved js) (fork_prepared js)
    (shell_modes js) (modes_valid js).
Definition with_counts (js : csh_jobs) (l : list csh_job) (next count : Z) : csh_jobs :=
  mk_jobs (jstate js) l next count (retention_limit js) (tty js) (shell_group js)
    (interactive js) (installed js) (saved js) (exec_saved js) (fork_saved js) (fork_prepared js)
    (shell_modes js) (modes_valid js).
Definition with_shell_modes (js : csh_jobs) (m : termios) (valid : bool) : csh_jobs :=
  mk_jobs (jstate js) (head js) (next_id js) (retained js) (retention_limit js) (tty js) (shell_group js)
    (interactive js) (installed js) (saved js) (exec_saved js) (fork_saved js) (fork_prepared js) m valid.
Definition with_tty (js : csh_jobs) (fd group : Z) : csh_jobs :=
  mk_jobs (jstate js) (head js) (next_id js) (retained js) (retention_limit js) fd group
    (interactive js) (installed js) (saved js) (exec_saved js) (fork_saved js) (fork_prepared js)
    (shell_modes js) (modes_valid js).
Definition with_jstate (js : csh_jobs) (s : csh_state) : csh_jobs :=
  mk_jobs s (head js) (next_id js) (retained js) (retention_limit js) (tty js) (shell_group js)
    (interactive js) (installed js) (saved js) (exec_saved js) (fork_saved js) (fork_prepared js)
    (shell_modes js) (modes_valid js).
Definition with_saved (js : csh_jobs) (n : nat) (l : list sigact) : csh_jobs :=
  mk_jobs (jstate js) (head js) (next_id js) (retained js) (retention_limit js) (tty js) (shell_group js)
    (interactive js) n l (exec_saved js) (fork_saved js) (fork_prepared js) (shell_modes js) (modes_valid js).
Definition with_exec_saved (js : csh_jobs) (l : list sigact) : csh_jobs :=
  mk_jobs (jstate js) (head js) (next_id js) (retained js) (retention_limit js) (tty js) (shell_group js)
    (interactive js) (installed js) (saved js) l (fork_saved js) (fork_prepared js) (shell_modes js) (modes_valid js).
Definition with_fork_saved (js : csh_jobs) (l : list sigact) (n : nat) : csh_jobs :=
  mk_jobs (jstate js) (head js) (next_id js) (retained js) (retention_limit js) (tty js) (shell_group js)
    (interactive js) (installed js) (saved js) (exec_saved js) l n (shell_modes js) (modes_valid js).

(** The job a pointer refers to, and an assignment through it. *)
Definition find_id (js : csh_jobs) (i : Z) : option csh_job := List.find (fun j => id j =? i) (head js).

Definition update_job (js : csh_jobs) (i : Z) (f : csh_job -> csh_job) : csh_jobs :=
  with_head js (map (fun j => if id j =? i then f j else j) (head js)).

(** ** Predicates on jobs *)

Definition complete (j : csh_job) : bool :=
  forallb (fun p => negb ((0 <? pid p) && negb (done p))) (processes j).

(** The loop of [stopped]: false as soon as a live process runs, else whether
    there was a live one. *)
Fixpoint stopped_loop (ps : list csh_job_process) (any : bool) : bool :=
  match ps with
  | [] => any
  | p :: rest =>
      if (pid p <=? 0) || done p then stopped_loop rest any
      else if negb (pstopped p) then false
      else stopped_loop rest true
  end.

Definition stopped (j : csh_job) : bool := stopped_loop (processes j) false.

(** A stage that does not end with status 0. *)
Definition failed (s : Z) : bool := negb (WIFEXITED s) || negb (WEXITSTATUS s =? 0).

(** The status a finished pipeline is judged by: that of the last stage, or with
    pipefail that of the last stage that failed. *)
Definition deciding (j : csh_job) : csh_job_process :=
  let last := List.last (processes j) zero_process in
  if pipefail j then default last (List.find (fun p => failed (pstatus p)) (rev (processes j))) else last.

Definition decode_status (s : Z) : Z :=
  if WIFEXITED s then WEXITSTATUS s else if WIFSIGNALED s then 128 + WTERMSIG s else 1.

Definition job_status (j : csh_job) : Z :=
  match (if stopped j then List.find pstopped (processes j) else None) with
  | Some p => 128 + WSTOPSIG (pstatus p)
  | None =>
      let status := decode_status (pstatus (deciding j)) in
      if negated j then (if status =? 0 then 1 else 0) else status
  end.

Definition csh_jobs_monitor (js : csh_jobs) : bool :=
  (0 <=? tty js) && opt_on (options (csh_state_get_info (jstate js))) CSH_OPT_MONITOR.

Definition csh_jobs_remove (js : csh_jobs) (i : Z) : csh_jobs :=
  match find_id js i with
  | Some _ => with_counts js (filter (fun j => id j <> i) (head js)) (next_id js) (retained js - 1)
  | None => js
  end.

(** The eviction loop: while the table is full, the oldest completed job goes,
    when there are as many completed jobs as the table retains. *)
Fixpoint evict (fuel : nat) (js : csh_jobs) : csh_jobs :=
  match fuel with
  | O => js
  | S f =>
      if negb (retention_limit js <=? retained js) then js else
      let completed := filter (fun j => complete j = true) (head js) in
      if Z.of_nat (length completed) <? retention_limit js then js else
      match List.last (map Some completed) None with
      | Some oldest => evict f (csh_jobs_remove js (id oldest))
      | None => js
      end
  end.

Definition UINT_MAX : Z := 2 ^ 32 - 1.

Definition csh_jobs_add (js : csh_jobs) (count : nat) (cmd : str) (asynchronous neg : bool)
    : M (option Z * errno * csh_jobs) :=
  if (count =? 0)%nat || (next_id js =? UINT_MAX) then ret (None, EOVERFLOW, js) else
  let js := if asynchronous then evict (S (length (head js))) js else js in
  let* ok := malloc in
  if negb ok then ret (None, ENOMEM, js) else
  let* ok1 := malloc in
  let* ok2 := malloc in
  if negb (ok1 && ok2) then ret (None, ENOMEM, js) else
  let job := mk_job (next_id js) 0 (replicate count zero_process) cmd (csh_jobs_monitor js) asynchronous
    false false neg (opt_on (options (csh_state_get_info (jstate js))) CSH_OPT_PIPEFAIL) false 0 in
  ret (Some (next_id js), ENONE, with_counts js (job :: head js) (next_id js + 1) (retained js + 1)).

Definition promote_job (js : csh_jobs) (i : Z) : csh_jobs :=
  match find_id js i with
  | Some j => with_head js (j :: filter (fun j => id j <> i) (head js))
  | None => js
  end.

(** ** Selection *)

(** The jobs of the class [want], in the order of the list. *)
Definition job_class (js : csh_jobs) (want : bool) : list csh_job :=
  filter (fun j => background j && negb (complete j) && Bool.eqb (stopped j) want = true) (head js).

(** [previous] counts down over the stopped jobs, then the running ones. *)
Definition current_job (js : csh_jobs) (previous : nat) : option csh_job :=
  (job_class js true ++ job_class js false) !! previous.

Definition marker (js : csh_jobs) (j : csh_job) : byte :=
  let ranked k := match current_job js k with Some c => id c =? id j | None => false end in
  if ranked 0%nat then ch "+" else if ranked 1%nat then ch "-" else ch " ".

Fixpoint contains (needle s : str) : bool :=
  starts_with needle s || match s with [] => false | _ :: rest => contains needle rest end.

(** The search by text: the one match that is not complete, when it is one. *)
Fixpoint match_loop (l : list csh_job) (p : csh_job -> bool) (found : option csh_job) : option csh_job :=
  match l with
  | [] => found
  | j :: rest =>
      if p j && negb (complete j) then
        match found with Some _ => None | None => match_loop rest p (Some j) end
      else match_loop rest p found
  end.

Definition last_pid (j : csh_job) : Z := pid (List.last (processes j) zero_process).

Definition find_job (js : csh_jobs) (operand : option str) (pid_ok : bool) : option csh_job :=
  match operand with
  | None => current_job js 0
  | Some o =>
      if str_eqb o (bs "%") || str_eqb o (bs "%%") || str_eqb o (bs "%+") then current_job js 0
      else if str_eqb o (bs "%-") then current_job js 1
      else if negb (peek o =? ch "%") then
        match (if pid_ok then number o else None) with
        | Some v => if v <=? 0 then None else List.find (fun j => last_pid j =? v) (head js)
        | None => None
        end
      else
        let o := tail o in
        if isdigit (peek o) then
          match number o with
          | Some v =>
              if v <=? 0 then None
              else List.find (fun j => (id j =? v) && (pid_ok || negb (complete j) || negb (reported j))) (head js)
          | None => None
          end
        else
          match_loop (head js)
            (fun j => if peek o =? ch "?" then contains (tail o) (text j) else starts_with o (text j)) None
  end.

(** ** The host *)

(** A child of the shell: its process group and the status changes that
    [waitpid] has not reported yet; a status of termination comes last. *)
Record child : Type := mk_child { ch_group : Z; ch_statuses : list Z }.

(** What happens around one [sigsuspend]: the signals that no mask holds back
    and that arrive between the last check and the suspension, then the status
    changes and signals that end it. *)
Record arrival : Type := mk_arrival {
  ar_window : list Z;
  ar_statuses : list (Z * Z);
  ar_signals : list Z
}.

Record host : Type := mk_host {
  h_proc : proc;
  h_sig : signals;
  h_children : gmap Z child;
  h_wait_faults : list (option errno);    (* results of the coming [waitpid] calls *)
  h_kill_faults : list (option errno);    (* results of the coming [kill] calls *)
  h_kills : list (Z * Z);                 (* the signals sent, the last one first *)
  h_arrivals : list arrival;
  h_terminal_faults : list (option errno);
  h_tty_group : Z;                        (* the foreground group of the terminal *)
  h_tty_modes : termios;
  h_errno : errno
}.

Definition with_proc (h : host) (w : proc) : host :=
  mk_host w (h_sig h) (h_children h) (h_wait_faults h) (h_kill_faults h) (h_kills h) (h_arrivals h)
    (h_terminal_faults h) (h_tty_group h) (h_tty_modes h) (h_errno h).
Definition with_sig (h : host) (g : signals) : host :=
  mk_host (h_proc h) g (h_children h) (h_wait_faults h) (h_kill_faults h) (h_kills h) (h_arrivals h)
    (h_terminal_faults h) (h_tty_group h) (h_tty_modes h) (h_errno h).
Definition with_children (h : host) (c : gmap Z child) : host :=
  mk_host (h_proc h) (h_sig h) c (h_wait_faults h) (h_kill_faults h) (h_kills h) (h_arrivals h)
    (h_terminal_faults h) (h_tty_group h) (h_tty_modes h) (h_errno h).
Definition with_wait_faults (h : host) (l : list (option errno)) : host :=
  mk_host (h_proc h) (h_sig h) (h_children h) l (h_kill_faults h) (h_kills h) (h_arrivals h)
    (h_terminal_faults h) (h_tty_group h) (h_tty_modes h) (h_errno h).
Definition with_kills (h : host) (faults : list (option errno)) (l : list (Z * Z)) : host :=
  mk_host (h_proc h) (h_sig h) (h_children h) (h_wait_faults h) faults l (h_arrivals h)
    (h_terminal_faults h) (h_tty_group h) (h_tty_modes h) (h_errno h).
Definition with_arrivals (h : host) (l : list arrival) : host :=
  mk_host (h_proc h) (h_sig h) (h_children h) (h_wait_faults h) (h_kill_faults h) (h_kills h) l
    (h_terminal_faults h) (h_tty_group h) (h_tty_modes h) (h_errno h).
Definition with_terminal (h : host) (faults : list (option errno)) (group : Z) (modes : termios) : host :=
  mk_host (h_proc h) (h_sig h) (h_children h) (h_wait_faults h) (h_kill_faults h) (h_kills h) (h_arrivals h)
    faults group modes (h_errno h).
Definition with_errno (h : host) (e : errno) : host :=
  mk_host (h_proc h) (h_sig h) (h_children h) (h_wait_faults h) (h_kill_faults h) (h_kills h) (h_arrivals h)
    (h_terminal_faults h) (h_tty_group h) (h_tty_modes h) e.

(** ** Computations *)

Definition J (A : Type) : Type := host -> option (A * host).

Definition jret {A} (a : A) : J A := fun h => Some (a, h).
Definition jbind {A B} (m : J A) (f : A -> J B) : J B := fun h =>
  match m h with Some (a, h') => f a h' | None => None end.
Definition jlift {A} (m : M A) : J A := fun h => let '(a, w) := m (h_proc h) in Some (a, with_proc h w).
Definition jget : J host := fun h => Some (h, h).
Definition jput (h : host) : J unit := fun _ => Some (tt, h).
Definition jblock {A} : J A := fun _ => None.

Notation "'let&' x ':=' m 'in' k" := (jbind m (fun x => k))
  (at level 10, x strict pattern, m at level 200, k at level 200,
   format "'let&'  x  ':='  m  'in' '//' k") : cshell_scope.

(** ** Calls of the host *)

Definition next_fault (l : list (option errno)) : option errno * list (option errno) :=
  match l with [] => (None, []) | f :: rest => (f, rest) end.

(** [waitpid(pid, &status, WNOHANG | WUNTRACED | WCONTINUED)]: an error, no
    change, or a status.  A child whose termination was reported is gone. *)
Inductive wait_result : Type := WError (e : errno) | WNone | WStatus (s : Z).

Definition waitpid_poll (p : Z) : J wait_result := fun h =>
  let '(fault, faults) := next_fault (h_wait_faults h) in
  let h := with_wait_faults h faults in
  match fault with
  | Some e => Some (WError e, with_errno h e)
  | None =>
      match h_children h !! p with
      | None => Some (WError ECHILD, with_errno h ECHILD)
      | Some c =>
          match ch_statuses c with
          | [] => Some (WNone, h)
          | s :: rest =>
              Some (WStatus s, with_children h
                (if terminated s then delete p (h_children h)
                 else <[p := mk_child (ch_group c) rest]> (h_children h)))
          end
      end
  end.

(** [waitpid(pid, &status, 0)]: waits for the termination. *)
Definition waitpid_exit (p : Z) : J (errno + Z) := fun h =>
  let '(fault, faults) := next_fault (h_wait_faults h) in
  let h := with_wait_faults h faults in
  match fault with
  | Some e => Some (inl e, with_errno h e)
  | None =>
      match h_children h !! p with
      | None => Some (inl ECHILD, with_errno h ECHILD)
      | Some c =>
          match List.find terminated (ch_statuses c) with
          | Some s => Some (inr s, with_children h (delete p (h_children h)))
          | None => None
          end
      end
  end.

(** A killed child terminates by the signal, unless it has already ended. *)
Definition kill_child (c : child) : child :=
  if existsb terminated (ch_statuses c) then c else mk_child (ch_group c) (ch_statuses c ++ [SIGKILL]).

(** The children that [kill(target, ...)] addresses. *)
Definition addressed (target p : Z) (c : child) : bool :=
  if 0 <? target then p =? target else ch_group c =? - target.

(** [kill(target, sig)]: true is success.  What a signal other than SIGKILL does
    to a child is up to the child and arrives later. *)
Definition kill (target sig : Z) : J bool := fun h =>
  let '(fault, faults) := next_fault (h_kill_faults h) in
  match fault with
  | Some e => Some (false, with_errno (with_kills h faults (h_kills h)) e)
  | None =>
      let h := with_kills h faults ((target, sig) :: h_kills h) in
      Some (true, if sig =? SIGKILL
        then with_children h (map_imap (fun p c => Some (if addressed target p c then kill_child c else c))
                                (h_children h))
        else h)
  end.

(** [getpgid(p) == -1 && errno == ESRCH]: the child has left its group. *)
Definition departed (p : Z) : J bool := fun h =>
  match h_children h !! p with
  | Some c => Some (existsb terminated (ch_statuses c), h)
  | None => Some (true, h)
  end.

Definition deliver_all (g : signals) (l : list Z) : signals :=
  foldl (fun g n => default g (deliver g n)) g l.

Definition add_status (m : gmap Z child) (e : Z * Z) : gmap Z child :=
  match m !! e.1 with
  | Some c => if existsb terminated (ch_statuses c) then m
              else <[e.1 := mk_child (ch_group c) (ch_statuses c ++ [e.2])]> m
  | None => m
  end.

(** [sigsuspend]: signals that no mask holds back may still arrive before it;
    then it sleeps until a signal arrives, SIGCHLD when a status changes. *)
Definition sigsuspend : J unit := fun h =>
  match h_arrivals h with
  | [] => None
  | a :: rest =>
      if bool_decide (ar_statuses a = []) && bool_decide (ar_signals a = []) then None else
      let g := deliver_all (deliver_all (h_sig h) (ar_window a)) (ar_signals a) in
      Some (tt, with_arrivals (with_children (with_sig h g) (foldl add_status (h_children h) (ar_statuses a))) rest)
  end.

(** A terminal call; [apply] is its effect when it succeeds. *)
Fixpoint terminal_retry (faults : list (option errno)) : bool * errno * list (option errno) :=
  match faults with
  | [] => (true, ENONE, [])
  | None :: rest => (true, ENONE, rest)
  | Some EINTR :: rest => terminal_retry rest
  | Some e :: rest => (false, e, rest)
  end.

Definition terminal_change (group : option Z) (modes : option termios) : J bool := fun h =>
  let '(ok, e, faults) := terminal_retry (h_terminal_faults h) in
  let h' := with_terminal h faults (if ok then default (h_tty_group h) group else h_tty_group h)
              (if ok then default (h_tty_modes h) modes else h_tty_modes h) in
  Some (ok, if ok then h' else with_errno h' e).

Definition terminal_group (group : Z) : J bool := terminal_change (Some group) None.
Definition terminal_modes (m : termios) : J bool := terminal_change None (Some m).

(** [tcgetattr] *)
Definition get_modes : J (option termios) := fun h =>
  let '(fault, faults) := next_fault (h_terminal_faults h) in
  let h := with_terminal h faults (h_tty_group h) (h_tty_modes h) in
  match fault with
  | Some e => Some (None, with_errno h e)
  | None => Some (Some (h_tty_modes h), h)
  end.

(** ** Collection *)

Definition observe (p : csh_job_process) (s : Z) : csh_job_process :=
  if WIFCONTINUED s then mk_process (pid p) (pstatus p) (done p) false
  else mk_process (pid p) s (terminated s) (WIFSTOPPED s).

(** The inner loop of [csh_jobs_poll]; every turn uses up a status or a fault. *)
Fixpoint poll_process (fuel : nat) (p : csh_job_process) : J (bool * csh_job_process) :=
  match fuel with
  | O => jblock
  | S f =>
      let& r := waitpid_poll (pid p) in
      match r with
      | WStatus s =>
          let p := observe p s in
          if done p then jret (true, p) else poll_process f p
      | WNone => jret (true, p)
      | WError EINTR => poll_process f p
      | WError _ => jret (false, p)
      end
  end.

Definition poll_fuel (h : host) (p : Z) : nat :=
  S (length (h_wait_faults h) + match h_children h !! p with Some c => length (ch_statuses c) | None => 0 end).

(** The processes of a job; the flag is false when the call fails, which ends
    the scan with the rest as it was. *)
Fixpoint poll_processes (ps : list csh_job_process) : J (bool * list csh_job_process) :=
  match ps with
  | [] => jret (true, [])
  | p :: rest =>
      let& (ok, p) := (if (pid p <=? 0) || done p then jret (true, p)
                       else let& h := jget in poll_process (poll_fuel h (pid p)) p) in
      if ok then let& (ok, rest) := poll_processes rest in jret (ok, p :: rest)
      else jret (false, p :: rest)
  end.

Fixpoint poll_jobs (l : list csh_job) : J (bool * list csh_job) :=
  match l with
  | [] => jret (true, [])
  | j :: rest =>
      let& (ok, ps) := poll_processes (processes j) in
      let j' := with_processes j ps in
      if ok then
        let j' := if negb (Bool.eqb (complete j) (complete j')) || negb (Bool.eqb (stopped j) (stopped j'))
                  then with_changed j' true else j' in
        let& (ok, rest) := poll_jobs rest in jret (ok, j' :: rest)
      else jret (false, j' :: rest)
  end.

Definition csh_jobs_poll (js : csh_jobs) : J (bool * csh_jobs) :=
  let& (ok, l) := poll_jobs (head js) in jret (ok, with_head js l).

(** ** Output *)

(** [outputf]: the text is formatted in 256 bytes of its own or in memory. *)
Definition outputf (fd : out_fd) (s : str) : J bool := jlift (
  let* ok := (if 256 <=? slen s then malloc else ret true) in
  if negb ok then ret false else
  let* r := csh_write_bytes fd s in ret (0 <=? r)).

Definition diagnostic (name message : str) (operand : option str) : J Z :=
  let& _ := outputf STDERR (bs "cshell: " ++ name ++ bs ": " ++ message ++
    match operand with Some o => bs ": " ++ o | None => [] end ++ [10]) in
  jret 1.

(** ** Display *)

Definition Stopped : str := bs "Stopped".

(** What the host calls a signal without a name in the table. *)
Class SignalText : Type := strsignal : Z -> str.

Definition state_text `{SignalText} (j : csh_job) : str :=
  if stopped j then
    let n := job_status j - 128 in
    if negb (n =? SIGTSTP)
    then bs "Stopped (SIG" ++ default (bs "(null)") (csh_jobs_signal_name n) ++ bs ")"
    else bs "Stopped"
  else if complete j then
    let status := job_status j in
    let raw := pstatus (deciding j) in
    if WIFSIGNALED raw then
      match csh_jobs_signal_name (WTERMSIG raw) with
      | Some name => bs "Terminated (SIG" ++ name ++ bs ")"
      | None => bs "Terminated (" ++ strsignal (WTERMSIG raw) ++ bs ")"
      end
    else if status =? 0 then bs "Done"
    else bs "Done(" ++ print_long status ++ bs ")"
  else bs "Running".

Definition displayed_pid (j : csh_job) : Z := if grouped j then pgid j else last_pid j.

(** The state is formatted in a buffer of 64 bytes. *)
Definition job_state `{SignalText} (j : csh_job) : str := take 63 (state_text j).

Fixpoint print_stages (fd : out_fd) (shown : Z) (cmd : str) (ps : list csh_job_process) : J bool :=
  match ps with
  | [] => jret true
  | p :: rest =>
      if pid p =? shown then print_stages fd shown cmd rest else
      let& ok := outputf fd (print_long (pid p) ++ bs " " ++ cmd ++ [10]) in
      if ok then print_stages fd shown cmd rest else jret false
  end.

(** [format] is 0, [l] or [p]. *)
Definition print_job `{SignalText} (js : csh_jobs) (j : csh_job) (fd : out_fd) (format : byte) : J bool :=
  let state := job_state j in
  let heading := bs "[" ++ print_long (id j) ++ bs "] " ++ [marker js j] ++ bs " " in
  if format =? ch "p" then outputf fd (print_long (displayed_pid j) ++ [10])
  else if format =? ch "l" then
    let& ok := outputf fd (heading ++ print_long (displayed_pid j) ++ bs " " ++ state ++ bs " " ++ text j ++ [10]) in
    if ok then print_stages fd (displayed_pid j) (text j) (processes j) else jret false
  else outputf fd (heading ++ state ++ bs " " ++ text j ++ [10]).

Definition csh_jobs_announce (js : csh_jobs) (j : csh_job) : J unit :=
  if interactive js
  then let& _ := outputf STDERR (bs "[" ++ print_long (id j) ++ bs "] " ++ print_long (last_pid j) ++ [10]) in jret tt
  else jret tt.

Definition mark_reported (js : csh_jobs) (i : Z) : csh_jobs :=
  update_job js i (fun j => let j := with_changed j false in if complete j then with_reported j true else j).

(** The loop over the jobs that were in the list when it started; printing and
    reporting change neither the list nor its order. *)
Fixpoint notify_loop `{SignalText} (js : csh_jobs) (l : list csh_job) : J csh_jobs :=
  match l with
  | [] => jret js
  | j :: rest =>
      if background j && changed j then
        let& ok := print_job js j STDERR 0 in
        notify_loop (if ok then mark_reported js (id j) else js) rest
      else notify_loop js rest
  end.

Definition csh_jobs_notify `{SignalText} (js : csh_jobs) : J csh_jobs :=
  if negb (interactive js) then jret js else notify_loop js (head js).

(** ** Waiting *)

Definition take_interrupted (g : signals) : signals := snd (csh_jobs_take_interrupt g).

(** The body of the loop of [wait_job]: the scan, the checks in their order and,
    when none of them ends it, the suspension. *)
Fixpoint wait_loop `{SignalText} (fuel : nat) (js : csh_jobs) (i : Z) (interruptible : bool) : J (Z * csh_jobs) :=
  match fuel with
  | O => jblock
  | S f =>
      let& (ok, js) := csh_jobs_poll js in
      if negb ok then jret (-1, js) else
      let& js := (if opt_on (options (csh_state_get_info (jstate js))) CSH_OPT_NOTIFY
                  then csh_jobs_notify js else jret js) in
      let& h := jget in
      let g := h_sig h in
      if csh_jobs_hangup_pending g then jret (128 + sg_hung_up g, js)
      else if interruptible && negb (csh_traps_first_pending g =? 0)
      then jret (128 + csh_traps_first_pending g, js)
      else if interruptible && csh_jobs_interrupt_pending g then jret (128 + sg_interrupted g, js)
      else
        match find_id js i with
        | None => jblock
        | Some j =>
            if complete j || (grouped j && stopped j) then jret (0, js) else
            let& _ := sigsuspend in wait_loop f js i interruptible
        end
  end.

Definition wait_job `{SignalText} (js : csh_jobs) (i : Z) (interruptible : bool) : J (Z * csh_jobs) :=
  let& h := jget in
  let& _ := jput (with_sig h (take_interrupted (h_sig h))) in
  wait_loop (S (length (h_arrivals h))) js i interruptible.

(** ** The terminal *)

Definition restore_terminal (js : csh_jobs) (i : Z) : J (bool * csh_jobs) :=
  match find_id js i with
  | None => jblock
  | Some j =>
      if negb (grouped j) || (tty js <? 0) then jret (true, js) else
      let& js := (if stopped j then
          let& m := get_modes in
          jret (update_job js i (fun j => with_job_modes j (bool_decide (is_Some m)) (default (job_modes j) m)))
        else jret js) in
      let& ok := terminal_group (shell_group js) in
      let& h := jget in
      let e := h_errno h in
      if modes_valid js then
        let& ok2 := terminal_modes (shell_modes js) in
        if ok2 then
          let& h := jget in
          let& _ := jput (if ok then h else with_errno h e) in
          jret (ok, with_shell_modes js (shell_modes js) false)
        else jret (false, js)
      else jret (ok, js)
  end.

Definition csh_jobs_give_terminal (js : csh_jobs) (i : Z) (resume : bool) : J (bool * csh_jobs) :=
  match find_id js i with
  | None => jblock
  | Some j =>
      if negb (grouped j) then jret (true, js) else
      let& m := get_modes in
      match m with
      | None => jret (false, js)
      | Some m =>
          let js := with_shell_modes js m true in
          let& ok := terminal_group (pgid j) in
          if negb ok then jret (false, js) else
          if resume && job_modes_valid j then
            let& ok := terminal_modes (job_modes j) in jret (ok, js)
          else jret (true, js)
      end
  end.

(** ** Transitions *)

(** [do observed = waitpid(pid, &status, 0); while (observed < 0 && EINTR)] *)
Fixpoint wait_exit (fuel : nat) (p : Z) : J (option Z) :=
  match fuel with
  | O => jblock
  | S f =>
      let& r := waitpid_exit p in
      match r with
      | inr s => jret (Some s)
      | inl EINTR => wait_exit f p
      | inl _ => jret None
      end
  end.

(** After a failed continuation: collect every stage that has left its group. *)
Fixpoint collect_departed (ps : list csh_job_process) : J (bool * list csh_job_process) :=
  match ps with
  | [] => jret (true, [])
  | p :: rest =>
      if (pid p <=? 0) || done p then
        let& (ok, rest) := collect_departed rest in jret (ok, p :: rest)
      else
        let& gone := departed (pid p) in
        if negb gone then let& (ok, rest) := collect_departed rest in jret (ok, p :: rest) else
        let& h := jget in
        let& r := wait_exit (S (length (h_wait_faults h))) (pid p) in
        match r with
        | None => jret (false, p :: rest)
        | Some s =>
            let& (ok, rest) := collect_departed rest in
            jret (ok, mk_process (pid p) s true false :: rest)
        end
  end.

Definition clear_stopped (j : csh_job) : csh_job :=
  with_processes j (map (fun p => mk_process (pid p) (pstatus p) (done p) false) (processes j)).

Definition continue_job (js : csh_jobs) (i : Z) : J (bool * csh_jobs) :=
  match find_id js i with
  | None => jblock
  | Some j =>
      let& sent := kill (- pgid j) SIGCONT in
      let& h := jget in
      let number := h_errno h in
      let& (ok, js) := (if sent then jret (true, js) else
        let& (ok, js) := csh_jobs_poll js in
        if negb ok then jret (false, js) else
        match find_id js i with
        | None => jblock
        | Some j =>
            let& (ok, ps) := collect_departed (processes j) in
            let js := update_job js i (fun j => with_processes j ps) in
            if negb ok then jret (false, js) else
            if complete (with_processes j ps) then jret (true, js) else
            let& h := jget in
            let& _ := jput (with_errno h number) in jret (false, js)
        end) in
      if negb ok then jret (false, js)
      else jret (true, update_job js i (fun j => with_changed (clear_stopped j) false))
  end.

(** The result is -1 or 0 with the status and whether the job was suspended. *)
Definition csh_jobs_foreground `{SignalText} (js : csh_jobs) (i : Z) (resume : bool)
    : J (option (Z * bool) * csh_jobs) :=
  let js := update_job js i (fun j => with_background j false) in
  match find_id js i with
  | None => jblock
  | Some j =>
      let& (ok, js) := (if resume then
          let& (ok, js) := csh_jobs_give_terminal js i true in
          if negb ok then jret (false, js) else
          let& ok := outputf STDOUT (text j ++ [10]) in
          if negb ok then jret (false, js) else continue_job js i
        else jret (true, js)) in
      let& (rc, js) := (if ok then wait_job js i false else jret (-1, js)) in
      let& h := jget in
      let number := h_errno h in
      let& (restored, js) := restore_terminal js i in
      if (rc =? -1) || negb restored then
        let& h := jget in
        let& _ := jput (with_errno h (if restored then number else h_errno h)) in
        jret (None, update_job js i (fun j => with_background j true))
      else
        match find_id js i with
        | None => jblock
        | Some j =>
            let status := if 0 <? rc then rc else job_status j in
            if complete j then jret (Some (status, false), csh_jobs_remove js i)
            else
              jret (Some (status, stopped j),
                promote_job (update_job js i (fun j => with_changed (with_background j true) true)) i)
        end
  end.

(** ** Cancellation *)

Fixpoint kill_stages (ps : list csh_job_process) : J unit :=
  match ps with
  | [] => jret tt
  | p :: rest =>
      let& _ := (if (0 <? pid p) && negb (done p) then kill (pid p) SIGKILL else jret true) in
      kill_stages rest
  end.

Fixpoint reap_stages (ps : list csh_job_process) : J (list csh_job_process) :=
  match ps with
  | [] => jret []
  | p :: rest =>
      if (0 <? pid p) && negb (done p) then
        let& h := jget in
        let& s := wait_exit (S (length (h_wait_faults h))) (pid p) in
        let& rest := reap_stages rest in
        jret (mk_process (pid p) (default (pstatus p) s) true (pstopped p) :: rest)
      else let& rest := reap_stages rest in jret (p :: rest)
  end.

Definition csh_jobs_cancel (js : csh_jobs) (i : Z) : J csh_jobs :=
  match find_id js i with
  | None => jblock
  | Some j =>
      let& _ := (if grouped j && (0 <? pgid j) && negb (complete j) then kill (- pgid j) SIGKILL else jret true) in
      let& _ := kill_stages (processes j) in
      let& ps := reap_stages (processes j) in
      let js := update_job js i (fun j => with_processes j ps) in
      let& (_, js) := restore_terminal js i in
      jret (csh_jobs_remove js i)
  end.

Fixpoint reap_jobs `{SignalText} (js : csh_jobs) (ids : list Z) : J (bool * csh_jobs) :=
  match ids with
  | [] => jret (true, js)
  | i :: rest =>
      let& (rc, js) := wait_job js i false in
      if rc =? -1 then jret (false, js) else reap_jobs js rest
  end.

Definition csh_jobs_reap `{SignalText} (js : csh_jobs) (wait : bool) : J (bool * csh_jobs) :=
  let& (ok, js) := csh_jobs_poll js in
  if negb ok then jret (false, js)
  else if wait then reap_jobs js (map id (head js)) else jret (true, js).

Fixpoint hangup_stages (ps : list csh_job_process) : J unit :=
  match ps with
  | [] => jret tt
  | p :: rest =>
      let& _ := (if negb (done p) && (0 <? pid p)
                 then let& _ := kill (pid p) SIGHUP in kill (pid p) SIGCONT else jret true) in
      hangup_stages rest
  end.

Fixpoint hangup_jobs (l : list csh_job) : J unit :=
  match l with
  | [] => jret tt
  | j :: rest =>
      let& _ := (if grouped j && (0 <? pgid j) && negb (complete j)
                 then let& _ := kill (- pgid j) SIGHUP in let& _ := kill (- pgid j) SIGCONT in jret tt
                 else hangup_stages (processes j)) in
      hangup_jobs rest
  end.

Definition csh_jobs_hangup (js : option csh_jobs) : J unit :=
  match js with Some js => hangup_jobs (head js) | None => jret tt end.

(** ** Creation, destruction, fork and exec *)

Definition signal_list : list Z := [SIGCHLD; SIGINT; SIGQUIT; SIGTSTP; SIGTTIN; SIGTTOU; SIGHUP; SIGTERM].
Definition fork_signals : list Z := [SIGQUIT; SIGTERM; SIGTSTP; SIGTTIN; SIGTTOU].

(** The disposition that [csh_jobs_create] installs for entry [i], signal [n]. *)
Definition managed_action (g : signals) (i : nat) (n : Z) : sigact :=
  let h := if (n =? SIGCHLD) || (n =? SIGINT) || (n =? SIGHUP) then pending_signal else SIG_IGN in
  let h := if negb (i =? 0)%nat && match get_action g n with Some a => is_ignored a | None => false end
           then SIG_IGN else h in
  plain_action h.

(** The installation loop: the saved dispositions, and whether it got through. *)
Fixpoint install_signals (g : signals) (only_first : bool) (i : nat) (l : list Z) (sv : list sigact)
    : bool * list sigact * signals :=
  match l with
  | [] => (true, sv, g)
  | n :: rest =>
      if negb (i =? 0)%nat && only_first then (true, sv, g) else
      match set_action g n (managed_action g i n) with
      | None => (false, sv, g)
      | Some (old, g) => install_signals g only_first (S i) rest (sv ++ [old])
      end
  end.

(** Saved dispositions put back, the last one first. *)
Definition restore_signals (g : signals) (l : list Z) (sv : list sigact) : signals :=
  foldr (fun '(n, a) g => put_action g n a) g (zip l sv).

(** The part of [csh_jobs_destroy] that touches dispositions. *)
Definition destroy_signals (js : csh_jobs) (g : signals) : signals :=
  restore_signals g (take (installed js) signal_list) (saved js).

Definition csh_jobs_destroy (js : option csh_jobs) : J unit :=
  match js with
  | None => jret tt
  | Some js =>
      let& (_, js) := csh_jobs_poll js in
      let& h := jget in
      jput (with_sig h (destroy_signals js (h_sig h)))
  end.

(** The manager before the terminal is looked at. *)
Definition csh_jobs_manage (s : csh_state) (child_max group : Z) : J (option csh_jobs) :=
  let& ok := jlift malloc in
  if negb ok then jret None else
  let inter := opt_on (options (csh_state_get_info s)) CSH_OPT_INTERACTIVE in
  let s := snd (csh_state_update_options s 0 (Z.lor CSH_OPT_MONITOR CSH_OPT_NOTIFY)) in
  let& h := jget in
  let g := mk_signals (sg_actions (h_sig h)) (sg_pending (h_sig h)) (sg_active (h_sig h)) 0 0 in
  let '(ok, sv, g) := install_signals g (negb inter) 0 signal_list [] in
  let js := mk_jobs s [] 1 0 (if 0 <? child_max then child_max else 256) (-1) group inter (length sv) sv [] [] 0 0 false in
  let& _ := jput (with_sig h g) in
  if ok then jret (Some js) else let& _ := csh_jobs_destroy (Some js) in jret None.

(** The disposition that a saved entry becomes in a child or a program. *)
Definition inherited (js : csh_jobs) (i : nat) (a : sigact) : sigact :=
  if negb (i =? 0)%nat && interactive js && negb (is_ignored a)
  then mk_sigact SIG_DFL (sa_mask a) (sa_flags a) else a.

Definition inherited_list (js : csh_jobs) : list (Z * sigact) :=
  zip (take (installed js) signal_list) (imap (inherited js) (saved js)).

Definition put_all (g : signals) (l : list (Z * sigact)) : signals :=
  foldl (fun g '(n, a) => put_action g n a) g l.

Definition csh_jobs_after_fork (js : csh_jobs) (asynchronous : bool) : J csh_state := fun h =>
  let g := put_all (h_sig h) (inherited_list js) in
  let g := if asynchronous && negb (csh_jobs_monitor js)
           then put_action (put_action g SIGINT (plain_action SIG_IGN)) SIGQUIT (plain_action SIG_IGN) else g in
  Some (snd (csh_state_update_options (jstate js) 0
          (Z.lor (Z.lor CSH_OPT_INTERACTIVE CSH_OPT_MONITOR) CSH_OPT_NOTIFY)), with_sig h g).

Definition csh_jobs_exec_signals (js : option csh_jobs) (recover : bool) (g : signals) : option csh_jobs * signals :=
  match js with
  | None => (None, g)
  | Some js =>
      let managed := take (installed js) signal_list in
      if recover then (Some js, put_all g (zip managed (exec_saved js)))
      else (Some (with_exec_saved js (map (action_of g) managed)), put_all g (inherited_list js))
  end.

(** Preparing: every ignored signal of the list becomes default until the
    recovery; the dispositions are saved on the way. *)
Fixpoint fork_prepare (g : signals) (l : list Z) (sv : list sigact) : bool * list sigact * signals :=
  match l with
  | [] => (true, sv, g)
  | n :: rest =>
      match get_action g n with
      | None => (false, sv, g)
      | Some a =>
          if is_ignored a then
            match set_action g n (mk_sigact SIG_DFL (sa_mask a) (sa_flags a)) with
            | None => (false, sv ++ [a], g)
            | Some (_, g) => fork_prepare g rest (sv ++ [a])
            end
          else fork_prepare g rest (sv ++ [a])
      end
  end.

Definition csh_jobs_fork_signals (js : csh_jobs) (recover : bool) (g : signals) : bool * csh_jobs * signals :=
  if negb (interactive js) then (true, js, g) else
  if recover then
    (true, with_fork_saved js (fork_saved js) 0,
     restore_signals g (take (fork_prepared js) fork_signals) (fork_saved js))
  else
    let '(ok, sv, g) := fork_prepare g fork_signals [] in
    (ok, with_fork_saved js sv (length sv), g).

(** ** The builtins *)

(** [kill -l] with operands. *)
Fixpoint kill_list (args : list str) : J Z :=
  match args with
  | [] => jret 0
  | a :: rest =>
      match number a with
      | None => diagnostic (bs "kill") (bs "invalid status") (Some a)
      | Some v =>
          match csh_jobs_signal_name (if 128 <? v then v - 128 else v) with
          | None => diagnostic (bs "kill") (bs "invalid status") (Some a)
          | Some name =>
              let& ok := outputf STDOUT (name ++ [10]) in
              if ok then kill_list rest else diagnostic (bs "kill") (bs "cannot write output") None
          end
      end
  end.

Fixpoint kill_names (l : list (str * Z)) : J Z :=
  match l with
  | [] => jret 0
  | e :: rest =>
      let& ok := outputf STDOUT (e.1 ++ match rest with [] => [10] | _ => bs " " end) in
      if ok then kill_names rest else diagnostic (bs "kill") (bs "cannot write output") None
  end.

(** What the code prints for [strerror(errno)]. *)
Class ErrorText : Type := strerror : errno -> str.

Fixpoint kill_processes `{ErrorText} (ps : list csh_job_process) (sig : Z) (operand : str) (rc : Z)
    : J (Z * list csh_job_process) :=
  match ps with
  | [] => jret (rc, [])
  | p :: rest =>
      if done p then let& (rc, rest) := kill_processes rest sig operand rc in jret (rc, p :: rest) else
      let& ok := kill (pid p) sig in
      if ok then
        let p := if (sig =? SIGCONT) || (sig =? SIGKILL) then mk_process (pid p) (pstatus p) (done p) false else p in
        let& (rc, rest) := kill_processes rest sig operand rc in jret (rc, p :: rest)
      else
        let& h := jget in
        let& rc := diagnostic (bs "kill") (strerror (h_errno h)) (Some operand) in
        let& (rc, rest) := kill_processes rest sig operand rc in jret (rc, p :: rest)
  end.

Definition PID_MAX : Z := INT_MAX.

Fixpoint kill_operands `{ErrorText} (js : csh_jobs) (args : list str) (sig rc : Z) : J (Z * csh_jobs) :=
  match args with
  | [] => jret (rc, js)
  | a :: rest =>
      let refused (js : csh_jobs) :=
        let& h := jget in
        let& rc := diagnostic (bs "kill") (strerror (h_errno h)) (Some a) in
        kill_operands js rest sig rc in
      if peek a =? ch "%" then
        match find_job js (Some a) false with
        | None => let& rc := diagnostic (bs "kill") (bs "no such job") (Some a) in kill_operands js rest sig rc
        | Some j =>
            if complete j then
              let& rc := diagnostic (bs "kill") (bs "no such job") (Some a) in kill_operands js rest sig rc
            else if grouped j then
              let& ok := kill (- pgid j) sig in
              if negb ok then refused js
              else kill_operands
                (if (sig =? SIGCONT) || (sig =? SIGKILL) then update_job js (id j) clear_stopped else js) rest sig rc
            else
              let& (rc, ps) := kill_processes (processes j) sig a rc in
              kill_operands (update_job js (id j) (fun j => with_processes j ps)) rest sig rc
        end
      else
        match number a with
        | Some v =>
            if (v <? - PID_MAX - 1) || (PID_MAX <? v)
            then let& rc := diagnostic (bs "kill") (bs "invalid pid") (Some a) in kill_operands js rest sig rc
            else
              let& ok := kill v sig in
              if ok then kill_operands js rest sig rc else refused js
        | None => let& rc := diagnostic (bs "kill") (bs "invalid pid") (Some a) in kill_operands js rest sig rc
        end
  end.

(** The signal option: the signal and the operands. *)
Definition kill_option (args : list str) : option (Z * list str) :=
  match args with
  | a :: rest =>
      if str_eqb a (bs "-s") then
        match rest with [] => None | s :: rest => Some (csh_jobs_signal_number s, rest) end
      else if (peek a =? ch "-") && negb (str_eqb a (bs "--"))
      then Some (csh_jobs_signal_number (tail a), rest)
      else Some (SIGTERM, args)
  | [] => Some (SIGTERM, [])
  end.

Definition skip_dashes (args : list str) : list str :=
  match args with a :: rest => if str_eqb a (bs "--") then rest else args | [] => [] end.

(** [args] are the arguments behind the name. *)
Definition kill_builtin `{ErrorText} (js : csh_jobs) (args : list str) : J (Z * csh_jobs) :=
  let fail message := let& rc := diagnostic (bs "kill") message None in jret (rc, js) in
  match args with
  | a :: rest =>
      if str_eqb a (bs "-l") then
        let& rc := (match rest with [] => kill_names signal_names | _ => kill_list rest end) in jret (rc, js)
      else
        match kill_option args with
        | None => fail (bs "signal required")
        | Some (sig, operands) =>
            if sig <? 0 then fail (bs "invalid signal") else
            match skip_dashes operands with
            | [] => fail (bs "operand required")
            | operands => kill_operands js operands sig 0
            end
        end
  | [] => fail (bs "operand required")
  end.

Fixpoint jobs_list `{SignalText} (js : csh_jobs) (l : list csh_job) (format : byte) (rc : Z) : J (Z * csh_jobs) :=
  match l with
  | [] => jret (rc, js)
  | j :: rest =>
      if complete j && reported j then jobs_list js rest format rc else
      let& ok := print_job js j STDOUT format in
      if ok then jobs_list (mark_reported js (id j)) rest format rc
      else let& rc := diagnostic (bs "jobs") (bs "cannot write output") None in jobs_list js rest format rc
  end.

Fixpoint jobs_operands `{SignalText} (js : csh_jobs) (args : list str) (format : byte) (rc : Z) : J (Z * csh_jobs) :=
  match args with
  | [] => jret (rc, js)
  | a :: rest =>
      match find_job js (Some a) false with
      | None => let& rc := diagnostic (bs "jobs") (bs "no such job") (Some a) in jobs_operands js rest format rc
      | Some j =>
          let& ok := print_job js j STDOUT format in
          if ok then jobs_operands (mark_reported js (id j)) rest format rc
          else let& rc := diagnostic (bs "jobs") (bs "cannot write output") (Some a) in
               jobs_operands js rest format rc
      end
  end.

Definition jobs_builtin `{SignalText} (js : csh_jobs) (args : list str) : J (Z * csh_jobs) :=
  let '(format, args) := match args with
    | a :: rest => if str_eqb a (bs "-l") then (ch "l", rest) else if str_eqb a (bs "-p") then (ch "p", rest)
                   else (0, args)
    | [] => (0, [])
    end in
  match skip_dashes args with
  | [] => jobs_list js (head js) format 0
  | operands => jobs_operands js operands format 0
  end.

(** A completed job leaves the table when its status has been waited for. *)
Definition drop_complete (js : csh_jobs) (i : Z) : csh_jobs :=
  match find_id js i with
  | Some j => if complete j then csh_jobs_remove js i else js
  | None => js
  end.

Fixpoint wait_all `{SignalText} (js : csh_jobs) (ids : list Z) : J (Z * csh_jobs) :=
  match ids with
  | [] => jret (0, js)
  | i :: rest =>
      let& (rc, js) := wait_job js i true in
      if rc =? 0 then wait_all (drop_complete js i) rest
      else if rc <? 0 then
        let& rc := diagnostic (bs "wait") (bs "cannot wait") None in jret (rc, js)
      else jret (rc, js)
  end.

Fixpoint wait_operands `{SignalText} (js : csh_jobs) (args : list str) (rc : Z) : J (Z * csh_jobs) :=
  match args with
  | [] => jret (rc, js)
  | a :: rest =>
      match find_job js (Some a) true with
      | None =>
          let& _ := diagnostic (bs "wait") (bs "unknown job or pid") (Some a) in wait_operands js rest 127
      | Some j =>
          let& (rc, js) := wait_job js (id j) true in
          if rc =? 0 then
            match find_id js (id j) with
            | None => jblock
            | Some j => wait_operands (drop_complete js (id j)) rest (job_status j)
            end
          else if rc <? 0 then
            let& rc := diagnostic (bs "wait") (bs "cannot wait") (Some a) in jret (rc, js)
          else jret (rc, js)
      end
  end.

(** One operand of [fg] or [bg]; the last result is [*suspended]. *)
Definition resume_operand `{SignalText} (js : csh_jobs) (name : str) (operand : option str) (rc : Z)
    : J (Z * bool * csh_jobs) :=
  let fail message := let& rc := diagnostic name message operand in jret (rc, false, js) in
  match find_job js operand false with
  | None => fail (bs "no such job")
  | Some j =>
      if complete j then fail (bs "no such job")
      else if negb (grouped j) then fail (bs "job was started without job control")
      else if str_eqb name (bs "fg") then
        let& (r, js) := csh_jobs_foreground js (id j) true in
        match r with
        | Some (status, suspended) => jret (status, suspended, js)
        | None =>
            let& rc := diagnostic name (bs "cannot foreground job") operand in jret (rc, false, js)
        end
      else
        let& (ok, js) := continue_job js (id j) in
        if negb ok then
          let& rc := diagnostic name (bs "cannot continue job") operand in jret (rc, false, js)
        else
          let js := promote_job (update_job js (id j) (fun j => with_background j true)) (id j) in
          match find_id js (id j) with
          | None => jblock
          | Some j =>
              let& ok := print_job js j STDOUT 0 in
              if ok then jret (rc, false, js)
              else let& rc := diagnostic name (bs "cannot write output") operand in jret (rc, false, js)
          end
  end.

Fixpoint resume_operands `{SignalText} (js : csh_jobs) (name : str) (args : list str) (rc : Z) (suspended : bool)
    : J (Z * bool * csh_jobs) :=
  match args with
  | [] => jret (rc, suspended, js)
  | a :: rest =>
      let& (rc, s, js) := resume_operand js name (Some a) rc in
      resume_operands js name rest rc s
  end.

Definition csh_jobs_is_builtin (name : str) : bool :=
  one_of name [bs "jobs"; bs "fg"; bs "bg"; bs "wait"; bs "kill"; bs "set"].

(** The result is the status and whether the job of [fg] was suspended. *)
Definition csh_jobs_builtin `{SignalText} `{ErrorText} `{Collation} (js : csh_jobs) (argv : list str)
    : J (Z * bool * csh_jobs) :=
  let name := List.hd [] argv in
  let args := tail argv in
  let& (ok, js) := csh_jobs_poll js in
  let plain (m : J (Z * csh_jobs)) := let& (rc, js) := m in jret (rc, false, js) in
  if negb ok then
    let& rc := diagnostic name (bs "cannot collect child status") None in jret (rc, false, js)
  else if str_eqb name (bs "kill") then plain (kill_builtin js args)
  else if str_eqb name (bs "set") then
    let& (rc, s) := jlift (csh_builtin_set (jstate js) args (0 <=? tty js)) in
    jret (rc, false, with_jstate js s)
  else if str_eqb name (bs "jobs") then plain (jobs_builtin js args)
  else
    let args := skip_dashes args in
    if str_eqb name (bs "wait") then
      plain (match args with [] => wait_all js (map id (head js)) | _ => wait_operands js args 0 end)
    else if negb (csh_jobs_monitor js) then
      let& rc := diagnostic name (bs "job control unavailable") None in jret (rc, false, js)
    else
      match args with
      | [] => resume_operand js name None 0
      | _ :: _ :: _ =>
          if str_eqb name (bs "fg") then
            let& rc := diagnostic name (bs "too many operands") None in jret (rc, false, js)
          else resume_operands js name args 0 false
      | _ => resume_operands js name args 0 false
      end.
