(* ===== verification/JobsTheorems.v ===== *)
(** * Jobs: the table, collection and waiting

    The invariant of the job table and the operations that keep it, the
    retention of results, collection as the exact application of what the host
    reports, waiting until a job is finished, and the dispositions around fork
    and exec. *)

From stdpp Require Import base list gmap strings.
From S2P Require Import Prelude Output Numbers Options State Signals Traps TrapsTheorems Jobs.

(** ** The table *)

Record table_wf (js : csh_jobs) : Prop := {
  wf_ids : NoDup (map id (head js));
  wf_next : forall j, j ∈ head js -> 0 < id j < next_id js;
  wf_retained : retained js = Z.of_nat (length (head js));
  wf_stages : forall j, j ∈ head js -> processes j <> [];
  wf_limit : 0 < next_id js <= UINT_MAX /\ 0 < retention_limit js
}.

Lemma find_id_elem js i j : find_id js i = Some j -> j ∈ head js /\ id j = i.
Proof. unfold find_id. intros [H1 H2]%find_some. bsimp. by rewrite list_elem_of_In. Qed.

Lemma find_id_unique js j : NoDup (map id (head js)) -> j ∈ head js -> find_id js (id j) = Some j.
Proof.
  unfold find_id. induction (head js) as [|x l IH]; simpl; intros Hnd Hj; [by apply not_elem_of_nil in Hj|].
  apply NoDup_cons in Hnd as [Hx Hnd]. apply elem_of_cons in Hj as [->|Hj]; [by rewrite Z.eqb_refl|].
  destruct (id x =? id j) eqn:E; [|by apply IH]. bsimp. destruct Hx. rewrite E. by apply list_elem_of_fmap_2.
Qed.

Lemma find_id_none js i : find_id js i = None -> filter (fun j => id j <> i) (head js) = head js.
Proof.
  intros H. apply filter_all. intros j Hj E.
  eapply find_none in H; [|by apply list_elem_of_In]. bsimp. done.
Qed.

(** Removing one job. *)
Lemma length_without js i j : NoDup (map id (head js)) -> find_id js i = Some j ->
  length (head js) = S (length (filter (fun j => id j <> i) (head js))).
Proof.
  unfold find_id. induction (head js) as [|x l IH]; simpl; intros Hnd Hf; [done|].
  apply NoDup_cons in Hnd as [Hx Hnd]. rewrite filter_cons. destruct (id x =? i) eqn:E; bsimp.
  - rewrite decide_False by auto. f_equal. f_equal. symmetry. apply filter_all. intros y Hy Ey.
    apply Hx. rewrite E, <- Ey. by apply list_elem_of_fmap_2.
  - rewrite decide_True by done. simpl. by rewrite (IH Hnd Hf).
Qed.

Lemma csh_jobs_remove_head js i : head (csh_jobs_remove js i) = filter (fun j => id j <> i) (head js).
Proof. unfold csh_jobs_remove. destruct (find_id js i) eqn:E; [done|]. by rewrite find_id_none. Qed.

Lemma sublist_map {A B} (f : A -> B) (l k : list A) : l `sublist_of` k -> map f l `sublist_of` map f k.
Proof. induction 1; simpl; constructor; done. Qed.

Lemma csh_jobs_remove_wf js i : table_wf js -> table_wf (csh_jobs_remove js i).
Proof.
  intros [H1 H2 H3 H4 H5]. unfold csh_jobs_remove. destruct (find_id js i) as [j|] eqn:E; [|by split].
  assert (filter (fun j => id j <> i) (head js) `sublist_of` head js) as Hsub by apply sublist_filter.
  split; simpl.
  - eapply sublist_NoDup; [exact H1|]. by apply sublist_map.
  - intros x [_ Hx]%list_elem_of_filter. auto.
  - rewrite H3, (length_without js i j) by done. lia.
  - intros x [_ Hx]%list_elem_of_filter. auto.
  - done.
Qed.

(** A list with the same jobs, changed in place without their identifiers and
    the number of their stages. *)
Definition same_job (j j' : csh_job) : Prop := id j' = id j /\ (processes j <> [] -> processes j' <> []).

Lemma with_head_wf js l : table_wf js -> Forall2 same_job (head js) l -> table_wf (with_head js l).
Proof.
  intros [H1 H2 H3 H4 H5] Hl.
  assert (map id l = map id (head js)) as Hid.
  { clear -Hl. induction Hl as [|??????]; simpl; [done|]. f_equal; [apply H|done]. }
  split; simpl.
  - by rewrite Hid.
  - intros j' [k Hk]%list_elem_of_lookup. destruct (Forall2_lookup_r _ _ _ _ _ Hl Hk) as (j & Hj & [-> _]).
    apply H2. by eapply list_elem_of_lookup_2.
  - by rewrite <- (Forall2_length _ _ _ Hl).
  - intros j' [k Hk]%list_elem_of_lookup. destruct (Forall2_lookup_r _ _ _ _ _ Hl Hk) as (j & Hj & [_ Hs]).
    apply Hs, H4. by eapply list_elem_of_lookup_2.
  - done.
Qed.

Lemma update_job_wf js i f : table_wf js -> (forall j, same_job j (f j)) -> table_wf (update_job js i f).
Proof.
  intros Hwf Hf. apply with_head_wf; [done|]. clear Hwf. induction (head js) as [|j l IH]; simpl; [done|].
  constructor; [destruct (id j =? i); [apply Hf|by split]|done].
Qed.

Lemma promote_job_wf js i : table_wf js -> table_wf (promote_job js i).
Proof.
  intros Hwf. unfold promote_job. destruct (find_id js i) as [j|] eqn:E; [|done].
  destruct (find_id_elem _ _ _ E) as [Hj <-]. destruct Hwf as [H1 H2 H3 H4 H5]. split; simpl.
  - constructor.
    + intros (x & Hx & [Hne Hin]%list_elem_of_filter)%list_elem_of_fmap. done.
    + eapply sublist_NoDup; [exact H1|]. apply sublist_map, sublist_filter.
  - intros x [->|[_ Hx]%list_elem_of_filter]%elem_of_cons; auto.
  - rewrite H3. by rewrite (length_without js (id j) j).
  - intros x [->|[_ Hx]%list_elem_of_filter]%elem_of_cons; auto.
  - done.
Qed.

(** ** Retention *)

Definition completed (js : csh_jobs) : list csh_job := filter (fun j => complete j = true) (head js).

Lemma last_map_some {A} (l : list A) : List.last (map Some l) None = last l.
Proof. induction l as [|x [|y l] IH]; [done..|]. exact IH. Qed.

(** What the eviction keeps: every job that is not complete, and of the complete
    ones the newest. *)
Definition evicted (js js' : csh_jobs) : Prop :=
  (exists gone, completed js = completed js' ++ gone) /\
  filter (fun j => complete j = false) (head js') = filter (fun j => complete j = false) (head js) /\
  head js' `sublist_of` head js /\ next_id js' = next_id js /\ retention_limit js' = retention_limit js /\
  jstate js' = jstate js /\ tty js' = tty js.

Lemma filter_without_last (l : list csh_job) pre j :
  NoDup (map id l) -> filter (fun j => complete j = true) l = pre ++ [j] ->
  filter (fun j => complete j = true) (filter (fun x => id x <> id j) l) = pre /\
  filter (fun j => complete j = false) (filter (fun x => id x <> id j) l) = filter (fun j => complete j = false) l.
Proof.
  intros Hnd Hf.
  assert (NoDup (map id (pre ++ [j]))) as Hnd'.
  { rewrite <- Hf. eapply sublist_NoDup; [exact Hnd|]. apply sublist_map, sublist_filter. }
  assert (j ∈ l /\ complete j = true) as [Hj Hc].
  { assert (j ∈ filter (fun j => complete j = true) l) as H by (rewrite Hf; apply elem_of_app; right; left).
    apply list_elem_of_filter in H as [??]. done. }
  assert (forall x, x ∈ l -> id x = id j -> x = j) as Hinj.
  { intros x Hx Hid. pose proof (find_id_unique (with_head (mk_jobs zero_state [] 0 0 0 0 0 false 0 [] [] [] 0 0 false) l))
      as Hu. simpl in Hu. pose proof (Hu x Hnd Hx) as E1. pose proof (Hu j Hnd Hj) as E2. congruence. }
  split.
  - rewrite list_filter_filter, (filter_ext_in _ (fun x => id x <> id j /\ complete x = true)) by tauto.
    rewrite <- list_filter_filter, Hf, filter_app. rewrite map_app in Hnd'.
    apply NoDup_app in Hnd' as (_ & Hni & _).
    rewrite (filter_all (fun x => id x <> id j) pre).
    2: { intros x Hx E. apply (Hni (id x)); [by apply list_elem_of_fmap_2|rewrite E; left]. }
    rewrite filter_cons, decide_False by auto. by rewrite app_nil_r.
  - rewrite list_filter_filter. apply filter_ext_in. intros x Hx. split; [tauto|].
    intros Hcx. split; [done|]. intros E. apply Hinj in E as ->; congruence.
Qed.

Lemma evict_spec fuel js : table_wf js -> table_wf (evict fuel js) /\ evicted js (evict fuel js).
Proof.
  revert js. induction fuel as [|f IH]; intros js Hwf.
  { split; [done|]. unfold evicted. split_and!; [exists []; by rewrite app_nil_r|done..]. }
  assert (table_wf js /\ evicted js js) as Hstop.
  { split; [done|]. unfold evicted. split_and!; [exists []; by rewrite app_nil_r|done..]. }
  cbn [evict]. destruct (negb _); [done|]. destruct (_ <? retention_limit js); [done|].
  rewrite last_map_some. destruct (last (filter _ (head js))) as [j|] eqn:El; [|done].
  apply last_Some in El as [pre Hpre].
  destruct (filter_without_last _ _ _ (wf_ids _ Hwf) Hpre) as [Hc Hl].
  pose proof (csh_jobs_remove_wf js (id j) Hwf) as Hwf1.
  destruct (IH _ Hwf1) as [Hw Hev]. unfold evicted in Hev.
  destruct Hev as ([gone Hg] & H2 & H3 & H4 & H5 & H6 & H7). split; [done|].
  assert (next_id (csh_jobs_remove js (id j)) = next_id js /\
    retention_limit (csh_jobs_remove js (id j)) = retention_limit js /\
    jstate (csh_jobs_remove js (id j)) = jstate js /\ tty (csh_jobs_remove js (id j)) = tty js) as (E1 & E2 & E3 & E4)
    by (unfold csh_jobs_remove; by destruct (find_id js (id j))).
  unfold evicted, completed in *. rewrite !csh_jobs_remove_head in *. rewrite Hpre. split_and!; try congruence.
  - exists (gone ++ [j]). by rewrite app_assoc, <- Hg, Hc.
  - etrans; [exact H3|]. apply sublist_filter.
Qed.

Lemma evict_room f js : table_wf js -> (length (head js) < f)%nat -> let js' := evict f js in
  retained js' < retention_limit js' \/ Z.of_nat (length (completed js')) < retention_limit js'.
Proof.
  revert js. induction f as [|f IH]; intros js Hwf Hf; [lia|]. cbn [evict].
  destruct (negb _) eqn:E1; [left; bsimp; lia|]. destruct (_ <? retention_limit js) eqn:E2; [right; bsimp; done|].
  rewrite last_map_some. destruct (last (filter _ (head js))) as [j|] eqn:El.
  - apply IH; [by apply csh_jobs_remove_wf|]. rewrite csh_jobs_remove_head.
    assert (j ∈ head js) as Hj.
    { apply last_Some_elem_of, list_elem_of_filter in El. apply El. }
    pose proof (length_without js (id j) j (wf_ids _ Hwf) (find_id_unique _ _ (wf_ids _ Hwf) Hj)). lia.
  - apply last_None in El. rewrite El in E2. destruct (wf_limit _ Hwf) as [_ Hl]. bsimp. simpl in E2. lia.
Qed.

(** Registering a job.  It gets a fresh identifier and comes first in the
    list; a foreground job evicts nothing; a background job may evict completed
    jobs only, the oldest ones, and then at most as many completed results as
    the host has children at once stay behind it.  Live and stopped jobs always
    stay, also when memory runs out. *)
Theorem csh_jobs_add_correct (js : csh_jobs) (count : nat) (cmd : str) (asynchronous neg : bool) (w : proc)
    (Hwf : table_wf js) :
  post (csh_jobs_add js count cmd asynchronous neg) w (fun '(r, e, js') w' =>
    table_wf js' /\
    filter (fun j => complete j = false) (head js) `sublist_of` head js' /\
    match r with
    | Some i =>
        exists job old, head js' = job :: old /\ id job = i /\ i = next_id js /\ ~ (i ∈ map id (head js)) /\
          processes job = replicate count zero_process /\ text job = cmd /\ background job = asynchronous /\
          pipefail job = opt_on (options (csh_state_get_info (jstate js))) CSH_OPT_PIPEFAIL /\
          grouped job = csh_jobs_monitor js /\
          if asynchronous then
            (exists gone, completed js = filter (fun j => complete j = true) old ++ gone) /\
            (Z.of_nat (length old) < retention_limit js \/
             Z.of_nat (length (filter (fun j => complete j = true) old)) < retention_limit js)
          else old = head js
    | None => e = EOVERFLOW /\ (count = O \/ next_id js = UINT_MAX) \/ e = ENOMEM /\ ~ calm w
    end).
Proof.
  unfold csh_jobs_add. destruct ((count =? 0)%nat || (next_id js =? UINT_MAX)) eqn:E0.
  { apply post_ret. split_and!; [done|apply sublist_filter|]. left. split; [done|].
    apply orb_true_iff in E0 as [E|E]; [left; by apply Nat.eqb_eq|right; by bsimp]. }
  apply orb_false_iff in E0 as [Ec En]. apply Nat.eqb_neq in Ec. apply Z.eqb_neq in En.
  set (js1 := if asynchronous then evict (S (length (head js))) js else js).
  assert (table_wf js1 /\ evicted js js1) as [Hw1 Hev].
  { unfold js1. destruct asynchronous; [by apply evict_spec|]. split; [done|].
    split_and!; [exists []; by rewrite app_nil_r|done..]. }
  destruct Hev as ([gone Hg] & Hlive & Hsub & Hnx & Hlim & Hst & Htty).
  assert (filter (fun j => complete j = false) (head js) `sublist_of` head js1) as Hkeep
    by (rewrite <- Hlive; apply sublist_filter).
  apply post_bind, post_malloc. intros ok w1 _ Hok. destruct ok; cbn [negb].
  2: { apply post_ret. split_and!; [done..|]. right. split; [done|]. intros Hc. by destruct (Hok Hc). }
  apply post_bind, post_malloc. intros ok1 w2 _ Hok1. apply post_bind, post_malloc. intros ok2 w3 _ Hok2.
  destruct (ok1 && ok2) eqn:Eok; cbn [negb].
  2: { apply post_ret. split_and!; [done..|]. right. split; [done|]. intros Hc. destruct (Hok Hc) as [-> _].
    destruct (Hok1 Hc) as [-> ->]. destruct (Hok2 Hc) as [_ ->]. done. }
  apply post_ret. destruct Hw1 as [W1 W2 W3 W4 [W5 W6]]. split_and!.
  - split; simpl.
    + constructor; [|done]. intros (x & Hx & Hin)%list_elem_of_fmap. specialize (W2 x Hin). lia.
    + intros j [->|Hj]%elem_of_cons; simpl; [lia|]. specialize (W2 j Hj). lia.
    + lia.
    + intros j [->|Hj]%elem_of_cons; simpl; [|auto]. by destruct count.
    + lia.
  - simpl. by apply sublist_cons.
  - rewrite Hnx. eexists _, (head js1). unfold csh_jobs_monitor. rewrite Hst, Htty. split_and!; try done.
    + intros (x & Hx & Hin)%list_elem_of_fmap. pose proof (wf_next _ Hwf x Hin). lia.
    + unfold js1 in *. destruct asynchronous; [|done]. split; [by exists gone|].
      destruct (evict_room (S (length (head js))) js Hwf ltac:(lia)) as [Hr|Hr]; rewrite Hlim in Hr; [left|by right].
      by rewrite <- W3.
Qed.

Definition sample_job (i : Z) (ps : list csh_job_process) : csh_job :=
  mk_job i (100 + i) ps (bs "sleep 1") true true false false false false false 0.

(** Two finished jobs around a running one, room for two results. *)
Definition sample_table : csh_jobs :=
  mk_jobs zero_state
    [sample_job 3 [mk_process 103 0 true false]; sample_job 2 [mk_process 102 0 false false];
     sample_job 1 [mk_process 101 256 true false]]
    4 3 2 (-1) 50 false 0 [] [] [] 0 0 false.

Lemma sample_table_wf : table_wf sample_table.
Proof.
  split; simpl.
  - repeat constructor; rewrite ?not_elem_of_cons; vm_compute; intuition (try discriminate); set_solver.
  - intros j. rewrite !elem_of_cons. intros [->|[->|[->|H]]]; [vm_compute; split; reflexivity..|].
    by apply not_elem_of_nil in H.
  - done.
  - intros j. rewrite !elem_of_cons. intros [->|[->|[->|H]]]; [done..|]. by apply not_elem_of_nil in H.
  - vm_compute. intuition discriminate.
Qed.

Lemma csh_jobs_add_correct_witness :
  exists i js', fst (csh_jobs_add sample_table 1 (bs "make") true false quiet_proc) = (Some i, ENONE, js') /\
    map id (head js') = [4; 3; 2] /\ i = 4.
Proof.
  pose proof (csh_jobs_add_correct sample_table 1 (bs "make") true false quiet_proc sample_table_wf) as H.
  apply post_run in H. remember (fst (csh_jobs_add _ _ _ _ _ _)) as r eqn:E. vm_compute in E. subst r.
  destruct H as (_ & _ & job & old & Hh & Hid & Hi & _).
  eexists _, _. split; [reflexivity|]. split; [reflexivity|exact Hi].
Defined.

(** ** Collection *)

Definition live (p : csh_job_process) : bool := (0 <? pid p) && negb (done p).

Definition live_pids (ps : list csh_job_process) : list Z := map pid (filter (fun p => live p = true) ps).

Definition all_pids (l : list csh_job) : list Z := l ≫= fun j => live_pids (processes j).

(** The effect of the status changes [l] on a stage. *)
Fixpoint drain (p : csh_job_process) (l : list Z) : csh_job_process :=
  match l with
  | [] => p
  | s :: rest => if terminated s then observe p s else drain (observe p s) rest
  end.

Definition queue (kids : gmap Z child) (p : Z) : list Z :=
  match kids !! p with Some c => ch_statuses c | None => [] end.

Definition settle_process (kids : gmap Z child) (p : csh_job_process) : csh_job_process :=
  if live p then drain p (queue kids (pid p)) else p.

Definition settle_child (kids : gmap Z child) (p : Z) : gmap Z child :=
  match kids !! p with
  | Some c => if existsb terminated (ch_statuses c) then delete p kids else <[p := mk_child (ch_group c) []]> kids
  | None => kids
  end.

Definition settle_job (kids : gmap Z child) (j : csh_job) : csh_job :=
  let j' := with_processes j (map (settle_process kids) (processes j)) in
  if negb (Bool.eqb (complete j) (complete j')) || negb (Bool.eqb (stopped j) (stopped j'))
  then with_changed j' true else j'.

(** [waitpid] fails only when it is interrupted. *)
Definition calm_waits (h : host) : Prop := Forall (fun f => f = None \/ f = Some EINTR) (h_wait_faults h).

(** Everything but the children and the results of [waitpid] is the same. *)
Definition waits_only (h h' : host) : Prop :=
  h_proc h' = h_proc h /\ h_sig h' = h_sig h /\ h_kill_faults h' = h_kill_faults h /\ h_kills h' = h_kills h /\
  h_arrivals h' = h_arrivals h /\ h_terminal_faults h' = h_terminal_faults h /\
  h_tty_group h' = h_tty_group h /\ h_tty_modes h' = h_tty_modes h.

#[export] Instance waits_only_preorder : PreOrder waits_only.
Proof. split; [by intros h|]. intros a b c H1 H2. unfold waits_only in *. naive_solver congruence. Qed.

Lemma terminated_not_continued s : terminated s = true -> WIFCONTINUED s = false.
Proof. unfold WIFCONTINUED. intros H. destruct (s =? 65535) eqn:E; [|done]. bsimp. by subst. Qed.

Lemma terminated_not_stopped s : terminated s = true -> WIFSTOPPED s = false.
Proof.
  unfold terminated, WIFEXITED, WIFSIGNALED, WIFSTOPPED, WTERMSIG. intros H.
  destruct (Z.land s 255 =? 127) eqn:E; [|done]. apply Z.eqb_eq in E.
  assert (Z.land s 127 = 127) as Hs.
  { replace 127 with (Z.land 255 127) by reflexivity. rewrite Z.land_assoc, E. reflexivity. }
  by rewrite Hs in H.
Qed.

Lemma observe_done p s : done p = false -> done (observe p s) = terminated s.
Proof.
  intros Hd. unfold observe. destruct (WIFCONTINUED s) eqn:E; simpl; [|done].
  destruct (terminated s) eqn:Et; [|done]. by rewrite terminated_not_continued in E.
Qed.

Lemma observe_pid p s : pid (observe p s) = pid p.
Proof. unfold observe. by destruct (WIFCONTINUED s). Qed.

Lemma drain_pid p l : pid (drain p l) = pid p.
Proof.
  revert p. induction l as [|s l IH]; intros p; simpl; [done|].
  destruct (terminated s); [apply observe_pid|]. by rewrite IH, observe_pid.
Qed.

Lemma drain_done p l : done p = false -> done (drain p l) = existsb terminated l.
Proof.
  revert p. induction l as [|s l IH]; intros p Hd; simpl; [done|].
  destruct (terminated s) eqn:E; simpl; [by rewrite observe_done|]. apply IH. by rewrite observe_done.
Qed.

Lemma waitpid_poll_fault h p e rest : h_wait_faults h = Some e :: rest ->
  waitpid_poll p h = Some (WError e, with_errno (with_wait_faults h rest) e).
Proof. intros E. unfold waitpid_poll. by rewrite E. Qed.

Lemma poll_process_spec fuel p c h : calm_waits h -> done p = false -> h_children h !! pid p = Some c ->
  (length (h_wait_faults h) + length (ch_statuses c) < fuel)%nat ->
  exists h', poll_process fuel p h = Some ((true, drain p (ch_statuses c)), h') /\ calm_waits h' /\
    h_children h' = settle_child (h_children h) (pid p) /\ waits_only h h'.
Proof.
  revert p c h. induction fuel as [|f IH]; intros p c h Hc Hd Hp Hf; [lia|]. cbn [poll_process].
  unfold calm_waits in Hc.
  assert (forall h0 h1 rest, h1 = with_wait_faults h0 rest -> waits_only h0 h1) as Hw by (intros; by subst).
  assert (forall faults, Forall (fun f => f = None \/ f = Some EINTR) faults ->
    h_wait_faults h = None :: faults \/ h_wait_faults h = faults /\ faults = [] ->
    exists h', jbind (waitpid_poll (pid p)) (fun r => match r with
      | WStatus s => let p := observe p s in if done p then jret (true, p) else poll_process f p
      | WNone => jret (true, p)
      | WError EINTR => poll_process f p
      | WError _ => jret (false, p)
      end) h = Some ((true, drain p (ch_statuses c)), h') /\ calm_waits h' /\
    h_children h' = settle_child (h_children h) (pid p) /\ waits_only h h') as Hstep.
  { intros faults Hfs Hh. unfold jbind, waitpid_poll.
    assert (next_fault (h_wait_faults h) = (None, faults)) as -> by (destruct Hh as [->|[-> ->]]; done).
    cbn [h_children with_wait_faults]. rewrite Hp. destruct (ch_statuses c) as [|s rest] eqn:Es.
    { exists (with_wait_faults h faults). split_and!; [done|done| |by eapply Hw].
      unfold settle_child. simpl. rewrite Hp, Es. simpl. symmetry. apply insert_id. rewrite Hp. by destruct c; simpl in *; subst. }
    cbv zeta. rewrite observe_done by done. destruct (terminated s) eqn:Et.
    { eexists. cbn [drain]. rewrite Et. split_and!; [reflexivity|done| |done].
      unfold settle_child. simpl. by rewrite Hp, Es; simpl; rewrite Et. }
    set (h1 := with_children _ _).
    destruct (IH (observe p s) (mk_child (ch_group c) rest) h1) as (h' & Hr & Hc' & Hch & Hwo).
    - done.
    - by rewrite observe_done.
    - rewrite observe_pid. unfold h1. simpl. by rewrite lookup_insert_eq.
    - unfold h1. simpl. assert (length faults <= length (h_wait_faults h))%nat
        by (destruct Hh as [->|[-> ->]]; simpl; lia). simpl in Hf. lia.
    - exists h'. split_and!; [by rewrite Hr; cbn [drain]; rewrite Et|done| |].
      + rewrite Hch, observe_pid. unfold settle_child, h1. simpl. rewrite lookup_insert_eq, Hp. simpl.
        rewrite Es. simpl. rewrite Et. simpl. by rewrite delete_insert_eq, insert_insert_eq.
      + etrans; [|exact Hwo]. done. }
  destruct (h_wait_faults h) as [|[e|] rest] eqn:Ef.
  - by apply (Hstep []); auto.
  - apply Forall_cons in Hc as [[?|[= ->]] Hc]; [done|].
    rewrite <- Ef in *. clear Hstep. unfold jbind. rewrite (waitpid_poll_fault _ _ _ _ Ef).
    destruct (IH p c (with_errno (with_wait_faults h rest) EINTR)) as (h' & Hr & Hc' & Hch & Hwo); [done..|simpl; rewrite Ef in Hf; simpl in Hf; lia|].
    exists h'. split_and!; [done..|]. etrans; [|exact Hwo]. done.
  - apply Forall_cons in Hc as [_ Hc]. apply (Hstep rest); auto.
Qed.

Lemma settle_child_ne kids p q : p <> q -> settle_child kids p !! q = kids !! q.
Proof.
  intros Hne. unfold settle_child. destruct (kids !! p) as [c|]; [|done].
  destruct (existsb _ _); [by rewrite lookup_delete_ne|by rewrite lookup_insert_ne].
Qed.

Lemma settle_children_ne kids l q : q ∉ l -> foldl settle_child kids l !! q = kids !! q.
Proof.
  revert kids. induction l as [|p l IH]; intros kids Hq; simpl; [done|].
  apply not_elem_of_cons in Hq as [? ?]. by rewrite IH, settle_child_ne.
Qed.

Lemma settle_process_ext kids kids' p : (live p = true -> kids' !! pid p = kids !! pid p) ->
  settle_process kids' p = settle_process kids p.
Proof. intros H. unfold settle_process, queue. destruct (live p); [by rewrite H|done]. Qed.

Lemma live_pids_elem ps q : q ∈ live_pids ps <-> exists p, p ∈ ps /\ live p = true /\ pid p = q.
Proof.
  unfold live_pids. rewrite list_elem_of_fmap. split.
  - intros (p & -> & [Hl Hp]%list_elem_of_filter). eauto.
  - intros (p & Hp & Hl & <-). exists p. split; [done|]. by apply list_elem_of_filter.
Qed.

Lemma poll_processes_spec ps h : calm_waits h -> NoDup (live_pids ps) ->
  (forall q, q ∈ live_pids ps -> is_Some (h_children h !! q)) ->
  exists h', poll_processes ps h = Some ((true, map (settle_process (h_children h)) ps), h') /\ calm_waits h' /\
    h_children h' = foldl settle_child (h_children h) (live_pids ps) /\ waits_only h h'.
Proof.
  revert h. induction ps as [|p ps IH]; intros h Hc Hnd Hown; cbn [poll_processes].
  { by exists h. }
  assert (live_pids (p :: ps) = if live p then pid p :: live_pids ps else live_pids ps) as Hl.
  { unfold live_pids. rewrite filter_cons. destruct (decide (live p = true)) as [E|E]; [by rewrite E|].
    by destruct (live p). }
  rewrite Hl in *.
  assert ((pid p <=? 0) || done p = negb (live p)) as ->.
  { unfold live. rewrite negb_andb, negb_involutive. f_equal. by rewrite Z.leb_antisym. }
  destruct (live p) eqn:E; cbn [negb].
  - apply NoDup_cons in Hnd as [Hni Hnd]. destruct (Hown (pid p) ltac:(left)) as [c Hp].
    assert (done p = false) as Hd by (unfold live in E; bsimp; tauto).
    destruct (poll_process_spec (poll_fuel h (pid p)) p c h Hc Hd Hp) as (h1 & Hr & Hc1 & Hch & Hw1).
    { unfold poll_fuel. rewrite Hp. lia. }
    destruct (IH h1 Hc1 Hnd) as (h2 & Hr2 & Hc2 & Hch2 & Hw2).
    { intros q Hq. rewrite Hch, settle_child_ne by (intros Heq; apply Hni; by rewrite Heq). apply Hown. by right. }
    exists h2. unfold jbind at 1. unfold jbind at 1. unfold jget. rewrite Hr. unfold jbind. rewrite Hr2. unfold jret.
    split_and!; [|done|by rewrite Hch2, Hch|by etrans].
    cbn [map]. do 4 f_equal.
    + unfold settle_process, queue. by rewrite E, Hp.
    + apply map_ext_in. intros q Hq. apply settle_process_ext. intros Hlq. rewrite Hch. apply settle_child_ne.
      intros Heq. apply Hni, live_pids_elem. exists q. split_and!; [by apply list_elem_of_In|done|done].
  - destruct (IH h Hc Hnd Hown) as (h2 & Hr2 & Hc2 & Hch2 & Hw2).
    exists h2. unfold jbind at 1. unfold jret at 1. unfold jbind. rewrite Hr2. unfold jret.
    split_and!; [|done|done|done]. cbn [map]. do 4 f_equal. unfold settle_process. by rewrite E.
Qed.

(** Every live stage is a child of its own. *)
Definition owned (l : list csh_job) (h : host) : Prop :=
  NoDup (all_pids l) /\ forall q, q ∈ all_pids l -> is_Some (h_children h !! q).

Lemma poll_jobs_spec l h : calm_waits h -> owned l h ->
  exists h', poll_jobs l h = Some ((true, map (settle_job (h_children h)) l), h') /\ calm_waits h' /\
    h_children h' = foldl settle_child (h_children h) (all_pids l) /\ waits_only h h'.
Proof.
  revert h. induction l as [|j l IH]; intros h Hc [Hnd Hown]; cbn [poll_jobs]; [by exists h|].
  change (all_pids (j :: l)) with (live_pids (processes j) ++ all_pids l) in *.
  apply NoDup_app in Hnd as (Hnd1 & Hdis & Hnd2).
  destruct (poll_processes_spec (processes j) h Hc Hnd1) as (h1 & Hr & Hc1 & Hch & Hw1).
  { intros q Hq. apply Hown. apply elem_of_app. by left. }
  destruct (IH h1 Hc1) as (h2 & Hr2 & Hc2 & Hch2 & Hw2).
  { split; [done|]. intros q Hq. rewrite Hch, settle_children_ne by (intros Hq1; by apply (Hdis q)).
    apply Hown. apply elem_of_app. by right. }
  exists h2. unfold jbind at 1. rewrite Hr. unfold jbind. rewrite Hr2. unfold jret.
  split_and!; [|done|by rewrite foldl_app, Hch2, Hch|by etrans].
  cbn [map]. do 4 f_equal. apply map_ext_in. intros x Hx%list_elem_of_In. unfold settle_job.
  assert (map (settle_process (h_children h1)) (processes x) = map (settle_process (h_children h)) (processes x)) as ->;
    [|done].
  apply map_ext_in. intros q Hq%list_elem_of_In. apply settle_process_ext. intros Hlq. rewrite Hch.
  apply settle_children_ne. intros Hq1. apply (Hdis _ Hq1). apply list_elem_of_bind. exists x.
  split; [|done]. apply live_pids_elem. eauto.
Qed.

Lemma live_settle kids p :
  live (settle_process kids p) = live p && negb (existsb terminated (queue kids (pid p))).
Proof.
  unfold settle_process. destruct (live p) eqn:E; [|done]. unfold live in *. apply andb_true_iff in E as [E1 E2].
  rewrite drain_pid, E1, drain_done by (by apply negb_true_iff). done.
Qed.

Lemma settle_process_pid kids p : pid (settle_process kids p) = pid p.
Proof. unfold settle_process. destruct (live p); [apply drain_pid|done]. Qed.

Lemma settle_job_processes kids j : processes (settle_job kids j) = map (settle_process kids) (processes j).
Proof. unfold settle_job. by destruct (_ || _). Qed.


Definition unfinished (kids : gmap Z child) (q : Z) : Prop := existsb terminated (queue kids q) = false.

#[export] Instance unfinished_dec kids q : Decision (unfinished kids q).
Proof. unfold unfinished. apply _. Defined.

Lemma live_pids_settle kids ps :
  live_pids (map (settle_process kids) ps) = filter (unfinished kids) (live_pids ps).
Proof.
  unfold live_pids. induction ps as [|p ps IH]; [done|]. cbn [map]. rewrite !filter_cons.
  rewrite live_settle. destruct (live p) eqn:E; cbn [andb].
  - rewrite (decide_True (P:=true = true)) by done. cbn [map]. rewrite filter_cons.
    destruct (decide (unfinished kids (pid p))) as [Hu|Hu].
    + rewrite decide_True by by rewrite Hu. cbn [map]. rewrite settle_process_pid. f_equal. exact IH.
    + rewrite decide_False by (unfold unfinished in Hu; by destruct (existsb _ _)). exact IH.
  - rewrite !decide_False by done. exact IH.
Qed.

Lemma all_pids_settle kids l : all_pids (map (settle_job kids) l) = filter (unfinished kids) (all_pids l).
Proof.
  unfold all_pids. induction l as [|j l IH]; [done|].
  change (live_pids (processes (settle_job kids j)) ++ (map (settle_job kids) l ≫= fun j => live_pids (processes j)) =
    filter (unfinished kids) (live_pids (processes j) ++ (l ≫= fun j => live_pids (processes j)))).
  by rewrite filter_app, <- IH, settle_job_processes, live_pids_settle.
Qed.

Lemma settle_children_at kids l q : NoDup l -> q ∈ l ->
  foldl settle_child kids l !! q =
    match kids !! q with
    | Some c => if existsb terminated (ch_statuses c) then None else Some (mk_child (ch_group c) [])
    | None => None
    end.
Proof.
  revert kids. induction l as [|p l IH]; intros kids Hnd Hq; [by apply not_elem_of_nil in Hq|].
  apply NoDup_cons in Hnd as [Hni Hnd]. simpl. apply elem_of_cons in Hq as [->|Hq].
  - rewrite settle_children_ne by done. unfold settle_child. destruct (kids !! p) as [c|] eqn:E; [|done].
    destruct (existsb _ _); [apply lookup_delete_eq|apply lookup_insert_eq].
  - rewrite IH by done. rewrite settle_child_ne; [done|]. by intros ->.
Qed.

(** The final state of a stage, by its status changes. *)
Lemma drain_result p l : done p = false ->
  match List.find terminated l with
  | Some t => done (drain p l) = true /\ pstatus (drain p l) = t /\ pstopped (drain p l) = false
  | None => done (drain p l) = false /\
      pstopped (drain p l) = match last l with Some s => WIFSTOPPED s | None => pstopped p end
  end.
Proof.
  revert p. induction l as [|s l IH]; intros p Hd; [done|]. cbn [List.find drain].
  destruct (terminated s) eqn:E.
  - rewrite observe_done by done. unfold observe. rewrite terminated_not_continued by done. simpl.
    by rewrite terminated_not_stopped.
  - specialize (IH (observe p s)). rewrite observe_done in IH by done. specialize (IH E).
    destruct (List.find terminated l) as [t|]; [done|]. destruct IH as [H1 H2]. split; [done|].
    rewrite H2. destruct l as [|s' l].
    2: { change (last (s :: s' :: l)) with (last (s' :: l)). destruct (last (s' :: l)) eqn:El; [done|].
      by apply last_None in El. }
    simpl. unfold observe.
    destruct (WIFCONTINUED s) eqn:Ec; simpl; [|done]. unfold WIFCONTINUED in Ec. apply Z.eqb_eq in Ec. by subst.
Qed.

Lemma find_existsb {A} (p : A -> bool) l : existsb p l = match List.find p l with Some _ => true | None => false end.
Proof. induction l as [|x l IH]; simpl; [done|]. by destruct (p x). Qed.

Lemma settle_owned l h h' : owned l h -> h_children h' = foldl settle_child (h_children h) (all_pids l) ->
  owned (map (settle_job (h_children h)) l) h' /\
  forall q, q ∈ all_pids (map (settle_job (h_children h)) l) -> queue (h_children h') q = [].
Proof.
  intros [Hnd Hown] Hch.
  assert (forall q, q ∈ all_pids (map (settle_job (h_children h)) l) ->
    exists c, h_children h' !! q = Some (mk_child (ch_group c) [])) as Hq.
  { intros q. rewrite all_pids_settle. intros [Hu Hq]%list_elem_of_filter. destruct (Hown q Hq) as [c Hc].
    exists c. rewrite Hch, settle_children_at by done. rewrite Hc. unfold unfinished, queue in Hu. rewrite Hc in Hu.
    by rewrite Hu. }
  split; [split|].
  - rewrite all_pids_settle. by apply NoDup_filter.
  - intros q Hq'. destruct (Hq q Hq') as [c ->]. by eexists.
  - intros q Hq'. unfold queue. by destruct (Hq q Hq') as [c ->].
Qed.

(** C38: collecting child statuses.  When every live stage is a child of its own
    and [waitpid] fails only by interruption, a poll succeeds and applies every
    status change once: a stage whose termination is reported is done with that
    status and its identifier is never waited for again; any other stage is
    stopped as its last change says, and no change stays behind. *)
Theorem csh_jobs_poll_correct (js : csh_jobs) (h : host) (Hcalm : calm_waits h) (Hown : owned (head js) h) :
  exists h', csh_jobs_poll js h = Some ((true, with_head js (map (settle_job (h_children h)) (head js))), h') /\
    owned (map (settle_job (h_children h)) (head js)) h' /\ calm_waits h' /\ waits_only h h' /\
    forall j p, j ∈ head js -> p ∈ processes j -> live p = true ->
      let p' := settle_process (h_children h) p in
      pid p' = pid p /\
      match List.find terminated (queue (h_children h) (pid p)) with
      | Some t => done p' = true /\ pstatus p' = t /\ pstopped p' = false /\ h_children h' !! pid p = None
      | None => done p' = false /\ queue (h_children h') (pid p) = [] /\
          pstopped p' = match last (queue (h_children h) (pid p)) with
                        | Some s => WIFSTOPPED s | None => pstopped p end
      end.
Proof.
  destruct (poll_jobs_spec (head js) h Hcalm Hown) as (h' & Hr & Hc & Hch & Hw). exists h'. split_and!.
  - unfold csh_jobs_poll, jbind. by rewrite Hr.
  - by apply settle_owned.
  - done.
  - done.
  - intros j p Hj Hp Hl. cbv zeta. split; [apply settle_process_pid|]. destruct Hown as [Hnd Hex].
    assert (pid p ∈ all_pids (head js)) as Hin.
    { apply list_elem_of_bind. exists j. split; [|done]. apply live_pids_elem. eauto. }
    assert (done p = false) as Hd by (unfold live in Hl; bsimp; tauto).
    destruct (Hex _ Hin) as [c Hcp].
    assert (h_children h' !! pid p = if existsb terminated (queue (h_children h) (pid p)) then None
      else Some (mk_child (ch_group c) [])) as Hat.
    { rewrite Hch, settle_children_at by done. unfold queue. by rewrite Hcp. }
    rewrite find_existsb in Hat. unfold settle_process. rewrite Hl.
    pose proof (drain_result p (queue (h_children h) (pid p)) Hd) as Hres.
    destruct (List.find terminated (queue (h_children h) (pid p))) as [t|].
    + destruct Hres as (H1 & H2 & H3). split_and!; assumption.
    + destruct Hres as [H1 H2]. split_and!; [assumption| |assumption]. unfold queue at 1. by rewrite Hat.
Qed.

(** Children 102, stopped and continued, and 105, which has ended. *)
Definition sample_host : host :=
  mk_host quiet_proc sample_signals
    (<[102 := mk_child 102 [5247; 65535]]> (<[105 := mk_child 105 [4991; 256]]> ∅))
    [Some EINTR] [] [] [] [] 50 0 ENONE.

Definition sample_jobs : csh_jobs :=
  with_counts sample_table
    [sample_job 2 [mk_process 102 0 false false; mk_process 105 0 false false];
     sample_job 1 [mk_process 101 256 true false]] 4 2.

Lemma sample_owned : owned (head sample_jobs) sample_host.
Proof.
  split.
  - change (NoDup [102; 105]). apply (bool_decide_unpack _). vm_compute. exact I.
  - intros q Hq. change (q ∈ [102; 105]) in Hq. rewrite !elem_of_cons in Hq.
    destruct Hq as [->|[->|Hq]]; [by eexists..|]. by apply not_elem_of_nil in Hq.
Qed.

Lemma csh_jobs_poll_correct_witness :
  exists js' h', csh_jobs_poll sample_jobs sample_host = Some ((true, js'), h') /\
    map (fun j => map done (processes j)) (head js') = [[false; true]; [true]] /\ h_children h' !! 105 = None.
Proof.
  assert (calm_waits sample_host) as Hc by (repeat constructor; by right).
  destruct (csh_jobs_poll_correct sample_jobs sample_host Hc sample_owned) as (h' & Hr & _ & _ & _ & Hp).
  exists (with_head sample_jobs (map (settle_job (h_children sample_host)) (head sample_jobs))), h'.
  split; [exact Hr|]. split; [vm_compute; reflexivity|].
  apply (Hp (sample_job 2 [mk_process 102 0 false false; mk_process 105 0 false false])
    (mk_process 105 0 false false)); [left|right; left|reflexivity].
Defined.

(** ** Waiting *)



(** [sigsuspend] returns: a status changed or a signal arrived. *)
Definition wakes (a : arrival) : Prop := ar_statuses a <> [] \/ ar_signals a <> [].

#[export] Instance wakes_dec a : Decision (wakes a).
Proof. unfold wakes. apply _. Defined.

































#[local] Instance plain_text : SignalText := fun _ => bs "Unknown".


(** A hangup can be missed.  The handler of an untrapped SIGHUP is not held
    back by the mask of [wait_job]; one that arrives after the flag was read and
    before the suspension leaves the shell asleep with the flag set, while the
    same signal during the suspension ends the wait with status 129. *)
Theorem wait_hangup_window :
  let pending := with_sig sample_host (mk_signals {[SIGHUP := plain_action pending_signal]} (replicate 128 false) false 0 0) in
  let missed := with_arrivals pending [mk_arrival [SIGHUP] [] []] in
  let noticed := with_arrivals pending [mk_arrival [] [] [SIGHUP]] in
  wait_job sample_jobs 2 false missed = None /\
  csh_jobs_hangup_pending (deliver_all (h_sig missed) [SIGHUP]) = true /\
  exists js' h', wait_job sample_jobs 2 false noticed = Some ((129, js'), h').
Proof.
  split; [vm_compute; reflexivity|]. split; [vm_compute; reflexivity|].
  eexists _, _. vm_compute. reflexivity.
Qed.

(** ** Dispositions *)

Definition all_settable (l : list Z) : Prop := Forall (fun n => settable n = true) l.

Lemma put_all_at g f l m : all_settable l ->
  action_of (put_all g (zip l (map f l))) m = if decide (m ∈ l) then f m else action_of g m.
Proof.
  unfold put_all. intros Hl. revert g. induction Hl as [|n l Hn Hl IH]; intros g; [done|]. cbn [map zip foldl].
  change (zip_with pair l (map f l)) with (zip l (map f l)). rewrite IH.
  destruct (decide (m ∈ l)) as [Hm|Hm]; [rewrite decide_True; [done|by right]|].
  rewrite action_of_put, Hn. destruct (m =? n) eqn:E; simpl.
  - apply Z.eqb_eq in E as ->. rewrite decide_True; [done|left].
  - apply Z.eqb_neq in E. rewrite decide_False; [done|]. rewrite elem_of_cons. by intros [?|?].
Qed.

Lemma restore_signals_at g f l m : all_settable l ->
  action_of (restore_signals g l (map f l)) m = if decide (m ∈ l) then f m else action_of g m.
Proof.
  unfold restore_signals. intros Hl. induction Hl as [|n l Hn Hl IH]; [done|]. cbn [map zip foldr].
  change (zip_with pair l (map f l)) with (zip l (map f l)). rewrite action_of_put, Hn.
  destruct (m =? n) eqn:E; simpl.
  - apply Z.eqb_eq in E as ->. rewrite decide_True; [done|left].
  - apply Z.eqb_neq in E. rewrite IH. destruct (decide (m ∈ l)) as [Hm|Hm].
    + rewrite decide_True; [done|by right].
    + rewrite decide_False; [done|]. rewrite elem_of_cons. by intros [?|?].
Qed.

Lemma install_signals_spec g (only_first : bool) (i : nat) (l : list Z) sv : all_settable l -> NoDup l ->
  let pre := if only_first then (if (i =? 0)%nat then take 1 l else []) else l in
  exists g', install_signals g only_first i l sv = (true, sv ++ map (action_of g) pre, g') /\
    forall m, m ∉ pre -> action_of g' m = action_of g m.
Proof.
  intros Hl. revert g i sv. induction Hl as [|n l Hn Hl IH]; intros g i sv Hnd; cbn [install_signals]; cbv zeta.
  { exists g. destruct only_first; [destruct (i =? 0)%nat|]; cbn [take map]; by rewrite app_nil_r. }
  apply NoDup_cons in Hnd as [Hni Hnd]. destruct (negb (i =? 0)%nat && only_first) eqn:E.
  { apply andb_true_iff in E as [Ei ->]. apply negb_true_iff in Ei. rewrite Ei. exists g. by rewrite app_nil_r. }
  rewrite put_action_settable by done.
  destruct (IH (put_action g n (managed_action g i n)) (S i) (sv ++ [action_of g n]) Hnd) as (g' & -> & Hg').
  exists g'. cbn [Nat.eqb] in *.
  assert (forall m, m <> n -> action_of (put_action g n (managed_action g i n)) m = action_of g m) as Hput
    by (intros; by apply put_action_ne).
  destruct only_first.
  - destruct (i =? 0)%nat; [|done]. cbn [map take]. rewrite app_nil_r. split; [done|]. intros m Hm.
    rewrite Hg' by apply not_elem_of_nil. apply Hput. intros ->. apply Hm. left.
  - rewrite <- app_assoc. split.
    + cbn [map]. do 4 f_equal. apply map_ext_in. intros m Hm%list_elem_of_In. apply Hput. by intros ->.
    + intros m Hm. apply not_elem_of_cons in Hm as [Hne Hm]. rewrite Hg' by done. by apply Hput.
Qed.

Lemma fork_prepare_spec g l sv : all_settable l -> NoDup l ->
  exists g', fork_prepare g l sv = (true, sv ++ map (action_of g) l, g') /\
    (forall m, m ∉ l -> action_of g' m = action_of g m) /\ (forall m, m ∈ l -> handler_of g' m <> SIG_IGN).
Proof.
  intros Hl. revert g sv. induction Hl as [|n l Hn Hl IH]; intros g sv Hnd; cbn [fork_prepare].
  { exists g. rewrite app_nil_r. split_and!; [done..|]. intros m Hm. by apply not_elem_of_nil in Hm. }
  apply NoDup_cons in Hnd as [Hni Hnd]. unfold get_action. rewrite (settable_valid _ Hn).
  set (a := action_of g n).
  assert (exists g1, (if is_ignored a then match set_action g n (mk_sigact SIG_DFL (sa_mask a) (sa_flags a)) with
      | None => (false, sv ++ [a], g) | Some (_, g) => fork_prepare g l (sv ++ [a]) end
    else fork_prepare g l (sv ++ [a])) = fork_prepare g1 l (sv ++ [a]) /\
    (forall m, m <> n -> action_of g1 m = action_of g m) /\ handler_of g1 n <> SIG_IGN) as (g1 & -> & H1 & H2).
  { destruct (is_ignored a) eqn:E.
    - rewrite put_action_settable by done. eexists. split; [done|]. split; [intros; by apply put_action_ne|].
      unfold handler_of. by rewrite put_action_at.
    - exists g. split_and!; [done..|]. by apply bool_decide_eq_false in E. }
  destruct (IH g1 (sv ++ [a]) Hnd) as (g' & -> & H3 & H4). exists g'. split_and!.
  - rewrite <- app_assoc. cbn [map]. do 4 f_equal. apply map_ext_in. intros m Hm%list_elem_of_In. apply H1. by intros ->.
  - intros m Hm. apply not_elem_of_cons in Hm as [Hne Hm]. rewrite H3 by done. auto.
  - intros m Hm. apply elem_of_cons in Hm as [->|Hm]; [|auto]. unfold handler_of. rewrite H3 by done. exact H2.
Qed.

Lemma signal_list_ok : all_settable signal_list /\ NoDup signal_list.
Proof. split; [repeat constructor|apply (bool_decide_unpack _); vm_compute; exact I]. Qed.

Lemma fork_signals_ok : all_settable fork_signals /\ NoDup fork_signals.
Proof. split; [repeat constructor|apply (bool_decide_unpack _); vm_compute; exact I]. Qed.

Lemma managed_settable n : all_settable (take n signal_list).
Proof. apply Forall_take, signal_list_ok. Qed.

(** Every change of dispositions by the job manager is undone.  Destroying
    a manager gives every signal the disposition it had when the manager was
    created; when exec fails, recovering gives every signal the disposition it
    had before exec was prepared; and around fork no terminal or quit signal is
    ignored, so that none is discarded while it is blocked, until the recovery
    gives every signal its disposition back. *)
Theorem jobs_signals_restored (js : csh_jobs) (s : csh_state) (limit group : Z) (h : host) (n : Z)
    (Hint : interactive js = true) :
  (match csh_jobs_manage s limit group h with
   | Some (Some js0, h') => action_of (destroy_signals js0 (h_sig h')) n = action_of (h_sig h) n
   | Some (None, h') => ~ calm (h_proc h)
   | None => False
   end) /\
  (let '(prepared, g) := csh_jobs_exec_signals (Some js) false (h_sig h) in
   action_of (snd (csh_jobs_exec_signals prepared true g)) n = action_of (h_sig h) n) /\
  (let '(ok, prepared, g) := csh_jobs_fork_signals js false (h_sig h) in
   ok = true /\ (n ∈ fork_signals -> handler_of g n <> SIG_IGN) /\
   action_of (snd (csh_jobs_fork_signals prepared true g)) n = action_of (h_sig h) n).
Proof.
  split_and!.
  - unfold csh_jobs_manage, jbind at 1, jlift.
    pose proof (post_malloc (h_proc h) (fun b _ => calm (h_proc h) -> b = true)) as Hm.
    specialize (Hm ltac:(intros b w' _ Hc Hcalm; apply Hc; done)). unfold post in Hm.
    destruct (malloc (h_proc h)) as [ok w]. destruct ok; cbn [negb]; [|intros Hc; by specialize (Hm Hc)].
    unfold jbind at 1, jget. cbn [h_sig with_proc]. set (g0 := mk_signals _ _ _ 0 0).
    set (first := negb (opt_on _ _)). destruct signal_list_ok as [Hset Hnd].
    destruct (install_signals_spec g0 first 0 signal_list [] Hset Hnd) as (g' & -> & Hg').
    unfold jbind, jput, jret. cbn [app]. unfold destroy_signals. cbn [installed saved h_sig with_sig].
    set (pre := if first then _ else _) in *.
    assert (take (length (map (action_of g0) pre)) signal_list = pre) as ->.
    { rewrite length_map. unfold pre. destruct first; reflexivity. }
    rewrite restore_signals_at by (unfold pre; destruct first; repeat constructor).
    destruct (decide (n ∈ pre)) as [Hin|Hout]; [done|]. by rewrite Hg'.
  - cbn [csh_jobs_exec_signals snd installed exec_saved with_exec_saved].
    rewrite put_all_at by apply managed_settable. destruct (decide _) as [Hin|Hout]; [done|].
    unfold inherited_list, put_all. revert Hout. generalize (imap (inherited js) (saved js)) as l2.
    generalize (take (installed js) signal_list) as l1. intros l1. generalize (h_sig h) as g.
    induction l1 as [|x l1 IH]; intros g [|y l2] Hout; [done..|]. cbn [zip zip_with foldl].
    apply not_elem_of_cons in Hout as [Hne Hout]. rewrite IH by done. by apply put_action_ne.
  - unfold csh_jobs_fork_signals. rewrite Hint. cbn [negb]. destruct fork_signals_ok as [Hset Hnd].
    destruct (fork_prepare_spec (h_sig h) fork_signals [] Hset Hnd) as (g' & -> & H1 & H2).
    split_and!; [done|apply H2|]. cbn [snd interactive fork_prepared fork_saved with_fork_saved app]. rewrite Hint. cbn [negb snd].
    rewrite length_map, firstn_all, restore_signals_at by done.
    destruct (decide (n ∈ fork_signals)) as [Hin|Hout]; [done|]. by rewrite H1.
Qed.

Lemma jobs_signals_restored_witness :
  let '(_, _, g) := csh_jobs_fork_signals (with_tty (with_head (mk_jobs zero_state [] 1 0 1 (-1) 50 true 0 [] [] [] 0 0 false) []) (-1) 50)
    false (put_action sample_signals SIGTSTP (plain_action SIG_IGN)) in
  handler_of g SIGTSTP <> SIG_IGN.
Proof.
  pose proof (jobs_signals_restored
    (with_tty (with_head (mk_jobs zero_state [] 1 0 1 (-1) 50 true 0 [] [] [] 0 0 false) []) (-1) 50) zero_state 10 50
    (with_sig sample_host (put_action sample_signals SIGTSTP (plain_action SIG_IGN))) SIGTSTP eq_refl)
    as (_ & _ & H).
  cbn [h_sig with_sig] in H. destruct (csh_jobs_fork_signals _ false _) as [[ok js] g].
  destruct H as (_ & H & _). apply H. right. right. left.
Defined.
