(* ===== verification/Process.v ===== *)
(** * The process around an expansion

    What a command substitution can see and change besides the shell state and
    the output of the shell: the signals and children, the descriptors and the
    time, which indexes the answers of the system.  [o_unfinished] is set when
    a call did not come back; whatever follows in the model then has no
    counterpart in the program. *)

From stdpp Require Import base list gmap strings.
From S2P Require Import Prelude Output Descriptors Signals Jobs.

(** No counterpart in C, the end of the fuel, or a call that blocks for ever. *)
Inductive unfinished : Type := Faulted | Spent | Blocked.

Record outside : Type := mk_outside {
  o_host : host; o_kernel : kernel; o_clock : nat; o_unfinished : option unfinished }.

Definition with_unfinished (o : outside) (u : unfinished) : outside :=
  mk_outside (o_host o) (o_kernel o) (o_clock o) (Some u).
