(* ===== verification/Lexer.v ===== *)
(** * The lexer (src/lexer.c)

    An incremental tokenizer.  Source bytes are fed a line at a time into one
    tape, which all lexers of a chain of command substitutions share; alias
    values are inserted at its cursor; an arithmetic expansion keeps a copy of
    the tape to which a failed candidate goes back.

    [t_lexers] lists the chain, the active (deepest) lexer first, so the depth of
    a lexer is the number of those behind it, and the operations work on the
    first one, as lexer.h asks.  [raw], [frames] and the alias sources are
    lists: [frames] and [aliases] have their last entry first.  A read outside
    of an array is [Fault], an error [Failed].  Every call of [reserve] asks the
    allocator, which grows a vector whenever it likes. *)

From stdpp Require Import base list gmap strings.
From S2P Require Import Prelude Output State Arithmetic Character Expansion.

(** ** Tokens (include/cshell/lexer.h) *)

Inductive csh_token_kind : Type :=
  | CSH_TOKEN_WORD | CSH_TOKEN_NEWLINE
  | CSH_TOKEN_AND_IF | CSH_TOKEN_OR_IF | CSH_TOKEN_DSEMI | CSH_TOKEN_SEMI_AND
  | CSH_TOKEN_DLESS | CSH_TOKEN_DGREAT | CSH_TOKEN_LESS_AND
  | CSH_TOKEN_GREAT_AND | CSH_TOKEN_LESS_GREAT | CSH_TOKEN_DLESS_DASH
  | CSH_TOKEN_CLOBBER | CSH_TOKEN_PIPE | CSH_TOKEN_AMPERSAND
  | CSH_TOKEN_SEMI | CSH_TOKEN_LPAREN | CSH_TOKEN_RPAREN
  | CSH_TOKEN_LESS | CSH_TOKEN_GREAT.

Inductive csh_fragment_kind : Type :=
  | CSH_FRAGMENT_TEXT | CSH_FRAGMENT_QUOTED | CSH_FRAGMENT_ESCAPE
  | CSH_FRAGMENT_CONTINUATION | CSH_FRAGMENT_PARAMETER
  | CSH_FRAGMENT_COMMAND | CSH_FRAGMENT_ARITHMETIC | CSH_FRAGMENT_BACKQUOTE.

#[export] Instance csh_token_kind_eq_dec : EqDecision csh_token_kind.
Proof. solve_decision. Defined.
#[export] Instance csh_fragment_kind_eq_dec : EqDecision csh_fragment_kind.
Proof. solve_decision. Defined.

(** [fr_parent] is [None] for [CSH_FRAGMENT_ROOT]. *)
Record csh_fragment : Type := mk_fragment {
  fr_kind : csh_fragment_kind; fr_quote : csh_quote; fr_parent : option nat;
  fr_begin : nat; fr_end : nat; fr_start : csh_position; fr_finish : csh_position }.

Record csh_token : Type := mk_token {
  tk_kind : csh_token_kind; tk_source_name : str; tk_raw : str;
  tk_start : csh_position; tk_end : csh_position; tk_fragments : list csh_fragment;
  tk_alias_name : option str; tk_invocation_source : option str;
  tk_invocation : csh_position; tk_alias_eligible : bool }.

(** [enum csh_lex_result] with the token that [TOKEN] transfers;
    [CSH_LEX_ERROR] is the outcome [Failed]. *)
Inductive csh_lex_result : Type :=
  | CSH_LEX_EOF | CSH_LEX_TOKEN (token : csh_token) | CSH_LEX_MORE | CSH_LEX_COMMAND | CSH_LEX_REPLAY.

(** The names of enumerators; [UNKNOWN] is for other integers. *)
Definition csh_token_kind_name (k : csh_token_kind) : str :=
  match k with
  | CSH_TOKEN_WORD => bs "WORD" | CSH_TOKEN_NEWLINE => bs "NEWLINE"
  | CSH_TOKEN_AND_IF => bs "AND_IF" | CSH_TOKEN_OR_IF => bs "OR_IF"
  | CSH_TOKEN_DSEMI => bs "DSEMI" | CSH_TOKEN_SEMI_AND => bs "SEMI_AND"
  | CSH_TOKEN_DLESS => bs "DLESS" | CSH_TOKEN_DGREAT => bs "DGREAT"
  | CSH_TOKEN_LESS_AND => bs "LESS_AND" | CSH_TOKEN_GREAT_AND => bs "GREAT_AND"
  | CSH_TOKEN_LESS_GREAT => bs "LESS_GREAT" | CSH_TOKEN_DLESS_DASH => bs "DLESS_DASH"
  | CSH_TOKEN_CLOBBER => bs "CLOBBER" | CSH_TOKEN_PIPE => bs "PIPE"
  | CSH_TOKEN_AMPERSAND => bs "AMPERSAND" | CSH_TOKEN_SEMI => bs "SEMI"
  | CSH_TOKEN_LPAREN => bs "LPAREN" | CSH_TOKEN_RPAREN => bs "RPAREN"
  | CSH_TOKEN_LESS => bs "LESS" | CSH_TOKEN_GREAT => bs "GREAT"
  end.

Definition csh_fragment_kind_name (k : csh_fragment_kind) : str :=
  match k with
  | CSH_FRAGMENT_TEXT => bs "TEXT" | CSH_FRAGMENT_QUOTED => bs "QUOTED"
  | CSH_FRAGMENT_ESCAPE => bs "ESCAPE" | CSH_FRAGMENT_CONTINUATION => bs "CONTINUATION"
  | CSH_FRAGMENT_PARAMETER => bs "PARAMETER" | CSH_FRAGMENT_COMMAND => bs "COMMAND"
  | CSH_FRAGMENT_ARITHMETIC => bs "ARITHMETIC" | CSH_FRAGMENT_BACKQUOTE => bs "BACKQUOTE"
  end.

Definition csh_quote_name (q : csh_quote) : str :=
  match q with
  | CSH_QUOTE_NONE => bs "NONE" | CSH_QUOTE_SINGLE => bs "SINGLE"
  | CSH_QUOTE_DOUBLE => bs "DOUBLE" | CSH_QUOTE_DOLLAR_SINGLE => bs "DOLLAR_SINGLE"
  end.

(** ** The tape *)

Record alias_source : Type := mk_alias_source {
  as_name : str; as_source_name : str; as_invocation_source : str;
  as_invocation : csh_position; as_resume : csh_position;
  as_end : nat; as_owner_depth : nat; as_trailing_blank : bool }.

(** [data] is the [length] bytes; [look_positions] the first [look_count] entries. *)
Record source : Type := mk_source {
  so_name : str;
  data : str;
  cursor : nat;
  so_position : csh_position;
  so_aliases : list alias_source;
  sequence : Z;
  alias_eligible : bool;
  look_offset : Z; look_scan : nat; look_positions : list nat; look_valid : bool;
  final : bool;
  failure : csh_error }.

Inductive frame_kind : Type :=
  | SINGLE | DOUBLE | DOLLAR_SINGLE | PARAMETER | SIMPLE | ARITHMETIC | BACKQUOTE | COMMAND.

#[export] Instance frame_kind_eq_dec : EqDecision frame_kind.
Proof. solve_decision. Defined.

Record frame : Type := mk_frame {
  fm_kind : frame_kind; fm_quote : csh_quote; fm_fragment : nat;
  fm_parentheses : Z; fm_stage : Z }.

(** [cp_captures] are the lengths and positions of the lexer and its ancestors. *)
Record arithmetic_checkpoint : Type := mk_checkpoint {
  cp_source : source;
  cp_fragment_count : nat; cp_frame_count : nat;
  cp_command_length : nat; cp_body_begin : nat;
  cp_quote : csh_quote;
  cp_captures : list (nat * csh_position) }.

Record csh_lexer : Type := mk_lexer {
  start : csh_position; spelling_position : csh_position;
  raw : str;
  token_name : option str; alias_name : option str; invocation_source : option str;
  invocation : csh_position;
  lx_alias_eligible : bool;
  fragments : list csh_fragment;
  frames : list frame;
  active : bool; comment : bool; command : bool; document : bool;
  kind : csh_token_kind;
  operator_text : str;
  last_kind : csh_token_kind; last_start : csh_position; last_end : csh_position;
  has_last : bool;
  last_sequence : Z;
  arithmetic : list arithmetic_checkpoint }.

(** Everything a lexer call reads or changes.  [t_stack] has the stack checks of
    the next arithmetic probes. *)
Record tape : Type := mk_tape {
  t_source : source; t_lexers : list csh_lexer; t_stack : list (list bool); t_proc : proc }.

Definition fresh_lexer (document : bool) : csh_lexer :=
  mk_lexer no_position no_position [] None None None no_position false [] []
    false false false document CSH_TOKEN_WORD [] CSH_TOKEN_WORD no_position no_position false 0 [].

(** ** Field updates *)

Definition with_data (s : source) (d : str) (c : nat) (l : list alias_source) : source :=
  mk_source (so_name s) d c (so_position s) l (sequence s) (alias_eligible s)
    (look_offset s) (look_scan s) (look_positions s) (look_valid s) (final s) (failure s).

Definition with_so_position (s : source) (p : csh_position) : source :=
  mk_source (so_name s) (data s) (cursor s) p (so_aliases s) (sequence s) (alias_eligible s)
    (look_offset s) (look_scan s) (look_positions s) (look_valid s) (final s) (failure s).

Definition with_eligible (s : source) (b : bool) : source :=
  mk_source (so_name s) (data s) (cursor s) (so_position s) (so_aliases s) (sequence s) b
    (look_offset s) (look_scan s) (look_positions s) (look_valid s) (final s) (failure s).

Definition with_sequence (s : source) (n : Z) : source :=
  mk_source (so_name s) (data s) (cursor s) (so_position s) (so_aliases s) n (alias_eligible s)
    (look_offset s) (look_scan s) (look_positions s) (look_valid s) (final s) (failure s).

Definition with_look (s : source) (offset : Z) (scan : nat) (positions : list nat) (valid : bool) : source :=
  mk_source (so_name s) (data s) (cursor s) (so_position s) (so_aliases s) (sequence s) (alias_eligible s)
    offset scan positions valid (final s) (failure s).

Definition with_final (s : source) (b : bool) : source :=
  mk_source (so_name s) (data s) (cursor s) (so_position s) (so_aliases s) (sequence s) (alias_eligible s)
    (look_offset s) (look_scan s) (look_positions s) (look_valid s) b (failure s).

Definition with_failure (s : source) (e : csh_error) : source :=
  mk_source (so_name s) (data s) (cursor s) (so_position s) (so_aliases s) (sequence s) (alias_eligible s)
    (look_offset s) (look_scan s) (look_positions s) (look_valid s) (final s) e.

(** An invalid cache; its other fields are not read before they are set again. *)
Definition no_look (s : source) : source := with_look s 0 0 [] false.

Definition with_end (a : alias_source) (n : nat) : alias_source :=
  mk_alias_source (as_name a) (as_source_name a) (as_invocation_source a) (as_invocation a) (as_resume a)
    n (as_owner_depth a) (as_trailing_blank a).

Definition with_raw (x : csh_lexer) (r : str) (p : csh_position) : csh_lexer :=
  mk_lexer (start x) p r (token_name x) (alias_name x) (invocation_source x) (invocation x)
    (lx_alias_eligible x) (fragments x) (frames x) (active x) (comment x) (command x) (document x) (kind x)
    (operator_text x) (last_kind x) (last_start x) (last_end x) (has_last x) (last_sequence x) (arithmetic x).

Definition with_fragments (x : csh_lexer) (l : list csh_fragment) : csh_lexer :=
  mk_lexer (start x) (spelling_position x) (raw x) (token_name x) (alias_name x) (invocation_source x) (invocation x)
    (lx_alias_eligible x) l (frames x) (active x) (comment x) (command x) (document x) (kind x)
    (operator_text x) (last_kind x) (last_start x) (last_end x) (has_last x) (last_sequence x) (arithmetic x).

Definition with_frames (x : csh_lexer) (l : list frame) : csh_lexer :=
  mk_lexer (start x) (spelling_position x) (raw x) (token_name x) (alias_name x) (invocation_source x) (invocation x)
    (lx_alias_eligible x) (fragments x) l (active x) (comment x) (command x) (document x) (kind x)
    (operator_text x) (last_kind x) (last_start x) (last_end x) (has_last x) (last_sequence x) (arithmetic x).

Definition with_modes (x : csh_lexer) (cm cd : bool) : csh_lexer :=
  mk_lexer (start x) (spelling_position x) (raw x) (token_name x) (alias_name x) (invocation_source x) (invocation x)
    (lx_alias_eligible x) (fragments x) (frames x) (active x) cm cd (document x) (kind x)
    (operator_text x) (last_kind x) (last_start x) (last_end x) (has_last x) (last_sequence x) (arithmetic x).

Definition with_kind (x : csh_lexer) (k : csh_token_kind) (text : str) : csh_lexer :=
  mk_lexer (start x) (spelling_position x) (raw x) (token_name x) (alias_name x) (invocation_source x) (invocation x)
    (lx_alias_eligible x) (fragments x) (frames x) (active x) (comment x) (command x) (document x) k
    text (last_kind x) (last_start x) (last_end x) (has_last x) (last_sequence x) (arithmetic x).

Definition with_has_last (x : csh_lexer) (b : bool) : csh_lexer :=
  mk_lexer (start x) (spelling_position x) (raw x) (token_name x) (alias_name x) (invocation_source x) (invocation x)
    (lx_alias_eligible x) (fragments x) (frames x) (active x) (comment x) (command x) (document x) (kind x)
    (operator_text x) (last_kind x) (last_start x) (last_end x) b (last_sequence x) (arithmetic x).

Definition with_arithmetic (x : csh_lexer) (l : list arithmetic_checkpoint) : csh_lexer :=
  mk_lexer (start x) (spelling_position x) (raw x) (token_name x) (alias_name x) (invocation_source x) (invocation x)
    (lx_alias_eligible x) (fragments x) (frames x) (active x) (comment x) (command x) (document x) (kind x)
    (operator_text x) (last_kind x) (last_start x) (last_end x) (has_last x) (last_sequence x) l.

Definition with_cp_source (c : arithmetic_checkpoint) (s : source) : arithmetic_checkpoint :=
  mk_checkpoint s (cp_fragment_count c) (cp_frame_count c) (cp_command_length c) (cp_body_begin c)
    (cp_quote c) (cp_captures c).

(** ** The monad of lexer calls *)

Inductive outcome (A : Type) : Type := Fault | Failed (e : csh_error) | Done (a : A).
Arguments Fault {_}.
Arguments Failed {_} e.
Arguments Done {_} a.

Definition L (A : Type) : Type := tape -> outcome A * tape.

Definition lret {A} (a : A) : L A := fun t => (Done a, t).
Definition lbind {A B} (m : L A) (f : A -> L B) : L B := fun t =>
  match m t with
  | (Done a, t) => f a t
  | (Failed e, t) => (Failed e, t)
  | (Fault, t) => (Fault, t)
  end.

Notation "'let%' x ':=' m 'in' k" := (lbind m (fun x => k))
  (at level 10, x strict pattern, m at level 200, k at level 200,
   format "'let%'  x  ':='  m  'in' '//' k") : cshell_scope.

Definition lfault {A} : L A := fun t => (Fault, t).
Definition get_source : L source := fun t => (Done (t_source t), t).
Definition put_source (s : source) : L unit := fun t =>
  (Done tt, mk_tape s (t_lexers t) (t_stack t) (t_proc t)).
Definition get_lexers : L (list csh_lexer) := fun t => (Done (t_lexers t), t).
Definition put_lexers (l : list csh_lexer) : L unit := fun t =>
  (Done tt, mk_tape (t_source t) l (t_stack t) (t_proc t)).

(** The lexer that a call is for. *)
Definition get_lexer : L csh_lexer := fun t =>
  match t_lexers t with x :: _ => (Done x, t) | [] => (Fault, t) end.
Definition put_lexer (x : csh_lexer) : L unit := fun t =>
  (Done tt, mk_tape (t_source t) (x :: tail (t_lexers t)) (t_stack t) (t_proc t)).

Definition lmalloc : L bool := fun t =>
  let '(b, w) := malloc (t_proc t) in (Done b, mk_tape (t_source t) (t_lexers t) (t_stack t) w).

(** ** Errors *)

Definition plain_error (text : str) (number : errno) : csh_error :=
  mk_error (Some text) [] false number
    (if bool_decide (number = ENOMEM) || bool_decide (number = EOVERFLOW) then 1 else 2) 0 (mk_position 0 1 1).

Definition error_at (e : csh_error) (p : csh_position) : csh_error :=
  mk_error (message e) (detail e) (reported e) (system_errno e) (status e) (argument_index e) p.

(** What [release_work] leaves of a lexer. *)
Definition release_work (x : csh_lexer) : csh_lexer :=
  mk_lexer (start x) (spelling_position x) [] None None None (invocation x)
    (lx_alias_eligible x) [] [] false false false (document x) (kind x)
    (operator_text x) (last_kind x) (last_start x) (last_end x) (has_last x) (last_sequence x) [].

Definition csh_lexer_diagnostic_position (s : source) (x : csh_lexer) (p : csh_position) : csh_position :=
  match so_aliases s with
  | a :: _ => as_invocation a
  | [] => match invocation_source x with Some _ => invocation x | None => p end
  end.

Definition has_failed (s : source) : bool := bool_decide (is_Some (message (failure s))).

(** [x] is the lexer that the failing call names. *)
Definition fail_at {A} (x : csh_lexer) (text : str) (number : errno) (p : csh_position) : L A := fun t =>
  let s := t_source t in
  if has_failed s then (Failed (failure s), t) else
  let e := error_at (plain_error text number) (csh_lexer_diagnostic_position s x p) in
  let s := with_failure s e in
  if bool_decide (number = ENONE) && existsb (fun x => negb (bool_decide (arithmetic x = []))) (t_lexers t)
  then (Failed e, mk_tape s (t_lexers t) (t_stack t) (t_proc t))
  else (Failed e, mk_tape (with_data s [] 0 []) (map release_work (t_lexers t)) (t_stack t) (t_proc t)).

Definition fail {A} (text : str) (number : errno) : L A :=
  let% x := get_lexer in let% s := get_source in fail_at x text number (so_position s).

(** [None] is success. *)
Definition reserve (count : Z) (size : Z) : L (option errno) :=
  if SIZE_MAX / size <? count then lret (Some EOVERFLOW) else
  let% ok := lmalloc in lret (if ok then None else Some ENOMEM).

(** Sizes of the structures on LP64 hosts. *)
Definition sizeof_fragment : Z := 80.
Definition sizeof_frame : Z := 32.
Definition sizeof_alias_source : Z := 96.

Definition grow (count : nat) (size : Z) (text : str) : L unit :=
  let% r := reserve (Z.of_nat count) size in
  match r with None => lret tt | Some e => fail text e end.

(** ** Creation and feeding *)

Definition csh_lexer_create (source_name : option str) (stack : list (list bool)) (w : proc)
    : (csh_error + tape) * proc :=
  match source_name with
  | None => (inl (plain_error (bs "invalid lexer source name") EINVAL), w)
  | Some name =>
      (let* ok := malloc in
       if negb ok then ret (inl (plain_error (bs "cannot allocate lexer") ENOMEM)) else
       let* ok := malloc in
       if negb ok then ret (inl (plain_error (bs "cannot allocate lexer source") ENOMEM)) else
       let* ok := malloc in
       if negb ok then ret (inl (plain_error (bs "cannot allocate lexer source name") ENOMEM)) else
       fun w => (inr (mk_tape (mk_source name [] 0 (mk_position 0 1 1) [] 0 false 0 0 [] false false no_error)
                        [fresh_lexer false] stack w), w)) w
  end.

Definition csh_lexer_set_position (t : tape) (p : csh_position) : tape :=
  mk_tape (with_so_position (t_source t) p) (t_lexers t) (t_stack t) (t_proc t).

Definition csh_lexer_document (t : tape) : tape :=
  match t_lexers t with
  | x :: rest =>
      mk_tape (t_source t)
        (mk_lexer (start x) (spelling_position x) (raw x) (token_name x) (alias_name x) (invocation_source x)
           (invocation x) (lx_alias_eligible x) (fragments x) (frames x) (active x) (comment x) (command x) true
           (kind x) (operator_text x) (last_kind x) (last_start x) (last_end x) (has_last x) (last_sequence x)
           (arithmetic x) :: rest) (t_stack t) (t_proc t)
  | [] => t
  end.

(** The bytes behind a snapshot. *)
Definition feed_checkpoint (c : arithmetic_checkpoint) (bytes : str) (last : bool) : L arithmetic_checkpoint :=
  let s := cp_source c in
  if SIZE_MAX - slen (data s) <? slen bytes then fail (bs "lexer replay is too large") EOVERFLOW else
  let% _ := grow (length (data s) + length bytes) 1 (bs "cannot grow lexer replay") in
  lret (with_cp_source c (with_final (with_data s (data s ++ bytes) (cursor s) (so_aliases s)) last)).

Fixpoint feed_checkpoints (l : list arithmetic_checkpoint) (bytes : str) (last : bool)
    : L (list arithmetic_checkpoint) :=
  match l with
  | [] => lret []
  | c :: rest =>
      let% c := feed_checkpoint c bytes last in
      let% rest := feed_checkpoints rest bytes last in lret (c :: rest)
  end.

(** From the root on: the list has the active lexer first. *)
Fixpoint feed_lexers (l : list csh_lexer) (bytes : str) (last : bool) : L (list csh_lexer) :=
  match l with
  | [] => lret []
  | x :: behind =>
      let% behind := feed_lexers behind bytes last in
      let% cs := feed_checkpoints (arithmetic x) bytes last in lret (with_arithmetic x cs :: behind)
  end.

(** [memmove] of the unread bytes to the front. *)
Definition compact (s : source) : source :=
  with_data s (drop (cursor s) (data s)) 0
    (map (fun a => with_end a (as_end a - cursor s)) (so_aliases s)).

(** [bytes] is [None] for NULL. *)
Definition csh_lexer_feed (bytes : option str) (length : nat) (last : bool) : L unit :=
  let% s := get_source in
  if has_failed s then (fun t => (Failed (failure s), t)) else
  if final s || (negb (length =? 0)%nat && bool_decide (bytes = None)) then fail (bs "invalid lexer feed") EINVAL else
  let b := take length (default [] bytes) in
  let% l := get_lexers in
  let% l := feed_lexers l b last in
  let% _ := put_lexers l in
  let% s := get_source in
  let s := compact s in
  let% _ := put_source s in
  if SIZE_MAX - slen (data s) <? slen b then fail (bs "lexer source is too large") EOVERFLOW else
  let% _ := grow (List.length (data s) + List.length b) 1 (bs "cannot grow lexer source") in
  put_source (with_final (with_data s (data s ++ b) 0 (so_aliases s)) last).

(** ** Consuming bytes *)

(** A position behind a byte; [None] when it does not fit. *)
Definition advance (p : csh_position) (b : byte) : option csh_position :=
  if (offset p =? SIZE_MAX) || ((if b =? 10 then line p else column p) =? SIZE_MAX) then None
  else Some (if b =? 10 then mk_position (offset p + 1) (line p + 1) 1
             else mk_position (offset p + 1) (line p) (column p + 1)).

(** One lexer of the chain captures a byte; [self] is the consuming one. *)
Definition capture_byte (x : csh_lexer) (depth : nat) (self : bool) (b : byte) : L csh_lexer :=
  let% s := get_source in
  let hidden := match so_aliases s with a :: _ => (depth <? as_owner_depth a)%nat | [] => false end in
  if negb (active x) || (negb self && hidden) then lret x else
  if slen (raw x) =? SIZE_MAX - 1 then fail (bs "token spelling is too large") EOVERFLOW else
  match advance (spelling_position x) b with
  | None => fail (bs "token position overflow") EOVERFLOW
  | Some p =>
      let% _ := grow (length (raw x) + 2) 1 (bs "cannot grow token spelling") in
      lret (with_raw x (raw x ++ [b]) p)
  end.

Fixpoint capture_lexers (l : list csh_lexer) (self : bool) (b : byte) : L (list csh_lexer) :=
  match l with
  | [] => lret []
  | x :: behind =>
      let% behind := capture_lexers behind false b in
      let% x := capture_byte x (length behind) self b in lret (x :: behind)
  end.

(** Alias values that end at the cursor give the physical position back. *)
Fixpoint leave_aliases (l : list alias_source) (s : source) : source :=
  match l with
  | [] => with_data s (data s) (cursor s) []
  | a :: rest =>
      if (cursor s =? as_end a)%nat
      then leave_aliases rest (with_eligible (with_so_position s (as_resume a)) (alias_eligible s || as_trailing_blank a))
      else with_data s (data s) (cursor s) l
  end.

Definition consume_byte : L unit :=
  let% s := get_source in
  match data s !! cursor s with
  | None => lfault
  | Some b =>
      if b =? 0 then fail (bs "NUL byte in shell input") ENONE else
      match advance (so_position s) b with
      | Some p =>
          if sequence s =? SIZE_MAX then fail (bs "lexer position overflow") EOVERFLOW else
          let% l := get_lexers in
          let% l := capture_lexers l true b in
          let% _ := put_lexers l in
          let s := with_sequence (with_so_position s p) (sequence s + 1) in
          put_source (leave_aliases (so_aliases s) (with_data s (data s) (cursor s + 1) (so_aliases s)))
      | None => fail (bs "lexer position overflow") EOVERFLOW
      end
  end.

Fixpoint consume_loop (count : nat) : L unit :=
  match count with O => lret tt | S n => let% _ := consume_byte in consume_loop n end.

Definition consume (count : nat) : L unit :=
  let% s := get_source in let% _ := put_source (no_look s) in consume_loop count.

(** ** Words under construction *)

(** [copy_string] of what is not NULL. *)
Definition lex_copy (s : option str) : L (option str) :=
  match s with
  | None => lret None
  | Some s => let% ok := lmalloc in lret (if ok then Some s else None)
  end.

Definition start_token : L unit :=
  let% s := get_source in
  let% x := get_lexer in
  let top := match so_aliases s with a :: _ => Some a | [] => None end in
  let% name := lex_copy (Some (match top with None => so_name s | Some a => as_source_name a end)) in
  let% alias := lex_copy (as_name <$> top) in
  let% source := lex_copy (as_invocation_source <$> top) in
  let x := mk_lexer (start x) (spelling_position x) (raw x) name
    (match top with None => alias_name x | Some _ => alias end)
    (match top with None => invocation_source x | Some _ => source end)
    (match top with None => invocation x | Some a => as_invocation a end)
    (lx_alias_eligible x) (fragments x) (frames x) (active x) (comment x) (command x) (document x) (kind x)
    (operator_text x) (last_kind x) (last_start x) (last_end x) (has_last x) (last_sequence x) (arithmetic x) in
  let% _ := put_lexer x in
  if bool_decide (name = None) ||
     match top with Some _ => bool_decide (alias = None) || bool_decide (source = None) | None => false end
  then fail (bs "cannot allocate token source") ENOMEM else
  let% _ := put_lexer (mk_lexer (so_position s) (so_position s) (raw x) (token_name x)
    (alias_name x) (invocation_source x) (invocation x) (alias_eligible s) (fragments x) (frames x) true (comment x)
    (command x) (document x) (kind x) (operator_text x) (last_kind x) (last_start x) (last_end x) (has_last x)
    (last_sequence x) (arithmetic x)) in
  put_source (with_eligible s false).

Definition parent_fragment (x : csh_lexer) : option nat := fm_fragment <$> head (frames x).

Definition add_fragment (k : csh_fragment_kind) (q : csh_quote) : L nat :=
  let% x := get_lexer in
  let% _ := grow (S (length (fragments x))) sizeof_fragment (bs "cannot grow word fragments") in
  let f := mk_fragment k q (parent_fragment x) (length (raw x)) (length (raw x))
             (spelling_position x) (spelling_position x) in
  let% _ := put_lexer (with_fragments x (fragments x ++ [f])) in
  lret (length (fragments x)).

Definition finished (f : csh_fragment) (e : nat) (p : csh_position) : csh_fragment :=
  mk_fragment (fr_kind f) (fr_quote f) (fr_parent f) (fr_begin f) e (fr_start f) p.

Definition finish_fragment (index : nat) : L unit :=
  let% x := get_lexer in
  match fragments x !! index with
  | None => lfault
  | Some f => put_lexer (with_fragments x (<[index := finished f (length (raw x)) (spelling_position x)]> (fragments x)))
  end.

(** Text that continues the last fragment. *)
Definition extends (x : csh_lexer) (k : csh_fragment_kind) (q : csh_quote) : bool :=
  bool_decide (k = CSH_FRAGMENT_TEXT) &&
  match last (fragments x) with
  | Some f => bool_decide (fr_kind f = k) && bool_decide (fr_quote f = q) &&
              bool_decide (fr_parent f = parent_fragment x) && (fr_end f =? length (raw x))%nat
  | None => false
  end.

Definition piece (k : csh_fragment_kind) (q : csh_quote) (count : nat) : L unit :=
  let% x := get_lexer in
  let% index := (if extends x k q then lret (length (fragments x) - 1)%nat else add_fragment k q) in
  let% _ := consume count in
  finish_fragment index.

(** ** Lookahead *)

Section Lookahead.
Context `{Locale}.

(** The loop over logical characters; the answer -1 or -2, or [None] when the
    position of the wanted one is known, with the new cache. *)
Fixpoint look_loop (fuel : nat) (text : str) (last : bool) (wanted scan : nat) (positions : list nat)
    : option (option Z * nat * list nat) :=
  match fuel with
  | O => None
  | S f =>
      if (wanted <? length positions)%nat then Some (None, scan, positions) else
      let character :=
        let width := csh_character_length (drop scan text) true last in
        if (width =? 0)%nat then Some (Some (-2), scan, positions)
        else look_loop f text last wanted (scan + width) (positions ++ [scan]) in
      match drop scan text with
      | [] => Some (Some (if last then -1 else -2), scan, positions)
      | c :: rest =>
          if c =? ch "\" then
            match rest with
            | [] => if last then character else Some (Some (-2), scan, positions)
            | d :: _ => if d =? 10 then look_loop f text last wanted (scan + 2) positions else character
            end
          else character
      end
  end.

(** [peek]: the character [wanted] after the cursor, with its end; -2 when
    another feed can change the answer, -1 at the end of the source. *)
Definition lex_peek (wanted : nat) : L (Z * nat) :=
  let% s := get_source in
  let text := drop (cursor s) (data s) in
  let s := if look_valid s && (look_offset s =? offset (so_position s)) then s
           else with_look s (offset (so_position s)) 0 [] true in
  match look_loop (S (length text)) text (final s) wanted (look_scan s) (look_positions s) with
  | None => lfault
  | Some (answer, scan, positions) =>
      let% _ := put_source (with_look s (look_offset s) scan positions true) in
      match answer with
      | Some z => lret (z, 0%nat)
      | None =>
          match positions !! wanted with
          | None => lfault
          | Some p =>
              let width := csh_character_length (drop p text) true (final s) in
              match text !! p with
              | None => lfault
              | Some b => lret (if (1 <? width)%nat then 256 else b, (p + width)%nat)
              end
          end
      end
  end.

(** ** Delimiters and frames *)

Fixpoint lex_delimiter (fuel : nat) (count : nat) (q : csh_quote) : L unit :=
  match fuel, count with
  | _, O => lret tt
  | O, _ => lfault
  | S f, S n =>
      let% s := get_source in
      match data s !! cursor s with
      | None => lfault
      | Some b =>
          if (2 <=? count)%nat && (b =? ch "\") then
            match data s !! S (cursor s) with
            | None => lfault
            | Some d =>
                if d =? 10 then
                  let% _ := piece CSH_FRAGMENT_CONTINUATION q 2 in lex_delimiter f (count - 2) q
                else let% _ := consume 1 in lex_delimiter f n q
            end
          else let% _ := consume 1 in lex_delimiter f n q
      end
  end.

Definition delimiter (count : nat) (q : csh_quote) : L unit := lex_delimiter count count q.

Definition push (k : frame_kind) (fk : csh_fragment_kind) (q : csh_quote) (count : nat) : L unit :=
  let% index := add_fragment fk q in
  let% x := get_lexer in
  let% _ := grow (S (length (frames x))) sizeof_frame (bs "cannot grow lexical contexts") in
  let% _ := put_lexer (with_frames x (mk_frame k q index 0 0 :: frames x)) in
  delimiter count q.

Definition pop (count : nat) : L unit :=
  let% x := get_lexer in
  match frames x with
  | [] => lfault
  | f :: _ =>
      let% _ := delimiter count (fm_quote f) in
      let% _ := finish_fragment (fm_fragment f) in
      let% x := get_lexer in
      put_lexer (with_frames x (tail (frames x)))
  end.

(** ** Arithmetic candidates *)

Definition sizeof_checkpoint : Z := 528.
Definition sizeof_capture : Z := 40.

Fixpoint copy_aliases (l : list alias_source) : L bool :=
  match l with
  | [] => lret true
  | a :: rest =>
      let% ok1 := lmalloc in let% ok2 := lmalloc in let% ok3 := lmalloc in
      if ok1 && ok2 && ok3 then copy_aliases rest else lret false
  end.

Definition checkpoint_arithmetic (command_length : nat) (q : csh_quote) : L unit :=
  let% s := get_source in
  let% l := get_lexers in
  let error {A} e : L A := fail (bs "cannot allocate lexer checkpoint") e in
  if (SIZE_MAX - sizeof_checkpoint) / sizeof_capture <? Z.of_nat (length l)
  then fail (bs "lexer checkpoint overflow") EOVERFLOW else
  let% ok := lmalloc in
  if negb ok then error ENOMEM else
  let rest := drop (cursor s) (data s) in
  let% r := reserve (slen rest) 1 in
  if bool_decide (is_Some r) then error (default ENONE r) else
  let% r := reserve (Z.of_nat (length (so_aliases s))) sizeof_alias_source in
  if bool_decide (is_Some r) then error (default ENONE r) else
  let% ok := copy_aliases (rev (so_aliases s)) in
  if negb ok then error ENOMEM else
  let% x := get_lexer in
  put_lexer (with_arithmetic x
    (mk_checkpoint (no_look (compact s)) (length (fragments x)) (length (frames x)) command_length 0 q
       (map (fun x => (length (raw x), spelling_position x)) l) :: arithmetic x)).

(** The first loop of [probe_arithmetic]: the text of the candidate with its
    nested expansions as [@].  [room] is what is left of the buffer. *)
Fixpoint probe_loop (fuel : nat) (text : str) (l : list csh_fragment) (candidate : nat) (partial : bool)
    (index at_ : nat) (room : nat) : option str :=
  match fuel with
  | O => None
  | S f =>
      if (length text <=? at_)%nat then Some [] else
      let store b at_ index :=
        match room with
        | O => None
        | S room => cons b <$> probe_loop f text l candidate partial index at_ room
        end in
      let plain at_ index :=
        match text !! at_ with None => None | Some b => store b (S at_) index end in
      match l !! index with
      | Some g =>
          if (fr_begin g <=? at_)%nat then
            let index := S index in
            let unfinished := partial && (fr_end g =? fr_begin g)%nat in
            if (negb unfinished && (fr_end g <=? at_)%nat) || negb (bool_decide (fr_parent g = Some candidate))
            then probe_loop f text l candidate partial index at_ room
            else match fr_kind g with
            | CSH_FRAGMENT_PARAMETER | CSH_FRAGMENT_COMMAND | CSH_FRAGMENT_ARITHMETIC | CSH_FRAGMENT_BACKQUOTE =>
                store (ch "@") (if unfinished then length text else fr_end g) index
            | CSH_FRAGMENT_CONTINUATION => probe_loop f text l candidate partial index (fr_end g) room
            | CSH_FRAGMENT_ESCAPE => plain (S at_) index
            | _ => plain at_ index
            end
          else plain at_ index
      | None => plain at_ index
      end
  end.

Definition operand_byte (b : byte) : bool :=
  between (ch "a") b (ch "z") || between (ch "A") b (ch "Z") || between (ch "0") b (ch "9") ||
  (b =? ch "_") || (b =? ch "@").

Fixpoint operand_run (s : str) : str * str :=
  match s with
  | b :: rest => if operand_byte b then let '(r, t) := operand_run rest in (b :: r, t) else ([], s)
  | [] => ([], [])
  end.

(** The second loop: a spelling with a nested expansion is one operand. *)
Fixpoint merge_operands (fuel : nat) (s : str) : str :=
  match fuel with
  | O => []
  | S f =>
      match s with
      | [] => []
      | b :: rest =>
          match operand_run s with
          | ([], _) => b :: merge_operands f rest
          | (r, t) => (if in_set (ch "@") r then [ch "x"] else r) ++ merge_operands f t
          end
      end
  end.
End Lookahead.

Definition next_stack : L (list bool) := fun t =>
  match t_stack t with
  | [] => (Done [], t)
  | k :: rest => (Done k, mk_tape (t_source t) (t_lexers t) rest (t_proc t))
  end.

(** A call of an arithmetic probe; [None] would be a probe that never ends. *)
Definition probing {A} (m : proc -> option (A * proc)) : L A := fun t =>
  match m (t_proc t) with
  | Some (a, w) => (Done a, mk_tape (t_source t) (t_lexers t) (t_stack t) w)
  | None => (Fault, t)
  end.

Section Arithmetic.
Context `{Locale} `{LocaleDb}.

(** [x] is the lexer whose latest candidate is probed. *)
Definition probe_arithmetic (x : csh_lexer) (partial : bool) : L bool :=
  match arithmetic x with
  | [] => lfault
  | c :: _ =>
      let% s := get_source in
      let% ok := lmalloc in
      if negb ok then fail_at x (bs "cannot allocate arithmetic probe") ENOMEM (so_position s) else
      match probe_loop (S (length (fragments x) + length (raw x))) (raw x) (fragments x) (cp_fragment_count c) partial
              (S (cp_fragment_count c)) (cp_body_begin c) (length (raw x) - cp_body_begin c) with
      | None => lfault
      | Some text =>
          let expression := merge_operands (S (length text)) text in
          let% stack := next_stack in
          let% valid := (if partial then probing (csh_arith_probe_prefix (Some expression) stack)
            else let% r := probing (csh_arith_probe (Some expression) stack) in
                 lret (if bool_decide (r = CSH_ARITH_RESOURCE) then -1 else of_bool (bool_decide (r = CSH_ARITH_OK)))) in
          if valid =? -1 then fail_at x (bs "arithmetic stack exhausted") ENOMEM (so_position s)
          else lret (negb (valid =? 0))
      end
  end.

(** The captures of a checkpoint, given back to the chain. *)
Definition rewind (x : csh_lexer) (capture : nat * csh_position) : csh_lexer :=
  with_raw x (take (fst capture) (raw x)) (snd capture).

Definition truncate_frames (x : csh_lexer) (count : nat) : csh_lexer :=
  with_frames x (drop (length (frames x) - count) (frames x)).

(** [error] is the error so far.  [up] counts the child frames above the lexer,
    which recovery destroys.  True: replayed, false: not. *)
Definition csh_lexer_replay_arithmetic (up : nat) (error : csh_error) : L bool :=
  let% l := get_lexers in
  let% s := get_source in
  match drop up l with
  | [] => lfault
  | x :: behind =>
      match arithmetic x with
      | [] => lret false
      | c :: previous =>
          if negb (bool_decide (system_errno error = ENONE)) || negb (bool_decide (system_errno (failure s) = ENONE))
          then lret false
          else if bool_decide (message error = Some (bs "unterminated arithmetic expansion")) then lret false
          else
            let% keep := (if final s && starts_with (bs "unterminated ") (default [] (message error)) then
                let% _ := put_source (with_failure s no_error) in
                let% possible := probe_arithmetic x true in
                let% _ := put_source s in lret possible
              else lret false) in
            if keep then lret false else
            let% _ := put_source (cp_source c) in
            let x := with_modes (truncate_frames (with_fragments x (take (cp_fragment_count c) (fragments x)))
                       (cp_frame_count c)) (comment x) false in
            let% _ := put_lexers (zip_with rewind (with_arithmetic x previous :: behind) (cp_captures c)) in
            let% _ := push COMMAND CSH_FRAGMENT_COMMAND (cp_quote c) (cp_command_length c) in
            let% x := get_lexer in
            let% _ := put_lexer (with_modes x (comment x) true) in
            lret true
      end
  end.

(** ** Publishing tokens *)

Definition frame_name (k : frame_kind) : str :=
  match k with
  | SINGLE => bs "single quote"
  | DOUBLE => bs "double quote"
  | DOLLAR_SINGLE => bs "dollar-single quote"
  | PARAMETER => bs "parameter expansion"
  | SIMPLE => bs "parameter name"
  | ARITHMETIC => bs "arithmetic expansion"
  | BACKQUOTE => bs "backquote substitution"
  | COMMAND => bs "command substitution"
  end.

Definition unterminated_context (k : frame_kind) : str := bs "unterminated " ++ frame_name k.

(** The context of a request for more input, when a word is unfinished. *)
Definition csh_lexer_context (t : tape) : bool * option str * csh_position :=
  let s := t_source t in
  match t_lexers t with
  | [] => (false, None, so_position s)
  | x :: _ =>
      if bool_decide (drop (cursor s) (data s) = bs "\")
      then (true, Some (bs "escape"), if active x then spelling_position x else so_position s)
      else match frames x with
      | f :: _ => (true, Some (frame_name (fm_kind f)),
                   match fragments x !! fm_fragment f with Some g => fr_start g | None => no_position end)
      | [] => (active x, if active x then Some (bs "word") else None, if active x then start x else so_position s)
      end
  end.

(** [raw] is NULL until a byte is captured; [publish] writes its terminating NUL. *)
Definition publish : L csh_lex_result :=
  let% s := get_source in
  let% x := get_lexer in
  match raw x, token_name x with
  | _ :: _, Some name =>
      let token := mk_token (kind x) name (raw x) (start x) (spelling_position x) (fragments x)
                     (alias_name x) (invocation_source x) (invocation x) (lx_alias_eligible x) in
      let% _ := put_lexer (mk_lexer (start x) (spelling_position x) [] None None None no_position
        (lx_alias_eligible x) [] (frames x) false (comment x) (command x) (document x) (kind x) []
        (kind x) (start x) (spelling_position x) true (sequence s) (arithmetic x)) in
      lret (CSH_LEX_TOKEN token)
  | _, _ => lfault
  end.

Definition operators : list (str * csh_token_kind) := [
  (bs "&&", CSH_TOKEN_AND_IF); (bs "||", CSH_TOKEN_OR_IF);
  (bs ";;", CSH_TOKEN_DSEMI); (bs ";&", CSH_TOKEN_SEMI_AND);
  (bs "<<-", CSH_TOKEN_DLESS_DASH); (bs "<<", CSH_TOKEN_DLESS);
  (bs ">>", CSH_TOKEN_DGREAT); (bs "<&", CSH_TOKEN_LESS_AND);
  (bs ">&", CSH_TOKEN_GREAT_AND); (bs "<>", CSH_TOKEN_LESS_GREAT);
  (bs ">|", CSH_TOKEN_CLOBBER); (bs "|", CSH_TOKEN_PIPE);
  (bs "&", CSH_TOKEN_AMPERSAND); (bs ";", CSH_TOKEN_SEMI);
  (bs "(", CSH_TOKEN_LPAREN); (bs ")", CSH_TOKEN_RPAREN);
  (bs "<", CSH_TOKEN_LESS); (bs ">", CSH_TOKEN_GREAT) ].

Definition operator_kind (text : str) : option csh_token_kind :=
  snd <$> List.find (fun o => str_eqb (fst o) text) operators.

Definition digit_byte (b : Z) : bool := between (ch "0") b (ch "9").
Definition name_char (b : Z) : bool := name_start b || digit_byte b.
Definition operator_char (b : byte) : bool := (0 <? b) && in_set b (bs "|&;()<>").

(** The stages of a parameter header: 0 at the start, 1 behind a leading [#],
    2 in a name, 3 in digits, 4 behind a special parameter, 5 in the word. *)
Definition parameter_context (f : frame) (b : Z) : frame :=
  let stage n := mk_frame (fm_kind f) (fm_quote f) (fm_fragment f) (fm_parentheses f) n in
  let later (st : Z) :=
    if ((st =? 2) && name_char b) || ((st =? 3) && digit_byte b) then f
    else if st =? 5 then f
    else mk_frame (fm_kind f) (if (b =? ch "#") || (b =? ch "%") then CSH_QUOTE_NONE else fm_quote f)
           (fm_fragment f) (fm_parentheses f) 5 in
  if fm_stage f =? 0 then
    if b =? ch "#" then stage 4
    else stage (if name_start b then 2 else if digit_byte b then 3 else 4)
  else if fm_stage f =? 1 then stage (if name_start b then 2 else if digit_byte b then 3 else 4)
  else later (fm_stage f).

(** The recursion is over the bytes of an operator, three at most. *)
Fixpoint operator_step (fuel : nat) : L csh_lex_result :=
  match fuel with
  | O => lfault
  | S f =>
      let% x := get_lexer in
      let extendible := existsb (fun o => starts_with (operator_text x) (fst o) &&
                          (length (operator_text x) <? length (fst o))%nat) operators in
      if negb extendible then publish else
      let% (b, physical) := lex_peek 0 in
      if b =? -2 then lret CSH_LEX_MORE
      else if (b <? 0) || (255 <? b) then publish
      else
        let candidate := operator_text x ++ [b] in
        match operator_kind candidate with
        | None => publish
        | Some k =>
            let% x := get_lexer in
            let% _ := put_lexer (with_kind x k (operator_text x)) in
            let% _ := delimiter physical CSH_QUOTE_NONE in
            let% x := get_lexer in
            let% _ := put_lexer (with_kind x (kind x) candidate) in
            operator_step f
        end
  end.

(** The recursion is over the frames. *)
Fixpoint eof_loop (fuel : nat) : L csh_lex_result :=
  match fuel with
  | O => lfault
  | S n =>
      let% x := get_lexer in
      match frames x with
      | f :: _ =>
          if bool_decide (fm_kind f = SIMPLE) then let% _ := pop 0 in eof_loop n
          else match fragments x !! fm_fragment f with
          | None => lfault
          | Some g => fail_at x (unterminated_context (fm_kind f)) ENONE (fr_start g)
          end
      | [] =>
          if active x then publish else
          let% l := get_lexers in
          match tail l with
          | [] => lret CSH_LEX_EOF
          | parent :: _ =>
              match head (frames parent) ≫= fun f => fragments parent !! fm_fragment f with
              | None => lfault
              | Some g => fail_at parent (bs "unterminated command substitution") ENONE (fr_start g)
              end
          end
      end
  end.

Definition eof : L csh_lex_result := let% x := get_lexer in eof_loop (S (length (frames x))).

(** ** Dollar *)

Inductive dollar_result : Type := DollarText | DollarConsumed | DollarMore | DollarCommand.

Definition set_body_begin : L unit :=
  let% x := get_lexer in
  match arithmetic x with
  | [] => lfault
  | c :: rest =>
      put_lexer (with_arithmetic x (mk_checkpoint (cp_source c) (cp_fragment_count c) (cp_frame_count c)
        (cp_command_length c) (length (raw x)) (cp_quote c) (cp_captures c) :: rest))
  end.

Definition dollar (q : csh_quote) : L dollar_result :=
  let% (next, physical) := lex_peek 1 in
  if next =? -2 then lret DollarMore
  else if next =? ch "{" then let% _ := push PARAMETER CSH_FRAGMENT_PARAMETER q physical in lret DollarConsumed
  else if next =? ch "(" then
    let% (third, third_physical) := lex_peek 2 in
    if third =? -2 then lret DollarMore
    else if third =? ch "(" then
      let% _ := checkpoint_arithmetic physical q in
      let% _ := push ARITHMETIC CSH_FRAGMENT_ARITHMETIC q third_physical in
      let% _ := set_body_begin in
      lret DollarConsumed
    else
      let% _ := push COMMAND CSH_FRAGMENT_COMMAND q physical in
      let% x := get_lexer in
      let% _ := put_lexer (with_modes x (comment x) true) in
      lret DollarCommand
  else if (next =? ch "'") && bool_decide (q = CSH_QUOTE_NONE) then
    let% _ := push DOLLAR_SINGLE CSH_FRAGMENT_QUOTED CSH_QUOTE_DOLLAR_SINGLE physical in lret DollarConsumed
  else if name_start next then
    let% _ := push SIMPLE CSH_FRAGMENT_PARAMETER q physical in lret DollarConsumed
  else if digit_byte next || ((0 <? next) && (next <? 256) && in_set next (bs "@*#?-$!")) then
    let% _ := push SIMPLE CSH_FRAGMENT_PARAMETER q physical in
    let% _ := pop 0 in lret DollarConsumed
  else lret DollarText.

(** ** The main loop *)

(** [replay(...) == 1 ? CSH_LEX_REPLAY : CSH_LEX_ERROR], with the cleared error. *)
Definition retry : L (option csh_lex_result) :=
  let% ok := csh_lexer_replay_arithmetic 0 no_error in
  if ok then lret (Some CSH_LEX_REPLAY) else (fun t => (Failed no_error, t)).

Definition set_frame (f : frame) : L unit :=
  let% x := get_lexer in put_lexer (with_frames x (f :: tail (frames x))).

Definition begin_word : L unit :=
  let% x := get_lexer in
  if active x then lret tt else
  let% _ := start_token in
  let% x := get_lexer in
  put_lexer (with_kind x CSH_TOKEN_WORD (operator_text x)).

Definition frame_is (f : option frame) (k : frame_kind) : bool :=
  match f with Some f => bool_decide (fm_kind f = k) | None => false end.

(** A closing parenthesis in an arithmetic frame with none open: [None] goes on. *)
Definition close_arithmetic : L (option (option csh_lex_result)) :=
  let% x := get_lexer in
  let% valid := probe_arithmetic x false in
  if negb valid then let% r := retry in lret (Some r) else
  let% (next, physical) := lex_peek 1 in
  if next =? -2 then lret (Some (Some CSH_LEX_MORE))
  else if next =? ch ")" then
    let% _ := pop physical in
    let% x := get_lexer in
    let% _ := put_lexer (with_arithmetic x (tail (arithmetic x))) in
    lret (Some None)
  else if negb (next =? -1) then let% r := retry in lret (Some r)
  else lret None.

(** The bytes of an arithmetic frame; [None] goes on with the byte. *)
Definition arithmetic_byte (f : frame) (b : byte) : L (option (option csh_lex_result)) :=
  if in_set b (bs ";'{}#@" ++ [34]) then let% r := retry in lret (Some r)
  else if b =? ch "(" then
    if fm_parentheses f =? SIZE_MAX then fail (bs "arithmetic nesting overflow") EOVERFLOW else
    let% _ := set_frame (mk_frame (fm_kind f) (fm_quote f) (fm_fragment f) (fm_parentheses f + 1) (fm_stage f)) in
    lret None
  else if b =? ch ")" then
    if negb (fm_parentheses f =? 0) then
      let% _ := set_frame (mk_frame (fm_kind f) (fm_quote f) (fm_fragment f) (fm_parentheses f - 1) (fm_stage f)) in
      lret None
    else close_arithmetic
  else lret None.

(** A backslash escapes what follows, in a context; [strchr] finds the NUL that
    ends its set.  34 is the double quote. *)
Definition escapes (f : option frame) (q : csh_quote) (document : bool) (next : Z) : bool :=
  let special := (next <? 256) && (in_set next (bs "$`\") || (next =? 0)) in
  if frame_is f BACKQUOTE then special || (bool_decide (q = CSH_QUOTE_DOUBLE) && (next =? 34))
  else negb (bool_decide (q = CSH_QUOTE_DOUBLE)) || special ||
       ((next =? 34) && negb (frame_is f ARITHMETIC) && negb (document && bool_decide (f = None))) ||
       (frame_is f PARAMETER && (next =? ch "}")).

(** A space, a newline or an operator outside of all frames. *)
Definition separator (b : byte) : L (option csh_lex_result) :=
  let% x := get_lexer in
  if active x then let% r := publish in lret (Some r)
  else if (b =? 32) || (b =? 9) then let% _ := consume 1 in lret None
  else
    let% _ := start_token in
    let% x := get_lexer in
    if b =? 10 then
      let% _ := put_lexer (with_kind x CSH_TOKEN_NEWLINE (operator_text x)) in
      let% _ := consume 1 in
      let% r := publish in lret (Some r)
    else
      let% _ := put_lexer (with_kind x (default (kind x) (operator_kind [b])) [b]) in
      let% _ := consume 1 in lret None.

(** The byte of a word that is not escaped: quotes, dollar, backquote, text. *)
Definition word_byte (f : option frame) (q : csh_quote) (b : byte) : L (option csh_lex_result) :=
  let% _ := begin_word in
  let% x := get_lexer in
  if (b =? 34) && negb (frame_is f ARITHMETIC) && negb (document x && bool_decide (f = None)) then
    let% _ := (if frame_is f DOUBLE then pop 1 else push DOUBLE CSH_FRAGMENT_QUOTED CSH_QUOTE_DOUBLE 1) in lret None
  else if (b =? ch "'") && bool_decide (q = CSH_QUOTE_NONE) then
    let% _ := push SINGLE CSH_FRAGMENT_QUOTED CSH_QUOTE_SINGLE 1 in lret None
  else
    let text :=
      if b =? ch "`" then let% _ := push BACKQUOTE CSH_FRAGMENT_BACKQUOTE q 1 in lret None
      else let% _ := piece CSH_FRAGMENT_TEXT q 1 in lret None in
    if b =? ch "$" then
      let% r := dollar q in
      match r with
      | DollarMore => lret (Some CSH_LEX_MORE)
      | DollarCommand => lret (Some CSH_LEX_COMMAND)
      | DollarConsumed => lret None
      | DollarText => text
      end
    else text.

(** From the test of single quotes on, for a one-byte character. *)
Definition plain_byte (f : option frame) (q : csh_quote) (b : byte) : L (option csh_lex_result) :=
  let% x := get_lexer in
  if frame_is f DOLLAR_SINGLE || frame_is f BACKQUOTE then
    let% _ := (if b =? (if frame_is f DOLLAR_SINGLE then ch "'" else ch "`")
               then pop 1 else piece CSH_FRAGMENT_TEXT q 1) in lret None
  else if negb (document x) && bool_decide (f = None) && ((b =? 32) || (b =? 9) || (b =? 10) || operator_char b)
  then separator b
  else if negb (document x) && negb (active x) && (b =? ch "#") then
    let% _ := put_lexer (with_modes x true (command x)) in lret None
  else word_byte f q b.

(** A backslash; [None] goes on with it as an ordinary byte. *)
Definition backslash (f : option frame) (q : csh_quote) : L (option (option csh_lex_result)) :=
  let% s := get_source in
  let% x := get_lexer in
  match drop (S (cursor s)) (data s) with
  | [] => if negb (final s) then lret (Some (Some CSH_LEX_MORE)) else fail (bs "unterminated escape") ENONE
  | (d :: _) as rest =>
      let width := csh_character_length rest true (final s) in
      if (width =? 0)%nat then lret (Some (Some CSH_LEX_MORE)) else
      let next := if (1 <? width)%nat then 256 else d in
      if frame_is f DOLLAR_SINGLE then let% _ := piece CSH_FRAGMENT_ESCAPE q (1 + width) in lret (Some None)
      else if (next =? 10) && negb (frame_is f BACKQUOTE && bool_decide (q = CSH_QUOTE_NONE)) then
        let% _ := (if active x then piece CSH_FRAGMENT_CONTINUATION q 2 else consume 2) in lret (Some None)
      else if escapes f q (document x) next then
        let% _ := begin_word in
        let% _ := piece CSH_FRAGMENT_ESCAPE q (1 + width) in lret (Some None)
      else lret None
  end.

(** Single-byte characters, by the innermost frame. *)
Definition byte_step (f : option frame) (q : csh_quote) (b : byte) : L (option csh_lex_result) :=
  if frame_is f SINGLE then
    let% _ := (if b =? ch "'" then pop 1 else piece CSH_FRAGMENT_TEXT q 1) in lret None
  else if frame_is f PARAMETER && (b =? ch "}") then let% _ := pop 1 in lret None
  else
    let% (f, q) := (match f with
      | Some g =>
          if bool_decide (fm_kind g = PARAMETER) && negb (b =? ch "\") then
            let g := parameter_context g b in
            let% _ := set_frame g in lret (Some g, fm_quote g)
          else lret (f, if bool_decide (fm_kind g = ARITHMETIC) then CSH_QUOTE_DOUBLE else q)
      | None => lret (f, q)
      end) in
    let% r := (match f with
      | Some g => if bool_decide (fm_kind g = ARITHMETIC) then arithmetic_byte g b else lret None
      | None => lret None
      end) in
    match r with
    | Some r => lret r
    | None =>
        let% r := (if b =? ch "\" then backslash f q else lret None) in
        match r with
        | Some r => lret r
        | None => plain_byte f q b
        end
    end.

(** One turn of the loop of [next_token]; [None] goes round again. *)
Definition lex_step : L (option csh_lex_result) :=
  let% s := get_source in
  let% x := get_lexer in
  let f := head (frames x) in
  let q := match f with
    | Some g => fm_quote g
    | None => if document x then CSH_QUOTE_DOUBLE else CSH_QUOTE_NONE
    end in
  if active x && negb (bool_decide (kind x = CSH_TOKEN_WORD)) then let% r := operator_step 4 in lret (Some r) else
  match drop (cursor s) (data s) with
  | [] => if negb (final s) then lret (Some CSH_LEX_MORE) else let% r := eof in lret (Some r)
  | (b :: _) as text =>
      if b =? 0 then fail (bs "NUL byte in shell input") ENONE else
      if comment x && negb (b =? 10) then let% _ := consume 1 in lret None else
      let% _ := put_lexer (with_modes x false (command x)) in
      if frame_is f SIMPLE then
        let% (next, physical) := lex_peek 0 in
        if next =? -2 then lret (Some CSH_LEX_MORE)
        else let% _ := (if negb (name_char next) then pop 0 else delimiter physical q) in lret None
      else
        let width := csh_character_length text true (final s) in
        if (width =? 0)%nat then lret (Some CSH_LEX_MORE) else
        if (1 <? width)%nat then
          let% _ := begin_word in
          let% q := (match f with
            | Some g =>
                if bool_decide (fm_kind g = PARAMETER) then
                  let g := parameter_context g 256 in let% _ := set_frame g in lret (fm_quote g)
                else lret q
            | None => lret q
            end) in
          let% _ := piece CSH_FRAGMENT_TEXT q width in lret None
        else byte_step f q b
  end.

Fixpoint next_loop (fuel : nat) : L csh_lex_result :=
  match fuel with
  | O => lfault
  | S n => let% r := lex_step in match r with Some r => lret r | None => next_loop n end
  end.

(** Enough turns for the bytes at hand: see [csh_lexer_next_total]. *)
Definition turns (t : tape) : nat :=
  let s := t_source t in
  4 * length (drop (cursor s) (data s)) + 2 + match t_lexers t with x :: _ => length (frames x) | [] => 0 end.

Definition next_token : L csh_lex_result :=
  let% s := get_source in
  let% x := get_lexer in
  if has_failed s then (fun t => (Failed (failure s), t)) else
  if command x then lret CSH_LEX_COMMAND else
  fun t => next_loop (turns t) t.

Definition csh_lexer_next : L csh_lex_result := fun t =>
  match next_token t with
  | (Failed e, t') =>
      if has_failed (t_source t) then (Failed e, t')
      else match t_lexers t' with
      | x :: _ =>
          if bool_decide (arithmetic x = []) then (Failed e, t')
          else match csh_lexer_replay_arithmetic 0 e t' with
          | (Done true, t'') => (Done CSH_LEX_REPLAY, t'')
          | (Done false, t'') => (Failed e, t'')
          | (Failed e', t'') => (Failed e', t'')
          | (Fault, t'') => (Fault, t'')
          end
      | [] => (Failed e, t')
      end
  | r => r
  end.

(** ** Command substitutions *)

Definition csh_lexer_command_fragment (t : tape) : option nat :=
  match t_lexers t with
  | x :: _ => if command x then fm_fragment <$> head (frames x) else None
  | [] => None
  end.

(** The child becomes the first lexer. *)
Definition csh_lexer_command_begin : L unit :=
  let% s := get_source in
  if has_failed s then (fun t => (Failed (failure s), t)) else
  let% x := get_lexer in
  if negb (command x) then fail (bs "no pending command substitution") EINVAL else
  let% ok := lmalloc in
  if negb ok then fail (bs "cannot allocate command lexer") ENOMEM else
  let% l := get_lexers in put_lexers (fresh_lexer false :: l).

(** The first lexer is the child, the second its parent. *)
Definition csh_lexer_command_end (closing : option csh_token) : L unit :=
  let% s := get_source in
  if has_failed s then (fun t => (Failed (failure s), t)) else
  let% l := get_lexers in
  match l with
  | child :: parent :: behind =>
      let matching := match closing with
        | Some c =>
            command parent && negb (active child) && has_last child &&
            bool_decide (tk_kind c = CSH_TOKEN_RPAREN) && bool_decide (last_kind child = CSH_TOKEN_RPAREN) &&
            (offset (tk_start c) =? offset (last_start child)) && (offset (tk_end c) =? offset (last_end child)) &&
            (last_sequence child =? sequence s)
        | None => false
        end in
      if negb matching then fail_at parent (bs "invalid command-substitution boundary") EINVAL (so_position s) else
      let% _ := put_lexers (with_modes parent (comment parent) false :: behind) in
      pop 0
  | _ => lfault
  end.

(** ** Aliases *)

Definition csh_lexer_alias_active (t : tape) (name : option str) : bool :=
  match name with
  | None => false
  | Some n => existsb (fun a => str_eqb (as_name a) n) (so_aliases (t_source t))
  end.

Definition csh_lexer_follows_redirection : L bool :=
  let% (b, _) := lex_peek 0 in lret ((b =? ch "<") || (b =? ch ">")).

Definition ends_in_blank (value : str) : bool :=
  match last value with Some b => (b =? 32) || (b =? 9) | None => false end.

Definition csh_lexer_alias_push (token : option csh_token) (name value : option str) : L unit :=
  let% s := get_source in
  if has_failed s then (fun t => (Failed (failure s), t)) else
  let% x := get_lexer in
  let% l := get_lexers in
  let invalid {A} : L A := fail (bs "invalid alias substitution boundary") EINVAL in
  match token, name, value with
  | Some k, Some n, Some v =>
      if bool_decide (n = []) || active x || negb (has_last x) ||
         negb (bool_decide (tk_kind k = CSH_TOKEN_WORD)) || negb (bool_decide (last_kind x = CSH_TOKEN_WORD)) ||
         negb (offset (tk_start k) =? offset (last_start x)) || negb (offset (tk_end k) =? offset (last_end x)) ||
         negb (last_sequence x =? sequence s) || existsb (fun a => str_eqb (as_name a) n) (so_aliases s)
      then invalid
      else if (slen v =? SIZE_MAX) || (SIZE_MAX - slen v - 1 <? slen (data s)) ||
              (Z.of_nat (length (so_aliases s)) =? SIZE_MAX) || (SIZE_MAX - 7 <? slen n)
      then fail (bs "alias source is too large") EOVERFLOW else
      let added := S (length v) in
      let% ok1 := lmalloc in let% ok2 := lmalloc in let% ok3 := lmalloc in
      if negb (ok1 && ok2 && ok3) then fail (bs "cannot allocate alias source") ENOMEM else
      let a := mk_alias_source n (bs "alias:" ++ n) (default (tk_source_name k) (tk_invocation_source k))
        (match tk_invocation_source k with Some _ => tk_invocation k | None => tk_start k end)
        (so_position s) (cursor s + added) (length l - 1) (ends_in_blank v) in
      let% _ := grow (S (length (so_aliases s))) sizeof_alias_source (bs "cannot grow alias input") in
      let% _ := grow (length (data s) + added) 1 (bs "cannot grow alias input") in
      let text := take (cursor s) (data s) ++ v ++ [32] ++ drop (cursor s) (data s) in
      let% _ := put_source (no_look (with_eligible
        (with_so_position (with_data s text (cursor s)
           (a :: map (fun b => with_end b (as_end b + added)) (so_aliases s))) (mk_position 0 1 1))
        (negb (bool_decide (v = [])) && tk_alias_eligible k))) in
      let% x := get_lexer in put_lexer (with_has_last x false)
  | _, _, _ => invalid
  end.

(** ** Raw input *)

Definition csh_lexer_pending (t : tape) : str * csh_position * bool :=
  let s := t_source t in (drop (cursor s) (data s), so_position s, final s).

Definition csh_lexer_skip_raw (count : nat) : L unit :=
  let% s := get_source in
  if has_failed s then (fun t => (Failed (failure s), t)) else
  let% x := get_lexer in
  if active x || comment x || (length (data s) - cursor s <? count)%nat
  then fail (bs "invalid raw input handoff") EINVAL else
  let% _ := put_lexer (with_has_last x false) in
  consume count.
End Arithmetic.
