(* ===== verification/LexerLook.v ===== *)
(** * Lookahead of the lexer: the cache and the reference scan

    [lex_peek] resumes a scan that it keeps in the source.  [logical] is the
    scan from the start; a coherent cache is a prefix of it, so that every
    answer is that of the reference.  The answers other than -2 do not change
    when more bytes are fed. *)

From stdpp Require Import base list gmap strings.
From S2P Require Import Prelude Output State Arithmetic Character Expansion Lexer.

(** What C says of [mbrlen]: a result other than "incomplete" is decided by the
    bytes it has looked at, so bytes behind them do not change it. *)
Class StableLocale (L : Locale) : Prop :=
  mbrlen_stable : forall ctx s t, loc_mbrlen ctx s <> MbIncomplete -> loc_mbrlen ctx (s ++ t) = loc_mbrlen ctx s.

#[export] Instance c_locale_stable : StableLocale c_locale.
Proof. intros ctx [|b s] t; [done|]. reflexivity. Qed.

Definition text (s : source) : str := drop (cursor s) (data s).

Section Scan.
Context {loc : Locale} {LL : LocaleLaws loc} {ST : StableLocale loc}.

Lemma width_bound s last : (csh_character_length s true last <= length s)%nat.
Proof.
  unfold csh_character_length. destruct s as [|b s]; [done|]. destruct (b <? 128); [simpl; lia|].
  destruct (loc_mbrlen _ _) eqn:E; try (destruct last; simpl; lia). apply mbrlen_bound in E. lia.
Qed.

Lemma width_final s : s <> [] -> (csh_character_length s true true <> 0)%nat.
Proof. intros Hs. pose proof (csh_character_length_bound s true Hs). lia. Qed.

Lemma width_stable s t last : (csh_character_length s true false <> 0)%nat ->
  csh_character_length (s ++ t) true last = csh_character_length s true false.
Proof.
  unfold csh_character_length. destruct s as [|b s]; [done|]. cbn [app]. destruct (b <? 128); [done|].
  intros H. rewrite app_comm_cons. assert (loc_mbrlen (true && loc_startup) (b :: s) <> MbIncomplete) as Hne.
  { intros E. by rewrite E in H. }
  rewrite (mbrlen_stable _ (b :: s) t Hne). destruct (loc_mbrlen _ (b :: s)); [done|by destruct Hne|done|done].
Qed.

(** The start of every logical character from [scan] on, the answer behind the
    last one, and where the scan stops. *)
Fixpoint logical (fuel : nat) (s : str) (last : bool) (scan : nat) : list nat * Z * nat :=
  match fuel with
  | O => ([], -2, scan)
  | S f =>
      let character :=
        let width := csh_character_length (drop scan s) true last in
        if (width =? 0)%nat then ([], -2, scan)
        else let '(l, z, k) := logical f s last (scan + width) in (scan :: l, z, k) in
      match drop scan s with
      | [] => ([], if last then -1 else -2, scan)
      | c :: rest =>
          if c =? ch "\" then
            match rest with
            | [] => if last then character else ([], -2, scan)
            | d :: _ => if d =? 10 then logical f s last (scan + 2) else character
            end
          else character
      end
  end.

Lemma drop_lt {A} n (l : list A) x r : drop n l = x :: r -> (n < length l)%nat /\ drop (S n) l = r.
Proof.
  intros E. split.
  - destruct (Nat.lt_ge_cases n (length l)); [done|]. by rewrite drop_ge in E.
  - rewrite <- Nat.add_1_r, <- drop_drop, E. done.
Qed.

Lemma logical_fuel f g s last scan : (length s - scan < f)%nat -> (length s - scan < g)%nat ->
  logical f s last scan = logical g s last scan.
Proof.
  revert g scan. induction f as [|f IH]; intros [|g] scan Hf Hg; [lia..|]. cbn [logical].
  destruct (drop scan s) as [|c rest] eqn:E; [done|]. apply drop_lt in E as E'. destruct E' as [Hlt _].
  assert (forall w, (w <> 0)%nat -> logical f s last (scan + w) = logical g s last (scan + w)) as Hw.
  { intros w Hw. apply IH; lia. }
  assert (Hwb : csh_character_length (drop scan s) true last = 0%nat \/ csh_character_length (drop scan s) true last <> 0%nat) by lia.
  rewrite E in Hwb.
  destruct (c =? ch "\"); [destruct rest as [|d r]; [destruct last; [|done]|destruct (d =? 10)]|].
  2: by apply Hw.
  all: destruct (csh_character_length _ true _ =? 0)%nat eqn:Ew; [done|]; apply Nat.eqb_neq in Ew; by rewrite Hw.
Qed.

Definition characters (s : str) (last : bool) : list nat * Z * nat := logical (S (length s)) s last 0.

(** The reference for [lex_peek]. *)
Definition peek_spec (s : str) (last : bool) (wanted : nat) : Z * nat :=
  let '(l, z, _) := characters s last in
  match l !! wanted with
  | None => (z, 0%nat)
  | Some p =>
      let width := csh_character_length (drop p s) true last in
      (if (1 <? width)%nat then 256 else default 0 (s !! p), (p + width)%nat)
  end.

(** A coherent cache: the positions found and the scan that is left make up the
    reference scan. *)
Definition cache_ok (s : source) : Prop :=
  look_valid s = true -> look_offset s = offset (so_position s) ->
  characters (text s) (final s) =
    let '(l, z, k) := logical (S (length (text s))) (text s) (final s) (look_scan s) in (look_positions s ++ l, z, k).

(** The cached loop reaches the wanted character, or the end, of the scan. *)
Lemma look_loop_spec f s last wanted scan positions : (length s - scan < f)%nat ->
  exists answer scan' positions', look_loop f s last wanted scan positions = Some (answer, scan', positions') /\
    (let '(l, z, k) := logical (S (length s)) s last scan in
     let '(l', z', k') := logical (S (length s)) s last scan' in
     positions ++ l = positions' ++ l' /\ z = z' /\ k = k' /\
     match answer with
     | None => (wanted < length positions')%nat
     | Some a => a = z' /\ l' = [] /\ (length positions' <= wanted)%nat
     end).
Proof.
  revert scan positions. induction f as [|f IH]; intros scan positions Hf; [lia|]. cbn [look_loop].
  destruct (Nat.ltb_spec wanted (length positions)) as [Hw|Hw].
  { exists None, scan, positions. split; [done|]. destruct (logical _ _ _ _) as [[l z] k]. done. }
  assert (Hstuck : forall a, logical (S (length s)) s last scan = ([], a, scan) ->
    exists answer scan' positions', Some (Some a, scan, positions) = Some (answer, scan', positions') /\
    (let '(l, z, k) := logical (S (length s)) s last scan in
     let '(l', z', k') := logical (S (length s)) s last scan' in
     positions ++ l = positions' ++ l' /\ z = z' /\ k = k' /\
     match answer with
     | None => (wanted < length positions')%nat
     | Some a => a = z' /\ l' = [] /\ (length positions' <= wanted)%nat
     end)).
  { intros a E. exists (Some a), scan, positions. split; [done|]. by rewrite E. }
  set (concl := fun (r : option (option Z * nat * list nat)) => exists answer scan' positions', r = Some (answer, scan', positions') /\
    (let '(l, z, k) := logical (S (length s)) s last scan in
     let '(l', z', k') := logical (S (length s)) s last scan' in
     positions ++ l = positions' ++ l' /\ z = z' /\ k = k' /\
     match answer with
     | None => (wanted < length positions')%nat
     | Some a => a = z' /\ l' = [] /\ (length positions' <= wanted)%nat
     end)) in *.
  assert (Hunfold : logical (S (length s)) s last scan =
    match drop scan s with
    | [] => ([], if last then -1 else -2, scan)
    | c :: rest =>
        let character :=
          let width := csh_character_length (drop scan s) true last in
          if (width =? 0)%nat then ([], -2, scan)
          else let '(l, z, k) := logical (S (length s)) s last (scan + width) in (scan :: l, z, k) in
        if c =? ch "\" then
          match rest with
          | [] => if last then character else ([], -2, scan)
          | d :: _ => if d =? 10 then logical (S (length s)) s last (scan + 2) else character
          end
        else character
    end).
  { cbn [logical]. destruct (drop scan s) as [|c rest] eqn:E; [done|]. apply drop_lt in E as E'. destruct E' as [Hlt _].
    assert (forall w, (w <> 0)%nat -> logical (length s) s last (scan + w) = logical (S (length s)) s last (scan + w)) as H1
      by (intros; apply logical_fuel; lia).
    destruct (c =? ch "\"); [destruct rest as [|d r]; [destruct last; [|done]|destruct (d =? 10)]|].
    2: by apply H1.
    all: destruct (csh_character_length _ true _ =? 0)%nat eqn:Ew; [done|]; apply Nat.eqb_neq in Ew; by rewrite H1. }
  assert (Hchar : logical (S (length s)) s last scan =
      (let width := csh_character_length (drop scan s) true last in
       if (width =? 0)%nat then ([], -2, scan)
       else let '(l, z, k) := logical (S (length s)) s last (scan + width) in (scan :: l, z, k)) ->
    (scan < length s)%nat ->
    concl (let width := csh_character_length (drop scan s) true last in
       if (width =? 0)%nat then Some (Some (-2), scan, positions)
       else look_loop f s last wanted (scan + width) (positions ++ [scan]))).
  { intros E Hlt. cbv zeta in *. destruct (csh_character_length (drop scan s) true last =? 0)%nat eqn:Ew; [by apply Hstuck|].
    apply Nat.eqb_neq in Ew.
    destruct (IH (scan + csh_character_length (drop scan s) true last)%nat (positions ++ [scan])) as (an & sc & po & E1 & E2); [lia|].
    exists an, sc, po. split; [done|]. rewrite E. destruct (logical _ _ _ (scan + _)) as [[l z] k], (logical _ _ _ sc) as [[l' z'] k'].
    destruct E2 as (E2 & ? & ?). split; [|done]. by rewrite <- E2, <- app_assoc. }
  destruct (drop scan s) as [|c rest] eqn:E; [by apply Hstuck|]. apply drop_lt in E as E'. destruct E' as [Hlt _].
  destruct (c =? ch "\").
  - destruct rest as [|d r].
    + destruct last; [by apply Hchar|by apply Hstuck].
    + destruct (d =? 10); [|by apply Hchar].
      destruct (IH (scan + 2)%nat positions) as (an & sc & po & E1 & E2); [lia|]. exists an, sc, po. split; [done|].
      by rewrite Hunfold.
  - by apply Hchar.
Qed.

Definition starts (r : list nat * Z * nat) : list nat := fst (fst r).

Lemma logical_bounds f s last scan : Forall (fun p => p < length s)%nat (starts (logical f s last scan)).
Proof.
  revert scan. induction f as [|f IH]; intros scan; [constructor|]. cbn [logical].
  destruct (drop scan s) as [|c rest] eqn:E; [constructor|]. apply drop_lt in E as E'. destruct E' as [Hlt _].
  assert (Forall (fun p => p < length s)%nat (starts
    (if (csh_character_length (drop scan s) true last =? 0)%nat then ([], -2, scan)
     else let '(l, z, k) := logical f s last (scan + csh_character_length (drop scan s) true last) in (scan :: l, z, k)))) as Hc.
  { destruct (_ =? 0)%nat; [constructor|]. specialize (IH (scan + csh_character_length (drop scan s) true last)%nat).
    destruct (logical _ _ _ _) as [[l z] k]. by constructor. }
  rewrite E in Hc. destruct (c =? ch "\"); [destruct rest as [|d r]; [destruct last; [done|constructor]|]|done].
  destruct (d =? 10); [apply IH|done].
Qed.

Definition set_source (t : tape) (s : source) : tape := mk_tape s (t_lexers t) (t_stack t) (t_proc t).

(** The sources that differ at most in the cache. *)
Definition same_but_look (s s' : source) : Prop :=
  so_name s' = so_name s /\ data s' = data s /\ cursor s' = cursor s /\ so_position s' = so_position s /\
  so_aliases s' = so_aliases s /\ sequence s' = sequence s /\ alias_eligible s' = alias_eligible s /\
  final s' = final s /\ failure s' = failure s.

(** The cached lookahead gives the answers of the reference scan, keeps its
    cache coherent and changes nothing else. *)
Lemma lex_peek_run wanted t : cache_ok (t_source t) ->
  exists s', lex_peek wanted t = (Done (peek_spec (text (t_source t)) (final (t_source t)) wanted), set_source t s') /\
    same_but_look (t_source t) s' /\ cache_ok s'.
Proof.
  intros Hc. unfold lex_peek, get_source, lbind. cbn beta iota. set (s := t_source t) in *. fold (text s).
  set (s0 := if look_valid s && (look_offset s =? offset (so_position s)) then s
             else with_look s (offset (so_position s)) 0 [] true).
  assert (same_but_look s s0 /\ look_offset s0 = offset (so_position s) /\
    characters (text s) (final s) =
    let '(l, z, k) := logical (S (length (text s))) (text s) (final s) (look_scan s0) in (look_positions s0 ++ l, z, k))
    as (Hs0 & Hoff & Hfull).
  { subst s0. destruct (look_valid s) eqn:Ev; [destruct (Z.eqb_spec (look_offset s) (offset (so_position s)))|]; cbn [andb].
    1: split_and!; [by repeat split|done|by apply Hc].
    all: split_and!; [by repeat split|done|]; unfold characters; cbn [look_scan look_positions with_look app]; by destruct (logical _ _ _ _) as [[l z] k]. }
  pose proof (logical_bounds (S (length (text s))) (text s) (final s) 0) as Hb. fold (characters (text s) (final s)) in Hb.
  destruct Hs0 as (E1 & E2 & E3 & E4 & E5 & E6 & E7 & E8 & E9). rewrite E8.
  destruct (look_loop_spec (S (length (text s))) (text s) (final s) wanted (look_scan s0) (look_positions s0))
    as (answer & scan & positions & Hrun & Hspec); [lia|]. rewrite Hrun.
  destruct (logical _ _ _ (look_scan s0)) as [[l z] k]. destruct (logical _ _ _ scan) as [[l' z'] k'] eqn:El'.
  destruct Hspec as (Hl & <- & <- & Ha). unfold put_source. cbv beta iota.
  exists (with_look s0 (look_offset s0) scan positions true).
  assert (cache_ok (with_look s0 (look_offset s0) scan positions true)) as Hc'.
  { intros _ _. assert (text (with_look s0 (look_offset s0) scan positions true) = text s) as -> by (unfold text; cbn; by rewrite E2, E3).
    cbn [final with_look look_scan look_positions]. by rewrite E8, El', Hfull, Hl. }
  assert (same_but_look s (with_look s0 (look_offset s0) scan positions true)) as Hsame by (split_and!; done).
  unfold peek_spec. rewrite Hfull in Hb |- *. rewrite Hl in Hb |- *. destruct answer as [a|].
  - destruct Ha as (-> & -> & Hle). rewrite lookup_ge_None_2 by (rewrite length_app; simpl; lia).
    unfold lret. split; [done|]. split; [done|]. exact Hc'.
  - destruct (lookup_lt_is_Some_2 positions wanted Ha) as [p Hp]. rewrite Hp, (lookup_app_l_Some _ _ _ _ Hp).
    rewrite Forall_lookup in Hb. specialize (Hb wanted p). cbn in Hb. rewrite (lookup_app_l_Some _ _ _ _ Hp) in Hb.
    destruct (lookup_lt_is_Some_2 (text s) p (Hb eq_refl)) as [c Ec]. rewrite Ec. cbn [default].
    unfold lret. split; [done|]. split; [done|]. exact Hc'.
Qed.

(** ** Bytes fed behind *)

(** Every character that is known before stays, and the scan goes on from where
    it stopped. *)
Lemma logical_stable f s t last scan l z k : (length s - scan < f)%nat -> logical f s false scan = (l, z, k) ->
  z = -2 /\ (scan <= k)%nat /\ (forall g, (length (s ++ t) - scan < g)%nat -> logical g (s ++ t) last scan =
    let '(l', z', k') := logical g (s ++ t) last k in (l ++ l', z', k')) /\
  (forall p, p ∈ l -> csh_character_length (drop p (s ++ t)) true last = csh_character_length (drop p s) true false).
Proof.
  revert scan l z k. induction f as [|f IH]; intros scan l z k Hf; [lia|]. cbn [logical].
  set (concl := fun (l : list nat) (z : Z) (k : nat) => z = -2 /\ (scan <= k)%nat /\
    (forall g, (length (s ++ t) - scan < g)%nat -> logical g (s ++ t) last scan =
    let '(l', z', k') := logical g (s ++ t) last k in (l ++ l', z', k')) /\
    (forall p, p ∈ l -> csh_character_length (drop p (s ++ t)) true last = csh_character_length (drop p s) true false)).
  assert (([], -2, scan) = (l, z, k) -> concl l z k) as Hstop.
  { intros [= <- <- <-]. split; [done|]. split; [done|]. split.
    - intros g _. by destruct (logical g (s ++ t) last scan) as [[l' z'] k'].
    - intros p Hp. by apply elem_of_nil in Hp. }
  destruct (drop scan s) as [|c rest] eqn:E; [exact Hstop|]. apply drop_lt in E as E'. destruct E' as [Hlt _].
  assert (drop scan (s ++ t) = c :: (rest ++ t)) as Et by (rewrite drop_app_le by lia; by rewrite E).
  assert ((if (csh_character_length (c :: rest) true false =? 0)%nat then ([], -2, scan)
      else let '(l, z, k) := logical f s false (scan + csh_character_length (c :: rest) true false) in (scan :: l, z, k)) = (l, z, k) ->
    (forall g', logical (S g') (s ++ t) last scan = (let width := csh_character_length (c :: rest ++ t) true last in
       if (width =? 0)%nat then ([], -2, scan) else let '(l, z, k) := logical g' (s ++ t) last (scan + width) in (scan :: l, z, k))) ->
    concl l z k) as Hchar.
  { destruct (_ =? 0)%nat eqn:Ew; [intros H _; by apply Hstop|]. apply Nat.eqb_neq in Ew.
    destruct (logical f s false _) as [[l1 z1] k1] eqn:E1. intros [= <- <- <-] Hg.
    apply IH in E1 as (-> & Hk & E1 & E2); [|lia]. split; [done|]. split; [lia|]. split.
    - intros [|g] Hlen; [lia|]. rewrite Hg. cbv zeta.
      assert (csh_character_length (c :: rest ++ t) true last = csh_character_length (c :: rest) true false) as ->
        by (rewrite app_comm_cons; by apply width_stable).
      rewrite (proj2 (Nat.eqb_neq _ _) Ew).
      assert (forall q, (scan + csh_character_length (c :: rest) true false <= q)%nat ->
        logical g (s ++ t) last q = logical (S g) (s ++ t) last q) as Hq
        by (intros q Hq; pose proof (length_app s t); apply logical_fuel; lia).
      rewrite Hq by lia. rewrite E1 by (rewrite length_app in *; lia).
      by destruct (logical (S g) (s ++ t) last k1) as [[l' z'] k'].
    - intros p [->|Hp]%elem_of_cons; [|by apply E2]. rewrite Et, E, app_comm_cons. by apply width_stable. }
  destruct (c =? ch "\") eqn:Ec.
  - destruct rest as [|d r]; [exact Hstop|]. destruct (d =? 10) eqn:Ed.
    + intros H. apply IH in H as (-> & Hk & H1 & H2); [|lia]. split; [done|]. split; [lia|]. split; [|exact H2].
      intros [|g] Hlen; [lia|]. transitivity (logical g (s ++ t) last (scan + 2)).
      { cbn [logical]. rewrite Et, Ec. cbn [app]. by rewrite Ed. }
      transitivity (logical (S g) (s ++ t) last (scan + 2)); [|apply H1; lia].
      pose proof (length_app s t). apply logical_fuel; lia.
    + intros H. apply Hchar; [done|]. intros g. cbn [logical]. rewrite Et, Ec. cbn [app]. cbv zeta. rewrite Ed. reflexivity.
  - intros H. apply Hchar; [done|]. intros g. cbn [logical]. by rewrite Et, Ec.
Qed.

(** An answer that does not ask for more input is the answer for every
    continuation of the source. *)
Lemma peek_spec_stable s t last wanted : fst (peek_spec s false wanted) <> -2 ->
  peek_spec (s ++ t) last wanted = peek_spec s false wanted.
Proof.
  unfold peek_spec, characters. destruct (logical (S (length s)) s false 0) as [[l z] k] eqn:E.
  pose proof (logical_bounds (S (length s)) s false 0) as Hb. rewrite E in Hb. cbn [starts fst] in Hb.
  eapply (logical_stable _ _ t last) in E as (-> & _ & E & Hw); [|lia]. rewrite E by lia.
  destruct (logical _ _ _ k) as [[l' z'] k'].
  destruct (l !! wanted) as [p|] eqn:Ep; [|done]. rewrite (lookup_app_l_Some _ _ _ _ Ep). intros _.
  rewrite Hw by by eapply list_elem_of_lookup_2. rewrite Forall_lookup in Hb. specialize (Hb _ _ Ep). cbn in Hb.
  by rewrite lookup_app_l.
Qed.

Lemma logical_answer f s last scan l z k : (length s - scan < f)%nat -> logical f s last scan = (l, z, k) ->
  z = (if last then -1 else -2) /\
  forall i p, l !! i = Some p -> (scan + i <= p)%nat /\ (p + csh_character_length (drop p s) true last <= length s)%nat /\
    (1 <= csh_character_length (drop p s) true last)%nat.
Proof.
  revert scan l z k. induction f as [|f IH]; intros scan l z k Hf; [lia|]. cbn [logical].
  destruct (drop scan s) as [|c rest] eqn:E; [by intros [= <- <- <-]|]. apply drop_lt in E as E'. destruct E' as [Hlt _].
  assert (csh_character_length (c :: rest) true last = 0%nat -> last = false) as Hfinal.
  { intros Hw. destruct last; [|done]. by apply (width_final (c :: rest)) in Hw. }
  assert ((if (csh_character_length (c :: rest) true last =? 0)%nat then ([], -2, scan)
      else let '(l, z, k) := logical f s last (scan + csh_character_length (c :: rest) true last) in (scan :: l, z, k)) = (l, z, k) ->
    z = (if last then -1 else -2) /\
    forall i p, l !! i = Some p -> (scan + i <= p)%nat /\ (p + csh_character_length (drop p s) true last <= length s)%nat /\
      (1 <= csh_character_length (drop p s) true last)%nat) as Hchar.
  { destruct (_ =? 0)%nat eqn:Ew.
    - apply Nat.eqb_eq, Hfinal in Ew as ->. by intros [= <- <- <-].
    - apply Nat.eqb_neq in Ew. destruct (logical f s last _) as [[l1 z1] k1] eqn:E1. intros [= <- <- <-].
      apply IH in E1 as [-> E1]; [|lia]. split; [done|]. intros [|i] p; simpl.
      + intros [= <-]. rewrite E. pose proof (width_bound (c :: rest) last) as Hb.
        apply (f_equal length) in E. rewrite length_drop in E. rewrite <- E in Hb. lia.
      + intros Hi. apply E1 in Hi. lia. }
  destruct (c =? ch "\"); [|exact Hchar].
  destruct rest as [|d r]; [destruct last; [exact Hchar|by intros [= <- <- <-]]|].
  destruct (d =? 10); [|exact Hchar]. intros H. apply IH in H as [-> H]; [|lia]. split; [done|].
  intros i p Hi. apply H in Hi. lia.
Qed.

(** An answer is the end of the source, or a character within the text. *)
Lemma peek_spec_bounds s last wanted z p : peek_spec s last wanted = (z, p) ->
  (z = (if last then -1 else -2) /\ p = 0%nat) \/ (wanted < p <= length s)%nat.
Proof.
  unfold peek_spec, characters. destruct (logical _ _ _ _) as [[l a] k] eqn:E.
  apply logical_answer in E as [-> E]; [|lia]. destruct (l !! wanted) as [q|] eqn:Eq.
  - apply E in Eq. intros [= _ <-]. right. lia.
  - intros [= <- <-]. by left.
Qed.

(** Bytes that are fed keep the cache coherent. *)
Lemma cache_ok_fed s d last : cache_ok s -> final s = false -> (cursor s <= length (data s))%nat ->
  cache_ok (with_final (with_data s (data s ++ d) (cursor s) (so_aliases s)) last).
Proof.
  intros Hc Hf Hr Hv Ho. specialize (Hc Hv Ho). rewrite Hf in Hc.
  assert (text (with_final (with_data s (data s ++ d) (cursor s) (so_aliases s)) last) = text s ++ d) as Et
    by (unfold text; cbn; by rewrite drop_app_le).
  rewrite Et. cbn [final with_final look_scan look_positions with_data]. unfold characters in *.
  destruct (logical _ _ _ 0) as [[l0 z0] k0] eqn:E0. destruct (logical _ _ _ (look_scan s)) as [[l z] k] eqn:E1.
  injection Hc as -> -> ->.
  eapply (logical_stable _ _ d last) in E0 as (-> & _ & E0 & _); [|lia].
  eapply (logical_stable _ _ d last) in E1 as (_ & _ & E1 & _); [|lia].
  rewrite E0, E1 by lia. destruct (logical _ _ _ k) as [[l' z'] k']. by rewrite app_assoc.
Qed.
End Scan.
