(* ===== verification/LexerTree.v ===== *)
(** * The lexer never leaves its buffers and always returns

    [tape_ok] is the invariant of the tape: the fragments of every pending word
    form a preorder tree whose open nodes are its frames, every arithmetic frame
    has the checkpoint that takes the tape back to its start, and the flags of
    the active lexer agree with its word.  [lpost] is the logic of calls: no
    fault, a result or an error with their postconditions. *)

From stdpp Require Import base list gmap strings sorting.
From S2P Require Import Prelude Output State Arithmetic ArithmeticTheorems Character Expansion Lexer LexerLook.

(** ** The logic of calls *)

Definition lpost {A} (m : L A) (t : tape) (Q : A -> tape -> Prop) (E : csh_error -> tape -> Prop) : Prop :=
  match m t with
  | (Done a, t') => Q a t'
  | (Failed e, t') => E e t'
  | (Fault, _) => False
  end.

Lemma lpost_ret {A} (a : A) t (Q : A -> tape -> Prop) E : Q a t -> lpost (lret a) t Q E.
Proof. done. Qed.

Lemma lpost_bind {A B} (m : L A) (f : A -> L B) t Q E :
  lpost m t (fun a t' => lpost (f a) t' Q E) E -> lpost (lbind m f) t Q E.
Proof. unfold lpost, lbind. by destruct (m t) as [[|e|a] t']. Qed.

Lemma lpost_mono {A} (m : L A) t (Q Q' : A -> tape -> Prop) E :
  lpost m t Q E -> (forall a t', Q a t' -> Q' a t') -> lpost m t Q' E.
Proof. unfold lpost. destruct (m t) as [[|e|a] t']; auto. Qed.

Lemma lpost_get_source {B} (f : source -> L B) t Q E :
  lpost (f (t_source t)) t Q E -> lpost (lbind get_source f) t Q E.
Proof. done. Qed.
Lemma lpost_get_lexers {B} (f : list csh_lexer -> L B) t Q E :
  lpost (f (t_lexers t)) t Q E -> lpost (lbind get_lexers f) t Q E.
Proof. done. Qed.
Lemma lpost_get_lexer {B} x behind (f : csh_lexer -> L B) t Q E : t_lexers t = x :: behind ->
  lpost (f x) t Q E -> lpost (lbind get_lexer f) t Q E.
Proof. intros Et. unfold lpost, lbind, get_lexer. by rewrite Et. Qed.

Definition set_lexers (t : tape) (l : list csh_lexer) : tape := mk_tape (t_source t) l (t_stack t) (t_proc t).
Definition set_proc (t : tape) (w : proc) : tape := mk_tape (t_source t) (t_lexers t) (t_stack t) w.

Lemma lpost_put_source {B} s (f : unit -> L B) t Q E :
  lpost (f tt) (set_source t s) Q E -> lpost (lbind (put_source s) f) t Q E.
Proof. done. Qed.
Lemma lpost_put_lexers {B} l (f : unit -> L B) t Q E :
  lpost (f tt) (set_lexers t l) Q E -> lpost (lbind (put_lexers l) f) t Q E.
Proof. done. Qed.
Lemma lpost_put_lexer {B} x (f : unit -> L B) t Q E :
  lpost (f tt) (set_lexers t (x :: tail (t_lexers t))) Q E -> lpost (lbind (put_lexer x) f) t Q E.
Proof. done. Qed.
Lemma lpost_lmalloc {B} (f : bool -> L B) t Q E :
  (forall b w, lpost (f b) (set_proc t w) Q E) -> lpost (lbind lmalloc f) t Q E.
Proof. intros H. unfold lpost, lbind, lmalloc. destruct (malloc (t_proc t)) as [b w]. apply H. Qed.

(** ** The fragment tree *)

(** [n] is the length of the spelling, [open] the fragments of the frames. *)
Record tree (l : list csh_fragment) (open : list nat) (n : nat) : Prop := mk_tree {
  tree_range : forall i g, l !! i = Some g -> (fr_begin g <= fr_end g <= n)%nat;
  tree_sorted : forall i j g h, (i < j)%nat -> l !! i = Some g -> l !! j = Some h -> (fr_begin g <= fr_begin h)%nat;
  tree_disjoint : forall i j g h, (i < j)%nat -> l !! i = Some g -> l !! j = Some h ->
    fr_parent g = fr_parent h -> (fr_end g <= fr_begin h)%nat;
  tree_parent : forall j g k, l !! j = Some g -> fr_parent g = Some k -> (k < j)%nat;
  tree_within : forall j g k, l !! j = Some g -> fr_parent g = Some k ->
    k ∈ open \/ exists h, l !! k = Some h /\ (fr_end g <= fr_end h)%nat;
  tree_kind : forall i g, i ∈ open -> l !! i = Some g ->
    fr_kind g <> CSH_FRAGMENT_TEXT /\ fr_kind g <> CSH_FRAGMENT_CONTINUATION /\ fr_kind g <> CSH_FRAGMENT_ESCAPE;
  tree_open : forall i j g, i ∈ open -> (i < j)%nat -> l !! j = Some g -> exists k, fr_parent g = Some k /\ (i <= k)%nat }.

(** Between two operations only frames are unfinished; an escape spans the
    backslash and a character, a continuation its two bytes. *)
Definition finished_ok (l : list csh_fragment) (open : list nat) (n : nat) : Prop :=
  forall i g, l !! i = Some g ->
    (i ∈ open -> (fr_begin g < n)%nat) /\ (i ∉ open -> (fr_begin g < fr_end g)%nat) /\
    (fr_kind g = CSH_FRAGMENT_ESCAPE \/ fr_kind g = CSH_FRAGMENT_CONTINUATION -> (fr_begin g + 2 <= fr_end g)%nat).

Definition open_of (fs : list frame) : list nat := map fm_fragment fs.

(** The fragments of the frames, the innermost first, are decreasing. *)
Fixpoint frames_below (fs : list frame) (n : nat) : Prop :=
  match fs with [] => True | f :: below => (fm_fragment f < n)%nat /\ frames_below below (fm_fragment f) end.

(** The fragment of a frame is a child of the frame below it. *)
Fixpoint frames_linked (l : list csh_fragment) (fs : list frame) : Prop :=
  match fs with
  | [] => True
  | f :: below => (exists g, l !! fm_fragment f = Some g /\ fr_parent g = head (open_of below)) /\ frames_linked l below
  end.

(** The shape of a pending word, with a spelling of [n] bytes. *)
Definition shape (l : list csh_fragment) (fs : list frame) (n : nat) : Prop :=
  tree l (open_of fs) n /\ frames_below fs (length l) /\ frames_linked l fs.

(** The cursor is in the data, and they are bytes. *)
Definition data_ok (s : source) : Prop := (cursor s <= length (data s))%nat /\ Forall is_byte (data s).

(** A source to go back to: nothing read, the opening still to be read. *)
Definition saved_ok (s : source) (count : nat) : Prop :=
  cursor s = 0%nat /\ look_valid s = false /\ failure s = no_error /\ (1 <= count <= length (data s))%nat /\
  Forall is_byte (data s).

(** What a checkpoint gives back: [ns] bounds the spellings of the ancestors,
    [behind] says that they are in order with given lengths. *)
Section Saved.
Context (behind : list nat -> Prop).

Definition checkpoint_ok (rest : list frame -> list arithmetic_checkpoint -> nat -> list nat -> Prop)
    (c : arithmetic_checkpoint) (cs : list arithmetic_checkpoint) (l : list csh_fragment) (below : list frame)
    (n : nat) (ns : list nat) : Prop :=
  exists n0 p0 caps, cp_captures c = (n0, p0) :: caps /\
    saved_ok (cp_source c) (cp_command_length c) /\ cp_frame_count c = length below /\
    (cp_fragment_count c <= length l)%nat /\ shape (take (cp_fragment_count c) l) below n0 /\
    finished_ok (take (cp_fragment_count c) l) (open_of below) n0 /\
    (n0 <= n)%nat /\ Forall2 le (map fst caps) ns /\ behind (map fst caps) /\ rest below cs n0 (map fst caps).

(** Every arithmetic frame has its checkpoint. *)
Fixpoint arith_wf (l : list csh_fragment) (fs : list frame) (cs : list arithmetic_checkpoint) (n : nat) (ns : list nat)
    : Prop :=
  match fs with
  | [] => cs = []
  | f :: below =>
      if bool_decide (fm_kind f = ARITHMETIC) then
        match cs with
        | [] => False
        | c :: cs' =>
            cp_fragment_count c = fm_fragment f /\ (cp_body_begin c <= n)%nat /\
            (forall j g, (fm_fragment f < j)%nat -> l !! j = Some g -> (fr_begin g < cp_body_begin c)%nat ->
               fr_kind g = CSH_FRAGMENT_CONTINUATION /\ (fr_end g <= cp_body_begin c)%nat) /\
            checkpoint_ok (arith_wf l) c cs' l below n ns
        end
      else arith_wf l below cs n ns
  end.

(** What recovery needs, also in the middle of an operation. *)
Definition weak (l : list csh_fragment) (fs : list frame) (cs : list arithmetic_checkpoint) (n : nat) (ns : list nat)
    : Prop :=
  match cs with
  | [] => True
  | c :: cs' => exists above below, fs = above ++ below /\ checkpoint_ok (arith_wf l) c cs' l below n ns
  end.
End Saved.

(** A chain of lexers whose spellings have the lengths [ns]. *)
Fixpoint chain_ok (l : list csh_lexer) (ns : list nat) : Prop :=
  match l, ns with
  | [], [] => True
  | x :: behind, n :: ns =>
      shape (fragments x) (frames x) n /\ finished_ok (fragments x) (open_of (frames x)) n /\
      arith_wf (chain_ok behind) (fragments x) (frames x) (arithmetic x) n ns /\ chain_ok behind ns
  | _, _ => False
  end.

(** ** Growth *)

Lemma shape_mono l fs n n' : (n <= n')%nat -> shape l fs n -> shape l fs n'.
Proof.
  intros Hn [[] Hf]. split; [|exact Hf]. constructor; try done. intros i g Hg. specialize (tree_range0 i g Hg). lia.
Qed.

Lemma finished_mono l open n n' : (n <= n')%nat -> finished_ok l open n -> finished_ok l open n'.
Proof. intros Hn H i g Hg. destruct (H i g Hg) as (A & ? & ?). split_and!; [intros Hi; specialize (A Hi); lia|done|done]. Qed.

Lemma frames_below_mono fs n n' : (n <= n')%nat -> frames_below fs n -> frames_below fs n'.
Proof. destruct fs as [|f fs]; [done|]. intros Hn [? ?]. split; [lia|done]. Qed.

Lemma frames_below_elem fs n f : frames_below fs n -> f ∈ fs -> (fm_fragment f < n)%nat.
Proof.
  revert n. induction fs as [|g fs IH]; intros n Hb Hf; [by apply elem_of_nil in Hf|]. destruct Hb as [Hg Hb].
  apply elem_of_cons in Hf as [->|Hf]; [done|]. specialize (IH _ Hb Hf). lia.
Qed.

Lemma frames_below_app above below n : frames_below (above ++ below) n -> frames_below below n.
Proof.
  revert n. induction above as [|f above IH]; intros n H; [done|]. destruct H as [? H]. apply IH in H.
  eapply frames_below_mono; [|exact H]. lia.
Qed.

Lemma Forall2_le_refl (l : list nat) : Forall2 le l l.
Proof. induction l; constructor; auto. Qed.

Lemma Forall2_le_trans (a b c : list nat) : Forall2 le a b -> Forall2 le b c -> Forall2 le a c.
Proof.
  intros H. revert c. induction H as [|x y a b Hxy H IH]; intros c Hc; inversion Hc; subst; constructor; [lia|auto].
Qed.

Section Evolution.
Context (behind : list nat -> Prop).

(** The spelling grows, and fragments from [i0] on are added or finished. *)
Record evolves (l l' : list csh_fragment) (i0 n : nat) : Prop := mk_evolves {
  ev_same : forall j, (j < i0)%nat -> l' !! j = l !! j;
  ev_length : (length l <= length l')%nat;
  ev_later : forall j g, l' !! j = Some g -> (fr_begin g < n)%nat ->
    exists h, l !! j = Some h /\ fr_begin h = fr_begin g /\
      (g = h \/ fr_kind h <> CSH_FRAGMENT_CONTINUATION) }.

Lemma evolves_take l l' i0 n k : evolves l l' i0 n -> (k <= i0)%nat -> take k l' = take k l.
Proof.
  intros [H _ _] Hk. apply list_eq. intros j. destruct (Nat.lt_ge_cases j k).
  - rewrite !lookup_take_lt by done. apply H. lia.
  - by rewrite !lookup_take_ge.
Qed.

Lemma checkpoint_ok_evolve (r r' : list frame -> list arithmetic_checkpoint -> nat -> list nat -> Prop)
    c cs l l' below n n' ns ns' i0 :
  checkpoint_ok behind r c cs l below n ns -> evolves l l' i0 n -> (cp_fragment_count c <= i0)%nat ->
  (forall n0 caps, (n0 <= n)%nat -> frames_below below (cp_fragment_count c) -> r below cs n0 caps -> r' below cs n0 caps) ->
  (n <= n')%nat -> Forall2 le ns ns' -> checkpoint_ok behind r' c cs l' below n' ns'.
Proof.
  intros (n0 & p0 & caps & H1 & H2 & H3 & H4 & H5 & H6 & H7 & H8 & H9 & H10) Hev Hc Hr Hn Hns.
  exists n0, p0, caps. rewrite (evolves_take _ _ _ _ _ Hev Hc).
  split_and!; try done; [destruct Hev; lia|lia|by eapply Forall2_le_trans|]. apply Hr; [lia| |done].
  destruct H5 as (_ & H5 & _). eapply frames_below_mono; [|exact H5]. rewrite length_take. lia.
Qed.

Lemma arith_wf_evolve l l' fs cs n n' ns ns' i0 :
  arith_wf behind l fs cs n ns -> evolves l l' i0 n -> frames_below fs (S i0) -> (n <= n')%nat -> Forall2 le ns ns' ->
  arith_wf behind l' fs cs n' ns'.
Proof.
  revert cs n n' ns ns' i0. induction fs as [|f below IH]; intros cs n n' ns ns' i0; cbn [arith_wf]; [done|].
  intros H Hev [Hf Hb] Hn Hns. destruct (bool_decide _).
  - destruct cs as [|c cs]; [done|]. destruct H as (E & Hbody & Hopen & Hc). split; [done|]. split; [lia|]. split.
    + intros j g Hj Hg Hlt. destruct (ev_later _ _ _ _ Hev _ _ Hg) as (h & Hh & Eb & Hk); [lia|].
      rewrite <- Eb in Hlt. destruct (Hopen j h Hj Hh Hlt) as [Hcont Hend]. destruct Hk as [->|Hk]; [done|by destruct Hk].
    + eapply checkpoint_ok_evolve; [exact Hc|exact Hev|lia| |done|done].
      intros n0 caps Hn0 Hb' Hr. eapply IH; [exact Hr|..].
      * destruct Hev as [E1 E2 E3]. split; [exact E1|done|]. intros j g Hg Hlt. apply E3; [done|]. lia.
      * eapply frames_below_mono; [|exact Hb]. lia.
      * lia.
      * apply Forall2_le_refl.
  - eapply IH; [exact H|exact Hev| |done|done]. eapply frames_below_mono; [|exact Hb]. lia.
Qed.

Lemma evolves_refl l i0 n : evolves l l i0 n.
Proof. split; [done|done|]. intros j g Hg _. exists g. split_and!; [done|done|by left]. Qed.

Lemma arith_wf_mono l fs cs n n' ns ns' : arith_wf behind l fs cs n ns -> frames_below fs (length l) ->
  (n <= n')%nat -> Forall2 le ns ns' -> arith_wf behind l fs cs n' ns'.
Proof.
  intros H Hb Hn Hns. eapply arith_wf_evolve; [exact H|apply (evolves_refl l (length l))| |done|done].
  eapply frames_below_mono; [|exact Hb]. lia.
Qed.

Lemma weak_evolve l l' fs cs n n' ns ns' i0 : weak behind l fs cs n ns -> evolves l l' i0 n ->
  (match cs with c :: _ => cp_fragment_count c <= i0 | [] => True end)%nat -> (n <= n')%nat -> Forall2 le ns ns' ->
  weak behind l' fs cs n' ns'.
Proof.
  unfold weak. destruct cs as [|c cs]; [done|]. intros (above & below & -> & Hc) Hev Hi Hn Hns.
  exists above, below. split; [done|]. eapply checkpoint_ok_evolve; [exact Hc|exact Hev|done| |done|done].
  intros n0 caps Hn0 Hb Hr. eapply arith_wf_evolve; [exact Hr|..].
  - destruct Hev as [E1 E2 E3]. split; [exact E1|done|]. intros j g Hg Hlt. apply E3; [done|]. lia.
  - eapply frames_below_mono; [|exact Hb]. lia.
  - lia.
  - apply Forall2_le_refl.
Qed.

Lemma arith_wf_weak l fs cs n ns : arith_wf behind l fs cs n ns -> weak behind l fs cs n ns.
Proof.
  revert cs. induction fs as [|f below IH]; intros cs; cbn [arith_wf]; [by intros ->|]. destruct (bool_decide _).
  - destruct cs as [|c cs]; [done|]. intros (_ & _ & _ & Hc). exists [f], below. by split.
  - intros H. apply IH in H. destruct cs as [|c cs]; [done|]. destruct H as (above & below' & -> & Hc).
    by exists (f :: above), below'.
Qed.
End Evolution.

Lemma chain_ok_mono l ns ns' : chain_ok l ns -> Forall2 le ns ns' -> chain_ok l ns'.
Proof.
  revert ns ns'. induction l as [|x l IH]; intros [|n ns] ns' H Hle; inversion Hle; subst; try done.
  destruct H as (Hs & He & Ha & Hc). split_and!.
  - by eapply shape_mono.
  - by eapply finished_mono.
  - eapply arith_wf_mono; [exact Ha|apply Hs|done|done].
  - by eapply IH.
Qed.

(** ** The state between the primitive operations *)

Definition lens (l : list csh_lexer) : list nat := map (fun x => length (raw x)) l.

Definition source_ok (s : source) : Prop :=
  failure s = no_error /\ data_ok s.

Section Core.
Context {loc : Locale} {LL : LocaleLaws loc} {ST : StableLocale loc} {db : LocaleDb}.

(** A lexer in the middle of a word; a suspended one waits for its innermost
    frame, a command substitution. *)
Definition busy (x : csh_lexer) : Prop :=
  active x = true /\ kind x = CSH_TOKEN_WORD /\ token_name x <> None /\ comment x = false.

Definition awaits (y : csh_lexer) : Prop := fm_kind <$> head (frames y) = Some COMMAND.

Definition waiting (y : csh_lexer) : Prop := busy y /\ command y = true /\ awaits y.

Lemma awaits_framed y : awaits y -> frames y <> [].
Proof. unfold awaits. by destruct (frames y). Qed.

Definition ancestors_ok (behind : list csh_lexer) : Prop :=
  chain_ok behind (lens behind) /\ Forall waiting behind.

Definition context_ok (x : csh_lexer) (behind : list csh_lexer) : Prop :=
  ancestors_ok behind /\ (arithmetic x <> [] -> busy x).

Definition lexer_weak (x : csh_lexer) (behind : list csh_lexer) : Prop :=
  weak (chain_ok behind) (fragments x) (frames x) (arithmetic x) (length (raw x)) (lens behind).

Definition core (t : tape) : Prop :=
  source_ok (t_source t) /\ cache_ok (t_source t) /\
  exists x behind, t_lexers t = x :: behind /\ shape (fragments x) (frames x) (length (raw x)) /\
    lexer_weak x behind /\ context_ok x behind.

(** The active lexer between two turns, but for the flags of its word. *)
Definition lexer_full (x : csh_lexer) (behind : list csh_lexer) : Prop :=
  finished_ok (fragments x) (open_of (frames x)) (length (raw x)) /\
  arith_wf (chain_ok behind) (fragments x) (frames x) (arithmetic x) (length (raw x)) (lens behind).

Definition full (t : tape) : Prop :=
  core t /\ exists x behind, t_lexers t = x :: behind /\ lexer_full x behind.

Definition unterminated (e : csh_error) : bool := starts_with (bs "unterminated ") (default [] (message e)).

(** An error: recovery is possible, or nothing is left to recover. *)
Definition failed_ok (e : csh_error) (t : tape) : Prop :=
  has_failed (t_source t) = true /\ is_Some (message e) /\ data_ok (t_source t) /\
  exists x behind, t_lexers t = x :: behind /\
    (Forall (fun y => arithmetic y = []) (x :: behind) \/
     (shape (fragments x) (frames x) (length (raw x)) /\ lexer_weak x behind /\ context_ok x behind /\
      cache_ok (t_source t) /\
      (unterminated e = true -> lexer_full x behind))).

Lemma fail_at_post {A} y msg number p t (Q : A -> tape -> Prop) : core t ->
  (starts_with (bs "unterminated ") msg = true -> full t) -> lpost (fail_at y msg number p) t Q failed_ok.
Proof.
  intros ([Hf Hc] & Hca & x & behind & Et & Hs & Hw & Ha) Hu. unfold lpost, fail_at.
  assert (has_failed (t_source t) = false) as -> by (unfold has_failed; by rewrite Hf).
  destruct (_ && _).
  - split; [done|]. split; [by eexists|]. split; [done|]. exists x, behind. split; [done|]. right. split; [done|]. split; [done|]. split; [done|]. split; [exact Hca|].
    unfold unterminated. cbn. intros H. destruct (Hu H) as (_ & x' & behind' & Et' & Hx). rewrite Et in Et'. by simplify_eq.
  - split; [done|]. split; [by eexists|]. split; [by split|]. cbn. rewrite Et. exists (release_work x), (map release_work behind).
    split; [done|]. left. constructor; [done|]. apply Forall_map, Forall_true. by intros.
Qed.

Lemma fail_post {A} msg number t (Q : A -> tape -> Prop) : core t ->
  (starts_with (bs "unterminated ") msg = true -> full t) -> lpost (fail msg number) t Q failed_ok.
Proof.
  intros Hc Hu. destruct Hc as (? & ? & x & behind & Et & ?). unfold fail. eapply lpost_get_lexer; [exact Et|].
  apply lpost_get_source. apply fail_at_post; [|done]. by split_and!; eauto.
Qed.

Lemma core_set_proc t w : core t -> core (set_proc t w).
Proof. done. Qed.

Lemma grow_post {B} count size msg (f : unit -> L B) t Q :
  core t -> starts_with (bs "unterminated ") msg = false ->
  (forall w, lpost (f tt) (set_proc t w) Q failed_ok) -> lpost (lbind (grow count size msg) f) t Q failed_ok.
Proof.
  intros Hc Hm H. apply lpost_bind. unfold grow. apply lpost_bind. unfold reserve. destruct (_ <? _).
  - apply lpost_ret. apply fail_post; [done|by rewrite Hm].
  - apply lpost_lmalloc. intros b w. apply lpost_ret. destruct b.
    + apply lpost_ret, H.
    + apply fail_post; [by apply core_set_proc|by rewrite Hm].
Qed.

(** ** Consuming bytes *)

(** A spelling that has grown. *)
Definition grown (x x' : csh_lexer) : Prop := x' = x \/ exists more p, x' = with_raw x (raw x ++ more) p.

Lemma grown_refl x : grown x x.
Proof. by left. Qed.

Lemma grown_trans x y z : grown x y -> grown y z -> grown x z.
Proof.
  intros [->|(m & p & ->)] [->|(m' & p' & ->)]; [by left|right; by eexists _, _..|].
  right. exists (m ++ m'), p'. unfold with_raw. cbn. by rewrite app_assoc.
Qed.

Lemma grown_lens l l' : Forall2 grown l l' -> Forall2 le (lens l) (lens l').
Proof.
  induction 1 as [|x x' l l' Hx H IH]; constructor; [|done]. destruct Hx as [->|(m & p & ->)]; [done|].
  cbn. rewrite length_app. lia.
Qed.

(** The flags of a word, and the checkpoints. *)
Definition flags (x : csh_lexer) :=
  (active x, token_name x, kind x, operator_text x, comment x, command x, document x).

Lemma busy_flags x x' : flags x' = flags x -> busy x -> busy x'.
Proof. unfold busy. by intros [= -> -> -> _ -> _ _]. Qed.

(** Lexers that differ in their spellings only. *)
Definition alike (x x' : csh_lexer) : Prop :=
  fragments x' = fragments x /\ frames x' = frames x /\ arithmetic x' = arithmetic x /\ flags x' = flags x.

Lemma grown_alike l l' : Forall2 grown l l' -> Forall2 alike l l'.
Proof. induction 1 as [|x x' l l' [->|(m & p & ->)] H IH]; by repeat constructor. Qed.

Lemma chain_ok_alike l l' ns : Forall2 alike l l' -> chain_ok l ns <-> chain_ok l' ns.
Proof.
  intros H. revert ns. induction H as [|x x' l l' Hx H IH]; intros [|n ns]; [done..|]. cbn [chain_ok].
  destruct Hx as (-> & -> & -> & _).
  assert (forall fr fs cs n ns, arith_wf (chain_ok l) fr fs cs n ns <-> arith_wf (chain_ok l') fr fs cs n ns) as Ha.
  { intros fr fs. induction fs as [|f fs IHf]; intros cs n0 ns0; [done|]. cbn [arith_wf].
    destruct (bool_decide _); [|apply IHf]. destruct cs as [|c cs]; [done|]. unfold checkpoint_ok.
    split; intros (? & ? & ? & n1 & p1 & caps & H1 & H2 & H3 & H4 & H5 & H6 & H7 & H8 & H9 & H10); split_and!; try done;
      exists n1, p1, caps; (split_and!; try done; [by apply IH|by apply IHf]). }
  rewrite Ha, IH. done.
Qed.

Lemma arith_wf_alike l l' fr fs cs n ns : Forall2 alike l l' ->
  arith_wf (chain_ok l) fr fs cs n ns -> arith_wf (chain_ok l') fr fs cs n ns.
Proof.
  intros H. revert cs n ns. induction fs as [|f fs IH]; intros cs n ns; [done|]. cbn [arith_wf].
  destruct (bool_decide _); [|apply IH]. destruct cs as [|c cs]; [done|]. unfold checkpoint_ok.
  intros (? & ? & ? & n1 & p1 & caps & H1 & H2 & H3 & H4 & H5 & H6 & H7 & H8 & H9 & H10); split_and!; try done.
  exists n1, p1, caps. split_and!; try done; [by apply (chain_ok_alike _ _ _ H)|by apply IH].
Qed.

Lemma weak_alike l l' fr fs cs n ns : Forall2 alike l l' ->
  weak (chain_ok l) fr fs cs n ns -> weak (chain_ok l') fr fs cs n ns.
Proof.
  intros H. unfold weak. destruct cs as [|c cs]; [done|].
  intros (above & below & -> & n1 & p1 & caps & H1 & H2 & H3 & H4 & H5 & H6 & H7 & H8 & H9 & H10).
  exists above, below. split; [done|]. exists n1, p1, caps. split_and!; try done; [by apply (chain_ok_alike _ _ _ H)|].
  by eapply arith_wf_alike.
Qed.

Lemma waiting_alike l l' : Forall2 alike l l' -> Forall waiting l -> Forall waiting l'.
Proof.
  induction 1 as [|x x' l l' (_ & Ef & _ & E) H IH]; [constructor|]. intros [(H1 & H2 & H3) H4]%Forall_cons.
  constructor; [|by apply IH]. split; [by eapply busy_flags|]. injection E as _ _ _ _ _ -> _. unfold awaits in *. by rewrite Ef.
Qed.

Lemma ancestors_grown l l' : Forall2 grown l l' -> ancestors_ok l -> ancestors_ok l'.
Proof.
  intros H [Hc Hf]. split.
  - apply (chain_ok_alike _ _ _ (grown_alike _ _ H)). eapply chain_ok_mono; [exact Hc|]. by apply grown_lens.
  - by eapply waiting_alike; [apply grown_alike|].
Qed.

Lemma context_flags x x' behind : flags x' = flags x -> arithmetic x' = arithmetic x ->
  context_ok x behind -> context_ok x' behind.
Proof. intros Hf Ha [H1 H2]. split; [done|]. rewrite Ha. intros Hne. by eapply busy_flags, H2. Qed.

Lemma context_grown x x' l l' : grown x x' -> Forall2 grown l l' -> context_ok x l -> context_ok x' l'.
Proof.
  intros Hx Hl [H1 H2]. split; [by eapply ancestors_grown|]. destruct Hx as [->|(m & p & ->)]; [done|]. exact H2.
Qed.

Lemma lexer_weak_grown x x' l l' : Forall2 grown l l' -> grown x x' -> shape (fragments x) (frames x) (length (raw x)) ->
  lexer_weak x l -> lexer_weak x' l'.
Proof.
  intros H Hx Hs Hw. unfold lexer_weak. eapply weak_alike; [by apply grown_alike|].
  eapply (weak_evolve _ (fragments x) _ _ _ (length (raw x)) _ (lens l) _ (length (fragments x))).
  - destruct Hx as [->|(m & p & ->)]; exact Hw.
  - destruct Hx as [->|(m & p & ->)]; apply evolves_refl.
  - unfold lexer_weak, weak in Hw. destruct Hx as [->|(m & p & ->)]; cbn; destruct (arithmetic x) as [|c cs]; try done;
      by destruct Hw as (? & ? & _ & ? & ? & ? & _ & _ & _ & ? & _).
  - destruct Hx as [->|(m & p & ->)]; [done|]. cbn. rewrite length_app. lia.
  - by apply grown_lens.
Qed.

(** The tape after [k] bytes: the active lexer has them if its word is open. *)
Definition took (x : csh_lexer) (bytes : str) (x' : csh_lexer) : Prop :=
  exists p, x' = if active x then with_raw x (raw x ++ bytes) p else x.

Definition moved (k : nat) (t t' : tape) : Prop :=
  core t' /\ final (t_source t') = final (t_source t) /\ text (t_source t') = drop k (text (t_source t)) /\
  exists x behind x' behind', t_lexers t = x :: behind /\ t_lexers t' = x' :: behind' /\
    took x (take k (text (t_source t))) x' /\ Forall2 grown behind behind'.

Lemma capture_byte_post x d self b t : core t ->
  lpost (capture_byte x d self b) t (fun x' t' => (exists w, t' = set_proc t w) /\ grown x x' /\
    (self = true -> took x [b] x')) failed_ok.
Proof.
  intros Hc. unfold capture_byte. apply lpost_get_source. destruct (active x) eqn:Ea; cbn [negb orb].
  - destruct (negb self && _) eqn:Eh.
    + apply lpost_ret. split; [by exists (t_proc t); destruct t|]. split; [by left|]. destruct self; done.
    + destruct (slen (raw x) =? SIZE_MAX - 1); [by apply fail_post|].
      destruct (advance _ b) as [p|]; [|by apply fail_post]. apply grow_post; [done|done|]. intros w. apply lpost_ret.
      split; [by exists w|]. split; [right; by exists [b], p|]. intros _. exists p. by rewrite Ea.
  - apply lpost_ret. split; [by exists (t_proc t); destruct t|]. split; [by left|]. intros _.
    exists (spelling_position x). by rewrite Ea.
Qed.

Lemma capture_lexers_post l self b t : core t ->
  lpost (capture_lexers l self b) t (fun l' t' => (exists w, t' = set_proc t w) /\ Forall2 grown l l' /\
    match l, l' with x :: _, x' :: _ => self = true -> took x [b] x' | [], [] => True | _, _ => False end) failed_ok.
Proof.
  revert self t. induction l as [|x l IH]; intros self t Hc; cbn [capture_lexers].
  { apply lpost_ret. split; [by exists (t_proc t); destruct t|]. by split. }
  apply lpost_bind. eapply lpost_mono; [by apply IH|]. intros l' t' ([w ->] & Hl & _).
  apply lpost_bind. eapply lpost_mono; [by apply capture_byte_post|]. intros x' t'' ([w' ->] & Hx & Ht).
  apply lpost_ret. split; [by exists w'|]. split; [by constructor|done].
Qed.

Lemma leave_aliases_keeps l s : data (leave_aliases l s) = data s /\ cursor (leave_aliases l s) = cursor s /\
  final (leave_aliases l s) = final s /\ failure (leave_aliases l s) = failure s /\
  look_valid (leave_aliases l s) = look_valid s.
Proof.
  revert s. induction l as [|a l IH]; intros s; [done|]. cbn [leave_aliases]. destruct (_ =? _)%nat; [|done].
  by destruct (IH (with_eligible (with_so_position s (as_resume a)) (alias_eligible s || as_trailing_blank a)))
    as (-> & -> & -> & -> & ->).
Qed.

Lemma core_grown t t' x behind x' behind' : core t -> t_lexers t = x :: behind -> t_lexers t' = x' :: behind' ->
  grown x x' -> Forall2 grown behind behind' -> source_ok (t_source t') -> cache_ok (t_source t') -> core t'.
Proof.
  intros (_ & _ & y & b & Et & Hs & Hw & Ha) Ex Ex' Hx Hb Hso Hc. rewrite Ex in Et. simplify_eq.
  split; [done|]. split; [done|]. exists x', behind'. split; [done|]. split.
  - destruct Hx as [->|(m & p & ->)]; [done|]. eapply shape_mono; [|exact Hs]. cbn. rewrite length_app. lia.
  - split; [by eapply lexer_weak_grown|]. by eapply context_grown.
Qed.

Lemma text_step s b rest : text s = b :: rest -> data s !! cursor s = Some b /\ (cursor s < length (data s))%nat /\
  drop (S (cursor s)) (data s) = rest.
Proof.
  unfold text. intros E. destruct (drop_lt _ _ _ _ E) as [H1 H2]. split_and!; [|done|done].
  by rewrite <- (Nat.add_0_r (cursor s)), <- lookup_drop, E.
Qed.

Lemma consume_byte_post t b rest : core t -> look_valid (t_source t) = false -> text (t_source t) = b :: rest ->
  lpost consume_byte t (fun _ t' => moved 1 t t' /\ look_valid (t_source t') = false) failed_ok.
Proof.
  intros Hc Hl Et. destruct (text_step _ _ _ Et) as (Hb & Hlt & Hr). unfold consume_byte. apply lpost_get_source.
  rewrite Hb. destruct (b =? 0); [by apply fail_post|]. destruct (advance _ b) as [p|]; [|by apply fail_post].
  destruct (sequence _ =? SIZE_MAX); [by apply fail_post|]. apply lpost_get_lexers. apply lpost_bind.
  eapply lpost_mono; [by apply capture_lexers_post|]. intros l' t' ([w ->] & Hg & Ht). apply lpost_put_lexers.
  pose proof Hc as ([Hf _] & _ & x & behind & Ex & _). rewrite Ex in Hg, Ht. apply Forall2_cons_inv_l in Hg as (x' & behind' & Hx & Hb' & ->).
  unfold lpost, put_source.
  set (s2 := with_data _ _ _ _). destruct (leave_aliases_keeps (so_aliases (with_sequence (with_so_position (t_source t) p) (sequence (t_source t) + 1))) s2)
    as (E1 & E2 & E3 & E4 & E5).
  split; [|cbn [t_source]; by rewrite E5]. split; [|split_and!; [cbn [t_source]; by rewrite E3| |]].
  - eapply core_grown; [exact Hc|exact Ex|reflexivity|done|done|..]; cbn [t_source].
    + split; [unfold has_failed in *; by rewrite E4|]. unfold data_ok. rewrite E1, E2. split; [cbn; lia|exact (proj2 (proj2 (proj1 Hc)))].
    + intros Hv. rewrite E5 in Hv. cbn in Hv. by rewrite Hl in Hv.
  - cbn [t_source]. unfold text at 1. rewrite E1, E2. cbn. by rewrite <- Nat.add_1_r in Hr; rewrite Et, Hr.
  - exists x, behind, x', behind'. split_and!; [done|done| |done]. rewrite Et. cbn. by apply Ht.
Qed.

Lemma moved_trans j k t t' t'' : moved j t t' -> moved k t' t'' -> moved (j + k) t t''.
Proof.
  intros (_ & F1 & T1 & x & b & x1 & b1 & E1 & E2 & X1 & G1) (Hc & F2 & T2 & x2 & b2 & x3 & b3 & E3 & E4 & X2 & G2).
  rewrite E2 in E3. simplify_eq. split; [done|]. split; [congruence|]. split; [by rewrite T2, T1, drop_drop|].
  exists x, b, x3, b3. split_and!; [done|done| |].
  - destruct X1 as [p1 ->]. destruct X2 as [p2 ->]. exists p2. rewrite T1. destruct (active x) eqn:Ea; cbn; rewrite ?Ea; [|done].
    unfold with_raw. cbn. by rewrite <- app_assoc, take_take_drop.
  - clear -G1 G2. revert b3 G2. induction G1 as [|y y1 b b1 Hy G IH]; intros b3 G2; inversion G2; subst; constructor.
    + by eapply grown_trans.
    + by apply IH.
Qed.

Lemma moved_zero t : core t -> moved 0 t t.
Proof.
  intros Hc. pose proof Hc as (_ & _ & x & b & E & _). split; [done|]. split; [done|]. split; [done|].
  exists x, b, x, b. split_and!; [done|done| |].
  - exists (spelling_position x). destruct (active x); [|done]. cbn. rewrite app_nil_r. by destruct x.
  - clear. induction b; constructor; [by left|done].
Qed.

Lemma consume_loop_post k t : core t -> look_valid (t_source t) = false -> (k <= length (text (t_source t)))%nat ->
  lpost (consume_loop k) t (fun _ t' => moved k t t') failed_ok.
Proof.
  revert t. induction k as [|k IH]; intros t Hc Hl Hk; cbn [consume_loop]; [by apply lpost_ret, moved_zero|].
  destruct (text (t_source t)) as [|b rest] eqn:Et; [simpl in Hk; lia|]. apply lpost_bind.
  eapply lpost_mono; [by eapply consume_byte_post|]. intros _ t' [Hm Hl'].
  pose proof Hm as (Hc' & _ & Et' & _). eapply lpost_mono; [apply IH; [done|done|]|].
  - rewrite Et', Et. simpl in *. rewrite drop_0. lia.
  - intros [] t'' Hm'. change (S k) with (1 + k)%nat. by eapply moved_trans.
Qed.

Lemma consume_post k t : core t -> (k <= length (text (t_source t)))%nat ->
  lpost (consume k) t (fun _ t' => moved k t t') failed_ok.
Proof.
  intros Hc Hk. unfold consume. apply lpost_get_source, lpost_put_source.
  pose proof Hc as (Hs & _ & x & b & E & ?).
  assert (core (set_source t (no_look (t_source t)))) as Hc' by (split; [done|]; split; [done|]; by exists x, b).
  eapply lpost_mono; [by apply consume_loop_post|]. intros _ t' (H1 & H2 & H3 & H4). by split_and!.
Qed.

(** ** The fragment tree under the primitive operations *)

Lemma frames_linked_ext l l' fs : (forall i g, l !! i = Some g -> exists g', l' !! i = Some g' /\ fr_parent g' = fr_parent g) ->
  frames_linked l fs -> frames_linked l' fs.
Proof.
  intros Hl. induction fs as [|f fs IH]; [done|]. intros [(g & Hg & Ep) H]. split; [|by apply IH].
  destruct (Hl _ _ Hg) as (g' & Hg' & Ep'). exists g'. split; [done|congruence].
Qed.

Lemma open_bound fs n i : frames_below fs n -> i ∈ open_of fs -> (i < n)%nat.
Proof.
  intros Hb Hi. apply list_elem_of_fmap in Hi as (f & -> & Hf). by eapply frames_below_elem.
Qed.

Lemma open_top f fs n i : frames_below (f :: fs) n -> i ∈ open_of (f :: fs) -> (i <= fm_fragment f)%nat.
Proof.
  intros [_ Hb] [->|Hi]%elem_of_cons; [done|]. pose proof (open_bound _ _ _ Hb Hi). lia.
Qed.

Definition new_fragment (k : csh_fragment_kind) (q : csh_quote) (x : csh_lexer) : csh_fragment :=
  mk_fragment k q (parent_fragment x) (length (raw x)) (length (raw x)) (spelling_position x) (spelling_position x).

Lemma shape_add l fs n k q s p : shape l fs n ->
  shape (l ++ [mk_fragment k q (fm_fragment <$> head fs) n n s p]) fs n.
Proof.
  intros (T & Hb & Hk). set (g0 := mk_fragment _ _ _ _ _ _ _).
  assert (forall i g, (l ++ [g0]) !! i = Some g -> l !! i = Some g \/ (i = length l /\ g = g0)) as Hlook.
  { intros i g Hg. apply lookup_app_Some in Hg as [Hg|[Hge Hg]]; [by left|]. right.
    apply list_lookup_singleton_Some in Hg as [? ?]. split; [lia|done]. }
  assert (forall i g, l !! i = Some g -> (i < length l)%nat) as Hlt by (intros i g Hg; by apply lookup_lt_Some in Hg).
  split; [|split].
  - constructor.
    + intros i g [Hg|[-> ->]]%Hlook; [by eapply tree_range|]. simpl. lia.
    + intros i j g h Hij [Hg|[-> ->]]%Hlook [Hh|[-> ->]]%Hlook; [by eapply tree_sorted|..].
      * apply (tree_range _ _ _ T) in Hg. simpl. lia.
      * apply Hlt in Hh. lia.
      * lia.
    + intros i j g h Hij [Hg|[-> ->]]%Hlook [Hh|[-> ->]]%Hlook Ep; [by eapply tree_disjoint|..].
      * apply (tree_range _ _ _ T) in Hg. simpl. lia.
      * apply Hlt in Hh. lia.
      * lia.
    + intros j g k' [Hg|[-> ->]]%Hlook Ep; [by eapply tree_parent|]. simpl in Ep.
      destruct fs as [|f fs]; [done|]. simpl in Ep. injection Ep as <-. apply Hb.
    + intros j g k' [Hg|[-> ->]]%Hlook Ep.
      * destruct (tree_within _ _ _ T _ _ _ Hg Ep) as [?|(h & Hh & ?)]; [by left|]. right. exists h.
        split; [by apply lookup_app_l_Some|done].
      * simpl in Ep. destruct fs as [|f fs]; [done|]. injection Ep as <-. left. simpl. by apply elem_of_cons; left.
    + intros i g Hi [Hg|[-> ->]]%Hlook; [by eapply tree_kind|]. apply (open_bound _ _ _ Hb) in Hi. lia.
    + intros i j g Hi Hij [Hg|[-> ->]]%Hlook; [by eapply tree_open|]. destruct fs as [|f fs]; [by apply elem_of_nil in Hi|].
      exists (fm_fragment f). split; [done|]. by eapply open_top.
  - eapply frames_below_mono; [|exact Hb]. rewrite length_app. lia.
  - eapply frames_linked_ext; [|exact Hk]. intros i g Hg. exists g. split; [by apply lookup_app_l_Some|done].
Qed.

(** An end that moves to the end of the spelling: of the last fragment, or of
    the top frame, which is closed. *)
Lemma shape_finish l fs fs' i g n n' p : shape l fs n -> l !! i = Some g -> (n <= n')%nat ->
  (forall j h, (i < j)%nat -> l !! j = Some h -> fr_parent h <> fr_parent g) ->
  (forall k, fr_parent g = Some k -> k ∈ open_of fs') ->
  (forall k, k ∈ open_of fs -> k ∈ open_of fs' \/ k = i) -> (forall k, k ∈ open_of fs' -> k ∈ open_of fs) ->
  frames_below fs' (length l) -> frames_linked l fs' ->
  shape (<[i := finished g n' p]> l) fs' n'.
Proof.
  intros (T & Hb & Hk) Hi Hn Hsib Hpar Hopen Hopen' Hb' Hk'.
  assert (forall j h, <[i := finished g n' p]> l !! j = Some h ->
    (j = i /\ h = finished g n' p) \/ (j <> i /\ l !! j = Some h)) as Hlook.
  { intros j h Hj. destruct (decide (j = i)) as [->|Hne].
    - rewrite list_lookup_insert_eq in Hj by by eapply lookup_lt_Some. left. by simplify_eq.
    - rewrite list_lookup_insert_ne in Hj by done. by right. }
  assert (forall j h, l !! j = Some h -> exists h', <[i := finished g n' p]> l !! j = Some h' /\
    fr_parent h' = fr_parent h /\ fr_begin h' = fr_begin h) as Hback.
  { intros j h Hj. destruct (decide (j = i)) as [->|Hne].
    - exists (finished g n' p). rewrite list_lookup_insert_eq by by eapply lookup_lt_Some. by simplify_eq.
    - exists h. by rewrite list_lookup_insert_ne. }
  assert (forall j h, l !! j = Some h -> (fr_begin h <= fr_end h <= n)%nat) as Hr by (intros; by eapply tree_range).
  split; [|split].
  - constructor.
    + intros j h [[-> ->]|[Hne Hh]]%Hlook; apply Hr in Hi; [simpl; lia|]. apply Hr in Hh. lia.
    + intros j k a b Hjk [[-> ->]|[Hj Ha]]%Hlook [[-> ->]|[Hk2 Hb2]]%Hlook; cbn [fr_begin finished]; try lia;
        by eapply (tree_sorted _ _ _ T).
    + intros j k a b Hjk [[-> ->]|[Hj Ha]]%Hlook [[-> ->]|[Hk2 Hb2]]%Hlook; cbn [fr_begin fr_end fr_parent finished]; try lia.
      * intros Ep. by destruct (Hsib _ _ Hjk Hb2).
      * by eapply (tree_disjoint _ _ _ T).
      * by eapply (tree_disjoint _ _ _ T).
    + intros j a k [[-> ->]|[Hj Ha]]%Hlook; cbn [fr_parent finished]; by eapply tree_parent.
    + intros j a k [[-> ->]|[Hj Ha]]%Hlook; cbn [fr_parent fr_end finished].
      * intros Ep. left. by apply Hpar.
      * intros Ep. destruct (tree_within _ _ _ T _ _ _ Ha Ep) as [Hin|(h & Hh & Hle)].
        -- destruct (Hopen _ Hin) as [?| ->]; [by left|]. right. exists (finished g n' p).
           split; [by apply list_lookup_insert_eq; eapply lookup_lt_Some|]. simpl. apply Hr in Ha. lia.
        -- right. destruct (decide (k = i)) as [->|Hne].
           ++ exists (finished g n' p). split; [by apply list_lookup_insert_eq; eapply lookup_lt_Some|]. simpl.
              apply Hr in Ha. lia.
           ++ exists h. by rewrite list_lookup_insert_ne.
    + intros j a Hj [[-> ->]|[Hne Ha]]%Hlook; cbn [fr_kind finished]; eapply (tree_kind _ _ _ T); eauto.
    + intros j k a Hj Hjk [[-> ->]|[Hne Ha]]%Hlook; cbn [fr_parent finished]; eapply (tree_open _ _ _ T); eauto.
  - by rewrite length_insert.
  - eapply frames_linked_ext; [|exact Hk']. intros j h Hj. destruct (Hback _ _ Hj) as (h' & ? & ? & _). by exists h'.
Qed.

(** ** Words *)

(** The active lexer after [k] bytes of its word, apart from its frames. *)
Record worked (k : nat) (t t' : tape) (x x' : csh_lexer) : Prop := mk_worked {
  wk_core : core t';
  wk_final : final (t_source t') = final (t_source t);
  wk_text : text (t_source t') = drop k (text (t_source t));
  wk_lexers : exists behind behind', t_lexers t = x :: behind /\ t_lexers t' = x' :: behind' /\ Forall2 grown behind behind';
  wk_raw : raw x' = raw x ++ take k (text (t_source t));
  wk_flags : flags x' = flags x;
  wk_arith : arithmetic x' = arithmetic x;
  wk_kinds : forall j g, fragments x !! j = Some g -> exists g', fragments x' !! j = Some g' /\ fr_kind g' = fr_kind g;
  wk_finished : forall m, finished_ok (fragments x) (open_of (frames x)) m ->
    finished_ok (fragments x') (open_of (frames x')) (Nat.max m (length (raw x')));
  wk_evolves : exists i0, evolves (fragments x) (fragments x') i0 (length (raw x)) /\ frames_below (frames x) (S i0) }.

(** The fragments that were added are continuations. *)
Definition continued (x x' : csh_lexer) : Prop :=
  forall j g, (length (fragments x) <= j)%nat -> fragments x' !! j = Some g -> fr_kind g = CSH_FRAGMENT_CONTINUATION.

Lemma continued_refl x x' : fragments x' = fragments x -> continued x x'.
Proof. intros E j g Hj Hg. rewrite E in Hg. apply lookup_lt_Some in Hg. lia. Qed.

Lemma continued_trans k t t' x x' x'' : worked k t t' x' x'' -> continued x x' -> continued x' x'' -> continued x x''.
Proof.
  intros Hw H1 H2 j g Hj Hg. destruct (Nat.lt_ge_cases j (length (fragments x'))) as [Hlt|Hge]; [|by eapply H2].
  destruct (lookup_lt_is_Some_2 _ _ Hlt) as [h Hh]. destruct (wk_kinds _ _ _ _ _ Hw _ _ Hh) as (g' & Hg' & Ek).
  rewrite Hg in Hg'. injection Hg' as <-. rewrite Ek. by eapply H1.
Qed.

(** Changes stay behind the fragments of the last checkpoint. *)
Definition guarded (x : csh_lexer) : Prop :=
  match arithmetic x with c :: _ => (cp_fragment_count c < length (fragments x))%nat | [] => True end.

Lemma evolves_trans l l' l'' i0 i1 n n' : evolves l l' i0 n -> evolves l' l'' i1 n' -> (n <= n')%nat ->
  evolves l l'' (Nat.min i0 i1) n.
Proof.
  intros [A1 A2 A3] [B1 B2 B3] Hn. split.
  - intros j Hj. rewrite B1, A1 by lia. done.
  - lia.
  - intros j g Hg Hlt. destruct (B3 _ _ Hg) as (h' & Hh' & Eb & Ek); [lia|].
    destruct (A3 _ _ Hh') as (h & Hh & Eb' & Ek'); [lia|]. exists h. split; [done|]. split; [lia|].
    destruct Ek as [->|Ek]; [done|]. right. by destruct Ek' as [->|Ek'].
Qed.

Lemma frames_below_min fs i j : frames_below fs (S i) -> frames_below fs (S j) -> frames_below fs (S (Nat.min i j)).
Proof. destruct fs as [|f fs]; [done|]. intros [? ?] [? ?]. split; [lia|done]. Qed.

Lemma worked_trans j k t t' t'' x x' x'' : worked j t t' x x' -> worked k t' t'' x' x'' -> frames x' = frames x ->
  worked (j + k) t t'' x x''.
Proof.
  intros [] [] Ef. split; try congruence; try done.
  - by rewrite wk_text1, wk_text0, drop_drop.
  - destruct wk_lexers0 as (b & b1 & E1 & E2 & G1), wk_lexers1 as (b2 & b3 & E3 & E4 & G2). rewrite E2 in E3. simplify_eq.
    exists b, b3. split_and!; [done|done|]. clear -G1 G2. revert b3 G2.
    induction G1 as [|y y1 b b1 Hy G IH]; intros b3 G2; inversion G2; subst; constructor; [by eapply grown_trans|by apply IH].
  - by rewrite wk_raw1, wk_raw0, wk_text0, <- app_assoc, take_take_drop.
  - intros i g Hg. destruct (wk_kinds0 _ _ Hg) as (h & Hh & <-). by apply wk_kinds1.
  - intros m He. specialize (wk_finished1 _ (wk_finished0 m He)). eapply finished_mono; [|exact wk_finished1].
    rewrite wk_raw1, length_app. lia.
  - destruct wk_evolves0 as (i & Hi & Fi), wk_evolves1 as (i' & Hi' & Fi'). exists (Nat.min i i'). split.
    + eapply evolves_trans; [exact Hi|exact Hi'|]. rewrite wk_raw0, length_app. lia.
    + rewrite Ef in Fi'. by apply frames_below_min.
Qed.

Lemma worked_full k t t' x x' behind : worked k t t' x x' -> t_lexers t = x :: behind -> lexer_full x behind ->
  finished_ok (fragments x') (open_of (frames x')) (length (raw x')) /\ exists behind', t_lexers t' = x' :: behind' /\
    arith_wf (chain_ok behind') (fragments x') (frames x) (arithmetic x') (length (raw x')) (lens behind').
Proof.
  intros [] Et [He Ha]. split.
  { eapply finished_mono; [|exact (wk_finished0 _ He)]. rewrite wk_raw0, length_app. lia. } destruct wk_lexers0 as (b & b' & E1 & E2 & G).
  rewrite E1 in Et. simplify_eq. exists b'. split; [done|]. rewrite wk_arith0.
  destruct wk_evolves0 as (i & Hi & Fi). eapply arith_wf_alike; [by apply grown_alike|].
  eapply arith_wf_evolve; [exact Ha|exact Hi|exact Fi|rewrite wk_raw0, length_app; lia|by apply grown_lens].
Qed.

Lemma arith_wf_head C l fs cs n ns m : arith_wf C l fs cs n ns -> frames_below fs m ->
  match cs with c :: _ => (cp_fragment_count c < m)%nat | [] => True end.
Proof.
  revert cs m. induction fs as [|f fs IH]; intros cs m; cbn [arith_wf]; [by intros ->|]. destruct (bool_decide _).
  - destruct cs as [|c cs]; [done|]. intros (-> & _) [? _]. done.
  - intros Ha [Hf Hb]. specialize (IH _ _ Ha Hb). destruct cs; [done|]. lia.
Qed.

Lemma full_guarded x behind : lexer_full x behind -> frames_below (frames x) (length (fragments x)) -> guarded x.
Proof. intros [_ Ha]. by eapply arith_wf_head. Qed.

Lemma core_lexer t x behind : core t -> t_lexers t = x :: behind ->
  shape (fragments x) (frames x) (length (raw x)) /\ lexer_weak x behind /\ context_ok x behind.
Proof. intros (_ & _ & y & b & E & H) Et. rewrite Et in E. by simplify_eq. Qed.

Lemma core_with_fragments t x behind l i0 : core t -> t_lexers t = x :: behind ->
  shape l (frames x) (length (raw x)) -> evolves (fragments x) l i0 (length (raw x)) ->
  (match arithmetic x with c :: _ => cp_fragment_count c <= i0 | [] => True end)%nat ->
  core (set_lexers t (with_fragments x l :: behind)).
Proof.
  intros Hc Et Hs Hev Hi. pose proof (core_lexer _ _ _ Hc Et) as (_ & Hw & Ha). destruct Hc as (Hso & Hca & _).
  split; [done|]. split; [done|]. exists (with_fragments x l), behind. split_and!; [done|done| |apply Ha..].
  unfold lexer_weak in *. cbn. eapply weak_evolve; [exact Hw|exact Hev|done|done|apply Forall2_le_refl].
Qed.

Lemma evolves_app l g i0 n : (i0 = length l)%nat -> (n <= fr_begin g)%nat -> evolves l (l ++ [g]) i0 n.
Proof.
  intros -> Hn. split.
  - intros j Hj. by apply lookup_app_l.
  - rewrite length_app. lia.
  - intros j h Hh Hlt. apply lookup_app_Some in Hh as [Hh|[_ Hh]].
    + exists h. split_and!; [done|done|by left].
    + apply list_lookup_singleton_Some in Hh as [_ <-]. lia.
Qed.

Lemma lexer_weak_bound x behind : lexer_weak x behind ->
  match arithmetic x with c :: _ => (cp_fragment_count c <= length (fragments x))%nat | [] => True end.
Proof.
  unfold lexer_weak, weak. destruct (arithmetic x) as [|c cs]; [done|].
  by intros (? & ? & _ & ? & ? & ? & _ & _ & _ & ? & _).
Qed.

Lemma add_fragment_post k q t x behind : core t -> t_lexers t = x :: behind ->
  lpost (add_fragment k q) t (fun i t' => i = length (fragments x) /\ core t' /\
    exists w, t' = set_lexers (set_proc t w) (with_fragments x (fragments x ++ [new_fragment k q x]) :: behind)) failed_ok.
Proof.
  intros Hc Et. unfold add_fragment. eapply lpost_get_lexer; [exact Et|]. apply grow_post; [done|done|]. intros w.
  apply lpost_put_lexer, lpost_ret. cbn [set_proc t_lexers]. rewrite Et. cbn [tail]. split; [done|].
  pose proof (core_lexer _ _ _ Hc Et) as (Hs & Hw & _). split; [|by exists w].
  eapply (core_with_fragments (set_proc t w)); [done|done| |apply evolves_app; [reflexivity|simpl; lia]|by eapply lexer_weak_bound].
  by apply shape_add.
Qed.

Lemma evolves_insert l i g g' i0 n : l !! i = Some g -> (i0 <= i)%nat -> fr_begin g' = fr_begin g ->
  fr_kind g <> CSH_FRAGMENT_CONTINUATION \/ (n <= fr_begin g)%nat -> evolves l (<[i := g']> l) i0 n.
Proof.
  intros Hi H0 Eb Hk. split.
  - intros j Hj. by rewrite list_lookup_insert_ne by lia.
  - by rewrite length_insert.
  - intros j h Hh Hlt. destruct (decide (j = i)) as [->|Hne].
    + rewrite list_lookup_insert_eq in Hh by by eapply lookup_lt_Some. simplify_eq. exists g. split_and!; [done|done|].
      right. destruct Hk as [?|?]; [done|lia].
    + rewrite list_lookup_insert_ne in Hh by done. exists h. split_and!; [done|done|by left].
Qed.

(** The lexer of a piece before its bytes are read: the fragment is the last. *)
Record opened (k : csh_fragment_kind) (x x1 : csh_lexer) (index : nat) (g : csh_fragment) : Prop := mk_opened {
  op_lexer : x1 = with_fragments x (fragments x1);
  op_index : S index = length (fragments x1);
  op_lookup : fragments x1 !! index = Some g;
  op_kind : fr_kind g = k;
  op_parent : fr_parent g = parent_fragment x;
  op_evolves : forall g', fr_begin g' = fr_begin g -> fr_kind g' = k ->
    evolves (fragments x) (<[index := g']> (fragments x1)) index (length (raw x));
  op_below : (length (fragments x) <= S index)%nat;
  op_guard : match arithmetic x with c :: _ => cp_fragment_count c <= index | [] => True end%nat;
  op_text : k <> CSH_FRAGMENT_TEXT -> fr_begin g = length (raw x) /\ fragments x1 = fragments x ++ [g];
  op_kept : forall i h, fragments x !! i = Some h -> fragments x1 !! i = Some h;
  op_old : forall i h, i <> index -> fragments x1 !! i = Some h -> fragments x !! i = Some h }.

Lemma open_piece_post k q t x behind : core t -> t_lexers t = x :: behind -> guarded x ->
  lpost (if extends x k q then lret (length (fragments x) - 1)%nat else add_fragment k q) t
    (fun index t1 => exists x1 g w, t1 = set_lexers (set_proc t w) (x1 :: behind) /\ core t1 /\ opened k x x1 index g) failed_ok.
Proof.
  intros Hc Et Hg. destruct (extends x k q) eqn:Ee.
  - unfold extends in Ee. apply andb_true_iff in Ee as [Ek Ee]. apply bool_decide_eq_true in Ek as ->.
    destruct (last (fragments x)) as [f|] eqn:El; [|done].
    apply andb_true_iff in Ee as [[[E1%bool_decide_eq_true E2]%andb_true_iff E3%bool_decide_eq_true]%andb_true_iff E4].
    rewrite last_lookup in El. pose proof (lookup_lt_Some _ _ _ El) as Hlt.
    apply lpost_ret. exists x, f, (t_proc t).
    assert (set_lexers (set_proc t (t_proc t)) (x :: behind) = t) as -> by (destruct t; cbn in *; by subst).
    split; [done|]. split; [done|]. replace (pred (length (fragments x))) with (length (fragments x) - 1)%nat in El by lia.
    split; try done; try lia.
    + by destruct x.
    + intros g' Eb Ek. eapply evolves_insert; [exact El|lia|done|]. left. by rewrite E1.
    + unfold guarded in Hg. destruct (arithmetic x); [done|]. lia.
  - eapply lpost_mono; [by apply add_fragment_post|]. intros i t1 (-> & Hc1 & w & ->).
    exists (with_fragments x (fragments x ++ [new_fragment k q x])), (new_fragment k q x), w.
    split; [done|]. split; [done|]. split; cbn [fragments with_fragments]; try done; try lia.
    + rewrite length_app. simpl. lia.
    + by rewrite lookup_app_r, Nat.sub_diag by lia.
    + intros g' Eb Ek. rewrite insert_app_r_alt, Nat.sub_diag by lia. cbn. apply evolves_app; [done|]. by rewrite Eb.
    + eapply lexer_weak_bound. apply (core_lexer _ _ _ Hc Et).
    + intros i h Hi. by apply lookup_app_l_Some.
    + intros i h Hne Hi. apply lookup_app_Some in Hi as [Hi|[Hi Hs]]; [done|].
      apply list_lookup_singleton_Some in Hs as [? _]. lia.
Qed.

Lemma parent_open x k : parent_fragment x = Some k -> k ∈ open_of (frames x).
Proof.
  unfold parent_fragment. destruct (frames x) as [|f fs]; [done|]. intros [= <-]. by apply elem_of_cons; left.
Qed.

Lemma piece_post k q n t x behind : core t -> t_lexers t = x :: behind -> active x = true -> guarded x ->
  (n <= length (text (t_source t)))%nat -> (1 <= n)%nat -> (k = CSH_FRAGMENT_ESCAPE \/ k = CSH_FRAGMENT_CONTINUATION -> (2 <= n)%nat) ->
  lpost (piece k q n) t (fun _ t' => exists x', worked n t t' x x' /\ frames x' = frames x /\
    forall j g, (length (fragments x) <= j)%nat -> fragments x' !! j = Some g -> fr_kind g = k) failed_ok.
Proof.
  intros Hc Et Ha Hg Hn H1n Hesc. unfold piece. eapply lpost_get_lexer; [exact Et|]. apply lpost_bind.
  eapply lpost_mono; [by eapply open_piece_post|]. intros index t1 (x1 & g & w & -> & Hc1 & Ho).
  apply lpost_bind. eapply lpost_mono; [by apply consume_post|].
  intros _ t2 (Hc2 & F2 & T2 & y & b & x2 & b2 & E1 & E2 & [p Hx2] & G2). cbn [set_lexers set_proc t_lexers t_source] in *. injection E1 as <- <-. subst x2.
  rewrite (op_lexer _ _ _ _ _ Ho) in E2. cbn [active with_fragments] in E2. rewrite Ha in E2. cbn [raw with_fragments] in E2.
  set (bytes := take n (text (t_source t))) in *. unfold finish_fragment. eapply lpost_get_lexer; [exact E2|].
  cbn [fragments with_raw with_fragments]. rewrite (op_lookup _ _ _ _ _ Ho). unfold lpost, put_lexer.
  set (g' := finished g _ _). set (l3 := <[index := g']> (fragments x1)).
  assert (raw (with_raw (with_fragments x (fragments x1)) (raw x ++ bytes) p) = raw x ++ bytes) as Er by done.
  assert (length bytes = n) as Hbytes by (subst bytes; rewrite length_take; lia).
  pose proof (core_lexer _ _ _ Hc2 E2) as ((T & Hb & Hl) & _ & _). cbn in T, Hb, Hl.
  pose proof (core_lexer _ _ _ Hc1 eq_refl) as (S1 & _ & _). rewrite (op_lexer _ _ _ _ _ Ho) in S1. cbn in S1.
  assert (shape l3 (frames x) (length (raw x ++ bytes))) as S3.
  { subst l3 g'. eapply shape_finish; [exact S1|apply (op_lookup _ _ _ _ _ Ho)|rewrite length_app; lia|..]; auto.
    - intros j h Hj Hh. apply lookup_lt_Some in Hh. pose proof (op_index _ _ _ _ _ Ho). lia.
    - intros k' Ek. rewrite (op_parent _ _ _ _ _ Ho) in Ek. by apply parent_open. }
  exists (with_fragments (with_raw (with_fragments x (fragments x1)) (raw x ++ bytes) p) l3). split; [split|]; try done.
  - rewrite E2. cbn [tail]. destruct (core_lexer _ _ _ Hc2 E2) as (_ & _ & Ha2). destruct Hc2 as (Hso & Hca & _).
    split; [done|]. split; [done|]. eexists _, b2. split; [done|]. split; [exact S3|]. split; [|exact Ha2].
    eapply weak_alike; [by apply grown_alike|]. pose proof (core_lexer _ _ _ Hc Et) as (_ & Hw & _).
    eapply weak_evolve; [exact Hw| |apply (op_guard _ _ _ _ _ Ho)| |by apply grown_lens].
    + by apply (op_evolves _ _ _ _ _ Ho); [|apply Ho].
    + cbn. rewrite length_app. lia.
  - exists behind, b2. cbn [t_lexers]. rewrite E2. by split_and!.
  - cbn [fragments with_fragments with_raw]. intros j h Hj. subst l3. destruct (decide (j = index)) as [->|Hne].
    + exists g'. rewrite list_lookup_insert_eq by (eapply lookup_lt_Some, op_lookup; done). split; [done|]. subst g'. cbn.
      pose proof (op_kept _ _ _ _ _ Ho _ _ Hj) as Hg'. rewrite (op_lookup _ _ _ _ _ Ho) in Hg'. by injection Hg' as ->.
    + exists h. rewrite list_lookup_insert_ne by done. split; [|done]. by eapply op_kept.
  - cbn [fragments frames raw with_fragments with_raw]. intros m He i h Hi. subst l3. destruct (decide (i = index)) as [->|Hne].
    + rewrite list_lookup_insert_eq in Hi by (eapply lookup_lt_Some, op_lookup; done). injection Hi as <-. cbn.
      rewrite (op_kind _ _ _ _ _ Ho). pose proof (tree_range _ _ _ (proj1 S1) _ _ (op_lookup _ _ _ _ _ Ho)) as Hrg.
      rewrite length_app, Hbytes. split; [lia|]. split; [lia|]. intros Ek. specialize (Hesc Ek).
      destruct (op_text _ _ _ _ _ Ho) as [-> _]; [destruct Ek; congruence|]. lia.
    + rewrite list_lookup_insert_ne in Hi by done. apply (op_old _ _ _ _ _ Ho) in Hi; [|done].
      destruct (He i h Hi) as (A & ? & ?). rewrite length_app. split_and!; [intros Hin; specialize (A Hin); lia|done|done].
  - cbn. exists index. split; [by apply (op_evolves _ _ _ _ _ Ho); [|apply Ho]|].
    pose proof (core_lexer _ _ _ Hc Et) as ((_ & Hb0 & _) & _). eapply frames_below_mono; [|exact Hb0]. apply Ho.
  - split; [done|]. cbn. intros j h Hj Hh. subst l3. destruct (decide (j = index)) as [->|Hne].
    + rewrite list_lookup_insert_eq in Hh by (eapply lookup_lt_Some, op_lookup; done). injection Hh as <-. apply Ho.
    + rewrite list_lookup_insert_ne in Hh by done. apply (op_old _ _ _ _ _ Ho) in Hh; [|done]. apply lookup_lt_Some in Hh. lia.
Qed.

Lemma moved_worked k t t' x behind : core t -> moved k t t' -> t_lexers t = x :: behind -> active x = true ->
  exists x', worked k t t' x x' /\ frames x' = frames x /\ continued x x'.
Proof.
  intros Hc (Hc' & F & T & y & b & x' & b' & E1 & E2 & [p ->] & G) Et Ha. rewrite Et in E1. injection E1 as <- <-.
  rewrite Ha in E2. exists (with_raw x (raw x ++ take k (text (t_source t))) p). split; [|split; [done|by apply continued_refl]]. split; try done.
  - exists behind, b'. by split_and!.
  - intros j g Hj. by exists g.
  - intros m He. eapply finished_mono; [|exact He]. lia.
  - exists (length (fragments x)). split; [apply evolves_refl|].
    pose proof (core_lexer _ _ _ Hc Et) as ((_ & Hb & _) & _). eapply frames_below_mono; [|exact Hb]. lia.
Qed.

Lemma worked_zero t x behind : core t -> t_lexers t = x :: behind -> active x = true -> worked 0 t t x x.
Proof.
  intros Hc Et Ha. split; try done.
  - exists behind, behind. split_and!; [done..|]. clear. induction behind; constructor; [by left|done].
  - cbn. by rewrite app_nil_r.
  - intros j g Hj. by exists g.
  - intros m He. eapply finished_mono; [|exact He]. lia.
  - exists (length (fragments x)). split; [apply evolves_refl|].
    pose proof (core_lexer _ _ _ Hc Et) as ((_ & Hb & _) & _). eapply frames_below_mono; [|exact Hb]. lia.
Qed.

Lemma worked_guarded k t t' x x' : worked k t t' x x' -> guarded x -> guarded x'.
Proof.
  intros [] H. unfold guarded in *. rewrite wk_arith0. destruct wk_evolves0 as (i & [_ Hl _] & _).
  destruct (arithmetic x); [done|]. lia.
Qed.

Lemma worked_active k t t' x x' : worked k t t' x x' -> active x = true -> active x' = true.
Proof. intros [] H. injection wk_flags0 as -> _ _ _ _ _ _. done. Qed.

Lemma worked_lexers k t t' x x' : worked k t t' x x' -> exists behind', t_lexers t' = x' :: behind'.
Proof. intros []. destruct wk_lexers0 as (? & b & _ & ? & _). by exists b. Qed.

Lemma delimiter_post f k q t x behind : core t -> t_lexers t = x :: behind -> active x = true -> guarded x ->
  (k <= f)%nat -> (k <= length (text (t_source t)))%nat ->
  lpost (lex_delimiter f k q) t (fun _ t' => exists x', worked k t t' x x' /\ frames x' = frames x /\ continued x x') failed_ok.
Proof.
  revert k t x behind. induction f as [|f IH]; intros k t x behind Hc Et Ha Hg Hf Hk.
  { destruct k; [|lia]. apply lpost_ret. exists x. split; [by eapply worked_zero|]. split; [done|by apply continued_refl]. }
  destruct k as [|k].
  { apply lpost_ret. exists x. split; [by eapply worked_zero|]. split; [done|by apply continued_refl]. }
  cbn [lex_delimiter].
  apply lpost_get_source. destruct (text (t_source t)) as [|b rest] eqn:Ex; [simpl in Hk; lia|].
  destruct (text_step _ _ _ Ex) as (-> & _ & Hr).
  assert (forall j t1 x1, worked j t t1 x x1 -> frames x1 = frames x -> continued x x1 -> (1 <= j <= S k)%nat ->
    lpost (lex_delimiter f (S k - j) q) t1
      (fun _ t' => exists x', worked (S k) t t' x x' /\ frames x' = frames x /\ continued x x') failed_ok) as Hnext.
  { intros j t1 x1 Hw Ef Hx Hj. destruct (worked_lexers _ _ _ _ _ Hw) as [b1 Et1].
    eapply lpost_mono; [eapply IH; [apply Hw|exact Et1|by eapply worked_active|by eapply worked_guarded|lia|]|].
    - rewrite (wk_text _ _ _ _ _ Hw), Ex, length_drop. simpl in *. lia.
    - intros _ t' (x' & Hw' & Ef' & Hx'). exists x'. split; [|split; [congruence|by eapply continued_trans]].
      replace (S k) with (j + (S k - j))%nat by lia. by eapply worked_trans. }
  assert (lpost (lbind (consume 1) (fun _ => lex_delimiter f k q)) t
    (fun _ t' => exists x', worked (S k) t t' x x' /\ frames x' = frames x /\ continued x x') failed_ok) as Hone.
  { apply lpost_bind. eapply lpost_mono; [apply consume_post; [done|rewrite Ex; simpl; lia]|]. intros [] t1 Hm.
    destruct (moved_worked _ _ _ _ _ Hc Hm Et Ha) as (x1 & Hw & Ef & Hx). specialize (Hnext 1%nat t1 x1 Hw Ef Hx ltac:(lia)).
    replace (S k - 1)%nat with k in Hnext by lia. exact Hnext. }
  destruct ((2 <=? S k)%nat && (b =? ch "\")) eqn:E2; [|exact Hone]. apply andb_true_iff in E2 as [E2 _]. apply Nat.leb_le in E2.
  destruct rest as [|d rest]; [simpl in Hk; lia|].
  assert (data (t_source t) !! S (cursor (t_source t)) = Some d) as ->.
  { rewrite <- (Nat.add_0_r (S _)), <- lookup_drop, Hr. done. }
  destruct (d =? 10); [|exact Hone]. apply lpost_bind.
  eapply lpost_mono; [apply (piece_post _ _ _ _ _ _ Hc Et Ha Hg); [rewrite Ex; simpl; lia|lia|lia]|].
  intros _ t1 (x1 & Hw & Ef & Hx). apply (Hnext 2%nat _ x1); [exact Hw|exact Ef|exact Hx|lia].
Qed.

(** ** Frames *)

Lemma push_post k fk q n t x behind : core t -> t_lexers t = x :: behind -> active x = true ->
  (1 <= n <= length (text (t_source t)))%nat ->
  fk <> CSH_FRAGMENT_TEXT -> fk <> CSH_FRAGMENT_CONTINUATION -> fk <> CSH_FRAGMENT_ESCAPE ->
  lpost (push k fk q n) t (fun _ t' => exists x', worked n t t' x x' /\
    frames x' = mk_frame k q (length (fragments x)) 0 0 :: frames x /\
    forall j g, (length (fragments x) < j)%nat -> fragments x' !! j = Some g -> fr_kind g = CSH_FRAGMENT_CONTINUATION) failed_ok.
Proof.
  intros Hc Et Ha Hn H1 H2 H3. unfold push. apply lpost_bind.
  eapply lpost_mono; [by apply add_fragment_post|]. intros i t1 (-> & Hc1 & w & ->).
  set (l1 := fragments x ++ [new_fragment fk q x]). eapply lpost_get_lexer; [reflexivity|].
  apply grow_post; [done|done|]. intros w'. apply lpost_put_lexer. cbn [set_proc set_lexers t_lexers tail frames with_fragments].
  set (F := mk_frame k q (length (fragments x)) 0 0). set (x2 := with_frames (with_fragments x l1) (F :: frames x)).
  set (t2 := set_lexers _ _).
  pose proof (core_lexer _ _ _ Hc Et) as ((T & Hb & Hl) & Hw & Han).
  pose proof (core_lexer _ _ _ Hc1 eq_refl) as ((T1 & Hb1 & Hl1) & Hw1 & _).
  assert (length l1 = S (length (fragments x))) as Elen by (subst l1; rewrite length_app; simpl; lia).
  assert (core t2) as Hc2.
  { destruct Hc1 as (Hso & Hca & _). split; [done|]. split; [done|]. exists x2, behind. split; [done|].
    split; [|split; [|done]].
    - split; [|split; [split; [cbn; lia|exact Hb]|split; [|exact Hl1]]].
      + destruct T1. constructor; try done; cbn [open_of map fm_fragment].
        * intros j g k' Hg Ep. destruct (tree_within0 _ _ _ Hg Ep) as [?|?]; [left; by apply elem_of_cons; right|by right].
        * intros j g [->|Hj]%elem_of_cons Hg; [|by eapply tree_kind0]. cbn in Hg. subst l1.
          rewrite lookup_app_r, Nat.sub_diag in Hg by lia. by injection Hg as <-.
        * intros j j' g [->|Hj]%elem_of_cons Hij Hg; [|by eapply tree_open0]. apply lookup_lt_Some in Hg. cbn in Hg, Hij. lia.
      + cbn. exists (new_fragment fk q x). subst l1. rewrite lookup_app_r, Nat.sub_diag by lia. split; [done|].
        unfold new_fragment, parent_fragment, open_of. cbn. by destruct (frames x).
    - unfold lexer_weak, weak in *. cbn in *. destruct (arithmetic x) as [|c cs]; [done|].
      destruct Hw1 as (above & below & -> & Hck). by exists (F :: above), below. }
  assert (guarded x2) as Hg2.
  { unfold guarded. cbn. pose proof (lexer_weak_bound _ _ Hw) as Hbd. destruct (arithmetic x); [done|]. lia. }
  eapply lpost_mono; [apply (delimiter_post _ _ _ t2 x2 behind Hc2 eq_refl Ha Hg2); [lia|apply Hn]|].
  intros _ t' (x' & Hw' & Ef & Hx). destruct Hw'. exists x'. split; [|split; [by rewrite Ef|]].
  - split; try done.
    + destruct wk_lexers0 as (b & b' & E1 & E2 & G). injection E1 as <-. by exists behind, b'.
    + intros j g Hj. apply wk_kinds0. cbn. subst l1. by apply lookup_app_l_Some.
    + intros m He. eapply finished_mono; [|apply (wk_finished0 (Nat.max m (S (length (raw x)))))].
      { rewrite wk_raw0, length_app, length_take. cbn. lia. }
      cbn [fragments frames raw with_frames with_fragments open_of map].
      intros j g Hg. subst l1. apply lookup_app_Some in Hg as [Hg|[Hge Hg]].
      * pose proof (lookup_lt_Some _ _ _ Hg). destruct (He j g Hg) as (A & B & D).
        split_and!; [|intros Hj; apply B; intros Hj'; apply Hj; by apply elem_of_cons; right|done].
        intros [Ej|Hj]%elem_of_cons; [cbn in Ej; lia|]. specialize (A Hj). lia.
      * apply list_lookup_singleton_Some in Hg as [Ej <-]. cbn. split_and!; [lia| |by intros [?|?]].
        intros Hj. destruct Hj. apply elem_of_cons; left. lia.
    + destruct wk_evolves0 as (i & Hi & [Hfi Hbi]). cbn in Hfi. exists (Nat.min (length (fragments x)) i). split.
      * eapply evolves_trans; [apply (evolves_app _ (new_fragment fk q x) _ (length (raw x)) eq_refl); simpl; lia|exact Hi|done].
      * eapply frames_below_mono; [|exact Hb]. lia.
  - intros j g Hj. apply Hx. cbn. lia.
Qed.

Lemma pop_post n t x behind f below : core t -> t_lexers t = x :: behind -> active x = true -> guarded x ->
  frames x = f :: below -> (n <= length (text (t_source t)))%nat ->
  (match arithmetic x with c :: _ => cp_fragment_count c <= fm_fragment f | [] => True end)%nat ->
  (exists m, finished_ok (fragments x) (open_of (frames x)) m /\ m <= length (raw x) + n)%nat ->
  lpost (pop n) t (fun _ t' => exists x', worked n t t' x x' /\ frames x' = below) failed_ok.
Proof.
  intros Hc Et Ha Hg Efs Hn Hck (m0 & Hm0 & Hle0). unfold pop. eapply lpost_get_lexer; [exact Et|]. rewrite Efs. apply lpost_bind.
  eapply lpost_mono; [by eapply delimiter_post|]. intros _ t1 (x1 & Hw1 & Ef1 & _). apply lpost_bind.
  destruct (worked_lexers _ _ _ _ _ Hw1) as [b1 Et1]. pose proof (wk_core _ _ _ _ _ Hw1) as Hc1.
  pose proof (core_lexer _ _ _ Hc1 Et1) as ((T & Hb & Hl) & Hwk & Han). rewrite Ef1, Efs in T, Hb, Hl.
  destruct Hl as [(g & Hi & Ep) Hl]. unfold finish_fragment. eapply lpost_get_lexer; [exact Et1|]. rewrite Hi.
  unfold lpost at 1, put_lexer. rewrite Et1. cbn [tail]. eapply lpost_get_lexer; [reflexivity|]. unfold lpost, put_lexer.
  cbn [t_lexers tail frames with_fragments fragments]. rewrite Ef1, Efs. cbn [tail].
  set (l2 := <[fm_fragment f := finished g (length (raw x1)) (spelling_position x1)]> (fragments x1)).
  assert (shape l2 below (length (raw x1))) as S2.
  { subst l2. eapply (shape_finish _ (f :: below)); [split_and!; [exact T|exact Hb|]|exact Hi|done|..].
    - split; [by exists g|done].
    - intros j h Hj Hh Ep'. destruct (tree_open _ _ _ T (fm_fragment f) j h) as (k & Ek & Hle); [by apply elem_of_cons; left|done|done|].
      rewrite Ek in Ep'. symmetry in Ep'. apply (tree_parent _ _ _ T _ _ _ Hi) in Ep'. lia.
    - intros k Ek. rewrite Ep in Ek. unfold open_of in *. destruct below; [done|]. injection Ek as <-. by apply elem_of_cons; left.
    - intros k [->|Hk]%elem_of_cons; [by right|by left].
    - intros k Hk. by apply elem_of_cons; right.
    - destruct Hb as [Hf Hb]. eapply frames_below_mono; [|exact Hb]. lia.
    - exact Hl. }
  assert (evolves (fragments x1) l2 (fm_fragment f) (length (raw x1))) as Hev.
  { eapply evolves_insert; [exact Hi|done|done|]. left.
    by apply (tree_kind _ _ _ T (fm_fragment f) g); [apply elem_of_cons; left|]. }
  assert (fr_begin g < length (raw x1))%nat as Hbegin.
  { pose proof (wk_finished _ _ _ _ _ Hw1 _ Hm0) as Hf0. rewrite Ef1, Efs in Hf0. destruct (Hf0 _ _ Hi) as (A & _).
    specialize (A ltac:(by apply elem_of_cons; left)). pose proof (wk_raw _ _ _ _ _ Hw1) as Er.
    apply (f_equal length) in Er. rewrite length_app, length_take in Er. lia. }
  exists (with_frames (with_fragments x1 l2) below). split; [|done]. destruct Hw1. split; try done.
  - destruct Hc1 as (Hso & Hca & _). split; [done|]. split; [done|]. eexists _, b1. split; [done|]. split; [exact S2|]. split; [|done].
    unfold lexer_weak in *. cbn [fragments frames arithmetic raw with_frames with_fragments].
    eapply weak_evolve; [|exact Hev|by rewrite wk_arith0|done|apply Forall2_le_refl]. rewrite Ef1, Efs in Hwk.
    rewrite wk_arith0 in *. unfold weak in *. destruct (arithmetic x) as [|c cs]; [done|].
    destruct Hwk as (above & below' & Eab & Hckp). destruct above as [|f' above].
    + exfalso. cbn in Eab. subst below'. destruct Hckp as (? & ? & ? & _ & _ & _ & _ & (_ & [Hfb _] & _) & _).
      rewrite length_take in Hfb. lia.
    + cbn in Eab. injection Eab as _ ->. by exists above, below'.
  - destruct wk_lexers0 as (b & b' & E1 & E2 & G). rewrite Et1 in E2. injection E2 as <-. by exists b, b1.
  - intros j h Hj. destruct (wk_kinds0 _ _ Hj) as (h' & Hh' & <-). cbn. subst l2.
    destruct (decide (j = fm_fragment f)) as [->|Hne].
    + rewrite list_lookup_insert_eq by by eapply lookup_lt_Some. eexists. split; [done|]. cbn. by simplify_eq.
    + exists h'. by rewrite list_lookup_insert_ne.
  - intros m He j h Hh. subst l2. cbn in Hh. specialize (wk_finished0 m He). rewrite Ef1, Efs in wk_finished0.
    cbn [raw with_frames with_fragments frames fragments] in *.
    destruct (decide (j = fm_fragment f)) as [->|Hne].
    + rewrite list_lookup_insert_eq in Hh by by eapply lookup_lt_Some. injection Hh as <-. cbn.
      destruct (wk_finished0 _ _ Hi) as (A & B & D). specialize (A ltac:(by apply elem_of_cons; left)).
      pose proof (tree_range _ _ _ T _ _ Hi). split_and!.
      * intros Hin. apply (open_bound _ _ _ (proj2 Hb)) in Hin. lia.
      * done.
      * intros Ek. specialize (D Ek). lia.
    + rewrite list_lookup_insert_ne in Hh by done. destruct (wk_finished0 _ _ Hh) as (A & B & D). split_and!; [|..|done].
      * intros Hin. apply A. by apply elem_of_cons; right.
      * intros Hin. apply B. intros [?|?]%elem_of_cons; done.
  - destruct wk_evolves0 as (i & Hi1 & Hfi). exists (Nat.min i (fm_fragment f)). split.
    + cbn. eapply evolves_trans; [exact Hi1|exact Hev|]. rewrite wk_raw0, length_app. lia.
    + apply frames_below_min; [done|]. rewrite Efs. destruct Hb as [_ Hb]. split; [lia|done].
Qed.
End Core.
