(* ===== verification/LexerSafety.v ===== *)
(** * The lexer never leaves its buffers and always returns

    [ready] is the invariant of a tape between calls.  Every turn of the main
    loop ends in a result or keeps it and has less to do, so the turns that
    [next_token] allows are enough; a failed arithmetic candidate goes back to
    its checkpoint, which is ready again. *)

From stdpp Require Import base list gmap strings sorting.
From S2P Require Import Prelude Output State Arithmetic ArithmeticTheorems Character Expansion Lexer LexerLook LexerTree.

(** ** The text of an arithmetic candidate *)

Section Probe.
Context (spelling : str) (l : list csh_fragment) (candidate : nat) (partial : bool).
Context (open : list nat) (m : nat).
Context (T : tree l open (length spelling)) (F : finished_ok l open m).

(** The children that are left begin behind the cursor, or are read. *)
Definition ahead (index at_ : nat) : Prop :=
  forall j g, (index <= j)%nat -> l !! j = Some g -> fr_parent g = Some candidate ->
    (at_ <= fr_begin g)%nat \/ (fr_begin g < fr_end g <= at_)%nat.

Lemma ahead_next (index at_ : nat) : ahead index at_ -> ahead (S index) at_.
Proof. intros H j g Hj. apply H. lia. Qed.

Lemma ahead_behind (index at_ at' : nat) (g : csh_fragment) : l !! index = Some g -> fr_parent g = Some candidate ->
  (at' <= fr_end g)%nat -> ahead (S index) at'.
Proof.
  intros Hg Hp Hle j h Hj Hh Hp'. left. assert (fr_parent g = fr_parent h) as E by congruence.
  pose proof (tree_disjoint _ _ _ T index j g h ltac:(lia) Hg Hh E). lia.
Qed.

(** No read and no write leaves its buffer, and the loop ends. *)
Lemma probe_loop_runs `{Locale} (fuel index at_ room : nat) : ahead index at_ ->
  (length l - index + (length spelling - at_) < fuel)%nat -> (length spelling - at_ <= room)%nat ->
  is_Some (probe_loop fuel spelling l candidate partial index at_ room).
Proof.
  revert index at_ room. induction fuel as [|f IH]; intros index at_ room Ha Hf Hr; [lia|]. cbn [probe_loop].
  destruct (Nat.leb_spec (length spelling) at_) as [Hge|Hlt]; [by eexists|]. cbv zeta.
  assert (forall b at' index', (at_ < at')%nat -> (index <= index')%nat -> ahead index' at' ->
    is_Some match room with
      | O => None
      | S room => cons b <$> probe_loop f spelling l candidate partial index' at' room
      end) as Hstore.
  { intros b at' index' H1 H2 H3. destruct room as [|room]; [lia|]. apply fmap_is_Some, IH; [done|lia|lia]. }
  assert (forall at' index', (at_ <= at' < length spelling)%nat -> (index <= index')%nat -> ahead index' (S at') ->
    is_Some match spelling !! at' with
      | None => None
      | Some b => match room with
          | O => None
          | S room => cons b <$> probe_loop f spelling l candidate partial index' (S at') room
          end
      end) as Hplain.
  { intros at' index' H1 H2 H3. destruct (lookup_lt_is_Some_2 spelling at') as [b ->]; [lia|]. apply Hstore; [lia|done|done]. }
  destruct (l !! index) as [g|] eqn:Hg.
  2: { apply Hplain; [lia|done|]. intros j h Hj Hh. apply lookup_lt_Some in Hh. apply lookup_ge_None in Hg. lia. }
  destruct (Nat.leb_spec (fr_begin g) at_) as [Hb|Hb].
  2: { apply Hplain; [lia|done|]. intros j h Hj Hh _. left. destruct (decide (j = index)) as [->|]; [simplify_eq; lia|].
       pose proof (tree_sorted _ _ _ T index j g h ltac:(lia) Hg Hh). lia. }
  pose proof (lookup_lt_Some _ _ _ Hg) as Hil. pose proof (tree_range _ _ _ T _ _ Hg) as Hrg.
  set (unfinished := partial && _).
  destruct ((negb unfinished && (fr_end g <=? at_)%nat) || negb (bool_decide (fr_parent g = Some candidate))) eqn:Es.
  { apply IH; [by apply ahead_next|lia|done]. }
  apply orb_false_iff in Es as [Ee Ep]. apply negb_false_iff, bool_decide_eq_true in Ep.
  assert (unfinished = true /\ (fr_end g = fr_begin g)%nat \/ unfinished = false /\ (at_ < fr_end g)%nat) as Hu.
  { subst unfinished. destruct partial; cbn in *; [destruct (Nat.eqb_spec (fr_end g) (fr_begin g)); cbn in *|];
      [by left|right..]; (split; [done|]; by apply Nat.leb_gt in Ee). }
  destruct (Ha index g ltac:(lia) Hg Ep) as [Hat|Hat]; [|lia].
  assert (forall j h, (index < j)%nat -> l !! j = Some h -> fr_parent h = Some candidate -> unfinished = false) as Hlast.
  { intros j h Hj Hh Hp. destruct Hu as [[_ Hu]|[Hu _]]; [|done]. exfalso.
    destruct (F _ _ Hg) as (_ & F2 & _). destruct (decide (index ∈ open)) as [Ho|Ho]; [|specialize (F2 Ho); lia].
    destruct (tree_open _ _ _ T _ _ _ Ho Hj Hh) as (k & Ek & Hk). rewrite Hp in Ek. injection Ek as <-.
    pose proof (tree_parent _ _ _ T _ _ _ Hg Ep). lia. }
  assert (forall at', (at' <= fr_end g \/ unfinished = true)%nat -> ahead (S index) at') as Hnext.
  { intros at' Hat' j h Hj Hh Hp. specialize (Hlast j h ltac:(lia) Hh Hp). destruct Hat' as [Hat'|Hat']; [|congruence].
    by apply (ahead_behind index at_ at' g Hg Ep Hat' j h). }
  assert (forall at', (at_ <= at' < fr_end g)%nat \/ at' = at_ -> is_Some
    match spelling !! at' with
    | None => None
    | Some b => match room with
        | O => None
        | S room => cons b <$> probe_loop f spelling l candidate partial (S index) (S at') room
        end
    end) as Hbyte.
  { intros at' Hat'. apply Hplain; [|lia|].
    - destruct Hat' as [?| ->]; lia.
    - apply Hnext. destruct Hu as [[? _]|[_ ?]]; [by right|]. left. destruct Hat' as [?| ->]; lia. }
  destruct (F _ _ Hg) as (_ & _ & Hwide). destruct (fr_kind g); try by (apply Hbyte; right).
  1: { apply Hbyte. left. specialize (Hwide (or_introl eq_refl)). lia. }
  1: { apply IH; [apply Hnext; by left|lia|]. specialize (Hwide (or_intror eq_refl)). lia. }
  all: apply Hstore; [destruct Hu as [[-> _]|[-> ?]]; lia|lia|]; apply Hnext;
    destruct Hu as [[-> _]|[-> _]]; [by right|by left].
Qed.
End Probe.

Lemma arith_wf_latest C l fs c cs n ns : arith_wf C l fs (c :: cs) n ns -> exists above f below, fs = above ++ f :: below /\
  cp_fragment_count c = fm_fragment f /\ (cp_body_begin c <= n)%nat /\
  (forall j g, (fm_fragment f < j)%nat -> l !! j = Some g -> (fr_begin g < cp_body_begin c)%nat ->
     fr_kind g = CSH_FRAGMENT_CONTINUATION /\ (fr_end g <= cp_body_begin c)%nat) /\
  checkpoint_ok C (arith_wf C l) c cs l below n ns.
Proof.
  induction fs as [|f fs IH]; cbn [arith_wf]; [done|]. destruct (bool_decide _).
  - intros (E & Hb & Ho & Hc). by exists [], f, fs.
  - intros H. destruct (IH H) as (above & g & below & -> & H'). by exists (f :: above), g, below.
Qed.

Section Safety.
Context {loc : Locale} {LL : LocaleLaws loc} {ST : StableLocale loc} {db : LocaleDb}.

(** The tapes that differ in the answers of the environment only. *)
Definition same_tape (t t' : tape) : Prop := t_source t' = t_source t /\ t_lexers t' = t_lexers t.

Lemma core_same t t' : same_tape t t' -> core t -> core t'.
Proof. intros [E1 E2]. unfold core. by rewrite E1, E2. Qed.

Lemma probe_arithmetic_post x behind partial t : core t -> t_lexers t = x :: behind -> lexer_full x behind ->
  arithmetic x <> [] ->
  lpost (probe_arithmetic x partial) t (fun _ t' => same_tape t t') failed_ok.
Proof.
  intros Hc Et [He Ha] Hne. unfold probe_arithmetic. destruct (arithmetic x) as [|c cs] eqn:Ea; [done|].
  apply lpost_get_source, lpost_lmalloc. intros b w. destruct b; [|by apply fail_at_post]. cbn [negb].
  destruct (arith_wf_latest _ _ _ _ _ _ _ Ha) as (above & f & below & Ef & Ec & Hb & Ho & Hck).
  pose proof (core_lexer _ _ _ Hc Et) as ((T & _ & _) & _ & _).
  destruct (probe_loop_runs (raw x) (fragments x) (cp_fragment_count c) partial _ _ T He
    (S (length (fragments x) + length (raw x))) (S (cp_fragment_count c)) (cp_body_begin c)
    (length (raw x) - cp_body_begin c)) as [found Efound]; [|lia|lia|].
  { intros j g Hj Hg _. destruct (Nat.lt_ge_cases (fr_begin g) (cp_body_begin c)) as [Hlt|Hge]; [right|by left].
    destruct (Ho j g ltac:(lia) Hg Hlt) as [Hk He']. destruct (He _ _ Hg) as (_ & _ & Hw). specialize (Hw (or_intror Hk)). lia. }
  rewrite Efound. cbv zeta. generalize (merge_operands (S (length found)) found). intros text.
  apply lpost_bind. unfold next_stack. assert (forall stack st w',
    lpost (let% valid := (if partial then probing (csh_arith_probe_prefix (Some text) stack)
            else let% r := probing (csh_arith_probe (Some text) stack) in
                 lret (if bool_decide (r = CSH_ARITH_RESOURCE) then -1 else of_bool (bool_decide (r = CSH_ARITH_OK)))) in
          if valid =? -1 then fail_at x (bs "arithmetic stack exhausted") ENOMEM (so_position (t_source t))
          else lret (negb (valid =? 0))) (mk_tape (t_source t) (t_lexers t) st w') (fun _ t' => same_tape t t') failed_ok) as Hrest.
  { intros stack st w'. destruct (probes_return (Some text) stack w') as [[[r1 w1] E1] [[r2 w2] E2]].
    apply lpost_bind. unfold lpost at 1.
    assert (forall (v : Z) w3, lpost (if v =? -1 then fail_at x (bs "arithmetic stack exhausted") ENOMEM (so_position (t_source t))
        else lret (negb (v =? 0))) (mk_tape (t_source t) (t_lexers t) st w3) (fun _ t' => same_tape t t') failed_ok) as Hv.
    { intros v w3. destruct (v =? -1); [apply fail_at_post; [|done]|by apply lpost_ret]. by eapply core_same; [|exact Hc]. }
    destruct partial; unfold probing, lbind, lret; cbn [t_proc]; [rewrite E2|rewrite E1]; apply Hv. }
  unfold lpost at 1. cbn [t_stack set_proc]. destruct (t_stack t) as [|k rest]; cbn; apply Hrest.
Qed.

(** ** The invariant between calls *)

Definition word_ok (x : csh_lexer) (s : str) : Prop :=
  if active x then
    token_name x <> None /\ comment x = false /\ (command x = true -> awaits x) /\
    ((kind x = CSH_TOKEN_WORD /\ (raw x <> [] \/ (frames x = [] /\ head s = Some (ch "$")))) \/
     (kind x <> CSH_TOKEN_WORD /\ command x = false /\ frames x = [] /\ raw x <> [] /\ (1 <= length (operator_text x) <= 3)%nat))
  else raw x = [] /\ fragments x = [] /\ frames x = [] /\ command x = false.

Definition ready (t : tape) : Prop :=
  core t /\ exists x behind, t_lexers t = x :: behind /\ lexer_full x behind /\ word_ok x (text (t_source t)).

(** The active lexer in a word, before a turn adds to it. *)
Record begun (t : tape) (x : csh_lexer) (behind : list csh_lexer) : Prop := mk_begun {
  bg_core : core t;
  bg_lexers : t_lexers t = x :: behind;
  bg_full : lexer_full x behind;
  bg_busy : busy x;
  bg_command : command x = false }.

Lemma begun_guarded t x behind : begun t x behind -> guarded x.
Proof. intros []. eapply full_guarded; [exact bg_full0|]. by destruct (core_lexer _ _ _ bg_core0 bg_lexers0) as ((_ & ? & _) & _). Qed.

Lemma begun_same t t' x behind : same_tape t t' -> begun t x behind -> begun t' x behind.
Proof. intros Hs []. pose proof Hs as [_ E]. split; [by eapply core_same|by rewrite E|done..]. Qed.

Lemma core_relabel t x y behind : core t -> t_lexers t = x :: behind -> alike (with_modes x (comment x) (command y)) y ->
  length (raw y) = length (raw x) -> core (set_lexers t (y :: behind)).
Proof.
  intros Hc Et (E1 & E2 & E3 & E4) Er. pose proof (core_lexer _ _ _ Hc Et) as (Hs & Hw & Ha & Hb). destruct Hc as (Hso & Hca & _).
  split; [done|]. split; [done|]. exists y, behind. split; [done|]. cbn in E1, E2, E3.
  unfold lexer_weak in *. rewrite E1, E2, E3, Er. split_and!; [done|done|]. split; [done|].
  rewrite E3. intros Hne. specialize (Hb Hne). injection E4 as E5 E6 E7 E8 E9 E10.
  unfold busy in *. rewrite E5, E6, E7, E9. exact Hb.
Qed.

(** A turn that reads [k] bytes of a word, and what it makes of the frames. *)
Lemma begun_worked k t t' x x' behind : begun t x behind -> worked k t t' x x' -> (1 <= k <= length (text (t_source t)))%nat ->
  raw x' <> [] /\ exists behind', t_lexers t' = x' :: behind' /\
    finished_ok (fragments x') (open_of (frames x')) (length (raw x')) /\
    arith_wf (chain_ok behind') (fragments x') (frames x) (arithmetic x') (length (raw x')) (lens behind').
Proof.
  intros [] Hw Hk. split.
  - rewrite (wk_raw _ _ _ _ _ Hw). intros E. apply (f_equal length) in E. rewrite length_app, length_take in E. simpl in E. lia.
  - destruct (worked_full _ _ _ _ _ _ Hw bg_lexers0 bg_full0) as (He & b' & E & Ha). by exists b'.
Qed.

Lemma begun_ready k t t' x x' behind : begun t x behind -> worked k t t' x x' -> (1 <= k <= length (text (t_source t)))%nat ->
  (forall behind' n ns, arith_wf (chain_ok behind') (fragments x') (frames x) (arithmetic x') n ns ->
    arith_wf (chain_ok behind') (fragments x') (frames x') (arithmetic x') n ns) ->
  exists behind', begun t' x' behind' /\ raw x' <> [] /\ ready t'.
Proof.
  intros Hbg Hw Hk Harith. destruct (begun_worked _ _ _ _ _ _ Hbg Hw Hk) as (Hr & b' & E & He & Ha).
  pose proof (wk_flags _ _ _ _ _ Hw) as Hf. destruct Hbg. exists b'. assert (busy x') as Hb by (by eapply busy_flags).
  assert (command x' = false) as Hcm by (injection Hf as _ _ _ _ _ -> _; done).
  assert (lexer_full x' b') as Hfull by (split; [done|by apply Harith]).
  split; [split; [apply Hw|done..]|]. split; [done|]. split; [apply Hw|]. exists x', b'. split_and!; [done|done|].
  destruct Hb as (B1 & B2 & B3 & B4). unfold word_ok. rewrite B1, Hcm. split_and!; [done|done|done|]. left. split; [done|by left].
Qed.

(** ** Recovery *)

Lemma arith_wf_take C l fs cs n ns k : arith_wf C l fs cs n ns -> frames_below fs k -> arith_wf C (take k l) fs cs n ns.
Proof.
  revert cs n ns k. induction fs as [|f below IH]; intros cs n ns k; cbn [arith_wf]; [done|]. intros H [Hf Hb].
  assert (frames_below below k) as Hbk by (eapply frames_below_mono; [|exact Hb]; lia).
  destruct (bool_decide _); [|by apply IH]. destruct cs as [|c cs]; [done|]. destruct H as (E & Hbody & Ho & Hc).
  split; [done|]. split; [done|]. split.
  - intros j g Hj Hg. apply lookup_take_Some in Hg as [Hg _]. exact (Ho j g Hj Hg).
  - destruct Hc as (n0 & p0 & caps & H1 & H2 & H3 & H4 & H5 & H6 & H7 & H8 & H9 & H10). exists n0, p0, caps.
    rewrite take_take, Nat.min_l by lia. split_and!; try done; [rewrite length_take; lia|by apply IH].
Qed.

Lemma rewind_alike behind (caps : list (nat * csh_position)) : length behind = length caps ->
  Forall2 alike behind (zip_with rewind behind caps).
Proof. revert caps. induction behind as [|y behind IH]; intros [|c caps] E; try done. by repeat constructor; auto. Qed.

Lemma rewind_lens behind caps : Forall2 le (map fst caps) (lens behind) -> lens (zip_with rewind behind caps) = map fst caps.
Proof.
  revert caps. induction behind as [|y behind IH]; intros [|c caps] H; inversion H; subst; try done. cbn.
  rewrite length_take. f_equal; [lia|by apply IH].
Qed.

(** What a lexer needs to go back to its latest checkpoint. *)
Definition recoverable (t : tape) (x : csh_lexer) (behind : list csh_lexer) : Prop :=
  t_lexers t = x :: behind /\ shape (fragments x) (frames x) (length (raw x)) /\ lexer_weak x behind /\
  context_ok x behind /\ cache_ok (t_source t) /\ data_ok (t_source t).

Definition pending_command (t : tape) : Prop := exists x behind, t_lexers t = x :: behind /\ command x = true.

Lemma replay_restores t x behind c previous t1 : recoverable t x behind -> arithmetic x = c :: previous ->
  t1 = mk_tape (cp_source c) (zip_with rewind (with_arithmetic (with_modes (truncate_frames
    (with_fragments x (take (cp_fragment_count c) (fragments x))) (cp_frame_count c)) (comment x) false) previous :: behind)
    (cp_captures c)) (t_stack t) (t_proc t) ->
  exists x1 behind1, begun t1 x1 behind1 /\ (1 <= cp_command_length c <= length (text (t_source t1)))%nat.
Proof.
  intros (Et & Hs & Hw & [Ha Hbusy] & _ & _) Ec ->. unfold lexer_weak in Hw. rewrite Ec in Hw, Hbusy.
  destruct Hw as (above & below & Ef & n0 & p0 & caps & Hcap & (Z1 & Z2 & Z3 & Z4 & Z5) & Hfc & Hle & Hshape & Hfin & Hn0 & Hcaps & Hchain & Hrest).
  rewrite Hcap. cbn [zip_with]. set (x1 := rewind _ (n0, p0)). set (behind1 := zip_with rewind behind caps).
  assert (length behind = length caps) as Hlen.
  { apply Forall2_length in Hcaps. unfold lens in Hcaps. rewrite !length_map in Hcaps. done. }
  pose proof (rewind_alike _ _ Hlen) as Hal. fold behind1 in Hal.
  pose proof (rewind_lens _ _ Hcaps) as Hl1. fold behind1 in Hl1.
  assert (fragments x1 = take (cp_fragment_count c) (fragments x)) as F1 by done.
  assert (frames x1 = below) as F2.
  { cbn. rewrite Ef, length_app, Hfc. replace (length above + length below - length below)%nat with (length above) by lia.
    apply drop_app_length. }
  assert (arithmetic x1 = previous) as F3 by done.
  assert (length (raw x1) = n0) as F4 by (cbn; rewrite length_take; lia).
  assert (arith_wf (chain_ok behind1) (fragments x1) (frames x1) (arithmetic x1) (length (raw x1)) (lens behind1)) as Hwf.
  { rewrite F1, F2, F3, F4, Hl1. eapply arith_wf_alike; [exact Hal|]. apply arith_wf_take; [done|].
    destruct Hshape as (_ & Hb & _). eapply frames_below_mono; [|exact Hb]. rewrite length_take. lia. }
  assert (busy x1) as Hb1 by exact (Hbusy ltac:(done)).
  exists x1, behind1. split; [split|]; try done.
  - split; [split; [done|split; [cbn; lia|done]]|]. split; [intros Hv; cbn in Hv; congruence|]. exists x1, behind1. split; [done|].
    split; [by rewrite F1, F2, F4|]. split; [by apply arith_wf_weak|]. split; [split|done].
    + rewrite Hl1. by apply (chain_ok_alike _ _ _ Hal).
    + eapply waiting_alike; [exact Hal|apply Ha].
  - split; [by rewrite F1, F2, F4|done].
  - cbn [t_source]. unfold text. rewrite Z1, drop_0. done.
Qed.

Lemma begin_command {A} t x behind k q (m : L A) Q : begun t x behind -> (1 <= k <= length (text (t_source t)))%nat ->
  (forall t', ready t' -> pending_command t' -> final (t_source t') = final (t_source t) -> lpost m t' Q failed_ok) ->
  lpost (let% _ := push COMMAND CSH_FRAGMENT_COMMAND q k in
         let% x := get_lexer in
         let% _ := put_lexer (with_modes x (comment x) true) in m) t Q failed_ok.
Proof.
  intros Hbg Hk Hm. pose proof Hbg as []. apply lpost_bind.
  eapply lpost_mono; [by apply (push_post _ _ _ _ _ _ _ bg_core0 bg_lexers0 (proj1 bg_busy0))|].
  intros [] t1 (x1 & Hw & Ef & _). destruct (begun_ready _ _ _ _ _ _ Hbg Hw Hk) as (b1 & Hbg1 & Hr1 & _).
  { intros b n ns. by rewrite Ef. }
  pose proof Hbg1 as []. eapply lpost_get_lexer; [done|]. apply lpost_put_lexer. rewrite bg_lexers1. cbn [tail].
  apply Hm; [|eexists _, b1; by split|apply Hw]. split.
  - apply (core_relabel t1 x1); [done|done|by split_and!|done].
  - exists (with_modes x1 (comment x1) true), b1. split; [done|]. split; [done|]. unfold word_ok. cbn.
    destruct bg_busy1 as (-> & -> & B3 & ->). split_and!; [done|done|by intros _; unfold awaits; cbn; rewrite Ef|]. left. split; [done|by left].
Qed.

Lemma replay_post e t x behind : recoverable t x behind -> arithmetic x <> [] ->
  (unterminated e = true -> lexer_full x behind) ->
  lpost (csh_lexer_replay_arithmetic 0 e) t
    (fun b t' => if b then ready t' /\ pending_command t'
       else same_tape t t' /\ (e = no_error -> failure (t_source t) <> no_error)) failed_ok.
Proof.
  intros Hrec Hne Hu. pose proof Hrec as (Et & Hs & Hw & Hctx & Hca & Hcur). unfold csh_lexer_replay_arithmetic.
  apply lpost_get_lexers, lpost_get_source. rewrite Et. cbn [drop].
  destruct (arithmetic x) as [|c previous] eqn:Ec; [done|].
  destruct (negb _ || negb _) eqn:Ee.
  { apply lpost_ret. split; [done|]. intros -> Hf. by rewrite Hf in Ee. }
  destruct (bool_decide (message e = _)) eqn:Em.
  { apply lpost_ret. split; [done|]. intros ->. by apply bool_decide_eq_true in Em. }
  assert (forall t1, t_lexers t1 = t_lexers t -> lpost (let% _ := put_source (cp_source c) in
      let% _ := put_lexers (zip_with rewind (with_arithmetic (with_modes (truncate_frames
        (with_fragments x (take (cp_fragment_count c) (fragments x))) (cp_frame_count c)) (comment x) false) previous :: behind)
        (cp_captures c)) in
      let% _ := push COMMAND CSH_FRAGMENT_COMMAND (cp_quote c) (cp_command_length c) in
      let% x := get_lexer in
      let% _ := put_lexer (with_modes x (comment x) true) in
      lret true) t1 (fun b t' => if b then ready t' /\ pending_command t'
       else same_tape t t' /\ (e = no_error -> failure (t_source t) <> no_error)) failed_ok) as Hgo.
  { intros t1 Et1. apply lpost_put_source, lpost_put_lexers.
    destruct (replay_restores t x behind c previous _ Hrec Ec eq_refl) as (x1 & b1 & Hbg & Hk).
    match goal with |- lpost _ ?u _ _ => assert (begun u x1 b1) as Hbg' by (eapply begun_same; [|exact Hbg]; by split) end.
    eapply begin_command; [exact Hbg'|exact Hk|]. intros t' Hr Hp _. by apply lpost_ret. }
  apply lpost_bind. destruct (final (t_source t) && _) eqn:Ek; [|by apply lpost_ret, Hgo].
  apply lpost_put_source. apply lpost_bind.
  apply andb_true_iff in Ek as [_ Ek]. specialize (Hu Ek).
  eapply lpost_mono; [apply (probe_arithmetic_post x behind true); [|done|done|by rewrite Ec]|].
  - split; [by split|]. split; [exact Hca|]. exists x, behind. split; [done|]. split; [done|]. split; [done|exact Hctx].
  - intros keep t1 [E1 E2]. apply lpost_bind. unfold lpost at 1, put_source. apply lpost_ret. destruct keep.
    + apply lpost_ret. split; [by split|]. intros ->. done.
    + by apply Hgo.
Qed.
End Safety.
