(* ===== verification/LexerTurns.v ===== *)
(** * The turns of the lexer

    Every turn of [next_token] from a [ready] tape ends in a result whose tape is
    ready, or in a ready tape with less weight; the fragments of a published
    token are a tree of non-empty nodes in preorder. *)

From stdpp Require Import base list gmap strings sorting.
From S2P Require Import Prelude Output State Arithmetic ArithmeticTheorems Character Expansion Lexer LexerLook LexerTree LexerSafety.

Section Turns.
Context {loc : Locale} {LL : LocaleLaws loc} {ST : StableLocale loc} {db : LocaleDb}.

(** ** Lookahead *)

(** The tapes that differ in the cache only. *)
Definition looked (t t' : tape) : Prop :=
  exists s', t' = set_source t s' /\ same_but_look (t_source t) s' /\ cache_ok s'.

Lemma looked_text t t' : looked t t' -> text (t_source t') = text (t_source t) /\
  final (t_source t') = final (t_source t) /\ t_lexers t' = t_lexers t.
Proof. intros (s' & -> & (_ & E1 & E2 & _ & _ & _ & _ & E3 & _) & _). unfold text. cbn. by rewrite E1, E2. Qed.

Lemma looked_core t t' : looked t t' -> core t -> core t'.
Proof.
  intros (s' & -> & (_ & E1 & E2 & _ & _ & _ & _ & E3 & E4) & Hc) ([H1 H2] & _ & H). split; [|by split].
  unfold source_ok, data_ok, has_failed in *. cbn. by rewrite E1, E2, E4.
Qed.

Lemma looked_begun t t' x behind : looked t t' -> begun t x behind -> begun t' x behind.
Proof.
  intros Hl []. destruct (looked_text _ _ Hl) as (_ & _ & E). split; [by eapply looked_core|by rewrite E|done..].
Qed.

Lemma asks_more (last : bool) : -2 = (if last then -1 else -2) -> last = false.
Proof. by destruct last. Qed.

Lemma no_answer (last : bool) z : z = (if last then -1 else -2) -> 0 <= z -> False.
Proof. destruct last; lia. Qed.

Lemma peek_post wanted t : core t ->
  lpost (lex_peek wanted) t (fun r t' => looked t t' /\
    ((fst r = (if final (t_source t) then -1 else -2) /\ snd r = 0%nat) \/
     (0 <= fst r /\ (wanted < snd r <= length (text (t_source t)))%nat))) failed_ok.
Proof.
  intros Hc. pose proof Hc as (_ & Hca & _). unfold lpost. destruct (lex_peek_run wanted t Hca) as (s' & -> & Hs & Hc').
  split; [by exists s'|].
  assert (Forall is_byte (text (t_source t))) as Hbytes by (destruct Hc as ((_ & _ & Hb) & _); by apply Forall_drop).
  destruct (peek_spec _ _ _) as [z p] eqn:E. pose proof E as E'. apply peek_spec_bounds in E as [?|Hp]; [by left|right].
  split; [|done]. cbn. unfold peek_spec in E'. destruct (characters _ _) as [[l a] k]. destruct (l !! wanted) as [q|].
  - injection E' as <- _. destruct (1 <? _)%nat; [lia|]. destruct (_ !! q) as [b|] eqn:Eb; [|simpl; lia].
    rewrite Forall_lookup in Hbytes. specialize (Hbytes _ _ Eb). unfold is_byte in Hbytes. simpl. lia.
  - injection E' as _ <-. lia.
Qed.

Lemma set_source_same t : set_source t (t_source t) = t.
Proof. by destruct t. Qed.

(** ** Words that begin *)

Lemma idle_full x behind : fragments x = [] -> frames x = [] -> arithmetic x = [] -> lexer_full x behind.
Proof. intros E1 E2 E3. unfold lexer_full. rewrite E1, E2, E3. split; [|done]. intros i g Hg. by rewrite lookup_nil in Hg. Qed.

Lemma full_idle x behind : lexer_full x behind -> frames x = [] -> arithmetic x = [].
Proof. intros [_ Ha] Ef. by rewrite Ef in Ha. Qed.

(** A lexer that takes the place of one without frames. *)
Lemma core_idle t x y behind : core t -> t_lexers t = x :: behind -> frames x = [] -> frames y = [] -> arithmetic y = [] ->
  shape (fragments y) [] (length (raw y)) -> core (set_lexers t (y :: behind)).
Proof.
  intros Hc Et Ex Ey Ea Hs. pose proof (core_lexer _ _ _ Hc Et) as (_ & _ & Han & _). destruct Hc as (Hso & Hca & _).
  split; [done|]. split; [done|]. exists y, behind. unfold lexer_weak, context_ok. rewrite Ey, Ea. by split_and!.
Qed.

Lemma shape_nil n : shape [] [] n.
Proof. split; [|done]. by split; try (intros * H; rewrite lookup_nil in H). Qed.

Lemma core_source t s : core t -> data s = data (t_source t) -> cursor s = cursor (t_source t) ->
  failure s = failure (t_source t) -> cache_ok s -> core (set_source t s).
Proof.
  intros ([H1 H2] & _ & H) E1 E2 E3 Hc. split; [|by split]. unfold source_ok, data_ok, has_failed in *. cbn. by rewrite E1, E2, E3.
Qed.

Definition unchanged (x : csh_lexer) :=
  (raw x, fragments x, frames x, arithmetic x, (comment x, command x, document x), kind x, operator_text x).

Record started (t t' : tape) (x x' : csh_lexer) (behind : list csh_lexer) : Prop := mk_started {
  st_core : core t';
  st_lexers : t_lexers t' = x' :: behind;
  st_text : text (t_source t') = text (t_source t);
  st_final : final (t_source t') = final (t_source t);
  st_active : active x' = true;
  st_name : token_name x' <> None;
  st_rest : unchanged x' = unchanged x }.

Lemma start_token_post t x behind : core t -> t_lexers t = x :: behind -> raw x = [] -> fragments x = [] ->
  frames x = [] -> arithmetic x = [] ->
  lpost start_token t (fun _ t' => exists x', started t t' x x' behind) failed_ok.
Proof.
  intros Hc Et Er Eg Ef Ea. unfold start_token. apply lpost_get_source. eapply lpost_get_lexer; [exact Et|].
  assert (forall y, unchanged y = unchanged x -> forall w, core (set_lexers (set_proc t w) (y :: behind))) as Hy.
  { intros y [= E1 E2 E3 E4 _ _ _ _ _] w. eapply (core_idle (set_proc t w) x); [done|done|done|congruence|congruence|].
    rewrite E1, E2, Er, Eg. apply shape_nil. }
  assert (forall (o : option str) w (f : option str -> L unit) Q, (forall b w', lpost (f (if b : bool then o else None)) (set_proc t w') Q failed_ok) ->
    lpost (lbind (lex_copy o) f) (set_proc t w) Q failed_ok) as Hcopy.
  { intros o w f Q H. apply lpost_bind. unfold lex_copy. destruct o as [s|].
    - apply lpost_lmalloc. intros b w'. apply lpost_ret. destruct b; [apply (H true)|apply (H false)].
    - apply lpost_ret. apply (H false). }
  destruct t as [src lexers stack w0]. cbn in Et. subst lexers.
  match goal with |- lpost ?m ?t0 _ _ => change t0 with (set_proc t0 w0); set (t1 := t0) in * end.
  set (top := match so_aliases _ with [] => None | a :: _ => Some a end).
  apply Hcopy. intros b1 w1. apply Hcopy. intros b2 w2. apply Hcopy. intros b3 w3.
  apply lpost_put_lexer. match goal with |- lpost ?m _ _ _ => match m with context [if bool_decide ?c || ?d then _ else _] => destruct (bool_decide c || d) eqn:Eb end end.
  - apply fail_post; [|done]. cbn [set_proc t_lexers tail t1]. by refine (Hy _ _ w3).
  - apply orb_false_iff in Eb as [Eb _]. apply bool_decide_eq_false in Eb.
    apply lpost_put_lexer. unfold lpost, put_source. cbn [set_proc set_lexers t_lexers tail t1 with_eligible].
    eexists. split; cbn [t_source t_lexers]; [|done|done|done|done|done|done].
    pose proof (Hy _ (eq_refl : unchanged (mk_lexer (so_position src) (so_position src) (raw x)
      (if b1 then Some match top with Some a => as_source_name a | None => so_name src end else None)
      (match top with Some _ => if b2 then as_name <$> top else None | None => alias_name x end)
      (match top with Some _ => if b3 then as_invocation_source <$> top else None | None => invocation_source x end)
      (match top with Some a => as_invocation a | None => invocation x end) (alias_eligible src) (fragments x) (frames x)
      true (comment x) (command x) (document x) (kind x) (operator_text x) (last_kind x) (last_start x) (last_end x)
      (has_last x) (last_sequence x) (arithmetic x)) = unchanged x) w3) as Hc'.
    apply (core_source _ (with_eligible src false)) in Hc'; [exact Hc'|done..|]. exact (proj1 (proj2 Hc)).
Qed.

(** ** Turns *)

(** The tape in a turn: no comment, no pending command. *)
Record turn (t : tape) (x : csh_lexer) (behind : list csh_lexer) : Prop := mk_turn {
  tn_core : core t;
  tn_lexers : t_lexers t = x :: behind;
  tn_full : lexer_full x behind;
  tn_word : word_ok x (text (t_source t));
  tn_comment : comment x = false;
  tn_command : command x = false;
  tn_kind : active x = true -> kind x = CSH_TOKEN_WORD }.

Lemma turn_begun t x behind : turn t x behind -> active x = true -> begun t x behind.
Proof.
  intros [] Ha. split; try done. unfold word_ok in tn_word0. rewrite Ha in tn_word0. destruct tn_word0 as (? & ? & _).
  split_and!; auto.
Qed.

Lemma begun_turn t x behind : begun t x behind -> raw x <> [] -> turn t x behind.
Proof.
  intros Hbg Hr. pose proof (bg_busy _ _ _ Hbg) as (B1 & B2 & B3 & B4). destruct Hbg. split; try done. unfold word_ok. rewrite B1.
  split_and!; [done|done|congruence|]. left. split; [done|by left].
Qed.

Lemma turn_ready t x behind : turn t x behind -> ready t.
Proof. intros []. split; [done|]. by exists x, behind. Qed.

Lemma turn_framed t x behind : turn t x behind -> frames x <> [] -> begun t x behind /\ raw x <> [].
Proof.
  intros Ht Hf. pose proof Ht as []. unfold word_ok in tn_word0. destruct (active x) eqn:Ea.
  - split; [by apply turn_begun|]. destruct tn_word0 as (_ & _ & _ & [[_ [?|[? _]]]|(_ & _ & ? & _)]); done.
  - by destruct tn_word0 as (_ & _ & ? & _).
Qed.

Lemma begin_word_post t x behind : turn t x behind ->
  lpost begin_word t (fun _ t' => exists x', begun t' x' behind /\ text (t_source t') = text (t_source t) /\
    final (t_source t') = final (t_source t) /\ frames x' = frames x /\ raw x' = raw x /\ document x' = document x) failed_ok.
Proof.
  intros Ht. pose proof Ht as []. unfold begin_word. eapply lpost_get_lexer; [done|]. destruct (active x) eqn:Ea.
  { apply lpost_ret. exists x. split; [by apply turn_begun|done]. }
  unfold word_ok in tn_word0. rewrite Ea in tn_word0. destruct tn_word0 as (Er & Eg & Ef & _).
  pose proof (full_idle _ _ tn_full0 Ef) as Eh. apply lpost_bind. eapply lpost_mono; [by apply start_token_post|].
  intros [] t1 (x1 & []). pose proof st_rest0 as [= E1 E2 E3 E4 E5 E6 E7 E8 E9]. eapply lpost_get_lexer; [done|].
  unfold lpost, put_lexer. rewrite st_lexers0. cbn [tail]. eexists. split; [split|]; cbn [t_lexers t_source]; [|done|..].
  - refine (core_idle t1 x1 _ behind st_core0 st_lexers0 _ _ _ _); cbn; [congruence..|]. rewrite E1, E2, Er, Eg. apply shape_nil.
  - apply idle_full; cbn; congruence.
  - split_and!; [done|done|done|cbn; congruence].
  - cbn. congruence.
  - cbn. by rewrite st_text0, st_final0, E1, E3, E7.
Qed.

(** ** Tokens *)

Definition token_ok (k : csh_token) : Prop :=
  tk_raw k <> [] /\ tree (tk_fragments k) [] (length (tk_raw k)) /\ finished_ok (tk_fragments k) [] (length (tk_raw k)).

Definition single_idle (t : tape) : Prop := exists x, t_lexers t = [x] /\ active x = false.

(** What a result says of its tape. *)
Definition result_ok (r : csh_lex_result) (t : tape) : Prop :=
  ready t /\
  match r with
  | CSH_LEX_EOF => final (t_source t) = true /\ text (t_source t) = [] /\ single_idle t
  | CSH_LEX_TOKEN k => token_ok k
  | CSH_LEX_MORE => final (t_source t) = false
  | CSH_LEX_COMMAND | CSH_LEX_REPLAY => pending_command t
  end.

Lemma publish_post t x behind : core t -> t_lexers t = x :: behind -> lexer_full x behind -> frames x = [] ->
  raw x <> [] -> token_name x <> None -> command x = false ->
  lpost publish t (fun r t' => result_ok r t' /\ exists k, r = CSH_LEX_TOKEN k) failed_ok.
Proof.
  intros Hc Et Hf Ef Hr Hn Hcm. unfold publish. apply lpost_get_source. eapply lpost_get_lexer; [exact Et|].
  destruct (raw x) as [|b r] eqn:Er; [done|]. destruct (token_name x) as [name|]; [|done].
  pose proof (full_idle _ _ Hf Ef) as Ea. pose proof (core_lexer _ _ _ Hc Et) as ((T & _) & _). destruct Hf as [He _].
  rewrite Ef, Er in T, He. apply lpost_put_lexer, lpost_ret. rewrite Et. cbn [tail]. split; [|by eexists].
  split; [|done]. set (y := mk_lexer _ _ _ _ _ _ _ _ _ _ _ _ _ _ _ _ _ _ _ _ _ _).
  split; [apply (core_idle t x y); try done; apply shape_nil|]. exists y, behind. split; [done|].
  split; [by apply idle_full|done].
Qed.

Lemma operators_short text k : operator_kind text = Some k -> k <> CSH_TOKEN_WORD /\ (1 <= length text <= 3)%nat.
Proof.
  unfold operator_kind. destruct (List.find _ _) as [o|] eqn:E; [|done]. intros [= <-]. apply List.find_some in E as [Ho Ht].
  apply str_eqb_spec in Ht as <-. cbn in Ho. by repeat (destruct Ho as [<-|Ho]; [split; [done|cbn; lia]|]).
Qed.

(** An operator that is read. *)
Record operating (t : tape) (x : csh_lexer) (behind : list csh_lexer) : Prop := mk_operating {
  og_core : core t;
  og_lexers : t_lexers t = x :: behind;
  og_full : lexer_full x behind;
  og_active : active x = true;
  og_name : token_name x <> None;
  og_comment : comment x = false;
  og_command : command x = false;
  og_kind : kind x <> CSH_TOKEN_WORD;
  og_frames : frames x = [];
  og_raw : raw x <> [];
  og_text : (1 <= length (operator_text x) <= 3)%nat }.

Lemma operating_ready t x behind : operating t x behind -> ready t.
Proof.
  intros []. split; [done|]. exists x, behind. split; [done|]. split; [done|]. unfold word_ok. rewrite og_active0.
  split_and!; [done|done|congruence|]. right. split_and!; try done; lia.
Qed.

Lemma looked_operating t t' x behind : looked t t' -> operating t x behind -> operating t' x behind.
Proof.
  intros Hl []. destruct (looked_text _ _ Hl) as (_ & _ & E). split; try done; [by eapply looked_core|by rewrite E].
Qed.

(** The bytes of the operator, read under any kind and candidate. *)
Lemma operator_bytes {A} k text n t x behind (m : L A) Q : operating t x behind -> k <> CSH_TOKEN_WORD -> (1 <= length text <= 3)%nat ->
  (n <= length (LexerLook.text (t_source t)))%nat ->
  (forall t' x' behind', operating t' x' behind' -> operator_text x' = text -> lpost m t' Q failed_ok) ->
  lpost (let% x := get_lexer in
         let% _ := put_lexer (with_kind x k (operator_text x)) in
         let% _ := delimiter n CSH_QUOTE_NONE in
         let% x := get_lexer in
         let% _ := put_lexer (with_kind x (kind x) text) in m) t Q failed_ok.
Proof.
  intros Ho Hk Ht Hn Hm. pose proof Ho as []. eapply lpost_get_lexer; [done|]. apply lpost_put_lexer. rewrite og_lexers0. cbn [tail].
  pose proof (full_idle _ _ og_full0 og_frames0) as Ea. pose proof (core_lexer _ _ _ og_core0 og_lexers0) as (Hs & _).
  rewrite og_frames0 in Hs. set (x1 := with_kind x k (operator_text x)). set (t1 := set_lexers t (x1 :: behind)).
  assert (core t1) as Hc1 by (by apply (core_idle t x x1)). apply lpost_bind.
  eapply lpost_mono; [apply (delimiter_post n n _ t1 x1 behind Hc1 eq_refl); [done|by unfold guarded; cbn; rewrite Ea|done|done]|].
  intros [] t2 (x2 & Hw & Ef & _). destruct (worked_lexers _ _ _ _ _ Hw) as [b2 E2].
  destruct (worked_full _ _ _ _ _ behind Hw eq_refl og_full0) as (He2 & b2' & E2' & Ha2).
  rewrite E2 in E2'. injection E2' as <-. pose proof (wk_core _ _ _ _ _ Hw) as Hc2.
  pose proof (core_lexer _ _ _ Hc2 E2) as (Hs2 & _). pose proof (wk_arith _ _ _ _ _ Hw) as Ea2. cbn in Ea2, Ef. rewrite Ea in Ea2.
  rewrite og_frames0 in Ef. rewrite Ef in Hs2, He2.
  pose proof (wk_flags _ _ _ _ _ Hw) as [= F1 F2 F3 F4 F5 F6 F7].
  eapply lpost_get_lexer; [done|]. apply lpost_put_lexer. rewrite E2. cbn [tail].
  apply (Hm _ (with_kind x2 (kind x2) text) b2); [|done]. split; cbn; try congruence; try done.
  - by apply (core_idle t2 x2).
  - split; cbn; rewrite Ef; [done|]. by rewrite Ea2.
  - rewrite (wk_raw _ _ _ _ _ Hw). cbn. by destruct (raw x).
Qed.

Lemma operator_step_post f t x behind : operating t x behind -> (5 <= f + length (operator_text x))%nat ->
  lpost (operator_step f) t result_ok failed_ok.
Proof.
  revert t x behind. induction f as [|f IH]; intros t x behind Ho Hf; pose proof Ho as []; [lia|]. cbn [operator_step].
  assert (forall t', operating t' x behind -> lpost publish t' result_ok failed_ok) as Hpub.
  { intros t' []. eapply lpost_mono; [by eapply publish_post|]. by intros r t'' [? _]. }
  eapply lpost_get_lexer; [done|]. destruct (negb _); [by apply Hpub|].
  apply lpost_bind. eapply lpost_mono; [by apply peek_post|]. intros [b physical] t1 [Hl Hb]. cbn [fst snd] in Hb.
  pose proof (looked_operating _ _ _ _ Hl Ho) as Ho1. destruct (looked_text _ _ Hl) as (E1 & E2 & E3). cbv iota beta.
  destruct (Z.eqb_spec b (-2)) as [->|Hb2].
  { apply lpost_ret. split; [by eapply operating_ready|]. rewrite E2. destruct Hb as [[Hb _]|Hb]; [by destruct (final _)|lia]. }
  destruct (_ || _) eqn:Eb; [by apply Hpub|]. cbv zeta. destruct (operator_kind _) as [k|] eqn:Ek; [|by apply Hpub].
  apply operators_short in Ek as [Hk Hlen]. rewrite length_app in Hlen.
  eapply operator_bytes; [done|done|by rewrite length_app|rewrite E1|].
  { destruct Hb as [[Hb ->]|[_ Hb]]; lia. }
  intros t2 x2 b2 Ho2 E. apply (IH t2 x2 b2 Ho2). rewrite E, length_app. simpl. lia.
Qed.

(** ** Progress *)

Definition weight (t : tape) : nat :=
  4 * length (text (t_source t)) + match t_lexers t with x :: _ => length (frames x) | [] => 0 end.

(** A comment is entered without reading. *)
Definition measure (t : tape) : nat :=
  weight t + match t_lexers t with x :: _ => if comment x then 0 else 1 | [] => 0 end.

Definition going (t : tape) : Prop :=
  ready t /\ forall x behind, t_lexers t = x :: behind -> command x = false.

(** A turn from a tape of measure [m]. *)
Definition step_ok (m : nat) (r : option csh_lex_result) (t : tape) : Prop :=
  match r with Some r => result_ok r t | None => going t /\ (measure t < m)%nat end.

Lemma measure_weight t : (weight t <= measure t <= S (weight t))%nat.
Proof. unfold measure. destruct (t_lexers t) as [|x l]; [lia|]. destruct (comment x); lia. Qed.

Lemma going_intro t x behind : ready t -> t_lexers t = x :: behind -> command x = false -> going t.
Proof. intros Hr Et Hc. split; [done|]. intros y b E. rewrite Et in E. by simplify_eq. Qed.

(** Bytes of a word that are read into at most one more frame. *)
Lemma begun_going k t t' x x' behind : begun t x behind -> worked k t t' x x' -> (1 <= k <= length (text (t_source t)))%nat ->
  (length (frames x') <= S (length (frames x)))%nat ->
  (forall behind' n ns, arith_wf (chain_ok behind') (fragments x') (frames x) (arithmetic x') n ns ->
    arith_wf (chain_ok behind') (fragments x') (frames x') (arithmetic x') n ns) ->
  step_ok (weight t) None t'.
Proof.
  intros Hbg Hw Hk Hf Ha. destruct (begun_ready _ _ _ _ _ _ Hbg Hw Hk Ha) as (b' & Hbg' & _ & Hr).
  pose proof Hbg' as []. split; [by eapply going_intro|]. pose proof (measure_weight t') as Hm. unfold weight in *.
  rewrite bg_lexers in Hm. rewrite (wk_text _ _ _ _ _ Hw), length_drop in Hm. destruct Hbg as [_ -> _ _ _]. lia.
Qed.

Lemma piece_step {R} k q n (r : R) t x behind (m : nat) Q : begun t x behind -> (1 <= n <= length (text (t_source t)))%nat ->
  (k = CSH_FRAGMENT_ESCAPE \/ k = CSH_FRAGMENT_CONTINUATION -> (2 <= n)%nat) ->
  (forall t', step_ok (weight t) None t' -> Q r t') ->
  lpost (let% _ := piece k q n in lret r) t Q failed_ok.
Proof.
  intros Hbg Hn Hk Hq. pose proof Hbg as []. apply lpost_bind.
  eapply lpost_mono; [by apply (piece_post _ _ _ _ _ _ bg_core bg_lexers (proj1 bg_busy) (begun_guarded _ _ _ Hbg)); [lia|lia|]|].
  intros [] t' (x' & Hw & Ef & _). apply lpost_ret, Hq. eapply begun_going; [exact Hbg|exact Hw|done|by rewrite Ef; lia|].
  intros b m' ns. by rewrite Ef.
Qed.

(** A frame that is no arithmetic expansion opens. *)
Lemma push_step {R} k fk q n (r : R) t x behind Q : begun t x behind -> (1 <= n <= length (text (t_source t)))%nat ->
  fk <> CSH_FRAGMENT_TEXT -> fk <> CSH_FRAGMENT_CONTINUATION -> fk <> CSH_FRAGMENT_ESCAPE -> k <> ARITHMETIC ->
  (forall t', step_ok (weight t) None t' -> Q r t') ->
  lpost (let% _ := push k fk q n in lret r) t Q failed_ok.
Proof.
  intros Hbg Hn H1 H2 H3 H4 Hq. pose proof Hbg as []. apply lpost_bind.
  eapply lpost_mono; [by apply (push_post _ _ _ _ _ _ _ bg_core bg_lexers (proj1 bg_busy))|].
  intros [] t' (x' & Hw & Ef & _). apply lpost_ret, Hq. eapply begun_going; [exact Hbg|exact Hw|done|by rewrite Ef|].
  intros b m' ns. rewrite Ef. cbn [arith_wf]. by rewrite bool_decide_eq_false_2.
Qed.

Lemma framed_raw t x behind : begun t x behind -> frames x <> [] -> raw x <> [].
Proof.
  intros [] Hf. destruct bg_full as [He _]. destruct (core_lexer _ _ _ bg_core bg_lexers) as ((_ & _ & Hl) & _).
  destruct (frames x) as [|f below] eqn:Ef; [done|]. destruct Hl as [(g & Hg & _) _]. destruct (He _ _ Hg) as (Ho & _).
  specialize (Ho ltac:(by apply elem_of_cons; left)). by destruct (raw x); [simpl in Ho; lia|].
Qed.

(** A frame that is no arithmetic expansion closes. *)
Lemma pop_begun n t x behind f below : begun t x behind -> frames x = f :: below -> fm_kind f <> ARITHMETIC ->
  (n <= length (text (t_source t)))%nat ->
  lpost (pop n) t (fun _ t' => exists x' behind', worked n t t' x x' /\ frames x' = below /\ begun t' x' behind' /\ raw x' <> [])
    failed_ok.
Proof.
  intros Hbg Ef Hk Hn. pose proof Hbg as []. pose proof (core_lexer _ _ _ bg_core bg_lexers) as ((_ & Hb & _) & _).
  destruct bg_full as [He Ha]. pose proof Ha as Ha'. rewrite Ef in Ha, Hb. cbn [arith_wf] in Ha.
  rewrite bool_decide_eq_false_2 in Ha by done. destruct Hb as [Hf Hb].
  eapply lpost_mono; [apply (pop_post n t x behind f below bg_core bg_lexers (proj1 bg_busy)); try done|].
  - by eapply begun_guarded.
  - pose proof (arith_wf_head _ _ _ _ _ _ _ Ha Hb) as Hh. destruct (arithmetic x); [done|]. lia.
  - exists (length (raw x)). split; [done|lia].
  - intros [] t' (x' & Hw & Ef'). destruct (worked_full _ _ _ _ _ _ Hw bg_lexers (conj He Ha')) as (He' & b' & Et' & Ha'').
    exists x', b'. split; [done|]. split; [done|]. pose proof (wk_flags _ _ _ _ _ Hw) as Hfl. split; [split|].
    + apply Hw.
    + done.
    + split; [done|]. rewrite Ef in Ha''. cbn [arith_wf] in Ha''. rewrite bool_decide_eq_false_2 in Ha'' by done. by rewrite Ef'.
    + by eapply busy_flags.
    + injection Hfl as _ _ _ _ _ -> _. done.
    + rewrite (wk_raw _ _ _ _ _ Hw). pose proof (framed_raw _ _ _ Hbg ltac:(by rewrite Ef)). by destruct (raw x).
Qed.

Lemma pop_step {R} n (r : R) t x behind f below Q : begun t x behind -> frames x = f :: below -> fm_kind f <> ARITHMETIC ->
  (1 <= n <= length (text (t_source t)))%nat -> (forall t', step_ok (weight t) None t' -> Q r t') ->
  lpost (let% _ := pop n in lret r) t Q failed_ok.
Proof.
  intros Hbg Ef Hk Hn Hq. apply lpost_bind. eapply lpost_mono; [by eapply pop_begun; [..|lia]|].
  intros [] t' (x' & b' & Hw & Ef' & Hbg' & Hr). apply lpost_ret, Hq. pose proof Hbg' as []. split.
  - eapply going_intro; [eapply turn_ready, begun_turn; done|done|done].
  - pose proof (measure_weight t') as Hm. unfold weight in *. rewrite bg_lexers in Hm.
    rewrite (wk_text _ _ _ _ _ Hw), length_drop in Hm. destruct Hbg as [_ -> _ _ _]. rewrite Ef, Ef' in *. simpl. lia.
Qed.

(** ** Arithmetic frames *)

Lemma reserve_post {B} count size (f : option errno -> L B) t Q : (forall r w, lpost (f r) (set_proc t w) Q failed_ok) ->
  lpost (lbind (reserve count size) f) t Q failed_ok.
Proof.
  intros H. apply lpost_bind. unfold reserve. destruct (_ <? _); [apply lpost_ret; specialize (H (Some EOVERFLOW) (t_proc t)); by destruct t|].
  apply lpost_lmalloc. intros b w. apply lpost_ret, H.
Qed.

Lemma copy_aliases_post {B} l (f : bool -> L B) t Q : (forall b w, lpost (f b) (set_proc t w) Q failed_ok) ->
  lpost (lbind (copy_aliases l) f) t Q failed_ok.
Proof.
  intros H. apply lpost_bind. assert (forall w, lpost (copy_aliases l) (set_proc t w) (fun b t' => lpost (f b) t' Q failed_ok) failed_ok) as Hall.
  { induction l as [|a l IH]; intros w; cbn [copy_aliases]; [apply lpost_ret, H|].
    apply lpost_lmalloc. intros b1 w1. apply lpost_lmalloc. intros b2 w2. apply lpost_lmalloc. intros b3 w3.
    destruct (b1 && b2 && b3); [apply IH|apply lpost_ret, (H false)]. }
  specialize (Hall (t_proc t)). by destruct t.
Qed.

(** A lexer with a new checkpoint, before its frame opens. *)
Lemma checkpoint_arithmetic_post {B} k q (f : unit -> L B) t x behind Q : begun t x behind ->
  (1 <= k <= length (text (t_source t)))%nat ->
  (forall c w, let y := with_arithmetic x (c :: arithmetic x) in let t' := set_lexers (set_proc t w) (y :: behind) in
     core t' -> cp_fragment_count c = length (fragments x) -> cp_frame_count c = length (frames x) ->
     lpost (f tt) t' Q failed_ok) ->
  lpost (lbind (checkpoint_arithmetic k q) f) t Q failed_ok.
Proof.
  intros Hbg Hk Hf. pose proof Hbg as []. unfold checkpoint_arithmetic. apply lpost_bind.
  apply lpost_get_source, lpost_get_lexers. cbv zeta.
  assert (forall (e : errno) msg w, starts_with (bs "unterminated ") msg = false -> lpost (fail msg e) (set_proc t w)
    (fun a t' => lpost (f a) t' Q failed_ok) failed_ok) as Hfail by (intros e msg w Hm; apply fail_post; [done|by rewrite Hm]).
  destruct (_ <? _); [specialize (Hfail EOVERFLOW (bs "lexer checkpoint overflow") (t_proc t) eq_refl); by destruct t|].
  apply lpost_lmalloc. intros b w. destruct b; [cbn [negb]|by apply Hfail].
  apply reserve_post. intros r w1. destruct (bool_decide _); [by apply Hfail|].
  apply reserve_post. intros r2 w2. destruct (bool_decide _); [by apply Hfail|].
  apply copy_aliases_post. intros b w3. destruct b; [cbn [negb]|by apply Hfail].
  eapply lpost_get_lexer; [exact bg_lexers|]. unfold lpost, put_lexer. cbn [t_lexers set_proc]. rewrite bg_lexers. cbn [tail].
  match goal with |- context [with_arithmetic x (?c0 :: _)] => set (c := c0) end. apply (Hf c w3); [|done|done].
  pose proof (core_lexer _ _ _ bg_core bg_lexers) as (Hs & _ & Ha). pose proof bg_core as ((Hfl & Hd1 & Hd2) & Hca & _).
  destruct bg_full as [He Hwf].
  split; [by split|]. split; [done|]. eexists _, behind. split; [done|]. split; [done|]. split; [|split; [apply Ha|by intros _]].
  unfold lexer_weak, weak. cbn [arithmetic with_arithmetic]. exists [], (frames x). split; [done|].
  exists (length (raw x)), (spelling_position x), (map (fun x => (length (raw x), spelling_position x)) behind).
  cbn [cp_captures cp_source cp_command_length cp_frame_count cp_fragment_count c fragments with_arithmetic raw].
  rewrite !firstn_all. assert (map fst (map (fun x => (length (raw x), spelling_position x)) behind) = lens behind) as ->
    by (rewrite map_map; done).
  split_and!; try done; try apply Forall2_le_refl; [..|apply Ha].
  split_and!; try done; try apply Hk. cbn. by apply Forall_drop.
Qed.

Lemma weak_frames C l fs below c cs n ns : weak C l fs (c :: cs) n ns -> cp_frame_count c = length below ->
  (exists f, fs = f :: below) -> checkpoint_ok C (arith_wf C l) c cs l below n ns.
Proof.
  intros (above & below' & Efs & Hc) Elen [f ->]. assert (below' = below) as ->; [|done].
  assert (length below' = length below) as El by (destruct Hc as (? & ? & ? & _ & _ & E & _); congruence).
  apply (f_equal (drop (length above))) in Efs as E. rewrite drop_app_length in E.
  apply (f_equal length) in Efs. rewrite length_app in Efs. simpl in Efs.
  assert (length above = 1)%nat as E1 by lia. by rewrite E1 in E.
Qed.

Lemma arithmetic_step {R} k n q (r : R) t x behind Q : begun t x behind -> (1 <= k <= length (text (t_source t)))%nat ->
  (1 <= n <= length (text (t_source t)))%nat -> (forall t', step_ok (weight t) None t' -> Q r t') ->
  lpost (let% _ := checkpoint_arithmetic k q in
         let% _ := push ARITHMETIC CSH_FRAGMENT_ARITHMETIC q n in
         let% _ := set_body_begin in lret r) t Q failed_ok.
Proof.
  intros Hbg Hk Hn Hq. pose proof Hbg as []. apply (checkpoint_arithmetic_post k q _ t x behind); [done|done|].
  intros c w y t1 Hc1 Ec1 Ec2. destruct bg_busy as (B1 & B2 & B3 & B4). apply lpost_bind.
  eapply lpost_mono; [by apply (push_post _ _ _ _ _ _ _ Hc1 eq_refl)|]. intros [] t2 (x2 & Hw & Ef & Hcont).
  destruct (worked_lexers _ _ _ _ _ Hw) as [b2 E2]. pose proof (wk_core _ _ _ _ _ Hw) as Hc2.
  pose proof (core_lexer _ _ _ Hc2 E2) as ((T & Hb & Hl) & Hwk & Hctx).
  pose proof (wk_arith _ _ _ _ _ Hw) as Ea. cbn in Ea. pose proof (wk_flags _ _ _ _ _ Hw) as Hfl.
  unfold set_body_begin. apply lpost_bind. eapply lpost_get_lexer; [exact E2|]. rewrite Ea. unfold lpost at 1, put_lexer.
  apply lpost_ret, Hq. rewrite E2. cbn [tail]. set (c' := mk_checkpoint _ _ _ _ _ _ _). set (x3 := with_arithmetic x2 _).
  set (t3 := mk_tape _ _ _ _). unfold lexer_weak in Hwk. rewrite Ea in Hwk.
  pose proof (weak_frames _ _ _ (frames x) _ _ _ _ Hwk Ec2 (ex_intro _ _ Ef)) as Hck.
  assert (busy x3) as Hbusy3 by (eapply (busy_flags x2); [done|]; eapply busy_flags; [exact Hfl|done]).
  assert (core t3) as Hc3.
  { destruct Hc2 as (Hso & Hca & _). split; [done|]. split; [done|]. exists x3, b2. split; [done|]. split; [done|].
    split; [|split; [apply Hctx|by intros _]]. unfold lexer_weak, weak. cbn. exists [mk_frame ARITHMETIC q (length (fragments x)) 0 0], (frames x).
    by rewrite Ef. }
  assert (lexer_full x3 b2) as Hfull3.
  { destruct bg_full as [He _]. split.
    - cbn. eapply finished_mono; [|apply (wk_finished _ _ _ _ _ Hw _ He)]. rewrite (wk_raw _ _ _ _ _ Hw). cbn. rewrite length_app. lia.
    - cbn [fragments frames arithmetic raw with_arithmetic x3]. rewrite Ef. cbn [arith_wf fm_kind fm_fragment].
      rewrite bool_decide_eq_true_2 by done. split; [done|]. split; [done|]. split; [|done].
      intros j g Hj Hg _. split; [by eapply Hcont|]. apply (tree_range _ _ _ T _ _ Hg). }
  assert (raw x3 <> []) as Hr3.
  { cbn. rewrite (wk_raw _ _ _ _ _ Hw). intros E. apply (f_equal length) in E. rewrite length_app, length_take in E. cbn in E. lia. }
  assert (begun t3 x3 b2) as Hbg3.
  { split; [done|done|done|done|]. injection Hfl as _ _ _ _ _ Ecm _. cbn. by rewrite Ecm. }
  split; [by eapply going_intro; [eapply turn_ready, begun_turn|..]; [done|done|done|apply Hbg3]|].
  pose proof (measure_weight t3) as Hm. unfold weight in *. cbn [t_lexers t3 t_source] in Hm.
  rewrite (wk_text _ _ _ _ _ Hw), length_drop in Hm. cbn [frames with_arithmetic x3 t_source t1 set_lexers set_proc] in Hm.
  rewrite Ef in Hm. rewrite bg_lexers. simpl in Hm |- *. lia.
Qed.

Lemma begun_recoverable t x behind : begun t x behind -> recoverable t x behind.
Proof.
  intros []. pose proof (core_lexer _ _ _ bg_core bg_lexers) as (H1 & H2 & H3). destruct bg_core as ((_ & Hd) & Hca & _).
  by split_and!.
Qed.

Lemma retry_post t x behind : begun t x behind -> arithmetic x <> [] ->
  lpost retry t (fun r t' => r = Some CSH_LEX_REPLAY /\ result_ok CSH_LEX_REPLAY t') failed_ok.
Proof.
  intros Hbg Ha. unfold retry. apply lpost_bind.
  eapply lpost_mono; [apply (replay_post no_error t x behind); [by apply begun_recoverable|done|done]|].
  intros [|] t'; [intros [Hr Hp]; by apply lpost_ret|]. intros [_ Hf]. destruct (Hf eq_refl).
  apply (bg_core _ _ _ Hbg).
Qed.

Lemma arithmetic_frame t x behind f below : begun t x behind -> frames x = f :: below -> fm_kind f = ARITHMETIC ->
  exists c cs, arithmetic x = c :: cs /\ cp_fragment_count c = fm_fragment f /\
    checkpoint_ok (chain_ok behind) (arith_wf (chain_ok behind) (fragments x)) c cs (fragments x) below (length (raw x)) (lens behind).
Proof.
  intros [] Ef Hk. destruct bg_full as [_ Ha]. rewrite Ef in Ha. cbn [arith_wf] in Ha. rewrite bool_decide_eq_true_2 in Ha by done.
  destruct (arithmetic x) as [|c cs]; [done|]. destruct Ha as (? & _ & _ & ?). by exists c, cs.
Qed.

(** The closing of an arithmetic frame drops its checkpoint. *)
Lemma pop_arithmetic {R} n (r : R) t x behind f below Q : begun t x behind -> frames x = f :: below -> fm_kind f = ARITHMETIC ->
  (1 <= n <= length (text (t_source t)))%nat -> (forall t', step_ok (weight t) None t' -> Q r t') ->
  lpost (let% _ := pop n in
         let% x := get_lexer in
         let% _ := put_lexer (with_arithmetic x (tail (arithmetic x))) in lret r) t Q failed_ok.
Proof.
  intros Hbg Ef Hk Hn Hq. pose proof Hbg as []. destruct (arithmetic_frame _ _ _ _ _ Hbg Ef Hk) as (c & cs & Ea & Ec & Hck).
  pose proof bg_full as [He _]. pose proof (core_lexer _ _ _ bg_core bg_lexers) as ((_ & Hb & _) & _).
  rewrite Ef in Hb. destruct Hb as [Hf Hb]. apply lpost_bind.
  eapply lpost_mono; [apply (pop_post n t x behind f below bg_core bg_lexers (proj1 bg_busy)); try done; try lia|].
  - by eapply begun_guarded.
  - rewrite Ea. lia.
  - exists (length (raw x)). split; [done|lia].
  - intros [] t1 (x1 & Hw & Ef1). destruct Hw as [W1 W2 W3 (b & b1 & E & E1 & G) W5 W6 W7 W8 W9 (i & Hev & Hi)].
    rewrite bg_lexers in E. injection E as <-. eapply lpost_get_lexer; [exact E1|]. apply lpost_put_lexer, lpost_ret, Hq.
    rewrite E1, W7, Ea. cbn [tail]. set (x2 := with_arithmetic x1 cs). set (t2 := set_lexers t1 (x2 :: b1)).
    assert (length (raw x) <= length (raw x1))%nat as Hlen by (rewrite W5, length_app; lia).
    assert (lexer_full x2 b1) as Hfull.
    { split; cbn.
      - eapply finished_mono; [|apply (W9 _ He)]. lia.
      - rewrite Ef1. destruct Hck as (n0 & p0 & caps & _ & _ & _ & _ & _ & _ & Hn0 & Hcaps & _ & Hrest).
        eapply arith_wf_alike; [by apply grown_alike|]. rewrite Ef in Hi. destruct Hi as [Hi1 Hi2].
        eapply (arith_wf_evolve _ _ _ _ _ n0 _ (map fst caps) _ i); [exact Hrest|..].
        + destruct Hev as [V1 V2 V3]. split; [exact V1|done|]. intros j g Hg Hlt. apply V3; [done|]. lia.
        + eapply frames_below_mono; [|exact Hi2]. lia.
        + lia.
        + eapply Forall2_le_trans; [exact Hcaps|by apply grown_lens]. }
    pose proof (core_lexer _ _ _ W1 E1) as (Hs & _ & Hctx & _).
    assert (busy x2) as Hbusy by (eapply (busy_flags x1); [done|by eapply busy_flags]).
    assert (begun t2 x2 b1) as Hbg2.
    { split; [|done|done|done|].
      - destruct W1 as (Hso & Hca & _). split; [done|]. split; [done|]. exists x2, b1. split; [done|]. split; [done|].
        split; [|by split; [|intros _]]. unfold lexer_weak. apply arith_wf_weak. apply Hfull.
      - injection W6 as _ _ _ _ _ Ecm _. cbn. by rewrite Ecm. }
    split.
    + eapply going_intro; [eapply turn_ready, begun_turn; [done|]|done|apply Hbg2]. cbn. intros Er.
      rewrite W5 in Er. apply (f_equal length) in Er. rewrite length_app, length_take in Er. simpl in Er. lia.
    + pose proof (measure_weight t2) as Hm. unfold weight in *. cbn [t_lexers t2 set_lexers t_source frames with_arithmetic x2] in Hm.
      rewrite W3, length_drop, Ef1 in Hm. rewrite bg_lexers, Ef. simpl. lia.
Qed.

(** Steps from a tape with a cache of its own, or with other answers to come. *)
Definition near (t t' : tape) : Prop :=
  text (t_source t') = text (t_source t) /\ final (t_source t') = final (t_source t) /\ t_lexers t' = t_lexers t.

Lemma near_weight t t' : near t t' -> weight t' = weight t.
Proof. intros (E1 & _ & E2). unfold weight. by rewrite E1, E2. Qed.

Lemma step_ok_weight m m' r t : (m <= m')%nat -> step_ok m r t -> step_ok m' r t.
Proof. destruct r; [done|]. intros Hm [? ?]. split; [done|lia]. Qed.

Lemma looked_near t t' : looked t t' -> near t t'.
Proof. intros H. by destruct (looked_text _ _ H) as (? & ? & ?). Qed.

Lemma same_near t t' : same_tape t t' -> near t t'.
Proof. intros [E1 E2]. unfold near. by rewrite E1. Qed.

Lemma close_arithmetic_post t x behind f below : begun t x behind -> frames x = f :: below -> fm_kind f = ARITHMETIC ->
  lpost close_arithmetic t (fun r t' => match r with
    | Some r => step_ok (weight t) r t'
    | None => near t t' /\ begun t' x behind
    end) failed_ok.
Proof.
  intros Hbg Ef Hk. pose proof Hbg as []. destruct (arithmetic_frame _ _ _ _ _ Hbg Ef Hk) as (c & cs & Ea & Ec & Hck).
  pose proof (framed_raw _ _ _ Hbg ltac:(by rewrite Ef)) as Hraw.
  unfold close_arithmetic. eapply lpost_get_lexer; [done|]. apply lpost_bind.
  eapply lpost_mono; [apply (probe_arithmetic_post x behind false); [done|done|done|by rewrite Ea]|].
  intros valid t1 Hs1. pose proof (begun_same _ _ _ _ Hs1 Hbg) as Hbg1. pose proof (same_near _ _ Hs1) as (N1 & N2 & N3).
  assert (forall t2, begun t2 x behind -> lpost (let% r := retry in lret (Some r)) t2
    (fun r t' => match r with Some r => step_ok (weight t) r t' | None => near t t' /\ begun t' x behind end) failed_ok) as Hretry.
  { intros t2 H2. apply lpost_bind. eapply lpost_mono; [apply (retry_post _ _ _ H2); by rewrite Ea|].
    intros r t' [-> Hr]. by apply lpost_ret. }
  destruct valid; [|by apply Hretry]. cbn [negb]. apply lpost_bind.
  eapply lpost_mono; [apply peek_post, Hbg1|]. intros [next physical] t2 [Hl2 Hp]. cbn [fst snd] in Hp.
  pose proof (looked_begun _ _ _ _ Hl2 Hbg1) as Hbg2. destruct (looked_near _ _ Hl2) as (M1 & M2 & M3).
  destruct (Z.eqb_spec next (-2)) as [->|Hn].
  { apply lpost_ret. split; [by eapply turn_ready, begun_turn|]. rewrite M2. destruct Hp as [[Hp _]|[? _]]; [by apply asks_more in Hp|lia]. }
  destruct (Z.eqb_spec next (ch ")")) as [->|Hn2].
  { destruct Hp as [[Hp _]|Hp]; [by apply no_answer in Hp|].
    eapply pop_arithmetic; [exact Hbg2|exact Ef|done|rewrite M1; lia|]. intros t' Ht. change (step_ok (weight t) None t').
    eapply step_ok_weight; [|exact Ht]. unfold weight. rewrite M1, M3, N1, N3. done. }
  destruct (negb (next =? -1)); [by apply Hretry|]. apply lpost_ret. split; [|done]. unfold near. split_and!; congruence.
Qed.

(** A frame whose parentheses or header stage changes. *)
Definition reframed (t t' : tape) (x y : csh_lexer) (behind : list csh_lexer) : Prop :=
  begun t' y behind /\ text (t_source t') = text (t_source t) /\ final (t_source t') = final (t_source t) /\
  map fm_kind (frames y) = map fm_kind (frames x).

Lemma reframed_weight t t' x y behind : begun t x behind -> reframed t t' x y behind -> weight t' = weight t.
Proof.
  intros [] ([_ E _ _ _] & Et & _ & Ef). unfold weight. rewrite E, Et, bg_lexers.
  apply (f_equal length) in Ef. rewrite !length_map in Ef. lia.
Qed.

Lemma linked_alike l (fs fs' : list frame) : open_of fs = open_of fs' -> frames_linked l fs -> frames_linked l fs'.
Proof.
  revert fs'. induction fs as [|f fs IH]; intros [|f' fs'] E; try done. injection E as Ei E.
  intros [(g & Hg & Ep) H]. split; [|by apply IH]. exists g. rewrite <- Ei. split; [done|]. change (open_of fs = open_of fs') in E. by rewrite <- E.
Qed.

Lemma frames_alike l (fs fs' : list frame) : map fm_kind fs = map fm_kind fs' -> open_of fs = open_of fs' ->
  (forall n, frames_below fs n -> frames_below fs' n) /\
  (forall C cs n ns, arith_wf C l fs cs n ns -> arith_wf C l fs' cs n ns).
Proof.
  unfold open_of. revert fs'. induction fs as [|f fs IH]; intros [|f' fs'] E1 E2; try done. injection E1 as Ek E1. injection E2 as Ei E2.
  destruct (IH _ E1 E2) as (A & D). split.
  - intros n [H1 H2]. split; [by rewrite <- Ei|]. rewrite <- Ei. auto.
  - intros C cs n ns. cbn [arith_wf]. rewrite <- Ek, <- Ei. destruct (bool_decide _); [|apply D].
    destruct cs as [|c cs]; [done|]. intros (H1 & H2 & H3 & n0 & p0 & caps & K1 & K2 & K3 & K4 & K5 & K6 & K7 & K8 & K9 & K10).
    split_and!; [done|done|done|]. exists n0, p0, caps. split_and!; try done.
    + rewrite K3. apply (f_equal length) in E2. by rewrite !length_map in E2.
    + destruct K5 as (T & Hb & Hl). split; [unfold open_of in *; by rewrite <- E2|]. split; [by apply A|by eapply linked_alike].
    + unfold open_of in *. by rewrite <- E2.
    + by apply D.
Qed.

Lemma set_frame_post {B} g (k : unit -> L B) t x behind f below Q : begun t x behind -> frames x = f :: below ->
  fm_kind g = fm_kind f -> fm_fragment g = fm_fragment f ->
  (forall t' y, reframed t t' x y behind -> frames y = g :: below -> lpost (k tt) t' Q failed_ok) ->
  lpost (lbind (set_frame g) k) t Q failed_ok.
Proof.
  intros Hbg Ef Ek Ei Hk. pose proof Hbg as []. unfold set_frame. apply lpost_bind. eapply lpost_get_lexer; [done|].
  unfold lpost, put_lexer. rewrite bg_lexers, Ef. cbn [tail]. set (y := with_frames x (g :: below)). set (t' := mk_tape _ _ _ _).
  assert (map fm_kind (frames x) = map fm_kind (frames y)) as E1 by (rewrite Ef; cbn; by rewrite Ek).
  assert (open_of (frames x) = open_of (frames y)) as E2 by (rewrite Ef; cbn; by rewrite Ei).
  destruct (frames_alike (fragments x) _ _ E1 E2) as (A & D). destruct bg_full as [He Ha].
  apply (Hk t' y); [|done]. split; [|split; [done|split; [done|by rewrite E1]]].
  assert (lexer_full y behind) as Hfull.
  { split; [cbn [fragments with_frames y raw]; by rewrite <- E2|]. by apply D. }
  pose proof (core_lexer _ _ _ bg_core bg_lexers) as ((T & Hb & Hl) & _ & Hctx). destruct bg_core as (Hso & Hca & _).
  split; try done. split; [done|]. split; [done|]. exists y, behind. split; [done|]. split; [|split; [|done]].
  - split; [|split; [by apply A|by eapply linked_alike]]. by rewrite <- E2.
  - unfold lexer_weak. apply arith_wf_weak. apply Hfull.
Qed.

Lemma arithmetic_byte_post b t x behind f below : begun t x behind -> frames x = f :: below -> fm_kind f = ARITHMETIC ->
  lpost (arithmetic_byte f b) t (fun r t' => match r with
    | Some r => step_ok (weight t) r t'
    | None => exists y, reframed t t' x y behind
    end) failed_ok.
Proof.
  intros Hbg Ef Hk. destruct (arithmetic_frame _ _ _ _ _ Hbg Ef Hk) as (c & cs & Ea & _). unfold arithmetic_byte.
  assert (forall n, lpost (let% _ := set_frame (mk_frame (fm_kind f) (fm_quote f) (fm_fragment f) n (fm_stage f)) in lret None) t
    (fun r t' => match r with Some r => step_ok (weight t) r t' | None => exists y, reframed t t' x y behind end) failed_ok) as Hset.
  { intros n. eapply set_frame_post; [done|exact Ef|done|done|]. intros t' y Hr _. apply lpost_ret. by exists y. }
  assert (reframed t t x x behind) as Hsame by (by split_and!).
  destruct (in_set _ _).
  { apply lpost_bind. eapply lpost_mono; [apply (retry_post _ _ _ Hbg); by rewrite Ea|].
    intros r t' [-> Hr]. by apply lpost_ret. }
  destruct (b =? ch "("); [destruct (_ =? SIZE_MAX); [apply fail_post; [apply Hbg|done]|apply Hset]|].
  destruct (b =? ch ")"); [|apply lpost_ret; by exists x]. destruct (negb _); [apply Hset|].
  eapply lpost_mono; [by eapply close_arithmetic_post|]. intros [r|] t'; [done|]. intros [(N1 & N2 & N3) Hbg']. exists x. by split_and!.
Qed.

(** ** Dollar *)

Lemma dollar_post q t x behind : begun t x behind ->
  lpost (dollar q) t (fun r t' => match r with
    | DollarText => near t t' /\ begun t' x behind
    | DollarMore => near t t' /\ begun t' x behind /\ final (t_source t') = false
    | DollarConsumed => step_ok (weight t) None t'
    | DollarCommand => result_ok CSH_LEX_COMMAND t'
    end) failed_ok.
Proof.
  intros Hbg. unfold dollar. apply lpost_bind. eapply lpost_mono; [apply peek_post, Hbg|].
  intros [next physical] t1 [Hl1 Hp]. cbn [fst snd] in Hp. pose proof (looked_begun _ _ _ _ Hl1 Hbg) as Hbg1.
  pose proof (looked_near _ _ Hl1) as Hn1. pose proof Hn1 as (M1 & M2 & M3). rewrite <- (near_weight _ _ Hn1).
  assert (near t1 t1) as Hrefl by done.
  destruct (Z.eqb_spec next (-2)) as [->|Hn].
  { apply lpost_ret. split_and!; try done. rewrite M2. destruct Hp as [[Hp _]|[? _]]; [by apply asks_more in Hp|lia]. }
  assert (0 <= next -> (1 <= physical <= length (text (t_source t1)))%nat) as Hphys.
  { intros Hnn. rewrite M1. destruct Hp as [[Hp _]|Hp]; [by apply no_answer in Hp|lia]. }
  destruct (Z.eqb_spec next (ch "{")) as [->|Hn2]; [eapply push_step; [done|by apply Hphys|done..]|].
  destruct (Z.eqb_spec next (ch "(")) as [->|Hn3].
  { apply lpost_bind. eapply lpost_mono; [apply peek_post, Hbg1|].
    intros [third third_physical] t2 [Hl2 Hp2]. cbn [fst snd] in Hp2. pose proof (looked_begun _ _ _ _ Hl2 Hbg1) as Hbg2.
    pose proof (looked_near _ _ Hl2) as Hn2'. pose proof Hn2' as (K1 & K2 & K3).
    destruct (Z.eqb_spec third (-2)) as [->|Hn4].
    { apply lpost_ret. split; [unfold near; split_and!; congruence|]. split; [done|].
      rewrite K2. destruct Hp2 as [[Hp2 _]|[? _]]; [by apply asks_more in Hp2|lia]. }
    rewrite <- (near_weight _ _ Hn2').
    destruct (Z.eqb_spec third (ch "(")) as [->|Hn5].
    - destruct Hp2 as [[Hp2 _]|Hp2]; [by apply no_answer in Hp2|].
      eapply arithmetic_step; [done|rewrite K1; by apply Hphys|rewrite K1; lia|done].
    - eapply begin_command; [done|rewrite K1; by apply Hphys|]. intros t' Hr Hpc _. by apply lpost_ret. }
  destruct ((next =? ch "'") && _) eqn:E4.
  { apply andb_true_iff in E4 as [->%Z.eqb_eq _]. eapply push_step; [done|by apply Hphys|done..]. }
  destruct (name_start next) eqn:E5.
  { eapply push_step; [done|apply Hphys|done..]. unfold name_start, between in E5. bsimp. lia. }
  destruct (digit_byte next || _) eqn:E6; [|apply lpost_ret; by split].
  assert (0 <= next) as Hnn.
  { apply orb_true_iff in E6 as [E6|E6]; [unfold digit_byte, between in E6|]; bsimp; lia. }
  specialize (Hphys Hnn). apply lpost_bind. pose proof Hbg1 as [].
  eapply lpost_mono; [by apply (push_post _ _ _ _ _ _ _ bg_core bg_lexers (proj1 bg_busy))|].
  intros [] t2 (x2 & Hw & Ef & _). destruct (begun_ready _ _ _ _ _ _ Hbg1 Hw Hphys) as (b2 & Hbg2 & Hr2 & _).
  { intros b n ns. by rewrite Ef. }
  apply lpost_bind. eapply lpost_mono; [eapply (pop_begun 0); [exact Hbg2|exact Ef|done|lia]|].
  intros [] t3 (x3 & b3 & Hw3 & Ef3 & Hbg3 & Hr3). apply lpost_ret. split.
  - eapply going_intro; [eapply turn_ready, begun_turn; done|apply Hbg3|apply Hbg3].
  - pose proof (measure_weight t3) as Hm. unfold weight in *. rewrite (LexerSafety.bg_lexers _ _ _ Hbg3), Ef3 in Hm.
    rewrite (wk_text _ _ _ _ _ Hw3), drop_0, (wk_text _ _ _ _ _ Hw), length_drop in Hm. rewrite bg_lexers. lia.
Qed.

(** ** Separators and operators *)

Lemma operator_char_kind b : operator_char b = true -> exists k, operator_kind [b] = Some k.
Proof.
  unfold operator_char. intros [_ Hb]%andb_true_iff. unfold in_set in Hb. apply existsb_exists in Hb as (c & Hc & Hb).
  apply Z.eqb_eq in Hb as <-. cbn in Hc. by repeat (destruct Hc as [<-|Hc]; [eexists; reflexivity|]).
Qed.

(** The byte behind the start of an unquoted token. *)
Lemma first_byte {B} k op t x t0 x0 behind (f : unit -> L B) Q : started t0 t x0 x behind -> raw x = [] -> fragments x = [] -> frames x = [] ->
  arithmetic x = [] -> (1 <= length (text (t_source t)))%nat ->
  (forall t' x' behind', core t' -> t_lexers t' = x' :: behind' -> lexer_full x' behind' -> frames x' = [] -> raw x' <> [] ->
     flags x' = flags (with_kind x k op) -> text (t_source t') = drop 1 (text (t_source t)) -> lpost (f tt) t' Q failed_ok) ->
  lpost (let% _ := put_lexer (with_kind x k op) in lbind (consume 1) f) t Q failed_ok.
Proof.
  intros [] Er Eg Ef Ea Hlen Hf. apply lpost_put_lexer. rewrite st_lexers0. cbn [tail]. set (y := with_kind x k op).
  set (t1 := set_lexers t (y :: behind)).
  assert (core t1) as Hc1.
  { apply (core_idle t x y); try done. change (shape (fragments x) [] (length (raw x))). rewrite Eg. apply shape_nil. }
  apply lpost_bind. eapply lpost_mono; [by apply consume_post|]. intros [] t2 Hm.
  destruct (moved_worked 1 t1 t2 y behind Hc1 Hm eq_refl st_active0) as (x2 & Hw & Ef2 & _).
  destruct (worked_full _ _ _ _ _ behind Hw eq_refl) as (He2 & b2 & E2 & Ha2); [by apply idle_full|].
  assert (arithmetic x2 = []) as Ea2 by (rewrite (wk_arith _ _ _ _ _ Hw); done).
  apply (Hf t2 x2 b2); try done.
  - apply Hw.
  - split; [done|]. by rewrite Ef2.
  - by rewrite Ef2.
  - rewrite (wk_raw _ _ _ _ _ Hw). change (t_source t1) with (t_source t).
    destruct (text (t_source t)); [simpl in Hlen; lia|]. by destruct (raw y).
  - apply Hw.
  - apply Hw.
Qed.

(** Bytes between words. *)
Lemma idle_consume {R} k (r : R) t x behind Q : ready t -> t_lexers t = x :: behind -> active x = false ->
  (1 <= k <= length (text (t_source t)))%nat -> (forall t', step_ok (weight t) None t' -> Q r t') ->
  lpost (let% _ := consume k in lret r) t Q failed_ok.
Proof.
  intros [Hc (x' & b' & Et' & Hf & Hw)] Et Ha Hk Hq. rewrite Et in Et'. injection Et' as <- <-.
  unfold word_ok in Hw. rewrite Ha in Hw. destruct Hw as (W1 & W2 & W3 & W4). pose proof (full_idle _ _ Hf W3) as Eh.
  apply lpost_bind. eapply lpost_mono; [apply consume_post; [done|lia]|].
  intros [] t1 (Hc1 & F1 & T1 & y & b0 & x1 & b1 & E0 & E2 & [p ->] & G). rewrite Et in E0. injection E0 as <- <-.
  rewrite Ha in E2. apply lpost_ret, Hq. split.
  - eapply going_intro; [|exact E2|done]. split; [done|]. exists x, b1. split; [done|]. split; [by apply idle_full|].
    unfold word_ok. by rewrite Ha.
  - pose proof (measure_weight t1) as Hm. unfold weight in *. rewrite E2, T1, length_drop in Hm. rewrite Et. lia.
Qed.

Lemma separator_post b t x behind : turn t x behind -> frames x = [] -> head (text (t_source t)) = Some b ->
  (b = 32 \/ b = 9 \/ b = 10 \/ operator_char b = true) -> lpost (separator b) t (step_ok (weight t)) failed_ok.
Proof.
  intros Ht Ef Hb Hsep. pose proof Ht as []. unfold separator. eapply lpost_get_lexer; [done|].
  assert (b <> ch "$") as Hne by (intros ->; destruct Hsep as [?|[?|[?|?]]]; done).
  assert (1 <= length (text (t_source t)))%nat as Hlen by (destruct (text (t_source t)); [done|simpl; lia]).
  pose proof tn_word0 as Hw. unfold word_ok in Hw. destruct (active x) eqn:Ea.
  { apply lpost_bind. destruct Hw as (W1 & W2 & _ & [[_ W3]|(W3 & _)]); [|by specialize (tn_kind0 eq_refl)].
    eapply lpost_mono; [eapply publish_post; try done|].
    - destruct W3 as [?|[_ W3]]; [done|]. congruence.
    - intros r t' [Hr _]. by apply lpost_ret. }
  destruct Hw as (W1 & W2 & _ & W4). pose proof (full_idle _ _ tn_full0 Ef) as Eh.
  destruct ((b =? 32) || (b =? 9)) eqn:E1.
  { apply (idle_consume 1 _ t x behind); try done. by apply (turn_ready _ _ _ Ht). }
  apply lpost_bind. eapply lpost_mono; [by apply start_token_post|]. intros [] t1 (x1 & Hst). pose proof Hst as [].
  pose proof st_rest0 as [= R1 R2 R3 R4 R5 R6 R7 R8 R9]. eapply lpost_get_lexer; [done|]. cbv zeta.
  assert (1 <= length (text (t_source t1)))%nat as Hlen1 by (by rewrite st_text0).
  destruct (b =? 10) eqn:E2.
  - eapply first_byte; [exact Hst|congruence..|done|]. intros t2 x2 b2 C1 C2 C3 C4 C5 C6 C7.
    injection C6 as F1 F2 F3 F4 F5 F6 F7. apply lpost_bind. eapply lpost_mono; [eapply publish_post; try done|].
    + rewrite F2. done.
    + rewrite F6. cbn. congruence.
    + intros r t' [Hr _]. by apply lpost_ret.
  - assert (operator_char b = true) as Hop by (destruct Hsep as [->|[->|[->|?]]]; done).
    destruct (operator_char_kind b Hop) as [k Ek]. rewrite Ek. cbn [default]. destruct (operators_short _ _ Ek) as [Hk Hl].
    eapply first_byte; [exact Hst|congruence..|done|]. intros t2 x2 b2 C1 C2 C3 C4 C5 C6 C7.
    injection C6 as F1 F2 F3 F4 F5 F6 F7. apply lpost_ret.
    assert (operating t2 x2 b2) as Ho.
    { split; try done; try congruence. }
    split; [eapply going_intro; [by eapply operating_ready|done|apply Ho]|].
    pose proof (measure_weight t2) as Hm. unfold weight in *. rewrite C2, C4, C7, length_drop, st_text0 in Hm.
    rewrite tn_lexers0. simpl in Hm. lia.
Qed.

(** ** Escapes, quotes and text *)

Definition top_kind (x : csh_lexer) : option frame_kind := fm_kind <$> head (frames x).

Lemma frame_is_spec f k : frame_is f k = true <-> fm_kind <$> f = Some k.
Proof. destruct f as [g|]; cbn; [|done]. rewrite bool_decide_eq_true. split; [by intros ->|by intros [= ->]]. Qed.

(** Bytes of a word that may not have begun. *)
Lemma begin_piece {R} k q n (r : R) t x behind Q : turn t x behind -> (1 <= n <= length (text (t_source t)))%nat ->
  (k = CSH_FRAGMENT_ESCAPE \/ k = CSH_FRAGMENT_CONTINUATION -> (2 <= n)%nat) ->
  (forall t', step_ok (weight t) None t' -> Q r t') ->
  lpost (let% _ := begin_word in let% _ := piece k q n in lret r) t Q failed_ok.
Proof.
  intros Ht Hn Hk Hq. apply lpost_bind. eapply lpost_mono; [by apply begin_word_post|].
  intros [] t1 (x1 & Hbg & E1 & E2 & E3 & E4 & E5). eapply (piece_step k q n r t1 x1 behind 0%nat); [done|by rewrite E1|done|].
  assert (weight t1 = weight t) as ->; [|done].
  unfold weight. by rewrite E1, (bg_lexers _ _ _ Hbg), (tn_lexers _ _ _ Ht), E3.
Qed.

Lemma backslash_post f q t x behind rest : turn t x behind -> fm_kind <$> f = top_kind x ->
  text (t_source t) = ch "\" :: rest ->
  lpost (backslash f q) t (fun r t' => match r with Some r => step_ok (weight t) r t' | None => t' = t end) failed_ok.
Proof.
  intros Ht Hf Et. pose proof Ht as []. destruct (text_step _ _ _ Et) as (_ & _ & Hr).
  unfold backslash. apply lpost_get_source. eapply lpost_get_lexer; [done|]. rewrite Hr.
  assert (step_ok (weight t) (Some CSH_LEX_MORE) t <-> final (t_source t) = false) as Hmore.
  { split; [by intros [_ ?]|]. intros Hfin. split; [by eapply turn_ready|done]. }
  destruct rest as [|d rest].
  { destruct (final (t_source t)) eqn:Efin; cbn [negb].
    - apply fail_post; [done|]. intros _. split; [done|]. by exists x, behind.
    - apply lpost_ret. by apply Hmore. }
  set (width := csh_character_length (d :: rest) true (final (t_source t))).
  pose proof (width_bound (d :: rest) (final (t_source t))) as Hwb. fold width in Hwb.
  destruct (Nat.eqb_spec width 0) as [Hz|Hz].
  { apply lpost_ret, Hmore. destruct (final (t_source t)) eqn:Efin; [|done]. subst width.
    exfalso. by apply (width_final (d :: rest)). }
  assert (2 <= 1 + width <= length (text (t_source t)))%nat as Hn by (rewrite Et; simpl in *; lia). cbv zeta.
  assert (frames x <> [] -> begun t x behind) as Hframed by (intros Hne; by apply (turn_framed _ _ _ Ht)).
  destruct (frame_is f DOLLAR_SINGLE) eqn:E1.
  { apply frame_is_spec in E1. rewrite E1 in Hf. eapply (piece_step _ _ _ _ _ _ _ 0%nat); [apply Hframed|lia|lia|done].
    unfold top_kind in Hf. by destruct (frames x). }
  destruct (_ && negb _) eqn:E2.
  { destruct (active x) eqn:Ea.
    - eapply (piece_step _ _ _ _ _ _ _ 0%nat); [by apply turn_begun|rewrite Et; simpl; lia|lia|done].
    - eapply (idle_consume 2); [by eapply turn_ready|done|done|rewrite Et; simpl; lia|done]. }
  destruct (escapes _ _ _ _); [|by apply lpost_ret]. eapply begin_piece; [done|lia|lia|done].
Qed.

Lemma word_byte_post f q b t x behind : turn t x behind -> fm_kind <$> f = top_kind x ->
  head (text (t_source t)) = Some b -> lpost (word_byte f q b) t (step_ok (weight t)) failed_ok.
Proof.
  intros Ht Hf Hb. unfold word_byte. apply lpost_bind. eapply lpost_mono; [by apply begin_word_post|].
  intros [] t1 (x1 & Hbg & E1 & E2 & E3 & E4 & E5).
  assert (weight t1 = weight t) as <- by (unfold weight; by rewrite E1, (bg_lexers _ _ _ Hbg), (tn_lexers _ _ _ Ht), E3).
  assert (1 <= 1 <= length (text (t_source t1)))%nat as Hlen by (rewrite E1; destruct (text (t_source t)); [done|simpl; lia]).
  eapply lpost_get_lexer; [apply Hbg|].
  destruct ((b =? 34) && _ && _) eqn:Eq.
  { destruct (frame_is f DOUBLE) eqn:Ed.
    - apply frame_is_spec in Ed. rewrite Ed in Hf. unfold top_kind in Hf. destruct (frames x) as [|g below] eqn:Ef; [done|].
      injection Hf as Hf. eapply pop_step; [exact Hbg|exact E3|congruence|done|done].
    - by eapply push_step. }
  destruct (_ && bool_decide (q = CSH_QUOTE_NONE)); [by eapply push_step|]. cbv zeta.
  assert (forall t2, near t1 t2 -> begun t2 x1 behind -> lpost (if b =? ch "`" then let% _ := push BACKQUOTE CSH_FRAGMENT_BACKQUOTE q 1 in lret None
      else let% _ := piece CSH_FRAGMENT_TEXT q 1 in lret None) t2 (step_ok (weight t1)) failed_ok) as Htext.
  { intros t2 Hn2 Hbg2. pose proof Hn2 as (N1 & N2 & N3). rewrite <- (near_weight _ _ Hn2). rewrite <- N1 in Hlen. destruct (b =? ch "`").
    - by eapply push_step.
    - eapply (piece_step _ _ _ _ _ _ _ 0%nat); [done|done| |done]. by intros [?|?]. }
  destruct (Z.eqb_spec b (ch "$")) as [->|Hd]; [|by apply Htext].
  apply lpost_bind. eapply lpost_mono; [by apply dollar_post|]. intros [| | |] t2; try done.
  - intros [Hn2 Hbg2]. by apply Htext.
  - intros (Hn2 & Hbg2 & Hfin). apply lpost_ret. split; [|done]. pose proof Hn2 as (N1 & N2 & N3). pose proof Hbg2 as [].
    split; [done|]. exists x1, behind. split; [done|]. split; [done|]. pose proof bg_busy as (B1 & B2 & B3 & B4).
    unfold word_ok. rewrite B1. split_and!; [done|done|congruence|]. left. split; [done|].
    destruct (frames x1) as [|g below] eqn:Ef1; [right|left]; [|by eapply framed_raw; [|rewrite Ef1]].
    split; [done|]. by rewrite N1, E1.
Qed.

Lemma plain_byte_post f q b t x behind : turn t x behind -> fm_kind <$> f = top_kind x ->
  head (text (t_source t)) = Some b -> lpost (plain_byte f q b) t (step_ok (if b =? ch "#" then measure t else weight t)) failed_ok.
Proof.
  intros Ht Hf Hb. pose proof Ht as []. unfold plain_byte. eapply lpost_get_lexer; [done|].
  assert (1 <= 1 <= length (text (t_source t)))%nat as Hlen by (destruct (text (t_source t)); [done|simpl; lia]).
  pose proof (measure_weight t) as Hm.
  assert (forall r t', step_ok (weight t) r t' -> step_ok (if b =? ch "#" then measure t else weight t) r t') as Hstep
    by (intros r t'; apply step_ok_weight; destruct (b =? _); lia).
  assert (b = ch "#" -> (if b =? ch "#" then measure t else weight t) = measure t) as Hm2 by (by intros ->).
  revert Hstep Hm2. generalize (if b =? ch "#" then measure t else weight t). intros m Hstep Hm2.
  destruct (frame_is f DOLLAR_SINGLE || frame_is f BACKQUOTE) eqn:Ek.
  { assert (exists k, fm_kind <$> f = Some k /\ k <> ARITHMETIC) as (k & Hk & Hka).
    { apply orb_true_iff in Ek as [Ek|Ek]; apply frame_is_spec in Ek; rewrite Ek; by eexists. }
    rewrite Hk in Hf. unfold top_kind in Hf. destruct (frames x) as [|g below] eqn:Ef; [done|]. injection Hf as Hf.
    destruct (turn_framed _ _ _ Ht) as [Hbg _]; [by rewrite Ef|].
    destruct (b =? _).
    - eapply pop_step; [exact Hbg|exact Ef|congruence|done|]. intros t'. apply (Hstep None).
    - eapply (piece_step _ _ _ _ _ _ _ 0%nat); [done|done|by intros [?|?]|]. intros t'. apply (Hstep None). }
  destruct (_ && _ && (_ || operator_char b)) eqn:Es.
  { apply andb_true_iff in Es as [[_ Hn%bool_decide_eq_true]%andb_true_iff Es]. subst f. unfold top_kind in Hf.
    destruct (frames x) eqn:Ef; [|done]. eapply lpost_mono; [apply (separator_post b t x behind); try done|].
    - repeat (apply orb_true_iff in Es as [Es|Es]); rewrite ?Z.eqb_eq in Es; auto.
    - exact Hstep. }
  destruct (_ && _ && (b =? ch "#")) eqn:Ec.
  { apply andb_true_iff in Ec as [[_ Ha%negb_true_iff]%andb_true_iff Hsharp%Z.eqb_eq]. subst b. apply lpost_put_lexer, lpost_ret.
    rewrite tn_lexers0. cbn [tail]. set (y := with_modes x true (command x)). set (t' := set_lexers t (y :: behind)).
    unfold word_ok in tn_word0. rewrite Ha in tn_word0. destruct tn_word0 as (W1 & W2 & W3 & W4).
    pose proof (full_idle _ _ tn_full0 W3) as Eh.
    assert (core t') as Hc'.
    { apply (core_idle t x y); try done. change (shape (fragments x) [] (length (raw x))). rewrite W2. apply shape_nil. }
    split.
    - eapply (going_intro t' y); [|done|done]. split; [done|]. exists y, behind. split; [done|]. split; [by apply idle_full|].
      unfold word_ok. cbn. by rewrite Ha.
    - rewrite (Hm2 eq_refl). unfold measure, weight. cbn. rewrite tn_lexers0, tn_comment0. lia. }
  eapply lpost_mono; [by eapply word_byte_post|]. exact Hstep.
Qed.

Lemma parameter_context_keeps g b : fm_kind (parameter_context g b) = fm_kind g /\ fm_fragment (parameter_context g b) = fm_fragment g.
Proof. unfold parameter_context. by repeat case_match. Qed.

Definition allowance (b : byte) (t : tape) : nat := if b =? ch "#" then measure t else weight t.

Lemma allowance_weight b t : (weight t <= allowance b t)%nat.
Proof. unfold allowance. pose proof (measure_weight t). destruct (b =? _); lia. Qed.

Lemma allowance_step b t r t' : step_ok (weight t) r t' -> step_ok (allowance b t) r t'.
Proof. apply step_ok_weight, allowance_weight. Qed.

Lemma reframed_turn t t' x y behind : begun t x behind -> frames x <> [] -> reframed t t' x y behind ->
  turn t' y behind /\ top_kind y = top_kind x /\ text (t_source t') = text (t_source t) /\
  forall b, allowance b t' = allowance b t.
Proof.
  intros Hbg Hf Hr. pose proof (reframed_weight _ _ _ _ _ Hbg Hr) as Ew. destruct Hr as (Hbg' & E1 & E2 & E3).
  split; [apply begun_turn; [done|]|split; [|split; [done|]]].
  - eapply framed_raw; [done|]. intros E. rewrite E in E3. by destruct (frames x).
  - assert (forall z, top_kind z = head (map fm_kind (frames z))) as Hz by (intros z; unfold top_kind; by destruct (frames z)).
    by rewrite !Hz, E3.
  - intros b. unfold allowance, measure. rewrite Ew. destruct Hbg as [_ -> _ (_ & _ & _ & ->) _], Hbg' as [_ -> _ (_ & _ & _ & ->) _].
    done.
Qed.

Lemma escape_or_plain f q b t x behind : turn t x behind -> fm_kind <$> f = top_kind x -> head (text (t_source t)) = Some b ->
  lpost (let% r := (if b =? ch "\" then backslash f q else lret None) in
         match r with Some r => lret r | None => plain_byte f q b end) t (step_ok (allowance b t)) failed_ok.
Proof.
  intros Ht Hf Hb. apply lpost_bind. destruct (Z.eqb_spec b (ch "\")) as [->|].
  - destruct (text (t_source t)) as [|b rest] eqn:Et; [done|]. injection Hb as ->.
    eapply lpost_mono; [by eapply backslash_post|]. intros [r|] t'; [intros Hr; by apply lpost_ret, allowance_step|].
    intros ->. eapply plain_byte_post; [done|done|by rewrite Et].
  - apply lpost_ret. by eapply plain_byte_post.
Qed.

Lemma byte_step_post q b t x behind : turn t x behind -> head (text (t_source t)) = Some b ->
  lpost (byte_step (head (frames x)) q b) t (step_ok (allowance b t)) failed_ok.
Proof.
  intros Ht Hb. pose proof Ht as [].
  assert (1 <= 1 <= length (text (t_source t)))%nat as Hlen by (destruct (text (t_source t)); [done|simpl; lia]).
  unfold byte_step. destruct (frames x) as [|g below] eqn:Ef; cbn [head frame_is andb].
  { eapply escape_or_plain; [done|by unfold top_kind; rewrite Ef|done]. }
  destruct (turn_framed _ _ _ Ht) as [Hbg _]; [by rewrite Ef|].
  destruct (bool_decide (fm_kind g = SINGLE)) eqn:E1.
  { apply bool_decide_eq_true in E1. destruct (b =? _).
    - eapply pop_step; [exact Hbg|exact Ef|by rewrite E1|done|apply (allowance_step b t None)].
    - eapply (piece_step _ _ _ _ _ _ _ 0%nat); [done|done|by intros [?|?]|apply (allowance_step b t None)]. }
  destruct (bool_decide (fm_kind g = PARAMETER) && (b =? ch "}")) eqn:E2.
  { apply andb_true_iff in E2 as [E2%bool_decide_eq_true _].
    eapply pop_step; [exact Hbg|exact Ef|by rewrite E2|done|apply (allowance_step b t None)]. }
  assert (Some (fm_kind g) = top_kind x) as Htop by (unfold top_kind; by rewrite Ef).
  destruct (bool_decide (fm_kind g = PARAMETER) && negb (b =? ch "\")) eqn:E3.
  - apply andb_true_iff in E3 as [E3%bool_decide_eq_true _]. destruct (parameter_context_keeps g b) as [Pk Pf].
    apply lpost_bind. eapply set_frame_post; [exact Hbg|exact Ef|done|done|]. intros t' y Hr Ey.
    apply lpost_ret. destruct (reframed_turn _ _ _ _ _ Hbg ltac:(by rewrite Ef) Hr) as (Ht' & Ey' & Et' & Ew).
    rewrite Pk, E3. cbn beta iota. rewrite bool_decide_eq_false_2 by done. apply lpost_bind, lpost_ret.
    rewrite <- Ew. eapply escape_or_plain; [done|cbn; by rewrite Ey', Pk|by rewrite Et'].
  - apply lpost_bind, lpost_ret. cbn beta iota. apply lpost_bind. destruct (bool_decide (fm_kind g = ARITHMETIC)) eqn:E4.
    + apply bool_decide_eq_true in E4. eapply lpost_mono; [by eapply arithmetic_byte_post|].
      intros [r|] t'; [intros Hr; by apply lpost_ret, allowance_step|]. intros (y & Hr).
      destruct (reframed_turn _ _ _ _ _ Hbg ltac:(by rewrite Ef) Hr) as (Ht' & Ey' & Et' & Ew).
      rewrite <- Ew. eapply escape_or_plain; [done|by rewrite Ey'|by rewrite Et'].
    + apply lpost_ret. by eapply escape_or_plain.
Qed.

(** ** The end of the source and the main loop *)

Lemma eof_idle n t x behind : ready t -> t_lexers t = x :: behind -> active x = false -> frames x = [] ->
  text (t_source t) = [] -> final (t_source t) = true -> lpost (eof_loop (S n)) t result_ok failed_ok.
Proof.
  intros Hr Et Ea Ef Ex Efin. cbn [eof_loop]. eapply lpost_get_lexer; [done|]. rewrite Ef, Ea.
  apply lpost_get_lexers. rewrite Et. cbn [tail]. pose proof Hr as [Hc (x' & b' & Et' & Hf & _)]. rewrite Et in Et'. injection Et' as <- <-.
  destruct behind as [|y behind].
  { apply lpost_ret. split; [done|]. split; [done|]. split; [done|]. by exists x. }
  pose proof (core_lexer _ _ _ Hc Et) as (_ & _ & [Hch Hwait] & _).
  apply Forall_cons in Hwait as [(_ & _ & Hfy%awaits_framed) _]. destruct Hch as ((_ & _ & Hl) & _).
  destruct (frames y) as [|f fs] eqn:Efy; [done|]. destruct Hl as [(h & Hh & _) _]. cbn. rewrite Hh.
  apply fail_at_post; [done|]. intros _. split; [done|]. by exists x, (y :: behind).
Qed.

Lemma eof_post n t x behind : turn t x behind -> text (t_source t) = [] -> final (t_source t) = true ->
  (length (frames x) < n)%nat -> lpost (eof_loop n) t result_ok failed_ok.
Proof.
  revert t x. revert behind. induction n as [|n IH]; intros behind t x Ht Ex Efin Hn; [lia|]. pose proof Ht as [].
  cbn [eof_loop]. eapply lpost_get_lexer; [done|]. destruct (frames x) as [|g below] eqn:Ef.
  - destruct (active x) eqn:Ea.
    + destruct (turn_begun _ _ _ Ht Ea) as [_ _ _ (_ & _ & B3 & _) _]. eapply lpost_mono; [eapply publish_post; try done|by intros r t' [? _]].
      unfold word_ok in tn_word0. rewrite Ea, Ex in tn_word0.
      by destruct tn_word0 as (_ & _ & _ & [[_ [?|[_ ?]]]|(_ & _ & _ & ? & _)]).
    + pose proof (eof_idle n t x behind (turn_ready _ _ _ Ht) tn_lexers0 Ea Ef Ex Efin) as Hidle.
      cbn [eof_loop] in Hidle. unfold lpost, lbind, get_lexer in Hidle. rewrite tn_lexers0, Ef, Ea in Hidle. exact Hidle.
  - destruct (turn_framed _ _ _ Ht) as [Hbg _]; [by rewrite Ef|]. destruct (bool_decide (fm_kind g = SIMPLE)) eqn:Es.
    + apply bool_decide_eq_true in Es. apply lpost_bind.
      eapply lpost_mono; [eapply (pop_begun 0); [exact Hbg|exact Ef|by rewrite Es|lia]|].
      intros [] t' (x' & b' & Hw & Ef' & Hbg' & Hr'). eapply IH; [by apply begun_turn| | |rewrite Ef'; simpl in Hn; lia].
      * by rewrite (wk_text _ _ _ _ _ Hw), Ex.
      * by rewrite (wk_final _ _ _ _ _ Hw).
    + pose proof (core_lexer _ _ _ tn_core0 tn_lexers0) as ((_ & _ & Hl) & _). rewrite Ef in Hl.
      destruct Hl as [(h & Hh & _) _]. rewrite Hh. apply fail_at_post; [done|]. intros _. split; [done|]. by exists x, behind.
Qed.

End Turns.
