(* ===== verification/LexerTotal.v ===== *)
(** * The lexer: every turn ends

    [csh_lexer_next] returns from every ready tape, with the result that the
    header promises and a ready tape, and published tokens are well formed. *)

From stdpp Require Import base list gmap strings sorting.
From S2P Require Import Prelude Output State Arithmetic ArithmeticTheorems Character Expansion Lexer LexerLook LexerTree LexerSafety LexerTurns.

Section Total.
Context {loc : Locale} {LL : LocaleLaws loc} {ST : StableLocale loc} {db : LocaleDb}.

Lemma simple_step q t x behind g below : begun t x behind -> frames x = g :: below -> fm_kind g = SIMPLE ->
  lpost (let% (next, physical) := lex_peek 0 in
         if next =? -2 then lret (Some CSH_LEX_MORE)
         else let% _ := (if negb (name_char next) then pop 0 else delimiter physical q) in lret None) t
    (step_ok (measure t)) failed_ok.
Proof.
  intros Hbg Ef Hk. apply lpost_bind. eapply lpost_mono; [apply peek_post, Hbg|].
  intros [next physical] t1 [Hl Hp]. cbn [fst snd] in Hp. pose proof (looked_begun _ _ _ _ Hl Hbg) as Hbg1.
  pose proof (looked_near _ _ Hl) as Hn1. pose proof Hn1 as (M1 & M2 & M3).
  destruct (Z.eqb_spec next (-2)) as [->|Hn].
  { apply lpost_ret. split; [eapply turn_ready, begun_turn; [done|]; by eapply framed_raw; [|rewrite Ef]|]. rewrite M2.
    destruct Hp as [[Hp _]|[? _]]; [by apply asks_more in Hp|lia]. }
  pose proof (measure_weight t) as Hm. rewrite <- (near_weight _ _ Hn1) in Hm. pose proof Hbg1 as [].
  destruct (name_char next) eqn:E; cbn [negb].
  - assert (1 <= physical <= length (text (t_source t1)))%nat as Hphys.
    { rewrite M1. destruct Hp as [[Hp _]|Hp]; [|lia]. apply no_answer in Hp; [done|].
      unfold name_char, name_start, digit_byte, between in E. bsimp. lia. }
    apply lpost_bind. eapply lpost_mono.
    { apply (delimiter_post _ _ _ _ _ _ bg_core bg_lexers (proj1 bg_busy)); [by eapply begun_guarded|done|lia]. }
    intros [] t2 (x2 & Hw & Ef2 & _). apply lpost_ret. eapply (step_ok_weight (weight t1)); [lia|].
    eapply begun_going; [exact Hbg1|exact Hw|done|rewrite Ef2; lia|]. intros b n ns. by rewrite Ef2.
  - apply lpost_bind. eapply lpost_mono; [eapply (pop_begun 0); [exact Hbg1|exact Ef|by rewrite Hk|lia]|].
    intros [] t2 (x2 & b2 & Hw & Ef2 & Hbg2 & Hr2). apply lpost_ret. split.
    + eapply going_intro; [eapply turn_ready, begun_turn; done|apply Hbg2|apply Hbg2].
    + unfold measure, weight. rewrite (LexerSafety.bg_lexers _ _ _ Hbg2), (wk_text _ _ _ _ _ Hw), drop_0, Ef2, M1.
      destruct Hbg as [_ -> _ (_ & _ & _ & ->) _], Hbg2 as [_ _ _ (_ & _ & _ & ->) _]. rewrite Ef. simpl. lia.
Qed.

Lemma wide_step q n t x behind : turn t x behind -> (2 <= n <= length (text (t_source t)))%nat ->
  lpost (let% _ := begin_word in
         let% q := (match head (frames x) with
           | Some g =>
               if bool_decide (fm_kind g = PARAMETER) then
                 let g := parameter_context g 256 in let% _ := set_frame g in lret (fm_quote g)
               else lret q
           | None => lret q
           end) in
         let% _ := piece CSH_FRAGMENT_TEXT q n in lret None) t (step_ok (weight t)) failed_ok.
Proof.
  intros Ht Hn. apply lpost_bind. eapply lpost_mono; [by apply begin_word_post|].
  intros [] t1 (x1 & Hbg & E1 & E2 & E3 & E4 & E5).
  assert (weight t1 = weight t) as <- by (unfold weight; by rewrite E1, (bg_lexers _ _ _ Hbg), (tn_lexers _ _ _ Ht), E3).
  rewrite <- E1 in Hn. rewrite <- E3. apply lpost_bind.
  assert (forall q t2 y, begun t2 y behind -> text (t_source t2) = text (t_source t1) -> weight t2 = weight t1 ->
    lpost (let% _ := piece CSH_FRAGMENT_TEXT q n in lret None) t2 (step_ok (weight t1)) failed_ok) as Hpiece.
  { intros q' t2 y Hbg2 Et2 <-. eapply (piece_step _ _ _ _ _ _ _ 0%nat); [done|rewrite Et2; lia|by intros [?|?]|done]. }
  destruct (frames x1) as [|g below] eqn:Ef; cbn [head]; [apply lpost_ret; by eapply Hpiece|].
  destruct (bool_decide _); [|apply lpost_ret; by eapply Hpiece]. destruct (parameter_context_keeps g 256) as [Pk Pf].
  cbv zeta. eapply set_frame_post; [exact Hbg|exact Ef|done|done|]. intros t2 y Hr _. apply lpost_ret.
  pose proof (reframed_weight _ _ _ _ _ Hbg Hr). destruct Hr as (Hbg2 & Et2 & _). by eapply Hpiece.
Qed.

Lemma lex_step_post t : going t -> lpost lex_step t (step_ok (measure t)) failed_ok.
Proof.
  intros [[Hc (x & behind & Et & Hf & Hw)] Hcm]. specialize (Hcm _ _ Et). unfold lex_step.
  apply lpost_get_source. eapply lpost_get_lexer; [done|]. cbv zeta.
  assert (ready t) as Hready by (split; [done|]; by exists x, behind).
  destruct (active x && negb (bool_decide (kind x = CSH_TOKEN_WORD))) eqn:Eop.
  { apply andb_true_iff in Eop as [Ea Ek%negb_true_iff%bool_decide_eq_false]. unfold word_ok in Hw. rewrite Ea in Hw.
    destruct Hw as (W1 & W2 & _ & [[? _]|(_ & _ & W3 & W4 & W5)]); [done|]. apply lpost_bind.
    eapply lpost_mono; [apply (operator_step_post 4 t x behind); [by split|lia]|]. intros r t' Hr. by apply lpost_ret. }
  assert (active x = true -> kind x = CSH_TOKEN_WORD) as Hkind.
  { intros Ea. rewrite Ea in Eop. by apply negb_false_iff, bool_decide_eq_true in Eop. }
  assert (comment x = true -> active x = false) as Hcom.
  { intros Hcm'. destruct (active x) eqn:Ea; [|done]. unfold word_ok in Hw. rewrite Ea in Hw. by destruct Hw as (_ & ? & _); congruence. }
  fold (text (t_source t)). destruct (text (t_source t)) as [|b rest] eqn:Ex.
  { destruct (final (t_source t)) eqn:Efin; [|by apply lpost_ret]. cbn [negb]. apply lpost_bind.
    unfold eof. eapply lpost_mono; [|intros r t' Hr; by apply lpost_ret]. eapply lpost_get_lexer; [done|].
    destruct (active x) eqn:Ea.
    - apply (eof_post _ t x behind); [|done|done|lia]. split; [done|done|done|by rewrite Ex| |done|by intros _; apply Hkind].
      destruct (comment x); [by specialize (Hcom eq_refl)|done].
    - pose proof Hw as Hw'. unfold word_ok in Hw'. rewrite Ea in Hw'. destruct Hw' as (_ & _ & Ef & _). by eapply eof_idle. }
  destruct (b =? 0); [by apply fail_post|].
  destruct (comment x && negb (b =? 10)) eqn:E1.
  { apply andb_true_iff in E1 as [E1 _]. eapply (idle_consume 1); [done|done|by apply Hcom|rewrite Ex; simpl; lia|].
    intros t'. apply step_ok_weight. pose proof (measure_weight t). lia. }
  apply lpost_put_lexer. rewrite Et. cbn [tail]. set (y := with_modes x false (command x)). set (t1 := set_lexers t (y :: behind)).
  assert (turn t1 y behind /\ (allowance b t1 <= measure t)%nat /\ (active y = true -> (measure t1 <= measure t)%nat)) as (Ht & Hall & Hact).
  { destruct (comment x) eqn:Ec.
    - specialize (Hcom eq_refl). cbn in E1. apply negb_false_iff, Z.eqb_eq in E1 as ->.
      pose proof Hw as Hw'. unfold word_ok in Hw'. rewrite Hcom in Hw'. destruct Hw' as (W1 & W2 & W3 & W4).
      pose proof (full_idle _ _ Hf W3) as Eh. split; [|split].
      + split; try done.
        * apply (core_idle t x y); try done. change (shape (fragments x) [] (length (raw x))). rewrite W2. apply shape_nil.
        * unfold word_ok. cbn. by rewrite Hcom.
      + change (weight t1 <= measure t)%nat. pose proof (measure_weight t) as Hm. unfold weight at 1 in Hm. rewrite Et in Hm.
        unfold weight. cbn [t_lexers t1 set_lexers t_source]. change (frames y) with (frames x). lia.
      + change (active y) with (active x). congruence.
    - unfold t1, y. replace (with_modes x false (command x)) with x by (destruct x; cbn in *; by subst).
      replace (set_lexers t (x :: behind)) with t by (destruct t; cbn in *; by subst).
      split; [by split; rewrite ?Ex|]. split; [|done]. unfold allowance. pose proof (measure_weight t). destruct (b =? ch "#"); lia. }
  assert (head (text (t_source t1)) = Some b) as Hb by (cbn; by rewrite Ex).
  assert (frames y = frames x) as Efy by done. assert (document y = document x) as Edy by done.
  assert (t_source t1 = t_source t) as Es by done. clearbody t1 y. rewrite <- Efy, <- Edy, <- Ex, <- Es.
  set (q := match head (frames y) with Some g => fm_quote g | None => if document y then CSH_QUOTE_DOUBLE else CSH_QUOTE_NONE end).
  clearbody q. clear -ST LL Ht Hall Hact Hb.
  assert (lpost (if frame_is (head (frames y)) SIMPLE then
        let% (next, physical) := lex_peek 0 in
        if next =? -2 then lret (Some CSH_LEX_MORE)
        else let% _ := (if negb (name_char next) then pop 0 else delimiter physical q) in lret None
      else
        let width := csh_character_length (text (t_source t1)) true (final (t_source t1)) in
        if (width =? 0)%nat then lret (Some CSH_LEX_MORE) else
        if (1 <? width)%nat then
          let% _ := begin_word in
          let% q := (match head (frames y) with
            | Some g =>
                if bool_decide (fm_kind g = PARAMETER) then
                  let g := parameter_context g 256 in let% _ := set_frame g in lret (fm_quote g)
                else lret q
            | None => lret q
            end) in
          let% _ := piece CSH_FRAGMENT_TEXT q width in lret None
        else byte_step (head (frames y)) q b) t1 (step_ok (measure t)) failed_ok); [|done].
  assert (1 <= length (text (t_source t1)))%nat as Hlen by (destruct (text (t_source t1)); [done|simpl; lia]).
  pose proof (allowance_weight b t1) as Haw. pose proof (tn_lexers _ _ _ Ht) as Ety.
  destruct (frame_is (head (frames y)) SIMPLE) eqn:Esim.
  { apply frame_is_spec in Esim. destruct (frames y) as [|g below] eqn:Ef; [done|]. injection Esim as Ek.
    destruct (turn_framed _ _ _ Ht) as [Hbg _]; [by rewrite Ef|].
    eapply lpost_mono; [by eapply simple_step|]. intros r t'. apply step_ok_weight, Hact. apply Hbg. }
  cbv zeta. pose proof (width_bound (text (t_source t1)) (final (t_source t1))) as Hwb.
  destruct (Nat.eqb_spec (csh_character_length (text (t_source t1)) true (final (t_source t1))) 0) as [Hz|Hz].
  { apply lpost_ret. split; [by eapply turn_ready|]. destruct (final (t_source t1)) eqn:Efin; [|done].
    exfalso. apply (width_final (text (t_source t1))); [|done]. by destruct (text (t_source t1)). }
  destruct (Nat.ltb_spec 1 (csh_character_length (text (t_source t1)) true (final (t_source t1)))) as [Hw|Hw].
  - eapply lpost_mono; [by apply (wide_step _ _ _ y behind)|]. intros r t'. apply step_ok_weight. lia.
  - eapply lpost_mono; [by apply (byte_step_post _ _ _ y behind)|]. intros r t'. apply step_ok_weight. lia.
Qed.

Lemma next_loop_post n t : going t -> (measure t < n)%nat -> lpost (next_loop n) t result_ok failed_ok.
Proof.
  revert t. induction n as [|n IH]; intros t Hg Hn; [lia|]. cbn [next_loop]. apply lpost_bind.
  eapply lpost_mono; [by apply lex_step_post|]. intros [r|] t'; [done|]. intros [Hg' Hm]. apply IH; [done|lia].
Qed.

(** The turns that [next_token] allows are more than the measure. *)
Lemma turns_enough t x behind : t_lexers t = x :: behind -> (measure t < turns t)%nat.
Proof. intros Et. unfold measure, weight, turns. rewrite Et. unfold text. destruct (comment x); lia. Qed.

Lemma next_token_post t : ready t -> lpost next_token t result_ok failed_ok.
Proof.
  intros Hr. pose proof Hr as [Hc (x & behind & Et & Hf & Hw)]. unfold next_token. apply lpost_get_source.
  eapply lpost_get_lexer; [done|]. pose proof Hc as ([Hs _] & _). unfold has_failed. rewrite Hs. cbn [message no_error].
  rewrite bool_decide_eq_false_2 by by intros [? ?].
  destruct (command x) eqn:Ecm.
  - apply lpost_ret. split; [done|]. by exists x, behind.
  - apply next_loop_post; [by eapply going_intro|]. by eapply turns_enough.
Qed.

(** What is left behind a failure: the error is sticky, and the suspended
    lexers can be taken back to their checkpoints, or nothing is left of them. *)
Definition sticky (e : csh_error) (t : tape) : Prop :=
  has_failed (t_source t) = true /\ is_Some (message e) /\ t_lexers t <> [] /\
  (Forall (fun y => arithmetic y = []) (t_lexers t) \/
   (data_ok (t_source t) /\ cache_ok (t_source t) /\ exists x behind, t_lexers t = x :: behind /\ ancestors_ok behind)).

Lemma failed_sticky e t : failed_ok e t -> sticky e t.
Proof.
  intros (H1 & H2 & H3 & x & behind & E & H4). split; [done|]. split; [done|]. rewrite E. split; [done|].
  destruct H4 as [H4|(_ & _ & [H5 _] & H6 & _)]; [by left|right]. split; [done|]. split; [done|]. by exists x, behind.
Qed.

Lemma csh_lexer_next_post t : ready t -> lpost csh_lexer_next t result_ok sticky.
Proof.
  intros Hr. pose proof (next_token_post t Hr) as Hp. unfold lpost, csh_lexer_next in *.
  destruct (next_token t) as [[|e|r] t1]; [done| |done].
  assert (has_failed (t_source t) = false) as ->.
  { destruct Hr as [([Hs _] & _) _]. unfold has_failed. rewrite Hs. by apply bool_decide_eq_false_2; intros [? ?]. }
  pose proof Hp as Hst%failed_sticky. destruct Hp as (H1 & H1' & H2 & x & behind & Et & Hrec). rewrite Et.
  destruct (bool_decide (arithmetic x = [])) eqn:Ea; [done|].
  apply bool_decide_eq_false in Ea. destruct Hrec as [[? _]%Forall_cons|(S1 & S2 & S3 & S4 & S5)]; [done|].
  assert (recoverable t1 x behind) as Hrecov by (by split_and!).
  pose proof (replay_post e t1 x behind Hrecov Ea S5) as Hrp. unfold lpost in Hrp.
  destruct (csh_lexer_replay_arithmetic 0 e t1) as [[|e'|[|]] t2]; [done|by apply failed_sticky| |].
  - destruct Hrp as [Hr2 Hp2]. by split.
  - destruct Hrp as [[E1 E2] _]. unfold sticky in *. by rewrite E1, E2.
Qed.
End Total.
