(* ===== verification/LexerCalls.v ===== *)
(** * Sessions with a lexer

    Every call of lexer.h keeps the tape ready: creation, feeding, command
    substitutions, alias values, raw input and recovery.  After an error every
    call that reads fails with the same error. *)

From stdpp Require Import base list gmap strings sorting.
From S2P Require Import Prelude Output State Arithmetic Character Expansion Lexer LexerLook LexerTree LexerSafety LexerTurns LexerTotal.

Section Calls.
Context {loc : Locale} {LL : LocaleLaws loc} {ST : StableLocale loc} {db : LocaleDb}.

(** ** Failures *)

(** Errors with an errno leave nothing to recover. *)
Definition given_up (n : nat) (e : csh_error) (t : tape) : Prop :=
  sticky e t /\ length (t_lexers t) = n /\ Forall (fun y => arithmetic y = []) (t_lexers t).

Lemma fail_at_gives_up {A} x text number p t n (Q : A -> tape -> Prop) : t_lexers t <> [] -> failure (t_source t) = no_error ->
  number <> ENONE -> length (t_lexers t) = n -> lpost (fail_at x text number p) t Q (given_up n).
Proof.
  intros Hne Hs Hn <-. unfold lpost, fail_at. unfold has_failed. rewrite Hs, !bool_decide_eq_false_2 by (done || by intros [? ?]). cbn [andb].
  assert (Forall (fun y => arithmetic y = []) (map release_work (t_lexers t))) as Hf by (apply Forall_map, Forall_true; by intros).
  split; [|split; [apply length_map|done]]. split; [done|]. split; [by eexists|]. cbn. split; [by destruct (t_lexers t)|by left].
Qed.

Lemma fail_gives_up {A} text number t n (Q : A -> tape -> Prop) : t_lexers t <> [] -> failure (t_source t) = no_error ->
  number <> ENONE -> length (t_lexers t) = n -> lpost (fail text number) t Q (given_up n).
Proof.
  intros Ht Hs Hn El. unfold fail. destruct (t_lexers t) as [|x l] eqn:E; [done|]. eapply lpost_get_lexer; [exact E|].
  apply lpost_get_source, fail_at_gives_up; [by rewrite E|done|done|by rewrite E].
Qed.

Lemma grow_gives_up {B} count size text (f : unit -> L B) t n Q : t_lexers t <> [] -> failure (t_source t) = no_error ->
  length (t_lexers t) = n ->
  (forall w, lpost (f tt) (set_proc t w) Q (given_up n)) -> lpost (lbind (grow count size text) f) t Q (given_up n).
Proof.
  intros Ht Hs El H. apply lpost_bind. unfold grow. apply lpost_bind. unfold reserve. destruct (_ <? _).
  - apply lpost_ret. by apply fail_gives_up.
  - apply lpost_lmalloc. intros b w. apply lpost_ret. destruct b; [apply lpost_ret, H|by apply fail_gives_up].
Qed.

Lemma lpost_weaken {A} (m : L A) t Q (E E' : csh_error -> tape -> Prop) :
  lpost m t Q E -> (forall e t', E e t' -> E' e t') -> lpost m t Q E'.
Proof. unfold lpost. destruct (m t) as [[|e|a] t']; auto. Qed.

Lemma lpost_unit (m : L unit) t Q E : lpost (let% _ := m in lret tt) t Q E -> lpost m t Q E.
Proof. unfold lpost, lbind. by destruct (m t) as [[|e|[]] t']. Qed.

(** ** Creation *)

Lemma create_ready name stack w : match csh_lexer_create name stack w with
  | (inr t, _) => ready t
  | (inl _, _) => True
  end.
Proof.
  unfold csh_lexer_create. destruct name as [name|]; [|done]. unfold bind.
  destruct (malloc w) as [[|] w1]; [cbn|done]. destruct (malloc w1) as [[|] w2]; [cbn|done].
  destruct (malloc w2) as [[|] w3]; [cbn|done]. split.
  - split; [by repeat split|]. split; [done|]. exists (fresh_lexer false), []. split; [done|].
    split; [apply shape_nil|]. split; [done|]. split; [|done]. by split.
  - exists (fresh_lexer false), []. split; [done|]. split; [by apply idle_full|done].
Qed.

(** ** Feeding *)

Definition cp_fed (c c' : arithmetic_checkpoint) : Prop :=
  exists s, c' = with_cp_source c s /\ forall k, saved_ok (cp_source c) k -> saved_ok s k.

Definition fed (x x' : csh_lexer) : Prop := exists cs, x' = with_arithmetic x cs /\ Forall2 cp_fed (arithmetic x) cs.

Lemma arith_wf_fed (C C' : list nat -> Prop) l fs cs cs' n ns : (forall m, C m -> C' m) -> Forall2 cp_fed cs cs' ->
  arith_wf C l fs cs n ns -> arith_wf C' l fs cs' n ns.
Proof.
  intros HC. revert cs cs' n ns. induction fs as [|f fs IH]; intros cs cs' n ns Hcs; cbn [arith_wf].
  { intros ->. by inversion Hcs. }
  destruct (bool_decide _); [|by apply IH]. destruct Hcs as [|c c' cs cs' (s & -> & Hs) Hcs]; [done|].
  intros (H1 & H2 & H3 & n0 & p0 & caps & K1 & K2 & K3 & K4 & K5 & K6 & K7 & K8 & K9 & K10).
  split_and!; [done|done|done|]. exists n0, p0, caps. split_and!; try done; [by apply Hs|by apply HC|by apply (IH cs)].
Qed.

Lemma chain_ok_fed l l' ns : Forall2 fed l l' -> chain_ok l ns -> chain_ok l' ns.
Proof.
  intros H. revert ns. induction H as [|x x' l l' (cs & -> & Hcs) H IH]; intros [|n ns]; try done.
  intros (H1 & H2 & H3 & H4). split; [done|]. split; [done|]. split; [|by apply IH].
  eapply arith_wf_fed; [|exact Hcs|exact H3]. intros m. apply IH.
Qed.

Lemma fed_lens l l' : Forall2 fed l l' -> lens l' = lens l.
Proof. induction 1 as [|x x' l l' (cs & -> & _) H IH]; [done|]. cbn. by f_equal. Qed.

Lemma fed_waiting l l' : Forall2 fed l l' -> Forall waiting l -> Forall waiting l'.
Proof. induction 1 as [|x x' l l' (cs & -> & _) H IH]; [done|]. intros [H1 H2]%Forall_cons. constructor; [exact H1|auto]. Qed.

Lemma feed_checkpoints_post l bytes last t n : t_lexers t <> [] -> failure (t_source t) = no_error ->
  length (t_lexers t) = n -> Forall is_byte bytes ->
  lpost (feed_checkpoints l bytes last) t (fun l' t' => (exists w, t' = set_proc t w) /\ Forall2 cp_fed l l') (given_up n).
Proof.
  intros Ht Hs Hn Hb. revert t Ht Hs Hn. induction l as [|c l IH]; intros t Ht Hs Hn; cbn [feed_checkpoints].
  { apply lpost_ret. split; [exists (t_proc t); by destruct t|done]. }
  apply lpost_bind. unfold feed_checkpoint. destruct (_ <? _); [by apply fail_gives_up|].
  apply grow_gives_up; [done|done|done|]. intros w. apply lpost_ret. apply lpost_bind.
  eapply lpost_mono; [by apply IH|]. intros l' t' [[w' ->] Hl]. apply lpost_ret. split; [by exists w'|]. constructor; [|done].
  eexists. split; [done|]. intros k (S1 & S2 & S3 & [S4 S4'] & S5). split_and!; try done; cbn; [rewrite length_app; lia|by apply Forall_app].
Qed.

Lemma feed_lexers_post l bytes last t n : t_lexers t <> [] -> failure (t_source t) = no_error ->
  length (t_lexers t) = n -> Forall is_byte bytes ->
  lpost (feed_lexers l bytes last) t (fun l' t' => (exists w, t' = set_proc t w) /\ Forall2 fed l l') (given_up n).
Proof.
  intros Ht Hs Hn Hb. revert t Ht Hs Hn. induction l as [|x l IH]; intros t Ht Hs Hn; cbn [feed_lexers].
  { apply lpost_ret. split; [exists (t_proc t); by destruct t|done]. }
  apply lpost_bind. eapply lpost_mono; [by apply IH|]. intros l' t' [[w ->] Hl].
  apply lpost_bind. eapply lpost_mono; [by apply feed_checkpoints_post|]. intros cs t' [[w' ->] Hcs].
  apply lpost_ret. split; [by exists w'|]. constructor; [by exists cs|done].
Qed.

Lemma feed_ready bytes n last t : ready t -> Forall is_byte (default [] bytes) ->
  lpost (csh_lexer_feed bytes n last) t (fun _ t' => ready t' /\ final (t_source t') = last /\
    text (t_source t') = text (t_source t) ++ take n (default [] bytes) /\ Forall2 fed (t_lexers t) (t_lexers t'))
    (given_up (length (t_lexers t))).
Proof.
  intros [Hc (x & behind & Et & Hf & Hw)] Hb. unfold csh_lexer_feed. apply lpost_get_source.
  pose proof Hc as ([Hs [Hd1 Hd2]] & Hca & _). unfold has_failed. rewrite Hs. rewrite bool_decide_eq_false_2 by by intros [? ?].
  assert (t_lexers t <> []) as Hne by (by rewrite Et).
  destruct (final (t_source t) || _) eqn:Efin; [by apply fail_gives_up|]. apply orb_false_iff in Efin as [Efin _].
  cbv zeta. set (b := take n (default [] bytes)). assert (Forall is_byte b) as Hb' by (by apply Forall_take).
  apply lpost_get_lexers. apply lpost_bind. eapply lpost_mono; [by apply feed_lexers_post|].
  intros l' t' [[w ->] Hl]. assert (length l' = length (t_lexers t)) as Elen by (symmetry; by apply Forall2_length in Hl).
  rewrite Et in Hl. inversion Hl as [|? x' ? behind' (cs & -> & Hcs) Hbh]; subst.
  apply lpost_put_lexers, lpost_get_source, lpost_put_source. cbn [set_lexers set_proc t_source].
  destruct (_ <? _); [apply fail_gives_up; [done|exact Hs|done|exact Elen]|]. apply grow_gives_up; [done|exact Hs|exact Elen|]. intros w'. unfold lpost, put_source. clear Elen.
  cbn [t_source set_source set_lexers set_proc t_lexers t_stack t_proc]. set (x2 := with_arithmetic x cs).
  split; [|split; [done|split; [done|rewrite Et; constructor; [by exists cs|done]]]].
  pose proof (core_lexer _ _ _ Hc Et) as (Hsh & _ & [Hch Hwait] & Hbusy).
  assert (lexer_full x2 behind') as Hfull.
  { destruct Hf as [He Ha]. split; [done|]. rewrite (fed_lens _ _ Hbh).
    eapply arith_wf_fed; [intros m; by apply chain_ok_fed|exact Hcs|exact Ha]. }
  assert (text (with_final (with_data (compact (t_source t)) (data (compact (t_source t)) ++ b) 0 (so_aliases (compact (t_source t)))) last)
    = text (t_source t) ++ b) as Etext by done.
  split.
  - split; [split; [done|]|split].
    + split; cbn; [lia|]. apply Forall_app. split; [by apply Forall_drop|done].
    + pose proof (cache_ok_fed (compact (t_source t)) b last) as Hfed. apply Hfed; [|done|cbn; lia].
      intros Hv Ho. exact (Hca Hv Ho).
    + exists x2, behind'. split; [done|]. split; [done|]. split; [by apply arith_wf_weak, Hfull|]. split.
      * split; [rewrite (fed_lens _ _ Hbh); by eapply chain_ok_fed|by eapply fed_waiting].
      * intros Hx. apply Hbusy. intros E. rewrite E in Hcs. by inversion Hcs; subst.
  - exists x2, behind'. split; [done|]. split; [done|]. unfold word_ok in *. cbn [t_source]. rewrite Etext.
    change (active x2) with (active x). destruct (active x); [|done].
    destruct Hw as (W1 & W2 & W3 & [[W4 [W5|[W5 W6]]]|W4]); split_and!; try done.
    + left. split; [done|by left].
    + left. split; [done|right]. split; [done|]. by destruct (text (t_source t)).
    + by right.
Qed.

(** ** Command substitutions *)

Lemma word_command x s : word_ok x s -> command x = true -> waiting x.
Proof.
  unfold word_ok. intros Hw Hc. destruct (active x) eqn:Ea; [|destruct Hw as (_ & _ & _ & Hw); congruence].
  destruct Hw as (W1 & W2 & W3 & [[W4 _]|(_ & W4 & _)]); [|congruence]. split; [by split_and!|]. split; [done|by apply W3].
Qed.

Lemma command_begin_ready t : ready t ->
  lpost csh_lexer_command_begin t (fun _ t' => ready t' /\ t_lexers t' = fresh_lexer false :: t_lexers t)
    (given_up (length (t_lexers t))).
Proof.
  intros [Hc (x & behind & Et & Hf & Hw)]. unfold csh_lexer_command_begin. apply lpost_get_source.
  pose proof Hc as ([Hs Hd] & Hca & _). unfold has_failed. rewrite Hs. rewrite bool_decide_eq_false_2 by by intros [? ?].
  assert (t_lexers t <> []) as Hne by (by rewrite Et).
  eapply lpost_get_lexer; [done|]. destruct (command x) eqn:Ecm; [|by apply fail_gives_up]. cbn [negb].
  apply lpost_lmalloc. intros b w. destruct b; [|by apply fail_gives_up]. cbn [negb].
  apply lpost_get_lexers. unfold lpost, put_lexers. cbn [t_lexers set_proc]. rewrite Et. split; [|done].
  pose proof (core_lexer _ _ _ Hc Et) as (Hsh & _ & [Hch Hwait] & _).
  assert (ancestors_ok (x :: behind)) as Han.
  { split; [|constructor; [by eapply word_command|done]]. cbn. by split_and!; try apply Hf. }
  split.
  - split; [done|]. split; [done|]. exists (fresh_lexer false), (x :: behind). split; [done|]. split; [apply shape_nil|].
    split; [done|]. by split.
  - exists (fresh_lexer false), (x :: behind). split; [done|]. split; [by apply idle_full|done].
Qed.

Lemma pop_zero t : match pop 0 t with (Failed _, _) => False | _ => True end.
Proof.
  unfold pop, lbind, get_lexer. destruct (t_lexers t) as [|x b] eqn:E; [done|]. destruct (frames x); [done|]. cbn.
  unfold finish_fragment, lbind, get_lexer. rewrite E. by destruct (fragments x !! _).
Qed.

Lemma command_end_ready closing t : ready t -> (2 <= length (t_lexers t))%nat ->
  lpost (csh_lexer_command_end closing) t (fun _ t' => ready t' /\ length (t_lexers t) = S (length (t_lexers t')))
    (given_up (length (t_lexers t))).
Proof.
  intros [Hc (x & l & Et & Hf & Hw)] Hlen. unfold csh_lexer_command_end. apply lpost_get_source.
  pose proof Hc as ([Hs Hd] & Hca & _). unfold has_failed. rewrite Hs. rewrite bool_decide_eq_false_2 by by intros [? ?].
  apply lpost_get_lexers. rewrite Et. destruct l as [|parent behind]; [rewrite Et in Hlen; simpl in Hlen; lia|].
  destruct (negb _); [apply fail_at_gives_up; by rewrite ?Et|].
  pose proof (core_lexer _ _ _ Hc Et) as (_ & _ & [(H1 & H2 & H3 & H4) Hwait] & _).
  apply Forall_cons in Hwait as [(B1 & B2 & B3) Hwait]. apply lpost_put_lexers.
  set (y := with_modes parent (comment parent) false). set (t1 := set_lexers t (y :: behind)).
  assert (begun t1 y behind) as Hbg.
  { split; [|done|by split|done|done]. split; [by split|]. split; [done|]. exists y, behind. split; [done|].
    split; [done|]. split; [by apply arith_wf_weak|]. by split; [|intros _]. }
  unfold awaits in B3. destruct (frames parent) as [|f below] eqn:Ef; [done|]. injection B3 as B3.
  assert (forall m Q, lpost (pop 0) m Q failed_ok -> lpost (pop 0) m Q (given_up (length (t_lexers t)))) as Hzero.
  { intros m Q H. pose proof (pop_zero m) as Hz. unfold lpost in *. by destruct (pop 0 m) as [[|e|a] t']. }
  rewrite Et in Hzero. apply Hzero. eapply lpost_mono; [eapply (pop_begun 0 t1 y behind f below); [done|done|by rewrite B3|lia]|].
  intros [] t2 (x2 & b2 & Hw2 & Ef2 & Hbg2 & Hr2). split; [by eapply turn_ready, begun_turn|].
  destruct (wk_lexers _ _ _ _ _ Hw2) as (b & b' & E1 & E2 & G). injection E1 as <-. rewrite E2.
  apply Forall2_length in G. simpl. lia.
Qed.

(** ** Alias values and raw input *)

Lemma core_has_last t x behind s b : core t -> t_lexers t = x :: behind -> word_ok x (text (t_source t)) -> lexer_full x behind ->
  active x = false -> data_ok s -> failure s = no_error -> cache_ok s ->
  ready (mk_tape s (with_has_last x b :: behind) (t_stack t) (t_proc t)).
Proof.
  intros Hc Et Hw Hf Ha Hd Hs Hca. pose proof (core_lexer _ _ _ Hc Et) as (Hsh & _ & Hctx & Hb). set (y := with_has_last x b). split.
  - split; [by split|]. split; [done|]. exists y, behind. split; [done|]. split; [done|]. split; [by apply arith_wf_weak, Hf|].
    split; [done|]. exact Hb.
  - exists y, behind. split; [done|]. split; [exact Hf|]. unfold word_ok in *. change (active y) with (active x). by rewrite Ha in *.
Qed.

Lemma alias_push_ready token name value t : ready t -> Forall is_byte (default [] value) ->
  lpost (csh_lexer_alias_push token name value) t (fun _ t' => ready t' /\ exists x behind, t_lexers t = x :: behind /\ t_lexers t' = with_has_last x false :: behind)
    (given_up (length (t_lexers t))).
Proof.
  intros [Hc (x & behind & Et & Hf & Hw)] Hv. unfold csh_lexer_alias_push. apply lpost_get_source.
  pose proof Hc as ([Hs [Hd1 Hd2]] & Hca & _). unfold has_failed. rewrite Hs. rewrite bool_decide_eq_false_2 by by intros [? ?].
  assert (t_lexers t <> []) as Hne by (by rewrite Et).
  eapply lpost_get_lexer; [done|]. apply lpost_get_lexers. cbv zeta.
  destruct token as [k|]; [|by apply fail_gives_up]. destruct name as [n|]; [|by apply fail_gives_up].
  destruct value as [v|]; [|by apply fail_gives_up]. cbn [default id] in Hv.
  match goal with |- lpost (if ?c then _ else _) _ _ _ => destruct c eqn:Einv end; [by apply fail_gives_up|].
  assert (active x = false) as Ha by (destruct (active x); [|done]; by rewrite orb_true_r in Einv).
  clear Einv. match goal with |- lpost (if ?c then _ else _) _ _ _ => destruct c end; [by apply fail_gives_up|].
  apply lpost_lmalloc. intros b1 w1. apply lpost_lmalloc. intros b2 w2. apply lpost_lmalloc. intros b3 w3.
  destruct (negb _); [by apply fail_gives_up|].
  apply grow_gives_up; [done|done|done|]. intros w4. apply grow_gives_up; [done|done|done|]. intros w5.
  apply lpost_put_source. eapply lpost_get_lexer; [exact Et|]. unfold lpost, put_lexer. cbn [t_lexers set_source set_proc].
  rewrite Et. split; [|by exists x, behind]. refine (core_has_last t x behind _ false Hc Et Hw Hf Ha _ _ _); [|done|done].
  split; cbn.
  - rewrite !length_app, length_take. simpl. lia.
  - apply Forall_app. split; [by apply Forall_take|]. apply Forall_app. split; [done|].
    constructor; [unfold is_byte; lia|by apply Forall_drop].
Qed.

Lemma skip_raw_ready count t : ready t ->
  lpost (csh_lexer_skip_raw count) t (fun _ t' => ready t' /\ length (t_lexers t') = length (t_lexers t)) sticky.
Proof.
  intros [Hc (x & behind & Et & Hf & Hw)]. unfold csh_lexer_skip_raw. apply lpost_get_source.
  pose proof Hc as ([Hs Hd] & Hca & _). unfold has_failed. rewrite Hs. rewrite bool_decide_eq_false_2 by by intros [? ?].
  assert (t_lexers t <> []) as Hne by (by rewrite Et). eapply lpost_get_lexer; [done|].
  destruct (active x || comment x || _) eqn:Einv; [eapply lpost_weaken; [by apply fail_gives_up|by intros e t' []]|].
  apply orb_false_iff in Einv as [[Ha Hcm]%orb_false_iff Hlen]. apply Nat.ltb_ge in Hlen.
  apply lpost_put_lexer. rewrite Et. cbn [tail]. set (y := with_has_last x false). set (t1 := set_lexers t (y :: behind)).
  pose proof (core_has_last t x behind (t_source t) false Hc Et Hw Hf Ha Hd Hs Hca) as Hr1.
  assert (length (t_lexers t1) = length (t_lexers t)) as El by (by rewrite Et).
  destruct count as [|k].
  { split; [|done]. by apply (core_has_last t x behind (no_look (t_source t))). }
  assert (lpost (let% _ := consume (S k) in lret tt) t1 (fun _ t' => ready t' /\ length (t_lexers t') = length (t_lexers t)) sticky) as Hcons.
  { pose proof Hr1 as [Hc1 _]. apply lpost_bind. eapply lpost_weaken; [|apply failed_sticky].
    eapply lpost_mono; [apply consume_post; [exact Hc1|unfold text; cbn; rewrite length_drop; lia]|].
    intros [] t2 (Hc2 & F1 & T1 & z & b0 & x1 & b1 & E0 & E2 & [p Ep] & G). injection E0 as <- <-.
    change (active y) with (active x) in Ep. rewrite Ha in Ep. subst x1. apply lpost_ret.
    rewrite E2, Et. split; [|apply Forall2_length in G; simpl; lia]. pose proof Hw as Hw'. unfold word_ok in Hw'. rewrite Ha in Hw'.
    destruct Hw' as (W1 & W2 & W3 & W4). split; [done|]. exists y, b1. split; [done|].
    split; [apply idle_full; [done|done|by apply (full_idle _ _ Hf W3)]|]. unfold word_ok. change (active y) with (active x). by rewrite Ha. }
  rewrite Et in Hcons. apply lpost_unit. exact Hcons.
Qed.

Lemma peek_answers n t : match lex_peek n t with (Failed _, _) => False | (Done _, t') => t_lexers t' = t_lexers t | _ => True end.
Proof.
  unfold lex_peek, lbind, get_source. destruct (look_loop _ _ _ _ _ _) as [[[[z|] scan] positions]|]; [done| |done].
  cbn. destruct (positions !! n); [|done]. by destruct (_ !! _).
Qed.

Lemma follows_redirection_ready t : ready t ->
  lpost csh_lexer_follows_redirection t (fun _ t' => ready t' /\ t_lexers t' = t_lexers t) (fun _ _ => False).
Proof.
  intros [Hc (x & behind & Et & Hf & Hw)]. unfold csh_lexer_follows_redirection. apply lpost_bind.
  assert (lpost (lex_peek 0) t (fun a t1 => looked t t1) (fun _ _ => False)) as Hp.
  { pose proof (peek_answers 0 t) as Ha. pose proof (peek_post 0 t Hc) as Hp. unfold lpost in *.
    destruct (lex_peek 0 t) as [[|e|[z p]] t1]; [done..|]. by destruct Hp. }
  eapply lpost_mono; [exact Hp|]. intros [z p] t1 Hl.
  apply lpost_ret. destruct (looked_text _ _ Hl) as (E1 & E2 & E3). split; [|done]. split; [by eapply looked_core|].
  exists x, behind. by rewrite E1, E3.
Qed.

End Calls.
