(* ===== verification/LexerReplay.v ===== *)
(** * The lexer: recovery and sessions

    A suspended word whose command substitution failed can be read again as
    something else; the lexers of the failed substitution do not matter then.
    The calls of lexer.h that change a lexer, and what every sequence of them
    keeps, before and after an error. *)

From stdpp Require Import base list gmap strings sorting.
From S2P Require Import Prelude Output State Arithmetic Character Expansion Lexer LexerLook LexerTree LexerSafety LexerTurns LexerTotal LexerCalls.

Section Released.
Context {loc : Locale} {db : LocaleDb}.

(** The lexers are those of before, or have given up their words. *)
Definition released (t t' : tape) : Prop :=
  (has_failed (t_source t) = true /\ t_lexers t' = t_lexers t) \/ t_lexers t' = map release_work (t_lexers t).

Lemma fail_at_released {A} x text number p t t1 : number <> ENONE -> t_source t1 = t_source t -> t_lexers t1 = t_lexers t ->
  match @fail_at A x text number p t1 with (Done _, _) => False | (_, t') => released t t' end.
Proof.
  intros Hn Es E. unfold fail_at, released. rewrite Es. destruct (has_failed _); [by left|]. rewrite bool_decide_eq_false_2 by done.
  right. cbn. by rewrite E.
Qed.

Lemma probe_released x partial t : match probe_arithmetic x partial t with
  | (Done _, t') => t_lexers t' = t_lexers t
  | (Failed _, t') => released t t'
  | (Fault, _) => True
  end.
Proof.
  unfold probe_arithmetic. destruct (arithmetic x) as [|c cs]; [done|]. unfold lbind at 1, get_source. cbv beta iota.
  unfold lbind at 1, lmalloc. destruct (malloc (t_proc t)) as [[|] w]; cbn [negb].
  2: { pose proof (@fail_at_released bool x (bs "cannot allocate arithmetic probe") ENOMEM (so_position (t_source t)) t
         (mk_tape (t_source t) (t_lexers t) (t_stack t) w) ltac:(done) eq_refl eq_refl) as H. destruct (fail_at _ _ _ _ _) as [[|e|a] t']; done. }
  destruct (probe_loop _ _ _ _ _ _ _ _) as [text|]; [|done]. cbv zeta. generalize (merge_operands (S (length text)) text). intros expression.
  unfold lbind at 1, next_stack. cbn [t_stack].
  assert (forall stack t1, t_source t1 = t_source t -> t_lexers t1 = t_lexers t -> match (let% valid := (if partial then probing (csh_arith_probe_prefix (Some expression) stack)
      else let% r := probing (csh_arith_probe (Some expression) stack) in
           lret (if bool_decide (r = CSH_ARITH_RESOURCE) then -1 else of_bool (bool_decide (r = CSH_ARITH_OK)))) in
    if valid =? -1 then fail_at x (bs "arithmetic stack exhausted") ENOMEM (so_position (t_source t))
    else lret (negb (valid =? 0))) t1 with
    | (Done _, t') => t_lexers t' = t_lexers t
    | (Failed _, t') => released t t'
    | (Fault, _) => True
    end) as H.
  { intros stack t1 E0 E1. assert (forall (v : Z) t2, t_source t2 = t_source t -> t_lexers t2 = t_lexers t -> match (if v =? -1 then
        fail_at x (bs "arithmetic stack exhausted") ENOMEM (so_position (t_source t)) else lret (negb (v =? 0))) t2 with
      | (Done _, t') => t_lexers t' = t_lexers t
      | (Failed _, t') => released t t'
      | (Fault, _) => True
      end) as Hv.
    { intros v t2 E3 E2. destruct (v =? -1); [|done].
      pose proof (@fail_at_released bool x (bs "arithmetic stack exhausted") ENOMEM (so_position (t_source t)) t t2 ltac:(done) E3 E2) as Hr.
      destruct (fail_at _ _ _ _ _) as [[|e|a] t']; done. }
    unfold lbind at 1. destruct partial.
    - unfold probing. destruct (csh_arith_probe_prefix _ _ _) as [[v w1]|]; [|done]. by apply Hv.
    - unfold lbind at 1, probing. destruct (csh_arith_probe _ _ _) as [[v w1]|]; [|done]. by apply Hv. }
  destruct (t_stack t) as [|k rest]; by apply H.
Qed.

End Released.

Section Replay.
Context {loc : Locale} {LL : LocaleLaws loc} {ST : StableLocale loc} {db : LocaleDb}.

(** A computation that does not look at the lexers. *)
Definition blind {A} (m : L A) : Prop := forall t l,
  match m t, m (set_lexers t l) with
  | (Done a, u1), (Done b, u2) => b = a /\ u2 = set_lexers u1 l
  | (Failed e1, u1), (Failed e2, u2) => e2 = e1 /\ t_source u2 = t_source u1
  | (Fault, _), (Fault, _) => True
  | _, _ => False
  end.

Lemma blind_bind {A B} (m : L A) (f : A -> L B) : blind m -> (forall a, blind (f a)) -> blind (lbind m f).
Proof.
  intros Hm Hf t l. unfold lbind. specialize (Hm t l). destruct (m t) as [[|e|a] u], (m (set_lexers t l)) as [[|e'|b] u']; try done.
  destruct Hm as [-> ->]. apply Hf.
Qed.

Lemma blind_fail_at {A} x text number p : number <> ENONE -> blind (@fail_at A x text number p).
Proof.
  intros Hn t l. unfold fail_at. cbn [set_lexers t_source]. destruct (has_failed _); [done|]. by rewrite bool_decide_eq_false_2.
Qed.

Lemma blind_ret {A} (a : A) : blind (lret a).
Proof. done. Qed.

Lemma blind_probing {A} (m : proc -> option (A * proc)) : blind (probing m).
Proof. intros t l. unfold probing. cbn. by destruct (m (t_proc t)) as [[a w]|]. Qed.

Lemma probe_blind x partial : blind (probe_arithmetic x partial).
Proof.
  unfold probe_arithmetic. destruct (arithmetic x) as [|c cs]; [done|]. apply blind_bind; [done|]. intros s.
  apply blind_bind. { intros t l. unfold lmalloc. cbn. by destruct (malloc (t_proc t)). }
  intros ok. destruct (negb ok); [by apply blind_fail_at|]. destruct (probe_loop _ _ _ _ _ _ _ _) as [text|]; [|done].
  cbv zeta. apply blind_bind. { intros t l. unfold next_stack. cbn. by destruct (t_stack t). }
  intros stack. apply blind_bind.
  - destruct partial; [apply blind_probing|]. apply blind_bind; [apply blind_probing|]. intros r. apply blind_ret.
  - intros v. destruct (v =? -1); [by apply blind_fail_at|apply blind_ret].
Qed.

(** ** Reading a suspended word again *)

Lemma suspended_recoverable t x b : data_ok (t_source t) -> cache_ok (t_source t) -> ancestors_ok (x :: b) ->
  recoverable (set_lexers t (x :: b)) x b /\ lexer_full x b /\ frames_below (frames x) (length (fragments x)).
Proof.
  intros Hd Hca [Hch [[Hbusy Hw] Hwait]%Forall_cons]. cbn in Hch. destruct Hch as (H1 & H2 & H3 & H4).
  split; [|split; [by split|apply H1]]. split_and!; first [done|by apply arith_wf_weak|by split].
Qed.

Lemma get_lexers_run {B} (f : list csh_lexer -> L B) t : lbind get_lexers f t = f (t_lexers t) t.
Proof. done. Qed.
Lemma get_source_run {B} (f : source -> L B) t : lbind get_source f t = f (t_source t) t.
Proof. done. Qed.

(** The lexers before the suspended one do not matter. *)
Definition replay_match (t : tape) (r1 r2 : outcome bool * tape) : Prop :=
  match r1, r2 with
  | (Done true, u1), (Done true, u2) => u1 = u2
  | (Done false, u1), (Done false, u2) => t_lexers u1 = t_lexers t /\ t_source u1 = t_source t
  | (Failed e1, u1), (Failed e2, u2) => e1 = e2 /\ t_source u1 = t_source u2 /\ (u1 = u2 \/ t_lexers u1 = map release_work (t_lexers t))
  | (Fault, _), (Fault, _) => True
  | _, _ => False
  end.

Lemma replay_drop up e t x b : drop up (t_lexers t) = x :: b ->
  replay_match t (csh_lexer_replay_arithmetic up e t) (csh_lexer_replay_arithmetic 0 e (set_lexers t (x :: b))).
Proof.
  intros Hd. unfold csh_lexer_replay_arithmetic. rewrite !get_lexers_run, !get_source_run. cbn [set_lexers t_lexers t_source drop]. rewrite Hd.
  destruct (arithmetic x) as [|c cs]; [done|]. destruct (_ || _); [done|]. destruct (bool_decide _); [done|].
  match goal with |- replay_match _ (lbind _ (fun keep => if keep then _ else ?g) _) _ => set (go := g) end.
  assert (forall u, replay_match t (go u) (go (set_lexers u (x :: b)))) as Hgo.
  { intros u. change (go (set_lexers u (x :: b))) with (go u). unfold go, lbind, put_source, put_lexers.
    destruct (push _ _ _ _ _) as [[|e1|[]] u1]; [done|split; [done|split; [done|by left]]|]. unfold get_lexer. by destruct (t_lexers u1). }
  destruct (_ && _); [|apply Hgo].
  set (t0 := set_source t (with_failure (t_source t) no_error)).
  pose proof (probe_blind x true t0 (x :: b)) as Hb. pose proof (probe_released x true t0) as Hr.
  unfold lbind, put_source, lret. change (mk_tape (with_failure (t_source t) no_error) (t_lexers t) (t_stack t) (t_proc t)) with t0.
  cbn [t_source t_lexers t_stack t_proc set_lexers].
  change (mk_tape (with_failure (t_source t) no_error) (x :: b) (t_stack t) (t_proc t)) with (set_lexers t0 (x :: b)).
  destruct (probe_arithmetic x true t0) as [[|e1|keep] u1], (probe_arithmetic x true (set_lexers t0 (x :: b))) as [[|e2|keep2] u2]; try done.
  - destruct Hb as [-> Hb]. split_and!; [done|done|]. destruct Hr as [[Hr _]|Hr]; [done|by right].
  - destruct Hb as [-> ->]. destruct keep; [by split|]. apply Hgo.
Qed.

(** ** After an error *)

(** What recovery relies on: nothing is left to go back to, or the suspended
    lexers behind the active one are in order. *)
Definition halted (t : tape) : Prop :=
  t_lexers t <> [] /\
  (Forall (fun y => arithmetic y = []) (t_lexers t) \/
   (data_ok (t_source t) /\ cache_ok (t_source t) /\ exists x behind, t_lexers t = x :: behind /\ ancestors_ok behind)).

Lemma ready_halted t : ready t -> halted t.
Proof.
  intros [Hc (x & behind & Et & Hf & Hw)].
  pose proof Hc as ([_ Hd] & Hca & _). pose proof (core_lexer _ _ _ Hc Et) as (_ & _ & Ha & _).
  split; [by rewrite Et|]. right. split; [done|]. split; [done|]. by exists x, behind.
Qed.

Lemma ancestors_app a b : ancestors_ok (a ++ b) -> ancestors_ok b.
Proof.
  intros [Hc Hw]. split; [|by apply Forall_app in Hw as [_ Hw]]. clear Hw. induction a as [|x a IH]; [done|].
  apply IH. cbn in Hc. apply Hc.
Qed.

Lemma ready_failed t : ready t -> has_failed (t_source t) = false.
Proof. intros [([Hs _] & _) _]. unfold has_failed. rewrite Hs. by apply bool_decide_eq_false_2; intros [? ?]. Qed.

(** Recovery at a lexer that waits for a child, or where nothing is left. *)
Definition replay_allowed (up : nat) (t : tape) : Prop :=
  (up < length (t_lexers t))%nat /\ (up = 0%nat -> Forall (fun y => arithmetic y = []) (t_lexers t)).

(** The word is read again from its opening, or the lexers are as they were,
    with the error they had, or there is another error. *)
Lemma replay_halted up e t : halted t -> replay_allowed up t ->
  match csh_lexer_replay_arithmetic up e t with
  | (Fault, _) => False
  | (Done true, t') => ready t' /\ pending_command t'
  | (Done false, t') => t_lexers t' = t_lexers t /\ t_source t' = t_source t
  | (Failed e', t') => sticky e' t'
  end.
Proof.
  intros [Hne Hh] [Hup Hz]. destruct (drop up (t_lexers t)) as [|x b] eqn:Hd.
  { apply (f_equal length) in Hd. rewrite length_drop in Hd. simpl in Hd. lia. }
  destruct (arithmetic x) as [|c cs] eqn:Ea.
  { unfold csh_lexer_replay_arithmetic, lbind, get_lexers, get_source. by rewrite Hd, Ea. }
  assert (exists a, t_lexers t = a ++ x :: b /\ length a = up) as (a & Et & Ha).
  { exists (take up (t_lexers t)). rewrite <- Hd, take_drop, length_take. split; [done|lia]. }
  destruct Hh as [Hh|(Hdt & Hca & x0 & behind & Et' & Han)].
  { rewrite Et in Hh. apply Forall_app in Hh as [_ [Hh _]%Forall_cons]. congruence. }
  destruct a as [|x1 a].
  { specialize (Hz ltac:(done)). rewrite Et in Hz. apply Forall_cons in Hz as [Hz _]. congruence. }
  rewrite Et in Et'. injection Et' as <- <-. apply ancestors_app in Han.
  destruct (suspended_recoverable t x b Hdt Hca Han) as (Hrec & Hfull & _).
  assert (arithmetic x <> []) as Hnea by (by rewrite Ea).
  pose proof (replay_post e _ x b Hrec Hnea (fun _ => Hfull)) as Hp. unfold lpost in Hp.
  pose proof (replay_drop up e _ _ _ Hd) as Hm.
  destruct (csh_lexer_replay_arithmetic up e t) as [[|e1|[|]] u1],
    (csh_lexer_replay_arithmetic 0 e (set_lexers t (x :: b))) as [[|e2|[|]] u2]; try done.
  - destruct Hm as (-> & Es & [->|Hm]); [by apply failed_sticky|]. destruct Hp as (H1 & H2 & _).
    split_and!; [by rewrite Es|done|rewrite Hm, Et; by destruct a|]. left. rewrite Hm. apply Forall_map, Forall_true. by intros.
  - cbn in Hm. by subst u2.
Qed.

(** ** Sessions *)

(** The calls that change a lexer, with what the caller gives.  [up] counts the
    child lexers on top of the one that recovery is asked for. *)
Inductive lexer_call : Type :=
  | CallSetPosition (p : csh_position)
  | CallDocument
  | CallFeed (bytes : option str) (count : nat) (last : bool)
  | CallNext
  | CallCommandBegin
  | CallCommandEnd (closing : option csh_token)
  | CallAliasPush (token : option csh_token) (name value : option str)
  | CallFollowsRedirection
  | CallSkipRaw (count : nat)
  | CallReplay (up : nat) (error : csh_error).

Definition call_bytes (c : lexer_call) : str :=
  match c with
  | CallFeed bytes _ _ => default [] bytes
  | CallAliasPush _ _ value => default [] value
  | _ => []
  end.

(** The position is set before anything is looked at, a child is destroyed only
    where there is one, and only a lexer without an error is asked what follows. *)
Definition call_allowed (c : lexer_call) (t : tape) : Prop :=
  match c with
  | CallSetPosition _ => look_valid (t_source t) = false
  | CallCommandEnd _ => (2 <= length (t_lexers t))%nat
  | CallFollowsRedirection => has_failed (t_source t) = false
  | CallReplay up _ => replay_allowed up t
  | _ => True
  end.

Definition call_lexer (c : lexer_call) : L (option csh_lex_result) :=
  match c with
  | CallSetPosition p => fun t => (Done None, csh_lexer_set_position t p)
  | CallDocument => fun t => (Done None, csh_lexer_document t)
  | CallFeed bytes count last => let% _ := csh_lexer_feed bytes count last in lret None
  | CallNext => let% r := csh_lexer_next in lret (Some r)
  | CallCommandBegin => let% _ := csh_lexer_command_begin in lret None
  | CallCommandEnd closing => let% _ := csh_lexer_command_end closing in lret None
  | CallAliasPush token name value => let% _ := csh_lexer_alias_push token name value in lret None
  | CallFollowsRedirection => let% _ := csh_lexer_follows_redirection in lret None
  | CallSkipRaw count => let% _ := csh_lexer_skip_raw count in lret None
  | CallReplay up error => let% replayed := csh_lexer_replay_arithmetic up error in
      lret (if replayed then Some CSH_LEX_REPLAY else None)
  end.

Definition answer_ok (r : option csh_lex_result) (t : tape) : Prop :=
  match r with Some r => result_ok r t | None => ready t end.

Lemma set_position_ready p t : ready t -> look_valid (t_source t) = false -> ready (csh_lexer_set_position t p).
Proof.
  intros [(Hs & _ & Hl) (x & behind & Et & Hf & Hw)] Hv. split.
  - split; [exact Hs|]. split; [|exact Hl]. intros Hv'. cbn in Hv'. congruence.
  - exists x, behind. by split_and!.
Qed.

Lemma document_ready t : ready t -> ready (csh_lexer_document t).
Proof.
  intros [Hc (x & behind & Et & Hf & Hw)]. pose proof Hc as (Hs & Hca & _).
  pose proof (core_lexer _ _ _ Hc Et) as (Hsh & Hwk & Hctx). unfold csh_lexer_document. rewrite Et. split.
  - split; [exact Hs|]. split; [exact Hca|]. eexists _, behind. split; [done|]. split; [exact Hsh|]. split; [exact Hwk|exact Hctx].
  - eexists _, behind. split; [done|]. by split.
Qed.

Lemma call_ready c t : ready t -> Forall is_byte (call_bytes c) -> call_allowed c t ->
  lpost (call_lexer c) t answer_ok sticky.
Proof.
  assert (forall B (m : L B) (f : B -> option csh_lex_result) Q E, lpost m t Q E -> (forall a t', Q a t' -> answer_ok (f a) t') ->
    (forall e t', E e t' -> sticky e t') -> lpost (let% a := m in lret (f a)) t answer_ok sticky) as Hcall.
  { intros B m f Q E Hm HQ HE. unfold lpost, lbind, lret in *. destruct (m t) as [[|e|a] t']; auto. }
  intros Hr Hb Ha. destruct c; cbn [call_lexer call_bytes call_allowed] in *.
  - by apply set_position_ready.
  - by apply document_ready.
  - eapply Hcall; [by apply feed_ready|by intros [] t' [? _]|by intros e t' []].
  - by eapply Hcall; [by apply csh_lexer_next_post|..].
  - eapply Hcall; [by apply command_begin_ready|by intros [] t' [? _]|by intros e t' []].
  - eapply Hcall; [by apply command_end_ready|by intros [] t' [? _]|by intros e t' []].
  - eapply Hcall; [by apply alias_push_ready|by intros [] t' [? _]|by intros e t' []].
  - eapply Hcall; [by apply follows_redirection_ready|by intros b t' [? _]|done].
  - eapply Hcall; [by apply skip_raw_ready|by intros [] t' [? _]|done].
  - eapply (Hcall bool _ _ (fun (b : bool) t' => if b then result_ok CSH_LEX_REPLAY t' else ready t') sticky); [|by intros []|done].
    pose proof (replay_halted up error t (ready_halted t Hr) Ha) as Hp. unfold lpost.
    destruct (csh_lexer_replay_arithmetic up error t) as [[|e|[]] t']; [done|done|done|].
    destruct Hp as [E1 E2]. unfold answer_ok, ready, core. by rewrite E1, E2.
Qed.

(** The calls that read: an error stays with them. *)
Definition reads_on (c : lexer_call) : bool :=
  match c with
  | CallSetPosition _ | CallDocument | CallFollowsRedirection | CallReplay _ _ => false
  | _ => true
  end.

Lemma reads_on_failed c t r t1 : t_lexers t <> [] -> has_failed (t_source t) = true -> reads_on c = true -> call_lexer c t = (r, t1) ->
  r = Failed (failure (t_source t)) /\ t1 = t.
Proof.
  intros Hne Hs Hc. destruct (t_lexers t) as [|x l] eqn:Et; [done|].
  destruct c; cbn [call_lexer]; try done; unfold csh_lexer_feed, csh_lexer_next, next_token, csh_lexer_command_begin,
    csh_lexer_command_end, csh_lexer_alias_push, csh_lexer_skip_raw, lbind, get_source, get_lexer; rewrite ?Et, ?Hs; by intros [= <- <-].
Qed.

(** A lexer that can go on, or one that keeps its error. *)
Definition alive (t : tape) : Prop := ready t \/ (has_failed (t_source t) = true /\ halted t).

(** Any call keeps this; what it answers, errors and recovery included. *)
Lemma call_alive c t r t1 : alive t -> Forall is_byte (call_bytes c) -> call_allowed c t -> call_lexer c t = (r, t1) ->
  alive t1 /\
  match r with
  | Fault => False
  | Failed e => has_failed (t_source t1) = true /\ is_Some (message e)
  | Done (Some a) => result_ok a t1
  | Done None => has_failed (t_source t1) = has_failed (t_source t)
  end.
Proof.
  intros [Hr|[Hs Hh]] Hb Ha E.
  { pose proof (call_ready c t Hr Hb Ha) as Hp. unfold lpost in Hp. rewrite E in Hp. destruct r as [|e|[a|]]; [done| | |].
    - destruct Hp as (H1 & H2 & H3 & H4). split; [|done]. right. split; [done|]. by split.
    - split; [|done]. left. by destruct Hp.
    - split; [by left|]. cbn in Hp. by rewrite !ready_failed. }
  destruct (reads_on c) eqn:Ec.
  { destruct (reads_on_failed c t r t1 ltac:(apply Hh) Hs Ec E) as [-> ->]. split; [right; by split|]. split; [done|].
    unfold has_failed in Hs. by apply bool_decide_eq_true in Hs. }
  destruct c; try done; cbn [call_lexer call_allowed] in *.
  - injection E as <- <-. split; [|done]. right. split; [done|]. destruct Hh as [Hne Hh]. split; [done|].
    destruct Hh as [Hh|(H1 & _ & H3)]; [by left|right]. split_and!; [done| |done]. intros Hv. cbn in Hv. congruence.
  - injection E as <- <-. destruct Hh as [Hne Hh]. unfold csh_lexer_document. destruct (t_lexers t) as [|x l] eqn:Et; [done|].
    split; [|done]. right. split; [done|]. split; [done|]. destruct Hh as [Hh|(H1 & H2 & x' & b & H3 & H4)].
    + left. apply Forall_cons in Hh as [Hx Hh]. by constructor.
    + right. injection H3 as <- <-. split; [done|]. split; [done|]. by eexists _, l.
  - congruence.
  - pose proof (replay_halted up error t Hh Ha) as Hp. unfold lbind, lret in E.
    destruct (csh_lexer_replay_arithmetic up error t) as [[|e|[]] t']; [done|..]; injection E as <- <-.
    + destruct Hp as (H1 & H2 & H3 & H4). split; [|done]. right. split; [done|]. by split.
    + split; [left; apply Hp|exact Hp].
    + destruct Hp as [E1 E2]. rewrite E2. split; [|done]. right. split; [by rewrite E2|]. unfold halted. by rewrite E1, E2.
Qed.

(** The tapes that calls reach, one after another, whatever they answer. *)
Inductive reaches : tape -> tape -> Prop :=
  | reaches_refl t : reaches t t
  | reaches_call t c r t1 t2 : Forall is_byte (call_bytes c) -> call_allowed c t -> call_lexer c t = (r, t1) ->
      reaches t1 t2 -> reaches t t2.

Lemma reaches_alive t t' : reaches t t' -> alive t -> alive t'.
Proof.
  induction 1 as [|t c r t1 t2 Hb Ha E H IH]; [done|]. intros Hr. apply IH. by eapply call_alive.
Qed.

Lemma reaches_snoc t t1 c r t2 : reaches t t1 -> Forall is_byte (call_bytes c) -> call_allowed c t1 -> call_lexer c t1 = (r, t2) ->
  reaches t t2.
Proof.
  induction 1 as [t|t c0 r0 ta tb Hb0 Ha0 E0 H IH]; intros Hb Ha E.
  - eapply reaches_call; [exact Hb|exact Ha|exact E|constructor].
  - eapply reaches_call; [exact Hb0|exact Ha0|exact E0|by apply IH].
Qed.
End Replay.
