(* ===== verification/LexerTheorems.v ===== *)
(** * The lexer: what its calls promise

    Totality, errors and recovery over whole sessions, the shape of published
    tokens, the lookahead against its reference, and an input whose tokens
    depend on how it was fed. *)

From stdpp Require Import base list gmap strings sorting.
From S2P Require Import Prelude Output State Arithmetic Character Expansion Lexer LexerLook LexerTree LexerSafety LexerTurns LexerTotal LexerCalls LexerReplay.

Section Theorems.
Context {loc : Locale} {LL : LocaleLaws loc} {ST : StableLocale loc} {db : LocaleDb}.

(** What calls reach after a creation, errors included, and the tapes among it
    that have no error. *)
Definition visited (t : tape) : Prop :=
  exists name stack w t0 w0, csh_lexer_create name stack w = (inr t0, w0) /\ reaches t0 t.

Definition in_session (t : tape) : Prop := visited t /\ has_failed (t_source t) = false.

Lemma visited_alive t : visited t -> alive t.
Proof.
  intros (name & stack & w & t0 & w0 & E & H). eapply reaches_alive; [exact H|]. pose proof (create_ready name stack w) as Hr.
  rewrite E in Hr. by left.
Qed.

Lemma in_session_ready t : in_session t -> ready t.
Proof. intros [Hv Hf]. destruct (visited_alive t Hv) as [?|[Hs _]]; [done|congruence]. Qed.

(** What a result says of the lexer behind it. *)
Definition answers (r : csh_lex_result) (t : tape) : Prop :=
  match r with
  | CSH_LEX_EOF => final (t_source t) = true /\ text (t_source t) = [] /\ single_idle t
  | CSH_LEX_TOKEN k => tk_raw k <> []
  | CSH_LEX_MORE => final (t_source t) = false
  | CSH_LEX_COMMAND | CSH_LEX_REPLAY => is_Some (csh_lexer_command_fragment t)
  end.

Lemma result_answers r t : result_ok r t -> answers r t.
Proof.
  intros [[Hc (x & behind & Et & Hf & Hw)] Hr]. destruct r; try done; [apply Hr|..]; cbn;
    destruct Hr as (y & b & Ey & Hy); unfold csh_lexer_command_fragment; rewrite Ey, Hy;
    rewrite Et in Ey; simplify_eq; pose proof (word_command _ _ Hw Hy) as (_ & _ & Ha);
    unfold awaits in Ha; by destruct (frames y).
Qed.

(** C11: every call that changes a lexer returns, in any session.  From any tape
    that calls reach after creation, with every source of bytes and every
    failing allocation, no call reads or writes outside of a buffer, pops a
    missing context or runs out of turns.  The next token ends in a token, a
    request for input only before the last feed, the end only behind all bytes
    with no word open, or a pending command substitution.  After an error every
    call that reads gives the same error and changes nothing, until a suspended
    word is read again: then the error is gone and a substitution is pending;
    a recovery that is not possible leaves the error as it is. *)
Theorem lexer_session_total t c r t1 : visited t -> Forall is_byte (call_bytes c) -> call_allowed c t ->
  call_lexer c t = (r, t1) ->
  visited t1 /\
  (has_failed (t_source t) = true -> reads_on c = true -> r = Failed (failure (t_source t)) /\ t1 = t) /\
  match r with
  | Fault => False
  | Failed e => has_failed (t_source t1) = true /\ is_Some (message e)
  | Done None => has_failed (t_source t1) = has_failed (t_source t)
  | Done (Some a) => has_failed (t_source t1) = false /\ answers a t1
  end.
Proof.
  intros Hv Hb Ha E. pose proof (visited_alive t Hv) as Hal. split; [|split].
  - destruct Hv as (name & stack & w & t0 & w0 & E0 & H). exists name, stack, w, t0, w0. split; [done|]. by eapply reaches_snoc.
  - intros Hs Hc. by eapply reads_on_failed; [destruct Hal as [[_ (x & b & -> & _)]|[_ [? _]]]|..].
  - destruct (call_alive c t r t1 Hal Hb Ha E) as [_ Hr]. destruct r as [|e|[a|]]; try done.
    split; [by apply ready_failed, Hr|by apply result_answers].
Qed.

(** ** Tokens *)

(** The fragments of a spelling of [n] bytes: the nodes of an ordered forest in
    preorder, none empty, an escape with the character behind its backslash. *)
Record fragment_forest (l : list csh_fragment) (n : nat) : Prop := mk_forest {
  forest_range : forall i g, l !! i = Some g -> (fr_begin g < fr_end g <= n)%nat;
  forest_order : forall i j g h, (i < j)%nat -> l !! i = Some g -> l !! j = Some h -> (fr_begin g <= fr_begin h)%nat;
  forest_nested : forall j g k, l !! j = Some g -> fr_parent g = Some k ->
    (k < j)%nat /\ exists h, l !! k = Some h /\ (fr_begin h <= fr_begin g)%nat /\ (fr_end g <= fr_end h)%nat;
  forest_disjoint : forall i j g h, (i < j)%nat -> l !! i = Some g -> l !! j = Some h -> fr_parent g = fr_parent h ->
    (fr_end g <= fr_begin h)%nat;
  forest_escape : forall i g, l !! i = Some g -> fr_kind g = CSH_FRAGMENT_ESCAPE \/ fr_kind g = CSH_FRAGMENT_CONTINUATION ->
    (fr_begin g + 2 <= fr_end g)%nat }.

Lemma tree_forest l n : tree l [] n -> finished_ok l [] n -> fragment_forest l n.
Proof.
  intros T F. split.
  - intros i g Hg. destruct (F _ _ Hg) as (_ & H & _). specialize (H (not_elem_of_nil i)). pose proof (tree_range _ _ _ T _ _ Hg). lia.
  - apply T.
  - intros j g k Hg Hp. pose proof (tree_parent _ _ _ T _ _ _ Hg Hp) as Hlt. split; [done|].
    destruct (tree_within _ _ _ T _ _ _ Hg Hp) as [Hin|(h & Hh & Hle)]; [by apply elem_of_nil in Hin|].
    exists h. split; [done|]. split; [|done]. by eapply (tree_sorted _ _ _ T).
  - apply T.
  - intros i g Hg. apply (F _ _ Hg).
Qed.

(** C12: a published token is well formed, in words of commands and in
    here-document bodies, before an error and after recovery.  Its spelling is not empty, and its
    fragments are the nodes of an ordered forest in preorder: each lies within
    its parent, which is listed before it, siblings do not overlap, no fragment
    is empty, and an escape or a continuation has its second character. *)
Theorem token_fragments_nested t k t1 : visited t -> csh_lexer_next t = (Done (CSH_LEX_TOKEN k), t1) ->
  tk_raw k <> [] /\ fragment_forest (tk_fragments k) (length (tk_raw k)).
Proof.
  intros Hv E. assert (call_lexer CallNext t = (Done (Some (CSH_LEX_TOKEN k)), t1)) as Ec by (cbn; unfold lbind; by rewrite E).
  destruct (call_alive CallNext t _ t1 (visited_alive t Hv) ltac:(constructor) I Ec) as [_ (_ & H1 & H2 & H3)].
  split; [done|]. by apply tree_forest.
Qed.

(** ** Lookahead *)

(** C13: the cached lookahead answers as a scan from the cursor.  Whatever calls
    came before, [peek] gives the logical character that a fresh scan of the
    unread bytes finds, with line continuations removed, or its verdict that the
    source ends or that more input is needed; it changes nothing but the cache. *)
Theorem lookahead_cached t wanted : in_session t ->
  exists s', lex_peek wanted t = (Done (peek_spec (text (t_source t)) (final (t_source t)) wanted), set_source t s') /\
    same_but_look (t_source t) s'.
Proof.
  intros Hs. destruct (in_session_ready _ Hs) as [(_ & Hca & _) _]. destruct (lex_peek_run wanted t Hca) as (s' & E & H & _).
  by exists s'.
Qed.

(** An answer of the lookahead is final.  When [peek] does not ask for
    more input, it gives the same character and the same end after any bytes
    are fed behind, whether or not they are the last. *)
Theorem lookahead_final t wanted z p t1 bytes n last t2 : in_session t -> final (t_source t) = false ->
  lex_peek wanted t = (Done (z, p), t1) -> z <> -2 -> Forall is_byte (default [] bytes) ->
  csh_lexer_feed bytes n last t = (Done tt, t2) -> exists t3, lex_peek wanted t2 = (Done (z, p), t3).
Proof.
  intros Hs Hfin E Hz Hb Ef. pose proof (in_session_ready _ Hs) as Hr. pose proof Hr as [(_ & Hca & _) _].
  destruct (lex_peek_run wanted t Hca) as (s' & E' & _). rewrite E' in E. injection E as Ep _. rewrite Hfin in Ep.
  pose proof (feed_ready bytes n last t Hr Hb) as Hp. unfold lpost in Hp. rewrite Ef in Hp. destruct Hp as ([(_ & Hca2 & _) _] & _ & Etext & _).
  destruct (lex_peek_run wanted t2 Hca2) as (s2 & E2 & _). exists (set_source t2 s2). rewrite E2, Etext.
  rewrite peek_spec_stable by (rewrite Ep; done). by rewrite Ep.
Qed.
End Theorems.

(** ** Examples *)

#[local] Existing Instance c_locale.
#[local] Instance any_locale : LocaleDb := fun _ _ => true.

Definition sample_tape : tape :=
  match csh_lexer_create (Some (bs "sample")) [] quiet_proc with
  | (inr t, _) => t
  | (inl _, w) => mk_tape (mk_source [] [] 0 no_position [] 0 false 0 0 [] false false no_error) [] [] w
  end.

Fixpoint run_calls (l : list lexer_call) (t : tape) : list (outcome (option csh_lex_result)) * tape :=
  match l with
  | [] => ([], t)
  | c :: rest => let '(r, t1) := call_lexer c t in let '(rs, t2) := run_calls rest t1 in (r :: rs, t2)
  end.

Definition feed_text (s : str) (last : bool) : lexer_call := CallFeed (Some s) (length s) last.

Definition single_quoted (k : csh_token) : bool :=
  existsb (fun g => bool_decide (fr_kind g = CSH_FRAGMENT_QUOTED) && bool_decide (fr_quote g = CSH_QUOTE_SINGLE)) (tk_fragments k).

(** The last token of a list of calls. *)
Definition last_token (l : list lexer_call) : option csh_token :=
  match last (fst (run_calls l sample_tape)) with
  | Some (Done (Some (CSH_LEX_TOKEN k))) => Some k
  | _ => None
  end.

Definition split_line : str := [34] ++ bs "${$\" ++ [10].
Definition rest_line : str := bs "%'x'}" ++ [34; 10].

(** A request for more input does not preserve the state of a parameter
    header.  The word "${$", continued on the next line with "%'x'}", has a
    single-quoted pattern when both lines are at hand; fed line by line, the
    header has taken its dollar twice, the percent sign no longer resets the
    quoting, and the same spelling is published without it. *)
Theorem parameter_split_divergence :
  exists whole parts,
    last_token [feed_text (split_line ++ rest_line) true; CallNext] = Some whole /\
    last_token [feed_text split_line false; CallNext; feed_text rest_line true; CallNext] = Some parts /\
    tk_raw whole = tk_raw parts /\ single_quoted whole = true /\ single_quoted parts = false.
Proof.
  destruct (last_token [feed_text (split_line ++ rest_line) true; CallNext]) as [whole|] eqn:E1; [|by vm_compute in E1].
  destruct (last_token [feed_text split_line false; CallNext; feed_text rest_line true; CallNext]) as [parts|] eqn:E2; [|by vm_compute in E2].
  vm_compute in E1, E2. injection E1 as <-. injection E2 as <-. eexists _, _. repeat split; reflexivity.
Qed.

(** A session that reads a word with an arithmetic expansion. *)
Definition word_line : str := bs "a$((1+\" ++ [10] ++ bs "${b}))'c'" ++ [10].

Definition fed_tape : tape := snd (call_lexer (feed_text word_line false) sample_tape).

Lemma bytes_of_text (s : str) : forallb (fun b => (0 <=? b) && (b <? 256)) s = true -> Forall is_byte s.
Proof. rewrite forallb_forall, Forall_forall. intros H b Hb. apply list_elem_of_In, H in Hb. unfold is_byte. lia. Qed.

Lemma sample_visited l : (forall c, c ∈ l -> Forall is_byte (call_bytes c)) ->
  (forall k c, l !! k = Some c -> call_allowed c (snd (run_calls (take k l) sample_tape))) -> visited (snd (run_calls l sample_tape)).
Proof.
  intros Hb Ha. exists (Some (bs "sample")), [], quiet_proc, sample_tape, quiet_proc. split; [reflexivity|].
  revert Hb Ha. generalize sample_tape as t. induction l as [|c l IH]; intros t Hb Ha; [constructor|]. cbn [run_calls].
  pose proof (Ha 0%nat c eq_refl) as Hc. cbn in Hc. destruct (call_lexer c t) as [r t1] eqn:E.
  eapply reaches_call; [apply Hb; by left|exact Hc|exact E|].
  assert (reaches t1 (snd (run_calls l t1))) as H.
  { apply IH; [intros c' Hc'; apply Hb; by right|]. intros k c' Hk. specialize (Ha (S k) c' Hk). cbn [take run_calls] in Ha.
    rewrite E in Ha. by destruct (run_calls (take k l) t1). }
  by destruct (run_calls l t1).
Qed.

Lemma fed_visited : visited fed_tape.
Proof.
  assert (fed_tape = snd (run_calls [feed_text word_line false] sample_tape)) as -> by reflexivity. apply sample_visited.
  - intros c [->|Hc]%elem_of_cons; [apply bytes_of_text; reflexivity|by apply elem_of_nil in Hc].
  - by intros [|k] c; [intros [= <-]|].
Qed.

Lemma fed_session : in_session fed_tape.
Proof. split; [apply fed_visited|reflexivity]. Qed.

(** A word whose double parenthesis opens a subshell after all: when the
    substitution within it is not finished, the arithmetic expansion is taken
    back and the word waits for the commands of the outer one. *)
Definition subshell_line : str := bs "$((echo $(b" ++ [10].
Definition broken_calls : list lexer_call :=
  [feed_text subshell_line true; CallNext; CallCommandBegin; CallNext; CallNext; CallNext].
Definition broken_tape : tape := snd (run_calls broken_calls sample_tape).
Definition replay_call : lexer_call := CallReplay 1 (failure (t_source broken_tape)).

(** A here-document body in document mode. *)
Definition document_calls : list lexer_call := [CallSetPosition (mk_position 4 2 1); CallDocument; feed_text (bs "it's ${a#b}") true].

Lemma broken_visited : visited broken_tape.
Proof.
  apply sample_visited.
  - intros c Hc. repeat (apply elem_of_cons in Hc as [->|Hc]); [apply bytes_of_text; reflexivity|try constructor..].
    by apply elem_of_nil in Hc.
  - intros [|[|[|[|[|[|k]]]]]] c E; cbn in E; simplify_eq; exact I.
Qed.

Lemma document_visited : visited (snd (run_calls document_calls sample_tape)).
Proof.
  apply sample_visited.
  - intros c Hc. repeat (apply elem_of_cons in Hc as [->|Hc]); [constructor|constructor|apply bytes_of_text; reflexivity|].
    by apply elem_of_nil in Hc.
  - intros [|[|[|k]]] c E; cbn in E; simplify_eq; [reflexivity|exact I|exact I].
Qed.

(** The error is kept by the next call; recovery takes the word back. *)
Lemma lexer_session_total_witness :
  (exists e, call_lexer CallNext broken_tape = (Failed e, broken_tape)) /\
  exists t1, call_lexer replay_call broken_tape = (Done (Some CSH_LEX_REPLAY), t1) /\ has_failed (t_source t1) = false /\
    visited t1 /\ answers CSH_LEX_REPLAY t1.
Proof.
  split.
  - destruct (call_lexer CallNext broken_tape) as [r t1] eqn:E.
    destruct (lexer_session_total broken_tape CallNext r t1 broken_visited ltac:(constructor) I E) as (_ & H & _).
    destruct (H ltac:(vm_compute; reflexivity) eq_refl) as [-> ->]. eexists. reflexivity.
  - destruct (call_lexer replay_call broken_tape) as [r t1] eqn:E.
    assert (call_allowed replay_call broken_tape) as Ha by (split; [apply (bool_decide_unpack _); vm_compute; exact I|done]).
    assert (r = Done (Some CSH_LEX_REPLAY)) as Er by (change r with (fst (r, t1)); rewrite <- E; vm_compute; reflexivity).
    destruct (lexer_session_total broken_tape replay_call r t1 broken_visited ltac:(constructor) Ha E) as (H1 & _ & H2).
    rewrite Er in H2. exists t1. rewrite Er. split_and!; [reflexivity|apply H2|exact H1|apply H2].
Defined.

Lemma token_fragments_nested_witness : (exists k t1, csh_lexer_next fed_tape = (Done (CSH_LEX_TOKEN k), t1) /\
  map fr_kind (tk_fragments k) = [CSH_FRAGMENT_TEXT; CSH_FRAGMENT_ARITHMETIC; CSH_FRAGMENT_TEXT; CSH_FRAGMENT_CONTINUATION;
    CSH_FRAGMENT_PARAMETER; CSH_FRAGMENT_TEXT; CSH_FRAGMENT_QUOTED; CSH_FRAGMENT_TEXT] /\
  fragment_forest (tk_fragments k) (length (tk_raw k))) /\
  exists k t1, csh_lexer_next (snd (run_calls document_calls sample_tape)) = (Done (CSH_LEX_TOKEN k), t1) /\
    tk_raw k = bs "it's ${a#b}" /\ fragment_forest (tk_fragments k) (length (tk_raw k)).
Proof.
  split.
  - destruct (csh_lexer_next fed_tape) as [r t1] eqn:E.
    assert (exists k, r = Done (CSH_LEX_TOKEN k) /\ map fr_kind (tk_fragments k) = [CSH_FRAGMENT_TEXT; CSH_FRAGMENT_ARITHMETIC;
      CSH_FRAGMENT_TEXT; CSH_FRAGMENT_CONTINUATION; CSH_FRAGMENT_PARAMETER; CSH_FRAGMENT_TEXT; CSH_FRAGMENT_QUOTED; CSH_FRAGMENT_TEXT])
      as (k & Er & Ek) by (vm_compute in E; injection E as <- _; eexists; split; reflexivity).
    rewrite Er in *. exists k, t1. split; [reflexivity|]. split; [exact Ek|].
    apply (token_fragments_nested fed_tape k t1 fed_visited E).
  - destruct (csh_lexer_next (snd (run_calls document_calls sample_tape))) as [r t1] eqn:E.
    assert (exists k, r = Done (CSH_LEX_TOKEN k) /\ tk_raw k = bs "it's ${a#b}") as (k & Er & Ek)
      by (vm_compute in E; injection E as <- _; eexists; split; reflexivity).
    rewrite Er in *. exists k, t1. split; [reflexivity|]. split; [exact Ek|].
    apply (token_fragments_nested _ k t1 document_visited E).
Defined.

Lemma lookahead_cached_witness : in_session fed_tape /\
  exists s', lex_peek 1 fed_tape = (Done (ch "$", 2%nat), set_source fed_tape s').
Proof.
  split; [apply fed_session|]. destruct (lookahead_cached fed_tape 1 fed_session) as (s' & E & _). exists s'. rewrite E. reflexivity.
Defined.

Lemma lookahead_final_witness : exists t2 t3,
  csh_lexer_feed (Some (bs "x")) 1 true fed_tape = (Done tt, t2) /\ lex_peek 4 t2 = (Done (ch "1", 5%nat), t3).
Proof.
  destruct (csh_lexer_feed (Some (bs "x")) 1 true fed_tape) as [r t2] eqn:E.
  assert (r = Done tt) as Er by (vm_compute in E; injection E as <- _; reflexivity). rewrite Er in E.
  destruct (lex_peek 4 fed_tape) as [a t1] eqn:Ea.
  assert (a = Done (ch "1", 5%nat)) as Er' by (vm_compute in Ea; injection Ea as <- _; reflexivity). rewrite Er' in Ea.
  destruct (lookahead_final fed_tape 4 (ch "1") 5 t1 (Some (bs "x")) 1 true t2 fed_session eq_refl Ea ltac:(done)
    ltac:(apply (bytes_of_text (bs "x")); reflexivity) E) as [t3 E3].
  exists t2, t3. rewrite Er. split; [reflexivity|exact E3].
Defined.
