(* ===== verification/Values.v ===== *)
(** * Expansion of values (src/expand.c)

    The first stage of word expansion: tildes, parameters, arithmetic and
    command substitutions, by a walk over the fragments of a token.  A position
    in the spelling is a number; a read outside of the spelling, an index out
    of a vector, a use of memory that was never written and the end of the fuel
    are the outcome [VFault].  The stack check, the user database and [fnmatch]
    belong to the host; the callback for command substitutions is a parameter. *)

From stdpp Require Import base list gmap strings.
From S2P Require Import Prelude Output Numbers Options Character Quote State Arithmetic Expansion Pathname Fields Process Lexer.

(** What [getpwnam] has as [pw_dir], and [fnmatch(p, s, 0) == 0]. *)
Class Users : Type := { user_home : str -> option str; fn_match_all : str -> str -> bool }.

(** ** The computations

    [vs_error] is [None] for a NULL pointer; [vs_stack] and [vs_arithmetic]
    are the answers of the stack checks to come, here and in each arithmetic
    evaluation.  [vs_user] is what the callback keeps behind its user pointer,
    the status of the last command substitution, with the process around. *)

Record expansion_work : Type := mk_work {
  vs_state : csh_state; vs_error : option csh_expand_error;
  vs_stack : list bool; vs_arithmetic : list (list bool); vs_proc : proc;
  vs_user : Z * outside }.

Inductive voutcome (A : Type) : Type := VFault | VFail (code : csh_expand_result) | VDone (a : A).
Arguments VFault {_}.
Arguments VFail {_} _.
Arguments VDone {_} _.

Definition V (A : Type) : Type := expansion_work -> voutcome A * expansion_work.

Definition vret {A} (a : A) : V A := fun w => (VDone a, w).
Definition vfault {A} : V A := fun w => (VFault, w).
(** [return code;] *)
Definition vcode {A} (code : csh_expand_result) : V A := fun w => (VFail code, w).
Definition vbind {A B} (m : V A) (f : A -> V B) : V B := fun w =>
  match m w with
  | (VDone a, w') => f a w'
  | (VFail c, w') => (VFail c, w')
  | (VFault, w') => (VFault, w')
  end.

Notation "'let@' x ':=' m 'in' k" := (vbind m (fun x => k))
  (at level 10, x strict pattern, m at level 200, k at level 200,
   format "'let@'  x  ':='  m  'in' '//' k") : cshell_scope.

(** [None] is a fault. *)
Definition vopt {A} (o : option A) : V A := match o with Some a => vret a | None => vfault end.

(** A computation whose failure is looked at. *)
Definition vtry {A} (m : V A) : V (csh_expand_result + A) := fun w =>
  match m w with
  | (VDone a, w') => (VDone (inr a), w')
  | (VFail c, w') => (VDone (inl c), w')
  | (VFault, w') => (VFault, w')
  end.

Definition get_state : V csh_state := fun w => (VDone (vs_state w), w).
Definition put_state (s : csh_state) : V unit := fun w =>
  (VDone tt, mk_work s (vs_error w) (vs_stack w) (vs_arithmetic w) (vs_proc w) (vs_user w)).
Definition get_error : V (option csh_expand_error) := fun w => (VDone (vs_error w), w).
Definition put_error (e : option csh_expand_error) : V unit := fun w =>
  (VDone tt, mk_work (vs_state w) e (vs_stack w) (vs_arithmetic w) (vs_proc w) (vs_user w)).

(** Code that works on the process only. *)
Definition vhost {A} (m : M A) : V A := fun w =>
  let '(a, p) := m (vs_proc w) in (VDone a, mk_work (vs_state w) (vs_error w) (vs_stack w) (vs_arithmetic w) p (vs_user w)).

(** One allocation that fails with [CSH_EXPAND_NOMEM]. *)
Definition vmalloc : V unit := let@ ok := vhost malloc in if ok then vret tt else vcode CSH_EXPAND_NOMEM.

(** [csh_stack_check() == 0] *)
Definition vstack : V bool := fun w =>
  match vs_stack w with
  | [] => (VDone true, w)
  | b :: rest => (VDone b, mk_work (vs_state w) (vs_error w) rest (vs_arithmetic w) (vs_proc w) (vs_user w))
  end.

(** The callback: from the state, the error record, the process and its own
    data, the token and the index, to the result and what it leaves.  Bytes are [None] for a
    NULL pointer with a positive length. *)
Definition substitute_callback : Type := csh_state -> option csh_expand_error -> proc -> Z * outside -> csh_token -> nat ->
  voutcome (option str) * csh_state * option csh_expand_error * proc * (Z * outside).

Record csh_expand_options : Type := mk_options { eo_context : csh_expand_context; eo_substitute : option substitute_callback }.

(** ** Output *)

Definition with_fields (out : csh_expansion) (l : list csh_expand_field) : csh_expansion := mk_expansion l (ex_context out).

(** Sizes of the structures on LP64 hosts. *)
Definition sizeof_expand_field : Z := 16.
Definition sizeof_expand_span : Z := 32.

Definition new_field (out : csh_expansion) : V csh_expansion :=
  if SIZE_MAX / sizeof_expand_field - 1 <=? Z.of_nat (length (ex_fields out)) then vcode CSH_EXPAND_NOMEM else
  let@ _ := vmalloc in vret (with_fields out (ex_fields out ++ [[]])).

Definition append (out : csh_expansion) (bytes : str) (quote : csh_quote) (origin : csh_expand_origin) (keep : bool) : V csh_expansion :=
  if slen bytes =? SIZE_MAX then vcode CSH_EXPAND_NOMEM else
  let@ out := (if bool_decide (ex_fields out = []) then new_field out else vret out) in
  let@ field := vopt (last (ex_fields out)) in
  if SIZE_MAX / sizeof_expand_span - 1 <=? Z.of_nat (length field) then vcode CSH_EXPAND_NOMEM else
  let@ _ := vmalloc in
  let@ _ := vmalloc in
  let span := mk_span bytes quote origin
    (bool_decide (ex_context out = CSH_EXPAND_ARGUMENT) && bool_decide (quote = CSH_QUOTE_NONE) &&
     negb (bool_decide (origin = CSH_EXPAND_LITERAL)) && negb (bool_decide (origin = CSH_EXPAND_TILDE))) keep in
  vret (with_fields out (removelast (ex_fields out) ++ [field ++ [span]])).

Definition quoted (q : csh_quote) : bool := negb (bool_decide (q = CSH_QUOTE_NONE)).

(** The bytes before the terminating NUL. *)
Definition c_text (s : str) : str := fst (cut_at s 0).

Definition scalar (out : csh_expansion) (text : str) (quote : csh_quote) (origin : csh_expand_origin) : V csh_expansion :=
  append out (c_text text) quote origin (quoted quote).

(** ** Spellings *)

Definition name_start (b : byte) : bool := between (ch "a") b (ch "z") || between (ch "A") b (ch "Z") || (b =? ch "_").
Definition digit (b : byte) : bool := between (ch "0") b (ch "9").
Definition name_char (b : byte) : bool := name_start b || digit b.
Definition special (b : byte) : bool := (0 <? b) && in_set b (bs "@*#?$!-").

(** The byte at [position], -1 at the end, and the position behind it.  The
    physical spelling can have continuations even in delimiters. *)
Fixpoint logical_loop (fuel : nat) (raw : str) (position end_ : nat) : option (byte * nat) :=
  match fuel with
  | O => None
  | S f =>
      if (S position <? end_)%nat then
        match raw !! position, raw !! S position with
        | Some b, Some c =>
            if (b =? ch "\") && (c =? 10) then logical_loop f raw (position + 2) end_ else Some (b, S position)
        | _, _ => None
        end
      else if (position <? end_)%nat then
        match raw !! position with Some b => Some (b, S position) | None => None end
      else Some (-1, position)
  end.

Definition logical (raw : str) (position end_ : nat) : option (byte * nat) :=
  logical_loop (S (end_ - position)) raw position end_.

(** [length] bytes at [position]. *)
Definition slice (raw : str) (position length : nat) : option str :=
  if (position + length <=? List.length raw)%nat then Some (take length (drop position raw)) else None.

(** The value of a loop [do byte = logical(); while (p(byte));] *)
Fixpoint logical_while (fuel : nat) (p : byte -> bool) (raw : str) (position end_ : nat) : option (byte * nat) :=
  match fuel with
  | O => None
  | S f =>
      match logical raw position end_ with
      | Some (b, at_) => if p b then logical_while f p raw at_ end_ else Some (b, at_)
      | None => None
      end
  end.

Definition length_parameter (raw : str) (begin end_ : nat) : option bool :=
  match logical raw begin end_ with
  | None => None
  | Some (b, at_) =>
      let last := if name_start b then logical_while (S (end_ - at_)) name_char raw at_ end_
        else if digit b then logical_while (S (end_ - at_)) digit raw at_ end_
        else if special b then logical raw at_ end_
        else Some (0, at_) in
      match last with Some (b, _) => Some (b =? -1) | None => None end
  end.

Definition empty_operand (raw : str) (begin end_ : nat) : option bool :=
  match logical raw begin end_ with Some (b, _) => Some (b =? -1) | None => None end.

(** [None] is a fault; [Some None] is SIZE_MAX. *)
Fixpoint trim_continuations (fuel : nat) (raw : str) (begin end_ : nat) : option nat :=
  match fuel with
  | O => None
  | S f =>
      if (2 <=? end_ - begin)%nat then
        match raw !! (end_ - 2)%nat, raw !! (end_ - 1)%nat with
        | Some b, Some c => if (b =? ch "\") && (c =? 10) then trim_continuations f raw begin (end_ - 2) else Some end_
        | _, _ => None
        end
      else Some end_
  end.

Fixpoint trim_delimiters (raw : str) (begin end_ count : nat) : option (option nat) :=
  match count with
  | O => Some (Some end_)
  | S n =>
      if (end_ <=? begin)%nat then Some None else
      match raw !! (end_ - 1)%nat with
      | None => None
      | Some b =>
          if negb (b =? ch ")") then Some None else
          match trim_continuations (S (end_ - 1 - begin)) raw begin (end_ - 1) with
          | Some e => trim_delimiters raw begin e n
          | None => None
          end
      end
  end.

(** ** The work on one token *)

Definition max_message : nat := 255.

Section Work.
Context `{Locale} `{Files} `{Users} `{LocaleDb}.
Context (word : csh_token) (substitute : option substitute_callback).

Definition position_of (fragment : option nat) : csh_position :=
  match fragment ≫= fun i => tk_fragments word !! i with Some f => fr_start f | None => tk_start word end.

(** The record is filled and the code returned. *)
Definition vfail {A} (code : csh_expand_result) (fragment : option nat) (message : str) : V A :=
  let@ e := get_error in
  let@ _ := (match e with
    | Some _ => put_error (Some (mk_expand_error (Some code) fragment (position_of fragment) (take max_message message)))
    | None => vret tt
    end) in
  vcode code.

(** [if (error == NULL || error->code == CSH_EXPAND_OK) fail(...);] after a failure. *)
Definition reporting {A} (m : V A) (fragment : option nat) (message : str) : V A :=
  let@ r := vtry m in
  match r with
  | inr a => vret a
  | inl code =>
      let@ e := get_error in
      match e with
      | Some e => if bool_decide (ee_code e = None) then vfail code fragment message else vcode code
      | None => vcode code
      end
  end.

Definition raw : str := tk_raw word.
Definition fragment_at (i : nat) : V csh_fragment := vopt (tk_fragments word !! i).
Definition byte_at (p : nat) : V byte := vopt (raw !! p).
Definition bytes_at (p length : nat) : V str := vopt (slice raw p length).
Definition next_byte (p end_ : nat) : V (byte * nat) := vopt (logical raw p end_).

(** The separator of a joined list; it is read from IFS. *)
Definition separator (s : csh_state) : str :=
  match view_value (snd (csh_state_get_variable s (Some (bs "IFS")))) with
  | None => [ch " "]
  | Some [] => []
  | Some v => take (character_bytes v) v
  end.

Definition flatten (value : csh_expansion) : V str :=
  let text := concat (map sp_text (concat (ex_fields value))) in
  if SIZE_MAX <=? slen text then vcode CSH_EXPAND_NOMEM else
  let@ _ := vmalloc in vret (c_text text).

(** ** Parameters *)

Fixpoint positional_loop (fuel : nat) (i : Z) (join : bool) (sep : str) (quote : csh_quote) (out : csh_expansion) : V csh_expansion :=
  match fuel with
  | O => vret out
  | S f =>
      let@ out := (if i >? 1 then
          if join then append out sep quote CSH_EXPAND_PARAMETER (quoted quote) else new_field out
        else vret out) in
      let@ s := get_state in
      let@ value := vopt (csh_state_parameter s i) in
      let@ out := scalar out value quote CSH_EXPAND_PARAMETER in
      positional_loop f (i + 1) join sep quote out
  end.

Definition positional (out : csh_expansion) (star : bool) (quote : csh_quote) : V csh_expansion :=
  let@ s := get_state in
  let join := negb (bool_decide (ex_context out = CSH_EXPAND_ARGUMENT)) || (star && quoted quote) in
  let@ out := (if join then scalar out [] quote CSH_EXPAND_PARAMETER else vret out) in
  positional_loop (Z.to_nat (argument_count (csh_state_get_info s))) 1 join (separator s) quote out.

(** [None] is an overflow of size_t. *)
Fixpoint parameter_index (name : str) (index : Z) : option Z :=
  match name with
  | [] => Some index
  | c :: rest => if (SIZE_MAX - (c - ch "0")) / 10 <? index then None else parameter_index rest (index * 10 + (c - ch "0"))
  end.

Definition option_letters (options : Z) : str :=
  map opt_letter (List.filter (fun e => negb (opt_letter e =? 0) && opt_on options (opt_bit e)) CSH_OPTION_LIST) ++
  (if opt_on options CSH_OPT_INTERACTIVE then [ch "i"] else []).

(** The value, empty when unset, and whether it is set. *)
Definition parameter_value (name : str) : V (str * bool) :=
  let@ s := get_state in
  let info := csh_state_get_info s in
  let first := hd 0 name in
  let@ value := (
    if name_start first then
      let '(r, view) := csh_state_get_variable s (Some name) in
      if bool_decide (r = CSH_STATE_OK) then vret (view_value view) else vcode CSH_EXPAND_INVALID
    else if digit first then
      match parameter_index name 0 with
      | None => vcode CSH_EXPAND_INVALID
      | Some index => vret (csh_state_parameter s index)
      end
    else if first =? ch "#" then vret (Some (digits 20 (argument_count info) []))
    else if first =? ch "?" then vret (Some (print_long (last_status info)))
    else if first =? ch "$" then vret (Some (print_long (shell_pid info)))
    else if first =? ch "!" then vret (if background_pid info =? 0 then None else Some (print_long (background_pid info)))
    else if first =? ch "-" then vret (Some (option_letters (options info)))
    else vcode CSH_EXPAND_INVALID) in
  let@ _ := vmalloc in
  vret (default [] value, bool_decide (is_Some value)).

Definition assign (name value : str) : V unit :=
  let@ s := get_state in
  let@ (r, s) := vhost (csh_state_set_variable s (Some name) (Some value)) in
  let@ _ := put_state s in
  match r with
  | CSH_STATE_READONLY => vcode CSH_EXPAND_READONLY
  | CSH_STATE_NOMEM => vcode CSH_EXPAND_NOMEM
  | CSH_STATE_INVALID => vcode CSH_EXPAND_INVALID
  | CSH_STATE_OK =>
      if opt_on (options (csh_state_get_info s)) CSH_OPT_ALLEXPORT then
        let@ (r, s) := vhost (csh_state_update_attributes s (Some name) CSH_VAR_EXPORT 0) in
        let@ _ := put_state s in
        if bool_decide (r = CSH_STATE_OK) then vret tt else vcode CSH_EXPAND_NOMEM
      else vret tt
  end.

(** The offset that the last match selected; [inl] ends the search at it. *)
Fixpoint remove_loop (fuel : nat) (value pattern : str) (suffix longest : bool) (offset : nat) (selected : option nat) : option (option nat) :=
  match fuel with
  | O => None
  | S f =>
      let matches := fn_match_all pattern (if suffix then drop offset value else take offset value) in
      let selected := if matches then Some offset else selected in
      if (matches && eqb suffix longest) || (offset =? length value)%nat then Some selected
      else remove_loop f value pattern suffix longest (offset + character_bytes (drop offset value)) selected
  end.

Definition remove_pattern (value pattern : str) (suffix longest : bool) : option str :=
  match remove_loop (S (length value)) value pattern suffix longest 0 None with
  | Some (Some selected) => Some (if suffix then take selected value else drop selected value)
  | Some None => Some value
  | None => None
  end.

Fixpoint count_characters (fuel : nat) (s : str) : option nat :=
  match fuel with
  | O => None
  | S f => match s with [] => Some 0%nat | _ => S <$> count_characters f (drop (character_bytes s) s) end
  end.

(** The bytes of a name and the position behind them. *)
Fixpoint name_loop (fuel : nat) (numeric braced : bool) (p end_ : nat) (name : str) : option (str * nat) :=
  match fuel with
  | O => None
  | S f =>
      match logical raw p end_ with
      | None => None
      | Some (b, at_) =>
          if (if numeric then digit b else name_char b) && (negb numeric || braced)
          then name_loop f numeric braced at_ end_ (name ++ [b]) else Some (name, p)
      end
  end.

(** A host that never interrupts: the options of the call are NULL. *)
Definition uninterrupted {A} (m : M A) : M A := fun w =>
  let '(a, w') := m (mk_proc (p_alloc w) (p_writes w) (p_stdio w) (p_stdout w) (p_stderr w) (p_locale w) (p_functions w) []) in
  (a, mk_proc (p_alloc w') (p_writes w') (p_stdio w') (p_stdout w') (p_stderr w') (p_locale w') (p_functions w') (p_interrupts w)).

(** [csh_expand_fields] with the error record of this work. *)
Definition expand_pattern (value : csh_expansion) : V csh_fields :=
  let@ s := get_state in
  let@ (r, e) := vhost (uninterrupted (csh_expand_fields s value)) in
  let@ e0 := get_error in
  let@ _ := (match e0 with Some _ => put_error (Some e) | None => vret tt end) in
  match r with inr l => vret l | inl code => vcode code end.

(** What the spelling of a parameter asks for. *)
Record parameter_form : Type := mk_form {
  pm_name : str; pm_length : bool; pm_colon : bool; pm_op : byte; pm_longest : bool; pm_operand : nat; pm_end : nat }.

(** The operator behind the name, 0 for none. *)
Definition parameter_operator (name : str) (braced length_op : bool) (p end_ : nat) : V parameter_form :=
  let@ (b, p) := next_byte p end_ in
  if b =? -1 then vret (mk_form name length_op false 0 false p end_) else
  if negb braced || length_op then vcode CSH_EXPAND_INVALID else
  let colon := b =? ch ":" in
  let@ (b, p) := (if colon then next_byte p end_ else vret (b, p)) in
  if (b <? 0) || negb (in_set b (bs "-+=?#%") || (b =? 0)) || (colon && ((b =? ch "#") || (b =? ch "%")))
  then vcode CSH_EXPAND_INVALID else
  if (b =? ch "#") || (b =? ch "%") then
    let@ (c, q) := next_byte p end_ in
    vret (if c =? b then mk_form name length_op colon b true q end_ else mk_form name length_op colon b false p end_)
  else vret (mk_form name length_op colon b false p end_).

(** The opening brace and the length operator: the byte behind them with its
    start, the position behind it, the end, and the two flags. *)
Definition parameter_opening (f : csh_fragment) : V (byte * nat * nat * nat * bool * bool) :=
  let end_ := fr_end f in
  let@ (_, p) := next_byte (fr_begin f) end_ in
  let save := p in
  let@ (b, p) := next_byte p end_ in
  if negb (b =? ch "{") then vret (b, save, p, end_, false, false) else
  let end_ := (end_ - 1)%nat in
  let save := p in
  let@ (b, p) := next_byte p end_ in
  if negb (b =? ch "#") then vret (b, save, p, end_, true, false) else
  let@ is_length := vopt (length_parameter raw p end_) in
  if is_length then
    let save := p in
    let@ (b, p) := next_byte p end_ in vret (b, save, p, end_, true, true)
  else vret (b, save, p, end_, true, false).

(** [name] has room for every byte of the spelling. *)
Definition parameter_syntax (f : csh_fragment) : V parameter_form :=
  let@ (b, save, p, end_, braced, length_op) := parameter_opening f in
  if (end_ <? save)%nat then vcode CSH_EXPAND_NOMEM else
  let@ _ := vmalloc in
  let room := (end_ - save)%nat in
  if name_start b || digit b then
    let@ (name, p) := vopt (name_loop (S (end_ - p)) (digit b) braced p end_ [b]) in
    if (length name <=? room)%nat then parameter_operator name braced length_op p end_ else vfault
  else if special b then
    if (1 <=? room)%nat then parameter_operator [b] braced length_op p end_ else vfault
  else vcode CSH_EXPAND_INVALID.

Definition empty_expansion (c : csh_expand_context) : csh_expansion := mk_expansion [] c.

(** ** Tildes

    [next] are the ends of the subtrees, [None] where nothing was written. *)

Context (next : list (option nat)) (decoded : list (option str)).

Definition next_at (i : nat) : V nat := let@ n := vopt (next !! i) in vopt n.

Definition first_child (parent : option nat) : nat := match parent with None => 0 | Some i => S i end.
Definition child_limit (parent : option nat) : V nat :=
  match parent with None => vret (length (tk_fragments word)) | Some i => next_at i end.

Fixpoint plain_loop (fuel i limit : nat) (parent : option nat) (p : nat) : V bool :=
  match fuel with
  | O => vfault
  | S n =>
      if (limit <=? i)%nat then vret false else
      let@ f := fragment_at i in
      if (fr_begin f <=? p)%nat && (p <? fr_end f)%nat then
        vret (bool_decide (fr_parent f = parent) && bool_decide (fr_quote f = CSH_QUOTE_NONE) &&
              (bool_decide (fr_kind f = CSH_FRAGMENT_TEXT) || bool_decide (fr_kind f = CSH_FRAGMENT_CONTINUATION)))
      else let@ j := next_at i in plain_loop n j limit parent p
  end.

(** Whether syntax, not an expanded byte, stands at [p]. *)
Definition plain_at (parent : option nat) (p : nat) : V bool :=
  let@ limit := child_limit parent in
  plain_loop (S (length (tk_fragments word))) (first_child parent) limit parent p.

(** The login name; [None] when it is not plain. *)
Fixpoint tilde_loop (fuel : nat) (parent : option nat) (p end_ : nat) (assignment_tilde : bool) (name : str) : V (option (str * nat)) :=
  match fuel with
  | O => vfault
  | S n =>
      if negb (p <? end_)%nat then vret (Some (name, p)) else
      let@ plain := plain_at parent p in
      if negb plain then vret None else
      let@ b := byte_at p in
      if (b =? ch "/") || (assignment_tilde && (b =? ch ":")) then vret (Some (name, p)) else
      let@ continuation := (if (b =? ch "\") && (S p <? end_)%nat then let@ c := byte_at (S p) in vret (c =? 10) else vret false) in
      if continuation then tilde_loop n parent (p + 2) end_ assignment_tilde name else
      let width := csh_character_length (take (end_ - p) (drop p raw)) true true in
      let@ s := bytes_at p width in
      tilde_loop n parent (p + width) end_ assignment_tilde (name ++ s)
  end.

(** The output and the position behind the prefix, [begin] when it is no prefix. *)
Definition tilde_prefix (parent : option nat) (begin end_ : nat) (out : csh_expansion) (assignment_tilde : bool) : V (csh_expansion * nat) :=
  let@ _ := vmalloc in
  let@ r := tilde_loop (S (end_ - begin)) parent (S begin) end_ assignment_tilde [] in
  match r with
  | None => vret (out, begin)
  | Some (name, p) =>
      if negb (length name <=? end_ - begin)%nat then vfault else
      let@ s := get_state in
      let home := (if bool_decide (name = []) then view_value (snd (csh_state_get_variable s (Some (bs "HOME")))) else user_home (c_text name)) in
      match home with
      | None => vret (out, begin)
      | Some home =>
          let@ slash := (if (p <? end_)%nat then let@ b := byte_at p in vret (b =? ch "/") else vret false) in
          let home := if bool_decide (last home = Some (ch "/")) && slash then removelast home else home in
          let@ out := append out home CSH_QUOTE_SINGLE CSH_EXPAND_TILDE true in
          vret (out, p)
      end
  end.

(** ** The walk

    [range_] is the walk over the fragments of one nested fragment. *)

Section Nested.
Context (range_ : option nat -> nat -> nat -> csh_expansion -> csh_expand_origin -> Z -> V csh_expansion).

Definition pattern_removal (index : nat) (m : parameter_form) (value : str) (q : csh_quote) (out : csh_expansion) : V csh_expansion :=
  let@ expanded := range_ (Some index) (pm_operand m) (pm_end m) (empty_expansion CSH_EXPAND_PATTERN) CSH_EXPAND_PARAMETER 1 in
  let@ patterns := expand_pattern expanded in
  let@ text := (match patterns with
    | [] => let@ _ := vmalloc in vret []
    | [p] => vret p
    | _ => vcode CSH_EXPAND_INVALID
    end) in
  let@ rest := vopt (remove_pattern value text (pm_op m =? ch "%") (pm_longest m)) in
  scalar out rest q CSH_EXPAND_PARAMETER.

(** The operators - + = and ?. *)
Definition parameter_word (index : nat) (m : parameter_form) (value : str) (is_set : bool) (q : csh_quote) (out : csh_expansion) : V csh_expansion :=
  let op := pm_op m in
  let use_word := xorb (negb is_set || (pm_colon m && bool_decide (value = []))) (op =? ch "+") in
  if negb use_word then scalar out (if op =? ch "+" then [] else value) q CSH_EXPAND_PARAMETER else
  if (op =? ch "-") || (op =? ch "+") then
    let@ empty := vopt (empty_operand raw (pm_operand m) (pm_end m)) in
    if empty then scalar out [] q CSH_EXPAND_PARAMETER
    else range_ (Some index) (pm_operand m) (pm_end m) out CSH_EXPAND_PARAMETER 1
  else
    let@ expanded := range_ (Some index) (pm_operand m) (pm_end m) (empty_expansion CSH_EXPAND_ASSIGNMENT) CSH_EXPAND_PARAMETER 1 in
    let@ text := flatten expanded in
    if op =? ch "?" then
      vfail CSH_EXPAND_UNSET (Some index) (if (pm_operand m =? pm_end m)%nat then bs "parameter is unset or empty" else text)
    else
      let@ _ := assign (pm_name m) text in
      scalar out text q CSH_EXPAND_PARAMETER.

Definition parameter_expansion (index : nat) (out : csh_expansion) : V csh_expansion :=
  let@ f := fragment_at index in
  let@ m := parameter_syntax f in
  let q := fr_quote f in
  let op := pm_op m in
  let first := hd 0 (pm_name m) in
  if (first =? ch "@") || (first =? ch "*") then
    if pm_length m || negb (op =? 0) then vcode CSH_EXPAND_INVALID else positional out (first =? ch "*") q
  else
    let@ (value, is_set) := parameter_value (pm_name m) in
    let@ s := get_state in
    let removal := (op =? ch "#") || (op =? ch "%") in
    if negb is_set && opt_on (options (csh_state_get_info s)) CSH_OPT_NOUNSET && (pm_length m || (op =? 0) || removal)
    then vfail CSH_EXPAND_UNSET (Some index) (pm_name m) else
    if pm_length m then
      let@ count := vopt (count_characters (S (length value)) value) in
      scalar out (digits 20 (Z.of_nat count) []) q CSH_EXPAND_PARAMETER
    else if op =? 0 then scalar out value q CSH_EXPAND_PARAMETER
    else if removal then pattern_removal index m value q out
    else parameter_word index m value is_set q out.

Definition parameter (index : nat) (out : csh_expansion) : V csh_expansion :=
  reporting (parameter_expansion index out) (Some index) (bs "parameter expansion failed").

(** [csh_arith_eval] with its own stack checks. *)
Definition evaluate (text : str) : V (csh_arith_result * option Z) := fun w =>
  match csh_arith_eval (vs_state w) (Some text) (hd [] (vs_arithmetic w)) (vs_proc w) with
  | None => (VFault, w)
  | Some (r, value, s, p) => (VDone (r, value), mk_work s (vs_error w) (vs_stack w) (tail (vs_arithmetic w)) p (vs_user w))
  end.

Definition arithmetic_expansion (index : nat) (out : csh_expansion) : V csh_expansion :=
  let@ f := fragment_at index in
  let@ end_ := vopt (trim_delimiters raw (fr_begin f) (fr_end f) 2) in
  match end_ with
  | None => vcode CSH_EXPAND_INVALID
  | Some end_ =>
      let@ (_, p) := next_byte (fr_begin f) end_ in
      let@ (_, p) := next_byte p end_ in
      let@ (_, p) := next_byte p end_ in
      reporting (
        let@ expression := range_ (Some index) p end_ (empty_expansion CSH_EXPAND_ASSIGNMENT) CSH_EXPAND_LITERAL 0 in
        let@ text := flatten expression in
        let@ (r, value) := evaluate text in
        match r with
        | CSH_ARITH_OK =>
            let@ value := vopt value in scalar out (print_long value) (fr_quote f) CSH_EXPAND_ARITHMETIC
        | CSH_ARITH_RESOURCE => vfail CSH_EXPAND_RESOURCE (Some index) (bs "arithmetic stack exhausted")
        | CSH_ARITH_NOMEM => vcode CSH_EXPAND_NOMEM
        | CSH_ARITH_READONLY => vcode CSH_EXPAND_READONLY
        | CSH_ARITH_SYNTAX | CSH_ARITH_RANGE => vcode CSH_EXPAND_ARITHMETIC_ERROR
        end) (Some index) (bs "arithmetic expansion failed")
  end.

Definition substitution (index : nat) (out : csh_expansion) : V csh_expansion :=
  let@ f := fragment_at index in
  match substitute with
  | None => vfail CSH_EXPAND_DEFERRED (Some index) (bs "command substitution requires an executor")
  | Some callback =>
      let@ r := (fun w =>
        let '(r, s, e, p, u) := callback (vs_state w) (vs_error w) (vs_proc w) (vs_user w) word index in
        (VDone r, mk_work s e (vs_stack w) (vs_arithmetic w) p u)) in
      match r with
      | VFault => vfault
      | VFail code => vcode code
      | VDone (Some bytes) =>
          if (slen bytes =? SIZE_MAX) || in_set 0 bytes
          then vfail CSH_EXPAND_INVALID (Some index) (bs "invalid command substitution bytes")
          else append out bytes (fr_quote f) CSH_EXPAND_SUBSTITUTION (quoted (fr_quote f))
      | VDone None => vfail CSH_EXPAND_INVALID (Some index) (bs "invalid command substitution bytes")
      end
  end.

(** The text of one fragment up to [stop]; the output and the position reached,
    and whether a tilde may follow. *)
Fixpoint text_loop (fuel : nat) (parent : option nat) (q : csh_quote) (p run stop end_ : nat) (origin : csh_expand_origin)
    (tilde : Z) (tilde_ok : bool) (out : csh_expansion) : V (csh_expansion * nat * bool) :=
  match fuel with
  | O => vfault
  | S n =>
      let flush := if (run <? p)%nat then let@ s := bytes_at run (p - run) in append out s q origin (quoted q) else vret out in
      if negb (p <? stop)%nat then
        let@ out := (if (run <? stop)%nat then let@ s := bytes_at run (stop - run) in append out s q origin (quoted q) else vret out) in
        vret (out, p, tilde_ok)
      else
      let@ b := byte_at p in
      let step run out :=
        let tilde_ok := negb (Z.land tilde 2 =? 0) && negb (quoted q) && (b =? ch ":") in
        let width := csh_character_length (take (stop - p) (drop p raw)) true true in
        text_loop n parent q (p + width) run stop end_ origin tilde tilde_ok out in
      if tilde_ok && negb (quoted q) && (b =? ch "~") then
        let@ out := flush in
        let@ (out, after) := tilde_prefix parent p end_ out (negb (Z.land tilde 2 =? 0)) in
        if negb (after =? p)%nat then text_loop n parent q after after stop end_ origin tilde false out
        else step p out
      else step run out
  end.

Fixpoint has_content (fuel i limit : nat) : V bool :=
  match fuel with
  | O => vfault
  | S n =>
      if (limit <=? i)%nat then vret false else
      let@ f := fragment_at i in
      let@ j := next_at i in
      let@ rest := has_content n j limit in
      vret (negb (bool_decide (fr_kind f = CSH_FRAGMENT_CONTINUATION)) || rest)
  end.

(** A fragment other than text and continuations. *)
Definition whole_fragment (i : nat) (f : csh_fragment) (origin : csh_expand_origin) (out : csh_expansion) : V csh_expansion :=
  match fr_kind f with
  | CSH_FRAGMENT_QUOTED =>
      if bool_decide (fr_quote f = CSH_QUOTE_DOLLAR_SINGLE) then
        let@ text := vopt (decoded !! i) in
        let@ text := vopt text in
        scalar out text (fr_quote f) origin
      else
        let@ limit := next_at i in
        let@ content := has_content (S (length (tk_fragments word))) (S i) limit in
        if content then range_ (Some i) (S (fr_begin f)) (fr_end f - 1) out origin 0
        else scalar out [] (fr_quote f) origin
  | CSH_FRAGMENT_ESCAPE =>
      let@ s := bytes_at (S (fr_begin f)) (fr_end f - fr_begin f - 1) in
      append out s CSH_QUOTE_SINGLE origin true
  | CSH_FRAGMENT_PARAMETER => parameter i out
  | CSH_FRAGMENT_ARITHMETIC => arithmetic_expansion i out
  | CSH_FRAGMENT_COMMAND | CSH_FRAGMENT_BACKQUOTE => substitution i out
  | CSH_FRAGMENT_TEXT | CSH_FRAGMENT_CONTINUATION => vcode CSH_EXPAND_INVALID
  end.

Fixpoint fragments_loop (fuel i limit : nat) (parent : option nat) (cursor end_ : nat) (origin : csh_expand_origin)
    (tilde : Z) (tilde_ok : bool) (out : csh_expansion) : V csh_expansion :=
  match fuel with
  | O => vfault
  | S n =>
      if (limit <=? i)%nat then vret out else
      let@ f := fragment_at i in
      let go cursor tilde_ok out :=
        let@ j := next_at i in fragments_loop n j limit parent cursor end_ origin tilde tilde_ok out in
      if (fr_end f <=? cursor)%nat || (end_ <=? fr_begin f)%nat then go cursor tilde_ok out else
      let start := if (fr_begin f <? cursor)%nat then cursor else fr_begin f in
      let stop := if (end_ <? fr_end f)%nat then end_ else fr_end f in
      match fr_kind f with
      | CSH_FRAGMENT_TEXT =>
          let@ (out, p, tilde_ok) := text_loop (S (stop - start)) parent (fr_quote f) start start stop end_ origin tilde tilde_ok out in
          go (if (stop <? p)%nat then p else stop) tilde_ok out
      | CSH_FRAGMENT_CONTINUATION => go stop tilde_ok out
      | _ =>
          if negb (start =? fr_begin f)%nat || negb (stop =? fr_end f)%nat
          then vfail CSH_EXPAND_INVALID (Some i) (bs "partial expansion fragment") else
          let@ out := whole_fragment i f origin out in
          go stop false out
      end
  end.

Definition range_body (parent : option nat) (begin end_ : nat) (out : csh_expansion) (origin : csh_expand_origin) (tilde : Z) : V csh_expansion :=
  let@ limit := child_limit parent in
  let@ ok := vstack in
  if negb ok then vfail CSH_EXPAND_RESOURCE parent (bs "expansion stack exhausted") else
  fragments_loop (S (length (tk_fragments word))) (first_child parent) limit parent begin end_ origin tilde (negb (tilde =? 0)) out.
End Nested.

Fixpoint range (fuel : nat) (parent : option nat) (begin end_ : nat) (out : csh_expansion) (origin : csh_expand_origin) (tilde : Z) : V csh_expansion :=
  match fuel with
  | O => vfault
  | S n => range_body (range n) parent begin end_ out origin tilde
  end.
End Work.

(** ** Structure of the token *)

(** Delimiters must also be sound for records that other code builds. *)
Definition fragment_syntax `{Locale} (raw : str) (f : csh_fragment) : option bool :=
  let from := fr_begin f in
  let to := fr_end f in
  let closes (b : byte) := match raw !! (to - 1)%nat with Some c => Some (c =? b) | None => None end in
  let next p := logical raw p to in
  match fr_kind f with
  | CSH_FRAGMENT_TEXT => Some true
  | CSH_FRAGMENT_CONTINUATION =>
      if negb (to - from =? 2)%nat then Some false else
      match raw !! from, raw !! S from with
      | Some b, Some c => Some ((b =? ch "\") && (c =? 10))
      | _, _ => None
      end
  | CSH_FRAGMENT_ESCAPE =>
      if negb (2 <=? to - from)%nat then Some false else
      match raw !! from with
      | None => None
      | Some b =>
          if negb (b =? ch "\") then Some false else
          match slice raw (S from) (to - from - 1) with
          | Some s => Some (csh_character_length s true true =? to - from - 1)%nat
          | None => None
          end
      end
  | CSH_FRAGMENT_QUOTED =>
      match fr_quote f with
      | CSH_QUOTE_DOLLAR_SINGLE =>
          match next from with
          | None => None
          | Some (b, p) =>
              if negb (b =? ch "$") then Some false else
              match next p with
              | None => None
              | Some (b, p) => if (b =? ch "'") && (p <? to)%nat then closes (ch "'") else Some false
              end
          end
      | q =>
          let b := match q with CSH_QUOTE_SINGLE => ch "'" | CSH_QUOTE_DOUBLE => 34 | _ => -1 end in
          match raw !! from with Some c => if c =? b then closes b else Some false | None => None end
      end
  | CSH_FRAGMENT_BACKQUOTE =>
      match raw !! from with Some c => if c =? ch "`" then closes (ch "`") else Some false | None => None end
  | CSH_FRAGMENT_PARAMETER =>
      match next from with
      | None => None
      | Some (b, p) =>
          if negb (b =? ch "$") then Some false else
          match next p with
          | None => None
          | Some (b, p) =>
              if b =? ch "{" then if (p <? to)%nat then closes (ch "}") else Some false
              else Some (name_char b || special b)
          end
      end
  | CSH_FRAGMENT_COMMAND =>
      match next from with
      | None => None
      | Some (b, p) =>
          if negb (b =? ch "$") then Some false else
          match next p with
          | None => None
          | Some (b, p) => if (b =? ch "(") && (p <? to)%nat then closes (ch ")") else Some false
          end
      end
  | CSH_FRAGMENT_ARITHMETIC =>
      match trim_delimiters raw from to 2 with
      | None => None
      | Some None => Some false
      | Some (Some to) =>
          match logical raw from to with
          | None => None
          | Some (b, p) =>
              if negb (b =? ch "$") then Some false else
              match logical raw p to with
              | None => None
              | Some (b, p) =>
                  if negb (b =? ch "(") then Some false else
                  match logical raw p to with Some (b, _) => Some (b =? ch "(") | None => None end
              end
          end
      end
  end.

(** A continuation between the dollar and the parenthesis of a command. *)
Definition command_continuation (raw : str) (parent child : csh_fragment) : option bool :=
  if negb (bool_decide (fr_kind child = CSH_FRAGMENT_CONTINUATION)) then Some false else
  match logical raw (fr_begin parent) (fr_end parent) with
  | None => None
  | Some (b, p) =>
      if negb (b =? ch "$") then Some false else
      match logical raw p (fr_end parent) with
      | None => None
      | Some (b, p) => Some ((b =? ch "(") && (fr_end child <=? p)%nat)
      end
  end.

Section Word.
Context `{Locale} `{Files} `{Users} `{LocaleDb}.
Context (word : csh_token) (substitute : option substitute_callback).

(** Closes the subtrees that end before fragment [i]. *)
Fixpoint close_subtrees (stack : list nat) (i : nat) (parent : option nat) (previous : nat) (next : list (option nat))
    : V (list nat * nat * list (option nat)) :=
  match stack with
  | [] => vret ([], previous, next)
  | top :: rest =>
      if bool_decide (parent = Some top) then vret (stack, previous, next) else
      let@ f := fragment_at word top in
      close_subtrees rest i parent (fr_end f) (<[top := Some i]> next)
  end.

Fixpoint close_all (stack : list nat) (count : nat) (next : list (option nat)) : list (option nat) :=
  match stack with [] => next | top :: rest => close_all rest count (<[top := Some count]> next) end.

(** Whether the parent allows the child, which is in its place. *)
Definition allowed_in (parent : option csh_fragment) (f : csh_fragment) : option bool :=
  match parent with
  | None => Some true
  | Some p =>
      match fr_kind p with
      | CSH_FRAGMENT_TEXT | CSH_FRAGMENT_ESCAPE | CSH_FRAGMENT_CONTINUATION => Some false
      | CSH_FRAGMENT_COMMAND => command_continuation (raw word) p f
      | _ => Some true
      end
  end.

Definition well_placed (parent : option csh_fragment) (f : csh_fragment) (previous : nat) : bool :=
  match parent with
  | None => bool_decide (fr_parent f = None)
  | Some p => (fr_begin p <=? fr_begin f)%nat && (fr_end f <=? fr_end p)%nat
  end &&
  (previous <=? fr_begin f)%nat && (fr_begin f <=? fr_end f)%nat && (fr_end f <=? length (raw word))%nat &&
  (bool_decide (fr_kind f = CSH_FRAGMENT_TEXT) || (2 <=? fr_end f - fr_begin f)%nat) &&
  (negb (bool_decide (fr_kind f = CSH_FRAGMENT_ARITHMETIC)) || (5 <=? fr_end f - fr_begin f)%nat).

(** The validation of the fragments from [i] on. *)
Fixpoint validate (l : list csh_fragment) (i : nat) (stack : list nat) (previous : nat) (next : list (option nat))
    : V (list nat * list (option nat)) :=
  match l with
  | [] => vret (stack, next)
  | f :: rest =>
      let@ (stack, previous, next) := close_subtrees stack i (fr_parent f) previous next in
      let@ parent := (match stack with [] => vret None | top :: _ => let@ p := fragment_at word top in vret (Some p) end) in
      if negb (well_placed parent f previous) then vfail word CSH_EXPAND_INVALID (Some i) (bs "invalid structured word") else
      let@ syntax := vopt (fragment_syntax (raw word) f) in
      let@ allowed := (if syntax then vopt (allowed_in parent f) else vret false) in
      if negb allowed then vfail word CSH_EXPAND_INVALID (Some i) (bs "invalid fragment syntax") else
      validate rest (S i) (i :: stack) (fr_begin f) next
  end.

(** The texts of the dollar-single-quoted fragments from [i] on. *)
Fixpoint decode_all (l : list csh_fragment) (i : nat) (decoded : list (option str)) : V (list (option str)) :=
  match l with
  | [] => vret decoded
  | f :: rest =>
      if negb (bool_decide (fr_kind f = CSH_FRAGMENT_QUOTED) && bool_decide (fr_quote f = CSH_QUOTE_DOLLAR_SINGLE))
      then decode_all rest (S i) decoded else
      let invalid := vfail word CSH_EXPAND_INVALID (Some i) (bs "invalid dollar-single-quote region") in
      let@ (b, p) := next_byte word (fr_begin f) (fr_end f) in
      if negb (b =? ch "$") then invalid else
      let@ (b, p) := next_byte word p (fr_end f) in
      if negb (b =? ch "'") || negb (p <? fr_end f)%nat then invalid else
      let@ c := byte_at word (fr_end f - 1) in
      if negb (c =? ch "'") then invalid else
      let@ s := bytes_at word p (fr_end f - p - 1) in
      let@ (r, text) := vhost (csh_quote_decode s) in
      match r, text with
      | CSH_QUOTE_OK, Some text => decode_all rest (S i) (<[i := Some text]> decoded)
      | CSH_QUOTE_NOMEM, _ => vfail word CSH_EXPAND_NOMEM (Some i) (bs "dollar-single-quote decoding failed")
      | _, _ => vfail word CSH_EXPAND_INVALID (Some i) (bs "dollar-single-quote decoding failed")
      end
  end.

(** The ends of the subtrees and the decoded texts. *)
Definition prepare : V (list (option nat) * list (option str)) :=
  let l := tk_fragments word in
  let count := length l in
  if negb (bool_decide (tk_kind word = CSH_TOKEN_WORD)) || in_set 0 (raw word) then vcode CSH_EXPAND_INVALID else
  if SIZE_MAX / 8 - 1 <? Z.of_nat count then vcode CSH_EXPAND_NOMEM else
  let@ a := vhost malloc in
  let@ b := vhost malloc in
  let@ c := vhost malloc in
  if negb (a && b && c) then vcode CSH_EXPAND_NOMEM else
  let@ (stack, next) := validate l 0 [] 0 (replicate count None) in
  let next := close_all stack count next in
  let@ decoded := decode_all l 0 (replicate count None) in
  vret (next, decoded).

Definition context_tilde (c : csh_expand_context) : Z :=
  match c with CSH_EXPAND_HEREDOC => 0 | CSH_EXPAND_ASSIGNMENT => 3 | _ => 1 end.

(** The checkpoint is taken once the token is known to be sound. *)
Definition expand_checked (context : csh_expand_context) : V csh_expansion :=
  let@ (next, decoded) := prepare in
  let@ s := get_state in
  let@ (r, checkpoint) := vhost (csh_state_save s) in
  if negb (bool_decide (r = CSH_STATE_OK)) then vcode CSH_EXPAND_NOMEM else
  let@ r := vtry (range word substitute next decoded (S (length (tk_fragments word))) None 0 (length (raw word))
    (empty_expansion context) CSH_EXPAND_LITERAL (context_tilde context)) in
  match r with
  | inr out => let@ _ := vhost (csh_state_checkpoint_destroy checkpoint) in vret out
  | inl code =>
      let@ s := get_state in
      let@ (_, s) := vhost (csh_state_restore s checkpoint) in
      let@ _ := put_state s in vcode code
  end.
End Word.

(** [options] is [None] for NULL; so is the error record of the work, which the
    call clears first. *)
Definition csh_expand_word `{Locale} `{Files} `{Users} `{LocaleDb} (word : csh_token) (options : option csh_expand_options) : V csh_expansion :=
  let@ e := get_error in
  let@ _ := put_error (match e with Some _ => Some (mk_expand_error None None no_position []) | None => None end) in
  let context := match options with Some o => eo_context o | None => CSH_EXPAND_ARGUMENT end in
  reporting word (expand_checked word (options ≫= eo_substitute) context) None (bs "word expansion failed").
