(* ===== verification/ValueLogic.v ===== *)
(** * The expansion of values: reasoning

    A total logic for the computations of [V]: no fault, a state that stays
    well formed with the functions and the reference counts it had, and an
    error record that says what failed.  Then the readers of a spelling, which
    stay inside of it. *)

From stdpp Require Import base list gmap strings.
From S2P Require Import Prelude Output Numbers Options Character Quote Alias State StateCopy Arithmetic ArithmeticTheorems Expansion Pathname Fields Process Lexer Values.

(** ** What a computation keeps *)

(** The values of the aliases are bytes: what a parser may read. *)
Definition alias_bytes (table : option csh_aliases) : Prop := from_option (Forall (fun a => Forall is_byte (a_value a))) True table.

(** What an expansion does not change: it works on variables. *)
Definition fixed (s : csh_state) := (functions s, arguments s, info s).

Lemma fixed_functions s s' : fixed s' = fixed s -> functions s' = functions s.
Proof. by intros [= -> _ _]. Qed.

Record held (w : expansion_work) : Prop := mk_held {
  h_state : state_wf (vs_state w); h_counts : counts_positive (p_functions (vs_proc w)); h_aliases : alias_bytes (aliases (vs_state w)) }.

(** The error record, where there is one, has nothing or the code [c]. *)
Definition informed (c : option csh_expand_result) (w : expansion_work) : Prop :=
  from_option (fun e => ee_code e = None \/ ee_code e = c) True (vs_error w).

Record kept (w w' : expansion_work) : Prop := mk_kept {
  k_held : held w'; k_fixed : fixed (vs_state w') = fixed (vs_state w);
  k_counts : p_functions (vs_proc w') = p_functions (vs_proc w);
  k_error : vs_error w' = None <-> vs_error w = None }.

Lemma kept_refl w : held w -> kept w w.
Proof. by split. Qed.

Lemma kept_chain w1 w2 w3 : kept w1 w2 -> kept w2 w3 -> kept w1 w3.
Proof. intros [A1 A2 A3 A4] [B1 B2 B3 B4]. split; [done|congruence..|by rewrite B4]. Qed.

Lemma kept_same w w' : held w -> vs_state w' = vs_state w -> p_functions (vs_proc w') = p_functions (vs_proc w) ->
  vs_error w' = vs_error w -> kept w w'.
Proof. intros [H1 H2 H3] E1 E2 E3. split; [split|..]; rewrite ?E1, ?E2, ?E3; done. Qed.

Definition vsafe {A} (m : V A) (w : expansion_work) (Q : A -> expansion_work -> Prop) : Prop :=
  held w -> informed None w ->
  match m w with
  | (VFault, _) => False
  | (VFail c, w') => kept w w' /\ informed (Some c) w'
  | (VDone a, w') => kept w w' /\ informed None w' /\ Q a w'
  end.

Lemma informed_silent c w : informed None w -> informed c w.
Proof. unfold informed. destruct (vs_error w); simpl; tauto. Qed.

Section Rules.
Context {A : Type}.

Lemma vsafe_ret (a : A) w (Q : A -> expansion_work -> Prop) : Q a w -> vsafe (vret a) w Q.
Proof. intros H Hw Hi. split; [by apply kept_refl|done]. Qed.

Lemma vsafe_code c w (Q : A -> expansion_work -> Prop) : vsafe (vcode c) w Q.
Proof. intros Hw Hi. split; [by apply kept_refl|by apply informed_silent]. Qed.

(** What follows a step that kept [w]. *)
Lemma vsafe_after w w1 (m : V A) (Q : A -> expansion_work -> Prop) : kept w w1 -> informed None w1 -> vsafe m w1 Q ->
  match m w1 with
  | (VFault, _) => False
  | (VFail c, w') => kept w w' /\ informed (Some c) w'
  | (VDone a, w') => kept w w' /\ informed None w' /\ Q a w'
  end.
Proof.
  intros K I H. specialize (H (k_held _ _ K) I). destruct (m w1) as [[|c|a] w2]; [done| |].
  - destruct H as [K2 I2]. split; [by eapply kept_chain|done].
  - destruct H as (K2 & I2 & H). split; [by eapply kept_chain|done].
Qed.

Lemma vsafe_bind {B} (m : V B) (f : B -> V A) w (Q : A -> expansion_work -> Prop) :
  vsafe m w (fun b w' => vsafe (f b) w' Q) -> vsafe (vbind m f) w Q.
Proof.
  intros H Hw Hi. specialize (H Hw Hi). unfold vbind. destruct (m w) as [[|c|b] w1]; [done..|].
  destruct H as (K & I & H). by apply vsafe_after.
Qed.

Lemma vsafe_mono (m : V A) w (P Q : A -> expansion_work -> Prop) :
  vsafe m w P -> (forall a w', kept w w' -> P a w' -> Q a w') -> vsafe m w Q.
Proof.
  intros H HQ Hw Hi. specialize (H Hw Hi). destruct (m w) as [[|c|a] w1]; [done..|].
  destruct H as (K & I & H). auto.
Qed.

Lemma vsafe_opt (o : option A) w (Q : A -> expansion_work -> Prop) : (exists a, o = Some a /\ Q a w) -> vsafe (vopt o) w Q.
Proof. intros (a & -> & H). by apply vsafe_ret. Qed.

Lemma vsafe_held (m : V A) w (Q : A -> expansion_work -> Prop) : (held w -> vsafe m w Q) -> vsafe m w Q.
Proof. intros H Hw. by apply H. Qed.
End Rules.

Lemma vsafe_if {A} (b : bool) (m n : V A) w Q : (b = true -> vsafe m w Q) -> (b = false -> vsafe n w Q) -> vsafe (if b then m else n) w Q.
Proof. destruct b; auto. Qed.

Lemma vsafe_state w (Q : csh_state -> expansion_work -> Prop) : Q (vs_state w) w -> vsafe get_state w Q.
Proof. intros H Hw Hi. split; [by apply kept_refl|done]. Qed.

Lemma vsafe_error w (Q : option csh_expand_error -> expansion_work -> Prop) : Q (vs_error w) w -> vsafe get_error w Q.
Proof. intros H Hw Hi. split; [by apply kept_refl|done]. Qed.

Lemma vsafe_stack w (Q : bool -> expansion_work -> Prop) :
  (forall b w', vs_state w' = vs_state w -> Q b w') -> vsafe vstack w Q.
Proof. intros H Hw Hi. unfold vstack. destruct (vs_stack w); (split; [by apply kept_same|split; [done|by apply H]]). Qed.

(** Code that keeps the reference counts. *)
Lemma vsafe_host {A} (m : M A) w (Q : A -> expansion_work -> Prop) :
  post m (vs_proc w) (fun a p' => p_functions p' = p_functions (vs_proc w) /\
    (forall w', vs_state w' = vs_state w -> vs_proc w' = p' -> Q a w')) ->
  vsafe (vhost m) w Q.
Proof.
  unfold post, vsafe, vhost. destruct (m (vs_proc w)) as [a p']. intros [E H] Hw Hi.
  split; [by apply kept_same|split; [done|by apply H]].
Qed.

Lemma vsafe_malloc w (Q : unit -> expansion_work -> Prop) :
  (forall w', vs_state w' = vs_state w -> Q tt w') -> vsafe vmalloc w Q.
Proof.
  intros H. unfold vmalloc. apply vsafe_bind, vsafe_host. apply post_malloc. intros b p (_ & _ & _ & E) _. split; [done|].
  intros w1 E1 _. destruct b; [apply vsafe_ret; auto|apply vsafe_code].
Qed.

(** Writing another state with the same functions and well formed. *)
Lemma vsafe_put s w (Q : unit -> expansion_work -> Prop) :
  (held w -> state_wf s /\ fixed s = fixed (vs_state w) /\ aliases s = aliases (vs_state w)) -> (forall w', vs_state w' = s -> vs_proc w' = vs_proc w -> Q tt w') -> vsafe (put_state s) w Q.
Proof.
  intros Hs H Hw Hi. destruct (Hs Hw) as (H1 & H2 & H3). destruct Hw as [Hw1 Hw2 Hw3]. split; [|split; [done|by apply H]].
  split; [split; simpl; [done|done|by rewrite H3]|done..].
Qed.

Lemma vsafe_tell e w (Q : unit -> expansion_work -> Prop) :
  (e = None <-> vs_error w = None) -> from_option (fun e => ee_code e = None) True e ->
  (forall w', vs_state w' = vs_state w -> Q tt w') -> vsafe (put_error e) w Q.
Proof.
  intros H1 H2 H [Hw1 Hw2 Hw3] Hi. split; [by split|]. split; [|by apply H]. unfold informed. simpl. destruct e; simpl in *; tauto.
Qed.

Lemma vsafe_vfail word {A} c fragment message w (Q : A -> expansion_work -> Prop) : vsafe (vfail word c fragment message) w Q.
Proof.
  intros [Hw1 Hw2 Hw3] Hi. unfold vfail, get_error, put_error, vbind, vret, vcode. destruct (vs_error w) as [e|] eqn:E; simpl.
  - split; [|by right]. split; [by split|done|done|]. simpl. by rewrite E.
  - split; [by apply kept_refl|]. unfold informed. by rewrite E.
Qed.

Lemma vsafe_reporting word {A} (m : V A) fragment message w (Q : A -> expansion_work -> Prop) :
  vsafe m w Q -> vsafe (reporting word m fragment message) w Q.
Proof.
  intros H Hw Hi. specialize (H Hw Hi). unfold reporting, vtry, vbind. destruct (m w) as [[|c|a] w1]; [done| |done].
  destruct H as [K I]. unfold get_error. destruct (vs_error w1) as [e|] eqn:E; [|by split].
  case_bool_decide as Hc; [|by split].
  unfold vfail, vbind, get_error, put_error, vcode. rewrite E. cbn beta iota. destruct K as [K1 K2 K3 K4]. destruct K1 as [K1 K1' K1'']. split; [|by right].
  split; [by split|done|done|]. simpl. split; [discriminate|]. intros Hn. apply K4 in Hn. congruence.
Qed.

(** One step of a computation. *)
Ltac vstep := cbv beta iota; match goal with
  | |- vsafe (vbind _ _) _ _ => apply vsafe_bind
  | |- vsafe (vret _) _ _ => apply vsafe_ret
  | |- vsafe (vcode _) _ _ => apply vsafe_code
  | |- vsafe (vfail _ _ _ _) _ _ => apply vsafe_vfail
  | |- vsafe get_state _ _ => apply vsafe_state
  | |- vsafe get_error _ _ => apply vsafe_error
  | |- vsafe vmalloc _ _ => apply vsafe_malloc; let w := fresh "w" in let E := fresh "Es" in intros w E
  | |- vsafe vstack _ _ => apply vsafe_stack; let w := fresh "w" in let E := fresh "Es" in intros ? w E
  | |- vsafe (reporting _ _ _ _) _ _ => apply vsafe_reporting
  | |- vsafe (let '(_, _) := ?x in _) _ _ => let E := fresh "E" in destruct x eqn:E
  | |- vsafe (if ?b then _ else _) _ _ => apply vsafe_if; let E := fresh "E" in intros E
  end.

(** ** Readers of a spelling *)

(** What [logical] gives: a byte of the spelling, or its end. *)
Definition within (p end_ : nat) (b : byte) (q : nat) : Prop := (p < q <= end_)%nat \/ b = -1 /\ (p <= q)%nat /\ (end_ <= q)%nat.

Lemma logical_loop_spec raw end_ fuel p : (end_ <= length raw)%nat -> (end_ - p < fuel)%nat ->
  exists b q, logical_loop fuel raw p end_ = Some (b, q) /\ within p end_ b q.
Proof.
  intros He. revert p. induction fuel as [|fuel IH]; intros p Hf; [lia|]. simpl.
  destruct (Nat.ltb_spec (S p) end_) as [H|H].
  - destruct (lookup_lt_is_Some_2 raw p) as [b Hb]; [lia|]. destruct (lookup_lt_is_Some_2 raw (S p)) as [c Hc]; [lia|].
    rewrite Hb, Hc. destruct (_ && _).
    + destruct (IH (p + 2)%nat) as (b' & q & -> & [?|?]); [lia|..]; do 2 eexists; (split; [done|]); unfold within; lia.
    + do 2 eexists. split; [done|]. left. lia.
  - destruct (Nat.ltb_spec p end_).
    + destruct (lookup_lt_is_Some_2 raw p) as [b Hb]; [lia|]. rewrite Hb. do 2 eexists. split; [done|]. left. lia.
    + do 2 eexists. split; [done|]. right. lia.
Qed.

Lemma logical_spec raw p end_ : (end_ <= length raw)%nat -> exists b q, logical raw p end_ = Some (b, q) /\ within p end_ b q.
Proof. intros H. apply logical_loop_spec; [done|lia]. Qed.

Lemma vsafe_next word p end_ w (Q : byte * nat -> expansion_work -> Prop) : (end_ <= length (raw word))%nat ->
  (forall b q, logical (raw word) p end_ = Some (b, q) -> within p end_ b q -> Q (b, q) w) -> vsafe (next_byte word p end_) w Q.
Proof. intros He H. destruct (logical_spec (raw word) p end_ He) as (b & q & E & Hw). apply vsafe_opt. eauto. Qed.

Lemma vsafe_byte word p w (Q : byte -> expansion_work -> Prop) : (p < length (raw word))%nat ->
  (forall b, raw word !! p = Some b -> Q b w) -> vsafe (byte_at word p) w Q.
Proof. intros Hp H. destruct (lookup_lt_is_Some_2 _ _ Hp) as [b E]. apply vsafe_opt. eauto. Qed.

Lemma slice_spec raw p n : (p + n <= length raw)%nat -> slice raw p n = Some (take n (drop p raw)).
Proof. intros H. unfold slice. by rewrite (proj2 (Nat.leb_le _ _) H). Qed.

Lemma vsafe_bytes word p n w (Q : str -> expansion_work -> Prop) : (p + n <= length (raw word))%nat ->
  Q (take n (drop p (raw word))) w -> vsafe (bytes_at word p n) w Q.
Proof. intros Hp H. apply vsafe_opt. eexists. by rewrite slice_spec. Qed.

Lemma name_char_end b : name_char b = true -> b <> -1.
Proof. by intros H ->. Qed.

Lemma digit_end b : digit b = true -> b <> -1.
Proof. by intros H ->. Qed.

Lemma special_end b : special b = true -> b <> -1.
Proof. by intros H ->. Qed.

Lemma logical_while_total p raw end_ fuel at_ : (forall b, p b = true -> b <> -1) -> (end_ <= length raw)%nat -> (end_ - at_ < fuel)%nat ->
  is_Some (logical_while fuel p raw at_ end_).
Proof.
  intros Hp He. revert at_. induction fuel as [|fuel IH]; intros at_ Hf; [lia|]. simpl.
  destruct (logical_spec raw at_ end_ He) as (b & q & -> & [Hw|[-> _]]); destruct (p _) eqn:E; eauto.
  - apply IH. lia.
  - by apply Hp in E.
Qed.

Lemma length_parameter_total raw begin end_ : (end_ <= length raw)%nat -> is_Some (length_parameter raw begin end_).
Proof.
  intros He. unfold length_parameter. destruct (logical_spec raw begin end_ He) as (b & at_ & -> & _).
  assert (forall o : option (byte * nat), is_Some o -> is_Some (match o with Some (b, _) => Some (b =? -1) | None => None end)) as Hx.
  { intros o [[? ?] ->]. eauto. }
  apply Hx. destruct (name_start b); [apply logical_while_total; [apply name_char_end|done|lia]|].
  destruct (digit b); [apply logical_while_total; [apply digit_end|done|lia]|]. destruct (special b); [|eauto].
  destruct (logical_spec raw at_ end_ He) as (? & ? & -> & _). eauto.
Qed.

Lemma empty_operand_total raw begin end_ : (end_ <= length raw)%nat -> is_Some (empty_operand raw begin end_).
Proof. intros He. unfold empty_operand. destruct (logical_spec raw begin end_ He) as (b & at_ & -> & _). eauto. Qed.

Lemma trim_continuations_spec raw begin fuel end_ : (end_ <= length raw)%nat -> (end_ - begin < fuel)%nat ->
  exists e, trim_continuations fuel raw begin end_ = Some e /\ (e <= end_)%nat.
Proof.
  revert end_. induction fuel as [|fuel IH]; intros end_ He Hf; [lia|]. cbn [trim_continuations].
  destruct (2 <=? end_ - begin)%nat eqn:E; [|eauto]. apply Nat.leb_le in E.
  destruct (lookup_lt_is_Some_2 raw (end_ - 2)) as [b Hb]; [lia|]. destruct (lookup_lt_is_Some_2 raw (end_ - 1)) as [c Hc]; [lia|].
  rewrite Hb, Hc. destruct (_ && _); [|eauto]. destruct (IH (end_ - 2)%nat) as (e & -> & ?); [lia..|]. exists e. split; [done|lia].
Qed.

Lemma trim_delimiters_spec raw begin count end_ : (end_ <= length raw)%nat ->
  exists o, trim_delimiters raw begin end_ count = Some o /\ (forall e, o = Some e -> (e <= end_)%nat).
Proof.
  revert end_. induction count as [|count IH]; intros end_ He; cbn [trim_delimiters]; [eexists; split; [done|]; intros e [= <-]; lia|].
  destruct (Nat.leb_spec end_ begin); [by eexists|]. destruct (lookup_lt_is_Some_2 raw (end_ - 1)) as [b Hb]; [lia|]. rewrite Hb.
  destruct (negb _); [by eexists|]. destruct (trim_continuations_spec raw begin (S (end_ - 1 - begin)) (end_ - 1)) as (e & -> & ?); [lia..|].
  destruct (IH e) as (o & -> & Ho); [lia|]. eexists. split; [done|]. intros e' E. specialize (Ho e' E). lia.
Qed.

(** ** Loops over characters *)

Section Characters.
Context {loc : Locale} {LL : LocaleLaws loc}.

Lemma count_characters_total fuel s : (length s < fuel)%nat -> is_Some (count_characters fuel s).
Proof.
  revert s. induction fuel as [|fuel IH]; intros s Hf; [lia|]. cbn [count_characters]. destruct s as [|b s]; [eauto|].
  pose proof (character_bytes_bound (b :: s) ltac:(done)) as Hb.
  destruct (IH (drop (character_bytes (b :: s)) (b :: s))) as [n ->]; [rewrite length_drop; lia|]. eauto.
Qed.

Lemma remove_loop_total `{Users} value pattern suffix longest fuel offset selected :
  (offset <= length value)%nat -> (length value - offset < fuel)%nat ->
  exists o, remove_loop fuel value pattern suffix longest offset selected = Some o.
Proof.
  revert offset selected. induction fuel as [|fuel IH]; intros offset selected Ho Hf; [lia|]. cbn [remove_loop].
  destruct (_ || _) eqn:E; [eauto|]. apply orb_false_iff in E as [_ E%Nat.eqb_neq].
  pose proof (character_bytes_bound (drop offset value)) as Hb. rewrite length_drop in Hb.
  apply IH; (destruct Hb; [intros Hn; apply (f_equal length) in Hn; rewrite length_drop in Hn; simpl in Hn; lia|lia]).
Qed.

Lemma remove_pattern_total `{Users} value pattern suffix longest : is_Some (remove_pattern value pattern suffix longest).
Proof.
  unfold remove_pattern. destruct (remove_loop_total value pattern suffix longest (S (length value)) 0 None) as [[o|] ->]; [lia|lia|eauto..].
Qed.
End Characters.
