(* ===== verification/ValueStructure.v ===== *)
(** * The expansion of values: the structure of a token

    What [prepare] establishes for any record that calls itself a token: every
    fragment lies in the spelling and has room for its delimiters, every
    subtree has its end, and every dollar-single-quoted region its text.  It
    reads nothing outside of the spelling on the way. *)

From stdpp Require Import base list gmap strings.
From S2P Require Import Prelude Output Numbers Options Character Quote Alias State StateCopy Arithmetic ArithmeticTheorems Expansion Pathname Fields Process Lexer Values ValueLogic.

(** A fragment lies in the spelling and has room for its delimiters. *)
Definition fragment_fits (raw : str) (f : csh_fragment) : Prop :=
  (fr_begin f <= fr_end f)%nat /\ (fr_end f <= length raw)%nat /\
  (fr_kind f <> CSH_FRAGMENT_TEXT -> (2 <= fr_end f - fr_begin f)%nat) /\
  (fr_kind f = CSH_FRAGMENT_ARITHMETIC -> (5 <= fr_end f - fr_begin f)%nat).

Record sound (word : csh_token) (next : list (option nat)) (decoded : list (option str)) : Prop := mk_sound {
  so_next : forall i, (i < length (tk_fragments word))%nat ->
    exists j, next !! i = Some (Some j) /\ (i < j <= length (tk_fragments word))%nat;
  so_fits : Forall (fragment_fits (raw word)) (tk_fragments word);
  so_decoded : forall i f, tk_fragments word !! i = Some f -> fr_kind f = CSH_FRAGMENT_QUOTED ->
    fr_quote f = CSH_QUOTE_DOLLAR_SINGLE -> exists text, decoded !! i = Some (Some text) }.

(** The walk has reached fragment [i]: the subtrees of [stack] are open. *)
Record open_subtrees (count i : nat) (stack : list nat) (next : list (option nat)) : Prop := mk_open {
  op_length : length next = count; op_reached : (i <= count)%nat;
  op_stack : Forall (fun j => j < i)%nat stack;
  op_next : forall j, (j < i)%nat -> j ∈ stack \/ exists k, next !! j = Some (Some k) /\ (j < k <= count)%nat }.

Lemma open_pop count i j k stack next : open_subtrees count i (j :: stack) next -> (i <= k <= count)%nat ->
  open_subtrees count i stack (<[j := Some k]> next).
Proof.
  intros [H1 H2 H3 H4] Hk. apply Forall_cons in H3 as [Hj H3]. split; [by rewrite length_insert|done|done|].
  intros j' Hj'. destruct (decide (j' = j)) as [->|Hne].
  - right. exists k. rewrite list_lookup_insert_eq by lia. split; [done|lia].
  - rewrite list_lookup_insert_ne by done. destruct (H4 j' Hj') as [[?|Hin]%elem_of_cons|?]; [done|by left|by right].
Qed.

Lemma open_push count i stack next : open_subtrees count i stack next -> (i < count)%nat -> open_subtrees count (S i) (i :: stack) next.
Proof.
  intros [H1 H2 H3 H4] Hi. split; [done|lia| |].
  - constructor; [lia|]. eapply Forall_impl; [exact H3|]. simpl. lia.
  - intros j Hj. destruct (decide (j = i)) as [->|?]; [left; by apply elem_of_cons; left|].
    destruct (H4 j) as [?|?]; [lia|left; by apply elem_of_cons; right|by right].
Qed.

Lemma close_all_next count stack next : open_subtrees count count stack next ->
  open_subtrees count count [] (close_all stack count next).
Proof.
  revert next. induction stack as [|j stack IH]; intros next H; simpl; [done|]. apply IH. eapply open_pop; [done|].
  destruct H as [_ H _ _]. lia.
Qed.

Section Structure.
Context {loc : Locale} {LL : LocaleLaws loc}.
Context (word : csh_token).

Abbreviation fragments := (tk_fragments word).
Abbreviation count := (length fragments).
Abbreviation fits := (fragment_fits (raw word)).

Lemma vsafe_fragment i w (Q : csh_fragment -> expansion_work -> Prop) : (i < count)%nat ->
  (forall f, fragments !! i = Some f -> Q f w) -> vsafe (fragment_at word i) w Q.
Proof. intros Hi H. destruct (lookup_lt_is_Some_2 _ _ Hi) as [f E]. apply vsafe_opt. eauto. Qed.

Lemma close_subtrees_safe stack i parent previous next w :
  open_subtrees count i stack next ->
  vsafe (close_subtrees word stack i parent previous next) w (fun '(stack', _, next') w' =>
    vs_state w' = vs_state w /\ open_subtrees count i stack' next' /\ stack' ⊆ stack).
Proof.
  revert previous next. induction stack as [|j stack IH]; intros previous next H; cbn [close_subtrees].
  { by vstep. }
  vstep; [by vstep|]. vstep. pose proof (Forall_inv (op_stack _ _ _ _ H)) as Hj. pose proof (op_reached _ _ _ _ H) as Hi. simpl in Hj.
  apply vsafe_fragment; [lia|]. intros f _. eapply vsafe_mono; [apply IH; eapply open_pop; [done|lia]|].
  intros [[stack' p'] next'] w' _ (H1 & H2 & H3). split; [done|]. split; [done|set_solver].
Qed.

(** The delimiters of a fragment that fits can be looked at. *)
Lemma closes_total (f : csh_fragment) b : fits f -> (1 <= fr_end f)%nat ->
  is_Some (match raw word !! (fr_end f - 1)%nat with Some c => Some (c =? b) | None => None end).
Proof.
  intros (_ & He & _ & _) H1. destruct (lookup_lt_is_Some_2 (raw word) (fr_end f - 1)) as [c ->]; [lia|eauto].
Qed.

Lemma fragment_syntax_total f : fits f -> is_Some (fragment_syntax (raw word) f).
Proof.
  intros Hf. pose proof Hf as (H1 & H2 & H3 & H4). unfold fragment_syntax.
  pose proof (fun p => logical_spec (raw word) p (fr_end f) H2) as HL.
  assert (fr_kind f <> CSH_FRAGMENT_TEXT -> forall b,
    is_Some (match raw word !! (fr_end f - 1)%nat with Some c => Some (c =? b) | None => None end)) as HC.
  { intros Hk b. apply closes_total; [done|]. specialize (H3 Hk). lia. }
  assert (fr_kind f <> CSH_FRAGMENT_TEXT -> is_Some (raw word !! fr_begin f)) as HB.
  { intros Hk. specialize (H3 Hk). apply lookup_lt_is_Some_2. lia. }
  destruct (fr_kind f) eqn:Ek; [eauto|..]; specialize (HC ltac:(done)); specialize (HB ltac:(done)); specialize (H3 ltac:(done)); destruct HB as [b0 HB].
  - destruct (fr_quote f); try (rewrite HB; destruct (_ =? _); by eauto).
    destruct (HL (fr_begin f)) as (b & p & -> & _). destruct (negb _); [eauto|]. destruct (HL p) as (b' & p' & -> & _). destruct (_ && _); eauto.
  - destruct (negb (2 <=? _)%nat); [eauto|]. rewrite HB. destruct (negb _); [eauto|]. rewrite slice_spec by lia. eauto.
  - destruct (negb _); [eauto|]. rewrite HB. destruct (lookup_lt_is_Some_2 (raw word) (S (fr_begin f))) as [c ->]; [lia|eauto].
  - destruct (HL (fr_begin f)) as (b & p & -> & _). destruct (negb _); [eauto|]. destruct (HL p) as (b' & p' & -> & _).
    destruct (_ =? _); [|eauto]. destruct (_ <? _)%nat; eauto.
  - destruct (HL (fr_begin f)) as (b & p & -> & _). destruct (negb _); [eauto|]. destruct (HL p) as (b' & p' & -> & _). destruct (_ && _); eauto.
  - destruct (trim_delimiters_spec (raw word) (fr_begin f) 2 (fr_end f) H2) as (o & -> & Ho). destruct o as [e|]; [|eauto].
    specialize (Ho e eq_refl). assert (e <= length (raw word))%nat as He by lia.
    destruct (logical_spec _ (fr_begin f) _ He) as (b & p & -> & _). destruct (negb _); [eauto|].
    destruct (logical_spec _ p _ He) as (b' & p' & -> & _). destruct (negb _); [eauto|].
    destruct (logical_spec _ p' _ He) as (b'' & p'' & -> & _). eauto.
  - rewrite HB. destruct (_ =? _); eauto.
Qed.

Lemma allowed_in_total parent f : from_option fits True parent -> is_Some (allowed_in word parent f).
Proof.
  unfold allowed_in. destruct parent as [p|]; [|eauto]. simpl. intros (_ & He & _). destruct (fr_kind p); eauto.
  unfold command_continuation. destruct (negb _); [eauto|]. destruct (logical_spec (raw word) (fr_begin p) (fr_end p) He) as (b & q & -> & _).
  destruct (negb _); [eauto|]. destruct (logical_spec (raw word) q (fr_end p) He) as (b' & q' & -> & _). eauto.
Qed.

Lemma well_placed_fits parent f previous : well_placed word parent f previous = true -> fits f.
Proof.
  unfold well_placed. rewrite !andb_true_iff, !orb_true_iff, !Nat.leb_le, !bool_decide_eq_true. intros (((((_ & _) & H1) & H2) & H3) & H4).
  split; [done|]. split; [done|]. split; [by destruct H3|]. intros E. destruct H4 as [H4|?]; [|done]. by rewrite E, bool_decide_true in H4.
Qed.

Lemma validate_safe l i stack previous next w : drop i fragments = l ->
  Forall fits (take i fragments) -> open_subtrees count i stack next ->
  vsafe (validate word l i stack previous next) w (fun '(stack', next') w' =>
    vs_state w' = vs_state w /\ Forall fits fragments /\ open_subtrees count count stack' next').
Proof.
  revert i stack previous next w. induction l as [|f l IH]; intros i stack previous next w Hl Hfit Ho; cbn [validate].
  - vstep. pose proof (f_equal length Hl) as Hn. rewrite length_drop in Hn. simpl in Hn.
    pose proof (op_reached _ _ _ _ Ho). assert (i = count) as -> by lia. rewrite take_ge in Hfit by lia. done.
  - pose proof (f_equal length Hl) as Hn. rewrite length_drop in Hn. simpl in Hn.
    vstep. eapply vsafe_mono; [by apply close_subtrees_safe|]. intros [[stack1 p1] next1] w1 _ (E1 & Ho1 & _). vstep.
    assert (forall (Q : option csh_fragment -> expansion_work -> Prop), (forall o, from_option fits True o -> Q o w1) ->
      vsafe (match stack1 with [] => vret None | top :: _ => let@ p := fragment_at word top in vret (Some p) end) w1 Q) as Hp.
    { intros Q HQ. destruct stack1 as [|top rest]; [vstep; by apply HQ|]. vstep.
      pose proof (Forall_inv (op_stack _ _ _ _ Ho1)) as Ht. simpl in Ht. apply vsafe_fragment; [lia|]. intros p Ep. vstep. apply HQ. simpl.
      rewrite Forall_lookup in Hfit. apply (Hfit top). by rewrite lookup_take_lt. }
    apply Hp. intros parent Hparent. clear Hp. vstep; [vstep|]. apply negb_false_iff, well_placed_fits in E. vstep.
    destruct (fragment_syntax_total f E) as [syntax Es]. apply vsafe_opt. exists syntax. split; [done|]. vstep.
    assert (forall Q : bool -> expansion_work -> Prop, (forall b, Q b w1) -> vsafe (if syntax then vopt (allowed_in word parent f) else vret false) w1 Q) as Ha.
    { intros Q HQ. destruct syntax; [|by vstep]. destruct (allowed_in_total parent f Hparent) as [b Eb]. apply vsafe_opt. eauto. }
    apply Ha. intros b. vstep; [vstep|]. assert (fragments !! i = Some f) as Hf by (by rewrite <- (Nat.add_0_r i), <- lookup_drop, Hl).
    eapply vsafe_mono; [apply IH|].
    + rewrite (drop_S _ _ _ Hf) in Hl. by injection Hl.
    + rewrite (take_S_r _ _ _ Hf). apply Forall_app. split; [done|by constructor].
    + apply open_push; [done|lia].
    + intros [stack2 next2] w2 _ (E2 & H2). split; [congruence|done].
Qed.

(** The texts known so far. *)
Definition decoded_upto (i : nat) (decoded : list (option str)) : Prop :=
  length decoded = count /\ forall j f, (j < i)%nat -> fragments !! j = Some f -> fr_kind f = CSH_FRAGMENT_QUOTED ->
    fr_quote f = CSH_QUOTE_DOLLAR_SINGLE -> exists text, decoded !! j = Some (Some text).

Lemma decode_post (s : str) p (Q : csh_quote_result * option str -> proc -> Prop) :
  (forall r p', same_host p p' -> Q r p') -> post (csh_quote_decode s) p Q.
Proof.
  intros H. unfold csh_quote_decode. destruct (_ =? _); [by apply post_ret, H|]. destruct (in_set _ _); [by apply post_ret, H|].
  apply post_bind, post_malloc. intros b p' Hp _. destruct (negb b); [by apply post_ret, H|]. destruct (quote_loop _ _); by apply post_ret, H.
Qed.

Lemma decode_all_safe l i decoded w : drop i fragments = l -> Forall fits fragments -> decoded_upto i decoded ->
  vsafe (decode_all word l i decoded) w (fun decoded' w' => vs_state w' = vs_state w /\ decoded_upto count decoded').
Proof.
  revert i decoded w. induction l as [|f l IH]; intros i decoded w Hl Hfit [Hd Ho]; cbn [decode_all].
  - vstep. pose proof (f_equal length Hl) as Hn. rewrite length_drop in Hn. simpl in Hn. split; [done|]. split; [done|].
    intros j f Hj Hf. apply (Ho j f); [|done]. lia.
  - assert (fragments !! i = Some f) as Hf by (by rewrite <- (Nat.add_0_r i), <- lookup_drop, Hl).
    assert (drop (S i) fragments = l) as Hl' by (rewrite (drop_S _ _ _ Hf) in Hl; by injection Hl).
    pose proof Hfit as Hfit'. rewrite Forall_lookup in Hfit'. pose proof (Hfit' _ _ Hf) as (F1 & F2 & F3 & _). clear Hfit'.
    pose proof (lookup_lt_Some _ _ _ Hf) as Hi.
    vstep.
    { apply IH; [done..|]. split; [done|]. intros j f' Hj Hf' Hk Hq. destruct (decide (j = i)) as [->|?]; [|apply (Ho j f'); [lia|done..]].
      rewrite Hf in Hf'. injection Hf' as <-. by rewrite Hk, Hq in E. }
    apply negb_false_iff, andb_prop in E as [Ek Eq]. bsimp. rewrite Ek in F3. specialize (F3 ltac:(done)).
    vstep. apply vsafe_next; [done|]. intros b p _ _. cbv beta iota. vstep; [vstep|]. vstep. apply vsafe_next; [done|]. intros b' p' _ _. cbv beta iota.
    vstep; [vstep|]. apply orb_false_iff in E0 as [_ E0]. apply negb_false_iff, Nat.ltb_lt in E0.
    vstep. apply vsafe_byte; [lia|]. intros c _. vstep; [vstep|]. vstep. apply vsafe_bytes; [lia|]. cbv beta. vstep. apply vsafe_host.
    apply decode_post. intros [r text] pr (_ & _ & _ & Hp). split; [done|]. intros w1 E2 _. cbv beta iota.
    assert (forall c m, vsafe (vfail word c (Some i) m) w1 (fun decoded' w' => vs_state w' = vs_state w /\ decoded_upto count decoded')) as Hfail
      by (intros; vstep).
    destruct r; [|apply Hfail..]. destruct text as [text|]; [|apply Hfail].
    eapply vsafe_mono; [apply IH; [done..|]|].
    + split; [by rewrite length_insert|]. intros j f' Hj Hf' Hk Hq. destruct (decide (j = i)) as [->|?].
      * rewrite list_lookup_insert_eq by lia. eauto.
      * rewrite list_lookup_insert_ne by done. apply (Ho j f'); [lia|done..].
    + intros d w2 _ [E3 H3]. split; [congruence|done].
Qed.

Theorem prepare_safe w :
  vsafe (prepare word) w (fun '(next, decoded) w' => vs_state w' = vs_state w /\ sound word next decoded /\ in_set 0 (raw word) = false).
Proof.
  unfold prepare. vstep; [vstep|]. apply orb_false_iff in E as [_ E0]. vstep; [vstep|].
  do 3 (vstep; apply vsafe_host, post_malloc; let b := fresh "b" in intros b ? (_ & _ & _ & ?) _; split; [done|]; intros ? ? _).
  vstep; [vstep|]. vstep. eapply vsafe_mono.
  { apply validate_safe; [done|constructor|]. split; [apply length_replicate|lia|constructor|lia]. }
  intros [stack next] w1 _ (E4 & Hfit & Ho). vstep. eapply vsafe_mono.
  { apply (decode_all_safe _ 0); [done..|]. split; [apply length_replicate|lia]. }
  intros decoded w2 _ (E5 & Hl & Hd). vstep. split; [congruence|]. split; [|done]. apply close_all_next in Ho as [_ _ _ Hn].
  split; [|done|].
  - intros i Hi. by destruct (Hn i Hi) as [?%elem_of_nil|?].
  - intros i f Hf. apply Hd; [|done]. by eapply lookup_lt_Some.
Qed.
End Structure.
