(* ===== verification/ValueSafety.v ===== *)
(** * The expansion of values: the walk is safe

    One lemma for each part of the walk over the fragments of a sound token: no
    fault, the state well formed, and output whose spans can be split or kept
    only as their provenance allows. *)

From stdpp Require Import base list gmap strings.
From S2P Require Import Prelude Output Numbers Options Character Quote Alias State StateCopy Arithmetic ArithmeticTheorems Expansion Pathname Fields Process Lexer Values ValueLogic ValueStructure.

(** ** Output *)

(** What field splitting may do with a span follows from where it comes from. *)
Definition span_sound (context : csh_expand_context) (s : csh_expand_span) : Prop :=
  (sp_split s = true -> context = CSH_EXPAND_ARGUMENT /\ sp_quote s = CSH_QUOTE_NONE /\
     sp_origin s <> CSH_EXPAND_LITERAL /\ sp_origin s <> CSH_EXPAND_TILDE) /\
  (sp_keep_empty s = true -> sp_quote s <> CSH_QUOTE_NONE).

Record out_sound (out : csh_expansion) : Prop := mk_out_sound {
  os_spans : Forall (Forall (span_sound (ex_context out))) (ex_fields out);
  os_single : ex_context out <> CSH_EXPAND_ARGUMENT -> (length (ex_fields out) <= 1)%nat }.

(** A step that gives sound output of the same context. *)
Definition yields (out : csh_expansion) (m : V csh_expansion) (w : expansion_work) : Prop :=
  vsafe m w (fun out' _ => out_sound out' /\ ex_context out' = ex_context out).

(** The same, without a change of the state. *)
Definition appends (out : csh_expansion) (m : V csh_expansion) (w : expansion_work) : Prop :=
  vsafe m w (fun out' w' => (out_sound out' /\ ex_context out' = ex_context out) /\ vs_state w' = vs_state w).

Ltac vstep := cbv delta [yields appends]; ValueLogic.vstep.

Lemma appends_yields out m w : appends out m w -> yields out m w.
Proof. intros H. eapply vsafe_mono; [exact H|]. by intros ? ? _ [? _]. Qed.

Lemma yields_bind {A} (m : V A) (f : A -> V csh_expansion) out w (P : A -> expansion_work -> Prop) :
  vsafe m w P -> (forall a w', P a w' -> yields out (f a) w') -> yields out (vbind m f) w.
Proof. intros H Hf. apply vsafe_bind. eapply vsafe_mono; [exact H|]. intros a w' _. apply Hf. Qed.

Lemma yields_ret out w : out_sound out -> yields out (vret out) w.
Proof. intros H. by apply vsafe_ret. Qed.

Lemma yields_from out out' m w : ex_context out' = ex_context out -> yields out' m w -> yields out m w.
Proof. intros E H. eapply vsafe_mono; [exact H|]. intros o w' _ [? ?]. split; [done|congruence]. Qed.

Lemma empty_sound c : out_sound (empty_expansion c).
Proof. split; [constructor|simpl; lia]. Qed.

Lemma new_field_appends out w : out_sound out -> (ex_context out = CSH_EXPAND_ARGUMENT \/ ex_fields out = []) ->
  appends out (new_field out) w.
Proof.
  intros [H1 H2] Hc. unfold appends, new_field. vstep; [vstep|]. vstep. vstep. vstep. split; [|done]. split; [|done]. split; simpl.
  - apply Forall_app. split; [done|]. by constructor.
  - intros Hn. destruct Hc as [|Hf]; [done|]. rewrite Hf. simpl. lia.
Qed.

Lemma append_appends out bytes q origin keep w : out_sound out -> (keep = true -> q <> CSH_QUOTE_NONE) ->
  appends out (append out bytes q origin keep) w.
Proof.
  intros Ho Hk. unfold appends, append. vstep; [vstep|]. vstep.
  apply (vsafe_mono _ _ (fun o w' => (out_sound o /\ ex_context o = ex_context out) /\ vs_state w' = vs_state w /\ ex_fields o <> [])).
  { case_bool_decide as E0.
    - unfold new_field. vstep; [vstep|]. vstep. vstep. vstep. destruct Ho as [H1 H2]. split; [|split; [done|by destruct (ex_fields out)]]. split; [|done].
      split; simpl; [apply Forall_app; split; [done|by constructor]|]. rewrite E0. simpl. lia.
    - by vstep. }
  intros o w1 _ ([[H1 H2] Ec] & Es & Hne). vstep. apply vsafe_opt. destruct (exists_last Hne) as (l & x & Ex).
  rewrite Ex, last_snoc. eexists. split; [done|]. vstep; [vstep|]. do 2 (vstep; vstep). vstep. split; [|congruence]. split; [|done].
  rewrite removelast_last. rewrite Ex in H1, H2. apply Forall_app in H1 as [H1 Hx]. apply Forall_cons in Hx as [Hx _]. split; simpl.
  - apply Forall_app. split; [done|]. constructor; [|done]. apply Forall_app. split; [done|]. constructor; [|done]. split; simpl; [|done].
    rewrite !andb_true_iff, !negb_true_iff, !bool_decide_eq_true, !bool_decide_eq_false. tauto.
  - intros Hn. specialize (H2 Hn). rewrite length_app in *. simpl in *. lia.
Qed.

Lemma quoted_keep q : quoted q = true -> q <> CSH_QUOTE_NONE.
Proof. unfold quoted. rewrite negb_true_iff, bool_decide_eq_false. done. Qed.

#[export] Hint Resolve quoted_keep append_appends empty_sound : cshell.

Lemma scalar_appends out text q origin w : out_sound out -> appends out (scalar out text q origin) w.
Proof. intros H. unfold scalar. auto with cshell. Qed.

Lemma scalar_yields out text q origin w : out_sound out -> yields out (scalar out text q origin) w.
Proof. intros H. by apply appends_yields, scalar_appends. Qed.

#[export] Hint Resolve scalar_appends scalar_yields appends_yields yields_ret : cshell.

(** ** The state and the process *)

Lemma set_variable_safe `{LocaleDb} n v w :
  vsafe (vhost (csh_state_set_variable (vs_state w) (Some n) (Some v))) w (fun '(_, s) w1 =>
    held w -> state_wf s /\ fixed s = fixed (vs_state w1) /\ aliases s = aliases (vs_state w1)).
Proof.
  apply vsafe_held. intros Hw. apply vsafe_host. unfold post. destruct (csh_state_set_variable _ _ _ _) as [[r s] p] eqn:E.
  pose proof (set_variable_step _ _ _ _ _ _ _ E (h_state _ Hw)) as (H1 & (H2 & H2' & H4 & H5) & (_ & _ & H3)). split; [done|].
  intros w1 E1 _. simpl. rewrite E1. intros _. unfold fixed. split_and!; congruence.
Qed.

Lemma update_attributes_safe n set clear w :
  vsafe (vhost (csh_state_update_attributes (vs_state w) (Some n) set clear)) w (fun '(_, s) w1 =>
    held w -> state_wf s /\ fixed s = fixed (vs_state w1) /\ aliases s = aliases (vs_state w1)).
Proof.
  apply vsafe_held. intros Hw. apply vsafe_host. unfold post. destruct (csh_state_update_attributes _ _ _ _ _) as [[r s] p] eqn:E.
  pose proof (update_attributes_step _ _ _ _ _ _ _ _ E (h_state _ Hw)) as (H1 & (H2 & H2' & H4 & H5) & (_ & _ & H3)). split; [done|].
  intros w1 E1 _. simpl. rewrite E1. intros _. unfold fixed. split_and!; congruence.
Qed.

Lemma assign_safe `{LocaleDb} name value w : vsafe (assign name value) w (fun _ _ => True).
Proof.
  unfold assign. vstep. vstep. vstep. apply vsafe_held. intros Hw. eapply vsafe_mono; [apply set_variable_safe|].
  intros [r s] w1 _ Hs. vstep. apply vsafe_put; [intros _; by apply Hs|]. intros w2 E2 _. cbv beta.
  destruct r; [|vstep..]. vstep; [|by vstep]. vstep. rewrite <- E2. apply vsafe_held. intros Hw2.
  eapply vsafe_mono; [apply update_attributes_safe|]. intros [r' s'] w3 _ Hs'. vstep. apply vsafe_put; [intros _; by apply Hs'|].
  intros w4 _ _. vstep; by vstep.
Qed.

(** Computations on the process that leave the reference counts. *)
Definition still {A} (m : M A) : Prop := forall p, p_functions (snd (m p)) = p_functions p.

Lemma still_ret {A} (a : A) : still (ret a).
Proof. done. Qed.

Lemma still_bind {A B} (m : M A) (f : A -> M B) : still m -> (forall a, still (f a)) -> still (bind m f).
Proof. intros H1 H2 p. unfold bind. specialize (H1 p). destruct (m p) as [a p']. simpl in H1. by rewrite (H2 a p'). Qed.

Lemma still_xbind {A B} (m : X A) (f : A -> X B) : still m -> (forall a, still (f a)) -> still (xbind m f).
Proof. intros H1 H2. unfold xbind. apply still_bind; [done|]. by intros [e|a]. Qed.

Lemma still_malloc : still malloc.
Proof. intros p. unfold malloc. by destruct (p_alloc p). Qed.

Lemma still_interrupted : still interrupted.
Proof. intros p. unfold interrupted. by destruct (p_interrupts p). Qed.

Lemma still_check : still check_interrupt.
Proof. apply still_bind; [apply still_interrupted|]. by intros []. Qed.

Lemma still_xmalloc : still xmalloc.
Proof. apply still_bind; [apply still_malloc|]. by intros []. Qed.

#[export] Hint Resolve still_malloc still_interrupted still_check still_xmalloc : cshell.

Ltac stilled := repeat first
  [ progress intros | solve [auto with cshell] | apply still_ret | apply still_xbind | apply still_bind
  | match goal with |- still (match ?x with _ => _ end) => destruct x end
  | match goal with |- still (let '(_, _) := ?x in _) => destruct x end ].

Section Still.
Context `{Locale} `{Files}.

Lemma still_append out text : still (csh_fields_append out text).
Proof. unfold csh_fields_append. stilled. Qed.
Hint Resolve still_append : cshell.

Lemma still_join a b c : still (join a b c).
Proof. unfold join. stilled. Qed.
Hint Resolve still_join : cshell.

Lemma still_append_path a b : still (append_path a b).
Proof. unfold append_path. stilled. Qed.
Hint Resolve still_append_path : cshell.

Lemma still_fs_result e next : still (fs_result e next).
Proof. unfold fs_result. stilled. Qed.
Hint Resolve still_fs_result : cshell.

Lemma still_read_entries l a b c next : still (read_entries l a b c next).
Proof. revert next. induction l as [|n l IH]; intros next; cbn [read_entries]; stilled. Qed.
Hint Resolve still_read_entries : cshell.

Lemma still_paths paths a b pattern final directory next : still (extend paths a b pattern final directory next).
Proof.
  revert next. induction paths as [|p paths IH]; intros next; cbn [extend]; [apply still_ret|].
  apply still_xbind; [auto with cshell|]. intros _. apply still_xbind; [|done]. unfold pattern_paths, literal_path. stilled.
Qed.
Hint Resolve still_paths : cshell.

Lemma still_traverse comps count paths : still (traverse comps count paths).
Proof. revert count paths. induction comps as [|[a b] comps IH]; intros count paths; cbn [traverse]; stilled. Qed.
Hint Resolve still_traverse : cshell.

Lemma still_append_all l out : still (append_all l out).
Proof. revert out. induction l as [|n l IH]; intros out; cbn [append_all]; stilled. Qed.
Hint Resolve still_append_all : cshell.

Lemma still_pathname a b out : still (csh_pathname_expand a b out).
Proof. unfold csh_pathname_expand, pathname_pattern. stilled. Qed.
Hint Resolve still_pathname : cshell.

Lemma still_subexpression fuel cells kind distance context q : still (subexpression_loop fuel cells kind distance context q).
Proof. revert cells distance q. induction fuel as [|fuel IH]; intros cells distance q; cbn [subexpression_loop]; stilled. Qed.
Hint Resolve still_subexpression : cshell.

Lemma still_make_pattern fuel cells context pending b pattern : still (make_pattern_loop fuel cells context pending b pattern).
Proof.
  revert cells pending b pattern. induction fuel as [|fuel IH]; intros cells pending b pattern; cbn [make_pattern_loop]; [apply still_ret|].
  destruct cells as [|[byte p] rest]; [apply still_ret|]. apply still_xbind; [auto with cshell|]. intros _.
  destruct (1 <? _)%nat; [apply IH|]. destruct pending; [apply IH|]. apply still_xbind; [unfold bracket_subexpression; stilled|].
  intros [d f]. destruct (_ && _); [apply IH|]. destruct (negb _ && _); apply IH.
Qed.
Hint Resolve still_make_pattern : cshell.

Lemma still_emit cells context opts out : still (emit cells context opts out).
Proof. unfold emit, make_pattern. stilled. Qed.
Hint Resolve still_emit : cshell.

Lemma still_total spans total : still (span_total spans total).
Proof. revert total. induction spans as [|s spans IH]; intros total; cbn [span_total]; stilled. Qed.
Hint Resolve still_total : cshell.

Lemma still_skip fuel cursor n white ifs : still (skip_white fuel cursor n white ifs).
Proof. revert cursor n white. induction fuel as [|fuel IH]; intros cursor n white; cbn [skip_white]; stilled. Qed.
Hint Resolve still_skip : cshell.

Lemma still_split fuel cursor context ifs opts raw keep out : still (split_loop fuel cursor context ifs opts raw keep out).
Proof.
  revert cursor raw keep out. induction fuel as [|fuel IH]; intros cursor raw keep out; cbn [split_loop]; [apply still_ret|].
  destruct (current cursor) as [[span|] c1]; [|stilled]. apply still_xbind; [auto with cshell|]. intros _. destruct (_ =? _)%nat; [apply IH|].
  destruct (if bool_decide _ then _ else _) as [n white]. destruct (_ =? _)%nat; [apply IH|]. stilled.
Qed.
Hint Resolve still_split : cshell.

Lemma still_fields l context ifs opts out : still (finish_fields l context ifs opts out).
Proof. revert out. induction l as [|f l IH]; intros out; cbn [finish_fields]; unfold finish_field, xlift; stilled. Qed.
Hint Resolve still_fields : cshell.

Lemma still_expand_fields s e : still (csh_expand_fields s e).
Proof. unfold csh_expand_fields. stilled. Qed.
End Still.

(** A number is stored when there is no error. *)
Lemma run_stored `{LocaleDb} ex p w out p' w' : run ex p w = Some (out, p', w') -> a_error p' = CSH_ARITH_OK -> is_Some out.
Proof.
  unfold run. intros E Herr.
  repeat match type of E with
  | abind _ _ _ _ = _ => unfold abind at 1 in E
  | context [match ?m with Some _ => _ | None => None end] =>
      let E' := fresh "E'" in destruct m as [[[? ?] ?]|] eqn:E'; [|done]
  | (if is_ok ?e then _ else _) _ _ = _ => destruct (is_ok e) eqn:?
  end.
  - unfold aget in *. simplify_eq. unfold aret in E. simplify_eq. unfold is_ok. rewrite bool_decide_true by done. eauto.
  - unfold aget in *. unfold aret in E. simplify_eq. unfold is_ok in *. by rewrite bool_decide_true in Heqb.
Qed.

(** What [csh_arith_eval] leaves, whatever it gives. *)
Lemma eval_keeps `{LocaleDb} s text stack p r value s' p' : state_wf s -> counts_positive (p_functions p) ->
  csh_arith_eval s (Some text) stack p = Some (r, value, s', p') ->
  state_wf s' /\ fixed s' = fixed s /\ aliases s' = aliases s /\ p_functions p' = p_functions p /\ (r = CSH_ARITH_OK -> is_Some value).
Proof.
  intros Hwf Hpos. unfold csh_arith_eval. destruct (slen text =? SIZE_MAX); [intros [= <- <- <- <-]; by split_and!|].
  pose proof (still_malloc p) as Hm. destruct (malloc p) as [b p1]. simpl in Hm. destruct (negb b); [intros [= <- <- <- <-]; by split_and!|].
  pose proof (save_post s p1 Hwf) as Hs. rewrite Hm in Hs. specialize (Hs Hpos). unfold post in Hs.
  destruct (csh_state_save s p1) as [[r0 c] p2]. destruct Hs as [[[[= -> ->] Hc]|[[= -> ->] Hc]] _]; destruct Hc as (_ & _ & _ & Hf2); cbn [negb bool_decide].
  2:{ intros [= <- <- <- <-]. split_and!; try done. congruence. }
  pose proof (preserves_run true (start_parser text s (options (csh_state_get_info s)) stack) p2) as Hr.
  destruct (run true _ p2) as [[[out q] p3]|] eqn:Er; [|done]. rewrite Hm in Hf2.
  destruct (Hr Hwf) as (Hwf3 & Hframe & (_ & _ & Hf3)). rewrite Hf2 in Hf3. change (negb (bool_decide (CSH_STATE_OK = CSH_STATE_OK))) with false. cbn iota.
  destruct (is_ok (a_error q)) eqn:Eok; unfold is_ok in Eok; bsimp.
  - pose proof (destroy_undoes s p p3 Hpos Hf3) as Hd. unfold post in Hd. destruct (csh_state_checkpoint_destroy (Some s) p3) as [[] p4].
    destruct Hd as (? & _). intros [= <- <- <- <-]. destruct Hframe as (G1 & G2 & G3 & G4). split_and!; [done|unfold fixed; simpl in *; congruence|done|done|]. intros _. by eapply run_stored.
  - pose proof (restore_undoes s (a_state q) p p3 Hpos (proj1 Hframe) Hf3) as Hd. unfold post in Hd.
    destruct (csh_state_restore (a_state q) (Some s) p3) as [[r1 s1] p4]. destruct Hd as (Hs' & ? & _). simpl in Hs'. subst s1. intros [= <- <- <- <-].
    by split_and!.
Qed.

Lemma evaluate_safe `{LocaleDb} text w : vsafe (evaluate text) w (fun '(r, value) _ => r = CSH_ARITH_OK -> is_Some value).
Proof.
  intros [Hw1 Hw2 Hw3] Hi. unfold evaluate. destruct (eval_returns (vs_state w) (Some text) (hd [] (vs_arithmetic w)) (vs_proc w)) as [[[[r value] s] p] E].
  rewrite E. destruct (eval_keeps _ _ _ _ _ _ _ _ Hw1 Hw2 E) as (H1 & H2 & H2' & H3 & H4). split; [|done].
  split; [|done..]. split; simpl; [done|by rewrite H3|by rewrite H2'].
Qed.

Lemma expand_pattern_safe `{Locale} `{Files} value w : vsafe (expand_pattern value) w (fun _ _ => True).
Proof.
  intros [Hw1 Hw2 Hw3] Hi. unfold expand_pattern, get_state, vhost, get_error, vbind, uninterrupted. cbn beta iota.
  destruct (csh_expand_fields (vs_state w) value _) as [[r e] p'] eqn:E.
  pose proof (still_expand_fields (vs_state w) value (mk_proc (p_alloc (vs_proc w)) (p_writes (vs_proc w)) (p_stdio (vs_proc w)) (p_stdout (vs_proc w))
    (p_stderr (vs_proc w)) (p_locale (vs_proc w)) (p_functions (vs_proc w)) [])) as Hs. rewrite E in Hs. simpl in Hs.
  assert (ee_code e = match r with inl c => Some c | inr _ => None end) as He.
  { revert E. unfold csh_expand_fields, bind, ret. destruct (csh_state_get_variable _ _).
    match goal with |- (let '(_, _) := ?m in _) = _ -> _ => destruct m as [[code|l] ?] end; by intros [= <- <- _]. }
  cbn [vs_state vs_error vs_stack vs_arithmetic vs_proc vs_user].
  assert (forall e', kept w (mk_work (vs_state w) e' (vs_stack w) (vs_arithmetic w) (mk_proc (p_alloc p') (p_writes p') (p_stdio p') (p_stdout p')
    (p_stderr p') (p_locale p') (p_functions p') (p_interrupts (vs_proc w))) (vs_user w)) <-> (e' = None <-> vs_error w = None)) as Hk.
  { intros e'. split; [by intros []|]. intros Hn. split; [split; [done| |done]|done..|done]; simpl; by rewrite Hs. }
  destruct (vs_error w) as [e0|] eqn:Ee; unfold put_error, vret, vcode; destruct r as [c|l]; cbn [vs_state vs_error vs_stack vs_arithmetic vs_proc vs_user].
  - split; [by apply Hk|]. by right.
  - split; [by apply Hk|]. split; [|done]. by left.
  - split; [by apply Hk|done].
  - split; [by apply Hk|done].
Qed.

(** ** Parameters *)

Lemma parameter_some s i : state_wf s -> 1 <= i <= argument_count (csh_state_get_info s) -> is_Some (csh_state_parameter s i).
Proof.
  intros Hwf Hi. pose proof (wf_count _ Hwf) as Hc. unfold csh_state_get_info in Hi. unfold csh_state_parameter.
  destruct (Z.gtb_spec i (argument_count (info s))); [lia|]. destruct (Z.eqb_spec i 0); [lia|]. apply lookup_lt_is_Some_2. lia.
Qed.

Section Parameters.
Context {loc : Locale} {LL : LocaleLaws loc} {fs : Files} {users : Users} {db : LocaleDb}.

Lemma positional_loop_safe fuel i join sep q out w : 1 <= i ->
  Z.of_nat fuel = Z.max 0 (argument_count (csh_state_get_info (vs_state w)) + 1 - i) -> out_sound out ->
  (join = false -> ex_context out = CSH_EXPAND_ARGUMENT) ->
  yields out (positional_loop fuel i join sep q out) w.
Proof.
  revert i out w. induction fuel as [|fuel IH]; intros i out w H1 Hf Ho Hj; cbn [positional_loop]; [auto with cshell|].
  assert (appends out (if i >? 1 then if join then append out sep q CSH_EXPAND_PARAMETER (quoted q) else new_field out else vret out) w) as Ha.
  { destruct (i >? 1); [|by vstep]. destruct join; [auto with cshell|]. apply new_field_appends; [done|]. left. by apply Hj. }
  eapply yields_bind; [exact Ha|]. intros out1 w1 ([Ho1 Ec1] & Es1). apply (yields_from _ out1); [done|]. apply vsafe_held. intros Hw1.
  vstep. vstep. vstep. rewrite Es1. apply vsafe_held. intros [Hwf _ _]. rewrite Es1 in Hwf.
  destruct (parameter_some _ i Hwf) as [v Hv]; [lia|]. apply vsafe_opt. eexists. split; [exact Hv|].
  eapply yields_bind; [by apply scalar_appends|]. intros out2 w2 ([Ho2 Ec2] & Es2).
  apply (yields_from _ out2); [done|]. apply IH; [lia| |done|].
  - rewrite Es2, Es1. lia.
  - intros E. rewrite Ec2, Ec1. by apply Hj.
Qed.

Lemma positional_safe out star q w : out_sound out -> yields out (positional out star q) w.
Proof.
  intros Ho. unfold positional. vstep. vstep. apply vsafe_held. intros [Hwf _ _].
  set (join := negb _ || _). assert (join = false -> ex_context out = CSH_EXPAND_ARGUMENT) as Hj.
  { unfold join. rewrite orb_false_iff, negb_false_iff, bool_decide_eq_true. tauto. }
  assert (appends out (if join then scalar out [] q CSH_EXPAND_PARAMETER else vret out) w) as Ha.
  { destruct join; [auto with cshell|by vstep]. }
  eapply yields_bind; [exact Ha|]. intros out1 w1 ([Ho1 Ec1] & Es1). apply (yields_from _ out1); [done|].
  apply positional_loop_safe; [lia| |done|intros E; rewrite Ec1; by apply Hj]. rewrite Es1. pose proof (wf_count _ Hwf). unfold csh_state_get_info. lia.
Qed.

Lemma parameter_value_safe name w : vsafe (parameter_value name) w (fun _ _ => True).
Proof.
  unfold parameter_value. vstep. vstep. vstep. apply (vsafe_mono _ _ (fun _ _ => True)).
  - vstep; [vstep; vstep; by vstep|]. vstep; [destruct (parameter_index _ _); by vstep|]. repeat (vstep; [by vstep|]). by vstep.
  - intros v w1 _ _. vstep. vstep. by vstep.
Qed.

Lemma flatten_safe value w : vsafe (flatten value) w (fun _ _ => True).
Proof. unfold flatten. vstep; [vstep|]. vstep. vstep. by vstep. Qed.

Section Spelling.
Context (word : csh_token).
Abbreviation size := (length (raw word)).

Lemma name_loop_spec fuel numeric braced p end_ name : (end_ <= size)%nat -> (end_ - p < fuel)%nat ->
  exists name' q, name_loop word fuel numeric braced p end_ name = Some (name', q) /\
    (p <= q)%nat /\ (length name' - length name <= q - p)%nat /\ (q <= Nat.max p end_)%nat.
Proof.
  intros He. revert p name. induction fuel as [|fuel IH]; intros p name Hf; [lia|]. cbn [name_loop].
  destruct (logical_spec (raw word) p end_ He) as (b & q & -> & Hq). destruct (_ && _) eqn:E; [|eexists _, _; split; [done|lia]].
  apply andb_prop in E as [E _]. destruct Hq as [Hq|[-> _]]; [|by destruct numeric].
  destruct (IH q (name ++ [b])) as (name' & q' & -> & H1 & H2 & H3); [lia|]. eexists _, _. split; [done|]. rewrite length_app in H2. simpl in H2. lia.
Qed.

Definition form_within (end_ : nat) (m : parameter_form) : Prop := (pm_end m <= end_)%nat.

Lemma parameter_operator_safe name braced length_op p end_ w : (end_ <= size)%nat ->
  vsafe (parameter_operator word name braced length_op p end_) w (fun m _ => form_within end_ m).
Proof.
  intros He. assert (forall m w, pm_end m = end_ -> vsafe (vret m) w (fun m _ => form_within end_ m)) as Hr.
  { intros m w' Hm. vstep. unfold form_within. lia. }
  unfold parameter_operator. vstep. apply vsafe_next; [done|]. intros b q _ _. vstep; [by apply Hr|]. vstep; [vstep|].
  vstep. apply (vsafe_mono _ _ (fun _ _ => True)).
  { vstep; [by apply vsafe_next|by vstep]. }
  intros [b' q'] w1 _ _. vstep; [vstep|]. vstep; [|by apply Hr]. vstep. apply vsafe_next; [done|]. intros c q2 _ _. apply Hr. by destruct (c =? b').
Qed.

Lemma parameter_opening_safe f w : fragment_fits (raw word) f ->
  vsafe (parameter_opening word f) w (fun '(b, save, p, end_, _, _) _ => (end_ <= fr_end f)%nat /\ within save end_ b p).
Proof.
  intros (_ & He & _). unfold parameter_opening. vstep. apply vsafe_next; [done|]. intros b0 p0 _ _. vstep. apply vsafe_next; [done|].
  intros b p _ Hp. vstep; [by vstep|]. assert (fr_end f - 1 <= size)%nat as He' by lia.
  vstep. apply vsafe_next; [done|]. intros b1 p1 _ Hp1. vstep; [vstep; split; [lia|done]|].
  destruct (length_parameter_total (raw word) p1 (fr_end f - 1) He') as [[] El]; (vstep; apply vsafe_opt; eexists; split; [exact El|]); cbv beta iota.
  - vstep. apply vsafe_next; [done|]. intros b2 p2 _ Hp2. vstep. split; [lia|done].
  - vstep. split; [lia|done].
Qed.

Lemma parameter_syntax_safe f w : fragment_fits (raw word) f ->
  vsafe (parameter_syntax word f) w (fun m _ => (pm_end m <= fr_end f)%nat).
Proof.
  intros Hf. pose proof Hf as (_ & He & _). unfold parameter_syntax. vstep. eapply vsafe_mono; [by apply parameter_opening_safe|].
  intros [[[[[b save] p] end_] braced] length_op] w1 _ [H1 Hp]. cbv beta iota. assert (end_ <= size)%nat as He' by lia.
  assert (forall name w2, vsafe (parameter_operator word name braced length_op p end_) w2 (fun m _ => (pm_end m <= fr_end f)%nat)) as Hop.
  { intros name w2. eapply vsafe_mono; [by apply parameter_operator_safe|]. unfold form_within. intros m w3 _ H. simpl in H. lia. }
  vstep; [vstep|]. vstep. vstep. vstep; [|vstep; [|vstep]].
  - assert (b <> -1) as Hb. { apply orb_prop in E0 as [E0|E0]; [apply name_char_end; unfold name_char; by rewrite E0|by apply digit_end]. }
    destruct Hp as [Hp|[? _]]; [|done].
    destruct (name_loop_spec (S (end_ - p)) (digit b) braced p end_ [b]) as (name & q & En & Hq & Hl & Hm); [done|lia|].
    vstep. apply vsafe_opt. eexists. split; [exact En|]. cbv beta iota. simpl in Hl. rewrite (proj2 (Nat.leb_le _ _)) by lia.
    eapply vsafe_mono; [by apply parameter_operator_safe|]. unfold form_within. intros m w3 _ H. simpl in H. lia.
  - destruct Hp as [Hp|[-> _]]; [|by apply special_end in E1]. rewrite (proj2 (Nat.leb_le _ _)) by lia. apply Hop.
Qed.
End Spelling.
End Parameters.

(** ** The walk *)

(** What an executor promises of its callback: a well-formed state with the
    same functions, parameters and information, the reference counts it found, and an error record that is
    written only for the failure it reports. *)
Definition callback_sound (word : csh_token) (cb : substitute_callback) : Prop := forall s e p u i f,
  state_wf s -> counts_positive (p_functions p) -> alias_bytes (aliases s) -> from_option (fun e => ee_code e = None) True e ->
  tk_fragments word !! i = Some f -> fragment_fits (raw word) f -> fr_kind f = CSH_FRAGMENT_COMMAND \/ fr_kind f = CSH_FRAGMENT_BACKQUOTE ->
  let '(r, s', e', p', _) := cb s e p u word i in
  state_wf s' /\ fixed s' = fixed s /\ alias_bytes (aliases s') /\ p_functions p' = p_functions p /\ (e' = None <-> e = None) /\
  match r with
  | VFault => False
  | VFail c => from_option (fun e => ee_code e = None \/ ee_code e = Some c) True e'
  | VDone _ => from_option (fun e => ee_code e = None) True e'
  end.

Section Walk.
Context {loc : Locale} {LL : LocaleLaws loc} {fs : Files} {users : Users} {db : LocaleDb}.
Context (word : csh_token) (substitute : option substitute_callback) (next : list (option nat)) (decoded : list (option str)).
Hypothesis sound_token : sound word next decoded.
Hypothesis sound_callback : from_option (callback_sound word) True substitute.

Abbreviation size := (length (raw word)).
Abbreviation fragments := (tk_fragments word).
Abbreviation count := (length fragments).

Lemma next_at_safe i w (Q : nat -> expansion_work -> Prop) : (i < count)%nat ->
  (forall j, (i < j <= count)%nat -> Q j w) -> vsafe (next_at next i) w Q.
Proof.
  intros Hi H. destruct (so_next _ _ _ sound_token i Hi) as (j & E & Hj). unfold next_at. vstep. apply vsafe_opt. eexists. split; [exact E|].
  apply vsafe_opt. eauto.
Qed.

Lemma fragment_safe i w (Q : csh_fragment -> expansion_work -> Prop) : (i < count)%nat ->
  (forall f, fragments !! i = Some f -> fragment_fits (raw word) f -> Q f w) -> vsafe (fragment_at word i) w Q.
Proof.
  intros Hi H. apply vsafe_fragment; [done|]. intros f Hf. apply H; [done|]. pose proof (so_fits _ _ _ sound_token) as Hs.
  rewrite Forall_lookup in Hs. by eapply Hs.
Qed.

(** A parent is the root or a fragment. *)
Definition parent_ok (parent : option nat) : Prop := from_option (fun i => i < count)%nat True parent.

Lemma child_limit_safe parent w (Q : nat -> expansion_work -> Prop) : parent_ok parent ->
  (forall limit, (limit <= count)%nat -> Q limit w) -> vsafe (child_limit word next parent) w Q.
Proof.
  intros Hp H. unfold child_limit. destruct parent as [i|]; [|vstep; by apply H]. apply next_at_safe; [done|]. intros j Hj. apply H. lia.
Qed.

Lemma plain_loop_safe fuel i limit parent p w : (limit <= count)%nat -> (count - i < fuel)%nat ->
  vsafe (plain_loop word next fuel i limit parent p) w (fun _ w' => vs_state w' = vs_state w).
Proof.
  intros Hl. revert i. induction fuel as [|fuel IH]; intros i Hf; [lia|]. cbn [plain_loop].
  destruct (Nat.leb_spec limit i); [by vstep|]. vstep. apply fragment_safe; [lia|]. intros f _ _. vstep; [by vstep|].
  vstep. apply next_at_safe; [lia|]. intros j Hj. apply IH. lia.
Qed.

Lemma plain_at_safe parent p w : parent_ok parent -> vsafe (plain_at word next parent p) w (fun _ w' => vs_state w' = vs_state w).
Proof.
  intros Hp. unfold plain_at. vstep. apply child_limit_safe; [done|]. intros limit Hl. apply plain_loop_safe; [done|lia].
Qed.

(** A character within [p] and [end_]. *)
Lemma character_width p end_ : (p < end_ <= size)%nat ->
  (1 <= csh_character_length (take (end_ - p) (drop p (raw word))) true true <= end_ - p)%nat.
Proof.
  intros H. assert (length (take (end_ - p) (drop p (raw word))) = end_ - p)%nat as Hl by (rewrite length_take, length_drop; lia).
  pose proof (csh_character_length_bound (take (end_ - p) (drop p (raw word))) true) as Hb. rewrite Hl in Hb. apply Hb.
  intros E. rewrite E in Hl. simpl in Hl. lia.
Qed.

Lemma tilde_loop_safe fuel parent p end_ a name w : parent_ok parent -> (end_ <= size)%nat -> (p <= end_)%nat -> (end_ - p < fuel)%nat ->
  vsafe (tilde_loop word next fuel parent p end_ a name) w (fun r w' => vs_state w' = vs_state w /\
    from_option (fun '(name', q) => (p <= q <= end_)%nat /\ (length name' - length name <= q - p)%nat) True r).
Proof.
  intros Hp He. revert p name w. induction fuel as [|fuel IH]; intros p name w H1 Hf; [lia|]. cbn [tilde_loop].
  destruct (Nat.ltb_spec p end_); cbn [negb]; [|vstep; split; [done|simpl; lia]].
  vstep. eapply vsafe_mono; [by apply plain_at_safe|]. intros plain w1 _ E1. vstep; [vstep; by split|]. vstep. apply vsafe_byte; [lia|].
  intros b _. vstep; [vstep; split; [done|simpl; lia]|].
  vstep. apply (vsafe_mono _ _ (fun c w' => vs_state w' = vs_state w1 /\ (c = true -> S p < end_)%nat)).
  { destruct ((b =? ch "\") && (S p <? end_)%nat) eqn:Ec; [|by vstep]. apply andb_prop in Ec as [_ Ec%Nat.ltb_lt].
    vstep. apply vsafe_byte; [lia|]. intros c _. by vstep. }
  intros c w2 _ [E2 Hc]. vstep.
  - specialize (Hc E3). eapply vsafe_mono; [apply IH; lia|]. intros [[name' q]|] w3 _ [E4 Hq]; simpl in *; (split; [congruence|]); [lia|done].
  - pose proof (character_width p end_) as Hw. vstep. apply vsafe_bytes; [lia|]. set (width := csh_character_length _ _ _) in *.
    eapply vsafe_mono; [apply IH; lia|]. intros [[name' q]|] w3 _ [E4 Hq]; simpl in *; (split; [congruence|]); [|done].
    rewrite length_app, length_take in Hq. lia.
Qed.

Lemma tilde_prefix_safe parent begin end_ out a w : parent_ok parent -> (end_ <= size)%nat -> (begin < end_)%nat -> out_sound out ->
  vsafe (tilde_prefix word next parent begin end_ out a) w (fun '(out', p) _ =>
    (out_sound out' /\ ex_context out' = ex_context out) /\ (begin <= p <= end_)%nat).
Proof.
  intros Hp He Hb Ho. unfold tilde_prefix. vstep. vstep. vstep. eapply vsafe_mono; [apply tilde_loop_safe; [done..|lia|lia]|].
  intros [[name p]|] w2 _ [_ Hq]; simpl in Hq; [|vstep; split; [done|lia]]. rewrite (proj2 (Nat.leb_le _ _)) by lia. cbn [negb].
  vstep. vstep. cbv beta. destruct (if bool_decide (name = []) then _ else _) as [home|]; [|vstep; split; [done|lia]].
  vstep. apply (vsafe_mono _ _ (fun _ _ => True)).
  { destruct (Nat.ltb_spec p end_); [|by vstep]. vstep. apply vsafe_byte; [lia|]. intros; by vstep. }
  intros slash w3 _ _. vstep. eapply vsafe_mono; [apply append_appends; done|]. intros out' w4 _ [Hout _]. vstep. split; [done|lia].
Qed.

Lemma text_loop_safe fuel parent q p run stop end_ origin tilde tilde_ok out w : parent_ok parent -> (stop <= end_ <= size)%nat ->
  (run <= p <= end_)%nat -> (stop - p < fuel)%nat -> out_sound out ->
  vsafe (text_loop word next fuel parent q p run stop end_ origin tilde tilde_ok out) w (fun '(out', _, _) _ =>
    out_sound out' /\ ex_context out' = ex_context out).
Proof.
  intros Hp He. revert p run tilde_ok out w. induction fuel as [|fuel IH]; intros p run tilde_ok out w Hr Hf Ho; [lia|]. cbn [text_loop].
  assert (forall k, (k <= size)%nat -> appends out (if (run <? k)%nat then let@ s := bytes_at word run (k - run) in append out s q origin (quoted q) else vret out) w) as Hflush.
  { intros k Hk. destruct (Nat.ltb_spec run k); [|by vstep]. vstep. apply vsafe_bytes; [lia|]. apply append_appends; auto with cshell. }
  assert (forall w' run' tilde_ok' out', out_sound out' /\ ex_context out' = ex_context out -> (p < stop)%nat -> (run' <= p)%nat ->
    vsafe (text_loop word next fuel parent q (p + csh_character_length (take (stop - p) (drop p (raw word))) true true) run' stop end_ origin tilde tilde_ok' out')
      w' (fun '(out', _, _) _ => out_sound out' /\ ex_context out' = ex_context out)) as Hstep.
  { intros w' run' tilde_ok' out' [Ho' Ec] Hs Hr'. pose proof (character_width p stop) as Hw. eapply vsafe_mono; [apply IH; [lia..|done]|].
    intros [[o ?] ?] w2 _ [? ?]. split; [done|congruence]. }
  destruct (Nat.ltb_spec p stop) as [Hs|Hs]; cbn [negb].
  - vstep. apply vsafe_byte; [lia|]. intros b _. vstep.
    + vstep. eapply vsafe_mono; [apply (Hflush p); lia|]. intros out1 w1 _ [[Ho1 Ec1] _]. vstep. eapply vsafe_mono; [apply tilde_prefix_safe; [done|lia|lia|done]|].
      intros [out2 after] w2 _ [[Ho2 Ec2] Ha]. cbv beta iota. destruct (Nat.eqb_spec after p); cbn [negb].
      * apply Hstep; [split; [done|congruence]|done|lia].
      * eapply vsafe_mono; [apply IH; [lia|lia|done]|]. intros [[o ?] ?] w3 _ [? ?]. split; [done|congruence].
    + apply Hstep; [done..|lia].
  - vstep. eapply vsafe_mono; [apply (Hflush stop); lia|]. intros out1 w1 _ [H1 _]. by vstep.
Qed.

Lemma has_content_safe fuel i limit w : (limit <= count)%nat -> (count - i < fuel)%nat ->
  vsafe (has_content word next fuel i limit) w (fun _ _ => True).
Proof.
  intros Hl. revert i w. induction fuel as [|fuel IH]; intros i w Hf; [lia|]. cbn [has_content].
  destruct (Nat.leb_spec limit i); [by vstep|]. vstep. apply fragment_safe; [lia|]. intros f _ _. vstep. apply next_at_safe; [lia|].
  intros j Hj. vstep. eapply vsafe_mono; [apply IH; lia|]. intros b w1 _ _. by vstep.
Qed.

Section Nested.
Context (range_ : option nat -> nat -> nat -> csh_expansion -> csh_expand_origin -> Z -> V csh_expansion) (low : nat).
Hypothesis range_safe_ : forall i begin end_ out origin tilde w, (low <= i < count)%nat -> (end_ <= size)%nat -> out_sound out ->
  yields out (range_ (Some i) begin end_ out origin tilde) w.

Lemma pattern_removal_safe i m value q out w : (low <= i < count)%nat -> (pm_end m <= size)%nat -> out_sound out ->
  yields out (pattern_removal range_ i m value q out) w.
Proof.
  intros Hi He Ho. unfold pattern_removal. eapply yields_bind; [apply range_safe_; auto with cshell|]. intros expanded w1 _.
  eapply yields_bind; [apply expand_pattern_safe|]. intros patterns w2 _. eapply (yields_bind _ _ _ _ (fun _ _ => True)).
  { destruct patterns as [|p [|? ?]]; [vstep; vstep; by vstep|by vstep|vstep]. }
  intros text w3 _. destruct (remove_pattern_total value text (pm_op m =? ch "%") (pm_longest m)) as [rest Er].
  vstep. apply vsafe_opt. eexists. split; [exact Er|]. by apply scalar_yields.
Qed.

Lemma parameter_word_safe i m value is_set q out w : (low <= i < count)%nat -> (pm_end m <= size)%nat -> out_sound out ->
  yields out (parameter_word word range_ i m value is_set q out) w.
Proof.
  intros Hi He Ho. unfold parameter_word. vstep; [by apply scalar_yields|]. vstep.
  { destruct (empty_operand_total (raw word) (pm_operand m) (pm_end m) He) as [b Eb]. vstep. apply vsafe_opt. eexists. split; [exact Eb|].
    vstep; [by apply scalar_yields|by apply range_safe_]. }
  eapply yields_bind; [apply range_safe_; auto with cshell|]. intros expanded w1 _. eapply yields_bind; [apply flatten_safe|]. intros text w2 _.
  vstep; [vstep|]. eapply yields_bind; [apply assign_safe|]. intros [] w3 _. by apply scalar_yields.
Qed.

Lemma parameter_safe i out w : (low <= i < count)%nat -> out_sound out -> yields out (parameter word range_ i out) w.
Proof.
  intros Hi Ho. unfold parameter, parameter_expansion. apply vsafe_reporting. vstep. apply fragment_safe; [lia|]. intros f _ Hf.
  pose proof Hf as (_ & Hs & _). eapply yields_bind; [by apply parameter_syntax_safe|]. intros m w1 Hm. simpl in Hm.
  vstep. { vstep; [vstep|by apply positional_safe]. }
  eapply yields_bind; [apply parameter_value_safe|]. intros [value is_set] w2 _. vstep. vstep. vstep; [vstep|]. vstep.
  { destruct (count_characters_total (S (length value)) value) as [n En]; [lia|]. vstep. apply vsafe_opt. eexists. split; [exact En|]. by apply scalar_yields. }
  vstep; [by apply scalar_yields|]. vstep; [apply pattern_removal_safe; [done|lia|done]|]. apply parameter_word_safe; [done|lia|done].
Qed.

Lemma arithmetic_safe i out w : (low <= i < count)%nat -> out_sound out -> yields out (arithmetic_expansion word range_ i out) w.
Proof.
  intros Hi Ho. unfold arithmetic_expansion. vstep. apply fragment_safe; [lia|]. intros f _ (_ & Hs & _).
  destruct (trim_delimiters_spec (raw word) (fr_begin f) 2 (fr_end f) Hs) as (o & Eo & He). vstep. apply vsafe_opt. eexists. split; [exact Eo|].
  destruct o as [e|]; [|vstep]. specialize (He e eq_refl). assert (e <= size)%nat as He' by lia.
  do 3 (vstep; apply vsafe_next; [done|]; intros ? ? _ _). apply vsafe_reporting.
  eapply yields_bind; [apply range_safe_; auto with cshell|]. intros expression w1 _. eapply yields_bind; [apply flatten_safe|]. intros text w2 _.
  eapply yields_bind; [apply evaluate_safe|]. intros [r value] w3 Hr. simpl in Hr. destruct r; try vstep. destruct Hr as [v ->]; [done|].
  apply vsafe_opt. eexists. split; [done|]. by apply scalar_yields.
Qed.

Lemma substitution_safe i f0 out w : fragments !! i = Some f0 ->
  fr_kind f0 = CSH_FRAGMENT_COMMAND \/ fr_kind f0 = CSH_FRAGMENT_BACKQUOTE -> out_sound out -> yields out (substitution word substitute i out) w.
Proof.
  intros Hf0 Hk0 Ho. unfold substitution. vstep. apply fragment_safe; [by eapply lookup_lt_Some|]. intros f Hf Hfit.
  rewrite Hf0 in Hf. injection Hf as ->. destruct substitute as [cb|]; [|vstep]. intros [Hw1 Hw2 Hw3] Hn. assert (from_option (fun e => ee_code e = None) True (vs_error w)) as He.
  { revert Hn. unfold informed. destruct (vs_error w); simpl; [|done]. tauto. }
  pose proof (sound_callback (vs_state w) (vs_error w) (vs_proc w) (vs_user w) i f Hw1 Hw2 Hw3 He Hf0 Hfit Hk0) as H. unfold vbind.
  destruct (cb _ _ _ _ _ _) as [[[[r s'] e'] p'] u']. destruct H as (H1 & H2 & H2' & H3 & H4 & H5).
  set (w1 := mk_work s' e' (vs_stack w) (vs_arithmetic w) p' u').
  assert (kept w w1) as Hk by (split; [split; simpl; [done|by rewrite H3|done]|done..]).
  destruct r as [|c|bytes]; [done| |].
  - split; [done|exact H5].
  - assert (informed None w1) as Hn1 by (unfold informed; simpl; destruct e'; simpl in *; tauto).
    apply (vsafe_after w w1 _ _ Hk Hn1). destruct bytes as [bytes|]; [|vstep]. vstep; [vstep|]. apply appends_yields; auto with cshell.
Qed.

Lemma whole_fragment_safe i f origin out w : (low <= i < count)%nat -> fragments !! i = Some f -> out_sound out ->
  yields out (whole_fragment word substitute next decoded range_ i f origin out) w.
Proof.
  intros Hi Hf Ho. pose proof (so_fits _ _ _ sound_token) as Hs. rewrite Forall_lookup in Hs. pose proof (Hs _ _ Hf) as (F1 & F2 & F3 & _).
  unfold whole_fragment. destruct (fr_kind f) eqn:Ek; specialize (F3 ltac:(done)) || idtac.
  - vstep.
  - case_bool_decide as Eq.
    + destruct (so_decoded _ _ _ sound_token i f Hf Ek Eq) as [text Et]. vstep. apply vsafe_opt. eexists. split; [exact Et|].
      vstep. apply vsafe_opt. eexists. split; [done|]. by apply scalar_yields.
    + vstep. apply next_at_safe; [lia|]. intros limit Hl. eapply yields_bind; [apply has_content_safe; lia|]. intros content w1 _.
      vstep; [apply range_safe_; [done|lia|done]|by apply scalar_yields].
  - vstep. apply vsafe_bytes; [lia|]. by apply appends_yields, append_appends.
  - vstep.
  - by apply parameter_safe.
  - apply (substitution_safe i f); [done|rewrite Ek; tauto|done].
  - by apply arithmetic_safe.
  - apply (substitution_safe i f); [done|rewrite Ek; tauto|done].
Qed.

Lemma fragments_loop_safe fuel i limit parent cursor end_ origin tilde tilde_ok out w : parent_ok parent -> (limit <= count)%nat ->
  (low <= i)%nat -> (count - i < fuel)%nat -> (end_ <= size)%nat -> out_sound out ->
  yields out (fragments_loop word substitute next decoded range_ fuel i limit parent cursor end_ origin tilde tilde_ok out) w.
Proof.
  intros Hp Hl Hi Hf He. revert i cursor tilde_ok out w Hi Hf. induction fuel as [|fuel IH]; intros i cursor tilde_ok out w Hi Hf Ho; [lia|].
  cbn [fragments_loop]. destruct (Nat.leb_spec limit i); [auto with cshell|]. vstep. apply fragment_safe; [lia|]. intros f Ef (F1 & F2 & F3 & _).
  assert (forall w' cursor' tilde_ok' out', out_sound out' /\ ex_context out' = ex_context out -> yields out
    (let@ j := next_at next i in fragments_loop word substitute next decoded range_ fuel j limit parent cursor' end_ origin tilde tilde_ok' out') w') as Hgo.
  { intros w' cursor' tilde_ok' out' [Ho' Ec]. apply (yields_from _ out'); [done|]. vstep. apply next_at_safe; [lia|]. intros j Hj. apply IH; [lia|lia|done]. }
  destruct (_ || _) eqn:E; [by apply Hgo|]. apply orb_false_iff in E as [E1%Nat.leb_gt E2%Nat.leb_gt].
  set (start := if (fr_begin f <? cursor)%nat then cursor else fr_begin f). set (stop := if (end_ <? fr_end f)%nat then end_ else fr_end f).
  assert (stop <= end_)%nat as Hstop by (unfold stop; destruct (Nat.ltb_spec end_ (fr_end f)); lia).
  assert (forall kind, kind <> CSH_FRAGMENT_TEXT -> yields out (if negb (start =? fr_begin f)%nat || negb (stop =? fr_end f)%nat
    then vfail word CSH_EXPAND_INVALID (Some i) (bs "partial expansion fragment") else
    let@ out := whole_fragment word substitute next decoded range_ i f origin out in
    let@ j := next_at next i in fragments_loop word substitute next decoded range_ fuel j limit parent stop end_ origin tilde false out) w) as Hwhole.
  { intros _ _. vstep; [vstep|]. eapply yields_bind; [apply whole_fragment_safe; [lia|done|done]|]. intros out' w' Ho'. by apply Hgo. }
  destruct (fr_kind f) eqn:Ek; try (apply (Hwhole (fr_kind f)); congruence).
  - destruct (decide (start <= end_)%nat) as [Hse|Hse].
    + eapply yields_bind; [apply text_loop_safe; [done|lia|lia|lia|done]|]. intros [[out' p] t] w' Ho'. by apply Hgo.
    + eapply (yields_bind _ _ _ _ (fun '(out', _, _) _ => out_sound out' /\ ex_context out' = ex_context out)).
      * replace (stop - start)%nat with 0%nat by lia. cbn [text_loop]. rewrite (proj2 (Nat.ltb_ge start stop)) by lia. cbn [negb]. vstep. vstep. by vstep.
      * intros [[out' p] t] w' Ho'. by apply Hgo.
  - by apply Hgo.
Qed.
End Nested.

Lemma range_safe fuel parent begin end_ out origin tilde w : parent_ok parent -> (count - first_child parent < fuel)%nat ->
  (end_ <= size)%nat -> out_sound out -> yields out (range word substitute next decoded fuel parent begin end_ out origin tilde) w.
Proof.
  revert parent begin end_ out origin tilde w. induction fuel as [|fuel IH]; intros parent begin end_ out origin tilde w Hp Hf He Ho; [lia|].
  cbn [range]. unfold range_body. vstep. apply child_limit_safe; [done|]. intros limit Hl. vstep. vstep. vstep; [vstep|].
  apply (fragments_loop_safe _ (first_child parent)); [|done|done|done|lia|done|done].
  intros i b0 e o org t w' Hi He' Ho'. apply IH; [simpl; lia|simpl; lia|done|done].
Qed.
End Walk.
