(* ===== verification/ValuesTheorems.v ===== *)
(** * The expansion of values: theorems

    A whole call of [csh_expand_word]: it returns, a failure undoes what it did
    and says so, and its output keeps the provenance that field splitting
    needs.  Then pattern removal against its definition by matching parts, and
    single texts that stay what they are. *)

From stdpp Require Import base list gmap strings.
From S2P Require Import Prelude Output Numbers Options Character Quote Alias State StateCopy Arithmetic ArithmeticTheorems Expansion Pathname Fields FieldSplitting Process Lexer LexerTotal LexerCalls LexerReplay LexerTheorems Values ValueLogic ValueStructure ValueSafety.

(** ** The state during the preparation *)

(** Code that never touches the state. *)
Definition quiet {A} (m : V A) : Prop := forall w, vs_state (snd (m w)) = vs_state w.

Lemma quiet_bind {A B} (m : V A) (f : A -> V B) : quiet m -> (forall a, quiet (f a)) -> quiet (vbind m f).
Proof. intros H1 H2 w. unfold vbind. specialize (H1 w). destruct (m w) as [[|c|a] w1]; [done..|]. simpl in H1. by rewrite (H2 a w1). Qed.

Lemma quiet_ret {A} (a : A) : quiet (vret a).
Proof. done. Qed.

Lemma quiet_code {A} c : quiet (@vcode A c).
Proof. done. Qed.

Lemma quiet_opt {A} (o : option A) : quiet (vopt o).
Proof. by destruct o. Qed.

Lemma quiet_host {A} (m : M A) : quiet (vhost m).
Proof. intros w. unfold vhost. by destruct (m (vs_proc w)). Qed.

Lemma quiet_vfail word {A} c fragment message : quiet (@vfail word A c fragment message).
Proof. intros w. unfold vfail, vbind, get_error, put_error, vcode, vret. by destruct (vs_error w). Qed.

#[export] Hint Resolve quiet_ret quiet_code quiet_opt quiet_host quiet_vfail : cshell.

Ltac quieted := repeat first
  [ progress intros | solve [auto with cshell] | apply quiet_bind
  | match goal with |- quiet (match ?x with _ => _ end) => destruct x end
  | match goal with |- quiet (let '(_, _) := ?x in _) => destruct x end ].

Section Prepare.
Context `{Locale} (word : csh_token).

Lemma quiet_close stack i parent previous next : quiet (close_subtrees word stack i parent previous next).
Proof. revert previous next. induction stack as [|j stack IH]; intros previous next; cbn [close_subtrees]; unfold fragment_at; quieted. Qed.
Hint Resolve quiet_close : cshell.

Lemma quiet_validate l i stack previous next : quiet (validate word l i stack previous next).
Proof. revert i stack previous next. induction l as [|f l IH]; intros i stack previous next; cbn [validate]; unfold fragment_at; quieted. Qed.
Hint Resolve quiet_validate : cshell.

Lemma quiet_decode l i decoded : quiet (decode_all word l i decoded).
Proof. revert i decoded. induction l as [|f l IH]; intros i decoded; cbn [decode_all]; unfold next_byte, byte_at, bytes_at; quieted. Qed.
Hint Resolve quiet_decode : cshell.

Lemma quiet_prepare : quiet (prepare word).
Proof. unfold prepare. quieted. Qed.
End Prepare.

(** ** A whole call *)

Section Call.
Context {loc : Locale} {LL : LocaleLaws loc} {fs : Files} {users : Users} {db : LocaleDb}.

(** What a call leaves: [m] gives [Q], or fails with the state it found. *)
Definition all_or_nothing {A} (m : V A) (w : expansion_work) (Q : A -> Prop) : Prop :=
  match m w with
  | (VFault, _) => False
  | (VFail c, w') => kept w w' /\ informed (Some c) w' /\ vs_state w' = vs_state w
  | (VDone a, w') => kept w w' /\ informed None w' /\ Q a
  end.

Lemma expand_checked_spec word substitute context w : held w -> informed None w -> from_option (callback_sound word) True substitute ->
  all_or_nothing (expand_checked word substitute context) w (fun out => out_sound out /\ ex_context out = context).
Proof.
  intros Hw Hi Hcb. unfold all_or_nothing, expand_checked. unfold vbind at 1. pose proof (prepare_safe word w Hw Hi) as Hp. pose proof (quiet_prepare word w) as Hq.
  destruct (prepare word w) as [[|c|[next decoded]] w1]; [done|by destruct Hp as [? ?]|]. destruct Hp as (K1 & I1 & E1 & Hs & _).
  unfold vbind at 1, get_state. cbn beta iota. unfold vbind at 1, vhost. rewrite E1. destruct (k_held _ _ K1) as [W1 C1 A1]. rewrite E1 in W1, A1.
  pose proof (save_post (vs_state w) (vs_proc w1) W1 C1) as Hsave. unfold post in Hsave. destruct (csh_state_save (vs_state w) (vs_proc w1)) as [[r checkpoint] p2].
  destruct Hsave as [[[[= -> ->] (_ & _ & _ & Hf)]|[[= -> ->] (_ & _ & _ & Hf)]] _]; cbn beta iota.
  2:{ rewrite bool_decide_false by done. cbn [negb]. unfold vcode. split; [|split; [by apply informed_silent|done]].
      apply (kept_chain _ w1); [done|]. apply kept_same; [split; by rewrite ?E1|by simpl|done|done]. }
  rewrite bool_decide_true by done. cbn [negb]. set (w2 := mk_work (vs_state w) (vs_error w1) (vs_stack w1) (vs_arithmetic w1) p2 (vs_user w1)).
  assert (held w2) as Hw2. { split; simpl; [done| |done]. rewrite Hf. by apply retain_all_positive. }
  pose proof (range_safe word substitute next decoded Hs Hcb (S (length (tk_fragments word))) None 0 (length (raw word)) (empty_expansion context)
    CSH_EXPAND_LITERAL (context_tilde context) w2 I ltac:(simpl; lia) ltac:(lia) (empty_sound _) Hw2 I1) as Hr.
  unfold vbind at 1, vtry. fold w2. destruct (range _ _ _ _ _ _ _ _ _ _ _ w2) as [[|c|out] w3]; [done| |].
  - destruct Hr as [K3 I3]. destruct K3 as [K31 K32 K33 K34]. unfold vbind, vhost. cbn beta iota.
    pose proof (restore_undoes (vs_state w) (vs_state w3) (vs_proc w1) (vs_proc w3) C1) as Hres. unfold post in Hres. simpl in K32, K33.
    rewrite Hf in K33. specialize (Hres (fixed_functions _ _ K32) K33). destruct (csh_state_restore _ _ _) as [[r' s'] p4]. destruct Hres as (Hs' & Hc' & _). simpl in Hs'. subst s'.
    destruct K1 as [_ K12 K13 K14]. split; [|split; done]. split; simpl; [split; simpl; [done|by rewrite Hc'|done]|done|by rewrite Hc'|by rewrite K34].
  - destruct Hr as (K3 & I3 & Ho). destruct K3 as [K31 K32 K33 K34]. unfold vbind, vhost. cbn beta iota.
    pose proof (destroy_undoes (vs_state w) (vs_proc w1) (vs_proc w3) C1) as Hres. unfold post in Hres. simpl in K32, K33. rewrite Hf in K33.
    specialize (Hres K33). destruct (csh_state_checkpoint_destroy _ _) as [[] p4]. destruct Hres as (Hc' & _).
    destruct K1 as [_ K12 K13 K14]. split; [|split; [done|exact Ho]]. split; simpl; [split; simpl; [apply K31|by rewrite Hc'|apply K31]|done|by rewrite Hc'|by rewrite K34].
Qed.

(** The code in the record, when there is one. *)
Definition reported (e : option csh_expand_error) : option (option csh_expand_result) := ee_code <$> e.

Lemma expand_word_spec word options s e stack answers p user : state_wf s -> counts_positive (p_functions p) -> alias_bytes (aliases s) ->
  from_option (callback_sound word) True (options ≫= eo_substitute) ->
  match csh_expand_word word options (mk_work s e stack answers p user) with
  | (VFault, _) => False
  | (VFail c, w') => vs_state w' = s /\ p_functions (vs_proc w') = p_functions p /\ reported (vs_error w') = (fun _ => Some c) <$> e
  | (VDone out, w') => state_wf (vs_state w') /\ fixed (vs_state w') = fixed s /\ p_functions (vs_proc w') = p_functions p /\
      alias_bytes (aliases (vs_state w')) /\ reported (vs_error w') = (fun _ => None) <$> e /\ out_sound out /\
      ex_context out = match options with Some o => eo_context o | None => CSH_EXPAND_ARGUMENT end
  end.
Proof.
  intros Hwf Hpos Hal Hcb. unfold csh_expand_word. set (context := match options with Some o => _ | None => _ end). unfold vbind at 1, get_error. cbn beta iota.
  unfold vbind at 1, put_error. cbn [vs_state vs_error vs_stack vs_arithmetic vs_proc vs_user].
  set (w := mk_work s _ stack answers p user). assert (held w) as Hw by done. assert (informed None w) as Hi.
  { unfold informed, w. destruct e; [by left|done]. }
  pose proof (expand_checked_spec word (options ≫= eo_substitute) context w Hw Hi Hcb) as H. unfold all_or_nothing in H. unfold reporting, vbind at 1, vtry.
  assert (forall w', (vs_error w' = None <-> vs_error w = None) -> (e = None <-> vs_error w' = None)) as He.
  { intros w' Hx. rewrite Hx. unfold w. simpl. by destruct e. }
  destruct (expand_checked _ _ _ w) as [[|c|out] w1]; [done| |].
  - destruct H as ([K1 K2 K3 K4] & I & E). specialize (He w1 K4). unfold vbind at 1, get_error. cbn beta iota. unfold informed in I.
    destruct (vs_error w1) as [e1|] eqn:E1; destruct e as [e|]; try (exfalso; by destruct He as [H1 H2]; first [discriminate (H1 eq_refl)|discriminate (H2 eq_refl)]).
    + case_bool_decide as Ec.
      * unfold vfail, vbind, get_error, put_error, vcode. rewrite E1. cbn beta iota. split; [done|]. split; [done|]. done.
      * simpl in I. destruct I as [I|I]; [done|]. unfold vcode, reported. rewrite E1. split; [done|]. split; [done|]. simpl. by rewrite I.
    + unfold vcode, reported. rewrite E1. by split_and!.
  - destruct H as ([K1 K2 K3 K4] & I & Ho & Ec). specialize (He w1 K4). unfold vret. split_and!; [apply K1|done|done|apply K1| |done|done].
    unfold informed in I. unfold reported. destruct (vs_error w1) as [e1|]; destruct e as [e|];
      try (exfalso; by destruct He as [H1 H2]; first [discriminate (H1 eq_refl)|discriminate (H2 eq_refl)]).
    + simpl in I |- *. by destruct I as [->| ->].
    + done.
Qed.

(** C15: a failing word leaves no trace.  When [csh_expand_word] fails, at
    whatever point (after assignments of [${name:=word}] and of arithmetic, in a
    command substitution, for lack of memory or stack), the complete shell state
    is the one before the call, the reference counts are too, and the error
    record, when one is passed, has the code that is returned. *)
Theorem expand_word_rollback (word : csh_token) (options : option csh_expand_options) (s : csh_state) (e : option csh_expand_error)
    (stack : list bool) (answers : list (list bool)) (p : proc) (user : Z * outside) (Hwf : state_wf s) (Hpos : counts_positive (p_functions p))
    (Hal : alias_bytes (aliases s)) (Hcb : from_option (callback_sound word) True (options ≫= eo_substitute)) (c : csh_expand_result) (w' : expansion_work) 
    (Hfail : csh_expand_word word options (mk_work s e stack answers p user) = (VFail c, w')) :
  vs_state w' = s /\ p_functions (vs_proc w') = p_functions p /\ reported (vs_error w') = (fun _ => Some c) <$> e.
Proof.
  pose proof (expand_word_spec word options s e stack answers p user Hwf Hpos Hal Hcb) as H. by rewrite Hfail in H.
Qed.
End Call.

(** ** Pattern removal *)

(** The offsets at which the loop stops to compare: from [from] on, character
    by character. *)
Inductive boundary `{Locale} (value : str) (from : nat) : nat -> Prop :=
  | boundary_here : boundary value from from
  | boundary_next o : (from < length value)%nat -> boundary value (from + character_bytes (drop from value)) o -> boundary value from o.

Section Removal.
Context {loc : Locale} {LL : LocaleLaws loc} {users : Users}.
Context (value pattern : str) (suffix : bool).

(** The part of the value that is compared, and the part that stays. *)
Definition removed_part (o : nat) : str := if suffix then drop o value else take o value.
Definition kept_part (o : nat) : str := if suffix then take o value else drop o value.
Definition matches_at (o : nat) : bool := fn_match_all pattern (removed_part o).

Lemma character_step from : (from < length value)%nat -> (1 <= character_bytes (drop from value) <= length value - from)%nat.
Proof.
  intros H. rewrite <- length_drop. apply character_bytes_bound. intros E. apply (f_equal length) in E. rewrite length_drop in E. simpl in E. lia.
Qed.

Lemma boundary_bound from o : (from <= length value)%nat -> boundary value from o -> (from <= o <= length value)%nat.
Proof.
  intros Hf Hb. induction Hb as [|from o Hlt Hb IH]; [lia|].
  pose proof (character_step from Hlt). lia.
Qed.

(** What the search for the first or the last match selects. *)
Definition selects (first : bool) (from : nat) (selected r : option nat) : Prop :=
  (exists o, r = Some o /\ boundary value from o /\ matches_at o = true /\
     forall o', boundary value from o' -> matches_at o' = true -> if first then (o <= o')%nat else (o' <= o)%nat) \/
  (r = selected /\ forall o', boundary value from o' -> matches_at o' = false).

Lemma remove_loop_selects longest fuel from selected : (from <= length value)%nat -> (length value - from < fuel)%nat ->
  exists r, remove_loop fuel value pattern suffix longest from selected = Some r /\ selects (eqb suffix longest) from selected r.
Proof.
  revert from selected. induction fuel as [|fuel IH]; intros from selected Hf Hfuel; [lia|]. cbn [remove_loop].
  fold (removed_part from). fold (matches_at from). destruct (matches_at from) eqn:Em; cbn [andb].
  - destruct (eqb suffix longest) eqn:El; cbn [orb].
    + eexists. split; [done|]. left. exists from. split; [done|]. split; [constructor|]. split; [done|].
      intros o' Ho' _. apply boundary_bound in Ho'; lia.
    + destruct (Nat.eqb_spec from (length value)) as [E|E].
      * eexists. split; [done|]. left. exists from. split; [done|]. split; [constructor|]. split; [done|]. intros o' Ho' _. apply boundary_bound in Ho'; lia.
      * pose proof (character_step from ltac:(lia)) as Hc.
        destruct (IH (from + character_bytes (drop from value))%nat (Some from)) as (r & Er & Hr); [lia..|]. eexists. split; [exact Er|]. left.
        destruct Hr as [(o & -> & Ho & Hm & Hmax)|[-> Hnone]].
        -- exists o. split; [done|]. split; [constructor; [lia|done]|]. split; [done|]. apply boundary_bound in Ho; [|lia].
           intros o' Ho' Hm'. inversion Ho' as [|o1 Hlt Hnext]; subst; [lia|by apply Hmax].
        -- exists from. split; [done|]. split; [constructor|]. split; [done|]. intros o' Ho' Hm'.
           inversion Ho' as [|o1 Hlt Hnext]; subst; [lia|]. apply Hnone in Hnext. congruence.
  - destruct (Nat.eqb_spec from (length value)) as [E|E]; cbn [orb].
    + eexists. split; [done|]. right. split; [done|]. intros o' Ho'. inversion Ho' as [|o1 Hlt Hnext]; subst; [done|lia].
    + pose proof (character_step from ltac:(lia)) as Hc.
      destruct (IH (from + character_bytes (drop from value))%nat selected) as (r & Er & Hr); [lia..|]. eexists. split; [exact Er|].
      destruct Hr as [(o & -> & Ho & Hm & Hmax)|[-> Hnone]].
      * left. exists o. split; [done|]. split; [constructor; [lia|done]|]. split; [done|]. intros o' Ho' Hm'.
        inversion Ho' as [|o1 Hlt Hnext]; subst; [congruence|by apply Hmax].
      * right. split; [done|]. intros o' Ho'. inversion Ho' as [|o1 Hlt Hnext]; subst; [done|by apply Hnone].
Qed.

(** C16: pattern removal removes the right part.  [${v#p}] and [${v%p}]
    remove the shortest, [${v##p}] and [${v%%p}] the longest prefix or suffix of
    the value that matches, among those that end and begin between characters;
    what stays is the rest of the value, or all of it when nothing matches. *)
Theorem remove_pattern_correct (longest : bool) :
  exists rest, remove_pattern value pattern suffix longest = Some rest /\
    ((exists o, boundary value 0 o /\ matches_at o = true /\ rest = kept_part o /\
        forall o', boundary value 0 o' -> matches_at o' = true ->
          if longest then (length (removed_part o') <= length (removed_part o))%nat
          else (length (removed_part o) <= length (removed_part o'))%nat) \/
     (rest = value /\ forall o', boundary value 0 o' -> matches_at o' = false)).
Proof.
  unfold remove_pattern. destruct (remove_loop_selects longest (S (length value)) 0 None) as (r & -> & Hr); [lia..|].
  destruct Hr as [(o & -> & Ho & Hm & Hmax)|[-> Hnone]]; [|eexists; split; [done|]; by right].
  exists (kept_part o). split; [done|]. left. exists o. split; [done|]. split; [done|]. split; [done|]. intros o' Ho' Hm'. specialize (Hmax o' Ho' Hm').
  apply boundary_bound in Ho, Ho'; [|lia..]. unfold removed_part.
  destruct suffix, longest; simpl in Hmax; rewrite ?length_drop, ?length_take; lia.
Qed.
End Removal.

(** ** Indices *)

(** The number that a string of digits writes. *)
Definition decimal_value (name : str) (acc : Z) : Z := fold_left (fun n c => n * 10 + (c - ch "0")) name acc.

Lemma decimal_value_ge name acc : Forall (fun c => digit c = true) name -> 0 <= acc -> acc <= decimal_value name acc.
Proof.
  intros H. revert acc. induction H as [|c name Hc H IH]; intros acc Ha; simpl; [lia|]. unfold digit, between in Hc. bsimp.
  assert (0 <= c - ch "0" <= 9) by (change (ch "9") with 57 in *; change (ch "0") with 48 in *; lia).
  specialize (IH (acc * 10 + (c - ch "0")) ltac:(lia)). lia.
Qed.

Lemma parameter_index_spec name acc : Forall (fun c => digit c = true) name -> 0 <= acc <= SIZE_MAX ->
  parameter_index name acc = if decimal_value name acc <=? SIZE_MAX then Some (decimal_value name acc) else None.
Proof.
  intros H. revert acc. induction H as [|c name Hc H IH]; intros acc Ha.
  { cbn [parameter_index decimal_value fold_left]. by rewrite (proj2 (Z.leb_le _ _)) by lia. }
  cbn [parameter_index]. change (decimal_value (c :: name) acc) with (decimal_value name (acc * 10 + (c - ch "0"))).
  unfold digit, between in Hc. bsimp. assert (0 <= c - ch "0" <= 9) as Hd by (change (ch "9") with 57 in *; change (ch "0") with 48 in *; lia).
  set (d := c - ch "0") in *. destruct (Z.ltb_spec ((SIZE_MAX - d) / 10) acc) as [Hlt|Hge].
  - pose proof (Z.mul_succ_div_gt (SIZE_MAX - d) 10 ltac:(lia)). assert (SIZE_MAX < acc * 10 + d) by lia.
    pose proof (decimal_value_ge name (acc * 10 + d) H ltac:(lia)). rewrite (proj2 (Z.leb_gt _ _)) by lia. done.
  - apply IH. pose proof (Z.mul_div_le (SIZE_MAX - d) 10 ltac:(lia)). lia.
Qed.

(** A positional parameter is never the wrong one.  The digits of
    [${123}] give their decimal value, or an invalid expansion when it does not
    fit in [size_t]; the index never wraps around. *)
Theorem parameter_index_exact (name : str) (Hdigits : Forall (fun c => digit c = true) name) :
  parameter_index name 0 = if decimal_value name 0 <=? SIZE_MAX then Some (decimal_value name 0) else None.
Proof. apply parameter_index_spec; [done|]. unfold SIZE_MAX. lia. Qed.

(** ** Examples *)

#[local] Existing Instance c_locale.
#[local] Existing Instance any_locale.
#[local] Existing Instance tiny_files.
#[local] Instance no_users : Users := {| user_home _ := None; fn_match_all p s := bool_decide (p = s) |}.

(** The words the lexer makes of a text. *)
Definition word_of (s : str) : csh_token :=
  default (mk_token CSH_TOKEN_WORD [] [] no_position no_position [] None None no_position false) (last_token [feed_text s true; CallNext]).

(** A process without descriptors and children. *)
Definition idle : outside :=
  mk_outside (Jobs.mk_host sample_proc (Signals.mk_signals ∅ [] false 0 0) ∅ [] [] [] [] [] 0 0 ENONE) (Descriptors.mk_kernel ∅ ∅ 0 0 [] [] [] 0) 0 None.

Definition answer_out : substitute_callback := fun s e p u _ _ => (VDone (Some (bs "out")), s, e, p, u).

Lemma answer_out_sound word : callback_sound word answer_out.
Proof. intros s e p u i f Hs Hp Ha He _ _ _. unfold answer_out. by split_and!. Qed.

Lemma sample_alias_bytes : alias_bytes (aliases sample_state).
Proof. repeat constructor; done. Qed.

Definition cleared : csh_expand_error := mk_expand_error None None no_position [].

(** An assignment, then arithmetic, then a backquote. *)
Definition good_word : str := bs "~/x${one:=a}$((z=1+2))'q'`c` ".
Definition bad_word : str := bs "${one:=a}$((z=1/0)) ".

Lemma expand_word_rollback_witness : exists w',
  csh_expand_word (word_of bad_word) None (mk_work sample_state (Some cleared) [] [] sample_proc (0, idle)) = (VFail CSH_EXPAND_ARITHMETIC_ERROR, w') /\
  vs_state w' = sample_state /\ reported (vs_error w') = Some (Some CSH_EXPAND_ARITHMETIC_ERROR).
Proof.
  destruct (csh_expand_word (word_of bad_word) None (mk_work sample_state (Some cleared) [] [] sample_proc (0, idle))) as [r w'] eqn:E.
  assert (r = VFail CSH_EXPAND_ARITHMETIC_ERROR) as -> by (vm_compute in E; injection E as <- _; reflexivity).
  exists w'. split; [reflexivity|].
  pose proof (expand_word_rollback (word_of bad_word) None sample_state (Some cleared) [] [] sample_proc (0, idle) sample_state_wf sample_proc_counts sample_alias_bytes I
    CSH_EXPAND_ARITHMETIC_ERROR w' E) as H. split; apply H.
Defined.

Lemma remove_pattern_correct_witness :
  remove_pattern (bs "abab") (bs "ab") true false = Some (bs "ab") /\
  exists rest, remove_pattern (bs "abab") (bs "ab") true false = Some rest.
Proof.
  split; [vm_compute; reflexivity|]. destruct (remove_pattern_correct (bs "abab") (bs "ab") true false) as (rest & E & _). exists rest. exact E.
Defined.

Lemma parameter_index_exact_witness : parameter_index (bs "18446744073709551616") 0 = None /\ decimal_value (bs "012") 0 = 12.
Proof.
  split; [|vm_compute; reflexivity]. rewrite (parameter_index_exact (bs "18446744073709551616")); [vm_compute; reflexivity|].
  repeat (apply List.Forall_cons; [vm_compute; reflexivity|]). exact (List.Forall_nil _).
Defined.
