(* ===== verification/LexerKinds.v ===== *)
(** * The lexer: what its calls leave alone

    The fragments of a pending word are only added to, and the suspended lexers
    behind the active one change in their spellings alone, unless recovery
    takes the word back.  The parser relies on this for the fragments that its
    command substitutions stand for. *)

From stdpp Require Import base list gmap strings sorting.
From S2P Require Import Prelude Output State Arithmetic Character Expansion Lexer LexerLook LexerTree LexerSafety LexerTurns LexerTotal LexerCalls LexerReplay.

(** [calm] says that the checkpoints stay as they are, too: words that are read
    again need this of their first steps. *)
Section Steps.
Context {loc : Locale} {db : LocaleDb} {calm : bool}.

(** The kinds of the fragments of a pending word. *)
Definition kinds (x : csh_lexer) : list csh_fragment_kind := if active x then map fr_kind (fragments x) else [].

(** A checkpoint has the captures of its whole chain. *)
Definition caps (x : csh_lexer) (behind : list csh_lexer) : Prop :=
  Forall (fun c => length (cp_captures c) = S (length behind)) (arithmetic x) /\
  StronglySorted ge (length (fragments x) :: map cp_fragment_count (arithmetic x)).
Definition fit (t : tape) : Prop := match t_lexers t with x :: b => caps x b | [] => False end.

(** No command substitution is announced. *)
Definition laterc (x x' : csh_lexer) : Prop :=
  kinds x `prefix_of` kinds x' /\ (command x' = true -> command x = true) /\
  (calm = true -> arithmetic x' = arithmetic x).

(** The fragments that a checkpoint goes back to are those of before. *)
Definition cut (x x' : csh_lexer) : Prop :=
  forall c j k, c ∈ arithmetic x' -> (j < cp_fragment_count c)%nat -> kinds x !! j = Some k -> kinds x' !! j = Some k.
Definition falls (x x' : csh_lexer) : Prop := if calm then laterc x x' else cut x x'.

Definition stillc (t t' : tape) : Prop :=
  fit t' /\
  match t_lexers t, t_lexers t' with
  | x :: b, x' :: b' => laterc x x' /\ Forall2 alike b b'
  | _, _ => False
  end.

(** The frames are those of before, too. *)
Definition context (t : tape) : option (list frame * bool) := (fun x => (frames x, active x)) <$> head (t_lexers t).
Definition steadyc (t t' : tape) : Prop := stillc t t' /\ context t' = context t.

(** After a failure: the words are given up, or the suspended lexers are kept. *)
Definition sparesc (t t' : tape) : Prop :=
  exists above x b, t_lexers t' = above ++ x :: b /\ length b = length (tail (t_lexers t)) /\
    (Forall (fun y => arithmetic y = []) (t_lexers t') \/
     (above = [] /\ Forall2 alike (tail (t_lexers t)) b /\ forall x0 b0, t_lexers t = x0 :: b0 -> falls x0 x)).

Lemma alike_refl x : alike x x.
Proof. done. Qed.
Lemma alikes_refl l : Forall2 alike l l.
Proof. induction l; by constructor. Qed.
Lemma alikes_trans a b c : Forall2 alike a b -> Forall2 alike b c -> Forall2 alike a c.
Proof.
  intros H. revert c. induction H as [|x y a b (E1 & E2 & E3 & E4) H IH]; intros c Hc; inversion Hc as [|? z ? ? (F1 & F2 & F3 & F4)]; subst; constructor.
  - repeat split; congruence.
  - by apply IH.
Qed.

Lemma later_refl x : laterc x x.
Proof. done. Qed.
Lemma later_trans x y z : laterc x y -> laterc y z -> laterc x z.
Proof. intros (H1 & H2 & H3) (H4 & H5 & H6). split; [by etrans|]. split; [auto|]. intros H. by rewrite H6, H3. Qed.

Lemma later_falls x y z : laterc x y -> falls y z -> falls x z.
Proof.
  unfold falls. destruct calm eqn:Ec; [by apply later_trans|]. intros ([r Er] & _) H c j k Hc Hj Hk. apply (H c); [done|done|].
  rewrite Er. by apply lookup_app_l_Some.
Qed.

Lemma falls_refl x : falls x x.
Proof. unfold falls. destruct calm; [apply later_refl|by intros c j k]. Qed.

Lemma fit_lexers t : fit t -> t_lexers t <> [].
Proof. unfold fit. by destruct (t_lexers t). Qed.

Lemma still_refl t : fit t -> stillc t t.
Proof. unfold stillc, fit. destruct (t_lexers t) as [|x b]; [done|]. intros H. split; [done|]. split; [apply later_refl|apply alikes_refl]. Qed.

Lemma still_fit t t' : stillc t t' -> fit t'.
Proof. by intros []. Qed.

Lemma still_length t t' : stillc t t' -> length (t_lexers t') = length (t_lexers t).
Proof. intros [_ H]. destruct (t_lexers t), (t_lexers t'); try done. destruct H as [_ H%Forall2_length]. simpl. lia. Qed.

Lemma still_trans a b c : stillc a b -> stillc b c -> stillc a c.
Proof.
  unfold stillc. destruct (t_lexers a), (t_lexers b), (t_lexers c); try (by intros [_ []]); try (by intros _ [_ []]).
  intros (H0 & H1 & H2) (H3 & H4 & H5). split; [done|]. split; [by eapply later_trans|by eapply alikes_trans].
Qed.

Lemma spares_trans a b c : stillc a b -> sparesc b c -> sparesc a c.
Proof.
  intros H (above & x & l & E & El & Hr). exists above, x, l. split; [done|]. pose proof (still_length _ _ H).
  destruct H as [_ H]. destruct (t_lexers a), (t_lexers b); try done. cbn in *. split; [lia|].
  destruct Hr as [Hr|(-> & Hr & Hf)]; [by left|right]. split; [done|]. split; [eapply alikes_trans; [apply H|done]|]. intros x0 b0 [= <- <-].
  eapply later_falls; [apply H|by eapply Hf].
Qed.

(** ** The logic of calls, relative to a tape before *)

Definition spostc {A} (t0 : tape) (m : L A) (t : tape) (Q : A -> tape -> Prop) : Prop :=
  match m t with
  | (Done a, t') => Q a t'
  | (Failed _, t') => sparesc t0 t'
  | (Fault, _) => True
  end.

Lemma spost_ret {A} t0 (a : A) t (Q : A -> tape -> Prop) : Q a t -> spostc t0 (lret a) t Q.
Proof. done. Qed.
Lemma spost_fault {A} t0 t (Q : A -> tape -> Prop) : spostc t0 lfault t Q.
Proof. done. Qed.
Lemma spost_bind {A B} t0 (m : L A) (f : A -> L B) t Q :
  spostc t0 m t (fun a t' => spostc t0 (f a) t' Q) -> spostc t0 (lbind m f) t Q.
Proof. unfold spostc, lbind. by destruct (m t) as [[|e|a] t']. Qed.
Lemma spost_mono {A} t0 (m : L A) t (Q Q' : A -> tape -> Prop) :
  spostc t0 m t Q -> (forall a t', Q a t' -> Q' a t') -> spostc t0 m t Q'.
Proof. unfold spostc. destruct (m t) as [[|e|a] t']; auto. Qed.
Lemma spost_get_source {B} t0 (f : source -> L B) t Q : spostc t0 (f (t_source t)) t Q -> spostc t0 (lbind get_source f) t Q.
Proof. done. Qed.
Lemma spost_get_lexers {B} t0 (f : list csh_lexer -> L B) t Q :
  spostc t0 (f (t_lexers t)) t Q -> spostc t0 (lbind get_lexers f) t Q.
Proof. done. Qed.
Lemma spost_get_lexer {B} t0 (f : csh_lexer -> L B) t Q :
  (forall x b, t_lexers t = x :: b -> spostc t0 (f x) t Q) -> spostc t0 (lbind get_lexer f) t Q.
Proof. intros H. unfold spostc, lbind, get_lexer. destruct (t_lexers t) as [|x b] eqn:E; [done|]. by apply (H x b). Qed.

Definition with_head (t : tape) (y : csh_lexer) : tape := set_lexers t (y :: tail (t_lexers t)).

Lemma still_head t0 t x b y : stillc t0 t -> t_lexers t = x :: b -> laterc x y -> (caps x b -> caps y b) ->
  stillc t0 (with_head t y).
Proof.
  unfold stillc, fit. intros [Hf H] E Hk Hc. cbn [with_head set_lexers t_lexers]. rewrite E in *. destruct (t_lexers t0); [done|].
  destruct H. split; [by apply Hc|]. split; [by eapply later_trans|done].
Qed.

Lemma still_same t0 t t' : stillc t0 t -> t_lexers t' = t_lexers t -> stillc t0 t'.
Proof. unfold stillc, fit. by intros H ->. Qed.

Lemma spost_lmalloc {B} t0 (f : bool -> L B) t Q :
  (forall b w, spostc t0 (f b) (set_proc t w) Q) -> spostc t0 (lbind lmalloc f) t Q.
Proof. intros H. unfold spostc, lbind, lmalloc. destruct (malloc (t_proc t)) as [b w]. apply H. Qed.

Lemma spost_fail_at {A} t0 x text number p t (Q : A -> tape -> Prop) : stillc t0 t -> spostc t0 (fail_at x text number p) t Q.
Proof.
  intros H. pose proof (still_length _ _ H) as El. destruct H as [_ H]. unfold spostc, fail_at.
  destruct (t_lexers t0) as [|x0 b0] eqn:E0; [done|]. destruct (t_lexers t) as [|x1 b1] eqn:E1; [done|]. injection El as El.
  destruct (has_failed _); [|destruct (_ && _)].
  1, 2: exists [], x1, b1; rewrite E0; split; [done|]; split; [done|right]; split; [done|]; split; [apply H|]; intros ? ? [= <- <-];
    eapply later_falls; [apply H|apply falls_refl].
  exists [], (release_work x1), (map release_work b1). cbn. rewrite E0. cbn. rewrite length_map. split; [done|]. split; [done|].
  left. constructor; [done|]. apply Forall_map, Forall_true. by intros.
Qed.

Lemma spost_fail {A} t0 text number t (Q : A -> tape -> Prop) : stillc t0 t -> spostc t0 (fail text number) t Q.
Proof.
  intros H. unfold fail. apply spost_get_lexer. intros x b E. apply spost_get_source. by apply spost_fail_at.
Qed.

Lemma spost_grow {B} t0 count size text (f : unit -> L B) t Q : stillc t0 t ->
  (forall w, spostc t0 (f tt) (set_proc t w) Q) -> spostc t0 (lbind (grow count size text) f) t Q.
Proof.
  intros Hs H. apply spost_bind. unfold grow. apply spost_bind. unfold reserve. destruct (_ <? _).
  - apply spost_ret. by apply spost_fail.
  - apply spost_lmalloc. intros b w. apply spost_ret. destruct b; [apply spost_ret, H|by apply spost_fail].
Qed.

(** An operation with a relation of its own between the tapes. *)
Lemma spost_call {A B} (R : A -> tape -> tape -> Prop) t0 (m : L A) (f : A -> L B) t Q :
  stillc t0 t -> (forall t, fit t -> spostc t m t (fun a t' => R a t t')) ->
  (forall a t', R a t t' -> spostc t0 (f a) t' Q) -> spostc t0 (lbind m f) t Q.
Proof.
  intros Hs Hm Hf. apply spost_bind. specialize (Hm t ltac:(by eapply still_fit)). unfold spostc in *.
  destruct (m t) as [[|e|a] t'] eqn:E; [done|by eapply spares_trans|]. exact (Hf a t' Hm).
Qed.

Lemma spost_last {A} (R : A -> tape -> tape -> Prop) t0 (m : L A) t Q :
  stillc t0 t -> (forall t, fit t -> spostc t m t (fun a t' => R a t t')) ->
  (forall a t', R a t t' -> Q a t') -> spostc t0 m t Q.
Proof.
  intros Hs Hm Hf. specialize (Hm t ltac:(by eapply still_fit)). unfold spostc in *.
  destruct (m t) as [[|e|a] t'] eqn:E; [done|by eapply spares_trans|]. exact (Hf a t' Hm).
Qed.

(** ** The primitive operations *)

Lemma alike_kinds x y : alike x y -> kinds y = kinds x.
Proof. intros (E1 & _ & _ & E). unfold kinds. injection E as -> _ _ _ _ _ _. by rewrite E1. Qed.

Lemma caps_alike x y b b' : alike x y -> Forall2 alike b b' -> caps x b -> caps y b'.
Proof.
  intros (E1 & _ & E2 & E) Hb%Forall2_length. unfold caps. by rewrite E1, E2, Hb.
Qed.

Lemma caps_more x y b : arithmetic y = arithmetic x -> (length (fragments x) <= length (fragments y))%nat ->
  caps x b -> caps y b.
Proof.
  unfold caps. intros -> Hl (H1 & [H3 H4]%StronglySorted_inv). split; [done|]. constructor; [done|].
  eapply Forall_impl; [exact H4|]. intros n. simpl. lia.
Qed.

Lemma alike_later x y : alike x y -> laterc x y.
Proof.
  intros H. split; [by rewrite (alike_kinds _ _ H)|]. destruct H as (_ & _ & Ea & E). split; [|done]. by injection E as _ _ _ _ _ -> _.
Qed.

Lemma later_fragments x y : active y = active x -> command y = command x -> arithmetic y = arithmetic x ->
  (active x = true -> map fr_kind (fragments x) `prefix_of` map fr_kind (fragments y)) -> laterc x y.
Proof. intros E1 E2 E3 H. split; [|by rewrite E2]. unfold kinds. rewrite E1. destruct (active x); [auto|done]. Qed.

Lemma steady_refl t : fit t -> steadyc t t.
Proof. intros H. split; [by apply still_refl|done]. Qed.
Lemma steady_trans a b c : steadyc a b -> steadyc b c -> steadyc a c.
Proof. intros [H1 E1] [H2 E2]. split; [by eapply still_trans|congruence]. Qed.
Lemma steady_same t0 t t' : steadyc t0 t -> t_lexers t' = t_lexers t -> steadyc t0 t'.
Proof. intros [H E] El. split; [by eapply still_same|by unfold context; rewrite El]. Qed.
Lemma steady_head t0 t x b y : steadyc t0 t -> t_lexers t = x :: b -> laterc x y -> frames y = frames x ->
  active y = active x -> (caps x b -> caps y b) -> steadyc t0 (with_head t y).
Proof. intros [H E] El Hk Ef Ea Hc. split; [by eapply still_head|]. rewrite <- E. unfold context. rewrite El. cbn. by rewrite Ef, Ea. Qed.

Lemma spost_calm {A B} t0 (m : L A) (f : A -> L B) t Q : steadyc t0 t ->
  (forall t, fit t -> spostc t m t (fun _ t' => steadyc t t')) ->
  (forall a t', steadyc t0 t' -> spostc t0 (f a) t' Q) -> spostc t0 (lbind m f) t Q.
Proof.
  intros Hs Hm Hf. eapply (spost_call (fun _ => steadyc)); [apply Hs|exact Hm|]. intros a t' H. apply Hf. by eapply steady_trans.
Qed.

Lemma spost_moves {A B} t0 (m : L A) (f : A -> L B) t Q : stillc t0 t ->
  (forall t, fit t -> spostc t m t (fun _ t' => stillc t t')) ->
  (forall a t', stillc t0 t' -> spostc t0 (f a) t' Q) -> spostc t0 (lbind m f) t Q.
Proof.
  intros Hs Hm Hf. eapply (spost_call (fun _ => stillc)); [apply Hs|exact Hm|]. intros a t' H. apply Hf. by eapply still_trans.
Qed.

Lemma steady_still {A} t (m : L A) : spostc t m t (fun _ t' => steadyc t t') -> spostc t m t (fun _ t' => stillc t t').
Proof. intros H. eapply spost_mono; [exact H|]. intros a t' [Hs _]. exact Hs. Qed.

Lemma capture_byte_alike x d self b t : fit t ->
  spostc t (capture_byte x d self b) t (fun x' t' => alike x x' /\ t_lexers t' = t_lexers t).
Proof.
  intros Hne. unfold capture_byte. apply spost_get_source. destruct (negb (active x) || _); [done|].
  destruct (_ =? _); [by apply spost_fail, still_refl|]. destruct (advance _ _); [|by apply spost_fail, still_refl].
  apply spost_grow; [by apply still_refl|]. intros w. by apply spost_ret.
Qed.

Lemma capture_lexers_alike l self b t : fit t ->
  spostc t (capture_lexers l self b) t (fun l' t' => Forall2 alike l l' /\ t_lexers t' = t_lexers t).
Proof.
  revert self t. induction l as [|x l IH]; intros self t Hne; cbn [capture_lexers]; [by apply spost_ret|].
  eapply spost_call; [by apply still_refl|intros; by apply IH|]. intros l' t1 [Hl E1]. cbn beta.
  eapply spost_call; [eapply still_same; [by apply still_refl|done]|intros; by apply capture_byte_alike|].
  intros x' t2 [Hx E2]. cbn beta. apply spost_ret. split; [by constructor|congruence].
Qed.

Lemma consume_byte_steady t : fit t -> spostc t consume_byte t (fun _ t' => steadyc t t').
Proof.
  intros Hne. unfold consume_byte. apply spost_get_source. destruct (data _ !! _) as [b|]; [|done].
  pose proof (still_refl t Hne) as Hs. destruct (b =? 0); [by apply spost_fail|]. destruct (advance _ _); [|by apply spost_fail].
  destruct (_ =? _); [by apply spost_fail|]. apply spost_get_lexers.
  eapply spost_call; [done|intros; by apply capture_lexers_alike|]. intros l t1 [Hl E1].
  change (steadyc t (set_source (set_lexers t1 l) (leave_aliases (so_aliases (t_source t)) (with_data
    (with_sequence (with_so_position (t_source t) c) (sequence (t_source t) + 1)) (data (t_source t))
    (cursor (t_source t) + 1) (so_aliases (t_source t)))))).
  unfold steadyc, stillc. unfold fit in *. cbn [set_source set_lexers t_lexers]. inversion Hl as [E|x x' b0 b' Hx Hb E E']; [by rewrite <- E in Hne|].
  rewrite <- E in Hne. split; [split; [|split; [by apply alike_later|done]]|].
  { by eapply caps_alike. } unfold context. rewrite <- E. cbn.
  destruct Hx as (_ & -> & _ & Ef). by injection Ef as -> _ _ _ _ _ _.
Qed.

Lemma consume_steady count t : fit t -> spostc t (consume count) t (fun _ t' => steadyc t t').
Proof.
  intros Hne. unfold consume. apply spost_get_source.
  change (spostc t (consume_loop count) (set_source t (no_look (t_source t))) (fun _ t' => steadyc t t')).
  assert (steadyc t (set_source t (no_look (t_source t)))) as Hs by (eapply steady_same; [by apply steady_refl|done]).
  revert Hs. generalize (set_source t (no_look (t_source t))). induction count as [|n IH]; intros t1 Hs; cbn [consume_loop]; [by apply spost_ret|].
  eapply spost_calm; [done|apply consume_byte_steady|]. intros _ t2 Hs2. by apply IH.
Qed.

Lemma add_fragment_steady k q t : fit t -> spostc t (add_fragment k q) t (fun i t' => steadyc t t' /\
  exists x0 b0 x b, t_lexers t = x0 :: b0 /\ t_lexers t' = x :: b /\ i = length (fragments x0) /\
    (active x0 = true -> kinds x !! i = Some k)).
Proof.
  intros Hne. unfold add_fragment. apply spost_get_lexer. intros x b E. apply spost_grow; [by apply still_refl|]. intros w.
  apply spost_bind, spost_ret. split.
  - eapply steady_head; [eapply steady_same; [by apply steady_refl|done]|exact E| |done|done|].
    2: { apply caps_more; [done|]. cbn. rewrite length_app. lia. }
    apply later_fragments; [done..|]. intros _. cbn. rewrite map_app. by apply prefix_app_r.
  - exists x, b. cbn. rewrite E. eexists _, _. split; [done|]. split; [done|]. split; [done|]. intros Ha. unfold kinds. cbn.
    rewrite Ha, map_app, lookup_app_r by by rewrite length_map. by rewrite length_map, Nat.sub_diag.
Qed.

Lemma finish_fragment_steady i t : fit t -> spostc t (finish_fragment i) t (fun _ t' => steadyc t t').
Proof.
  intros Hne. unfold finish_fragment. apply spost_get_lexer. intros x b E. destruct (fragments x !! i) as [f|] eqn:Ef; [|done].
  eapply steady_head; [by apply steady_refl|exact E| |done|done|].
  2: { apply caps_more; [done|]. cbn. by rewrite length_insert. }
  apply later_fragments; [done..|]. intros _. cbn.
  rewrite <- (list_insert_id (fragments x) i f) at 1 by done. change (@map) with (@fmap list list_fmap) in *.
  by rewrite !list_fmap_insert.
Qed.

Lemma piece_steady k q count t : fit t -> spostc t (piece k q count) t (fun _ t' => steadyc t t').
Proof.
  intros Hne. unfold piece. apply spost_get_lexer. intros x b E.
  eapply (spost_calm t); [by apply steady_refl| |].
  - intros t1 H1. destruct (extends x k q); [by apply spost_ret, steady_refl|].
    eapply spost_mono; [by apply add_fragment_steady|]. intros i t' [Hs _]. exact Hs.
  - intros i t1 H1. eapply spost_calm; [done|apply consume_steady|]. intros _ t2 H2.
    eapply spost_last; [apply H2|apply finish_fragment_steady|]. intros [] t3 H3. by eapply steady_trans.
Qed.

Lemma lex_peek_steady n t : fit t -> spostc t (lex_peek n) t (fun _ t' => steadyc t t').
Proof.
  intros Hne. unfold lex_peek. apply spost_get_source. cbv zeta. destruct (look_loop _ _ _ _ _ _) as [[[answer scan] positions]|]; [|done].
  apply spost_bind. unfold spostc, put_source. destruct answer as [z|].
  - eapply steady_same; [by apply steady_refl|done].
  - destruct (positions !! n); [|done]. destruct (_ !! _); [|done]. eapply steady_same; [by apply steady_refl|done].
Qed.

Lemma delimiter_steady count q t : fit t -> spostc t (delimiter count q) t (fun _ t' => steadyc t t').
Proof.
  unfold delimiter. generalize count at 1. intros fuel Hne. pose proof (steady_refl t Hne) as Hs. revert Hs. generalize t at 2 4.
  revert count. induction fuel as [|f IH]; intros [|n] t1 Hs; cbn [lex_delimiter]; try done.
  apply spost_get_source. destruct (_ !! _) as [b|]; [|done].
  assert (spostc t (let% _ := consume 1 in lex_delimiter f n q) t1 (fun _ t' => steadyc t t')) as Hone.
  { eapply spost_calm; [done|apply consume_steady|]. intros _ t2 H2. by apply IH. }
  destruct (_ && _); [|done]. destruct (_ !! _) as [d|]; [|done]. destruct (d =? 10); [|done].
  eapply spost_calm; [done|apply piece_steady|]. intros _ t2 H2. by apply IH.
Qed.

(** A new frame, on top of a new fragment behind the earlier ones. *)
Definition opened (fk : csh_fragment_kind) (t t' : tape) : Prop :=
  exists x0 b0 x b f, t_lexers t = x0 :: b0 /\ t_lexers t' = x :: b /\ head (frames x) = Some f /\
    (length (kinds x0) <= fm_fragment f)%nat /\ (active x = true -> kinds x !! fm_fragment f = Some fk).

Lemma push_still k fk q count t : fit t -> spostc t (push k fk q count) t (fun _ t' => stillc t t' /\ opened fk t t' /\
  (forall x b, t_lexers t = x :: b -> exists x' b', t_lexers t' = x' :: b' /\ active x' = active x /\
     option_map fm_fragment (head (frames x')) = Some (length (fragments x)))).
Proof.
  intros Hne. unfold push. eapply spost_call; [by apply still_refl|apply add_fragment_steady|].
  intros i t1 [[H1 F1] (x0 & b0 & x1 & b1 & E0 & E1 & -> & K1)]. cbn beta. apply spost_get_lexer. intros x b E.
  rewrite E1 in E. injection E as <- <-.
  apply spost_grow; [done|]. intros w. apply spost_bind. unfold spostc at 1, put_lexer. cbn [set_proc t_lexers].
  set (y := with_frames x1 _). set (t2 := mk_tape _ _ _ _).
  assert (stillc t t2) as H2. { unfold t2. eapply (still_head t (set_proc t1 w) x1 b1 y); [by eapply still_same|done|done|done]. }
  eapply spost_last; [exact H2|apply delimiter_steady|]. intros [] t3 [H3 F3]. split; [by eapply still_trans|].
  destruct H3 as [_ H3]. destruct (t_lexers t3) as [|x3 b3] eqn:E3; [by destruct (t_lexers t2)|].
  unfold context in F1, F3. rewrite E3 in F3. rewrite E0, E1 in F1. cbn in F1, F3. injection F1 as _ F1. injection F3 as F3 A3.
  cbn in H3. rewrite E1 in H3. cbn in H3. split.
  - exists x0, b0, x3, b3, (mk_frame k q (length (fragments x0)) 0 0). split_and!; [done|done|by rewrite F3| |].
    + unfold kinds. cbn. destruct (active x0); [by rewrite length_map|simpl; lia].
    + intros Ha. cbn [fm_fragment]. destruct H3 as [[[r Er] _] _]. rewrite Er. apply lookup_app_l_Some. change (kinds y) with (kinds x1).
      apply K1. congruence.
  - intros x b E. rewrite E0 in E. injection E as <- <-. exists x3, b3. split; [done|]. split; [congruence|]. by rewrite F3.
Qed.

Lemma lex_peek_same n t : spostc t (lex_peek n) t (fun _ t' => t_lexers t' = t_lexers t).
Proof.
  unfold lex_peek. apply spost_get_source. cbv zeta. destruct (look_loop _ _ _ _ _ _) as [[[answer scan] positions]|]; [|done].
  apply spost_bind. unfold spostc, put_source. destruct answer as [z|]; [done|].
  destruct (positions !! n); [|done]. by destruct (_ !! _).
Qed.

End Steps.

Abbreviation later := (laterc (calm := false)).
Abbreviation still := (stillc (calm := false)).
Abbreviation spares := (sparesc (calm := false)).
Abbreviation spost := (spostc (calm := false)).

Section Kinds.
Context {loc : Locale} {db : LocaleDb}.

(** ** The operations of words *)

Lemma spost_put {B} t0 x b y (f : unit -> L B) t Q : still t0 t -> t_lexers t = x :: b -> later x y ->
  (caps x b -> caps y b) -> (still t0 (with_head t y) -> spost t0 (f tt) (with_head t y) Q) ->
  spost t0 (lbind (put_lexer y) f) t Q.
Proof. intros Hs E Hk Hc H. apply H. by eapply still_head. Qed.

Lemma spost_put_last t0 x b y t (Q : unit -> tape -> Prop) : still t0 t -> t_lexers t = x :: b -> later x y ->
  (caps x b -> caps y b) -> (still t0 (with_head t y) -> Q tt (with_head t y)) -> spost t0 (put_lexer y) t Q.
Proof. intros Hs E Hk Hc H. apply H. by eapply still_head. Qed.

Lemma spost_put_source {B} t0 s (f : unit -> L B) t Q : still t0 t ->
  (still t0 (set_source t s) -> spost t0 (f tt) (set_source t s) Q) -> spost t0 (lbind (put_source s) f) t Q.
Proof. intros Hs H. apply H. by eapply still_same. Qed.

Lemma spost_still {B} t0 (m : L B) t : still t0 t -> (forall t, fit t -> spost t m t (fun _ t' => still t t')) ->
  spost t0 m t (fun _ t' => still t0 t').
Proof. intros Hs Hm. eapply spost_last; [exact Hs|exact Hm|]. intros a t' H. by eapply still_trans. Qed.

Lemma pop_still count t : fit t -> spost t (pop count) t (fun _ t' => still t t').
Proof.
  intros Hf. unfold pop. apply spost_get_lexer. intros x b E. destruct (frames x) as [|f below]; [done|].
  eapply (spost_moves t); [by apply still_refl|intros; by apply steady_still, delimiter_steady|]. intros [] t1 H1.
  eapply spost_moves; [done|intros; by apply steady_still, finish_fragment_steady|]. intros [] t2 H2.
  apply spost_get_lexer. intros y b2 E2. by eapply spost_put_last.
Qed.

Lemma push_stays k fk q count t : fit t -> spost t (push k fk q count) t (fun _ t' => still t t').
Proof. intros Hf. eapply spost_mono; [by apply push_still|]. intros [] t' [H _]. exact H. Qed.

Lemma start_token_still t : fit t -> spost t start_token t (fun _ t' => still t t').
Proof.
  intros Hf. pose proof (still_refl (calm := false) t Hf) as Hs. unfold start_token. apply spost_get_source, spost_get_lexer. intros x b E.
  assert (forall o t1, still t t1 -> t_lexers t1 = x :: b ->
    spost t (lex_copy o) t1 (fun _ t' => still t t' /\ t_lexers t' = x :: b)) as Hcopy.
  { intros o t1 H1 E1. unfold lex_copy. destruct o; [|by apply spost_ret]. apply spost_lmalloc. intros ok w. by apply spost_ret. }
  cbv zeta. apply spost_bind. eapply spost_mono; [by apply Hcopy|]. intros name t1 [H1 E1].
  apply spost_bind. eapply spost_mono; [by apply Hcopy|]. intros alias t2 [H2 E2].
  apply spost_bind. eapply spost_mono; [by apply Hcopy|]. intros source t3 [H3 E3].
  eapply spost_put; [done|exact E3|done|done|]. intros H4. destruct (_ || _); [by apply spost_fail|].
  eapply spost_put; [done|reflexivity| | |].
  - split; [|done]. unfold kinds. cbn. destruct (active x); [done|apply prefix_nil].
  - done.
  - intros H5. unfold spost, put_source. by eapply still_same.
Qed.

Lemma begin_word_still t : fit t -> spost t begin_word t (fun _ t' => still t t').
Proof.
  intros Hf. pose proof (still_refl (calm := false) t Hf) as Hs. unfold begin_word. apply spost_get_lexer. intros x b E.
  destruct (active x) eqn:Ea; [by apply spost_ret|]. eapply spost_moves; [done|apply start_token_still|].
  intros [] t1 H1. apply spost_get_lexer. intros y b1 E1. by eapply spost_put_last.
Qed.

Lemma copy_aliases_same l t : spost t (copy_aliases l) t (fun _ t' => t_lexers t' = t_lexers t).
Proof.
  assert (forall t1, t_lexers t1 = t_lexers t -> spost t (copy_aliases l) t1 (fun _ t' => t_lexers t' = t_lexers t)) as H; [|by apply H].
  induction l as [|a l IH]; intros t1 E; cbn [copy_aliases]; [by apply spost_ret|].
  do 3 (apply spost_lmalloc; intros ? ?). destruct (_ && _); [by apply IH|by apply spost_ret].
Qed.

Lemma checkpoint_still n q t : fit t -> spost t (checkpoint_arithmetic n q) t (fun _ t' => still t t').
Proof.
  intros Hf. pose proof (still_refl (calm := false) t Hf) as Hs. unfold checkpoint_arithmetic. apply spost_get_source, spost_get_lexers.
  cbv zeta. destruct (_ <? _); [by apply spost_fail|]. apply spost_lmalloc. intros ok1 w1. destruct (negb ok1); [by apply spost_fail|].
  assert (forall count size (f : option errno -> L unit) t1, still t t1 -> t_lexers t1 = t_lexers t ->
    (forall r t2, still t t2 -> t_lexers t2 = t_lexers t -> spost t (f r) t2 (fun _ t' => still t t')) ->
    spost t (lbind (reserve count size) f) t1 (fun _ t' => still t t')) as Hres.
  { intros count size f t1 H1 E1 H. apply spost_bind. unfold reserve. destruct (_ <? _); [by apply spost_ret, H|].
    apply spost_lmalloc. intros ok w. apply spost_ret, H; [by eapply still_same|done]. }
  apply Hres; [by eapply still_same|done|]. intros r1 t1 H1 E1. destruct (bool_decide _); [by apply spost_fail|].
  apply Hres; [done|done|]. intros r2 t2 H2 E2. destruct (bool_decide _); [by apply spost_fail|].
  eapply spost_call; [done|intros; apply copy_aliases_same|]. intros ok t3 E3. cbn beta.
  assert (still t t3) as H3 by (by eapply still_same). destruct (negb ok); [by apply spost_fail|].
  apply spost_get_lexer. intros x b E. eapply spost_put_last; [done|exact E|done| |done].
  intros [H5 H6]. split; [constructor; [|exact H5]; cbn; by rewrite length_map, <- E2, <- E3, E|]. cbn. constructor; [exact H6|].
  apply StronglySorted_inv in H6 as [_ H6]. constructor; [simpl; lia|done].
Qed.

Lemma set_body_begin_still t : fit t -> spost t set_body_begin t (fun _ t' => still t t').
Proof.
  intros Hf. unfold set_body_begin. apply spost_get_lexer. intros x b E. destruct (arithmetic x) as [|c cs] eqn:Ea; [done|].
  eapply spost_put_last; [by apply still_refl|exact E|done| |done]. unfold caps. rewrite Ea. cbn.
  intros [[H1 H2]%Forall_cons H3]. split; [by constructor|exact H3].
Qed.

Lemma set_frame_still f t : fit t -> spost t (set_frame f) t (fun _ t' => still t t').
Proof.
  intros Hf. unfold set_frame. apply spost_get_lexer. intros x b E. eapply spost_put_last; [by apply still_refl|exact E|done|done|done].
Qed.

Lemma peek_stays n t : fit t -> spost t (lex_peek n) t (fun _ t' => still t t').
Proof. intros Hf. by apply steady_still, lex_peek_steady. Qed.

Lemma opened_from fk t t1 t2 : still t t1 -> opened fk t1 t2 -> opened fk t t2.
Proof.
  intros [_ H] (x0 & b0 & x & b & f & E0 & E & Ef & Hl & Hk). rewrite E0 in H. destruct (t_lexers t) as [|x' b'] eqn:E'; [done|].
  exists x', b', x, b, f. split_and!; try done. destruct H as [[H%prefix_length _] _]. lia.
Qed.

Lemma opened_same fk t t1 t2 : opened fk t t1 -> t_lexers t2 = t_lexers t1 -> opened fk t t2.
Proof. intros (x0 & b0 & x & b & f & E0 & E & H) E2. exists x0, b0, x, b, f. by rewrite E2. Qed.

(** A command substitution is announced: the word goes on with its frame. *)
Definition announces (t t' : tape) : Prop :=
  fit t' /\
  match t_lexers t, t_lexers t' with
  | x :: b, x' :: b' => kinds x `prefix_of` kinds x' /\ Forall2 alike b b'
  | _, _ => False
  end /\ opened CSH_FRAGMENT_COMMAND t t'.

Lemma announces_from t t1 t2 : still t t1 -> announces t1 t2 -> announces t t2.
Proof.
  intros H (H1 & H2 & H3). split; [done|]. split; [|by eapply opened_from]. destruct H as [_ H].
  destruct (t_lexers t), (t_lexers t1), (t_lexers t2); try done. destruct H as [[H _] Hb], H2 as [H2 Hb2].
  split; [by etrans|by eapply alikes_trans].
Qed.

Definition dollar_kept (t : tape) (r : dollar_result) (t' : tape) : Prop :=
  match r with DollarCommand => announces t t' | _ => still t t' end.

Lemma dollar_still q t : fit t -> spost t (dollar q) t (dollar_kept t).
Proof.
  intros Hf. pose proof (still_refl (calm := false) t Hf) as Hs. unfold dollar. eapply spost_moves; [done|intros; by apply peek_stays|].
  intros [next physical] t1 H1. destruct (next =? -2); [by apply spost_ret|].
  assert (forall k fk n t1, still t t1 -> spost t (let% _ := push k fk q n in lret DollarConsumed) t1 (dollar_kept t)) as Hpush.
  { intros k fk n t2 H2. eapply spost_moves; [done|intros; by apply push_stays|]. intros [] t3 H3. by apply spost_ret. }
  destruct (next =? _); [by apply Hpush|]. destruct (next =? _).
  - eapply spost_moves; [done|intros; by apply peek_stays|]. intros [third p3] t2 H2. destruct (third =? -2); [by apply spost_ret|].
    destruct (third =? _).
    + eapply spost_moves; [done|intros; by apply checkpoint_still|]. intros [] t3 H3.
      eapply spost_moves; [done|intros; by apply push_stays|]. intros [] t4 H4.
      eapply spost_moves; [done|intros; by apply set_body_begin_still|]. intros [] t5 H5. by apply spost_ret.
    + eapply spost_call; [done|intros; by apply push_still|]. intros [] t3 (H3 & Ho & _). cbn beta.
      apply spost_get_lexer. intros x b E. apply (announces_from t t2); [done|].
      destruct Ho as (x0 & b0 & x' & b' & f & E0 & E' & Ef & Hl & Hk). rewrite E in E'. injection E' as <- <-.
      destruct H3 as [Hfit H3]. rewrite E0, E in H3. assert (caps x b) as Hfit' by (unfold fit in Hfit; by rewrite E in Hfit). clear Hfit. destruct H3 as [[H3 _] H3'].
      unfold announces, fit. cbn [set_lexers t_lexers]. rewrite E0. cbn. rewrite E. cbn. split; [done|]. split; [done|].
      exists x0, b0, (with_modes x (comment x) true), b, f. by split_and!.
  - destruct (_ && _); [|destruct (name_start next); [|destruct (_ || _); [|by apply spost_ret]]].
    + eapply spost_moves; [done|intros; by apply push_stays|]. intros [] t3 H3. by apply spost_ret.
    + by apply Hpush.
    + eapply spost_moves; [done|intros; by apply push_stays|]. intros [] t3 H3.
      eapply spost_moves; [done|intros; by apply pop_still|]. intros [] t4 H4. by apply spost_ret.
Qed.

(** ** Recovery *)

(** The word of [x0] read again: its fragments before the command substitution
    are kept. *)
Definition replayed (x0 : csh_lexer) (b0 : list csh_lexer) (t' : tape) : Prop :=
  exists x b f, t_lexers t' = x :: b /\ Forall2 alike b0 b /\ caps x b /\ head (frames x) = Some f /\
    (forall j k, (j < fm_fragment f)%nat -> kinds x0 !! j = Some k -> kinds x !! j = Some k) /\
    (active x = true -> kinds x !! fm_fragment f = Some CSH_FRAGMENT_COMMAND).

(** The new substitution stands where a checkpoint was taken. *)
Definition back_to (x0 : csh_lexer) (t' : tape) : Prop :=
  exists c, c ∈ arithmetic x0 /\ forall first, csh_lexer_command_fragment t' = Some first -> (first <= cp_fragment_count c)%nat.

Lemma rewind_alikes behind (l : list (nat * csh_position)) : length behind = length l ->
  Forall2 alike behind (zip_with rewind behind l).
Proof. revert l. induction behind as [|y behind IH]; intros [|c l] E; try done. by repeat constructor; auto. Qed.

Lemma released_spares x0 b0 above t t' : t_lexers t = above ++ x0 :: b0 -> released t t' ->
  has_failed (t_source t) = false \/ above = [] -> spares (set_lexers t (x0 :: b0)) t'.
Proof.
  intros E [[Es E']|E'] Ha; unfold sparesc; rewrite E', E.
  - destruct Ha as [Ha| ->]; [congruence|]. exists [], x0, b0. split; [done|]. split; [done|]. right. split; [done|].
    split; [apply alikes_refl|]. intros ? ? [= <- <-]. exact (falls_refl (calm := false) x0).
  - exists (map release_work above), (release_work x0), (map release_work b0). rewrite map_app. split; [done|].
    cbn. rewrite length_map. split; [done|left]. rewrite Forall_app. split; [|constructor; [done|]]; apply Forall_map, Forall_true; by intros.
Qed.

Lemma replay_kept up e t x0 b0 : drop up (t_lexers t) = x0 :: b0 -> caps x0 b0 ->
  spost (set_lexers t (x0 :: b0)) (csh_lexer_replay_arithmetic up e) t (fun b t' =>
    if b then replayed x0 b0 t' /\ back_to x0 t' else t_lexers t' = t_lexers t).
Proof.
  intros Ed Hc. unfold csh_lexer_replay_arithmetic. apply spost_get_lexers, spost_get_source. rewrite Ed.
  destruct (arithmetic x0) as [|c previous] eqn:Ea; [by apply spost_ret|]. destruct (_ || _); [by apply spost_ret|].
  destruct (bool_decide _); [by apply spost_ret|]. unfold caps in Hc. rewrite Ea in Hc. destruct Hc as [[Hc1 Hc2]%Forall_cons Hc3].
  assert (exists above, t_lexers t = above ++ x0 :: b0) as [above Eab].
  { exists (take up (t_lexers t)). rewrite <- Ed. by rewrite take_drop. }
  assert (forall t1, spost (set_lexers t (x0 :: b0)) (let% _ := put_source (cp_source c) in
    let% _ := put_lexers (zip_with rewind (with_arithmetic (with_modes (truncate_frames
      (with_fragments x0 (take (cp_fragment_count c) (fragments x0))) (cp_frame_count c)) (comment x0) false) previous :: b0)
      (cp_captures c)) in
    let% _ := push COMMAND CSH_FRAGMENT_COMMAND (cp_quote c) (cp_command_length c) in
    let% x := get_lexer in
    let% _ := put_lexer (with_modes x (comment x) true) in
    lret true) t1 (fun b t' => if b then replayed x0 b0 t' /\ back_to x0 t' else t_lexers t' = t_lexers t)) as Hgo.
  { intros t1. destruct (cp_captures c) as [|capture l] eqn:El; [done|]. injection Hc1 as Hc1. cbn [zip_with].
    set (y := rewind _ capture). set (l' := zip_with rewind b0 l).
    change (spost (set_lexers t (x0 :: b0)) (let% _ := push COMMAND CSH_FRAGMENT_COMMAND (cp_quote c) (cp_command_length c) in
      let% x := get_lexer in let% _ := put_lexer (with_modes x (comment x) true) in lret true)
      (set_lexers (set_source t1 (cp_source c)) (y :: l')) (fun b t' => if b then replayed x0 b0 t' /\ back_to x0 t' else t_lexers t' = t_lexers t)).
    set (t2 := set_lexers (set_source t1 (cp_source c)) (y :: l')). pose proof (rewind_alikes b0 l (eq_sym Hc1)) as Hal. fold l' in Hal.
    apply StronglySorted_inv in Hc3 as [Hc3 [Hle _]%Forall_cons]. cbn in Hc3, Hle.
    apply StronglySorted_inv in Hc3 as [Hc3 Hprev].
    assert (length (fragments y) = cp_fragment_count c) as Elen by (cbn; rewrite length_take; lia).
    assert (fit t2) as Hf.
    { split; [cbn; by rewrite <- (Forall2_length _ _ _ Hal)|]. constructor; [exact Hc3|]. by rewrite Elen. }
    assert (forall j k, (j < cp_fragment_count c)%nat -> kinds x0 !! j = Some k -> kinds y !! j = Some k) as Hcut.
    { intros j k Hj Hx0. unfold kinds in *. change (active y) with (active x0). destruct (active x0); [|done].
      change ((fr_kind <$> fragments x0) !! j = Some k) in Hx0. rewrite list_lookup_fmap in Hx0.
      change ((fr_kind <$> take (cp_fragment_count c) (fragments x0)) !! j = Some k). by rewrite list_lookup_fmap, lookup_take_lt by lia. }
    apply spost_bind. pose proof (push_still (calm := true) COMMAND CSH_FRAGMENT_COMMAND (cp_quote c) (cp_command_length c) t2 Hf) as Hp.
    unfold spost in Hp |- * at 1. destruct (push _ _ _ _ t2) as [[|e'|[]] t3]; [done| |].
    { destruct Hp as (ab & z & b & E & Eb & Hr). exists ab, z, b. split; [done|]. cbn in Eb. split; [cbn; rewrite Eb; symmetry; by apply Forall2_length in Hal|].
      destruct Hr as [Hr|(Hab & Hr & Hfa)]; [by left|right]. split; [done|]. split; [by eapply alikes_trans|]. intros ? ? [= <- <-].
      destruct (Hfa y l' eq_refl) as ([r Er] & _ & Hsame). intros c' j k Hc' Hj Hx0. rewrite Hsame in Hc' by done.
      rewrite Er. apply lookup_app_l_Some, Hcut; [|done]. rewrite List.Forall_map in Hprev. rewrite Forall_forall in Hprev.
      specialize (Hprev c' Hc'). lia. }
    destruct Hp as ([Hfit Hst] & (x1 & b1 & x & b & f & E1 & E & Ef & Hl & Hk) & Hi). injection E1 as <- <-.
    destruct (Hi _ _ eq_refl) as (x' & b' & E' & Act & Idx). rewrite E in E'. injection E' as <- <-. rewrite Ef in Idx. injection Idx as Idx.
    cbn [t2 set_lexers t_lexers] in Hst. rewrite E in Hst. destruct Hst as [[Hpre _] Hb]. unfold fit in Hfit. rewrite E in Hfit.
    apply spost_get_lexer. intros x' b' E'. rewrite E in E'. injection E' as <- <-.
    split. 2: { exists c. split; [rewrite Ea; by left|]. intros n. unfold csh_lexer_command_fragment. cbn. rewrite Ef.
      intros [= <-]. rewrite <- Elen. by rewrite Idx. }
    exists (with_modes x (comment x) true), b, f. cbn. rewrite E. split_and!; [done|by eapply alikes_trans|done|done| |done].
    intros j k Hj Hx0. destruct Hpre as [r Er]. change (kinds x !! j = Some k). rewrite Er. apply lookup_app_l_Some, Hcut; [|done].
    rewrite <- Elen. by rewrite Idx in Hj. }
  apply spost_bind. destruct (_ && _); [|by apply spost_ret, Hgo].
  match goal with |- spost ?t0 (lbind (put_source ?s) ?f) ?t ?Q => change (spost t0 (f tt) (set_source t s) Q) end. cbv beta.
  pose proof (probe_released x0 true (set_source t (with_failure (t_source t) no_error))) as Hp. apply spost_bind. unfold spost at 1.
  destruct (probe_arithmetic x0 true _) as [[|e'|keep] t1]; [done|refine (released_spares x0 b0 above (set_source t _) t1 Eab Hp _); by left|].
  unfold spost at 1, lbind, put_source, lret. destruct keep; [|apply Hgo]. exact Hp.
Qed.

(** ** The main loop *)

(** What a result says of the words behind it. *)
Definition kept (t : tape) (r : option csh_lex_result) (t' : tape) : Prop :=
  match r with
  | Some (CSH_LEX_TOKEN k) => exists x0 b0 x b, t_lexers t = x0 :: b0 /\ t_lexers t' = x :: b /\
      Forall2 alike b0 b /\ kinds x0 `prefix_of` map fr_kind (tk_fragments k) /\ (command x = true -> command x0 = true)
  | Some CSH_LEX_REPLAY => exists x0 b0, t_lexers t = x0 :: b0 /\ replayed x0 b0 t'
  | Some CSH_LEX_COMMAND => announces t t'
  | _ => still t t'
  end.

Lemma kept_trans t t1 r t2 : still t t1 -> kept t1 r t2 -> kept t r t2.
Proof.
  intros H. pose proof H as [_ H']. destruct r as [[]|]; cbn; try by apply still_trans.
  - intros (x0 & b0 & x & b & E0 & E & Ha & Hk & Hcm). rewrite E0 in H'. destruct (t_lexers t) as [|x' b']; [done|].
    exists x', b', x, b. destruct H' as ((H1 & H3 & _) & H2). split_and!; try done; [by eapply alikes_trans|by etrans|auto].
  - by apply announces_from.
  - intros (x0 & b0 & E0 & x & b & f & E & Ha & Hc & Ef & Hk & Ho). rewrite E0 in H'. destruct (t_lexers t) as [|x' b']; [done|].
    exists x', b'. split; [done|]. exists x, b, f. destruct H' as [[[q Eq] _] Hb]. split_and!; try done; [by eapply alikes_trans|].
    intros j k Hj Hx. apply Hk; [done|]. rewrite Eq. by apply lookup_app_l_Some.
Qed.

Lemma kept_last t0 (m : L (option csh_lex_result)) t : still t0 t -> (forall t, fit t -> spost t m t (kept t)) ->
  spost t0 m t (kept t0).
Proof. intros Hs Hm. eapply spost_last; [exact Hs|exact Hm|]. intros r t'. by apply kept_trans. Qed.

Lemma publish_kept t : fit t -> spost t publish t (fun r t' => kept t (Some r) t').
Proof.
  intros Hf. unfold publish. apply spost_get_source, spost_get_lexer. intros x b E.
  destruct (raw x) as [|a r] eqn:Er; [done|]. destruct (token_name x) as [name|]; [|done]. unfold spost, lbind, put_lexer, lret.
  exists x, b. cbn [t_lexers]. rewrite E. eexists _, _. unfold fit in Hf. rewrite E in Hf. split; [done|]. split; [done|].
  split; [apply alikes_refl|]. split; [|done]. cbn. unfold kinds. destruct (active x); [done|apply prefix_nil].
Qed.

Lemma retry_kept t : fit t -> spost t retry t (fun r t' => r <> None /\ kept t r t').
Proof.
  intros Hf. unfold retry. destruct (t_lexers t) as [|x b] eqn:E; [unfold fit in Hf; by rewrite E in Hf|].
  assert (caps x b) as Hc by (unfold fit in Hf; by rewrite E in Hf).
  pose proof (replay_kept 0 no_error t x b E Hc) as Hp. apply spost_bind. unfold spost in Hp |- * at 1.
  destruct (csh_lexer_replay_arithmetic 0 no_error t) as [[|e|[|]] t1]; [done| | |].
  - unfold spares in *. cbn in Hp. by rewrite E.
  - split; [done|]. exists x, b. split; [done|apply Hp].
  - destruct (still_refl (calm := false) t Hf) as [_ H]. unfold spost. rewrite E in H. exists [], x, b. rewrite E. cbn. split; [by rewrite <- E|]. split; [done|].
    right. split; [done|]. split; [apply alikes_refl|]. intros ? ? [= <- <-]. exact (falls_refl (calm := false) x).
Qed.

Lemma spost_retry {A} t0 (f : option csh_lex_result -> A) t (Q : A -> tape -> Prop) : still t0 t ->
  (forall r t', kept t0 r t' -> Q (f r) t') -> spost t0 (let% r := retry in lret (f r)) t Q.
Proof.
  intros Hs H. eapply spost_call; [exact Hs|apply retry_kept|]. intros r t' [_ Hr]. apply spost_ret, H. by eapply kept_trans.
Qed.

Lemma spost_publish t0 t : still t0 t -> spost t0 (let% r := publish in lret (Some r)) t (kept t0).
Proof.
  intros Hs. eapply spost_call; [exact Hs|apply publish_kept|]. intros r t' Hr. apply spost_ret. by eapply kept_trans.
Qed.

Lemma publish_last t0 t : still t0 t -> spost t0 publish t (fun r t' => kept t0 (Some r) t').
Proof. intros Hs. eapply spost_last; [exact Hs|apply publish_kept|]. intros r t' Hr. by eapply kept_trans. Qed.

Lemma operator_step_kept fuel t : fit t -> spost t (operator_step fuel) t (fun r t' => kept t (Some r) t').
Proof.
  intros Hf. pose proof (still_refl (calm := false) t Hf) as Hs. revert Hs. generalize t at 2 4. induction fuel as [|f IH]; intros t1 Hs; cbn [operator_step]; [done|].
  apply spost_get_lexer. intros x b E. cbv zeta. destruct (negb _); [by apply publish_last|].
  eapply spost_moves; [done|intros; by apply peek_stays|]. intros [a physical] t2 H2. destruct (a =? -2); [by apply spost_ret|].
  destruct (_ || _); [by apply publish_last|]. destruct (operator_kind _) as [k|]; [|by apply publish_last].
  apply spost_get_lexer. intros x2 b2 E2. eapply spost_put; [done|exact E2|done|done|]. intros H3.
  eapply spost_moves; [done|intros; by apply steady_still, delimiter_steady|]. intros [] t4 H4.
  apply spost_get_lexer. intros x5 b5 E5. eapply spost_put; [done|exact E5|done|done|]. intros H6. by apply IH.
Qed.

Lemma eof_loop_kept fuel t : fit t -> spost t (eof_loop fuel) t (fun r t' => kept t (Some r) t').
Proof.
  intros Hf. pose proof (still_refl (calm := false) t Hf) as Hs. revert Hs. generalize t at 2 4. induction fuel as [|f IH]; intros t1 Hs; cbn [eof_loop]; [done|].
  apply spost_get_lexer. intros x b E. destruct (frames x) as [|g below].
  - destruct (active x); [by apply publish_last|]. apply spost_get_lexers. destruct (tail (t_lexers t1)); [by apply spost_ret|].
    destruct (_ ≫= _); [by apply spost_fail_at|done].
  - destruct (bool_decide _); [|destruct (_ !! _); [by apply spost_fail_at|done]].
    eapply spost_moves; [done|intros; by apply pop_still|]. intros [] t2 H2. by apply IH.
Qed.

Lemma eof_kept t : fit t -> spost t eof t (fun r t' => kept t (Some r) t').
Proof. intros Hf. unfold eof. apply spost_get_lexer. intros x b _. by apply eof_loop_kept. Qed.

(** A quiet operation before the rest of a turn. *)
Lemma kept_moves {B} t0 (m : L B) (f : B -> L (option csh_lex_result)) t : still t0 t ->
  (forall t, fit t -> spost t m t (fun _ t' => still t t')) ->
  (forall a t', still t0 t' -> spost t0 (f a) t' (kept t0)) -> spost t0 (lbind m f) t (kept t0).
Proof. intros Hs Hm Hf. by eapply spost_moves. Qed.

Lemma piece_stays k q n t : fit t -> spost t (piece k q n) t (fun _ t' => still t t').
Proof. intros Hf. by apply steady_still, piece_steady. Qed.

Lemma consume_stays n t : fit t -> spost t (consume n) t (fun _ t' => still t t').
Proof. intros Hf. by apply steady_still, consume_steady. Qed.

Lemma spost_if {B} (c : bool) t0 (m n : L B) t Q : spost t0 m t Q -> spost t0 n t Q -> spost t0 (if c then m else n) t Q.
Proof. by destruct c. Qed.

Lemma done_kept t0 t : still t0 t -> spost t0 (lret (None : option csh_lex_result)) t (kept t0).
Proof. done. Qed.

Lemma separator_kept a t : fit t -> spost t (separator a) t (kept t).
Proof.
  intros Hf. pose proof (still_refl (calm := false) t Hf) as Hs. unfold separator. apply spost_get_lexer. intros x b E.
  destruct (active x) eqn:Ea; [by apply spost_publish|]. destruct (_ || _).
  { eapply kept_moves; [done|apply consume_stays|]. intros [] t1 H1. by apply done_kept. }
  eapply kept_moves; [done|apply start_token_still|]. intros [] t1 H1. apply spost_get_lexer. intros y b1 E1.
  destruct (a =? 10); (eapply spost_put; [done|exact E1|done|done|]); intros H2;
    (eapply kept_moves; [done|apply consume_stays|]); intros [] t3 H3; [by apply spost_publish|by apply done_kept].
Qed.

Lemma word_byte_kept f q a t : fit t -> spost t (word_byte f q a) t (kept t).
Proof.
  intros Hf. pose proof (still_refl (calm := false) t Hf) as Hs. unfold word_byte.
  eapply kept_moves; [done|apply begin_word_still|]. intros [] t1 H1. apply spost_get_lexer. intros x b E.
  destruct (_ && _).
  { eapply kept_moves; [done| |intros [] t2 H2; by apply done_kept]. intros t2 H2. destruct (frame_is f DOUBLE); [by apply pop_still|by apply push_stays]. }
  destruct (_ && _); [eapply kept_moves; [done|intros; by apply push_stays|]; intros [] t2 H2; by apply done_kept|].
  cbv zeta. assert (forall t2, still t t2 -> spost t (if a =? ch "`" then let% _ := push BACKQUOTE CSH_FRAGMENT_BACKQUOTE q 1 in lret None
      else let% _ := piece CSH_FRAGMENT_TEXT q 1 in lret None) t2 (kept t)) as Htext.
  { intros t2 H2. apply spost_if.
    - eapply kept_moves; [done|intros; by apply push_stays|]. intros [] t3 H3. by apply done_kept.
    - eapply kept_moves; [done|intros; by apply piece_stays|]. intros [] t3 H3. by apply done_kept. }
  destruct (a =? ch "$"); [|by apply Htext].
  eapply spost_call; [done|apply dollar_still|]. intros r t2 H2. cbn beta.
  destruct r; [apply Htext; by eapply still_trans|by eapply still_trans..|by eapply announces_from].
Qed.

Lemma plain_byte_kept f q a t : fit t -> spost t (plain_byte f q a) t (kept t).
Proof.
  intros Hf. pose proof (still_refl (calm := false) t Hf) as Hs. unfold plain_byte. apply spost_get_lexer. intros x b E.
  destruct (_ || _).
  { eapply kept_moves; [done| |intros [] t2 H2; by apply done_kept]. intros t2 H2. apply spost_if; [by apply pop_still|by apply piece_stays]. }
  destruct (_ && _); [by apply separator_kept|]. destruct (_ && _); [|by apply word_byte_kept].
  eapply spost_put; [done|exact E|done|done|done].
Qed.

Lemma backslash_kept f q t : fit t -> spost t (backslash f q) t (fun r t' => match r with Some r => kept t r t' | None => still t t' end).
Proof.
  intros Hf. pose proof (still_refl (calm := false) t Hf) as Hs. unfold backslash. apply spost_get_source, spost_get_lexer. intros x b E.
  destruct (drop _ _) as [|d rest]; [destruct (negb _); [by apply spost_ret|by apply spost_fail]|]. cbv zeta.
  destruct (_ =? 0)%nat; [by apply spost_ret|].
  destruct (frame_is f DOLLAR_SINGLE); [eapply spost_moves; [done|intros; by apply piece_stays|intros [] t2 H2; by apply spost_ret]|].
  destruct (_ && _).
  { eapply spost_moves; [done| |intros [] t2 H2; by apply spost_ret]. intros t2 H2. apply spost_if; [by apply piece_stays|by apply consume_stays]. }
  destruct (escapes _ _ _ _); [|by apply spost_ret].
  eapply spost_moves; [done|apply begin_word_still|]. intros [] t1 H1.
  eapply spost_moves; [done|intros; by apply piece_stays|]. intros [] t2 H2. by apply spost_ret.
Qed.

Lemma probe_still x partial t : fit t -> t_lexers t = x :: tail (t_lexers t) -> spost t (probe_arithmetic x partial) t (fun _ t' => still t t').
Proof.
  intros Hf E. pose proof (probe_released x partial t) as H. unfold spost. destruct (probe_arithmetic x partial t) as [[|e|v] t']; [done| |].
  - destruct (released_spares x (tail (t_lexers t)) [] t t' E H ltac:(by right)) as (above & y & l & E1 & E2 & E3).
    exists above, y, l. split; [done|]. split; [done|]. destruct E3 as [E3|(-> & E3 & E4)]; [by left|right]. split; [done|]. split; [done|].
    intros x0 b0 E0. rewrite E in E0. injection E0 as <- <-. by eapply E4.
  - eapply still_same; [by apply still_refl|done].
Qed.

Lemma arithmetic_byte_kept f a t : fit t ->
  spost t (arithmetic_byte f a) t (fun r t' => match r with Some r => kept t r t' | None => still t t' end).
Proof.
  intros Hf. pose proof (still_refl (calm := false) t Hf) as Hs. unfold arithmetic_byte.
  destruct (in_set _ _); [by apply (spost_retry t Some)|].
  assert (forall g, spost t (let% _ := set_frame g in lret (None : option (option csh_lex_result))) t
    (fun r t' => match r with Some r => kept t r t' | None => still t t' end)) as Hframe.
  { intros g. eapply spost_moves; [done|intros; by apply set_frame_still|intros [] t1 H1; by apply spost_ret]. }
  destruct (a =? _). { destruct (_ =? _); [by apply spost_fail|apply Hframe]. }
  destruct (a =? _); [|by apply spost_ret]. destruct (negb _); [apply Hframe|].
  unfold close_arithmetic. apply spost_get_lexer. intros x b E.
  eapply spost_bind. assert (t_lexers t = x :: tail (t_lexers t)) as E' by (by rewrite E).
  pose proof (probe_still x false t Hf E') as Hp. unfold spost in Hp |- * at 1.
  destruct (probe_arithmetic x false t) as [[|e|valid] t1]; [done|done|]. destruct (negb valid); [by apply (spost_retry t Some)|].
  eapply spost_moves; [done|intros; by apply peek_stays|]. intros [next physical] t2 H2. destruct (next =? -2); [by apply spost_ret|].
  destruct (next =? _); [|destruct (negb _); [by apply (spost_retry t Some)|by apply spost_ret]].
  eapply spost_moves; [done|intros; by apply pop_still|]. intros [] t3 H3. apply spost_get_lexer. intros y b3 E3.
  eapply spost_put; [done|exact E3|done| |done]. unfold caps. cbn. destruct (arithmetic y) as [|c cs]; [done|].
  intros [[_ H5]%Forall_cons H6]. split; [done|]. apply StronglySorted_inv in H6 as [H6 [_ H7]%Forall_cons]. constructor; [|exact H7].
  by apply StronglySorted_inv in H6 as [H6 _].
Qed.

Lemma byte_step_kept f q a t : fit t -> spost t (byte_step f q a) t (kept t).
Proof.
  intros Hf. pose proof (still_refl (calm := false) t Hf) as Hs. unfold byte_step. destruct (frame_is f SINGLE).
  { eapply kept_moves; [done| |intros [] t2 H2; by apply done_kept]. intros t2 H2. apply spost_if; [by apply pop_still|by apply piece_stays]. }
  destruct (_ && _); [eapply kept_moves; [done|apply pop_still|intros [] t2 H2; by apply done_kept]|].
  eapply (spost_moves t); [done| |].
  { clear. intros t Hf'. pose proof (still_refl (calm := false) t Hf') as Hs. destruct f as [g|]; [|by apply spost_ret].
    destruct (_ && _); [|by apply spost_ret]. cbv zeta. eapply spost_moves; [done|intros; by apply set_frame_still|].
    intros [] t1 H1. by apply spost_ret. }
  intros [f' q'] t1 H1. eapply (spost_call (fun r t t' => match r with Some r => kept t r t' | None => still t t' end)); [done| |].
  { intros t2 H2. destruct f' as [g|]; [destruct (bool_decide _); [by apply arithmetic_byte_kept|]|]; by apply spost_ret, still_refl. }
  intros [r|] t2 H2; cbn beta iota in H2; [apply spost_ret; by eapply kept_trans|].
  assert (still t t2) as H2' by (by eapply still_trans).
  eapply (spost_call (fun r t t' => match r with Some r => kept t r t' | None => still t t' end)); [done| |].
  { intros t3 H3. apply spost_if; [by apply backslash_kept|by apply spost_ret, still_refl]. }
  intros [r|] t3 H3; cbn beta iota in H3; [apply spost_ret; by eapply kept_trans|].
  apply kept_last; [by eapply still_trans|]. intros; by apply plain_byte_kept.
Qed.

Lemma lex_step_kept t : fit t -> spost t lex_step t (kept t).
Proof.
  intros Hf. pose proof (still_refl (calm := false) t Hf) as Hs. unfold lex_step. apply spost_get_source, spost_get_lexer. intros x b E. cbv zeta.
  destruct (_ && _).
  { eapply spost_call; [done|intros; by apply operator_step_kept|]. intros r t1 H1. by apply spost_ret. }
  destruct (drop _ _) as [|a rest].
  { destruct (negb _); [by apply spost_ret|]. eapply spost_call; [done|apply eof_kept|]. intros r t1 H1. by apply spost_ret. }
  destruct (a =? 0); [by apply spost_fail|].
  destruct (_ && _); [eapply kept_moves; [done|apply consume_stays|intros [] t1 H1; by apply done_kept]|].
  eapply spost_put; [done|exact E|done|done|]. intros H1.
  destruct (frame_is _ SIMPLE).
  { eapply kept_moves; [done|intros; by apply peek_stays|]. intros [next physical] t2 H2. destruct (next =? -2); [by apply spost_ret|].
    eapply kept_moves; [done| |intros [] t3 H3; by apply done_kept]. intros t3 H3.
    apply spost_if; [by apply pop_still|by apply steady_still, delimiter_steady]. }
  destruct (_ =? 0)%nat; [by apply spost_ret|]. destruct (1 <? _)%nat; [|apply kept_last; [done|intros; by apply byte_step_kept]].
  eapply kept_moves; [done|apply begin_word_still|]. intros [] t2 H2.
  eapply kept_moves; [done| |].
  { clear. intros t Hf. pose proof (still_refl (calm := false) t Hf) as Hs. destruct (head (frames x)) as [g|]; [|by apply spost_ret].
    destruct (bool_decide _); [|by apply spost_ret]. eapply spost_moves; [done|intros; by apply set_frame_still|]. intros [] t1 H1. by apply spost_ret. }
  intros q t3 H3. eapply kept_moves; [done|intros; by apply piece_stays|intros [] t4 H4; by apply done_kept].
Qed.

Lemma next_loop_kept n t : fit t -> spost t (next_loop n) t (fun r t' => kept t (Some r) t').
Proof.
  intros Hf. pose proof (still_refl (calm := false) t Hf) as Hs. revert Hs. generalize t at 2 4. induction n as [|n IH]; intros t1 Hs; cbn [next_loop]; [done|].
  eapply spost_call; [done|apply lex_step_kept|]. intros [r|] t2 H2; cbn beta in H2.
  - apply spost_ret. by eapply kept_trans.
  - apply IH. by eapply still_trans.
Qed.
End Kinds.
