(* ===== verification/Ast.v ===== *)
(** * The syntax tree (src/ast.c)

    A node owns its words and children, so the tree is a value.  Redirections are
    allocated one by one, because a here-document is filled in after its node has
    grown: a node lists their addresses, and the records live in the store of
    the parser.  The records are generic in what stands for a child node, a tree
    here and an address where nodes are destroyed.  Arguments of the model are
    never NULL and enumerations are in range, so the tests of the source for
    those, and for a node added to itself, have no counterpart. *)

From stdpp Require Import base list gmap strings.
From S2P Require Import Prelude Output State Lexer.

(** ** The data (include/cshell/ast.h) *)

Inductive csh_ast_kind : Type :=
  | CSH_AST_SIMPLE | CSH_AST_PIPELINE | CSH_AST_AND | CSH_AST_OR
  | CSH_AST_LIST | CSH_AST_SUBSHELL | CSH_AST_BRACE
  | CSH_AST_IF | CSH_AST_FOR | CSH_AST_WHILE | CSH_AST_UNTIL
  | CSH_AST_CASE | CSH_AST_FUNCTION.

Inductive csh_ast_separator : Type := CSH_AST_END | CSH_AST_SEMI | CSH_AST_AMPERSAND | CSH_AST_NEWLINE.

Inductive csh_ast_case_terminator : Type := CSH_AST_CASE_END | CSH_AST_CASE_BREAK | CSH_AST_CASE_FALLTHROUGH.

#[export] Instance csh_ast_kind_eq_dec : EqDecision csh_ast_kind.
Proof. solve_decision. Defined.
#[export] Instance csh_ast_separator_eq_dec : EqDecision csh_ast_separator.
Proof. solve_decision. Defined.

(** A growing vector: its entries and its capacity. *)
Record vector (A : Type) : Type := mk_vector { items : list A; capacity : Z }.
Arguments mk_vector {_} _ _.
Arguments items {_} _.
Arguments capacity {_} _.

Definition no_items {A} : vector A := mk_vector [] 0.

Section Data.
Context (A : Type).

Record csh_ast_substitution : Type := mk_substitution {
  fragment_index : nat; sb_begin : nat; sb_end : nat; sb_body : A }.

Record csh_ast_word : Type := mk_word { token : csh_token; substitutions : vector csh_ast_substitution }.

Record csh_ast_command_word : Type := mk_command_word { cw_word : csh_ast_word; cw_assignment : bool }.

(** [io_number] is [Some] when [has_io_number] is set; a NULL buffer is [None]. *)
Record csh_ast_redirection : Type := mk_redirection {
  operator_kind : csh_token_kind;
  rd_start : csh_position; rd_end : csh_position;
  io_number : option csh_token;
  operand : csh_ast_word;
  rd_delimiter : option str; delimiter_quoted : bool;
  rd_body : option str; body_start : csh_position; body_end : csh_position }.

Record csh_ast_list_item : Type := mk_list_item {
  it_command : A; separator : csh_ast_separator;
  separator_start : csh_position; separator_end : csh_position }.

Record csh_ast_if_branch : Type := mk_if_branch { if_condition : A; if_body : A }.

Record csh_ast_case_item : Type := mk_case_item {
  patterns : vector csh_ast_word; ci_body : A; terminator : csh_ast_case_terminator;
  terminator_start : csh_position; terminator_end : csh_position }.

(** The union of [struct csh_ast] with its tag; [None] is a child not set yet. *)
Inductive csh_ast_data : Type :=
  | Simple (words : vector csh_ast_command_word)
  | Pipeline (commands : vector A) (negated : bool)
  | And (left right : option A)
  | Or (left right : option A)
  | List (list_items : vector csh_ast_list_item)
  | Subshell (group : option A)
  | Brace (group : option A)
  | If (branches : vector csh_ast_if_branch) (else_body : option A)
  | For (name : csh_ast_word) (words : vector csh_ast_word) (has_in : bool) (body : option A)
  | While (condition body : option A)
  | Until (condition body : option A)
  | Case (word : csh_ast_word) (case_items : vector csh_ast_case_item)
  | Function (name : csh_ast_word) (body : option A).
End Data.

Arguments mk_substitution {_} _ _ _ _.
Arguments fragment_index {_} _.
Arguments sb_begin {_} _.
Arguments sb_end {_} _.
Arguments sb_body {_} _.
Arguments mk_word {_} _ _.
Arguments token {_} _.
Arguments substitutions {_} _.
Arguments mk_command_word {_} _ _.
Arguments cw_word {_} _.
Arguments cw_assignment {_} _.
Arguments mk_redirection {_} _ _ _ _ _ _ _ _ _ _.
Arguments operator_kind {_} _.
Arguments rd_start {_} _.
Arguments rd_end {_} _.
Arguments io_number {_} _.
Arguments operand {_} _.
Arguments rd_delimiter {_} _.
Arguments delimiter_quoted {_} _.
Arguments rd_body {_} _.
Arguments body_start {_} _.
Arguments body_end {_} _.
Arguments mk_list_item {_} _ _ _ _.
Arguments it_command {_} _.
Arguments separator {_} _.
Arguments separator_start {_} _.
Arguments separator_end {_} _.
Arguments mk_if_branch {_} _ _.
Arguments if_condition {_} _.
Arguments if_body {_} _.
Arguments mk_case_item {_} _ _ _ _ _.
Arguments patterns {_} _.
Arguments ci_body {_} _.
Arguments terminator {_} _.
Arguments terminator_start {_} _.
Arguments terminator_end {_} _.
Arguments Simple {_} _.
Arguments Pipeline {_} _ _.
Arguments And {_} _ _.
Arguments Or {_} _ _.
Arguments List {_} _.
Arguments Subshell {_} _.
Arguments Brace {_} _.
Arguments If {_} _ _.
Arguments For {_} _ _ _ _.
Arguments While {_} _ _.
Arguments Until {_} _ _.
Arguments Case {_} _ _.
Arguments Function {_} _ _.

(** [redirections] are addresses in source order. *)
Inductive csh_ast : Type := mk_ast {
  ast_start : csh_position; ast_end : csh_position; redirections : vector nat; ast_data : csh_ast_data csh_ast }.

Abbreviation word := (csh_ast_word csh_ast).
Abbreviation redirection := (csh_ast_redirection csh_ast).

Definition data_kind {A} (d : csh_ast_data A) : csh_ast_kind :=
  match d with
  | Simple _ => CSH_AST_SIMPLE | Pipeline _ _ => CSH_AST_PIPELINE | And _ _ => CSH_AST_AND | Or _ _ => CSH_AST_OR
  | List _ => CSH_AST_LIST | Subshell _ => CSH_AST_SUBSHELL | Brace _ => CSH_AST_BRACE | If _ _ => CSH_AST_IF
  | For _ _ _ _ => CSH_AST_FOR | While _ _ => CSH_AST_WHILE | Until _ _ => CSH_AST_UNTIL
  | Case _ _ => CSH_AST_CASE | Function _ _ => CSH_AST_FUNCTION
  end.

Definition ast_kind (node : csh_ast) : csh_ast_kind := data_kind (ast_data node).

(** The zeroed structures. *)
Definition no_token : csh_token :=
  mk_token CSH_TOKEN_WORD [] [] no_position no_position [] None None no_position false.
Definition no_word {A} : csh_ast_word A := mk_word no_token no_items.

Definition empty_data {A} (kind : csh_ast_kind) : csh_ast_data A :=
  match kind with
  | CSH_AST_SIMPLE => Simple no_items
  | CSH_AST_PIPELINE => Pipeline no_items false
  | CSH_AST_AND => And None None
  | CSH_AST_OR => Or None None
  | CSH_AST_LIST => List no_items
  | CSH_AST_SUBSHELL => Subshell None
  | CSH_AST_BRACE => Brace None
  | CSH_AST_IF => If no_items None
  | CSH_AST_FOR => For no_word no_items false None
  | CSH_AST_WHILE => While None None
  | CSH_AST_UNTIL => Until None None
  | CSH_AST_CASE => Case no_word no_items
  | CSH_AST_FUNCTION => Function no_word None
  end.

Definition with_start (node : csh_ast) (p : csh_position) : csh_ast :=
  mk_ast p (ast_end node) (redirections node) (ast_data node).
Definition with_end (node : csh_ast) (p : csh_position) : csh_ast :=
  mk_ast (ast_start node) p (redirections node) (ast_data node).
Definition with_ast_data (node : csh_ast) (d : csh_ast_data csh_ast) : csh_ast :=
  mk_ast (ast_start node) (ast_end node) (redirections node) d.

(** ** Vectors *)

Definition fail (text : str) (number : errno) : csh_error :=
  mk_error (Some text) [] false number
    (if bool_decide (number = ENOMEM) || bool_decide (number = EOVERFLOW) then 1 else 2) 0 no_position.

(** The loop of [reserve]; 64 rounds are enough: see [grow_capacity_enough]. *)
Fixpoint grow_capacity (fuel : nat) (grown count maximum : Z) : Z :=
  match fuel with
  | O => grown
  | S f =>
      if grown <=? count then
        if maximum / 2 <? grown then maximum else grow_capacity f (grown * 2) count maximum
      else grown
  end.

(** The capacity after the call. *)
Definition reserve (capacity count item_size : Z) : M (csh_error + Z) :=
  let maximum := SIZE_MAX / item_size in
  if maximum <=? count then ret (inl (fail (bs "AST collection overflow") EOVERFLOW)) else
  if count <? capacity then ret (inr capacity) else
  let grown := if capacity =? 0 then 4 else capacity in
  let grown := if maximum <? grown then maximum else grown in
  let grown := grow_capacity 64 grown count maximum in
  let* ok := malloc in
  ret (if ok then inr grown else inl (fail (bs "cannot allocate AST collection") ENOMEM)).

(** A reserve and the store of one more entry. *)
Definition append {A} (v : vector A) (x : A) (item_size : Z) : M (csh_error + vector A) :=
  let* r := reserve (capacity v) (Z.of_nat (length (items v))) item_size in
  ret (match r with inl e => inl e | inr c => inr (mk_vector (items v ++ [x]) c) end).

(** Sizes of the structures on LP64 hosts. *)
Definition sizeof_pointer : Z := 8.
Definition sizeof_substitution : Z := 32.
Definition sizeof_word : Z := 168.
Definition sizeof_command_word : Z := 176.
Definition sizeof_list_item : Z := 64.
Definition sizeof_if_branch : Z := 16.
Definition sizeof_case_item : Z := 88.

(** ** Constructors and mutators

    A mutator returns the node with its new part; on an error the node and the
    part are still the caller's. *)

Definition csh_ast_create (kind : csh_ast_kind) : M (csh_error + csh_ast) :=
  let* ok := malloc in
  ret (if ok then inr (mk_ast no_position no_position no_items (empty_data kind))
       else inl (fail (bs "cannot allocate AST node") ENOMEM)).

Definition appended {A B} (v : vector A) (x : A) (item_size : Z) (f : vector A -> B) : M (csh_error + B) :=
  let* r := append v x item_size in
  ret (match r with inl e => inl e | inr v => inr (f v) end).

Definition csh_ast_word_add_substitution (w : word) (s : csh_ast_substitution csh_ast) : M (csh_error + word) :=
  appended (substitutions w) s sizeof_substitution (fun v => mk_word (token w) v).

Definition csh_ast_add_word (node : csh_ast) (w : word) (assignment : bool) : M (csh_error + csh_ast) :=
  match ast_data node with
  | Simple words =>
      appended words (mk_command_word w assignment) sizeof_command_word (fun v => with_ast_data node (Simple v))
  | _ => ret (inl (fail (bs "invalid AST command word") EINVAL))
  end.

Definition redirection_kind (kind : csh_token_kind) : bool :=
  match kind with
  | CSH_TOKEN_LESS | CSH_TOKEN_GREAT | CSH_TOKEN_DLESS | CSH_TOKEN_DGREAT | CSH_TOKEN_LESS_AND
  | CSH_TOKEN_GREAT_AND | CSH_TOKEN_LESS_GREAT | CSH_TOKEN_DLESS_DASH | CSH_TOKEN_CLOBBER => true
  | _ => false
  end.

Definition no_redirection (kind : csh_token_kind) : redirection :=
  mk_redirection kind no_position no_position None no_word None false None no_position no_position.

Definition csh_ast_redirection_create (kind : csh_token_kind) : M (csh_error + redirection) :=
  if negb (redirection_kind kind) then ret (inl (fail (bs "invalid AST redirection operator") EINVAL)) else
  let* ok := malloc in
  ret (if ok then inr (no_redirection kind) else inl (fail (bs "cannot allocate AST redirection") ENOMEM)).

Definition csh_ast_add_redirection (node : csh_ast) (p : nat) : M (csh_error + csh_ast) :=
  appended (redirections node) p sizeof_pointer (fun v => mk_ast (ast_start node) (ast_end node) v (ast_data node)).

Definition csh_ast_pipeline_add (node child : csh_ast) : M (csh_error + csh_ast) :=
  match ast_data node with
  | Pipeline commands negated =>
      appended commands child sizeof_pointer (fun v => with_ast_data node (Pipeline v negated))
  | _ => ret (inl (fail (bs "invalid AST pipeline command") EINVAL))
  end.

Definition csh_ast_list_add (node : csh_ast) (item : csh_ast_list_item csh_ast) : M (csh_error + csh_ast) :=
  match ast_data node with
  | List l => appended l item sizeof_list_item (fun v => with_ast_data node (List v))
  | _ => ret (inl (fail (bs "invalid AST list item") EINVAL))
  end.

Definition csh_ast_if_add (node : csh_ast) (branch : csh_ast_if_branch csh_ast) : M (csh_error + csh_ast) :=
  match ast_data node with
  | If branches else_body => appended branches branch sizeof_if_branch (fun v => with_ast_data node (If v else_body))
  | _ => ret (inl (fail (bs "invalid AST if branch") EINVAL))
  end.

Definition csh_ast_word_vector_add (words : vector word) (w : word) : M (csh_error + vector word) :=
  append words w sizeof_word.

Definition csh_ast_case_add (node : csh_ast) (item : csh_ast_case_item csh_ast) : M (csh_error + csh_ast) :=
  let invalid := ret (inl (fail (bs "invalid AST case item") EINVAL)) in
  match ast_data node, items (patterns item), ast_kind (ci_body item) with
  | Case w l, _ :: _, CSH_AST_LIST => appended l item sizeof_case_item (fun v => with_ast_data node (Case w v))
  | _, _, _ => invalid
  end.

Definition csh_ast_kind_name (kind : csh_ast_kind) : str :=
  match kind with
  | CSH_AST_SIMPLE => bs "SIMPLE" | CSH_AST_PIPELINE => bs "PIPELINE" | CSH_AST_AND => bs "AND" | CSH_AST_OR => bs "OR"
  | CSH_AST_LIST => bs "LIST" | CSH_AST_SUBSHELL => bs "SUBSHELL" | CSH_AST_BRACE => bs "BRACE"
  | CSH_AST_IF => bs "IF" | CSH_AST_FOR => bs "FOR" | CSH_AST_WHILE => bs "WHILE" | CSH_AST_UNTIL => bs "UNTIL"
  | CSH_AST_CASE => bs "CASE" | CSH_AST_FUNCTION => bs "FUNCTION"
  end.
