(* ===== verification/AstTheorems.v ===== *)
(** * The syntax tree: its vectors *)

From stdpp Require Import base list.
From S2P Require Import Prelude Output State Lexer Ast.

(** The loop of [reserve] ends above [count], and within 64 rounds. *)
Lemma grow_capacity_between fuel : forall grown count maximum, 0 < grown <= maximum -> count < maximum -> count < grown * 2 ^ Z.of_nat fuel ->
  count < grow_capacity fuel grown count maximum <= maximum /\ grown <= grow_capacity fuel grown count maximum.
Proof.
  induction fuel as [|f IH]; intros grown count maximum Hg Hc Hf; cbn [grow_capacity].
  { rewrite Z.mul_1_r in Hf. lia. }
  destruct (grown <=? count) eqn:E1; [|lia]. destruct (maximum / 2 <? grown) eqn:E2; [lia|].
  assert (grown * 2 <= maximum) as Hm.
  { apply Z.ltb_ge in E2. pose proof (Z.mul_div_le maximum 2 ltac:(lia)). lia. }
  destruct (IH (grown * 2) count maximum) as [H1 H2]; [lia|done| |lia].
  rewrite Nat2Z.inj_succ, Z.pow_succ_r in Hf by lia. lia.
Qed.

Lemma grow_capacity_enough grown count maximum : 0 < grown <= maximum -> 0 <= count < maximum -> maximum <= SIZE_MAX ->
  count < grow_capacity 64 grown count maximum <= maximum /\ grown <= grow_capacity 64 grown count maximum.
Proof.
  intros Hg Hc Hm. apply grow_capacity_between; [done|lia|]. change (Z.of_nat 64) with 64. unfold SIZE_MAX in Hm.
  assert (2 ^ 64 <= grown * 2 ^ 64) by nia. lia.
Qed.

(** [reserve] makes room for one more entry and its arithmetic does not wrap:
    the capacity that it gives is above the count, is not less than before, and
    its size in bytes fits size_t; no allocation is asked for when there is
    room; it fails only with ENOMEM or, at the largest count, with EOVERFLOW. *)
Theorem ast_reserve_room capacity count item_size w : 0 < item_size <= SIZE_MAX -> 0 <= count <= capacity -> capacity <= SIZE_MAX / item_size ->
  match Ast.reserve capacity count item_size w with
  | (inr c, w') => count < c /\ capacity <= c /\ 0 <= c * item_size <= SIZE_MAX /\ (count < capacity -> c = capacity /\ w' = w)
  | (inl e, w') => (system_errno e = EOVERFLOW /\ count = SIZE_MAX / item_size /\ w' = w) \/ (system_errno e = ENOMEM /\ count = capacity)
  end.
Proof.
  intros Hs Hc Hm. unfold Ast.reserve. cbv zeta. set (maximum := SIZE_MAX / item_size) in *.
  assert (forall c, 0 <= c <= maximum -> 0 <= c * item_size <= SIZE_MAX) as Hsize.
  { intros c Hcm. pose proof (Z.mul_div_le SIZE_MAX item_size ltac:(lia)). fold maximum in H. nia. }
  assert (0 < maximum <= SIZE_MAX) as Hmax.
  { split; [apply Z.div_str_pos; lia|apply Z.div_le_upper_bound; [lia|unfold SIZE_MAX; nia]]. }
  destruct (maximum <=? count) eqn:E1; [left; split_and!; [done|lia|done]|].
  destruct (count <? capacity) eqn:E2; [split; [lia|]; split; [lia|]; split; [apply Hsize; lia|done]|].
  assert (count = capacity) as -> by lia. unfold bind, ret. set (g := if maximum <? _ then _ else _).
  assert (0 < g <= maximum /\ capacity <= g) as [Hg Hcg].
  { subst g. destruct (Z.eqb_spec capacity 0) as [->|Hne]; [destruct (Z.ltb_spec maximum 4); lia|].
    destruct (Z.ltb_spec maximum capacity); lia. }
  destruct (grow_capacity_enough g capacity maximum Hg ltac:(lia) ltac:(lia)) as [H1 H2].
  destruct (malloc w) as [[|] w']; [|by right]. split; [lia|]. split; [lia|]. split; [apply Hsize; lia|lia].
Qed.

Lemma ast_reserve_room_witness : 0 < sizeof_word <= SIZE_MAX /\
  match Ast.reserve 4 4 sizeof_word quiet_proc with (inr c, _) => 4 < c /\ 4 <= c /\ 0 <= c * sizeof_word <= SIZE_MAX /\ (4 < 4 -> c = 4 /\ True) | _ => False end.
Proof.
  split; [vm_compute; split; [reflexivity|discriminate]|].
  pose proof (ast_reserve_room 4 4 sizeof_word quiet_proc ltac:(vm_compute; split; [reflexivity|discriminate]) ltac:(lia) ltac:(vm_compute; discriminate)) as H.
  vm_compute in H. vm_compute. destruct H as (H1 & H2 & H3 & H4). repeat split; try assumption; discriminate.
Defined.
