(* ===== verification/Parser.v ===== *)
(** * The parser (src/parser.c): reading tokens

    Recursive descent over the tokens of the lexer.  A call is a computation of
    [P]: it changes the parser and returns, or refuses after recording the
    failure in the parser ([PFail], the -1 and NULL of the source); [PCrash] is
    a NULL dereference or an index out of range, [PSpent] the end of the fuel.
    [ps_frames] are the parse frames, the innermost first; the lexer of a frame
    is the one with as many lexers behind it, so that the first lexer of the
    tape belongs to the first frame.  Redirections live in [ps_store] at fresh
    addresses.  What is freed becomes unreachable, so releases are left out. *)

From stdpp Require Import base list gmap strings.
From S2P Require Import Prelude Output State Arithmetic Character Quote Alias Descriptors Input Expansion Lexer Ast.

(** ** The parser *)

Inductive csh_parse_result : Type :=
  | CSH_PARSE_ERROR | CSH_PARSE_EOF | CSH_PARSE_TREE | CSH_PARSE_INCOMPLETE | CSH_PARSE_INTERRUPTED.

#[export] Instance csh_parse_result_eq_dec : EqDecision csh_parse_result.
Proof. solve_decision. Defined.

Record parse_frame : Type := mk_parse_frame {
  look : word; has_look : bool; pf_eof : bool; documents : list nat; document_capacity : Z }.

Definition new_frame : parse_frame := mk_parse_frame no_word false false [] 0.

(** [ps_input] is [None] for NULL, and has the descriptors with it; [ps_lexer]
    says that the lexer exists.  [before_read] lists the notifications given so
    far to an attached hook, [ps_stack] the answers of the stack checks. *)
Record csh_parser : Type := mk_parser {
  ps_input : option (csh_input * kernel);
  ps_tape : tape; ps_lexer : bool;
  ps_aliases : option csh_aliases;
  failure_result : csh_parse_result; ps_failure : csh_error;
  ps_final : bool; ps_eof : bool;
  before_read : option (list bool); continuation : bool;
  recovery_documents : list nat; recovery_bytes : str;
  ps_store : gmap nat redirection; ps_next : nat;
  ps_stack : list bool;
  ps_frames : list parse_frame }.

Definition with_tape (p : csh_parser) (t : tape) : csh_parser :=
  mk_parser (ps_input p) t (ps_lexer p) (ps_aliases p) (failure_result p) (ps_failure p) (ps_final p) (ps_eof p)
    (before_read p) (continuation p) (recovery_documents p) (recovery_bytes p) (ps_store p) (ps_next p) (ps_stack p) (ps_frames p).
Definition with_lexer (p : csh_parser) (b : bool) : csh_parser :=
  mk_parser (ps_input p) (ps_tape p) b (ps_aliases p) (failure_result p) (ps_failure p) (ps_final p) (ps_eof p)
    (before_read p) (continuation p) (recovery_documents p) (recovery_bytes p) (ps_store p) (ps_next p) (ps_stack p) (ps_frames p).
Definition with_input (p : csh_parser) (i : option (csh_input * kernel)) : csh_parser :=
  mk_parser i (ps_tape p) (ps_lexer p) (ps_aliases p) (failure_result p) (ps_failure p) (ps_final p) (ps_eof p)
    (before_read p) (continuation p) (recovery_documents p) (recovery_bytes p) (ps_store p) (ps_next p) (ps_stack p) (ps_frames p).
Definition with_aliases (p : csh_parser) (a : option csh_aliases) : csh_parser :=
  mk_parser (ps_input p) (ps_tape p) (ps_lexer p) a (failure_result p) (ps_failure p) (ps_final p) (ps_eof p)
    (before_read p) (continuation p) (recovery_documents p) (recovery_bytes p) (ps_store p) (ps_next p) (ps_stack p) (ps_frames p).
Definition with_failure (p : csh_parser) (r : csh_parse_result) (e : csh_error) : csh_parser :=
  mk_parser (ps_input p) (ps_tape p) (ps_lexer p) (ps_aliases p) r e (ps_final p) (ps_eof p)
    (before_read p) (continuation p) (recovery_documents p) (recovery_bytes p) (ps_store p) (ps_next p) (ps_stack p) (ps_frames p).
Definition with_ends (p : csh_parser) (final eof : bool) : csh_parser :=
  mk_parser (ps_input p) (ps_tape p) (ps_lexer p) (ps_aliases p) (failure_result p) (ps_failure p) final eof
    (before_read p) (continuation p) (recovery_documents p) (recovery_bytes p) (ps_store p) (ps_next p) (ps_stack p) (ps_frames p).
Definition with_reads (p : csh_parser) (hook : option (list bool)) (c : bool) : csh_parser :=
  mk_parser (ps_input p) (ps_tape p) (ps_lexer p) (ps_aliases p) (failure_result p) (ps_failure p) (ps_final p) (ps_eof p)
    hook c (recovery_documents p) (recovery_bytes p) (ps_store p) (ps_next p) (ps_stack p) (ps_frames p).
Definition with_recovery (p : csh_parser) (docs : list nat) (bytes : str) : csh_parser :=
  mk_parser (ps_input p) (ps_tape p) (ps_lexer p) (ps_aliases p) (failure_result p) (ps_failure p) (ps_final p) (ps_eof p)
    (before_read p) (continuation p) docs bytes (ps_store p) (ps_next p) (ps_stack p) (ps_frames p).
Definition with_store (p : csh_parser) (s : gmap nat redirection) (n : nat) : csh_parser :=
  mk_parser (ps_input p) (ps_tape p) (ps_lexer p) (ps_aliases p) (failure_result p) (ps_failure p) (ps_final p) (ps_eof p)
    (before_read p) (continuation p) (recovery_documents p) (recovery_bytes p) s n (ps_stack p) (ps_frames p).
Definition with_stack (p : csh_parser) (l : list bool) : csh_parser :=
  mk_parser (ps_input p) (ps_tape p) (ps_lexer p) (ps_aliases p) (failure_result p) (ps_failure p) (ps_final p) (ps_eof p)
    (before_read p) (continuation p) (recovery_documents p) (recovery_bytes p) (ps_store p) (ps_next p) l (ps_frames p).
Definition with_frames (p : csh_parser) (l : list parse_frame) : csh_parser :=
  mk_parser (ps_input p) (ps_tape p) (ps_lexer p) (ps_aliases p) (failure_result p) (ps_failure p) (ps_final p) (ps_eof p)
    (before_read p) (continuation p) (recovery_documents p) (recovery_bytes p) (ps_store p) (ps_next p) (ps_stack p) l.

(** ** The monad of the parser *)

Inductive verdict (A : Type) : Type := PCrash | PSpent | PFail | POk (a : A).
Arguments PCrash {_}.
Arguments PSpent {_}.
Arguments PFail {_}.
Arguments POk {_} a.

Definition P (A : Type) : Type := csh_parser -> verdict A * csh_parser.

Definition pret {A} (a : A) : P A := fun p => (POk a, p).
Definition pbind {A B} (m : P A) (f : A -> P B) : P B := fun p =>
  match m p with
  | (POk a, p) => f a p
  | (PFail, p) => (PFail, p)
  | (PSpent, p) => (PSpent, p)
  | (PCrash, p) => (PCrash, p)
  end.

Notation "'let~' x ':=' m 'in' k" := (pbind m (fun x => k))
  (at level 10, x strict pattern, m at level 200, k at level 200,
   format "'let~'  x  ':='  m  'in' '//' k") : cshell_scope.

Definition pcrash {A} : P A := fun p => (PCrash, p).
Definition pfail {A} : P A := fun p => (PFail, p).
Definition get_parser : P csh_parser := fun p => (POk p, p).
Definition put_parser (p : csh_parser) : P unit := fun _ => (POk tt, p).

(** A refusal is an answer; the frames of the calls that it ends are gone. *)
Definition pcatch {A} (m : P A) : P (option A) := fun p =>
  match m p with
  | (POk a, p') => (POk (Some a), p')
  | (PFail, p') => (POk None, with_frames p' (drop (length (ps_frames p') - length (ps_frames p)) (ps_frames p')))
  | (PSpent, p') => (PSpent, p')
  | (PCrash, p') => (PCrash, p')
  end.

(** A loop of the source: [inl] goes round again, [inr] ends it. *)
Fixpoint loop {S A : Type} (fuel : nat) (step : S -> P (S + A)) (s : S) : P A :=
  match fuel with
  | O => fun p => (PSpent, p)
  | Datatypes.S n => let~ r := step s in match r with inl s => loop n step s | inr a => pret a end
  end.

Definition get_frame : P parse_frame := fun p =>
  match ps_frames p with f :: _ => (POk f, p) | [] => (PCrash, p) end.
Definition put_frame (f : parse_frame) : P unit := fun p => (POk tt, with_frames p (f :: tail (ps_frames p))).

(** Code that reads and changes the host only. *)
Definition in_host {A} (m : M A) : P A := fun p =>
  let t := ps_tape p in
  let '(a, w) := m (t_proc t) in (POk a, with_tape p (mk_tape (t_source t) (t_lexers t) (t_stack t) w)).

(** A call of the lexer [up] places behind the first one. *)
Definition in_lexer {A} (up : nat) (m : L A) : P (csh_error + A) := fun p =>
  if ps_lexer p && (up + length (ps_frames p) =? length (t_lexers (ps_tape p)))%nat then
    match m (ps_tape p) with
    | (Done a, t) => (POk (inr a), with_tape p t)
    | (Failed e, t) => (POk (inl e), with_tape p t)
    | (Fault, t) => (PCrash, with_tape p t)
    end
  else (PCrash, p).

(** The tape as the lexer of the frame [up] places out sees it. *)
Definition lexer_view (p : csh_parser) (up : nat) : tape :=
  let t := ps_tape p in
  mk_tape (t_source t) (drop (up + length (t_lexers t) - length (ps_frames p)) (t_lexers t)) (t_stack t) (t_proc t).

Definition csh_stack_check : P bool := fun p =>
  match ps_stack p with [] => (POk true, p) | b :: rest => (POk b, with_stack p rest) end.

Definition new_redirection (r : redirection) : P nat := fun p =>
  (POk (ps_next p), with_store p (<[ps_next p := r]> (ps_store p)) (S (ps_next p))).
Definition get_redirection (a : nat) : P redirection := fun p =>
  match ps_store p !! a with Some r => (POk r, p) | None => (PCrash, p) end.
Definition set_redirection (a : nat) (r : redirection) : P unit := fun p =>
  (POk tt, with_store p (<[a := r]> (ps_store p)) (ps_next p)).

(** ** Failures *)

Definition token_position (t : csh_token) : csh_position :=
  match tk_invocation_source t with Some _ => tk_invocation t | None => tk_start t end.

Definition diagnostic (t : tape) (pos : csh_position) : csh_position :=
  match t_lexers t with x :: _ => csh_lexer_diagnostic_position (t_source t) x pos | [] => pos end.

(** [position(frame)] *)
Definition frame_position : P csh_position := fun p =>
  match ps_frames p with
  | f :: _ =>
      (POk (if has_look f then token_position (token (look f))
            else let '(_, pos, _) := csh_lexer_pending (lexer_view p 0) in diagnostic (lexer_view p 0) pos), p)
  | [] => (PCrash, p)
  end.

Definition clear_recovery : P unit := fun p => (POk tt, with_recovery p [] []).

(** The copies of the pending documents; false when memory is short. *)
Fixpoint copy_documents (l : list nat) : P bool :=
  match l with
  | [] => pret true
  | a :: rest =>
      let~ source := get_redirection a in
      let~ ok := in_host malloc in
      if negb ok then pret false else
      let pos := token_position (token (operand source)) in
      let empty := mk_token CSH_TOKEN_WORD [] [] pos no_position [] None None no_position false in
      let~ ok := in_host malloc in
      if negb ok then pret false else
      match rd_delimiter source with
      | None => pcrash
      | Some d =>
          let~ copy := new_redirection (mk_redirection (operator_kind source) no_position no_position None
            (mk_word empty no_items) (Some d) (delimiter_quoted source) None no_position no_position) in
          let~ p := get_parser in
          let~ _ := put_parser (with_recovery p (recovery_documents p ++ [copy]) (recovery_bytes p)) in
          copy_documents rest
      end
  end.

(** The bytes behind the line of the error. *)
Definition unread_lines (f : parse_frame) (pending : str) : str :=
  if has_look f && bool_decide (tk_kind (token (look f)) = CSH_TOKEN_NEWLINE) then pending
  else default [] (snd (cut_at pending 10)).

Definition recovery_failed : P unit :=
  let~ _ := clear_recovery in
  let~ p := get_parser in
  let e := ps_failure p in
  put_parser (with_failure p (failure_result p)
    (mk_error (Some (bs "cannot preserve here-document recovery")) (detail e) (reported e) ENOMEM 1 (argument_index e) (position e))).

Definition save_recovery : P unit :=
  let~ p := get_parser in
  let~ f := get_frame in
  if ps_final p || negb (bool_decide (failure_result p = CSH_PARSE_ERROR)) ||
     negb (bool_decide (system_errno (ps_failure p) = ENONE)) then pret tt else
  let all := ps_frames p ≫= documents in
  if SIZE_MAX <? Z.of_nat (length all) then recovery_failed
  else if bool_decide (all = []) then pret tt else
  let~ ok := in_host malloc in
  if negb ok then recovery_failed else
  let~ ok := copy_documents all in
  if negb ok then recovery_failed else
  let '(pending, _, _) := csh_lexer_pending (lexer_view p 0) in
  let rest := unread_lines f pending in
  if bool_decide (rest = []) then pret tt else
  let~ ok := in_host malloc in
  if negb ok then recovery_failed else
  let~ p := get_parser in put_parser (with_recovery p (recovery_documents p) rest).

Definition fail_at {A} (result : csh_parse_result) (text : str) (number : errno) (pos : csh_position) : P A :=
  let~ p := get_parser in
  if bool_decide (is_Some (message (ps_failure p))) then pfail else
  let~ _ := put_parser (with_failure p result
    (mk_error (Some text) [] false number (if bool_decide (number = ENONE) then 2 else 1) 0 pos)) in
  let~ _ := save_recovery in pfail.

(** [fail_at(frame, ..., position(frame))] *)
Definition fail_here {A} (result : csh_parse_result) (text : str) (number : errno) : P A :=
  let~ pos := frame_position in fail_at result text number pos.

Definition adopted_result (final : bool) (e : csh_error) : csh_parse_result :=
  if bool_decide (system_errno e = EINTR) then CSH_PARSE_INTERRUPTED
  else if final && bool_decide (system_errno e = ENONE) && starts_with (bs "unterminated ") (default [] (message e))
  then CSH_PARSE_INCOMPLETE else CSH_PARSE_ERROR.

Definition adopt_error {A} (e : csh_error) : P A :=
  let~ p := get_parser in
  if bool_decide (is_Some (message (ps_failure p))) then pfail else
  let~ pos := (if line (position e) =? 0 then frame_position else pret (position e)) in
  let~ _ := put_parser (with_failure p (adopted_result (ps_final p) e) (error_at e pos)) in
  let~ _ := save_recovery in pfail.

(** The value of a call, or its error adopted. *)
Definition adopt {A} (m : P (csh_error + A)) : P A :=
  let~ r := m in match r with inl e => adopt_error e | inr a => pret a end.

(** ** Buffers *)

(** [data] is NULL when the capacity is zero. *)
Record bytes : Type := mk_bytes { b_data : str; b_capacity : Z }.
Definition no_bytes : bytes := mk_bytes [] 0.

Fixpoint grow_storage (fuel : nat) (grown count : Z) : Z :=
  match fuel with
  | O => grown
  | S f => if grown <? count then if SIZE_MAX / 2 <? grown then count else grow_storage f (grown * 2) count else grown
  end.

Definition reserve (capacity count size : Z) : P Z :=
  if count <=? capacity then pret capacity else
  if SIZE_MAX / size <? count then fail_here CSH_PARSE_ERROR (bs "parser storage overflow") EOVERFLOW else
  let grown := grow_storage 64 (if capacity =? 0 then 16 else capacity) count in
  let grown := if SIZE_MAX / size <? grown then count else grown in
  let~ ok := in_host malloc in
  if ok then pret grown else fail_here CSH_PARSE_ERROR (bs "cannot allocate parser storage") ENOMEM.

Definition append (buffer : bytes) (s : str) : P bytes :=
  if SIZE_MAX - slen (b_data buffer) <=? slen s
  then fail_here CSH_PARSE_ERROR (bs "parser storage overflow") EOVERFLOW else
  let~ capacity := reserve (b_capacity buffer) (slen (b_data buffer) + slen s + 1) 1 in
  pret (mk_bytes (b_data buffer ++ s) capacity).

(** ** Input *)

Definition feed_line : P unit :=
  let~ p := get_parser in
  let~ _ := put_parser (with_reads p ((fun l => l ++ [continuation p]) <$> before_read p) true) in
  match ps_input p with
  | None => pcrash
  | Some (input, k) =>
      match csh_input_read_line input k with
      | None => pcrash
      | Some (r, input, k) =>
          let~ p := get_parser in
          let~ _ := put_parser (with_input p (Some (input, k))) in
          match r with
          | CSH_INPUT_ERROR e | CSH_INPUT_INTERRUPTED e => adopt_error e
          | CSH_INPUT_EOF =>
              let~ p := get_parser in
              let~ _ := put_parser (with_ends p true (ps_eof p)) in
              adopt (in_lexer 0 (csh_lexer_feed None 0 true))
          | CSH_INPUT_LINE l => adopt (in_lexer 0 (csh_lexer_feed (Some (ln_data l)) (length (ln_data l)) false))
          end
      end
  end.

(** The substitutions before the fragment [first], from the last on. *)
Definition kept_substitutions (first : nat) (l : list (csh_ast_substitution csh_ast)) :=
  rev ((fix skip l := match l with
        | s :: rest => if (fragment_index s <? first)%nat then l else skip rest
        | [] => []
        end) (rev l)).

Definition with_look (f : parse_frame) (w : word) (b : bool) : parse_frame :=
  mk_parse_frame w b (pf_eof f) (documents f) (document_capacity f).
Definition with_documents (f : parse_frame) (l : list nat) (c : Z) : parse_frame :=
  mk_parse_frame (look f) (has_look f) (pf_eof f) l c.

Definition discard_replayed_substitutions : P unit :=
  let~ p := get_parser in
  let~ f := get_frame in
  match csh_lexer_command_fragment (lexer_view p 0) with
  | None => pret tt
  | Some first =>
      let l := substitutions (look f) in
      put_frame (with_look f (mk_word (token (look f)) (mk_vector (kept_substitutions first (items l)) (capacity l))) (has_look f))
  end.

(** ** Spellings of tokens

    Only unquoted text and removed continuations are eligible. *)

Definition is_continuation (f : csh_fragment) : bool := bool_decide (fr_kind f = CSH_FRAGMENT_CONTINUATION).
Definition is_plain (f : csh_fragment) : bool :=
  bool_decide (fr_kind f = CSH_FRAGMENT_TEXT) && bool_decide (fr_quote f = CSH_QUOTE_NONE).
Definition fragment_bytes (raw : str) (f : csh_fragment) : str := take (fr_end f - fr_begin f) (drop (fr_begin f) raw).

Fixpoint strip (s text : str) : option str :=
  match s, text with
  | [], _ => Some text
  | b :: s', c :: t => if b =? c then strip s' t else None
  | _ :: _, [] => None
  end.

Fixpoint plain_rest (l : list csh_fragment) (raw text : str) : option str :=
  match l with
  | [] => Some text
  | f :: rest =>
      if is_continuation f then plain_rest rest raw text
      else if negb (is_plain f) then None
      else match strip (fragment_bytes raw f) text with None => None | Some t => plain_rest rest raw t end
  end.

Definition plain_equal (t : csh_token) (text : str) : bool :=
  bool_decide (tk_kind t = CSH_TOKEN_WORD) && bool_decide (plain_rest (tk_fragments t) (tk_raw t) text = Some []).

(** A scan of the plain bytes: [step] decides, or counts the byte and goes on. *)
Section Scan.
Context (step : byte -> nat -> option bool).

Fixpoint scan_bytes (s : str) (count : nat) : bool + nat :=
  match s with
  | [] => inr count
  | b :: s' => match step b count with Some r => inl r | None => scan_bytes s' (S count) end
  end.

Fixpoint scan_fragments (l : list csh_fragment) (raw : str) (count : nat) : bool + nat :=
  match l with
  | [] => inr count
  | f :: rest =>
      if is_continuation f then scan_fragments rest raw count
      else if negb (is_plain f) then inl false
      else match scan_bytes (fragment_bytes raw f) count with inl r => inl r | inr n => scan_fragments rest raw n end
  end.
End Scan.

Definition io_number (t : csh_token) : bool :=
  match scan_fragments (fun b _ => if digit_byte b then None else Some false) (tk_fragments t) (tk_raw t) 0 with
  | inl r => r
  | inr count => negb (count =? 0)%nat
  end.

Definition name_step (b : byte) (count : nat) : option bool :=
  if name_start b || (negb (count =? 0)%nat && digit_byte b) then None else Some false.

Definition assignment (t : csh_token) : bool :=
  match scan_fragments (fun b count => if b =? ch "=" then Some (negb (count =? 0)%nat) else name_step b count)
          (tk_fragments t) (tk_raw t) 0 with
  | inl r => r
  | inr _ => false
  end.

Definition valid_name (t : csh_token) : bool :=
  bool_decide (tk_kind t = CSH_TOKEN_WORD) &&
  match scan_fragments name_step (tk_fragments t) (tk_raw t) 0 with inl r => r | inr count => negb (count =? 0)%nat end.

Definition reserved_words : list str := [
  bs "if"; bs "then"; bs "else"; bs "elif"; bs "fi"; bs "do"; bs "done"; bs "case"; bs "esac";
  bs "while"; bs "until"; bs "for"; bs "in"; bs "{"; bs "}"; bs "!" ].

Definition reserved (t : csh_token) : bool := existsb (plain_equal t) reserved_words.

(** ** Grammar *)

Inductive closing : Type :=
  | CLOSE_NONE | CLOSE_PAREN | CLOSE_BRACE | CLOSE_THEN | CLOSE_IF_BRANCH
  | CLOSE_FI | CLOSE_DO | CLOSE_DONE | CLOSE_CASE.

#[export] Instance closing_eq_dec : EqDecision closing.
Proof. solve_decision. Defined.

Definition compound_kind (t : csh_token) : option csh_ast_kind :=
  if bool_decide (tk_kind t = CSH_TOKEN_LPAREN) then Some CSH_AST_SUBSHELL
  else if plain_equal t (bs "{") then Some CSH_AST_BRACE
  else if plain_equal t (bs "if") then Some CSH_AST_IF
  else if plain_equal t (bs "for") then Some CSH_AST_FOR
  else if plain_equal t (bs "while") then Some CSH_AST_WHILE
  else if plain_equal t (bs "until") then Some CSH_AST_UNTIL
  else if plain_equal t (bs "case") then Some CSH_AST_CASE
  else None.

Definition at_close (f : parse_frame) (c : closing) : bool :=
  let t := token (look f) in
  has_look f &&
  match c with
  | CLOSE_PAREN => bool_decide (tk_kind t = CSH_TOKEN_RPAREN)
  | CLOSE_BRACE => plain_equal t (bs "}")
  | CLOSE_THEN => plain_equal t (bs "then")
  | CLOSE_IF_BRANCH => plain_equal t (bs "elif") || plain_equal t (bs "else") || plain_equal t (bs "fi")
  | CLOSE_FI => plain_equal t (bs "fi")
  | CLOSE_DO => plain_equal t (bs "do")
  | CLOSE_DONE => plain_equal t (bs "done")
  | CLOSE_CASE =>
      bool_decide (tk_kind t = CSH_TOKEN_DSEMI) || bool_decide (tk_kind t = CSH_TOKEN_SEMI_AND) || plain_equal t (bs "esac")
  | CLOSE_NONE => false
  end.

Definition has_redirections (node : csh_ast) : bool := negb (bool_decide (items (redirections node) = [])).

(** [None] is a NULL child, or a pipeline without commands. *)
Fixpoint ends_with_redirection (node : csh_ast) : option bool :=
  match ast_data node with
  | And _ child | Or _ child => match child with Some r => ends_with_redirection r | None => None end
  | Pipeline commands _ => has_redirections <$> last (items commands)
  | _ => Some (has_redirections node)
  end.

(** ** Delimiters of here-documents *)

Section Delimiter.
Context `{Locale}.

(** Behind the opening quote: the text before the closing one, and what follows. *)
Fixpoint dollar_quoted (fuel : nat) (s : str) : option (str * str) :=
  match fuel, s with
  | O, _ | _, [] => None
  | S f, b :: rest =>
      if b =? ch "'" then Some ([], rest) else
      let at_ := if (b =? ch "\") && negb (bool_decide (rest = [])) then 1%nat else 0%nat in
      let width := (at_ + csh_character_length (drop at_ s) true true)%nat in
      match dollar_quoted f (drop width s) with
      | Some (text, rest) => Some (take width s ++ text, rest)
      | None => None
      end
  end.

Fixpoint skip_continuations (fuel : nat) (s : str) : str :=
  match fuel, s with
  | S f, b :: c :: rest => if (b =? ch "\") && (c =? 10) then skip_continuations f rest else s
  | _, _ => s
  end.

(** [rest] is the spelling from [i] on; [quote] is zero, 39 or 34, the two quotes. *)
Fixpoint delimiter_spelling (fuel : nat) (t : csh_token) (rest : str) (quote : byte) (buffer : bytes) (quoted : bool)
    : P (bytes * bool) :=
  match fuel, rest with
  | O, _ => fun p => (PSpent, p)
  | S f, [] => pret (buffer, quoted)
  | S f, b :: after =>
      let width := csh_character_length rest true true in
      let plain := let~ buffer := append buffer [b] in delimiter_spelling f t after quote buffer quoted in
      if (1 <? width)%nat then
        let~ buffer := append buffer (take width rest) in delimiter_spelling f t (drop width rest) quote buffer quoted
      else if quote =? 39 then
        if b =? 39 then delimiter_spelling f t after 0 buffer quoted else plain
      else if (b =? ch "\") && negb (bool_decide (after = [])) then
        let next := hd 0 after in
        if next =? 10 then delimiter_spelling f t (tail after) quote buffer quoted
        else if (quote =? 0) || in_set next (bs "$`\" ++ [34]) || (next =? 0) then
          let width := csh_character_length after true true in
          let~ buffer := append buffer (take width after) in
          delimiter_spelling f t (drop width after) quote buffer true
        else plain
      else if b =? 34 then delimiter_spelling f t after (if quote =? 34 then 0 else 34) buffer true
      else if (quote =? 0) && (b =? 39) then delimiter_spelling f t after 39 buffer true
      else if (quote =? 0) && (b =? ch "$") then
        match skip_continuations (length after) after with
        | 39 :: inner =>
            match dollar_quoted (S (length inner)) inner with
            | Some (text, behind) =>
                let~ (r, decoded) := in_host (csh_quote_decode text) in
                match r, decoded with
                | CSH_QUOTE_OK, Some d =>
                    let~ buffer := append buffer d in delimiter_spelling f t behind quote buffer true
                | CSH_QUOTE_NOMEM, _ =>
                    fail_at CSH_PARSE_ERROR (bs "cannot decode here-document delimiter") ENOMEM (token_position t)
                | _, _ =>
                    fail_at CSH_PARSE_ERROR (bs "invalid dollar-single-quoted here-document delimiter") ENONE (token_position t)
                end
            | None => plain
            end
        | _ => plain
        end
      else plain
  end.

(** [redirection] is the address of the operator with its operand. *)
Definition prepare_document (address : nat) : P unit :=
  let~ r := get_redirection address in
  let t := token (operand r) in
  let~ (buffer, quoted) := delimiter_spelling (S (length (tk_raw t))) t (tk_raw t) 0 no_bytes (delimiter_quoted r) in
  let~ buffer := append buffer [] in
  let~ _ := set_redirection address (mk_redirection (operator_kind r) (rd_start r) (rd_end r) (Ast.io_number r) (operand r)
    (Some (b_data buffer)) quoted (rd_body r) (body_start r) (body_end r)) in
  let~ f := get_frame in
  let count := Z.of_nat (length (documents f)) in
  if count =? SIZE_MAX then pfail else
  let~ capacity := reserve (document_capacity f) (count + 1) sizeof_pointer in
  let~ f := get_frame in
  put_frame (with_documents f (documents f ++ [address]) capacity).

(** The tabs of a line go; the continuations between them stay. *)
Fixpoint strip_line (body : bytes) (line : str) (quoted : bool) : P (bytes * str) :=
  match line with
  | 9 :: rest => strip_line body rest quoted
  | 92 :: 10 :: rest =>
      if quoted then pret (body, line) else
      let~ body := append body [92; 10] in strip_line body rest quoted
  | _ => pret (body, line)
  end.

Definition append_document_line (body line : bytes) (strip_tabs quoted : bool) : P bytes :=
  let~ (body, rest) := (if strip_tabs then strip_line body (b_data line) quoted else pret (body, b_data line)) in
  append body rest.

(** The backslashes that end [content]. *)
Fixpoint trailing_backslashes (fuel : nat) (content : str) (count : nat) : nat :=
  match fuel, content with
  | S f, b :: _ =>
      let width := csh_character_length content true true in
      trailing_backslashes f (drop width content) (if (width =? 1)%nat && (b =? ch "\") then S count else O)
  | _, _ => count
  end.

(** What is left of a document: the bytes so far, the physical lines and the
    logical line read since the last complete one, and where that started. *)
Record document_state : Type := mk_document_state {
  ds_body : bytes; ds_line : bytes; ds_logical : bytes; ds_line_start : csh_position }.

Fixpoint drop_while_tab (s : str) : str := match s with 9 :: rest => drop_while_tab rest | _ => s end.

(** One turn for the document at [address]. *)
Definition document_step (address : nat) (discard_body : bool) (d : document_state) : P (document_state + unit) :=
  let~ r := get_redirection address in
  let~ p := get_parser in
  let strip_tabs := bool_decide (operator_kind r = CSH_TOKEN_DLESS_DASH) in
  let '(pending, start, final) := csh_lexer_pending (lexer_view p 0) in
  match pending with
  | [] =>
      if final then fail_at CSH_PARSE_INCOMPLETE (bs "unterminated here-document") ENONE (token_position (token (operand r)))
      else let~ _ := feed_line in pret (inl d)
  | _ :: _ =>
      let line_start := if bool_decide (b_data (ds_line d) = []) then start else ds_line_start d in
      let '(content, more) := cut_at pending 10 in
      let length := match more with Some _ => S (List.length content) | None => List.length content end in
      let backslashes := if negb (delimiter_quoted r) && bool_decide (is_Some more)
        then trailing_backslashes (S (List.length content)) content 0 else 0%nat in
      let continued := Nat.odd backslashes in
      let~ line := append (ds_line d) (take length pending) in
      let~ logical := append (ds_logical d) (if continued then removelast content else content) in
      let~ _ := adopt (in_lexer 0 (csh_lexer_skip_raw length)) in
      if continued then pret (inl (mk_document_state (ds_body d) line logical line_start)) else
      let text := if strip_tabs then drop_while_tab (b_data logical) else b_data logical in
      if bool_decide (Some text = rd_delimiter r) then
        let~ body := (if discard_body then pret (ds_body d) else append (ds_body d) []) in
        let~ _ := set_redirection address (mk_redirection (operator_kind r) (rd_start r) (rd_end r) (Ast.io_number r) (operand r)
          (rd_delimiter r) (delimiter_quoted r) (if discard_body then None else Some (b_data body)) (body_start r) line_start) in
        pret (inr tt)
      else
        let~ body := (if discard_body then pret (ds_body d)
                      else append_document_line (ds_body d) line strip_tabs (delimiter_quoted r)) in
        pret (inl (mk_document_state body (mk_bytes [] (b_capacity line)) (mk_bytes [] (b_capacity logical)) line_start))
  end.
End Delimiter.
