(* ===== verification/Grammar.v ===== *)
(** * The parser (src/parser.c): productions

    The recursive descent.  All recursion goes through [parse_list], so the
    productions are defined over a version [parse_list_] of it for one level
    less; [fuel] bounds the turns of every loop.  A function of the source that
    changes a node it is given returns the changed node. *)

From stdpp Require Import base list gmap strings.
From S2P Require Import Prelude Output State Arithmetic Character Quote Alias Descriptors Input Expansion Lexer Ast Parser.

Section Productions.
Context `{Locale} `{LocaleDb}.
Context (fuel : nat) (parse_list_ : closing -> bool -> csh_position -> P csh_ast).

(** ** Lookahead *)

(** A nested parser for a command substitution, up to its closing parenthesis. *)
Definition command_child (opening : csh_position) : P (csh_ast_substitution csh_ast) :=
  let~ p := get_parser in
  let~ _ := put_parser (with_frames p (new_frame :: ps_frames p)) in
  let~ body := parse_list_ CLOSE_PAREN true opening in
  let~ p := get_parser in
  let~ child := get_frame in
  match csh_lexer_command_fragment (lexer_view p 1) with
  | None => pcrash
  | Some index =>
      let closing := token (look child) in
      if negb (bool_decide (documents child = [])) then
        fail_at CSH_PARSE_ERROR (bs "command substitution closes before here-document body") ENONE (token_position closing)
      else
        let~ r := in_lexer 0 (csh_lexer_command_end (Some closing)) in
        let~ p := get_parser in
        let~ _ := put_parser (with_frames p (tail (ps_frames p))) in
        match r with inl e => adopt_error e | inr _ => pret (mk_substitution index 0 0 body) end
  end.

(** [command_error]: the word may be read again with a command substitution. *)
Definition command_error : P unit :=
  let~ p := get_parser in
  let~ r := in_lexer (length (t_lexers (ps_tape p)) - length (ps_frames p))
    (csh_lexer_replay_arithmetic (length (t_lexers (ps_tape p)) - length (ps_frames p)) (ps_failure p)) in
  match r with
  | inr false => pfail
  | _ =>
      let~ _ := clear_recovery in
      let~ p := get_parser in
      let~ _ := put_parser (with_failure p (failure_result p) no_error) in
      match r with inl e => adopt_error e | inr _ => discard_replayed_substitutions end
  end.

Definition command_substitution : P unit :=
  let~ p := get_parser in
  let '(_, _, pos) := csh_lexer_context (lexer_view p 0) in
  let opening := diagnostic (lexer_view p 0) pos in
  let~ ok := csh_stack_check in
  if negb ok then fail_at CSH_PARSE_ERROR (bs "parser stack exhausted") ENOMEM opening else
  let~ _ := adopt (in_lexer 0 csh_lexer_command_begin) in
  let~ r := pcatch (command_child opening) in
  match r with
  | None => command_error
  | Some s =>
      let~ f := get_frame in
      let~ w := adopt (in_host (csh_ast_word_add_substitution (look f) s)) in
      put_frame (with_look f w (has_look f))
  end.

(** [begin] and [end] of the substitutions, once the token is complete. *)
Definition locate_substitution (k : csh_token) (s : csh_ast_substitution csh_ast) : option (csh_ast_substitution csh_ast) :=
  match tk_fragments k !! fragment_index s with
  | Some g => Some (mk_substitution (fragment_index s) (fr_begin g) (fr_end g) (sb_body s))
  | None => None
  end.

Definition raw_step (_ : unit) : P (unit + bool) :=
  let~ r := in_lexer 0 csh_lexer_next in
  match r with
  | inl e => adopt_error e
  | inr CSH_LEX_MORE => let~ _ := feed_line in pret (inl tt)
  | inr CSH_LEX_EOF =>
      let~ f := get_frame in
      let~ _ := put_frame (mk_parse_frame (look f) (has_look f) true (documents f) (document_capacity f)) in
      pret (inr false)
  | inr CSH_LEX_REPLAY => let~ _ := discard_replayed_substitutions in pret (inl tt)
  | inr CSH_LEX_COMMAND => let~ _ := command_substitution in pret (inl tt)
  | inr (CSH_LEX_TOKEN k) =>
      let~ f := get_frame in
      match mapM (locate_substitution k) (items (substitutions (look f))) with
      | None => pcrash
      | Some l =>
          let~ _ := put_frame (with_look f (mk_word k (mk_vector l (capacity (substitutions (look f))))) true) in
          pret (inr true)
      end
  end.

(** True when there is a token, false at the end. *)
Definition peek_raw : P bool :=
  let~ f := get_frame in
  if has_look f then pret true else if pf_eof f then pret false else loop fuel raw_step tt.

Definition take_word : P word :=
  let~ f := get_frame in
  let~ _ := put_frame (with_look f no_word false) in pret (look f).

Definition discard : P unit := let~ f := get_frame in put_frame (with_look f no_word false).

Definition follows_redirection : P bool :=
  let~ r := in_lexer 0 csh_lexer_follows_redirection in
  match r with inl _ => pcrash | inr b => pret b end.

(** The plain bytes of the word. *)
Fixpoint append_name (l : list csh_fragment) (raw : str) (name : bytes) : P bytes :=
  match l with
  | [] => pret name
  | g :: rest =>
      if is_continuation g then append_name rest raw name
      else let~ name := append name (fragment_bytes raw g) in append_name rest raw name
  end.

Definition alias_step (command_position : bool) (_ : unit) : P (unit + bool) :=
  let~ b := peek_raw in
  if negb b then pret (inr false) else
  let~ p := get_parser in
  let~ f := get_frame in
  let t := token (look f) in
  match ps_aliases p with
  | None => pret (inr true)
  | Some aliases =>
      if negb (bool_decide (tk_kind t = CSH_TOKEN_WORD)) || (negb command_position && negb (tk_alias_eligible t)) || reserved t
      then pret (inr true) else
      let~ number := (if io_number t then follows_redirection else pret false) in
      if number then pret (inr true) else
      if negb (forallb (fun g => is_continuation g || is_plain g) (tk_fragments t)) then pret (inr true) else
      let~ name := append_name (tk_fragments t) (tk_raw t) no_bytes in
      let~ p := get_parser in
      match (if b_capacity name =? 0 then None else csh_aliases_get aliases (Some (b_data name))) with
      | None => pret (inr true)
      | Some value =>
          if csh_lexer_alias_active (lexer_view p 0) (Some (b_data name)) then pret (inr true) else
          let~ _ := adopt (in_lexer 0 (csh_lexer_alias_push (Some t) (Some (b_data name)) (Some value))) in
          let~ _ := discard in
          pret (inl tt)
      end
  end.

Definition peek_alias (command_position : bool) : P bool := loop fuel (alias_step command_position) tt.
Definition peek : P bool := peek_alias false.

(** ** Here-documents *)

Definition collect_document (address : nat) (discard_body : bool) : P unit :=
  let~ pos := frame_position in
  let~ r := get_redirection address in
  let~ _ := set_redirection address (mk_redirection (operator_kind r) (rd_start r) (rd_end r) (Ast.io_number r) (operand r)
    (rd_delimiter r) (delimiter_quoted r) (rd_body r) pos (body_end r)) in
  loop fuel (document_step address discard_body) (mk_document_state no_bytes no_bytes no_bytes pos).

Fixpoint collect_each (l : list nat) (discard_body : bool) : P unit :=
  match l with
  | [] => pret tt
  | a :: rest => let~ _ := collect_document a discard_body in collect_each rest discard_body
  end.

Definition collect_documents (discard_body : bool) : P unit :=
  let~ f := get_frame in
  let~ _ := collect_each (documents f) discard_body in
  let~ f := get_frame in
  put_frame (with_documents f [] (document_capacity f)).

Definition newline : P unit := let~ _ := discard in collect_documents false.

Definition look_kind : P csh_token_kind := let~ f := get_frame in pret (tk_kind (token (look f))).

Definition newline_step (_ : unit) : P (unit + bool) :=
  let~ b := peek_alias true in
  let~ kind := look_kind in
  if b && bool_decide (kind = CSH_TOKEN_NEWLINE) then let~ _ := newline in pret (inl tt) else pret (inr b).

Definition skip_newlines : P bool := loop fuel newline_step tt.

(** ** Tokens of a production *)

Definition new_node (kind : csh_ast_kind) : P csh_ast := adopt (in_host (csh_ast_create kind)).

Definition expect_token (kind : csh_token_kind) (spelling : option str) (text : str) : P unit :=
  let~ b := peek in
  if negb b then fail_here CSH_PARSE_INCOMPLETE text ENONE else
  let~ f := get_frame in
  let t := token (look f) in
  if negb (bool_decide (tk_kind t = kind)) || match spelling with Some s => negb (plain_equal t s) | None => false end
  then fail_here CSH_PARSE_ERROR text ENONE else pret tt.

Definition consume_keyword (node : csh_ast) (spelling : str) : P csh_ast :=
  let~ _ := expect_token CSH_TOKEN_WORD (Some spelling) (bs "expected compound command keyword") in
  let~ f := get_frame in
  let~ _ := discard in
  pret (with_end node (tk_end (token (look f)))).

(** The operator is in lookahead; [descriptor] is the IO_NUMBER before it. *)
Definition parse_redirection (node : csh_ast) (descriptor : option word) : P csh_ast :=
  let~ f := get_frame in
  let t := token (look f) in
  let~ r := adopt (in_host (csh_ast_redirection_create (tk_kind t))) in
  let~ address := new_redirection (mk_redirection (operator_kind r)
    (match descriptor with Some d => tk_start (token d) | None => tk_start t end) (rd_end r)
    (token <$> descriptor) (operand r) (rd_delimiter r) (delimiter_quoted r) (rd_body r) (body_start r) (body_end r)) in
  let~ _ := discard in
  let~ b := peek in
  if negb b then fail_at CSH_PARSE_INCOMPLETE (bs "missing redirection operand") ENONE (token_position t) else
  let~ kind := look_kind in
  if negb (bool_decide (kind = CSH_TOKEN_WORD)) then fail_here CSH_PARSE_ERROR (bs "expected redirection operand") ENONE else
  let~ w := take_word in
  let~ r := get_redirection address in
  let~ _ := set_redirection address (mk_redirection (operator_kind r) (rd_start r) (tk_end (token w)) (Ast.io_number r) w
    (rd_delimiter r) (delimiter_quoted r) (rd_body r) (body_start r) (body_end r)) in
  let~ _ := (match operator_kind r with CSH_TOKEN_DLESS | CSH_TOKEN_DLESS_DASH => prepare_document address | _ => pret tt end) in
  adopt (in_host (csh_ast_add_redirection (with_end node (tk_end (token w))) address)).

(** ** Compound commands *)

Definition set_else (node body : csh_ast) : csh_ast :=
  match ast_data node with If branches _ => with_ast_data node (If branches (Some body)) | _ => node end.

Definition if_step (node : csh_ast) : P (csh_ast + csh_ast) :=
  let~ _ := discard in
  let~ condition := parse_list_ CLOSE_THEN false (ast_start node) in
  let~ node := consume_keyword node (bs "then") in
  let~ body := parse_list_ CLOSE_IF_BRANCH false (ast_start node) in
  let~ node := adopt (in_host (csh_ast_if_add node (mk_if_branch condition body))) in
  let~ f := get_frame in
  pret (if plain_equal (token (look f)) (bs "elif") then inl node else inr node).

Definition parse_if (node : csh_ast) : P csh_ast :=
  let~ node := loop fuel if_step node in
  let~ f := get_frame in
  let~ node := (if plain_equal (token (look f)) (bs "else") then
      let~ _ := discard in
      let~ body := parse_list_ CLOSE_FI false (ast_start node) in pret (set_else node body)
    else pret node) in
  consume_keyword node (bs "fi").

Definition set_loop (node : csh_ast) (condition body : option csh_ast) : csh_ast :=
  with_ast_data node (match ast_data node with While _ _ => While condition body | _ => Until condition body end).

Definition parse_loop (node : csh_ast) : P csh_ast :=
  let~ _ := discard in
  let~ condition := parse_list_ CLOSE_DO false (ast_start node) in
  let~ node := consume_keyword (set_loop node (Some condition) None) (bs "do") in
  let~ body := parse_list_ CLOSE_DONE false (ast_start node) in
  consume_keyword (set_loop node (Some condition) (Some body)) (bs "done").

Definition for_word_step (words : vector word) : P (vector word + vector word) :=
  let~ b := peek in
  let~ kind := look_kind in
  if b && bool_decide (kind = CSH_TOKEN_WORD) then
    let~ w := take_word in
    let~ words := adopt (in_host (csh_ast_word_vector_add words w)) in pret (inl words)
  else if negb b then fail_here CSH_PARSE_INCOMPLETE (bs "expected separator after for words") ENONE
  else pret (inr words).

(** The words after [in], with the separator behind them. *)
Definition for_words : P (vector word) :=
  let~ _ := discard in
  let~ words := loop fuel for_word_step no_items in
  let~ kind := look_kind in
  let~ _ := (match kind with
    | CSH_TOKEN_NEWLINE => newline
    | CSH_TOKEN_SEMI => discard
    | _ => fail_here CSH_PARSE_ERROR (bs "expected separator after for words") ENONE
    end) in
  let~ _ := skip_newlines in
  pret words.

Definition parse_for (node : csh_ast) : P csh_ast :=
  let~ _ := discard in
  let~ _ := expect_token CSH_TOKEN_WORD None (bs "expected for variable name") in
  let~ f := get_frame in
  if negb (valid_name (token (look f))) then fail_here CSH_PARSE_ERROR (bs "invalid for variable name") ENONE else
  let~ name := take_word in
  let~ b := peek in
  let~ kind := look_kind in
  let had_newline := b && bool_decide (kind = CSH_TOKEN_NEWLINE) in
  let~ b := skip_newlines in
  let~ kind := look_kind in
  let semicolon := negb had_newline && b && bool_decide (kind = CSH_TOKEN_SEMI) in
  let~ _ := (if semicolon then let~ _ := discard in skip_newlines else pret b) in
  let~ f := get_frame in
  let has_in := negb semicolon && has_look f && plain_equal (token (look f)) (bs "in") in
  let~ words := (if has_in then for_words else pret no_items) in
  let~ node := consume_keyword (with_ast_data node (For name words has_in None)) (bs "do") in
  let~ body := parse_list_ CLOSE_DONE false (ast_start node) in
  consume_keyword (with_ast_data node (For name words has_in (Some body))) (bs "done").

Definition pattern_step (l : vector word) : P (vector word + vector word) :=
  let~ _ := expect_token CSH_TOKEN_WORD None (bs "expected case pattern") in
  let~ w := take_word in
  let~ l := adopt (in_host (csh_ast_word_vector_add l w)) in
  let~ b := peek in
  let~ kind := look_kind in
  if b && bool_decide (kind = CSH_TOKEN_PIPE) then let~ _ := discard in pret (inl l) else pret (inr l).

(** The terminator of an item, when there is one, with its span. *)
Definition case_terminator : P (csh_ast_case_terminator * csh_position * csh_position) :=
  let~ f := get_frame in
  let t := token (look f) in
  match tk_kind t with
  | CSH_TOKEN_DSEMI => let~ _ := discard in pret (CSH_AST_CASE_BREAK, tk_start t, tk_end t)
  | CSH_TOKEN_SEMI_AND => let~ _ := discard in pret (CSH_AST_CASE_FALLTHROUGH, tk_start t, tk_end t)
  | _ => pret (CSH_AST_CASE_END, no_position, no_position)
  end.

(** [inr] at [esac]. *)
Definition case_step (node : csh_ast) : P (csh_ast + csh_ast) :=
  let~ b := skip_newlines in
  if negb b then fail_at CSH_PARSE_INCOMPLETE (bs "unterminated case command") ENONE (ast_start node) else
  let~ f := get_frame in
  if plain_equal (token (look f)) (bs "esac") then let~ node := consume_keyword node (bs "esac") in pret (inr node) else
  let~ _ := (if bool_decide (tk_kind (token (look f)) = CSH_TOKEN_LPAREN) then discard else pret tt) in
  let~ l := loop fuel pattern_step no_items in
  let~ _ := expect_token CSH_TOKEN_RPAREN None (bs "expected ')' after case patterns") in
  let~ _ := discard in
  let~ body := parse_list_ CLOSE_CASE true (ast_start node) in
  let~ (terminator, from, to) := case_terminator in
  let~ node := adopt (in_host (csh_ast_case_add node (mk_case_item l body terminator from to))) in
  pret (inl node).

Definition parse_case (node : csh_ast) : P csh_ast :=
  let~ _ := discard in
  let~ _ := expect_token CSH_TOKEN_WORD None (bs "expected case word") in
  let~ w := take_word in
  let~ _ := skip_newlines in
  let~ node := consume_keyword (with_ast_data node (Case w no_items)) (bs "in") in
  loop fuel case_step node.

Definition parse_group (node : csh_ast) (c : closing) : P csh_ast :=
  let~ _ := discard in
  let~ body := parse_list_ c false (ast_start node) in
  let~ f := get_frame in
  let~ _ := discard in
  let d := match ast_data node with Subshell _ => Subshell (Some body) | _ => Brace (Some body) end in
  pret (with_end (with_ast_data node d) (tk_end (token (look f)))).

Definition parse_compound (kind : csh_ast_kind) : P csh_ast :=
  let~ ok := csh_stack_check in
  if negb ok then fail_here CSH_PARSE_ERROR (bs "parser stack exhausted") ENOMEM else
  let~ node := new_node kind in
  let~ pos := frame_position in
  let node := with_start node pos in
  match kind with
  | CSH_AST_SUBSHELL => parse_group node CLOSE_PAREN
  | CSH_AST_BRACE => parse_group node CLOSE_BRACE
  | CSH_AST_IF => parse_if node
  | CSH_AST_FOR => parse_for node
  | CSH_AST_WHILE | CSH_AST_UNTIL => parse_loop node
  | CSH_AST_CASE => parse_case node
  | _ => pfail
  end.

(** ** Commands *)

Definition look_redirects : P bool := let~ kind := look_kind in pret (redirection_kind kind).

Definition trailing_step (node : csh_ast) : P (csh_ast + csh_ast) :=
  let~ b := peek in
  if negb b then pret (inr node) else
  let~ f := get_frame in
  let t := token (look f) in
  if redirection_kind (tk_kind t) then let~ node := parse_redirection node None in pret (inl node)
  else if bool_decide (tk_kind t = CSH_TOKEN_WORD) && io_number t then
    let~ adjacent := follows_redirection in
    let~ descriptor := take_word in
    let~ b := peek in
    let~ redirects := look_redirects in
    if adjacent && b && redirects then let~ node := parse_redirection node (Some descriptor) in pret (inl node)
    else fail_at CSH_PARSE_ERROR (bs "unexpected word after compound command") ENONE (token_position (token descriptor))
  else pret (inr node).

Definition trailing_redirections (node : csh_ast) : P csh_ast := loop fuel trailing_step node.

Definition parse_function (name : word) : P csh_ast :=
  if negb (valid_name (token name)) then
    fail_at CSH_PARSE_ERROR (bs "invalid function name") ENONE (tk_start (token name))
  else
    let~ node := new_node CSH_AST_FUNCTION in
    let node := with_ast_data (with_start node (tk_start (token name))) (Function name None) in
    let~ _ := discard in
    let~ _ := expect_token CSH_TOKEN_RPAREN None (bs "expected ')' in function definition") in
    let~ _ := discard in
    let~ b := skip_newlines in
    let~ f := get_frame in
    if negb b then fail_here CSH_PARSE_INCOMPLETE (bs "expected compound function body") ENONE else
    match compound_kind (token (look f)) with
    | None => fail_here CSH_PARSE_ERROR (bs "expected compound function body") ENONE
    | Some kind =>
        let~ body := parse_compound kind in
        trailing_redirections (with_end (with_ast_data node (Function name (Some body))) (ast_end body))
    end.

(** [command_name]: the name of the command has been read; [prefix]: any word
    or redirection has. *)
Record command_state : Type := mk_command_state { cs_node : csh_ast; command_name : bool; prefix : bool }.

(** [inr (inl f)] is a function definition, [inr (inr node)] a simple command. *)
Definition command_step (s : command_state) : P (command_state + (csh_ast + csh_ast)) :=
  let node := cs_node s in
  let~ b := peek_alias (negb (command_name s)) in
  if negb b then pret (inr (inr node)) else
  let~ f := get_frame in
  let t := token (look f) in
  if redirection_kind (tk_kind t) then
    let~ node := parse_redirection node None in pret (inl (mk_command_state node (command_name s) true))
  else if negb (bool_decide (tk_kind t = CSH_TOKEN_WORD)) then pret (inr (inr node))
  else if negb (command_name s) && negb (prefix s) && reserved t then
    fail_here CSH_PARSE_ERROR (bs "unexpected reserved word") ENONE
  else
    let~ candidate := (if io_number t then follows_redirection else pret false) in
    let~ w := take_word in
    let~ b := peek in
    let~ kind := look_kind in
    if negb (prefix s) && b && bool_decide (kind = CSH_TOKEN_LPAREN) then
      let~ f := parse_function w in pret (inr (inl f))
    else if candidate && b && redirection_kind kind then
      let~ node := parse_redirection node (Some w) in pret (inl (mk_command_state node (command_name s) true))
    else
      let is_assignment := negb (command_name s) && assignment (token w) in
      let~ node := adopt (in_host (csh_ast_add_word (with_end node (tk_end (token w))) w is_assignment)) in
      pret (inl (mk_command_state node (command_name s || negb is_assignment) true)).

Definition empty_command (node : csh_ast) : bool :=
  bool_decide (items (redirections node) = []) &&
  match ast_data node with Simple words => bool_decide (items words = []) | _ => false end.

Definition parse_command : P csh_ast :=
  let~ b := peek_alias true in
  if negb b then fail_here CSH_PARSE_INCOMPLETE (bs "expected command") ENONE else
  let~ f := get_frame in
  let t := token (look f) in
  match compound_kind t with
  | Some kind => let~ node := parse_compound kind in trailing_redirections node
  | None =>
      let~ node := new_node CSH_AST_SIMPLE in
      let~ r := loop fuel command_step (mk_command_state (with_start node (tk_start t)) false false) in
      match r with
      | inl f => pret f
      | inr node =>
          if empty_command node then fail_at CSH_PARSE_ERROR (bs "expected command") ENONE (token_position t) else pret node
      end
  end.

(** ** Pipelines and lists *)

(** [b] is the result of the last look for a token. *)
Definition pipeline_step (s : csh_ast * bool) : P (csh_ast * bool + csh_ast) :=
  let '(pipeline, b) := s in
  let~ f := get_frame in
  let t := token (look f) in
  if negb (b && bool_decide (tk_kind t = CSH_TOKEN_PIPE)) then pret (inr pipeline) else
  let~ _ := discard in
  let~ b := skip_newlines in
  if negb b then fail_at CSH_PARSE_INCOMPLETE (bs "missing command after pipe") ENONE (token_position t) else
  let~ command := parse_command in
  let~ pipeline := adopt (in_host (csh_ast_pipeline_add (with_end pipeline (ast_end command)) command)) in
  let~ b := peek in
  pret (inl (pipeline, b)).

Definition set_negated (node : csh_ast) (b : bool) : csh_ast :=
  with_ast_data node (match ast_data node with Pipeline commands _ => Pipeline commands b | d => d end).

Definition parse_pipeline : P csh_ast :=
  let~ opening := frame_position in
  let~ b := peek_alias true in
  let~ f := get_frame in
  let negated := b && plain_equal (token (look f)) (bs "!") in
  let~ _ := (if negated then discard else pret tt) in
  let~ command := parse_command in
  let~ b := peek in
  let~ kind := look_kind in
  if negb negated && (negb b || negb (bool_decide (kind = CSH_TOKEN_PIPE))) then pret command else
  let~ pipeline := new_node CSH_AST_PIPELINE in
  let pipeline := set_negated (with_end (with_start pipeline opening) (ast_end command)) negated in
  let~ pipeline := adopt (in_host (csh_ast_pipeline_add pipeline command)) in
  loop fuel pipeline_step (pipeline, b).

Definition and_or_step (first : csh_ast) : P (csh_ast + csh_ast) :=
  let~ b := peek in
  let~ f := get_frame in
  let t := token (look f) in
  let is_and := bool_decide (tk_kind t = CSH_TOKEN_AND_IF) in
  if negb b || (negb is_and && negb (bool_decide (tk_kind t = CSH_TOKEN_OR_IF))) then pret (inr first) else
  let~ _ := discard in
  let~ b := skip_newlines in
  if negb b then fail_at CSH_PARSE_INCOMPLETE (bs "missing command after and-or operator") ENONE (token_position t) else
  let~ second := parse_pipeline in
  let~ node := new_node (if is_and then CSH_AST_AND else CSH_AST_OR) in
  pret (inl (with_ast_data (with_end (with_start node (ast_start first)) (ast_end second))
    (if is_and then And (Some first) (Some second) else Or (Some first) (Some second)))).

Definition parse_and_or : P csh_ast := let~ first := parse_pipeline in loop fuel and_or_step first.

Definition separator_of (kind : csh_token_kind) : csh_ast_separator :=
  match kind with
  | CSH_TOKEN_SEMI => CSH_AST_SEMI | CSH_TOKEN_AMPERSAND => CSH_AST_AMPERSAND | CSH_TOKEN_NEWLINE => CSH_AST_NEWLINE
  | _ => CSH_AST_END
  end.

Definition list_length (node : csh_ast) : nat := match ast_data node with List l => length (items l) | _ => 0 end.

(** One item with its separator.  [inl (b, list)] goes on; [inr (list, done)]
    ends the list, [done] when it is returned at once. *)
Definition list_item (c : closing) (opening : csh_position) (b : bool) (list : csh_ast) : P (bool * csh_ast + csh_ast * bool) :=
  if negb b then
    if bool_decide (c = CLOSE_NONE) then pret (inr (list, false))
    else fail_at CSH_PARSE_INCOMPLETE (bs "unterminated command group") ENONE opening
  else
    let~ command := parse_and_or in
    let list := if (list_length list =? 0)%nat then with_start list (ast_start command) else list in
    let list := with_end list (ast_end command) in
    let~ b := peek in
    let~ f := get_frame in
    let t := token (look f) in
    let separator := if b then separator_of (tk_kind t) else CSH_AST_END in
    let found := negb (bool_decide (separator = CSH_AST_END)) in
    let~ _ := (if b && negb found then
        let refused := fail_here CSH_PARSE_ERROR (bs "expected command separator") ENONE in
        if negb (at_close f c) then refused
        else if bool_decide (tk_kind t = CSH_TOKEN_WORD) then
          match ends_with_redirection command with
          | None => pcrash
          | Some true => refused
          | Some false => pret tt
          end
        else pret tt
      else pret tt) in
    let item := mk_list_item command separator (if found then tk_start t else no_position) (if found then tk_end t else no_position) in
    let~ list := adopt (in_host (csh_ast_list_add (if found then with_end list (tk_end t) else list) item)) in
    match separator with
    | CSH_AST_NEWLINE =>
        let~ _ := newline in
        if bool_decide (c = CLOSE_NONE) then pret (inr (list, true)) else pret (inl (b, list))
    | CSH_AST_SEMI | CSH_AST_AMPERSAND => let~ _ := discard in pret (inl (b, list))
    | CSH_AST_END =>
        if negb b && negb (bool_decide (c = CLOSE_NONE))
        then fail_at CSH_PARSE_INCOMPLETE (bs "unterminated command group") ENONE opening
        else pret (inr (list, false))
    end.

(** One turn of the loop of [parse_list]. *)
Definition list_step (c : closing) (opening : csh_position) (s : bool * csh_ast) : P (bool * csh_ast + csh_ast * bool) :=
  let~ r := list_item c opening (fst s) (snd s) in
  match r with
  | inr r => pret (inr r)
  | inl (_, list) =>
      let~ b := peek_alias true in
      let~ f := get_frame in
      if bool_decide (c = CLOSE_NONE) && b && bool_decide (tk_kind (token (look f)) = CSH_TOKEN_NEWLINE) then
        let~ _ := newline in pret (inr (with_end list (tk_end (token (look f))), true))
      else
        let~ b := (if bool_decide (c = CLOSE_NONE) then pret b else skip_newlines) in
        let~ f := get_frame in
        pret (if at_close f c then inr (list, false) else inl (b, list))
  end.

Definition list_body (c : closing) (allow_empty : bool) (opening : csh_position) : P csh_ast :=
  let~ list := new_node CSH_AST_LIST in
  let list := with_end (with_start list opening) opening in
  let~ b := skip_newlines in
  let~ f := get_frame in
  if at_close f c then
    if allow_empty then pret list else fail_here CSH_PARSE_ERROR (bs "empty command group") ENONE
  else
    let~ (list, done) := loop fuel (list_step c opening) (b, list) in
    let~ f := get_frame in
    match documents f with
    | a :: _ =>
        if negb done && bool_decide (c = CLOSE_NONE) then
          let~ r := get_redirection a in
          fail_at CSH_PARSE_INCOMPLETE (bs "here-document requires a following newline") ENONE (token_position (token (operand r)))
        else pret list
    | [] => pret list
    end.
End Productions.

(** A list nested at most [fuel] deep. *)
Fixpoint parse_list `{Locale} `{LocaleDb} (fuel : nat) : closing -> bool -> csh_position -> P csh_ast :=
  match fuel with
  | O => fun _ _ _ p => (PSpent, p)
  | S n => list_body fuel (parse_list n)
  end.

(** ** Calls of parser.h *)

Section Calls.
Context `{Locale} `{LocaleDb}.

Definition create_error (text : str) (number : errno) : csh_error :=
  mk_error (Some text) [] false number 1 0 (mk_position 0 1 1).

(** [stack] and [checks] are the answers of the stack checks to come. *)
Definition csh_parser_create (input : option (csh_input * kernel)) (stack : list (list bool)) (checks : list bool) (w : proc)
    : (csh_error + csh_parser) * proc :=
  match input with
  | None => (inl (create_error (bs "invalid parser input") EINVAL), w)
  | Some (i, k) =>
      if negb (offset (in_position i) =? 0)
      then (inl (create_error (bs "parser requires an unread input source") EINVAL), w) else
      let '(ok, w) := malloc w in
      if negb ok then (inl (create_error (bs "cannot allocate parser") ENOMEM), w) else
      match csh_lexer_create (Some (in_name i)) stack w with
      | (inl e, w) => (inl e, w)
      | (inr t, w) =>
          (inr (mk_parser input t true None CSH_PARSE_EOF no_error false false None false [] [] ∅ 0 checks []), w)
      end
  end.

Definition csh_parser_set_aliases (p : csh_parser) (a : option csh_aliases) : csh_parser := with_aliases p a.
Definition csh_parser_set_read_hook (p : csh_parser) (hook : option (list bool)) : csh_parser :=
  with_reads p hook (continuation p).
Definition csh_parser_source_name (p : csh_parser) : option str := (fun i => in_name (fst i)) <$> ps_input p.

(** A new lexer for the parser; [inl] leaves it without one. *)
Definition create_lexer (name : str) : P (csh_error + unit) := fun p =>
  match csh_lexer_create (Some name) (t_stack (ps_tape p)) (t_proc (ps_tape p)) with
  | (inl e, w) =>
      let t := ps_tape p in (POk (inl e), with_lexer (with_tape p (mk_tape (t_source t) (t_lexers t) (t_stack t) w)) false)
  | (inr t, _) => (POk (inr tt), with_lexer (with_tape p t) true)
  end.

Definition destroy_lexer : P unit := fun p => (POk tt, with_lexer p false).
Definition set_failure (r : csh_parse_result) (e : csh_error) : P unit := fun p => (POk tt, with_failure p r e).
Definition set_continuation (b : bool) : P unit := fun p => (POk tt, with_reads p (before_read p) b).
Definition set_frames (l : list parse_frame) : P unit := fun p => (POk tt, with_frames p l).

(** The blank lines before a command; false at the end of the input. *)
Definition blank_step (fuel : nat) (_ : unit) : P (unit + bool) :=
  let~ b := peek_alias fuel (parse_list fuel) true in
  let~ kind := look_kind in
  if b && bool_decide (kind = CSH_TOKEN_NEWLINE) then
    let~ _ := newline fuel in
    let~ _ := set_continuation false in pret (inl tt)
  else pret (inr b).

Definition next_tree (fuel : nat) : P (option csh_ast) :=
  let~ b := loop fuel (blank_step fuel) tt in
  if negb b then pret None else
  let~ pos := frame_position in
  let~ tree := parse_list fuel CLOSE_NONE false pos in pret (Some tree).

(** The result with the tree that TREE transfers, and the error. *)
Definition csh_parser_next (fuel : nat) : P (csh_parse_result * option csh_ast * csh_error) :=
  let~ p := get_parser in
  if bool_decide (is_Some (message (ps_failure p))) then pret (failure_result p, None, ps_failure p) else
  if ps_eof p then pret (CSH_PARSE_EOF, None, no_error) else
  let~ _ := set_frames [new_frame] in
  let~ _ := set_continuation false in
  let~ r := pcatch (next_tree fuel) in
  let~ _ := set_frames [] in
  match r with
  | Some (Some tree) => pret (CSH_PARSE_TREE, Some tree, no_error)
  | Some None =>
      let~ p := get_parser in
      let~ _ := put_parser (with_ends p (ps_final p) true) in pret (CSH_PARSE_EOF, None, no_error)
  | None =>
      let~ _ := destroy_lexer in
      let~ p := get_parser in
      if bool_decide (failure_result p = CSH_PARSE_INTERRUPTED) then
        match ps_input p with
        | None => pcrash
        | Some (i, _) =>
            let~ r := create_lexer (in_name i) in
            match r with
            | inl e => let~ _ := set_failure CSH_PARSE_ERROR e in pret (CSH_PARSE_ERROR, None, e)
            | inr _ =>
                let~ _ := set_failure CSH_PARSE_INTERRUPTED no_error in
                let~ _ := set_continuation false in pret (CSH_PARSE_INTERRUPTED, None, ps_failure p)
            end
        end
      else pret (failure_result p, None, ps_failure p)
  end.

(** The end of a recovery that fails. *)
Definition recovery_refused (e : csh_error) : P (option csh_error * bool) :=
  let~ _ := clear_recovery in
  let~ _ := destroy_lexer in pret (Some e, false).

(** [error->message != NULL] *)
Definition raised (e : csh_error) : option csh_error := if bool_decide (is_Some (message e)) then Some e else None.

(** The lexer behind the documents, at the position of the input. *)
Definition fresh_lexer_at (i : csh_input) : P (option csh_error) :=
  let~ _ := destroy_lexer in
  let~ r := create_lexer (in_name i) in
  match r with
  | inl e => pret (Some e)
  | inr _ =>
      let~ p := get_parser in
      let~ _ := put_parser (with_tape p (csh_lexer_set_position (ps_tape p) (in_position i))) in
      if ps_final p then
        let~ r := in_lexer 1 (csh_lexer_feed None 0 true) in
        pret (match r with inl e => raised e | inr _ => None end)
      else pret None
  end.

(** The drain of the pending documents; the error when it fails. *)
Definition drain_documents (fuel : nat) : P (option csh_error) :=
  let~ p := get_parser in
  let~ _ := put_parser (with_recovery (with_frames p [with_documents new_frame (recovery_documents p) 0]) [] (recovery_bytes p)) in
  let~ r := pcatch (collect_documents fuel true) in
  let~ _ := set_frames [] in
  let~ p := get_parser in
  match r with
  | Some _ => pret None
  | None => let~ _ := set_failure CSH_PARSE_ERROR (ps_failure p) in pret (raised (ps_failure p))
  end.

(** [(None, true)] is 1, [(None, false)] 0 and [Some e] the failure -1. *)
Definition csh_parser_recover (fuel : nat) : P (option csh_error * bool) :=
  let~ p := get_parser in
  match ps_input p with
  | None => pcrash
  | Some (i, _) =>
      if negb (bool_decide (is_Some (message (ps_failure p)))) || negb (bool_decide (failure_result p = CSH_PARSE_ERROR)) ||
         negb (bool_decide (system_errno (ps_failure p) = ENONE)) || ps_final p || csh_input_failed i
      then pret (None, false) else
      let~ r := create_lexer (in_name i) in
      match r with
      | inl e => let~ _ := set_failure (failure_result p) e in let~ _ := clear_recovery in pret (Some e, false)
      | inr _ =>
          let~ q := get_parser in
          let~ _ := put_parser (with_tape q (csh_lexer_set_position (ps_tape q) (in_position i))) in
          let~ r := (if bool_decide (recovery_bytes p = []) then pret (inr tt)
                     else in_lexer 1 (csh_lexer_feed (Some (recovery_bytes p)) (length (recovery_bytes p)) false)) in
          match r with
          | inl e => let~ _ := set_failure (failure_result p) e in recovery_refused e
          | inr _ =>
              let~ _ := set_failure (failure_result p) no_error in
              let~ error := drain_documents fuel in
              let~ q := get_parser in
              match error, ps_input q with
              | Some e, _ => recovery_refused e
              | None, None => pcrash
              | None, Some (i, _) =>
                  let~ error := (if bool_decide (recovery_bytes p = []) then pret None else fresh_lexer_at i) in
                  match error with
                  | Some e => let~ q := get_parser in let~ _ := set_failure (failure_result q) e in recovery_refused e
                  | None => let~ _ := clear_recovery in let~ _ := set_continuation false in pret (None, true)
                  end
              end
          end
      end
  end.

Definition document_word (raw : str) : word :=
  mk_word (mk_token CSH_TOKEN_WORD [] raw no_position no_position [] None None no_position false) no_items.

(** The word of a here-document body with the redirections in its substitutions,
    or the error.  [calloc] gives the empty
    word its terminating NUL only. *)
Definition csh_parser_document (fuel : nat) (text : str) (stack : list (list bool)) (checks : list bool) (w : proc)
    : verdict (csh_error + word * gmap nat redirection) * proc :=
  match csh_lexer_create (Some (bs "here-document")) stack w with
  | (inl e, w) => (POk (inl e), w)
  | (inr t, _) =>
      let p := mk_parser None (csh_lexer_document t) true None CSH_PARSE_EOF no_error true false None false [] [] ∅ 0 checks [new_frame] in
      let run : P (csh_error + word * gmap nat redirection) :=
        let~ r := in_lexer 0 (csh_lexer_feed (Some text) (length text) true) in
        match r with
        | inl e => pret (inl e)
        | inr _ =>
            let~ r := pcatch (peek_raw fuel (parse_list fuel)) in
            let~ p := get_parser in
            match r with
            | None => pret (inl (ps_failure p))
            | Some false =>
                let~ ok := in_host malloc in
                pret (if ok then inr (document_word [], ∅) else
                  inl (mk_error (Some (bs "cannot allocate here-document word")) [] false ENOMEM 1 0 no_position))
            | Some true => let~ w := take_word in let~ p := get_parser in pret (inr (w, ps_store p))
            end
        end in
      let '(r, q) := run p in (r, t_proc (ps_tape q))
  end.
End Calls.
