(* ===== verification/ParserLexer.v ===== *)
(** * The parser: the lexers it holds

    What the lexer promises to the parser.  A parser has one lexer per parse
    frame, and the substitutions that it has read for a pending word stand at
    the command fragments of that word, in order: every call of the lexer keeps
    this, failed calls keep it for the suspended words that can still be read
    again. *)

From stdpp Require Import base list gmap strings sorting.
From S2P Require Import Prelude Output State Arithmetic Character Expansion Lexer LexerLook LexerTree LexerSafety LexerTurns LexerTotal LexerCalls LexerReplay LexerKinds.

Section ParserLexer.
Context {loc : Locale} {LL : LocaleLaws loc} {ST : StableLocale loc} {db : LocaleDb}.

(** [l] are the fragments of the substitutions read for the word of [x]. *)
Record pending_ok (l : list nat) (x : csh_lexer) : Prop := mk_pending_ok {
  pending_sorted : StronglySorted lt l;
  pending_kinds : Forall (fun i => kinds x !! i = Some CSH_FRAGMENT_COMMAND) l;
  pending_next : command x = true -> exists f, head (frames x) = Some f /\ Forall (fun i => (i < fm_fragment f)%nat) l /\
    kinds x !! fm_fragment f = Some CSH_FRAGMENT_COMMAND }.

Definition hosts (ls : list (list nat)) (t : tape) : Prop := ready t /\ Forall2 pending_ok ls (t_lexers t).

(** After a failure: the lexers behind the failed one. *)
Definition survives (ls : list (list nat)) (t : tape) : Prop :=
  exists above behind, t_lexers t = above ++ behind /\ above <> [] /\ length behind = length ls /\
    (Forall (fun y => arithmetic y = []) behind \/
     (data_ok (t_source t) /\ cache_ok (t_source t) /\ ancestors_ok behind /\ Forall2 pending_ok ls behind)).

Lemma pending_alike l x y : alike x y -> pending_ok l x -> pending_ok l y.
Proof.
  intros Ha [H1 H2 H3]. pose proof (alike_kinds _ _ Ha) as Ek. destruct Ha as (_ & Ef & _ & E). injection E as _ _ _ _ _ Ec _.
  split; [done|by rewrite Ek|]. rewrite Ec, Ef, Ek. exact H3.
Qed.

Lemma pendings_alike ls b b' : Forall2 alike b b' -> Forall2 pending_ok ls b -> Forall2 pending_ok ls b'.
Proof.
  intros H. revert ls. induction H as [|x y b b' Hx H IH]; intros ls Hl; inversion Hl; subst; constructor; [by eapply pending_alike|by apply IH].
Qed.

Lemma pending_fresh b : pending_ok [] (fresh_lexer b).
Proof. by split; [constructor|constructor|]. Qed.

(** A word that only grew, with no substitution announced. *)
Lemma pending_later l x y : later x y -> command y = false -> pending_ok l x -> pending_ok l y.
Proof.
  intros [[r Er] _] Hc [H1 H2 _]. split; [done| |congruence]. eapply Forall_impl; [exact H2|]. intros i Hi. rewrite Er. by apply lookup_app_l_Some.
Qed.

Lemma chain_ok_suffix above b ns : chain_ok (above ++ b) (lens above ++ ns) -> chain_ok b ns.
Proof. induction above as [|x above IH]; [done|]. cbn. intros (_ & _ & _ & H). by apply IH. Qed.

Lemma ancestors_suffix above b : ancestors_ok (above ++ b) -> ancestors_ok b.
Proof.
  intros [H1 H2]. split; [|by apply Forall_app in H2 as [_ ?]]. apply (chain_ok_suffix above). unfold lens in *. by rewrite <- map_app.
Qed.

Lemma survives_tail l ls t : survives (l :: ls) t -> survives ls t.
Proof.
  intros (above & behind & E & Hne & El & H). destruct behind as [|x behind]; [done|]. exists (above ++ [x]), behind.
  split; [by rewrite <- app_assoc|]. split; [by destruct above|]. split; [by injection El|].
  destruct H as [[_ H]%Forall_cons|(H1 & H2 & H3 & H4)]; [by left|right]. split_and!; [done|done|by apply (ancestors_suffix [x])|by inversion H4].
Qed.

Lemma arith_captures C l fs cs n ns : arith_wf C l fs cs n ns -> Forall (fun c => length (cp_captures c) = S (length ns)) cs.
Proof.
  revert cs n ns. induction fs as [|f fs IH]; intros cs n ns; cbn [arith_wf]; [by intros ->|].
  destruct (bool_decide _); [|by apply IH]. destruct cs as [|c cs]; [done|].
  intros (_ & _ & _ & n0 & p0 & caps & Ec & _ & _ & _ & _ & _ & _ & Hle%Forall2_length & _ & Hr). rewrite length_map in Hle.
  constructor; [by rewrite Ec; cbn; rewrite Hle|]. apply IH in Hr. by rewrite length_map, Hle in Hr.
Qed.

Lemma arith_counts C l fs cs n ns k : arith_wf C l fs cs n ns -> frames_below fs k ->
  StronglySorted ge (k :: map cp_fragment_count cs).
Proof.
  revert cs n ns k. induction fs as [|f fs IH]; intros cs n ns k; cbn [arith_wf frames_below]; [intros -> _; by repeat constructor|].
  destruct (bool_decide _).
  - destruct cs as [|c cs]; [done|]. intros (Ec & _ & _ & n0 & p0 & l0 & _ & _ & _ & _ & _ & _ & _ & _ & _ & Hr) [Hk Hb].
    pose proof (IH _ _ _ _ Hr Hb) as Hs. cbn [map]. rewrite Ec. constructor; [exact Hs|].
    apply StronglySorted_inv in Hs as [_ Hs]. constructor; [lia|]. eapply Forall_impl; [exact Hs|]. simpl. lia.
  - intros Hr [Hk Hb]. eapply IH; [exact Hr|]. eapply frames_below_mono; [|exact Hb]. lia.
Qed.

Lemma full_caps x behind : lexer_full x behind -> frames_below (frames x) (length (fragments x)) -> caps x behind.
Proof.
  intros [_ H] Hb. split; [|by eapply arith_counts]. apply arith_captures in H. unfold lens in H. by rewrite length_map in H.
Qed.

Lemma weak_caps x behind : lexer_weak x behind -> caps x behind.
Proof.
  unfold lexer_weak, weak, caps. destruct (arithmetic x) as [|c cs]; [intros _; by repeat constructor|].
  intros (above & below & _ & n0 & p0 & l0 & Ec & _ & _ & Hle & (_ & Hb & _) & _ & _ & Hl%Forall2_length & _ & Hr).
  unfold lens in Hl. rewrite !length_map in Hl. split.
  - constructor; [by rewrite Ec; cbn; rewrite Hl|]. apply arith_captures in Hr. by rewrite length_map, Hl in Hr.
  - rewrite length_take, Nat.min_l in Hb by done. pose proof (arith_counts _ _ _ _ _ _ _ Hr Hb) as Hs. cbn [map]. constructor; [exact Hs|].
    constructor; [exact Hle|]. apply StronglySorted_inv in Hs as [_ Hs]. eapply Forall_impl; [exact Hs|]. simpl. lia.
Qed.

Lemma ready_fit t : ready t -> fit t.
Proof. intros [Hc (x & b & E & Hf & _)]. unfold fit. rewrite E. apply full_caps; [done|]. apply (core_lexer _ _ _ Hc E). Qed.

Lemma hosts_ready ls t : hosts ls t -> ready t.
Proof. by intros []. Qed.

Lemma hosts_cons ls t : hosts ls t -> exists l ls', ls = l :: ls'.
Proof. intros [[_ (x & b & E & _)] H]. rewrite E in H. inversion H; subst. by eexists _, _. Qed.

Lemma hosts_tail l ls t : hosts (l :: ls) t -> Forall2 pending_ok ls (tail (t_lexers t)).
Proof. intros [_ H]. by inversion H. Qed.

Lemma sticky_survives ls t0 e t : Forall2 pending_ok ls (tail (t_lexers t0)) -> sticky e t -> spares t0 t -> survives ls t.
Proof.
  intros Hb (_ & _ & _ & Hs) (above & x & b & E & El & Hr).
  exists (above ++ [x]), b. split; [by rewrite <- app_assoc|]. split; [by destruct above|].
  split; [apply Forall2_length in Hb; congruence|].
  assert (forall P : csh_lexer -> Prop, Forall P (above ++ x :: b) -> Forall P b) as Hsuf.
  { intros P. rewrite Forall_app, Forall_cons. tauto. }
  destruct Hr as [Hr|(_ & Hr & _)]; [left; rewrite E in Hr; by apply Hsuf|].
  destruct Hs as [Hs|(H3 & H4 & y & b' & E' & Ha)]; [left; rewrite E in Hs; by apply Hsuf|right].
  split; [done|]. split; [done|]. split; [|by eapply pendings_alike]. rewrite E in E'. destruct above as [|z above]; injection E' as _ E'.
  - by rewrite E'.
  - rewrite <- E' in Ha. apply (ancestors_suffix (above ++ [x])). by rewrite <- app_assoc.
Qed.

Lemma given_up_survives l ls t0 e t : hosts (l :: ls) t0 -> given_up (length (t_lexers t0)) e t -> survives ls t.
Proof.
  intros [_ H2] (_ & El & Ha). apply Forall2_length in H2. cbn in H2. destruct (t_lexers t) as [|x b] eqn:E; [simpl in *; lia|].
  exists [x], b. split; [by rewrite E|]. split; [done|]. split; [simpl in *; lia|left]. by apply Forall_cons in Ha as [_ ?].
Qed.

Lemma hosts_same ls t t' : hosts ls t -> ready t' -> t_lexers t' = t_lexers t -> hosts ls t'.
Proof. intros [_ H] Hr E. split; [done|by rewrite E]. Qed.

(** ** Recovery *)

(** The word can go on with those of its substitutions that are before the new one. *)
Definition replayable (l : list nat) (ls : list (list nat)) (t : tape) : Prop :=
  exists first, csh_lexer_command_fragment t = Some first /\
    forall l', l' `prefix_of` l -> Forall (fun i => (i < first)%nat) l' -> hosts (l' :: ls) t.

Lemma sorted_prefix (l' l : list nat) : l' `prefix_of` l -> StronglySorted lt l -> StronglySorted lt l'.
Proof.
  intros [r ->]. induction l' as [|i l' IH]; [constructor|]. intros [H1 H2]%StronglySorted_inv. constructor; [by apply IH|].
  by apply Forall_app in H2 as [H2 _].
Qed.

Lemma ready_command t x b : ready t -> t_lexers t = x :: b -> command x = true ->
  active x = true /\ exists f below, frames x = f :: below /\ csh_lexer_command_fragment t = Some (fm_fragment f).
Proof.
  intros [_ (y & b' & E & _ & Hw)] Et Hc. rewrite Et in E. injection E as <- <-.
  destruct (word_command _ _ Hw Hc) as ((Ha & _) & _ & Haw). split; [done|]. unfold awaits in Haw. unfold csh_lexer_command_fragment.
  rewrite Et, Hc. destruct (frames x) as [|f below]; [done|]. by exists f, below.
Qed.

Lemma replayed_replayable l ls x0 b0 t : StronglySorted lt l -> Forall (fun i => kinds x0 !! i = Some CSH_FRAGMENT_COMMAND) l ->
  Forall2 pending_ok ls b0 -> ready t -> pending_command t -> replayed x0 b0 t -> replayable l ls t.
Proof.
  intros Hs Hk Hls Hr (y & b' & E' & Hcm) (x & b & f & E & Ha & _ & Ef & Hkeep & Hnew). rewrite E in E'. injection E' as <- <-.
  destruct (ready_command _ _ _ Hr E Hcm) as (Hact & f' & below & Ef' & Hfirst). rewrite Ef' in Ef. injection Ef as ->.
  exists (fm_fragment f). split; [done|]. intros l' Hpre Hlt. split; [done|]. rewrite E. constructor; [|by eapply pendings_alike].
  split; [by eapply sorted_prefix| |].
  - destruct Hpre as [r ->]. apply Forall_app in Hk as [Hk _]. apply Forall_lookup. intros n i Hi.
    apply Hkeep; [by apply (Forall_lookup_1 _ _ _ _ Hlt Hi)|by apply (Forall_lookup_1 _ _ _ _ Hk Hi)].
  - intros _. exists f. rewrite Ef'. split; [done|]. split; [done|by apply Hnew].
Qed.

(** ** The next token *)

Definition next_ok (l : list nat) (ls : list (list nat)) (r : csh_lex_result) (t : tape) : Prop :=
  match r with
  | CSH_LEX_TOKEN k => hosts ([] :: ls) t /\ tk_raw k <> [] /\ Forall (fun i => fr_kind <$> tk_fragments k !! i = Some CSH_FRAGMENT_COMMAND) l
  | CSH_LEX_MORE => hosts (l :: ls) t /\ final (t_source t) = false
  | CSH_LEX_EOF => hosts (l :: ls) t /\ ls = [] /\ l = []
  | CSH_LEX_COMMAND => hosts (l :: ls) t /\ pending_command t
  | CSH_LEX_REPLAY => replayable l ls t
  end.

Lemma pending_length l x : pending_ok l x -> Forall (fun i => (i < length (kinds x))%nat) l.
Proof. intros [_ H _]. eapply Forall_impl; [exact H|]. intros i Hi. exact (lookup_lt_Some _ _ _ Hi). Qed.

Lemma kept_next_ok l ls t r t' : hosts (l :: ls) t -> (forall x b, t_lexers t = x :: b -> command x = false) ->
  result_ok r t' -> kept t (Some r) t' -> next_ok l ls r t'.
Proof.
  intros [Hr H] Hc [Hr' Hres] Hk. inversion H as [|? x ? b Hx Hb E1 E2]; subst. symmetry in E2. specialize (Hc _ _ E2).
  pose proof Hx as [X1 X2 X3].
  assert (still t t' -> hosts (l :: ls) t') as Hstill.
  { intros [_ Hs]. rewrite E2 in Hs. destruct (t_lexers t') as [|x' b'] eqn:E'; [done|]. destruct Hs as [Hl Hal]. split; [done|]. rewrite E'.
    constructor; [|by eapply pendings_alike]. eapply pending_later; [exact Hl| |exact Hx]. destruct Hl as (_ & Hl & _).
    destruct (command x') eqn:E; [|done]. rewrite Hl in Hc; done. }
  destruct r as [|k| | |]; cbn in Hk |- *.
  - destruct Hres as (_ & _ & y & Ey & Hy). pose proof (Hstill Hk) as [_ Hh]. rewrite Ey in Hh. inversion Hh as [|? ? ? ? Hp Hn E3 E4]; subst.
    inversion Hn; subst. split; [by apply Hstill|]. split; [done|]. apply pending_length in Hp. unfold kinds in Hp. rewrite Hy in Hp.
    destruct l as [|i l]; [done|]. apply Forall_cons in Hp as [Hp _]. simpl in Hp. lia.
  - destruct Hk as (x0 & b0 & y & b' & E0 & E' & Hal & Hpre & Hcm). rewrite E2 in E0. injection E0 as <- <-. split.
    + split; [done|]. rewrite E'. constructor; [|by eapply pendings_alike]. split; [constructor|constructor|].
      intros Hy. by rewrite Hcm in Hc.
    + split; [apply Hres|]. eapply Forall_impl; [exact X2|]. intros i Hi. destruct Hpre as [q Eq].
      rewrite <- list_lookup_fmap. change (map fr_kind (tk_fragments k) !! i = Some CSH_FRAGMENT_COMMAND). rewrite Eq. by apply lookup_app_l_Some.
  - split; [by apply Hstill|done].
  - destruct Hk as (_ & Hk & (x0 & b0 & y & b' & f & E0 & E' & Ef & Hlen & Hnew)). rewrite E2 in E0. injection E0 as <- <-. rewrite E2, E' in Hk.
    destruct Hk as [[q Eq] Hal]. destruct Hres as (z & b2 & Ez & Hz). rewrite E' in Ez. injection Ez as <- <-. split; [|by eexists _, _].
    split; [done|]. rewrite E'. constructor; [|by eapply pendings_alike].
    destruct (ready_command _ _ _ Hr' E' Hz) as (Hact & _). split; [done| |].
    + eapply Forall_impl; [exact X2|]. intros i Hi. rewrite Eq. by apply lookup_app_l_Some.
    + intros _. exists f. split; [done|]. split; [|by apply Hnew]. eapply Forall_impl; [by apply pending_length|]. simpl. lia.
  - destruct Hk as (x0 & b0 & E0 & Hrep). rewrite E2 in E0. injection E0 as <- <-. by eapply replayed_replayable.
Qed.

(** ** Reading a suspended word again *)

Lemma replay_survives l ls t e : survives (l :: ls) t ->
  match csh_lexer_replay_arithmetic (length (t_lexers t) - S (length ls)) e t with
  | (Fault, _) => False
  | (Done true, t') => ready t' /\ replayable l ls t'
  | (Done false, t') => survives (l :: ls) t'
  | (Failed e', t') => is_Some (message e') /\ survives ls t'
  end.
Proof.
  intros Hs. pose proof Hs as (above & behind & E & Hne & El & H). destruct behind as [|x b]; [done|]. injection El as El.
  assert (length (t_lexers t) - S (length ls) = length above)%nat as Hup by (rewrite E, length_app; cbn; lia). rewrite Hup. clear Hup.
  assert (drop (length above) (t_lexers t) = x :: b) as Hd by (rewrite E; apply drop_app_length).
  destruct (arithmetic x) as [|c cs] eqn:Ea; [unfold csh_lexer_replay_arithmetic, lbind, get_lexers, get_source; by rewrite Hd, Ea|].
  destruct H as [[H _]%Forall_cons|(H1 & H2 & H3 & H4)]; [congruence|].
  destruct (suspended_recoverable t x b H1 H2 H3) as (Hrec & Hfull & Hbelow).
  assert (arithmetic x <> []) as Hnea by (by rewrite Ea).
  pose proof (replay_post e _ x b Hrec Hnea (fun _ => Hfull)) as Hp. unfold lpost in Hp.
  pose proof (replay_kept (length above) e t x b Hd (full_caps _ _ Hfull Hbelow)) as Hk. unfold spostc in Hk.
  pose proof (replay_drop _ e _ _ _ Hd) as Hm. inversion H4 as [|? ? ? ? Hx Hb]; subst. pose proof Hx as [X1 X2 X3].
  destruct (csh_lexer_replay_arithmetic (length above) e t) as [[|e1|[|]] u1],
    (csh_lexer_replay_arithmetic 0 e (set_lexers t (x :: b))) as [[|e2|[|]] u2]; try done.
  - destruct Hm as (-> & _ & Hm). pose proof Hp as Hst%failed_sticky. split; [apply Hp|]. destruct Hm as [->|Hm].
    + destruct Hk as (ab & y & b' & Ey & Eb & Hr). cbn in Eb. exists (ab ++ [y]), b'. split; [by rewrite <- app_assoc|].
      split; [by destruct ab|]. split; [lia|]. destruct Hr as [Hr|(-> & Hr & _)].
      { left. rewrite Ey in Hr. apply Forall_app in Hr as [_ Hr]. by apply Forall_cons in Hr as [_ Hr]. }
      destruct Hst as (_ & _ & _ & [Hst|(S1 & S2 & y' & b2 & E2 & S3)]); rewrite Ey in *.
      * left. by apply Forall_cons in Hst as [_ Hst].
      * injection E2 as <- <-. right. split_and!; [done|done|done|]. by eapply pendings_alike.
    + exists (map release_work (above ++ [x])), (map release_work b). split; [by rewrite <- map_app, <- app_assoc, Hm, E|].
      split; [by destruct above|]. split; [by rewrite length_map|]. left. apply Forall_map, Forall_true. by intros.
  - cbn in Hm. subst u2. destruct Hp as [Hr Hpend], Hk as [Hk _]. split; [done|]. by eapply replayed_replayable.
  - destruct Hm as [E1 E2]. exists above, (x :: b). rewrite E1, E2. split_and!; [done|done|by cbn; rewrite El|right]. split_and!; try done.
Qed.

Lemma next_hosts l ls t : hosts (l :: ls) t ->
  lpost csh_lexer_next t (next_ok l ls) (fun e t' => is_Some (message e) /\ survives ls t').
Proof.
  intros Hh. pose proof Hh as [Hr H]. inversion H as [|? x ? b Hx Hb E1 E2]; subst. symmetry in E2.
  pose proof (csh_lexer_next_post t Hr) as Hpost. unfold lpost in *.
  assert (has_failed (t_source t) = false) as Hnf.
  { destruct Hr as [([Hs _] & _) _]. unfold has_failed. rewrite Hs. by apply bool_decide_eq_false_2; intros [? ?]. }
  destruct (command x) eqn:Ecm.
  { unfold csh_lexer_next in *. replace (next_token t) with (Done CSH_LEX_COMMAND : outcome csh_lex_result, t) in *.
    2: { unfold next_token, lbind, get_source, get_lexer. by rewrite E2, Hnf, Ecm. }
    split; [done|]. by exists x, b. }
  assert (next_token t = next_loop (turns t) t) as En.
  { unfold next_token, lbind, get_source, get_lexer. by rewrite E2, Hnf, Ecm. }
  pose proof (next_token_post t Hr) as Hp. pose proof (next_loop_kept (turns t) t (ready_fit t Hr)) as Hk.
  unfold csh_lexer_next, spostc, lpost in *. rewrite En in *. clear En.
  destruct (next_loop (turns t) t) as [[|e|r] t1]; [done| |].
  2: { eapply kept_next_ok; [exact Hh| |exact Hp|exact Hk]. intros y b' Ey. rewrite E2 in Ey. by injection Ey as <- <-. }
  rewrite Hnf in *. pose proof Hp as Hst%failed_sticky. destruct Hp as (H1 & H1' & H2 & y & b' & Ey & Hrec).
  rewrite Ey in *. destruct (bool_decide (arithmetic y = [])) eqn:Ea.
  { split; [done|]. eapply sticky_survives; [by apply (hosts_tail _ _ _ Hh)|done|exact Hk]. }
  apply bool_decide_eq_false in Ea. destruct Hrec as [[? _]%Forall_cons|(S1 & S2 & S3 & S4 & S5)]; [done|].
  pose proof (replay_post e t1 y b' ltac:(by split_and!) Ea S5) as Hrp. unfold lpost in Hrp.
  pose proof (replay_kept 0 e t1 y b' ltac:(by rewrite Ey) (weak_caps _ _ S2)) as Hrk. unfold spostc in Hrk.
  assert (Forall2 alike b b' /\ cut x y) as [Hal Hcut].
  { destruct Hk as (ab & z & b2 & Ez & _ & [Hz|(-> & Hz & Hf)]); rewrite Ey in *; [by apply Forall_cons in Hz as [Hz _]|].
    injection Ez as <- <-. rewrite E2 in Hz. split; [exact Hz|]. exact (Hf x b E2). }
  destruct (csh_lexer_replay_arithmetic 0 e t1) as [[|e'|[|]] t2]; [done| | |].
  - split; [apply Hrp|]. eapply sticky_survives; [|exact Hpost|exact Hrk]. by eapply pendings_alike.
  - destruct Hrp as [Hr2 Hp2], Hrk as [Hrk (c & Hc & Hfirst)]. cbn.
    destruct Hrk as (x2 & b2 & f & E' & Ha & Hcaps & Ef & Hkeep & Hnew). pose proof Hp2 as (x3 & b3 & E3 & Hcm). rewrite E' in E3. injection E3 as <- <-.
    destruct (ready_command _ _ _ Hr2 E' Hcm) as (Hact & f' & below & Ef' & Hf'). rewrite Ef' in Ef. injection Ef as ->.
    specialize (Hfirst _ Hf'). pose proof Hx as [X1 X2 _].
    eapply (replayed_replayable _ _ x b); [done|done|done|done|done|]. exists x2, b2, f. rewrite Ef'. split_and!; try done.
    + by eapply alikes_trans.
    + intros j k Hj Hxj. apply Hkeep; [done|]. apply (Hcut c); [done|lia|done].
  - destruct Hrp as [[Es El] _]. split; [done|]. eapply sticky_survives; [by apply (hosts_tail _ _ _ Hh)|exact Hpost|].
    unfold sparesc in *. by rewrite El.
Qed.

(** ** The other calls *)

(** A call with what both accounts say of it. *)
Lemma call_survives {A} l ls (m : L A) t (Q : A -> tape -> Prop) : hosts (l :: ls) t ->
  lpost m t Q sticky -> spost t m t (fun _ t' => still t t') ->
  lpost m t (fun a t' => Q a t' /\ still t t') (fun e t' => is_Some (message e) /\ survives ls t').
Proof.
  intros Hh. unfold lpost, spostc. destruct (m t) as [[|e|a] t']; [done| |done]. intros Hs Hk. split; [apply Hs|].
  eapply sticky_survives; [by apply (hosts_tail _ _ _ Hh)|exact Hs|exact Hk].
Qed.

Lemma gives_up_survives {A} l ls (m : L A) t (Q : A -> tape -> Prop) : hosts (l :: ls) t ->
  lpost m t Q (given_up (length (t_lexers t))) -> lpost m t Q (fun e t' => is_Some (message e) /\ survives ls t').
Proof. intros Hh Hm. eapply lpost_weaken; [exact Hm|]. intros e t' Hg. split; [apply Hg|]. by eapply given_up_survives. Qed.

Lemma pending_fed l x y : fed x y -> pending_ok l x -> pending_ok l y.
Proof. intros (cs & -> & _) [H1 H2 H3]. by split. Qed.

Lemma feed_hosts l ls bytes n last t : hosts (l :: ls) t -> Forall is_byte (default [] bytes) ->
  lpost (csh_lexer_feed bytes n last) t (fun _ t' => hosts (l :: ls) t' /\ final (t_source t') = last)
    (fun e t' => is_Some (message e) /\ survives ls t').
Proof.
  intros Hh Hb. eapply gives_up_survives; [exact Hh|]. eapply lpost_mono; [apply feed_ready; [apply Hh|done]|].
  intros [] t' (H1 & H2 & _ & Hf). split; [|done]. split; [done|]. destruct Hh as [_ Hh]. revert Hf Hh. generalize (l :: ls).
  intros ps Hf. revert ps. induction Hf as [|x y a b Hx Hf IH]; intros ps Hp; inversion Hp; subst; constructor; [by eapply pending_fed|by apply IH].
Qed.

Lemma command_begin_hosts l ls t : hosts (l :: ls) t ->
  lpost csh_lexer_command_begin t (fun _ t' => hosts ([] :: l :: ls) t') (fun e t' => is_Some (message e) /\ survives ls t').
Proof.
  intros Hh. eapply gives_up_survives; [exact Hh|]. eapply lpost_mono; [apply command_begin_ready, Hh|].
  intros [] t' [H1 H2]. split; [done|]. rewrite H2. constructor; [apply pending_fresh|apply Hh].
Qed.

Lemma alias_push_hosts l ls token name value t : hosts (l :: ls) t -> Forall is_byte (default [] value) ->
  lpost (csh_lexer_alias_push token name value) t (fun _ t' => hosts (l :: ls) t') (fun e t' => is_Some (message e) /\ survives ls t').
Proof.
  intros Hh Hv. eapply gives_up_survives; [exact Hh|]. eapply lpost_mono; [apply alias_push_ready; [apply Hh|done]|].
  intros [] t' (H1 & x & b & E1 & E2). split; [done|]. destruct Hh as [_ Hh]. rewrite E1 in Hh. rewrite E2.
  inversion Hh as [|? ? ? ? [] ? ]; subst. by constructor.
Qed.

Lemma follows_redirection_hosts ls t : hosts ls t ->
  lpost csh_lexer_follows_redirection t (fun _ t' => hosts ls t') (fun _ _ => False).
Proof. intros Hh. eapply lpost_mono; [apply follows_redirection_ready, Hh|]. intros b t' [H1 H2]. by eapply hosts_same. Qed.

Lemma skip_raw_hosts l ls count t : hosts (l :: ls) t ->
  lpost (csh_lexer_skip_raw count) t (fun _ t' => hosts (l :: ls) t') (fun e t' => is_Some (message e) /\ survives ls t').
Proof.
  intros Hh. pose proof (ready_fit t ltac:(apply Hh)) as Hf.
  assert (spost t (csh_lexer_skip_raw count) t (fun _ t' => still t t')) as Hk.
  { pose proof (still_refl (calm := false) t Hf) as Hs. unfold csh_lexer_skip_raw. apply spost_get_source.
    destruct (has_failed _) eqn:Ehf; [destruct Hh as [[([E _] & _) _] _]; unfold has_failed in Ehf; by rewrite E in Ehf|].
    apply spost_get_lexer. intros x b E. destruct (_ || _); [by apply spost_fail|].
    eapply spost_put; [done|exact E|done|done|]. intros H1. eapply spost_still; [exact H1|]. intros t2 H2. by apply consume_stays. }
  pose proof (call_survives l ls _ t _ Hh (skip_raw_ready count t ltac:(apply Hh)) Hk) as Hp. clear Hk.
  destruct Hh as [Hr Hh]. inversion Hh as [|? x ? b Hx Hb E1 E2]; subst. symmetry in E2.
  assert (match csh_lexer_skip_raw count t with (Done _, _) => command x = false | _ => True end) as Hcm.
  { destruct (command x) eqn:Ecm; [|by destruct (csh_lexer_skip_raw count t) as [[] ?]]. destruct (ready_command _ _ _ Hr E2 Ecm) as (Hact & _).
    unfold csh_lexer_skip_raw, lbind at 1, get_source. destruct (has_failed _); [done|]. unfold lbind at 1, get_lexer. rewrite E2, Hact. cbn.
    unfold fail, lbind, get_lexer, get_source, fail_at. rewrite E2. destruct (has_failed _); [done|]. by destruct (_ && _). }
  unfold lpost in *. destruct (csh_lexer_skip_raw count t) as [[|e|[]] t']; [done|done|]. destruct Hp as [[H1 _] [_ H2]]. split; [done|].
  rewrite E2 in H2. destruct (t_lexers t') as [|x' b']; [done|]. destruct H2 as [H2 H3]. constructor; [|by eapply pendings_alike].
  eapply pending_later; [exact H2| |exact Hx]. destruct H2 as (_ & H2 & _). destruct (command x') eqn:E; [|done]. by rewrite H2 in Hcm.
Qed.

(** The child gives way to the word of its parent. *)
Lemma command_end_hosts l0 l ls closing t : hosts (l0 :: l :: ls) t -> 
  lpost (csh_lexer_command_end closing) t (fun _ t' => forall first,
    csh_lexer_command_fragment (set_lexers t (tail (t_lexers t))) = Some first -> hosts ((l ++ [first]) :: ls) t')
    (fun e t' => is_Some (message e) /\ survives (l :: ls) t').
Proof.
  intros Hh. assert (2 <= length (t_lexers t))%nat as Hlen.
  { destruct Hh as [_ H%Forall2_length]. cbn in H. lia. }
  eapply gives_up_survives; [exact Hh|]. pose proof (command_end_ready closing t ltac:(apply Hh) Hlen) as Hp.
  destruct Hh as [Hr Hh]. inversion Hh as [|? x0 ? b0 _ Hh' E1 E2]; subst. inversion Hh' as [|? x ? b Hx Hb E3 E4]; subst. symmetry in E2.
  unfold csh_lexer_command_end, lpost in Hp |- *. rewrite get_source_run in Hp |- *.
  destruct (has_failed _) eqn:Ehf; [destruct Hr as [([E _] & _) _]; unfold has_failed in Ehf; by rewrite E in Ehf|].
  rewrite get_lexers_run, E2 in Hp |- *. cbn [tail]. cbv zeta in Hp |- *.
  match goal with |- match (if ?c then _ else _) _ with _ => _ end => destruct c end.
  { unfold fail_at in Hp |- *. rewrite Ehf in Hp |- *. by destruct (_ && _). }
  set (y := with_modes x (comment x) false) in *. set (t1 := set_lexers t (y :: b)).
  change (lpost (pop 0) t1 (fun _ t' => ready t' /\ length (x0 :: x :: b) = S (length (t_lexers t'))) (given_up (length (x0 :: x :: b)))) in Hp.
  change (lpost (pop 0) t1 (fun _ t' => forall first, csh_lexer_command_fragment (set_lexers t (x :: b)) = Some first -> hosts ((l ++ [first]) :: ls) t')
    (given_up (length (x0 :: x :: b)))).
  assert (fit t1) as Hf.
  { destruct Hr as [Hc _]. pose proof (core_lexer _ _ _ Hc E2) as (_ & _ & [(H1 & H2 & H3 & H4) _] & _).
    unfold fit. cbn. apply (full_caps y b); [by split|apply H1]. }
  pose proof (pop_still 0 t1 Hf) as Hk. unfold lpost, spostc in *. destruct (pop 0 t1) as [[|e|[]] t']; [done|done|].
  destruct Hp as [H1 _], Hk as [_ Hk]. intros first Hfirst. split; [done|]. cbn in Hk. destruct (t_lexers t') as [|x' b'] eqn:E'; [done|].
  destruct Hk as [Hk Ha]. constructor; [|by eapply pendings_alike]. destruct Hx as [X1 X2 X3].
  unfold csh_lexer_command_fragment in Hfirst. cbn in Hfirst. destruct (command x) eqn:Ecm; [|done].
  destruct (X3 eq_refl) as (f & Ef & Hlt & Hf'). rewrite Ef in Hfirst. injection Hfirst as <-.
  eapply pending_later; [exact Hk| |].
  - destruct Hk as (_ & Hk & _). destruct (command x') eqn:E; [|done]. by specialize (Hk eq_refl).
  - split; [|apply Forall_app; split; [exact X2|by repeat constructor]|done].
    clear - X1 Hlt. induction l as [|i l IH]; [by repeat constructor|]. apply StronglySorted_inv in X1 as [X1 X4]. apply Forall_cons in Hlt as [H1 H2].
    cbn. constructor; [by apply IH|]. apply Forall_app. by split; [|repeat constructor].
Qed.
End ParserLexer.
