(* ===== verification/ParserLogic.v ===== *)
(** * The parser: what its computations keep

    The trees that the grammar allows, the state of a parser between two
    steps, and the rules by which the productions are proved: a computation from
    a good parser returns with a good parser, or refuses with the failure
    recorded and the suspended words intact, and never crashes. *)

From stdpp Require Import base list gmap strings sorting.
From S2P Require Import Prelude Output State Arithmetic Character Quote Alias Descriptors Input InputTheorems Expansion Lexer LexerLook LexerTree LexerSafety LexerTurns LexerTotal LexerCalls LexerKinds ParserLexer Ast Parser.

(** ** Trees of the grammar *)

(** [PList true] may be empty. *)
Inductive production : Type := PList (empty : bool) | PAndOr | PPipeline | PCommand | PCompound.

Definition admits (x : production) (k : csh_ast_kind) : bool :=
  match x, k with
  | PList _, CSH_AST_LIST => true
  | PList _, _ => false
  | _, CSH_AST_LIST => false
  | PAndOr, _ => true
  | _, (CSH_AST_AND | CSH_AST_OR) => false
  | PPipeline, _ => true
  | _, CSH_AST_PIPELINE => false
  | PCommand, _ => true
  | PCompound, (CSH_AST_SIMPLE | CSH_AST_FUNCTION) => false
  | PCompound, _ => true
  end.

(** The children of a node with the production of each. *)
Definition data_children (d : csh_ast_data csh_ast) : list (production * csh_ast) :=
  match d with
  | Simple _ => []
  | Pipeline commands _ => map (pair PCommand) (items commands)
  | And l r | Or l r => map (pair PAndOr) (option_list l) ++ map (pair PPipeline) (option_list r)
  | List l => map (fun i => (PAndOr, it_command i)) (items l)
  | Subshell body | Brace body => map (pair (PList false)) (option_list body)
  | If branches body =>
      map (fun b => (PList false, if_condition b)) (items branches) ++ map (fun b => (PList false, if_body b)) (items branches) ++
      map (pair (PList false)) (option_list body)
  | For _ _ _ body => map (pair (PList false)) (option_list body)
  | While condition body | Until condition body =>
      map (pair (PList false)) (option_list condition) ++ map (pair (PList false)) (option_list body)
  | Case _ l => map (fun i => (PList true, ci_body i)) (items l)
  | Function _ body => map (pair PCompound) (option_list body)
  end.

Definition data_words (d : csh_ast_data csh_ast) : list word :=
  match d with
  | Simple words => map cw_word (items words)
  | For name words _ _ => name :: items words
  | Case w l => w :: (items l ≫= fun i => items (patterns i))
  | Function name _ => [name]
  | _ => []
  end.

(** The words before the command name that have the form of assignments. *)
Fixpoint assignments (l : list csh_token) : list bool :=
  match l with
  | [] => []
  | k :: rest => if assignment k then true :: assignments rest else false :: map (fun _ => false) rest
  end.

Definition data_shape (empty : bool) (redirected : bool) (d : csh_ast_data csh_ast) : Prop :=
  match d with
  | Simple words =>
      map cw_assignment (items words) = assignments (map (fun w => token (cw_word w)) (items words)) /\
      (items words = [] -> redirected = true) /\
      (redirected = false -> forall w, head (items words) = Some w -> reserved (token (cw_word w)) = false)
  | Pipeline commands negated =>
      items commands <> [] /\ (negated = false -> (2 <= length (items commands))%nat) /\ redirected = false
  | And l r | Or l r => is_Some l /\ is_Some r /\ redirected = false
  | List l => (empty = false -> items l <> []) /\ Forall (fun i => separator i <> CSH_AST_END) (removelast (items l)) /\ redirected = false
  | Subshell body | Brace body => is_Some body
  | If branches body => items branches <> []
  | For name words has_in body => valid_name (token name) = true /\ (has_in = false -> items words = []) /\ is_Some body
  | While condition body | Until condition body => is_Some condition /\ is_Some body
  | Case w l =>
      Forall (fun i => items (patterns i) <> []) (items l) /\
      Forall (fun i => terminator i <> CSH_AST_CASE_END) (removelast (items l))
  | Function name body => valid_name (token name) = true /\ exists b, body = Some b /\ items (redirections b) = []
  end.

Definition is_list_empty (x : production) : bool := match x with PList b => b | _ => false end.

Definition is_word (w : word) : Prop := tk_kind (token w) = CSH_TOKEN_WORD.

(** A substitution stands at a command fragment of the token. *)
Definition placed (k : csh_token) (s : csh_ast_substitution csh_ast) : Prop :=
  exists g, tk_fragments k !! fragment_index s = Some g /\ fr_kind g = CSH_FRAGMENT_COMMAND /\
    sb_begin s = fr_begin g /\ sb_end s = fr_end g.

Definition word_placed (w : word) : Prop :=
  Forall (placed (token w)) (items (substitutions w)) /\
  StronglySorted lt (map fragment_index (items (substitutions w))).

Definition here_document (k : csh_token_kind) : bool :=
  match k with CSH_TOKEN_DLESS | CSH_TOKEN_DLESS_DASH => true | _ => false end.

(** A complete redirection. *)
Record redirection_good (r : redirection) : Prop := mk_redirection_good {
  rg_kind : redirection_kind (operator_kind r) = true;
  rg_number : forall k, Ast.io_number r = Some k -> io_number k = true;
  rg_word : is_word (operand r);
  rg_raw : tk_raw (token (operand r)) <> [];
  rg_placed : word_placed (operand r);
  rg_delimiter : here_document (operator_kind r) = true -> is_Some (rd_delimiter r) }.

Definition pending_documents (p : csh_parser) : list nat := ps_frames p ≫= documents.

(** A redirection of a tree: a here-document has its body, or waits for it. *)
Definition redirected (p : csh_parser) (a : nat) : Prop :=
  exists r, ps_store p !! a = Some r /\ redirection_good r /\
    (here_document (operator_kind r) = true -> is_Some (rd_body r) \/ a ∈ pending_documents p).

Inductive in_tree (p : csh_parser) (t : csh_ast) : production -> csh_ast -> Prop :=
  | in_data x u : (x, u) ∈ data_children (ast_data t) -> in_tree p t x u
  | in_word w s : w ∈ data_words (ast_data t) -> s ∈ items (substitutions w) -> in_tree p t (PList true) (sb_body s)
  | in_operand a r s : a ∈ items (redirections t) -> ps_store p !! a = Some r -> s ∈ items (substitutions (operand r)) ->
      in_tree p t (PList true) (sb_body s).

(** A tree that the production derives. *)
Inductive parsed (p : csh_parser) : production -> csh_ast -> Prop := parsed_intro x t :
  admits x (ast_kind t) = true ->
  data_shape (is_list_empty x) (has_redirections t) (ast_data t) ->
  Forall (redirected p) (items (redirections t)) ->
  Forall is_word (data_words (ast_data t)) -> Forall word_placed (data_words (ast_data t)) ->
  (forall y u, in_tree p t y u -> parsed p y u) -> parsed p x t.

Definition bodies_parsed (p : csh_parser) (w : word) : Prop :=
  Forall (fun s => parsed p (PList true) (sb_body s)) (items (substitutions w)).

Definition word_good (p : csh_parser) (w : word) : Prop := word_placed w /\ bodies_parsed p w.

(** ** Later parsers *)

Definition changed (r r' : redirection) : Prop :=
  operator_kind r' = operator_kind r /\ Ast.io_number r' = Ast.io_number r /\ operand r' = operand r /\
  rd_delimiter r' = rd_delimiter r /\ delimiter_quoted r' = delimiter_quoted r /\
  (is_Some (rd_body r) -> is_Some (rd_body r')).

Lemma changed_refl r : changed r r.
Proof. done. Qed.
Lemma changed_trans r s t : changed r s -> changed s t -> changed r t.
Proof. intros (A1 & A2 & A3 & A4 & A5 & A6) (B1 & B2 & B3 & B4 & B5 & B6). split_and!; try congruence. auto. Qed.

Lemma changed_good r r' : changed r r' -> redirection_good r -> redirection_good r'.
Proof. intros (A1 & A2 & A3 & A4 & _) []. split; rewrite ?A1, ?A2, ?A3, ?A4; done. Qed.

(** Complete redirections change in their bodies only. *)
Definition keeps (p p' : csh_parser) : Prop :=
  forall a r, ps_store p !! a = Some r -> redirection_good r -> exists r', ps_store p' !! a = Some r' /\ changed r r'.

(** So do all whose addresses are less than [n]. *)
Definition extends (n : nat) (p p' : csh_parser) : Prop :=
  (ps_next p <= ps_next p')%nat /\ keeps p p' /\
  forall a r, (a < n)%nat -> ps_store p !! a = Some r -> exists r', ps_store p' !! a = Some r' /\ changed r r'.

Definition awaited (p p' : csh_parser) : Prop :=
  forall a r, a ∈ pending_documents p -> ps_store p !! a = Some r -> redirection_good r ->
    a ∈ pending_documents p' \/ exists r', ps_store p' !! a = Some r' /\ is_Some (rd_body r').

Lemma extends_refl n p : extends n p p.
Proof. split; [done|]. by split; intros a r; [intros H _|intros _ H]; exists r. Qed.

Lemma extends_trans n p q s : extends n p q -> extends n q s -> extends n p s.
Proof.
  intros (A1 & A2 & A3) (B1 & B2 & B3). split; [lia|]. split.
  - intros a r Ha Hr. destruct (A2 a r Ha Hr) as (r1 & H1 & C1). destruct (B2 a r1 H1) as (r2 & H2 & C2); [by eapply changed_good|].
    exists r2. split; [done|by eapply changed_trans].
  - intros a r Hn Ha. destruct (A3 a r Hn Ha) as (r1 & H1 & C1). destruct (B3 a r1 Hn H1) as (r2 & H2 & C2).
    exists r2. split; [done|by eapply changed_trans].
Qed.

Lemma extends_less n m p q : (m <= n)%nat -> extends n p q -> extends m p q.
Proof. intros Hm (A1 & A2 & A3). split; [done|]. split; [done|]. intros a r Ha. apply A3. lia. Qed.

Lemma redirected_later n p p' a : extends n p p' -> awaited p p' -> redirected p a -> redirected p' a.
Proof.
  intros (_ & Hk & _) Hw (r & Hr & Hg & Hb). destruct (Hk a r Hr Hg) as (r' & Hr' & Hc). pose proof Hc as (E & _ & _ & _ & _ & Hbody).
  exists r'. split; [done|]. split; [by eapply changed_good|]. rewrite E. intros Hd. destruct (Hb Hd) as [H|H]; [left; auto|].
  destruct (Hw a r H Hr Hg) as [Ha|(r2 & Hr2 & Ha)]; [by right|left]. rewrite Hr' in Hr2. by injection Hr2 as <-.
Qed.

Lemma parsed_later n p p' : extends n p p' -> awaited p p' -> forall x t, parsed p x t -> parsed p' x t.
Proof.
  intros He Hw. induction 1 as [x t H1 H2 H3 H4 H5 H6 IH]. constructor; [done|done| |done|done|].
  - eapply Forall_impl; [exact H3|]. intros a. by eapply redirected_later.
  - intros y u Hu. apply IH. destruct Hu as [y u Hu|w s Hw' Hs|a r s Ha Hr Hs]; [by apply in_data|by eapply in_word|].
    rewrite Forall_forall in H3. destruct (H3 a Ha) as (r0 & Hr0 & Hg & _). pose proof He as (_ & Hk & _).
    destruct (Hk a r0 Hr0 Hg) as (r' & Hr' & (_ & _ & Eo & _)). rewrite Hr in Hr'. injection Hr' as <-. rewrite Eo in Hs. by eapply in_operand.
Qed.

Lemma word_later n p p' w : extends n p p' -> awaited p p' -> word_good p w -> word_good p' w.
Proof. intros He Hw [H1 H2]. split; [done|]. eapply Forall_impl; [exact H2|]. intros s. by eapply parsed_later. Qed.

(** ** Good parsers *)

Section Logic.
Context {loc : Locale} {LL : LocaleLaws loc} {ST : StableLocale loc} {db : LocaleDb}.

Definition document_ok (p : csh_parser) (a : nat) : Prop := exists r, ps_store p !! a = Some r /\ is_Some (rd_delimiter r).

(** The substitutions that the lexer of the frame still has to account for. *)
Definition pendings (f : parse_frame) : list nat :=
  if has_look f then [] else map fragment_index (items (substitutions (look f))).

Definition frame_ok (p : csh_parser) (f : parse_frame) : Prop :=
  Forall (document_ok p) (documents f) /\ (length (documents f) <= ps_next p)%nat.

(** What also holds after a failure. *)
Record stored (p : csh_parser) : Prop := mk_stored {
  st_lexer : ps_lexer p = true;
  st_bound : forall a, is_Some (ps_store p !! a) -> (a < ps_next p)%nat;
  st_frames : Forall (frame_ok p) (ps_frames p);
  st_recovery : Forall (document_ok p) (recovery_documents p);
  st_aliases : forall l name v, ps_aliases p = Some l -> csh_aliases_get l (Some name) = Some v -> Forall is_byte v;
  st_input : exists i k, ps_input p = Some (i, k) /\ sourced is_byte i k }.

Definition look_ok (p : csh_parser) (f : parse_frame) : Prop :=
  bodies_parsed p (look f) /\ (has_look f = true -> word_placed (look f) /\ tk_raw (token (look f)) <> []).

Record good (p : csh_parser) : Prop := mk_good {
  g_stored : stored p;
  g_hosts : hosts (map pendings (ps_frames p)) (ps_tape p);
  g_clear : message (ps_failure p) = None;
  g_looks : Forall (look_ok p) (ps_frames p) }.

(** The steps of one parse frame. *)
Record evolves (n : nat) (p p' : csh_parser) : Prop := mk_evolves {
  ev_frames : exists f f' rest, ps_frames p = f :: rest /\ ps_frames p' = f' :: rest /\
    (length (documents f') + ps_next p <= length (documents f) + ps_next p')%nat;
  ev_extends : extends n p p';
  ev_awaited : awaited p p' }.

(** The error is recorded, but where the documents of a frame have run out of numbers. *)
Definition recorded (p : csh_parser) : Prop := is_Some (message (ps_failure p)) \/ SIZE_MAX <= Z.of_nat (ps_next p).

(** A refusal: the frames [rest] and their lexers are left. *)
Record refused (rest : list parse_frame) (n : nat) (p p' : csh_parser) : Prop := mk_refused {
  rf_stored : stored p';
  rf_extends : extends n p p';
  rf_recorded : recorded p';
  rf_frames : exists above, ps_frames p' = above ++ rest;
  rf_survives : survives (map pendings rest) (ps_tape p') }.

(** ** Rules *)

Definition ppost {A} (m : P A) (p : csh_parser) (Q : A -> csh_parser -> Prop) (E : csh_parser -> Prop) : Prop :=
  match m p with
  | (POk a, p') => Q a p'
  | (PFail, p') => E p'
  | (PSpent, _) => True
  | (PCrash, _) => False
  end.

Definition failed (n : nat) (p p' : csh_parser) : Prop := refused (tail (ps_frames p)) n p p'.

(** The rule of a production; [n] bounds the addresses that do not change. *)
Definition safe {A} (n : nat) (m : P A) (p : csh_parser) (Q : A -> csh_parser -> Prop) : Prop :=
  ppost m p (fun a p' => good p' /\ evolves n p p' /\ Q a p') (failed n p).

Lemma ppost_bind {A B} (m : P A) (f : A -> P B) p Q E :
  ppost m p (fun a p' => ppost (f a) p' Q E) E -> ppost (pbind m f) p Q E.
Proof. unfold ppost, pbind. by destruct (m p) as [[| | |a] p']. Qed.

Lemma ppost_mono {A} (m : P A) p (Q Q' : A -> csh_parser -> Prop) (E E' : csh_parser -> Prop) :
  ppost m p Q E -> (forall a p', Q a p' -> Q' a p') -> (forall p', E p' -> E' p') -> ppost m p Q' E'.
Proof. unfold ppost. destruct (m p) as [[| | |a] p']; auto. Qed.

Lemma ppost_ret {A} (a : A) p (Q : A -> csh_parser -> Prop) E : Q a p -> ppost (pret a) p Q E.
Proof. done. Qed.

Lemma ppost_get {B} (f : csh_parser -> P B) p Q E : ppost (f p) p Q E -> ppost (pbind get_parser f) p Q E.
Proof. done. Qed.

Lemma ppost_put {B} q (f : unit -> P B) p Q E : ppost (f tt) q Q E -> ppost (pbind (put_parser q) f) p Q E.
Proof. done. Qed.

Lemma ppost_frame {B} g rest (f : parse_frame -> P B) p Q E : ps_frames p = g :: rest -> ppost (f g) p Q E ->
  ppost (pbind get_frame f) p Q E.
Proof. unfold ppost, pbind, get_frame. by intros ->. Qed.

Lemma good_frames p : good p -> exists f rest, ps_frames p = f :: rest.
Proof.
  intros H. destruct (hosts_cons _ _ (g_hosts _ H)) as (l & ls & E). destruct (ps_frames p) as [|f rest]; [done|]. by exists f, rest.
Qed.

Lemma ev_refl n p : good p -> evolves n p p.
Proof.
  intros H. destruct (good_frames p H) as (f & rest & E). split; [|apply extends_refl|].
  - exists f, f, rest. rewrite E. by split_and!; [..|lia].
  - intros a r Ha _ _. by left.
Qed.

Lemma awaited_trans n m p q s : extends n p q -> extends m q s -> awaited p q -> awaited q s -> awaited p s.
Proof.
  intros (_ & K1 & _) (_ & K2 & _) H1 H2 a r Ha Hr Hg. destruct (K1 a r Hr Hg) as (r1 & Hr1 & C1).
  pose proof (changed_good _ _ C1 Hg) as Hg1. destruct (H1 a r Ha Hr Hg) as [Hq|(r2 & Hr2 & Hb)].
  - by eapply H2.
  - right. rewrite Hr1 in Hr2. injection Hr2 as <-. destruct (K2 a r1 Hr1 Hg1) as (r3 & Hr3 & C3). exists r3. split; [done|]. by apply C3.
Qed.

Lemma ev_trans n p q s : evolves n p q -> evolves n q s -> evolves n p s.
Proof.
  intros [(f & f1 & rest & E & E1 & L1) X1 W1] [(f1' & f2 & rest' & E1' & E2 & L2) X2 W2]. rewrite E1 in E1'. injection E1' as <- <-. split.
  - exists f, f2, rest. split_and!; [done|done|lia].
  - by eapply extends_trans.
  - by eapply awaited_trans.
Qed.

Lemma evolves_less n m p q : (m <= n)%nat -> evolves n p q -> evolves m p q.
Proof. intros Hm [H1 H2 H3]. split; [done|by eapply extends_less|done]. Qed.

Lemma evolves_failed n p q s : evolves n p q -> failed n q s -> failed n p s.
Proof.
  intros [(f & f1 & rest & E & E1 & _) X _] H. unfold failed in *. rewrite E. rewrite E1 in H. cbn [tail] in *.
  destruct H as [H1 H2 H3 H4 H5]. split; try done. by eapply extends_trans.
Qed.

Lemma failed_less n m p q : (m <= n)%nat -> failed n p q -> failed m p q.
Proof. intros Hm [H1 H2 H3 H4 H5]. split; try done. by eapply extends_less. Qed.

Lemma safe_ret {A} n (a : A) p (Q : A -> csh_parser -> Prop) : good p -> Q a p -> safe n (pret a) p Q.
Proof. intros Hg H. split; [done|]. split; [by apply ev_refl|done]. Qed.

(** Steps one after another. *)
Lemma safe_bind {A B} n (m : P A) (f : A -> P B) p (Q : A -> csh_parser -> Prop) R : safe n m p Q ->
  (forall a p', good p' -> evolves n p p' -> Q a p' -> safe n (f a) p' R) -> safe n (pbind m f) p R.
Proof.
  intros Hm Hf. apply ppost_bind. eapply ppost_mono; [exact Hm| |done]. intros a p' (Hg & He & Hq).
  eapply ppost_mono; [by apply Hf| |]; [|by intros p'' H; eapply evolves_failed].
  intros b p'' (Hg' & He' & Hr). split; [done|]. split; [by eapply ev_trans|done].
Qed.

Lemma safe_mono {A} n (m : P A) p (Q Q' : A -> csh_parser -> Prop) : safe n m p Q ->
  (forall a p', good p' -> evolves n p p' -> Q a p' -> Q' a p') -> safe n m p Q'.
Proof. intros Hm HQ. eapply ppost_mono; [exact Hm| |done]. intros a p' (Hg & He & Hq). split; [done|]. split; [done|by apply HQ]. Qed.

Lemma safe_less {A} n k (m : P A) p (Q : A -> csh_parser -> Prop) : (k <= n)%nat -> safe n m p Q -> safe k m p Q.
Proof.
  intros Hk Hm. eapply ppost_mono; [exact Hm| |by intros p'; apply failed_less].
  intros a p' (Hg & He & Hq). split; [done|]. split; [by eapply evolves_less|done].
Qed.

Lemma safe_get {B} n (f : csh_parser -> P B) p R : safe n (f p) p R -> safe n (pbind get_parser f) p R.
Proof. done. Qed.

Lemma safe_frame {B} n (f : parse_frame -> P B) p R : good p ->
  (forall g rest, ps_frames p = g :: rest -> safe n (f g) p R) -> safe n (pbind get_frame f) p R.
Proof. intros Hg H. destruct (good_frames p Hg) as (g & rest & E). eapply ppost_frame; [exact E|by eapply H]. Qed.

(** A change of the parser that keeps it good. *)
Lemma safe_put {B} n q (f : unit -> P B) p R : good q -> evolves n p q -> safe n (f tt) q R -> safe n (pbind (put_parser q) f) p R.
Proof.
  intros Hg He H. apply ppost_put. eapply ppost_mono; [exact H| |].
  - intros b p' (Hg' & He' & Hr). split; [done|]. split; [by eapply ev_trans|done].
  - intros p' H'. by eapply evolves_failed.
Qed.

Lemma safe_if {A} (c : bool) n (m m' : P A) p Q : (c = true -> safe n m p Q) -> (c = false -> safe n m' p Q) ->
  safe n (if c then m else m') p Q.
Proof. destruct c; auto. Qed.

(** Loops: [I] holds between two rounds. *)
Lemma safe_loop {S A} n (I : S -> csh_parser -> Prop) (step : S -> P (S + A)) fuel s p (Q : A -> csh_parser -> Prop) :
  (forall s p, good p -> I s p -> safe n (step s) p (fun r p' => match r with inl s' => I s' p' | inr a => Q a p' end)) ->
  good p -> I s p -> safe n (loop fuel step s) p Q.
Proof.
  intros Hstep. revert s p. induction fuel as [|k IH]; intros s p Hg Hi; [done|]. cbn [loop].
  eapply safe_bind; [by apply Hstep|]. intros [s'|a] p' Hg' He Hr; [by apply IH|by apply safe_ret].
Qed.

Lemma good_later n p p' x t : evolves n p p' -> parsed p x t -> parsed p' x t.
Proof. intros [_ H1 H2]. by eapply parsed_later. Qed.

Lemma word_evolves n p p' w : evolves n p p' -> word_good p w -> word_good p' w.
Proof. intros [_ H1 H2]. by eapply word_later. Qed.
End Logic.
