(* ===== verification/ParserSafety.v ===== *)
(** * The parser: its steps

    Every step of src/parser.c below the productions, from a good parser:
    failures and the save of a recovery, buffers, input, here-documents and
    their delimiters. *)

From stdpp Require Import base list gmap strings sorting.
From S2P Require Import Prelude Output State Arithmetic Character Quote Alias Descriptors Input InputTheorems Expansion Lexer LexerLook LexerTree LexerSafety LexerTurns LexerTotal LexerCalls LexerKinds ParserLexer Ast Parser ParserLogic.

Section Steps.
Context {loc : Locale} {LL : LocaleLaws loc} {ST : StableLocale loc} {db : LocaleDb}.

(** ** Changes that the trees do not see *)

Record beside (p p' : csh_parser) : Prop := mk_beside {
  bs_lexer : ps_lexer p' = ps_lexer p;
  bs_store : ps_store p' = ps_store p;
  bs_next : ps_next p' = ps_next p;
  bs_frames : ps_frames p' = ps_frames p;
  bs_recovery : recovery_documents p' = recovery_documents p;
  bs_aliases : ps_aliases p' = ps_aliases p }.

Lemma beside_stored p p' : beside p p' -> (exists i k, ps_input p' = Some (i, k) /\ sourced is_byte i k) -> stored p -> stored p'.
Proof.
  intros [E1 E2 E3 E4 E5 E6] Hi [H1 H2 H3 H4 H5 H6]. unfold frame_ok, document_ok in *. split; unfold frame_ok, document_ok; rewrite ?E1, ?E2, ?E3, ?E4, ?E5, ?E6; done.
Qed.

Lemma beside_extends n p p' : beside p p' -> extends n p p'.
Proof. intros [E1 E2 E3 E4 E5 E6]. unfold extends, keeps. rewrite E2, E3. exact (extends_refl n p). Qed.

Lemma beside_awaited p p' : beside p p' -> awaited p p'.
Proof. intros [E1 E2 E3 E4 E5 E6] a r Ha _ _. left. unfold pending_documents. by rewrite E4. Qed.

Lemma beside_evolves n p p' : good p -> beside p p' -> evolves n p p'.
Proof.
  intros Hg Hb. destruct (good_frames p Hg) as (f & rest & E). split; [|by apply beside_extends|by apply beside_awaited].
  exists f, f, rest. rewrite (bs_frames _ _ Hb), (bs_next _ _ Hb). by split_and!; [..|lia].
Qed.

Lemma beside_good p p' : good p -> beside p p' -> (exists i k, ps_input p' = Some (i, k) /\ sourced is_byte i k) ->
  message (ps_failure p') = None -> hosts (map pendings (ps_frames p)) (ps_tape p') -> good p'.
Proof.
  intros [H1 H2 H3 H4] Hb Hi Hf Hh. split; [by eapply beside_stored|by rewrite (bs_frames _ _ Hb)|done|].
  rewrite (bs_frames _ _ Hb). eapply Forall_impl; [exact H4|]. intros f [L1 L2]. split; [|done].
  eapply Forall_impl; [exact L1|]. intros s. eapply parsed_later; [by apply (beside_extends 0)|by apply beside_awaited].
Qed.

Lemma beside_refl p : beside p p.
Proof. done. Qed.
Lemma beside_trans p q s : beside p q -> beside q s -> beside p s.
Proof. intros [] []. split; congruence. Qed.

Lemma tape_beside p t : beside p (with_tape p t).
Proof. done. Qed.

Lemma tape_good p t : good p -> hosts (map pendings (ps_frames p)) t -> good (with_tape p t).
Proof. intros Hg Hh. eapply beside_good; [exact Hg|apply tape_beside|apply Hg|apply Hg|done]. Qed.

Lemma hosts_proc ls t w : hosts ls t -> hosts ls (mk_tape (t_source t) (t_lexers t) (t_stack t) w).
Proof. intros [H1 H2]. split; [exact H1|exact H2]. Qed.

Lemma safe_host {A} n (m : M A) p : good p -> safe n (in_host m) p (fun a p' => (exists w, (m w).1 = a) /\ beside p p').
Proof.
  intros Hg. unfold safe, ppost, in_host. destruct (m (t_proc (ps_tape p))) as [a w] eqn:E.
  assert (good (with_tape p (mk_tape (t_source (ps_tape p)) (t_lexers (ps_tape p)) (t_stack (ps_tape p)) w))) as Hg'.
  { apply tape_good; [done|]. apply hosts_proc, Hg. }
  split; [done|]. split; [by apply beside_evolves, tape_beside|]. split; [exists (t_proc (ps_tape p)); by rewrite E|done].
Qed.

(** ** Failures *)

(** A parser in the middle of a refusal. *)
Record stuck (rest : list parse_frame) (n : nat) (p q : csh_parser) : Prop := mk_stuck {
  sk_stored : stored q;
  sk_extends : extends n p q;
  sk_frames : ps_frames q <> [] /\ exists above, ps_frames q = above ++ rest;
  sk_survives : survives (map pendings rest) (ps_tape q) }.

Lemma hosts_survive l ls t : hosts (l :: ls) t -> survives ls t.
Proof.
  intros [[Hc (x & b & E & _)] H]. rewrite E in H. inversion H as [|? ? ? ? _ Hb]; subst.
  exists [x], b. split; [done|]. split; [done|]. split; [by apply Forall2_length in Hb|right].
  destruct (core_lexer _ _ _ Hc E) as (_ & _ & Ha & _). destruct Hc as ([_ Hd] & Hca & _). done.
Qed.

Lemma good_stuck n p : good p -> stuck (tail (ps_frames p)) n p p.
Proof.
  intros Hg. destruct (good_frames p Hg) as (f & rest & E). split; [apply Hg|apply extends_refl|rewrite E; split; [done|by exists [f]]|].
  pose proof (g_hosts _ Hg) as H. rewrite E in *. by apply hosts_survive in H.
Qed.

Lemma stuck_beside rest n p q q' : beside q q' -> ps_input q' = ps_input q -> survives (map pendings rest) (ps_tape q') ->
  stuck rest n p q -> stuck rest n p q'.
Proof.
  intros Hb Hi Hs [H1 H2 H3 H4]. split; [|eapply extends_trans; [done|by apply beside_extends]|by rewrite (bs_frames _ _ Hb)|done].
  eapply beside_stored; [exact Hb| |done]. rewrite Hi. apply H1.
Qed.

Lemma survives_proc ls t w : survives ls t -> survives ls (mk_tape (t_source t) (t_lexers t) (t_stack t) w).
Proof. done. Qed.

Lemma stuck_host {A B} rest n p q (m : M A) (f : A -> P B) Q E : stuck rest n p q ->
  (forall a q', stuck rest n p q' -> ps_failure q' = ps_failure q -> ps_frames q' = ps_frames q -> ps_store q' = ps_store q -> ppost (f a) q' Q E) ->
  ppost (pbind (in_host m) f) q Q E.
Proof.
  intros Hs H. apply ppost_bind. unfold ppost at 1, in_host. destruct (m _) as [a w]. apply H; [|done..].
  apply (stuck_beside rest n p q); [done|done| |exact Hs]. apply survives_proc, Hs.
Qed.

Lemma document_later n p q a : extends n p q -> (a < n)%nat -> document_ok p a -> document_ok q a.
Proof. intros (_ & _ & H) Ha (r & Hr & Hd). destruct (H a r Ha Hr) as (r' & Hr' & (_ & _ & _ & E & _)). exists r'. by rewrite E. Qed.

(** A new address. *)
Lemma new_extends n q r : stored q -> extends n q (with_store q (<[ps_next q := r]> (ps_store q)) (S (ps_next q))).
Proof.
  intros Hs. assert (forall a r0, ps_store q !! a = Some r0 -> <[ps_next q := r]> (ps_store q) !! a = Some r0) as H.
  { intros a r0 Ha. rewrite lookup_insert_ne; [done|]. pose proof (st_bound _ Hs a ltac:(by eexists)). lia. }
  split; [cbn; lia|]. split; intros a r0; [intros Ha _|intros _ Ha]; exists r0; (split; [by apply H|apply changed_refl]).
Qed.

Lemma new_document q r a : stored q -> document_ok q a -> document_ok (with_store q (<[ps_next q := r]> (ps_store q)) (S (ps_next q))) a.
Proof.
  intros Hs (r0 & Hr & Hd). exists r0. split; [|done]. cbn. rewrite lookup_insert_ne; [done|].
  pose proof (st_bound _ Hs a ltac:(by eexists)). lia.
Qed.

Lemma new_stored q r : stored q -> stored (with_store q (<[ps_next q := r]> (ps_store q)) (S (ps_next q))).
Proof.
  intros Hs. pose proof Hs as [H1 H2 H3 H4 H5 H6]. split; try done.
  - intros a. cbn. destruct (decide (a = ps_next q)) as [->|Hne]; [lia|]. rewrite lookup_insert_ne by done. intros Ha%H2. lia.
  - eapply Forall_impl; [exact H3|]. intros f [F1 F2]. split; [|cbn; lia]. eapply Forall_impl; [exact F1|]. intros a. by apply new_document.
  - eapply Forall_impl; [exact H4|]. intros a. by apply new_document.
Qed.

Lemma recovery_stored q docs bytes : stored q -> Forall (document_ok q) docs -> stored (with_recovery q docs bytes).
Proof. intros [H1 H2 H3 H4 H5 H6] Hd. by split. Qed.

Lemma copy_documents_post rest n p l : forall q, stuck rest n p q -> Forall (document_ok q) l ->
  ppost (copy_documents l) q (fun _ q' => stuck rest n p q' /\ ps_failure q' = ps_failure q /\ ps_frames q' = ps_frames q) (fun _ => False).
Proof.
  induction l as [|a l IH]; intros q Hs Hl; cbn [copy_documents]; [by apply ppost_ret|].
  apply Forall_cons in Hl as [(r & Hr & [d Hd]) Hl].
  apply ppost_bind. unfold ppost at 1, get_redirection. rewrite Hr.
  eapply stuck_host; [exact Hs|]. intros ok q1 Hs1 F1 R1 S1. destruct (negb ok); [by apply ppost_ret|]. cbv zeta.
  eapply stuck_host; [exact Hs1|]. intros ok2 q2 Hs2 F2 R2 S2. destruct (negb ok2); [apply ppost_ret; by split_and!; [|congruence..]|].
  rewrite Hd. apply ppost_bind. unfold ppost at 1, new_redirection. set (r2 := mk_redirection _ _ _ _ _ _ _ _ _ _).
  set (q3 := with_store q2 _ _). apply ppost_get. apply ppost_put. cbv beta.
  destruct Hs2 as [T1 T2 T3 T4].
  assert (stored q3) as T1' by (by apply new_stored).
  eapply ppost_mono; [apply IH| |done].
  - split; [|eapply extends_trans; [exact T2|exact (new_extends n q2 r2 T1)]|done|done]. apply recovery_stored; [done|].
    apply Forall_app. split; [apply T1'|]. constructor; [|done]. exists r2. split; [cbn; apply lookup_insert_eq|done].
  - eapply Forall_impl; [exact Hl|]. intros b Hb. assert (document_ok q2 b) as Hb2 by (unfold document_ok; by rewrite S2, S1).
    exact (new_document q2 r2 b T1 Hb2).
  - intros _ q' (K1 & K2 & K3). split; [done|]. cbn in K2, K3. split; congruence.
Qed.

Definition reported (q : csh_parser) : Prop := is_Some (message (ps_failure q)).

Lemma failure_stuck rest n p q r e : stuck rest n p q -> stuck rest n p (with_failure q r e).
Proof. intros Hs. apply (stuck_beside rest n p q); [done|done|apply Hs|done]. Qed.

Lemma recovery_stuck rest n p q docs bytes : stuck rest n p q -> Forall (document_ok q) docs -> stuck rest n p (with_recovery q docs bytes).
Proof.
  intros [T1 T2 T3 T4] Hd. split; [by apply recovery_stored| |done|done]. eapply extends_trans; [exact T2|exact (extends_refl n q)].
Qed.

Lemma recovery_failed_post rest n p q : stuck rest n p q ->
  ppost recovery_failed q (fun _ q' => stuck rest n p q' /\ reported q') (fun _ => False).
Proof.
  intros Hs. unfold recovery_failed, clear_recovery, put_parser, pbind, get_parser, ppost. split; [|by eexists].
  apply failure_stuck. by apply recovery_stuck.
Qed.

Lemma save_recovery_post rest n p q : stuck rest n p q -> reported q ->
  ppost save_recovery q (fun _ q' => stuck rest n p q' /\ reported q') (fun _ => False).
Proof.
  intros Hs Hr. unfold save_recovery. apply ppost_get. destruct (sk_frames _ _ _ _ Hs) as [Hne _]. assert (exists f above, ps_frames q = f :: above) as (f & above & Ef) by (destruct (ps_frames q); [done|by eexists _, _]).
  eapply ppost_frame; [exact Ef|]. destruct (_ || _); [by apply ppost_ret|]. cbv zeta.
  destruct (_ <? _); [by apply recovery_failed_post|]. destruct (bool_decide _); [by apply ppost_ret|].
  eapply stuck_host; [exact Hs|]. intros ok q1 Hs1 F1 R1 S1. destruct (negb ok); [by apply recovery_failed_post|].
  assert (Forall (document_ok q1) (ps_frames q ≫= documents)) as Hd.
  { rewrite <- R1. pose proof (st_frames _ (sk_stored _ _ _ _ Hs1)) as H. apply Forall_bind. eapply Forall_impl; [exact H|]. by intros g []. }
  apply ppost_bind. eapply ppost_mono; [by apply (copy_documents_post rest n p)| |done].
  intros ok2 q2 (Hs2 & F2 & R2). destruct (negb ok2); [by apply recovery_failed_post|].
  destruct (csh_lexer_pending _) as [[pending pos] last]. cbv zeta.
  assert (reported q2) as Hr2 by (unfold reported; by rewrite F2, F1).
  destruct (bool_decide _); [by apply ppost_ret|].
  eapply stuck_host; [exact Hs2|]. intros ok3 q3 Hs3 F3 R3 S3. destruct (negb ok3); [by apply recovery_failed_post|].
  apply ppost_get. unfold ppost, put_parser. split; [|by unfold reported; cbn; rewrite F3].
  apply recovery_stuck; [done|]. apply Hs3.
Qed.

Lemma stuck_refused rest n p q : stuck rest n p q -> recorded q -> refused rest n p q.
Proof. by intros [T1 T2 [_ T3] T4] Hr. Qed.

Lemma fail_at_refused {A} rest n p q result text number pos (Q : A -> csh_parser -> Prop) : stuck rest n p q ->
  ppost (fail_at result text number pos) q Q (refused rest n p).
Proof.
  intros Hs. unfold fail_at. apply ppost_get. destruct (bool_decide _) eqn:Eb.
  - apply bool_decide_eq_true in Eb. apply stuck_refused; [done|by left].
  - apply ppost_put, ppost_bind. eapply ppost_mono; [apply (save_recovery_post rest n p)| |done].
    + by apply failure_stuck.
    + by eexists.
    + intros [] q' [Hs' Hr]. apply stuck_refused; [done|by left].
Qed.

Lemma frame_position_post rest n p q : stuck rest n p q ->
  ppost frame_position q (fun _ q' => q' = q) (fun _ => False).
Proof. intros Hs. destruct (sk_frames _ _ _ _ Hs) as [Hne _]. unfold ppost, frame_position. by destruct (ps_frames q). Qed.

Lemma fail_here_refused {A} rest n p q result text number (Q : A -> csh_parser -> Prop) : stuck rest n p q ->
  ppost (fail_here result text number) q Q (refused rest n p).
Proof.
  intros Hs. unfold fail_here. apply ppost_bind. eapply ppost_mono; [by apply (frame_position_post rest n p)| |done].
  intros pos q' ->. by apply fail_at_refused.
Qed.

Lemma adopt_error_refused {A} rest n p q e (Q : A -> csh_parser -> Prop) : stuck rest n p q -> is_Some (message e) ->
  ppost (adopt_error e) q Q (refused rest n p).
Proof.
  intros Hs He. unfold adopt_error. apply ppost_get. destruct (bool_decide _) eqn:Eb.
  { apply bool_decide_eq_true in Eb. apply stuck_refused; [done|by left]. }
  apply ppost_bind. apply (ppost_mono _ _ (fun _ q' => q' = q) _ (fun _ => False)); [| |done].
  - destruct (_ =? 0); [by apply (frame_position_post rest n p)|by apply ppost_ret].
  - intros pos q' ->. apply ppost_put, ppost_bind. eapply ppost_mono; [apply (save_recovery_post rest n p)| |done].
    + by apply failure_stuck.
    + done.
    + intros [] q' [Hs' Hr]. apply stuck_refused; [done|by left].
Qed.

Lemma safe_fail_at {A} n result text number pos p (Q : A -> csh_parser -> Prop) : good p -> safe n (fail_at result text number pos) p Q.
Proof. intros Hg. apply fail_at_refused. by apply good_stuck. Qed.

Lemma safe_fail_here {A} n result text number p (Q : A -> csh_parser -> Prop) : good p -> safe n (fail_here result text number) p Q.
Proof. intros Hg. apply fail_here_refused. by apply good_stuck. Qed.

Lemma safe_adopt_error {A} n e p (Q : A -> csh_parser -> Prop) : good p -> is_Some (message e) -> safe n (adopt_error e) p Q.
Proof. intros Hg. apply adopt_error_refused. by apply good_stuck. Qed.

Lemma safe_position n p : good p -> safe n frame_position p (fun _ _ => True).
Proof.
  intros Hg. eapply ppost_mono; [eapply frame_position_post; by apply (good_stuck n)| |done]. intros pos q ->.
  split; [done|]. split; [by apply ev_refl|done].
Qed.

(** ** Calls of the lexer *)

Lemma good_lexers p f rest : good p -> ps_frames p = f :: rest -> length (t_lexers (ps_tape p)) = S (length rest).
Proof. intros Hg E. pose proof (g_hosts _ Hg) as [_ H%Forall2_length]. rewrite E in H. cbn in H. by rewrite length_map in H. Qed.

Lemma in_lexer_run {A} p (m : L A) : good p -> in_lexer 0 m p =
  match m (ps_tape p) with
  | (Done a, t) => (POk (inr a), with_tape p t)
  | (Failed e, t) => (POk (inl e), with_tape p t)
  | (Fault, t) => (PCrash, with_tape p t)
  end.
Proof.
  intros Hg. destruct (good_frames p Hg) as (f & rest & E). unfold in_lexer. rewrite (st_lexer _ (g_stored _ Hg)).
  rewrite (good_lexers _ _ _ Hg E), E. cbn. by rewrite Nat.eqb_refl.
Qed.

Definition gives_up (p : csh_parser) (e : csh_error) (t : tape) : Prop :=
  is_Some (message e) /\ survives (map pendings (tail (ps_frames p))) t.

Lemma gives_up_stuck n p e t : good p -> gives_up p e t -> stuck (tail (ps_frames p)) n p (with_tape p t).
Proof.
  intros Hg [_ Hs]. apply (stuck_beside _ n p p); [done|done|done|by apply good_stuck].
Qed.

(** A call: what follows it, and its error. *)
Lemma call_bind {A B} n (m : L A) (f : csh_error + A -> P B) p (Qm : A -> tape -> Prop) (Q : B -> csh_parser -> Prop) E : good p ->
  lpost m (ps_tape p) Qm (gives_up p) ->
  (forall a t, Qm a t -> ppost (f (inr a)) (with_tape p t) Q E) ->
  (forall e t, is_Some (message e) -> stuck (tail (ps_frames p)) n p (with_tape p t) -> ppost (f (inl e)) (with_tape p t) Q E) ->
  ppost (pbind (in_lexer 0 m) f) p Q E.
Proof.
  intros Hg Hm Hf He. apply ppost_bind. unfold ppost at 1. rewrite in_lexer_run by done. unfold lpost in Hm.
  destruct (m (ps_tape p)) as [[|e|a] t]; [done| |by apply Hf]. apply He; [apply Hm|by eapply gives_up_stuck].
Qed.

Lemma safe_adopt {A} n (m : L A) p (Qm : A -> tape -> Prop) : good p -> lpost m (ps_tape p) Qm (gives_up p) ->
  (forall a t, Qm a t -> hosts (map pendings (ps_frames p)) t) ->
  safe n (adopt (in_lexer 0 m)) p (fun a p' => exists t, p' = with_tape p t /\ Qm a t).
Proof.
  intros Hg Hm Hq. unfold adopt. eapply call_bind; [exact Hg|exact Hm| |].
  - intros a t Ha. apply ppost_ret. split; [apply tape_good; [done|by eapply Hq]|]. split; [by apply beside_evolves, tape_beside|by exists t].
  - intros e t He Hs. by apply adopt_error_refused.
Qed.

(** ** Buffers *)

Lemma safe_reserve n capacity count size p : good p -> safe n (reserve capacity count size) p (fun _ p' => beside p p').
Proof.
  intros Hg. unfold reserve. destruct (_ <=? _); [by apply safe_ret|]. destruct (_ <? _); [by apply safe_fail_here|]. cbv zeta.
  eapply safe_bind; [by apply safe_host|]. intros ok p' Hg' _ [_ Hb]. destruct ok; [by apply safe_ret|by apply safe_fail_here].
Qed.

Lemma safe_append n b s p : good p -> safe n (append b s) p (fun b' p' => b_data b' = b_data b ++ s /\ beside p p').
Proof.
  intros Hg. unfold append. destruct (_ <=? _); [by apply safe_fail_here|].
  eapply safe_bind; [by apply safe_reserve|]. intros c p' Hg' _ Hb. by apply safe_ret.
Qed.

(** ** Input *)

Lemma safe_feed n bytes count last p : good p -> Forall is_byte (default [] bytes) ->
  safe n (adopt (in_lexer 0 (csh_lexer_feed bytes count last))) p (fun _ p' => beside p p').
Proof.
  intros Hg Hb. destruct (good_frames p Hg) as (f & rest & E). eapply safe_mono; [eapply safe_adopt; [exact Hg| |]|].
  - unfold gives_up. rewrite E. pose proof (g_hosts _ Hg) as Hh. rewrite E in Hh. by eapply feed_hosts.
  - intros [] t [H _]. by rewrite E.
  - intros [] p' _ _ (t & -> & _). done.
Qed.

Lemma safe_feed_line n p : good p -> safe n feed_line p (fun _ p' => beside p p').
Proof.
  intros Hg. unfold feed_line. apply safe_get.
  assert (forall hook c, good (with_reads p hook c) /\ evolves n p (with_reads p hook c)) as Hreads.
  { intros hook c. split; [|by apply beside_evolves]. eapply beside_good; [exact Hg|done|apply Hg|apply Hg|apply Hg]. }
  apply safe_put; [apply Hreads|apply Hreads|]. destruct (Hreads ((fun l => l ++ [continuation p]) <$> before_read p) true) as [Hg1 _].
  destruct (st_input _ (g_stored _ Hg)) as (i & k & Ei & Hs). rewrite Ei.
  destruct (read_line_returns is_byte i k Hs) as (r & i' & k' & Er & Hl & Hs'). rewrite Er. apply safe_get.
  set (q := with_reads _ _ _) in *.
  assert (good (with_input q (Some (i', k')))) as Hg2.
  { eapply beside_good; [exact Hg1|done|by exists i', k'|apply Hg1|apply Hg1]. }
  assert (beside p (with_input q (Some (i', k')))) as Hb2 by done.
  apply safe_put; [done|by apply beside_evolves|]. destruct r as [e| |l|e].
  1, 4: by apply safe_adopt_error.
  - apply safe_get. set (q3 := with_ends _ _ _). assert (good q3) as Hg3.
    { eapply beside_good; [exact Hg2|done|by exists i', k'|apply Hg2|apply Hg2]. }
    apply safe_put; [done|by apply beside_evolves|]. eapply safe_mono; [by apply safe_feed|]. intros [] p' _ _ Hb.
    by eapply (beside_trans _ q3).
  - eapply safe_mono; [by apply safe_feed|]. intros [] p' _ _ Hb. by eapply (beside_trans _ (with_input q (Some (i', k')))).
Qed.

(** ** Frames *)

Lemma pending_nil l x : pending_ok l x -> pending_ok [] x.
Proof. intros [H1 H2 H3]. split; [constructor|constructor|]. intros Hc. destruct (H3 Hc) as (f & Hf & _ & Hk). by exists f. Qed.

Lemma hosts_nil l ls t : hosts (l :: ls) t -> hosts ([] :: ls) t.
Proof. intros [H1 H2]. split; [done|]. inversion H2; subst. constructor; [by eapply pending_nil|done]. Qed.

(** Another word looked at. *)
Definition replaced (p : csh_parser) (f : parse_frame) (rest : list parse_frame) : csh_parser := with_frames p (f :: rest).

Lemma look_extends n p f f' rest : ps_frames p = f :: rest -> documents f' = documents f ->
  extends n p (replaced p f' rest) /\ awaited p (replaced p f' rest).
Proof.
  intros E Ed. split; [exact (extends_refl n p)|]. intros a r Ha _ _. left. unfold pending_documents in *. rewrite E in Ha. cbn in *.
  by rewrite Ed.
Qed.

Lemma look_good n p f f' rest : stored p -> message (ps_failure p) = None -> Forall (look_ok p) (ps_frames p) ->
  ps_frames p = f :: rest -> documents f' = documents f -> look_ok p f' ->
  hosts (pendings f' :: map pendings rest) (ps_tape p) -> good (replaced p f' rest) /\ evolves n p (replaced p f' rest).
Proof.
  intros [H1 H2 H3 H4 H5 H6] G3 G4 E Ed Hl Hh. destruct (look_extends n p f f' rest E Ed) as [He Ha].
  rewrite E in H3, G4. apply Forall_cons in H3 as [F1 F2]. apply Forall_cons in G4 as [L1 L2].
  assert (forall g, look_ok p g -> look_ok (replaced p f' rest) g) as Hlook.
  { intros g [K1 K2]. split; [|done]. eapply Forall_impl; [exact K1|]. intros s. by eapply parsed_later. }
  split.
  - split; [split; try done|done|done|].
    + constructor; [|exact F2]. destruct F1 as [K1 K2]. split; by rewrite Ed.
    + constructor; [by apply Hlook|]. eapply Forall_impl; [exact L2|exact Hlook].
  - split; [|done|done]. exists f, f', rest. split; [done|]. split; [done|]. cbn. rewrite Ed. lia.
Qed.

Lemma no_word_ok p f : look_ok p (with_look f no_word false).
Proof. split; [constructor|done]. Qed.

Lemma put_frame_run f p g rest : ps_frames p = g :: rest -> put_frame f p = (POk tt, replaced p f rest).
Proof. intros E. unfold put_frame, replaced. by rewrite E. Qed.

Lemma safe_put_frame n f f' rest p : good p -> ps_frames p = f :: rest -> documents f' = documents f -> look_ok p f' ->
  hosts (pendings f' :: map pendings rest) (ps_tape p) -> safe n (put_frame f') p (fun _ p' => p' = replaced p f' rest).
Proof.
  intros Hg E Ed Hl Hh. unfold safe, ppost. rewrite (put_frame_run _ _ _ _ E). destruct (look_good n p f f' rest (g_stored _ Hg) (g_clear _ Hg) (g_looks _ Hg) E Ed Hl Hh) as [H1 H2].
  by split_and!.
Qed.

Lemma good_hosts p f rest : good p -> ps_frames p = f :: rest -> hosts (pendings f :: map pendings rest) (ps_tape p).
Proof. intros Hg E. pose proof (g_hosts _ Hg) as H. by rewrite E in H. Qed.

Lemma good_look p f rest : good p -> ps_frames p = f :: rest -> look_ok p f.
Proof. intros Hg E. pose proof (g_looks _ Hg) as H. rewrite E in H. by apply Forall_cons in H as [H _]. Qed.

Lemma view_lexers p : length (t_lexers (ps_tape p)) = length (ps_frames p) -> t_lexers (lexer_view p 0) = t_lexers (ps_tape p).
Proof. intros E. unfold lexer_view. cbn. by rewrite E, Nat.sub_diag. Qed.

Lemma hosts_length fs t : hosts (map pendings fs) t -> length (t_lexers t) = length fs.
Proof. intros [_ H%Forall2_length]. by rewrite length_map in H. Qed.

(** ** Words read again *)

(** The lexer has gone back to the start of a command substitution. *)
Record replaying (n : nat) (p q : csh_parser) : Prop := mk_replaying {
  rp_stored : stored q;
  rp_frames : exists f rest, ps_frames q = f :: rest /\ ps_frames p = f :: rest /\ has_look f = false /\
    replayable (pendings f) (map pendings rest) (ps_tape q) /\ ready (ps_tape q);
  rp_clear : message (ps_failure q) = None;
  rp_looks : Forall (look_ok q) (ps_frames q);
  rp_extends : extends n p q }.

Lemma kept_prefix first l : kept_substitutions first l `prefix_of` l /\
  (StronglySorted lt (map fragment_index l) -> Forall (fun i => (i < first)%nat) (map fragment_index (kept_substitutions first l))).
Proof.
  unfold kept_substitutions. induction l as [|s l IH] using rev_ind; [by split|]. rewrite rev_app_distr. cbn [rev app].
  destruct (Nat.ltb_spec (fragment_index s) first) as [Hlt|Hge].
  - replace (rev (s :: rev l)) with (l ++ [s]) by (cbn; by rewrite rev_involutive). split; [done|]. rewrite map_app. cbn.
    intros Hs. apply Forall_app. split; [|by constructor]. apply Forall_forall. intros i Hi.
    apply list_elem_of_split in Hi as (a & b & E). rewrite E, <- app_assoc in Hs. cbn in Hs.
    assert (StronglySorted lt (i :: b ++ [fragment_index s])) as Hs'.
    { clear E. induction a as [|x a IHa]; [done|]. apply StronglySorted_inv in Hs as [Hs _]. by apply IHa. }
    apply StronglySorted_inv in Hs' as [_ Hs']. apply Forall_app in Hs' as [_ Hs']. apply Forall_cons in Hs' as [Hs' _]. lia.
  - destruct IH as [H1 H2]. split; [by eapply prefix_app_r|]. intros Hs. apply H2. rewrite map_app in Hs.
    eapply sorted_prefix; [|exact Hs]. by apply prefix_app_r.
Qed.

Lemma replayable_length l ls t : replayable l ls t -> length (t_lexers t) = S (length ls).
Proof. intros (first & _ & H). destruct (H [] (prefix_nil l) ltac:(constructor)) as [_ Hh%Forall2_length]. by cbn in Hh. Qed.

Lemma replaying_refused n p q : replaying n p q -> good p -> stuck (tail (ps_frames p)) n p q.
Proof.
  intros [H1 (f & rest & E1 & E2 & _ & Hr & _) H3 H4 H5] Hg. split; [done|done|rewrite E1, E2; split; [done|by exists [f]]|].
  rewrite E2. cbn. destruct Hr as (first & _ & Hr). pose proof (Hr [] (prefix_nil _) ltac:(constructor)) as Hh. by apply hosts_survive in Hh.
Qed.

Lemma discard_replayed_post n p q : good p -> replaying n p q ->
  ppost discard_replayed_substitutions q (fun _ p' => good p' /\ evolves n p p' /\
    exists g f, head (ps_frames p') = Some g /\ head (ps_frames p) = Some f /\ has_look g = false /\ documents g = documents f) (failed n p).
Proof.
  intros Hg [H1 (f & rest & E1 & E2 & Hf & (first & Hfirst & Hr) & Hready) H3 H4 H5]. unfold discard_replayed_substitutions.
  apply ppost_get. eapply ppost_frame; [exact E1|].
  assert (hosts ([] :: map pendings rest) (ps_tape q)) as Hh by (apply Hr; [apply prefix_nil|constructor]).
  assert (csh_lexer_command_fragment (lexer_view q 0) = Some first) as ->.
  { rewrite <- Hfirst. unfold csh_lexer_command_fragment. rewrite view_lexers; [done|]. destruct Hh as [_ Hh%Forall2_length].
    cbn in Hh. rewrite length_map in Hh. by rewrite E1. }
  cbv zeta. destruct (kept_prefix first (items (substitutions (look f)))) as [Hpre Hlt]. set (kept := kept_substitutions _ _) in *.
  set (f' := with_look f _ _). unfold ppost. rewrite (put_frame_run _ _ _ _ E1).
  assert (pendings f = map fragment_index (items (substitutions (look f)))) as Ep by (unfold pendings; by rewrite Hf).
  assert (pendings f' = map fragment_index kept) as Ep' by (unfold pendings; cbn; by rewrite Hf).
  pose proof (good_hosts _ _ _ Hg E2) as [_ Hpend]. inversion Hpend as [|? ? ? ? [Hsort _ _] _ Hl]; subst. rewrite Ep in Hsort.
  assert (map fragment_index kept `prefix_of` map fragment_index (items (substitutions (look f)))) as Hpm.
  { destruct Hpre as [r ->]. rewrite map_app. by apply prefix_app_r. }
  assert (hosts (pendings f' :: map pendings rest) (ps_tape q)) as Hh'.
  { rewrite Ep'. rewrite Ep in Hr. apply Hr; [exact Hpm|by apply Hlt]. }
  assert (look_ok q f') as Hlook.
  { rewrite E1 in H4. apply Forall_cons in H4 as [[L1 _] _]. split; [|intros Hx; cbn in Hx; congruence]. unfold bodies_parsed in *. cbn.
    destruct Hpre as [r Er]. rewrite Er in L1. by apply Forall_app in L1 as [L1 _]. }
  destruct (look_good n q f f' rest H1 H3 H4 E1 eq_refl Hlook Hh') as [Hq Hev]. split; [exact Hq|]. split.
  - destruct Hev as [_ X A]. split.
    + exists f, f', rest. split_and!; [done|done|]. destruct H5 as [H5 _]. cbn. lia.
    + by eapply extends_trans.
    + intros a r Ha _ _. left. unfold pending_documents in *. rewrite E2 in Ha. exact Ha.
  - exists f', f. rewrite E2. by split_and!.
Qed.

(** ** Redirections in the store *)

Definition stored_at (p : csh_parser) (a : nat) (r : redirection) : csh_parser := with_store p (<[a := r]> (ps_store p)) (ps_next p).

Lemma set_good n p a r r' : good p -> ps_store p !! a = Some r -> (redirection_good r \/ (a < n)%nat -> changed r r') ->
  (is_Some (rd_delimiter r) -> is_Some (rd_delimiter r')) ->
  good (stored_at p a r') /\ evolves n p (stored_at p a r').
Proof.
  intros Hg Ha Hc Hd. set (q := stored_at p a r'). pose proof Hg as [[H1 H2 H3 H4 H5 H6] G2 G3 G4].
  assert (forall b s, ps_store p !! b = Some s -> redirection_good s \/ (b < n)%nat -> exists s', ps_store q !! b = Some s' /\ changed s s') as Hkeep.
  { intros b s Hb Hs. cbn. destruct (decide (a = b)) as [<-|Hne].
    - rewrite Ha in Hb. injection Hb as <-. exists r'. split; [apply lookup_insert_eq|by apply Hc].
    - exists s. by rewrite lookup_insert_ne. }
  assert (extends n p q) as He.
  { split; [done|]. split; intros b s; [intros Hb Hs; apply Hkeep; [done|by left]|intros Hb Hs; apply Hkeep; [done|by right]]. }
  assert (awaited p q) as Hw by (intros b s Hb _ _; by left).
  assert (forall b, document_ok p b -> document_ok q b) as Hdoc.
  { intros b (s & Hb & Hs). unfold document_ok. cbn. destruct (decide (a = b)) as [<-|Hne].
    - rewrite Ha in Hb. injection Hb as <-. exists r'. split; [apply lookup_insert_eq|auto].
    - exists s. by rewrite lookup_insert_ne. }
  destruct (good_frames p Hg) as (f & rest & E). split; [|split; [|done|done]].
  - split; [split; try done|done|done|].
    + intros b. cbn. destruct (decide (a = b)) as [<-|Hne]; [intros _; apply H2; by eexists|]. rewrite lookup_insert_ne by done. apply H2.
    + eapply Forall_impl; [exact H3|]. intros g [K1 K2]. split; [|done]. eapply Forall_impl; [exact K1|exact Hdoc].
    + eapply Forall_impl; [exact H4|exact Hdoc].
    + eapply Forall_impl; [exact G4|]. intros g [K1 K2]. split; [|done]. eapply Forall_impl; [exact K1|]. intros s. by eapply parsed_later.
  - exists f, f, rest. by split_and!.
Qed.

Lemma safe_set n p a r r' : good p -> ps_store p !! a = Some r -> (redirection_good r \/ (a < n)%nat -> changed r r') ->
  (is_Some (rd_delimiter r) -> is_Some (rd_delimiter r')) ->
  safe n (set_redirection a r') p (fun _ p' => p' = stored_at p a r').
Proof. intros. unfold safe, ppost, set_redirection. destruct (set_good n p a r r') as [H3 H4]; [done..|]. by split_and!. Qed.

Lemma get_run {B} n a r (f : redirection -> P B) p R : ps_store p !! a = Some r -> safe n (f r) p R -> safe n (pbind (get_redirection a) f) p R.
Proof. intros E H. unfold safe, ppost, pbind, get_redirection in *. by rewrite E. Qed.

(** ** Here-documents *)

Lemma safe_delimiter n t fuel : forall rest quote buffer quoted p, good p ->
  safe n (delimiter_spelling fuel t rest quote buffer quoted) p (fun _ p' => beside p p').
Proof.
  induction fuel as [|f IH]; intros rest quote buffer quoted p Hg; [done|].
  assert (forall p1 rest quote buffer quoted, good p1 -> beside p p1 ->
    safe n (delimiter_spelling f t rest quote buffer quoted) p1 (fun _ p' => beside p p')) as Hnext.
  { intros p1 rest1 quote1 buffer1 quoted1 Hg1 Hb. eapply safe_mono; [by apply IH|]. intros a p' _ _ Hb'. by eapply beside_trans. }
  assert (forall s rest quote quoted, safe n (let~ buffer := append buffer s in delimiter_spelling f t rest quote buffer quoted) p
    (fun _ p' => beside p p')) as Hput.
  { intros s rest1 quote1 quoted1. eapply safe_bind; [by apply safe_append|]. intros b1 p1 Hg1 _ [_ Hb1]. by apply Hnext. }
  cbn [delimiter_spelling]. destruct rest as [|b after]; [by apply safe_ret|]. cbv zeta.
  destruct (_ <? _)%nat; [apply Hput|]. destruct (quote =? 39); [destruct (b =? 39); [by apply Hnext|apply Hput]|].
  destruct (_ && _); [destruct (_ =? 10); [by apply Hnext|destruct (_ || _); apply Hput]|].
  destruct (b =? 34); [by apply Hnext|]. destruct (_ && _); [by apply Hnext|]. destruct (_ && _); [|apply Hput].
  destruct (skip_continuations _ _) as [|c inner]; [apply Hput|].
  destruct c as [|c|]; [apply Hput| |apply Hput]. repeat (destruct c as [c|c|]; try apply Hput).
  destruct (dollar_quoted _ _) as [[text behind]|]; [|apply Hput].
  eapply safe_bind; [by apply safe_host|]. intros [r d] p1 Hg1 _ [_ Hb1]. destruct r; destruct d as [d|]; try (by apply safe_fail_at).
  eapply safe_bind; [by apply safe_append|]. intros b1 p2 Hg2 _ [_ Hb2]. apply Hnext; [done|by eapply beside_trans].
Qed.

(** Another document at the end. *)
Lemma documents_good n p f rest a c : good p -> ps_frames p = f :: rest -> document_ok p a ->
  (length (documents f) < ps_next p)%nat ->
  let q := replaced p (with_documents f (documents f ++ [a]) c) rest in
  good q /\ extends n p q /\ awaited p q /\ a ∈ pending_documents q.
Proof.
  intros Hg E Ha Hlen q. pose proof Hg as [[H1 H2 H3 H4 H5 H6] G2 G3 G4]. rewrite E in G2, H3, G4.
  apply Forall_cons in H3 as [[K1 K2] F2]. apply Forall_cons in G4 as [L1 L2].
  assert (extends n p q) as He by exact (extends_refl n p).
  assert (awaited p q) as Hw.
  { intros b r Hb _ _. left. unfold pending_documents in *. rewrite E in Hb. cbn in *. rewrite <- app_assoc. set_solver. }
  assert (forall g, look_ok p g -> look_ok q g) as Hlook.
  { intros g [J1 J2]. split; [|done]. eapply Forall_impl; [exact J1|]. intros s. by eapply parsed_later. }
  split_and!; [|done|done|cbn; rewrite elem_of_app, elem_of_app; left; right; by apply list_elem_of_singleton].
  split; [split; try done|exact G2|done|].
  - constructor; [|exact F2]. split; [cbn; apply Forall_app; split; [exact K1|by constructor]|]. cbn. rewrite length_app. cbn. lia.
  - constructor; [by apply Hlook|]. eapply Forall_impl; [exact L2|exact Hlook].
Qed.

Lemma beside_frames p p' f rest : beside p p' -> ps_frames p = f :: rest -> ps_frames p' = f :: rest.
Proof. intros Hb E. by rewrite (bs_frames _ _ Hb). Qed.

(** The delimiter of the redirection at [a], which no tree has yet. *)
Lemma prepare_document_post n p a r f rest : good p -> ps_frames p = f :: rest -> (n <= a)%nat -> ps_store p !! a = Some r ->
  rd_delimiter r = None -> here_document (operator_kind r) = true -> (length (documents f) < ps_next p)%nat ->
  ppost (prepare_document a) p (fun _ p' => good p' /\ extends n p p' /\ awaited p p' /\ a ∈ pending_documents p' /\
    (exists g, ps_frames p' = g :: rest /\ length (documents g) = S (length (documents f))) /\ (ps_next p <= ps_next p')%nat /\
    exists r', ps_store p' !! a = Some r' /\ operator_kind r' = operator_kind r /\ Ast.io_number r' = Ast.io_number r /\
      operand r' = operand r /\ is_Some (rd_delimiter r')) (failed n p).
Proof.
  intros Hg E Hn Ha Hnone Hk Hlen. unfold prepare_document. apply ppost_bind. unfold ppost at 1, get_redirection. rewrite Ha. cbv zeta.
  assert (forall p1, good p1 -> beside p p1 -> evolves n p p1) as Hev by (intros; by apply beside_evolves).
  apply ppost_bind. eapply ppost_mono; [by apply (safe_delimiter n)| |done]. intros [buffer quoted] p1 (Hg1 & He1 & Hb1).
  apply ppost_bind. eapply ppost_mono; [by apply (safe_append n)| |intros p'; by eapply evolves_failed].
  intros buffer2 p2 (Hg2 & He2 & _ & Hb2). pose proof (beside_trans _ _ _ Hb1 Hb2) as Hb.
  set (r2 := mk_redirection _ _ _ _ _ _ _ _ _ _).
  assert (ps_store p2 !! a = Some r) as Ha2 by (by rewrite (bs_store _ _ Hb)).
  destruct (set_good n p2 a r r2 Hg2 Ha2) as [Hg3 He3].
  { intros [[_ _ _ _ _ Hd]|Hlt]; [|lia]. rewrite Hnone in Hd. by destruct (Hd Hk). }
  { by eexists. }
  apply ppost_bind. unfold ppost at 1, set_redirection. fold (stored_at p2 a r2).
  assert (evolves n p (stored_at p2 a r2)) as He.
  { eapply ev_trans; [exact He1|]. by eapply ev_trans. }
  assert (ps_frames (stored_at p2 a r2) = f :: rest) as E3 by (by apply (beside_frames p p2)).
  eapply ppost_frame; [exact E3|]. cbv zeta. destruct (Z.eqb_spec (Z.of_nat (length (documents f))) SIZE_MAX) as [Hmax|_].
  { apply (evolves_failed n p (stored_at p2 a r2)); [done|]. apply stuck_refused; [by apply good_stuck|right]. cbn.
    rewrite (bs_next _ _ Hb). lia. }
  apply ppost_bind. eapply ppost_mono; [by apply (safe_reserve n)| |intros p'; by eapply evolves_failed].
  intros c p4 (Hg4 & He4 & Hb4). eapply ppost_frame; [by eapply beside_frames|]. unfold ppost. erewrite put_frame_run by by eapply beside_frames.
  assert (ps_store p4 !! a = Some r2) as Ha4 by (rewrite (bs_store _ _ Hb4); cbn; apply lookup_insert_eq).
  assert (ps_next p4 = ps_next p) as En by (rewrite (bs_next _ _ Hb4); cbn; by rewrite (bs_next _ _ Hb)).
  destruct (documents_good n p4 f rest a c Hg4) as (Hg5 & He5 & Hw5 & Hin).
  { by eapply beside_frames. }
  { exists r2. split; [done|by eexists]. }
  { by rewrite En. }
  assert (evolves n p p4) as He' by (by eapply ev_trans). destruct He' as [_ X A].
  split_and!; [done|by eapply extends_trans|by eapply awaited_trans|done| |cbn; by rewrite En|].
  - eexists. split; [done|]. cbn. rewrite length_app. cbn. lia.
  - exists r2. by split_and!.
Qed.

Lemma safe_strip_line n line : forall body quoted p, good p -> safe n (strip_line body line quoted) p (fun _ p' => beside p p').
Proof.
  assert (forall k line body quoted p, (length line <= k)%nat -> good p -> safe n (strip_line body line quoted) p (fun _ p' => beside p p')) as H.
  { induction k as [|k IH]; intros [|b rest] body quoted p Hk Hg; try (simpl in Hk; lia); try (by apply safe_ret). cbn in Hk.
    cbn [strip_line]. destruct b as [|b|]; [by apply safe_ret| |by apply safe_ret].
    repeat (destruct b as [b|b|]; try (by apply safe_ret)); try (apply IH; [lia|done]).
    destruct rest as [|c rest]; [by apply safe_ret|]. destruct c as [|c|]; [by apply safe_ret| |by apply safe_ret].
    repeat (destruct c as [c|c|]; try (by apply safe_ret)). destruct quoted; [by apply safe_ret|].
    eapply safe_bind; [by apply safe_append|]. intros b1 p1 Hg1 _ [_ Hb1]. eapply safe_mono; [apply IH; [simpl in Hk; lia|done]|].
    intros a p' _ _ Hb'. by eapply beside_trans. }
  intros body quoted p. by apply (H (length line)).
Qed.

Lemma safe_document_line n body line strip quoted p : good p ->
  safe n (append_document_line body line strip quoted) p (fun _ p' => beside p p').
Proof.
  intros Hg. unfold append_document_line. eapply (safe_bind _ _ _ _ (fun _ p' => beside p p')).
  { apply safe_if; intros _; [by apply safe_strip_line|by apply safe_ret]. }
  intros [b rest] p1 Hg1 _ Hb1. eapply safe_mono; [by apply safe_append|]. intros b' p' _ _ [_ Hb]. by eapply beside_trans.
Qed.

(** ** Bodies *)

Lemma safe_skip n count p : good p -> safe n (adopt (in_lexer 0 (csh_lexer_skip_raw count))) p (fun _ p' => beside p p').
Proof.
  intros Hg. destruct (good_frames p Hg) as (f & rest & E). eapply safe_mono; [eapply safe_adopt; [exact Hg| |]|].
  - unfold gives_up. rewrite E. pose proof (g_hosts _ Hg) as Hh. rewrite E in Hh. by eapply skip_raw_hosts.
  - intros [] t H. by rewrite E.
  - intros [] p' _ _ (t & -> & _). done.
Qed.

(** The document at [a]; the body that is read is discarded when no tree has the redirection. *)
Definition collectable (n : nat) (discard_body : bool) (p : csh_parser) (a : nat) : Prop :=
  exists r, ps_store p !! a = Some r /\ is_Some (rd_delimiter r) /\ (discard_body = true -> (n <= a)%nat /\ ~ redirection_good r).

Definition has_body (p : csh_parser) (a : nat) : Prop := exists r, ps_store p !! a = Some r /\ is_Some (rd_body r).

Lemma store_collectable n b p p' a : ps_store p' !! a = ps_store p !! a -> collectable n b p a -> collectable n b p' a.
Proof. intros E (r & Hr & H). exists r. by rewrite E. Qed.

Definition shares (r r' : redirection) : Prop :=
  operator_kind r' = operator_kind r /\ Ast.io_number r' = Ast.io_number r /\ operand r' = operand r /\
  rd_delimiter r' = rd_delimiter r /\ delimiter_quoted r' = delimiter_quoted r.

Lemma shares_trans r s t : shares r s -> shares s t -> shares r t.
Proof. intros (A1 & A2 & A3 & A4 & A5) (B1 & B2 & B3 & B4 & B5). split_and!; congruence. Qed.

Lemma shares_good r r' : shares r r' -> redirection_good r' -> redirection_good r.
Proof. intros (A1 & A2 & A3 & A4 & _) [B1 B2 B3 B4 B5 B6]. rewrite A1, ?A2, ?A3, ?A4 in *. by split. Qed.

(** Only the redirection at [a] has changed, in its body. *)
Record filled (discard_body : bool) (p p' : csh_parser) (a : nat) : Prop := mk_filled {
  fl_frames : ps_frames p' = ps_frames p;
  fl_next : ps_next p' = ps_next p;
  fl_store : forall b, b <> a -> ps_store p' !! b = ps_store p !! b;
  fl_shares : forall r, ps_store p !! a = Some r -> exists r', ps_store p' !! a = Some r' /\ shares r r' /\
    (discard_body = false -> is_Some (rd_body r')) }.

Lemma safe_document_step n a discard_body d p : good p -> collectable n discard_body p a ->
  safe n (document_step a discard_body d) p (fun r p' => match r with
    | inl _ => beside p p'
    | inr _ => filled discard_body p p' a
    end).
Proof.
  intros Hg (r & Hr & Hd & Hdisc). unfold document_step. eapply get_run; [exact Hr|]. apply safe_get. cbv zeta.
  destruct (csh_lexer_pending _) as [[pending pos] last]. destruct pending as [|b pending].
  { destruct last; [by apply safe_fail_at|]. eapply safe_bind; [by apply safe_feed_line|]. intros [] p1 Hg1 _ Hb. by apply safe_ret. }
  destruct (cut_at _ _) as [content more]. eapply safe_bind; [by apply safe_append|]. intros line p1 Hg1 He1 [_ Hb1].
  eapply safe_bind; [by apply safe_append|]. intros logical p2 Hg2 He2 [_ Hb2].
  eapply safe_bind; [by apply safe_skip|]. intros [] p3 Hg3 He3 Hb3.
  assert (beside p p3) as Hb by (by eapply beside_trans; [eapply beside_trans|]).
  destruct (Nat.odd _); [by apply safe_ret|]. destruct (bool_decide _).
  - eapply (safe_bind _ _ _ _ (fun _ p' => beside p3 p')).
    { apply safe_if; intros _; [by apply safe_ret|]. eapply safe_mono; [by apply safe_append|]. by intros c p' _ _ [_ ?]. }
    intros body p4 Hg4 He4 Hb4. assert (beside p p4) as Hbb by (by eapply beside_trans).
    assert (ps_store p4 !! a = Some r) as Ha4 by (by rewrite (bs_store _ _ Hbb)).
    eapply safe_bind; [eapply safe_set; [exact Hg4|exact Ha4| |done]|].
    + intros Hor. split_and!; try done. cbn. destruct discard_body; [|by eexists]. destruct (Hdisc eq_refl) as [Hle Hng].
      destruct Hor as [Hgd|Hlt]; [done|lia].
    + intros [] p5 Hg5 _ ->. apply safe_ret; [done|]. split; [apply Hbb|apply Hbb| |].
      * intros c Hc. cbn. rewrite lookup_insert_ne by done. by rewrite (bs_store _ _ Hbb).
      * intros r0 Hr0. rewrite Hr in Hr0. injection Hr0 as <-. eexists. split; [cbn; apply lookup_insert_eq|]. split; [done|].
        intros ->. by eexists.
  - eapply (safe_bind _ _ _ _ (fun _ p' => beside p3 p')).
    { apply safe_if; intros _; [by apply safe_ret|by apply safe_document_line]. }
    intros body p4 Hg4 He4 Hb4. apply safe_ret; [done|]. by eapply beside_trans.
Qed.

End Steps.
