(* ===== verification/GrammarLook.v ===== *)
(** * The parser: looking ahead

    The steps below the productions that read tokens: command substitutions
    with the words read again after them, aliases, newlines and the bodies of
    here-documents. *)

From stdpp Require Import base list gmap strings sorting.
From S2P Require Import Prelude Output State Arithmetic Character Quote Alias Descriptors Input Expansion Lexer LexerLook LexerTree LexerSafety LexerTurns LexerTotal LexerCalls LexerKinds ParserLexer Ast Parser ParserLogic ParserSafety Grammar.

(** ** Nodes that grow *)

Definition answers {A} (m : M (csh_error + A)) (R : A -> Prop) : Prop :=
  forall w, match (m w).1 with inl e => is_Some (message e) | inr a => R a end.

Lemma reserve_answers capacity count size : answers (Ast.reserve capacity count size) (fun _ => True).
Proof.
  intros w. unfold Ast.reserve. destruct (_ <=? _); [by eexists|]. destruct (_ <? _); [done|]. unfold bind, ret.
  destruct (malloc w) as [[|] w']; [done|by eexists].
Qed.

Lemma append_answers {A} (v : vector A) x size : answers (Ast.append v x size) (fun v' => items v' = items v ++ [x]).
Proof.
  intros w. unfold Ast.append, bind, ret. pose proof (reserve_answers (capacity v) (Z.of_nat (length (items v))) size w) as H.
  by destruct (Ast.reserve _ _ _ w) as [[e|c] w'].
Qed.

Lemma appended_answers {A B} (v : vector A) x size (f : vector A -> B) (R : B -> Prop) :
  (forall v', items v' = items v ++ [x] -> R (f v')) -> answers (appended v x size f) R.
Proof.
  intros HR w. unfold appended, bind, ret. pose proof (append_answers v x size w) as H.
  destruct (Ast.append _ _ _ w) as [[e|v'] w']; [done|by apply HR].
Qed.

Lemma create_answers kind : answers (csh_ast_create kind) (fun t => t = mk_ast no_position no_position no_items (empty_data kind)).
Proof. intros w. unfold csh_ast_create, bind, ret. destruct (malloc w) as [[|] w']; [done|by eexists]. Qed.

Section Look.
Context {loc : Locale} {LL : LocaleLaws loc} {ST : StableLocale loc} {db : LocaleDb}.

Lemma safe_adopt_host {A} n (m : M (csh_error + A)) p (R : A -> Prop) : good p -> answers m R ->
  safe n (adopt (in_host m)) p (fun a p' => R a /\ beside p p').
Proof.
  intros Hg Hm. unfold adopt. eapply safe_bind; [by apply safe_host|]. intros [e|a] p' Hg' _ [[w E] Hb]; specialize (Hm w); rewrite E in Hm.
  - by apply safe_adopt_error.
  - by apply safe_ret.
Qed.

(** ** Command substitutions *)

Definition closed (c : closing) (p : csh_parser) : Prop := c <> CLOSE_NONE -> exists f, head (ps_frames p) = Some f /\ at_close f c = true.

Definition list_kind (c : closing) (empty : bool) : production := PList (empty || bool_decide (c = CLOSE_NONE)).

Context (fuel : nat) (parse_list_ : closing -> bool -> csh_position -> P csh_ast).
Hypothesis safe_list : forall n c empty pos p, good p ->
  safe n (parse_list_ c empty pos) p (fun t p' => parsed p' (list_kind c empty) t /\ closed c p').

(** A child that starts, and one that has ended. *)
Lemma child_good n p t : good p -> hosts ([] :: map pendings (ps_frames p)) t ->
  let q := with_frames (with_tape p t) (new_frame :: ps_frames p) in good q /\ extends n p q /\ awaited p q.
Proof.
  intros Hg Hh q. pose proof Hg as [[H1 H2 H3 H4 H5 H6] G2 G3 G4].
  assert (extends n p q) as He by exact (extends_refl n p). assert (awaited p q) as Hw by (intros a r Ha _ _; by left).
  split_and!; [|done|done]. split; [split; try done|exact Hh|done|].
  - constructor; [by split; [constructor|cbn; lia]|exact H3].
  - constructor; [by split; [constructor|]|]. eapply Forall_impl; [exact G4|]. intros g [J1 J2]. split; [|done].
    eapply Forall_impl; [exact J1|]. intros s. by eapply parsed_later.
Qed.

(** The state behind a child: its substitution belongs to the word of [f]. *)
Record joined (n : nat) (p q : csh_parser) (f : parse_frame) (rest : list parse_frame) (s : csh_ast_substitution csh_ast) : Prop := mk_joined {
  jn_stored : stored q;
  jn_frames : ps_frames q = f :: rest;
  jn_clear : message (ps_failure q) = None;
  jn_looks : Forall (look_ok q) (ps_frames q);
  jn_hosts : hosts ((pendings f ++ [fragment_index s]) :: map pendings rest) (ps_tape q);
  jn_extends : extends n p q;
  jn_parsed : parsed q (PList true) (sb_body s) }.

Lemma joined_stuck n p q f rest s : joined n p q f rest s -> stuck rest n p q.
Proof.
  intros [H1 H2 H3 H4 H5 H6 H7]. split; [done|done|rewrite H2; split; [done|by exists [f]]|]. by apply hosts_survive in H5.
Qed.

Lemma view_tail p : length (t_lexers (ps_tape p)) = length (ps_frames p) ->
  csh_lexer_command_fragment (lexer_view p 1) = csh_lexer_command_fragment (set_lexers (ps_tape p) (tail (t_lexers (ps_tape p)))).
Proof.
  intros E. unfold lexer_view, csh_lexer_command_fragment. cbn [t_lexers set_lexers]. rewrite E.
  replace (1 + length (ps_frames p) - length (ps_frames p))%nat with 1%nat by lia. by destruct (t_lexers (ps_tape p)).
Qed.

Lemma command_child_post n p t opening f rest : good p -> ps_frames p = f :: rest ->
  hosts ([] :: map pendings (ps_frames p)) t ->
  ppost (command_child parse_list_ opening) (with_tape p t) (fun s q => joined n p q f rest s) (refused (f :: rest) n p).
Proof.
  intros Hg E Hh. unfold command_child. apply ppost_get, ppost_put. cbv beta.
  destruct (child_good n p t Hg Hh) as (Hg1 & He1 & Hw1). change (ps_frames (with_tape p t)) with (ps_frames p).
  set (q1 := with_frames (with_tape p t) (new_frame :: ps_frames p)) in *.
  assert (forall p', failed n q1 p' -> refused (f :: rest) n p p') as Hfail.
  { intros p' [F1 F2 F3 F4 F5]. cbn [q1 ps_frames with_frames tail] in F4, F5. rewrite E in F4, F5. by split; try done. }
  apply ppost_bind. eapply ppost_mono; [by apply (safe_list n)| |exact Hfail].
  intros body q2 (Hg2 & He2 & Hbody & _). apply ppost_get. pose proof He2 as [(g0 & child & rest0 & E1 & E2 & _) X2 W2].
  cbn in E1. injection E1 as <- <-. rewrite E in E2. eapply ppost_frame; [exact E2|].
  pose proof (g_hosts _ Hg2) as Hh2. rewrite E2 in Hh2. cbn [map] in Hh2.
  assert (length (t_lexers (ps_tape q2)) = length (ps_frames q2)) as Elen by (by apply hosts_length, (g_hosts _ Hg2)).
  rewrite (view_tail q2 Elen).
  assert (exists index, csh_lexer_command_fragment (set_lexers (ps_tape q2) (tail (t_lexers (ps_tape q2)))) = Some index) as [index Ei].
  { destruct Hh2 as [[Hc (x & b & Ex & _)] Hp]. rewrite Ex in Hp. inversion Hp as [|? ? ? ? _ Hp']; subst. inversion Hp' as [|? y ? ? _ _]; subst.
    destruct (core_lexer _ _ _ Hc Ex) as (_ & _ & [_ Hwait] & _). apply Forall_cons in Hwait as [(_ & Hcm & Haw) _].
    unfold csh_lexer_command_fragment. cbn. rewrite Ex. cbn. rewrite Hcm. unfold awaits in Haw. destruct (frames y); [done|]. by eexists. }
  rewrite Ei. cbv zeta. destruct (bool_decide (documents child = [])) eqn:Ed; cbn [negb].
  2: { eapply ppost_mono; [by apply (safe_fail_at n _ _ _ _ q2 (fun _ _ => False))|by intros ? ? (_ & _ & [])|].
       intros p' H. apply Hfail. by eapply evolves_failed. }
  apply bool_decide_eq_true in Ed.
  pose proof (command_end_hosts _ _ _ (Some (token (look child))) _ Hh2) as Hend.
  apply ppost_bind. unfold ppost at 1. rewrite in_lexer_run by done. unfold lpost in Hend.
  assert (extends n p q2) as Xp by (apply (extends_trans n p q1 q2); [exact He1|exact X2]).
  destruct (csh_lexer_command_end _ (ps_tape q2)) as [[|e|[]] t3]; [done| |].
  1, 2: apply ppost_get, ppost_put; cbv beta; set (q4 := with_frames (with_tape q2 t3) _).
  all: assert (ps_frames q4 = f :: rest) as E4 by (cbn; by rewrite E2).
  all: pose proof Hg2 as [[S1 S2 S3 S4 S5 S6] _ G3 G4]; rewrite E2 in S3, G4; apply Forall_cons in S3 as [_ S3];
    apply Forall_cons in G4 as [_ G4].
  all: assert (stored q4) as Hst by (split; [done|done|rewrite E4; exact S3|done|done|done]).
  - destruct Hend as [Hm Hs]. apply adopt_error_refused; [|done]. split; [done|exact Xp|rewrite E4; split; [done|by exists []]|].
    exact Hs.
  - apply ppost_ret. assert (extends n q2 q4) as X4 by exact (extends_refl n q2).
    assert (awaited q2 q4) as W4.
    { intros a r Ha _ _. left. unfold pending_documents in *. rewrite E2 in Ha. rewrite E4. cbn in Ha |- *. by rewrite Ed in Ha. }
    split; [done|done|exact G3| | |by eapply extends_trans|].
    + rewrite E4. eapply Forall_impl; [exact G4|]. intros g [J1 J2]. split; [|done]. eapply Forall_impl; [exact J1|]. intros s. by eapply parsed_later.
    + cbn [fragment_index]. exact (Hend _ Ei).
    + cbn [sb_body]. by eapply parsed_later.
Qed.

(** No word is looked at. *)
Definition looking (p : csh_parser) (b : bool) : Prop := exists f, head (ps_frames p) = Some f /\ has_look f = b.

Lemma looking_frame p b f rest : looking p b -> ps_frames p = f :: rest -> has_look f = b.
Proof. intros (g & E1 & E2) E. rewrite E in E1. by injection E1 as <-. Qed.

Lemma suffix_stored p rest above : stored p -> ps_frames p = above ++ rest -> stored (with_frames p rest).
Proof. intros [H1 H2 H3 H4 H5 H6] E. rewrite E in H3. apply Forall_app in H3 as [_ H3]. by split. Qed.

Lemma looks_later n p q : extends n p q -> awaited p q -> Forall (look_ok p) (ps_frames p) -> Forall (look_ok q) (ps_frames p).
Proof.
  intros He Hw H. eapply Forall_impl; [exact H|]. intros g [J1 J2]. split; [|done]. eapply Forall_impl; [exact J1|]. intros s. by eapply parsed_later.
Qed.

Lemma command_error_post n p p' f rest : good p -> ps_frames p = f :: rest -> has_look f = false -> refused (f :: rest) n p p' ->
  ppost command_error (with_frames p' (f :: rest)) (fun _ q => good q /\ evolves n p q /\ looking q false) (failed n p).
Proof.
  intros Hg E Hf [R1 R2 R3 [above R4] R5]. set (q := with_frames p' (f :: rest)). unfold command_error. apply ppost_get.
  assert (stored q) as Sq by (by eapply suffix_stored).
  assert (extends n p q) as Xq by exact R2.
  pose proof (replay_survives (pendings f) (map pendings rest) (ps_tape q) (ps_failure q) R5) as Hr. rewrite length_map in Hr.
  change (S (length rest)) with (length (ps_frames q)) in Hr. set (up := (length (t_lexers (ps_tape q)) - length (ps_frames q))%nat) in *.
  assert (up + length (ps_frames q) = length (t_lexers (ps_tape q)))%nat as Hup.
  { destruct R5 as (ab & behind & E1 & _ & E2 & _). unfold up. change (ps_tape q) with (ps_tape p'). rewrite E1, length_app.
    cbn in E2 |- *. rewrite length_map in E2. lia. }
  apply ppost_bind. unfold ppost at 1, in_lexer. rewrite (st_lexer _ Sq), Hup, Nat.eqb_refl. cbn [andb].
  unfold failed. rewrite E. cbn [tail].
  destruct (csh_lexer_replay_arithmetic up (ps_failure q) (ps_tape q)) as [[|e|b] t]; [done| |].
  - destruct Hr as [Hm Hs]. unfold clear_recovery. apply ppost_bind. unfold ppost at 1. apply ppost_get, ppost_put. cbv beta iota.
    apply adopt_error_refused; [|done]. split; [|exact R2|split; [done|by exists [f]]|exact Hs].
    apply (recovery_stored (with_failure (with_tape q t) (failure_result p') no_error) [] []); [|done].
    destruct Sq as [S1 S2 S3 S4 S5 S6]. by split.
  - destruct b.
    + destruct Hr as [Hready Hrep]. unfold clear_recovery. apply ppost_bind. unfold ppost at 1. apply ppost_get, ppost_put. cbv beta iota.
      set (q2 := with_failure _ _ _). eapply ppost_mono; [apply (discard_replayed_post n p q2)| |]; [done| | |].
      * assert (extends n p q2) as X2 by exact R2. split; [|exists f, rest; by split_and!|done| |done].
        -- apply (recovery_stored (with_failure (with_tape q t) (failure_result p') no_error) [] []); [|done].
           destruct Sq as [S1 S2 S3 S4 S5 S6]. by split.
        -- change (ps_frames q2) with (f :: rest). rewrite <- E. eapply looks_later; [exact X2| |apply Hg].
           intros a r Ha _ _. left. unfold pending_documents in *. rewrite E in Ha. exact Ha.
      * intros [] r (H1 & H2 & g & f0 & Eg & _ & Hlook & _). split; [done|]. split; [done|]. by exists g.
      * intros r Hr. unfold failed in Hr. by rewrite E in Hr.
    + unfold ppost, pfail. split; [|exact R2|exact R3|by exists [f]|by eapply survives_tail].
      destruct Sq as [S1 S2 S3 S4 S5 S6]. by split.
Qed.

Lemma substitution_answers (w : word) s : answers (csh_ast_word_add_substitution w s)
  (fun w' => token w' = token w /\ items (substitutions w') = items (substitutions w) ++ [s]).
Proof. by apply appended_answers. Qed.

Lemma pcatch_drop {A} (m : P A) p Q f rest n p0 : ps_frames p = f :: rest ->
  ppost m p (fun a q => Q (Some a) q) (fun q => refused (f :: rest) n p0 q /\ Q None (with_frames q (f :: rest))) ->
  ppost (pcatch m) p Q (fun _ => False).
Proof.
  intros E. unfold ppost, pcatch. destruct (m p) as [[| | |a] q]; try done. intros [[_ _ _ [above Ha] _] H]. rewrite Ha, E.
  replace (length (above ++ f :: rest) - length (f :: rest))%nat with (length above) by (rewrite length_app; lia).
  by rewrite drop_app_length.
Qed.

Lemma safe_substitution n p : good p -> looking p false -> safe n (command_substitution parse_list_) p (fun _ p' => looking p' false).
Proof.
  intros Hg Hl. destruct (good_frames p Hg) as (f & rest & E). pose proof (looking_frame _ _ _ _ Hl E) as Hf.
  unfold command_substitution. apply safe_get. destruct (csh_lexer_context _) as [[u1 u2] pos]. cbv zeta.
  set (opening := diagnostic _ _). clearbody opening. clear u1 u2 pos.
  eapply (safe_bind _ _ _ _ (fun _ p' => beside p p')).
  { unfold safe, ppost, csh_stack_check. destruct (ps_stack p) as [|b l].
    - split; [done|]. split; [by apply ev_refl|done].
    - split; [|split; [by apply beside_evolves|done]]. eapply beside_good; [exact Hg|done|apply Hg|apply Hg|apply Hg]. }
  intros ok p1 Hg1 _ Hb1. destruct (negb ok); [by apply safe_fail_at|].
  pose proof (beside_frames _ _ _ _ Hb1 E) as E1. pose proof (good_hosts _ _ _ Hg1 E1) as Hh1.
  unfold adopt at 1, safe. apply ppost_bind. unfold adopt.
  eapply (call_bind n _ _ p1 (fun _ t => hosts ([] :: map pendings (ps_frames p1)) t)); [done| | |].
  { unfold gives_up. rewrite E1. cbn [tail map]. by apply command_begin_hosts. }
  2: { intros e t He Hs. by apply adopt_error_refused. }
  intros [] t Ht. apply ppost_ret. apply ppost_bind.
  eapply ppost_mono; [eapply (pcatch_drop _ _ (fun r q => match r with
    | Some s => joined n p1 q f rest s
    | None => exists q', q = with_frames q' (f :: rest) /\ refused (f :: rest) n p1 q'
    end) f rest n p1); [exact E1|]| |done].
  { eapply ppost_mono; [by apply (command_child_post n p1 t opening f rest)|done|]. intros q Hq. split; [done|]. by exists q. }
  intros [s|] q.
  - intros Hj. pose proof Hj as [J1 J2 J3 J4 J5 J6 J7]. eapply ppost_frame; [exact J2|].
    assert (stuck rest n p1 q) as Hsk by (by eapply joined_stuck).
    unfold adopt. apply ppost_bind. apply ppost_bind. unfold ppost at 1, in_host.
    pose proof (substitution_answers (look f) s (t_proc (ps_tape q))) as Ha.
    destruct (csh_ast_word_add_substitution (look f) s (t_proc (ps_tape q))) as [[e|w] w1]; cbn [fst] in Ha.
    { eapply ppost_mono; [apply (adopt_error_refused rest n p1 _ e (fun _ _ => False)); [|done]|done|].
      - apply (stuck_beside rest n p1 q); [done|done|apply Hsk|done].
      - intros q' H. unfold failed. by rewrite E1. }
    destruct Ha as [Et Ei]. apply ppost_ret.
    set (q1 := with_tape q _). assert (ps_frames q1 = f :: rest) as Eq1 by done. set (f' := with_look f w (has_look f)).
    assert (extends n p1 q1) as X1 by (eapply extends_trans; [exact J6|exact (extends_refl n q)]).
    assert (extends n q q1) as X2 by exact (extends_refl n q). assert (awaited q q1) as W2 by (intros a r Ha _ _; by left).
    destruct (look_good n q1 f f' rest) as [Hg2 Hv2]; try done.
    + destruct J1 as [S1 S2 S3 S4 S5 S6]. by split.
    + rewrite Eq1, <- J2. by eapply looks_later.
    + rewrite J2 in J4. apply Forall_cons in J4 as [[L1 _] _]. split; [|intros Hx; cbn in Hx; congruence].
      unfold bodies_parsed in *. cbn. rewrite Ei. apply Forall_app. split; [|constructor; [by eapply parsed_later|constructor]].
      eapply Forall_impl; [exact L1|]. intros s0. by eapply parsed_later.
    + unfold pendings. cbn. rewrite Hf, Ei, map_app. unfold pendings in J5. rewrite Hf in J5. by apply hosts_proc.
    + unfold ppost. rewrite (put_frame_run _ _ _ _ Eq1). split; [done|]. split.
      * destruct Hv2 as [_ X3 W3]. split; [exists f, f', rest; split_and!; [done|done|]|by eapply extends_trans|].
        -- destruct X1 as [X1 _]. cbn in X1 |- *. lia.
        -- intros a r Ha _ _. left. unfold pending_documents in *. rewrite E1 in Ha. exact Ha.
      * exists f'. by split.
  - intros (q' & -> & Hr). by apply command_error_post.
Qed.

(** ** Tokens *)

Lemma locate_all k l : Forall (fun i => fr_kind <$> tk_fragments k !! i = Some CSH_FRAGMENT_COMMAND) (map fragment_index l) ->
  exists l', mapM (locate_substitution k) l = Some l' /\ Forall (placed k) l' /\ map fragment_index l' = map fragment_index l /\
    map sb_body l' = map sb_body l.
Proof.
  induction l as [|s l IH]; [by exists []|]. cbn [map]. intros [H1 H2]%Forall_cons. destruct (IH H2) as (l' & E & P1 & P2 & P3).
  destruct (tk_fragments k !! fragment_index s) as [g|] eqn:Eg; [|done]. injection H1 as H1.
  exists (mk_substitution (fragment_index s) (fr_begin g) (fr_end g) (sb_body s) :: l').
  split; [apply mapM_Some_2; constructor; [unfold locate_substitution; by rewrite Eg|by apply mapM_Some_1]|]. split.
  - constructor; [by exists g|done].
  - cbn. by rewrite P2, P3.
Qed.

Lemma bodies_map p (l l' : list (csh_ast_substitution csh_ast)) : map sb_body l' = map sb_body l ->
  Forall (fun s => parsed p (PList true) (sb_body s)) l -> Forall (fun s => parsed p (PList true) (sb_body s)) l'.
Proof. intros E H. rewrite <- (List.Forall_map sb_body) in H |- *. by rewrite E. Qed.

Lemma next_call n p f rest {B} (g : csh_error + csh_lex_result -> P B) Q : good p -> ps_frames p = f :: rest ->
  (forall r t, next_ok (pendings f) (map pendings rest) r t -> ppost (g (inr r)) (with_tape p t) Q (failed n p)) ->
  (forall e t, is_Some (message e) -> stuck (tail (ps_frames p)) n p (with_tape p t) -> ppost (g (inl e)) (with_tape p t) Q (failed n p)) ->
  ppost (pbind (in_lexer 0 csh_lexer_next) g) p Q (failed n p).
Proof.
  intros Hg E Hd He. eapply call_bind; [done| |exact Hd|exact He]. unfold gives_up. rewrite E. cbn [tail].
  apply next_hosts. by apply good_hosts.
Qed.

Lemma tape_safe {A} n p t (m : P A) Q : good p -> hosts (map pendings (ps_frames p)) t -> safe n m (with_tape p t) Q ->
  ppost m (with_tape p t) (fun a p' => good p' /\ evolves n p p' /\ Q a p') (failed n p).
Proof.
  intros Hg Hh Hm. assert (evolves n p (with_tape p t)) as He by (by apply beside_evolves).
  eapply ppost_mono; [exact Hm| |].
  - intros a p' (H1 & H2 & H3). split; [done|]. split; [by eapply ev_trans|done].
  - intros p' H. by eapply evolves_failed.
Qed.

Lemma safe_raw_step n p : good p -> looking p false ->
  safe n (raw_step parse_list_ tt) p (fun r p' => match r with inl _ => looking p' false | inr b => looking p' b end).
Proof.
  intros Hg Hl. destruct (good_frames p Hg) as (f & rest & E). pose proof (looking_frame _ _ _ _ Hl E) as Hf.
  unfold raw_step, safe. apply (next_call n p f rest); [done|done| |].
  2: { intros e t He Hs. by apply adopt_error_refused. }
  pose proof (good_hosts _ _ _ Hg E) as [_ Hpend]. inversion Hpend as [|? x ? b [Hsort _ _] _ E1 E2]; subst. clear Hpend.
  intros r t Hr. assert (hosts (pendings f :: map pendings rest) t -> hosts (map pendings (ps_frames p)) t) as Hfr by (by rewrite E).
  destruct r as [|k| | |]; cbn in Hr.
  - destruct Hr as [Hh _]. apply (tape_safe n p t); [done|by apply Hfr|]. assert (good (with_tape p t)) as Hgt by (apply tape_good; auto).
    apply safe_frame; [done|]. intros g rest' E'. cbn in E'. rewrite E in E'. injection E' as <- <-.
    eapply safe_bind; [apply (safe_put_frame n f _ rest); [done|exact E|done| |exact Hh]|].
    + apply (good_look _ _ rest Hgt E).
    + intros [] p' Hg' _ ->. apply safe_ret; [done|]. eexists. by split.
  - destruct Hr as (Hh & Hraw & Hk). unfold pendings in Hk. rewrite Hf in Hk. unfold pendings in Hsort. rewrite Hf in Hsort.
    destruct (locate_all k _ Hk) as (l & El & Hpl & Hi & Hb). eapply ppost_frame; [exact E|]. rewrite El.
    set (f' := with_look f _ true). set (q := with_tape p t). apply ppost_bind. unfold ppost at 1. rewrite (put_frame_run f' q f rest E).
    assert (extends n p q) as X by exact (extends_refl n p). assert (awaited p q) as W by (intros a s Ha _ _; by left).
    destruct (look_good n q f f' rest) as [Hg2 Hv2]; try done.
    + destruct Hg as [[S1 S2 S3 S4 S5 S6] _ _ _]. by split.
    + apply Hg.
    + change (ps_frames q) with (ps_frames p). eapply looks_later; [exact X|exact W|apply Hg].
    + destruct (good_look _ _ _ Hg E) as [L1 _]. split.
      * unfold bodies_parsed. cbn. apply (bodies_map _ _ _ Hb). eapply Forall_impl; [exact L1|]. intros s. by eapply parsed_later.
      * intros _. split; [|done]. split; [exact Hpl|]. cbn. by rewrite Hi.
    + apply ppost_ret. split; [done|]. split; [|by exists f']. eapply ev_trans; [|exact Hv2]. by apply beside_evolves.
  - destruct Hr as [Hh _]. apply (tape_safe n p t); [done|by apply Hfr|]. assert (good (with_tape p t)) as Hgt by (apply tape_good; auto).
    eapply safe_bind; [by apply safe_feed_line|]. intros [] p' Hg' _ Hb'. apply safe_ret; [done|]. exists f. split; [|done].
    by rewrite (bs_frames _ _ Hb'); cbn; rewrite E.
  - destruct Hr as [Hh _]. apply (tape_safe n p t); [done|by apply Hfr|]. assert (good (with_tape p t)) as Hgt by (apply tape_good; auto).
    eapply safe_bind; [apply safe_substitution; [done|exists f; by rewrite <- Hf; cbn; rewrite E]|].
    intros [] p' Hg' _ Hl'. by apply safe_ret.
  - apply ppost_bind. eapply ppost_mono; [apply (discard_replayed_post n p (with_tape p t)); [done|]| |done].
    + pose proof Hg as [[S1 S2 S3 S4 S5 S6] _ G3 G4]. split; [by split| |done| |exact (extends_refl n p)].
      * exists f, rest. split_and!; try done. destruct Hr as (first & _ & Hr). by apply (Hr [] (prefix_nil _) ltac:(constructor)).
      * eapply (looks_later 0 p); [exact (extends_refl 0 p)|intros a s Ha _ _; by left|done].
    + intros [] p' (H1 & H2 & g & f0 & Eg & _ & Hlook & _). apply ppost_ret. split; [done|]. split; [done|]. by exists g.
Qed.

Lemma safe_peek_raw n p : good p -> safe n (peek_raw fuel parse_list_) p (fun b p' => looking p' b).
Proof.
  intros Hg. unfold peek_raw. apply safe_frame; [done|]. intros g rest E. destruct (has_look g) eqn:Eh.
  { apply safe_ret; [done|]. exists g. by rewrite E. }
  assert (looking p false) as Hl by (exists g; by rewrite E). destruct (pf_eof g); [by apply safe_ret|].
  apply (safe_loop n (fun _ p' => looking p' false)); [|done|done]. intros [] q Hq Hlq. by apply safe_raw_step.
Qed.

Lemma safe_take n p f rest : good p -> ps_frames p = f :: rest ->
  safe n take_word p (fun w p' => w = look f /\ p' = replaced p (with_look f no_word false) rest).
Proof.
  intros Hg E. unfold take_word. apply safe_frame; [done|]. intros g rest' E'. rewrite E in E'. injection E' as <- <-.
  eapply safe_bind; [apply (safe_put_frame n f _ rest); [done|done|done|apply no_word_ok|]|].
  - eapply hosts_nil. by apply good_hosts.
  - intros [] p' Hg' _ ->. by apply safe_ret.
Qed.

Lemma safe_discard n p f rest : good p -> ps_frames p = f :: rest ->
  safe n discard p (fun _ p' => p' = replaced p (with_look f no_word false) rest).
Proof.
  intros Hg E. unfold discard. apply safe_frame; [done|]. intros g rest' E'. rewrite E in E'. injection E' as <- <-.
  apply safe_put_frame with (f := f); [done|done|done|apply no_word_ok|]. eapply hosts_nil. by apply good_hosts.
Qed.

(** Whatever the frame. *)
Lemma safe_drop n p : good p -> safe n discard p (fun _ p' => looking p' false).
Proof.
  intros Hg. destruct (good_frames p Hg) as (f & rest & E). eapply safe_mono; [by eapply safe_discard|].
  intros [] p' _ _ ->. eexists. by split.
Qed.

(** The word looked at is good. *)
Lemma look_word p f rest : good p -> ps_frames p = f :: rest -> has_look f = true -> word_good p (look f) /\ tk_raw (token (look f)) <> [].
Proof. intros Hg E Hf. destruct (good_look _ _ _ Hg E) as [L1 L2]. destruct (L2 Hf) as [L3 L4]. by split. Qed.

Lemma safe_take_word n p f rest : good p -> ps_frames p = f :: rest -> has_look f = true ->
  safe n take_word p (fun w p' => w = look f /\ word_good p' w /\ tk_raw (token w) <> [] /\ looking p' false).
Proof.
  intros Hg E Hf. destruct (look_word _ _ _ Hg E Hf) as [H1 H2]. eapply safe_mono; [by eapply safe_take|].
  intros w p' _ He [-> ->]. split; [done|]. split; [by eapply word_evolves|]. split; [done|]. eexists. by split.
Qed.

Lemma safe_follows n p : good p -> safe n follows_redirection p (fun _ p' => beside p p').
Proof.
  intros Hg. unfold follows_redirection, safe. apply ppost_bind. unfold ppost at 1. rewrite in_lexer_run by done.
  pose proof (follows_redirection_hosts _ _ (g_hosts _ Hg)) as H. unfold lpost in H.
  destruct (csh_lexer_follows_redirection (ps_tape p)) as [[|e|b] t]; [done|done|]. apply ppost_ret.
  split; [by apply tape_good|]. split; [by apply beside_evolves|done].
Qed.

Lemma safe_look_kind n p f rest : good p -> ps_frames p = f :: rest ->
  safe n look_kind p (fun kind p' => p' = p /\ kind = tk_kind (token (look f))).
Proof.
  intros Hg E. unfold look_kind. apply safe_frame; [done|]. intros g rest' E'. rewrite E in E'. injection E' as <- <-. by apply safe_ret.
Qed.

Lemma safe_append_name n l raw : forall name p, good p -> safe n (append_name l raw name) p (fun _ p' => beside p p').
Proof.
  induction l as [|g l IH]; intros name p Hg; cbn [append_name]; [by apply safe_ret|]. destruct (is_continuation g); [by apply IH|].
  eapply safe_bind; [by apply safe_append|]. intros b p' Hg' _ [_ Hb]. eapply safe_mono; [by apply IH|].
  intros b' p'' _ _ Hb'. by eapply beside_trans.
Qed.

Lemma beside_looking p p' b : beside p p' -> looking p b -> looking p' b.
Proof. intros Hb (f & H1 & H2). exists f. by rewrite (bs_frames _ _ Hb). Qed.

Lemma safe_alias_step n cp p : good p ->
  safe n (alias_step fuel parse_list_ cp tt) p (fun r p' => match r with inl _ => True | inr b => looking p' b end).
Proof.
  intros Hg. unfold alias_step. eapply safe_bind; [by apply safe_peek_raw|]. intros b p1 Hg1 _ Hl. destruct b; cbn [negb]; [|by apply safe_ret].
  apply safe_get, safe_frame; [done|]. intros f rest E. cbv zeta. destruct (ps_aliases p1) as [l|] eqn:Ea; [|by apply safe_ret].
  destruct (_ || _); [by apply safe_ret|].
  eapply (safe_bind _ _ _ _ (fun _ p' => beside p1 p')).
  { apply safe_if; intros _; [by apply safe_follows|by apply safe_ret]. }
  intros number p2 Hg2 _ Hb2. pose proof (beside_looking _ _ _ Hb2 Hl) as Hl2. destruct number; [by apply safe_ret|].
  destruct (negb _); [by apply safe_ret|].
  eapply safe_bind; [by apply safe_append_name|]. intros name p3 Hg3 _ Hb3. pose proof (beside_looking _ _ _ Hb3 Hl2) as Hl3.
  apply safe_get. destruct (if b_capacity name =? 0 then None else csh_aliases_get l (Some (b_data name))) as [value|] eqn:Ev; [|by apply safe_ret].
  destruct (csh_lexer_alias_active _ _); [by apply safe_ret|].
  assert (Forall is_byte value) as Hv.
  { destruct (b_capacity name =? 0); [done|]. eapply (st_aliases _ (g_stored _ Hg1)); [exact Ea|exact Ev]. }
  destruct (good_frames p3 Hg3) as (g & rest3 & E3).
  eapply safe_bind.
  { eapply (safe_adopt n _ p3 (fun _ t => hosts (map pendings (ps_frames p3)) t)); [done| |done].
    unfold gives_up. rewrite E3. cbn [tail map]. apply alias_push_hosts; [by apply good_hosts|done]. }
  intros [] p4 Hg4 _ _. eapply safe_bind; [by apply safe_drop|]. intros [] p5 Hg5 _ _. by apply safe_ret.
Qed.

Lemma safe_peek_alias n cp p : good p -> safe n (peek_alias fuel parse_list_ cp) p (fun b p' => looking p' b).
Proof.
  intros Hg. apply (safe_loop n (fun _ _ => True)); [|done|done]. intros [] q Hq _. eapply safe_mono; [by apply safe_alias_step|].
  by intros [] p' _ _.
Qed.

Lemma safe_peek n p : good p -> safe n (peek fuel parse_list_) p (fun b p' => looking p' b).
Proof. apply safe_peek_alias. Qed.

(** A reserved word stays where it is. *)
Lemma peek_reserved cp p f rest : ps_frames p = f :: rest -> has_look f = true -> reserved (token (look f)) = true ->
  ppost (peek_alias fuel parse_list_ cp) p (fun b p' => b = true /\ p' = p) (fun _ => False).
Proof.
  intros E Hf Hr. unfold peek_alias. destruct fuel as [|k]; [done|]. cbn [loop]. unfold alias_step, peek_raw, ppost, pbind, get_frame, get_parser.
  rewrite E, Hf. unfold pret. cbv beta iota zeta. cbn [negb]. cbv beta iota. rewrite E. destruct (ps_aliases p); [|done].
  by rewrite Hr, orb_true_r.
Qed.

(** ** Bodies of here-documents *)

Lemma filled_collectable n b p p' a c : filled b p p' a -> collectable n b p c -> collectable n b p' c.
Proof.
  intros [F1 F2 F3 F4] Hc. destruct (decide (c = a)) as [->|Hne]; [|by eapply store_collectable; [apply F3|]].
  destruct Hc as (r & Hr & Hd & Hdisc). destruct (F4 r Hr) as (r' & Hr' & Hs & _). exists r'. split; [done|].
  pose proof Hs as (_ & _ & _ & Ed & _). split; [by rewrite Ed|]. intros Hb. destruct (Hdisc Hb) as [H1 H2]. split; [done|].
  intros Hg. by apply H2, (shares_good _ _ Hs).
Qed.

Lemma safe_collect n a b p : good p -> collectable n b p a ->
  safe n (collect_document fuel a b) p (fun _ p' => filled b p p' a).
Proof.
  intros Hg Hc. unfold collect_document. pose proof Hc as (r & Hr & Hd & Hdisc).
  apply ppost_bind. eapply ppost_mono; [eapply frame_position_post; by apply (good_stuck n)| |done]. intros pos q ->.
  set (r1 := mk_redirection (operator_kind r) (rd_start r) (rd_end r) (Ast.io_number r) (operand r)
    (rd_delimiter r) (delimiter_quoted r) (rd_body r) pos (body_end r)).
  assert (shares r r1) as Hs by done.
  eapply (get_run n a r); [done|]. eapply safe_bind; [eapply (safe_set n p a r r1); [done|done|by intros _|done]|].
  intros [] q Hq _ ->. set (q := stored_at p a r1) in *.
  assert (filled true p q a) as Hf1.
  { split; [done|done| |]. - intros c Hne. cbn. by rewrite lookup_insert_ne. - intros r0 Hr0. rewrite Hr in Hr0. injection Hr0 as <-.
    exists r1. split; [cbn; apply lookup_insert_eq|]. by split. }
  assert (collectable n b q a) as Hcq.
  { exists r1. split; [cbn; apply lookup_insert_eq|]. split; [done|]. intros Hb. destruct (Hdisc Hb) as [H1 H2]. split; [done|].
    intros Hgd. by apply H2, (shares_good _ _ Hs). }
  eapply safe_mono; [apply (safe_loop n (fun _ p' => beside q p')) with (Q := fun _ p' => filled b q p' a)|].
  - intros d p1 Hg1 Hb1. eapply safe_mono; [apply safe_document_step; [done|eapply store_collectable; [|exact Hcq]; by rewrite (bs_store _ _ Hb1)]|].
    intros [d'|[]] p2 _ _ H2; [by eapply beside_trans|]. destruct H2 as [G1 G2 G3 G4].
    split; [by rewrite G1, (bs_frames _ _ Hb1)|by rewrite G2, (bs_next _ _ Hb1)| |].
    + intros c Hne. by rewrite G3, (bs_store _ _ Hb1).
    + intros r0 Hr0. apply G4. by rewrite (bs_store _ _ Hb1).
  - done.
  - done.
  - intros [] p2 _ _ [G1 G2 G3 G4]. split; [done|done| |].
    + intros c Hne. rewrite G3 by done. by apply Hf1.
    + intros r0 Hr0. rewrite Hr in Hr0. injection Hr0 as <-. destruct (G4 r1) as (r2 & Hr2 & Hs2 & Hb2); [cbn; apply lookup_insert_eq|].
      exists r2. split; [done|]. split; [by eapply shares_trans|done].
Qed.

Lemma safe_collect_each n b l : forall p, good p -> Forall (collectable n b p) l ->
  safe n (collect_each fuel l b) p (fun _ p' => ps_frames p' = ps_frames p /\ ps_next p' = ps_next p /\
    (forall c, c ∉ l -> ps_store p' !! c = ps_store p !! c) /\
    (forall c r, ps_store p !! c = Some r -> exists r', ps_store p' !! c = Some r' /\ shares r r') /\
    (b = false -> Forall (has_body p') l)).
Proof.
  induction l as [|a l IH]; intros p Hg Hl; cbn [collect_each].
  { apply safe_ret; [done|]. split_and!; try done. intros c r Hc. by exists r. } apply Forall_cons in Hl as [Ha Hl].
  eapply safe_bind; [by apply safe_collect|]. intros [] p1 Hg1 _ Hf. pose proof Hf as [F1 F2 F3 F4].
  eapply safe_mono; [apply IH; [done|]|].
  { eapply Forall_impl; [exact Hl|]. intros c. by eapply filled_collectable. }
  intros [] p2 _ _ (H1 & H2 & H3 & H5 & H4). split_and!; [congruence|congruence| | |].
  - intros c [Hc1 Hc2]%not_elem_of_cons. rewrite H3, F3; done.
  - intros c r Hc. assert (exists r1, ps_store p1 !! c = Some r1 /\ shares r r1) as (r1 & Hr1 & S1).
    { destruct (decide (c = a)) as [->|Hne]; [|exists r; by rewrite F3]. destruct (F4 r Hc) as (r1 & Hr1 & S1 & _). by exists r1. }
    destruct (H5 c r1 Hr1) as (r2 & Hr2 & S2). exists r2. split; [done|by eapply shares_trans].
  - intros Hb. constructor; [|by apply H4]. destruct (decide (a ∈ l)) as [Hin|Hin].
    + specialize (H4 Hb). rewrite Forall_forall in H4. by apply H4.
    + destruct Ha as (r & Hr & _). destruct (F4 r Hr) as (r' & Hr' & _ & Hbody). exists r'. rewrite H3 by done. split; [done|by apply Hbody].
Qed.

Lemma safe_collect_documents n b p f rest : good p -> ps_frames p = f :: rest ->
  (b = true -> Forall (collectable n true p) (documents f)) ->
  safe n (collect_documents fuel b) p (fun _ p' => exists c, ps_frames p' = with_documents f [] c :: rest).
Proof.
  intros Hg E Hb. unfold collect_documents. apply safe_frame; [done|]. intros f' rest' E'. rewrite E in E'. injection E' as <- <-.
  pose proof (st_frames _ (g_stored _ Hg)) as Hfr. rewrite E in Hfr. apply Forall_cons in Hfr as [[Hd _] _].
  assert (Forall (collectable n b p) (documents f)) as Hc.
  { destruct b; [by apply Hb|]. eapply Forall_impl; [exact Hd|]. intros a (r & Hr & Hdel). by exists r. }
  unfold safe. apply ppost_bind. eapply ppost_mono; [by apply (safe_collect_each n b)| |done].
  intros [] p1 (Hg1 & He1 & F1 & F2 & _ & F3 & F4). rewrite E in F1. eapply ppost_frame; [exact F1|].
  unfold ppost. rewrite (put_frame_run _ _ _ _ F1). set (f' := with_documents f [] (document_capacity f)). set (q := replaced p1 f' rest).
  assert (extends n p1 q) as X by exact (extends_refl n p1).
  assert (awaited p1 q) as W.
  { intros a r Ha Hr Hgd. unfold pending_documents in Ha |- *. rewrite F1 in Ha. cbn in Ha |- *. apply elem_of_app in Ha as [Ha|Ha]; [|by left].
    right. destruct b.
    - exfalso. rewrite Forall_forall in Hc. destruct (Hc a Ha) as (r0 & Hr0 & _ & Hdisc). destruct (Hdisc eq_refl) as [Hle Hng].
      destruct (F3 a r0 Hr0) as (r1 & Hr1 & Hs). rewrite Hr in Hr1. injection Hr1 as <-. by apply Hng, (shares_good _ _ Hs).
    - specialize (F4 eq_refl). rewrite Forall_forall in F4. exact (F4 a Ha). }
  assert (evolves n p1 q) as Hv.
  { split; [|done|done]. exists f, f', rest. split_and!; [done|done|cbn; lia]. }
  split; [|split; [by eapply ev_trans|by exists (document_capacity f)]].
  pose proof Hg1 as [[S1 S2 S3 S4 S5 S6] G2 G3 G4]. rewrite F1 in S3, G2, G4. apply Forall_cons in S3 as [_ S3].
  split; [split; try done|exact G2|done|].
  - constructor; [by split; [constructor|cbn; lia]|exact S3].
  - assert (Forall (look_ok q) (f :: rest)) as Hl by (rewrite <- F1; eapply looks_later; [exact X|exact W|by rewrite F1]).
    apply Forall_cons in Hl as [L1 L2]. by constructor.
Qed.

Lemma safe_newline n p : good p -> safe n (newline fuel) p (fun _ p' => looking p' false /\ exists f, head (ps_frames p') = Some f /\ documents f = []).
Proof.
  intros Hg. destruct (good_frames p Hg) as (f & rest & E). unfold newline. eapply safe_bind; [by eapply safe_discard|].
  intros [] p1 Hg1 _ E1. assert (ps_frames p1 = with_look f no_word false :: rest) as E2 by (by rewrite E1).
  eapply safe_mono; [by eapply safe_collect_documents|]. intros [] p2 _ _ [c Ec]. split; eexists; rewrite Ec; by split.
Qed.

Lemma safe_newline_step n p : good p ->
  safe n (newline_step fuel parse_list_ tt) p (fun r p' => match r with inl _ => True | inr b => looking p' b end).
Proof.
  intros Hg. unfold newline_step. eapply safe_bind; [by apply safe_peek_alias|]. intros b p1 Hg1 _ Hl.
  destruct (good_frames p1 Hg1) as (f & rest & E). eapply safe_bind; [by eapply safe_look_kind|]. intros kind p2 _ _ [-> _].
  destruct (_ && _); [|by apply safe_ret]. eapply safe_bind; [by apply safe_newline|]. intros [] p3 Hg3 _ _. by apply safe_ret.
Qed.

Lemma safe_skip_newlines n p : good p -> safe n (skip_newlines fuel parse_list_) p (fun b p' => looking p' b).
Proof.
  intros Hg. apply (safe_loop n (fun _ _ => True)); [|done|done]. intros [] q Hq _. eapply safe_mono; [by apply safe_newline_step|].
  by intros [[]|b] p' _ _.
Qed.

Lemma skip_reserved p f rest : ps_frames p = f :: rest -> has_look f = true -> reserved (token (look f)) = true ->
  tk_kind (token (look f)) = CSH_TOKEN_WORD ->
  ppost (skip_newlines fuel parse_list_) p (fun b p' => b = true /\ p' = p) (fun _ => False).
Proof.
  intros E Hf Hr Hk. assert (ppost (newline_step fuel parse_list_ tt) p (fun r p' => r = inr true /\ p' = p) (fun _ => False)) as Hp.
  { unfold newline_step. apply ppost_bind. eapply ppost_mono; [by eapply peek_reserved| |done]. intros b p' [-> ->].
    apply ppost_bind. unfold look_kind. eapply ppost_frame; [exact E|]. apply ppost_ret. by rewrite Hk. }
  unfold skip_newlines. revert Hp. generalize (newline_step fuel parse_list_). intros step Hp. destruct fuel as [|k]; [done|]. cbn [loop].
  apply ppost_bind. eapply ppost_mono; [exact Hp| |done]. by intros r p' [-> ->].
Qed.

(** ** Tokens of a production *)

Lemma safe_node n kind p : good p ->
  safe n (new_node kind) p (fun t p' => t = mk_ast no_position no_position no_items (empty_data kind) /\ beside p p').
Proof. intros Hg. apply safe_adopt_host; [done|apply create_answers]. Qed.

Lemma safe_expect n kind spelling text p : good p ->
  safe n (expect_token fuel parse_list_ kind spelling text) p (fun _ p' => exists f, head (ps_frames p') = Some f /\ has_look f = true /\
    tk_kind (token (look f)) = kind /\ match spelling with Some s => plain_equal (token (look f)) s = true | None => True end).
Proof.
  intros Hg. unfold expect_token. eapply safe_bind; [by apply safe_peek|]. intros b p1 Hg1 _ Hl. destruct b; cbn [negb]; [|by apply safe_fail_here].
  apply safe_frame; [done|]. intros f rest E. cbv zeta. destruct (_ || _) eqn:Ec; [by apply safe_fail_here|].
  apply safe_ret; [done|]. apply orb_false_iff in Ec as [Ek Es]. apply negb_false_iff, bool_decide_eq_true in Ek.
  exists f. rewrite E. split_and!; [done|by eapply looking_frame|done|]. destruct spelling; [by apply negb_false_iff in Es|done].
Qed.

Lemma safe_keyword n node spelling p : good p ->
  safe n (consume_keyword fuel parse_list_ node spelling) p (fun t p' => exists pos, t = with_end node pos).
Proof.
  intros Hg. unfold consume_keyword. eapply safe_bind; [by apply safe_expect|]. intros [] p1 Hg1 _ _.
  apply safe_frame; [done|]. intros f rest E. eapply safe_bind; [by apply safe_drop|]. intros [] p2 Hg2 _ _. apply safe_ret; [done|]. by eexists.
Qed.
End Look.
