(* ===== verification/GrammarTree.v ===== *)
(** * The parser: trees are of the grammar

    The productions of src/parser.c, one lemma each: from a good parser a
    production gives a tree that the grammar derives, or a refusal that is
    recorded; it never dereferences NULL nor leaves a vector. *)

From stdpp Require Import base list gmap strings sorting.
From S2P Require Import Prelude Output State Arithmetic Character Quote Alias Descriptors Input Expansion Lexer LexerLook LexerTree LexerSafety LexerTurns LexerTotal LexerCalls LexerKinds ParserLexer Ast Parser ParserLogic ParserSafety Grammar GrammarLook.

(** ** Trees under construction *)

(** A redirection of a node, with the trees in its operand. *)
Definition hanging (p : csh_parser) (a : nat) : Prop :=
  redirected p a /\ forall r, ps_store p !! a = Some r -> bodies_parsed p (operand r).

Record parts (p : csh_parser) (t : csh_ast) : Prop := mk_parts {
  pt_redirections : Forall (hanging p) (items (redirections t));
  pt_words : Forall is_word (data_words (ast_data t));
  pt_good : Forall (word_good p) (data_words (ast_data t));
  pt_children : Forall (fun c => parsed p (fst c) (snd c)) (data_children (ast_data t)) }.

Lemma hanging_later n p q a : extends n p q -> awaited p q -> hanging p a -> hanging q a.
Proof.
  intros X W [H1 H2]. split; [by eapply redirected_later|]. intros r' Hr'. pose proof H1 as (r & Hr & Hg & _). pose proof X as (_ & K & _).
  destruct (K a r Hr Hg) as (r2 & Hr2 & (_ & _ & Eo & _)). rewrite Hr' in Hr2. injection Hr2 as <-. rewrite Eo.
  eapply Forall_impl; [exact (H2 r Hr)|]. intros s. by eapply parsed_later.
Qed.

Lemma parts_later n p q t : evolves n p q -> parts p t -> parts q t.
Proof.
  intros [_ X W] [H1 H2 H3 H4]. split; [|done| |].
  - eapply Forall_impl; [exact H1|]. intros a. by eapply hanging_later.
  - eapply Forall_impl; [exact H3|]. intros w. by eapply word_later.
  - eapply Forall_impl; [exact H4|]. intros c. by eapply parsed_later.
Qed.

Lemma parts_parsed p x t : parts p t -> admits x (ast_kind t) = true ->
  data_shape (is_list_empty x) (has_redirections t) (ast_data t) -> parsed p x t.
Proof.
  intros [H1 H2 H3 H4] Ha Hs. constructor; [done|done| |done| |].
  - eapply Forall_impl; [exact H1|]. by intros a [].
  - eapply Forall_impl; [exact H3|]. by intros w [].
  - intros y u [y' u' Hu|w s Hw Hsub|a r s Ha' Hr Hsub].
    + rewrite Forall_forall in H4. by specialize (H4 _ Hu).
    + rewrite Forall_forall in H3. destruct (H3 w Hw) as [_ Hb]. unfold bodies_parsed in Hb. rewrite Forall_forall in Hb. by apply Hb.
    + rewrite Forall_forall in H1. destruct (H1 a Ha') as [_ Hb]. specialize (Hb r Hr). unfold bodies_parsed in Hb.
      rewrite Forall_forall in Hb. by apply Hb.
Qed.

Lemma parsed_inv p x t : parsed p x t ->
  admits x (ast_kind t) = true /\ data_shape (is_list_empty x) (has_redirections t) (ast_data t) /\ parts p t.
Proof.
  intros H. destruct H as [x t H1 H2 H3 H4 H5 H6]. split; [done|]. split; [done|]. split; [|done| |].
  - rewrite Forall_forall in H3 |- *. intros a Ha. split; [by apply H3|]. intros r Hr. apply Forall_forall. intros s Hs.
    apply H6. by eapply in_operand.
  - rewrite Forall_forall in H5 |- *. intros w Hw. split; [by apply H5|]. apply Forall_forall. intros s Hs. apply H6. by eapply in_word.
  - apply Forall_forall. intros [y u] Hu. apply H6. by apply in_data.
Qed.

(** More general productions. *)
Lemma parsed_widens p x y t : parsed p x t -> (forall k, admits x k = true -> admits y k = true) -> is_list_empty x = is_list_empty y -> parsed p y t.
Proof. intros H%parsed_inv Ha Hl. destruct H as (H1 & H2 & H3). apply parts_parsed; [done|by apply Ha|by rewrite <- Hl]. Qed.

(** A node without redirections. *)
Definition bare (p : csh_parser) (t : csh_ast) : Prop := parts p t /\ items (redirections t) = [].

Lemma bare_later n p q t : evolves n p q -> bare p t -> bare q t.
Proof. intros He [H1 H2]. split; [by eapply parts_later|done]. Qed.

Lemma bare_data p t d : bare p t -> Forall is_word (data_words d) -> Forall (word_good p) (data_words d) ->
  Forall (fun c => parsed p (fst c) (snd c)) (data_children d) -> bare p (with_ast_data t d).
Proof. intros [[H1 H2 H3 H4] Hr] W1 W2 C. by split. Qed.

Lemma bare_end p t pos : bare p t -> bare p (with_end t pos).
Proof. by intros [[H1 H2 H3 H4] Hr]. Qed.

Lemma bare_start p t pos : bare p t -> bare p (with_start t pos).
Proof. by intros [[H1 H2 H3 H4] Hr]. Qed.

Lemma no_word_good p : word_good p no_word.
Proof. repeat constructor. Qed.

Lemma bare_new p kind : bare p (mk_ast no_position no_position no_items (empty_data kind)).
Proof. split; [|done]. pose proof (no_word_good p) as H. split; [constructor|by destruct kind; repeat constructor|destruct kind; by constructor|by destruct kind; repeat constructor]. Qed.

Lemma bare_compound p t : bare p t -> data_shape false false (ast_data t) -> admits PCompound (ast_kind t) = true -> parsed p PCompound t.
Proof.
  intros [H1 H2] Hs Ha. apply parts_parsed; [done|done|]. unfold has_redirections. by rewrite H2.
Qed.

(** What holds of a parser holds of the last one it has become. *)
Ltac advance := cbv beta in *; repeat match goal with
  | He : evolves ?n ?p ?q, H : parsed ?p ?x ?t |- _ => apply (good_later n p q x t He) in H
  | He : evolves ?n ?p ?q, H : bare ?p ?t |- _ => apply (bare_later n p q t He) in H
  | He : evolves ?n ?p ?q, H : parts ?p ?t |- _ => apply (parts_later n p q t He) in H
  | He : evolves ?n ?p ?q, H : word_good ?p ?w |- _ => apply (word_evolves n p q w He) in H
  end.

(** One step of a production. *)
Ltac step lem := eapply safe_bind; [lem|].

Section Productions.
Context {loc : Locale} {LL : LocaleLaws loc} {ST : StableLocale loc} {db : LocaleDb}.

(** All that a step has to keep is in the store. *)
Lemma safe_any {A} n (m : P A) p Q : good p -> safe (ps_next p) m p Q -> safe n m p Q.
Proof.
  intros Hg Hm. pose proof (st_bound _ (g_stored _ Hg)) as Hb.
  assert (forall q, extends (ps_next p) p q -> extends n p q) as Hx.
  { intros q (X1 & X2 & X3). split; [done|]. split; [done|]. intros a r _ Ha. apply X3; [apply Hb; by eexists|done]. }
  eapply ppost_mono; [exact Hm| |].
  - intros a q (H1 & [E1 E2 E3] & H3). split; [done|]. split; [by split; [|apply Hx|]|done].
  - intros q [R1 R2 R3 R4 R5]. split; try done. by apply Hx.
Qed.

Context (fuel : nat) (parse_list_ : closing -> bool -> csh_position -> P csh_ast).
Hypothesis safe_list : forall n c empty pos p, good p ->
  safe n (parse_list_ c empty pos) p (fun t p' => parsed p' (list_kind c empty) t /\ closed c p').

Abbreviation peek := (peek fuel parse_list_).

(** ** Redirections *)

Lemma new_good n p r : good p ->
  let q := with_store p (<[ps_next p := r]> (ps_store p)) (S (ps_next p)) in good q /\ evolves n p q.
Proof.
  intros Hg q. pose proof Hg as [S1 G2 G3 G4]. pose proof (new_extends n p r S1) as X.
  assert (awaited p q) as W by (intros a s Ha _ _; by left). destruct (good_frames p Hg) as (f & rest & E). split.
  - split; [by apply new_stored|exact G2|done|]. change (ps_frames q) with (ps_frames p). by eapply looks_later.
  - split; [|done|done]. exists f, f, rest. split_and!; [done|done|cbn; lia].
Qed.

Lemma redirection_answers kind : answers (csh_ast_redirection_create kind) (fun r => r = no_redirection kind /\ redirection_kind kind = true).
Proof.
  intros w. unfold csh_ast_redirection_create. destruct (redirection_kind kind) eqn:E; cbn [negb]; [|by eexists]. unfold bind, ret.
  destruct (malloc w) as [[|] w']; [done|by eexists].
Qed.

(** The node with one more redirection. *)
Definition with_redirection (node : csh_ast) (p : csh_parser) (t : csh_ast) : Prop :=
  ast_start t = ast_start node /\ ast_data t = ast_data node /\
  exists a, items (redirections t) = items (redirections node) ++ [a] /\ hanging p a.

(** A step while the redirection at [k] is private. *)
Lemma inner_bind {A B} k (m : P A) (f : A -> P B) p p2 q Q R : evolves k p q -> evolves (S k) p2 q -> safe (S k) m q Q ->
  (forall a q', good q' -> evolves k p q' -> evolves (S k) p2 q' -> Q a q' -> ppost (f a) q' R (failed k p)) ->
  ppost (pbind m f) q R (failed k p).
Proof.
  intros He He2 Hm Hf. apply ppost_bind. eapply ppost_mono; [exact Hm| |].
  - intros a q' (H1 & H2 & H3). apply Hf; [done| |by eapply ev_trans|done]. eapply ev_trans; [exact He|].
    by eapply evolves_less; [|exact H2]; lia.
  - intros q' H. eapply evolves_failed; [exact He|]. by eapply failed_less; [|exact H]; lia.
Qed.

Lemma inner_fail_at {A} k result text number pos p q (R : A -> csh_parser -> Prop) : evolves k p q -> good q ->
  ppost (fail_at result text number pos) q R (failed k p).
Proof.
  intros He Hg. eapply ppost_mono; [by apply (safe_fail_at k _ _ _ _ q (fun _ _ => False))|by intros ? ? (_ & _ & [])|].
  intros q' H. by eapply evolves_failed.
Qed.

Lemma inner_fail_here {A} k result text number p q (R : A -> csh_parser -> Prop) : evolves k p q -> good q ->
  ppost (fail_here result text number) q R (failed k p).
Proof.
  intros He Hg. eapply ppost_mono; [by apply (safe_fail_here k _ _ _ q (fun _ _ => False))|by intros ? ? (_ & _ & [])|].
  intros q' H. by eapply evolves_failed.
Qed.

(** The redirection is complete. *)
Lemma hanging_new q k r w : ps_store q !! k = Some r -> redirection_kind (operator_kind r) = true ->
  (forall d, Ast.io_number r = Some d -> io_number d = true) -> operand r = w -> is_word w -> word_good q w -> tk_raw (token w) <> [] ->
  (here_document (operator_kind r) = true -> is_Some (rd_delimiter r) /\ k ∈ pending_documents q) -> hanging q k.
Proof.
  intros Hr Hk Hn <- Hw [H1 H2] Hraw Hh. split.
  - exists r. split; [done|]. split; [split; try done; intros H; by apply Hh|]. intros H. right. by apply Hh.
  - intros r' Hr'. rewrite Hr in Hr'. by injection Hr' as <-.
Qed.

Lemma safe_redirection n node descriptor p f rest : good p -> ps_frames p = f :: rest -> has_look f = true ->
  match descriptor with Some d => io_number (token d) = true | None => True end ->
  safe n (parse_redirection fuel parse_list_ node descriptor) p (fun t p' => with_redirection node p' t).
Proof.
  intros Hg E Hf Hd. apply safe_any; [done|]. set (k := ps_next p). clear n. unfold parse_redirection.
  apply safe_frame; [done|]. intros f0 rest0 E0. rewrite E in E0. injection E0 as <- <-. cbv zeta. set (t0 := token (look f)).
  eapply safe_bind; [by apply safe_adopt_host, redirection_answers|]. intros r p1 Hg1 He1 [[-> Hk] Hb1].
  assert (k = ps_next p1) as En1 by (symmetry; apply Hb1). clearbody k. subst k.
  pose proof (beside_frames _ _ _ _ Hb1 E) as E1. clear p Hg E He1 Hb1. set (k := ps_next p1).
  set (r0 := mk_redirection _ _ _ _ _ _ _ _ _ _). destruct (new_good k p1 r0 Hg1) as [Hg2 He2].
  unfold safe. apply ppost_bind. unfold ppost at 1, new_redirection. set (p2 := with_store p1 _ _) in *. fold k.
  assert (ps_store p2 !! k = Some r0) as Ha2 by (cbn; apply lookup_insert_eq).
  assert (ps_frames p2 = f :: rest) as E2 by exact E1.
  assert (length (documents f) < ps_next p2)%nat as Hlen2.
  { pose proof (st_frames _ (g_stored _ Hg1)) as Hfr. rewrite E1 in Hfr. apply Forall_cons in Hfr as [[_ Hl] _]. cbn. fold k in Hl. lia. }
  eapply inner_bind; [exact He2|by apply (ev_refl (S k))|eapply safe_discard; [exact Hg2|exact E2]|]. intros [] p3 Hg3 He3 Hs3 _.
  eapply inner_bind; [exact He3|exact Hs3|by apply safe_peek|]. intros b p4 Hg4 He4 Hs4 Hl4.
  destruct b; cbn [negb]; [|by apply inner_fail_at].
  destruct (good_frames p4 Hg4) as (f4 & rest4 & E4). pose proof (looking_frame _ _ _ _ Hl4 E4) as Hf4.
  eapply inner_bind; [exact He4|exact Hs4|by eapply safe_look_kind|]. intros kind p4' _ _ _ [-> Hkind].
  destruct (bool_decide (kind = CSH_TOKEN_WORD)) eqn:Eword; cbn [negb]; [|by apply inner_fail_here].
  apply bool_decide_eq_true in Eword.
  eapply inner_bind; [exact He4|exact Hs4|by eapply safe_take_word|]. intros w p5 Hg5 He5 Hs5 (Ew & Hw & Hraw & _).
  assert (is_word w) as Hisw by (unfold is_word; congruence).
  assert (exists r5, ps_store p5 !! k = Some r5 /\ changed r0 r5) as (r5 & Hr5 & C1 & C2 & C3 & C4 & _).
  { destruct (ev_extends _ _ _ Hs5) as (_ & _ & X). apply (X k r0); [lia|done]. }
  apply ppost_bind. unfold ppost at 1, get_redirection. rewrite Hr5.
  set (r6 := mk_redirection (operator_kind r5) _ _ _ w _ _ _ _ _).
  destruct (set_good k p5 k r5 r6 Hg5 Hr5) as [Hg6 He6].
  { intros [[_ _ _ Hr _ _]|Hlt]; [|lia]. by rewrite C3 in Hr. }
  { done. }
  apply ppost_bind. unfold ppost at 1, set_redirection. fold (stored_at p5 k r6). set (p6 := stored_at p5 k r6) in *.
  assert (ps_store p6 !! k = Some r6) as Ha6 by (cbn; apply lookup_insert_eq).
  assert (word_good p6 w) as Hw6 by (by eapply word_evolves).
  assert (evolves k p1 p6) as H16 by (by eapply ev_trans).
  assert (forall d, token <$> descriptor = Some d -> io_number d = true) as Hnum.
  { destruct descriptor; [by intros d [= <-]|done]. }
  (** The here-document, if it is one. *)
  apply ppost_bind. apply (ppost_mono _ _ (fun _ q => good q /\ evolves k p1 q /\ hanging q k) _ (failed k p1)); [| |done].
  2: { intros [] q (Hgq & Heq & Hhang). eapply ppost_mono; [apply (safe_adopt_host k _ _
      (fun t => ast_start t = ast_start node /\ ast_data t = ast_data node /\ items (redirections t) = items (redirections node) ++ [k]));
      [done|by apply appended_answers]| |].
    - intros t q' (Hgq' & Heq' & (T1 & T2 & T3) & Hb'). split; [done|]. split; [by eapply ev_trans|]. split; [done|]. split; [done|].
      exists k. split; [done|]. eapply hanging_later; [| |exact Hhang]; apply Heq'.
    - intros q' H. by eapply evolves_failed. }
  destruct (here_document (operator_kind r5)) eqn:Eh.
  - assert (rd_delimiter r6 = None) as Hdel by exact C4. destruct (ev_frames _ _ _ Hs5) as (g2 & g5 & rest5 & F2 & F5 & Hslack).
    rewrite E2 in F2. injection F2 as <- <-.
    replace (match operator_kind r5 with CSH_TOKEN_DLESS | CSH_TOKEN_DLESS_DASH => prepare_document k | _ => pret tt end) with (prepare_document k)
      by (destruct (operator_kind r5); done).
    eapply ppost_mono; [apply (prepare_document_post k p6 k r6 g5 rest); [done|exact F5|done|done|done|done|cbn; lia]| |].
    + intros [] q (Hgq & Xq & Wq & Hin & (g & Eg & Hlen) & Hnext & (r7 & Hr7 & D1 & D2 & D3 & D4)). split; [done|]. split.
      * destruct H16 as [_ X W]. split; [|by eapply extends_trans|by eapply awaited_trans].
        exists f, g, rest. split; [done|]. split; [done|]. cbn in Hnext. cbn in Hslack. fold k in Hslack. unfold k. lia.
      * apply (hanging_new q k r7 w); [done|by rewrite D1; cbn; rewrite C1| |done|done|by eapply word_later|done|by intros _; split].
        intros d. rewrite D2. cbn. rewrite C2. apply Hnum.
    + intros q H. by eapply evolves_failed.
  - replace (match operator_kind r5 with CSH_TOKEN_DLESS | CSH_TOKEN_DLESS_DASH => prepare_document k | _ => pret tt end) with (pret tt)
      by (destruct (operator_kind r5); done).
    apply ppost_ret. split; [done|]. split; [done|]. apply (hanging_new p6 k r6 w); [done|by cbn; rewrite C1| |done|done|done|done|by cbn; rewrite Eh].
    intros d. cbn. rewrite C2. apply Hnum.
Qed.

(** ** Compound commands *)

Lemma list_weak p c t : c <> CLOSE_NONE -> parsed p (list_kind c false) t -> parsed p (PList false) t.
Proof. intros Hc. unfold list_kind. by rewrite bool_decide_eq_false_2. Qed.

(** A nested list. *)
Lemma safe_nested n c pos p : good p -> c <> CLOSE_NONE ->
  safe n (parse_list_ c false pos) p (fun t p' => parsed p' (PList false) t /\ closed c p').
Proof.
  intros Hg Hc. eapply safe_mono; [by apply safe_list|]. intros t p' _ _ [H1 H2]. split; [by eapply list_weak|done].
Qed.

Lemma if_answers node v e b : ast_data node = If v e ->
  answers (csh_ast_if_add node b) (fun t => exists v', t = with_ast_data node (If v' e) /\ items v' = items v ++ [b]).
Proof. intros E. unfold csh_ast_if_add. rewrite E. apply appended_answers. intros v' Hv. by exists v'. Qed.

Lemma children_option p x (o : option csh_ast) :
  Forall (fun c => parsed p (fst c) (snd c)) (map (pair x) (option_list o)) <-> (forall t, o = Some t -> parsed p x t).
Proof.
  destruct o as [t|]; cbn; [|by split; [|constructor]]. split.
  - intros [H _]%Forall_cons t' [= <-]. exact H.
  - intros H. constructor; [by apply H|constructor].
Qed.

Lemma if_children p v e : Forall (fun c => parsed p (fst c) (snd c)) (data_children (If v e)) <->
  Forall (fun b => parsed p (PList false) (if_condition b) /\ parsed p (PList false) (if_body b)) (items v) /\
  (forall t, e = Some t -> parsed p (PList false) t).
Proof.
  cbn [data_children]. rewrite !Forall_app, children_option, !List.Forall_map. cbn [fst snd]. split.
  - intros (H1 & H2 & H3). split; [by apply Forall_and|done].
  - by intros [[H1 H2]%Forall_and H3].
Qed.

Definition if_node (p : csh_parser) (t : csh_ast) (v : vector (csh_ast_if_branch csh_ast)) : Prop := bare p t /\ ast_data t = If v None.

Lemma safe_if_step n node v p : good p -> if_node p node v ->
  safe n (if_step fuel parse_list_ node) p (fun r p' => exists v', items v' <> [] /\
    match r with inl t => if_node p' t v' | inr t => if_node p' t v' end).
Proof.
  intros Hg [Hb Ed]. unfold if_step. step ltac:(by apply safe_drop). intros [] p1 Hg1 He1 _.
  step ltac:(by apply safe_nested). intros c p2 Hg2 He2 [Hc _].
  step ltac:(by apply safe_keyword). intros node1 p3 Hg3 He3 [pos ->].
  step ltac:(by apply safe_nested). intros body p4 Hg4 He4 [Hbody _].
  step ltac:(eapply safe_adopt_host; [done|by eapply if_answers]). intros t p5 Hg5 He5 [(v' & -> & Ev) _].
  apply safe_frame; [done|]. intros f rest E. apply safe_ret; [done|]. exists v'. split; [by rewrite Ev; destruct (items v)|]. advance.
  assert (if_node p5 (with_ast_data (with_end node pos) (If v' None)) v') as H; [|by destruct (plain_equal _ _)].
  split; [|done]. pose proof (pt_children _ _ (proj1 Hb)) as H4. rewrite Ed, if_children in H4. destruct H4 as [H4 _].
  apply bare_data; [by apply bare_end|constructor|constructor|]. apply if_children. split; [|done]. rewrite Ev.
  apply Forall_app. split; [done|]. constructor; [by split|constructor].
Qed.

(** A compound command before its redirections. *)
Definition compound (p : csh_parser) (t : csh_ast) : Prop :=
  bare p t /\ data_shape false false (ast_data t) /\ admits PCompound (ast_kind t) = true.

Lemma compound_end p t pos : compound p t -> compound p (with_end t pos).
Proof. intros (H1 & H2 & H3). split; [by apply bare_end|done]. Qed.

(** A closing keyword. *)
Lemma safe_closing n node spelling p : good p -> compound p node ->
  safe n (consume_keyword fuel parse_list_ node spelling) p (fun t p' => compound p' t).
Proof.
  intros Hg (H1 & H2 & H3). eapply safe_mono; [by apply safe_keyword|]. intros t p' _ He [pos ->]. apply compound_end.
  split; [by eapply bare_later|done].
Qed.

Lemma safe_parse_if n node p : good p -> if_node p node no_items -> safe n (parse_if fuel parse_list_ node) p (fun t p' => compound p' t).
Proof.
  intros Hg Hn. unfold parse_if.
  step ltac:(apply (safe_loop n (fun t p => exists v, if_node p t v)) with (Q := fun t p' => exists v, items v <> [] /\ if_node p' t v)).
  { intros t q Hq [v Hv]. eapply safe_mono; [by eapply safe_if_step|]. intros [t'|t'] q' _ _ (v' & Hne & Hv'); by exists v'. }
  { done. }
  { by exists no_items. }
  intros t p1 Hg1 _ (v & Hne & Hb & Ed). apply safe_frame; [done|]. intros f rest E.
  step ltac:(apply (safe_if _ _ _ _ _ (fun t p' => compound p' t)); intros _).
  - step ltac:(by apply safe_drop). intros [] p2 Hg2 He2 _. step ltac:(by apply safe_nested). intros body p3 Hg3 He3 [Hbody _].
    apply safe_ret; [done|]. advance. unfold set_else. rewrite Ed. split; [|done].
    pose proof (pt_children _ _ (proj1 Hb)) as H4. rewrite Ed, if_children in H4. destruct H4 as [H4 _].
    apply bare_data; [done|constructor|constructor|]. apply if_children. split; [done|]. by intros b [= <-].
  - apply safe_ret; [done|]. split; [done|]. unfold ast_kind. by rewrite Ed.
  - intros t' p2 Hg2 _ Hc. by apply safe_closing.
Qed.

Lemma bare_loop p t c b : bare p t -> (ast_kind t = CSH_AST_WHILE \/ ast_kind t = CSH_AST_UNTIL) -> parsed p (PList false) c ->
  (forall x, b = Some x -> parsed p (PList false) x) -> bare p (set_loop t (Some c) b).
Proof.
  intros Hb Hk Hc Hbody. assert (Forall (fun x => parsed p (fst x) (snd x)) (map (pair (PList false)) (option_list (Some c)) ++ map (pair (PList false)) (option_list b))) as H.
  { apply Forall_app. split; apply children_option; [by intros ? [= <-]|done]. }
  unfold set_loop. unfold ast_kind in Hk. destruct (ast_data t); try (by destruct Hk); by apply bare_data.
Qed.

Lemma loop_kind t c b : ast_kind t = CSH_AST_WHILE \/ ast_kind t = CSH_AST_UNTIL -> ast_kind (set_loop t c b) = ast_kind t.
Proof. unfold ast_kind, set_loop. destruct (ast_data t); intros [H|H]; done. Qed.

Lemma loop_compound p t c b : bare p (set_loop t (Some c) (Some b)) -> ast_kind t = CSH_AST_WHILE \/ ast_kind t = CSH_AST_UNTIL ->
  compound p (set_loop t (Some c) (Some b)).
Proof.
  intros Hb Hk. split; [done|]. unfold ast_kind, set_loop in *. destruct (ast_data t); try (by destruct Hk); cbn; (split; [split; by eexists|done]).
Qed.

Lemma safe_parse_loop n node p : good p -> bare p node -> ast_kind node = CSH_AST_WHILE \/ ast_kind node = CSH_AST_UNTIL ->
  safe n (parse_loop fuel parse_list_ node) p (fun t p' => compound p' t).
Proof.
  intros Hg Hb Hk. unfold parse_loop. step ltac:(by apply safe_drop). intros [] p1 Hg1 He1 _.
  step ltac:(by apply safe_nested). intros c p2 Hg2 He2 [Hc _].
  step ltac:(by apply safe_keyword). intros node1 p3 Hg3 He3 [pos ->]. set (node1 := with_end _ pos).
  step ltac:(by apply safe_nested). intros body p4 Hg4 He4 [Hbody _]. advance.
  assert (bare p4 node1) as Hb1 by (by apply bare_end, bare_loop).
  assert (ast_kind node1 = CSH_AST_WHILE \/ ast_kind node1 = CSH_AST_UNTIL) as Hk1.
  { subst node1. change (ast_kind (with_end ?t pos)) with (ast_kind t). by rewrite loop_kind. }
  apply safe_closing; [done|]. apply loop_compound; [|done]. apply bare_loop; [done|done|done|]. by intros x [= <-].
Qed.

(** Words in order. *)
Definition words_good (p : csh_parser) (l : list word) : Prop := Forall is_word l /\ Forall (word_good p) l.

Lemma words_later n p q l : evolves n p q -> words_good p l -> words_good q l.
Proof. intros He [H1 H2]. split; [done|]. eapply Forall_impl; [exact H2|]. intros w. by eapply word_evolves. Qed.

Lemma words_snoc p l w : words_good p l -> is_word w -> word_good p w -> words_good p (l ++ [w]).
Proof. intros [H1 H2] H3 H4. split; (apply Forall_app; split; [done|by constructor]). Qed.

Lemma safe_add_word n (v : vector word) w p q : good q -> evolves n p q -> words_good p (items v) -> is_word w -> word_good q w ->
  safe n (adopt (in_host (csh_ast_word_vector_add v w))) q (fun v' p' => words_good p' (items v') /\ items v' <> [] /\ beside q p').
Proof.
  intros Hg He Hv H1 H2. eapply safe_mono; [by apply safe_adopt_host, append_answers|]. intros v' p' _ He' [E Hb].
  rewrite E. split; [|split; [by destruct (items v)|done]]. eapply words_later; [exact He'|]. apply words_snoc; [by eapply words_later|done|done].
Qed.

Lemma safe_for_word_step n v p : good p -> words_good p (items v) ->
  safe n (for_word_step fuel parse_list_ v) p (fun r p' => match r with inl v' => words_good p' (items v') | inr v' => words_good p' (items v') end).
Proof.
  intros Hg Hv. unfold for_word_step. step ltac:(by apply safe_peek). intros b p1 Hg1 He1 Hl.
  destruct (good_frames p1 Hg1) as (f & rest & E). step ltac:(by eapply safe_look_kind). intros kind p2 _ _ [-> Hkind].
  destruct b; cbn [andb negb]; [|by apply safe_fail_here]. pose proof (looking_frame _ _ _ _ Hl E) as Hf.
  destruct (bool_decide (kind = CSH_TOKEN_WORD)) eqn:Ek.
  - apply bool_decide_eq_true in Ek. step ltac:(by eapply safe_take_word). intros w p3 Hg3 He3 (Ew & Hw & _ & _).
    step ltac:(eapply (safe_add_word n v w p p3); [done|by eapply ev_trans|done|unfold is_word; congruence|done]).
    intros v' p4 Hg4 _ (H & _). by apply safe_ret.
  - apply safe_ret; [done|]. by eapply words_later.
Qed.

Lemma safe_for_words n p : good p -> safe n (for_words fuel parse_list_) p (fun v p' => words_good p' (items v)).
Proof.
  intros Hg. unfold for_words. step ltac:(by apply safe_drop). intros [] p1 Hg1 He1 _.
  step ltac:(apply (safe_loop n (fun v q => words_good q (items v))) with (Q := fun v q => words_good q (items v));
    [by intros v q; apply safe_for_word_step|done|by split; constructor]).
  intros v p2 Hg2 _ Hv. destruct (good_frames p2 Hg2) as (f & rest & E). step ltac:(by eapply safe_look_kind). intros kind p3 _ _ [-> _].
  eapply (safe_bind _ _ _ _ (fun _ _ => True)).
  { destruct kind; try (by apply safe_fail_here); (eapply safe_mono; [first [by apply safe_newline|by apply safe_drop]|done]). }
  intros [] p4 Hg4 He4 _. step ltac:(by apply safe_skip_newlines). intros b p5 Hg5 He5 _. apply safe_ret; [done|].
  eapply words_later; [|exact Hv]. by eapply ev_trans.
Qed.

Lemma safe_parse_for n node p : good p -> bare p node -> safe n (parse_for fuel parse_list_ node) p (fun t p' => compound p' t).
Proof.
  intros Hg Hb. unfold parse_for. step ltac:(by apply safe_drop). intros [] p1 Hg1 He1 _.
  step ltac:(by apply safe_expect). intros [] p2 Hg2 He2 (f & E & Hf & Hk & _). apply safe_frame; [done|]. intros f0 rest E0.
  rewrite E0 in E. injection E as ->. destruct (valid_name (token (look f))) eqn:Ename; cbn [negb]; [|by apply safe_fail_here].
  step ltac:(by eapply safe_take_word). intros name p3 Hg3 He3 (Ew & Hw & _ & _). rewrite <- Ew in Ename, Hk. clear Ew E0 Hf f rest.
  step ltac:(by apply safe_peek). intros b p4 Hg4 He4 _. destruct (good_frames p4 Hg4) as (f & rest & E).
  step ltac:(by eapply safe_look_kind). intros kind p5 _ _ [-> _]. clear f rest E. cbv zeta.
  step ltac:(by apply safe_skip_newlines). intros b' p5 Hg5 He5 _. destruct (good_frames p5 Hg5) as (f & rest & E).
  step ltac:(by eapply safe_look_kind). intros kind' p6 _ _ [-> _]. clear f rest E. cbv zeta.
  set (semicolon := (_ && _)%bool).
  eapply (safe_bind _ _ _ _ (fun _ _ => True)).
  { apply safe_if; intros _; [|by apply safe_ret]. step ltac:(by apply safe_drop). intros [] q Hq _ _. eapply safe_mono; [by apply safe_skip_newlines|done]. }
  intros _ p6 Hg6 He6 _. apply safe_frame; [done|]. intros f rest E. set (has_in := (_ && _)%bool). cbv zeta.
  eapply (safe_bind _ _ _ _ (fun v q => words_good q (items v) /\ (has_in = false -> items v = []))).
  { apply safe_if; intros H; [eapply safe_mono; [by apply safe_for_words|]|apply safe_ret; [done|]].
    - intros v q _ _ Hv. by split; [|rewrite H].
    - split; [by split; constructor|done]. }
  intros words p7 Hg7 He7 [Hwords Hin]. step ltac:(by apply safe_keyword). intros node1 p8 Hg8 He8 [pos ->].
  step ltac:(by apply safe_nested). intros body p9 Hg9 He9 [Hbody _]. clearbody has_in. pose proof (words_later _ _ _ _ He8 Hwords) as Hwords8.
  pose proof (words_later _ _ _ _ He9 Hwords8) as [W1 W2]. advance. apply safe_closing; [done|]. split; [|split; [by split|done]].
  assert (forall d, data_words d = name :: items words -> Forall is_word (data_words d) /\ Forall (word_good p9) (data_words d)) as Hd.
  { intros d ->. by split; constructor. }
  apply bare_data; [apply bare_end, bare_data; [done|by apply Hd|by apply Hd|constructor]|by apply Hd|by apply Hd|].
  apply children_option. by intros x [= <-].
Qed.

(** ** The case command *)

Lemma case_answers node w l item : ast_data node = Case w l ->
  answers (csh_ast_case_add node item) (fun t => exists l', t = with_ast_data node (Case w l') /\ items l' = items l ++ [item]).
Proof.
  intros E. unfold csh_ast_case_add. rewrite E. destruct (items (patterns item)); [by intros x; eexists|].
  destruct (ast_kind (ci_body item)); try (by intros x; eexists). apply appended_answers. intros v Hv. by exists v.
Qed.

Definition esac_next (p : csh_parser) : Prop :=
  exists f, head (ps_frames p) = Some f /\ has_look f = true /\ plain_equal (token (look f)) (bs "esac") = true.

Definition ended (i : csh_ast_case_item csh_ast) : Prop := terminator i <> CSH_AST_CASE_END.

(** Only the item before [esac] may be without a terminator. *)
Record case_node (p : csh_parser) (t : csh_ast) (w : word) (l : vector (csh_ast_case_item csh_ast)) : Prop := mk_case_node {
  cn_data : ast_data t = Case w l;
  cn_bare : bare p t;
  cn_patterns : Forall (fun i => items (patterns i) <> []) (items l);
  cn_ended : Forall ended (items l) \/ (Forall ended (removelast (items l)) /\ esac_next p) }.

Lemma esac_reserved t : plain_equal t (bs "esac") = true -> reserved t = true /\ tk_kind t = CSH_TOKEN_WORD.
Proof.
  intros H. split.
  - apply existsb_exists. exists (bs "esac"). split; [|done]. do 8 right. by left.
  - unfold plain_equal in H. apply andb_true_iff in H as [H _]. by apply bool_decide_eq_true in H.
Qed.

Lemma removelast_forall {A} (P : A -> Prop) l : Forall P l -> Forall P (removelast l).
Proof.
  induction l as [|x l IH]; [done|]. intros [H1 H2]%Forall_cons. cbn. destruct l as [|y l]; [constructor|]. constructor; [done|by apply IH].
Qed.

Lemma case_compound p t w l : case_node p t w l -> compound p t.
Proof.
  intros [E H1 H2 H3]. split; [done|]. unfold ast_kind. rewrite E. split; [|done]. split; [done|].
  destruct H3 as [H3|[H3 _]]; [by apply removelast_forall|done].
Qed.

Lemma safe_case_skip n t w l p : good p -> case_node p t w l ->
  safe n (skip_newlines fuel parse_list_) p (fun b p' => looking p' b /\ (Forall ended (items l) \/ (b = true /\ esac_next p'))).
Proof.
  intros Hg [_ _ _ [H|[_ (f & Ef & Hf & He)]]].
  - eapply safe_mono; [by apply safe_skip_newlines|]. intros b p' _ _ Hl. split; [done|by left].
  - destruct (ps_frames p) as [|f0 rest] eqn:E; [done|]. injection Ef as ->. destruct (esac_reserved _ He) as [Hr Hk].
    eapply ppost_mono; [by apply (skip_reserved fuel parse_list_ p f rest)| |done]. intros b p' [-> ->]. split; [done|].
    split; [by apply ev_refl|]. split; [exists f; by rewrite E|]. right. split; [done|]. exists f. by rewrite E.
Qed.

Lemma safe_pattern_step n v p : good p -> words_good p (items v) ->
  safe n (pattern_step fuel parse_list_ v) p (fun r p' => match r with
    | inl v' => words_good p' (items v') /\ items v' <> []
    | inr v' => words_good p' (items v') /\ items v' <> [] end).
Proof.
  intros Hg Hv. unfold pattern_step. step ltac:(by apply safe_expect). intros [] p1 Hg1 He1 (f & E & Hf & Hk & _).
  destruct (ps_frames p1) as [|f0 rest] eqn:E1; [done|]. injection E as ->.
  step ltac:(by eapply safe_take_word). intros w p2 Hg2 He2 (Ew & Hw & _ & _).
  step ltac:(eapply (safe_add_word n v w p p2); [done|by eapply ev_trans|done|unfold is_word; congruence|done]).
  intros v' p3 Hg3 He3 (Hv' & Hne & _). step ltac:(by apply safe_peek). intros b p4 Hg4 He4 _.
  destruct (good_frames p4 Hg4) as (f' & rest' & E4). step ltac:(by eapply safe_look_kind). intros kind p5 _ _ [-> _].
  pose proof (words_later _ _ _ _ He4 Hv') as Hv4.
  apply safe_if; intros _; [|by apply safe_ret]. step ltac:(by apply safe_drop). intros [] p5 Hg5 He5 _. apply safe_ret; [done|].
  split; [by eapply words_later|done].
Qed.

Lemma safe_patterns n p : good p ->
  safe n (loop fuel (pattern_step fuel parse_list_) no_items) p (fun v p' => words_good p' (items v) /\ items v <> []).
Proof.
  intros Hg. apply (safe_loop n (fun v q => words_good q (items v))); [|done|by split; constructor]. intros v q Hq Hv.
  eapply safe_mono; [by apply safe_pattern_step|]. by intros [v'|v'] q' _ _ [H1 H2].
Qed.

Lemma safe_terminator n p : good p -> closed CLOSE_CASE p ->
  safe n case_terminator p (fun r p' => r.1.1 <> CSH_AST_CASE_END \/ esac_next p').
Proof.
  intros Hg Hc. unfold case_terminator. apply safe_frame; [done|]. intros f rest E. cbv zeta.
  destruct (Hc ltac:(done)) as (f' & Ef & Hat). rewrite E in Ef. injection Ef as <-. apply andb_true_iff in Hat as [Hf Hat].
  destruct (tk_kind (token (look f))) eqn:Ek; try (apply safe_ret; [done|]; right; exists f; rewrite E; split_and!; try done;
    by apply orb_true_iff in Hat as [Hat|Hat]; [|done]).
  all: step ltac:(by apply safe_drop); intros [] p1 Hg1 _ _; apply safe_ret; [done|by left].
Qed.

Lemma case_children p w l : Forall (fun c => parsed p (fst c) (snd c)) (data_children (Case w l)) <->
  Forall (fun i => parsed p (PList true) (ci_body i)) (items l).
Proof. cbn [data_children]. by rewrite List.Forall_map. Qed.

Lemma case_words p w l : bare p l -> forall v, ast_data l = Case w v ->
  is_word w /\ word_good p w /\ words_good p (items v ≫= fun i => items (patterns i)).
Proof. intros [[_ H2 H3 _] _] v E. rewrite E in H2, H3. apply Forall_cons in H2 as [W1 W2], H3 as [G1 G2]. by split_and!. Qed.

(** One more item. *)
Lemma case_snoc p node w l l' i : bare p node -> ast_data node = Case w l -> items l' = items l ++ [i] ->
  words_good p (items (patterns i)) -> parsed p (PList true) (ci_body i) -> bare p (with_ast_data node (Case w l')).
Proof.
  intros Hb Ed El Hp Hbody. destruct (case_words p w node Hb l Ed) as (W1 & G1 & [W2 G2]). destruct Hp as [W3 G3].
  assert (data_words (Case w l') = w :: (items l ≫= fun i => items (patterns i)) ++ items (patterns i)) as Ew.
  { cbn. rewrite El, bind_app. cbn. by rewrite app_nil_r. }
  apply bare_data; [done|rewrite Ew; constructor; [done|by apply Forall_app]|rewrite Ew; constructor; [done|by apply Forall_app]|].
  apply case_children. rewrite El. apply Forall_app. split; [|by constructor].
  pose proof (pt_children _ _ (proj1 Hb)) as H. by rewrite Ed, case_children in H.
Qed.

Lemma safe_case_step n node w l p : good p -> case_node p node w l ->
  safe n (case_step fuel parse_list_ node) p (fun r p' => match r with inl t => exists l', case_node p' t w l' | inr t => compound p' t end).
Proof.
  intros Hg Hn. unfold case_step. step ltac:(by eapply safe_case_skip). intros b p1 Hg1 He1 [Hl Hend].
  destruct b; cbn [negb]; [|by apply safe_fail_at]. apply safe_frame; [done|]. intros f rest E.
  destruct Hn as [Ed Hb Hpat Hlast]. destruct (plain_equal (token (look f)) (bs "esac")) eqn:Eesac.
  { step ltac:(eapply safe_closing; [done|eapply (case_compound p1 node w l); split; [done|by eapply bare_later|done|]]).
    - destruct Hlast as [H|[H _]]; [by left|right]. split; [done|]. exists f. rewrite E. split_and!; [done|by eapply looking_frame|done].
    - intros t p2 Hg2 _ Hc. by apply safe_ret. }
  assert (Forall ended (items l)) as Hall.
  { destruct Hend as [H|[_ (f' & Ef & _ & H)]]; [done|]. rewrite E in Ef. injection Ef as <-. congruence. }
  clear Hlast Hend Hl Eesac.
  eapply (safe_bind _ _ _ _ (fun _ _ => True)).
  { apply safe_if; intros _; [|by apply safe_ret]. eapply safe_mono; [by apply safe_drop|done]. }
  intros [] p2 Hg2 He2 _. step ltac:(by apply safe_patterns). intros v p3 Hg3 He3 [Hv Hne].
  step ltac:(by apply safe_expect). intros [] p4 Hg4 He4 _. step ltac:(by apply safe_drop). intros [] p5 Hg5 He5 _.
  step ltac:(by apply safe_list). intros body p6 Hg6 He6 [Hbody Hc]. unfold list_kind in Hbody. cbn [orb] in Hbody.
  step ltac:(by apply safe_terminator). intros [[tm from] to] p7 Hg7 He7 Htm.
  step ltac:(eapply safe_adopt_host; [done|by eapply case_answers]). intros t p8 Hg8 He8 [(l' & -> & El) Hbeside].
  apply safe_ret; [done|]. exists l'. advance.
  assert (words_good p8 (items v)) as Hv8.
  { eapply words_later; [|exact Hv]. eapply ev_trans; [exact He4|]. eapply ev_trans; [exact He5|].
    eapply ev_trans; [exact He6|]. by eapply ev_trans. }
  split; [done|by eapply (case_snoc p8 node w l l' (mk_case_item v body tm from to))| |].
  - rewrite El. apply Forall_app. split; [done|by constructor].
  - rewrite El, removelast_last. destruct Htm as [H|(f' & H)]; [left|right].
    + apply Forall_app. split; [done|by constructor].
    + split; [done|]. exists f'. by rewrite (bs_frames _ _ Hbeside).
Qed.

Lemma safe_parse_case n node p : good p -> bare p node -> safe n (parse_case fuel parse_list_ node) p (fun t p' => compound p' t).
Proof.
  intros Hg Hb. unfold parse_case. step ltac:(by apply safe_drop). intros [] p1 Hg1 He1 _.
  step ltac:(by apply safe_expect). intros [] p2 Hg2 He2 (f & E & Hf & Hk & _).
  destruct (ps_frames p2) as [|f0 rest] eqn:E2; [done|]. injection E as ->.
  step ltac:(by eapply safe_take_word). intros w p3 Hg3 He3 (Ew & Hw & _ & _). rewrite <- Ew in Hk. clear Ew.
  step ltac:(by apply safe_skip_newlines). intros b p4 Hg4 He4 _. step ltac:(by apply safe_keyword). intros node1 p5 Hg5 He5 [pos ->]. advance.
  apply (safe_loop n (fun t q => exists l, case_node q t w l)).
  - intros t q Hq [l Hl]. eapply safe_mono; [by eapply safe_case_step|]. by intros [t'|t'] q' _ _ H.
  - done.
  - exists no_items. split; [done|apply bare_end, bare_data; [done|by constructor..]|constructor|left; constructor].
Qed.

Lemma safe_parse_group n node c p : good p -> bare p node -> c <> CLOSE_NONE -> ast_kind node = CSH_AST_SUBSHELL \/ ast_kind node = CSH_AST_BRACE ->
  safe n (parse_group parse_list_ node c) p (fun t p' => compound p' t).
Proof.
  intros Hg Hb Hc Hk. unfold parse_group. step ltac:(by apply safe_drop). intros [] p1 Hg1 He1 _.
  step ltac:(by apply safe_nested). intros body p2 Hg2 He2 [Hbody _]. apply safe_frame; [done|]. intros f rest E.
  step ltac:(by apply safe_drop). intros [] p3 Hg3 He3 _. apply safe_ret; [done|]. advance. apply compound_end.
  assert (forall d, d = Subshell (Some body) \/ d = Brace (Some body) -> compound p3 (with_ast_data node d)) as H.
  { intros d Hd. split; [|destruct Hd as [-> | ->]; (split; [by eexists|done])].
    apply bare_data; [done|by destruct Hd as [-> | ->]; constructor..|]. destruct Hd as [-> | ->]; apply children_option; by intros x [= <-]. }
  apply H. unfold ast_kind in Hk. destruct (ast_data node); destruct Hk as [Hk|Hk]; try done; [by left|by right].
Qed.

(** Kinds that [compound_kind] gives. *)
Definition group_kind (k : csh_ast_kind) : bool :=
  match k with
  | CSH_AST_SUBSHELL | CSH_AST_BRACE | CSH_AST_IF | CSH_AST_FOR | CSH_AST_WHILE | CSH_AST_UNTIL | CSH_AST_CASE => true
  | _ => false
  end.

Lemma compound_kind_group t k : compound_kind t = Some k -> group_kind k = true.
Proof. unfold compound_kind. repeat case_match; by intros [= <-]. Qed.

Lemma safe_stack n p : good p -> safe n csh_stack_check p (fun _ p' => beside p p').
Proof.
  intros Hg. unfold safe, ppost, csh_stack_check. destruct (ps_stack p) as [|b l].
  - split; [done|]. split; [by apply ev_refl|done].
  - split; [|split; [by apply beside_evolves|done]]. eapply beside_good; [exact Hg|done|apply Hg|apply Hg|apply Hg].
Qed.

Lemma safe_compound n kind p : good p -> group_kind kind = true ->
  safe n (parse_compound fuel parse_list_ kind) p (fun t p' => compound p' t).
Proof.
  intros Hg Hk. unfold parse_compound. step ltac:(by apply safe_stack). intros ok p1 Hg1 _ _. destruct ok; cbn [negb]; [|by apply safe_fail_here].
  step ltac:(by apply safe_node). intros node p2 Hg2 _ [-> _]. step ltac:(by apply safe_position). intros pos p3 Hg3 _ _. cbv zeta.
  set (node := with_start _ pos). assert (bare p3 node) as Hb by apply bare_start, bare_new.
  assert (ast_data node = empty_data kind) as Ed by done. clearbody node.
  assert (ast_kind node = kind) as Ek by (unfold ast_kind; rewrite Ed; by destruct kind).
  destruct kind; try done; first [by apply safe_parse_case|by apply safe_parse_for|idtac].
  - apply safe_parse_group; auto.
  - apply safe_parse_group; auto.
  - by apply safe_parse_if.
  - apply safe_parse_loop; auto.
  - apply safe_parse_loop; auto.
Qed.

(** ** Commands *)

Definition decorated (p : csh_parser) (d : csh_ast_data csh_ast) (t : csh_ast) : Prop := parts p t /\ ast_data t = d.

Lemma decorated_later n p q d t : evolves n p q -> decorated p d t -> decorated q d t.
Proof. intros He [H1 H2]. split; [by eapply parts_later|done]. Qed.

Lemma redirection_parts p q n node t : evolves n p q -> parts p node -> with_redirection node q t ->
  decorated q (ast_data node) t /\ has_redirections t = true.
Proof.
  intros He Hp (_ & Ed & a & Er & Ha). destruct (parts_later _ _ _ _ He Hp) as [H1 H2 H3 H4].
  split; [split; [|done]|unfold has_redirections; rewrite Er; by destruct (items (redirections node))].
  split; [rewrite Er; apply Forall_app; split; [done|by constructor]|by rewrite Ed..].
Qed.

Lemma safe_add_redirection n node descriptor p f rest : good p -> ps_frames p = f :: rest -> has_look f = true -> parts p node ->
  match descriptor with Some d => io_number (token d) = true | None => True end ->
  safe n (parse_redirection fuel parse_list_ node descriptor) p (fun t p' => decorated p' (ast_data node) t /\ has_redirections t = true).
Proof.
  intros Hg E Hf Hp Hd. eapply safe_mono; [by eapply safe_redirection|]. intros t p' _ He H. by eapply redirection_parts.
Qed.

Lemma safe_look_redirects n p f rest : good p -> ps_frames p = f :: rest -> safe n look_redirects p (fun _ p' => p' = p).
Proof.
  intros Hg E. unfold look_redirects. step ltac:(by eapply safe_look_kind). intros kind p' Hg' _ [-> _]. by apply safe_ret.
Qed.

Lemma safe_trailing_step n node p : good p -> parts p node ->
  safe n (trailing_step fuel parse_list_ node) p (fun r p' => match r with
    | inl t => decorated p' (ast_data node) t | inr t => decorated p' (ast_data node) t end).
Proof.
  intros Hg Hp. unfold trailing_step. step ltac:(by apply safe_peek). intros b p1 Hg1 He1 Hl. advance.
  destruct b; cbn [negb]; [|by apply safe_ret]. apply safe_frame; [done|]. intros f rest E. cbv zeta.
  pose proof (looking_frame _ _ _ _ Hl E) as Hf. apply safe_if; intros _.
  { step ltac:(by eapply safe_add_redirection). intros t p2 Hg2 _ [H _]. by apply safe_ret. }
  apply safe_if; intros Hio; [|by apply safe_ret]. apply andb_true_iff in Hio as [_ Hio].
  step ltac:(by apply safe_follows). intros adjacent p2 Hg2 He2 Hb2. pose proof (beside_frames _ _ _ _ Hb2 E) as E2.
  step ltac:(by eapply safe_take_word). intros d p3 Hg3 He3 (-> & _). step ltac:(by apply safe_peek). intros b p4 Hg4 He4 Hl4.
  destruct (good_frames p4 Hg4) as (f4 & rest4 & E4). step ltac:(by eapply safe_look_redirects). intros rd p5 _ _ ->. advance.
  apply safe_if; intros Hc; [|by apply safe_fail_at].
  apply andb_true_iff in Hc as [[_ ->]%andb_true_iff _].
  step ltac:(eapply safe_add_redirection; [done|exact E4|by eapply looking_frame|done|done]). intros t p5 Hg5 _ [H _]. by apply safe_ret.
Qed.

Lemma safe_trailing n node p : good p -> parts p node ->
  safe n (trailing_redirections fuel parse_list_ node) p (fun t p' => decorated p' (ast_data node) t).
Proof.
  intros Hg Hp. apply (safe_loop n (fun t q => decorated q (ast_data node) t)); [|done|by split]. intros t q Hq [H1 H2].
  rewrite <- H2. eapply safe_mono; [by apply safe_trailing_step|]. by intros [t'|t'] q' _ _ H.
Qed.

Lemma compound_parsed p t : compound p t -> parsed p PCompound t.
Proof. intros (H1 & H2 & H3). by apply bare_compound. Qed.

(** The shape of a compound command does not change with its redirections. *)
Lemma compound_shape b d : data_shape false false d -> admits PCompound (data_kind d) = true -> data_shape false b d.
Proof. destruct d; by destruct b. Qed.

Lemma compound_decorated p t d : compound p t -> ast_data t = d -> forall q u, decorated q d u -> parsed q PCommand u.
Proof.
  intros (_ & H2 & H3) Ed q u [Hp Hu]. apply parts_parsed; [done| |].
  - unfold ast_kind in *. rewrite Hu, <- Ed. by destruct (ast_data t).
  - rewrite Hu, <- Ed. by apply compound_shape.
Qed.

Lemma safe_function n name p : good p -> is_word name -> word_good p name ->
  safe n (parse_function fuel parse_list_ name) p (fun t p' => parsed p' PCommand t).
Proof.
  intros Hg Hw Hgood. unfold parse_function. destruct (valid_name (token name)) eqn:Ename; cbn [negb]; [|by apply safe_fail_at].
  step ltac:(by apply safe_node). intros node p1 Hg1 He1 [-> _]. cbv zeta. set (node := with_ast_data _ _).
  step ltac:(by apply safe_drop). intros [] p2 Hg2 He2 _. step ltac:(by apply safe_expect). intros [] p3 Hg3 He3 _.
  step ltac:(by apply safe_drop). intros [] p4 Hg4 He4 _. step ltac:(by apply safe_skip_newlines). intros b p5 Hg5 He5 _.
  apply safe_frame; [done|]. intros f rest E. destruct b; cbn [negb]; [|by apply safe_fail_here].
  destruct (compound_kind (token (look f))) as [kind|] eqn:Ek; [|by apply safe_fail_here].
  step ltac:(by eapply safe_compound; [|by eapply compound_kind_group]). intros body p6 Hg6 He6 Hbody. advance.
  set (t := with_end _ _). assert (parts p6 t) as Ht.
  { split; [exact (List.Forall_nil _)|by constructor|by constructor|].
    apply children_option. intros x [= <-]. by apply compound_parsed. }
  eapply safe_mono; [by apply safe_trailing|]. intros u q _ _ [Hu Eu]. apply parts_parsed; [done|unfold ast_kind; by rewrite Eu|].
  rewrite Eu. split; [done|]. exists body. split; [done|]. apply Hbody.
Qed.

(** ** Simple commands *)

Lemma assignments_true l k : forallb id (assignments l) = true -> assignments (l ++ [k]) = assignments l ++ [assignment k].
Proof.
  induction l as [|x l IH]; cbn; [by destruct (assignment k)|]. destruct (assignment x); cbn; [|done]. intros H. by rewrite IH.
Qed.

Lemma assignments_false l k : forallb id (assignments l) = false -> assignments (l ++ [k]) = assignments l ++ [false].
Proof.
  induction l as [|x l IH]; cbn; [done|]. destruct (assignment x); cbn; [|by rewrite map_app]. intros H. by rewrite IH.
Qed.

(** A simple command while it is read. *)
Inductive simple_state (p : csh_parser) (s : command_state) : Prop := mk_simple_state (v : vector (csh_ast_command_word csh_ast)) :
  ast_data (cs_node s) = Simple v -> parts p (cs_node s) ->
  map cw_assignment (items v) = assignments (map (fun w => token (cw_word w)) (items v)) ->
  command_name s = negb (forallb id (map cw_assignment (items v))) ->
  prefix s = negb (bool_decide (items v = [])) || has_redirections (cs_node s) ->
  (has_redirections (cs_node s) = false -> forall w, head (items v) = Some w -> reserved (token (cw_word w)) = false) ->
  simple_state p s.

Lemma simple_parts p s : simple_state p s -> parts p (cs_node s).
Proof. by intros []. Qed.

Lemma simple_later n p q s : evolves n p q -> simple_state p s -> simple_state q s.
Proof. intros He [v H1 H2 H3 H4 H5 H6]. exists v; try done. by eapply parts_later. Qed.

Lemma add_word_answers node v w b : ast_data node = Simple v ->
  answers (csh_ast_add_word node w b) (fun t => exists v', t = with_ast_data node (Simple v') /\ items v' = items v ++ [mk_command_word w b]).
Proof. intros E. unfold csh_ast_add_word. rewrite E. apply appended_answers. intros v' Hv. by exists v'. Qed.

(** One more redirection. *)
Lemma simple_redirection p s t : simple_state p s -> decorated p (ast_data (cs_node s)) t -> has_redirections t = true ->
  simple_state p (mk_command_state t (command_name s) true).
Proof.
  intros [v H1 H2 H3 H4 H5 H6] [T1 T2] Hr. exists v; cbn [cs_node command_name prefix]; try done.
  - by rewrite T2.
  - by rewrite Hr, orb_true_r.
  - by rewrite Hr.
Qed.

(** One more word. *)
Lemma simple_word p s w pos v v' : simple_state p s -> is_word w -> word_good p w ->
  (command_name s = false -> prefix s = false -> reserved (token w) = false) -> ast_data (cs_node s) = Simple v ->
  let b := negb (command_name s) && assignment (token w) in items v' = items v ++ [mk_command_word w b] ->
  simple_state p (mk_command_state (with_ast_data (with_end (cs_node s) pos) (Simple v')) (command_name s || negb b) true).
Proof.
  intros [v0 H1 [P1 P2 P3 P4] H3 H4 H5 H6] Hw Hg Hr Ed b Ev. rewrite Ed in H1. injection H1 as <-. rewrite Ed in P2, P3.
  exists v'; cbn [cs_node command_name prefix ast_data with_ast_data].
  - done.
  - split; [done| | |constructor]; cbn [data_words ast_data with_ast_data] in *; rewrite Ev, map_app; apply Forall_app; (split; [done|by constructor]).
  - rewrite Ev, !map_app. cbn [map cw_word cw_assignment]. subst b. rewrite H4, H3. set (l := map _ (items v)).
    destruct (forallb id (assignments l)) eqn:Ea; [rewrite assignments_true by done|rewrite assignments_false by done]; done.
  - rewrite Ev, map_app, forallb_app. cbn. rewrite H4. unfold id. by destruct (forallb _ _), b.
  - rewrite bool_decide_eq_false_2; [done|]. rewrite Ev. by destruct (items v).
  - unfold has_redirections in *. cbn [redirections with_ast_data with_end]. intros Hnone x. rewrite Ev. destruct (items v) as [|y l] eqn:Ei.
    + intros [= <-]. cbn. apply Hr; [by rewrite H4|by rewrite H5, Hnone].
    + cbn. intros [= <-]. by apply H6.
Qed.

Lemma simple_parsed p s : simple_state p s -> empty_command (cs_node s) = false -> parsed p PCommand (cs_node s).
Proof.
  intros [v H1 H2 H3 H4 H5 H6] He. apply parts_parsed; [done|unfold ast_kind; by rewrite H1|]. rewrite H1. split; [done|]. split; [|done].
  intros Hn. unfold empty_command in He. rewrite H1, Hn, andb_true_r in He. unfold has_redirections. by rewrite He.
Qed.

Lemma safe_candidate n t p : good p ->
  safe n (if io_number t then follows_redirection else pret false) p (fun b p' => beside p p' /\ (b = true -> io_number t = true)).
Proof.
  intros Hg. apply safe_if; intros Hio; [|by apply safe_ret]. eapply safe_mono; [by apply safe_follows|]. intros b p' _ _ Hb. by split.
Qed.

Lemma safe_command_step n s p : good p -> simple_state p s ->
  safe n (command_step fuel parse_list_ s) p (fun r p' => match r with
    | inl s' => simple_state p' s'
    | inr (inl f) => parsed p' PCommand f
    | inr (inr node) => exists s', cs_node s' = node /\ simple_state p' s' end).
Proof.
  intros Hg Hs. unfold command_step. cbv zeta. step ltac:(by apply safe_peek_alias). intros b p1 Hg1 He1 Hl.
  apply (simple_later _ _ _ _ He1) in Hs. destruct b; cbn [negb]; [|apply safe_ret; [done|by exists s]].
  apply safe_frame; [done|]. intros f rest E. pose proof (looking_frame _ _ _ _ Hl E) as Hf. apply safe_if; intros _.
  { step ltac:(by eapply safe_add_redirection; [..|apply simple_parts|]). intros t p2 Hg2 He2 [H1 H2].
    apply safe_ret; [done|]. apply simple_redirection; [by eapply simple_later|done|done]. }
  destruct (bool_decide _) eqn:Ek; cbn [negb]; [apply bool_decide_eq_true in Ek|apply safe_ret; [done|by exists s]].
  apply safe_if; intros Hres; [by apply safe_fail_here|].
  step ltac:(by apply safe_candidate). intros candidate p2 Hg2 He2 [Hb2 Hcand]. pose proof (beside_frames _ _ _ _ Hb2 E) as E2.
  step ltac:(by eapply safe_take_word). intros w p3 Hg3 He3 (-> & Hw & _). step ltac:(by apply safe_peek). intros b p4 Hg4 He4 Hl4.
  destruct (good_frames p4 Hg4) as (f4 & rest4 & E4). step ltac:(by eapply safe_look_kind). intros kind p5 _ _ [-> _].
  advance. apply (simple_later _ _ _ _ He2), (simple_later _ _ _ _ He3), (simple_later _ _ _ _ He4) in Hs. clear He1 He2 He3 He4.
  apply safe_if; intros Hfun.
  { step ltac:(by apply safe_function). intros t p5 Hg5 _ Ht. by apply safe_ret. }
  apply safe_if; intros Hred.
  { apply andb_true_iff in Hred as [[Hc ->]%andb_true_iff _].
    step ltac:(eapply safe_add_redirection; [done|exact E4|by eapply looking_frame|by apply simple_parts|by apply Hcand]).
    intros t p5 Hg5 He5 [H1 H2]. apply safe_ret; [done|]. apply simple_redirection; [by eapply simple_later|done|done]. }
  pose proof Hs as [v Ed _ _ _ _ _]. step ltac:(by eapply safe_adopt_host, add_word_answers). intros t p5 Hg5 He5 [(v' & -> & Ev) _].
  apply safe_ret; [done|]. eapply simple_word; [by eapply simple_later|done|by eapply word_evolves| |exact Ed|done].
  intros Hn Hp. rewrite Hn, Hp in Hres. cbn [negb andb] in Hres. exact Hres.
Qed.

Lemma safe_command n p : good p -> safe n (parse_command fuel parse_list_) p (fun t p' => parsed p' PCommand t).
Proof.
  intros Hg. unfold parse_command. step ltac:(by apply safe_peek_alias). intros b p1 Hg1 _ _. destruct b; cbn [negb]; [|by apply safe_fail_here].
  apply safe_frame; [done|]. intros f rest E. cbv zeta. destruct (compound_kind _) as [kind|] eqn:Ek.
  - step ltac:(by eapply safe_compound; [|by eapply compound_kind_group]). intros t p2 Hg2 _ Hc.
    eapply safe_mono; [apply safe_trailing; [done|apply Hc]|]. intros u q _ _ Hu. exact (compound_decorated _ _ _ Hc eq_refl _ _ Hu).
  - step ltac:(by apply safe_node). intros node p2 Hg2 _ [-> _]. set (s0 := mk_command_state _ false false).
    step ltac:(apply (safe_loop n (fun s q => simple_state q s)) with (Q := fun r q => match r with
      | inl t => parsed q PCommand t | inr node => exists s', cs_node s' = node /\ simple_state q s' end)).
    + intros s q Hq Hs. eapply safe_mono; [by apply safe_command_step|]. by intros [s'|[t|t]] q' _ _ H.
    + done.
    + by exists no_items.
    + intros [t|t] p3 Hg3 _ H; [by apply safe_ret|]. destruct H as (s & <- & Hs). destruct (empty_command (cs_node s)) eqn:Ee; [by apply safe_fail_at|].
      apply safe_ret; [done|]. by apply simple_parsed.
Qed.

(** ** Pipelines *)

Lemma pipeline_answers node v b child : ast_data node = Pipeline v b ->
  answers (csh_ast_pipeline_add node child) (fun t => exists v', t = with_ast_data node (Pipeline v' b) /\ items v' = items v ++ [child]).
Proof. intros E. unfold csh_ast_pipeline_add. rewrite E. apply appended_answers. intros v' Hv. by exists v'. Qed.

Definition pipeline_node (p : csh_parser) (t : csh_ast) (v : vector csh_ast) (b : bool) : Prop := ast_data t = Pipeline v b /\ bare p t.

Lemma pipeline_children p v b : Forall (fun c => parsed p (fst c) (snd c)) (data_children (Pipeline v b)) <-> Forall (parsed p PCommand) (items v).
Proof. cbn [data_children]. by rewrite List.Forall_map. Qed.

Lemma safe_pipeline_add n node v b command p q : good q -> evolves n p q -> pipeline_node p node v b -> parsed q PCommand command ->
  safe n (adopt (in_host (csh_ast_pipeline_add node command))) q
    (fun t p' => exists v', pipeline_node p' t v' b /\ items v' = items v ++ [command] /\ beside q p').
Proof.
  intros Hg He [Ed Hb] Hc. eapply safe_mono; [by eapply safe_adopt_host, pipeline_answers|]. intros t p' Hg' He' [(v' & -> & Ev) Hbeside].
  exists v'. split; [|done]. split; [done|]. advance. apply bare_data; [done|constructor|constructor|].
  pose proof (pt_children _ _ (proj1 Hb)) as H. rewrite Ed in H. apply pipeline_children in H. apply pipeline_children. rewrite Ev.
  apply Forall_app. split; [done|by constructor].
Qed.

(** A pipeline that can be read on, or is whole. *)
Definition pipeline_whole (b : bool) (v : vector csh_ast) : Prop := items v <> [] /\ (b = false -> (2 <= length (items v))%nat).

Definition more_commands (p : csh_parser) (more : bool) : Prop :=
  more = true /\ exists f, head (ps_frames p) = Some f /\ tk_kind (token (look f)) = CSH_TOKEN_PIPE.

Lemma safe_pipeline_step n node v b more p : good p -> pipeline_node p node v b -> items v <> [] ->
  pipeline_whole b v \/ more_commands p more ->
  safe n (pipeline_step fuel parse_list_ (node, more)) p (fun r p' => exists v', pipeline_whole b v' /\ match r with
    | inl (t, _) => pipeline_node p' t v' b | inr t => pipeline_node p' t v' b end).
Proof.
  intros Hg Hn Hne Hw. unfold pipeline_step. apply safe_frame; [done|]. intros f rest E. cbv zeta. apply safe_if; intros Hmore.
  { apply safe_ret; [done|]. exists v. split; [|done]. destruct Hw as [Hw|(-> & g & Eg & Hk)]; [done|]. rewrite E in Eg. injection Eg as <-.
    by rewrite Hk in Hmore. }
  step ltac:(by apply safe_drop). intros [] p1 Hg1 He1 _. step ltac:(by apply safe_skip_newlines). intros c p2 Hg2 He2 _.
  destruct c; cbn [negb]; [|by apply safe_fail_at]. step ltac:(by apply safe_command). intros command p3 Hg3 He3 Hc.
  assert (evolves n p p3) as He by (eapply ev_trans; [exact He1|by eapply ev_trans]).
  step ltac:(eapply (safe_pipeline_add n _ v b command p p3); [done|done| |done]).
  { destruct Hn as [H1 H2]. split; [done|by apply bare_end]. }
  intros t p4 Hg4 He4 (v' & [Ed Hb] & Ev & _). step ltac:(by apply safe_peek). intros more' p5 Hg5 He5 _. apply safe_ret; [done|].
  exists v'. split; [|by split; [|eapply bare_later]]. unfold pipeline_whole. rewrite Ev, length_app. cbn. destruct (items v); [done|].
  cbn. split; [done|lia].
Qed.

Lemma pipeline_parsed p t v b : pipeline_node p t v b -> pipeline_whole b v -> parsed p PPipeline t.
Proof.
  intros [Ed [Hb Hr]] [H1 H2]. apply parts_parsed; [done|unfold ast_kind; by rewrite Ed|]. rewrite Ed. unfold has_redirections. by rewrite Hr.
Qed.

Lemma command_pipeline p t : parsed p PCommand t -> parsed p PPipeline t.
Proof. intros H. eapply parsed_widens; [exact H|by intros []|done]. Qed.

Lemma pipeline_and_or p t : parsed p PPipeline t -> parsed p PAndOr t.
Proof. intros H. eapply parsed_widens; [exact H|by intros []|done]. Qed.

Lemma safe_pipeline n p : good p -> safe n (parse_pipeline fuel parse_list_) p (fun t p' => parsed p' PPipeline t).
Proof.
  intros Hg. unfold parse_pipeline. step ltac:(by apply safe_position). intros opening p1 Hg1 _ _.
  step ltac:(by apply safe_peek_alias). intros b p2 Hg2 _ _. apply safe_frame; [done|]. intros f rest E. cbv zeta. set (negated := (_ && _)%bool).
  eapply (safe_bind _ _ _ _ (fun _ _ => True)).
  { apply safe_if; intros _; [eapply safe_mono; [by apply safe_drop|done]|by apply safe_ret]. }
  intros [] p3 Hg3 _ _. step ltac:(by apply safe_command). intros command p4 Hg4 _ Hc. step ltac:(by apply safe_peek). intros more p5 Hg5 He5 _.
  destruct (good_frames p5 Hg5) as (g & rest' & E5). step ltac:(by eapply safe_look_kind). intros kind p6 _ _ [-> Ek]. advance.
  apply safe_if; intros Hneg; [apply safe_ret; [done|by apply command_pipeline]|].
  step ltac:(by apply safe_node). intros node p6 Hg6 He6 [-> Hb6].
  step ltac:(eapply (safe_pipeline_add n _ no_items negated command p6 p6); [done|by apply ev_refl| |by advance]).
  { split; [done|]. apply (bare_data p6 (with_end (with_start _ opening) (ast_end command)) (Pipeline no_items negated)); [|by constructor..].
    apply bare_end, bare_start, (bare_new p6 CSH_AST_PIPELINE). }
  intros t p7 Hg7 He7 (v & Hn & Ev & Hb7). clearbody negated.
  eapply safe_mono; [apply (safe_loop n (fun s q => exists v, pipeline_node q (fst s) v negated /\ items v <> [] /\
    (pipeline_whole negated v \/ more_commands q (snd s)))) with (Q := fun t q => exists v, pipeline_whole negated v /\ pipeline_node q t v negated)|].
  - intros [t' m] q Hq (v' & H1 & H2 & H3). eapply safe_mono; [by eapply safe_pipeline_step|]. intros [[t2 m2]|t2] q' _ _ (v2 & W & N).
    + exists v2. split; [done|]. split; [apply W|by left].
    + by exists v2.
  - done.
  - exists v. split; [done|]. split; [by rewrite Ev|]. destruct negated.
    + left. split; [by rewrite Ev|done].
    + right. apply andb_false_iff in Hneg as [?|Hneg]; [done|]. apply orb_false_iff in Hneg as [Hm Hk]. apply negb_false_iff in Hm, Hk.
      split; [done|]. exists g. rewrite (bs_frames _ _ Hb7), (bs_frames _ _ Hb6), E5. split; [done|].
      apply bool_decide_eq_true in Hk. congruence.
  - intros t2 q _ _ (v2 & W & N). by eapply pipeline_parsed.
Qed.

(** ** And-or lists *)

Lemma safe_and_or_step n first p : good p -> parsed p PAndOr first ->
  safe n (and_or_step fuel parse_list_ first) p (fun r p' => match r with inl t => parsed p' PAndOr t | inr t => parsed p' PAndOr t end).
Proof.
  intros Hg Hf. unfold and_or_step. step ltac:(by apply safe_peek). intros b p1 Hg1 He1 _. advance. apply safe_frame; [done|].
  intros f rest E. cbv zeta. set (is_and := bool_decide (_ = CSH_TOKEN_AND_IF)). apply safe_if; intros _; [by apply safe_ret|].
  step ltac:(by apply safe_drop). intros [] p2 Hg2 He2 _. step ltac:(by apply safe_skip_newlines). intros c p3 Hg3 He3 _.
  destruct c; cbn [negb]; [|by apply safe_fail_at]. step ltac:(by apply safe_pipeline). intros second p4 Hg4 He4 Hs.
  step ltac:(by apply safe_node). intros node p5 Hg5 He5 [-> _]. apply safe_ret; [done|]. advance. set (d := if is_and then And (Some first) (Some second) else Or (Some first) (Some second)).
  assert (d = And (Some first) (Some second) \/ d = Or (Some first) (Some second)) as Hd by (destruct is_and; auto).
  apply parts_parsed.
  - split; [exact (List.Forall_nil _)|destruct Hd as [Hd|Hd]; cbn; rewrite Hd; by constructor..|].
    destruct Hd as [Hd|Hd]; cbn [ast_data with_ast_data]; rewrite Hd; (constructor; [done|by constructor]).
  - unfold ast_kind. cbn. by destruct Hd as [-> | ->].
  - cbn. destruct Hd as [-> | ->]; split_and!; try (by eexists); done.
Qed.

Lemma safe_and_or n p : good p -> safe n (parse_and_or fuel parse_list_) p (fun t p' => parsed p' PAndOr t).
Proof.
  intros Hg. unfold parse_and_or. step ltac:(by apply safe_pipeline). intros first p1 Hg1 _ Hf.
  apply (safe_loop n (fun t q => parsed q PAndOr t)); [|done|by apply pipeline_and_or]. intros t q Hq Ht. by apply safe_and_or_step.
Qed.

End Productions.
