(* ===== verification/GrammarLists.v ===== *)
(** * The parser: lists

    The productions of lists and [parse_list] itself, by induction on the depth
    of the nesting, with what [csh_parser_next] gives its caller. *)

From stdpp Require Import base list gmap strings sorting.
From S2P Require Import Prelude Output State Arithmetic Character Quote Alias Descriptors Input InputTheorems Expansion Lexer LexerLook LexerTree LexerSafety LexerTurns LexerTotal LexerCalls LexerKinds ParserLexer Ast Parser ParserLogic ParserSafety Grammar GrammarLook GrammarTree.

Section Lists.
Context {loc : Locale} {LL : LocaleLaws loc} {ST : StableLocale loc} {db : LocaleDb}.
Context (fuel : nat) (parse_list_ : closing -> bool -> csh_position -> P csh_ast).
Hypothesis safe_list : forall n c empty pos p, good p ->
  safe n (parse_list_ c empty pos) p (fun t p' => parsed p' (list_kind c empty) t /\ closed c p').

Lemma list_answers node v i : ast_data node = List v ->
  answers (csh_ast_list_add node i) (fun t => exists v', t = with_ast_data node (List v') /\ items v' = items v ++ [i]).
Proof. intros E. unfold csh_ast_list_add. rewrite E. apply appended_answers. intros v' Hv. by exists v'. Qed.

Definition list_node (p : csh_parser) (t : csh_ast) (v : vector (csh_ast_list_item csh_ast)) : Prop := ast_data t = List v /\ bare p t.

Lemma list_children p v : Forall (fun c => parsed p (fst c) (snd c)) (data_children (List v)) <->
  Forall (fun i => parsed p PAndOr (it_command i)) (items v).
Proof. cbn [data_children]. by rewrite List.Forall_map. Qed.

Definition separated (i : csh_ast_list_item csh_ast) : Prop := separator i <> CSH_AST_END.

Lemma list_parsed p t v empty : list_node p t v -> (empty = false -> items v <> []) -> Forall separated (removelast (items v)) ->
  parsed p (PList empty) t.
Proof.
  intros [Ed [Hb Hr]] H1 H2. apply parts_parsed; [done|unfold ast_kind; by rewrite Ed|]. rewrite Ed. unfold has_redirections. by rewrite Hr.
Qed.

Lemma safe_list_add n node v i p q : good q -> evolves n p q -> list_node p node v -> parsed q PAndOr (it_command i) ->
  safe n (adopt (in_host (csh_ast_list_add node i))) q
    (fun t p' => exists v', list_node p' t v' /\ items v' = items v ++ [i] /\ beside q p').
Proof.
  intros Hg He [Ed Hb] Hc. eapply safe_mono; [by eapply safe_adopt_host, list_answers|]. intros t p' Hg' He' [(v' & -> & Ev) Hbeside].
  exists v'. split; [|done]. split; [done|]. advance. apply bare_data; [done|constructor|constructor|].
  pose proof (pt_children _ _ (proj1 Hb)) as H. rewrite Ed in H. apply list_children in H. apply list_children. rewrite Ev.
  apply Forall_app. split; [done|by constructor].
Qed.

(** The last command of an and-or list is there. *)
Lemma ends_some p x t : parsed p x t -> is_Some (ends_with_redirection t).
Proof.
  induction 1 as [x t H1 H2 H3 H4 H5 H6 IH]. destruct t as [s e r d]. cbn in H2, H6, IH.
  assert (forall y u, (y, u) ∈ data_children d -> is_Some (ends_with_redirection u)) as Hc.
  { intros y u Hu. eapply IH. by apply in_data. }
  destruct d as [|commands b|l o|l o| | | | | | | | | ]; cbn [ends_with_redirection ast_data]; try by eexists.
  - destruct H2 as [Hne _]. destruct (last (items commands)) eqn:El; [by eexists|]. by apply last_None in El.
  - destruct H2 as (_ & [u ->] & _). eapply Hc. apply elem_of_app. right. by apply list_elem_of_singleton.
  - destruct H2 as (_ & [u ->] & _). eapply Hc. apply elem_of_app. right. by apply list_elem_of_singleton.
Qed.

(** The list behind an item: it goes on, or it is whole. *)
Definition going (p : csh_parser) (t : csh_ast) : Prop := exists v, list_node p t v /\ items v <> [] /\ Forall separated (items v).
Definition whole (c : closing) (p : csh_parser) (t : csh_ast) : Prop :=
  (exists v, list_node p t v /\ (c <> CLOSE_NONE -> items v <> []) /\ Forall separated (removelast (items v))) /\ closed c p.

(** No here-document of the frame waits for its body. *)
Definition settled (p : csh_parser) : Prop := exists f, head (ps_frames p) = Some f /\ documents f = [].

Lemma going_whole c p t : going p t -> closed c p -> whole c p t.
Proof. intros (v & H1 & H2 & H3) Hc. split; [|done]. exists v. split; [done|]. split; [done|]. by apply removelast_forall. Qed.

Lemma going_later n p q t : evolves n p q -> going p t -> going q t.
Proof. intros He (v & [H1 H2] & H3). exists v. split; [split; [done|by eapply bare_later]|done]. Qed.

Lemma none_closed p : closed CLOSE_NONE p.
Proof. by intros H. Qed.

(** The separator of an item: without one the list ends at its closing token. *)
Lemma safe_separator n c command b f p rest : good p -> ps_frames p = f :: rest -> parsed p PAndOr command ->
  let separator := if (b : bool) then separator_of (tk_kind (token (look f))) else CSH_AST_END in
  safe n (if b && bool_decide (separator = CSH_AST_END) then
        if negb (at_close f c) then fail_here CSH_PARSE_ERROR (bs "expected command separator") ENONE
        else if bool_decide (tk_kind (token (look f)) = CSH_TOKEN_WORD) then
          match ends_with_redirection command with
          | None => pcrash
          | Some true => fail_here CSH_PARSE_ERROR (bs "expected command separator") ENONE
          | Some false => pret tt
          end
        else pret tt
      else pret tt) p (fun _ p' => p' = p /\ (b = true -> separator = CSH_AST_END -> closed c p)).
Proof.
  intros Hg E Hc separator. apply safe_if; intros Hs.
  - destruct (at_close f c) eqn:Ec; cbn [negb]; [|by apply safe_fail_here].
    assert (closed c p) as Hcl by (intros _; exists f; by rewrite E). apply safe_if; intros _; [|by apply safe_ret].
    destruct (ends_some _ _ _ Hc) as [[|] ->]; [by apply safe_fail_here|by apply safe_ret].
  - apply safe_ret; [done|]. split; [done|]. intros -> Hsep. by rewrite bool_decide_eq_true_2 in Hs.
Qed.

Lemma safe_list_item n c opening b node v p : good p -> list_node p node v -> Forall separated (items v) ->
  safe n (list_item fuel parse_list_ c opening b node) p (fun r p' => match r with
    | inl (_, t) => going p' t
    | inr (t, d) => whole c p' t /\ (d = true -> settled p') end).
Proof.
  intros Hg Hn Hv. unfold list_item. apply safe_if; intros Hb.
  { apply safe_if; intros Hc; [|by apply safe_fail_at]. apply bool_decide_eq_true in Hc. apply safe_ret; [done|]. subst c.
    split; [|done]. split; [|apply none_closed]. exists v. split; [done|]. split; [done|]. by apply removelast_forall. }
  step ltac:(by apply safe_and_or). intros command p1 Hg1 He1 Hc. cbv zeta. set (list1 := if (_ =? 0)%nat then _ else _).
  assert (list_node p1 list1 v) as Hn1.
  { destruct Hn as [H1 H2]. advance. subst list1. by destruct (_ =? 0)%nat; [split; [|apply bare_start]|]. }
  clearbody list1. step ltac:(by apply safe_peek). intros b' p2 Hg2 He2 Hl. apply safe_frame; [done|]. intros f rest E. cbv zeta.
  set (sep := if b' then _ else _). advance. rewrite negb_involutive.
  step ltac:(by eapply safe_separator). intros [] p3 _ _ [-> Hcl]. fold sep in Hcl.
  set (found := negb (bool_decide (sep = CSH_AST_END))). set (item := mk_list_item _ _ _ _).
  step ltac:(eapply (safe_list_add n _ v item p2 p2); [done|by apply ev_refl| |done]).
  { destruct Hn1 as [H1 H2]. advance. destruct found; (split; [done|]); repeat apply bare_end; done. }
  intros t p4 Hg4 He4 (v' & Hn4 & Ev & Hb4).
  assert (sep <> CSH_AST_END -> going p4 t) as Hgoing.
  { intros Hs. exists v'. split; [done|]. split; [by rewrite Ev; destruct (items v)|]. rewrite Ev. apply Forall_app. split; [done|by constructor]. }
  assert (closed c p4 -> whole c p4 t) as Hwhole.
  { intros Hcl4. split; [|done]. exists v'. split; [done|]. rewrite Ev, removelast_last. split; [by destruct (items v)|done]. }
  assert (closed c p2 -> closed c p4) as Hmove by (unfold closed; by rewrite (bs_frames _ _ Hb4)).
  destruct sep eqn:Es.
  - apply safe_if; intros Hend; [by apply safe_fail_at|]. apply safe_ret; [done|]. split; [|done]. apply Hwhole, Hmove. destruct b'; [by apply Hcl|].
    apply negb_false_iff, bool_decide_eq_true in Hend. subst c. apply none_closed.
  - step ltac:(by apply safe_drop). intros [] p5 Hg5 He5 _. apply safe_ret; [done|]. eapply going_later; [exact He5|by apply Hgoing].
  - step ltac:(by apply safe_drop). intros [] p5 Hg5 He5 _. apply safe_ret; [done|]. eapply going_later; [exact He5|by apply Hgoing].
  - step ltac:(by apply safe_newline). intros [] p5 Hg5 He5 [_ Hset]. assert (going p5 t) as H5 by (eapply going_later; [exact He5|by apply Hgoing]).
    apply safe_if; intros Hc5; apply safe_ret; try done. apply bool_decide_eq_true in Hc5. subst c. split; [|done]. apply going_whole; [done|apply none_closed].
Qed.

Lemma safe_list_step n c opening s p : good p -> (exists v, list_node p (snd s) v /\ Forall separated (items v)) ->
  safe n (list_step fuel parse_list_ c opening s) p (fun r p' => match r with
    | inl s' => exists v, list_node p' (snd s') v /\ Forall separated (items v)
    | inr (t, d) => whole c p' t /\ (d = true -> settled p') end).
Proof.
  intros Hg (v & Hn & Hv). unfold list_step. step ltac:(by eapply safe_list_item; eauto). intros [[b t]|[t done]] p1 Hg1 He1 H.
  2: by apply safe_ret.
  step ltac:(by apply safe_peek_alias). intros b' p2 Hg2 He2 _. apply safe_frame; [done|]. intros f rest E.
  apply (going_later _ _ _ _ He2) in H. apply safe_if; intros Hc.
  - step ltac:(by apply safe_newline). intros [] p3 Hg3 He3 [_ Hset]. apply safe_ret; [done|]. apply (going_later _ _ _ _ He3) in H. split; [|done].
    assert (c = CLOSE_NONE) as ->. { by apply andb_true_iff in Hc as [[Hc%bool_decide_eq_true _]%andb_true_iff _]. }
    apply going_whole; [|apply none_closed]. destruct H as (v' & [H1 H2] & H3). exists v'. split; [split; [done|by apply bare_end]|done].
  - eapply (safe_bind _ _ _ _ (fun _ _ => True)).
    { apply safe_if; intros _; [by apply safe_ret|]. eapply safe_mono; [by apply safe_skip_newlines|done]. }
    intros b2 p3 Hg3 He3 _. apply safe_frame; [done|]. intros g rest3 E3. apply safe_ret; [done|]. apply (going_later _ _ _ _ He3) in H.
    destruct (at_close g c) eqn:Ec.
    + split; [|done]. apply going_whole; [done|]. intros _. exists g. by rewrite E3.
    + destruct H as (v' & H1 & _ & H3). by exists v'.
Qed.

Lemma whole_parsed c p t empty : whole c p t -> parsed p (list_kind c empty) t /\ closed c p.
Proof.
  intros [(v & H1 & H2 & H3) H4]. split; [|done]. eapply list_parsed; [exact H1| |done]. intros He. apply H2.
  apply orb_false_iff in He as [_ He]. by apply bool_decide_eq_false in He.
Qed.

Lemma safe_list_body n c empty opening p : good p ->
  safe n (list_body fuel parse_list_ c empty opening) p (fun t p' => (parsed p' (list_kind c empty) t /\ closed c p') /\ (c = CLOSE_NONE -> settled p')).
Proof.
  intros Hg. unfold list_body. step ltac:(by apply safe_node). intros node p1 Hg1 He1 [-> _]. cbv zeta.
  set (node := with_end _ opening). assert (forall q, list_node q node no_items) as Hnode.
  { intros q. split; [done|]. apply bare_end, bare_start, (bare_new q CSH_AST_LIST). }
  step ltac:(by apply safe_skip_newlines). intros b p2 Hg2 He2 _. apply safe_frame; [done|]. intros f rest E.
  apply safe_if; intros Hc.
  { apply safe_if; intros He; [|by apply safe_fail_here]. apply safe_ret; [done|]. subst empty. split; [split|].
    - eapply list_parsed; [apply Hnode|done|constructor].
    - intros _. exists f. by rewrite E.
    - intros ->. by apply andb_true_iff in Hc as [_ Hc]. }
  step ltac:(apply (safe_loop n (fun s q => exists v, list_node q (snd s) v /\ Forall separated (items v))) with (Q := fun r q => whole c q r.1 /\ (r.2 = true -> settled q))).
  - intros s q Hq Hs. eapply safe_mono; [by apply safe_list_step|]. by intros [s'|[t d]] q' _ _ H.
  - done.
  - exists no_items. split; [apply Hnode|constructor].
  - intros [t d] p3 Hg3 _ [H Hset]. apply safe_frame; [done|]. intros g rest3 E3.
    assert ((c = CLOSE_NONE -> settled p3) -> safe n (pret t) p3
      (fun t p' => (parsed p' (list_kind c empty) t /\ closed c p') /\ (c = CLOSE_NONE -> settled p'))) as Hret.
    { intros Hs. apply safe_ret; [done|]. split; [by apply whole_parsed|done]. }
    destruct (documents g) as [|a l] eqn:Ed; [apply Hret; intros _; exists g; by rewrite E3|]. apply safe_if; intros Hc'.
    2: { apply Hret. intros ->. apply Hset. by destruct d. }
    pose proof (st_frames _ (g_stored _ Hg3)) as Hfr. rewrite E3 in Hfr. apply Forall_cons in Hfr as [[Hd _] _]. rewrite Ed in Hd.
    apply Forall_cons in Hd as [(r & Hr & _) _]. eapply (get_run n a r); [done|]. by apply safe_fail_at.
Qed.
End Lists.

Section Calls.
Context {loc : Locale} {LL : LocaleLaws loc} {ST : StableLocale loc} {db : LocaleDb}.

(** Every nesting. *)
Lemma safe_parse_list fuel : forall n c empty pos p, good p ->
  safe n (parse_list fuel c empty pos) p (fun t p' => (parsed p' (list_kind c empty) t /\ closed c p') /\ (c = CLOSE_NONE -> settled p')).
Proof.
  induction fuel as [|k IH]; intros n c empty pos p Hg; [done|]. cbn [parse_list]. apply safe_list_body; [|done].
  intros m c' e' pos' q Hq. eapply safe_mono; [by apply IH|]. by intros t q' _ _ [H _].
Qed.

Lemma safe_tree fuel : forall n c empty pos p, good p ->
  safe n (parse_list fuel c empty pos) p (fun t p' => parsed p' (list_kind c empty) t /\ closed c p').
Proof. intros n c empty pos p Hg. eapply safe_mono; [by apply safe_parse_list|]. by intros t q _ _ [H _]. Qed.
End Calls.
