(* ===== verification/ParserFuel.v ===== *)
(** * The parser: fuel

    The bound on the turns of the loops and on the nesting is only there to
    define the functions: once a call answers, a larger bound gives the same
    answer and the same parser. *)

From stdpp Require Import base list gmap strings.
From S2P Require Import Prelude Output State Arithmetic Character Quote Alias Descriptors Input Expansion Lexer Ast Parser Grammar.

(** [m] is [m'], but for what it leaves undone. *)
Definition within {A} (m m' : P A) : Prop := forall p, fst (m p) = PSpent \/ m p = m' p.

Lemma within_refl {A} (m : P A) : within m m.
Proof. intros p. by right. Qed.

Lemma within_spent {A} (m : P A) : within (fun p => (PSpent, p)) m.
Proof. intros p. by left. Qed.

Lemma within_bind {A B} (m m' : P A) (f f' : A -> P B) : within m m' -> (forall a, within (f a) (f' a)) ->
  within (pbind m f) (pbind m' f').
Proof.
  intros Hm Hf p. unfold pbind. destruct (Hm p) as [E|<-].
  - left. destruct (m p) as [r p']. cbn in E. by subst r.
  - destruct (m p) as [[| | |a] p']; [by right..|apply Hf].
Qed.

Lemma within_catch {A} (m m' : P A) : within m m' -> within (pcatch m) (pcatch m').
Proof.
  intros Hm p. unfold pcatch. destruct (Hm p) as [E|<-]; [|by right]. left. destruct (m p) as [r p']. cbn in E. by subst r.
Qed.

Lemma within_loop {S A} n n' (step step' : S -> P (S + A)) s : (n <= n')%nat -> (forall s, within (step s) (step' s)) ->
  within (loop n step s) (loop n' step' s).
Proof.
  intros Hn Hs. revert n' s Hn. induction n as [|n IH]; intros n' s Hn; [apply within_spent|].
  destruct n' as [|n']; [lia|]. cbn [loop]. apply within_bind; [apply Hs|]. intros [s'|a]; [apply IH; lia|apply within_refl].
Qed.

(** Follows the text of a production. *)
Ltac within_step :=
  lazymatch goal with
  | |- within ?m ?m => apply within_refl
  | |- within (pbind _ _) (pbind _ _) => apply within_bind; [|intros ?]
  | |- within (pcatch _) (pcatch _) => apply within_catch
  | |- within (loop _ _ _) (loop _ _ _) => apply within_loop; [assumption|intros ?]
  | |- within (match ?x with _ => _ end) _ => destruct x
  | |- _ => solve [auto with within]
  end.
Ltac within_tac := repeat (cbv zeta; within_step).

Create HintDb within.

Section Productions.
Context `{Locale} `{LocaleDb}.
Context (n n' : nat) (pl pl' : closing -> bool -> csh_position -> P csh_ast).
Hypothesis more : (n <= n')%nat.
Hypothesis lists : forall c b q, within (pl c b q) (pl' c b q).
#[local] Hint Resolve lists : within.

Lemma command_substitution_within : within (command_substitution pl) (command_substitution pl').
Proof. unfold command_substitution, command_child. within_tac. Qed.
#[local] Hint Resolve command_substitution_within : within.

Lemma peek_raw_within : within (peek_raw n pl) (peek_raw n' pl').
Proof. unfold peek_raw, raw_step. within_tac. Qed.
#[local] Hint Resolve peek_raw_within : within.

Lemma peek_alias_within b : within (peek_alias n pl b) (peek_alias n' pl' b).
Proof. unfold peek_alias, alias_step. within_tac. Qed.
#[local] Hint Resolve peek_alias_within : within.

Lemma peek_within : within (peek n pl) (peek n' pl').
Proof. apply peek_alias_within. Qed.
#[local] Hint Resolve peek_within : within.

Lemma collect_each_within l b : within (collect_each n l b) (collect_each n' l b).
Proof. induction l as [|a l IH]; cbn [collect_each]; [within_tac|]. unfold collect_document. within_tac. Qed.
#[local] Hint Resolve collect_each_within : within.

Lemma newline_within : within (newline n) (newline n').
Proof. unfold newline, collect_documents. within_tac. Qed.
#[local] Hint Resolve newline_within : within.

Lemma skip_newlines_within : within (skip_newlines n pl) (skip_newlines n' pl').
Proof. unfold skip_newlines, newline_step. within_tac. Qed.
#[local] Hint Resolve skip_newlines_within : within.

Lemma expect_token_within k s t : within (expect_token n pl k s t) (expect_token n' pl' k s t).
Proof. unfold expect_token. within_tac. Qed.
#[local] Hint Resolve expect_token_within : within.

Lemma consume_keyword_within node s : within (consume_keyword n pl node s) (consume_keyword n' pl' node s).
Proof. unfold consume_keyword. within_tac. Qed.
#[local] Hint Resolve consume_keyword_within : within.

Lemma parse_redirection_within node d : within (parse_redirection n pl node d) (parse_redirection n' pl' node d).
Proof. unfold parse_redirection. within_tac. Qed.
#[local] Hint Resolve parse_redirection_within : within.

Lemma parse_if_within node : within (parse_if n pl node) (parse_if n' pl' node).
Proof. unfold parse_if, if_step. within_tac. Qed.
Lemma parse_loop_within node : within (parse_loop n pl node) (parse_loop n' pl' node).
Proof. unfold parse_loop. within_tac. Qed.
Lemma parse_for_within node : within (parse_for n pl node) (parse_for n' pl' node).
Proof. unfold parse_for, for_words, for_word_step. within_tac. Qed.
Lemma parse_case_within node : within (parse_case n pl node) (parse_case n' pl' node).
Proof. unfold parse_case, case_step, pattern_step. within_tac. Qed.
Lemma parse_group_within node c : within (parse_group pl node c) (parse_group pl' node c).
Proof. unfold parse_group. within_tac. Qed.
#[local] Hint Resolve parse_if_within parse_loop_within parse_for_within parse_case_within parse_group_within : within.

Lemma parse_compound_within k : within (parse_compound n pl k) (parse_compound n' pl' k).
Proof. unfold parse_compound. within_tac. Qed.
#[local] Hint Resolve parse_compound_within : within.

Lemma trailing_within node : within (trailing_redirections n pl node) (trailing_redirections n' pl' node).
Proof. unfold trailing_redirections, trailing_step. within_tac. Qed.
#[local] Hint Resolve trailing_within : within.

Lemma parse_function_within w : within (parse_function n pl w) (parse_function n' pl' w).
Proof. unfold parse_function. within_tac. Qed.
#[local] Hint Resolve parse_function_within : within.

Lemma parse_command_within : within (parse_command n pl) (parse_command n' pl').
Proof. unfold parse_command, command_step. within_tac. Qed.
#[local] Hint Resolve parse_command_within : within.

Lemma parse_pipeline_within : within (parse_pipeline n pl) (parse_pipeline n' pl').
Proof. unfold parse_pipeline, pipeline_step. within_tac. Qed.
#[local] Hint Resolve parse_pipeline_within : within.

Lemma parse_and_or_within : within (parse_and_or n pl) (parse_and_or n' pl').
Proof. unfold parse_and_or, and_or_step. within_tac. Qed.
#[local] Hint Resolve parse_and_or_within : within.

Lemma list_body_within c b q : within (list_body n pl c b q) (list_body n' pl' c b q).
Proof. unfold list_body, list_step, list_item. within_tac. Qed.
End Productions.

#[export] Hint Resolve collect_each_within newline_within peek_alias_within : within.

Lemma parse_list_within `{Locale} `{LocaleDb} n : forall n' c b q, (n <= n')%nat -> within (parse_list n c b q) (parse_list n' c b q).
Proof.
  induction n as [|n IH]; intros n' c b q Hn; [apply within_spent|]. destruct n' as [|n']; [lia|]. cbn [parse_list].
  apply list_body_within; [done|]. intros c' b' q'. apply IH. lia.
Qed.
#[export] Hint Resolve parse_list_within : within.

Lemma csh_parser_next_within `{Locale} `{LocaleDb} n n' : (n <= n')%nat -> within (csh_parser_next n) (csh_parser_next n').
Proof.
  intros Hn. unfold csh_parser_next, next_tree, blank_step. within_tac.
Qed.

Lemma csh_parser_recover_within `{Locale} `{LocaleDb} n n' : (n <= n')%nat -> within (csh_parser_recover n) (csh_parser_recover n').
Proof. intros Hn. unfold csh_parser_recover, drain_documents, collect_documents. within_tac. Qed.
