(* ===== verification/ParserTheorems.v ===== *)
(** * The parser: its calls

    What [csh_parser_next] gives from a parser between two calls: it never
    crashes, a tree is of the grammar with every here-document read, trees given
    before stay as they were, and a failure is recorded. *)

From stdpp Require Import base list gmap strings sorting.
From S2P Require Import Prelude Output State Arithmetic Character Quote Alias Descriptors Input InputTheorems Expansion Lexer LexerLook LexerTree LexerSafety LexerTurns LexerTotal LexerCalls LexerKinds ParserLexer Ast Parser ParserLogic ParserSafety Grammar GrammarLook GrammarTree GrammarLists ParserFuel.

Section Calls.
Context {loc : Locale} {LL : LocaleLaws loc} {ST : StableLocale loc} {db : LocaleDb}.

(** A parser between two calls, without an error. *)
Record session (p : csh_parser) : Prop := mk_session {
  sn_stored : stored p;
  sn_hosts : hosts [[]] (ps_tape p);
  sn_clear : message (ps_failure p) = None;
  sn_frames : ps_frames p = [] }.

(** ** One command *)

Lemma reads_good n p hook c : good p -> good (with_reads p hook c) /\ evolves n p (with_reads p hook c).
Proof. intros Hg. split; [|by apply beside_evolves]. eapply beside_good; [exact Hg|done|apply Hg|apply Hg|apply Hg]. Qed.

Lemma safe_blank_step fuel n p : good p -> safe n (blank_step fuel tt) p (fun _ _ => True).
Proof.
  intros Hg. unfold blank_step. step ltac:(by apply safe_peek_alias; [apply safe_tree|]). intros b p1 Hg1 _ _.
  destruct (good_frames p1 Hg1) as (f & rest & E). step ltac:(by eapply safe_look_kind). intros kind p2 _ _ [-> _].
  apply safe_if; intros _; [|by apply safe_ret]. step ltac:(by apply safe_newline). intros [] p2 Hg2 _ _.
  destruct (reads_good n p2 (before_read p2) false Hg2) as [Hg3 He3].
  apply (safe_put n (with_reads p2 (before_read p2) false) (fun _ => pret (inl tt))); [done|done|by apply safe_ret].
Qed.

Lemma safe_next_tree fuel n p : good p -> safe n (next_tree fuel) p (fun o p' => match o with
  | Some t => parsed p' (PList true) t /\ settled p' | None => True end).
Proof.
  intros Hg. unfold next_tree. step ltac:(apply (safe_loop n (fun _ _ => True)) with (Q := fun _ _ => True)).
  - intros [] q Hq _. eapply safe_mono; [by apply safe_blank_step|]. by intros [[]|b] q' _ _ _.
  - done.
  - done.
  - intros b p1 Hg1 _ _. apply safe_if; intros _; [by apply safe_ret|]. step ltac:(by apply safe_position). intros pos p2 Hg2 _ _.
    step ltac:(by apply safe_parse_list). intros t p3 Hg3 _ [[Ht _] Hs]. apply safe_ret; [done|]. split; [exact Ht|by apply Hs].
Qed.

(** ** Between the calls *)

Lemma session_start p : session p -> good (with_frames p [new_frame]).
Proof.
  intros [H1 H2 H3 H4]. destruct H1 as [S1 S2 S3 S4 S5 S6]. split; [split; try done|exact H2|done|].
  - constructor; [|constructor]. split; [constructor|cbn; lia].
  - constructor; [|constructor]. by split; [constructor|].
Qed.

Lemma session_end p f : good p -> ps_frames p = [f] -> session (with_frames p []).
Proof.
  intros [[S1 S2 S3 S4 S5 S6] H2 H3 H4] E. split; [by split|cbn|done|done]. rewrite E in H2. by eapply hosts_nil.
Qed.


(** The parser after a failure. *)
Record broken (p : csh_parser) : Prop := mk_broken {
  bk_lexer : ps_lexer p = false;
  bk_recorded : recorded p;
  bk_frames : ps_frames p = [] }.

Definition next_outcome (r : csh_parse_result) (tree : option csh_ast) (e : csh_error) (p : csh_parser) : Prop :=
  match tree with
  | Some t => r = CSH_PARSE_TREE /\ e = no_error /\ session p /\ parsed p (PList true) t
  | None =>
      (r = CSH_PARSE_EOF /\ e = no_error /\ session p /\ ps_eof p = true) \/
      (r = CSH_PARSE_INTERRUPTED /\ session p /\ recorded (with_failure p r e)) \/
      (r = failure_result p /\ e = ps_failure p /\ broken p)
  end.

Lemma create_hosts name stack w : match csh_lexer_create name stack w with
  | (inr t, _) => hosts [[]] t
  | (inl e, _) => is_Some (message e)
  end.
Proof.
  pose proof (create_ready name stack w) as Hr. revert Hr. unfold csh_lexer_create. destruct name as [name|]; [|by eexists]. unfold bind.
  destruct (malloc w) as [[|] w1]; [cbn|by eexists]. destruct (malloc w1) as [[|] w2]; [cbn|by eexists].
  destruct (malloc w2) as [[|] w3]; [cbn|by eexists]. intros Hr. split; [exact Hr|]. constructor; [apply pending_fresh|constructor].
Qed.

Lemma create_lexer_post name p : ppost (create_lexer name) p (fun r q => exists t b, q = with_lexer (with_tape p t) b /\
    match r with inr _ => b = true /\ hosts [[]] t | inl e => b = false /\ is_Some (message e) end) (fun _ => False).
Proof.
  unfold create_lexer, ppost. pose proof (create_hosts (Some name) (t_stack (ps_tape p)) (t_proc (ps_tape p))) as Hr.
  destruct (csh_lexer_create _ _ _) as [[e|t] w]; [by eexists _, false|by exists t, true].
Qed.

(** The end of a command that fails. *)
Lemma next_failed p q : ps_frames p = [] -> stored q -> extends 0 p q -> recorded q ->
  ppost (
      let~ _ := set_frames [] in
      let~ _ := destroy_lexer in
      let~ p := get_parser in
      if bool_decide (failure_result p = CSH_PARSE_INTERRUPTED) then
        match ps_input p with
        | None => pcrash
        | Some (i, _) =>
            let~ r := create_lexer (in_name i) in
            match r with
            | inl e => let~ _ := set_failure CSH_PARSE_ERROR e in pret (CSH_PARSE_ERROR, None, e)
            | inr _ =>
                let~ _ := set_failure CSH_PARSE_INTERRUPTED no_error in
                let~ _ := set_continuation false in pret (CSH_PARSE_INTERRUPTED, None, ps_failure p)
            end
        end
      else pret (failure_result p, None, ps_failure p)) q
    (fun r p' => extends 0 p p' /\ next_outcome r.1.1 r.1.2 r.2 p') (fun _ => False).
Proof.
  intros E Hst He Hrec. apply ppost_bind. unfold ppost at 1, set_frames. apply ppost_bind. unfold ppost at 1, destroy_lexer.
  apply ppost_get. set (q1 := with_lexer (with_frames q []) false). destruct (bool_decide _) eqn:Eb.
  - destruct (st_input _ Hst) as (i & k & Ei & Hs). change (ps_input q1) with (ps_input q). rewrite Ei.
    apply ppost_bind. eapply ppost_mono; [apply create_lexer_post| |done]. intros [e|[]] q2 (t & b & -> & Hb).
    + destruct Hb as [-> Hm]. apply ppost_bind. unfold ppost at 1, set_failure. apply ppost_ret. split; [exact He|]. right. right.
      split; [done|]. split; [done|]. by split; [|left|].
    + destruct Hb as [-> Hh]. apply ppost_bind. unfold ppost at 1, set_failure. apply ppost_bind. unfold ppost at 1, set_continuation.
      apply ppost_ret. split; [exact He|]. right. left. split; [done|]. split; [|exact Hrec]. destruct Hst as [S1 S2 S3 S4 S5 S6].
      split; [by split|exact Hh|done|done].
  - apply ppost_ret. split; [exact He|]. right. right. split; [done|]. split; [done|]. by split.
Qed.

Lemma next_post fuel p : session p ->
  ppost (csh_parser_next fuel) p (fun r p' => extends 0 p p' /\ next_outcome r.1.1 r.1.2 r.2 p') (fun _ => False).
Proof.
  intros Hp. pose proof Hp as [Hst Hh Hc Hf]. unfold csh_parser_next. apply ppost_get. rewrite bool_decide_eq_false_2 by (rewrite Hc; by intros []).
  destruct (ps_eof p) eqn:Eeof.
  { apply ppost_ret. split; [apply extends_refl|]. left. by split_and!. }
  apply ppost_bind. unfold ppost at 1, set_frames. apply ppost_bind. unfold ppost at 1, set_continuation.
  set (p1 := with_reads _ _ _). assert (good p1) as Hg1 by exact (proj1 (reads_good 0 _ _ _ (session_start p Hp))).
  assert (extends 0 p p1) as X1 by exact (extends_refl 0 p).
  apply ppost_bind. pose proof (safe_next_tree fuel 0 p1 Hg1) as Hs. unfold safe, ppost in Hs. unfold ppost at 1, pcatch.
  destruct (next_tree fuel p1) as [[| | |o] q]; [done|done| |].
  - destruct Hs as [R1 R2 R3 _ _]. apply (next_failed p); [done| |exact (extends_trans 0 p p1 q X1 R2)|done].
    destruct R1 as [S1 S2 S3 S4 S5 S6]. split; try done. by apply Forall_drop.
  - destruct Hs as (Hgq & [(f & f' & rest & E1 & E2 & _) X2 W2] & Ho). cbn in E1. injection E1 as <- <-.
    pose proof (session_end q f' Hgq E2) as Hend. apply ppost_bind. unfold ppost at 1, set_frames. destruct o as [t|].
    + apply ppost_ret. split; [exact (extends_trans 0 p p1 q X1 X2)|]. split; [done|]. split; [done|]. split; [done|].
      destruct Ho as (Ht & f2 & Ef & Hd). eapply parsed_later; [exact (extends_refl 0 q)| |exact Ht].
      intros a r Ha. unfold pending_documents in Ha. rewrite E2 in Ha, Ef. injection Ef as <-. cbn in Ha. rewrite Hd in Ha. by apply elem_of_nil in Ha.
    + apply ppost_get, ppost_put, ppost_ret. split; [exact (extends_trans 0 p p1 q X1 X2)|]. left. split_and!; try done.
      destruct Hend as [[S1 S2 S3 S4 S5 S6] H2 H3 H4]. split; [by split|done|done|done].
Qed.

(** ** A parser and its calls *)

Definition values_good (a : option csh_aliases) : Prop :=
  forall l name v, a = Some l -> csh_aliases_get l (Some name) = Some v -> Forall is_byte v.

(** Parsers that calls of parser.h lead to; the tables and hooks may change
    between two commands.  The addresses of redirections never run out. *)
Inductive reachable : csh_parser -> Prop :=
  | reached_create i k stack checks w p w' : sourced is_byte i k ->
      csh_parser_create (Some (i, k)) stack checks w = (inr p, w') -> reachable p
  | reached_aliases p a : reachable p -> values_good a -> reachable (csh_parser_set_aliases p a)
  | reached_hook p hook : reachable p -> reachable (csh_parser_set_read_hook p hook)
  | reached_next p fuel v p' : reachable p -> Z.of_nat (ps_next p) < SIZE_MAX ->
      csh_parser_next fuel p = (v, p') -> v <> PSpent -> reachable p'.

Lemma create_session i k stack checks w p w' : sourced is_byte i k ->
  csh_parser_create (Some (i, k)) stack checks w = (inr p, w') -> session p.
Proof.
  intros Hs. unfold csh_parser_create. destruct (negb (offset (in_position i) =? 0)); [done|]. destruct (malloc w) as [[|] w1]; cbn [negb]; [|done].
  pose proof (create_hosts (Some (in_name i)) stack w1) as Hh. destruct (csh_lexer_create _ _ _) as [[e|t] w2]; [done|]. intros [= <- <-].
  split; [split; try done|exact Hh|done|done].
  - intros a [r Ha]. cbn in Ha. by rewrite lookup_empty in Ha.
  - by exists i, k.
Qed.

Lemma beside_session p q : beside p q -> ps_input q = ps_input p -> ps_tape q = ps_tape p -> ps_failure q = ps_failure p -> session p -> session q.
Proof.
  intros Hb Hi Ht Hf [H1 H2 H3 H4]. split; [eapply beside_stored; [exact Hb|rewrite Hi; apply H1|done]|by rewrite Ht|by rewrite Hf|].
  by rewrite (bs_frames _ _ Hb).
Qed.

(** A failed parser with its message gives it again. *)
Lemma next_sticky fuel p : is_Some (message (ps_failure p)) ->
  csh_parser_next fuel p = (POk (failure_result p, None, ps_failure p), p).
Proof. intros H. unfold csh_parser_next, pbind, get_parser. by rewrite bool_decide_eq_true_2. Qed.

Definition between (p : csh_parser) : Prop := session p \/ broken p.

Lemma next_between fuel p v p' : between p -> Z.of_nat (ps_next p) < SIZE_MAX -> csh_parser_next fuel p = (v, p') -> v <> PSpent ->
  extends 0 p p' /\ exists r tree e, v = POk (r, tree, e) /\ next_outcome r tree e p'.
Proof.
  intros [Hs|Hb] Hn E Hv.
  - pose proof (next_post fuel p Hs) as H. unfold ppost in H. rewrite E in H. destruct v as [| | |[[r tree] e]]; try done.
    destruct H as [X H]. split; [done|]. by exists r, tree, e.
  - destruct (bk_recorded _ Hb) as [H|H]; [|lia]. rewrite next_sticky in E by done. injection E as <- <-. split; [apply extends_refl|].
    exists (failure_result p), None, (ps_failure p). split; [done|]. right. by right.
Qed.

Lemma outcome_between r tree e p : next_outcome r tree e p -> between p.
Proof. destruct tree; [intros (_ & _ & H & _); by left|]. intros [(_ & _ & H & _)|[(_ & H & _)|(_ & _ & H)]]; [by left..|by right]. Qed.

Lemma reachable_between p : reachable p -> between p.
Proof.
  induction 1 as [i k stack checks w p w' Hs E|p a _ IH Ha|p hook _ IH|p fuel v p' _ IH Hn E Hv].
  - left. by eapply create_session.
  - destruct IH as [[[S1 S2 S3 S4 S5 S6] H2 H3 H4]|[B1 B2 B3]]; [left|right; by split]. split; [by split|done..].
  - destruct IH as [H|[B1 B2 B3]]; [left|right; by split]. by eapply (beside_session p).
  - destruct (next_between fuel p v p' IH Hn E Hv) as (_ & r & tree & e & _ & H). by eapply outcome_between.
Qed.



(** The fuel of the model does not matter.  Once a call of
    [csh_parser_next] or of [csh_parser_recover] answers, any larger fuel gives
    the same answer and the same parser, whatever the parser. *)
Theorem parser_fuel_irrelevant n n' p : (n <= n')%nat ->
  (fst (csh_parser_next n p) <> PSpent -> csh_parser_next n' p = csh_parser_next n p) /\
  (fst (csh_parser_recover n p) <> PSpent -> csh_parser_recover n' p = csh_parser_recover n p).
Proof.
  intros Hn. split; intros H.
  - by destruct (csh_parser_next_within n n' Hn p) as [E|E].
  - by destruct (csh_parser_recover_within n n' Hn p) as [E|E].
Qed.

(** After an error, and after the end of the input, every call of
    [csh_parser_next] answers the same and leaves the parser as it is. *)
Theorem parser_next_repeats fuel fuel' p r tree e p' : reachable p -> Z.of_nat (ps_next p') < SIZE_MAX -> Z.of_nat (ps_next p) < SIZE_MAX ->
  csh_parser_next fuel p = (POk (r, tree, e), p') -> tree = None -> r <> CSH_PARSE_INTERRUPTED ->
  csh_parser_next fuel' p' = (POk (r, None, e), p').
Proof.
  intros Hr Hn' Hn E -> Hi. destruct (next_between fuel p _ p' (reachable_between p Hr) Hn E ltac:(done)) as (_ & r0 & t0 & e0 & Ev & H).
  injection Ev as <- <- <-. destruct H as [(-> & -> & Hs & Heof)|[(-> & _)|(-> & -> & Hb)]]; [|done|].
  - unfold csh_parser_next, pbind, get_parser. rewrite bool_decide_eq_false_2 by (rewrite (sn_clear _ Hs); by intros []). by rewrite Heof.
  - destruct (bk_recorded _ Hb) as [H|H]; [by apply next_sticky|lia].
Qed.
End Calls.

(** ** Examples *)

#[local] Existing Instance c_locale.
#[local] Instance any_locale : LocaleDb := fun _ _ => true.

Definition idle_kernel : kernel := mk_kernel ∅ ∅ 0 0 [] [] [] 0.

(** A string source, before it is read. *)
Definition script (text : str) : csh_input := mk_input (bs "script") (Some text) None 0 start_position false no_error None None None.

Definition parser_of (text : str) : csh_parser :=
  match csh_parser_create (Some (script text, idle_kernel)) [] [] quiet_proc with
  | (inr p, _) => p
  | _ => mk_parser None (mk_tape (mk_source [] [] 0 no_position [] 0 false 0 0 [] false false no_error) [] [] quiet_proc)
      true None CSH_PARSE_EOF no_error false false None false [] [] ∅ 0 [] []
  end.


Definition document_script : str := bs "cat <<E $(f; g) | h &&" ++ [10] ++ bs "x" ++ [10] ++ bs "E" ++ [10] ++ bs "while a; do b; done" ++ [10].
Definition wrong_script : str := bs "a; )" ++ [10].

Lemma script_sourced text : forallb (fun b => (0 <=? b) && (b <? 256)) text = true -> sourced is_byte (script text) idle_kernel.
Proof.
  intros H. split; [|by split]. change (unread (script text) idle_kernel) with text. rewrite forallb_forall in H.
  apply Forall_forall. intros b Hb. apply list_elem_of_In, H in Hb. unfold is_byte. lia.
Qed.

Lemma script_reachable text : forallb (fun b => (0 <=? b) && (b <? 256)) text = true -> reachable (parser_of text).
Proof.
  intros H. destruct (csh_parser_create (Some (script text, idle_kernel)) [] [] quiet_proc) as [[e|p] w] eqn:E.
  - by vm_compute in E.
  - assert (parser_of text = p) as -> by (unfold parser_of; by rewrite E). by eapply reached_create; [apply script_sourced|].
Qed.


Lemma parser_fuel_irrelevant_witness : (30 <= 100)%nat /\
  csh_parser_next 100 (parser_of document_script) = csh_parser_next 30 (parser_of document_script).
Proof.
  split; [lia|]. apply (parser_fuel_irrelevant 30 100); [lia|]. vm_compute. discriminate.
Defined.

Definition is_error (r : verdict (csh_parse_result * option csh_ast * csh_error)) : bool :=
  match r with POk (CSH_PARSE_ERROR, None, _) => true | _ => false end.

Lemma parser_next_repeats_witness : exists e p', csh_parser_next 20 (parser_of wrong_script) = (POk (CSH_PARSE_ERROR, None, e), p') /\
  csh_parser_next 1 p' = (POk (CSH_PARSE_ERROR, None, e), p').
Proof.
  assert (reachable (parser_of wrong_script)) as Hr by (apply script_reachable; reflexivity).
  destruct (csh_parser_next 20 (parser_of wrong_script)) as [v p'] eqn:E.
  assert (is_error v = true) as Hv by (change v with (fst (v, p')); rewrite <- E; vm_compute; reflexivity).
  assert (ps_next p' = 0%nat) as Hn by (change p' with (snd (v, p')); rewrite <- E; vm_compute; reflexivity).
  destruct v as [| | |[[[] [t|]] e]]; try discriminate Hv. exists e, p'. split; [reflexivity|].
  apply (parser_next_repeats 20 1 (parser_of wrong_script) CSH_PARSE_ERROR None e p' Hr); [rewrite Hn; reflexivity|reflexivity|exact E|reflexivity|discriminate].
Defined.
