(* ===== verification/Prepare.v ===== *)
(** * Preparation of commands (src/prepare.c)

    From the words of a tree to arguments, redirections and assignments.  A
    word is expanded under a checkpoint; its command substitutions run through
    the executor, a parameter here, with trees of the parser or, for
    backquotes, of a parser of their own.  [fuel] bounds those parsers; when it
    is used up, the process around is marked as not having come back. *)

From stdpp Require Import base list gmap strings.
From S2P Require Import Prelude Output Numbers Options Character Quote Alias State Arithmetic Expansion Pathname Fields Descriptors Input Redirect Process Lexer Values LexerKinds Ast Parser Grammar.

(** ** Data (include/cshell/execute.h) *)

(** [None] is a NULL pointer. *)
Record csh_assignment : Type := mk_assignment { as_name : option str; as_value : option str }.

Record csh_command : Type := mk_command {
  argv : list str; default_path : bool;
  assignments : list csh_assignment; assignment_count : nat;
  cm_redirections : list csh_redirect; redirection_count : nat;
  substitution_status : Z }.

Definition no_command : csh_command := mk_command [] false [] 0 [] 0 0.

Definition with_argv (c : csh_command) (l : list str) : csh_command :=
  mk_command l (default_path c) (assignments c) (assignment_count c) (cm_redirections c) (redirection_count c) (substitution_status c).
Definition with_assignments (c : csh_command) (l : list csh_assignment) (n : nat) : csh_command :=
  mk_command (argv c) (default_path c) l n (cm_redirections c) (redirection_count c) (substitution_status c).
Definition with_redirections (c : csh_command) (l : list csh_redirect) (n : nat) : csh_command :=
  mk_command (argv c) (default_path c) (assignments c) (assignment_count c) l n (substitution_status c).
Definition with_status (c : csh_command) (n : Z) : csh_command :=
  mk_command (argv c) (default_path c) (assignments c) (assignment_count c) (cm_redirections c) (redirection_count c) n.

Definition fail (text : str) (number : errno) : csh_error :=
  mk_error (Some text) [] false number (if bool_decide (number = ENONE) then 2 else 1) 0 no_position.

(** ** Computations

    The shell state, the command that is built, the process and what is around
    it, with the answers of the stack checks to come.  A failing call has a result, -1 or
    -2, and its error. *)

Record prepare_work : Type := mk_prepared {
  pw_state : csh_state; pw_command : csh_command;
  pw_stack : list bool; pw_arithmetic : list (list bool); pw_outside : outside; pw_proc : proc }.

Inductive woutcome (A : Type) : Type := WFault | WFail (result : Z) (e : csh_error) | WDone (a : A).
Arguments WFault {_}.
Arguments WFail {_} _ _.
Arguments WDone {_} _.

Definition W (A : Type) : Type := prepare_work -> woutcome A * prepare_work.

Definition wret {A} (a : A) : W A := fun w => (WDone a, w).
Definition wfault {A} : W A := fun w => (WFault, w).
Definition wfail {A} (e : csh_error) : W A := fun w => (WFail (-1) e, w).
Definition wbind {A B} (m : W A) (f : A -> W B) : W B := fun w =>
  match m w with
  | (WDone a, w') => f a w'
  | (WFail r e, w') => (WFail r e, w')
  | (WFault, w') => (WFault, w')
  end.

Notation "'let%%' x ':=' m 'in' k" := (wbind m (fun x => k))
  (at level 10, x strict pattern, m at level 200, k at level 200,
   format "'let%%'  x  ':='  m  'in' '//' k") : cshell_scope.

Definition wopt {A} (o : option A) : W A := match o with Some a => wret a | None => wfault end.
Definition wtry {A} (m : W A) : W ((Z * csh_error) + A) := fun w =>
  match m w with
  | (WDone a, w') => (WDone (inr a), w')
  | (WFail r e, w') => (WDone (inl (r, e)), w')
  | (WFault, w') => (WFault, w')
  end.

Definition wstate : W csh_state := fun w => (WDone (pw_state w), w).
Definition wput (s : csh_state) : W unit := fun w =>
  (WDone tt, mk_prepared s (pw_command w) (pw_stack w) (pw_arithmetic w) (pw_outside w) (pw_proc w)).
Definition wcommand : W csh_command := fun w => (WDone (pw_command w), w).
Definition wput_command (c : csh_command) : W unit := fun w =>
  (WDone tt, mk_prepared (pw_state w) c (pw_stack w) (pw_arithmetic w) (pw_outside w) (pw_proc w)).
Definition whost {A} (m : M A) : W A := fun w =>
  let '(a, p) := m (pw_proc w) in (WDone a, mk_prepared (pw_state w) (pw_command w) (pw_stack w) (pw_arithmetic w) (pw_outside w) p).

(** An allocation that fails with a message of its own. *)
Definition wmalloc (text : str) : W unit := let%% ok := whost malloc in if ok then wret tt else wfail (fail text ENOMEM).

(** [csh_execute_substitution]: from the state, the redirections that the tree
    refers to, the tree, the status so far with the process around, and the
    output of the process, to the bytes or the error and what these have become. *)
Class Executor : Type :=
  csh_execute_substitution : csh_state -> gmap nat redirection -> csh_ast -> Z * outside -> proc ->
    (csh_error + option str) * (Z * outside) * csh_state * proc.

(** ** Command substitutions *)

(** No counterpart in C, the end of the fuel, an error, or a result. *)
Inductive text_result (A : Type) : Type := TCrash | TSpent | TError (e : csh_error) | TDone (a : A).
Arguments TCrash {_}.
Arguments TSpent {_}.
Arguments TError {_} _.
Arguments TDone {_} _.

Section Prepare.
Context `{Locale} `{Files} `{Users} `{LocaleDb} `{Executor}.
Context (fuel : nat) (parser_stack : nat -> list (list bool)) (parser_checks : nat -> list bool).

(** The source that a backquote hides: the escapes of backquotes are removed. *)
Fixpoint backquote_loop (n : nat) (raw : str) (q : csh_quote) (i end_ : nat) : option str :=
  match n with
  | O => None
  | S n =>
      if negb (i + 1 <? end_)%nat then Some [] else
      match raw !! i with
      | None => None
      | Some b =>
          let skip := match raw !! S i with
            | Some c => (b =? ch "\") && (i + 2 <? end_)%nat &&
                (in_set c (bs "$`\") || (c =? 0) || (bool_decide (q = CSH_QUOTE_DOUBLE) && (c =? 34)))
            | None => false
            end in
          let i := if skip then S i else i in
          let width := csh_character_length (take (end_ - 1 - i) (drop i raw)) true true in
          match slice raw i width, backquote_loop n raw q (i + width) end_ with
          | Some s, Some rest => Some (s ++ rest)
          | _, _ => None
          end
      end
  end.

Definition backquote_text (raw : str) (f : csh_fragment) : option str :=
  backquote_loop (S (fr_end f)) raw (fr_quote f) (S (fr_begin f)) (fr_end f).

(** A string source on a kernel of its own, with the allocations of [p]. *)
Definition string_input (text : str) (p : proc) : (csh_error + csh_input * kernel) * proc :=
  let '(r, s) := csh_input_from_string (Some text) (Some (bs "backquote")) (mk_istate (mk_kernel ∅ ∅ 0 0 [] [] (p_alloc p) 0) [] 0 []) in
  let k := is_kernel s in
  (match r with
   | inl e => inl e
   | inr id => match find_input s id with Some i => inr (i, k) | None => inl (fail (bs "backquote") EINVAL) end
   end,
   mk_proc (k_alloc k) (p_writes p) (p_stdio p) (p_stdout p) (p_stderr p) (p_locale p) (p_functions p) (p_interrupts p)).

(** Parsing takes allocations of the process, and nothing else of it. *)
Definition allocations (p q : proc) : proc :=
  mk_proc (p_alloc q) (p_writes p) (p_stdio p) (p_stdout p) (p_stderr p) (p_locale p) (p_functions p) (p_interrupts p).

(** The commands of the parser, added to the list [tree]. *)
Fixpoint backquote_commands (n : nat) (p : csh_parser) (tree : csh_ast) : text_result csh_ast * csh_parser :=
  match n with
  | O => (TSpent, p)
  | S n =>
      match csh_parser_next fuel p with
      | (POk (CSH_PARSE_EOF, _, _), p) => (TDone tree, p)
      | (POk (CSH_PARSE_TREE, Some command, _), p) =>
          let '(r, w) := csh_ast_list_add tree (mk_list_item command CSH_AST_END no_position no_position) (t_proc (ps_tape p)) in
          let t := ps_tape p in
          let p := with_tape p (mk_tape (t_source t) (t_lexers t) (t_stack t) w) in
          match r with
          | inl e => (TError e, p)
          | inr tree => backquote_commands n p tree
          end
      | (POk (_, _, e), p) => (TError e, p)
      | (PSpent, p) => (TSpent, p)
      | (PFail, p) | (PCrash, p) => (TCrash, p)
      end
  end.

(** The tree of a backquoted text and the redirections it refers to. *)
Definition backquote_tree (s : csh_state) (token : csh_token) (i : nat) (p : proc)
    : text_result (csh_ast * gmap nat redirection) * csh_state * proc :=
  match tk_fragments token !! i with
  | None => (TCrash, s, p)
  | Some f =>
      let '(ok, p) := malloc p in
      if negb ok then (TError (fail (bs "cannot allocate backquote source") ENOMEM), s, p) else
      match backquote_text (tk_raw token) f with
      | None => (TCrash, s, p)
      | Some text =>
          match string_input (c_text text) p with
          | (inl e, p) => (TError e, s, p)
          | (inr input, p) =>
              match csh_parser_create (Some input) (parser_stack i) (parser_checks i) p with
              | (inl e, p) => (TError e, s, p)
              | (inr parser, p) =>
                  let '(r, p) := csh_ast_create CSH_AST_LIST p in
                  match r with
                  | inl e => (TError e, s, p)
                  | inr tree =>
                      let '(table, s, p) := csh_state_aliases s p in
                      match table with
                      | None => (TError (fail (bs "cannot allocate aliases") ENOMEM), s, p)
                      | Some table =>
                          let t := ps_tape parser in
                          let parser := csh_parser_set_aliases (with_tape parser (mk_tape (t_source t) (t_lexers t) (t_stack t) p)) (Some table) in
                          let '(r, parser) := backquote_commands fuel parser tree in
                          let p := allocations p (t_proc (ps_tape parser)) in
                          match r with
                          | TCrash => (TCrash, s, p)
                          | TSpent => (TSpent, s, p)
                          | TError e => (TError e, s, p)
                          | TDone tree => (TDone (tree, ps_store parser), s, p)
                          end
                      end
                  end
              end
          end
      end
  end.

Definition substitution_code (e : csh_error) : csh_expand_result :=
  match system_errno e with ENONE => CSH_EXPAND_INVALID | ENOMEM => CSH_EXPAND_NOMEM | _ => CSH_EXPAND_IO end.

(** The callback for the words of [word]; the error record is never NULL here. *)
Definition substitute (word : word) (store : gmap nat redirection) : substitute_callback := fun s e p user token i =>
  match tk_fragments token !! i with
  | None => (VFault, s, e, p, user)
  | Some f =>
      let '(tree, s, p) :=
        if bool_decide (fr_kind f = CSH_FRAGMENT_BACKQUOTE) then backquote_tree s token i p
        else (match List.find (fun b => (fragment_index b =? i)%nat) (items (substitutions word)) with
              | Some b => TDone (sb_body b, store)
              | None => TError (fail (bs "missing command substitution tree") ENONE)
              end, s, p) in
      let failing failure := (VFail (substitution_code failure),
        option_map (fun _ => mk_expand_error (Some (substitution_code failure)) (Some i) (fr_start f)
          (take max_message (default [] (csh_error_message failure)))) e) in
      match tree with
      | TCrash => (VFault, s, e, p, user)
      | TSpent => let '(r, e) := failing no_error in (r, s, e, p, (fst user, with_unfinished (snd user) Spent))
      | TError failure => let '(r, e) := failing failure in (r, s, e, p, user)
      | TDone (body, store) =>
          match csh_execute_substitution s store body user p with
          | (inl failure, user, s, p) => let '(r, e) := failing failure in (r, s, e, p, user)
          | (inr bytes, user, s, p) => (VDone bytes, s, e, p, user)
          end
      end
  end.

(** ** Expansion of one word *)

Definition sizeof_fragment : Z := 80.

(** Offset slicing retains the indices; what the offset consumes becomes empty
    text at the root. *)
Definition slice_fragment (offset : nat) (f : csh_fragment) : csh_fragment :=
  if (fr_end f <=? offset)%nat then mk_fragment CSH_FRAGMENT_TEXT CSH_QUOTE_NONE None 0 0 (fr_start f) (fr_finish f)
  else mk_fragment (fr_kind f) (fr_quote f) (fr_parent f) (if (fr_begin f <? offset)%nat then 0 else fr_begin f - offset) (fr_end f - offset)
         (fr_start f) (fr_finish f).

Definition slice_token (offset : nat) (t : csh_token) : csh_token :=
  mk_token (tk_kind t) (tk_source_name t) (drop offset (tk_raw t)) (tk_start t) (tk_end t) (slice_fragment offset <$> tk_fragments t)
    (tk_alias_name t) (tk_invocation_source t) (tk_invocation t) (tk_alias_eligible t).

Definition expansion_error (code : csh_expand_result) (e : csh_expand_error) : csh_error :=
  let number := match code with
    | CSH_EXPAND_NOMEM | CSH_EXPAND_RESOURCE => ENOMEM
    | CSH_EXPAND_IO => EIO
    | CSH_EXPAND_INTERRUPTED => EINTR
    | _ => ENONE
    end in
  let base := fail (bs "word expansion failed") number in
  mk_error (message base) (take max_message (ee_message e)) (reported base) (system_errno base) (status base) (argument_index base) (ee_position e).

(** [csh_expand_word], then [csh_expand_fields]: the fields or a failure, and
    the error record. *)
Definition expand_stages (word : word) (store : gmap nat redirection) (token : csh_token) (mode : csh_expand_context)
    : W ((csh_expand_result + csh_fields) * csh_expand_error) := fun w =>
  let c := pw_command w in
  let no_failure := mk_expand_error None None no_position [] in
  let '(r, v) := csh_expand_word token (Some (mk_options mode (Some (substitute word store))))
    (mk_work (pw_state w) (Some no_failure) (pw_stack w) (pw_arithmetic w) (pw_proc w) (substitution_status c, pw_outside w)) in
  let w := mk_prepared (vs_state v) (with_status c (fst (vs_user v))) (vs_stack v) (vs_arithmetic v) (snd (vs_user v)) (vs_proc v) in
  match r with
  | VFault => (WFault, w)
  | VFail code => (WDone (inl code, default no_failure (vs_error v)), w)
  | VDone value =>
      let '(r, p) := uninterrupted (csh_expand_fields (pw_state w) value) (pw_proc w) in
      (WDone r, mk_prepared (pw_state w) (pw_command w) (pw_stack w) (pw_arithmetic w) (pw_outside w) p)
  end.

Definition expand (word : word) (store : gmap nat redirection) (offset : nat) (mode : csh_expand_context) : W csh_fields :=
  let nomem {A} : W A := wfail (fail (bs "cannot allocate command expansion") ENOMEM) in
  let token := Ast.token word in
  if (length (tk_raw token) <? offset)%nat then wfail (fail (bs "invalid assignment word") ENONE) else
  let%% token := (
    if (offset =? 0)%nat then wret token
    else if Z.of_nat (length (tk_fragments token)) >? SIZE_MAX / sizeof_fragment then nomem
    else let%% ok := whost malloc in if ok then wret (slice_token offset token) else nomem) in
  let%% s := wstate in
  let%% (r, checkpoint) := whost (csh_state_save s) in
  if negb (bool_decide (r = CSH_STATE_OK)) then nomem else
  let%% (r, e) := expand_stages word store token mode in
  match r with
  | inr fields => let%% _ := whost (csh_state_checkpoint_destroy checkpoint) in wret fields
  | inl code =>
      let%% s := wstate in
      let%% (_, s) := whost (csh_state_restore s checkpoint) in
      let%% _ := wput s in
      wfail (expansion_error code e)
  end.

(** The command is a local variable of the call. *)
Definition csh_prepare_word (word : word) (store : gmap nat redirection) (mode : csh_expand_context) : W csh_fields := fun w =>
  let '(r, w') := expand word store 0 mode (mk_prepared (pw_state w) no_command (pw_stack w) (pw_arithmetic w) (pw_outside w) (pw_proc w)) in
  (r, mk_prepared (pw_state w') (pw_command w) (pw_stack w') (pw_arithmetic w') (pw_outside w') (pw_proc w')).

Definition scalar (word : word) (store : gmap nat redirection) (offset : nat) (mode : csh_expand_context) : W str :=
  let%% fields := expand word store offset mode in
  match fields with
  | [] => let%% _ := wmalloc (bs "cannot allocate empty value") in wret []
  | [value] => wret value
  | _ => wfail (fail (bs "expansion requires one field") ENONE)
  end.

(** ** Assignment words *)

(** The bytes of one fragment from position [j] on: the end of the scan with
    the offset behind ['='], 0 for no assignment, or the name so far. *)
Fixpoint name_bytes (bytes : str) (j : nat) (name : str) : nat * str + str :=
  match bytes with
  | [] => inr name
  | b :: rest =>
      if (b =? ch "=") && negb (bool_decide (name = [])) then inl (S j, name)
      else if negb (Values.name_start b || (negb (bool_decide (name = [])) && Values.digit b)) then inl (0%nat, [])
      else name_bytes rest (S j) (name ++ [b])
  end.

Fixpoint name_fragments (l : list csh_fragment) (raw : str) (name : str) : nat * str :=
  match l with
  | [] => (0%nat, [])
  | f :: rest =>
      if bool_decide (fr_kind f = CSH_FRAGMENT_CONTINUATION) then name_fragments rest raw name
      else if negb (bool_decide (fr_kind f = CSH_FRAGMENT_TEXT)) || negb (bool_decide (fr_quote f = CSH_QUOTE_NONE)) ||
              negb (bool_decide (fr_parent f = None)) then (0%nat, [])
      else match name_bytes (fragment_bytes raw f) (fr_begin f) name with
           | inl r => r
           | inr name => name_fragments rest raw name
           end
  end.

(** The offset behind an unquoted prefix [NAME=], 0 for none, and the name. *)
Definition assignment_name (word : word) : nat * str := name_fragments (tk_fragments (Ast.token word)) (tk_raw (Ast.token word)) [].

(** [assignment_name] with a place for the name: it is allocated first. *)
Definition named_assignment (word : word) : W (nat * str) :=
  let%% _ := wmalloc (bs "cannot allocate assignment name") in wret (assignment_name word).

(** ** Arguments *)

Definition append_fields (fields : csh_fields) : W unit :=
  let%% c := wcommand in
  if SIZE_MAX / 8 - Z.of_nat (length (argv c)) <=? Z.of_nat (length fields)
  then wfail (fail (bs "command has too many arguments") ENOMEM) else
  let%% _ := wmalloc (bs "cannot allocate command arguments") in
  wput_command (with_argv c (argv c ++ fields)).

(** "-p", "-pp" and so on *)
Definition path_option (s : str) : bool :=
  match s with a :: b :: rest => (a =? ch "-") && (b =? ch "p") && forallb (fun c => c =? ch "p") rest | _ => false end.

Fixpoint skip_path_options (l : list str) : list str :=
  match l with s :: rest => if path_option s then skip_path_options rest else l | [] => [] end.

(** The arguments from the utility that the prefixes "command" run. *)
Fixpoint skip_command (n : nat) (l : list str) : list str :=
  match n, l with
  | S n, s :: rest =>
      if str_eqb s (bs "command") then
        let rest := skip_path_options rest in
        skip_command n (match rest with d :: rest' => if str_eqb d (bs "--") then rest' else rest | [] => [] end)
      else l
  | _, _ => l
  end.

Definition declaration (argv : list str) : bool :=
  match skip_command (length argv) argv with
  | utility :: _ => str_eqb utility (bs "export") || str_eqb utility (bs "readonly")
  | [] => false
  end.

Definition command_word (source : csh_ast_command_word csh_ast) (store : gmap nat redirection) : W unit :=
  let word := cw_word source in
  let%% c := wcommand in
  if cw_assignment source then
    let%% (offset, name) := named_assignment word in
    if (offset =? 0)%nat then wfail (fail (bs "invalid assignment word") ENONE) else
    let%% s := wstate in
    let view := snd (csh_state_get_variable s (Some name)) in
    if negb (Z.land (view_attributes view) CSH_VAR_READONLY =? 0) then
      wfail (mk_error (Some (bs "cannot assign to readonly variable")) [] false ENONE 1 0 no_position)
    else wret tt
  else
  let%% fields := (
    if declaration (argv c) && negb (fst (assignment_name word) =? 0)%nat then
      let%% (offset, name) := named_assignment word in
      let%% value := scalar word store offset CSH_EXPAND_ASSIGNMENT in
      let%% joined := whost malloc in
      let%% values := whost malloc in
      if joined && values then wret [name ++ bs "=" ++ value]
      else wfail (fail (bs "cannot allocate declaration argument") ENOMEM)
    else expand word store 0 CSH_EXPAND_ARGUMENT) in
  append_fields fields.

Fixpoint command_words (l : list (csh_ast_command_word csh_ast)) (store : gmap nat redirection) : W unit :=
  match l with
  | [] => wret tt
  | source :: rest => let%% _ := command_word source store in command_words rest store
  end.

Definition csh_command_arguments (words : list (csh_ast_command_word csh_ast)) (store : gmap nat redirection) : W unit :=
  command_words words store.

(** ** Assignments *)

Definition no_assignment : csh_assignment := mk_assignment None None.

(** The names in order, stored from [index] on. *)
Fixpoint assignment_names (l : list (csh_ast_command_word csh_ast)) (index : nat) (names : list (option str)) : W (list (option str)) :=
  match l with
  | [] => wret names
  | source :: rest =>
      if negb (cw_assignment source) then assignment_names rest index names else
      let nomem {A} : W A := wfail (fail (bs "cannot allocate command assignments") ENOMEM) in
      let%% ok := whost malloc in
      if negb ok then nomem else
      let '(offset, name) := assignment_name (cw_word source) in
      if (offset =? 0)%nat then wfail (fail (bs "invalid assignment word") ENONE) else
      let%% c := wcommand in
      let%% _ := wput_command (with_assignments c (<[index := mk_assignment (Some name) None]> (assignments c)) (S index)) in
      assignment_names rest (S index) (names ++ [Some name])
  end.

(** The values in order; later values see earlier assignments. *)
Fixpoint assignment_values (l : list (csh_ast_command_word csh_ast)) (store : gmap nat redirection) (index : nat) : W unit :=
  match l with
  | [] => wret tt
  | source :: rest =>
      if negb (cw_assignment source) then assignment_values rest store index else
      let%% value := scalar (cw_word source) store (fst (assignment_name (cw_word source))) CSH_EXPAND_ASSIGNMENT in
      let%% c := wcommand in
      let%% a := wopt (assignments c !! index) in
      let%% _ := wput_command (with_assignments c (<[index := mk_assignment (as_name a) (Some value)]> (assignments c)) (assignment_count c)) in
      let%% s := wstate in
      let%% (r, s) := whost (csh_state_set_variable s (as_name a) (Some value)) in
      let%% _ := wput s in
      match r with
      | CSH_STATE_OK => assignment_values rest store (S index)
      | CSH_STATE_NOMEM => wfail (fail (bs "cannot allocate command assignments") ENOMEM)
      | _ => wfail (fail (bs "cannot apply assignment value") ENONE)
      end
  end.

(** What the call does whatever the computation gives. *)
Definition finally {A} (m : W A) (finish : W unit) : W A :=
  let%% r := wtry m in
  let%% _ := finish in
  match r with inr a => wret a | inl (code, e) => fun w => (WFail code e, w) end.

Definition restore_names (save : list variable_save) : W unit :=
  let%% s := wstate in
  let%% (_, s) := whost (csh_state_restore_variables s save) in
  wput s.

Definition csh_command_assignments (words : list (csh_ast_command_word csh_ast)) (store : gmap nat redirection) : W unit :=
  let count := length (List.filter cw_assignment words) in
  let nomem {A} : W A := wfail (fail (bs "cannot allocate command assignments") ENOMEM) in
  if (count =? 0)%nat then wret tt else
  let%% a := whost malloc in
  let%% c := wcommand in
  let%% _ := wput_command (with_assignments c (if a then replicate count no_assignment else []) (assignment_count c)) in
  let%% b := whost malloc in
  if negb (a && b) then nomem else
  let%% names := assignment_names words 0 [] in
  let%% s := wstate in
  let%% (r, save) := whost (csh_state_save_variables s names) in
  if negb (bool_decide (r = CSH_STATE_OK)) then nomem else
  finally (assignment_values words store 0) (restore_names save).

(** ** Redirections *)

(** [None] is -1. *)
Fixpoint descriptor_loop (text : str) (value : Z) (digits : bool) : option Z :=
  match text with
  | [] => if digits then Some value else None
  | b :: rest =>
      let number := let digit := b - ch "0" in
        if (digit <? 0) || (digit >? 9) || (value >? (INT_MAX - digit) / 10) then None else Some (value * 10 + digit) in
      match rest with
      | c :: rest' =>
          if (b =? ch "\") && (c =? 10) then descriptor_loop rest' value digits
          else match number with Some v => descriptor_loop rest v true | None => None end
      | [] => match number with Some v => descriptor_loop rest v true | None => None end
      end
  end.

Definition csh_descriptor (text : str) : option Z := descriptor_loop text 0 false.

Definition redirect_form (kind : csh_token_kind) (options : Z) : option (csh_redirect_kind * bool) :=
  match kind with
  | CSH_TOKEN_LESS => Some (CSH_REDIRECT_READ, true)
  | CSH_TOKEN_GREAT => Some (if opt_on options CSH_OPT_NOCLOBBER then CSH_REDIRECT_NOCLOBBER else CSH_REDIRECT_WRITE, false)
  | CSH_TOKEN_DGREAT => Some (CSH_REDIRECT_APPEND, false)
  | CSH_TOKEN_LESS_GREAT => Some (CSH_REDIRECT_READ_WRITE, true)
  | CSH_TOKEN_CLOBBER => Some (CSH_REDIRECT_CLOBBER, false)
  | CSH_TOKEN_LESS_AND => Some (CSH_REDIRECT_DUP_READ, true)
  | CSH_TOKEN_GREAT_AND => Some (CSH_REDIRECT_DUP_WRITE, false)
  | CSH_TOKEN_DLESS | CSH_TOKEN_DLESS_DASH => Some (CSH_REDIRECT_HEREDOC, true)
  | _ => None
  end.

(** The data of a here-document. *)
Definition heredoc_data (source : redirection) (stack : list (list bool)) (checks : list bool) : W str :=
  match rd_body source with
  | None => wfail (fail (bs "here-document body has not been collected") ENONE)
  | Some body =>
      if delimiter_quoted source then let%% _ := wmalloc (bs "cannot allocate here-document body") in wret body else
      let%% r := (fun w =>
        let '(r, p) := csh_parser_document fuel body stack checks (pw_proc w) in
        let w := mk_prepared (pw_state w) (pw_command w) (pw_stack w) (pw_arithmetic w) (pw_outside w) (allocations (pw_proc w) p) in
        match r with
        | POk r => (WDone r, w)
        | PSpent => (WDone (inl no_error), mk_prepared (pw_state w) (pw_command w) (pw_stack w) (pw_arithmetic w) (with_unfinished (pw_outside w) Spent) (pw_proc w))
        | PFail | PCrash => (WFault, w)
        end) in
      match r with
      | inl e => wfail e
      | inr (word, store) => scalar word store 0 CSH_EXPAND_HEREDOC
      end
  end.

Definition csh_command_redirect (source : redirection) (store : gmap nat redirection) (stack : list (list bool)) (checks : list bool)
    : W csh_redirect :=
  let%% s := wstate in
  match redirect_form (operator_kind source) (options (csh_state_get_info s)) with
  | None => wfail (fail (bs "unsupported redirection operator") ENONE)
  | Some (kind, input) =>
      let%% fd := (match Ast.io_number source with
        | Some t =>
            match csh_descriptor (tk_raw t) with
            | Some fd => wret fd
            | None => wfail (fail (bs "invalid redirection descriptor") ENONE)
            end
        | None => wret (if input then 0 else 1)
        end) in
      if bool_decide (kind = CSH_REDIRECT_HEREDOC) then
        let%% data := heredoc_data source stack checks in wret (mk_redirect kind fd 0 None data)
      else
      let%% text := scalar (Ast.operand source) store 0 CSH_EXPAND_REDIRECTION in
      if bool_decide (kind = CSH_REDIRECT_DUP_READ) || bool_decide (kind = CSH_REDIRECT_DUP_WRITE) then
        if str_eqb text (bs "-") then wret (mk_redirect CSH_REDIRECT_CLOSE fd 0 None []) else
        match csh_descriptor text with
        | Some source_fd => wret (mk_redirect kind fd source_fd None [])
        | None => fun w => (WFail (-2) (mk_error (Some (bs "descriptor operand must be digits or '-'")) [] false ENONE 1 0 no_position), w)
        end
      else wret (mk_redirect kind fd 0 (Some text) [])
  end.

(** ** A whole command *)

Definition no_redirect : csh_redirect := mk_redirect CSH_REDIRECT_READ 0 0 None [].

Fixpoint command_redirects (l : list nat) (store : gmap nat redirection) (index : nat) (stack : list (list bool)) (checks : list bool) : W unit :=
  match l with
  | [] => wret tt
  | a :: rest =>
      let%% source := wopt (store !! a) in
      let%% c := wcommand in
      let%% _ := wput_command (with_redirections c (cm_redirections c) (S index)) in
      let%% r := csh_command_redirect source store stack checks in
      let%% c := wcommand in
      let%% _ := wput_command (with_redirections c (<[index := r]> (cm_redirections c)) (redirection_count c)) in
      command_redirects rest store (S index) stack checks
  end.

(** The command of a list of one that is not in the background. *)
Definition unwrap_list (tree : csh_ast) : csh_ast :=
  match ast_data tree with
  | List l =>
      match items l with
      | [item] => if bool_decide (items (redirections tree) = []) && negb (bool_decide (Ast.separator item = CSH_AST_AMPERSAND)) then it_command item else tree
      | _ => tree
      end
  | _ => tree
  end.

Definition csh_command_from_ast (tree : csh_ast) (store : gmap nat redirection) (stack : list (list bool)) (checks : list bool) : W unit :=
  let%% _ := wput_command no_command in
  let tree := unwrap_list tree in
  match ast_data tree with
  | Simple words =>
      let prepared :=
        let%% _ := csh_command_arguments (items words) store in
        let l := items (redirections tree) in
        let%% _ := (if bool_decide (l = []) then wret tt else
          let%% _ := wmalloc (bs "cannot allocate command redirections") in
          let%% c := wcommand in
          wput_command (with_redirections c (replicate (length l) no_redirect) (redirection_count c))) in
        let%% _ := command_redirects l store 0 stack checks in
        csh_command_assignments (items words) store in
      let%% r := wtry prepared in
      match r with
      | inr _ => wret tt
      | inl (_, e) => let%% _ := wput_command no_command in wfail e
      end
  | _ => wfail (fail (bs "only a single foreground simple command is supported") ENONE)
  end.
End Prepare.
