(* ===== verification/PrepareTheorems.v ===== *)
(** * Preparation of commands: theorems

    A word is prepared completely or not at all; the names of assignments are
    the ones that the parser recognised; assignments of a command are undone
    when it has been prepared; and a prepared command has no missing part. *)

From stdpp Require Import base list gmap strings.
From S2P Require Import Prelude Output Numbers Options Character Quote Alias State StateCopy StateTheorems Arithmetic ArithmeticTheorems Expansion Pathname Fields Descriptors Input InputTheorems Redirect Process Lexer LexerLook LexerTree LexerSafety LexerTurns LexerTotal LexerCalls LexerReplay LexerTheorems Values ValueLogic ValueStructure ValueSafety ValuesTheorems LexerKinds ParserLexer Ast Parser ParserLogic ParserSafety Grammar GrammarLook GrammarTree GrammarLists ParserFuel ParserTheorems Prepare.

(** ** Backquotes *)

Section Backquotes.
Context {loc : Locale} {LL : LocaleLaws loc} {ST : StableLocale loc} {db : LocaleDb}.

Lemma backquote_loop_total n raw q i end_ : (end_ <= length raw)%nat -> (end_ - i < n)%nat -> Forall is_byte raw ->
  exists text, backquote_loop n raw q i end_ = Some text /\ Forall is_byte text.
Proof.
  intros He Hf Hb. revert i Hf. induction n as [|n IH]; intros i Hf; [lia|]. cbn [backquote_loop].
  destruct (Nat.ltb_spec (i + 1) end_) as [Hi|Hi]; cbn [negb]; [|by exists []].
  destruct (lookup_lt_is_Some_2 raw i) as [b Eb]; [lia|]. rewrite Eb.
  set (skip := match raw !! S i with Some c => _ | None => false end).
  assert (skip = true -> (i + 2 < end_)%nat) as Hs.
  { unfold skip. destruct (raw !! S i); [|done]. rewrite !andb_true_iff, Nat.ltb_lt. tauto. }
  set (i' := if skip then S i else i). assert (i <= i' /\ i' + 1 < end_)%nat as [Hi1 Hi2].
  { unfold i'. destruct skip; [|lia]. specialize (Hs eq_refl). lia. }
  set (part := take (end_ - 1 - i') (drop i' raw)). assert (length part = end_ - 1 - i')%nat as Hl.
  { unfold part. rewrite length_take, length_drop. lia. }
  pose proof (csh_character_length_bound part true) as Hw. rewrite Hl in Hw. destruct Hw as [Hw1 Hw2]; [intros E; rewrite E in Hl; simpl in Hl; lia|].
  rewrite slice_spec by lia. destruct (IH (i' + csh_character_length part true true)%nat) as (rest & -> & Hr); [lia|].
  eexists. split; [done|]. apply Forall_app. split; [|done]. by apply Forall_take, Forall_drop.
Qed.

Lemma string_input_good text p : Forall is_byte text -> match string_input text p with
  | (inl _, p') => p_functions p' = p_functions p
  | (inr (i, k), p') => sourced is_byte i k /\ p_functions p' = p_functions p
  end.
Proof.
  intros Hb. unfold string_input, csh_input_from_string, allocate_input. cbn [is_kernel].
  destruct (sys_malloc _) as [[|] k1]; cbn [negb]; [|done]. destruct (sys_malloc k1) as [[|] k2]; cbn [negb]; [|done]. cbn [is_kernel in_with_kernel].
  unfold in_with_kernel. cbn [is_kernel]. destruct (sys_malloc k2) as [[|] k3]; cbn [negb]; [|done]. cbn. split; [|done]. by split.
Qed.

Lemma other_proc_session p w : session p ->
  session (with_tape p (mk_tape (t_source (ps_tape p)) (t_lexers (ps_tape p)) (t_stack (ps_tape p)) w)).
Proof. intros [H1 H2 H3 H4]. split; [|exact H2|done|done]. destruct H1. by split. Qed.

Lemma aliased_session p table : session p -> values_good table -> session (csh_parser_set_aliases p table).
Proof. intros [[S1 S2 S3 S4 S5 S6] H2 H3 H4] Ha. by split; [split|..]. Qed.

Lemma backquote_commands_safe fuel n p tree : session p -> exists r p', backquote_commands fuel n p tree = (r, p') /\ r <> TCrash.
Proof.
  revert p tree. induction n as [|n IH]; intros p tree Hs; cbn [backquote_commands]; [by eauto|].
  pose proof (next_post fuel p Hs) as H. unfold ppost in H. destruct (csh_parser_next fuel p) as [[| | |[[r t] e]] p']; [done|by eauto|done|].
  destruct H as [_ H]. simpl in H. destruct r; try (by eauto). destruct t as [t|]; [|by eauto].
  destruct (csh_ast_list_add _ _ _) as [[e'|tree'] w]; [by eauto|]. apply IH. destruct H as (_ & _ & H & _). by apply other_proc_session.
Qed.

Lemma alias_bytes_values table : alias_bytes table -> values_good table.
Proof.
  intros H l name v -> E. simpl in H. unfold csh_aliases_get in E. destruct (Alias.valid_name name); [|done].
  apply fmap_Some in E as (a & Ea & ->). assert (a ∈ l) as Hin.
  { clear H. induction l as [|x l IH]; simpl in Ea; [done|]. destruct (str_eqb _ _); [injection Ea as <-; left|right; auto]. }
  rewrite Forall_forall in H. by apply H.
Qed.
End Backquotes.

(** ** The callback *)

(** What an executor promises: a well-formed state with what is [fixed],
    aliases whose values are bytes, and the reference counts it found. *)
Definition executor_sound (E : Executor) : Prop := forall s store tree user p,
  state_wf s -> counts_positive (p_functions p) -> alias_bytes (aliases s) ->
  let '(_, _, s', p') := csh_execute_substitution s store tree user p in
  state_wf s' /\ fixed s' = fixed s /\ alias_bytes (aliases s') /\ p_functions p' = p_functions p.

Section Callback.
Context {loc : Locale} {LL : LocaleLaws loc} {ST : StableLocale loc} {fs : Files} {users : Users} {db : LocaleDb} {exec : Executor}.
Context (fuel : nat) (parser_stack : nat -> list (list bool)) (parser_checks : nat -> list bool).
Hypothesis exec_sound : executor_sound exec.

Lemma aliases_post s w : state_wf s -> alias_bytes (aliases s) ->
  post (csh_state_aliases s) w (fun '(table, s') w' => state_wf s' /\ fixed s' = fixed s /\ alias_bytes (aliases s') /\
    aliases s' = table /\ p_functions w' = p_functions w).
Proof.
  intros Hwf Ha. unfold csh_state_aliases. destruct (aliases s) as [t|] eqn:E; [apply post_ret; by rewrite E|].
  unfold csh_aliases_create. do 2 apply post_bind. apply post_malloc. intros b w1 (_ & _ & _ & Hf) _.
  assert (forall t, from_option aliases_wf True t -> state_wf (State.with_aliases s t)) as Hw by (intros t Ht; by destruct Hwf; split).
  destruct b; do 2 apply post_ret; simpl; split_and!; try done; apply Hw; simpl; [|done].
  repeat constructor.
Qed.

Lemma backquote_tree_safe s tok i f p : state_wf s -> alias_bytes (aliases s) -> Forall is_byte (tk_raw tok) ->
  tk_fragments tok !! i = Some f -> fragment_fits (tk_raw tok) f -> fr_kind f = CSH_FRAGMENT_BACKQUOTE ->
  let '(r, s', p') := backquote_tree fuel parser_stack parser_checks s tok i p in
  r <> TCrash /\ state_wf s' /\ fixed s' = fixed s /\ alias_bytes (aliases s') /\ p_functions p' = p_functions p.
Proof.
  intros Hwf Ha Hb Hf (F1 & F2 & F3 & _) Hk. rewrite Hk in F3. specialize (F3 ltac:(done)). unfold backquote_tree. rewrite Hf.
  pose proof (still_malloc p) as Hm. destruct (malloc p) as [ok p1]. simpl in Hm. destruct (negb ok); [by split_and!|].
  destruct (backquote_loop_total (S (fr_end f)) (tk_raw tok) (fr_quote f) (S (fr_begin f)) (fr_end f) F2 ltac:(lia) Hb) as (text & Et & Hbt).
  unfold backquote_text. rewrite Et. assert (Forall is_byte (c_text text)) as Hct.
  { unfold c_text. clear -Hbt. induction Hbt as [|b text H1 H2 IH]; simpl; [constructor|]. destruct (b =? 0); simpl; [constructor|].
    destruct (cut_at text 0); simpl in *. by constructor. }
  pose proof (string_input_good (c_text text) p1 Hct) as Hi. destruct (string_input (c_text text) p1) as [[e|[inp k]] p2]; [split_and!; [done..|congruence]|].
  destruct Hi as [Hsrc Hf2].
  assert (p_functions (snd (csh_parser_create (Some (inp, k)) (parser_stack i) (parser_checks i) p2)) = p_functions p2) as Hcr.
  { unfold csh_parser_create. destruct (negb (offset _ =? 0)); [done|]. pose proof (still_malloc p2) as H1. destruct (malloc p2) as [[|] p3]; cbn [negb]; [|done].
    simpl in H1. rewrite <- H1. unfold csh_lexer_create, bind, ret.
    pose proof (still_malloc p3) as H3. destruct (malloc p3) as [[|] p4]; cbn; [|done]. simpl in H3.
    pose proof (still_malloc p4) as H4. destruct (malloc p4) as [[|] p5]; cbn; [|by rewrite <- H3]. simpl in H4.
    pose proof (still_malloc p5) as H5. destruct (malloc p5) as [[|] p6]; cbn; simpl in H5; congruence. }
  destruct (csh_parser_create _ _ _ p2) as [[e|parser] p3] eqn:Ec; simpl in Hcr; [split_and!; [done..|congruence]|].
  pose proof (create_session _ _ _ _ _ _ _ Hsrc Ec) as Hs.
  assert (p_functions (snd (csh_ast_create CSH_AST_LIST p3)) = p_functions p3) as Hac.
  { unfold csh_ast_create, bind, ret. pose proof (still_malloc p3) as H1. by destruct (malloc p3) as [[|] p4]. }
  destruct (csh_ast_create CSH_AST_LIST p3) as [[e|tree] p4]; simpl in Hac; [split_and!; [done..|congruence]|].
  pose proof (aliases_post s p4 Hwf Ha) as Hal. unfold post in Hal. destruct (csh_state_aliases s p4) as [[table s1] p5].
  destruct Hal as (W1 & W2 & W3 & W4 & W5). destruct table as [table|]; [|split_and!; [done..|congruence]].
  destruct (backquote_commands_safe fuel fuel (csh_parser_set_aliases (with_tape parser (mk_tape (t_source (ps_tape parser)) (t_lexers (ps_tape parser))
    (t_stack (ps_tape parser)) p5)) (Some table)) tree) as (r & parser' & -> & Hr).
  { apply aliased_session; [by apply other_proc_session|]. apply alias_bytes_values. by rewrite <- W4. }
  destruct r as [| |e|t]; [done|..]; (split_and!; [done..|]); simpl; congruence.
Qed.

Lemma substitute_sound (w : word) store tok : Forall is_byte (tk_raw tok) ->
  callback_sound tok (substitute fuel parser_stack parser_checks w store).
Proof.
  intros Hb s e p u i f Hwf Hpos Ha He Hf Hfit Hk. unfold substitute. rewrite Hf.
  assert (forall failure, from_option (fun e0 => ee_code e0 = None \/ ee_code e0 = Some (substitution_code failure)) True
    (option_map (fun _ => mk_expand_error (Some (substitution_code failure)) (Some i) (fr_start f)
      (take max_message (default [] (csh_error_message failure)))) e)) as Htold by (intros failure; destruct e; simpl; auto).
  assert (forall failure, option_map (fun _ => mk_expand_error (Some (substitution_code failure)) (Some i) (fr_start f)
      (take max_message (default [] (csh_error_message failure)))) e = None <-> e = None) as Hnone by (intros failure; by destruct e).
  assert (let '(tree, s1, p1) := if bool_decide (fr_kind f = CSH_FRAGMENT_BACKQUOTE) then backquote_tree fuel parser_stack parser_checks s tok i p
      else (match List.find (fun b => (fragment_index b =? i)%nat) (items (substitutions w)) with
          | Some b => TDone (sb_body b, store)
          | None => TError (fail (bs "missing command substitution tree") ENONE)
          end, s, p) in
    tree <> TCrash /\ state_wf s1 /\ fixed s1 = fixed s /\ alias_bytes (aliases s1) /\ p_functions p1 = p_functions p) as Htree.
  { case_bool_decide as Eb; [by apply (backquote_tree_safe _ _ _ f)|]. split_and!; [|done..]. by destruct (List.find _ _). }
  destruct (if bool_decide _ then _ else _) as [[tree s1] p1]. destruct Htree as (Ht & W1 & W2 & W3 & W4).
  destruct tree as [| |failure|[body store']]; [done|by split_and!..|].
  pose proof (exec_sound s1 store' body u p1 W1 ltac:(by rewrite W4) W3) as Hx. destruct (csh_execute_substitution _ _ _ _ _) as [[[[failure|bytes] u'] s2] p2].
  all: destruct Hx as (X1 & X2 & X3 & X4); split_and!; try done; congruence.
Qed.
End Callback.

(** ** Words *)

Record prepared (w : prepare_work) : Prop := mk_prepared_ok {
  pr_state : state_wf (pw_state w); pr_counts : counts_positive (p_functions (pw_proc w)); pr_aliases : alias_bytes (aliases (pw_state w)) }.

(** What every step keeps. *)
Record proceeds (w w' : prepare_work) : Prop := mk_proceeds {
  pc_prepared : prepared w'; pc_fixed : fixed (pw_state w') = fixed (pw_state w);
  pc_counts : p_functions (pw_proc w') = p_functions (pw_proc w) }.

Lemma proceeds_refl w : prepared w -> proceeds w w.
Proof. by split. Qed.

Lemma proceeds_trans w1 w2 w3 : proceeds w1 w2 -> proceeds w2 w3 -> proceeds w1 w3.
Proof. intros [A1 A2 A3] [B1 B2 B3]. split; [done|congruence..]. Qed.

Lemma proceeds_same w w' : prepared w -> pw_state w' = pw_state w -> p_functions (pw_proc w') = p_functions (pw_proc w) -> proceeds w w'.
Proof. intros [H1 H2 H3] E1 E2. split; [split|..]; by rewrite ?E1, ?E2. Qed.

(** [F] holds of the work that a failure leaves. *)
Definition wpost {A} (m : W A) (w : prepare_work) (Q : A -> prepare_work -> Prop) (F : prepare_work -> Prop) : Prop :=
  prepared w ->
  match m w with
  | (WFault, _) => False
  | (WFail _ _, w') => proceeds w w' /\ F w'
  | (WDone a, w') => proceeds w w' /\ Q a w'
  end.

Section WRules.
Context {A : Type}.

Lemma wpost_ret (a : A) w (Q : A -> prepare_work -> Prop) F : Q a w -> wpost (wret a) w Q F.
Proof. intros H Hw. split; [by apply proceeds_refl|done]. Qed.

Lemma wpost_fail e w (Q : A -> prepare_work -> Prop) (F : prepare_work -> Prop) : F w -> wpost (wfail e) w Q F.
Proof. intros H Hw. split; [by apply proceeds_refl|done]. Qed.

Lemma wpost_bind {B} (m : W B) (f : B -> W A) w (Q : A -> prepare_work -> Prop) F :
  wpost m w (fun b w' => wpost (f b) w' Q F) F -> wpost (wbind m f) w Q F.
Proof.
  intros H Hw. specialize (H Hw). unfold wbind. destruct (m w) as [[|r e|b] w1]; [done..|]. destruct H as [K H].
  specialize (H (pc_prepared _ _ K)). destruct (f b w1) as [[|r e|a] w2]; [done|..]; destruct H as [K2 H]; (split; [by eapply proceeds_trans|done]).
Qed.

Lemma wpost_mono (m : W A) w (P Q : A -> prepare_work -> Prop) (E F : prepare_work -> Prop) : wpost m w P E ->
  (forall a w', proceeds w w' -> P a w' -> Q a w') -> (forall w', proceeds w w' -> E w' -> F w') -> wpost m w Q F.
Proof.
  intros H HQ HF Hw. specialize (H Hw). destruct (m w) as [[|r e|a] w1]; [done|..]; destruct H as [K H]; split; auto.
Qed.

Lemma wpost_opt (o : option A) w (Q : A -> prepare_work -> Prop) F : (exists a, o = Some a /\ Q a w) -> wpost (wopt o) w Q F.
Proof. intros (a & -> & H). by apply wpost_ret. Qed.

Lemma wpost_prepared (m : W A) w (Q : A -> prepare_work -> Prop) F : (prepared w -> wpost m w Q F) -> wpost m w Q F.
Proof. intros H Hw. by apply H. Qed.

Lemma wpost_try (m : W A) w (Q : (Z * csh_error) + A -> prepare_work -> Prop) F :
  wpost m w (fun a w' => Q (inr a) w') (fun w' => forall x, Q (inl x) w') -> wpost (wtry m) w Q F.
Proof.
  intros H Hw. specialize (H Hw). unfold wtry. destruct (m w) as [[|r e|a] w1]; [done|..]; destruct H as [K H]; (split; [done|]); [apply H|done].
Qed.

Lemma wpost_host (m : M A) w (Q : A -> prepare_work -> Prop) F :
  post m (pw_proc w) (fun a p' => p_functions p' = p_functions (pw_proc w) /\
    (forall w', pw_state w' = pw_state w -> pw_command w' = pw_command w -> pw_proc w' = p' -> Q a w')) -> wpost (whost m) w Q F.
Proof.
  unfold post, wpost, whost. destruct (m (pw_proc w)) as [a p']. intros [E H] Hw. split; [by apply proceeds_same|by apply H].
Qed.
End WRules.

Lemma wpost_state w (Q : csh_state -> prepare_work -> Prop) F : Q (pw_state w) w -> wpost wstate w Q F.
Proof. intros H Hw. split; [by apply proceeds_refl|done]. Qed.

Lemma wpost_command w (Q : csh_command -> prepare_work -> Prop) F : Q (pw_command w) w -> wpost wcommand w Q F.
Proof. intros H Hw. split; [by apply proceeds_refl|done]. Qed.

Lemma wpost_put_command c w (Q : unit -> prepare_work -> Prop) F :
  (forall w', pw_state w' = pw_state w -> pw_command w' = c -> Q tt w') -> wpost (wput_command c) w Q F.
Proof. intros H Hw. split; [by apply proceeds_same|by apply H]. Qed.

Lemma wpost_put s w (Q : unit -> prepare_work -> Prop) F :
  (prepared w -> state_wf s /\ fixed s = fixed (pw_state w) /\ alias_bytes (aliases s)) ->
  (forall w', pw_state w' = s -> pw_command w' = pw_command w -> Q tt w') -> wpost (wput s) w Q F.
Proof. intros Hs H Hw. destruct (Hs Hw) as (H1 & H2 & H3). split; [|by apply H]. split; [split; [done|apply Hw|done]|done..]. Qed.

Lemma wpost_alloc w (Q : bool -> prepare_work -> Prop) F :
  (forall b w', pw_state w' = pw_state w -> pw_command w' = pw_command w -> Q b w') -> wpost (whost malloc) w Q F.
Proof. intros H. apply wpost_host, post_malloc. intros b p (_ & _ & _ & E) _. split; [done|]. intros w' E1 E2 _. by apply H. Qed.

Lemma wpost_malloc text w (Q : unit -> prepare_work -> Prop) (F : prepare_work -> Prop) :
  (forall w', pw_state w' = pw_state w -> pw_command w' = pw_command w -> Q tt w' /\ F w') -> wpost (wmalloc text) w Q F.
Proof.
  intros H. unfold wmalloc. apply wpost_bind, wpost_alloc. intros [] w' E1 E2; [apply wpost_ret|apply wpost_fail]; by apply H.
Qed.

(** One step of a preparation. *)
Ltac wstep := cbv beta iota; match goal with
  | |- wpost (wbind _ _) _ _ _ => apply wpost_bind
  | |- wpost (wret _) _ _ _ => apply wpost_ret
  | |- wpost (wfail _) _ _ _ => apply wpost_fail
  | |- wpost wstate _ _ _ => apply wpost_state
  | |- wpost wcommand _ _ _ => apply wpost_command
  | |- wpost (wput_command _) _ _ _ => apply wpost_put_command; let w := fresh "w" in let E := fresh "Es" in let E' := fresh "Ec" in intros w E E'
  | |- wpost (wmalloc _) _ _ _ => apply wpost_malloc; let w := fresh "w" in let E := fresh "Es" in let E' := fresh "Ec" in intros w E E'
  | |- wpost (whost malloc) _ _ _ => apply wpost_alloc; let b := fresh "b" in let w := fresh "w" in let E := fresh "Es" in let E' := fresh "Ec" in intros b w E E'
  | |- wpost (if ?b then _ else _) _ _ _ => let E := fresh "E" in destruct b eqn:E
  | |- wpost (let '(_, _) := ?x in _) _ _ _ => let E := fresh "E" in destruct x eqn:E
  end.

Section Words.
Context {loc : Locale} {LL : LocaleLaws loc} {ST : StableLocale loc} {fs : Files} {users : Users} {db : LocaleDb} {exec : Executor}.
Context (fuel : nat) (parser_stack : nat -> list (list bool)) (parser_checks : nat -> list bool).
Hypothesis exec_sound : executor_sound exec.

(** The bytes of a word. *)
Definition word_bytes (w : word) : Prop := Forall is_byte (tk_raw (Ast.token w)).

(** Nothing of a command changes but the status of its last substitution. *)
Definition same_parts (c c' : csh_command) : Prop := c' = with_status c (substitution_status c').

Lemma same_parts_refl c : same_parts c c.
Proof. by destruct c. Qed.

Lemma same_parts_trans c1 c2 c3 : same_parts c1 c2 -> same_parts c2 c3 -> same_parts c1 c3.
Proof. unfold same_parts. intros -> E. simpl in E. rewrite E. by destruct c1. Qed.

Lemma expand_safe (word : word) store offset mode w : word_bytes word ->
  wpost (expand fuel parser_stack parser_checks word store offset mode) w
    (fun _ w' => same_parts (pw_command w) (pw_command w'))
    (fun w' => same_parts (pw_command w) (pw_command w') /\ pw_state w' = pw_state w).
Proof.
  intros Hb. unfold expand. wstep; [wstep; by split; [apply same_parts_refl|]|]. wstep.
  apply (wpost_mono _ _ (fun token w' => pw_state w' = pw_state w /\ pw_command w' = pw_command w /\ Forall is_byte (tk_raw token))
    _ (fun w' => pw_state w' = pw_state w /\ pw_command w' = pw_command w)).
  2:{ intros token w1 K1 (E1 & E2 & Hb1). wstep. wstep. rewrite E1.
      intros [Hwf Hpos Hal]. rewrite E1 in Hwf, Hal. unfold wbind, whost.
      pose proof (save_post (pw_state w) (pw_proc w1) Hwf Hpos) as Hsave. unfold post in Hsave.
      destruct (csh_state_save (pw_state w) (pw_proc w1)) as [[r checkpoint] p2].
      destruct Hsave as [[[[= -> ->] (_ & _ & _ & Hf)]|[[= -> ->] (_ & _ & _ & Hf)]] _].
      2:{ cbn. split; [|split; [rewrite E2; apply same_parts_refl|done]]. apply proceeds_same; [by split; rewrite ?E1|done|done]. }
      rewrite bool_decide_true by done. cbn [negb]. set (w2 := mk_prepared _ _ _ _ _ p2).
      pose proof (expand_word_spec token (Some (mk_options mode (Some (substitute fuel parser_stack parser_checks word store)))) (pw_state w)
        (Some (mk_expand_error None None no_position [])) (pw_stack w2) (pw_arithmetic w2) p2 (substitution_status (pw_command w2), pw_outside w2) Hwf
        ltac:(rewrite Hf; by apply retain_all_positive) Hal (substitute_sound _ _ _ exec_sound _ _ _ Hb1)) as H.
      unfold expand_stages. change (pw_state w2) with (pw_state w1). rewrite E1. change (pw_proc w2) with p2. destruct (csh_expand_word _ _ _) as [[|c|value] v]; [done| |].
      - destruct H as (H1 & H2 & _). cbn beta iota. unfold wstate. cbn [pw_state pw_proc].
        pose proof (restore_undoes (pw_state w) (vs_state v) (pw_proc w1) (vs_proc v) Hpos ltac:(by rewrite H1) ltac:(by rewrite H2)) as Hr. unfold post in Hr.
        destruct (csh_state_restore (vs_state v) (Some (pw_state w)) (vs_proc v)) as [[r' s'] p4]. destruct Hr as (Hs' & Hc' & _). simpl in Hs'. subst s'.
        unfold wput, wfail. cbn. split; [apply proceeds_same; [by split; rewrite ?E1|by rewrite E1|done]|]. split; [by rewrite E2|done].
      - destruct H as (H1 & H2 & H3 & H4 & _). cbn beta iota. cbn [pw_state pw_proc]. unfold uninterrupted at 1.
        destruct (csh_expand_fields (vs_state v) value _) as [[r e] p3] eqn:Ef.
        pose proof (still_expand_fields (vs_state v) value (mk_proc (p_alloc (vs_proc v)) (p_writes (vs_proc v)) (p_stdio (vs_proc v)) (p_stdout (vs_proc v))
          (p_stderr (vs_proc v)) (p_locale (vs_proc v)) (p_functions (vs_proc v)) [])) as Hst. rewrite Ef in Hst. simpl in Hst.
        cbn beta iota. cbn [pw_state pw_command pw_stack pw_arithmetic pw_proc]. set (p4 := mk_proc _ _ _ _ _ _ _ _).
        assert (p_functions p4 = retain_all (functions (pw_state w)) (p_functions (pw_proc w1))) as Hp4 by (unfold p4; simpl; congruence).
        destruct r as [code|fields].
        + unfold wstate. cbn [pw_state pw_proc]. pose proof (restore_undoes (pw_state w) (vs_state v) (pw_proc w1) p4 Hpos (fixed_functions _ _ H2) Hp4) as Hr. unfold post in Hr.
          destruct (csh_state_restore (vs_state v) (Some (pw_state w)) p4) as [[r' s'] p5]. destruct Hr as (Hs' & Hc' & _). simpl in Hs'. subst s'.
          unfold wput, wfail. cbn. split; [apply proceeds_same; [by split; rewrite ?E1|by rewrite E1|done]|]. split; [by rewrite E2|done].
        + cbn [pw_proc]. pose proof (destroy_undoes (pw_state w) (pw_proc w1) p4 Hpos Hp4) as Hd. unfold post in Hd.
          destruct (csh_state_checkpoint_destroy (Some (pw_state w)) p4) as [[] p5]. destruct Hd as (Hc' & _). unfold wret. cbn.
          split; [|by rewrite E2]. split; simpl; [split; simpl; [done|by rewrite Hc'|done]|by rewrite E1|done]. }
  2:{ intros w1 K1 [E1 E2]. split; [rewrite E2; apply same_parts_refl|done]. }
  wstep; [by wstep|]. wstep; [by wstep|]. wstep. wstep. wstep; wstep; [|done]. split_and!; [done..|]. simpl. by apply Forall_drop.
Qed.

(** A word is prepared completely or not at all. *)
Lemma prepare_word_spec (word : word) store mode w : word_bytes word -> prepared w ->
  match csh_prepare_word fuel parser_stack parser_checks word store mode w with
  | (WFault, _) => False
  | (WFail _ _, w') => pw_state w' = pw_state w /\ pw_command w' = pw_command w /\ p_functions (pw_proc w') = p_functions (pw_proc w)
  | (WDone _, w') => proceeds w w' /\ pw_command w' = pw_command w
  end.
Proof.
  intros Hb [H1 H2 H3]. unfold csh_prepare_word. set (w0 := mk_prepared (pw_state w) no_command _ _ _ _).
  pose proof (expand_safe word store 0 mode w0 Hb ltac:(by split)) as H. destruct (expand _ _ _ _ _ _ _ w0) as [[|r e|fields] w'].
  - done.
  - destruct H as [[K1 K2 K3] [_ E]]. by split_and!.
  - destruct H as [[[K1 K2 K3] K4 K5] _]. split; [|done]. split; [by split|done..].
Qed.
End Words.

(** ** Assignments of a command *)

(** Saving and restoring variables keep the rest. *)
Lemma save_variables_counts s names p r save p' : csh_state_save_variables s names p = (r, save, p') -> p_functions p' = p_functions p.
Proof.
  unfold csh_state_save_variables. destruct (mapM id names) as [ns|]; [|by intros [= _ _ <-]]. destruct (forallb _ ns); [|by intros [= _ _ <-]].
  assert (forall out, ValueSafety.still (State.save_loop s ns out)) as Hs.
  { induction ns as [|n ns IH]; intros out; cbn [State.save_loop]; [apply still_ret|]. destruct (State.saved out n); [done|]. apply still_bind; [apply still_malloc|].
    intros [|]; cbn [negb]; [|apply still_ret]. apply still_bind; [|intros [x|]; [done|apply still_ret]]. unfold new_variable, copy_bytes. stilled. }
  intros E. pose proof (Hs [] p) as H. by rewrite E in H.
Qed.

Lemma restore_loop_frame s save b : fixed (State.restore_loop s save b).1 = fixed s /\ aliases (State.restore_loop s save b).1 = aliases s.
Proof.
  revert s b. induction save as [|e save IH]; intros s b; cbn [State.restore_loop]; [done|].
  match goal with |- context [State.restore_loop ?s' save ?b'] => destruct (IH s' b') as [-> ->] end. destruct (str_eqb _ _); done.
Qed.

Lemma restore_variables_frame `{LocaleDb} s save p : let '(_, s', p') := csh_state_restore_variables s save p in
  fixed s' = fixed s /\ aliases s' = aliases s /\ p_functions p' = p_functions p.
Proof.
  unfold csh_state_restore_variables. pose proof (restore_loop_frame s save false) as [F1 F2]. destruct (State.restore_loop s save false) as [s' changed].
  unfold bind, ret. destruct changed; [|done]. pose proof (refresh_locale_data s' p) as Hp. unfold post in Hp. destruct (csh_state_refresh_locale s' p) as [[] p'].
  by destruct Hp as [(_ & _ & ?) _].
Qed.

Section Assignments.
Context {loc : Locale} {LL : LocaleLaws loc} {ST : StableLocale loc} {fs : Files} {users : Users} {db : LocaleDb} {exec : Executor}.
Context (fuel : nat) (parser_stack : nat -> list (list bool)) (parser_checks : nat -> list bool).
Hypothesis exec_sound : executor_sound exec.

Abbreviation command_word := (csh_ast_command_word csh_ast).

(** The names that the assignment words assign, in order. *)
Definition assigned_names (l : list command_word) : list str :=
  map (fun s => snd (assignment_name (cw_word s))) (List.filter cw_assignment l).

Lemma scalar_safe (word : word) store offset mode w : word_bytes word ->
  wpost (scalar fuel parser_stack parser_checks word store offset mode) w
    (fun _ w' => same_parts (pw_command w) (pw_command w')) (fun w' => same_parts (pw_command w) (pw_command w')).
Proof.
  intros Hb. unfold scalar. wstep. eapply wpost_mono; [by apply expand_safe| |by intros ? _ []].
  intros fields w1 _ H. cbv beta in H. destruct fields as [|v [|? ?]]; [|by wstep|by wstep]. wstep. wstep. rewrite Ec. split; [wstep; by rewrite Ec|done].
Qed.

(** The first [n] assignments have the names [names] and are [filled]. *)
Definition named (c : csh_command) (names : list str) : Prop :=
  (length names <= length (assignments c))%nat /\
  forall i n, names !! i = Some n -> exists a, assignments c !! i = Some a /\ as_name a = Some n.

Lemma assignment_names_spec l index names w : index = length names -> named (pw_command w) names ->
  (length names + length (List.filter cw_assignment l) <= length (assignments (pw_command w)))%nat ->
  wpost (assignment_names l index (Some <$> names)) w
    (fun r w' => pw_state w' = pw_state w /\ r = Some <$> (names ++ assigned_names l) /\ named (pw_command w') (names ++ assigned_names l) /\
       length (assignments (pw_command w')) = length (assignments (pw_command w)) /\
       assignment_count (pw_command w') = (if bool_decide (assigned_names l = []) then assignment_count (pw_command w) else length names + length (assigned_names l))%nat)
    (fun w' => pw_state w' = pw_state w).
Proof.
  intros ->. revert names w. induction l as [|source l IH]; intros names w Hn Hl; cbn [assignment_names].
  { wstep. rewrite app_nil_r. by split_and!. }
  unfold assigned_names in *. cbn [List.filter] in *. destruct (cw_assignment source) eqn:Ea; cbn [negb]; [|by apply IH].
  cbn [map length] in *. wstep. wstep. wstep; [by wstep|]. destruct (assignment_name (cw_word source)) as [offset name] eqn:En. cbn [snd].
  wstep; [by wstep|]. wstep. wstep. wstep. wstep. rewrite Ec in Ec0.
  assert (named (pw_command w1) (names ++ [name])) as Hn1.
  { destruct Hn as [Hn1 Hn2]. rewrite Ec0. split; simpl; [rewrite length_insert, length_app; simpl; lia|]. intros i n Hi.
    destruct (decide (i = length names)) as [->|Hne].
    - rewrite lookup_app_r in Hi by lia. rewrite Nat.sub_diag in Hi. injection Hi as <-. eexists. rewrite list_lookup_insert_eq by lia. done.
    - rewrite list_lookup_insert_ne by done. apply Hn2. rewrite lookup_app_l in Hi; [done|]. apply lookup_lt_Some in Hi. rewrite length_app in Hi. simpl in Hi. lia. }
  assert (length (assignments (pw_command w1)) = length (assignments (pw_command w))) as Hl1 by (rewrite Ec0; simpl; apply length_insert).
  replace (S (length names)) with (length (names ++ [name])) by (rewrite length_app; simpl; lia).
  replace ((Some <$> names) ++ [Some name]) with (Some <$> names ++ [name]) by by rewrite fmap_app.
  eapply wpost_mono; [apply IH; [done|]| |].
  - rewrite Hl1, length_app. simpl. lia.
  - intros r w2 _ (R1 & R2 & R3 & R4 & R5). split_and!; [congruence|by rewrite R2, <- app_assoc|by rewrite <- app_assoc in R3|congruence|].
    rewrite R5, length_app. simpl. case_bool_decide as Eb; [|lia]. rewrite Ec0. simpl. rewrite Eb. simpl. lia.
  - intros w2 _ R1. congruence.
Qed.

(** The values are there for the first [k] of the names. *)
Definition valued (c : csh_command) (names : list str) (k : nat) : Prop :=
  named c names /\ forall i, (i < k)%nat -> exists a, assignments c !! i = Some a /\ is_Some (as_value a).

Lemma named_parts c c' names k : same_parts c c' -> valued c names k -> valued c' names k.
Proof. intros -> H. exact H. Qed.

Lemma assignment_values_spec l store names k w : (forall s, s ∈ l -> word_bytes (cw_word s)) ->
  valued (pw_command w) names k -> length names = (k + length (List.filter cw_assignment l))%nat ->
  wpost (assignment_values fuel parser_stack parser_checks l store k) w
    (fun _ w' => valued (pw_command w') names (length names) /\ length (assignments (pw_command w')) = length (assignments (pw_command w)) /\
       assignment_count (pw_command w') = assignment_count (pw_command w))
    (fun _ => True).
Proof.
  revert k w. induction l as [|source l IH]; intros k w Hb Hv Hl; cbn [assignment_values List.filter] in *.
  { wstep. simpl in Hl. rewrite Hl, Nat.add_0_r. done. }
  assert (forall s, s ∈ l -> word_bytes (cw_word s)) as Hb' by (intros s Hs; apply Hb; by right).
  destruct (cw_assignment source) eqn:Ea; cbn [negb length] in *; [|by apply IH].
  wstep. eapply wpost_mono; [apply scalar_safe; apply Hb; left| |done]. intros value w1 _ Hs. wstep. wstep. wstep.
  pose proof (named_parts _ _ _ _ Hs Hv) as [[Hn1 Hn2] Hv1]. destruct (lookup_lt_is_Some_2 names k) as [n En]; [lia|].
  destruct (Hn2 k n En) as (a & Eaa & Ename). apply wpost_opt. exists a. split; [done|]. wstep. wstep.
  assert (valued (pw_command w0) names (S k)) as Hv2.
  { rewrite Ec. split; [split; simpl; [by rewrite length_insert|]|].
    - intros i m Hm. destruct (decide (i = k)) as [->|Hne].
      + rewrite list_lookup_insert_eq by (by eapply lookup_lt_Some). eexists. split; [done|]. simpl. congruence.
      + rewrite list_lookup_insert_ne by done. by apply Hn2.
    - intros i Hi. simpl. destruct (decide (i = k)) as [->|Hne].
      + rewrite list_lookup_insert_eq by (by eapply lookup_lt_Some). eexists. split; [done|]. eauto.
      + rewrite list_lookup_insert_ne by done. apply Hv1. lia. }
  assert (length (assignments (pw_command w0)) = length (assignments (pw_command w)) /\ assignment_count (pw_command w0) = assignment_count (pw_command w)) as [Hl0 Hc0].
  { rewrite Ec. unfold same_parts in Hs. rewrite Hs. simpl. by rewrite length_insert. }
  wstep. wstep. wstep. rewrite Ename. apply wpost_prepared. intros [Hwf Hpos Hal]. apply wpost_host. unfold post.
  destruct (csh_state_set_variable _ _ _ _) as [[r s] p] eqn:Es'.
  pose proof (set_variable_step _ _ _ _ _ _ _ Es' Hwf) as (S1 & (S2 & S3 & S5 & S6) & (_ & _ & S4)). split; [done|]. intros w2 Ew2 Ec2 _. wstep.
  apply wpost_put; [intros _; rewrite Ew2; split_and!; [done|unfold fixed; congruence|by rewrite S3]|]. intros w3 _ Ec3.
  destruct r; [|by wstep..]. eapply wpost_mono; [apply IH; [done| |lia]| |done].
  - by rewrite Ec3, Ec2.
  - intros [] w4 _ (R1 & R2 & R3). rewrite Ec3, Ec2 in R2, R3. split_and!; [done|congruence..].
Qed.

(** What [csh_command_assignments] leaves. *)
Definition undone (words : list command_word) (w w' : prepare_work) : Prop :=
  forall n, n ∈ assigned_names words -> var_map (variables (pw_state w')) !! n = var_map (variables (pw_state w)) !! n.

Lemma undone_same words w w' : pw_state w' = pw_state w -> undone words w w'.
Proof. intros E n _. by rewrite E. Qed.

Lemma assigned_length words : length (assigned_names words) = length (List.filter cw_assignment words).
Proof. unfold assigned_names. by rewrite length_map. Qed.

(** All assignments of the command, with their values. *)
Definition all_assigned (c : csh_command) (names : list str) : Prop :=
  assignment_count c = length names /\ valued c names (length names) /\ length (assignments c) = length names.

(** Restoring what was saved of the state [s]. *)
Lemma restore_names_spec (s : csh_state) words p save p' w :
  csh_state_save_variables s (Some <$> assigned_names words) p = (CSH_STATE_OK, save, p') ->
  wpost (restore_names save) w (fun _ w' => (forall n, n ∈ assigned_names words -> var_map (variables (pw_state w')) !! n = var_map (variables s) !! n) /\
    pw_command w' = pw_command w) (fun _ => False).
Proof.
  intros Esave. unfold restore_names. wstep. wstep. wstep. apply wpost_prepared. intros [Hwf Hpos Hal]. apply wpost_host.
  pose proof (restore_saved s (pw_state w) (assigned_names words) p (pw_proc w) save p' Hwf Esave) as Hr.
  pose proof (restore_variables_frame (pw_state w) save (pw_proc w)) as Hfr. unfold post in Hr |- *.
  destruct (csh_state_restore_variables (pw_state w) save (pw_proc w)) as [[r6 s6] p6]. destruct Hr as (-> & Hwf6 & Hm). destruct Hfr as (F1 & F2 & F3).
  split; [done|]. intros w6 E6 C6 _. apply wpost_put; [intros _; rewrite E6; split_and!; [done..|by rewrite F2]|].
  intros w7 E7 C7. split; [|congruence]. intros n Hn. rewrite E7, Hm. by rewrite decide_True.
Qed.

Lemma command_assignments_spec words store w : (forall s, s ∈ words -> word_bytes (cw_word s)) ->
  assignment_count (pw_command w) = 0%nat -> assignments (pw_command w) = [] ->
  wpost (csh_command_assignments fuel parser_stack parser_checks words store) w
    (fun _ w' => undone words w w' /\ all_assigned (pw_command w') (assigned_names words)) (fun w' => undone words w w').
Proof.
  intros Hb Hc Ha. unfold csh_command_assignments. pose proof (assigned_length words) as Hlen. set (count := length (List.filter cw_assignment words)) in *.
  destruct (Nat.eqb_spec count 0) as [E0|E0].
  { wstep. split; [by apply undone_same|]. rewrite E0 in Hlen. apply nil_length_inv in Hlen. rewrite Hlen. split; [done|]. split; [|by rewrite Ha].
    split; [split; [simpl; lia|by intros i n Hi]|]. intros i Hi. simpl in Hi. lia. }
  wstep. wstep. wstep. wstep. wstep.
  apply (wpost_mono _ _ (fun _ w1 => pw_state w1 = pw_state w /\ (b = true -> assignments (pw_command w1) = replicate count no_assignment)) _ (fun _ => False)).
  2:{ intros [] w1 _ [Es1 Ea1]. wstep. wstep. wstep; [wstep; apply undone_same; congruence|]. apply negb_false_iff, andb_prop in E as [Eb _].
      specialize (Ea1 Eb). wstep. pose proof (assignment_names_spec words 0 [] w2 eq_refl) as Hnames.
      eapply wpost_mono; [apply Hnames| |].
      - split; [simpl; lia|]. by intros i n Hi.
      - rewrite Ec0, Ea1, length_replicate. simpl. fold count. lia.
      - intros names w3 _ (N1 & N2 & N3 & N4 & N5). simpl in N2, N3, N5. wstep. wstep. wstep. apply wpost_prepared. intros [Hwf Hpos Hal].
        apply wpost_host. unfold post. rewrite N2, N1, Es0, Es1. rewrite N1, Es0, Es1 in Hwf. destruct (csh_state_save_variables (pw_state w) _ (pw_proc w3)) as [[r save] p4] eqn:Esave.
        pose proof (save_variables_counts _ _ _ _ _ _ Esave) as Hp4. split; [done|]. intros w4 Es4 Ec4 _. wstep.
        { wstep. apply undone_same. congruence. }
        apply negb_false_iff, bool_decide_eq_true in E. subst r. unfold finally. wstep. apply wpost_try.
        eapply wpost_mono; [apply (assignment_values_spec words store (assigned_names words) 0)| |].
        + done.
        + rewrite Ec4. split; [exact N3|lia].
        + simpl. done.
        + intros [] w5 K5 (V1 & V2 & V3). wstep. eapply wpost_mono; [eapply restore_names_spec; exact Esave| |done]. intros [] w6 _ [U C6]. wstep. split; [done|].
          rewrite C6. split; [|split; [done|]].
          * rewrite V3, Ec4, N5. rewrite bool_decide_false; [done|]. intros En. rewrite En in Hlen. simpl in Hlen. lia.
          * rewrite V2, Ec4, N4, Ec0, Ea1, length_replicate. lia.
        + intros w5 K5 _ x. wstep. eapply wpost_mono; [eapply restore_names_spec; exact Esave| |done]. intros [] w6 _ [U C6]. destruct x as [code e].
          intros Hw6. split; [by apply proceeds_refl|done].
      - intros w3 _ N1. apply undone_same. congruence. }
  2: done.
  wstep. split; [congruence|]. intros ->. by rewrite Ec0.
Qed.
End Assignments.

(** ** Assignment words *)

(** In a token of the lexer, text and continuations contain no fragment. *)
Definition leaves_flat (l : list csh_fragment) : Prop := forall i f p, l !! i = Some f -> fr_parent f = Some p ->
  (p < i)%nat /\ exists g, l !! p = Some g /\ fr_kind g <> CSH_FRAGMENT_TEXT /\ fr_kind g <> CSH_FRAGMENT_CONTINUATION.

Definition assignment_step (b : byte) (count : nat) : option bool :=
  if b =? ch "=" then Some (negb (count =? 0)%nat) else name_step b count.

Definition name_so_far (name : str) : Prop := name = [] \/ State.valid_name name = true.

Lemma name_extend name b : name_so_far name -> Values.name_start b || (negb (bool_decide (name = [])) && Values.digit b) = true -> name_so_far (name ++ [b]).
Proof.
  intros Hn Hb. right. destruct name as [|a name]; simpl in *.
  - rewrite orb_false_r in Hb. by rewrite andb_true_r.
  - destruct Hn as [?|Hn]; [done|]. simpl in Hn. apply andb_prop in Hn as [-> Hn]. rewrite forallb_app, Hn. simpl. by rewrite andb_true_r.
Qed.

Lemma name_bytes_spec bytes j name : name_so_far name ->
  match name_bytes bytes j name with
  | inl (offset, n) => scan_bytes assignment_step bytes (length name) = inl (negb (offset =? 0)%nat) /\
      (offset <> 0%nat -> (j < offset)%nat /\ State.valid_name n = true /\ bytes !! (offset - 1 - j)%nat = Some (ch "="))
  | inr n => scan_bytes assignment_step bytes (length name) = inr (length n) /\ name_so_far n
  end.
Proof.
  revert j name. induction bytes as [|b bytes IH]; intros j name Hn; [done|]. cbn [name_bytes scan_bytes].
  assert (bool_decide (name = []) = (length name =? 0)%nat) as El by by destruct name.
  unfold assignment_step at 1 3, name_step. rewrite <- El. change State.name_start with Values.name_start. change digit_byte with Values.digit.
  destruct (b =? ch "=") eqn:Eb; cbn [andb].
  - apply Z.eqb_eq in Eb as ->. destruct Hn as [->|Hn]; [done|]. destruct name as [|a name]; [done|]. simpl. split; [done|]. intros _.
    split; [lia|]. split; [done|]. by replace (j - 0 - j)%nat with 0%nat by lia.
  - destruct (Values.name_start b || _) eqn:Ec; cbn [negb]; [|done].
    specialize (IH (S j) _ (name_extend _ _ Hn Ec)). rewrite length_app, Nat.add_1_r in IH. destruct (name_bytes bytes (S j) (name ++ [b])) as [[offset n]|n]; [|done].
    destruct IH as [IH1 IH2]. split; [done|]. intros Ho. destruct (IH2 Ho) as (H1 & H2 & H3). split; [lia|]. split; [done|].
    by replace (offset - 1 - j)%nat with (S (offset - 1 - S j)) by lia.
Qed.

Lemma name_fragments_spec raw l pre name : name_so_far name -> leaves_flat (pre ++ l) ->
  Forall (fun f => fr_kind f = CSH_FRAGMENT_TEXT \/ fr_kind f = CSH_FRAGMENT_CONTINUATION) pre ->
  let '(offset, n) := name_fragments l raw name in
  match scan_fragments assignment_step l raw (length name) with inl r => r | inr _ => false end = negb (offset =? 0)%nat /\
  (offset <> 0%nat -> State.valid_name n = true /\ raw !! (offset - 1)%nat = Some (ch "=")).
Proof.
  revert pre name. induction l as [|f l IH]; intros pre name Hn Hflat Hpre; cbn [name_fragments scan_fragments]; [done|].
  assert (fr_parent f = None) as Hroot.
  { destruct (fr_parent f) as [p|] eqn:Ep; [|done]. destruct (Hflat (length pre) f p) as (H1 & g & H2 & H3); [|done|].
    - rewrite lookup_app_r by lia. by rewrite Nat.sub_diag.
    - rewrite lookup_app_l in H2 by done. eapply Forall_lookup_1 in Hpre; [|done]. tauto. }
  rewrite (cons_middle f pre l), app_assoc in Hflat.
  unfold is_continuation. case_bool_decide as Ek; [apply (IH (pre ++ [f])); [done..|apply Forall_app; split; [done|apply Forall_singleton; by right]]|].
  rewrite (bool_decide_true (fr_parent f = None)) by done. rewrite orb_false_r, <- negb_andb. fold (is_plain f). destruct (is_plain f) eqn:Epl; cbn [negb]; [|done].
  pose proof (name_bytes_spec (fragment_bytes raw f) (fr_begin f) name Hn) as H.
  destruct (name_bytes _ _ _) as [[offset n]|n].
  - destruct H as [-> H]. split; [done|]. intros Ho. destruct (H Ho) as (H1 & H2 & H3). split; [done|]. unfold fragment_bytes in H3.
    apply lookup_take_Some in H3 as [H3 _]. rewrite lookup_drop in H3. rewrite <- H3. f_equal. lia.
  - destruct H as [-> H]. apply (IH (pre ++ [f])); [done..|]. apply Forall_app; split; [done|]. unfold is_plain in Epl. apply andb_prop in Epl as [Epl _]. apply bool_decide_eq_true in Epl. apply Forall_singleton. by left.
Qed.

(** C20: the parser and the preparation agree on what an assignment is.  A word
    that the parser takes for an assignment has an offset behind its ['='], and
    a word that it does not take for one has none; the name in front is a valid
    variable name and the byte before the offset is the ['=']. *)
Theorem assignment_words_agree (word : word) (Hflat : leaves_flat (tk_fragments (Ast.token word))) :
  let '(offset, name) := assignment_name word in
  Parser.assignment (Ast.token word) = negb (offset =? 0)%nat /\
  (offset <> 0%nat -> State.valid_name name = true /\ tk_raw (Ast.token word) !! (offset - 1)%nat = Some (ch "=")).
Proof. apply (name_fragments_spec _ _ [] []); [by left|done|constructor]. Qed.

(** ** Descriptors *)

(** A text without its continuations. *)
Fixpoint joined (text : str) : str :=
  match text with
  | [] => []
  | b :: rest => match rest with
    | c :: rest' => if (b =? ch "\") && (c =? 10) then joined rest' else b :: joined rest
    | [] => [b]
    end
  end.

Lemma descriptor_loop_spec n text value digits : (length text < n)%nat -> 0 <= value <= INT_MAX ->
  descriptor_loop text value digits =
    if forallb Values.digit (joined text) && (digits || negb (bool_decide (joined text = []))) && (decimal_value (joined text) value <=? INT_MAX)
    then Some (decimal_value (joined text) value) else None.
Proof.
  revert text value digits. induction n as [|n IH]; intros text value digits Hn Hv; [lia|]. destruct text as [|b rest].
  { simpl. rewrite orb_false_r. rewrite (proj2 (Z.leb_le _ _)) by lia. by destruct digits. }
  assert ((if (b - ch "0" <? 0) || (b - ch "0" >? 9) || (value >? (INT_MAX - (b - ch "0")) / 10) then None
     else descriptor_loop rest (value * 10 + (b - ch "0")) true) =
    if forallb Values.digit (b :: joined rest) && (digits || negb (bool_decide (b :: joined rest = []))) && (decimal_value (b :: joined rest) value <=? INT_MAX)
    then Some (decimal_value (b :: joined rest) value) else None) as Hdigit.
  { cbn [forallb]. change (decimal_value (b :: joined rest) value) with (decimal_value (joined rest) (value * 10 + (b - ch "0"))).
    assert (Values.digit b = negb ((b - ch "0" <? 0) || (b - ch "0" >? 9))) as -> by (unfold Values.digit, Prelude.between; change (ch "0") with 48; change (ch "9") with 57; lia).
    rewrite (bool_decide_false (b :: _ = _)) by done. rewrite orb_true_r, andb_true_r. set (d := b - ch "0") in *.
    destruct ((d <? 0) || (d >? 9)) eqn:Ed; [done|]. apply orb_false_iff in Ed as [Ed1 Ed2]. cbn [orb negb andb].
    assert (0 <= d <= 9) as Hd by lia. change INT_MAX with 2147483647 in *. destruct (value >? (2147483647 - d) / 10) eqn:Eo.
    - pose proof (Z.mul_succ_div_gt (2147483647 - d) 10 ltac:(lia)). assert (2147483647 < value * 10 + d) by lia.
      destruct (forallb Values.digit (joined rest)) eqn:Ef; [|done]. simpl. rewrite forallb_forall in Ef.
      pose proof (decimal_value_ge (joined rest) (value * 10 + d) ltac:(apply Forall_forall; intros x Hx; apply Ef; by apply list_elem_of_In) ltac:(lia)).
      rewrite (proj2 (Z.leb_gt _ _)) by lia. done.
    - pose proof (Z.mul_div_le (2147483647 - d) 10 ltac:(lia)). rewrite IH by (simpl in Hn; lia). by rewrite andb_true_r. }
  destruct rest as [|c rest']; [|destruct ((b =? ch "\") && (c =? 10)) eqn:Ec].
  - cbn [descriptor_loop joined] in *. rewrite <- Hdigit. by destruct (_ || _ || _).
  - cbn [descriptor_loop joined]. rewrite Ec. apply IH; [simpl in Hn; lia|done].
  - cbn [descriptor_loop joined] in *. rewrite Ec. rewrite <- Hdigit. by destruct (_ || _ || _).
Qed.

(** A descriptor number is never the wrong one.  The text of a descriptor,
    without the continuations in it, is its decimal value when it has digits
    only, at least one of them, and the value is an [int]; everything else is
    refused, and the value never wraps around. *)
Theorem descriptor_exact (text : str) :
  csh_descriptor text =
    if forallb Values.digit (joined text) && negb (bool_decide (joined text = [])) && (decimal_value (joined text) 0 <=? INT_MAX)
    then Some (decimal_value (joined text) 0) else None.
Proof. unfold csh_descriptor. by rewrite (descriptor_loop_spec (S (length text))) by (unfold INT_MAX; lia). Qed.

(** ** Claims *)

Section Claims.
Context {loc : Locale} {LL : LocaleLaws loc} {ST : StableLocale loc} {fs : Files} {users : Users} {db : LocaleDb} {exec : Executor}.
Context (fuel : nat) (parser_stack : nat -> list (list bool)) (parser_checks : nat -> list bool).
Hypothesis exec_sound : executor_sound exec.

(** C19: the assignments of a command do not outlive its preparation.  Later
    values are expanded with earlier ones in place, but in the end, after an
    error as after success, every assigned name has the binding from before; a
    prepared command has all its assignments, each with its name and its value,
    in the order of the words. *)
Theorem command_assignments_undone (words : list (csh_ast_command_word csh_ast)) store w
    (Hbytes : forall s, s ∈ words -> word_bytes (cw_word s)) (Hcount : assignment_count (pw_command w) = 0%nat)
    (Hnone : assignments (pw_command w) = []) (Hw : prepared w) :
  match csh_command_assignments fuel parser_stack parser_checks words store w with
  | (WFault, _) => False
  | (WFail _ _, w') => proceeds w w' /\ undone words w w'
  | (WDone _, w') => proceeds w w' /\ undone words w w' /\ all_assigned (pw_command w') (assigned_names words)
  end.
Proof.
  pose proof (command_assignments_spec fuel parser_stack parser_checks exec_sound words store w Hbytes Hcount Hnone Hw) as H.
  by destruct (csh_command_assignments _ _ _ _ _ w) as [[|r e|[]] w'].
Qed.
End Claims.

(** ** Examples *)

#[local] Existing Instance c_locale.
#[local] Existing Instance any_locale.
#[local] Existing Instance tiny_files.
#[local] Existing Instance no_users.

Lemma forallb_bytes (s : str) : forallb (fun b => (0 <=? b) && (b <? 256)) s = true -> Forall is_byte s.
Proof. rewrite forallb_forall. intros H. apply Forall_forall. intros b Hb. apply list_elem_of_In, H in Hb. unfold is_byte. lia. Qed.

(** An executor for which every substitution prints the same bytes. *)
#[local] Instance exec_out : Executor := fun s _ _ user p => (inr (Some (bs "out")), (3, snd user), s, p).

Lemma exec_out_sound : executor_sound exec_out.
Proof. intros s store tree user p H1 H2 H3. done. Qed.

Definition plain_word (s : str) : word := mk_word (word_of s) (mk_vector [] 0).
Definition sample_work : prepare_work := mk_prepared sample_state no_command [] [] idle sample_proc.

Lemma sample_prepared : prepared sample_work.
Proof. split; [exact sample_state_wf|exact sample_proc_counts|exact sample_alias_bytes]. Qed.

Definition assign_words : list (csh_ast_command_word csh_ast) :=
  [mk_command_word (plain_word (bs "HOME=1`c` ")) true; mk_command_word (plain_word (bs "two=$HOME ")) true].

Lemma command_assignments_undone_witness : exists w',
  csh_command_assignments 30 (fun _ => []) (fun _ => []) assign_words ∅ sample_work = (WDone tt, w') /\
  assignments (pw_command w') = [mk_assignment (Some (bs "HOME")) (Some (bs "1out")); mk_assignment (Some (bs "two")) (Some (bs "1out"))] /\
  undone assign_words sample_work w'.
Proof.
  pose proof (command_assignments_undone 30 (fun _ => []) (fun _ => []) exec_out_sound assign_words ∅ sample_work) as H.
  destruct (csh_command_assignments _ _ _ _ _ _) as [r w'] eqn:E.
  assert (r = WDone tt) as -> by (change r with (fst (r, w')); rewrite <- E; vm_compute; reflexivity).
  exists w'. split; [reflexivity|]. split; [change w' with (snd (WDone tt, w')); rewrite <- E; vm_compute; reflexivity|].
  apply H; [|reflexivity|reflexivity|exact sample_prepared].
  intros s Hs. unfold assign_words in Hs. rewrite !elem_of_cons, elem_of_nil in Hs.
  destruct Hs as [->|[->|[]]]; (apply forallb_bytes; vm_compute; reflexivity).
Defined.

Lemma assignment_words_agree_witness :
  assignment_name (plain_word (bs "na_1=$x ")) = (5%nat, bs "na_1") /\ assignment (Ast.token (plain_word (bs "na_1=$x "))) = true.
Proof.
  assert (assignment_name (plain_word (bs "na_1=$x ")) = (5%nat, bs "na_1")) as E by (vm_compute; reflexivity). split; [exact E|].
  assert (leaves_flat (tk_fragments (Ast.token (plain_word (bs "na_1=$x "))))) as Hflat.
  { intros i f p Hf Hp. destruct i as [|[|i]]; vm_compute in Hf; [injection Hf as <-; discriminate Hp..|discriminate Hf]. }
  pose proof (assignment_words_agree (plain_word (bs "na_1=$x ")) Hflat) as H. rewrite E in H. exact (proj1 H).
Defined.
