(* ===== verification/Plan.v ===== *)
(** * Execution plans (src/execute.c: execution_plan, plan_node, plan_prepare)

    Before a tree runs, a plan of it is built: a node for each command, with the
    descriptors that its redirections name.  The walk of the source follows
    parent links and cursors that lie in the plan; here the parents of the
    current node are a list of partly built nodes.  Trees are values, so none is
    its own ancestor and the check for cycles has no counterpart; a NULL child
    is [None]. *)

From stdpp Require Import base list gmap strings.
From S2P Require Import Prelude Output State Redirect Process Lexer Ast Prepare.

(** ** Plans *)

(** The finished plan.  [count] is the number of children. *)
Inductive execution_plan : Type := mk_plan {
  pl_kind : csh_ast_kind; pl_tree : csh_ast; pl_children : list execution_plan;
  pl_negated : bool; pl_asynchronous : bool }.

(** A node with children still to be planned: the finished ones, then the tree
    of each other child with its mark for the background. *)
Record open_plan : Type := mk_open_plan {
  op_kind : csh_ast_kind; op_tree : csh_ast; op_negated : bool; op_asynchronous : bool;
  op_done : list execution_plan; op_rest : list (option csh_ast * bool) }.

Definition close_plan (o : open_plan) : execution_plan :=
  mk_plan (op_kind o) (op_tree o) (op_done o) (op_negated o) (op_asynchronous o).
Definition add_plan (o : open_plan) (p : execution_plan) : open_plan :=
  mk_open_plan (op_kind o) (op_tree o) (op_negated o) (op_asynchronous o) (op_done o ++ [p]) (op_rest o).
Definition next_plan (o : open_plan) (rest : list (option csh_ast * bool)) : open_plan :=
  mk_open_plan (op_kind o) (op_tree o) (op_negated o) (op_asynchronous o) (op_done o) rest.

Definition execute_error (message : str) (number : errno) (status : Z) : csh_error :=
  mk_error (Some message) [] false number status 0 no_position.

(** ** One node *)

(** No counterpart in C, an error, or a result. *)
Inductive plan_result (A : Type) : Type := PlanFault | PlanFail (e : csh_error) | PlanDone (a : A).
Arguments PlanFault {_}.
Arguments PlanFail {_} _.
Arguments PlanDone {_} _.

Definition sizeof_plan : Z := 56.

(** The children of a node in the order of the plan. *)
Definition plan_children (tree : csh_ast) : list (option csh_ast * bool) :=
  match ast_data tree with
  | Simple _ => []
  | If branches else_body =>
      flat_map (fun b => [(Some (if_condition b), false); (Some (if_body b), false)]) (items branches) ++
      match else_body with Some b => [(Some b, false)] | None => [] end
  | For _ _ _ body | Function _ body => [(body, false)]
  | While condition body | Until condition body => [(condition, false); (body, false)]
  | Case _ l => map (fun i => (Some (ci_body i), false)) (items l)
  | List l => map (fun i => (Some (it_command i), bool_decide (separator i = CSH_AST_AMPERSAND))) (items l)
  | And a b | Or a b => [(a, false); (b, false)]
  | Brace group | Subshell group => [(group, false)]
  | Pipeline commands _ => map (fun c => (Some c, false)) (items commands)
  end.

(** Kinds that take redirections. *)
Definition redirectable (kind : csh_ast_kind) : bool :=
  match kind with
  | CSH_AST_PIPELINE | CSH_AST_AND | CSH_AST_OR | CSH_AST_LIST => false
  | _ => true
  end.

(** The descriptors that one redirection names, or its error. *)
Definition operand_descriptors (r : redirection) : csh_error + list Z :=
  let dup := if bool_decide (operator_kind r = CSH_TOKEN_LESS_AND) || bool_decide (operator_kind r = CSH_TOKEN_GREAT_AND)
    then match csh_descriptor (tk_raw (Ast.token (Ast.operand r))) with Some fd => [fd] | None => [] end else [] in
  match Ast.io_number r with
  | None => inr dup
  | Some t =>
      match csh_descriptor (tk_raw t) with
      | Some fd => inr (fd :: dup)
      | None => inl (execute_error (bs "invalid redirection descriptor") ENONE 2)
      end
  end.

Fixpoint plan_redirections (l : list nat) (store : gmap nat redirection) (reserved : list Z) : M (plan_result (list Z)) :=
  match l with
  | [] => ret (PlanDone reserved)
  | a :: rest =>
      match store !! a with
      | None => ret PlanFault
      | Some r =>
          match operand_descriptors r with
          | inl e => ret (PlanFail e)
          | inr fds =>
              if Z.of_nat (length reserved) >? SIZE_MAX / 4 - 2 then ret (PlanFail (execute_error (bs "too many descriptor operands") ENOMEM 1)) else
              let* ok := malloc in
              if negb ok then ret (PlanFail (execute_error (bs "cannot reserve descriptor operands") ENOMEM 1)) else
              plan_redirections rest store (reserved ++ fds)
          end
      end
  end.

Definition plan_negated (tree : csh_ast) : bool := match ast_data tree with Pipeline _ n => n | _ => false end.

(** The node of [tree] and the descriptors so far. *)
Definition plan_node (tree : option csh_ast) (asynchronous : bool) (store : gmap nat redirection) (reserved : list Z)
    : M (plan_result (open_plan * list Z)) :=
  match tree with
  | None => ret (PlanFail (execute_error (bs "invalid execution tree") ENONE 2))
  | Some tree =>
      let children := plan_children tree in
      let too_many := match ast_data tree with If b _ => Z.of_nat (length (items b)) >? (SIZE_MAX - 1) / 2 | _ => false end in
      if too_many then ret (PlanFail (execute_error (bs "execution plan size overflow") EOVERFLOW 1)) else
      if bool_decide (ast_kind tree = CSH_AST_PIPELINE) && bool_decide (children = []) then
        ret (PlanFail (execute_error (bs "invalid pipeline AST") ENONE 2)) else
      if negb (bool_decide (items (redirections tree) = [])) && negb (redirectable (ast_kind tree)) then
        ret (PlanFail (execute_error (bs "invalid compound redirections") ENONE 2)) else
      let* r := plan_redirections (items (redirections tree)) store reserved in
      match r with
      | PlanFault => ret PlanFault
      | PlanFail e => ret (PlanFail e)
      | PlanDone reserved =>
          let node := mk_open_plan (ast_kind tree) tree (plan_negated tree) asynchronous [] children in
          if bool_decide (children = []) then ret (PlanDone (node, reserved)) else
          let overflow := Z.of_nat (length children) >? SIZE_MAX / sizeof_plan in
          let* ok := (if overflow then ret false else malloc) in
          if ok then ret (PlanDone (node, reserved)) else ret (PlanFail (execute_error (bs "cannot allocate execution plan") ENOMEM 1))
      end
  end.

(** ** The walk *)

(** Up from a node whose cursor is at the end: the child to plan next with its
    parents, or the whole plan. *)
Fixpoint plan_up (p : execution_plan) (parents : list open_plan) : (option csh_ast * bool) * list open_plan + execution_plan :=
  match parents with
  | [] => inr p
  | o :: parents =>
      let o := add_plan o p in
      match op_rest o with
      | [] => plan_up (close_plan o) parents
      | child :: rest => inl (child, next_plan o rest :: parents)
      end
  end.

Fixpoint plan_walk (fuel : nat) (tree : option csh_ast) (asynchronous : bool) (parents : list open_plan)
    (store : gmap nat redirection) (reserved : list Z) : M (option (plan_result (execution_plan * list Z))) :=
  match fuel with
  | O => ret None
  | S fuel =>
      let* r := plan_node tree asynchronous store reserved in
      match r with
      | PlanFault => ret (Some PlanFault)
      | PlanFail e => ret (Some (PlanFail e))
      | PlanDone (node, reserved) =>
          let next := match op_rest node with
            | child :: rest => inl (child, next_plan node rest :: parents)
            | [] => plan_up (close_plan node) parents
            end in
          match next with
          | inr p => ret (Some (PlanDone (p, reserved)))
          | inl (tree, asynchronous, parents) => plan_walk fuel tree asynchronous parents store reserved
          end
      end
  end.

(** The nodes of a tree, NULL children included: each turn of the walk plans
    one of them. *)
Fixpoint tree_nodes (tree : csh_ast) : nat :=
  match tree with
  | mk_ast _ _ _ data => S
      match data with
      | Simple _ => 0
      | If branches else_body =>
          sum_list (map (fun b => tree_nodes (if_condition b) + tree_nodes (if_body b)) (items branches)) +
          match else_body with Some b => tree_nodes b | None => 0 end
      | For _ _ _ body | Function _ body => match body with Some b => tree_nodes b | None => 1 end
      | While a b | Until a b | And a b | Or a b =>
          match a with Some a => tree_nodes a | None => 1 end + match b with Some b => tree_nodes b | None => 1 end
      | Case _ l => sum_list (map (fun i => tree_nodes (ci_body i)) (items l))
      | List l => sum_list (map (fun i => tree_nodes (it_command i)) (items l))
      | Brace group | Subshell group => match group with Some b => tree_nodes b | None => 1 end
      | Pipeline commands _ => sum_list (map tree_nodes (items commands))
      end
  end%nat.

Definition plan_prepare (tree : option csh_ast) (store : gmap nat redirection) : M (option (plan_result (execution_plan * list Z))) :=
  plan_walk (match tree with Some t => tree_nodes t | None => 1%nat end) tree false [] store [].

(** ** Text of jobs *)

(** The text of [plan_text]; [None] is a child that does not exist. *)
Fixpoint plan_text (plan : execution_plan) : option str :=
  match plan with
  | mk_plan kind tree children negated _ =>
      let separated := fix separated (l : list execution_plan) (first : bool) : option str :=
        match l with
        | [] => Some []
        | p :: rest =>
            match plan_text p, separated rest false with
            | Some a, Some b => Some ((if first then [] else match kind with
                | CSH_AST_PIPELINE => bs " | " | CSH_AST_AND => bs " && " | CSH_AST_OR => bs " || " | _ => bs "; " end) ++ a ++ b)
            | _, _ => None
            end
        end in
      match kind with
      | CSH_AST_SIMPLE =>
          match ast_data tree with
          | Simple words => Some (concat (imap (fun i w => (if (i =? 0)%nat then [] else bs " ") ++ tk_raw (Ast.token (cw_word w))) (items words)))
          | _ => None
          end
      | CSH_AST_BRACE | CSH_AST_SUBSHELL =>
          let brace := bool_decide (kind = CSH_AST_BRACE) in
          match children with
          | p :: _ =>
              match plan_text p with
              | Some a => Some ((if brace then bs "{ " else bs "( ") ++ a ++ (if brace then bs "; }" else bs " )"))
              | None => None
              end
          | [] => None
          end
      | _ => match separated children true with Some a => Some ((if negated then bs "! " else []) ++ a) | None => None end
      end
  end.

(** A tree that is the command "trap" by itself. *)
Fixpoint standalone_trap (tree : csh_ast) : bool :=
  match tree with
  | mk_ast _ _ _ data =>
      match data with
      | List l => match items l with [i] => standalone_trap (it_command i) | _ => false end
      | Pipeline commands false => match items commands with [t] => standalone_trap t | _ => false end
      | Simple words => match items words with w :: _ => str_eqb (tk_raw (Ast.token (cw_word w))) (bs "trap") | [] => false end
      | _ => false
      end
  end.
