(* ===== verification/PlanTheorems.v ===== *)
(** * Execution plans: theorems

    The walk over parent links and cursors builds the plan that a recursive
    description of the tree gives, visits every node once and ends. *)

From stdpp Require Import base list gmap strings.
From S2P Require Import Prelude Output State Redirect Process Lexer Ast Prepare Plan.

(** ** The recursive description *)

(** The descriptors that the redirections of a node name, in order. *)
Fixpoint named_descriptors (l : list nat) (store : gmap nat redirection) : option (list Z) :=
  match l with
  | [] => Some []
  | a :: rest =>
      match store !! a with
      | Some r => match operand_descriptors r, named_descriptors rest store with inr fds, Some more => Some (fds ++ more) | _, _ => None end
      | None => None
      end
  end.

(** A node that can be planned by itself. *)
Definition node_ok (store : gmap nat redirection) (t : csh_ast) (fds : list Z) : Prop :=
  named_descriptors (items (redirections t)) store = Some fds /\
  (items (redirections t) <> [] -> redirectable (ast_kind t) = true) /\
  (ast_kind t = CSH_AST_PIPELINE -> plan_children t <> []).

(** The plan of a tree: the node, then the plans of its children, and the
    descriptors in the same order. *)
Inductive planned (store : gmap nat redirection) : option csh_ast * bool -> execution_plan -> list Z -> Prop :=
  planned_node t asynchronous plans fds more :
    node_ok store t fds -> planned_all store (plan_children t) plans more ->
    planned store (Some t, asynchronous) (mk_plan (ast_kind t) t plans (plan_negated t) asynchronous) (fds ++ more)
with planned_all (store : gmap nat redirection) : list (option csh_ast * bool) -> list execution_plan -> list Z -> Prop :=
  | planned_nil : planned_all store [] [] []
  | planned_cons c l p plans fds more : planned store c p fds -> planned_all store l plans more ->
      planned_all store (c :: l) (p :: plans) (fds ++ more).

Lemma planned_snoc store l plans fds c p more : planned_all store l plans fds -> planned store c p more ->
  planned_all store (l ++ [c]) (plans ++ [p]) (fds ++ more).
Proof.
  induction 1 as [|c' l p' plans fds' more' Hp Hl IH]; intros H; simpl.
  - rewrite <- (app_nil_r more). by repeat constructor.
  - rewrite <- app_assoc. constructor; [done|by apply IH].
Qed.

(** ** One node *)

Lemma plan_redirections_spec l store reserved w r w' : plan_redirections l store reserved w = (PlanDone r, w') ->
  exists fds, named_descriptors l store = Some fds /\ r = reserved ++ fds.
Proof.
  revert reserved w. induction l as [|a l IH]; intros reserved w; cbn [plan_redirections named_descriptors].
  { intros [= -> _]. exists []. by rewrite app_nil_r. }
  destruct (store !! a) as [rd|]; [|done]. destruct (operand_descriptors rd) as [e|fds]; [done|]. destruct (_ >? _); [done|].
  unfold bind, ret. destruct (malloc w) as [[] w1]; cbn [negb]; [|done]. intros H. apply IH in H as (more & -> & ->).
  exists (fds ++ more). by rewrite app_assoc.
Qed.

Lemma plan_node_spec tree asynchronous store reserved w node r w' :
  plan_node tree asynchronous store reserved w = (PlanDone (node, r), w') ->
  exists t fds, tree = Some t /\ node_ok store t fds /\ r = reserved ++ fds /\
    node = mk_open_plan (ast_kind t) t (plan_negated t) asynchronous [] (plan_children t).
Proof.
  unfold plan_node. destruct tree as [t|]; [|done]. destruct (match ast_data t with If _ _ => _ | _ => false end); [done|].
  destruct (bool_decide (ast_kind t = CSH_AST_PIPELINE) && bool_decide (plan_children t = [])) eqn:Ep; [done|].
  destruct (negb (bool_decide (items (redirections t) = [])) && negb (redirectable (ast_kind t))) eqn:Er; [done|].
  unfold bind, ret. destruct (plan_redirections _ _ _ w) as [[|e|fds] w1] eqn:Ed; [done..|].
  apply plan_redirections_spec in Ed as (more & Ed & ->). intros H.
  assert (node = mk_open_plan (ast_kind t) t (plan_negated t) asynchronous [] (plan_children t) /\ r = reserved ++ more) as [-> ->].
  { case_bool_decide; [by simplify_eq|]. destruct (_ >? _); [done|]. destruct (malloc w1) as [[] w2]; by simplify_eq. }
  exists t, more. split_and!; try done. split; [done|]. split.
  - intros Hn. rewrite (bool_decide_false _ Hn) in Er. simpl in Er. by destruct (redirectable _).
  - intros Hk Hc. by rewrite (bool_decide_true _ Hk), (bool_decide_true _ Hc) in Ep.
Qed.

(** ** The walk *)

(** The parents of the node to plan next, up to the root. *)
Inductive parents_of (store : gmap nat redirection) (root : option csh_ast) : list open_plan -> option csh_ast * bool -> list Z -> Prop :=
  | parents_root : parents_of store root [] (root, false) []
  | parents_child o parents t before fds more pre cur :
      parents_of store root parents (Some t, op_asynchronous o) before ->
      o = mk_open_plan (ast_kind t) t (plan_negated t) (op_asynchronous o) (op_done o) (op_rest o) ->
      node_ok store t fds -> plan_children t = pre ++ cur :: op_rest o -> planned_all store pre (op_done o) more ->
      parents_of store root (o :: parents) cur (before ++ fds ++ more).

(** The nodes that are left to plan. *)
Definition nodes_of (c : option csh_ast * bool) : nat := match fst c with Some t => tree_nodes t | None => 1 end.
Definition nodes_left (parents : list open_plan) : nat := sum_list_with (fun o => sum_list_with nodes_of (op_rest o)) parents.

Lemma plan_up_spec store root parents cur before p fds : parents_of store root parents cur before -> planned store cur p fds ->
  match plan_up p parents with
  | inl (c, parents') => parents_of store root parents' c (before ++ fds) /\ (nodes_of c + nodes_left parents' = nodes_left parents)%nat
  | inr p' => planned store (root, false) p' (before ++ fds)
  end.
Proof.
  revert cur before p fds. induction parents as [|o parents IH]; intros cur before p fds Hp Hc; inversion Hp as [|o' ps t b f m pre c Hps Ho Hn Hch Hd]; subst; cbn [plan_up]; [done|].
  destruct (op_rest (add_plan o p)) as [|c' rest] eqn:Er; change (op_rest (add_plan o p)) with (op_rest o) in Er.
  - assert (planned store (Some t, op_asynchronous o) (close_plan (add_plan o p)) (f ++ m ++ fds)) as Hclose.
    { assert (close_plan (add_plan o p) = mk_plan (ast_kind t) t (op_done o ++ [p]) (plan_negated t) (op_asynchronous o)) as -> by by rewrite Ho.
      apply planned_node; [done|]. rewrite Hch, Er. by apply planned_snoc. }
    specialize (IH _ _ _ _ Hps Hclose). rewrite !app_assoc in *. cbn [nodes_left sum_list_with]. unfold nodes_left in *. simpl. rewrite Er. simpl.
    destruct (plan_up _ parents) as [[c1 parents1]|p1]; [|done]. exact IH.
  - split.
    + replace ((b ++ f ++ m) ++ fds) with (b ++ f ++ m ++ fds) by by rewrite <- !app_assoc.
      apply (parents_child _ _ _ _ t _ _ _ (pre ++ [cur])); simpl; [done|by rewrite Ho|done|rewrite Hch, Er; by rewrite <- app_assoc|by apply planned_snoc].
    + unfold nodes_left. simpl. rewrite Er. simpl. lia.
Qed.

Lemma tree_nodes_children t : tree_nodes t = S (sum_list_with nodes_of (plan_children t)).
Proof.
  destruct t as [s e r d]. unfold plan_children. cbn [tree_nodes ast_data]. f_equal.
  assert (forall A (f : A -> csh_ast) (g : A -> bool) l, sum_list (map (fun i => tree_nodes (f i)) l) =
    sum_list_with nodes_of (map (fun i => (Some (f i), g i)) l)) as Hmap.
  { intros A f g l. induction l as [|x l IH]; simpl; [done|]. by rewrite IH. }
  destruct d as [w|l n|a b|a b|l|g|g|l e'|n w i b|a b|a b|w l|n b]; unfold nodes_of; simpl; try lia.
  - apply (Hmap _ id (fun _ => false)).
  - apply Hmap.
  - rewrite sum_list_with_app. f_equal; [|destruct e'; simpl; lia]. induction (items l) as [|x l' IH]; simpl; [done|]. rewrite IH. lia.
  - apply (Hmap _ ci_body (fun _ => false)).
Qed.

Lemma plan_walk_spec fuel store root tree asynchronous parents reserved w :
  parents_of store root parents (tree, asynchronous) reserved -> (nodes_of (tree, asynchronous) + nodes_left parents <= fuel)%nat ->
  exists r, fst (plan_walk fuel tree asynchronous parents store reserved w) = Some r /\
    match r with PlanDone (p, fds) => planned store (root, false) p fds | _ => True end.
Proof.
  revert tree asynchronous parents reserved w. induction fuel as [|fuel IH]; intros tree asynchronous parents reserved w Hp Hf.
  { unfold nodes_of in Hf. simpl in Hf. destruct tree as [t|]; [|lia]. rewrite tree_nodes_children in Hf. lia. }
  cbn [plan_walk]. unfold bind, ret. destruct (plan_node _ _ _ _ w) as [[|e|[node r]] w1] eqn:En; [by eexists..|].
  apply plan_node_spec in En as (t & fds & -> & Hn & -> & ->). cbn [op_rest]. unfold nodes_of in Hf. simpl in Hf. rewrite tree_nodes_children in Hf.
  destruct (plan_children t) as [|c rest] eqn:Ec.
  - pose proof (plan_up_spec store root parents _ _ (mk_plan (ast_kind t) t [] (plan_negated t) asynchronous) fds Hp) as Hu.
    assert (planned store (Some t, asynchronous) (mk_plan (ast_kind t) t [] (plan_negated t) asynchronous) fds) as Hc.
    { rewrite <- (app_nil_r fds). apply planned_node; [done|]. rewrite Ec. constructor. }
    specialize (Hu Hc). unfold close_plan. cbn [op_kind op_tree op_done op_negated op_asynchronous].
    destruct (plan_up _ parents) as [[[tree' a'] parents']|p].
    + destruct Hu as [Hp' Hm]. apply IH; [done|]. lia.
    + eexists. split; [done|]. done.
  - destruct c as [tree' a']. apply IH.
    + rewrite <- (app_nil_r fds). apply (parents_child store root _ parents t reserved fds [] []); try done. constructor.
    + unfold nodes_left in *. simpl in *. lia.
Qed.

(** C21: the walk builds the plan of the tree.  Whatever the tree and whatever
    allocations fail, the walk over parent links and cursors ends after one turn
    per node; a plan that it returns is the one that a recursive description of
    the tree gives, with each child in its place, and the descriptors that are
    kept free of the shell are those that the redirections of all nodes name, in
    the order of the source. *)
Theorem plan_prepare_planned (tree : csh_ast) (store : gmap nat redirection) (w : proc) :
  exists r, fst (plan_prepare (Some tree) store w) = Some r /\
    match r with PlanDone (p, fds) => planned store (Some tree, false) p fds | _ => True end.
Proof. unfold plan_prepare. apply plan_walk_spec; [constructor|]. unfold nodes_left, nodes_of. simpl. lia. Qed.
