(* ===== verification/Execution.v ===== *)
(** * Execution: the process and its calls (src/execute.c)

    What the executor keeps and how it reaches the other components.  A shell
    process ([shell]) has the shell state, the signals, children and output of
    jobs.c, the descriptors with the backups of redirect.c and the sources of
    input.c, the active job manager and trap table, the syntax trees of its
    functions, and the three records that the functions of execute.c pass by
    address: the context, the result and the error.

    What the system answers is the class [System], indexed by the process and
    the time, so that any answer is possible at any moment.  [fork] runs the
    child in a copy of the process until it exits; the status that the parent
    collects is the one the child exits with, unless the system says otherwise
    ([sys_fate]).  A call that fails sets the error record and gives [false],
    the -1 of the source. *)

From stdpp Require Import base list gmap strings.
From S2P Require Import Prelude Output Numbers Options Character Quote Alias State Arithmetic Expansion Pathname Fields Descriptors Redirect Input Signals Traps Builtin Jobs Process Lexer Values LexerKinds Ast Parser Grammar Prepare Plan.

(** ** Data (include/cshell/execute.h) *)

Inductive csh_control_transfer : Type := CSH_CONTROL_NONE | CSH_CONTROL_BREAK | CSH_CONTROL_CONTINUE | CSH_CONTROL_RETURN.

#[export] Instance csh_control_transfer_eq_dec : EqDecision csh_control_transfer.
Proof. solve_decision. Defined.

Record csh_execution : Type := mk_execution {
  xr_control : csh_control_transfer; xr_levels : Z; xr_status : Z;
  retain_redirects : bool; redirection_failed : bool; special_builtin_error : bool;
  xr_errexit_ignored : bool; job_suspended : bool; exit_requested : bool;
  xr_category : csh_execution_category }.

Definition no_execution : csh_execution := mk_execution CSH_CONTROL_NONE 0 0 false false false false false false CSH_EXEC_EMPTY.

Record csh_pipeline_stage : Type := mk_stage {
  st_pid : Z; st_status : Z; st_wait_status : Z; st_completed : bool; st_reaped : bool; st_category : csh_execution_category }.

Definition no_stage : csh_pipeline_stage := mk_stage 0 0 0 false false CSH_EXEC_EMPTY.

Record csh_pipeline_result : Type := mk_pipeline { pr_execution : csh_execution; pr_stages : list csh_pipeline_stage }.

(** [children] are the background children, the last one first; the state is
    that of the process, and [cx_jobs] and [cx_traps] say whether the context
    has the active job manager and trap table. *)
Record csh_execution_context : Type := mk_context {
  loop_depth : Z; cx_children : list Z; cx_jobs : bool; cx_traps : bool;
  dispatching_traps : bool; in_trap : bool; trap_status : Z }.

Definition no_context : csh_execution_context := mk_context 0 [] false false false false 0.

Definition xr_set_control (r : csh_execution) (c : csh_control_transfer) (levels : Z) : csh_execution :=
  mk_execution c levels (xr_status r) (retain_redirects r) (redirection_failed r) (special_builtin_error r) (xr_errexit_ignored r) (job_suspended r) (exit_requested r) (xr_category r).
Definition xr_set_status (r : csh_execution) (n : Z) : csh_execution :=
  mk_execution (xr_control r) (xr_levels r) n (retain_redirects r) (redirection_failed r) (special_builtin_error r) (xr_errexit_ignored r) (job_suspended r) (exit_requested r) (xr_category r).
Definition xr_set_retain (r : csh_execution) (b : bool) : csh_execution :=
  mk_execution (xr_control r) (xr_levels r) (xr_status r) b (redirection_failed r) (special_builtin_error r) (xr_errexit_ignored r) (job_suspended r) (exit_requested r) (xr_category r).
Definition xr_set_redirection_failed (r : csh_execution) (b : bool) : csh_execution :=
  mk_execution (xr_control r) (xr_levels r) (xr_status r) (retain_redirects r) b (special_builtin_error r) (xr_errexit_ignored r) (job_suspended r) (exit_requested r) (xr_category r).
Definition xr_set_special_error (r : csh_execution) (b : bool) : csh_execution :=
  mk_execution (xr_control r) (xr_levels r) (xr_status r) (retain_redirects r) (redirection_failed r) b (xr_errexit_ignored r) (job_suspended r) (exit_requested r) (xr_category r).
Definition xr_set_ignored (r : csh_execution) (b : bool) : csh_execution :=
  mk_execution (xr_control r) (xr_levels r) (xr_status r) (retain_redirects r) (redirection_failed r) (special_builtin_error r) b (job_suspended r) (exit_requested r) (xr_category r).
Definition xr_set_suspended (r : csh_execution) (b : bool) : csh_execution :=
  mk_execution (xr_control r) (xr_levels r) (xr_status r) (retain_redirects r) (redirection_failed r) (special_builtin_error r) (xr_errexit_ignored r) b (exit_requested r) (xr_category r).
Definition xr_set_exit (r : csh_execution) (b : bool) : csh_execution :=
  mk_execution (xr_control r) (xr_levels r) (xr_status r) (retain_redirects r) (redirection_failed r) (special_builtin_error r) (xr_errexit_ignored r) (job_suspended r) b (xr_category r).
Definition xr_set_category (r : csh_execution) (c : csh_execution_category) : csh_execution :=
  mk_execution (xr_control r) (xr_levels r) (xr_status r) (retain_redirects r) (redirection_failed r) (special_builtin_error r) (xr_errexit_ignored r) (job_suspended r) (exit_requested r) c.

Definition with_loops (c : csh_execution_context) (n : Z) : csh_execution_context :=
  mk_context n (cx_children c) (cx_jobs c) (cx_traps c) (dispatching_traps c) (in_trap c) (trap_status c).
Definition with_background_children (c : csh_execution_context) (l : list Z) : csh_execution_context :=
  mk_context (loop_depth c) l (cx_jobs c) (cx_traps c) (dispatching_traps c) (in_trap c) (trap_status c).
Definition with_dispatching (c : csh_execution_context) (b : bool) : csh_execution_context :=
  mk_context (loop_depth c) (cx_children c) (cx_jobs c) (cx_traps c) b (in_trap c) (trap_status c).
Definition with_trap (c : csh_execution_context) (b : bool) (n : Z) : csh_execution_context :=
  mk_context (loop_depth c) (cx_children c) (cx_jobs c) (cx_traps c) (dispatching_traps c) b n.

(** ** The process *)

(** [sx_cloned] is set while [sx_state] is a copy of the state that the job
    manager has.  [sx_limits] are the soft and hard limits of the resources in
    the order of the table in utility.c. *)
Record shell : Type := mk_shell {
  sx_process : Z; sx_clock : nat;
  sx_state : csh_state; sx_host : host;
  sx_kernel : kernel;
  sx_saves : list (nat * list saved_descriptor); sx_next_save : nat;
  sx_inputs : list (nat * csh_input); sx_next_input : nat; sx_scopes : list (list Z);
  sx_jobs : option csh_jobs; sx_traps : option csh_traps;
  sx_trees : gmap Z (csh_ast * gmap nat redirection); sx_next_tree : Z;
  sx_tracing : bool; sx_cloned : bool;
  sx_umask : Z; sx_limits : list (Z * Z);
  sx_context : csh_execution_context; sx_result : csh_execution; sx_error : csh_error }.

Definition at_time (x : shell) (n : nat) : shell :=
  mk_shell (sx_process x) n (sx_state x) (sx_host x) (sx_kernel x) (sx_saves x) (sx_next_save x) (sx_inputs x) (sx_next_input x) (sx_scopes x)
    (sx_jobs x) (sx_traps x) (sx_trees x) (sx_next_tree x) (sx_tracing x) (sx_cloned x) (sx_umask x) (sx_limits x) (sx_context x) (sx_result x) (sx_error x).
Definition with_process_state (x : shell) (s : csh_state) : shell :=
  mk_shell (sx_process x) (sx_clock x) s (sx_host x) (sx_kernel x) (sx_saves x) (sx_next_save x) (sx_inputs x) (sx_next_input x) (sx_scopes x)
    (sx_jobs x) (sx_traps x) (sx_trees x) (sx_next_tree x) (sx_tracing x) (sx_cloned x) (sx_umask x) (sx_limits x) (sx_context x) (sx_result x) (sx_error x).
Definition with_host (x : shell) (h : host) : shell :=
  mk_shell (sx_process x) (sx_clock x) (sx_state x) h (sx_kernel x) (sx_saves x) (sx_next_save x) (sx_inputs x) (sx_next_input x) (sx_scopes x)
    (sx_jobs x) (sx_traps x) (sx_trees x) (sx_next_tree x) (sx_tracing x) (sx_cloned x) (sx_umask x) (sx_limits x) (sx_context x) (sx_result x) (sx_error x).
Definition with_kernel (x : shell) (k : kernel) : shell :=
  mk_shell (sx_process x) (sx_clock x) (sx_state x) (sx_host x) k (sx_saves x) (sx_next_save x) (sx_inputs x) (sx_next_input x) (sx_scopes x)
    (sx_jobs x) (sx_traps x) (sx_trees x) (sx_next_tree x) (sx_tracing x) (sx_cloned x) (sx_umask x) (sx_limits x) (sx_context x) (sx_result x) (sx_error x).
Definition with_saves (x : shell) (l : list (nat * list saved_descriptor)) (n : nat) : shell :=
  mk_shell (sx_process x) (sx_clock x) (sx_state x) (sx_host x) (sx_kernel x) l n (sx_inputs x) (sx_next_input x) (sx_scopes x)
    (sx_jobs x) (sx_traps x) (sx_trees x) (sx_next_tree x) (sx_tracing x) (sx_cloned x) (sx_umask x) (sx_limits x) (sx_context x) (sx_result x) (sx_error x).
Definition with_inputs (x : shell) (l : list (nat * csh_input)) (n : nat) (scopes : list (list Z)) : shell :=
  mk_shell (sx_process x) (sx_clock x) (sx_state x) (sx_host x) (sx_kernel x) (sx_saves x) (sx_next_save x) l n scopes
    (sx_jobs x) (sx_traps x) (sx_trees x) (sx_next_tree x) (sx_tracing x) (sx_cloned x) (sx_umask x) (sx_limits x) (sx_context x) (sx_result x) (sx_error x).
Definition with_managers (x : shell) (js : option csh_jobs) (t : option csh_traps) : shell :=
  mk_shell (sx_process x) (sx_clock x) (sx_state x) (sx_host x) (sx_kernel x) (sx_saves x) (sx_next_save x) (sx_inputs x) (sx_next_input x) (sx_scopes x)
    js t (sx_trees x) (sx_next_tree x) (sx_tracing x) (sx_cloned x) (sx_umask x) (sx_limits x) (sx_context x) (sx_result x) (sx_error x).
Definition with_trees (x : shell) (m : gmap Z (csh_ast * gmap nat redirection)) (n : Z) : shell :=
  mk_shell (sx_process x) (sx_clock x) (sx_state x) (sx_host x) (sx_kernel x) (sx_saves x) (sx_next_save x) (sx_inputs x) (sx_next_input x) (sx_scopes x)
    (sx_jobs x) (sx_traps x) m n (sx_tracing x) (sx_cloned x) (sx_umask x) (sx_limits x) (sx_context x) (sx_result x) (sx_error x).
Definition with_tracing (x : shell) (b : bool) : shell :=
  mk_shell (sx_process x) (sx_clock x) (sx_state x) (sx_host x) (sx_kernel x) (sx_saves x) (sx_next_save x) (sx_inputs x) (sx_next_input x) (sx_scopes x)
    (sx_jobs x) (sx_traps x) (sx_trees x) (sx_next_tree x) b (sx_cloned x) (sx_umask x) (sx_limits x) (sx_context x) (sx_result x) (sx_error x).
Definition with_cloned (x : shell) (b : bool) : shell :=
  mk_shell (sx_process x) (sx_clock x) (sx_state x) (sx_host x) (sx_kernel x) (sx_saves x) (sx_next_save x) (sx_inputs x) (sx_next_input x) (sx_scopes x)
    (sx_jobs x) (sx_traps x) (sx_trees x) (sx_next_tree x) (sx_tracing x) b (sx_umask x) (sx_limits x) (sx_context x) (sx_result x) (sx_error x).
Definition with_umask (x : shell) (n : Z) : shell :=
  mk_shell (sx_process x) (sx_clock x) (sx_state x) (sx_host x) (sx_kernel x) (sx_saves x) (sx_next_save x) (sx_inputs x) (sx_next_input x) (sx_scopes x)
    (sx_jobs x) (sx_traps x) (sx_trees x) (sx_next_tree x) (sx_tracing x) (sx_cloned x) n (sx_limits x) (sx_context x) (sx_result x) (sx_error x).
Definition with_limits (x : shell) (l : list (Z * Z)) : shell :=
  mk_shell (sx_process x) (sx_clock x) (sx_state x) (sx_host x) (sx_kernel x) (sx_saves x) (sx_next_save x) (sx_inputs x) (sx_next_input x) (sx_scopes x)
    (sx_jobs x) (sx_traps x) (sx_trees x) (sx_next_tree x) (sx_tracing x) (sx_cloned x) (sx_umask x) l (sx_context x) (sx_result x) (sx_error x).
Definition with_context (x : shell) (c : csh_execution_context) : shell :=
  mk_shell (sx_process x) (sx_clock x) (sx_state x) (sx_host x) (sx_kernel x) (sx_saves x) (sx_next_save x) (sx_inputs x) (sx_next_input x) (sx_scopes x)
    (sx_jobs x) (sx_traps x) (sx_trees x) (sx_next_tree x) (sx_tracing x) (sx_cloned x) (sx_umask x) (sx_limits x) c (sx_result x) (sx_error x).
Definition with_result (x : shell) (r : csh_execution) : shell :=
  mk_shell (sx_process x) (sx_clock x) (sx_state x) (sx_host x) (sx_kernel x) (sx_saves x) (sx_next_save x) (sx_inputs x) (sx_next_input x) (sx_scopes x)
    (sx_jobs x) (sx_traps x) (sx_trees x) (sx_next_tree x) (sx_tracing x) (sx_cloned x) (sx_umask x) (sx_limits x) (sx_context x) r (sx_error x).
Definition with_error (x : shell) (e : csh_error) : shell :=
  mk_shell (sx_process x) (sx_clock x) (sx_state x) (sx_host x) (sx_kernel x) (sx_saves x) (sx_next_save x) (sx_inputs x) (sx_next_input x) (sx_scopes x)
    (sx_jobs x) (sx_traps x) (sx_trees x) (sx_next_tree x) (sx_tracing x) (sx_cloned x) (sx_umask x) (sx_limits x) (sx_context x) (sx_result x) e.

(** ** The system *)

(** What a new process will meet: the outcomes of its allocations, writes,
    calls on descriptors, waits and signals. *)
Record prospects : Type := mk_prospects {
  q_alloc : list bool; q_writes : list write_result; q_stdio : list bool;
  q_faults : list (option fault); q_counts : list nat; q_file_alloc : list bool;
  q_waits : list (option errno); q_kills : list (option errno); q_arrivals : list arrival; q_terminal : list (option errno) }.

Class System : Type := {
  sys_stack : Z -> nat -> bool;                             (* [csh_stack_check() == 0] *)
  sys_expansion : Z -> nat -> list bool * list (list bool); (* the checks during one expansion *)
  sys_parsers : Z -> nat -> nat -> list (list bool) * list bool; (* and in the parsers it creates *)
  sys_fork : Z -> nat -> errno + Z;
  sys_fate : Z -> option (list Z);      (* the statuses of a child, when it does not just exit *)
  sys_prospects : Z -> prospects;
  sys_execve : Z -> nat -> str -> errno + list Z;           (* a program has these statuses *)
  sys_access : Z -> nat -> str -> bool -> bool;             (* [access] for R_OK or X_OK *)
  sys_confstr : option str;                                 (* _CS_PATH *)
  sys_getcwd : Z -> nat -> errno + str;
  sys_chdir : Z -> nat -> str -> option errno;
  sys_fchdir : Z -> nat -> Z -> option errno;
  sys_identity : Z -> nat -> str -> Z * Z;                  (* [st_dev] and [st_ino] *)
  sys_pathmax : Z -> nat -> Z;                              (* [pathconf(".", _PC_PATH_MAX)] *)
  sys_mask : Z -> nat -> option errno;                      (* [sigprocmask(SIG_BLOCK, ...)] *)
  sys_setpgid : Z -> nat -> option errno;
  sys_stream : Z -> nat -> option errno;                    (* [open_memstream], [fclose] *)
  sys_chunks : Z -> nat -> list (errno + str);              (* the [read] calls on a pipe *)
  sys_barrier : Z -> nat -> bool;                           (* the [read] of the launch barrier *)
  sys_child_max : Z; sys_group : Z; sys_parent : Z;
  sys_getrlimit : Z -> nat -> bool;
  sys_setrlimit : Z -> nat -> nat -> Z * Z -> bool;
  sys_times : Z -> nat -> option (list str) }.              (* four times, as "%ldm%fs" *)

(** ** Computations *)

(** No counterpart in C, the end of the fuel, a call that blocks for ever, the
    end of the process, its replacement by a program, or a value. *)
Inductive eoutcome (A : Type) : Type := EFault | ESpent | EBlocked | EExit (status : Z) | EProgram (statuses : list Z) | EDone (a : A).
Arguments EFault {_}.
Arguments ESpent {_}.
Arguments EBlocked {_}.
Arguments EExit {_} _.
Arguments EProgram {_} _.
Arguments EDone {_} _.

Definition E (A : Type) : Type := shell -> eoutcome A * shell.

Definition eret {A} (a : A) : E A := fun x => (EDone a, x).
Definition efault {A} : E A := fun x => (EFault, x).
Definition espent {A} : E A := fun x => (ESpent, x).
Definition eexit {A} (status : Z) : E A := fun x => (EExit status, x).
Definition ebind {A B} (m : E A) (f : A -> E B) : E B := fun x =>
  match m x with
  | (EDone a, y) => f a y
  | (EFault, y) => (EFault, y)
  | (ESpent, y) => (ESpent, y)
  | (EBlocked, y) => (EBlocked, y)
  | (EExit n, y) => (EExit n, y)
  | (EProgram l, y) => (EProgram l, y)
  end.

Notation "'let$' x ':=' m 'in' k" := (ebind m (fun x => k))
  (at level 10, x strict pattern, m at level 200, k at level 200,
   format "'let$'  x  ':='  m  'in' '//' k") : cshell_scope.

Definition eopt {A} (o : option A) : E A := match o with Some a => eret a | None => efault end.
Definition eget : E shell := fun x => (EDone x, x).
Definition eput (x : shell) : E unit := fun _ => (EDone tt, x).

(** The records that are passed by address. *)
Definition result : E csh_execution := fun x => (EDone (sx_result x), x).
Definition on_result (f : csh_execution -> csh_execution) : E unit := fun x => (EDone tt, with_result x (f (sx_result x))).
Definition error : E csh_error := fun x => (EDone (sx_error x), x).
Definition put_error (e : csh_error) : E unit := fun x => (EDone tt, with_error x e).
Definition context : E csh_execution_context := fun x => (EDone (sx_context x), x).
Definition put_context (c : csh_execution_context) : E unit := fun x => (EDone tt, with_context x c).

(** [return fail(error, ...)] *)
Definition efail (text : str) (number : errno) (status : Z) : E bool :=
  let$ _ := put_error (execute_error text number status) in eret false.

(** With a result, an error or a context of its own: what it had at the end is
    given, and the one from before is back. *)
Definition own_result {A} (r : csh_execution) (m : E A) : E (A * csh_execution) :=
  let$ old := result in
  let$ _ := on_result (fun _ => r) in
  let$ a := m in
  let$ new := result in
  let$ _ := on_result (fun _ => old) in
  eret (a, new).
Definition own_error {A} (m : E A) : E (A * csh_error) :=
  let$ old := error in
  let$ a := m in
  let$ new := error in
  let$ _ := put_error old in
  eret (a, new).
Definition own_context {A} (c : csh_execution_context) (m : E A) : E A :=
  let$ old := context in
  let$ _ := put_context c in
  let$ a := m in
  let$ _ := put_context old in
  eret a.

(** ** Calls of the components *)

Definition state : E csh_state := fun x => (EDone (sx_state x), x).
Definition put_state (s : csh_state) : E unit := fun x => (EDone tt, with_process_state x s).
Definition information : E csh_state_info := fun x => (EDone (csh_state_get_info (sx_state x)), x).

Definition ehost {A} (m : M A) : E A := fun x =>
  let '(a, p) := m (h_proc (sx_host x)) in (EDone a, with_host x (with_proc (sx_host x) p)).

(** Calls on the shell state. *)
Definition on_state {A} (f : csh_state -> M (A * csh_state)) : E A :=
  let$ s := state in
  let$ (a, s) := ehost (f s) in
  let$ _ := put_state s in
  eret a.
Definition set_state {A} (f : csh_state -> A * csh_state) : E A :=
  let$ s := state in
  let '(a, s) := f s in
  let$ _ := put_state s in
  eret a.
Definition change_state (f : csh_state -> csh_state) : E unit := set_state (fun s => (tt, f s)).

Definition efiles {A} (m : K A) : E (errno + A) := fun x =>
  let '(r, k) := m (sx_kernel x) in (EDone r, with_kernel x k).

Definition eredirect {A} (f : redirect_state -> A * redirect_state) : E A := fun x =>
  let '(a, r) := f (mk_rstate (sx_kernel x) (sx_saves x) (sx_next_save x)) in
  (EDone a, with_saves (with_kernel x (rs_kernel r)) (active_saves r) (rs_next r)).

Definition einput {A} (f : input_state -> A * input_state) : E A := fun x =>
  let '(a, s) := f (mk_istate (sx_kernel x) (sx_inputs x) (sx_next_input x) (sx_scopes x)) in
  (EDone a, with_inputs (with_kernel x (is_kernel s)) (active_inputs s) (is_next s) (reservations s)).

Definition ejobs {A} (m : J A) : E A := fun x =>
  match m (sx_host x) with Some (a, h) => (EDone a, with_host x h) | None => (EBlocked, x) end.

(** Calls on the active job manager, whose state is the shell's. *)
Definition on_jobs {A} (f : csh_jobs -> J (A * csh_jobs)) : E A :=
  let$ x := eget in
  let$ js := eopt (sx_jobs x) in
  let$ (a, js) := ejobs (f (with_jstate js (sx_state x))) in
  let$ x := eget in
  let$ _ := eput (with_process_state (with_managers x (Some js) (sx_traps x)) (jstate js)) in
  eret a.

Definition signals_of (x : shell) : signals := h_sig (sx_host x).
Definition with_signals (x : shell) (g : signals) : shell := with_host x (with_sig (sx_host x) g).

(** [errno] after a call of jobs.c *)
Definition last_errno : E errno := fun x => (EDone (h_errno (sx_host x)), x).

(** ** Calls of the system *)

Section Calls.
Context {system : System} {errors : ErrorText}.

Definition ask {A} (f : Z -> nat -> A) : E A := fun x =>
  (EDone (f (sx_process x) (sx_clock x)), at_time x (S (sx_clock x))).

Definition csh_stack_check : E bool := ask sys_stack.

(** A wait status for [_exit(status)]. *)
Definition exit_code (status : Z) : Z := Z.shiftl (Z.land status 255) 8.

(** The child in its process: no children, and prospects of its own. *)
Definition born (x : shell) (pid : Z) : shell :=
  let q := sys_prospects pid in
  let h := sx_host x in
  let p := h_proc h in
  let p := mk_proc (q_alloc q) (q_writes q) (q_stdio q) (p_stdout p) (p_stderr p) (p_locale p) (p_functions p) (p_interrupts p) in
  let k := sx_kernel x in
  let k := mk_kernel (k_fds k) (k_files k) (k_next k) (k_limit k) (q_faults q) (q_counts q) (q_file_alloc q) (k_time k) in
  let h := mk_host p (h_sig h) ∅ (q_waits q) (q_kills q) (h_kills h) (q_arrivals q) (q_terminal q) (h_tty_group h) (h_tty_modes h) (h_errno h) in
  with_kernel (with_host (mk_shell pid 0 (sx_state x) (sx_host x) (sx_kernel x) (sx_saves x) (sx_next_save x) (sx_inputs x) (sx_next_input x) (sx_scopes x)
    (sx_jobs x) (sx_traps x) (sx_trees x) (sx_next_tree x) (sx_tracing x) (sx_cloned x) (sx_umask x) (sx_limits x) (sx_context x) (sx_result x) (sx_error x)) h) k.

(** The parent with a child of these statuses; a child is in the group of its
    parent. *)
Definition add_child (x : shell) (pid : Z) (statuses : list Z) : shell :=
  with_host x (with_children (sx_host x) (<[pid := mk_child sys_group statuses]> (h_children (sx_host x)))).

(** [fork], with what the child does until it ends. *)
Definition fork (child : E unit) : E (errno + Z) :=
  let$ r := ask sys_fork in
  match r with
  | inl e => eret (inl e)
  | inr pid => fun x =>
      let went statuses := (EDone (inr pid), add_child x pid (default statuses (sys_fate pid))) in
      match fst (child (born x pid)) with
      | EFault | EDone _ => (EFault, x)
      | ESpent => (ESpent, x)
      | EBlocked => went []
      | EExit status => went [exit_code status]
      | EProgram statuses => went statuses
      end
  end.

(** [execve] comes back with the reason, or not at all. *)
Definition execve (path : str) : E errno :=
  let$ r := ask (fun p n => sys_execve p n path) in
  match r with inl e => eret e | inr statuses => fun x => (EProgram statuses, x) end.

Definition access_ok (path : str) (readable : bool) : E bool := ask (fun p n => sys_access p n path readable).

(** [do { waited = waitpid(child, &status, 0); } while (waited == -1 && errno == EINTR);] *)
Fixpoint wait_retry (fuel : nat) (pid : Z) : J (errno + Z) :=
  match fuel with
  | O => jblock
  | S f => let& r := waitpid_exit pid in match r with inl EINTR => wait_retry f pid | _ => jret r end
  end.

(** Each turn but the last uses up a fault. *)
Definition wait_status (pid : Z) : E (errno + Z) :=
  let$ x := eget in ejobs (wait_retry (S (length (h_wait_faults (sx_host x)))) pid).

(** [waitpid(pid, &status, WNOHANG)]: the termination of a child that has ended. *)
Definition waitpid_now (p : Z) : J (errno + option Z) := fun h =>
  let '(fault, faults) := next_fault (h_wait_faults h) in
  let h := with_wait_faults h faults in
  match fault with
  | Some e => Some (inl e, with_errno h e)
  | None =>
      match h_children h !! p with
      | None => Some (inl ECHILD, with_errno h ECHILD)
      | Some c =>
          match List.find terminated (ch_statuses c) with
          | Some s => Some (inr (Some s), Jobs.with_children h (delete p (h_children h)))
          | None => Some (inr None, h)
          end
      end
  end.

Fixpoint reap_retry (fuel : nat) (pid : Z) : J (errno + option Z) :=
  match fuel with
  | O => jblock
  | S f => let& r := waitpid_now pid in match r with inl EINTR => reap_retry f pid | _ => jret r end
  end.

(** [kill]; what it gives is not looked at. *)
Definition kill_process (pid sig : Z) : E unit := let$ _ := ejobs (kill pid sig) in eret tt.

(** [setpgid(pid, pgid)] *)
Definition setpgid (pid pgid : Z) : E (errno + unit) :=
  let$ r := ask sys_setpgid in
  match r with
  | Some e => eret (inl e)
  | None => fun x =>
      (EDone (inr tt), with_host x (with_children (sx_host x)
        (alter (fun c => mk_child pgid (ch_statuses c)) pid (h_children (sx_host x)))))
  end.

(** [sigprocmask(SIG_BLOCK, ...)] of what keeps signals away from a child that
    is not ready for them; signals that arrive meanwhile stay pending, so the
    mask itself has no model. *)
Definition block_signals : E (option errno) := ask sys_mask.
End Calls.

(** ** External commands *)

Record launch : Type := mk_launch { la_paths : list str; la_environment : list str; la_fallback : list str }.

Definition no_launch : launch := mk_launch [] [] [].

(** The parts of the text between colons. *)
Fixpoint split_colons (s : str) : list str :=
  match s with
  | [] => [[]]
  | c :: rest =>
      if c =? ch ":" then [] :: split_colons rest
      else match split_colons rest with part :: parts => (c :: part) :: parts | [] => [[c]] end
  end.

(** A name in a directory of the path; an empty directory is the current one.
    A name by itself has no directory ([None]). *)
Definition path_candidate (directory : option str) (name : str) : str :=
  let candidate := match directory with
    | None => name
    | Some [] => bs "./" ++ name
    | Some d => d ++ bs "/" ++ name
    end in
  if bool_decide (List.hd_error candidate = Some (ch "-")) then bs "./" ++ candidate else candidate.

(** The value of the last assignment of the command to PATH. *)
Definition prefix_path (l : list csh_assignment) : option str :=
  foldl (fun v a => if bool_decide (as_name a = Some (bs "PATH")) then as_value a else v) None l.

Definition command_assignments (c : csh_command) : list csh_assignment := take (assignment_count c) (assignments c).
Definition prepared_redirections (c : csh_command) : list csh_redirect := take (redirection_count c) (cm_redirections c).

Definition ENOEXEC : errno := EOTHER 8.

Section Launch.
Context {system : System} {errors : ErrorText} {disk : Disk} {db : LocaleDb}.

Definition diagnose (name text : str) (number : errno) : E unit := ehost (
  let* _ := csh_write_text STDERR (bs "cshell: ") in
  let* _ := csh_write_text STDERR name in
  let* _ := csh_write_text STDERR (bs ": ") in
  let* _ := csh_write_text STDERR text in
  let* _ := (if bool_decide (number = ENONE) then ret 0 else
    let* _ := csh_write_text STDERR (bs ": ") in csh_write_text STDERR (strerror number)) in
  let* _ := csh_write_text STDERR [10] in
  ret tt).

Fixpoint launch_candidates (l : list (option str)) (name : str) : E (option (list str)) :=
  match l with
  | [] => eret (Some [])
  | d :: rest =>
      let size := match d with None => 0 | Some [] => 2 | Some d => slen d + 1 end in
      if (slen name >? SIZE_MAX - 3) || (size >? SIZE_MAX - slen name - 3) then eret None else
      let$ ok := ehost malloc in
      if negb ok then eret None else
      let$ more := launch_candidates rest name in
      eret (cons (path_candidate d name) <$> more)
  end.

(** Whether the path that the cache has for a name is still a program. *)
Definition program (path : str) : E bool :=
  let$ st := efiles (sys_stat path) in
  match st with inr S_IFREG => access_ok path false | _ => eret false end.

Definition launch_prepare (command : csh_command) : E (bool * launch) :=
  let nomem := let$ _ := efail (bs "cannot prepare external command") ENOMEM 1 in eret (false, no_launch) in
  let$ name := eopt (argv command !! 0%nat) in
  let direct := existsb (fun c => c =? ch "/") name in
  let$ s := state in
  let variable := snd (csh_state_get_variable s (Some (bs "PATH"))) in
  let$ standard := (if default_path command then
    match sys_confstr with
    | None => eret None
    | Some text => let$ ok := ehost malloc in eret (if ok then Some (Some text) else None)
    end else eret (Some None)) in
  match standard with
  | None => nomem
  | Some standard =>
      let prefix := prefix_path (command_assignments command) in
      let path := default (default (default (bs "/bin:/usr/bin") (view_value variable)) prefix) standard in
      let directories := if direct then [None] else Some <$> split_colons path in
      if (Z.of_nat (length directories) >? SIZE_MAX / 8) || (Z.of_nat (length (argv command)) >? SIZE_MAX / 8 - 2) then nomem else
      let$ a := ehost malloc in
      let$ b := ehost malloc in
      if negb (a && b) then nomem else
      let fallback := [bs "sh"; []] ++ tail (argv command) in
      let$ (r, environment) := ehost (csh_state_environment s) in
      match environment with
      | None => nomem
      | Some environment =>
          let$ paths := launch_candidates directories name in
          match paths with
          | None => nomem
          | Some paths =>
              let cached := if negb direct && negb (default_path command) && negb (bool_decide (is_Some prefix)) then csh_state_hash_get s name else None in
              match cached with
              | None => eret (true, mk_launch paths environment fallback)
              | Some known =>
                  let$ ok := program known in
                  if negb ok then eret (true, mk_launch paths environment fallback) else
                  let$ ok := ehost malloc in
                  if ok then eret (true, mk_launch [known] environment fallback) else nomem
              end
          end
      end
  end.

(** The status when no program could be started. *)
Fixpoint replace_loop (name : str) (paths : list str) (remembered : errno) : E Z :=
  match paths with
  | [] =>
      let found := negb (bool_decide (remembered = ENONE)) in
      let$ _ := diagnose name (if found then bs "cannot execute" else bs "command not found") remembered in
      eret (if found then 126 else 127)
  | path :: rest =>
      let$ number := execve path in
      if bool_decide (number = ENOEXEC) then
        let$ number := execve (bs "/bin/sh") in
        let$ _ := diagnose name (bs "cannot execute command interpreter") number in
        eret 126
      else if negb (bool_decide (number = ENOENT)) && negb (bool_decide (number = ENOTDIR)) then replace_loop name rest number
      else
        let$ st := efiles (sys_stat path) in
        replace_loop name rest (match st with inr _ => number | inl _ => remembered end)
  end.

Definition launch_replace (command : csh_command) (l : launch) : E Z :=
  let$ name := eopt (argv command !! 0%nat) in
  if bool_decide (name = []) then let$ _ := diagnose [] (bs "command not found") ENONE in eret 127
  else replace_loop name (la_paths l) ENONE.

(** [if (csh_jobs_active() != NULL) csh_jobs_after_fork(csh_jobs_active(), ...)] *)
Definition jobs_after_fork (asynchronous : bool) : E unit :=
  let$ x := eget in
  match sx_jobs x with
  | None => eret tt
  | Some js =>
      let$ s := ejobs (csh_jobs_after_fork (with_jstate js (sx_state x)) asynchronous) in
      let$ _ := (if 0 <=? tty js then let$ _ := efiles (sys_close (tty js)) in eret tt else eret tt) in
      let$ x := eget in
      let x := with_managers x None (sx_traps x) in
      eput (if sx_cloned x then x else with_process_state x s)
  end.

Definition traps_after_fork (asynchronous listing : bool) : E unit := fun x =>
  let '(t, g) := csh_traps_after_fork (sx_traps x) asynchronous listing (signals_of x) in
  (EDone tt, with_managers (with_signals x g) (sx_jobs x) t).
Definition traps_exec_signals (recover : bool) : E unit := fun x =>
  (EDone tt, with_signals x (csh_traps_exec_signals (sx_traps x) recover (signals_of x))).

(** [csh_redirect_apply] with its error; the backups are its result. *)
Definition redirect_apply (items : list csh_redirect) (reserved : list Z) : E (option (option nat)) :=
  let$ r := eredirect (csh_redirect_apply_reserved items reserved) in
  match r with
  | inl e => let$ _ := put_error e in eret None
  | inr save => eret (Some save)
  end.

Definition launch_child (command : csh_command) (l : launch) : E unit :=
  let$ _ := jobs_after_fork false in
  let$ _ := traps_exec_signals false in
  let$ save := redirect_apply (prepared_redirections command) [] in
  match save with
  | None =>
      let$ e := error in
      let$ name := eopt (argv command !! 0%nat) in
      let$ _ := diagnose name (default [] (message e)) (system_errno e) in
      eexit (status e)
  | Some _ => let$ n := launch_replace command l in eexit n
  end.

(** ** exit *)

(** [trapped] is the status before the current trap action. *)
Definition builtin_exit (command : csh_command) (trapped : option Z) : E unit :=
  let$ info := information in
  let leave := negb (opt_on (options info) CSH_OPT_INTERACTIVE) in
  let$ _ := on_result (fun r => xr_set_status r (default (last_status info) trapped)) in
  let operands := match tail (argv command) with o :: rest => if str_eqb o (bs "--") then rest else o :: rest | [] => [] end in
  let refuse text :=
    let$ _ := diagnose (bs "exit") text ENONE in
    on_result (fun r => xr_set_exit (xr_set_status r 2) leave) in
  match operands with
  | [] => on_result (fun r => xr_set_exit r true)
  | [operand] =>
      let digits := skip_while isdigit (snd (take_sign operand)) in
      let '(value, rest, range) := strtol operand in
      if range || bool_decide (rest = operand) || negb (bool_decide (rest = [])) || negb (bool_decide (digits = []))
      then refuse (bs "numeric status required")
      else on_result (fun r => xr_set_exit (xr_set_status r (Z.land value 255)) true)
  | _ => refuse (bs "too many arguments")
  end.

(** ** Assignments before a command *)

(** The check of every assignment, before anything changes. *)
Fixpoint assignments_check (l : list csh_assignment) : E bool :=
  match l with
  | [] => eret true
  | a :: rest =>
      let$ s := state in
      let '(r, view) := csh_state_get_variable s (as_name a) in
      if negb (bool_decide (is_Some (as_value a))) || negb (bool_decide (r = CSH_STATE_OK))
      then efail (bs "invalid assignment name or value") ENONE 2
      else if negb (Z.land (view_attributes view) CSH_VAR_READONLY =? 0) then
        let$ _ := on_result (fun x => xr_set_exit x (negb (opt_on (options (csh_state_get_info s)) CSH_OPT_INTERACTIVE))) in
        efail (bs "cannot assign to readonly variable") ENONE 1
      else assignments_check rest
  end.

(** [csh_state_restore_variables]; the names are no longer saved then. *)
Definition restore_variables (save : list variable_save) : E unit :=
  let$ _ := on_state (fun s => csh_state_restore_variables s save) in eret tt.

Fixpoint assignments_set (l : list csh_assignment) (export : bool) : E csh_state_result :=
  match l with
  | [] => eret CSH_STATE_OK
  | a :: rest =>
      let$ r := on_state (fun s => csh_state_set_variable s (as_name a) (as_value a)) in
      let$ r := (if bool_decide (r = CSH_STATE_OK) && export
        then on_state (fun s => csh_state_update_attributes s (as_name a) CSH_VAR_EXPORT 0) else eret r) in
      if bool_decide (r = CSH_STATE_OK) then assignments_set rest export else eret r
  end.

(** Whether it succeeded, and what to restore after the command. *)
Definition assignments_apply (command : csh_command) (category : csh_execution_category) : E (bool * list variable_save) :=
  let failing (m : E bool) := let$ ok := m in eret (ok, []) in
  let temporary := bool_decide (category = CSH_EXEC_EXTERNAL) || bool_decide (category = CSH_EXEC_REGULAR_BUILTIN) ||
    bool_decide (category = CSH_EXEC_FUNCTION) in
  if (assignment_count command =? 0)%nat then eret (true, []) else
  if bool_decide (assignments command = []) then failing (efail (bs "invalid assignment vector") ENONE 2) else
  let l := command_assignments command in
  let$ info := information in
  let$ ok := assignments_check l in
  if negb ok then eret (false, []) else
  if Z.of_nat (assignment_count command) >? SIZE_MAX / 8 then failing (efail (bs "too many assignments") ENOMEM 1) else
  let$ ok := ehost malloc in
  if negb ok then failing (efail (bs "cannot save assignment variables") ENOMEM 1) else
  let$ s := state in
  let$ (r, save) := ehost (csh_state_save_variables s (as_name <$> l)) in
  if negb (bool_decide (r = CSH_STATE_OK)) then failing (efail (bs "cannot save assignment variables") ENOMEM 1) else
  let$ r := assignments_set l (temporary || opt_on (options info) CSH_OPT_ALLEXPORT) in
  if negb (bool_decide (r = CSH_STATE_OK)) then
    let$ _ := restore_variables save in
    failing (efail (bs "cannot apply assignment variables") ENOMEM 1)
  else eret (true, if temporary then save else []).

(** ** What a name stands for *)

Definition control_name (name : str) : bool := one_of name [bs "break"; bs "continue"; bs "return"].

Definition special_name (name : str) : bool :=
  one_of name [bs ":"; bs "."; bs "break"; bs "continue"; bs "eval"; bs "exec"; bs "exit"; bs "export"; bs "readonly"; bs "return";
    bs "set"; bs "shift"; bs "times"; bs "trap"; bs "unset"].

(** The first path that is a program, or a readable file. *)
Fixpoint lookup_loop (paths : list str) (readable : bool) : E (option str) :=
  match paths with
  | [] => eret None
  | path :: rest =>
      let$ st := efiles (sys_stat path) in
      let right_kind := match st with inr kind => if readable then negb (bool_decide (kind = S_IFDIR)) else bool_decide (kind = S_IFREG) | inl _ => false end in
      let$ found := (if right_kind then access_ok path readable else eret false) in
      if found then
        let$ ok := ehost malloc in
        if ok then eret (Some path) else let$ _ := efail (bs "cannot allocate command path") ENOMEM 1 in eret None
      else lookup_loop rest readable
  end.

(** The working directory, in a buffer that doubles from 256 bytes on: 60
    rounds go beyond the largest size. *)
Fixpoint directory_loop (n : nat) (capacity : Z) : E (errno + str) :=
  match n with
  | O => espent
  | S n =>
      let$ ok := ehost malloc in
      if negb ok then eret (inl ENOMEM) else
      let$ r := ask sys_getcwd in
      let r := match r with inr d => if slen d + 1 >? capacity then inl ERANGE else inr d | inl e => inl e end in
      match r with
      | inr d => eret (inr d)
      | inl e => if negb (bool_decide (e = ERANGE)) || (capacity >? SIZE_MAX / 2) then eret (inl e) else directory_loop n (capacity * 2)
      end
  end.

Definition lookup_path (name : str) (defaults readable : bool) (prefix : option csh_command) : E (option str) :=
  let command := mk_command [name] defaults (match prefix with Some c => assignments c | None => [] end)
    (match prefix with Some c => assignment_count c | None => 0%nat end) [] 0 0 in
  let$ (ok, l) := launch_prepare command in
  if negb ok then eret None else
  let$ path := lookup_loop (la_paths l) readable in
  match path with
  | Some p =>
      if bool_decide (List.hd_error p = Some (ch "/")) then eret (Some p) else
      let$ d := directory_loop 60 256 in
      match d with
      | inl e => let$ _ := efail (bs "cannot resolve command directory") e 1 in eret None
      | inr d =>
          let$ ok := ehost malloc in
          if ok then eret (Some (d ++ bs "/" ++ p)) else let$ _ := efail (bs "cannot allocate command path") ENOMEM 1 in eret None
      end
  | None => eret None
  end.

Definition path_builtin_category (name : str) (defaults : bool) (prefix : option csh_command) : E csh_execution_category :=
  let category := csh_state_builtin_category name in
  if str_eqb name (bs "pwd") then
    let$ (path, _) := own_error (lookup_path name defaults false prefix) in
    eret (match path with
      | Some p => if str_eqb p (bs "/bin/pwd") || str_eqb p (bs "/usr/bin/pwd") then category else CSH_EXEC_EXTERNAL
      | None => CSH_EXEC_EXTERNAL
      end)
  else eret category.

Definition command_category (name : str) (prefix : option csh_command) : E csh_execution_category :=
  let$ category := path_builtin_category name false prefix in
  if str_eqb name (bs "exit") || str_eqb name (bs "trap") || control_name name then eret CSH_EXEC_SPECIAL_BUILTIN else
  let$ s := state in
  if negb (bool_decide (category = CSH_EXEC_SPECIAL_BUILTIN)) && bool_decide (is_Some (csh_state_function s (Some name)))
  then eret CSH_EXEC_FUNCTION else eret category.

(** Every assignment has a valid name and a value. *)
Definition assignments_valid (s : csh_state) (l : list csh_assignment) : bool :=
  forallb (fun a => bool_decide (is_Some (as_value a)) && bool_decide (fst (csh_state_get_variable s (as_name a)) = CSH_STATE_OK)) l.

Definition command_validate (command : csh_command) : E (option csh_execution_category) :=
  let none (m : E bool) := let$ _ := m in eret None in
  if negb (assignment_count command =? 0)%nat && bool_decide (assignments command = [])
  then none (efail (bs "invalid assignment vector") ENONE 2) else
  let$ s := state in
  if negb (assignments_valid s (command_assignments command))
  then none (efail (bs "invalid assignment name or value") ENONE 2) else
  match csh_redirect_validate (prepared_redirections command) with
  | Some e => let$ _ := put_error e in eret None
  | None =>
      match argv command with
      | [] => eret (Some CSH_EXEC_EMPTY)
      | name :: _ => let$ c := command_category name (Some command) in eret (Some c)
      end
  end.

(** ** A command in the current process *)

(** The end of [execute_resolved], whatever happened: [rc] and the variables
    to restore. *)
Definition resolved_end (command : csh_command) (rc : bool) (variables : list variable_save) : E bool :=
  let$ _ := restore_variables variables in
  let$ e := error in
  let$ _ := (if rc then eret tt else on_result (fun r => xr_set_status r (status e))) in
  let$ r := result in
  let ordinary := match argv command with name :: _ => negb (one_of name [bs "eval"; bs "."; bs "trap"]) | [] => true end in
  let$ _ := (if bool_decide (xr_category r = CSH_EXEC_SPECIAL_BUILTIN) && negb (xr_status r =? 0) && negb (exit_requested r) &&
                bool_decide (xr_control r = CSH_CONTROL_NONE) && (negb rc || ordinary)
    then on_result (fun r => xr_set_special_error r true) else eret tt) in
  let$ r := result in
  let$ _ := set_state (fun s => csh_state_set_status s (xr_status r)) in
  eret rc.

Definition reaped (stage : option csh_pipeline_stage) (s : Z) : option csh_pipeline_stage :=
  (fun g => mk_stage (st_pid g) (decode_status s) s true true (st_category g)) <$> stage.
Definition launched (stage : option csh_pipeline_stage) (pid : Z) : option csh_pipeline_stage :=
  (fun g => mk_stage pid (st_status g) (st_wait_status g) (st_completed g) (st_reaped g) (st_category g)) <$> stage.

(** A program in a child of its own: the result, and the stage. *)
Definition run_external (command : csh_command) (l : launch) (stage : option csh_pipeline_stage) : E (bool * option csh_pipeline_stage) :=
  let with_stage (m : E bool) stage := let$ ok := m in eret (ok, stage) in
  let$ child := fork (launch_child command l) in
  match child with
  | inl number => with_stage (efail (bs "cannot fork command") number 1) stage
  | inr pid =>
      let stage := launched stage pid in
      let$ waited := wait_status pid in
      match waited with
      | inl number =>
          let$ stage := (if bool_decide (number = ECHILD) then eret stage else
            let$ _ := kill_process pid SIGKILL in
            let$ again := wait_status pid in
            eret (match again with inr s => reaped stage s | inl _ => stage end)) in
          with_stage (efail (bs "cannot wait for command") number 1) stage
      | inr s =>
          let$ _ := on_result (fun r => xr_set_status r (decode_status s)) in
          eret (true, reaped stage s)
      end
  end.

(** The commitment or the restoration of backups. *)
Definition redirect_commit (save : option nat) : E unit := eredirect (fun st => (tt, csh_redirect_commit save st)).
Definition redirect_restore (save : option nat) : E (option csh_error) := eredirect (csh_redirect_restore save).

(** A handler under the redirections of its command. *)
Definition run_handler (command : csh_command) (handler : option (E bool)) : E bool :=
  let$ save := redirect_apply (prepared_redirections command) [] in
  match save with
  | None => let$ _ := on_result (fun r => xr_set_redirection_failed r true) in eret false
  | Some save =>
      let$ rc := match handler with
        | None => let$ _ := on_result (fun r => xr_set_status r (substitution_status command)) in eret true
        | Some h => h
        end in
      let$ r := result in
      let$ save := (if retain_redirects r then let$ _ := redirect_commit save in eret None else eret save) in
      let$ failed := redirect_restore save in
      match failed with
      | Some e =>
          let$ _ := put_error e in
          let$ _ := on_result (fun r => xr_set_exit r false) in
          eret false
      | None => eret rc
      end
  end.

Definition execute_resolved (command : csh_command) (category : csh_execution_category) (handler : option (E bool))
    (stage : option csh_pipeline_stage) : E (bool * option csh_pipeline_stage) :=
  let finish rc variables stage := let$ rc := resolved_end command rc variables in eret (rc, stage) in
  let$ _ := on_result (fun _ => no_execution) in
  let$ _ := put_error no_error in
  let resolved := match category with
    | CSH_EXEC_PIPELINE | CSH_EXEC_UNRESOLVED => false
    | CSH_EXEC_EMPTY => bool_decide (argv command = []) && negb (bool_decide (is_Some handler))
    | CSH_EXEC_EXTERNAL => negb (bool_decide (argv command = [])) && negb (bool_decide (is_Some handler))
    | _ => negb (bool_decide (argv command = [])) && bool_decide (is_Some handler)
    end in
  match csh_redirect_validate (prepared_redirections command) with
  | Some e => let$ _ := put_error e in finish false [] stage
  | None =>
      if negb resolved then
        let$ _ := efail (bs "invalid resolved command category or handler") ENONE 2 in finish false [] stage
      else
      let$ _ := on_result (fun r => xr_set_category r category) in
      let$ (ok, variables) := assignments_apply command category in
      if negb ok then finish false variables stage else
      if bool_decide (category = CSH_EXEC_EXTERNAL) then
        let$ (ok, l) := launch_prepare command in
        if negb ok then finish false variables stage else
        let$ _ := restore_variables variables in
        let$ (rc, stage) := run_external command l stage in
        finish rc [] stage
      else
        let$ rc := run_handler command handler in
        finish rc variables stage
  end.

(** ** Pipes *)

Definition pipe_close (fd : Z) : E unit :=
  if fd <? 0 then eret tt else let$ _ := efiles (Descriptors.retry (sys_close fd)) in eret tt.

(** One end, moved off the standard descriptors and closed on exec. *)
Definition pipe_end (fd : Z) : K Z :=
  if fd <? 3 then
    let? moved := Descriptors.retry (sys_dupfd fd 3) in
    let? _ := kcatch (Descriptors.retry (sys_close fd)) in kret moved
  else let? _ := Descriptors.retry (sys_setfd fd true) in kret fd.

Definition close_both (a b : Z) : K unit :=
  let? _ := kcatch (Descriptors.retry (sys_close a)) in let? _ := kcatch (Descriptors.retry (sys_close b)) in kret tt.

Definition pipeline_pipe : K (Z * Z) :=
  let? (a, b) := sys_pipe in
  let? r := kcatch (pipe_end a) in
  match r with
  | inl e => let? _ := close_both a b in kfail e
  | inr a =>
      let? r := kcatch (pipe_end b) in
      match r with
      | inl e => let? _ := close_both a b in kfail e
      | inr b => kret (a, b)
      end
  end.

Definition pipeline_connect (source target : Z) : E (errno + unit) :=
  if source <? 0 then eret (inr tt) else efiles (Descriptors.retry (sys_dup2 source target)).

(** The stage, or the errno of the wait. *)
Definition stage_wait (g : csh_pipeline_stage) : E (errno + csh_pipeline_stage) :=
  let$ r := wait_status (st_pid g) in
  eret (match r with inl e => inl e | inr s => inr (mk_stage (st_pid g) (decode_status s) s true true (st_category g)) end).

Definition live_stage (g : csh_pipeline_stage) : bool := (0 <? st_pid g) && negb (st_reaped g).

Fixpoint cancel_kill (l : list csh_pipeline_stage) : E unit :=
  match l with
  | [] => eret tt
  | g :: rest => let$ _ := (if live_stage g then kill_process (st_pid g) SIGKILL else eret tt) in cancel_kill rest
  end.

Fixpoint cancel_wait (l : list csh_pipeline_stage) : E (list csh_pipeline_stage) :=
  match l with
  | [] => eret []
  | g :: rest =>
      let$ g := (if live_stage g then let$ r := stage_wait g in eret (match r with inr g => g | inl _ => g end) else eret g) in
      let$ rest := cancel_wait rest in eret (g :: rest)
  end.

(** All of them are killed before the first is waited for. *)
Definition pipeline_cancel (l : list csh_pipeline_stage) : E (list csh_pipeline_stage) :=
  let$ _ := cancel_kill l in cancel_wait l.

Definition pipeline_launch_prepare (command : csh_command) : E (bool * launch) :=
  let$ ((ok, variables), _) := own_result no_execution (assignments_apply command CSH_EXEC_EXTERNAL) in
  if negb ok then eret (false, no_launch) else
  let$ r := launch_prepare command in
  let$ _ := restore_variables variables in
  eret r.

(** ** Contexts *)

Context {signal_text : SignalText}.

(** Whether the wait of every child went well, and the children that are left. *)
Fixpoint reap_children (l : list Z) (wait : bool) : E (bool * list Z) :=
  match l with
  | [] => eret (true, [])
  | pid :: rest =>
      let$ r := (if wait then let$ r := wait_status pid in eret (match r with inl e => inl e | inr s => inr (Some s) end)
        else let$ x := eget in ejobs (reap_retry (S (length (h_wait_faults (sx_host x)))) pid)) in
      match r with
      | inl e => let$ _ := efail (bs "cannot reap background child") e 1 in eret (false, l)
      | inr (Some _) => reap_children rest wait
      | inr None => let$ (ok, rest) := reap_children rest wait in eret (ok, pid :: rest)
      end
  end.

Definition csh_execution_context_reap (wait : bool) : E bool :=
  let$ c := context in
  let$ ok := (if cx_jobs c then on_jobs (fun js => csh_jobs_reap js wait) else eret true) in
  if negb ok then let$ e := last_errno in efail (bs "cannot collect job status") e 1 else
  let$ _ := put_error no_error in
  let$ (ok, l) := reap_children (cx_children c) wait in
  let$ c := context in
  let$ _ := put_context (with_background_children c l) in
  eret ok.

Definition csh_execution_context_destroy : E unit :=
  let$ _ := own_error (csh_execution_context_reap false) in
  let$ c := context in
  let$ x := eget in
  let js := if cx_jobs c then (fun js => with_jstate js (sx_state x)) <$> sx_jobs x else None in
  let$ _ := ejobs (csh_jobs_destroy js) in
  let$ x := eget in
  let$ _ := eput (if cx_jobs c then with_managers x None (sx_traps x) else x) in
  put_context no_context.

(** [jobs->tty] away from the descriptors; [minimum] is at most the number of
    descriptors that the process may have. *)
Fixpoint reserve_loop (n : nat) (fd minimum : Z) (fds : list Z) (scopes : list (list Z)) : K Z :=
  match n with
  | O => kfail EMFILE
  | S n =>
      let? copy := sys_dupfd fd minimum in
      if existsb (fun f => f =? copy) fds || csh_input_descriptor_reserved scopes copy then
        let? _ := kcatch (sys_close copy) in reserve_loop n fd (copy + 1) fds scopes
      else kret copy
  end.

Definition csh_jobs_reserve (fds : list Z) : E (errno + unit) :=
  let$ x := eget in
  let$ js := eopt (sx_jobs x) in
  let wanted fd := existsb (fun f => f =? fd) fds || csh_input_descriptor_reserved (sx_scopes x) fd in
  if (tty js <? 0) || negb (wanted (tty js)) then eret (inr tt) else
  let$ r := efiles (reserve_loop (S (Z.to_nat (k_limit (sx_kernel x)))) (tty js) 10 fds (sx_scopes x)) in
  match r with
  | inl e => eret (inl e)
  | inr copy =>
      let$ _ := efiles (sys_close (tty js)) in
      let$ x := eget in
      let$ _ := eput (with_managers x (Some (with_tty js copy (shell_group js))) (sx_traps x)) in
      eret (inr tt)
  end.

(** ** Outcomes of commands *)

Definition apply_errexit (kind : csh_ast_kind) : E unit :=
  let$ info := information in
  let$ _ := (if bool_decide (kind = CSH_AST_SIMPLE) then on_result (fun r => xr_set_ignored r false) else eret tt) in
  let$ _ := (if negb (errexit_ignored info =? 0) then on_result (fun r => xr_set_ignored r true) else eret tt) in
  let$ r := result in
  if opt_on (options info) CSH_OPT_ERREXIT && negb (xr_status r =? 0) && (errexit_ignored info =? 0) && negb (xr_errexit_ignored r) &&
     bool_decide (xr_control r = CSH_CONTROL_NONE) && negb (job_suspended r) &&
     negb (bool_decide (kind = CSH_AST_LIST) || bool_decide (kind = CSH_AST_AND) || bool_decide (kind = CSH_AST_OR))
  then on_result (fun r => xr_set_exit r true) else eret tt.

Definition report_error : E unit :=
  let$ e := error in
  if Output.reported e then eret tt else
  let$ _ := ehost (
    let* _ := csh_write_text STDERR (bs "cshell: ") in
    let* _ := csh_write_text STDERR (default [] (csh_error_message e)) in
    let* _ := (if bool_decide (system_errno e = ENONE) then ret 0 else
      let* _ := csh_write_text STDERR (bs ": ") in csh_write_text STDERR (strerror (system_errno e))) in
    csh_write_text STDERR [10]) in
  put_error (mk_error (message e) (detail e) true (system_errno e) (status e) (argument_index e) (position e)).

Definition expansion_failed : E unit :=
  let$ info := information in
  on_result (fun r => xr_set_exit r (negb (opt_on (options info) CSH_OPT_INTERACTIVE))).

(** From the last backup to the first. *)
Fixpoint restore_loop (saves : list (option nat)) (rc : bool) : E bool :=
  match saves with
  | [] => eret rc
  | save :: rest =>
      let$ failed := redirect_restore save in
      match failed with
      | Some e => let$ _ := put_error e in restore_loop rest false
      | None => restore_loop rest rc
      end
  end.

Definition restore_redirects (saves : list (option nat)) : E bool := restore_loop (rev saves) true.

Definition context_noexec : E bool :=
  let$ info := information in eret (opt_on (options info) CSH_OPT_NOEXEC).

Definition context_stopped : E bool :=
  let$ info := information in
  let$ r := result in
  eret (job_suspended r || negb (bool_decide (xr_control r = CSH_CONTROL_NONE)) || exit_requested r ||
    (special_builtin_error r && negb (opt_on (options info) CSH_OPT_INTERACTIVE))).

(** The rest of a compound command is not executed. *)
Definition halted : E bool := let$ a := context_stopped in if a then eret true else context_noexec.

(** ** Traces *)

Definition plain_byte (b : byte) : bool :=
  in_set b (bs "abcdefghijklmnopqrstuvwxyzABCDEFGHIJKLMNOPQRSTUVWXYZ0123456789_./-:=+").

Fixpoint trace_quoted (word : str) : M unit :=
  match word with
  | [] => ret tt
  | b :: rest =>
      let* _ := (if b =? 39 then csh_write_text STDERR (bs "'\''") else csh_write_bytes STDERR [b]) in
      trace_quoted rest
  end.

Definition trace_word (word : str) : M unit :=
  if negb (bool_decide (word = [])) && forallb plain_byte word then let* _ := csh_write_text STDERR word in ret tt else
  let* _ := csh_write_text STDERR (bs "'") in
  let* _ := trace_quoted word in
  let* _ := csh_write_text STDERR (bs "'") in ret tt.

Fixpoint trace_assignments (l : list csh_assignment) (separated : bool) : M bool :=
  match l with
  | [] => ret separated
  | a :: rest =>
      let* _ := (if separated then csh_write_text STDERR (bs " ") else ret 0) in
      let* _ := csh_write_text STDERR (default [] (as_name a)) in
      let* _ := csh_write_text STDERR (bs "=") in
      let* _ := trace_word (default [] (as_value a)) in
      trace_assignments rest true
  end.

Fixpoint trace_arguments (l : list str) (separated : bool) : M unit :=
  match l with
  | [] => ret tt
  | a :: rest =>
      let* _ := (if separated then csh_write_text STDERR (bs " ") else ret 0) in
      let* _ := trace_word a in
      trace_arguments rest true
  end.

(** ** command -v *)

Definition reserved_words : list str :=
  [bs "!"; bs "{"; bs "}"; bs "case"; bs "do"; bs "done"; bs "elif"; bs "else"; bs "esac"; bs "fi"; bs "for"; bs "if"; bs "in";
   bs "then"; bs "until"; bs "while"].

(** What a handler of alias.c gives, then [fflush(stdout) == EOF]. *)
Definition alias_handler (alias : bool) (argv : list str) : E (option (Z * bool)) :=
  let$ table := on_state csh_state_aliases in
  match table with
  | None => eret None
  | Some table =>
      let$ (rc, table) := ehost ((if alias then csh_builtin_alias else csh_builtin_unalias) table (Some <$> argv)) in
      let$ _ := change_state (fun s => State.with_aliases s (Some table)) in
      let$ ok := ehost (stdio_put []) in
      eret (Some (rc, negb ok))
  end.

(** Whether the texts could not be written. *)
Definition unwritten (texts : list str) : E bool := let$ n := ehost (write_texts STDOUT texts) in eret (n <? 0).

Definition lookup_report (utility name : str) (verbose defaults : bool) : E bool :=
  let output_error (failed : bool) (m : E bool) :=
    if failed then let$ _ := diagnose utility (bs "cannot write output") ENONE in eret true else m in
  let$ table := on_state csh_state_aliases in
  let alias := table ≫= (fun t => csh_aliases_get t (Some name)) in
  let$ category := command_category name None in
  match alias with
  | Some _ =>
      let$ failed := unwritten (if verbose then [name; bs " is an alias: "] else [bs "alias "]) in
      output_error failed (
        let$ r := alias_handler true [bs "alias"; name] in
        match r with
        | Some (rc, unflushed) => eret (negb (rc =? 0) || unflushed)
        | None => efault
        end)
  | None =>
      if one_of name reserved_words then
        let$ failed := unwritten ([name] ++ (if verbose then [bs " is a reserved word"] else []) ++ [[10]]) in
        output_error failed (eret false)
      else if (negb (bool_decide (category = CSH_EXEC_EXTERNAL)) || csh_jobs_is_builtin name) &&
              (negb (str_eqb name (bs "pwd")) || bool_decide (category = CSH_EXEC_FUNCTION)) then
        let kind := if bool_decide (category = CSH_EXEC_FUNCTION) then bs "function" else bs "shell builtin" in
        let$ failed := unwritten ([name] ++ (if verbose then [bs " is a "; kind] else []) ++ [[10]]) in
        output_error failed (eret false)
      else
        let$ path := lookup_path name defaults false None in
        match path with
        | None => let$ _ := (if verbose then diagnose name (bs "not found") ENONE else eret tt) in eret true
        | Some path =>
            let$ failed := unwritten ((if verbose then [name; bs " is "] else []) ++ [path; [10]]) in
            output_error failed (eret false)
        end
  end.

Definition csh_execute_input_line (bytes : str) : E unit :=
  let$ info := information in
  if opt_on (options info) CSH_OPT_VERBOSE then let$ _ := ehost (csh_write_bytes STDERR bytes) in eret tt else eret tt.
End Launch.
