(* ===== verification/ExecutionTheorems.v ===== *)
(** * Properties of the calls of a process

    Which program a search starts and what the status of a failed search means;
    assignments before a command take effect together and are undone. *)

From stdpp Require Import base list gmap strings.
From S2P Require Import Prelude Output Numbers Options Character State StateCopy StateTheorems Expansion Descriptors Redirect Input Signals Traps Builtin BuiltinTheorems Jobs Process Values Prepare Plan Execution.

(** ** A quiet system *)

(** Every call succeeds; [/bin/true] and [/bin/false] are the only programs. *)
Definition quiet_system : System := {|
  sys_stack := fun _ _ => true; sys_expansion := fun _ _ => ([], []); sys_parsers := fun _ _ _ => ([], []);
  sys_fork := fun p n => inr (p * 1000 + Z.of_nat n + 1); sys_fate := fun _ => None;
  sys_prospects := fun _ => mk_prospects [] [] [] [] [] [] [] [] [] [];
  sys_execve := fun _ _ path => if str_eqb path (bs "/bin/true") then inr [0] else if str_eqb path (bs "/bin/false") then inr [256] else inl ENOENT;
  sys_access := fun _ _ _ _ => true; sys_confstr := Some (bs "/bin"); sys_getcwd := fun _ _ => inr (bs "/tmp");
  sys_chdir := fun _ _ _ => None; sys_fchdir := fun _ _ _ => None; sys_identity := fun _ _ _ => (0, 0); sys_pathmax := fun _ _ => 4096;
  sys_mask := fun _ _ => None; sys_setpgid := fun _ _ => None; sys_stream := fun _ _ => None;
  sys_chunks := fun _ _ => [inr (bs "out"); inr [10]; inr []];
  sys_barrier := fun _ _ => true; sys_child_max := 256; sys_group := 100; sys_parent := 1;
  sys_getrlimit := fun _ _ => true; sys_setrlimit := fun _ _ _ _ => true; sys_times := fun _ _ => None |}.

Definition plain_errors : ErrorText := fun _ => bs "error".

(** The standard descriptors. *)
Definition quiet_kernel : kernel :=
  mk_kernel (list_to_map ((fun fd => (fd, mk_descriptor (100 + fd) false)) <$> [0; 1; 2]))
    (list_to_map ((fun fd => (100 + fd, mk_description O_RDWR S_IFREG false [] 0)) <$> [0; 1; 2])) 200 32 [] [] [] 0.

Definition quiet_disk : Disk := {|
  disk_open := fun _ _ flags => inr (mk_description (o_access flags) S_IFREG false [] 0);
  disk_stat := fun _ _ => inl ENOENT; disk_tty := fun _ => false |}.

Definition quiet_shell : shell :=
  mk_shell 1 0 sample_state (mk_host sample_proc (mk_signals ∅ [] false 0 0) ∅ [] [] [] [] [] 0 0 ENONE) quiet_kernel [] 0 [] 0 []
    None None ∅ 100 false false 18 (replicate 7 (10, 20)) no_context no_execution no_error.

(** ** Reasoning about computations *)

(** The computation gives a value, for which [Q] holds with the process then. *)
Definition edone {A} (m : E A) (x : shell) (Q : A -> shell -> Prop) : Prop :=
  match m x with (EDone a, y) => Q a y | _ => False end.

Section Done.
Context {A B : Type}.

Lemma edone_ret (a : A) x (Q : A -> shell -> Prop) : Q a x -> edone (eret a) x Q.
Proof. done. Qed.

Lemma edone_bind (m : E A) (f : A -> E B) x Q : edone m x (fun a y => edone (f a) y Q) -> edone (ebind m f) x Q.
Proof. unfold edone, ebind. by destruct (m x) as [[| | | | |a] y]. Qed.

Lemma edone_mono (m : E A) x (P Q : A -> shell -> Prop) : edone m x P -> (forall a y, P a y -> Q a y) -> edone m x Q.
Proof. unfold edone. destruct (m x) as [[| | | | |a] y]; try done. auto. Qed.

Lemma edone_host (m : M A) x (Q : A -> shell -> Prop) :
  post m (h_proc (sx_host x)) (fun a p => Q a (with_host x (with_proc (sx_host x) p))) -> edone (ehost m) x Q.
Proof. unfold edone, ehost, post. by destruct (m _) as [a p]. Qed.

(** Whatever it gives to the process. *)
Lemma edone_host_any (m : M A) x (Q : A -> shell -> Prop) :
  (forall a p, Q a (with_host x (with_proc (sx_host x) p))) -> edone (ehost m) x Q.
Proof. unfold edone, ehost. intros H. destruct (m _) as [a p]. apply H. Qed.

Lemma edone_on_state (f : csh_state -> M (A * csh_state)) x (Q : A -> shell -> Prop) :
  post (f (sx_state x)) (h_proc (sx_host x)) (fun r p => Q (fst r) (with_process_state (with_host x (with_proc (sx_host x) p)) (snd r))) ->
  edone (on_state f) x Q.
Proof. unfold edone, on_state, state, ehost, ebind, put_state, eret, post. by destruct (f _ _) as [[a s] p]. Qed.
End Done.

(** ** The search for a program *)

Section Search.
Context {system : System} {errors : ErrorText} {disk : Disk} {db : State.LocaleDb}.

(** A call that fails has a reason. *)
Hypothesis execve_errno : forall p n path, sys_execve p n path <> inl ENONE.

(** What the system said to [execve] on a path, at some time of the search. *)
Definition answered (process : Z) (path : str) (r : errno + list Z) : Prop := exists n, sys_execve process n path = r.

(** The reason does not end the search. *)
Definition passed (process : Z) (path : str) : Prop := exists e, answered process path (inl e) /\ e <> ENOEXEC.

Lemma ask_run {A} (f : Z -> nat -> A) x : ask f x = (EDone (f (sx_process x) (sx_clock x)), at_time x (S (sx_clock x))).
Proof. done. Qed.

Lemma ehost_process {A} (m : M A) x : exists a y, ehost m x = (EDone a, y) /\ sx_process y = sx_process x.
Proof. unfold ehost. destruct (m _) as [a p]. by eexists _, _. Qed.

(** A file was there, or was not when the call was not made to fail. *)
Lemma efiles_stat path x : exists r y, efiles (sys_stat path) x = (EDone r, y) /\ sx_process y = sx_process x /\
  k_faults (sx_kernel y) ⊆ k_faults (sx_kernel x) /\
  match r with
  | inr kind => exists t k, disk_stat t path = inr k
  | inl _ => (exists t e, disk_stat t path = inl e) \/ exists f, Some f ∈ k_faults (sx_kernel x)
  end.
Proof.
  unfold efiles, sys_stat, sys, pop_fault. destruct (k_faults (sx_kernel x)) as [|[f|] rest] eqn:Ef.
  - destruct (disk_stat (k_time (sx_kernel x)) path) as [e|kd] eqn:E; eexists _, _; (split; [reflexivity|]); cbn; (split; [done|split; [by rewrite ?Ef|eauto]]).
  - eexists _, _. split; [reflexivity|]. cbn. split; [done|]. split; [by intros o Ho; right|]. right. exists f. by left.
  - cbn [with_faults k_time]. destruct (disk_stat (k_time (sx_kernel x)) path) as [e|kd] eqn:E; eexists _, _; (split; [reflexivity|]); cbn;
      (split; [done|split; [by intros o Ho; right|eauto]]).
Qed.

Lemma diagnose_run name text number x : exists y, diagnose name text number x = (EDone tt, y) /\ sx_process y = sx_process x.
Proof. destruct (ehost_process (let* _ := csh_write_text STDERR (bs "cshell: ") in
  let* _ := csh_write_text STDERR name in
  let* _ := csh_write_text STDERR (bs ": ") in
  let* _ := csh_write_text STDERR text in
  let* _ := (if bool_decide (number = ENONE) then ret 0 else
    let* _ := csh_write_text STDERR (bs ": ") in csh_write_text STDERR (strerror number)) in
  let* _ := csh_write_text STDERR [10] in
  ret tt) x) as ([] & y & H & Hp). by exists y. Qed.

(** [faults] are the failures that the host gives to system calls. *)
Context (faults : list (option fault)).

(** There is no file at the path: [execve] said so, and [stat] found none, unless
    it was made to fail. *)
Definition missing (process : Z) (path : str) : Prop :=
  (exists e, answered process path (inl e) /\ (e = ENOENT \/ e = ENOTDIR)) /\
  ((exists t e, disk_stat t path = inl e) \/ exists f, Some f ∈ faults).

(** A file that is there cannot be executed, which may be for want of the
    interpreter that it names. *)
Definition unusable (process : Z) (path : str) : Prop :=
  (exists e, answered process path (inl e) /\ e <> ENOENT /\ e <> ENOTDIR) \/
  ((exists e, answered process path (inl e) /\ (e = ENOENT \/ e = ENOTDIR)) /\ exists t kind, disk_stat t path = inr kind).

(** The result of the search through [paths], where something was found before
    when [found] holds. *)
Definition searched (process : Z) (paths : list str) (found : bool) (r : eoutcome Z) : Prop :=
  match r with
  | EProgram statuses =>
      exists before path after, paths = before ++ path :: after /\ Forall (passed process) before /\
        (answered process path (inr statuses) \/
         answered process path (inl ENOEXEC) /\ answered process (bs "/bin/sh") (inr statuses))
  | EDone status =>
      (status = 127 /\ found = false /\ Forall (missing process) paths) \/
      (status = 126 /\ (found = true \/ Exists (unusable process) paths))
  | _ => False
  end.

Lemma searched_cons process path paths found found' r :
  passed process path ->
  (found' = true -> found = true \/ unusable process path) ->
  (found' = false -> found = false /\ missing process path) ->
  searched process paths found' r -> searched process (path :: paths) found r.
Proof.
  intros Hp Ht Hf. destruct r; try done; cbn [searched].
  - intros (before & q & after & -> & Hb & Ha). exists (path :: before), q, after. split_and!; [done|by constructor|done].
  - intros [(-> & E & Hall)|(-> & E)].
    + left. destruct (Hf E) as [-> He]. split_and!; [done|done|by constructor].
    + right. split; [done|]. rewrite Exists_cons. destruct E as [E|E]; [|by right; right].
      destruct (Ht E) as [H|H]; [by left|]. right. by left.
Qed.

Lemma replace_loop_searched name paths remembered x : k_faults (sx_kernel x) ⊆ faults ->
  searched (sx_process x) paths (negb (bool_decide (remembered = ENONE))) (fst (replace_loop name paths remembered x)).
Proof.
  revert remembered x. induction paths as [|path paths IH]; intros remembered x Hk; cbn [replace_loop].
  - unfold ebind. destruct (diagnose_run name (if negb (bool_decide (remembered = ENONE)) then bs "cannot execute" else bs "command not found") remembered x) as (y & -> & _).
    cbn. case_bool_decide; [left|right]; split_and!; try done; by left.
  - unfold execve at 1. unfold ebind at 1 2. rewrite ask_run.
    destruct (sys_execve (sx_process x) (sx_clock x) path) as [e|statuses] eqn:E; cbn [eret].
    2: { exists [], path, paths. split_and!; [done|done|]. left. by exists (sx_clock x). }
    assert (answered (sx_process x) path (inl e)) as Ha by (by exists (sx_clock x)).
    set (y := at_time x (S (sx_clock x))). assert (sx_process y = sx_process x) as Hy by done.
    destruct (decide (e = ENOEXEC)) as [Hn|Hn]; [rewrite (bool_decide_eq_true_2 (e = ENOEXEC)) by done|rewrite (bool_decide_eq_false_2 (e = ENOEXEC)) by done].
    + assert (answered (sx_process x) path (inl ENOEXEC)) as Hx by (by rewrite <- Hn).
      unfold execve, ebind. rewrite ask_run. destruct (sys_execve (sx_process y) (sx_clock y) (bs "/bin/sh")) as [e'|statuses] eqn:Es; cbn [eret].
      * destruct (diagnose_run name (bs "cannot execute command interpreter") e' (at_time y (S (sx_clock y)))) as (z & -> & _). cbn.
        right. split; [done|]. right. left. left. by exists ENOEXEC.
      * exists [], path, paths. split_and!; [done|done|]. right. split; [done|]. by exists (sx_clock y).
    + assert (passed (sx_process x) path) as Hp by (by exists e).
      destruct (negb (bool_decide (e = ENOENT)) && negb (bool_decide (e = ENOTDIR))) eqn:Eb.
      * apply andb_prop in Eb as [E1 E2]. apply negb_true_iff, bool_decide_eq_false_1 in E1, E2.
        eapply searched_cons; [done| | |rewrite <- Hy; by apply IH].
        -- intros _. right. left. by exists e.
        -- rewrite bool_decide_eq_false_2; [done|]. intros ->. by apply (execve_errno _ _ _ E).
      * assert (e = ENOENT \/ e = ENOTDIR) as Ho.
        { apply andb_false_iff in Eb as [Eb|Eb]; apply negb_false_iff, bool_decide_eq_true_1 in Eb; auto. }
        unfold ebind. destruct (efiles_stat path y) as (r & z & Er & Hz & Hkz & Hr). rewrite Er. rewrite <- Hy, <- Hz.
        eapply searched_cons; [by rewrite Hz| | |apply IH; by etrans]; rewrite ?Hz.
        -- destruct r as [e'|kind]; [intros H; by left|]. intros _. right. right. split; [by exists e|exact Hr].
        -- destruct r as [e'|kind]; [intros H; split; [done|]; split; [by exists e|]|].
           { destruct Hr as [Hr|[f Hr]]; [by left|]. right. exists f. by apply Hk. }
           rewrite bool_decide_eq_false_2; [done|]. intros ->. by apply (execve_errno _ _ _ E).
Qed.
End Search.

(** C23: the search for a program starts the first one that the system accepts,
    after nothing but paths that it refused, a file without a format being given
    to /bin/sh.  When the search fails the status is 127 exactly for paths none
    of which has a file: the system said so for each, and a look at the path
    found none unless that look was itself made to fail; it is 126 when some
    path has a file that cannot be executed, a script without its interpreter
    included. *)
Theorem launch_replace_search {system : System} {errors : ErrorText} {disk : Disk} command l name x :
  (forall p n path, sys_execve p n path <> inl ENONE) ->
  argv command !! 0%nat = Some name -> name <> [] ->
  searched (k_faults (sx_kernel x)) (sx_process x) (la_paths l) false (fst (launch_replace command l x)).
Proof.
  intros He Hn Hne. unfold launch_replace, ebind. rewrite Hn. cbn [eopt eret]. rewrite bool_decide_eq_false_2 by done.
  by apply (replace_loop_searched He _ name (la_paths l) ENONE x).
Qed.

(** Of two paths the second is a program; another search finds none. *)
Lemma launch_replace_search_witness :
  let run paths := fst (launch_replace (system := quiet_system) (errors := plain_errors) (disk := quiet_disk)
    (mk_command [bs "true"] false [] 0 [] 0 0) (mk_launch paths [] []) quiet_shell) in
  let found paths r := searched (system := quiet_system) (disk := quiet_disk) [] 1 paths false r in
  (run [bs "/bin/no"; bs "/bin/true"] = EProgram [0] /\ found [bs "/bin/no"; bs "/bin/true"] (EProgram [0])) /\
  run [bs "/bin/no"] = EDone 127 /\ found [bs "/bin/no"] (EDone 127).
Proof.
  intros run found.
  assert (forall paths, found paths (run paths)) as H.
  { intros paths. refine (launch_replace_search (system := quiet_system) (errors := plain_errors) (disk := quiet_disk)
      (mk_command [bs "true"] false [] 0 [] 0 0) (mk_launch paths [] []) (bs "true") quiet_shell _ eq_refl _).
    - intros p n path. cbn. by repeat case_match.
    - done. }
  assert (run [bs "/bin/no"; bs "/bin/true"] = EProgram [0]) as E1 by (vm_compute; reflexivity).
  assert (run [bs "/bin/no"] = EDone 127) as E2 by (vm_compute; reflexivity).
  split; [split; [exact E1|]|split; [exact E2|]]; [rewrite <- E1|rewrite <- E2]; apply H.
Defined.

(** ** Assignments before a command *)

Section Assignments.
Context {system : System} {errors : ErrorText} {disk : Disk} {db : State.LocaleDb}.

Definition bindings (x : shell) : gmap str (option str * Z) := var_map (variables (sx_state x)).

(** The value that the last assignment to the name has. *)
Fixpoint last_value (n : str) (l : list csh_assignment) : option str :=
  match l with
  | [] => None
  | a :: rest =>
      match last_value n rest with
      | Some v => Some v
      | None => if bool_decide (as_name a = Some n) then as_value a else None
      end
  end.

(** A category whose assignments end with the command. *)
Definition for_command (category : csh_execution_category) : bool :=
  bool_decide (category = CSH_EXEC_EXTERNAL) || bool_decide (category = CSH_EXEC_REGULAR_BUILTIN) || bool_decide (category = CSH_EXEC_FUNCTION).

Lemma efail_done text number status x (Q : bool -> shell -> Prop) :
  (forall e, Q false (with_error x e)) -> edone (efail text number status) x Q.
Proof. intros H. apply H. Qed.

(** Names and values are there after the check. *)
Lemma assignments_check_done l x (Q : bool -> shell -> Prop) :
  (forall ok y, sx_state y = sx_state x -> sx_host y = sx_host x ->
    (ok = true -> Forall (fun a => exists n v, as_name a = Some n /\ as_value a = Some v /\ valid_name n = true) l) -> Q ok y) ->
  edone (assignments_check l) x Q.
Proof.
  revert x Q. induction l as [|a l IH]; intros x Q HQ; cbn [assignments_check]; [by apply edone_ret, HQ|].
  apply edone_bind. unfold state, edone at 1. destruct (csh_state_get_variable (sx_state x) (as_name a)) as [r view] eqn:Eg.
  destruct (negb (bool_decide (is_Some (as_value a))) || negb (bool_decide (r = CSH_STATE_OK))) eqn:Eb.
  { apply efail_done. intros e. by apply HQ. }
  apply orb_false_iff in Eb as [Ev Er]. apply negb_false_iff, bool_decide_eq_true_1 in Ev, Er.
  destruct (negb _) eqn:Ero.
  { apply edone_bind. unfold on_result, edone at 1. apply efail_done. intros e. by apply HQ. }
  apply IH. intros ok y Hs Hh Hok. apply HQ; [done|done|]. intros Ht. constructor; [|by apply Hok].
  subst r. destruct Ev as [v Ev]. unfold csh_state_get_variable in Eg. destruct (as_name a) as [n|]; [|done].
  destruct (valid_name n) eqn:En; [|done]. by exists n, v.
Qed.

(** A name, with its value and, when they are exported, the attribute. *)
Definition assigned (l : list csh_assignment) (export : bool) (m m' : gmap str (option str * Z)) (n : str) : Prop :=
  match last_value n l with
  | Some v => exists a, m' !! n = Some (Some v, a) /\ (export = true -> has_attribute a CSH_VAR_EXPORT = true)
  | None => m' !! n = m !! n
  end.

(** One assignment. *)
Lemma assignment_done n v export x (Q : csh_state_result -> shell -> Prop) :
  state_wf (sx_state x) ->
  (forall r y, state_wf (sx_state y) ->
    (forall m, m <> n -> bindings y !! m = bindings x !! m) ->
    (r = CSH_STATE_OK -> exists a, bindings y !! n = Some (Some v, a) /\ (export = true -> has_attribute a CSH_VAR_EXPORT = true)) -> Q r y) ->
  edone (let$ r := on_state (fun s => csh_state_set_variable s (Some n) (Some v)) in
    if bool_decide (r = CSH_STATE_OK) && export then on_state (fun s => csh_state_update_attributes s (Some n) CSH_VAR_EXPORT 0) else eret r) x Q.
Proof.
  intros Hwf HQ. apply edone_bind, edone_on_state. eapply post_mono; [by apply set_variable_post|].
  intros [r s1] w1 (_ & Hwf1 & _ & Hr). cbn [fst snd]. set (y := with_process_state _ s1).
  assert (r <> CSH_STATE_OK -> bindings y = bindings x) as Hsame.
  { intros Hne. unfold bindings. destruct r; [done|..]; by destruct Hr as [Hs _]; cbn; rewrite Hs. }
  destruct (decide (r = CSH_STATE_OK)) as [->|Hne].
  2: { rewrite bool_decide_eq_false_2 by done. apply edone_ret, HQ; [done| |done]. intros m _. by rewrite Hsame. }
  destruct Hr as (_ & _ & _ & Hm). rewrite bool_decide_eq_true_2 by done.
  assert (forall m, m <> n -> bindings y !! m = bindings x !! m) as Ho.
  { intros m Hne. unfold bindings. cbn. by rewrite Hm, lookup_insert_ne. }
  assert (exists a, bindings y !! n = Some (Some v, a)) as [a Ha].
  { unfold bindings. cbn. rewrite Hm, lookup_insert_eq. by eexists. }
  destruct export; cbn [andb]; [|by apply edone_ret, HQ; [done..|intros _; exists a]].
  apply edone_on_state. eapply post_mono; [by apply update_attributes_post|].
  intros [r s2] w2 (_ & Hwf2 & _ & Hr). cbn [fst snd]. apply HQ; [done| |].
  - intros m Hne. rewrite <- Ho by done. unfold bindings. cbn [sx_state with_process_state].
    destruct r; [|by (subst s2 || destruct Hr as [-> _])..]. destruct Hr as (_ & _ & _ & ->). by rewrite lookup_partial_alter_ne.
  - intros ->. destruct Hr as (_ & _ & _ & Hp). exists (changed_attributes a CSH_VAR_EXPORT 0).
    unfold bindings in Ha |- *. cbn [sx_state with_process_state] in *. rewrite Hp, lookup_partial_alter_eq, Ha. split; [done|]. intros _. unfold has_attribute. by rewrite changed_has.
Qed.

Lemma assignments_set_done l export x (Q : csh_state_result -> shell -> Prop) :
  state_wf (sx_state x) -> Forall (fun a => exists n v, as_name a = Some n /\ as_value a = Some v /\ valid_name n = true) l ->
  (forall r y, state_wf (sx_state y) -> (forall n, Some n ∉ as_name <$> l -> bindings y !! n = bindings x !! n) ->
    (r = CSH_STATE_OK -> forall n, assigned l export (bindings x) (bindings y) n) -> Q r y) ->
  edone (assignments_set l export) x Q.
Proof.
  revert x Q. induction l as [|a l IH]; intros x Q Hwf Hl HQ; cbn [assignments_set]; [by apply edone_ret, HQ|].
  inversion_clear Hl as [|? ? (n & v & En & Ev & _) Hl']. rewrite En, Ev.
  assert (forall (f : csh_state_result -> E csh_state_result), edone (let$ r := (let$ r := on_state (fun s => csh_state_set_variable s (Some n) (Some v)) in
    if bool_decide (r = CSH_STATE_OK) && export then on_state (fun s => csh_state_update_attributes s (Some n) CSH_VAR_EXPORT 0) else eret r) in f r) x Q ->
    edone (let$ r := on_state (fun s => csh_state_set_variable s (Some n) (Some v)) in
      let$ r := (if bool_decide (r = CSH_STATE_OK) && export then on_state (fun s => csh_state_update_attributes s (Some n) CSH_VAR_EXPORT 0) else eret r) in f r) x Q) as Hassoc.
  { intros f. unfold edone, ebind. destruct (on_state _ x) as [[| | | | |r] y]; try done. }
  apply Hassoc, edone_bind, assignment_done; [done|]. intros r y Hwf1 Ho Hn.
  destruct (decide (r = CSH_STATE_OK)) as [->|Hne]; [rewrite bool_decide_eq_true_2 by done|rewrite bool_decide_eq_false_2 by done].
  2: { apply edone_ret, HQ; [done| |done]. intros m Hm. apply Ho. intros ->. apply Hm. rewrite fmap_cons, En. by left. }
  destruct (Hn eq_refl) as (at' & Ha & Hx). apply IH; [done|done|]. intros r z Hwf2 Ho2 Hn2. apply HQ; [done| |].
  - intros m Hm. rewrite fmap_cons, En in Hm. rewrite Ho2, Ho; [done| |]; intros H; apply Hm; [subst; by left|by right].
  - intros Hr m. specialize (Hn2 Hr m). unfold assigned in *. cbn [last_value]. destruct (last_value m l) as [w|]; [done|].
    rewrite Hn2, En. destruct (decide (m = n)) as [->|Hne].
    + rewrite bool_decide_eq_true_2 by done. rewrite Ev. by exists at'.
    + rewrite bool_decide_eq_false_2 by congruence. by apply Ho.
Qed.

(** The saved bindings come back, whatever the state is then. *)
Definition brings_back (save : list variable_save) (names : list (option str)) (m : gmap str (option str * Z)) : Prop :=
  forall s w, state_wf s -> post (csh_state_restore_variables s save) w (fun '(_, s') _ =>
    state_wf s' /\ forall n, var_map (variables s') !! n = if decide (Some n ∈ names) then m !! n else var_map (variables s) !! n).

Lemma saved_brings_back s l w save w1 :
  Forall (fun a => exists n v, as_name a = Some n /\ as_value a = Some v /\ valid_name n = true) l ->
  csh_state_save_variables s (as_name <$> l) w = (CSH_STATE_OK, save, w1) ->
  brings_back save (as_name <$> l) (var_map (variables s)).
Proof.
  intros Hl Hsave s2 w2 Hwf. set (names := omap as_name l).
  assert (as_name <$> l = Some <$> names) as En.
  { unfold names. clear Hsave. induction Hl as [|a l (n & v & En & _) _ IH]; [done|]. cbn. rewrite En. cbn. by rewrite IH. }
  rewrite En in Hsave |- *. eapply post_mono; [by eapply restore_saved|]. intros [r s3] w3 (_ & Hwf3 & Hm). split; [done|].
  intros n. rewrite Hm. destruct (decide (n ∈ names)) as [H|H]; destruct (decide (Some n ∈ Some <$> names)) as [H'|H']; try done.
  - destruct H'. by apply list_elem_of_fmap_2.
  - apply list_elem_of_fmap in H' as (? & [= <-] & ?). done.
Qed.

Lemma efailing_done (save : list variable_save) text number status x (Q : bool * list variable_save -> shell -> Prop) :
  (forall e, Q (false, save) (with_error x e)) -> edone (let$ ok := efail text number status in eret (ok, save)) x Q.
Proof. intros H. apply H. Qed.

(** C22: the assignments before a command take effect all together or not at
    all.  On failure (an invalid or readonly name, no memory at any point) every
    variable has the binding it had.  On success every name has the value of its
    last assignment, exported where the category or the option asks for it, and
    no other variable has changed; what is to be restored after the command
    gives the names their old bindings in whatever state the command ends, and
    is empty when the assignments are to stay. *)
Theorem assignments_atomic command category x : state_wf (sx_state x) ->
  edone (assignments_apply command category) x (fun '(ok, save) y =>
    state_wf (sx_state y) /\
    if ok then
      (forall n, assigned (command_assignments command) (for_command category || opt_on (options (csh_state_get_info (sx_state x))) CSH_OPT_ALLEXPORT)
        (bindings x) (bindings y) n) /\
      if for_command category then brings_back save (as_name <$> command_assignments command) (bindings x) else save = []
    else bindings y = bindings x /\ save = []).
Proof.
  intros Hwf. unfold assignments_apply. fold (for_command category).
  destruct (assignment_count command =? 0)%nat eqn:E0.
  { apply Nat.eqb_eq in E0. apply edone_ret. unfold command_assignments. rewrite E0. cbn [take]. split_and!; [done|by intros n|].
    destruct (for_command category); [|done]. intros s w Hs. apply post_ret. by split. }
  destruct (bool_decide (assignments command = [])); [by apply efailing_done|].
  set (l := command_assignments command). apply edone_bind, edone_ret, edone_bind, assignments_check_done.
  intros ok y Es Eh Hok. assert (bindings y = bindings x) as Eb by (unfold bindings; by rewrite Es).
  assert (state_wf (sx_state y)) as Hwfy by (by rewrite Es).
  destruct ok; cbn [negb]; [|by apply edone_ret]. specialize (Hok eq_refl).
  destruct (_ >? _); [by apply efailing_done|].
  apply edone_bind, edone_host_any. intros b p1. destruct b; cbn [negb]; [|by apply efailing_done].
  apply edone_bind, edone_ret, edone_bind, edone_host. unfold post.
  destruct (csh_state_save_variables _ _ _) as [[r save] p2] eqn:Esave.
  destruct (decide (r = CSH_STATE_OK)) as [->|Hne].
  2: { rewrite (bool_decide_eq_false_2 (r = CSH_STATE_OK)) by done. by apply efailing_done. }
  rewrite bool_decide_eq_true_2 by done. cbn [negb].
  pose proof (saved_brings_back _ _ _ _ _ Hok Esave) as Hback. cbn in Hback.
  apply edone_bind, assignments_set_done; [done|done|]. intros r z Hwfz Ho Hn.
  destruct (decide (r = CSH_STATE_OK)) as [->|Hne]; [rewrite bool_decide_eq_true_2 by done|rewrite bool_decide_eq_false_2 by done]; cbn [negb].
  - apply edone_ret. split; [done|]. split; [intros n; rewrite <- Eb; by apply Hn|].
    destruct (for_command category); [|done]. by rewrite <- Eb.
  - apply edone_bind. unfold restore_variables. apply edone_bind, edone_on_state.
    eapply post_mono; [by apply Hback|]. intros [r2 s3] p3 (Hwf3 & Hm). cbn [fst snd]. apply edone_ret, efailing_done. intros e.
    split; [done|]. split; [|done]. rewrite <- Eb. apply map_eq. intros n. unfold bindings at 1. cbn. rewrite Hm.
    case_decide; [done|]. by apply Ho.
Qed.
End Assignments.

(** [HOME=/tmp X=1 command] *)
Definition prefixed : csh_command :=
  mk_command [bs "command"] false [mk_assignment (Some (bs "HOME")) (Some (bs "/tmp")); mk_assignment (Some (bs "X")) (Some (bs "1"))] 2 [] 0 0.

Lemma prefixed_succeeds :
  match fst (assignments_apply (db := every_locale) prefixed CSH_EXEC_EXTERNAL quiet_shell) with EDone (ok, _) => ok | _ => false end = true.
Proof. vm_compute. reflexivity. Qed.

Lemma prefixed_value : last_value (bs "HOME") (command_assignments prefixed) = Some (bs "/tmp") /\ bindings quiet_shell !! bs "HOME" = Some (Some (bs "/root"), 1).
Proof. vm_compute. done. Qed.

Lemma assignments_atomic_witness :
  edone (assignments_apply (db := every_locale) prefixed CSH_EXEC_EXTERNAL) quiet_shell (fun '(ok, save) y =>
    ok = true /\ bindings y !! bs "HOME" <> bindings quiet_shell !! bs "HOME" /\
    brings_back (db := every_locale) save (as_name <$> command_assignments prefixed) (bindings quiet_shell)).
Proof.
  pose proof (assignments_atomic (db := every_locale) prefixed CSH_EXEC_EXTERNAL quiet_shell sample_state_wf) as H.
  pose proof prefixed_succeeds as Hok. revert H Hok. unfold edone. generalize (assignments_apply (db := every_locale) prefixed CSH_EXEC_EXTERNAL quiet_shell).
  intros [r y] H Hok. cbn [fst] in Hok.
  destruct r as [| | | | |[ok save]]; try done. rewrite Hok in H |- *. destruct H as (_ & Ha & Hb).
  split; [reflexivity|]. split; [|exact Hb]. specialize (Ha (bs "HOME")). unfold assigned in Ha.
  destruct prefixed_value as [E1 E2]. rewrite E1 in Ha. destruct Ha as (a & Ha & _). rewrite Ha, E2. intros [=].
Defined.
