(* ===== verification/Utility.v ===== *)
(** * Utilities (src/utility.c)

    The builtins [read], [getopts], [umask], [ulimit] and [times].  The parts
    that only look at texts are functions of their own: the fields of a line
    that was read, a step of the option parser, a mask.  The floating-point
    texts of [times] are part of the system. *)

From stdpp Require Import base list gmap strings.
From S2P Require Import Prelude Output Numbers Options Character State Descriptors Invocation Jobs Execution.

Definition UINTMAX : Z := 2 ^ 64 - 1.

(** [strtoumax(s, &end, 10)]: the value, the text at [end] and whether [errno]
    is ERANGE. *)
Definition strtoumax (s : str) : Z * str * bool :=
  let '(negative, body) := take_sign (skip_while isspace s) in
  let '(ds, rest) := span isdigit body in
  if bool_decide (ds = []) then (0, s, false) else
  let v := digits_number ds in
  if UINTMAX <? v then (UINTMAX, rest, true) else (if negative then (- v) mod 2 ^ 64 else v, rest, false).

(** The number of an operand that is nothing but a number. *)
Definition whole_number (s : str) : option Z :=
  let '(n, rest, range) := strtoumax s in
  if bool_decide (s = []) || negb (bool_decide (rest = [])) || bool_decide (List.hd_error s = Some (ch "-")) || range then None else Some n.

(** ** Fields of read *)

(** A byte of the line and whether a backslash was before it. *)
Abbreviation cell := (byte * bool)%type.

Section Read.
Context `{Locale}.

Definition white (c : byte) : bool := (c =? 32) || (c =? 9) || (c =? 10).

(** The bytes of the character of [ifs] that the line goes on with, 0 for none. *)
Fixpoint delimiter_at (fuel : nat) (ifs : str) (l : list cell) : nat :=
  match fuel with
  | O => 0%nat
  | S fuel =>
      match ifs with
      | [] => 0%nat
      | _ =>
          let n := character_bytes ifs in
          if starts_with (take n ifs) (fst <$> l) && forallb (fun c => negb (snd c)) (take n l) then n
          else delimiter_at fuel (drop n ifs) l
      end
  end.

Definition delimiter (ifs : str) (l : list cell) : nat :=
  match l with [] => 0%nat | _ => delimiter_at (length ifs) ifs l end.

(** White space of [ifs] first. *)
Definition leads (ifs : str) (l : list cell) : bool :=
  match l with [] => false | c :: _ => white (fst c) && negb (delimiter ifs l =? 0)%nat end.

Fixpoint skip_white_cells (ifs : str) (l : list cell) : list cell :=
  match l with
  | [] => []
  | c :: rest => if leads ifs l then skip_white_cells ifs rest else l
  end.

(** The bytes up to the next delimiter. *)
Fixpoint field_length (fuel : nat) (ifs : str) (l : list cell) : nat :=
  match fuel with
  | O => 0%nat
  | S fuel =>
      match l with
      | [] => 0%nat
      | _ =>
          if (delimiter ifs l =? 0)%nat
          then let n := character_bytes (fst <$> l) in (n + field_length fuel ifs (drop n l))%nat
          else 0%nat
      end
  end.

(** [while (finish > start && ...) --finish;] *)
Fixpoint trim_end (ifs : str) (l : list cell) (finish : nat) : nat :=
  match finish with
  | O => O
  | S n => if leads ifs (drop n l) then trim_end ifs l n else finish
  end.

Definition text_of (l : list cell) : str := fst <$> l.

(** The value of the next operand, and the rest of the line. *)
Definition next_field (ifs : str) (last : bool) (l : list cell) : str * list cell :=
  let l := skip_white_cells ifs l in
  let n := field_length (length l) ifs l in
  if last then (text_of (take (trim_end ifs l (length l)) l), drop n l)
  else
    let rest := skip_white_cells ifs (drop n l) in
    (text_of (take n l), drop (delimiter ifs rest) rest).
End Read.

(** ** Masks *)

Fixpoint octal_mask (p : str) (n : Z) : option (Z * str) :=
  match p with
  | c :: rest =>
      if between (ch "0") c (ch "7") then
        let n := n * 8 + (c - ch "0") in if n >? 511 then None else octal_mask rest n
      else Some (n, p)
  | [] => Some (n, p)
  end.

Fixpoint mask_who (p : str) (who : Z) : Z * str :=
  match p with
  | c :: rest =>
      if in_set c (bs "ugoa") then
        mask_who rest (Z.lor who (if c =? ch "u" then 448 else if c =? ch "g" then 56 else if c =? ch "o" then 7 else 511))
      else (who, p)
  | [] => (who, p)
  end.

Definition mask_bit (c : byte) (mode : Z) : Z :=
  if c =? ch "r" then 292
  else if c =? ch "w" then 146
  else if (c =? ch "x") || ((c =? ch "X") && negb (Z.land mode 73 =? 0)) then 73
  else if in_set c (bs "ugo") then
    let group := Z.land (Z.shiftr mode (if c =? ch "u" then 6 else if c =? ch "g" then 3 else 0)) 7 in
    Z.lor (Z.lor group (Z.shiftl group 3)) (Z.shiftl group 6)
  else 0.

Fixpoint mask_bits (p : str) (mode bits : Z) : Z * str :=
  match p with
  | c :: rest => if in_set c (bs "rwxXstugo") then mask_bits rest mode (Z.lor bits (mask_bit c mode)) else (bits, p)
  | [] => (bits, p)
  end.

(** One action after another; [mode] is what is allowed. *)
Fixpoint mask_actions (fuel : nat) (p : str) (who mode : Z) : Z * str :=
  match fuel, p with
  | S fuel, op :: rest =>
      let '(bits, p) := mask_bits rest mode 0 in
      let bits := Z.land bits who in
      let mode := if op =? ch "=" then Z.lor (Z.ldiff mode who) bits else if op =? ch "+" then Z.lor mode bits else Z.ldiff mode bits in
      match p with
      | c :: _ => if in_set c (bs "+-=") then mask_actions fuel p who mode else (mode, p)
      | [] => (mode, p)
      end
  | _, _ => (mode, p)
  end.

Fixpoint mask_clauses (fuel : nat) (p : str) (mode : Z) : option Z :=
  match fuel with
  | O => None
  | S fuel =>
      let '(who, p) := mask_who p 0 in
      let who := if who =? 0 then 511 else who in
      match p with
      | c :: _ =>
          if negb (in_set c (bs "+-=")) then None else
          let '(mode, p) := mask_actions (length p) p who mode in
          match p with
          | [] => Some mode
          | c :: rest => if negb (c =? ch ",") || bool_decide (rest = []) then None else mask_clauses fuel rest mode
          end
      | [] => None
      end
  end.

(** The mask that an operand asks for. *)
Definition mask_operand (p : str) (old : Z) : option Z :=
  if between (ch "0") (peek p) (ch "7") then
    match octal_mask p 0 with Some (n, []) => Some n | _ => None end
  else
    match mask_clauses (S (length p)) p (Z.land (Z.lnot old) 511) with
    | Some mode => Some (Z.land (Z.lnot mode) 511)
    | None => None
    end.

Fixpoint octal_digits (fuel : nat) (n : Z) (acc : str) : str :=
  match fuel with
  | O => acc
  | S fuel => let acc := (ch "0" + n mod 8) :: acc in if n / 8 =? 0 then acc else octal_digits fuel (n / 8) acc
  end.

(** [%04o] *)
Definition print_octal (n : Z) : str :=
  let ds := octal_digits 22 n [] in replicate (4 - length ds) (ch "0") ++ ds.

Definition print_who (name : byte) (mode shift : Z) : str :=
  let has bit (c : byte) := if Z.land mode (Z.shiftl bit shift) =? 0 then [] else [c] in
  [name; ch "="] ++ has 4 (ch "r") ++ has 2 (ch "w") ++ has 1 (ch "x").

Definition print_mask (symbolic : bool) (old : Z) : str :=
  let mode := Z.land (Z.lnot old) (2 ^ 32 - 1) in
  if symbolic then print_who (ch "u") mode 6 ++ [ch ","] ++ print_who (ch "g") mode 3 ++ [ch ","] ++ print_who (ch "o") mode 0 ++ [10]
  else print_octal old ++ [10].

(** ** The builtins *)

Section Builtins.
Context {loc : Locale} {system : System} {disk : Disk} {db : LocaleDb}.

Definition problem (name text : str) : E Z := ehost (
  let* _ := csh_write_text STDERR (bs "cshell: ") in
  let* _ := csh_write_text STDERR name in
  let* _ := csh_write_text STDERR (bs ": ") in
  let* _ := csh_write_text STDERR text in
  let* _ := csh_write_text STDERR [10] in
  ret 2).

(** [None] unsets the variable. *)
Definition assign (name : str) (value : option str) : E Z :=
  let$ r := on_state (fun s => match value with
    | Some v => csh_state_set_variable s (Some name) (Some v)
    | None => csh_state_unset_variable s (Some name)
    end) in
  match r with
  | CSH_STATE_OK => eret 0
  | CSH_STATE_READONLY => problem name (bs "readonly variable")
  | CSH_STATE_NOMEM => problem name (bs "out of memory")
  | _ => problem name (bs "invalid variable name")
  end.

(** *** read *)

(** One option argument: the arguments after it, or the problem. *)
Fixpoint read_letters (letters : str) (rest : list str) (raw : bool) (delim : byte) : str + (list str * bool * byte) :=
  match letters with
  | [] => inr (rest, raw, delim)
  | c :: letters =>
      if c =? ch "r" then read_letters letters rest true delim
      else if c =? ch "d" then
        match letters, rest with
        | d :: _, _ => inr (rest, raw, d)
        | [], a :: rest => inr (rest, raw, peek a)
        | [], [] => inl (bs "-d requires a delimiter")
        end
      else inl (bs "invalid option")
  end.

Fixpoint read_options (fuel : nat) (args : list str) (raw : bool) (delim : byte) : str + (list str * bool * byte) :=
  match fuel, args with
  | S fuel, (c :: ((_ :: _) as letters)) :: rest =>
      if negb (c =? ch "-") then inr (args, raw, delim)
      else if str_eqb letters (bs "-") then inr (rest, raw, delim)
      else
        match read_letters letters rest raw delim with
        | inl e => inl e
        | inr (rest, raw, delim) => read_options fuel rest raw delim
        end
  | _, _ => inr (args, raw, delim)
  end.

(** [mbrlen(&byte, 1, &decoding)]: what the bytes since the last character
    are together. *)
Definition decode_byte (decoding : str) (b : byte) : mbr_result := loc_mbrlen false (decoding ++ [b]).

(** The line that has been read so far, the last byte first; the status, which
    is 1 at the end of the input and 2 for a problem. *)
Fixpoint read_line (fuel : nat) (raw : bool) (delim : byte) (l : list cell) (capacity : Z) (decoding : str) (escaped : bool)
    : E (Z * list cell) :=
  match fuel with
  | O => espent
  | S fuel =>
      let refuse text := let$ n := problem (bs "read") text in eret (n, l) in
      let partial := negb (bool_decide (decoding = [])) in
      let$ r := efiles (Descriptors.retry (sys_read_byte 0)) in
      match r with
      | inl _ => refuse (bs "cannot read input")
      | inr None => eret (1, l)
      | inr (Some b) =>
          if negb partial && negb escaped && (b =? delim) then eret (0, l) else
          if negb partial && negb raw && negb escaped && (b =? 92) then read_line fuel raw delim l capacity decoding true else
          if negb partial && escaped && (b =? 10) then
            let$ s := state in
            let$ x := eget in
            let$ ok := (if opt_on (options (csh_state_get_info s)) CSH_OPT_INTERACTIVE && isatty (sx_kernel x) 0 then
              let prompt := default (bs "> ") (view_value (snd (csh_state_get_variable s (Some (bs "PS2"))))) in
              let$ n := ehost (csh_write_text STDERR prompt) in eret (0 <=? n)
              else eret true) in
            if ok then read_line fuel raw delim l capacity decoding false else refuse (bs "cannot write prompt")
          else if b =? 0 then read_line fuel raw delim l capacity decoding false
          else
            let full := Z.of_nat (length l) + 1 =? capacity in
            if full && (capacity >? SIZE_MAX / 2) then refuse (bs "input too large") else
            let$ ok := (if full then let$ a := ehost malloc in if a then ehost malloc else eret false else eret true) in
            if negb ok then refuse (bs "out of memory") else
            let l := (b, escaped) :: l in
            let capacity := if full then capacity * 2 else capacity in
            match decode_byte decoding b with
            | MbIncomplete => read_line fuel raw delim l capacity (decoding ++ [b]) escaped
            | _ => read_line fuel raw delim l capacity [] false
            end
      end
  end.

(** The values of the operands; the status is 2 after a problem. *)
Fixpoint read_operands (names : list str) (ifs : str) (l : list cell) (status : Z) : E Z :=
  match names with
  | [] => eret status
  | name :: rest =>
      let$ s := state in
      let '(r, view) := csh_state_get_variable s (Some name) in
      if negb (bool_decide (r = CSH_STATE_OK)) then problem (bs "read") (bs "invalid variable name")
      else if negb (Z.land (view_attributes view) CSH_VAR_READONLY =? 0) then problem (bs "read") (bs "readonly variable")
      else
        let '(value, l) := next_field ifs (bool_decide (rest = [])) l in
        let$ failed := assign name (Some value) in
        if negb (failed =? 0) then eret 2 else read_operands rest ifs l status
  end.

(** What is left to read on standard input, and one turn for its end. *)
Definition read_fuel (k : kernel) : nat :=
  match file_of k 0 with Some (_, f) => S (length (ds_content f)) | None => 1%nat end.

Definition read_builtin (args : list str) : E Z :=
  match read_options (length args) args false 10 with
  | inl text => problem (bs "read") text
  | inr ([], _, _) => problem (bs "read") (bs "variable required")
  | inr (names, raw, delim) =>
      let$ s := state in
      let ifs := default [32; 9; 10] (view_value (snd (csh_state_get_variable s (Some (bs "IFS"))))) in
      let$ a := ehost malloc in
      let$ b := ehost malloc in
      let$ c := ehost malloc in
      if negb (a && b && c) then problem (bs "read") (bs "out of memory") else
      let$ x := eget in
      let$ (n, l) := read_line (read_fuel (sx_kernel x)) raw delim [] 128 [] false in
      if n >? 1 then eret n else read_operands names ifs (rev l) n
  end.

(** *** getopts *)

(** Argument [index] of the operands, or of the positional parameters. *)
Definition option_argument (s : csh_state) (operands : list str) (index : Z) : option str :=
  match operands with
  | [] => csh_state_parameter s index
  | _ => if index <=? Z.of_nat (length operands) then operands !! Z.to_nat (index - 1) else None
  end.

(** What one step of the parser finds: the letter for the variable, OPTARG,
    OPTIND, the place in the argument, the status and the text of a report. *)
Record option_step : Type := mk_step {
  go_letter : byte; go_value : option str; go_index : Z; go_offset : Z; go_status : Z; go_report : option str }.

Definition getopts_step (argument : Z -> option str) (spec : str) (index offset : Z) : option_step :=
  let silent := bool_decide (List.hd_error spec = Some (ch ":")) in
  let options := if silent then tail spec else spec in
  match argument index with
  | None => mk_step (ch "?") None index 0 1 None
  | Some arg =>
      if negb (bool_decide (List.hd_error arg = Some (ch "-"))) || bool_decide (tail arg = []) || str_eqb arg (bs "--")
      then mk_step (ch "?") None (if str_eqb arg (bs "--") then index + 1 else index) 0 1 None
      else
        let offset := if (offset =? 0) || (slen arg <=? offset) then 1 else offset in
        let bad := List.nth (Z.to_nat offset) arg 0 in
        let rest := drop (Z.to_nat offset + 1) arg in
        let '(index, offset) := if bool_decide (rest = []) then (index + 1, 0) else (index, offset + 1) in
        match (if (bad =? ch ":") || (bad =? ch "?") then None else strchr options bad) with
        | None =>
            mk_step (ch "?") (if silent then Some [bad] else None) index offset 0
              (if silent then None else Some (bs "cshell: getopts: illegal option -- "))
        | Some found =>
            if negb (peek (tail found) =? ch ":") then mk_step bad None index offset 0 None
            else if negb (offset =? 0) then mk_step bad (Some rest) (index + 1) 0 0 None
            else
              match argument index with
              | Some value => mk_step bad (Some value) (index + 1) 0 0 None
              | None =>
                  mk_step (if silent then ch ":" else ch "?") (if silent then Some [bad] else None) index 0 0
                    (if silent then None else Some (bs "cshell: getopts: option requires an argument -- "))
              end
        end
  end.

(** The letter that a report names. *)
Definition reported_letter (argument : Z -> option str) (index offset : Z) : str :=
  match argument index with
  | Some arg => [List.nth (Z.to_nat (if (offset =? 0) || (slen arg <=? offset) then 1 else offset)) arg 0]
  | None => []
  end.

Definition getopts_builtin (args : list str) : E Z :=
  let args := match args with a :: rest => if str_eqb a (bs "--") then rest else args | [] => [] end in
  match args with
  | spec :: name :: operands =>
      let$ s := state in
      let offset := getopts_offset s in
      let index := match view_value (snd (csh_state_get_variable s (Some (bs "OPTIND")))) with
        | None => Some 1
        | Some text => match whole_number text with Some n => if n =? 0 then None else Some n | None => None end
        end in
      match index with
      | None => problem (bs "getopts") (bs "invalid OPTIND")
      | Some index =>
          let argument := option_argument s operands in
          let step := getopts_step argument spec index offset in
          let$ _ := match go_report step with
            | None => eret 0
            | Some text => ehost (
                let* _ := csh_write_text STDERR text in
                let* _ := csh_write_text STDERR (reported_letter argument index offset) in
                csh_write_text STDERR [10])
            end in
          let$ a := assign name (Some [go_letter step]) in
          if negb (a =? 0) then eret 2 else
          let$ b := assign (bs "OPTARG") (go_value step) in
          if negb (b =? 0) then eret 2 else
          let$ c := assign (bs "OPTIND") (Some (print_long (go_index step))) in
          if negb (c =? 0) then eret 2 else
          let$ _ := change_state (fun s => csh_state_set_getopts_offset s (go_offset step)) in
          eret (go_status step)
      end
  | _ => problem (bs "getopts") (bs "optstring and variable required")
  end.

(** *** umask *)

Definition write_output (utility text : str) : E Z :=
  let$ n := ehost (csh_write_text STDOUT text) in
  if n <? 0 then problem utility (bs "cannot write output") else eret 0.

Definition umask_builtin (args : list str) : E Z :=
  let symbolic := match args with a :: _ => str_eqb a (bs "-S") | [] => false end in
  let args := if symbolic then tail args else args in
  let args := match args with a :: rest => if str_eqb a (bs "--") then rest else args | [] => [] end in
  let$ x := eget in
  match args with
  | _ :: _ :: _ => problem (bs "umask") (bs "too many operands")
  | [] => write_output (bs "umask") (print_mask symbolic (sx_umask x))
  | [p] =>
      match mask_operand p (sx_umask x) with
      | None => problem (bs "umask") (bs "invalid mask")
      | Some n => let$ _ := eput (with_umask x n) in eret 0
      end
  end.

(** *** times *)

Fixpoint write_times (l : list str) (odd : bool) : E Z :=
  match l with
  | [] => eret 0
  | t :: rest =>
      let text := t ++ (if odd then [10] else [32]) in
      if slen text >=? 128 then problem (bs "times") (bs "cannot write output") else
      let$ n := ehost (csh_write_text STDOUT text) in
      if n <? 0 then problem (bs "times") (bs "cannot write output") else write_times rest (negb odd)
  end.

Definition times_builtin (args : list str) : E Z :=
  let operands := match args with [] => true | [a] => str_eqb a (bs "--") | _ => false end in
  if negb operands then problem (bs "times") (bs "unexpected operand") else
  let$ t := ask sys_times in
  match t with
  | None => problem (bs "times") (bs "cannot obtain process times")
  | Some l => write_times l false
  end.

(** *** ulimit *)

Definition RLIM_INFINITY : Z := 2 ^ 64 - 1.

Definition resources : list (byte * Z * str) := [
  (ch "c", 512, bs "core size (512-byte blocks)"); (ch "d", 1024, bs "data size (1024-byte blocks)");
  (ch "f", 512, bs "file size (512-byte blocks)"); (ch "n", 1, bs "open descriptors (count)");
  (ch "s", 1024, bs "stack size (1024-byte blocks)"); (ch "v", 1024, bs "address space (1024-byte blocks)");
  (ch "t", 1, bs "CPU time (seconds)")].

Fixpoint resource_index (l : list (byte * Z * str)) (c : byte) (i : nat) : option nat :=
  match l with
  | [] => None
  | (letter, _, _) :: rest => if letter =? c then Some i else resource_index rest c (S i)
  end.

Record limit_options : Type := mk_limits { lo_hard : bool; lo_soft : bool; lo_all : bool; lo_selected : nat }.

Fixpoint limit_letters (letters : str) (o : limit_options) : option limit_options :=
  match letters with
  | [] => Some o
  | c :: rest =>
      if c =? ch "H" then limit_letters rest (mk_limits true (lo_soft o) (lo_all o) (lo_selected o))
      else if c =? ch "S" then limit_letters rest (mk_limits (lo_hard o) true (lo_all o) (lo_selected o))
      else if c =? ch "a" then limit_letters rest (mk_limits (lo_hard o) (lo_soft o) true (lo_selected o))
      else match resource_index resources c 0 with
        | None => None
        | Some i => limit_letters rest (mk_limits (lo_hard o) (lo_soft o) (lo_all o) i)
        end
  end.

Fixpoint limit_arguments (args : list str) (o : limit_options) : option (list str * limit_options) :=
  match args with
  | (c :: ((_ :: _) as letters)) :: rest =>
      if negb (c =? ch "-") then Some (args, o)
      else if str_eqb letters (bs "-") then Some (rest, o)
      else match limit_letters letters o with None => None | Some o => limit_arguments rest o end
  | _ => Some (args, o)
  end.

(** The limit that an operand asks for, in the units of the system. *)
Definition limit_value (s : str) (unit_ : Z) : option Z :=
  if str_eqb s (bs "unlimited") then Some RLIM_INFINITY else
  match whole_number s with
  | Some n => if n >? RLIM_INFINITY / unit_ then None else Some (n * unit_)
  | None => None
  end.

Definition limit_text (letter : byte) (description : str) (unit_ : Z) (all : bool) (value : Z) : str :=
  let number := if value =? RLIM_INFINITY then bs "unlimited" else print_long (value / unit_) in
  (if all then [ch "-"; letter; 32] ++ description ++ bs ": " else []) ++ number ++ [10].

Definition one_limit (i : nat) (letter : byte) (unit_ : Z) (description : str) (operand : option str) (o : limit_options) : E Z :=
  let$ got := ask (fun p n => sys_getrlimit p n) in
  if negb got then problem (bs "ulimit") (bs "cannot get resource limit") else
  let$ x := eget in
  let$ (soft, hard) := eopt (sx_limits x !! i) in
  match operand with
  | Some s =>
      match limit_value s unit_ with
      | None => problem (bs "ulimit") (bs "invalid limit")
      | Some value =>
          let limit := (if lo_soft o || negb (lo_hard o) then value else soft, if lo_hard o || negb (lo_soft o) then value else hard) in
          let$ set := ask (fun p n => sys_setrlimit p n i limit) in
          if negb set then problem (bs "ulimit") (bs "cannot set resource limit") else
          let$ x := eget in
          let$ _ := eput (with_limits x (<[i := limit]> (sx_limits x))) in eret 0
      end
  | None => write_output (bs "ulimit") (limit_text letter description unit_ (lo_all o) (if lo_hard o then hard else soft))
  end.

Fixpoint limit_loop (l : list (byte * Z * str)) (i : nat) (operand : option str) (o : limit_options) : E Z :=
  match l with
  | [] => eret 0
  | (letter, unit_, description) :: rest =>
      if negb (lo_all o) && negb (i =? lo_selected o)%nat then limit_loop rest (S i) operand o else
      let$ failed := one_limit i letter unit_ description operand o in
      if negb (failed =? 0) then eret failed else limit_loop rest (S i) operand o
  end.

Definition ulimit_builtin (args : list str) : E Z :=
  match limit_arguments args (mk_limits false false false 2) with
  | None => problem (bs "ulimit") (bs "invalid option")
  | Some (operands, o) =>
      match operands with
      | _ :: _ :: _ => problem (bs "ulimit") (bs "invalid operands")
      | [a] => if lo_all o then problem (bs "ulimit") (bs "invalid operands") else limit_loop resources 0 (Some a) o
      | [] => limit_loop resources 0 None o
      end
  end.

Definition csh_utility_run (argv : list str) : E Z :=
  let args := tail argv in
  match argv with
  | [] => efault
  | name :: _ =>
      if str_eqb name (bs "read") then read_builtin args
      else if str_eqb name (bs "getopts") then getopts_builtin args
      else if str_eqb name (bs "umask") then umask_builtin args
      else if str_eqb name (bs "ulimit") then ulimit_builtin args
      else times_builtin args
  end.
End Builtins.
