(* ===== verification/UtilityTheorems.v ===== *)
(** * Properties of the utilities

    Masks that [umask -S] and [umask] print are masks that [umask] reads; the
    steps of [getopts] are a parse of the arguments; [read] takes apart what its
    delimiter joined, and always comes to an end. *)

From stdpp Require Import base list gmap strings.
From S2P Require Import Prelude Output Numbers Options Character State Descriptors Jobs Execution ExecutionTheorems Utility.

(** ** Masks *)

(** The letters of permissions 0 to 7. *)
Definition letters_of (p : Z) : str :=
  (if Z.land p 4 =? 0 then [] else [ch "r"]) ++ (if Z.land p 2 =? 0 then [] else [ch "w"]) ++ (if Z.land p 1 =? 0 then [] else [ch "x"]).

Definition permission (p : Z) : Prop := p ∈ seqZ 0 8.

(** The bits of permissions [p] for everyone. *)
Definition everyone (p : Z) : Z := Z.lor (Z.lor p (Z.shiftl p 3)) (Z.shiftl p 6).

Lemma mask_bits_letters p rest mode :
  permission p -> match rest with [] => True | c :: _ => c = ch "," end ->
  mask_bits (letters_of p ++ rest) mode 0 = (everyone p, rest).
Proof.
  intros Hp Hr.
  assert (forall b, mask_bits rest mode b = (b, rest)) as Hend.
  { intros b. destruct rest as [|c rest]; [done|]. by subst c. }
  apply elem_of_seqZ in Hp.
  assert (p = 0 \/ p = 1 \/ p = 2 \/ p = 3 \/ p = 4 \/ p = 5 \/ p = 6 \/ p = 7) as Hc by lia.
  destruct Hc as [->|[->|[->|[->|[->|[->|[->| ->]]]]]]]; simpl; rewrite Hend; reflexivity.
Qed.

(** One clause [u=rwx], with the letter of one class and its bits. *)
Definition class_clause (letter : byte) (p : Z) : str := [letter; ch "="] ++ letters_of p.
Definition class_bits (letter : byte) : Z := if letter =? ch "u" then 448 else if letter =? ch "g" then 56 else 7.

(** The mode in which the class has exactly these permissions. *)
Definition with_class (letter : byte) (p mode : Z) : Z :=
  Z.lor (Z.ldiff mode (class_bits letter)) (Z.land (everyone p) (class_bits letter)).

Lemma mask_clause_equals letter p rest mode f :
  letter = ch "u" \/ letter = ch "g" \/ letter = ch "o" -> permission p ->
  match rest with [] => True | c :: more => c = ch "," /\ more <> [] end ->
  mask_clauses (S f) (class_clause letter p ++ rest) mode =
    match rest with [] => Some (with_class letter p mode) | _ :: more => mask_clauses f more (with_class letter p mode) end.
Proof.
  intros Hl Hp Hr.
  assert (mask_bits (letters_of p ++ rest) mode 0 = (everyone p, rest)) as Hb.
  { apply mask_bits_letters; [done|]. by destruct rest as [|c more]; [|destruct Hr as [-> _]]. }
  assert (mask_who (class_clause letter p ++ rest) 0 = (class_bits letter, ch "=" :: letters_of p ++ rest)) as Hw
    by (destruct Hl as [->|[->| ->]]; reflexivity).
  cbn [mask_clauses]. rewrite Hw.
  replace (class_bits letter =? 0) with false by (destruct Hl as [->|[->| ->]]; reflexivity).
  cbn [mask_actions length]. change (negb (in_set (ch "=") (bs "+-="))) with false. cbv iota. rewrite Hb.
  change (ch "=" =? ch "=") with true. cbv iota zeta.
  fold (with_class letter p mode). destruct rest as [|c more]; [reflexivity|]. destruct Hr as [-> Hm].
  change (in_set (ch ",") (bs "+-=")) with false. cbv iota.
  rewrite bool_decide_eq_false_2 by done. reflexivity.
Qed.

(** The mode with permissions [a], [b] and [c]. *)
Lemma with_classes_bits a b c m :
  0 <= m <= 511 ->
  with_class (ch "o") c (with_class (ch "g") b (with_class (ch "u") a m)) =
    Z.lor (Z.lor (Z.land (everyone a) 448) (Z.land (everyone b) 56)) (Z.land (everyone c) 7).
Proof.
  intros Hm. assert (Z.ldiff m 511 = 0) as Hd.
  { change 511 with (Z.ones 9). rewrite Z.ldiff_ones_r by lia. rewrite Z.shiftr_div_pow2 by lia.
    rewrite Z.div_small by lia. apply Z.shiftl_0_l. }
  change 511 with (Z.lor (Z.lor 448 56) 7) in Hd.
  unfold with_class. change (class_bits (ch "u")) with 448. change (class_bits (ch "g")) with 56. change (class_bits (ch "o")) with 7.
  assert (Z.land 448 56 = 0 /\ Z.land 448 7 = 0 /\ Z.land 56 7 = 0) as (H1 & H2 & H3) by done.
  apply Z.bits_inj. intros n.
  apply (f_equal (fun z => Z.testbit z n)) in Hd, H1, H2, H3.
  repeat rewrite ?Z.lor_spec, ?Z.ldiff_spec, ?Z.land_spec, ?Z.bits_0 in *.
  destruct (Z.testbit 448 n), (Z.testbit 56 n), (Z.testbit 7 n), (Z.testbit m n), (Z.testbit (everyone a) n), (Z.testbit (everyone b) n),
    (Z.testbit (everyone c) n); simpl in *; done.
Qed.

(** What [umask -S] prints, by classes. *)
Definition user_permission (old : Z) : Z := 7 - old / 64.
Definition group_permission (old : Z) : Z := 7 - (old / 8) mod 8.
Definition other_permission (old : Z) : Z := 7 - old mod 8.

Definition symbolic_text (old : Z) : str :=
  class_clause (ch "u") (user_permission old) ++ ch "," ::
  class_clause (ch "g") (group_permission old) ++ ch "," :: class_clause (ch "o") (other_permission old).

Definition is_mask (n : Z) : Prop := 0 <= n <= 511.

Lemma masks_decided (P : Z -> Prop) `{forall n, Decision (P n)} : forallb (fun n => bool_decide (P n)) (seqZ 0 512) = true -> forall n, is_mask n -> P n.
Proof.
  intros H' n Hn. rewrite forallb_forall in H'. eapply bool_decide_eq_true_1, H', list_elem_of_In, elem_of_seqZ. unfold is_mask in Hn. lia.
Qed.

Lemma print_mask_symbolic old : is_mask old -> print_mask true old = symbolic_text old ++ [10].
Proof.
  intros H. by apply (masks_decided (fun old => print_mask true old = symbolic_text old ++ [10])); [vm_compute|].
Qed.

Lemma print_mask_octal old current : is_mask old -> print_mask false old = print_octal old ++ [10] /\ mask_operand (print_octal old) current = Some old.
Proof.
  intros H. split; [done|]. unfold mask_operand.
  assert (between (ch "0") (peek (print_octal old)) (ch "7") = true) as ->.
  { by apply (masks_decided (fun old => between (ch "0") (peek (print_octal old)) (ch "7") = true)); [vm_compute|]. }
  assert (octal_mask (print_octal old) 0 = Some (old, [])) as ->; [|done].
  by apply (masks_decided (fun old => octal_mask (print_octal old) 0 = Some (old, []))); [vm_compute|].
Qed.

Lemma permissions_of old : is_mask old ->
  permission (user_permission old) /\ permission (group_permission old) /\ permission (other_permission old).
Proof.
  unfold is_mask, permission, user_permission, group_permission, other_permission. intros H. rewrite !elem_of_seqZ.
  pose proof (Z.mod_pos_bound old 8). pose proof (Z.mod_pos_bound (old / 8) 8).
  assert (0 <= old / 64 < 8) by (split; [apply Z.div_pos|apply Z.div_lt_upper_bound]; lia). lia.
Qed.

Lemma symbolic_operand old current : is_mask old -> is_mask current -> mask_operand (symbolic_text old) current = Some old.
Proof.
  intros Ho Hc. destruct (permissions_of old Ho) as (Hu & Hg & Hw).
  unfold mask_operand. change (between (ch "0") (peek (symbolic_text old)) (ch "7")) with false. cbv iota.
  assert (is_mask (Z.land (Z.lnot current) 511)) as Hm.
  { change 511 with (Z.ones 9). rewrite Z.land_ones by lia. pose proof (Z.mod_pos_bound (Z.lnot current) (2 ^ 9)). unfold is_mask. lia. }
  set (m := Z.land (Z.lnot current) 511) in *. unfold symbolic_text.
  assert (exists f, S (length (class_clause (ch "u") (user_permission old) ++ ch "," :: class_clause (ch "g") (group_permission old) ++
    ch "," :: class_clause (ch "o") (other_permission old))) = S (S (S f))) as [f ->]
    by (eexists; cbn [class_clause length app]; reflexivity).
  rewrite mask_clause_equals; [|auto|done|done]. rewrite mask_clause_equals; [|auto|done|done].
  rewrite <- (app_nil_r (class_clause (ch "o") _)). rewrite mask_clause_equals; [|auto|done|done].
  rewrite with_classes_bits by done. f_equal.
  by apply (masks_decided (fun old => Z.land (Z.lnot (Z.lor (Z.lor (Z.land (everyone (user_permission old)) 448)
    (Z.land (everyone (group_permission old)) 56)) (Z.land (everyone (other_permission old)) 7))) 511 = old)); [vm_compute|].
Qed.

Lemma octal_mask_bound p n m rest : is_mask n -> octal_mask p n = Some (m, rest) -> is_mask m.
Proof.
  revert n. induction p as [|c p IH]; intros n Hn; cbn [octal_mask]; [by intros [= <- <-]|].
  destruct (between _ c _) eqn:Eb; [|by intros [= <- <-]].
  destruct (n * 8 + (c - ch "0") >? 511) eqn:E; [done|]. apply IH. unfold is_mask in *.
  unfold between in Eb. apply andb_prop in Eb as [Eb _]. rewrite Z.leb_le in Eb. lia.
Qed.

(** C26: what [umask] or [umask -S] prints can be given to [umask] in any
    process: it sets exactly the mask that was printed.  No operand leads to
    more than the nine permission bits. *)
Theorem umask_roundtrip symbolic old (x : shell) :
  is_mask old -> is_mask (sx_umask x) ->
  (exists p, print_mask symbolic old = p ++ [10] /\ umask_builtin [p] x = (EDone 0, with_umask x old)) /\
  forall p n, mask_operand p (sx_umask x) = Some n -> is_mask n.
Proof.
  intros Ho Hx. split.
  - assert (exists p, print_mask symbolic old = p ++ [10] /\ mask_operand p (sx_umask x) = Some old /\ peek p <> ch "-") as (p & Hp & Hm & Hn).
    { destruct symbolic.
      - exists (symbolic_text old). by rewrite symbolic_operand, print_mask_symbolic by done.
      - exists (print_octal old). destruct (print_mask_octal old (sx_umask x) Ho) as [-> Hm]. split_and!; [done|done|].
        by apply (masks_decided (fun old => peek (print_octal old) <> ch "-")); [vm_compute|]. }
    exists p. split; [done|]. unfold umask_builtin.
    assert (forall o, peek o = ch "-" -> str_eqb p o = false) as Hne by (intros o Eo; apply bool_decide_eq_false; congruence).
    rewrite (Hne (bs "-S")) by done. cbv iota. rewrite (Hne (bs "--")) by done.
    cbv [ebind eget eput]. cbv iota beta. by rewrite Hm.
  - intros p n. unfold mask_operand. destruct (between _ _ _).
    + destruct (octal_mask p 0) as [[m [|]]|] eqn:E; intros [= <-]. eapply octal_mask_bound, E. unfold is_mask; lia.
    + destruct (mask_clauses _ _ _); intros [= <-]. change 511 with (Z.ones 9). rewrite Z.land_ones by lia.
      pose proof (Z.mod_pos_bound (Z.lnot z) (2 ^ 9)). unfold is_mask. lia.
Qed.

(** 0027 under the mask 0022 *)
Lemma umask_roundtrip_witness :
  print_mask true 23 = bs "u=rwx,g=rx,o=" ++ [10] /\
  (exists p, print_mask true 23 = p ++ [10] /\ umask_builtin [p] quiet_shell = (EDone 0, with_umask quiet_shell 23)).
Proof.
  split; [vm_compute; reflexivity|].
  refine (proj1 (umask_roundtrip true 23 quiet_shell _ _)); unfold is_mask; cbn; lia.
Defined.

(** ** Options *)

(** What the arguments mean: each option with its letter and argument, and the
    number of arguments that they take.  [letters] is the rest of the argument
    that is being read. *)
Definition takes_argument (spec : str) (c : byte) : option bool :=
  let options := if bool_decide (List.hd_error spec = Some (ch ":")) then tail spec else spec in
  if (c =? ch ":") || (c =? ch "?") then None else (fun found => peek (tail found) =? ch ":") <$> strchr options c.

Definition event : Type := byte * option str.

(** An unknown option, and one whose argument is missing. *)
Definition unknown_option (spec : str) (c : byte) : event :=
  if bool_decide (List.hd_error spec = Some (ch ":")) then (ch "?", Some [c]) else (ch "?", None).
Definition missing_argument (spec : str) (c : byte) : event :=
  if bool_decide (List.hd_error spec = Some (ch ":")) then (ch ":", Some [c]) else (ch "?", None).

Definition option_letters (a : str) : option str :=
  match a with
  | c :: ((_ :: _) as letters) => if (c =? ch "-") && negb (str_eqb letters (bs "-")) then Some letters else None
  | _ => None
  end.

(** [consumed] arguments come before [letters] and [args]. *)
Fixpoint parse_letters (spec letters : str) (parse : list event * Z) (args : list str) (parse_next_args : list event * Z) (consumed : Z) : list event * Z :=
  match letters with
  | [] => parse
  | c :: rest =>
      match takes_argument spec c with
      | None => let '(l, n) := parse_letters spec rest parse args parse_next_args consumed in (unknown_option spec c :: l, n)
      | Some false => let '(l, n) := parse_letters spec rest parse args parse_next_args consumed in ((c, None) :: l, n)
      | Some true =>
          match rest, args with
          | _ :: _, _ => let '(l, n) := parse in ((c, Some rest) :: l, n)
          | [], value :: _ => let '(l, n) := parse_next_args in ((c, Some value) :: l, n)
          | [], [] => ([missing_argument spec c], consumed)
          end
      end
  end.

Fixpoint parse_arguments (spec : str) (args : list str) (consumed : Z) : list event * Z :=
  match args with
  | [] => ([], consumed)
  | a :: rest =>
      match option_letters a with
      | None => ([], if str_eqb a (bs "--") then consumed + 1 else consumed)
      | Some letters =>
          parse_letters spec letters (parse_arguments spec rest (consumed + 1)) rest
            (match rest with _ :: others => parse_arguments spec others (consumed + 2) | [] => ([], consumed + 1) end) (consumed + 1)
      end
  end.

(** The calls of [getopts] until one fails: what each found, and OPTIND. *)
Fixpoint getopts_run (fuel : nat) (argument : Z -> option str) (spec : str) (index offset : Z) : option (list event * Z) :=
  match fuel with
  | O => None
  | S fuel =>
      let s := getopts_step argument spec index offset in
      if go_status s =? 1 then Some ([], go_index s)
      else '(l, n) ← getopts_run fuel argument spec (go_index s) (go_offset s); Some ((go_letter s, go_value s) :: l, n)
  end.

Section Getopts.
Context (s : csh_state) (spec : str).

(** Argument [i] of explicit operands. *)
Lemma argument_at pre a args : option_argument s (pre ++ a :: args) (Z.of_nat (length pre) + 1) = Some a.
Proof.
  unfold option_argument. destruct (pre ++ a :: args) as [|y l] eqn:E; [by destruct pre|]. rewrite <- E.
  rewrite length_app. cbn [length]. rewrite (proj2 (Z.leb_le _ _)) by lia.
  replace (Z.to_nat (Z.of_nat (length pre) + 1 - 1)) with (length pre) by lia. by apply list_lookup_middle.
Qed.

Lemma argument_past l : l <> [] -> option_argument s l (Z.of_nat (length l) + 1) = None.
Proof.
  intros Hl. unfold option_argument. destruct l as [|y l]; [done|]. by rewrite (proj2 (Z.leb_gt _ _)) by lia.
Qed.

Lemma option_letters_shape a letters : option_letters a = Some letters -> a = ch "-" :: letters /\ letters <> [] /\ str_eqb a (bs "--") = false.
Proof.
  unfold option_letters. destruct a as [|c [|d l]]; try done. destruct (c =? ch "-") eqn:E; [|done].
  rewrite Z.eqb_eq in E. subst c. destruct (str_eqb (d :: l) (bs "-")) eqn:Ed; [done|]. intros [= <-]. split_and!; [done|done|].
  apply bool_decide_eq_false. apply bool_decide_eq_false in Ed. intros Ee. apply Ed. by injection Ee as -> ->.
Qed.

(** The offset of the letters after [before]. *)
Definition letters_offset (before : str) (offset : Z) : Prop := offset = 1 + slen before \/ (before = [] /\ offset = 0).

(** One step on the letter [c] with [rest] after it. *)
Lemma step_letter argument index before c rest offset :
  argument index = Some (ch "-" :: before ++ c :: rest) -> str_eqb (ch "-" :: before ++ c :: rest) (bs "--") = false -> letters_offset before offset ->
  let next := if bool_decide (rest = []) then (index + 1, 0) else (index, 2 + slen before) in
  let step := getopts_step argument spec index offset in
  match takes_argument spec c with
  | None => (go_letter step, go_value step) = unknown_option spec c /\ (go_index step, go_offset step) = next
  | Some false => (go_letter step, go_value step) = (c, None) /\ (go_index step, go_offset step) = next
  | Some true =>
      if bool_decide (rest = []) then
        match argument (index + 1) with
        | Some v => (go_letter step, go_value step) = (c, Some v) /\ (go_index step, go_offset step) = (index + 2, 0)
        | None => (go_letter step, go_value step) = missing_argument spec c /\ (go_index step, go_offset step) = (index + 1, 0)
        end
      else (go_letter step, go_value step) = (c, Some rest) /\ (go_index step, go_offset step) = (index + 1, 0)
  end /\ go_status step = 0.
Proof.
  intros Ha Hn Ho. cbv zeta. unfold getopts_step. rewrite Ha, Hn.
  rewrite (bool_decide_eq_true_2 (List.hd_error (ch "-" :: before ++ c :: rest) = Some (ch "-"))) by done.
  rewrite (bool_decide_eq_false_2 (tail (ch "-" :: before ++ c :: rest) = [])) by (cbn [tail]; by destruct before).
  cbn [negb orb]. set (a := ch "-" :: before ++ c :: rest).
  assert ((if (offset =? 0) || (slen a <=? offset) then 1 else offset) = 1 + slen before) as ->.
  { assert (slen a = slen before + slen rest + 2) as Hl by (unfold a, slen; cbn [length]; rewrite length_app; cbn [length]; lia).
    assert (0 <= slen rest /\ 0 <= slen before) as [? ?] by (unfold slen; lia).
    destruct Ho as [-> | [-> ->]]; [|done]. rewrite (proj2 (Z.eqb_neq _ _)), (proj2 (Z.leb_gt _ _)) by lia. done. }
  replace (Z.to_nat (1 + slen before)) with (S (length before)) by (unfold slen; lia).
  replace (Z.to_nat (1 + slen before) + 1)%nat with (S (S (length before))) by (unfold slen; lia).
  assert (List.nth (S (length before)) a 0 = c) as -> by (unfold a; cbn [List.nth]; rewrite List.app_nth2 by lia; by rewrite Nat.sub_diag).
  assert (drop (S (length before) + 1) a = rest) as ->
    by (replace (S (length before) + 1)%nat with (S (S (length before))) by lia; unfold a; cbn [drop]; rewrite drop_app_ge by lia;
        by replace (S (length before) - length before)%nat with 1%nat by lia).
  unfold takes_argument, unknown_option, missing_argument. set (silent := bool_decide (List.hd_error spec = Some (ch ":"))).
  set (found := strchr (if silent then tail spec else spec) c).
  replace (1 + slen before + 1) with (2 + slen before) by lia.
  replace (index + 2) with (index + 1 + 1) by lia.
  destruct ((c =? ch ":") || (c =? ch "?")) eqn:Ec.
  - case_bool_decide; destruct silent; by split_and!.
  - destruct found as [f|]; cbn [fmap option_fmap option_map]; [|case_bool_decide; destruct silent; by split_and!].
    destruct (peek (tail f) =? ch ":"); cbn [negb]; [|case_bool_decide; by split_and!].
    case_bool_decide as Hr.
    + change (0 =? 0) with true. cbn [negb]. destruct (argument (index + 1)); [by split_and!|]. destruct silent; by split_and!.
    + rewrite (proj2 (Z.eqb_neq _ _)) by (unfold slen; lia). by split_and!.
Qed.
(** The end of the options at [index]. *)
Lemma step_end argument index offset :
  match argument index with
  | Some a => option_letters a = None
  | None => True
  end ->
  let step := getopts_step argument spec index offset in
  go_status step = 1 /\ go_index step = match argument index with Some a => if str_eqb a (bs "--") then index + 1 else index | None => index end.
Proof.
  intros Ha. cbv zeta. unfold getopts_step. destruct (argument index) as [a|]; [|done].
  assert (negb (bool_decide (List.hd_error a = Some (ch "-"))) || bool_decide (tail a = []) || str_eqb a (bs "--") = true) as ->; [|done].
  destruct a as [|c [|d l]]; try by cbn; rewrite ?orb_true_r.
  unfold option_letters in Ha. cbn [List.hd_error]. destruct (c =? ch "-") eqn:Ec.
  - rewrite Z.eqb_eq in Ec. subst c. destruct (str_eqb (d :: l) (bs "-")) eqn:Ed; [|done].
    apply bool_decide_eq_true in Ed. injection Ed as -> ->. reflexivity.
  - rewrite bool_decide_eq_false_2; [done|]. intros [= ->]. done.
Qed.

Definition shifted (r : list event * Z) : list event * Z := (fst r, snd r + 1).

(** The letters of one argument, given the runs from the arguments after it. *)
Lemma letters_run all pre a args F parse others before letters offset :
  let index := Z.of_nat (length pre) + 1 in
  all = pre ++ a :: args -> a = ch "-" :: before ++ letters -> letters <> [] -> str_eqb a (bs "--") = false -> letters_offset before offset ->
  (forall f, (F <= f)%nat -> getopts_run f (option_argument s all) spec (index + 1) 0 = Some (shifted parse)) ->
  (args <> [] -> forall f, (F <= f)%nat -> getopts_run f (option_argument s all) spec (index + 2) 0 = Some (shifted others)) ->
  forall f, (S (length letters) + F <= f)%nat ->
  getopts_run f (option_argument s all) spec index offset = Some (shifted (parse_letters spec letters parse args others index)).
Proof.
  intros index Hall Ha Hne Hdash. revert before offset Ha.
  induction letters as [|c rest IH]; [done|]. intros before offset Ha Ho Hparse Hothers f Hf.
  destruct f as [|f]; [lia|]. cbn [getopts_run length] in *.
  assert (option_argument s all index = Some (ch "-" :: before ++ c :: rest)) as Hat by (rewrite Hall, <- Ha; apply argument_at).
  rewrite Ha in Hdash. destruct (step_letter _ index before c rest offset Hat Hdash Ho) as [Hs Hst]. rewrite Hst. change (0 =? 1) with false. cbv iota.
  set (step := getopts_step (option_argument s all) spec index offset) in *.
  assert (forall e, (go_letter step, go_value step) = e -> (go_index step, go_offset step) = (if bool_decide (rest = []) then (index + 1, 0) else (index, 2 + slen before)) ->
    ('(l, n) ← getopts_run f (option_argument s all) spec (go_index step) (go_offset step); Some ((go_letter step, go_value step) :: l, n)) =
    Some (shifted (let '(l, n) := parse_letters spec rest parse args others index in (e :: l, n)))) as Hnext.
  { intros e <- Hn. case_bool_decide as Hr; injection Hn as -> ->.
    - subst rest. cbn [parse_letters]. rewrite Hparse by lia. destruct parse as [l n]. reflexivity.
    - rewrite (IH Hr (before ++ [c]) (2 + slen before)); [|by rewrite <- app_assoc|left; unfold slen; rewrite length_app; cbn [length]; lia|done|done|lia].
      destruct (parse_letters spec rest parse args others index). reflexivity. }
  cbn [parse_letters]. destruct (takes_argument spec c) as [[]|] eqn:Et; [|destruct Hs as [He Hi]; by apply Hnext..].
  case_bool_decide as Hr.
  - subst rest. destruct args as [|v args'].
    + assert (option_argument s all (index + 1) = None) as Hnone.
      { rewrite Hall. replace (index + 1) with (Z.of_nat (length (pre ++ [a])) + 1) by (rewrite length_app; cbn [length]; unfold index; lia).
        apply argument_past. by destruct pre. }
      rewrite Hnone in Hs. destruct Hs as [He [= -> ->]]. destruct f as [|f]; [lia|]. cbn [getopts_run].
      destruct (step_end (option_argument s all) (index + 1) 0) as [-> ->]; [by rewrite Hnone|]. rewrite Hnone.
      change (1 =? 1) with true. cbn. by rewrite He.
    + assert (option_argument s all (index + 1) = Some v) as Hv.
      { rewrite Hall. replace (index + 1) with (Z.of_nat (length (pre ++ [a])) + 1) by (rewrite length_app; cbn [length]; unfold index; lia).
        replace (pre ++ a :: v :: args') with ((pre ++ [a]) ++ v :: args') by by rewrite <- app_assoc. apply argument_at. }
      rewrite Hv in Hs. destruct Hs as [He [= -> ->]]. rewrite Hothers by (done || lia). rewrite He. by destruct others.
  - destruct Hs as [He [= -> ->]]. rewrite Hparse by lia. rewrite He. destruct rest; [done|]. by destruct parse.
Qed.

(** More than enough calls for the arguments. *)
Definition calls (args : list str) : nat := S (sum_list_with (fun a => S (length a)) args).

Lemma arguments_run args all pre :
  all = pre ++ args -> all <> [] ->
  forall f, (calls args <= f)%nat ->
  getopts_run f (option_argument s all) spec (Z.of_nat (length pre) + 1) 0 = Some (shifted (parse_arguments spec args (Z.of_nat (length pre)))).
Proof.
  revert pre. induction args as [args IH] using (induction_ltof1 _ length). unfold ltof in IH. intros pre Hall Hne f Hf.
  destruct f as [|f]; [unfold calls in Hf; lia|].
  assert (option_argument s all (Z.of_nat (length pre) + 1) = List.hd_error args) as Hat.
  { destruct args as [|a args]; [|by rewrite Hall, argument_at]. rewrite app_nil_r in Hall. subst all. by apply argument_past. }
  destruct args as [|a args].
  - cbn [getopts_run parse_arguments]. destruct (step_end (option_argument s all) (Z.of_nat (length pre) + 1) 0) as [-> ->]; [by rewrite Hat|].
    rewrite Hat. reflexivity.
  - cbn [parse_arguments]. destruct (option_letters a) as [letters|] eqn:El.
    + destruct (option_letters_shape a letters El) as (Ha & Hl & Hd).
      assert (forall skipped others, a :: args = skipped ++ others -> skipped <> [] ->
        forall g, (calls args <= g)%nat -> getopts_run g (option_argument s all) spec (Z.of_nat (length pre) + 1 + Z.of_nat (length skipped)) 0 =
          Some (shifted (parse_arguments spec others (Z.of_nat (length pre) + Z.of_nat (length skipped))))) as Hrest.
      { intros skipped others Es Hsk g Hg.
        replace (Z.of_nat (length pre) + 1 + Z.of_nat (length skipped)) with (Z.of_nat (length (pre ++ skipped)) + 1) by (rewrite length_app; lia).
        replace (Z.of_nat (length pre) + Z.of_nat (length skipped)) with (Z.of_nat (length (pre ++ skipped))) by (rewrite length_app; lia).
        apply IH; [|by rewrite <- app_assoc, <- Es|done|].
        - apply (f_equal length) in Es. rewrite length_app in Es. destruct skipped; [done|]. cbn [length] in *. lia.
        - destruct skipped as [|x skipped]; [done|]. injection Es as <- ->. unfold calls in *. rewrite sum_list_with_app in Hg. lia. }
      rewrite (letters_run all pre a args (calls args) (parse_arguments spec args (Z.of_nat (length pre) + 1))
        (match args with _ :: others => parse_arguments spec others (Z.of_nat (length pre) + 2) | [] => ([], Z.of_nat (length pre) + 1) end) [] letters 0);
        [done|done|done|done|done|by right| | |].
      * intros g Hg. by apply (Hrest [a] args).
      * intros Hargs g Hg. destruct args as [|v others]; [done|]. by apply (Hrest [a; v] others).
      * rewrite Ha in Hf. unfold calls in *. cbn [sum_list_with length] in Hf. lia.
    + cbn [getopts_run]. destruct (step_end (option_argument s all) (Z.of_nat (length pre) + 1) 0) as [-> ->]; [by rewrite Hat|].
      rewrite Hat. cbn [List.hd_error]. change (1 =? 1) with true. cbv iota.
      destruct (str_eqb a (bs "--")); unfold shifted; cbn [fst snd]; by rewrite ?Z.add_assoc.
Qed.

(** C24: the calls of [getopts], until one fails, find the options that a parse
    of the arguments gives, in order and with their arguments: letters that
    share an argument, option arguments in the same or in the next argument,
    unknown options and missing arguments; OPTIND is then behind what was
    parsed, the end marker included. *)
Theorem getopts_parses args :
  args <> [] ->
  getopts_run (calls args) (option_argument s args) spec 1 0 =
    Some (fst (parse_arguments spec args 0), snd (parse_arguments spec args 0) + 1).
Proof. intros Hne. by apply (arguments_run args args []). Qed.
End Getopts.

Lemma getopts_parses_witness :
  [bs "-ab"; bs "x"; bs "-cfoo"; bs "-z"; bs "--"; bs "y"] <> [] /\
  getopts_run 20 (option_argument zero_state [bs "-ab"; bs "x"; bs "-cfoo"; bs "-z"; bs "--"; bs "y"]) (bs ":ab:c:") 1 0 =
    Some ([(ch "a", None); (ch "b", Some (bs "x")); (ch "c", Some (bs "foo")); (ch "?", Some (bs "z"))], 6).
Proof.
  split; [discriminate|].
  exact (getopts_parses zero_state (bs ":ab:c:") [bs "-ab"; bs "x"; bs "-cfoo"; bs "-z"; bs "--"; bs "y"] ltac:(discriminate)).
Defined.

(** ** Fields of a line *)

(** The values that [read] gives to [n] variables. *)
Fixpoint field_values `{Locale} (n : nat) (ifs : str) (l : list cell) : list str :=
  match n with
  | O => []
  | S n => let '(v, rest) := next_field ifs (n =? 0)%nat l in v :: field_values n ifs rest
  end.

(** The cells of one character of the line end a field when none is escaped and
    the character is one of IFS. *)
Definition splits (ifs : list str) (c : list cell) : bool :=
  forallb (fun x => negb (snd x)) c && bool_decide (text_of c ∈ ifs).

Fixpoint joined (d : list cell) (fields : list (list cell)) : list cell :=
  match fields with
  | [] => []
  | [f] => f
  | f :: rest => f ++ d ++ joined d rest
  end.

Section Read.
Context `{loc : Locale}.

(** A string that the encoding takes as one character whatever follows it;
    white space is a character of one byte. *)
Definition character (c : str) : Prop :=
  c <> [] /\ (forall s, character_bytes (c ++ s) = length c) /\ ((1 < length c)%nat -> forallb (fun b => negb (white b)) c = true).

Lemma starts_with_self_app s t : starts_with s (s ++ t) = true.
Proof. induction s as [|b s IH]; [done|]. cbn. by rewrite Z.eqb_refl. Qed.

Lemma starts_with_prefix s t : starts_with s t = true -> exists r, t = s ++ r.
Proof.
  revert t. induction s as [|b s IH]; intros t; [by exists t|]. destruct t as [|c t]; [done|]. cbn.
  intros [E%Z.eqb_eq H]%andb_prop. subst. destruct (IH _ H) as [r ->]. by exists r.
Qed.

(** Two characters at the same place are the same. *)
Lemma character_prefix c i s : character c -> character i -> starts_with i (c ++ s) = bool_decide (i = c).
Proof.
  intros (_ & Hc & _) (_ & Hi & _). case_bool_decide as E; [subst; apply starts_with_self_app|].
  apply not_true_is_false. intros [r Er]%starts_with_prefix. apply E. pose proof (Hc s) as E1. rewrite Er, Hi in E1.
  apply (f_equal (take (length c))) in Er. rewrite take_app_length, <- E1, take_app_length in Er. done.
Qed.

Lemma delimiter_character ifs c l : Forall character ifs -> character (text_of c) ->
  delimiter (concat ifs) (c ++ l) = if splits ifs c then length c else 0%nat.
Proof.
  intros Hi Hc. unfold delimiter. destruct (c ++ l) as [|x r] eqn:E; [apply app_eq_nil in E as [-> _]; by destruct Hc|]. rewrite <- E. clear E x r.
  generalize (Nat.le_refl (length (concat ifs))). generalize (length (concat ifs)) at 2 3 as n.
  induction Hi as [|i ifs Hi Hifs IH]; intros n Hn; cbn [concat] in *.
  { unfold splits. rewrite bool_decide_eq_false_2, andb_false_r by apply not_elem_of_nil. by destruct n. }
  pose proof Hi as (Hne & Hi1 & _). rewrite length_app in Hn. destruct n as [|n]; [destruct i; [done|cbn in Hn; lia]|]. cbn [delimiter_at].
  destruct (i ++ concat ifs) as [|b bytes] eqn:E; [apply app_eq_nil in E as [-> _]; done|]. rewrite <- E. clear E b bytes.
  rewrite Hi1, take_app_length, drop_app_length. unfold text_of in *. rewrite fmap_app, character_prefix by done.
  unfold splits at 1. rewrite (bool_decide_ext (text_of c ∈ i :: ifs) (i = text_of c \/ text_of c ∈ ifs)) by (rewrite elem_of_cons; naive_solver).
  case_bool_decide as Ei; [subst i|]; cbn [andb].
  - rewrite length_fmap, take_app_length. rewrite bool_decide_eq_true_2 by by left. rewrite andb_true_r.
    destruct (forallb _ c) eqn:Ef; [done|]. rewrite IH; [|destruct c; cbn in *; [done|lia]]. unfold splits. by rewrite Ef.
  - rewrite IH; [|destruct i; cbn in *; [done|lia]]. unfold splits.
    by rewrite (bool_decide_ext (i = text_of c \/ text_of c ∈ ifs) (text_of c ∈ ifs)) by naive_solver.
Qed.

(** A delimiter that begins with white space is that byte. *)
Lemma leads_character ifs c l : Forall character ifs -> character (text_of c) ->
  leads (concat ifs) (c ++ l) = forallb white (text_of c) && splits ifs c.
Proof.
  intros Hi Hc. pose proof Hc as (Hne & _ & Hw). pose proof (delimiter_character ifs c l Hi Hc) as Hd.
  unfold text_of in *. rewrite length_fmap in Hw. destruct c as [|x [|y c]]; [done|..]; unfold leads; cbn [app] in Hd |- *; rewrite Hd; clear Hd.
  - cbn [fmap list_fmap forallb]. rewrite andb_true_r. by destruct (splits ifs [x]); rewrite ?andb_true_r, ?andb_false_r.
  - specialize (Hw ltac:(cbn; lia)). cbn [fmap list_fmap forallb] in *. apply andb_prop in Hw as [Hx _]. apply negb_true_iff in Hx. by rewrite Hx.
Qed.

(** Characters of a field. *)
Definition plain (ifs : list str) (f : list (list cell)) : Prop := Forall (fun c => character (text_of c) /\ splits ifs c = false) f.

Lemma field_length_whole ifs f rest n : Forall character ifs -> plain ifs f ->
  (rest = [] \/ exists d r, rest = d ++ r /\ character (text_of d) /\ splits ifs d = true) -> (length (concat f) < n)%nat ->
  field_length n (concat ifs) (concat f ++ rest) = length (concat f).
Proof.
  intros Hi Hf Hr. revert n. induction Hf as [|c f [Hc Hs] Hf IH]; intros [|n] Hn; cbn [concat] in *; rewrite ?length_app in *; cbn [length app field_length] in *; try lia.
  - destruct Hr as [-> |(d & r & -> & Hd & Es)]; [done|].
    destruct d as [|x d]; [by destruct Hd|]. cbn [app]. change (x :: d ++ r) with ((x :: d) ++ r).
    rewrite delimiter_character by done. by rewrite Es.
  - rewrite <- app_assoc. destruct c as [|x c]; [by destruct Hc|]. cbn [app]. change (x :: c ++ concat f ++ rest) with ((x :: c) ++ concat f ++ rest).
    rewrite delimiter_character by done. rewrite Hs. cbn [Nat.eqb].
    pose proof Hc as (_ & Hb & _). unfold text_of in Hb. rewrite fmap_app, Hb, length_fmap, drop_app_length, IH; [done|cbn in Hn; lia].
Qed.

Lemma skip_white_none ifs c l : Forall character ifs -> character (text_of c) -> forallb white (text_of c) && splits ifs c = false ->
  skip_white_cells (concat ifs) (c ++ l) = c ++ l.
Proof.
  intros Hi Hc Hn. destruct c as [|x c]; [by destruct Hc|]. cbn [app skip_white_cells]. change (x :: c ++ l) with ((x :: c) ++ l).
  by rewrite leads_character, Hn.
Qed.

Lemma skip_white_field ifs f l : Forall character ifs -> plain ifs f -> f <> [] ->
  skip_white_cells (concat ifs) (concat f ++ l) = concat f ++ l.
Proof.
  intros Hi [|c f' [Hc Hs] Hf] Hne; [done|]. cbn [concat]. rewrite <- app_assoc. apply skip_white_none; [done|done|]. by rewrite Hs, andb_false_r.
Qed.

(** The last byte of a field is not white space that splits. *)
Lemma trim_none ifs f : Forall character ifs -> plain ifs f ->
  trim_end (concat ifs) (concat f) (length (concat f)) = length (concat f).
Proof.
  intros Hi Hf. destruct f as [|c f _] using rev_ind; [done|]. apply Forall_app in Hf as [_ [[Hc Hs] _]%Forall_cons].
  rewrite concat_app. cbn [concat]. rewrite app_nil_r. set (before := concat f).
  pose proof Hc as (Hne & _ & Hw). unfold text_of in *. rewrite length_fmap in Hw.
  destruct c as [|x c _] using rev_ind; [done|]. rewrite !length_app, Nat.add_1_r, Nat.add_succ_r. cbn [trim_end].
  rewrite app_assoc, drop_app_le by (rewrite length_app; lia).
  rewrite (drop_ge (before ++ c)) by (rewrite length_app; lia). cbn [app].
  destruct c as [|y c].
  - cbn [app] in *. pose proof (leads_character ifs [x] [] Hi Hc) as Hl. cbn [app] in Hl. by rewrite Hl, Hs, andb_false_r.
  - unfold leads. specialize (Hw ltac:(rewrite length_app; cbn; lia)). rewrite fmap_app, forallb_app in Hw.
    apply andb_prop in Hw as [_ Hw]. cbn in Hw. rewrite andb_true_r in Hw. apply negb_true_iff in Hw. by rewrite Hw.
Qed.

Lemma skip_white_delimiter ifs d f l : Forall character ifs -> character (text_of d) -> splits ifs d = true -> plain ifs f ->
  (forallb white (text_of d) = true -> f <> []) ->
  let rest := skip_white_cells (concat ifs) (d ++ concat f ++ l) in
  drop (delimiter (concat ifs) rest) rest = concat f ++ l.
Proof.
  intros Hi Hc Hd Hf Hw. cbv zeta. destruct (forallb white (text_of d)) eqn:Ew.
  - specialize (Hw eq_refl). pose proof Hc as (Hne & _ & H1). unfold text_of in H1. rewrite length_fmap in H1.
    destruct d as [|x [|y d]]; [done| |].
    + pose proof (leads_character ifs [x] (concat f ++ l) Hi Hc) as Hl. rewrite Hd, Ew in Hl. cbn [app skip_white_cells] in *. rewrite Hl. cbn [andb].
      rewrite skip_white_field by done. destruct Hf as [|c f' [Hcc Hs] Hf]; [done|]. cbn [concat]. rewrite <- app_assoc.
      rewrite delimiter_character by done. by rewrite Hs.
    + specialize (H1 ltac:(cbn; lia)). cbn in H1, Ew. apply andb_prop in H1 as [H1 _], Ew as [Ew _]. by rewrite Ew in H1.
  - rewrite skip_white_none by (done || by rewrite Ew). rewrite delimiter_character by done. by rewrite Hd, drop_app_length.
Qed.

Lemma joined_cons d f fields : exists l, joined d (f :: fields) = f ++ l.
Proof. destruct fields; [exists []; by rewrite app_nil_r|by eexists]. Qed.

(** C25: [read] takes apart what a delimiter joined, in every encoding.  The
    characters of IFS, the delimiter and the fields may have several bytes each;
    with as many variables as there are fields, each gets the text of its field,
    whatever characters it has as long as those of IFS are escaped; when the
    delimiter is white space no field is empty. *)
Theorem read_fields_roundtrip (ifs : list str) (d : list cell) (fields : list (list (list cell))) :
  Forall character ifs -> splits ifs d = true ->
  Forall (fun f => plain ifs f /\ (forallb white (text_of d) = true -> f <> [])) fields ->
  field_values (length fields) (concat ifs) (joined d (concat (A:=cell) <$> fields)) = (fun f => text_of (concat f)) <$> fields.
Proof.
  intros Hi Hd. assert (character (text_of d)) as Hc.
  { apply andb_prop in Hd as [_ Hd]. apply bool_decide_eq_true_1 in Hd. rewrite Forall_forall in Hi. by apply Hi. }
  induction fields as [|f fields IH]; intros Hf; [done|].
  apply Forall_cons in Hf as [[Hf Hn] Hrest]. cbn [length field_values fmap list_fmap].
  destruct fields as [|g fields].
  - cbn [length Nat.eqb fmap list_fmap joined]. unfold next_field.
    assert (skip_white_cells (concat ifs) (concat f) = concat f) as ->.
    { destruct f as [|c f]; [done|]. pose proof (skip_white_field ifs (c :: f) [] Hi Hf ltac:(done)) as H. by rewrite app_nil_r in H. }
    cbn [fst snd]. by rewrite trim_none, firstn_all.
  - cbn [length Nat.eqb]. change (joined d (concat f :: (concat (A:=cell) <$> g :: fields))) with (concat f ++ d ++ joined d (concat (A:=cell) <$> (g :: fields))).
    pose proof Hrest as [[Hg Hgn] _]%Forall_cons.
    destruct (joined_cons d (concat g) (concat (A:=cell) <$> fields)) as [l El]. change (concat g :: (concat (A:=cell) <$> fields)) with (concat (A:=cell) <$> (g :: fields)) in El.
    rewrite El. rewrite El in IH. unfold next_field.
    assert (skip_white_cells (concat ifs) (concat f ++ d ++ concat g ++ l) = concat f ++ d ++ concat g ++ l) as ->.
    { destruct f as [|c f]; [|by apply skip_white_field]. cbn [concat app]. apply skip_white_none; [done|done|].
      destruct (forallb white (text_of d)); [by destruct (Hn eq_refl)|done]. }
    assert (field_length (length (concat f ++ d ++ concat g ++ l)) (concat ifs) (concat f ++ d ++ concat g ++ l) = length (concat f)) as ->.
    { apply field_length_whole; [done|done|right; by exists d, (concat g ++ l)|]. rewrite !length_app.
      destruct Hc as [Hne _]. destruct d; [done|cbn; lia]. }
    rewrite take_app_length, drop_app_length, skip_white_delimiter by done. f_equal. by apply IH.
Qed.
End Read.

Definition cells (escaped : bool) (s : str) : list cell := (fun b => (b, escaped)) <$> s.

(** The bytes of a text, each a character, with one quoting. *)
Definition chars (escaped : bool) (s : str) : list (list cell) := (fun b => [(b, escaped)]) <$> s.

Lemma utf8_readable c : 0 < hd 0 c -> utf8_mbrlen c = MbLength (length c) -> ((1 < length c)%nat -> forallb (fun b => negb (white b)) c = true) ->
  character (loc := utf8_locale) c.
Proof.
  intros Hp Hl Hw. destruct c as [|b c]; [done|]. split; [done|]. split; [|done]. intros s. unfold character_bytes. cbn [loc_mbrlen utf8_locale].
  cbn [app utf8_mbrlen hd] in *. rewrite (proj2 (Z.eqb_neq b 0)) in * by lia. destruct (b <? 128); [by injection Hl as Hl; rewrite Hl|].
  destruct (between 194 b 223), (between 224 b 239), (between 240 b 244); try done; by rewrite (utf8_tail_extend _ _ _ _ _ Hl).
Qed.

(** IFS holds the euro sign and a colon; the fields have an accented letter, an
    escaped euro sign and nothing. *)
Lemma read_fields_roundtrip_witness :
  splits [euro; bs ":"] (cells false euro) = true /\
  field_values (H:=utf8_locale) 3 (euro ++ bs ":") (cells false (accent ++ bs "a b" ++ euro) ++ cells true euro ++ cells false (bs "c" ++ euro)) =
    [accent ++ bs "a b"; euro ++ bs "c"; []].
Proof.
  split; [vm_compute; reflexivity|].
  refine (read_fields_roundtrip (loc:=utf8_locale) [euro; bs ":"] (cells false euro)
    [cells false accent :: chars false (bs "a b"); cells true euro :: chars false (bs "c"); []] _ _ _).
  - repeat constructor; apply utf8_readable; done.
  - vm_compute. reflexivity.
  - repeat match goal with
    | |- Forall _ _ => constructor
    | |- _ /\ _ => split
    | |- plain _ _ => unfold plain; cbn
    | |- character _ => apply utf8_readable; cbn; (done || lia)
    | |- _ = false => vm_compute; reflexivity
    end; try (vm_compute; discriminate).
Defined.
