(* ===== verification/Directory.v ===== *)
(** * The working directory (src/builtin.c)

    The builtins [cd] and [pwd] and the variables that a shell starts with.
    Paths that are too long for one call are walked one component at a time; the
    file system answers for a path, or for a component, at each moment.  The
    resolution of dot components is [normalize] of Builtin.v, for which the file
    system stays as it is. *)

From stdpp Require Import base list gmap strings.
From S2P Require Import Prelude Output Numbers Options State Descriptors Signals Jobs Builtin Execution.

Section Directory.
Context {system : System} {disk : Disk} {db : LocaleDb} {collation : Collation}.

Definition report (name text : str) : E Z := ehost (problem name text).

(** [cwd], with the [errno] of a failure. *)
Definition cwd : E (errno + str) := directory_loop 60 256.

(** [open] of a directory for [fchdir]: without close-on-exec. *)
Definition open_directory (path : str) : K Z := sys (fun k =>
  match disk_open (k_time k) path (mk_open O_RDONLY false false false false) with
  | inl e => inl e
  | inr d =>
      match lowest_free k 0 with
      | None => inl EMFILE
      | Some fd => inr (fd, add_file (tick k) fd false d)
      end
  end).

(** The names between slashes. *)
Fixpoint path_parts (fuel : nat) (s : str) : list str :=
  match fuel with
  | O => []
  | S fuel =>
      match skip_slashes s with
      | [] => []
      | s => let '(part, rest) := split_component s in part :: path_parts fuel rest
      end
  end.

(** Each directory is opened from the one before, which is closed then. *)
Fixpoint handle_loop (parts : list str) (fd : Z) : E (errno + Z) :=
  match parts with
  | [] => eret (inr fd)
  | part :: rest =>
      let$ next := efiles (open_directory part) in
      let$ _ := efiles (sys_close fd) in
      match next with inl e => eret (inl e) | inr fd => handle_loop rest fd end
  end.

Definition directory_handle (path : str) : E (errno + Z) :=
  let$ fd := efiles (open_directory path) in
  match fd with
  | inl ENAMETOOLONG =>
      let$ copy := ehost malloc in
      if negb copy then eret (inl ENOMEM) else
      let root := if negb (peek path =? ch "/") then bs "." else take (root_length path) (bs "//") in
      let$ fd := efiles (open_directory root) in
      match fd with
      | inl e => eret (inl e)
      | inr fd => handle_loop (path_parts (S (length path)) path) fd
      end
  | r => eret r
  end.

(** The kind and the identity of the file at a path. *)
Definition directory_stat (path : str) : E (option (file_kind * (Z * Z))) :=
  let identify kind := let$ i := ask (fun p n => sys_identity p n path) in eret (Some (kind, i)) in
  let$ st := efiles (sys_stat path) in
  match st with
  | inr kind => identify kind
  | inl ENAMETOOLONG =>
      let$ fd := directory_handle path in
      match fd with
      | inl _ => eret None
      | inr fd =>
          let$ st := efiles (sys_fstat fd) in
          let$ _ := efiles (sys_close fd) in
          match st with inr kind => identify kind | inl _ => eret None end
      end
  | inl _ => eret None
  end.

(** An absolute path without dot components that leads here. *)
Definition logical_valid (value : option str) : E bool :=
  match value with
  | Some s =>
      if negb (peek s =? ch "/") || existsb (fun c => one_of c [bs "."; bs ".."]) (path_parts (S (length s)) s) then eret false else
      let$ a := directory_stat s in
      match a with
      | None => eret false
      | Some (_, i) =>
          let$ b := efiles (sys_stat (bs ".")) in
          match b with
          | inl _ => eret false
          | inr _ => let$ j := ask (fun p n => sys_identity p n (bs ".")) in eret (bool_decide (i = j))
          end
      end
  | None => eret false
  end.

Definition variable_value (name : str) : E (option str) :=
  let$ s := state in eret (view_value (snd (csh_state_get_variable s (Some name)))).

Definition strdup (s : str) : E (errno + str) := let$ ok := ehost malloc in eret (if ok then inr s else inl ENOMEM).

Definition current (physical : bool) : E (errno + str) :=
  let$ v := variable_value (bs "PWD") in
  let$ valid := (if physical then eret false else logical_valid v) in
  match v with Some s => if valid then strdup s else cwd | None => cwd end.

Definition set_value (name value : str) : E bool :=
  let$ r := on_state (fun s => csh_state_set_variable s (Some name) (Some value)) in eret (bool_decide (r = CSH_STATE_OK)).
Definition unset_value (name : str) : E bool :=
  let$ r := on_state (fun s => csh_state_unset_variable s (Some name)) in eret (bool_decide (r = CSH_STATE_OK)).

(** Whether the variables could be set. *)
Definition csh_builtin_initialize : E bool :=
  let$ a := set_value (bs "IFS") [32; 9; 10] in
  let$ b := (if a then set_value (bs "PPID") (print_long sys_parent) else eret false) in
  let$ c := (if b then set_value (bs "OPTIND") (bs "1") else eret false) in
  if negb c then eret false else
  let$ name := current false in
  match name with
  | inl ENOMEM => eret false
  | inl _ => unset_value (bs "PWD")
  | inr d =>
      let$ ok := set_value (bs "PWD") d in
      if negb ok then eret false else
      let$ r := on_state (fun s => csh_state_update_attributes s (Some (bs "PWD")) CSH_VAR_EXPORT 0) in
      eret (bool_decide (r = CSH_STATE_OK))
  end.

Definition join (a b : str) : E (option str) :=
  if slen a >? SIZE_MAX - slen b - 2 then eret None else
  let$ ok := ehost malloc in eret (if ok then Some (a ++ [ch "/"] ++ b) else None).

(** The options of [cd] and [pwd]: physical, and [-e]. *)
Fixpoint directory_letters (is_cd : bool) (letters : str) (o : bool * bool) : option (bool * bool) :=
  match letters with
  | [] => Some o
  | c :: rest =>
      if c =? ch "L" then directory_letters is_cd rest (false, snd o)
      else if c =? ch "P" then directory_letters is_cd rest (true, snd o)
      else if (c =? ch "e") && is_cd then directory_letters is_cd rest (fst o, true)
      else None
  end.

Fixpoint directory_options (is_cd : bool) (args : list str) (o : bool * bool) : option (list str * (bool * bool)) :=
  match args with
  | (c :: ((_ :: _) as letters)) :: rest =>
      if negb (c =? ch "-") then Some (args, o)
      else if str_eqb letters (bs "-") then Some (rest, o)
      else match directory_letters is_cd letters o with None => None | Some o => directory_options is_cd rest o end
  | _ => Some (args, o)
  end.

Definition pwd_builtin (physical : bool) : E Z :=
  let$ d := current physical in
  match d with
  | inl _ => let$ _ := report (bs "pwd") (bs "cannot determine current directory") in eret 1
  | inr d =>
      let$ n := ehost (csh_write_text STDOUT d) in
      let$ m := (if n <? 0 then eret n else ehost (csh_write_text STDOUT [10])) in
      if m <? 0 then let$ _ := report (bs "pwd") (bs "cannot write output") in eret 1 else eret 0
  end.

(** Operands that CDPATH does not apply to. *)
Definition explicit_path (operand : str) : bool :=
  (peek operand =? ch "/") || starts_with (bs "./") operand || str_eqb operand (bs ".") ||
  starts_with (bs "../") operand || str_eqb operand (bs "..").

(** No memory, no directory of CDPATH, or a target that is printed when the
    directory has a name. *)
Fixpoint search_cdpath (parts : list str) (operand : str) : E (option (option (str * bool))) :=
  match parts with
  | [] => eret (Some None)
  | part :: rest =>
      let$ ok := ehost malloc in
      if negb ok then eret None else
      let$ target := join (if bool_decide (part = []) then bs "." else part) operand in
      match target with
      | None => eret None
      | Some target =>
          let$ st := efiles (sys_stat target) in
          match st with
          | inr S_IFDIR => eret (Some (Some (target, negb (bool_decide (part = [])))))
          | _ => search_cdpath rest operand
          end
      end
  end.

(** [directory_stat] for [normalize]: as the file system is now. *)
Definition directory_now (x : shell) (path : str) : bool :=
  match fst (directory_stat path x) with EDone (Some (S_IFDIR, _)) => true | _ => false end.

(** The target of a logical change: absolute and without dot components. *)
Definition logical_target (target : str) (old : option str) : E (option str) :=
  let$ target := match old with
    | Some d => if peek target =? ch "/" then eret (Some target) else join d target
    | None => eret (Some target)
    end in
  match target with
  | Some t => let$ x := eget in eret (if peek t =? ch "/" then normalize (directory_now x) t else Some t)
  | None => eret None
  end.

(** The path for [chdir]: without the part that leads to the current directory
    when it is too long. *)
Definition change_path (target : str) (physical : bool) (old : option str) (maximum : Z) : str :=
  match old with
  | Some d =>
      if negb physical && (0 <? maximum) && (maximum <=? slen target) && starts_with d target &&
         ((peek (drop (length d) target) =? ch "/") || bool_decide (drop (length d) target = []))
      then match skip_slashes (drop (length d) target) with [] => bs "." | p => p end
      else target
  | None => target
  end.

Definition change_directory (path : str) : E bool :=
  let$ failed := ask (fun p n => sys_chdir p n path) in
  match failed with
  | None => eret true
  | Some ENAMETOOLONG =>
      let$ fd := directory_handle path in
      match fd with
      | inl _ => eret false
      | inr fd =>
          let$ failed := ask (fun p n => sys_fchdir p n fd) in
          let$ _ := efiles (sys_close fd) in
          eret (negb (bool_decide (is_Some failed)))
      end
  | Some _ => eret false
  end.

(** The end of [cd]: its status. *)
Definition cd_end (ok : bool) (fd : option Z) : E Z :=
  let$ _ := (if ok then eret 0 else report (bs "cd") (bs "cannot change directory or update directory state")) in
  let$ _ := match fd with Some fd => let$ _ := efiles (sys_close fd) in eret tt | None => eret tt end in
  eret (if ok then 0 else 1).

(** The variables after the change: PWD is the target or what the system says. *)
Definition cd_variables (target : str) (physical require print : bool) (old : option str) : E (bool * option str) :=
  let$ name := (if negb physical && (peek target =? ch "/") then strdup target else cwd) in
  match name with
  | inl _ =>
      if physical && negb require && negb print then
        let$ a := unset_value (bs "PWD") in
        let$ b := (if a then set_value (bs "OLDPWD") (default [] old) else eret false) in
        eret (b, None)
      else eret (false, None)
  | inr d =>
      let$ a := set_value (bs "OLDPWD") (default [] old) in
      let$ b := (if a then set_value (bs "PWD") d else eret false) in
      eret (b, Some d)
  end.

(** From the target on. *)
Definition cd_target (target : str) (physical require print : bool) (old : option str) : E Z :=
  let$ target := (if physical then eret (Some target) else logical_target target old) in
  match target with
  | None => cd_end false None
  | Some target =>
      let$ fd := directory_handle (bs ".") in
      match fd with
      | inl _ => cd_end false None
      | inr fd =>
          let$ s := state in
          let$ (r, checkpoint) := ehost (csh_state_save s) in
          if negb (bool_decide (r = CSH_STATE_OK)) then cd_end false (Some fd) else
          let$ maximum := ask sys_pathmax in
          let$ changed := change_directory (change_path target physical old maximum) in
          if negb changed then
            let$ status := cd_end false (Some fd) in
            let$ _ := ehost (csh_state_checkpoint_destroy checkpoint) in eret status
          else
          let$ (ok, newpwd) := cd_variables target physical require print old in
          if negb ok then
            let$ failed := ask (fun p n => sys_fchdir p n fd) in
            let$ _ := (if bool_decide (is_Some failed) then report (bs "cd") (bs "cannot restore directory after state failure") else eret 0) in
            let$ _ := on_state (fun s => csh_state_restore s checkpoint) in
            cd_end false (Some fd)
          else
            let$ written := (if print then
              let$ n := ehost (csh_write_text STDOUT (default [] newpwd)) in
              let$ m := (if n <? 0 then eret n else ehost (csh_write_text STDOUT [10])) in eret (0 <=? m)
              else eret true) in
            let$ status := cd_end written (Some fd) in
            let$ _ := ehost (csh_state_checkpoint_destroy checkpoint) in eret status
      end
  end.

Definition cd_builtin (operands : list str) (physical require : bool) : E Z :=
  let special := match operands with [] => true | a :: _ => str_eqb a (bs "-") end in
  let print := special && negb (bool_decide (operands = [])) in
  let$ operand := (if special then variable_value (if print then bs "OLDPWD" else bs "HOME") else eret (List.hd_error operands)) in
  match operand with
  | Some ((_ :: _) as operand) =>
      let$ here := current false in
      let old := match here with inr d => Some d | inl _ => None end in
      let$ found := (if negb (explicit_path operand) && negb print then
        let$ v := variable_value (bs "CDPATH") in
        match v with Some v => search_cdpath (split_colons v) operand | None => eret (Some None) end
        else eret (Some None)) in
      match found with
      | None => cd_end false None
      | Some (Some (target, named)) => cd_target target physical require named old
      | Some None =>
          let$ ok := ehost malloc in
          if negb ok then cd_end false None else cd_target operand physical require print old
      end
  | _ => report (bs "cd") (if special then bs "HOME or OLDPWD is unset or empty" else bs "empty directory operand")
  end.

Definition directory (argv : list str) : E Z :=
  let name := List.hd [] argv in
  let is_cd := str_eqb name (bs "cd") in
  match directory_options is_cd (tail argv) (false, false) with
  | None => report name (bs "invalid option")
  | Some (operands, (physical, require)) =>
      if ((if is_cd then 1 else 0) <? length operands)%nat then report name (bs "too many operands")
      else if is_cd then cd_builtin operands physical require else pwd_builtin physical
  end.

(** [csh_state_builtin_run], whose dispatch of the regular builtins is to
    [directory]. *)
Definition state_builtin (argv : list str) : E Z :=
  let name := List.hd [] argv in
  if bool_decide (csh_state_builtin_category name = CSH_EXEC_REGULAR_BUILTIN) then
    let$ _ := (if str_eqb name (bs "cd") then change_state csh_state_hash_clear else eret tt) in
    directory argv
  else on_state (fun s => csh_state_builtin_run (fun s _ => ret (0, s)) s argv).
End Directory.
