(* ===== verification/Execute.v ===== *)
(** * Execution of plans (src/execute.c)

    The functions of execute.c that call each other: a plan runs commands, a
    command may be a function or a builtin that runs further plans, trap actions
    and command substitutions parse and run texts.  The two entry points of the
    recursion, [execute_plan] and [bootstrap_handler], are the fields of a
    [level]; each level calls the one below it, and loops make at most as many
    turns as the level is high.  A run that needs more ends as [ESpent]. *)

From stdpp Require Import base list gmap strings.
From S2P Require Import Prelude Output Numbers Options Character Quote Alias State Arithmetic Expansion Pathname Fields Descriptors Redirect Input Signals Traps Builtin Jobs Process Lexer Values LexerKinds Ast Parser Grammar Prepare Plan Execution Utility Directory.

(** [bootstrap_handler] is told whether its context pointer is not NULL. *)
Record level : Type := mk_level {
  execute_below : execution_plan -> gmap nat redirection -> list Z -> E bool;
  handler_below : csh_command -> bool -> E bool;
  turns : nat }.

Section Execute.
Context {loc : Locale} {fs : Files} {users : Users} {db : LocaleDb} {collation : Collation} {disk : Disk}.
Context {signal_text : SignalText} {errors : ErrorText} {system : System}.

(** ** One level *)

Section Level.
Context (l : level).

(** [csh_input_reserve_begin] and [csh_input_reserve_end] around a computation
    that fails when the scope cannot be opened. *)
Definition reserve_begin (fds : list Z) : E bool :=
  let$ failed := einput (csh_input_reserve_begin fds) in
  match failed with Some e => let$ _ := put_error e in eret false | None => eret true end.
Definition reserve_end : E unit := einput (fun s => (tt, csh_input_reserve_end s)).

(** [csh_jobs_reserve] for a context with jobs. *)
Definition jobs_reserve (fds : list Z) (text : str) : E bool :=
  let$ c := context in
  if negb (cx_jobs c) then eret true else
  let$ r := csh_jobs_reserve fds in
  match r with inl e => efail text e 1 | inr _ => eret true end.

(** The plan of a tree, or [None] with the error. *)
Definition prepare_plan (tree : option csh_ast) (store : gmap nat redirection) : E (option (execution_plan * list Z)) :=
  let$ r := ehost (plan_prepare tree store) in
  match r with
  | None => espent
  | Some PlanFault => efault
  | Some (PlanFail e) => let$ _ := put_error e in eret None
  | Some (PlanDone p) => eret (Some p)
  end.

Definition csh_execute_context_ast (tree : csh_ast) (store : gmap nat redirection) : E bool :=
  let$ _ := on_result (fun _ => xr_set_category no_execution CSH_EXEC_PIPELINE) in
  let$ _ := put_error no_error in
  let finish (rc : bool) : E bool :=
    let$ e := error in
    let$ _ := (if rc then eret tt else on_result (fun r => xr_set_status r (status e))) in
    let$ r := result in
    let$ _ := set_state (fun s => csh_state_set_status s (xr_status r)) in
    eret rc in
  let$ ok := csh_execution_context_reap false in
  if negb ok then finish false else
  let$ planned := prepare_plan (Some tree) store in
  match planned with
  | None => finish false
  | Some (plan, reserved) =>
      let$ ok := reserve_begin reserved in
      let$ ok := (if ok then jobs_reserve reserved (bs "cannot reserve job descriptors") else eret false) in
      let$ rc := (if ok then execute_below l plan store reserved else eret false) in
      let$ _ := reserve_end in
      finish rc
  end.

(** ** Input *)

Definition find_source (id : nat) : E csh_input := fun x =>
  match List.find (fun p => (fst p =? id)%nat) (sx_inputs x) with Some p => (EDone (snd p), x) | None => (EFault, x) end.

Definition put_source (id : nat) (input : csh_input) : E unit := fun x =>
  (EDone tt, with_inputs x ((fun p => if (fst p =? id)%nat then (id, input) else p) <$> sx_inputs x) (sx_next_input x) (sx_scopes x)).

Fixpoint echo_lines (lines : list str) : E unit :=
  match lines with [] => eret tt | b :: rest => let$ _ := csh_execute_input_line b in echo_lines rest end.

(** [csh_parser_next] in this process; the line hook has echoed what was read. *)
Definition parse_next (id : nat) (p : csh_parser) : E (csh_parse_result * option csh_ast * csh_parser) :=
  let$ input := find_source id in
  let$ x := eget in
  let t := ps_tape p in
  let p := Parser.with_input (Parser.with_tape p (mk_tape (t_source t) (t_lexers t) (t_stack t) (h_proc (sx_host x)))) (Some (input, sx_kernel x)) in
  match csh_parser_next (turns l) p with
  | (POk (r, tree, e), p) =>
      let$ _ := eput (with_host x (with_proc (sx_host x) (t_proc (ps_tape p)))) in
      let$ (input, k) := eopt (ps_input p) in
      let$ _ := (fun x => (EDone tt, with_kernel x k)) in
      let$ _ := put_source id (csh_input_set_line_hook input (Some [])) in
      let$ _ := echo_lines (default [] (in_lines input)) in
      let$ _ := put_error e in
      eret (r, tree, p)
  | (PSpent, _) => espent
  | (PFail, _) | (PCrash, _) => efault
  end.

(** The commands of a source, one after the other. *)
Fixpoint evaluate_loop (n : nat) (id : nat) (p : csh_parser) (sourced : bool) : E bool :=
  match n with
  | O => espent
  | S n =>
      let$ table := on_state csh_state_aliases in
      let$ (r, tree, p) := parse_next id (csh_parser_set_aliases p table) in
      match r, tree with
      | CSH_PARSE_EOF, _ => eret true
      | CSH_PARSE_TREE, Some tree =>
          let$ rc := csh_execute_context_ast tree (ps_store p) in
          let$ stop := context_stopped in
          if stop then eret rc else
          let$ _ := (if rc then eret tt else report_error) in
          evaluate_loop n id p sourced
      | CSH_PARSE_TREE, None => efault
      | _, _ =>
          let$ info := information in
          let$ input := find_source id in
          let$ _ := on_result (fun r => xr_set_exit r
            (if csh_input_failed input then negb sourced else negb (opt_on (options info) CSH_OPT_INTERACTIVE))) in
          eret false
      end
  end.

Definition evaluate_input (id : nat) (sourced : bool) : E bool :=
  let$ r := result in
  let category := xr_category r in
  let$ ok := csh_stack_check in
  if negb ok then efail (bs "evaluation stack exhausted") ENOMEM 1 else
  let$ input := find_source id in
  let$ (stack, checks) := ask (fun p n => sys_parsers p n 0%nat) in
  let$ x := eget in
  let$ created := ehost (csh_parser_create (Some (input, sx_kernel x)) stack checks) in
  match created with
  | inl e => let$ _ := put_error e in eret false
  | inr p =>
      let$ _ := put_source id (csh_input_set_line_hook input (Some [])) in
      let$ table := on_state csh_state_aliases in
      match table with
      | None => efail (bs "cannot allocate aliases") ENOMEM 1
      | Some _ =>
          let$ _ := on_result (fun r => xr_set_status r 0) in
          let$ rc := evaluate_loop (turns l) id (csh_parser_set_aliases p table) sourced in
          let$ _ := on_result (fun r => xr_set_category r category) in
          eret rc
      end
  end.

(** ** Traps *)

Definition evaluate_trap_action (action : str) (saved : Z) : E unit :=
  let$ before := context in
  let$ _ := put_context (with_trap before true saved) in
  let$ _ := set_state (fun s => csh_state_set_status s saved) in
  let$ (_, execution) := own_result no_execution (own_error (
    let$ created := einput (csh_input_from_string (Some action) (Some (bs "trap"))) in
    match created with
    | inl e => let$ _ := put_error e in report_error
    | inr id =>
        let$ ok := evaluate_input id false in
        let$ _ := (if ok then eret tt else report_error) in
        einput (fun s => (tt, csh_input_destroy id s))
    end)) in
  let$ c := context in
  let$ _ := put_context (with_trap c (in_trap before) (trap_status before)) in
  if exit_requested execution then on_result (fun r => xr_set_status (xr_set_exit r true) (xr_status execution))
  else if negb (bool_decide (xr_control execution = CSH_CONTROL_NONE)) then
    let$ _ := on_result (fun r => xr_set_status (xr_set_control r (xr_control execution) (xr_levels execution)) (xr_status execution)) in
    let$ _ := set_state (fun s => csh_state_set_status s (xr_status execution)) in eret tt
  else let$ _ := set_state (fun s => csh_state_set_status s saved) in eret tt.

(** The number that was taken last; [seen] are those whose action has run. *)
Fixpoint pending_loop (n : nat) (seen : list Z) (number : Z) : E Z :=
  match n with
  | O => espent
  | S n =>
      let$ x := eget in
      let next := csh_traps_first_pending (signals_of x) in
      if negb (0 <? next) || existsb (fun i => i =? next) seen then eret number else
      let$ (number, action, g) := ehost (csh_traps_take (sx_traps x) (signals_of x)) in
      let$ x := eget in
      let$ _ := eput (with_signals x g) in
      if number <=? 0 then eret number else
      let$ info := information in
      let$ action := eopt action in
      let$ _ := evaluate_trap_action action (last_status info) in
      let$ r := result in
      if exit_requested r || negb (bool_decide (xr_control r = CSH_CONTROL_NONE)) then eret number
      else pending_loop n (number :: seen) number
  end.

Definition csh_execute_pending_traps : E bool :=
  let$ c := context in
  if negb (cx_traps c) || dispatching_traps c then eret true else
  let$ _ := put_context (with_dispatching c true) in
  let$ number := pending_loop (turns l) [] 0 in
  let$ c := context in
  let$ _ := put_context (with_dispatching c false) in
  if number <? 0 then
    let$ _ := on_result (fun r => xr_set_status r 1) in
    let$ _ := set_state (fun s => csh_state_set_status s 1) in
    efail (bs "cannot allocate trap action") ENOMEM 1
  else eret true.

Definition csh_execute_exit_trap : E Z :=
  let$ info := information in
  let$ c := context in
  if negb (cx_traps c) then eret (last_status info) else
  let$ x := eget in
  let$ (action, number) := ehost (csh_traps_exit_action (sx_traps x)) in
  match action with
  | None =>
      if bool_decide (number = ENOMEM) then
        let$ _ := efail (bs "cannot allocate EXIT action") ENOMEM 1 in
        let$ _ := report_error in
        let$ _ := set_state (fun s => csh_state_set_status s 1) in
        eret 1
      else eret (last_status info)
  | Some action =>
      let$ (_, execution) := own_result no_execution (evaluate_trap_action action (last_status info)) in
      eret (if exit_requested execution then xr_status execution else last_status info)
  end.

(** ** Command substitution *)

(** The size of the buffer for [need] bytes; 60 rounds reach the largest. *)
Fixpoint grown_buffer (n : nat) (grown need : Z) : Z :=
  match n with
  | O => need
  | S n => if need <=? grown then grown else if grown >? SIZE_MAX / 2 then need else grown_buffer n (grown * 2) need
  end.

(** The bytes so far and the size of the buffer.  After a failure the pipe is
    read to its end all the same, so that the writers can finish. *)
Fixpoint read_chunks (chunks : list (errno + str)) (used : str) (capacity : Z) (failed : bool) : E (option (str * Z)) :=
  let stop := eret (if failed then None else Some (used, capacity)) in
  match chunks with
  | [] => stop
  | inl EINTR :: rest => read_chunks rest used capacity failed
  | inl e :: _ => let$ _ := efail (bs "cannot read command substitution") e 1 in eret None
  | inr [] :: _ => stop
  | inr chunk :: rest =>
      let abandon_output text number status := let$ _ := efail text number status in read_chunks rest used capacity true in
      if failed then read_chunks rest used capacity true
      else if existsb (fun b => b =? 0) chunk then abandon_output (bs "NUL byte in command substitution output") ENONE 2
      else if slen chunk >=? SIZE_MAX - slen used then abandon_output (bs "command substitution output is too large") ENOMEM 1
      else
        let need := slen used + slen chunk + 1 in
        if need <=? capacity then read_chunks rest (used ++ chunk) capacity false else
        let$ ok := ehost malloc in
        if ok then read_chunks rest (used ++ chunk) (grown_buffer 60 (if capacity =? 0 then 8193 else capacity) need) false
        else abandon_output (bs "cannot allocate command substitution output") ENOMEM 1
  end.

(** The bytes without the newlines at their end. *)
Fixpoint trim_newlines (s : str) : str :=
  match s with
  | [] => []
  | b :: rest => match trim_newlines rest with [] => if b =? 10 then [] else [b] | kept => b :: kept end
  end.

(** A context for a child process with the trap table it has. *)
Definition child_context (jobs traps : bool) : csh_execution_context := mk_context 0 [] jobs traps false false 0.

Definition redirect_child : E unit := eredirect (fun st => (tt, csh_redirect_child st)).
Definition update_options (set clear : Z) : E unit := let$ _ := set_state (fun s => csh_state_update_options s set clear) in eret tt.

(** The end of a child that has run its commands. *)
Definition child_end (traps : bool) : E unit :=
  let$ _ := csh_execute_pending_traps in
  let$ r := result in
  let$ _ := set_state (fun s => csh_state_set_status s (xr_status r)) in
  let$ n := csh_execute_exit_trap in
  let$ _ := csh_execution_context_destroy in
  let$ x := eget in
  let$ _ := eput (with_managers (with_signals x (csh_traps_destroy (if traps then sx_traps x else None) (signals_of x))) (sx_jobs x) (if traps then None else sx_traps x)) in
  eexit n.

(** [if (... == -1 && !error.reported) diagnose(...)] *)
Definition diagnose_failure (name : str) (ok : bool) : E unit :=
  let$ e := error in
  if negb ok && negb (Output.reported e) then diagnose name (default [] (csh_error_message e)) (system_errno e) else eret tt.

Definition substitution_child (tree : csh_ast) (store : gmap nat redirection) (input output : Z) : E unit :=
  let$ _ := jobs_after_fork false in
  let$ _ := traps_after_fork false (standalone_trap tree) in
  let$ connected := pipeline_connect output 1 in
  match connected with
  | inl e => let$ _ := diagnose (bs "substitution") (bs "cannot connect output") e in eexit 1
  | inr _ =>
      let$ _ := pipe_close input in
      let$ _ := pipe_close output in
      let$ _ := redirect_child in
      let$ _ := update_options 0 CSH_OPT_INTERACTIVE in
      let$ x := eget in
      let traps := bool_decide (is_Some (sx_traps x)) in
      let$ _ := put_context (child_context false traps) in
      let$ ok := csh_execute_context_ast tree store in
      let$ _ := diagnose_failure (bs "substitution") ok in
      child_end traps
  end.

(** The bytes and the status; [None] is a failure. *)
Definition run_substitution (tree : csh_ast) (store : gmap nat redirection) : E (option (str * Z)) :=
  let failing (m : E bool) := let$ _ := m in eret None in
  let$ ok := csh_stack_check in
  if negb ok then failing (efail (bs "command substitution stack exhausted") ENOMEM 1) else
  let$ ends := efiles pipeline_pipe in
  match ends with
  | inl e => failing (efail (bs "cannot create substitution pipe") e 1)
  | inr (input, output) =>
      let close_ends := let$ _ := pipe_close input in pipe_close output in
      let$ masked := block_signals in
      match masked with
      | Some number => let$ _ := close_ends in failing (efail (bs "cannot block substitution signals") number 1)
      | None =>
          let$ child := fork (substitution_child tree store input output) in
          match child with
          | inl number => let$ _ := close_ends in failing (efail (bs "cannot fork command substitution") number 1)
          | inr pid =>
              let$ _ := pipe_close output in
              let$ chunks := ask sys_chunks in
              let$ bytes := read_chunks chunks [] 0 false in
              let$ _ := pipe_close input in
              let$ waited := wait_status pid in
              match waited with
              | inl number =>
                  let$ _ := (if bool_decide (number = ECHILD) then eret tt else
                    let$ again := wait_status pid in
                    match again with
                    | inl _ => let$ _ := kill_process pid SIGKILL in let$ _ := wait_status pid in eret tt
                    | inr _ => eret tt
                    end) in
                  match bytes with
                  | Some _ => failing (efail (bs "cannot wait for command substitution") number 1)
                  | None => eret None
                  end
              | inr s =>
                  match bytes with
                  | None => eret None
                  | Some (bytes, capacity) =>
                      let$ ok := (if capacity =? 0 then ehost malloc else eret true) in
                      if negb ok then failing (efail (bs "cannot allocate command substitution output") ENOMEM 1)
                      else eret (Some (trim_newlines bytes, decode_status s))
                  end
              end
          end
      end
  end.

(** ** Preparation in this process *)

(** The executor of the substitutions in a word: this process, with the state
    and the surroundings that the expansion has. *)
Definition executor_of (x : shell) : Executor := fun s store tree user p =>
  let '(previous, o) := user in
  match o_unfinished o with
  | Some _ => (inl no_error, user, s, p)
  | None =>
      let y := with_process_state (with_kernel (with_host (at_time x (o_clock o)) (with_proc (o_host o) p)) (o_kernel o)) s in
      let '(r, z) := own_error (run_substitution tree store) y in
      let out u := mk_outside (sx_host z) (sx_kernel z) (sx_clock z) u in
      match r with
      | EDone (Some (bytes, n), _) => (inr (Some bytes), (n, out None), sx_state z, h_proc (sx_host z))
      | EDone (None, e) => (inl e, (previous, out None), sx_state z, h_proc (sx_host z))
      | ESpent => (inl no_error, (previous, out (Some Spent)), s, p)
      | EBlocked => (inl no_error, (previous, out (Some Blocked)), s, p)
      | EFault | EExit _ | EProgram _ => (inl no_error, (previous, out (Some Faulted)), s, p)
      end
  end.

(** A computation of prepare.c on a command: its result, or the code of a
    failure with the error set, and the command. *)
Definition preparing {A} (m : Executor -> W A) (c : csh_command) : E ((Z + A) * csh_command) := fun x =>
  let n := sx_clock x in
  let '(stack, answers) := sys_expansion (sx_process x) n in
  let w := mk_prepared (sx_state x) c stack answers (mk_outside (sx_host x) (sx_kernel x) (S n) None) (h_proc (sx_host x)) in
  let '(r, w) := m (executor_of x) w in
  let o := pw_outside w in
  let x := with_process_state (with_kernel (with_host (at_time x (o_clock o)) (with_proc (o_host o) (pw_proc w))) (o_kernel o)) (pw_state w) in
  match o_unfinished o with
  | Some Faulted => (EFault, x)
  | Some Spent => (ESpent, x)
  | Some Blocked => (EBlocked, x)
  | None =>
      match r with
      | WFault => (EFault, x)
      | WFail code e => (EDone (inl code, pw_command w), with_error x e)
      | WDone a => (EDone (inr a, pw_command w), x)
      end
  end.

(** The checks in the parsers that a word creates. *)
Definition with_parsers {A} (m : (nat -> list (list bool)) -> (nat -> list bool) -> E A) : E A :=
  let$ answers := ask sys_parsers in m (fun i => fst (answers i)) (fun i => snd (answers i)).

(** [csh_prepare_word]: the fields, or [None] with the error. *)
Definition prepare_word (w : word) (store : gmap nat redirection) (mode : csh_expand_context) : E (option csh_fields) :=
  with_parsers (fun stacks checks =>
    let$ (r, _) := preparing (fun exec => csh_prepare_word (turns l) stacks checks w store mode) no_command in
    eret (match r with inr fields => Some fields | inl _ => None end)).

(** ** Redirections of a command *)

(** The backups so far, in order; the failure of one closes the scope, reports
    and restores. *)
Fixpoint redirect_each (list_ : list nat) (store : gmap nat redirection) (reserved : list Z) (saves : list (option nat))
    (command : csh_command) : E (bool * list (option nat) * csh_command) :=
  match list_ with
  | [] => eret (true, saves, command)
  | a :: rest =>
      let$ source := eopt (store !! a) in
      let$ (r, command) := with_parsers (fun stacks checks =>
        preparing (fun exec => csh_command_redirect (turns l) stacks checks source store (stacks 0%nat) (checks 0%nat)) command) in
      let failing : E (bool * list (option nat) * csh_command) :=
        let$ _ := (if bool_decide (saves = []) then eret tt else report_error) in
        let$ _ := restore_redirects saves in
        eret (false, [], command) in
      match r with
      | inl code =>
          let$ _ := (if code =? -2 then on_result (fun r => xr_set_redirection_failed r true) else expansion_failed) in
          failing
      | inr redirect =>
          let fds := if bool_decide (rd_kind redirect = CSH_REDIRECT_DUP_READ) || bool_decide (rd_kind redirect = CSH_REDIRECT_DUP_WRITE)
            then [rd_fd redirect; rd_source_fd redirect] else [rd_fd redirect] in
          let$ ok := reserve_begin fds in
          let$ ok := (if ok then jobs_reserve fds (bs "cannot reserve job descriptors") else eret false) in
          let$ save := (if ok then redirect_apply [redirect] reserved else eret None) in
          let$ _ := reserve_end in
          match save with
          | None => let$ _ := on_result (fun r => xr_set_redirection_failed r true) in failing
          | Some save => redirect_each rest store reserved (saves ++ [save]) command
          end
      end
  end.

Definition runtime_redirects (tree : csh_ast) (store : gmap nat redirection) (reserved : list Z) (command : csh_command)
    : E (bool * list (option nat) * csh_command) :=
  if bool_decide (items (redirections tree) = []) then eret (true, [], command) else
  let$ ok := ehost malloc in
  if negb ok then let$ _ := efail (bs "cannot allocate redirection saves") ENOMEM 1 in eret (false, [], command)
  else redirect_each (items (redirections tree)) store reserved [] command.

(** ** Traces *)

(** The prefix of a trace: the expansion of PS4 as of a here-document. *)
Definition trace_prefix (text : str) : E (option csh_fields) :=
  let$ (stack, checks) := ask (fun p n => sys_parsers p n 0%nat) in
  let$ r := (fun x =>
    let '(r, p) := csh_parser_document (turns l) text stack checks (h_proc (sx_host x)) in
    let x := with_host x (with_proc (sx_host x) (allocations (h_proc (sx_host x)) p)) in
    match r with
    | POk r => (EDone r, x)
    | PSpent => (ESpent, x)
    | PFail | PCrash => (EFault, x)
    end) in
  match r with
  | inl e => let$ _ := put_error e in eret None
  | inr (w, store) => prepare_word w store CSH_EXPAND_HEREDOC
  end.

Definition set_tracing (b : bool) : E unit := fun x => (EDone tt, with_tracing x b).

Definition trace_command (command : csh_command) : E unit :=
  let$ info := information in
  let$ x := eget in
  if negb (opt_on (options info) CSH_OPT_XTRACE) || sx_tracing x then eret tt else
  let$ _ := set_tracing true in
  let$ s := state in
  let prefix := default (bs "+ ") (view_value (snd (csh_state_get_variable s (Some (bs "PS4"))))) in
  let$ (fields, _) := own_error (trace_prefix prefix) in
  let$ _ := ehost (csh_write_text STDERR (match fields with Some l => List.hd [] l | None => bs "+ " end)) in
  let$ _ := ehost (
    let* separated := trace_assignments (command_assignments command) false in
    let* _ := trace_arguments (argv command) separated in
    csh_write_text STDERR [10]) in
  set_tracing false.

(** ** Functions and control transfers *)

(** The operand of [break], [continue] and [return] as an unsigned long. *)
Definition control_operand (operand : str) (returning : bool) : option Z :=
  let digits := snd (take_sign operand) in
  if bool_decide (digits = []) then None else
  let '(number, rest, range) := strtol operand in
  if negb (bool_decide (skip_while isdigit digits = [])) || negb (bool_decide (rest = [])) || range || (negb returning && (number <=? 0))
  then None else Some (number mod 2 ^ 64).

Definition control_handler (command : csh_command) (name : str) : E bool :=
  let returning := str_eqb name (bs "return") in
  let refuse text :=
    let$ _ := diagnose name text ENONE in
    let$ _ := on_result (fun r => xr_set_status r 2) in eret true in
  let$ info := information in
  let$ c := context in
  let operands := match tail (argv command) with o :: rest => if str_eqb o (bs "--") then rest else o :: rest | [] => [] end in
  let transfer value :=
    if (returning && (function_depth info =? 0) && (source_depth info =? 0)) || (negb returning && (loop_depth c =? 0))
    then refuse (if returning then bs "not in a function" else bs "not in a loop") else
    let$ _ := on_result (fun r =>
      let r := xr_set_control r
        (if returning then CSH_CONTROL_RETURN else if str_eqb name (bs "break") then CSH_CONTROL_BREAK else CSH_CONTROL_CONTINUE)
        (if returning then 0 else if value >? loop_depth c then loop_depth c else value) in
      xr_set_status r (if returning then Z.land value 255 else 0)) in
    eret true in
  match operands with
  | [] => transfer (if returning then last_status info mod 2 ^ 64 else 1)
  | [operand] =>
      match control_operand operand returning with
      | Some value => transfer value
      | None => refuse (if returning then bs "numeric status required" else bs "positive loop count required")
      end
  | _ => refuse (bs "too many arguments")
  end.

(** The tree of a function object; reading one that was freed is a fault. *)
Definition function_tree (id : Z) : E (csh_ast * gmap nat redirection) := fun x =>
  match p_functions (h_proc (sx_host x)) !! id, sx_trees x !! id with
  | Some _, Some t => (EDone t, x)
  | _, _ => (EFault, x)
  end.

(** The body in a frame of its own: parameters, loops and depth. *)
Definition run_function (plan : execution_plan) (store : gmap nat redirection) (reserved : list Z) (arguments : list str) : E bool :=
  let$ info := information in
  let$ c := context in
  let$ (r, parameters) := on_state (fun s => let* (r, s, save) := csh_state_push_parameters s (Some <$> arguments) in ret (r, save, s)) in
  if negb (bool_decide (r = CSH_STATE_OK)) then efail (bs "cannot save function parameters") ENOMEM 1 else
  let$ _ := change_state (fun s => csh_state_set_function_depth s (function_depth info + 1)) in
  let$ _ := put_context (with_loops c 0) in
  let$ rc := execute_below l (mk_plan CSH_AST_BRACE (pl_tree plan) (pl_children plan) (pl_negated plan) (pl_asynchronous plan)) store reserved in
  let$ _ := change_state (fun s => csh_state_set_function_depth s (function_depth info)) in
  let$ after := context in
  let$ _ := put_context (with_loops after (loop_depth c)) in
  let$ _ := change_state (fun s => csh_state_pop_parameters s parameters) in
  let$ _ := on_result (fun r => if bool_decide (xr_control r = CSH_CONTROL_RETURN) then xr_set_control r CSH_CONTROL_NONE 0 else r) in
  eret rc.

(** A handler without a context has one of its own, which it destroys when it
    gets to its end: the computation says whether it did. *)
Definition with_local {A} (given : bool) (m : E (A * bool)) : E A :=
  if given then let$ (a, _) := m in eret a else
  own_context no_context (
    let$ (a, finished) := m in
    let$ _ := (if finished then csh_execution_context_destroy else eret tt) in
    eret a).

Definition call_function (command : csh_command) (name : str) : E (bool * bool) :=
  let early (m : E bool) := let$ rc := m in eret (rc, false) in
  let$ s := state in
  match csh_state_function s (Some name) with
  | None => early (efail (bs "missing function definition") ENONE 1)
  | Some id =>
      let$ ok := csh_stack_check in
      if negb ok then early (efail (bs "function stack exhausted") ENOMEM 1) else
      let$ _ := ehost (csh_function_retain (Some id)) in
      let$ (tree, store) := function_tree id in
      let$ planned := prepare_plan (Some tree) store in
      let$ rc := match planned with
        | None => eret false
        | Some (plan, reserved) =>
            let$ ok := reserve_begin reserved in
            let$ ok := (if ok then jobs_reserve reserved (bs "cannot reserve function descriptors") else eret false) in
            let$ rc := (if ok then run_function plan store reserved (tail (argv command)) else eret false) in
            let$ _ := reserve_end in
            eret rc
        end in
      let$ _ := on_result (fun r => xr_set_category r CSH_EXEC_FUNCTION) in
      let$ _ := ehost (csh_function_release (Some id)) in
      eret (rc, true)
  end.

Definition flow_handler (command : csh_command) (given : bool) : E bool :=
  let$ name := eopt (argv command !! 0%nat) in
  with_local given (
    if control_name name then let$ rc := control_handler command name in eret (rc, false)
    else call_function command name).

(** A new object with one reference; the table takes another. *)
Definition new_function (tree : csh_ast) (store : gmap nat redirection) : E Z := fun x =>
  let id := sx_next_tree x in
  let p := h_proc (sx_host x) in
  let '(_, p) := set_functions (<[id := 1]> (p_functions p)) p in
  (EDone id, with_trees (with_host x (with_proc (sx_host x) p)) (<[id := (tree, store)]> (sx_trees x)) (id + 1)).

Definition define_function (tree : csh_ast) (store : gmap nat redirection) : E bool :=
  match ast_data tree with
  | Function name _ =>
      let$ fields := prepare_word name store CSH_EXPAND_REDIRECTION in
      match fields with
      | None => eret false
      | Some [name] =>
          if special_name name then efail (bs "invalid function name: special builtin names are reserved") ENONE 2 else
          let$ ok := ehost malloc in
          if negb ok then efail (bs "cannot allocate function definition") ENOMEM 1 else
          let$ id := new_function tree store in
          let$ r := on_state (fun s => csh_state_set_function s (Some name) (Some id)) in
          let$ _ := ehost (csh_function_release (Some id)) in
          if bool_decide (r = CSH_STATE_OK) then eret true
          else efail (bs "cannot store function definition") (if bool_decide (r = CSH_STATE_NOMEM) then ENOMEM else ENONE) 1
      | Some _ => efail (bs "invalid function name: special builtin names are reserved") ENONE 2
      end
  | _ => efault
  end.

(** ** Jobs *)

Definition job_handler (command : csh_command) : E bool :=
  let$ (n, suspended) := on_jobs (fun js => let& (n, suspended, js) := csh_jobs_builtin js (argv command) in jret (n, suspended, js)) in
  let$ _ := on_result (fun r => xr_set_status (if suspended then xr_set_suspended r true else r) n) in
  eret true.

Definition background_setup (redirect_input : bool) : E unit :=
  let$ failed := (if redirect_input then
    let$ fd := efiles (Descriptors.retry (sys_open (bs "/dev/null") (Descriptors.mk_open O_RDONLY false false false false))) in
    match fd with
    | inl e => eret (Some e)
    | inr fd =>
        let$ r := pipeline_connect fd 0 in
        match r with
        | inl e => eret (Some e)
        | inr _ => let$ _ := (if fd =? 0 then eret tt else pipe_close fd) in eret None
        end
    end else eret None) in
  match failed with
  | Some e => let$ _ := diagnose (bs "context") (bs "cannot redirect background input") e in eexit 1
  | None => fun x =>
      let g := put_action (put_action (signals_of x) SIGINT (plain_action SIG_IGN)) SIGQUIT (plain_action SIG_IGN) in
      (EDone tt, with_signals x g)
  end.

(** The pipe ends of the stage that is launched: its input, and the pipe to
    the next stage; -1 is none. *)
Record stage_ends : Type := mk_ends { se_previous : Z; se_input : Z; se_output : Z }.

Definition close_ends (e : stage_ends) : E unit :=
  let$ _ := pipe_close (se_previous e) in
  let$ _ := pipe_close (se_input e) in
  pipe_close (se_output e).

Definition connect_stage (name : str) (e : stage_ends) : E unit :=
  let$ r := pipeline_connect (se_previous e) 0 in
  let$ r := match r with inl e => eret (inl e) | inr _ => pipeline_connect (se_output e) 1 end in
  match r with
  | inl number => let$ _ := diagnose name (bs "cannot connect pipe") number in eexit 1
  | inr _ => close_ends e
  end.

(** The failures in a negated pipeline do not end the shell. *)
Definition ignore_errexit : E unit := change_state (fun s => csh_state_set_errexit_ignored s (errexit_ignored (csh_state_get_info s) + 1)).

(** What a stage of a job does before its command. *)
Definition job_stage (gate : Z * Z) (asynchronous grouped prepared negated first : bool) (e : stage_ends) : E unit :=
  let$ _ := efiles (sys_close (snd gate)) in
  let$ _ := jobs_after_fork asynchronous in
  let$ c := context in
  let$ x := eget in
  let$ _ := (if negb (cx_traps c) then eret tt else
    if prepared then traps_exec_signals false else traps_after_fork (asynchronous && negb grouped) false) in
  let$ _ := (if negated then ignore_errexit else eret tt) in
  let$ received := ask sys_barrier in
  let$ _ := efiles (sys_close (fst gate)) in
  if negb received then eexit 1 else
  let$ _ := (if asynchronous && negb grouped then background_setup first else eret tt) in
  connect_stage (bs "job") e.

(** A computation on the job with the identifier [i]. *)
Definition with_job {A} (i : Z) (f : csh_job -> E A) : E A :=
  let$ x := eget in
  let$ js := eopt (sx_jobs x) in
  let$ j := eopt (find_id js i) in f j.

Definition set_process (i : Z) (index : nat) (pid : Z) : E unit := fun x =>
  match sx_jobs x with
  | None => (EFault, x)
  | Some js =>
      let js := update_job js i (fun j =>
        let ps := alter (fun p => mk_process pid (pstatus p) (done p) (pstopped p)) index (processes j) in
        mk_job (id j) (if pgid j =? 0 then pid else pgid j) ps (text j) (grouped j) (background j) (changed j) (Jobs.reported j) (Jobs.negated j)
          (pipefail j) (job_modes_valid j) (job_modes j)) in
      (EDone tt, with_managers x (Some js) (sx_traps x))
  end.

(** The stages of a job; the ends that are left open, and whether all were
    launched.  [children] are what the stages do after the barrier. *)
Fixpoint launch_stages (children : list (E unit)) (index : nat) (i : Z) (gate : Z * Z) (asynchronous prepared negated : bool) (previous : Z)
    : E (bool * stage_ends) :=
  match children with
  | [] => eret (true, mk_ends previous (-1) (-1))
  | child :: rest =>
      let$ ends := (if bool_decide (rest = []) then eret (inr (-1, -1)) else efiles pipeline_pipe) in
      match ends with
      | inl e => let$ ok := efail (bs "cannot create job pipe") e 1 in eret (ok, mk_ends previous (-1) (-1))
      | inr (input, output) =>
          let e := mk_ends previous input output in
          let$ grouped := with_job i (fun j => eret (grouped j)) in
          let$ forked := fork (let$ _ := job_stage gate asynchronous grouped prepared negated (index =? 0)%nat e in child) in
          match forked with
          | inl number => let$ ok := efail (bs "cannot fork job stage") number 1 in eret (ok, e)
          | inr pid =>
              let$ _ := set_process i index pid in
              let$ group := with_job i (fun j => eret (pgid j)) in
              let$ assigned := (if grouped then setpgid pid group else eret (inr tt)) in
              match assigned with
              | inl number => let$ ok := efail (bs "cannot assign job process group") number 1 in eret (ok, e)
              | inr _ =>
                  let$ _ := pipe_close previous in
                  let$ _ := pipe_close output in
                  launch_stages rest (S index) i gate asynchronous prepared negated input
              end
          end
      end
  end.

(** The signal dispositions around the launch of a job. *)
Definition jobs_fork_signals (recover : bool) : E bool := fun x =>
  match sx_jobs x with
  | None => (EFault, x)
  | Some js =>
      let '(ok, js, g) := csh_jobs_fork_signals js recover (signals_of x) in
      (EDone ok, with_managers (with_signals x g) (Some js) (sx_traps x))
  end.

Definition is_pipeline (plan : option execution_plan) : bool :=
  match plan with Some p => bool_decide (pl_kind p = CSH_AST_PIPELINE) | None => false end.

(** What a failure leaves to the end of [context_job]: the job that was added,
    whether signals are blocked, and the ends that are open. *)
Record job_failure : Type := mk_failure { jf_masked : bool; jf_gate : Z * Z; jf_ends : stage_ends }.

Definition no_ends : stage_ends := mk_ends (-1) (-1) (-1).

(** The launch of the job [i]: the reason that it is to be cancelled. *)
Definition job_launch (i : Z) (children : list (E unit)) (asynchronous prepared negated : bool) : E (option job_failure) :=
  let refuse text number (f : job_failure) : E (option job_failure) := let$ _ := efail text number 1 in eret (Some f) in
  let$ pipe := efiles pipeline_pipe in
  match pipe with
  | inl number => refuse (bs "cannot create launch barrier") number (mk_failure false (-1, -1) no_ends)
  | inr gate =>
      let$ masked := block_signals in
      match masked with
      | Some number => refuse (bs "cannot block job launch signals") number (mk_failure false gate no_ends)
      | None =>
          let$ ok := jobs_fork_signals false in
          if negb ok then refuse (bs "cannot prepare job launch signals") EINVAL (mk_failure true gate no_ends) else
          let$ (ok, ends) := launch_stages children 0 i gate asynchronous prepared negated (-1) in
          if negb ok then eret (Some (mk_failure true gate ends)) else
          let$ ok := (if asynchronous then eret true else on_jobs (fun js => csh_jobs_give_terminal js i false)) in
          if negb ok then let$ number := last_errno in refuse (bs "cannot give terminal to job") number (mk_failure true gate ends) else
          let$ _ := pipe_close (fst gate) in
          let$ _ := pipe_close (snd gate) in
          let$ _ := jobs_fork_signals true in
          if asynchronous then
            let$ pid := with_job i (fun j => eret (last_pid j)) in
            let$ _ := set_state (fun s => csh_state_set_background s pid) in
            let$ x := eget in
            let$ js := eopt (sx_jobs x) in
            let$ _ := with_job i (fun j => ejobs (csh_jobs_announce js j)) in
            let$ _ := on_result (fun r => xr_set_status r 0) in
            eret None
          else
            let$ r := on_jobs (fun js => csh_jobs_foreground js i false) in
            match r with
            | None => let$ number := last_errno in refuse (bs "cannot wait for foreground job") number (mk_failure false (-1, -1) ends)
            | Some (n, suspended) =>
                let$ _ := on_result (fun r => xr_set_suspended (xr_set_status r n) suspended) in
                eret None
            end
      end
  end.

Definition join_words (l : list str) : str := concat (imap (fun i w => (if (i =? 0)%nat then [] else bs " ") ++ w) l).

(** A job of the stages of a plan, each of which is a computation of
    [stages], or of a prepared command. *)
Definition context_job (plan : option execution_plan) (prepared : option csh_command) (asynchronous : bool) (stages : list (E unit)) : E bool :=
  let count := match plan with Some p => if is_pipeline plan then length (pl_children p) else 1%nat | None => 1%nat end in
  let negated := match plan with Some p => is_pipeline plan && pl_negated p | None => false end in
  let$ ok := ehost malloc in
  if negb ok then efail (bs "cannot allocate job launches") ENOMEM 1 else
  let$ _ := on_result (fun r => xr_set_category r (if is_pipeline plan then CSH_EXEC_PIPELINE else CSH_EXEC_EXTERNAL)) in
  let$ (ok, launch) := match prepared with
    | None => eret (true, no_launch)
    | Some command =>
        let$ (ok, save) := assignments_apply command CSH_EXEC_EXTERNAL in
        let$ r := (if ok then launch_prepare command else eret (false, no_launch)) in
        let$ _ := restore_variables save in
        eret r
    end in
  if negb ok then eret false else
  let$ opened := ask sys_stream in
  match opened with
  | Some number => efail (bs "cannot allocate job text") number 1
  | None =>
      let$ text := match plan, prepared with
        | Some p, _ => eopt (plan_text p)
        | None, Some command => eret (join_words (argv command))
        | None, None => efault
        end in
      let$ closed := ask sys_stream in
      match closed with
      | Some number => efail (bs "cannot format job text") number 1
      | None =>
          let$ (job, number) := on_jobs (fun js =>
            let& (r, js) := jlift (let* (a, js) := csh_jobs_add js count text asynchronous negated in ret (a, js)) in jret (r, js)) in
          match job with
          | None => efail (bs "cannot allocate job") number 1
          | Some i =>
              let children := match prepared with Some command => replicate count (launch_child command launch) | None => stages end in
              let$ failed := job_launch i children asynchronous (bool_decide (is_Some prepared)) negated in
              match failed with
              | None => eret true
              | Some f =>
                  let$ _ := close_ends (jf_ends f) in
                  let$ _ := on_jobs (fun js => let& js := csh_jobs_cancel js i in jret (tt, js)) in
                  let$ _ := (if jf_masked f then jobs_fork_signals true else eret true) in
                  let$ _ := pipe_close (fst (jf_gate f)) in
                  let$ _ := pipe_close (snd (jf_gate f)) in
                  eret false
              end
          end
      end
  end.

(** ** Evaluation *)

(** An end before the end of the handler, with [rc]. *)
Definition early (rc : E bool) : E (bool * bool) := let$ rc := rc in eret (rc, false).
Definition finished (rc : E bool) : E (bool * bool) := let$ rc := rc in eret (rc, true).
Definition set_status (n : Z) : E unit := on_result (fun r => xr_set_status r n).

(** The words with a space between any two; [None] when they are too long. *)
Fixpoint eval_length (l : list str) (length : Z) : option Z :=
  match l with
  | [] => Some length
  | w :: rest => if slen w >=? SIZE_MAX - length then None else eval_length rest (length + slen w + 1)
  end.

(** [.] and [eval] on their input, with the positional parameters to put back. *)
Definition evaluate_source (input : csh_error + nat) (sourced : bool) (arguments : list str) : E bool :=
  let$ (rc, id, pushed) := match input with
    | inl e => let$ _ := put_error e in eret (false, None, None)
    | inr id =>
        if bool_decide (arguments = []) then eret (true, Some id, None) else
        let$ (r, parameters) := on_state (fun s => let* (r, s, save) := csh_state_push_parameters s (Some <$> arguments) in ret (r, save, s)) in
        if bool_decide (r = CSH_STATE_OK) then eret (true, Some id, Some parameters)
        else let$ rc := efail (bs "cannot save dot parameters") ENOMEM 1 in eret (rc, Some id, None)
    end in
  let$ rc := match rc, id with
    | true, Some id =>
        let$ info := information in
        let$ _ := (if sourced then change_state (fun s => csh_state_set_source_depth s (source_depth info + 1)) else eret tt) in
        let$ rc := evaluate_input id sourced in
        let$ _ := (if sourced then
          let$ _ := change_state (fun s => csh_state_set_source_depth s (source_depth info)) in
          on_result (fun r => if bool_decide (xr_control r = CSH_CONTROL_RETURN) then xr_set_control r CSH_CONTROL_NONE (xr_levels r) else r)
          else eret tt) in
        eret rc
    | _, _ => eret rc
    end in
  let$ _ := match pushed with Some parameters => change_state (fun s => csh_state_pop_parameters s parameters) | None => eret tt end in
  let$ _ := match id with Some id => einput (fun s => (tt, csh_input_destroy id s)) | None => eret tt end in
  eret rc.

Definition skip_marker (l : list str) : list str :=
  match l with o :: rest => if str_eqb o (bs "--") then rest else l | [] => [] end.

Definition dot_handler (operands : list str) : E (bool * bool) :=
  match skip_marker operands with
  | [] => early (efail (bs "dot requires a file") ENONE 2)
  | name :: arguments =>
      let$ path := lookup_path name false true None in
      match path with
      | None => let$ e := error in early (efail (bs "cannot find readable dot file") (system_errno e) 1)
      | Some path =>
          let$ input := einput (csh_input_from_file (Some path)) in
          finished (evaluate_source input true arguments)
      end
  end.

Definition eval_handler (operands : list str) : E (bool * bool) :=
  match eval_length operands 1 with
  | None => early (efail (bs "eval input too large") ENOMEM 1)
  | Some _ =>
      let$ ok := ehost malloc in
      if negb ok then early (efail (bs "cannot allocate eval input") ENOMEM 1) else
      let$ input := einput (csh_input_from_string (Some (join_words operands)) (Some (bs "eval"))) in
      finished (evaluate_source input false [])
  end.

(** The traps of the context. *)
Definition context_traps (x : shell) : option csh_traps := if cx_traps (sx_context x) then sx_traps x else None.
Definition context_exec_signals (recover : bool) : E unit := fun x =>
  let '(js, g) := csh_jobs_exec_signals (if cx_jobs (sx_context x) then sx_jobs x else None) recover (signals_of x) in
  let g := csh_traps_exec_signals (context_traps x) recover g in
  (EDone tt, with_managers (with_signals x g) (if cx_jobs (sx_context x) then js else sx_jobs x) (sx_traps x)).

Definition exec_handler (command : csh_command) : E (bool * bool) :=
  let operands := tail (argv command) in
  match skip_marker operands with
  | [] => let$ _ := on_result (fun r => xr_set_status (xr_set_retain r true) 0) in early (eret true)
  | words =>
      let marked := negb (length words =? length operands)%nat in
      if negb marked && bool_decide (List.hd_error (List.hd [] words) = Some (ch "-"))
      then early (efail (bs "invalid exec option") ENONE 2) else
      let target := mk_command words (default_path command) (assignments command) (assignment_count command) [] 0 (substitution_status command) in
      let$ (ok, save) := assignments_apply command CSH_EXEC_EXTERNAL in
      let$ (ok, launch) := (if ok then launch_prepare target else eret (false, no_launch)) in
      let$ _ := restore_variables save in
      if negb ok then early (eret false) else
      let$ _ := context_exec_signals false in
      let$ n := launch_replace target launch in
      let$ _ := set_status n in
      let$ _ := context_exec_signals true in
      let$ info := information in
      let$ _ := on_result (fun r => xr_set_exit r (negb (opt_on (options info) CSH_OPT_INTERACTIVE))) in
      finished (eret true)
  end.

(** The options of [command] and [type]: the operands, and whether to report,
    verbosely, and with the default path. *)
Fixpoint lookup_letters (name letters : str) (report verbose defaults : bool) : option (bool * bool * bool) :=
  match letters with
  | [] => Some (report, verbose, defaults)
  | c :: rest =>
      if (c =? ch "p") && str_eqb name (bs "command") then lookup_letters name rest report verbose true
      else if ((c =? ch "v") || (c =? ch "V")) && str_eqb name (bs "command") then lookup_letters name rest true (c =? ch "V") defaults
      else None
  end.

Fixpoint lookup_options (name : str) (args : list str) (report verbose defaults : bool) : option (list str * (bool * bool * bool)) :=
  match args with
  | (c :: ((_ :: _) as letters)) :: rest =>
      if negb (c =? ch "-") then Some (args, (report, verbose, defaults))
      else if str_eqb letters (bs "-") then Some (rest, (report, verbose, defaults))
      else
        match lookup_letters name letters report verbose defaults with
        | Some (report, verbose, defaults) => lookup_options name rest report verbose defaults
        | None => None
        end
  | _ => Some (args, (report, verbose, defaults))
  end.

Fixpoint lookup_reports (utility : str) (names : list str) (verbose defaults : bool) : E unit :=
  match names with
  | [] => eret tt
  | name :: rest =>
      let$ failed := lookup_report utility name verbose defaults in
      let$ _ := (if failed then set_status 1 else eret tt) in
      lookup_reports utility rest verbose defaults
  end.

(** A builtin of jobs.c; [set] is one of them with an option. *)
Definition runs_in_jobs (argv : list str) : bool :=
  match argv with
  | [] => false
  | name :: args =>
      csh_jobs_is_builtin name &&
      (negb (str_eqb name (bs "set")) || match args with a :: _ => negb (str_eqb a (bs "--")) | [] => false end)
  end.

(** The command that [command] names, without functions. *)
Definition run_plain (target : csh_command) (defaults : bool) : E (bool * bool) :=
  let$ name := eopt (argv target !! 0%nat) in
  let$ category := path_builtin_category name defaults None in
  let category := if str_eqb name (bs "exit") || control_name name then CSH_EXEC_SPECIAL_BUILTIN else category in
  let category := if bool_decide (category = CSH_EXEC_SPECIAL_BUILTIN) then CSH_EXEC_REGULAR_BUILTIN else category in
  let$ ok := csh_stack_check in
  if negb ok then early (efail (bs "evaluation stack exhausted") ENOMEM 1) else
  let$ c := context in
  let external := bool_decide (category = CSH_EXEC_EXTERNAL) in
  let$ rc := (
    if cx_jobs c && runs_in_jobs (argv target) then job_handler target
    else if cx_jobs c && external then context_job None (Some target) false []
    else
      let$ (rc, _) := execute_resolved target category (if external then None else Some (handler_below l target true)) None in
      eret rc) in
  let$ _ := on_result (fun r => xr_set_category r CSH_EXEC_REGULAR_BUILTIN) in
  eret (rc, true).

Definition command_handler (command : csh_command) (name : str) : E (bool * bool) :=
  let typed := str_eqb name (bs "type") in
  match lookup_options name (tail (argv command)) typed typed (default_path command) with
  | None =>
      let$ _ := diagnose name (bs "invalid option") ENONE in
      let$ _ := set_status 2 in early (eret true)
  | Some (operands, (report, verbose, defaults)) =>
      let$ _ := set_status 0 in
      if report then let$ _ := lookup_reports name operands verbose defaults in finished (eret true)
      else if bool_decide (operands = []) then finished (eret true)
      else run_plain (mk_command operands defaults [] 0 [] 0 (substitution_status command)) defaults
  end.

(** The names of the cache that stand for programs, with their paths. *)
Fixpoint hash_list (names : list str) : E unit :=
  match names with
  | [] => eret tt
  | name :: rest =>
      let$ category := command_category name None in
      if negb (bool_decide (category = CSH_EXEC_EXTERNAL)) then hash_list rest else
      let$ s := state in
      let$ path := eopt (csh_state_hash_get s name) in
      let$ failed := unwritten [path; [10]] in
      if failed then let$ _ := diagnose (bs "hash") (bs "cannot write output") ENONE in set_status 1
      else hash_list rest
  end.

Fixpoint hash_operands (operands : list str) : E unit :=
  match operands with
  | [] => eret tt
  | operand :: rest =>
      let$ category := command_category operand None in
      if negb (bool_decide (category = CSH_EXEC_EXTERNAL)) || csh_jobs_is_builtin operand then hash_operands rest else
      let$ path := lookup_path operand false false None in
      let$ _ := match path with
        | None => let$ _ := diagnose operand (bs "command not found") ENONE in set_status 1
        | Some path =>
            if existsb (fun c => c =? ch "/") operand then eret tt else
            let$ r := on_state (fun s => csh_state_hash_set s operand (Some path)) in
            if bool_decide (r = CSH_STATE_OK) then eret tt else set_status 1
        end in
      hash_operands rest
  end.

Definition hash_handler (name : str) (operands : list str) : E (bool * bool) :=
  let reset := match operands with o :: _ => str_eqb o (bs "-r") | [] => false end in
  let$ _ := (if reset then change_state csh_state_hash_clear else eret tt) in
  let operands := skip_marker (if reset then tail operands else operands) in
  let option := match operands with o :: _ => bool_decide (List.hd_error o = Some (ch "-")) | [] => false end in
  if option then
    let$ _ := diagnose name (bs "invalid option") ENONE in
    let$ _ := set_status 2 in early (eret true)
  else
  let$ _ := set_status 0 in
  let$ listed := (if bool_decide (operands = []) && negb reset then
    let$ s := state in
    let$ (r, names) := ehost (csh_state_hash_names s) in
    match r, names with
    | CSH_STATE_OK, Some names => let$ _ := hash_list names in eret true
    | _, _ => eret false
    end else eret true) in
  if negb listed then early (efail (bs "cannot list command cache") ENOMEM 1) else
  let$ _ := hash_operands operands in
  finished (eret true).

Definition evaluation_handler (command : csh_command) (given : bool) : E bool :=
  let$ name := eopt (argv command !! 0%nat) in
  with_local given (
    if one_of name [bs "alias"; bs "unalias"] then
      let$ r := alias_handler (str_eqb name (bs "alias")) (argv command) in
      match r with
      | None => early (efail (bs "cannot allocate aliases") ENOMEM 1)
      | Some (n, unflushed) => let$ _ := set_status (if unflushed then 1 else n) in finished (eret true)
      end
    else if str_eqb name (bs "eval") then eval_handler (tail (argv command))
    else if str_eqb name (bs ".") then dot_handler (tail (argv command))
    else if str_eqb name (bs "exec") then exec_handler command
    else if one_of name [bs "command"; bs "type"] then command_handler command name
    else hash_handler name (tail (argv command))).

(** ** The handler of functions and builtins *)

Definition bootstrap_handler (command : csh_command) (given : bool) : E bool :=
  let$ name := eopt (argv command !! 0%nat) in
  let$ r := result in
  if control_name name || bool_decide (xr_category r = CSH_EXEC_FUNCTION) then flow_handler command given else
  if one_of name [bs "."; bs "eval"; bs "exec"; bs "command"; bs "type"; bs "hash"; bs "alias"; bs "unalias"] then
    let$ rc := evaluation_handler command given in
    if rc then eret true else
    let$ e := error in
    let$ _ := set_status (status e) in
    let$ _ := (if Output.reported e then eret tt else report_error) in
    let$ _ := on_result (fun r => if bool_decide (xr_category r = CSH_EXEC_SPECIAL_BUILTIN) then xr_set_special_error r true else r) in
    eret true
  else if one_of name [bs "read"; bs "getopts"; bs "umask"; bs "ulimit"; bs "times"] then
    let$ n := csh_utility_run (argv command) in
    let$ _ := set_status n in eret true
  else if str_eqb name (bs "trap") then
    let$ x := eget in
    let traps := if given then context_traps x else sx_traps x in
    let$ (n, traps', g) := ehost (csh_traps_builtin traps (signals_of x) (argv command)) in
    let$ x := eget in
    let$ _ := eput (with_managers (with_signals x g) (sx_jobs x) (match traps with Some _ => traps' | None => sx_traps x end)) in
    let$ _ := set_status n in eret true
  else if str_eqb name (bs "exit") then
    let$ c := context in
    let$ _ := builtin_exit command (if given && in_trap c then Some (trap_status c) else None) in
    eret true
  else
    let$ n := state_builtin (argv command) in
    let$ _ := set_status n in eret true.

(** ** Simple commands *)

Definition simple_words (tree : csh_ast) : E (list (csh_ast_command_word csh_ast)) :=
  match ast_data tree with Simple words => eret (items words) | _ => efault end.

Definition command_arguments (words : list (csh_ast_command_word csh_ast)) (store : gmap nat redirection) (c : csh_command) : E (bool * csh_command) :=
  with_parsers (fun stacks checks =>
    let$ (r, c) := preparing (fun exec => csh_command_arguments (turns l) stacks checks words store) c in
    eret (match r with inr _ => true | inl _ => false end, c)).

Definition prepared_assignments (words : list (csh_ast_command_word csh_ast)) (store : gmap nat redirection) (c : csh_command) : E (bool * csh_command) :=
  with_parsers (fun stacks checks =>
    let$ (r, c) := preparing (fun exec => csh_command_assignments (turns l) stacks checks words store) c in
    eret (match r with inr _ => true | inl _ => false end, c)).

(** The redirections of a command without words are expanded in a copy of the
    state, which comes back to be destroyed at the end; [None] is a failure
    before that. *)
Definition simple_redirects (tree : csh_ast) (store : gmap nat redirection) (reserved : list Z) (command : csh_command)
    : E (bool * list (option nat) * csh_command * option csh_state) :=
  if bool_decide (argv command = []) && negb (bool_decide (items (redirections tree) = [])) then
    let$ s := state in
    let$ (r, copy) := ehost (csh_state_clone s) in
    match r, copy with
    | CSH_STATE_OK, Some copy =>
        let$ _ := put_state copy in
        let$ x := eget in
        let$ _ := eput (with_cloned x true) in
        let$ r := runtime_redirects tree store reserved command in
        let$ copy := state in
        let$ y := eget in
        let$ _ := eput (with_cloned y (sx_cloned x)) in
        let$ _ := put_state s in
        let$ _ := ehost (csh_state_refresh_locale s) in
        eret (r, Some copy)
    | _, _ =>
        let$ rc := efail (bs "cannot copy redirection environment") ENOMEM 1 in
        eret (rc, [], command, None)
    end
  else let$ r := runtime_redirects tree store reserved command in eret (r, None).

(** The prepared command: where it runs. *)
Definition simple_command (plan : execution_plan) (command : csh_command) (direct : bool) (stage : option csh_pipeline_stage)
    : E (bool * option csh_pipeline_stage) :=
  let$ r := result in
  let$ category := match argv command with
    | [] => eret (xr_category r)
    | name :: _ => command_category name (Some command)
    end in
  let$ _ := on_result (fun r => xr_set_category r category) in
  let$ _ := trace_command command in
  let$ c := context in
  let managed := cx_jobs c && negb (bool_decide (category = CSH_EXEC_FUNCTION)) && runs_in_jobs (argv command) in
  let (category, handler) :=
    if managed then
      (if bool_decide (List.hd_error (argv command) = Some (bs "set")) then CSH_EXEC_SPECIAL_BUILTIN else CSH_EXEC_REGULAR_BUILTIN,
       Some (job_handler command))
    else (category, match category with CSH_EXEC_EMPTY | CSH_EXEC_EXTERNAL => None | _ => Some (bootstrap_handler command true) end) in
  let external := bool_decide (category = CSH_EXEC_EXTERNAL) in
  let$ ready := (if direct && external then
    let$ (ok, launch) := pipeline_launch_prepare command in
    if ok then let$ _ := launch_child command launch in eret true else eret false
    else eret true) in
  if negb ready then eret (false, stage) else
  if negb direct && cx_jobs c && external then let$ rc := context_job (Some plan) (Some command) false [] in eret (rc, stage)
  else execute_resolved command category handler stage.

(** The end of [runtime_simple]; [saves] are the backups of the redirections,
    the first after which [rc] holds. *)
Definition simple_end (rc : bool) (saves : list (option nat)) (copy : option csh_state) (stage : option csh_pipeline_stage)
    : E (bool * option csh_pipeline_stage) :=
  let saved := negb (bool_decide (saves = [])) in
  let$ _ := (if negb rc && saved then report_error else eret tt) in
  let$ r := result in
  let$ saves := (if retain_redirects r && saved then
    let$ _ := foldr (fun save m => let$ _ := redirect_commit save in m) (eret tt) saves in eret (map (fun _ => None) saves)
    else eret saves) in
  let$ _ := on_result (fun r => xr_set_retain r false) in
  let$ ok := restore_redirects saves in
  let rc := rc && ok in
  let$ e := error in
  let$ _ := (if rc then eret tt else set_status (status e)) in
  let$ _ := on_result (fun r => if redirection_failed r && bool_decide (xr_category r = CSH_EXEC_SPECIAL_BUILTIN) then xr_set_special_error r true else r) in
  let$ _ := match copy with Some s => ehost (csh_state_destroy s) | None => eret tt end in
  let$ r := result in
  eret (rc, (fun g => mk_stage (st_pid g) (if st_reaped g then st_status g else xr_status r) (st_wait_status g) (st_reaped g || rc) (st_reaped g) (xr_category r)) <$> stage).

Definition runtime_simple (plan : execution_plan) (store : gmap nat redirection) (reserved : list Z) (direct : bool) (stage : option csh_pipeline_stage)
    : E (bool * option csh_pipeline_stage) :=
  let tree := pl_tree plan in
  let$ words := simple_words tree in
  let$ _ := on_result (fun _ => no_execution) in
  let$ (ok, command) := command_arguments words store no_command in
  if negb ok then let$ _ := expansion_failed in simple_end false [] None stage else
  let$ valid := command_validate command in
  match valid with
  | None => simple_end false [] None stage
  | Some category =>
      let$ _ := on_result (fun r => xr_set_category r category) in
      let$ (redirected, saves, command, copy) := simple_redirects tree store reserved command in
      if negb redirected then simple_end false saves copy stage else
      let$ (ok, command) := prepared_assignments words store command in
      if negb ok then let$ _ := expansion_failed in simple_end false saves copy stage else
      let$ (rc, stage) := simple_command plan command direct stage in
      simple_end rc saves copy stage
  end.

(** ** Child processes *)

(** A child that runs a plan and exits; [managed] says whether it has a job
    manager of its own. *)
Definition context_child (plan : execution_plan) (store : gmap nat redirection) (reserved : list Z) (managed : bool) : E unit :=
  let$ x := eget in
  let traps := bool_decide (is_Some (context_traps x)) in
  let$ _ := put_context (child_context false traps) in
  let$ _ := redirect_child in
  let$ _ := update_options 0 CSH_OPT_INTERACTIVE in
  let$ _ := (if managed then
    let$ s := state in
    let$ js := ejobs (csh_jobs_manage s sys_child_max sys_group) in
    match js with
    | None => let$ number := last_errno in let$ _ := diagnose (bs "context") (bs "cannot initialize child jobs") number in eexit 1
    | Some js =>
        let$ x := eget in
        let$ _ := eput (with_process_state (with_managers x (Some js) (sx_traps x)) (jstate js)) in
        put_context (child_context true traps)
    end else eret tt) in
  let$ ok := (if bool_decide (pl_kind plan = CSH_AST_SIMPLE)
    then let$ (ok, _) := runtime_simple plan store reserved true None in eret ok
    else execute_below l plan store reserved) in
  let$ _ := diagnose_failure (bs "context") ok in
  child_end traps.

(** [csh_traps_after_fork(context->traps, asynchronous, 0)] *)
Definition context_after_fork (asynchronous : bool) : E unit :=
  let$ c := context in if cx_traps c then traps_after_fork asynchronous false else eret tt.

Definition context_wait (pid : Z) : E bool :=
  let$ r := stage_wait (mk_stage pid 0 0 false false CSH_EXEC_EMPTY) in
  match r with
  | inr g => let$ _ := set_status (st_status g) in eret true
  | inl number =>
      let$ _ := kill_process pid SIGKILL in
      let$ _ := stage_wait (mk_stage pid 0 0 false false CSH_EXEC_EMPTY) in
      efail (bs "cannot wait for execution context") number 1
  end.

(** ** Pipelines of a context *)

(** What the loop over the stages has so far. *)
Record pipeline_launch : Type := mk_launching {
  pn_stages : list csh_pipeline_stage; pn_pending : list Z; pn_ends : stage_ends }.

Definition pipeline_stage (child : E unit) (index : nat) (asynchronous negated : bool) (e : stage_ends) : E unit :=
  let$ _ := context_after_fork asynchronous in
  let$ _ := (if asynchronous then background_setup (index =? 0)%nat else eret tt) in
  let$ _ := connect_stage (bs "pipeline") e in
  let$ _ := (if negated then ignore_errexit else eret tt) in
  child.

Fixpoint pipeline_stages (children : list (E unit)) (index : nat) (asynchronous negated : bool) (n : pipeline_launch) : E (bool * pipeline_launch) :=
  match children with
  | [] => eret (true, n)
  | child :: rest =>
      let refuse text number (n : pipeline_launch) : E (bool * pipeline_launch) := let$ ok := efail text number 1 in eret (ok, n) in
      let$ ok := (if asynchronous then ehost malloc else eret true) in
      if negb ok then refuse (bs "cannot allocate background child") ENOMEM n else
      let previous := se_previous (pn_ends n) in
      let waiting pid := if asynchronous then pid :: pn_pending n else pn_pending n in
      let$ pipe := (if bool_decide (rest = []) then eret (inr (-1, -1)) else efiles pipeline_pipe) in
      match pipe with
      | inl number => refuse (bs "cannot create pipeline pipe") number n
      | inr (input, output) =>
          let e := mk_ends previous input output in
          let open := mk_launching (pn_stages n) (waiting 0) e in
          let$ masked := block_signals in
          match masked with
          | Some number => refuse (bs "cannot block pipeline signals") number open
          | None =>
              let$ forked := fork (pipeline_stage child index asynchronous negated e) in
              match forked with
              | inl number => refuse (bs "cannot fork pipeline stage") number open
              | inr pid =>
                  let$ _ := pipe_close previous in
                  let$ _ := pipe_close output in
                  let stages := alter (fun g => mk_stage pid (st_status g) (st_wait_status g) (st_completed g) (st_reaped g) (st_category g)) index (pn_stages n) in
                  pipeline_stages rest (S index) asynchronous negated (mk_launching stages (waiting pid) (mk_ends input (-1) (-1)))
              end
          end
      end
  end.

(** The stages up to the one whose wait fails, or all of them. *)
Fixpoint wait_stages (l : list csh_pipeline_stage) : E (option errno * list csh_pipeline_stage) :=
  match l with
  | [] => eret (None, [])
  | g :: rest =>
      let$ r := stage_wait g in
      match r with
      | inl number => eret (Some number, g :: rest)
      | inr g => let$ (failed, rest) := wait_stages rest in eret (failed, g :: rest)
      end
  end.

(** The status of a pipeline: that of its last stage, or of the last stage
    that failed. *)
Definition pipeline_status (stages : list csh_pipeline_stage) (pipefail : bool) : Z :=
  let last := default 0 (st_status <$> List.last (Some <$> stages) None) in
  if pipefail then foldl (fun n g => if st_status g =? 0 then n else st_status g) last stages else last.

(** The result, and the stages when there were any processes. *)
Definition context_pipeline (plan : execution_plan) (store : gmap nat redirection) (reserved : list Z) (asynchronous : bool)
    : E (bool * option (list csh_pipeline_stage)) :=
  let$ initial := information in
  let count := length (pl_children plan) in
  match pl_children plan with
  | [child] =>
      let$ rc := execute_below l child store reserved in
      let$ _ := on_result (fun r =>
        if rc && pl_negated plan && negb (exit_requested r) && bool_decide (xr_control r = CSH_CONTROL_NONE)
        then xr_set_status r (if xr_status r =? 0 then 1 else 0) else r) in
      eret (rc, None)
  | _ =>
      let$ c := context in
      if cx_jobs c then
        let$ rc := context_job (Some plan) None asynchronous ((fun p => context_child p store reserved true) <$> pl_children plan) in
        eret (rc, None)
      else
      let$ ok := ehost malloc in
      if negb ok then let$ rc := efail (bs "cannot allocate pipeline stages") ENOMEM 1 in eret (rc, None) else
      let children := (fun p => context_child p store reserved false) <$> pl_children plan in
      let start := mk_launching (replicate count (mk_stage 0 0 0 false false CSH_EXEC_UNRESOLVED)) [] no_ends in
      let cancel (n : pipeline_launch) : E (bool * option (list csh_pipeline_stage)) :=
        let$ _ := close_ends (pn_ends n) in
        let$ stages := pipeline_cancel (pn_stages n) in
        eret (false, Some stages) in
      let$ (ok, n) := pipeline_stages children 0 asynchronous (pl_negated plan) start in
      if negb ok then cancel n else
      if asynchronous then
        let$ _ := set_state (fun s => csh_state_set_background s (default 0 (st_pid <$> List.last (Some <$> pn_stages n) None))) in
        let$ c := context in
        let$ _ := put_context (with_background_children c (foldl (fun l pid => pid :: l) (cx_children c) (pn_pending n))) in
        let$ _ := on_result (fun r => xr_set_status (xr_set_category r CSH_EXEC_PIPELINE) 0) in
        let$ _ := set_state (fun s => csh_state_set_status s 0) in
        eret (true, Some (pn_stages n))
      else
        let$ (failed, stages) := wait_stages (pn_stages n) in
        match failed with
        | Some number =>
            let$ _ := efail (bs "cannot wait for pipeline stage") number 1 in
            cancel (mk_launching stages (pn_pending n) (pn_ends n))
        | None =>
            let status := pipeline_status stages (opt_on (options initial) CSH_OPT_PIPEFAIL) in
            let$ _ := on_result (fun r => xr_set_category r CSH_EXEC_PIPELINE) in
            let$ _ := set_status (if pl_negated plan then (if status =? 0 then 1 else 0) else status) in
            eret (true, Some stages)
        end
  end.

Definition context_fork (plan : execution_plan) (store : gmap nat redirection) (reserved : list Z) (asynchronous : bool) : E bool :=
  let$ c := context in
  let pipeline := bool_decide (pl_kind plan = CSH_AST_PIPELINE) in
  if cx_jobs c then
    context_job (Some plan) None asynchronous
      (if pipeline then (fun p => context_child p store reserved true) <$> pl_children plan else [context_child plan store reserved true])
  else if asynchronous && pipeline && (1 <? length (pl_children plan))%nat then
    let$ (rc, _) := context_pipeline plan store reserved true in eret rc
  else
    let$ ok := (if asynchronous then ehost malloc else eret true) in
    if negb ok then efail (bs "cannot allocate background child") ENOMEM 1 else
    let$ masked := block_signals in
    match masked with
    | Some number => efail (bs "cannot block execution signals") number 1
    | None =>
        let$ forked := fork (
          let$ _ := context_after_fork asynchronous in
          let$ _ := (if asynchronous then background_setup true else eret tt) in
          context_child plan store reserved false) in
        match forked with
        | inl number => efail (bs "cannot fork execution context") number 1
        | inr pid =>
            if asynchronous then
              let$ c := context in
              let$ _ := put_context (with_background_children c (pid :: cx_children c)) in
              let$ _ := set_state (fun s => csh_state_set_background s pid) in
              let$ _ := set_status 0 in
              let$ _ := set_state (fun s => csh_state_set_status s 0) in
              eret true
            else context_wait pid
        end
    end.

(** ** Compound commands *)

(** What a loop does with a transfer of control. *)
Inductive transfer : Type := TNone | TLeave | TContinue.

(** [levels] is unsigned. *)
Definition loop_transfer : E transfer :=
  let$ r := result in
  match xr_control r with
  | CSH_CONTROL_BREAK | CSH_CONTROL_CONTINUE =>
      let levels := (xr_levels r - 1) mod 2 ^ 32 in
      let$ _ := on_result (fun r => xr_set_control r (xr_control r) levels) in
      if negb (levels =? 0) then eret TLeave else
      let$ _ := on_result (fun r => xr_set_control r CSH_CONTROL_NONE levels) in
      eret (if bool_decide (xr_control r = CSH_CONTROL_CONTINUE) then TContinue else TLeave)
  | _ => eret TNone
  end.

(** Whether a loop ends after a part of it. *)
Definition loop_ends (rc : bool) (t : transfer) : E bool :=
  match rc, t with
  | false, _ | _, TLeave => eret true
  | true, _ => halted
  end.

Definition execute_test (plan : execution_plan) (store : gmap nat redirection) (reserved : list Z) : E bool :=
  let$ info := information in
  let$ _ := change_state (fun s => csh_state_set_errexit_ignored s (errexit_ignored info + 1)) in
  let$ rc := execute_below l plan store reserved in
  let$ _ := change_state (fun s => csh_state_set_errexit_ignored s (errexit_ignored info)) in
  eret rc.

(** One loop more, then one less. *)
Definition enter_loop : E unit := let$ c := context in put_context (with_loops c (loop_depth c + 1)).
Definition leave_loop : E unit := let$ c := context in put_context (with_loops c (loop_depth c - 1)).

(** The branches with their conditions and bodies in turn, then the body of
    [else]. *)
Fixpoint if_loop (branches : nat) (children : list execution_plan) (has_else : bool) (store : gmap nat redirection) (reserved : list Z) : E bool :=
  match branches, children with
  | O, _ =>
      if has_else then let$ p := eopt (List.last (Some <$> children) None) in execute_below l p store reserved
      else let$ _ := set_status 0 in eret true
  | S n, condition :: body :: rest =>
      let$ rc := execute_test condition store reserved in
      let$ stop := (if rc then halted else eret true) in
      if stop then eret rc else
      let$ r := result in
      if xr_status r =? 0 then execute_below l body store reserved else if_loop n rest has_else store reserved
  | S _, _ => efault
  end.

(** [last] and [ignored] are of the last turn. *)
Fixpoint while_loop (n : nat) (wanted : bool) (condition body : execution_plan) (store : gmap nat redirection) (reserved : list Z) (last : Z) (ignored : bool)
    : E bool :=
  match n with
  | O => espent
  | S n =>
      let$ rc := execute_test condition store reserved in
      let$ t := loop_transfer in
      let$ stop := loop_ends rc t in
      if stop then eret rc else
      match t with
      | TContinue => while_loop n wanted condition body store reserved last ignored
      | _ =>
          let$ r := result in
          if negb (eqb (xr_status r =? 0) wanted) then
            let$ _ := on_result (fun r => xr_set_ignored (xr_set_status r last) ignored) in
            eret rc
          else
            let$ rc := execute_below l body store reserved in
            let$ r := result in
            let$ t := loop_transfer in
            let$ stop := loop_ends rc t in
            if stop then eret rc else while_loop n wanted condition body store reserved (xr_status r) (xr_errexit_ignored r)
      end
  end.

Fixpoint expand_words (l : list word) (store : gmap nat redirection) (words : list str) : E (option (list str)) :=
  match l with
  | [] => eret (Some words)
  | w :: rest =>
      let$ fields := prepare_word (w) store CSH_EXPAND_ARGUMENT in
      match fields with
      | None => eret None
      | Some fields =>
          let$ ok := (if Z.of_nat (length fields) >=? SIZE_MAX / 8 - Z.of_nat (length words) then eret false else ehost malloc) in
          if ok then expand_words rest store (words ++ fields)
          else let$ _ := efail (bs "cannot allocate loop words") ENOMEM 1 in eret None
      end
  end.

(** Copies of [n] positional parameters from [index] on. *)
Fixpoint copy_words (n : nat) (index : Z) : E (option (list str)) :=
  match n with
  | O => eret (Some [])
  | S n =>
      let$ s := state in
      let$ w := eopt (csh_state_parameter s index) in
      let$ ok := ehost malloc in
      if negb ok then let$ _ := efail (bs "cannot copy loop word") ENOMEM 1 in eret None else
      let$ rest := copy_words n (index + 1) in eret (cons w <$> rest)
  end.

Definition loop_words (words : list word) (has_in : bool) (store : gmap nat redirection) : E (option (list str)) :=
  if has_in then expand_words words store [] else
  let$ ok := ehost malloc in
  if negb ok then let$ _ := efail (bs "cannot allocate loop words") ENOMEM 1 in eret None else
  let$ info := information in copy_words (Z.to_nat (argument_count info)) 1.

Fixpoint for_loop (name : str) (words : list str) (body : execution_plan) (store : gmap nat redirection) (reserved : list Z) (rc : bool) : E bool :=
  match words with
  | [] => eret rc
  | word :: rest =>
      let$ assigned := on_state (fun s => csh_state_set_variable s (Some name) (Some word)) in
      let$ info := information in
      let$ assigned := (if bool_decide (assigned = CSH_STATE_OK) && opt_on (options info) CSH_OPT_ALLEXPORT
        then on_state (fun s => csh_state_update_attributes s (Some name) CSH_VAR_EXPORT 0) else eret assigned) in
      if negb (bool_decide (assigned = CSH_STATE_OK))
      then efail (bs "cannot assign loop variable") (if bool_decide (assigned = CSH_STATE_NOMEM) then ENOMEM else ENONE) 1
      else
        let$ rc := execute_below l body store reserved in
        let$ t := loop_transfer in
        let$ stop := loop_ends rc t in
        if stop then eret rc else for_loop name rest body store reserved rc
  end.

(** Whether one of the patterns matches; [None] is a failure. *)
Fixpoint match_patterns (l : list word) (word : str) (store : gmap nat redirection) : E (option bool) :=
  match l with
  | [] => eret (Some false)
  | w :: rest =>
      let$ pattern := prepare_word (w) store CSH_EXPAND_PATTERN in
      match pattern with
      | None => eret None
      | Some fields => if fn_match_all (List.hd [] fields) word then eret (Some true) else match_patterns rest word store
      end
  end.

Fixpoint case_loop (l_items : list (csh_ast_case_item csh_ast)) (children : list execution_plan) (word : str) (fallthrough : bool)
    (store : gmap nat redirection) (reserved : list Z) : E bool :=
  match l_items, children with
  | [], _ => eret true
  | item :: rest, child :: others =>
      let$ matched := (if fallthrough then eret (Some true) else match_patterns (items (patterns item)) word store) in
      match matched with
      | None => eret false
      | Some false => case_loop rest others word fallthrough store reserved
      | Some true =>
          let$ rc := (if bool_decide (pl_children child = []) then eret true else execute_below l child store reserved) in
          let$ stop := (if rc then halted else eret true) in
          if stop || (match terminator item with CSH_AST_CASE_FALLTHROUGH => false | _ => true end) then eret rc
          else case_loop rest others word true store reserved
      end
  | _ :: _, [] => efault
  end.

Definition compound_body (plan : execution_plan) (store : gmap nat redirection) (reserved : list Z) : E bool :=
  match pl_kind plan, ast_data (pl_tree plan) with
  | CSH_AST_IF, If branches else_body =>
      if_loop (length (items branches)) (pl_children plan) (bool_decide (is_Some else_body)) store reserved
  | CSH_AST_WHILE, _ | CSH_AST_UNTIL, _ =>
      match pl_children plan with
      | [condition; body] =>
          let$ _ := enter_loop in
          let$ rc := while_loop (turns l) (bool_decide (pl_kind plan = CSH_AST_WHILE)) condition body store reserved 0 false in
          let$ _ := leave_loop in
          eret rc
      | _ => efault
      end
  | CSH_AST_FOR, For name words has_in _ =>
      let$ fields := prepare_word (name) store CSH_EXPAND_REDIRECTION in
      match fields with
      | None => eret false
      | Some [name] =>
          let$ words := loop_words (items words) has_in store in
          match words, pl_children plan with
          | None, _ => eret false
          | Some words, [body] =>
              let$ _ := enter_loop in
              let$ rc := for_loop name words body store reserved true in
              let$ _ := leave_loop in
              eret rc
          | _, _ => efault
          end
      | Some _ => efail (bs "invalid loop name") ENONE 2
      end
  | CSH_AST_CASE, Case word l_items =>
      let$ fields := prepare_word (word) store CSH_EXPAND_REDIRECTION in
      match fields with
      | None => eret false
      | Some fields => case_loop (items l_items) (pl_children plan) (List.hd [] fields) false store reserved
      end
  | _, _ => efail (bs "invalid compound command") ENONE 2
  end.

(** ** Plans *)

Fixpoint execute_list (children : list execution_plan) (store : gmap nat redirection) (reserved : list Z) (rc : bool) : E bool :=
  match children with
  | [] => eret rc
  | p :: rest =>
      let$ rc := (if pl_asynchronous p
        then let$ _ := on_result (fun _ => no_execution) in context_fork p store reserved true
        else execute_below l p store reserved) in
      let$ stop := (if rc then halted else eret true) in
      if stop then eret rc else
      let$ reaped := csh_execution_context_reap false in
      if reaped then execute_list rest store reserved rc else eret false
  end.

(** The commands of each kind. *)
Definition execute_kind (plan : execution_plan) (store : gmap nat redirection) (reserved : list Z) : E bool :=
  let tree := pl_tree plan in
  match pl_kind plan with
  | CSH_AST_SIMPLE => let$ (rc, _) := runtime_simple plan store reserved false None in eret rc
  | CSH_AST_LIST => execute_list (pl_children plan) store reserved true
  | CSH_AST_AND | CSH_AST_OR =>
      match pl_children plan with
      | [left_plan; right_plan] =>
          let$ rc := execute_test left_plan store reserved in
          let$ stop := (if rc then halted else eret true) in
          let$ r := result in
          if stop || negb (eqb (bool_decide (pl_kind plan = CSH_AST_AND)) (xr_status r =? 0)) then eret rc
          else execute_below l right_plan store reserved
      | _ => efault
      end
  | CSH_AST_SUBSHELL =>
      context_fork (mk_plan CSH_AST_BRACE tree (pl_children plan) (pl_negated plan) (pl_asynchronous plan)) store reserved false
  | CSH_AST_FUNCTION =>
      let$ rc := define_function tree store in
      let$ _ := (if rc then eret tt else expansion_failed) in
      eret rc
  | CSH_AST_IF | CSH_AST_FOR | CSH_AST_WHILE | CSH_AST_UNTIL | CSH_AST_CASE | CSH_AST_BRACE =>
      let$ (redirected, saves, _) := runtime_redirects tree store reserved no_command in
      if negb redirected then eret false else
      let$ rc := match pl_kind plan, pl_children plan with
        | CSH_AST_BRACE, child :: _ => execute_below l child store reserved
        | CSH_AST_BRACE, [] => efault
        | _, _ => compound_body plan store reserved
        end in
      let$ _ := (if rc then eret tt else let$ _ := expansion_failed in report_error) in
      let$ restored := restore_redirects saves in
      eret (rc && restored)
  | CSH_AST_PIPELINE =>
      let$ before := information in
      let$ _ := (if pl_negated plan then ignore_errexit else eret tt) in
      let$ (rc, _) := context_pipeline plan store reserved false in
      let$ _ := change_state (fun s => csh_state_set_errexit_ignored s (errexit_ignored before)) in
      let$ _ := (if pl_negated plan then on_result (fun r => xr_set_ignored r true) else eret tt) in
      eret rc
  end.

(** The end of a plan, from the result of its command on. *)
Definition plan_end (kind : csh_ast_kind) (rc : bool) : E bool :=
  let$ e := error in
  let$ _ := (if rc then eret tt else set_status (status e)) in
  let$ r := result in
  let$ rc := (if negb rc && redirection_failed r then
    let$ _ := report_error in
    let$ _ := put_error no_error in
    let$ _ := on_result (fun r => xr_set_redirection_failed r false) in
    eret true else eret rc) in
  let$ _ := apply_errexit kind in
  let$ r := result in
  let$ _ := set_state (fun s => csh_state_set_status s (xr_status r)) in
  let$ c := context in
  if cx_traps c && negb (dispatching_traps c)
  then let$ ok := csh_execute_pending_traps in eret (rc && ok)
  else eret rc.

Definition execute_plan (plan : execution_plan) (store : gmap nat redirection) (reserved : list Z) : E bool :=
  let$ _ := on_result (fun _ => no_execution) in
  let$ _ := put_error no_error in
  let$ ok := csh_stack_check in
  if negb ok then
    let$ _ := set_status 1 in
    let$ _ := expansion_failed in
    efail (bs "execution stack exhausted") ENOMEM 1
  else
  let$ info := information in
  if opt_on (options info) CSH_OPT_NOEXEC then let$ _ := set_status (last_status info) in eret true else
  let$ rc := execute_kind plan store reserved in
  plan_end (pl_kind plan) rc.
End Level.

(** ** All levels *)

Fixpoint level_at (n : nat) : level :=
  match n with
  | O => mk_level (fun _ _ _ => espent) (fun _ _ => espent) 0
  | S n => let l := level_at n in mk_level (execute_plan l) (bootstrap_handler l) (S n)
  end.

(** ** Prepared commands and trees *)

Section Entries.
Context (fuel : nat).
Abbreviation l := (level_at fuel) (only parsing).

(** The handler of a command of this category, without a context. *)
Definition handler_of (command : csh_command) (category : csh_execution_category) : option (E bool) :=
  match category with CSH_EXEC_EMPTY | CSH_EXEC_EXTERNAL => None | _ => Some (bootstrap_handler l command false) end.

Definition csh_execute_command (command : csh_command) : E bool :=
  let$ valid := command_validate command in
  match valid with
  | None =>
      let$ e := error in
      let$ _ := on_result (fun _ => xr_set_status no_execution (status e)) in
      let$ _ := set_state (fun s => csh_state_set_status s (status e)) in
      eret false
  | Some category => let$ (rc, _) := execute_resolved command category (handler_of command category) None in eret rc
  end.

(** The child of a pipeline stage. *)
Definition pipeline_child (command : csh_command) (launch : launch) (category : csh_execution_category) (e : stage_ends) : E unit :=
  let external := bool_decide (category = CSH_EXEC_EXTERNAL) in
  let$ _ := jobs_after_fork false in
  let$ _ := (if external then traps_exec_signals false else traps_after_fork false false) in
  let$ _ := connect_stage (bs "pipeline") e in
  let$ _ := (if external then launch_child command launch else eret tt) in
  let$ ok := csh_execute_command command in
  let$ e := error in
  let$ _ := (if ok then eret tt else diagnose (bs "pipeline") (default [] (message e)) (system_errno e)) in
  let$ r := result in
  eexit (xr_status r).

(** Whether all are valid, and the stages with the categories so far. *)
Fixpoint validate_commands (commands : list csh_command) : E (bool * list csh_pipeline_stage) :=
  match commands with
  | [] => eret (true, [])
  | c :: rest =>
      let$ valid := command_validate c in
      match valid with
      | None => eret (false, replicate (S (length rest)) no_stage)
      | Some category =>
          let$ (ok, stages) := validate_commands rest in
          eret (ok, mk_stage 0 0 0 false false category :: stages)
      end
  end.

Fixpoint prepare_launches (l : list (csh_command * csh_execution_category)) : E (option (list launch)) :=
  match l with
  | [] => eret (Some [])
  | (c, category) :: rest =>
      let$ (ok, launch) := (if bool_decide (category = CSH_EXEC_EXTERNAL) then pipeline_launch_prepare c else eret (true, no_launch)) in
      if negb ok then eret None else
      let$ rest := prepare_launches rest in eret (cons launch <$> rest)
  end.

(** The launch of each stage: whether it went well, the stages and the ends
    that are open. *)
Fixpoint launch_pipeline (l : list (csh_command * launch)) (index : nat) (previous : Z) (stages : list csh_pipeline_stage)
    : E (bool * list csh_pipeline_stage * stage_ends) :=
  match l with
  | [] => eret (true, stages, mk_ends previous (-1) (-1))
  | (command, launch) :: rest =>
      let$ pipe := (if bool_decide (rest = []) then eret (inr (-1, -1)) else efiles pipeline_pipe) in
      match pipe with
      | inl number => let$ ok := efail (bs "cannot create pipeline pipe") number 1 in eret (ok, stages, mk_ends previous (-1) (-1))
      | inr (input, output) =>
          let e := mk_ends previous input output in
          let$ g := eopt (stages !! index) in
          let$ forked := fork (pipeline_child command launch (st_category g) e) in
          match forked with
          | inl number => let$ ok := efail (bs "cannot fork pipeline stage") number 1 in eret (ok, stages, e)
          | inr pid =>
              let$ _ := pipe_close previous in
              let$ _ := pipe_close output in
              launch_pipeline rest (S index) input
                (<[index := mk_stage pid (st_status g) (st_wait_status g) (st_completed g) (st_reaped g) (st_category g)]> stages)
          end
      end
  end.

(** Commands one by one, or as a pipeline of children. *)
Definition run_pipeline (commands : list csh_command) (stages : list csh_pipeline_stage) (pipefail : bool) : E (bool * list csh_pipeline_stage) :=
  let failing (m : E bool) := let$ rc := m in eret (rc, stages) in
  match commands, stages with
  | [command], [g] =>
      let$ (rc, stage) := execute_resolved command (st_category g) (handler_of command (st_category g)) (Some g) in
      let$ r := result in
      let g := default g stage in
      let g := mk_stage (st_pid g) (if st_reaped g then st_status g else xr_status r) (st_wait_status g) (st_reaped g || rc) (st_reaped g) (st_category g) in
      if rc then eret (rc, [g]) else let$ stages := pipeline_cancel [g] in eret (rc, stages)
  | _, _ =>
      let$ ok := ehost malloc in
      if negb ok then failing (efail (bs "cannot allocate pipeline launches") ENOMEM 1) else
      let$ launches := prepare_launches (zip commands (st_category <$> stages)) in
      match launches with
      | None => eret (false, stages)
      | Some launches =>
          let$ (ok, stages, ends) := launch_pipeline (zip commands launches) 0 (-1) stages in
          let$ (failed, stages) := (if ok then
            let$ (failed, stages) := wait_stages stages in
            match failed with
            | Some number => let$ ok := efail (bs "cannot wait for pipeline stage") number 1 in eret (negb ok, stages)
            | None => eret (false, stages)
            end else eret (true, stages)) in
          if failed then
            let$ _ := close_ends ends in
            let$ stages := pipeline_cancel stages in
            eret (false, stages)
          else
            let$ _ := set_status (pipeline_status stages pipefail) in
            eret (true, stages)
      end
  end.

Definition sizeof_stage : Z := 24.
Definition sizeof_launch : Z := 32.

Definition csh_execute_pipeline (commands : list csh_command) (negated : bool) : E (bool * list csh_pipeline_stage) :=
  let$ initial := information in
  let count := Z.of_nat (length commands) in
  let$ _ := put_error no_error in
  let$ _ := on_result (fun _ => xr_set_category no_execution CSH_EXEC_PIPELINE) in
  let failing (m : E bool) : E (bool * list csh_pipeline_stage) := let$ rc := m in eret (rc, []) in
  let$ (rc, stages) := (
    if bool_decide (commands = []) then failing (efail (bs "invalid pipeline input") ENONE 2) else
    if (count >? SIZE_MAX / sizeof_stage) || (count >? SIZE_MAX / sizeof_launch) then failing (efail (bs "pipeline is too large") ENOMEM 1) else
    let$ ok := ehost malloc in
    if negb ok then failing (efail (bs "cannot allocate pipeline stages") ENOMEM 1) else
    let$ (valid, stages) := validate_commands commands in
    if negb valid then eret (false, stages)
    else run_pipeline commands stages (opt_on (options initial) CSH_OPT_PIPEFAIL)) in
  let$ e := error in
  let$ _ := on_result (fun r =>
    if negb rc then xr_set_status r (status e)
    else if negated && negb (exit_requested r) && bool_decide (xr_control r = CSH_CONTROL_NONE)
    then xr_set_status r (if xr_status r =? 0 then 1 else 0) else r) in
  let$ r := result in
  let$ _ := set_state (fun s => csh_state_set_status s (xr_status r)) in
  eret (rc, stages).

Definition csh_execute_resolved (command : csh_command) (category : csh_execution_category) (handler : option (E bool)) : E bool :=
  let$ (rc, _) := execute_resolved command category handler None in eret rc.

(** A tree that is a list of one command without the mark for the background. *)
Definition single_command (tree : csh_ast) : csh_ast :=
  match ast_data tree, items (redirections tree) with
  | List l, [] => match items l with [i] => if bool_decide (separator i = CSH_AST_AMPERSAND) then tree else it_command i | _ => tree end
  | _, _ => tree
  end.

(** The command of a plan for a simple command or a pipeline. *)
Definition run_foreground (plan : execution_plan) (store : gmap nat redirection) (reserved : list Z) (before : Z) : E (bool * list csh_pipeline_stage) :=
  let$ _ := (if pl_negated plan then change_state (fun s => csh_state_set_errexit_ignored s (before + 1)) else eret tt) in
  if bool_decide (pl_kind plan = CSH_AST_PIPELINE) && (1 <? length (pl_children plan))%nat then
    let$ (rc, stages) := context_pipeline l plan store reserved false in eret (rc, default [] stages)
  else
    let$ ok := ehost malloc in
    if negb ok then let$ rc := efail (bs "cannot allocate pipeline stage") ENOMEM 1 in eret (rc, []) else
    let$ simple := match pl_kind plan with
      | CSH_AST_SIMPLE => eret plan
      | _ => eopt (pl_children plan !! 0%nat)
      end in
    let$ (rc, stage) := (if bool_decide (pl_kind simple = CSH_AST_SIMPLE) then runtime_simple l simple store reserved false (Some no_stage)
      else
        let$ rc := execute_below l simple store reserved in
        let$ r := result in
        eret (rc, Some (mk_stage 0 (xr_status r) 0 rc false CSH_EXEC_EMPTY))) in
    let$ _ := on_result (fun r =>
      if rc && pl_negated plan && negb (exit_requested r) && bool_decide (xr_control r = CSH_CONTROL_NONE)
      then xr_set_status r (if xr_status r =? 0 then 1 else 0) else r) in
    eret (rc, match stage with Some g => [g] | None => [] end).

(** The end of [csh_execute_pipeline_ast]; [plan] is there when it was executed. *)
Definition foreground_end (rc : bool) (plan : option execution_plan) (before : Z) : E bool :=
  let$ r := result in
  let$ rc := (if negb rc && redirection_failed r && bool_decide (xr_category r = CSH_EXEC_EXTERNAL) then
    let$ _ := diagnose_failure (bs "command") false in
    let$ _ := put_error no_error in
    eret true else eret rc) in
  let$ _ := change_state (fun s => csh_state_set_errexit_ignored s before) in
  let$ e := error in
  let$ _ := (if rc then eret tt else set_status (status e)) in
  let$ _ := match plan with
    | None => eret tt
    | Some p =>
        let$ _ := (if pl_negated p then on_result (fun r => xr_set_ignored r true) else eret tt) in
        apply_errexit (pl_kind p)
    end in
  let$ _ := csh_execution_context_destroy in
  let$ e := error in
  let$ _ := (if rc then eret tt else set_status (status e)) in
  let$ r := result in
  let$ _ := set_state (fun s => csh_state_set_status s (xr_status r)) in
  eret rc.

Definition csh_execute_pipeline_ast (tree : option csh_ast) (store : gmap nat redirection) : E (bool * list csh_pipeline_stage) :=
  own_context no_context (
    let$ _ := put_error no_error in
    let$ _ := on_result (fun _ => xr_set_category no_execution CSH_EXEC_PIPELINE) in
    let$ initial := information in
    let finish rc plan stages := let$ rc := foreground_end rc plan (errexit_ignored initial) in eret (rc, stages) in
    let foreground tree := match ast_kind tree with CSH_AST_SIMPLE | CSH_AST_PIPELINE => true | _ => false end in
    match single_command <$> tree with
    | Some tree =>
        if negb (foreground tree) then
          let$ rc := efail (bs "only a foreground simple command or pipeline is supported") ENONE 2 in finish rc None []
        else
          let$ planned := prepare_plan (Some tree) store in
          match planned with
          | None => finish false None []
          | Some (plan, reserved) =>
              if opt_on (options initial) CSH_OPT_NOEXEC then
                let$ _ := set_status (last_status initial) in finish true None []
              else
                let$ (rc, stages) := run_foreground plan store reserved (errexit_ignored initial) in
                finish rc (Some plan) stages
          end
    | None => let$ rc := efail (bs "only a foreground simple command or pipeline is supported") ENONE 2 in finish rc None []
    end).

Definition csh_execute_ast (tree : option csh_ast) (store : gmap nat redirection) : E bool :=
  let$ (rc, _) := csh_execute_pipeline_ast tree store in eret rc.
End Entries.
End Execute.
