(* ===== verification/ExecuteLogic.v ===== *)
(** * What the executor leaves around a command

    The surroundings of a computation: the context, the scopes of descriptors
    that are kept free, the open sources and the marks of the process.  A
    computation is [steady] when it gives them back as they were, with a
    transfer of control that the surroundings can take.  Rules for steady
    computations, and the functions of Execution, Utility and Directory. *)

From stdpp Require Import base list gmap strings.
From S2P Require Import Prelude Output Numbers Options Character State Expansion Descriptors Redirect Input Signals Traps Builtin Jobs Process Values Ast Prepare Plan Execution Utility Directory Execute.

(** ** Surroundings *)

Record surroundings : Type := mk_surroundings {
  su_context : csh_execution_context; su_scopes : list (list Z); su_sources : list nat;
  su_tracing : bool; su_cloned : bool; su_process : Z }.

(** The children in the background come and go. *)
Definition surroundings_of (x : shell) : surroundings :=
  mk_surroundings (with_background_children (sx_context x) []) (sx_scopes x) (fst <$> sx_inputs x) (sx_tracing x) (sx_cloned x) (sx_process x).

Definition depth (s : surroundings) : Z := loop_depth (su_context s).

Definition su_with_context (s : surroundings) (c : csh_execution_context) : surroundings :=
  mk_surroundings c (su_scopes s) (su_sources s) (su_tracing s) (su_cloned s) (su_process s).
Definition su_with_scopes (s : surroundings) (l : list (list Z)) : surroundings :=
  mk_surroundings (su_context s) l (su_sources s) (su_tracing s) (su_cloned s) (su_process s).
Definition su_with_sources (s : surroundings) (l : list nat) : surroundings :=
  mk_surroundings (su_context s) (su_scopes s) l (su_tracing s) (su_cloned s) (su_process s).
Definition su_with_marks (s : surroundings) (tracing cloned : bool) : surroundings :=
  mk_surroundings (su_context s) (su_scopes s) (su_sources s) tracing cloned (su_process s).

(** A transfer of control out of [n] loops at most. *)
Definition level_fits (r : csh_execution) (n : Z) : Prop :=
  match xr_control r with
  | CSH_CONTROL_BREAK | CSH_CONTROL_CONTINUE => 1 <= xr_levels r <= n
  | _ => True
  end.

(** The process is in these surroundings, with a transfer of at most [n] levels. *)
Definition within (s : surroundings) (n : Z) (x : shell) : Prop :=
  surroundings_of x = s /\ level_fits (sx_result x) n /\ Forall (fun i => (i < sx_next_input x)%nat) (su_sources s).

Lemma level_fits_mono r n m : level_fits r n -> n <= m -> level_fits r m.
Proof. unfold level_fits. destruct (xr_control r); lia. Qed.

Lemma within_mono s n m x : within s n x -> n <= m -> within s m x.
Proof. intros (? & ? & ?) ?. split_and!; [done|by eapply level_fits_mono|done]. Qed.

(** If the computation comes back, then with a value and a process that [Q] holds of. *)
Definition ends {A} (m : E A) (x : shell) (Q : A -> shell -> Prop) : Prop :=
  match m x with (EDone a, y) => Q a y | _ => True end.

Definition steady {A} (m : E A) : Prop :=
  forall s n x, 0 <= depth s <= n -> within s n x -> ends m x (fun _ => within s n).

Create HintDb steady discriminated.
#[export] Hint Constants Opaque : steady.
#[export] Hint Variables Opaque : steady.

Section Ends.
Context {A B : Type}.

Lemma ends_ret (a : A) x (Q : A -> shell -> Prop) : Q a x -> ends (eret a) x Q.
Proof. done. Qed.

Lemma ends_bind (m : E A) (f : A -> E B) x Q : ends m x (fun a y => ends (f a) y Q) -> ends (ebind m f) x Q.
Proof. unfold ends, ebind. by destruct (m x) as [[| | | | |a] y]. Qed.

Lemma ends_mono (m : E A) x (P Q : A -> shell -> Prop) : ends m x P -> (forall a y, P a y -> Q a y) -> ends m x Q.
Proof. unfold ends. destruct (m x) as [[| | | | |a] y]; try done. auto. Qed.

Lemma ends_steady (m : E A) s n x (Q : A -> shell -> Prop) :
  steady m -> 0 <= depth s <= n -> within s n x -> (forall a y, within s n y -> Q a y) -> ends m x Q.
Proof. intros Hm Hd Hx HQ. eapply ends_mono; [by apply Hm|]. auto. Qed.

Lemma steadily_bind (m : E A) (f : A -> E B) : steady m -> (forall a, steady (f a)) -> steady (ebind m f).
Proof. intros Hm Hf s n x Hd Hx. apply ends_bind. eapply ends_steady; [done..|]. intros a y Hy. by apply Hf. Qed.

Lemma steadily_ret (a : A) : steady (eret a).
Proof. by intros s n x _ Hx. Qed.

Lemma steady_fault : steady (efault (A := A)).
Proof. done. Qed.

Lemma steady_spent : steady (espent (A := A)).
Proof. done. Qed.

Lemma steady_exit n : steady (eexit (A := A) n).
Proof. done. Qed.
End Ends.

(** Nothing around the computation changes, nor its result. *)
Definition still (x y : shell) : Prop :=
  surroundings_of y = surroundings_of x /\ sx_result y = sx_result x /\ sx_next_input y = sx_next_input x.

Lemma still_within s n x y : still x y -> within s n x -> within s n y.
Proof. unfold still, within. intros (-> & -> & ->). done. Qed.

Lemma still_through x y z : still x y -> still y z -> still x z.
Proof. unfold still. intros (E1 & E2 & E3) (-> & -> & ->). done. Qed.

Lemma steadily_still {A} (m : E A) : (forall x, still x (snd (m x))) -> steady m.
Proof.
  intros H s n x _ Hx. specialize (H x). unfold ends. destruct (m x) as [[| | | | |a] y]; try done. by eapply still_within.
Qed.

(** A change of the process as it is. *)
Lemma steady_modify {A} (g : shell -> shell) (k : shell -> E A) :
  (forall x, still x (g x)) -> (forall x, steady (k x)) -> steady (let$ x := eget in let$ _ := eput (g x) in k x).
Proof. intros Hg Hk s n x Hd Hx. apply (Hk x s n (g x)); [done|]. eapply still_within; [apply Hg|done]. Qed.

Lemma steady_modify_end (g : shell -> shell) : (forall x, still x (g x)) -> steady (let$ x := eget in eput (g x)).
Proof. intros Hg s n x Hd Hx. eapply still_within; [apply Hg|done]. Qed.

Lemma steady_on_result f : (forall r n, level_fits r n -> level_fits (f r) n) -> steady (on_result f).
Proof. intros Hf s n x Hd (Hs & Hr & Hi). split_and!; [done|by apply Hf|done]. Qed.

Lemma steady_get {A} (k : shell -> E A) : (forall x, steady (k x)) -> steady (let$ x := eget in k x).
Proof. intros Hk s n x Hd Hx. by apply Hk. Qed.

(** Children in the background. *)
Lemma steady_children {A} (f : csh_execution_context -> list Z) (k : csh_execution_context -> E A) :
  (forall c, steady (k c)) -> steady (let$ c := context in let$ _ := put_context (with_background_children c (f c)) in k c).
Proof. intros Hk s n x Hd Hx. apply (Hk (sx_context x) s n (with_context x _)); [done|]. exact Hx. Qed.

(** From the process as it is, when a change comes later. *)
Definition steady_at {A} (x : shell) (m : E A) : Prop :=
  forall s n, 0 <= depth s <= n -> within s n x -> ends m x (fun _ => within s n).

Lemma steady_get_at {A} (k : shell -> E A) : (forall x, steady_at x (k x)) -> steady (let$ x := eget in k x).
Proof. intros Hk s n x. apply Hk. Qed.

Lemma steady_at_put {A} x y (k : E A) : still x y -> steady k -> steady_at x (let$ _ := eput y in k).
Proof. intros Hy Hk s n Hd Hx. apply (Hk s n y); [done|]. by eapply still_within. Qed.

Lemma steady_at_steady {A} x (m : E A) : steady m -> steady_at x m.
Proof. intros Hm s n. apply Hm. Qed.

#[export] Hint Resolve steadily_ret steady_fault steady_spent steady_exit : steady.
#[export] Hint Extern 2 (_ /\ _) => split : steady.

(** One rule at a time: [still] for what a primitive changes. *)
Ltac still_tac := intros; cbn [snd]; repeat match goal with |- still _ (snd (match ?e with _ => _ end)) => destruct e | |- still _ (match ?e with _ => _ end) => destruct e end; split_and!; done.

Ltac head_of t := lazymatch t with ?f _ => head_of f | _ => t end.

Ltac fits_tac :=
  let H := fresh in intros ? ? H; repeat case_match; first [exact H | exact I | done].

Ltac steady_step :=
  match goal with
  | |- forall _, _ => intro
  | |- steady (ebind eget _) => progress cbv zeta
  | |- steady (ebind eget (fun x => ebind (eput _) _)) => apply steady_modify; [still_tac|]
  | |- steady (ebind eget (fun x => eput _)) => apply steady_modify_end; still_tac
  | |- steady (ebind eget _) => apply steady_get
  | |- steady (ebind context (fun c => ebind (put_context (with_background_children c _)) _)) => apply steady_children
  | |- steady (on_result _) => apply steady_on_result; fits_tac
  | |- steady ?m => solve [auto 1 with steady nocore]
  | |- steady (ebind _ _) => apply steadily_bind
  | |- steady (match ?e with _ => _ end) => destruct e
  | |- steady (let _ := _ in _) => cbv zeta
  | |- steady (fun _ => _) => apply steadily_still; still_tac
  | |- steady ?m => let h := head_of m in unfold h
  end.

Ltac steady_at_tac :=
  apply steady_get_at; intro; cbv zeta;
  repeat match goal with |- steady_at _ (match ?e with _ => _ end) => destruct e end;
  match goal with |- steady_at _ (ebind (eput _) _) => apply steady_at_put; [still_tac|] | |- _ => apply steady_at_steady end.

Ltac steady_tac := repeat steady_step.

(** ** Primitives *)

Lemma steady_eget : steady eget.
Proof. by apply steadily_still. Qed.

Lemma steady_result : steady result.
Proof. by apply steadily_still. Qed.

Lemma steady_error : steady error.
Proof. by apply steadily_still. Qed.

Lemma steady_put_error e : steady (put_error e).
Proof. by apply steadily_still. Qed.

Lemma steady_context : steady context.
Proof. by apply steadily_still. Qed.

Lemma steady_state : steady state.
Proof. by apply steadily_still. Qed.

Lemma steady_put_state s : steady (put_state s).
Proof. by apply steadily_still. Qed.

Lemma steady_information : steady information.
Proof. by apply steadily_still. Qed.

Lemma steady_last_errno : steady last_errno.
Proof. by apply steadily_still. Qed.

Lemma steady_ask {system : System} {A} (f : Z -> nat -> A) : steady (ask f).
Proof. by apply steadily_still. Qed.

Lemma steady_opt {A} (o : option A) : steady (eopt o).
Proof. unfold eopt. destruct o; auto with steady. Qed.

Lemma steady_host {A} (m : M A) : steady (ehost m).
Proof. apply steadily_still. intros x. unfold ehost. by destruct (m _). Qed.

Lemma steady_files {A} (m : K A) : steady (efiles m).
Proof. apply steadily_still. intros x. unfold efiles. by destruct (m _). Qed.

Lemma steady_jobs {A} (m : J A) : steady (ejobs m).
Proof. apply steadily_still. intros x. unfold ejobs. by destruct (m _) as [[]|]. Qed.

Lemma steady_redirect {A} (f : redirect_state -> A * redirect_state) : steady (eredirect f).
Proof. apply steadily_still. intros x. unfold eredirect. by destruct (f _). Qed.

Lemma steady_own_error {A} (m : E A) : steady m -> steady (own_error m).
Proof.
  intros Hm. unfold own_error. apply steadily_bind; [apply steady_error|intros e].
  apply steadily_bind; [done|intros a]. apply steadily_bind; [apply steady_error|intros e'].
  apply steadily_bind; [apply steady_put_error|intros []]. apply steadily_ret.
Qed.

#[export] Hint Resolve steady_eget steady_result steady_error steady_put_error steady_context steady_state steady_put_state steady_information
  steady_last_errno steady_ask steady_opt steady_host steady_files steady_jobs steady_redirect : steady.

Lemma steadily_fail text number status : steady (efail text number status).
Proof. steady_tac. Qed.

Lemma steady_on_state {A} (f : csh_state -> M (A * csh_state)) : steady (on_state f).
Proof. steady_tac. Qed.

Lemma steady_set_state {A} (f : csh_state -> A * csh_state) : steady (set_state f).
Proof. steady_tac. Qed.

Lemma steady_change_state f : steady (change_state f).
Proof. apply steady_set_state. Qed.

Lemma steady_on_jobs {A} (f : csh_jobs -> J (A * csh_jobs)) : steady (on_jobs f).
Proof. steady_tac. Qed.

#[export] Hint Resolve steadily_fail steady_on_state steady_set_state steady_change_state steady_on_jobs : steady.

(** Whatever the child does. *)
Lemma steady_fork {system : System} (child : E unit) : steady (fork child).
Proof.
  unfold fork. apply steadily_bind; [apply steady_ask|]. intros [e|pid]; [apply steadily_ret|].
  apply steadily_still. intros x. by destruct (fst (child _)).
Qed.

(** The result of a computation of its own keeps to the same surroundings. *)
Lemma ends_own_result {A} r (m : E A) s n x (Q : A * csh_execution -> shell -> Prop) :
  steady m -> 0 <= depth s <= n -> within s n x -> level_fits r (depth s) ->
  (forall a r' y, within s n y -> level_fits r' (depth s) -> Q (a, r') y) -> ends (own_result r m) x Q.
Proof.
  intros Hm Hd (Hs & Hr & Hi) Hr' HQ. apply ends_bind. cbn. apply ends_bind, ends_bind.
  eapply (ends_steady _ s (depth s)); [done|lia| |].
  - by split_and!.
  - intros a y (Hs' & Hry & Hi'). apply ends_bind. cbn. apply HQ; [|done]. by split_and!.
Qed.

Lemma steady_own_result {A} r (m : E A) : (forall n, level_fits r n) -> steady m -> steady (own_result r m).
Proof. intros Hr Hm s n x Hd Hx. eapply ends_own_result; [done..|]. by intros a r' y Hy _. Qed.

(** In an empty context of its own. *)
Lemma steady_own_context {A} (m : E A) :
  (forall s n x, su_context s = no_context -> 0 <= n -> within s n x -> ends m x (fun _ => within s n)) ->
  steady (own_context no_context m).
Proof.
  intros Hm s n x Hd (Hs & Hr & Hi). apply ends_bind. cbn. apply ends_bind, ends_bind. cbn.
  eapply ends_mono; [apply (Hm (su_with_context s no_context) n); [done|lia|]|].
  - subst s. by split_and!.
  - intros a y (Hs' & Hr' & Hi'). cbn. subst s. split_and!; [|done|done].
    unfold surroundings_of, su_with_context in *. injection Hs' as E1 E2 E3 E4 E5 E6. cbn in *. congruence.
Qed.

#[export] Hint Resolve steady_fork : steady.

Ltac steady_own :=
  match goal with
  | |- steady (own_result _ _) => apply steady_own_result; [exact (fun _ => I)|]
  | |- steady (own_error _) => apply steady_own_error
  end.
Ltac steady_tac ::= repeat first [steady_own | steady_step].

(** ** Execution *)

Section Execution.
Context {system : System} {errors : ErrorText} {disk : Disk} {db : LocaleDb} {signal_text : SignalText}.

Lemma steady_stack_check : steady csh_stack_check.
Proof. steady_tac. Qed.

Lemma steady_execve path : steady (execve path).
Proof. steady_tac. Qed.

Lemma steady_access path readable : steady (access_ok path readable).
Proof. steady_tac. Qed.

Lemma steady_wait_status pid : steady (wait_status pid).
Proof. steady_tac. Qed.

Lemma steady_kill pid sig : steady (kill_process pid sig).
Proof. steady_tac. Qed.

Lemma steady_setpgid pid pgid : steady (setpgid pid pgid).
Proof. steady_tac. Qed.

Lemma steady_block_signals : steady block_signals.
Proof. steady_tac. Qed.

Lemma steady_diagnose name text number : steady (diagnose name text number).
Proof. steady_tac. Qed.

Lemma steady_launch_candidates l name : steady (launch_candidates l name).
Proof. induction l; cbn [launch_candidates]; steady_tac. Qed.

#[local] Hint Resolve steady_stack_check steady_execve steady_access steady_wait_status steady_kill steady_setpgid steady_block_signals steady_diagnose : steady.
#[local] Hint Resolve steady_launch_candidates : steady.

Lemma steady_launch_prepare command : steady (launch_prepare command).
Proof. steady_tac. Qed.

Lemma steady_replace_loop name paths remembered : steady (replace_loop name paths remembered).
Proof. revert remembered. induction paths; intros; cbn [replace_loop]; steady_tac. Qed.

Lemma steady_jobs_after_fork asynchronous : steady (jobs_after_fork asynchronous).
Proof. steady_tac. Qed.

Lemma steady_traps_after_fork asynchronous listing : steady (traps_after_fork asynchronous listing).
Proof. steady_tac. Qed.

Lemma steady_redirect_apply items reserved : steady (redirect_apply items reserved).
Proof. steady_tac. Qed.

#[local] Hint Resolve steady_launch_prepare steady_replace_loop steady_jobs_after_fork steady_traps_after_fork steady_redirect_apply : steady.

Lemma steady_launch_child command l : steady (launch_child command l).
Proof. steady_tac. Qed.

Lemma steady_builtin_exit command trapped : steady (builtin_exit command trapped).
Proof. steady_tac. Qed.

Lemma steady_assignments_check l : steady (assignments_check l).
Proof. induction l; cbn [assignments_check]; steady_tac. Qed.

Lemma steady_assignments_set l export : steady (assignments_set l export).
Proof. induction l; cbn [assignments_set]; steady_tac. Qed.

#[local] Hint Resolve steady_launch_child steady_builtin_exit steady_assignments_check steady_assignments_set : steady.

Lemma steady_assignments_apply command category : steady (assignments_apply command category).
Proof. steady_tac. Qed.

#[local] Hint Resolve steady_assignments_apply : steady.

Lemma steady_restore_variables save : steady (restore_variables save).
Proof. steady_tac. Qed.

Lemma steady_lookup_loop paths readable : steady (lookup_loop paths readable).
Proof. induction paths; cbn [lookup_loop]; steady_tac. Qed.

Lemma steady_directory_loop n capacity : steady (directory_loop n capacity).
Proof. revert capacity. induction n; intros; cbn [directory_loop]; steady_tac. Qed.

#[local] Hint Resolve steady_restore_variables steady_lookup_loop steady_directory_loop : steady.

Lemma steady_lookup_path name defaults readable prefix : steady (lookup_path name defaults readable prefix).
Proof. steady_tac. Qed.

#[local] Hint Resolve steady_lookup_path : steady.

Lemma steady_path_builtin_category name defaults prefix : steady (path_builtin_category name defaults prefix).
Proof. steady_tac. Qed.

#[local] Hint Resolve steady_path_builtin_category : steady.

Lemma steady_command_category name prefix : steady (command_category name prefix).
Proof. steady_tac. Qed.

#[local] Hint Resolve steady_command_category : steady.

Lemma steady_command_validate command : steady (command_validate command).
Proof. steady_tac. Qed.

Lemma steady_resolved_end command rc variables : steady (resolved_end command rc variables).
Proof. steady_tac. Qed.

Lemma steady_run_external command l stage : steady (run_external command l stage).
Proof. steady_tac. Qed.

Lemma steady_run_handler command handler : (forall h, handler = Some h -> steady h) -> steady (run_handler command handler).
Proof. intros Hh. destruct handler as [h|]; [specialize (Hh h eq_refl)|clear Hh]; steady_tac. Qed.

#[local] Hint Resolve steady_command_validate steady_resolved_end steady_run_external : steady.

Lemma steady_execute_resolved command category handler stage :
  (forall h, handler = Some h -> steady h) -> steady (execute_resolved command category handler stage).
Proof. intros Hh. pose proof (steady_run_handler command handler Hh). steady_tac. Qed.

Lemma steady_pipe_close fd : steady (pipe_close fd).
Proof. steady_tac. Qed.

Lemma steady_pipeline_connect source target : steady (pipeline_connect source target).
Proof. steady_tac. Qed.

Lemma steady_stage_wait g : steady (stage_wait g).
Proof. steady_tac. Qed.

#[local] Hint Resolve steady_pipe_close steady_pipeline_connect steady_stage_wait : steady.

Lemma steady_cancel_kill l : steady (cancel_kill l).
Proof. induction l; cbn [cancel_kill]; steady_tac. Qed.

Lemma steady_cancel_wait l : steady (cancel_wait l).
Proof. induction l; cbn [cancel_wait]; steady_tac. Qed.

#[local] Hint Resolve steady_cancel_kill steady_cancel_wait : steady.

Lemma steady_pipeline_cancel l : steady (pipeline_cancel l).
Proof. steady_tac. Qed.

Lemma steady_pipeline_launch_prepare command : steady (pipeline_launch_prepare command).
Proof. steady_tac. Qed.

Lemma steady_reap_children l wait : steady (reap_children l wait).
Proof. induction l; cbn [reap_children]; steady_tac. Qed.

#[local] Hint Resolve steady_pipeline_cancel steady_pipeline_launch_prepare steady_reap_children : steady.

Lemma steady_reap wait : steady (csh_execution_context_reap wait).
Proof. steady_tac. Qed.
#[local] Hint Resolve steady_reap : steady.

(** The end of an empty context. *)
Lemma ends_destroy s n x : su_context s = no_context -> 0 <= n -> within s n x -> ends csh_execution_context_destroy x (fun _ => within s n).
Proof.
  intros Hs Hn Hx. assert (0 <= depth s <= n) as Hd by (unfold depth; rewrite Hs; cbn; lia).
  apply ends_bind. eapply (ends_steady _ s n); [steady_tac|done|done|]. intros _ y Hy.
  apply ends_bind, ends_bind, ends_bind. cbn. eapply (ends_steady _ s n); [steady_tac|done|exact Hy|]. intros _ z Hz.
  destruct Hz as (Hsz & Hr & Hi). cbn.
  assert (surroundings_of (with_context z no_context) = s) as Hc.
  { transitivity (su_with_context s no_context); [by subst s|]. rewrite <- Hs. by destruct s. }
  destruct (cx_jobs _); split_and!; done.
Qed.

Lemma steady_jobs_reserve fds : steady (csh_jobs_reserve fds).
Proof. steady_tac. Qed.

Lemma steady_apply_errexit kind : steady (apply_errexit kind).
Proof. steady_tac. Qed.

Lemma steady_report_error : steady report_error.
Proof. steady_tac. Qed.

Lemma steady_expansion_failed : steady expansion_failed.
Proof. steady_tac. Qed.

Lemma steady_restore_loop saves rc : steady (restore_loop saves rc).
Proof. revert rc. induction saves; intros; cbn [restore_loop]; steady_tac. Qed.

#[local] Hint Resolve steady_report_error steady_restore_loop : steady.

Lemma steady_restore_redirects saves : steady (restore_redirects saves).
Proof. steady_tac. Qed.

Lemma steady_halted : steady halted.
Proof. steady_tac. Qed.

Lemma steady_alias_handler alias argv : steady (alias_handler alias argv).
Proof. steady_tac. Qed.

#[local] Hint Resolve steady_alias_handler : steady.

Lemma steady_lookup_report utility name verbose defaults : steady (lookup_report utility name verbose defaults).
Proof. steady_tac. Qed.

Lemma steady_input_line bytes : steady (csh_execute_input_line bytes).
Proof. steady_tac. Qed.
End Execution.

#[export] Hint Resolve steady_stack_check steady_execve steady_access steady_wait_status steady_kill steady_setpgid steady_block_signals
  steady_diagnose steady_launch_prepare steady_replace_loop steady_jobs_after_fork steady_traps_after_fork steady_redirect_apply
  steady_launch_child steady_builtin_exit steady_assignments_apply steady_restore_variables steady_lookup_path steady_path_builtin_category
  steady_command_category steady_command_validate steady_resolved_end steady_run_external steady_pipe_close steady_pipeline_connect
  steady_stage_wait steady_pipeline_cancel steady_pipeline_launch_prepare steady_reap steady_jobs_reserve steady_apply_errexit
  steady_report_error steady_expansion_failed steady_restore_redirects steady_halted steady_alias_handler steady_lookup_report
  steady_input_line : steady.

(** ** Utilities and directories *)

Section Utilities.
Context {loc : Locale} {system : System} {errors : ErrorText} {disk : Disk} {db : LocaleDb} {collation : Collation} {signal_text : SignalText}.

Lemma steady_read_line fuel raw delim l capacity decoding escaped : steady (read_line fuel raw delim l capacity decoding escaped).
Proof. revert l capacity decoding escaped. induction fuel; intros; cbn [read_line]; steady_tac. Qed.

Lemma steady_read_operands names ifs l n : steady (read_operands names ifs l n).
Proof. revert l n. induction names; intros; cbn [read_operands]; steady_tac. Qed.

#[local] Hint Resolve steady_read_line steady_read_operands : steady.

Lemma steady_read_builtin args : steady (read_builtin args).
Proof. steady_tac. Qed.

Lemma steady_getopts_builtin args : steady (getopts_builtin args).
Proof. steady_tac. Qed.

Lemma steady_umask_builtin args : steady (umask_builtin args).
Proof. unfold umask_builtin. steady_at_tac; steady_tac. Qed.

Lemma steady_write_times l odd : steady (write_times l odd).
Proof. revert odd. induction l; intros; cbn [write_times]; steady_tac. Qed.

#[local] Hint Resolve steady_read_builtin steady_getopts_builtin steady_umask_builtin steady_write_times : steady.

Lemma steady_one_limit i letter unit_ description operand o : steady (one_limit i letter unit_ description operand o).
Proof. steady_tac. Qed.

#[local] Hint Resolve steady_one_limit : steady.

Lemma steady_limit_loop l i operand o : steady (limit_loop l i operand o).
Proof. revert i. induction l; intros; cbn [limit_loop]; steady_tac. Qed.

#[local] Hint Resolve steady_limit_loop : steady.

Lemma steady_utility_run argv : steady (csh_utility_run argv).
Proof. steady_tac. Qed.

Lemma steady_handle_loop parts fd : steady (handle_loop parts fd).
Proof. revert fd. induction parts; intros; cbn [handle_loop]; steady_tac. Qed.

#[local] Hint Resolve steady_handle_loop : steady.

Lemma steady_logical_valid value : steady (logical_valid value).
Proof. steady_tac. Qed.

#[local] Hint Resolve steady_logical_valid : steady.

Lemma steady_search_cdpath parts operand : steady (search_cdpath parts operand).
Proof. induction parts; cbn [search_cdpath]; steady_tac. Qed.

#[local] Hint Resolve steady_search_cdpath : steady.

Lemma steady_cwd : steady cwd.
Proof. apply steady_directory_loop. Qed.

Lemma steady_directory_handle path : steady (directory_handle path).
Proof. steady_tac. Qed.

Lemma steady_change_directory path : steady (change_directory path).
Proof. steady_tac. Qed.

Lemma steady_cd_end ok fd : steady (cd_end ok fd).
Proof. steady_tac. Qed.

#[local] Hint Resolve steady_cwd steady_directory_handle steady_change_directory steady_cd_end : steady.

Lemma steady_current physical : steady (current physical).
Proof. steady_tac. Qed.

Lemma steady_logical_target target old : steady (logical_target target old).
Proof. steady_tac. Qed.

#[local] Hint Resolve steady_current steady_logical_target : steady.

Lemma steady_cd_variables target physical require print old : steady (cd_variables target physical require print old).
Proof. steady_tac. Qed.

#[local] Hint Resolve steady_cd_variables : steady.

Lemma steady_cd_target target physical require print old : steady (cd_target target physical require print old).
Proof. steady_tac. Qed.

#[local] Hint Resolve steady_cd_target : steady.

Lemma steady_state_builtin argv : steady (state_builtin argv).
Proof. steady_tac. Qed.
End Utilities.

#[export] Hint Resolve steady_utility_run steady_state_builtin : steady.
