(* ===== verification/ExecuteSteady.v ===== *)
(** * The executor is steady

    Every plan and every handler gives its surroundings back: by induction on
    the levels, one lemma for each function of Execute.v. *)

From stdpp Require Import base list gmap strings.
From S2P Require Import Prelude Output Numbers Options Character Quote Alias State Arithmetic Expansion Pathname Fields Descriptors Redirect Input Signals Traps Builtin Jobs Process Lexer Values LexerKinds Ast Parser Grammar Prepare Plan Execution Utility Directory Execute ExecuteLogic.

(** ** Sources and scopes *)

Lemma scope_ended s fds : su_with_scopes (su_with_scopes s (fds :: su_scopes s)) (tail (su_scopes (su_with_scopes s (fds :: su_scopes s)))) = s.
Proof. by destruct s. Qed.

Section Sources.
Context {A B C : Type}.

Lemma relocate_sources inputs scopes k : let '(_, l, _) := relocate_inputs inputs scopes k in fst <$> l = fst <$> inputs.
Proof.
  revert k. induction inputs as [|[id input] inputs IH]; intros k; cbn [relocate_inputs]; [done|].
  assert (forall k, let '(e, l, k) := let '(error, rest, k) := relocate_inputs inputs scopes k in (error, (id, input) :: rest, k) in
    fst <$> l = fst <$> ((id, input) :: inputs)) as Hk.
  { intros k'. specialize (IH k'). destruct (relocate_inputs _ _ _) as [[e l] k'']. cbn. by rewrite IH. }
  destruct (in_fd input) as [old|]; [|apply Hk]. destruct (csh_input_descriptor_reserved _ _); [|apply Hk].
  destruct (relocate_loop _ _ _ _ _) as [[number|fd] k1]; [done|]. specialize (IH (snd (sys_close old k1))).
  destruct (relocate_inputs _ _ _) as [[e l] k2]. cbn. by rewrite IH.
Qed.

Lemma ends_reserve_begin fds s n x :
  within s n x -> ends (reserve_begin fds) x (fun _ => within (su_with_scopes s (fds :: su_scopes s)) n).
Proof.
  intros (Hs & Hr & Hi). subst s. unfold reserve_begin, einput, csh_input_reserve_begin. apply ends_bind. unfold ends at 1.
  pose proof (relocate_sources (sx_inputs x) (fds :: sx_scopes x) (sx_kernel x)) as Hl. cbn.
  destruct (relocate_inputs _ _ _) as [[e l] k].
  assert (within (su_with_scopes (surroundings_of x) (fds :: sx_scopes x)) n (with_inputs (with_kernel x k) l (sx_next_input x) (fds :: sx_scopes x))) as Hw.
  { split_and!; [|done|done]. unfold surroundings_of, su_with_scopes. cbn. by rewrite Hl. }
  destruct e as [e|]; exact Hw.
Qed.

Lemma ends_reserve_end s n x : within s n x -> ends reserve_end x (fun _ => within (su_with_scopes s (tail (su_scopes s))) n).
Proof. intros (Hs & Hr & Hi). by subst s. Qed.

(** A scope from its beginning to its end. *)
Lemma steady_scope fds (m1 : bool -> E A) (m2 : A -> E B) (k : B -> E C) :
  (forall ok, steady (m1 ok)) -> (forall a, steady (m2 a)) -> (forall b, steady (k b)) ->
  steady (ebind (reserve_begin fds) (fun ok => ebind (m1 ok) (fun a => ebind (m2 a) (fun b => ebind reserve_end (fun _ => k b))))).
Proof.
  intros H1 H2 Hk s n x Hd Hx. apply ends_bind. eapply ends_mono; [by apply ends_reserve_begin|]. intros ok y Hy.
  apply ends_bind. eapply (ends_steady _ (su_with_scopes s (fds :: su_scopes s))); [apply H1|exact Hd|exact Hy|]. intros a z Hz.
  apply ends_bind. eapply (ends_steady _ (su_with_scopes s (fds :: su_scopes s))); [apply H2|exact Hd|exact Hz|]. intros b u Hu.
  apply ends_bind. eapply ends_mono; [by apply ends_reserve_end|]. intros u' v Hv. cbv beta in Hv.
  apply (Hk b s n); [done|]. by rewrite scope_ended in Hv.
Qed.
End Sources.

(** A call that opens a source, or fails and opens none. *)
Definition sources (s : input_state) : list nat := fst <$> active_inputs s.

Definition fresh_sources (s : input_state) : Prop := Forall (fun i => (i < is_next s)%nat) (sources s).

Definition opening (r : csh_error + nat) (s s' : input_state) : Prop :=
  reservations s' = reservations s /\ (is_next s <= is_next s')%nat /\
  match r with
  | inl _ => sources s' = sources s
  | inr id => sources s' = id :: sources s /\ (id ∉ sources s) /\ (id < is_next s')%nat
  end.

Lemma update_sources s id input : sources (update_input s id input) = sources s.
Proof.
  unfold sources, update_input. cbn. rewrite <- list_fmap_compose. apply list_fmap_ext. intros i [j y] _. cbn.
  destruct (j =? id)%nat eqn:E; [|done]. by apply Nat.eqb_eq in E.
Qed.

Lemma destroy_sources id s l : sources s = id :: l -> id ∉ l ->
  sources (csh_input_destroy id s) = l /\ is_next (csh_input_destroy id s) = is_next s /\ reservations (csh_input_destroy id s) = reservations s.
Proof.
  unfold sources, csh_input_destroy, find_input. destruct (active_inputs s) as [|[j input] rest]; [done|]. intros [= -> <-] Hn.
  cbn [List.find fst]. rewrite Nat.eqb_refl. cbn. split; [|done]. rewrite Nat.eqb_refl. cbn.
  induction rest as [|[j y] rest IH]; [done|]. cbn in *. apply not_elem_of_cons in Hn as [Hj Hn].
  replace (j =? id)%nat with false by (symmetry; apply Nat.eqb_neq; congruence). cbn. by rewrite IH.
Qed.

Lemma attach_sources id fd s : sources (attach_fd id fd s) = sources s /\ is_next (attach_fd id fd s) = is_next s /\ reservations (attach_fd id fd s) = reservations s.
Proof. unfold attach_fd. destruct (find_input s id); [|done]. by rewrite update_sources. Qed.

Lemma allocate_opening name s : fresh_sources s -> let '(r, s') := allocate_input name s in opening r s s'.
Proof.
  intros Hf. unfold allocate_input. destruct (sys_malloc _) as [ok k]. destruct ok; [|by split_and!].
  cbn [negb]. destruct (sys_malloc k) as [ok k']. destruct ok; [|by split_and!]. cbn [negb]. split_and!; cbn; [done|lia|done| |lia].
  intros Hin. unfold fresh_sources in Hf. rewrite Forall_forall in Hf. specialize (Hf _ Hin). cbn in Hf. lia.
Qed.

(** After an allocation, the source stays or is destroyed. *)
Lemma opening_destroy id s s1 s2 e : opening (inr id) s s1 -> sources s2 = sources s1 -> is_next s2 = is_next s1 -> reservations s2 = reservations s1 ->
  opening (inl e) s (csh_input_destroy id s2).
Proof.
  intros (Hr & Hn & Hs & Hi & _) E1 E2 E3. destruct (destroy_sources id s2 (sources s)) as (H1 & H2 & H3); [congruence|done|].
  split_and!; [congruence|lia|done].
Qed.

Lemma opening_same id s s1 s2 : opening (inr id) s s1 -> sources s2 = sources s1 -> is_next s2 = is_next s1 -> reservations s2 = reservations s1 ->
  opening (inr id) s s2.
Proof. intros (Hr & Hn & Hs & Hi & Hl) E1 E2 E3. split_and!; [congruence|lia|congruence|done|lia]. Qed.

Lemma from_string_opening text name s : fresh_sources s -> let '(r, s') := csh_input_from_string text name s in opening r s s'.
Proof.
  intros Hf. unfold csh_input_from_string. destruct text as [text|]; [|by split_and!]. destruct name as [name|]; [|by split_and!].
  pose proof (allocate_opening name s Hf) as H. destruct (allocate_input name s) as [[e|id] s1]; [done|].
  destruct (sys_malloc _) as [ok k]. destruct ok; cbn [negb].
  - destruct (find_input _ id); [|by eapply opening_same]. eapply opening_same; [done|by rewrite update_sources|done|done].
  - by eapply opening_destroy.
Qed.

Lemma from_file_opening `{Disk} path s : fresh_sources s -> let '(r, s') := csh_input_from_file path s in opening r s s'.
Proof.
  intros Hf. unfold csh_input_from_file. destruct path as [path|]; [|by split_and!].
  pose proof (allocate_opening path s Hf) as Ho. destruct (allocate_input path s) as [[e|id] s1]; [done|].
  destruct (Descriptors.retry _ _) as [[number|fd] k]; [by eapply opening_destroy|].
  destruct (sys_fstat fd k) as [[number|kind] k1]; [by eapply opening_destroy|].
  destruct kind; try (by eapply opening_destroy); destruct (duplicate_fd fd k1) as [[number|new] k2]; try (by eapply opening_destroy);
    match goal with |- context [attach_fd ?i ?f ?t] => destruct (attach_sources i f t) as (? & ? & ?) end; by eapply opening_same.
Qed.

Lemma ends_opening f s n x (Q : csh_error + nat -> shell -> Prop) :
  (forall s, fresh_sources s -> let '(r, s') := f s in opening r s s') -> within s n x ->
  (forall e y, within s n y -> Q (inl e) y) ->
  (forall id y, id ∉ su_sources s -> within (su_with_sources s (id :: su_sources s)) n y -> Q (inr id) y) ->
  ends (einput f) x Q.
Proof.
  intros Hf (Hs & Hr & Hi) He Hid. subst s. unfold ends, einput.
  specialize (Hf (mk_istate (sx_kernel x) (sx_inputs x) (sx_next_input x) (sx_scopes x)) Hi).
  destruct (f _) as [[e|id] t]; destruct Hf as (H1 & H2 & H3); cbn in *.
  - apply He. split_and!; [|done|].
    + unfold surroundings_of. cbn. by rewrite H1, <- H3.
    + eapply Forall_impl; [exact Hi|]. cbn. lia.
  - destruct H3 as (H3 & H4 & H5). apply Hid; [done|]. split_and!; [|done|].
    + unfold surroundings_of, su_with_sources. cbn. f_equal; [by rewrite H1|exact H3].
    + cbn. constructor; [done|]. eapply Forall_impl; [exact Hi|]. cbn. lia.
Qed.

Lemma ends_closing id s n x : id ∉ su_sources s -> within (su_with_sources s (id :: su_sources s)) n x ->
  ends (einput (fun t => (tt, csh_input_destroy id t))) x (fun _ => within s n).
Proof.
  intros Hid (Hs & Hr & Hi). unfold ends, einput. set (t := mk_istate _ _ _ _).
  assert (sources t = id :: su_sources s) as Ht by (by injection Hs).
  destruct (destroy_sources id t (su_sources s) Ht Hid) as (H1 & H2 & H3). split_and!; [|done|].
  - destruct s. unfold surroundings_of in *. injection Hs as E1 E2 E3 E4 E5 E6. cbn in *. unfold sources in H1. rewrite H1, H3. cbn. congruence.
  - cbn in Hi |- *. rewrite H2. by apply Forall_cons in Hi as [_ Hi].
Qed.

Ltac execute_tac :=
  repeat first
    [ match goal with |- steady (ebind (reserve_begin _) (fun _ => ebind _ (fun _ => ebind _ (fun _ => ebind reserve_end _)))) => apply steady_scope end
    | steady_own | steady_step ].

(** ** One level *)

Class SteadyLevel (l : level) : Prop := {
  steady_below plan store reserved : steady (execute_below l plan store reserved);
  steady_handler command given : steady (handler_below l command given) }.

Section Level.
Context {loc : Locale} {fs : Files} {users : Users} {db : LocaleDb} {collation : Collation} {disk : Disk}.
Context {signal_text : SignalText} {errors : ErrorText} {system : System}.
Context (l : level) {Hl : SteadyLevel l}.

Lemma below_steady plan store reserved : steady (execute_below l plan store reserved).
Proof. apply steady_below. Qed.

Lemma handler_steady command given : steady (handler_below l command given).
Proof. apply steady_handler. Qed.

#[local] Hint Resolve below_steady handler_steady : steady.

Lemma steady_own_jobs_reserve fds text : steady (jobs_reserve fds text).
Proof. execute_tac. Qed.

Lemma steady_prepare_plan tree store : steady (prepare_plan tree store).
Proof. execute_tac. Qed.

#[local] Hint Resolve steady_own_jobs_reserve steady_prepare_plan : steady.

Lemma steady_context_ast tree store : steady (csh_execute_context_ast l tree store).
Proof. execute_tac. Qed.

#[local] Hint Resolve steady_context_ast : steady.

Lemma steady_find_source id : steady (find_source id).
Proof. apply steadily_still. intros x. unfold find_source. by destruct (List.find _ _). Qed.

Lemma steady_put_source id input : steady (put_source id input).
Proof.
  apply steadily_still. intros x. split_and!; [|done|done]. unfold surroundings_of, put_source. cbn. f_equal.
  rewrite <- list_fmap_compose. apply list_fmap_ext. intros i [j y] _. cbn. destruct (j =? id)%nat eqn:E; [|done].
  by apply Nat.eqb_eq in E.
Qed.

Lemma steady_echo_lines lines : steady (echo_lines lines).
Proof. induction lines; cbn [echo_lines]; execute_tac. Qed.

#[local] Hint Resolve steady_find_source steady_put_source steady_echo_lines : steady.

Lemma steady_parse_next id p : steady (parse_next l id p).
Proof.
  unfold parse_next. apply steadily_bind; [auto with steady|intros input]. apply steady_get_at. intros x. cbv zeta.
  destruct (csh_parser_next _ _) as [res p']. destruct res as [| | |a]; try done. destruct a as [[r tree] e].
  apply steady_at_put; [done|]. execute_tac.
Qed.

#[local] Hint Resolve steady_parse_next : steady.

Lemma steady_evaluate_loop n id p sourced : steady (evaluate_loop l n id p sourced).
Proof. revert p. induction n; intros; cbn [evaluate_loop]; execute_tac. Qed.

#[local] Hint Resolve steady_evaluate_loop : steady.

Lemma steady_evaluate_input id sourced : steady (evaluate_input l id sourced).
Proof. execute_tac. Qed.

#[local] Hint Resolve steady_evaluate_input : steady.

(** A source from its opening to its end, if it can be opened. *)
Lemma steady_opened {A} f (k : csh_error + nat -> E A) :
  (forall s, fresh_sources s -> let '(r, s') := f s in opening r s s') ->
  (forall e, steady (k (inl e))) ->
  (forall id s n x, 0 <= depth s <= n -> id ∉ su_sources s -> within (su_with_sources s (id :: su_sources s)) n x -> ends (k (inr id)) x (fun _ => within s n)) ->
  steady (let$ input := einput f in k input).
Proof.
  intros Hf He Hid s n x Hd Hx. apply ends_bind. eapply ends_opening; [done|done| |].
  - intros e y Hy. by apply He.
  - intros id y Hi Hy. by eapply Hid.
Qed.

Lemma steady_trap_evaluation action :
  steady (let$ created := einput (csh_input_from_string (Some action) (Some (bs "trap"))) in
    match created with
    | inl e => let$ _ := put_error e in report_error
    | inr id =>
        let$ ok := evaluate_input l id false in
        let$ _ := (if ok then eret tt else report_error) in
        einput (fun s => (tt, csh_input_destroy id s))
    end).
Proof.
  apply steady_opened; [apply from_string_opening|intros e; execute_tac|]. intros id s n x Hd Hid Hx.
  apply ends_bind. eapply (ends_steady _ (su_with_sources s (id :: su_sources s)) n); [apply steady_evaluate_input|exact Hd|exact Hx|]. intros ok y Hy.
  apply ends_bind. eapply (ends_steady _ (su_with_sources s (id :: su_sources s)) n); [|exact Hd|exact Hy|]; [execute_tac|]. intros u z Hz. by apply ends_closing.
Qed.

Lemma steady_trap_action action saved : steady (evaluate_trap_action l action saved).
Proof.
  intros s n x Hd (Hs & Hr & Hi). unfold evaluate_trap_action. apply ends_bind. cbn. apply ends_bind. cbn.
  set (s1 := su_with_context s (with_trap (su_context s) true saved)).
  set (x1 := with_context x _).
  assert (within s1 n x1) as Hx1 by (subst s; by split_and!).
  apply ends_bind. eapply (ends_steady _ s1 n); [auto with steady|exact Hd|exact Hx1|]. intros u2 x2 Hx2.
  apply ends_bind. eapply (ends_own_result _ _ s1 n); [apply steady_own_error, steady_trap_evaluation|exact Hd|exact Hx2|done|].
  intros a r x3 (Hs3 & Hr3 & Hi3) Hfit. apply ends_bind. cbn. apply ends_bind. cbn.
  set (x4 := with_context x3 _).
  assert (within s n x4) as Hx4.
  { split_and!; [|done|done]. subst s s1. destruct x, x3. unfold surroundings_of, su_with_context in *. cbn in *.
    injection Hs3 as E1 E2 E3 E4 E5 E6 E7 E8 E9 E10 E11. subst. cbn in *. unfold with_background_children, with_trap. cbn. congruence. }
  destruct (exit_requested r); [by apply steady_on_result; [fits_tac|exact Hd|]|].
  destruct (negb _); [|by apply (steadily_bind _ _ (steady_set_state _) (fun _ => steadily_ret _) s n)].
  apply ends_bind. unfold ends at 1, on_result. apply (steadily_bind _ _ (steady_set_state _) (fun _ => steadily_ret _) s n); [exact Hd|].
  destruct Hx4 as (H1 & H2 & H3). split_and!; [done| |done]. eapply level_fits_mono; [exact Hfit|]. exact (proj2 Hd).
Qed.

#[local] Hint Resolve steady_trap_action : steady.

Lemma steady_pending_loop n seen number : steady (pending_loop l n seen number).
Proof.
  revert seen number. induction n as [|n IH]; intros; cbn [pending_loop]; [auto with steady|]. apply steady_get. intros x. cbv zeta.
  destruct (_ || _); [auto with steady|]. apply steadily_bind; [auto with steady|]. intros [[number' action] g]. execute_tac.
Qed.

#[local] Hint Resolve steady_pending_loop : steady.

Lemma steady_pending_traps : steady (csh_execute_pending_traps l).
Proof.
  unfold csh_execute_pending_traps. intros s n x Hd (Hs & Hr & Hi). apply ends_bind. cbn.
  destruct (negb (cx_traps (sx_context x)) || dispatching_traps (sx_context x)) eqn:Eb; [by split_and!|].
  apply orb_false_iff in Eb as [_ Eb]. apply ends_bind. cbn.
  set (s1 := su_with_context s (with_dispatching (su_context s) true)). set (x1 := with_context x _).
  assert (within s1 n x1) as Hx1 by (subst s; by split_and!).
  apply ends_bind. eapply (ends_steady _ s1 n); [auto with steady|exact Hd|exact Hx1|]. intros number x2 (Hs2 & Hr2 & Hi2).
  apply ends_bind. cbn. apply ends_bind. cbn. set (x3 := with_context x2 _).
  assert (within s n x3) as Hx3.
  { split_and!; [|done|done]. subst s s1. destruct x, x2. unfold surroundings_of, su_with_context in *. cbn in *.
    injection Hs2 as E1 E2 E3 E4 E5 E6 E7 E8 E9 E10 E11. unfold with_background_children, with_dispatching. cbn. congruence. }
  assert (forall A (m : E A), steady m -> ends m x3 (fun _ => within s n)) as Hm by (intros A m Hm; by apply Hm). apply Hm. execute_tac.
Qed.

#[local] Hint Resolve steady_pending_traps : steady.

(** ** Substitution and preparation *)

Lemma steady_read_chunks chunks used capacity failed : steady (read_chunks chunks used capacity failed).
Proof. revert used capacity failed. induction chunks; intros; cbn [read_chunks]; execute_tac. Qed.

#[local] Hint Resolve steady_read_chunks : steady.

Lemma steady_run_substitution tree store : steady (run_substitution l tree store).
Proof. execute_tac. Qed.

(** What prepare.c changes: the state, and through substitutions the host. *)
Lemma steady_preparing {A} (m : Executor -> W A) c : steady (preparing l m c).
Proof.
  apply steadily_still. intros x. unfold preparing. destruct (sys_expansion _ _). destruct (m _ _) as [r w].
  destruct (o_unfinished _) as [[]|]; [done..|]. by destruct r.
Qed.

#[local] Hint Resolve steady_preparing : steady.

Lemma steady_with_parsers {A} (m : (nat -> list (list bool)) -> (nat -> list bool) -> E A) : (forall a b, steady (m a b)) -> steady (with_parsers m).
Proof. intros Hm. execute_tac. Qed.

Lemma steady_prepare_word w store mode : steady (prepare_word l w store mode).
Proof. apply steady_with_parsers. intros. execute_tac. Qed.

#[local] Hint Resolve steady_prepare_word : steady.

Lemma steady_redirect_each list_ store reserved saves command : steady (redirect_each l list_ store reserved saves command).
Proof.
  revert saves command. induction list_ as [|a rest IH]; intros; cbn [redirect_each]; [auto with steady|].
  apply steadily_bind; [auto with steady|]. intros source. apply steadily_bind; [apply steady_with_parsers; intros; auto with steady|]. intros [r command'].
  cbv zeta. execute_tac.
Qed.

#[local] Hint Resolve steady_redirect_each : steady.

Lemma steady_runtime_redirects tree store reserved command : steady (runtime_redirects l tree store reserved command).
Proof. execute_tac. Qed.

#[local] Hint Resolve steady_runtime_redirects : steady.

(** ** Traces, transfers and functions *)

Lemma steady_trace_prefix text : steady (trace_prefix l text).
Proof.
  unfold trace_prefix. apply steadily_bind; [auto with steady|]. intros [stack checks]. apply steadily_bind.
  - apply steadily_still. intros x. destruct (csh_parser_document _ _ _ _ _) as [r p]. by destruct r.
  - execute_tac.
Qed.

#[local] Hint Resolve steady_trace_prefix : steady.

Lemma ends_set_tracing b s n x :
  within s n x -> ends (set_tracing b) x (fun _ => within (su_with_marks s b (su_cloned s)) n).
Proof. intros (Hs & Hr & Hi). by subst s. Qed.

(** A step at other surroundings. *)
Lemma ends_step {A B} (m : E A) (k : A -> E B) s n x Q : steady m -> 0 <= depth s <= n -> within s n x ->
  (forall a y, within s n y -> ends (k a) y Q) -> ends (ebind m k) x Q.
Proof. intros Hm Hd Hx Hk. apply ends_bind. by eapply ends_steady. Qed.

Lemma steady_trace_command command : steady (trace_command l command).
Proof.
  intros s n x Hd Hx. unfold trace_command. apply ends_bind. cbn. apply ends_bind. cbn.
  destruct (negb _ || sx_tracing x) eqn:Eb; [exact Hx|]. apply orb_false_iff in Eb as [_ Eb].
  pose proof Hx as (Hs & _). assert (su_tracing s = false) as Ht by (by subst s).
  apply ends_bind. eapply ends_mono; [by apply ends_set_tracing|]. intros u x1 Hx1. cbv beta in Hx1. set (s1 := su_with_marks s true (su_cloned s)) in *.
  apply (ends_step _ _ s1 n); [auto with steady|exact Hd|exact Hx1|]. intros st x2 Hx2. cbv zeta.
  apply (ends_step _ _ s1 n); [execute_tac|exact Hd|exact Hx2|]. intros [fields e] x3 Hx3.
  apply (ends_step _ _ s1 n); [auto with steady|exact Hd|exact Hx3|]. intros n1 x4 Hx4.
  apply (ends_step _ _ s1 n); [auto with steady|exact Hd|exact Hx4|]. intros n2 x5 Hx5.
  eapply ends_mono; [by apply ends_set_tracing|]. intros c x6 Hx6. destruct s. cbn in *. by subst.
Qed.

Lemma strtol_range operand number rest : strtol operand = (number, rest, false) -> LONG_MIN <= number <= LONG_MAX.
Proof.
  unfold strtol. destruct (take_sign _) as [negative body]. destruct (span isdigit body) as [ds rest'].
  case_bool_decide; [intros [= <- _]; by vm_compute|]. destruct (_ <? LONG_MIN) eqn:E1; [done|].
  destruct (LONG_MAX <? _) eqn:E2; [done|]. apply Z.ltb_ge in E1, E2. intros [= <- _]. lia.
Qed.

Lemma control_operand_positive operand value : control_operand operand false = Some value -> 1 <= value.
Proof.
  unfold control_operand. case_bool_decide; [done|]. destruct (strtol operand) as [[number rest] range] eqn:E.
  destruct (_ || _) eqn:Eb; [done|]. intros [= <-]. rewrite !orb_false_iff in Eb. destruct Eb as [[_ Er] Hp]. subst range.
  apply strtol_range in E. cbn in Hp. apply Z.leb_gt in Hp. rewrite Z.mod_small; [lia|]. unfold LONG_MAX in E. lia.
Qed.

Lemma steady_control_handler command name : steady (control_handler command name).
Proof.
  intros s n x Hd Hx. unfold control_handler. apply ends_bind. cbn. apply ends_bind. cbn. set (returning := str_eqb name (bs "return")).
  assert (forall text, ends (let$ _ := diagnose name text ENONE in let$ _ := on_result (fun r => xr_set_status r 2) in eret true) x (fun _ => within s n)) as Hrefuse.
  { intros text. assert (forall A (m : E A), steady m -> ends m x (fun _ => within s n)) as Hm by (intros A m Hm; by apply Hm). apply Hm. execute_tac. }
  assert (forall value, (returning = false -> 1 <= value) -> within s n (with_result x (xr_set_status (xr_set_control (sx_result x)
    (if returning then CSH_CONTROL_RETURN else if str_eqb name (bs "break") then CSH_CONTROL_BREAK else CSH_CONTROL_CONTINUE)
    (if returning then 0 else if value >? loop_depth (sx_context x) then loop_depth (sx_context x) else value)) (if returning then Z.land value 255 else 0))) \/
    (negb returning && (loop_depth (sx_context x) =? 0)) = true) as Hset.
  { intros value Hv. destruct (negb returning && (loop_depth (sx_context x) =? 0)) eqn:E0; [by right|left].
    destruct Hx as (Hs & Hr & Hi). split_and!; [done| |done]. unfold level_fits. cbn. destruct returning; [done|].
    specialize (Hv eq_refl). cbn in E0. apply Z.eqb_neq in E0. assert (loop_depth (sx_context x) = depth s) as Ed by (by subst s).
    rewrite Ed in *. rewrite Z.gtb_ltb. destruct (Z.ltb_spec (depth s) value); destruct (str_eqb _ _); cbn; lia. }
  assert (forall value, (returning = false -> 1 <= value) -> ends (if (returning && (function_depth (csh_state_get_info (sx_state x)) =? 0) && (source_depth (csh_state_get_info (sx_state x)) =? 0)) || (negb returning && (loop_depth (sx_context x) =? 0))
    then let$ _ := diagnose name (if returning then bs "not in a function" else bs "not in a loop") ENONE in let$ _ := on_result (fun r => xr_set_status r 2) in eret true else
    let$ _ := on_result (fun r =>
      let r := xr_set_control r
        (if returning then CSH_CONTROL_RETURN else if str_eqb name (bs "break") then CSH_CONTROL_BREAK else CSH_CONTROL_CONTINUE)
        (if returning then 0 else if value >? loop_depth (sx_context x) then loop_depth (sx_context x) else value) in
      xr_set_status r (if returning then Z.land value 255 else 0)) in
    eret true) x (fun _ => within s n)) as Htransfer.
  { intros value Hv. destruct (_ || _) eqn:Eb; [apply Hrefuse|]. apply orb_false_iff in Eb as [_ Eb].
    destruct (Hset value Hv) as [H|H]; [exact H|congruence]. }
  destruct (match tail (argv command) with [] => [] | o :: rest => if str_eqb o (bs "--") then rest else o :: rest end) as [|operand [|? ?]].
  - apply Htransfer. intros ->. lia.
  - destruct (control_operand operand returning) as [value|] eqn:E; [|apply Hrefuse]. apply Htransfer. intros Er. rewrite Er in E. by eapply control_operand_positive.
  - apply Hrefuse.
Qed.

#[local] Hint Resolve steady_trace_command steady_control_handler : steady.

Lemma steady_function_tree id : steady (function_tree id).
Proof. apply steadily_still. intros x. unfold function_tree. by destruct (p_functions _ !! id), (sx_trees x !! id). Qed.

Lemma steady_run_function plan store reserved arguments : steady (run_function l plan store reserved arguments).
Proof.
  intros s n x Hd Hx. unfold run_function. apply ends_bind. cbn [ends information]. unfold ends at 1. cbn [information].
  apply ends_bind. unfold ends at 1, context. pose proof Hx as (Hs & _).
  apply (ends_step _ _ s n); [auto with steady|exact Hd|exact Hx|]. intros [r parameters] x1 Hx1.
  destruct (negb _); [by apply steadily_fail|].
  apply (ends_step _ _ s n); [auto with steady|exact Hd|exact Hx1|]. intros u1 x2 (Hs2 & Hr2 & Hi2).
  apply ends_bind. unfold ends at 1, put_context. set (s1 := su_with_context s (with_loops (su_context s) 0)). set (x3 := with_context x2 _).
  assert (within s1 n x3) as Hx3.
  { split_and!; [|done|done]. subst s1. rewrite <- Hs in Hs2. unfold x3, surroundings_of, su_with_context in *. cbn.
    injection Hs2 as E1 E2 E3 E4 E5 E6 E7 E8 E9 E10 E11. subst s. cbn. unfold with_background_children, with_loops. cbn. congruence. }
  assert (0 <= depth s1 <= n) as Hd1 by (cbn; lia).
  apply (ends_step _ _ s1 n); [auto with steady|exact Hd1|exact Hx3|]. intros rc x4 Hx4.
  apply (ends_step _ _ s1 n); [auto with steady|exact Hd1|exact Hx4|]. intros u2 x5 (Hs5 & Hr5 & Hi5).
  apply ends_bind. unfold ends at 1, context. apply ends_bind. unfold ends at 1, put_context. set (x6 := with_context x5 _).
  assert (within s n x6) as Hx6.
  { split_and!; [|done|done]. subst s1 s. unfold x6, surroundings_of, su_with_context in *. cbn in *.
    injection Hs5 as E1 E2 E3 E4 E5 E6 E7 E8 E9 E10 E11. unfold with_background_children, with_loops. cbn. congruence. }
  apply (ends_step _ _ s n); [auto with steady|exact Hd|exact Hx6|]. intros u3 x7 Hx7.
  apply (ends_step _ _ s n); [apply steady_on_result; fits_tac|exact Hd|exact Hx7|]. by intros u4 x8 Hx8.
Qed.

#[local] Hint Resolve steady_function_tree steady_run_function : steady.

Lemma steady_local {A} given (m : E (A * bool)) : steady m -> steady (with_local given m).
Proof.
  intros Hm. unfold with_local. destruct given; [execute_tac|]. apply steady_own_context. intros s n x Hs Hn Hx.
  assert (0 <= depth s <= n) as Hd by (unfold depth; rewrite Hs; cbn; lia).
  apply (ends_step _ _ s n); [exact Hm|exact Hd|exact Hx|]. intros [a finished] y Hy. apply ends_bind.
  destruct finished; [|exact Hy]. eapply ends_mono; [by apply (ends_destroy s n)|]. by intros u z Hz.
Qed.

Lemma steady_call_function command name : steady (call_function l command name).
Proof. execute_tac. Qed.

#[local] Hint Resolve steady_call_function : steady.

Lemma steady_flow_handler command given : steady (flow_handler l command given).
Proof. unfold flow_handler. apply steadily_bind; [auto with steady|]. intros name. apply steady_local. execute_tac. Qed.

Lemma steady_new_function tree store : steady (new_function tree store).
Proof. by apply steadily_still. Qed.

#[local] Hint Resolve steady_flow_handler steady_new_function : steady.

Lemma steady_define_function tree store : steady (define_function l tree store).
Proof. execute_tac. Qed.

Lemma steady_job_handler command : steady (job_handler command).
Proof. execute_tac. Qed.

#[local] Hint Resolve steady_define_function steady_job_handler : steady.

(** ** Jobs *)

Lemma steady_set_process i index pid : steady (set_process i index pid).
Proof. apply steadily_still. intros x. unfold set_process. by destruct (sx_jobs x). Qed.

Lemma steady_fork_signals recover : steady (jobs_fork_signals recover).
Proof.
  apply steadily_still. intros x. unfold jobs_fork_signals. destruct (sx_jobs x); [|done]. by destruct (csh_jobs_fork_signals _ _ _) as [[? ?] ?].
Qed.

#[local] Hint Resolve steady_set_process steady_fork_signals : steady.

Lemma steady_launch_stages children index i gate asynchronous prepared negated previous :
  steady (launch_stages children index i gate asynchronous prepared negated previous).
Proof. revert index previous. induction children; intros; cbn [launch_stages]; execute_tac. Qed.

#[local] Hint Resolve steady_launch_stages : steady.

Lemma steady_job_launch i children asynchronous prepared negated : steady (job_launch i children asynchronous prepared negated).
Proof. execute_tac. Qed.

#[local] Hint Resolve steady_job_launch : steady.

Lemma steady_context_job plan prepared asynchronous stages : steady (context_job plan prepared asynchronous stages).
Proof. execute_tac. Qed.

#[local] Hint Resolve steady_context_job : steady.

(** ** Evaluation *)

(** [opened] is the source that is to be closed. *)
Lemma ends_source (input : csh_error + nat) sourced arguments s1 s n x :
  depth s1 = depth s -> 0 <= depth s <= n -> within s1 n x ->
  match input with
  | inl _ => s1 = s
  | inr id => (id ∉ su_sources s) /\ s1 = su_with_sources s (id :: su_sources s)
  end ->
  ends (evaluate_source l input sourced arguments) x (fun _ => within s n).
Proof.
  intros Ed Hd Hx Hin. assert (0 <= depth s1 <= n) as Hd1 by (by rewrite Ed). unfold evaluate_source. apply ends_bind.
  apply (ends_mono _ _ (fun r y => snd (fst r) = match input with inl _ => None | inr id => Some id end /\ within s1 n y)).
  { destruct input as [e|id]; [by split|]. destruct (bool_decide _); [by split|].
    apply (ends_step _ _ s1 n); [auto with steady|exact Hd1|exact Hx|]. intros [r parameters] y Hy.
    destruct (bool_decide _); by split. }
  intros [[rc id] pushed] y [Hid Hy]. cbn in Hid.
  apply (ends_step _ _ s1 n); [execute_tac|exact Hd1|exact Hy|]. intros rc1 x2 Hx2.
  apply (ends_step _ _ s1 n); [execute_tac|exact Hd1|exact Hx2|]. intros u x3 Hx3. apply ends_bind.
  destruct input as [e|i]; subst id; [by subst s1|]. destruct Hin as [Hin ->].
  eapply ends_mono; [by apply ends_closing|]. by intros v x4 Hx4.
Qed.

Lemma steady_source f sourced arguments : (forall s, fresh_sources s -> let '(r, s') := f s in opening r s s') ->
  steady (let$ input := einput f in finished (evaluate_source l input sourced arguments)).
Proof.
  intros Hf s n x Hd Hx. apply ends_bind. eapply ends_opening; [exact Hf|exact Hx| |].
  - intros e y Hy. apply ends_bind. eapply ends_mono; [apply (ends_source (inl e) sourced arguments s s n); done|]. by intros rc z Hz.
  - intros id y Hid Hy. apply ends_bind. eapply ends_mono; [by apply (ends_source (inr id) sourced arguments (su_with_sources s (id :: su_sources s)) s n)|].
    by intros rc z Hz.
Qed.

Lemma steady_dot_handler operands : steady (dot_handler l operands).
Proof.
  unfold dot_handler. destruct (skip_marker operands) as [|name arguments]; [execute_tac|]. apply steadily_bind; [auto with steady|].
  intros [path|]; [|execute_tac]. apply steady_source, from_file_opening.
Qed.

Lemma steady_eval_handler operands : steady (eval_handler l operands).
Proof.
  unfold eval_handler. destruct (eval_length _ _); [|execute_tac]. apply steadily_bind; [auto with steady|]. intros ok.
  destruct (negb ok); [execute_tac|]. apply steady_source, from_string_opening.
Qed.

Lemma steady_exec_signals recover : steady (context_exec_signals recover).
Proof. apply steadily_still. intros x. unfold context_exec_signals. by destruct (csh_jobs_exec_signals _ _ _). Qed.

#[local] Hint Resolve steady_dot_handler steady_eval_handler steady_exec_signals : steady.

Lemma steady_exec_handler command : steady (exec_handler command).
Proof. execute_tac. Qed.

Lemma steady_lookup_reports utility names verbose defaults : steady (lookup_reports utility names verbose defaults).
Proof. induction names; cbn [lookup_reports]; execute_tac. Qed.

#[local] Hint Resolve steady_exec_handler steady_lookup_reports : steady.

Lemma steady_run_plain target defaults : steady (run_plain l target defaults).
Proof.
  assert (forall b category h, steady h -> steady (execute_resolved target category (if b : bool then None else Some h) None)) as Hr.
  { intros b category h Hh. apply steady_execute_resolved. intros h' E. destruct b; [done|]. by injection E as <-. }
  unfold run_plain. apply steadily_bind; [auto with steady|]. intros name. apply steadily_bind; [auto with steady|]. intros category. cbv zeta.
  apply steadily_bind; [auto with steady|]. intros ok. destruct (negb ok); [execute_tac|]. apply steadily_bind; [auto with steady|]. intros c.
  apply steadily_bind; [|intros rc; execute_tac]. destruct (_ && _); [auto with steady|]. destruct (_ && _); [auto with steady|].
  apply steadily_bind; [apply Hr; auto with steady|]. execute_tac.
Qed.

#[local] Hint Resolve steady_run_plain : steady.

Lemma steady_command_handler command name : steady (command_handler l command name).
Proof. execute_tac. Qed.

Lemma steady_hash_list names : steady (hash_list names).
Proof. induction names; cbn [hash_list]; execute_tac. Qed.

Lemma steady_hash_operands operands : steady (hash_operands operands).
Proof. induction operands; cbn [hash_operands]; execute_tac. Qed.

#[local] Hint Resolve steady_command_handler steady_hash_list steady_hash_operands : steady.

Lemma steady_evaluation_handler command given : steady (evaluation_handler l command given).
Proof. unfold evaluation_handler. apply steadily_bind; [auto with steady|]. intros name. apply steady_local. execute_tac. Qed.

#[local] Hint Resolve steady_evaluation_handler : steady.

Lemma steady_bootstrap_handler command given : steady (bootstrap_handler l command given).
Proof. execute_tac. Qed.

#[local] Hint Resolve steady_bootstrap_handler : steady.

(** ** Simple commands *)

Lemma steady_command_arguments words store c : steady (command_arguments l words store c).
Proof. apply steady_with_parsers. intros. execute_tac. Qed.

Lemma steady_prepared_assignments words store c : steady (prepared_assignments l words store c).
Proof. apply steady_with_parsers. intros. execute_tac. Qed.

#[local] Hint Resolve steady_command_arguments steady_prepared_assignments : steady.

Lemma ends_cloned b s n x : within s n x -> ends (let$ y := eget in eput (with_cloned y b)) x (fun _ => within (su_with_marks s (su_tracing s) b) n).
Proof. intros (Hs & Hr & Hi). by subst s. Qed.

Lemma steady_simple_redirects tree store reserved command : steady (simple_redirects l tree store reserved command).
Proof.
  unfold simple_redirects. destruct (_ && _); [|execute_tac]. intros s n x Hd Hx.
  apply (ends_step _ _ s n); [auto with steady|exact Hd|exact Hx|]. intros st x1 Hx1.
  apply (ends_step _ _ s n); [auto with steady|exact Hd|exact Hx1|]. intros [r copy] x2 Hx2.
  assert (forall A (m : E A), steady m -> ends m x2 (fun _ => within s n)) as Hm by (intros A m Hm; by apply Hm).
  destruct r; try (apply Hm; solve [execute_tac]). destruct copy as [copy|]; [|apply Hm; execute_tac]. clear Hm.
  apply (ends_step _ _ s n); [auto with steady|exact Hd|exact Hx2|]. intros u3 x3 Hx3.
  apply ends_bind. unfold ends at 1, eget. apply ends_bind. unfold ends at 1, eput.
  set (s1 := su_with_marks s (su_tracing s) true). set (x4 := with_cloned x3 true).
  assert (within s1 n x4) as Hx4 by (destruct Hx3 as (Hs3 & ? & ?); by subst s).
  apply (ends_step _ _ s1 n); [auto with steady|exact Hd|exact Hx4|]. intros r5 x5 Hx5.
  apply (ends_step _ _ s1 n); [auto with steady|exact Hd|exact Hx5|]. intros copy6 x6 (Hs6 & Hr6 & Hi6).
  apply ends_bind. unfold ends at 1, eget. apply ends_bind. unfold ends at 1, eput. set (x7 := with_cloned x6 _).
  assert (within s n x7) as Hx7.
  { split_and!; [|done|done]. destruct Hx3 as (Hs3 & _). subst s s1. unfold x7, surroundings_of, su_with_marks in *. cbn in *.
    injection Hs6 as E1 E2 E3 E4 E5 E6 E7 E8 E9 E10 E11. unfold with_background_children in *. cbn. congruence. }
  apply (ends_step _ _ s n); [auto with steady|exact Hd|exact Hx7|]. intros u8 x8 Hx8.
  apply (ends_step _ _ s n); [auto with steady|exact Hd|exact Hx8|]. by intros u9 x9 Hx9.
Qed.

#[local] Hint Resolve steady_simple_redirects : steady.

Lemma steady_simple_command plan command direct stage : steady (simple_command l plan command direct stage).
Proof.
  unfold simple_command. apply steadily_bind; [auto with steady|]. intros r. apply steadily_bind; [execute_tac|]. intros category.
  apply steadily_bind; [execute_tac|]. intros u. apply steadily_bind; [auto with steady|]. intros u1. apply steadily_bind; [auto with steady|]. intros c.
  cbv zeta. set (managed := cx_jobs c && _ && _). set (p := if managed then _ else _).
  assert (forall h, snd p = Some h -> steady h) as Hp.
  { unfold p. intros h. destruct managed; cbn [snd]; [intros [= <-]; auto with steady|]. destruct category; try done; intros [= <-]; auto with steady. }
  destruct p as [category' handler]. cbn [snd] in Hp. pose proof (steady_execute_resolved command category' handler stage Hp) as He. execute_tac.
Qed.

Lemma steady_commit_all saves : steady (foldr (fun save m => let$ _ := redirect_commit save in m) (eret tt) saves).
Proof. induction saves; cbn [foldr]; execute_tac. Qed.

#[local] Hint Resolve steady_simple_command steady_commit_all : steady.

Lemma steady_simple_end rc saves copy stage : steady (simple_end rc saves copy stage).
Proof. execute_tac. Qed.

#[local] Hint Resolve steady_simple_end : steady.

Lemma steady_runtime_simple plan store reserved direct stage : steady (runtime_simple l plan store reserved direct stage).
Proof. execute_tac. Qed.

#[local] Hint Resolve steady_runtime_simple : steady.

(** ** Pipelines and the background *)

Lemma steady_context_wait pid : steady (context_wait pid).
Proof. execute_tac. Qed.

Lemma steady_pipeline_stages children index asynchronous negated p : steady (pipeline_stages children index asynchronous negated p).
Proof. revert index p. induction children; intros; cbn [pipeline_stages]; execute_tac. Qed.

Lemma steady_wait_stages stages : steady (wait_stages stages).
Proof. induction stages; cbn [wait_stages]; execute_tac. Qed.

#[local] Hint Resolve steady_context_wait steady_pipeline_stages steady_wait_stages : steady.

Lemma steady_context_pipeline plan store reserved asynchronous : steady (context_pipeline l plan store reserved asynchronous).
Proof. execute_tac. Qed.

#[local] Hint Resolve steady_context_pipeline : steady.

Lemma steady_context_fork plan store reserved asynchronous : steady (context_fork l plan store reserved asynchronous).
Proof. execute_tac. Qed.

#[local] Hint Resolve steady_context_fork : steady.

(** ** Compound commands *)

Lemma steady_execute_test plan store reserved : steady (execute_test l plan store reserved).
Proof. execute_tac. Qed.

#[local] Hint Resolve steady_execute_test : steady.

Lemma steady_if_loop branches children has_else store reserved : steady (if_loop l branches children has_else store reserved).
Proof.
  revert children. induction branches as [|n IH]; intros; cbn [if_loop]; [execute_tac|].
  destruct children as [|condition [|body rest]]; execute_tac.
Qed.

(** In a loop: the surroundings with one loop more. *)
Definition deeper (s : surroundings) : surroundings := su_with_context s (with_loops (su_context s) (depth s + 1)).

Lemma ends_enter s n x : within s n x -> ends enter_loop x (fun _ => within (deeper s) n).
Proof. intros (Hs & Hr & Hi). by subst s. Qed.

Lemma ends_leave s n x : within (deeper s) n x -> ends leave_loop x (fun _ => within s n).
Proof.
  intros (Hs & Hr & Hi). apply ends_bind. unfold ends at 1, context. split_and!; [|done|done]. destruct s as [[]].
  unfold deeper, surroundings_of, su_with_context in *. cbn in *. injection Hs as E1 E2 E3 E4 E5 E6 E7 E8 E9 E10 E11.
  unfold with_background_children, with_loops. cbn. rewrite E1. f_equal; [f_equal; [unfold depth; cbn; lia|done..]|done..].
Qed.

(** A transfer is one level less after a loop has taken it. *)
Lemma ends_transfer s n x : 0 <= n -> within s (n + 1) x -> ends loop_transfer x (fun _ => within s n).
Proof.
  intros Hn (Hs & Hr & Hi). apply ends_bind. unfold ends at 1, result. unfold level_fits in Hr.
  destruct (xr_control (sx_result x)) eqn:Ec; rewrite ?Ec in Hr; try (by split_and!; [|unfold level_fits; rewrite Ec|]).
  all: apply ends_bind; unfold ends at 1, on_result; set (levels := (xr_levels (sx_result x) - 1) mod 2 ^ 32).
  all: pose proof (Z.mod_pos_bound (xr_levels (sx_result x) - 1) (2 ^ 32) eq_refl); pose proof (Z.mod_le (xr_levels (sx_result x) - 1) (2 ^ 32) ltac:(lia) eq_refl); assert (0 <= levels <= n) by lia.
  all: destruct (levels =? 0) eqn:El; cbn [negb]; [by split_and!|].
  all: apply Z.eqb_neq in El; split_and!; [done| |done]; unfold level_fits; cbn; rewrite Ec; lia.
Qed.

Lemma steady_loop_ends rc t : steady (loop_ends rc t).
Proof. execute_tac. Qed.

#[local] Hint Resolve steady_if_loop steady_loop_ends : steady.

(** A part of the body of a loop, with the transfer that it leaves. *)
Lemma ends_part {A} (m : E A) (k : A -> transfer -> E bool) s n x : steady m -> 0 <= depth s <= n -> within (deeper s) n x ->
  (forall a t y, within (deeper s) n y -> ends (k a t) y (fun _ => within (deeper s) n)) ->
  ends (let$ a := m in let$ t := loop_transfer in k a t) x (fun _ => within (deeper s) n).
Proof.
  intros Hm Hd Hx Hk. apply ends_bind.
  eapply (ends_steady _ (deeper s) (n + 1)); [exact Hm|change (depth (deeper s)) with (depth s + 1); lia|eapply within_mono; [exact Hx|lia]|]. intros a y Hy.
  apply ends_bind. eapply ends_mono; [apply (ends_transfer (deeper s) n); [lia|exact Hy]|]. intros t z Hz. by apply Hk.
Qed.

(** A question about the process. *)
Lemma ends_halts rc t (k : bool -> E bool) x Q : (forall b, ends (k b) x Q) -> ends (ebind (loop_ends rc t) k) x Q.
Proof.
  intros Hk. assert (exists b, loop_ends rc t x = (EDone b, x)) as [b Hb].
  { assert (exists b, halted x = (EDone b, x)) as [b Hb].
    { unfold halted, context_stopped, context_noexec, ebind, information, result, eret. by destruct (_ || _); eexists. }
    destruct rc, t; cbn; eauto. }
  unfold ends, ebind. rewrite Hb. apply Hk.
Qed.

Lemma ends_while n0 wanted condition body store reserved last ignored s n x : 0 <= depth s <= n -> within (deeper s) n x ->
  ends (while_loop l n0 wanted condition body store reserved last ignored) x (fun _ => within (deeper s) n).
Proof.
  revert last ignored x. induction n0 as [|n0 IH]; intros last ignored x Hd Hx; cbn [while_loop]; [done|].
  apply ends_part; [auto with steady|done|done|]. intros rc t y Hy. apply ends_halts. intros [|]; [done|].
  assert (ends (let$ r := result in
    if negb (eqb (xr_status r =? 0) wanted) then let$ _ := on_result (fun r => xr_set_ignored (xr_set_status r last) ignored) in eret rc
    else
      let$ rc := execute_below l body store reserved in
      let$ r := result in
      let$ t := loop_transfer in
      let$ stop := loop_ends rc t in
      if stop then eret rc else while_loop l n0 wanted condition body store reserved (xr_status r) (xr_errexit_ignored r)) y
    (fun _ => within (deeper s) n)) as Hbody; [|by destruct t; [exact Hbody|exact Hbody|apply IH]].
  apply ends_bind. unfold ends at 1, result. destruct (negb _); [exact Hy|].
  assert (forall (m : E bool) (k : bool -> csh_execution -> transfer -> E bool) y,
    ends (let$ a := (let$ rc := m in let$ r := result in eret (rc, r)) in let$ t := loop_transfer in k (fst a) (snd a) t) y (fun _ => within (deeper s) n) ->
    ends (let$ rc := m in let$ r := result in let$ t := loop_transfer in k rc r t) y (fun _ => within (deeper s) n)) as Hassoc.
  { intros m k z. unfold ends, ebind, result, eret. by destruct (m z) as [[| | | | |a] z']. }
  apply (Hassoc _ (fun rc r t => let$ stop := loop_ends rc t in
    if stop then eret rc else while_loop l n0 wanted condition body store reserved (xr_status r) (xr_errexit_ignored r))).
  apply ends_part; [execute_tac|done|done|]. intros [rc' r'] t' z Hz. apply ends_halts. intros [|]; [done|]. by apply IH.
Qed.

Lemma steady_expand_words ws store words : steady (expand_words l ws store words).
Proof. revert words. induction ws; intros; cbn [expand_words]; execute_tac. Qed.

Lemma steady_copy_words n index : steady (copy_words n index).
Proof. revert index. induction n; intros; cbn [copy_words]; execute_tac. Qed.

#[local] Hint Resolve steady_expand_words steady_copy_words : steady.

(** The assignment to the variable of a loop does not touch the result. *)
Lemma ends_for name words body store reserved rc s n x : 0 <= depth s <= n -> within (deeper s) n x ->
  ends (for_loop l name words body store reserved rc) x (fun _ => within (deeper s) n).
Proof.
  revert rc x. induction words as [|word rest IH]; intros rc x Hd Hx; cbn [for_loop]; [done|].
  assert (forall A (m : E A) (k : A -> E bool) y, within (deeper s) n y -> (forall z, still z (snd (m z))) ->
    (forall a z, within (deeper s) n z -> ends (k a) z (fun _ => within (deeper s) n)) -> ends (ebind m k) y (fun _ => within (deeper s) n)) as Hstep.
  { intros A m k y Hy Hm Hk. apply ends_bind. specialize (Hm y). unfold ends at 1. destruct (m y) as [[| | | | |a] z]; try done.
    apply Hk. by eapply still_within. }
  assert (forall A (f : csh_state -> M (A * csh_state)) z, still z (snd (on_state f z))) as Hon.
  { intros A f z. unfold on_state, state, ehost, ebind, put_state, eret. by destruct (f _ _) as [[a st] p]. }
  apply Hstep; [done|apply Hon|]. intros assigned y Hy. apply ends_bind. unfold ends at 1, information.
  apply Hstep; [done|intros z; destruct (bool_decide (assigned = CSH_STATE_OK) && _); [apply Hon|by split_and!]|]. intros assigned' z Hz.
  destruct (negb _); [exact Hz|]. apply ends_part; [auto with steady|done|done|].
  intros rc' t u Hu. apply ends_halts. intros [|]; [done|]. by apply IH.
Qed.

(** A loop in its surroundings. *)
Lemma steady_loop (m : E bool) : (forall s n x, 0 <= depth s <= n -> within (deeper s) n x -> ends m x (fun _ => within (deeper s) n)) ->
  steady (let$ _ := enter_loop in let$ rc := m in let$ _ := leave_loop in eret rc).
Proof.
  intros Hm s n x Hd Hx. apply ends_bind. eapply ends_mono; [by apply ends_enter|]. intros u y Hy. cbv beta in Hy.
  apply ends_bind. eapply ends_mono; [by apply Hm|]. intros rc z Hz. apply ends_bind. eapply ends_mono; [apply (ends_leave s n); exact Hz|]. by intros v w Hw.
Qed.

Lemma steady_while n0 wanted condition body store reserved :
  steady (let$ _ := enter_loop in let$ rc := while_loop l n0 wanted condition body store reserved 0 false in let$ _ := leave_loop in eret rc).
Proof. apply steady_loop. intros. by apply ends_while. Qed.

Lemma steady_for name words body store reserved :
  steady (let$ _ := enter_loop in let$ rc := for_loop l name words body store reserved true in let$ _ := leave_loop in eret rc).
Proof. apply steady_loop. intros. by apply ends_for. Qed.

Lemma steady_match_patterns patterns word store : steady (match_patterns l patterns word store).
Proof. induction patterns; cbn [match_patterns]; execute_tac. Qed.

#[local] Hint Resolve steady_while steady_for steady_match_patterns : steady.

Lemma steady_case_loop l_items children word fallthrough store reserved : steady (case_loop l l_items children word fallthrough store reserved).
Proof. revert children fallthrough. induction l_items; intros; destruct children; cbn [case_loop]; execute_tac. Qed.

#[local] Hint Resolve steady_case_loop : steady.

Lemma steady_compound_body plan store reserved : steady (compound_body l plan store reserved).
Proof. execute_tac. Qed.

(** ** Plans *)

Lemma steady_execute_list children store reserved rc : steady (execute_list l children store reserved rc).
Proof. revert rc. induction children; intros; cbn [execute_list]; execute_tac. Qed.

#[local] Hint Resolve steady_compound_body steady_execute_list : steady.

Lemma steady_execute_kind plan store reserved : steady (execute_kind l plan store reserved).
Proof. execute_tac. Qed.

Lemma steady_plan_end kind rc : steady (plan_end l kind rc).
Proof. execute_tac. Qed.

#[local] Hint Resolve steady_execute_kind steady_plan_end : steady.

Lemma steady_execute_plan plan store reserved : steady (execute_plan l plan store reserved).
Proof. execute_tac. Qed.
End Level.
