(* ===== verification/ExecuteTheorems.v ===== *)
(** * Properties of the executor

    Every run gives its surroundings back, command substitutions deliver what
    their command wrote and change nothing in the shell, so that the expansion
    and preparation of words are safe and atomic with the executor of this shell;
    managed and unmanaged pipelines agree on their status. *)

From stdpp Require Import base list gmap strings.
From S2P Require Import Prelude Output Numbers Options Character Quote Alias State StateCopy StateTheorems Arithmetic Expansion Pathname Fields Descriptors Redirect RedirectTheorems Input Signals Traps Builtin Jobs Process Lexer LexerLook LexerReplay LexerTheorems Values ValueLogic ValueSafety ValuesTheorems LexerKinds Ast Parser ParserLexer Grammar Prepare PrepareTheorems Plan Execution ExecutionTheorems Utility Directory Execute ExecuteLogic ExecuteSteady.

(** ** Surroundings *)

Section Surroundings.
Context {loc : Locale} {fs : Files} {users : Users} {db : LocaleDb} {collation : Collation} {disk : Disk}.
Context {signal_text : SignalText} {errors : ErrorText} {system : System}.

#[export] Instance level_steady n : SteadyLevel (level_at n).
Proof.
  induction n as [|n IH]; split; intros; cbn [level_at execute_below handler_below]; [done|done|by apply steady_execute_plan|by apply steady_bootstrap_handler].
Qed.

(** Loops are counted from 0, the transfer in the result is one that the loops
    around can take, and no open source has the number of the next one. *)
Definition well_placed (x : shell) : Prop :=
  0 <= loop_depth (sx_context x) /\ level_fits (sx_result x) (loop_depth (sx_context x)) /\
  Forall (fun i => (i < sx_next_input x)%nat) (fst <$> sx_inputs x).

(** When the computation comes back. *)
Definition gives_back {A} (m : E A) (x : shell) : Prop :=
  match m x with (EDone _, y) => surroundings_of y = surroundings_of x /\ well_placed y | _ => True end.

Lemma steady_gives_back {A} (m : E A) x : steady m -> well_placed x -> gives_back m x.
Proof.
  intros Hm (H1 & H2 & H3). pose proof (Hm (surroundings_of x) (loop_depth (sx_context x)) x) as H. unfold depth in H. cbn in H.
  specialize (H ltac:(lia) ltac:(by split_and!)). unfold gives_back, ends in *. destruct (m x) as [[| | | | |a] y]; try done.
  destruct H as (E & Hf & Hi). split; [done|].
  pose proof (f_equal depth E) as Ed. unfold depth in Ed. cbn in Ed.
  pose proof (f_equal su_sources E) as Es. cbn in Es, Hi. split_and!; [by rewrite Ed|by rewrite Ed|by rewrite Es].
Qed.

(** C30: whatever a plan, a handler or the text of a source runs (loops,
    functions, dot scripts, trap actions, substitutions, failures on the way),
    when it comes back the process has the surroundings from before: the
    depth of loops and the flags of the context, the scopes of reserved
    descriptors, the open sources, the marks; and the transfer of control in
    the result is none, a return, or one that 1 up to the number of loops around
    can take. *)
Theorem executor_gives_back (n : nat) (x : shell) : well_placed x ->
  (forall plan store reserved, gives_back (execute_plan (level_at n) plan store reserved) x) /\
  (forall command given, gives_back (bootstrap_handler (level_at n) command given) x) /\
  (forall id sourced, gives_back (evaluate_input (level_at n) id sourced) x).
Proof.
  intros Hx. pose proof (level_steady n) as Hl.
  split_and!; intros; (apply steady_gives_back; [|done]); [apply steady_execute_plan|apply steady_bootstrap_handler|apply steady_evaluate_input]; exact Hl.
Qed.
End Surroundings.

(** ** Commands in a sample world *)

#[local] Existing Instance c_locale.
#[local] Existing Instance every_locale.
#[local] Existing Instance tiny_files.
#[local] Existing Instance no_users.
#[local] Existing Instance quiet_disk.
#[local] Existing Instance quiet_system.
#[local] Existing Instance plain_errors.
#[local] Instance plain_signals : SignalText := fun _ => bs "Unknown".
#[local] Instance no_collation : Collation := fun _ _ => Eq.

Definition run_text (n : nat) (text : str) : E bool :=
  let$ source := einput (csh_input_from_string (Some text) (Some (bs "text"))) in
  match source with inl e => let$ _ := put_error e in eret false | inr id => evaluate_input (level_at n) id false end.

(** The value and the status of a run, and a variable after it. *)
Definition after_run (text name : str) : option (bool * Z * option str) :=
  match run_text 60 text quiet_shell with
  | (EDone ok, y) => Some (ok, xr_status (sx_result y), view_value (snd (csh_state_get_variable (sx_state y) (Some name))))
  | _ => None
  end.

Example run_loops : after_run (bs "for i in 1 2 3; do x=$x$i; while :; do case $i in 2) break 2;; esac; break; done; done") (bs "x") = Some (true, 0, Some (bs "12")).
Proof. vm_compute. reflexivity. Qed.

Example run_functions : after_run (bs "f() { y=$1; return 3; y=no; }; f a b; z=$?$y") (bs "z") = Some (true, 0, Some (bs "3a")).
Proof. vm_compute. reflexivity. Qed.

Example run_pipelines : after_run (bs "set -o pipefail; /bin/false | /bin/true; x=$?; ! /bin/true | /bin/true; x=$x$?; (exit 7) || x=$x$?") (bs "x") = Some (true, 0, Some (bs "117")).
Proof. vm_compute. reflexivity. Qed.

Example run_substitutions : after_run (bs "x=`/bin/true`$(($(eval 'exit 5'; :)1+2)); y=$?") (bs "x") <> None.
Proof. vm_compute. discriminate. Qed.

(** A loop that is left from inside another, in the source number 0. *)
Definition loop_shell : shell :=
  snd (einput (csh_input_from_string (Some (bs "for i in 1 2; do while :; do break 2; done; done")) (Some (bs "text"))) quiet_shell).

Lemma loop_shell_placed : well_placed loop_shell.
Proof. split_and!; [vm_compute; discriminate|vm_compute; exact I|vm_compute; repeat constructor]. Qed.

Lemma loop_shell_runs : fst (evaluate_input (level_at 60) 0 false loop_shell) = EDone true.
Proof. vm_compute. reflexivity. Qed.

Lemma executor_gives_back_witness :
  fst (evaluate_input (level_at 60) 0 false loop_shell) = EDone true /\ gives_back (evaluate_input (level_at 60) 0 false) loop_shell.
Proof. split; [exact loop_shell_runs|]. exact (proj2 (proj2 (executor_gives_back 60 loop_shell loop_shell_placed)) 0%nat false). Defined.

(** ** Command substitution *)

Section Substitution.
Context {loc : Locale} {fs : Files} {users : Users} {db : LocaleDb} {collation : Collation} {disk : Disk}.
Context {signal_text : SignalText} {errors : ErrorText} {system : System}.
Context (l : level).

(** A relation between processes that does not see the error, the clock, the
    descriptors and the outcomes of allocations. *)
Class Loose (R : shell -> shell -> Prop) : Prop := {
  loose_preorder :: PreOrder R;
  loose_error x e : R x (with_error x e);
  loose_clock x n : R x (at_time x n);
  loose_kernel x k : R x (with_kernel x k);
  loose_proc x p : p_functions p = p_functions (h_proc (sx_host x)) -> R x (with_host x (with_proc (sx_host x) p)) }.

Definition along {A} (R : shell -> shell -> Prop) (m : E A) : Prop := forall x, R x (snd (m x)).

Section Along.
Context {R : shell -> shell -> Prop} {HR : Loose R}.

Lemma along_bind {A B} (m : E A) (f : A -> E B) : along R m -> (forall a, along R (f a)) -> along R (ebind m f).
Proof.
  intros Hm Hf x. specialize (Hm x). unfold ebind. destruct (m x) as [[| | | | |a] y]; try done. etrans; [exact Hm|apply Hf].
Qed.

Lemma along_ret {A} (a : A) : along R (eret a).
Proof. by intros x. Qed.

Lemma along_fail text number status : along R (efail text number status).
Proof. intros x. apply loose_error. Qed.

Lemma along_malloc : along R (ehost malloc).
Proof.
  intros x. unfold ehost. pose proof (post_malloc (h_proc (sx_host x)) (fun _ p => p_functions p = p_functions (h_proc (sx_host x)))
    ltac:(intros b w (_ & _ & _ & H) _; exact H)) as H. unfold post in H. destruct (malloc _) as [b p]. by apply loose_proc.
Qed.

Lemma along_files {A} (m : K A) : along R (efiles m).
Proof. intros x. unfold efiles. destruct (m _). apply loose_kernel. Qed.

Lemma along_ask {A} (f : Z -> nat -> A) : along R (ask f).
Proof. intros x. apply loose_clock. Qed.

Lemma along_pipe_close fd : along R (pipe_close fd).
Proof. unfold pipe_close. destruct (_ <? _); [apply along_ret|]. apply along_bind; [apply along_files|intros; apply along_ret]. Qed.

Lemma along_read_chunks chunks used capacity failed : along R (read_chunks chunks used capacity failed).
Proof.
  revert used capacity failed. induction chunks as [|[e|chunk] chunks IH]; intros used capacity failed; cbn [read_chunks].
  - apply along_ret.
  - destruct e; try (apply along_bind; [apply along_fail|intros; apply along_ret]). apply IH.
  - assert (forall text number status, along R (let$ _ := efail text number status in read_chunks chunks used capacity true)) as Hfail.
    { intros. apply along_bind; [apply along_fail|intros; apply IH]. }
    destruct chunk as [|b chunk]; [apply along_ret|]. destruct failed; [apply IH|].
    destruct (existsb _ _); [apply Hfail|]. destruct (_ >=? _); [apply Hfail|]. destruct (_ <=? _); [apply IH|].
    apply along_bind; [apply along_malloc|]. intros [|]; [apply IH|apply Hfail].
Qed.
End Along.

(** What a substitution may not touch: the state of the shell, the references
    to functions, and the records of the command around it. *)
Definition untouched (x y : shell) : Prop :=
  sx_state y = sx_state x /\ p_functions (h_proc (sx_host y)) = p_functions (h_proc (sx_host x)) /\
  sx_result y = sx_result x /\ sx_context y = sx_context x /\ sx_saves y = sx_saves x /\ sx_inputs y = sx_inputs x /\
  sx_jobs y = sx_jobs x /\ sx_traps y = sx_traps x.

#[local] Instance untouched_loose : Loose untouched.
Proof.
  split; try (by intros; split_and!). split; [by intros x; split_and!|]. intros x y z. unfold untouched. naive_solver congruence.
Qed.

(** The same process with the same children. *)
Definition same_children (x y : shell) : Prop :=
  untouched x y /\ h_children (sx_host y) = h_children (sx_host x) /\ sx_process y = sx_process x.

#[local] Instance same_children_loose : Loose same_children.
Proof.
  pose proof untouched_loose as H. split; try (intros; split; [by apply H|done]). split; [by intros x|]. intros x y z (U1 & E1 & E2) (U2 & E3 & E4).
  split; [by etrans|split; congruence].
Qed.

Lemma along_jobs {A} (m : J A) : (forall h r h', m h = Some (r, h') -> h_proc h' = h_proc h) -> along untouched (ejobs m).
Proof. intros Hm x. unfold ejobs. destruct (m _) as [[a h]|] eqn:E; [|by split_and!]. apply Hm in E. split_and!; try done. cbn. by rewrite E. Qed.

Lemma waitpid_exit_proc pid h r h' : waitpid_exit pid h = Some (r, h') -> h_proc h' = h_proc h.
Proof. unfold waitpid_exit. destruct (next_fault _) as [fault faults]. repeat case_match; intros [= <- <-]; done. Qed.

Lemma wait_retry_proc fuel pid h r h' : wait_retry fuel pid h = Some (r, h') -> h_proc h' = h_proc h.
Proof.
  revert h. induction fuel as [|fuel IH]; intros h; cbn [wait_retry]; [done|]. unfold jbind.
  destruct (waitpid_exit pid h) as [[r1 h1]|] eqn:E; [|done]. apply waitpid_exit_proc in E.
  destruct r1 as [[]|]; try (by intros [= <- <-]). intros H. apply IH in H. congruence.
Qed.

Lemma kill_proc pid sig h r h' : kill pid sig h = Some (r, h') -> h_proc h' = h_proc h.
Proof. unfold kill. destruct (next_fault _) as [fault faults]. repeat case_match; intros [= <- <-]; done. Qed.

Lemma along_wait pid : along untouched (wait_status pid).
Proof. intros x. unfold wait_status, ebind at 1, eget. apply along_jobs. intros h r h'. apply wait_retry_proc. Qed.

Lemma along_kill pid sig : along untouched (kill_process pid sig).
Proof. apply along_bind; [|intros; apply along_ret]. apply along_jobs. intros h r h'. apply kill_proc. Qed.

Lemma along_fork child : along untouched (fork child).
Proof.
  unfold fork. apply along_bind; [apply along_ask|]. intros [e|pid]; [apply along_ret|]. intros x.
  by destruct (fst (child _)); split_and!.
Qed.

Lemma along_run tree store : along untouched (run_substitution l tree store).
Proof.
  unfold run_substitution, csh_stack_check, block_signals. repeat first
    [ apply along_ret | apply along_fail | apply along_malloc | apply along_wait | apply along_kill | apply along_fork
    | apply along_pipe_close | apply along_read_chunks | apply along_files | apply along_ask
    | apply along_bind | match goal with |- forall _, _ => intro | |- along _ (match ?e with _ => _ end) => destruct e | |- along _ (let _ := _ in _) => cbv zeta end ].
Qed.

(** The executor that prepare.c calls back keeps its promise. *)
Lemma executor_of_sound x : executor_sound (executor_of l x).
Proof.
  intros s store tree [previous o] p Hwf Hpos Hal. unfold csh_execute_substitution, executor_of. destruct (o_unfinished o); [done|].
  set (y := with_process_state _ s). pose proof (along_run tree store y) as H.
  unfold own_error, ebind, error, put_error, eret. cbn beta iota.
  destruct (run_substitution l tree store y) as [[| | | | |[[bytes n]|]] z]; try done;
    destruct H as (H1 & H2 & _); cbn in *; by rewrite H1, H2.
Qed.

(** The bytes that the [read] calls deliver up to the end of the file: an
    interrupted call is made again; a failure or a NUL makes them useless. *)
Fixpoint gathered (chunks : list (errno + str)) : option str :=
  match chunks with
  | [] | inr [] :: _ => Some []
  | inl EINTR :: rest => gathered rest
  | inl _ :: _ => None
  | inr chunk :: rest => if existsb (fun b => b =? 0) chunk then None else app chunk <$> gathered rest
  end.

Lemma grown_buffer_enough n grown need : 0 < grown <= SIZE_MAX -> need <= SIZE_MAX -> need <= grown_buffer n grown need <= SIZE_MAX.
Proof.
  revert grown. induction n as [|n IH]; intros grown Hg Hn; cbn [grown_buffer]; [lia|].
  destruct (Z.leb_spec need grown); [lia|]. rewrite Z.gtb_ltb. destruct (Z.ltb_spec (SIZE_MAX / 2) grown); [lia|].
  apply IH; [|done]. assert (2 * (SIZE_MAX / 2) <= SIZE_MAX) by (apply Z.mul_div_le; lia). lia.
Qed.

(** The buffer of [capacity] bytes has room for the bytes and a NUL. *)
Definition buffered (used : str) (capacity : Z) : Prop := (used = [] /\ capacity = 0) \/ slen used + 1 <= capacity <= SIZE_MAX.

(** A failure has an error, from which on the rest is only drained. *)
Lemma read_chunks_failed chunks used capacity x :
  edone (read_chunks chunks used capacity true) x (fun r y => r = None).
Proof.
  revert x. induction chunks as [|[e|chunk] chunks IH]; intros x; cbn [read_chunks].
  - done.
  - destruct e; done || apply IH.
  - destruct chunk; [done|]. apply IH.
Qed.

Lemma gives_up text number status chunks used capacity x (Q : option (str * Z) -> shell -> Prop) : (forall y, Q None y) ->
  edone (let$ _ := efail text number status in read_chunks chunks used capacity true) x Q.
Proof.
  intros HQ. apply edone_bind, efail_done. intros e. eapply edone_mono; [apply read_chunks_failed|]. by intros r y ->.
Qed.

Lemma read_chunks_gathers chunks used capacity x : buffered used capacity ->
  edone (read_chunks chunks used capacity false) x (fun r y =>
    match r with
    | Some (text, capacity') => app used <$> gathered chunks = Some text /\ buffered text capacity'
    | None => gathered chunks = None \/ p_alloc (h_proc (sx_host x)) <> [] \/ exists text, gathered chunks = Some text /\ SIZE_MAX <= slen used + slen text
    end).
Proof.
  revert used capacity x. induction chunks as [|[e|chunk] chunks IH]; intros used capacity x Hb; cbn [read_chunks gathered].
  - cbn. rewrite app_nil_r. by split.
  - destruct e; try (by left). by apply IH.
  - destruct chunk as [|b chunk']; [cbn; rewrite app_nil_r; by split|]. set (chunk := b :: chunk') in *.
    destruct (existsb _ chunk) eqn:Ez.
    { apply gives_up. intros y. by left. }
    assert (forall used' capacity' x', used' = used ++ chunk -> buffered used' capacity' -> (p_alloc (h_proc (sx_host x)) = [] -> p_alloc (h_proc (sx_host x')) = []) ->
      edone (read_chunks chunks used' capacity' false) x' (fun r y => match r with
        | Some (text, capacity') => app used <$> (app chunk <$> gathered chunks) = Some text /\ buffered text capacity'
        | None => app chunk <$> gathered chunks = None \/ p_alloc (h_proc (sx_host x)) <> [] \/ exists text, app chunk <$> gathered chunks = Some text /\ SIZE_MAX <= slen used + slen text end)) as Hgo.
    { intros used' capacity' x' -> Hb' Ha. eapply edone_mono; [by apply IH|]. intros [[text capacity2]|] y.
      - intros [E Hb2]. split; [|done]. destruct (gathered chunks) as [t|]; [|done]. rewrite <- E. unfold fmap, option_fmap, option_map. by rewrite <- app_assoc.
      - intros [E|[E|(t & E & Hs)]]; [left; by rewrite E|right; left; intros H; by apply E, Ha|].
        right. right. exists (chunk ++ t). rewrite E. split; [done|]. unfold slen in *. rewrite !length_app in *. lia. }
    rewrite Z.geb_leb. destruct (Z.leb_spec (SIZE_MAX - slen used) (slen chunk)) as [Hbig|Hsmall].
    { apply gives_up. intros y.
      destruct (gathered chunks) as [t|] eqn:Eg; [|by left]. right. right. exists (chunk ++ t). split; [done|]. unfold slen in *. rewrite length_app. lia. }
    assert (slen (used ++ chunk) = slen used + slen chunk) as Hl by (unfold slen; rewrite length_app; lia).
    destruct (Z.leb_spec (slen used + slen chunk + 1) capacity) as [Hfit|Hgrow].
    + apply Hgo; [done| |done]. right. rewrite Hl. destruct Hb as [[_ ->]|Hb]; [unfold slen in *; lia|lia].
    + apply edone_bind. unfold edone at 1, ehost.
      assert (forall p ok p', malloc p = (ok, p') -> p_alloc p = [] -> ok = true /\ p_alloc p' = []) as Hcalm.
      { intros p ok p' E Ea. unfold malloc in E. rewrite Ea in E. by injection E as <- <-. }
      destruct (malloc _) as [ok p'] eqn:Em. destruct ok.
      * apply Hgo; [done| |intros Ha; by apply (Hcalm _ _ _ Em)]. right. rewrite Hl.
        pose proof (grown_buffer_enough 60 (if capacity =? 0 then 8193 else capacity) (slen used + slen chunk + 1)) as Hgb.
        destruct (Z.eqb_spec capacity 0); apply Hgb; (destruct Hb as [[_ ?]|Hb]); unfold slen, SIZE_MAX in *; lia.
      * assert (p_alloc (h_proc (sx_host x)) <> []) as Hn by (intros Ha; by destruct (Hcalm _ _ _ Em Ha)).
        apply gives_up. intros y. right. by left.
Qed.

(** The text without the newlines at its end. *)
Lemma trim_newlines_spec text : exists k, text = trim_newlines text ++ replicate k 10 /\ forall b s, trim_newlines text = s ++ [b] -> b <> 10.
Proof.
  induction text as [|c text (k & E & H)]; cbn [trim_newlines]; [exists 0%nat; split; [done|]; by intros b [|? ?]|].
  destruct (trim_newlines text) as [|d kept] eqn:Et.
  - destruct (Z.eqb_spec c 10) as [->|Hc].
    + exists (S k). split; [cbn in *; by rewrite <- E|]. by intros b [|? ?].
    + exists k. split; [cbn in *; by rewrite <- E|]. intros b [|x [|? ?]]; [by intros [= <-]|done..].
  - exists k. split; [by rewrite E|]. intros b [|x s]; [done|]. intros [= _ Es]. by eapply H.
Qed.

(** The statuses that a child has when its computation ends in this way. *)
Definition ended (pid : Z) (r : eoutcome unit) : list Z :=
  default (match r with EExit n => [exit_code n] | EProgram statuses => statuses | _ => [] end) (sys_fate pid).

Lemma wait_retry_status fuel pid h s h' : wait_retry fuel pid h = Some (inr s, h') ->
  exists c, h_children h !! pid = Some c /\ List.find terminated (ch_statuses c) = Some s.
Proof.
  revert h. induction fuel as [|fuel IH]; intros h; cbn [wait_retry]; [done|]. unfold jbind.
  assert (forall e h1, waitpid_exit pid h = Some (inl e, h1) -> h_children h1 = h_children h) as Hk.
  { intros e h1. unfold waitpid_exit. destruct (next_fault _) as [fault faults]. repeat case_match; intros [= <- <-]; done. }
  destruct (waitpid_exit pid h) as [[[e|s'] h1]|] eqn:E; [|intros [= <- <-]|done].
  - specialize (Hk e h1 eq_refl). destruct e; try done. intros H. apply IH in H. by rewrite Hk in H.
  - unfold waitpid_exit in E. destruct (next_fault _) as [fault faults]. destruct fault; [done|].
    destruct (h_children _ !! pid) as [c|] eqn:Ec; [|done]. destruct (List.find _ _) as [s2|] eqn:Es; [|done]. injection E as <- _. by exists c.
Qed.

Lemma ends_along {A B} (m : E A) (f : A -> E B) x (Q : B -> shell -> Prop) :
  along same_children m -> (forall a y, same_children x y -> ends (f a) y Q) -> ends (ebind m f) x Q.
Proof.
  intros Hm Hf. apply ends_bind. specialize (Hm x). unfold ends at 1. destruct (m x) as [[| | | | |a] y]; try done. by apply Hf.
Qed.

(** The child has its statuses when the parent goes on. *)
Lemma ends_fork child x (Q : errno + Z -> shell -> Prop) :
  (forall e y, same_children x y -> Q (inl e) y) ->
  (forall pid z y, h_children (sx_host y) !! pid = Some (mk_child sys_group (ended pid (fst (child (born z pid))))) -> untouched x z -> sx_process y = sx_process x -> Q (inr pid) y) ->
  ends (fork child) x Q.
Proof.
  intros He Hp. unfold fork. apply ends_bind. unfold ends at 1, ask. destruct (sys_fork _ _) as [e|pid]; [by apply He|].
  set (x1 := at_time x _). unfold ends. unfold ended in Hp. destruct (child (born x1 pid)) as [o y] eqn:E. cbn [fst].
  assert (forall statuses, default (match o with EExit n => [exit_code n] | EProgram statuses => statuses | _ => [] end) (sys_fate pid) = statuses ->
    Q (inr pid) (add_child x1 pid statuses)) as H.
  { intros statuses <-. apply (Hp pid x1); [|by split_and!|done]. rewrite E. cbn. by rewrite lookup_insert_eq. }
  destruct o; try done; by apply H.
Qed.

Lemma along_failing {A} (m : E bool) : along same_children m -> along same_children (let$ _ := m in eret (None (A := A))).
Proof. intros Hm. apply along_bind; [exact Hm|intros; apply along_ret]. Qed.

(** The bytes and the status of a substitution. *)
Definition delivered (x : shell) (child : Z -> Z -> E unit) (bytes : str) (n : Z) : Prop :=
  (exists t text k, gathered (sys_chunks (sx_process x) t) = Some text /\ text = bytes ++ replicate k 10 /\ forall b s, bytes = s ++ [b] -> b <> 10) /\
  exists z pid input output s, untouched x z /\ List.find terminated (ended pid (fst (child input output (born z pid)))) = Some s /\ n = decode_status s.

Lemma run_substitution_delivers tree store x :
  ends (run_substitution l tree store) x (fun r _ => match r with Some (bytes, n) => delivered x (substitution_child l tree store) bytes n | None => True end).
Proof.
  set (Q := fun (r : option (str * Z)) (_ : shell) => _).
  assert (forall (m : E bool) y, ends (let$ _ := m in eret None) y Q) as Hnone.
  { intros m y. apply ends_bind. unfold ends at 1. by destruct (m y) as [[]]. }
  unfold run_substitution. apply ends_along; [apply along_ask|]. intros ok x1 H1. destruct ok; cbn [negb]; [|apply Hnone].
  apply ends_along; [apply along_files|]. intros [e|[input output]] x2 H2; [apply Hnone|]. cbv zeta.
  apply ends_along; [apply along_ask|]. intros [number|] x3 H3.
  { apply ends_along; [apply along_bind; [apply along_pipe_close|intros; apply along_pipe_close]|]. intros u y _. apply Hnone. }
  assert (same_children x x3) as (Hu & _ & Hp) by (etrans; [exact H1|]; by etrans). clear H1 H2 H3.
  apply ends_bind, ends_fork.
  { intros e y _. apply ends_along; [apply along_bind; [apply along_pipe_close|intros; apply along_pipe_close]|]. intros u y' _. apply Hnone. }
  intros pid z x4 Hc Hz Hp4. rewrite Hp in Hp4. assert (untouched x z) as Hxz by (by etrans). clear x3 Hp Hu Hz.
  apply ends_along; [apply along_pipe_close|]. intros u x5 (_ & Hc5 & Hp5). apply ends_bind. unfold ends at 1, ask. set (x6 := at_time x5 _).
  apply ends_bind. unfold ends at 1. pose proof (along_read_chunks (R := same_children) (sys_chunks (sx_process x5) (sx_clock x5)) [] 0 false x6) as (_ & Hc7 & Hp7).
  pose proof (read_chunks_gathers (sys_chunks (sx_process x5) (sx_clock x5)) [] 0 x6 (or_introl (conj eq_refl eq_refl))) as Hg. unfold edone in Hg.
  destruct (read_chunks _ _ _ _ x6) as [[| | | | |bytes] x7]; try done. cbn [snd] in Hc7, Hp7.
  apply ends_along; [apply along_pipe_close|]. intros u8 x8 (_ & Hc8 & Hp8).
  apply ends_bind. unfold ends at 1, wait_status, ebind at 1, eget, ejobs.
  destruct (wait_retry _ pid (sx_host x8)) as [[[number|s] h9]|] eqn:Ew; [| |done].
  { apply ends_bind. unfold ends at 1. match goal with |- match ?e with _ => _ end => destruct e as [[| | | | |[]] y] end; try done. destruct bytes; [apply Hnone|done]. }
  apply wait_retry_status in Ew as (c & Ec & Es). assert (h_children (sx_host x8) = h_children (sx_host x4)) as Hch by (cbn in *; congruence).
  rewrite Hch, Hc in Ec. injection Ec as <-. destruct bytes as [[bytes capacity]|]; [|done].
  apply ends_bind. unfold ends at 1. match goal with |- match ?e with _ => _ end => destruct e as [[| | | | |ok] y] end; try done. destruct ok; cbn [negb]; [|apply Hnone].
  destruct Hg as [Hg _]. split; [|by exists z, pid, input, output, s].
  destruct (trim_newlines_spec bytes) as (k & Ek & Hk). exists (sx_clock x5), bytes, k. split_and!; [|done|exact Hk].
  rewrite <- Hp4, <- Hp5. by destruct (gathered _).
Qed.

(** C31: what a command substitution delivers.  When it succeeds, the bytes are
    those that the read calls on the pipe gave up to the end of the file, none
    of them NUL, in order and without the newlines at the end, and the status is
    the one the child ended with, for [exit] and for programs; in every outcome
    the state of the shell, the references to functions and the records of the
    surrounding command are untouched. *)
Theorem substitution_output (tree : csh_ast) (store : gmap nat redirection) (x : shell) :
  match run_substitution l tree store x with
  | (EDone r, y) => untouched x y /\
      match r with
      | Some (bytes, n) => delivered x (substitution_child l tree store) bytes n
      | None => True
      end
  | _ => True
  end.
Proof.
  pose proof (along_run tree store x) as Hu. destruct (run_substitution l tree store x) as [[| | | | |r] y] eqn:E; try done. split; [exact Hu|].
  pose proof (run_substitution_delivers tree store x) as H. unfold ends in H. by rewrite E in H.
Qed.
End Substitution.

(** ** Words in the shell *)

Section Words.
Context {loc : Locale} {LL : LocaleLaws loc} {ST : StableLocale loc} {fs : Files} {users : Users} {db : LocaleDb} {collation : Collation} {disk : Disk}.
Context {signal_text : SignalText} {errors : ErrorText} {system : System}.
Context (l : level) (x : shell) (fuel : nat) (parser_stack : nat -> list (list bool)) (parser_checks : nat -> list bool).

(** The callback that prepare.c gives to the expansion, with the executor of this
    shell behind it. *)
Definition shell_callback (w : word) (store : gmap nat redirection) : substitute_callback :=
  substitute (H3 := executor_of l x) fuel parser_stack parser_checks w store.

(** C14: word expansion is safe for every word.  Whatever record of bytes is
    passed as a token, whatever the host answers (allocations, stack checks,
    character lengths, users, names of files) and whatever the commands of its
    substitutions do when the executor runs them, [csh_expand_word] returns: no
    read outside of the spelling, of a vector or of memory that was not written,
    and no endless walk.  A result comes with a well-formed state in which only
    variables have changed, and with every reference of the checkpoint given back; it has
    the context that was asked for, and only unquoted results of expansions in
    an argument can be split later, only quoted empty values are kept, and other
    contexts have one field at most. *)
Theorem expand_word_sound (token : csh_token) (w : word) store (context : csh_expand_context) (substituting : bool) (s : csh_state) (e : option csh_expand_error)
    (stack : list bool) (answers : list (list bool)) (p : proc) (user : Z * outside)
    (Hbytes : Forall is_byte (tk_raw token)) (Hwf : state_wf s) (Hpos : counts_positive (p_functions p)) (Hal : alias_bytes (aliases s)) :
  match csh_expand_word token (Some (mk_options context (if substituting then Some (shell_callback w store) else None))) (mk_work s e stack answers p user) with
  | (VFault, _) => False
  | (VFail _, _) => True
  | (VDone out, w') => state_wf (vs_state w') /\ fixed (vs_state w') = fixed s /\ p_functions (vs_proc w') = p_functions p /\
      out_sound out /\ ex_context out = context
  end.
Proof.
  pose proof (expand_word_spec token (Some (mk_options context (if substituting then Some (shell_callback w store) else None))) s e stack answers p user Hwf Hpos Hal) as H.
  specialize (H ltac:(destruct substituting; [|done]; apply (substitute_sound _ _ _ (executor_of_sound l x) _ _ _ Hbytes))).
  destruct (csh_expand_word _ _ _) as [[|c|out] w']; [done..|]. by destruct H as (? & ? & ? & _ & _ & ? & ?).
Qed.

(** C18: a word is prepared completely or not at all.  Whatever its bytes, with
    every answer of allocations and stack checks and whatever the commands of
    its substitutions do in this shell, no step is undefined in C; a failure, of
    a stage of expansion, of a parser of backquotes or of the executor, leaves
    the state, the command and the reference counts as they were. *)
Theorem prepare_word_atomic (w : word) store mode (work : prepare_work) (Hbytes : word_bytes w) (Hw : prepared work) :
  match csh_prepare_word (H3 := executor_of l x) fuel parser_stack parser_checks w store mode work with
  | (WFault, _) => False
  | (WFail _ _, work') => pw_state work' = pw_state work /\ pw_command work' = pw_command work /\ p_functions (pw_proc work') = p_functions (pw_proc work)
  | (WDone _, work') => proceeds work work' /\ pw_command work' = pw_command work
  end.
Proof. apply (prepare_word_spec _ _ _ (executor_of_sound l x)); done. Qed.
End Words.

(** In the sample world every substitution reads [out] from its pipe. *)
Definition outside_of (x : shell) : outside := mk_outside (sx_host x) (sx_kernel x) 0 None.

Lemma expand_word_sound_witness : exists out w',
  csh_expand_word (word_of good_word) (Some (mk_options CSH_EXPAND_ASSIGNMENT (Some (shell_callback (level_at 9) quiet_shell 30 (fun _ => []) (fun _ => []) (plain_word good_word) ∅))))
    (mk_work sample_state None [] [] sample_proc (0, outside_of quiet_shell)) = (VDone out, w') /\
  concat (map sp_text (concat (ex_fields out))) = bs "/root/xa3qout" /\ fixed (vs_state w') = fixed sample_state /\ out_sound out.
Proof.
  pose proof (expand_word_sound (level_at 9) quiet_shell 30 (fun _ => []) (fun _ => []) (word_of good_word) (plain_word good_word) ∅ CSH_EXPAND_ASSIGNMENT true
    sample_state None [] [] sample_proc (0, outside_of quiet_shell) ltac:(apply forallb_bytes; vm_compute; reflexivity) sample_state_wf sample_proc_counts sample_alias_bytes) as H.
  cbv iota in H. destruct (csh_expand_word _ _ _) as [[|c|out] w'] eqn:E; [destruct H|vm_compute in E; discriminate E|]. exists out, w'. split; [reflexivity|].
  split; [vm_compute in E; injection E as <- _; reflexivity|]. split; apply H.
Defined.

Definition prepared_word : prepare_work := mk_prepared sample_state no_command [] [] (outside_of quiet_shell) sample_proc.

Lemma prepared_word_ready : prepared prepared_word.
Proof. split; [exact sample_state_wf|exact sample_proc_counts|exact sample_alias_bytes]. Qed.

Lemma prepare_word_atomic_witness : exists w',
  csh_prepare_word (H3 := executor_of (level_at 9) quiet_shell) 30 (fun _ => []) (fun _ => []) (plain_word (bs "${one:=a}`c;d`$((1+2)) ")) ∅ CSH_EXPAND_ARGUMENT prepared_word =
    (WDone [bs "aout3"], w') /\ proceeds prepared_word w'.
Proof.
  pose proof (prepare_word_atomic (level_at 9) quiet_shell 30 (fun _ => []) (fun _ => []) (plain_word (bs "${one:=a}`c;d`$((1+2)) ")) ∅ CSH_EXPAND_ARGUMENT prepared_word) as H.
  destruct (csh_prepare_word _ _ _ _ _ _ _) as [r w'] eqn:E.
  assert (r = WDone [bs "aout3"]) as -> by (change r with (fst (r, w')); rewrite <- E; vm_compute; reflexivity).
  exists w'. split; [reflexivity|]. apply H; [apply forallb_bytes; vm_compute; reflexivity|exact prepared_word_ready].
Defined.

(** ** The status of a pipeline *)






